(* ===== verification/_CoqProject ===== *)
-Q . S2P
Prelude.v
Hash.v
ChunkedLevel.v
Tree.v
Blake3.v
TreeSpec.v
TreeTypes.v
MerkleProof.v
ProofSpec.v
Position.v
Batch.v
Ring.v
Checkpoint.v
ChainError.v
Engine.v
EngineSpec.v
Driver.v
DriverSpec.v
DriverSafety.v
Lineage.v
Convergence.v
Harness.v
Checksum.v
Snapshot.v
Manifest.v
Vfs.v
Store.v
StoreSpec.v
Flusher.v
FlusherSpec.v
Word.v
Scripted.v
Gf16.v
Circuit.v
Gf16Circuit.v
Whipping.v
Quadratic.v
Mayo.v
MayoSpec.v
Snark.v
Kem.v
SealedNote.v
Seal.v
Scan.v
Adapters.v
Wallet.v
Frame.v
Wal.v
WalFile.v
Recovery.v
DataFiles.v
Codec.v
CheckpointRecovery.v
RotorTree.v
RecoverySpec.v
RotorSpec.v
RotorFindings.v
ShardFiles.v
CheckpointSpec.v
MerkleLog.v
MerkleLogSpec.v
