(* ===== verification/Prelude.v ===== *)
(** * A verification library for the [works] crates

    The workspace [src/crates] holds four libraries. Each is modelled by the files named here; a
    file models the source files it names, operation by operation, under the names of the code.

    - [chainfold] folds a chain of blocks into an application state and survives forks and
      crashes. [Position], [Batch], [Ring], [Checkpoint], [ChainError] hold its data
      ([position.rs], [batch.rs], [ring.rs], [checkpoint.rs], [error.rs]); [Engine] is the
      single-writer engine ([engine.rs], [fold.rs]) that consumes batches, detects forks and rolls
      back to checkpoints; [Driver] is the poll loop above it ([driver.rs], [source.rs],
      [sink.rs]), over any [Source] and any [SnapshotSink], with [DriverSpec], [DriverSafety],
      [Lineage] and [Convergence] its theorems; [Harness] is the thread that runs it and its handle
      ([harness.rs]), and [Scripted] the in-memory chain, folds and sink of the tests
      ([test_util.rs]). [Snapshot] is the envelope an engine is saved in ([snapshot.rs]);
      [Manifest], [Vfs] and [Store] are the dual-slot store of snapshots
      ([storage/manifest.rs], [storage/vfs.rs] with the crash-injecting [CrashVfs] of
      [test_util.rs], [storage/store.rs]); [Flusher] is the background thread that commits them
      ([storage/flusher.rs]).
    - [rotortree] is an append-only n-ary Merkle tree. [Hash], [ChunkedLevel], [Tree] and
      [MerkleProof] model it in memory ([hash.rs], [chunked_level.rs], [tree.rs], [proof.rs]), and
      [Blake3] is the adapter of its hasher interface to BLAKE3 ([adapters/blake3.rs]).
      The persistent tree of [src/storage] is [RotorTree] ([mod.rs], [token.rs], [config.rs]):
      insertions go to the tree and, as entries, to a buffer that a flush appends to a log and
      syncs; a checkpoint writes the levels to data files and starts the log over; opening
      recovers. Below it, [Frame], [Wal] and [WalFile] are the log's frames, entries and file
      ([frame.rs], [error.rs], [wal.rs], the trait of [recovery.rs]), [DataFiles] the checkpoint's
      files ([checkpoint.rs], [data.rs]), [Recovery] and [CheckpointRecovery] the two ways to
      recover ([recovery.rs]), and [Codec] a serializer that shows the classes have instances.
    - [sealring] seals notes to a recipient. [Kem] has its traits ([kem.rs], [domain.rs],
      [recipient.rs], [test_util.rs]), [SealedNote] the wire format ([envelope.rs], [error.rs]),
      [Seal] sealing and opening ([seal.rs]), [Scan] batch trial decryption ([scan.rs]),
      [Adapters] the key-encapsulation adapters ([adapters/]).
    - [binius-mayo] is a circuit that verifies MAYO-2 signatures. [Word] and [Circuit] are what it
      uses of its frontend; [Gf16] the scalar field and its layouts ([gf16/scalar.rs],
      [params.rs]); [Gf16Circuit], [Whipping], [Quadratic] the circuits of [gf16/],
      [whipping.rs], [quadratic.rs]; [Mayo] and [MayoSpec] the whole verifier and its witness
      ([util.rs], [shake256.rs], [verify.rs], the commitments of [api.rs]); [Snark] the prover and
      verifier of [api.rs], over any proving backend.

    [Wallet] is the program of [crates/examples] that joins [chainfold] and [sealring]: a shielded pool
    and the wallet that follows it ([examples/shielded_wallet.rs]). [MerkleLog] is the one that joins
    [chainfold] and [rotortree]: an indexer that appends the leaves of a driver's durable prefix to a
    persistent tree, prunes them from the fold, and resumes both from disk ([examples/merkle_log.rs]);
    [MerkleLogSpec] has its runs, as sequences of its turns, and their theorems.

    ** How the code is modelled

    State is a record per struct. An operation that can fail, change state and panic is a program
    of the monad [SM] below: it returns the state it leaves, also on an error, and [Panics] where
    the code unwinds ([expect], an index out of range, an arithmetic overflow that is checked).
    Machine integers are [N] or [nat] with their wrap-around, saturation or checks written out.
    Traits are type classes, and so is third-party code (the hash function, CRC32C, the codecs,
    HKDF, the AEAD, the curve libraries, the circuit frontend, the proving system): its laws are
    classes of their own, and what is proved from them is instantiated with a toy implementation
    that meets them. Threads are sequences of critical sections: [Flusher.run], [Harness.run] and
    [RotorSpec.reach] interleave them freely. A thread that waits on a condition variable goes on when the
    condition it tests under the lock lets it, and the notifications are not in the state. Crashes and
    failing calls are part of the models of files ([Vfs.CrashVfs], [WalFile.File], [DataFiles.Dir]): a
    call may stop half-way through a write, and what was not synced may be lost.

    ** What the theorems show

    - Engine and driver ([EngineSpec], [DriverSpec], [DriverSafety], [Lineage], [Convergence], [Harness],
      [Scripted]):
      applying batches refines a sequential fold; a rejected batch changes nothing; forks are
      detected exactly; rollback restores a checkpoint; the invariant holds in every reachable
      engine; the driver keeps it whatever its source answers, catches up with an honest one and
      recovers from a fork; and, fork after fork, it converges to the fold of the chain its source
      has now, if that chain is in reach of the cursor, or is shorter but has replaced a block of the
      driver's history. A chain that only ends below the cursor is taken to lag, and the driver waits.
      The harness is the sequential poll loop, and hears every request and stop. The
      scripted chain is an honest source, before and after a reorganisation, and when a replaced block keeps
      its hash is said exactly. Until a tick resyncs or
      stops, no state the driver has or can return to is below one that was durable before: a point
      once durable is final ([Lineage]).
    - The wallet ([Wallet]): the pool is an honest source of the notes a key opens. After a
      reorganisation that replaces blocks by at least as many, the wallet that syncs holds the balance of
      one that scans the chain anew, or [sync] panics, when no checkpoint is left below the fork; after
      one that only takes blocks away, it may keep the balance it had, and it is said when.
    - The Merkle log ([MerkleLog], [MerkleLogSpec]): however ticks, commits, prunes, the flusher and
      reorganisations interleave, within a session the accumulator only grows and the program's own
      assertion of a committed prefix holds; and whenever the process dies, the log on disk reopens to
      a prefix of the accumulator that reaches the base of every state that was durable, so that the
      two still make up the whole sequence of leaves. One run shows what a restart does not check: a
      reorganisation below the accumulator's end, while the newest snapshot on disk is older than
      both, leaves leaves of both branches.
    - Snapshots and their store ([Snapshot], [Manifest], [StoreSpec], [FlusherSpec]): round trips;
      decoding arbitrary bytes is safe; a commit that crashes anywhere leaves a committed
      snapshot; the flusher's watermark is the store's own cursor outside the moment after a commit, and stays
      once the store failed; over a device that fails and tears, a crash at any moment leaves a snapshot
      that was submitted, and never less than the watermark reported; and the flusher never deadlocks.
    - Merkle trees ([ChunkedLevel], [TreeSpec], [ProofSpec]): levels are lists, insertion is the
      reference tree over the leaves, batched insertion is repeated insertion; proofs are complete,
      sound up to collisions, and updated proofs are regenerated ones. Hashing through BLAKE3's
      multi-input kernel is hashing one by one ([Blake3]).
    - The persistent tree ([TreeTypes], [RecoverySpec], [RotorSpec], [ShardFiles],
      [CheckpointSpec], [RotorFindings]): replaying any log ends; a torn log gives back its whole entries. In
      sessions without checkpoints an entry reported durable survives every crash, and a flush that
      returns makes its entries durable, unless it found nothing buffered after another one failed. A
      checkpoint that nothing disturbs, and any later log, reopen to the same tree. [RotorFindings] has
      the runs in which the code does not keep these promises outside those conditions.
    - Sealed notes ([SealedNote], [Seal], [Scan], [Adapters]): parsing is exact, sealed notes open,
      a commitment binds, both scans are opening one by one, batch decapsulation is the scalar one.
    - The circuit ([Gf16Circuit], [Whipping], [Quadratic], [MayoSpec], [Snark]): its parts compute what the
      scalar oracle does, and its constraints are satisfied exactly by valid signatures. From an accepted
      bundle, a proving system that extracts gives a signature of the application's payload under its
      key, or two strings, which the theorem names, that collide; and an honest bundle is accepted ([Snark]).

    ** Bounds and fuel

    Recursion that is not structural takes fuel, and the fuel is shown to be enough: replaying a
    log takes one turn per byte at most ([RecoverySpec.replay_total]); a scan one turn per envelope
    ([Scan.scan_is_open]); bisection and the searches of the ring halve a range that bounds their
    fuel; the window loop reads at most the windows of its span, and each reads at least one
    position; the consistency rounds divide both sizes by the arity and take their sum as fuel,
    and [ceil_log_n] divides a 64-bit size at most 64 times. [MerkleLog.sync] loops until the driver
    idles, which a source that never ends need not allow; what is proved of it is for any fuel.
    Sizes are bounded by the code's own widths: a tree has less than 2^64 leaves, a frame at
    most 128 MiB, a slice at most [isize::MAX] bytes ([fits_vec]). Debug assertions on lengths and indices
    in [rotortree] are modelled as panics, so that what is proved holds with and without them;
    elsewhere they are left out. Two
    additions are left unbounded: the engine's counters of events, and [group_start + N] in the
    checks of consistency proofs, which no tree reaches.

    ** What is not modelled

    [RealVfs], and creating, opening and locking the log in [RotorTree::open], delegate to the operating
    system; starting and joining threads, [Drop], [wait_for_checkpoint] and blocking waits are
    scheduling, of which the models keep the sections between them; the proving system behind
    [Snark] is third-party; of the examples their [main] functions and what they print; [Display],
    [From], serde and wincode glue forwards. Of the persistent tree the loss of names in a power failure
    is not modelled, nor the mapping of a file that is changed while it is mapped. That block hashes
    commit to the blocks below is a hypothesis of [Convergence], as the chain's hash function is not
    part of the repository.

    ** What is left

    Crash-safety of a checkpoint at every call it makes, insertions between its sections, and the loss
    of names in a power failure. *)
From stdpp Require Export base tactics numbers list sorting gmap.
From Stdlib Require Export Strings.Byte.
From Stdlib Require Import Lia.

(** ** Results and panics *)

(** Rust's [Result<A, E>]. *)
Inductive result (A E : Type) : Type :=
| Ok (a : A)
| Err (e : E).
Arguments Ok {A E} a.
Arguments Err {A E} e.

(** A call either returns or unwinds with a panic. *)
Inductive outcome (A : Type) : Type :=
| Returns (a : A)
| Panics.
Arguments Returns {A} a.
Arguments Panics {A}.

Definition result_bind {A B E} (r : result A E) (k : A → result B E) : result B E :=
  match r with Ok a => k a | Err e => Err e end.

Definition map_err {A E F} (f : E → F) (r : result A E) : result A F :=
  match r with Ok a => Ok a | Err e => Err (f e) end.

Definition ok_or {A E} (o : option A) (e : E) : result A E :=
  match o with Some a => Ok a | None => Err e end.

Declare Scope works_scope.
Delimit Scope works_scope with works.
Notation "'let?' x ':=' r 'in' k" := (result_bind r (λ x, k))
  (at level 10, x pattern, r at level 100, k at level 200)
  : works_scope.

#[export] Instance result_eq_dec {A E} `{EqDecision A, EqDecision E} : EqDecision (result A E).
Proof. solve_decision. Defined.
#[export] Instance outcome_eq_dec {A} `{EqDecision A} : EqDecision (outcome A).
Proof. solve_decision. Defined.
#[export] Instance byte_eq_decision : EqDecision byte := Byte.byte_eq_dec.
#[export] Instance byte_inhabited : Inhabited byte := populate x00.

(** Sequencing calls that may unwind. *)
#[export] Instance outcome_ret : MRet outcome := λ A a, Returns a.
#[export] Instance outcome_bind : MBind outcome := λ A B k o,
  match o with Returns a => k a | Panics => Panics end.

(** [expect] and [unwrap] on an [Option]. *)
Definition expect {A} (o : option A) : outcome A :=
  match o with Some a => Returns a | None => Panics end.
(** [l[i]], which panics out of range. *)
Definition index {A} (l : list A) (i : nat) : outcome A := expect (l !! i).
(** [&l[i..j]], which panics when the range is not inside [l]. *)
Definition subslice {A} (i j : nat) (l : list A) : outcome (list A) :=
  if (i <=? j) && (j <=? length l) then Returns (take (j - i) (drop i l)) else Panics.

(** ** Loops over an indexed slice *)

(** [slice.iter().enumerate()]. *)
Definition enumerate {A} (l : list A) : list (nat * A) := zip (seq 0 (length l)) l.

Lemma enumerate_snoc {A} (l : list A) x : enumerate (l ++ [x]) = enumerate l ++ [(length l, x)].
Proof.
  unfold enumerate. rewrite length_app; change (length [x]) with 1; rewrite Nat.add_1_r. rewrite seq_S, Nat.add_0_l.
  by rewrite zip_with_app by (by rewrite length_seq).
Qed.

Lemma fold_enumerate_snoc {A B} (f : B → nat * A → B) l x b :
  fold_left f (enumerate (l ++ [x])) b = f (fold_left f (enumerate l) b) (length l, x).
Proof. by rewrite enumerate_snoc, fold_left_app. Qed.

(** ** State, errors and panics *)

(** A method on [&mut S] that returns a [Result]: it leaves a state, and it returns or unwinds.
    The state survives an error or a panic half-way, as it does in Rust. *)
Definition SM (S E A : Type) : Type := S → S * outcome (result A E).

#[export] Instance sm_ret {S E} : MRet (SM S E) := λ A a s, (s, Returns (Ok a)).
#[export] Instance sm_bind {S E} : MBind (SM S E) := λ A B k m s,
  match m s with
  | (s, Returns (Ok a)) => k a s
  | (s, Returns (Err e)) => (s, Returns (Err e))
  | (s, Panics) => (s, Panics)
  end.

Definition sm_fail {S E A} (e : E) : SM S E A := λ s, (s, Returns (Err e)).
Definition sm_get {S E} : SM S E S := λ s, (s, Returns (Ok s)).
Definition sm_modify {S E} (f : S → S) : SM S E () := λ s, (f s, Returns (Ok ())).
(** A method that neither fails nor unwinds. *)
Definition sm_step {S E A} (f : S → S * A) : SM S E A := λ s, let (s, a) := f s in (s, Returns (Ok a)).
(** An expression that may unwind: [None] is a panic. *)
Definition sm_expect {S E A} (o : option A) : SM S E A := λ s,
  (s, match o with Some a => Returns (Ok a) | None => Panics end).
(** [debug_assert!], in a build with debug assertions. *)
Definition debug_assert {S E} (b : bool) : SM S E () := sm_expect (if b then Some () else None).
(** The [?] operator on a pure result. *)
Definition sm_try {S E A} (r : result A E) : SM S E A := λ s, (s, Returns r).

(** Running on a component of the state, through a lens given by its value and its update. *)
Definition sm_zoom {S T E A} (get : S → option T) (put : T → S → S) (m : SM T E A) : SM S E A := λ s,
  match get s with
  | None => (s, Panics)
  | Some t => let (t', r) := m t in (put t' s, r)
  end.

(** A fallible call matched on by its caller: an error becomes a value. *)
Definition sm_result {S E E' A} (m : SM S E A) : SM S E' (result A E) := λ s,
  match m s with
  | (s, Returns r) => (s, Returns (Ok r))
  | (s, Panics) => (s, Panics)
  end.

(** [map_err] on the result of a call, and the conversion the [?] operator makes. *)
Definition sm_map_err {S E F A} (f : E → F) (m : SM S E A) : SM S F A := λ s,
  match m s with
  | (s, Returns r) => (s, Returns (map_err f r))
  | (s, Panics) => (s, Panics)
  end.

(** A method called on a local value: its last state comes with its result. *)
Definition sm_run {S T E A} (m : SM T E A) (t : T) : SM S E (T * A) := λ s,
  match m t with
  | (t, Returns (Ok a)) => (s, Returns (Ok (t, a)))
  | (_, Returns (Err e)) => (s, Returns (Err e))
  | (_, Panics) => (s, Panics)
  end.

(** A pure call that may unwind. *)
Definition sm_outcome {S E A} (o : outcome A) : SM S E A := λ s,
  (s, match o with Returns a => Returns (Ok a) | Panics => Panics end).

(** [for x in l { body }]. *)
Fixpoint sm_for {S E A} (l : list A) (body : A → SM S E ()) : SM S E () :=
  match l with
  | [] => mret ()
  | x :: l => body x;; sm_for l body
  end.

(** A method call that returned normally. *)
Definition runs_to {S E A} (m : SM S E A) (s s' : S) (a : A) : Prop := m s = (s', Returns (Ok a)).

(** ** Machine integers *)

(** Unsigned machine integers are [N] below the bound of their width; the operations below
    write out what Rust does at that bound. Collection indices ([usize]) are [nat]. *)
Definition u8_max : N := 255.
Definition u32_max : N := 4294967295.
Definition u64_max : N := 18446744073709551615.
Definition u64_modulus : N := 18446744073709551616.

(** [u64::saturating_add]. *)
Definition u64_saturating_add (a b : N) : N := N.min (a + b) u64_max.
(** [u64::saturating_mul]. *)
Definition u64_saturating_mul (a b : N) : N := N.min (a * b) u64_max.
(** [u64::wrapping_add]. *)
Definition u64_wrapping_add (a b : N) : N := ((a + b) mod u64_modulus)%N.
(** [u64::checked_add]. *)
Definition u64_checked_add (a b : N) : option N :=
  if (a + b <=? u64_max)%N then Some (a + b)%N else None.
(** [checked_sub] of any unsigned width. *)
Definition checked_sub (a b : N) : option N :=
  if (b <=? a)%N then Some (a - b)%N else None.
(** [usize::checked_sub]. *)
Definition usize_checked_sub (a b : nat) : option nat :=
  if b <=? a then Some (a - b) else None.
(** [usize::is_power_of_two]. *)
Definition is_power_of_two (n : nat) : bool := (0 <? n) && (2 ^ Nat.log2 n =? n).
(** [usize::div_ceil]. *)
Definition div_ceil (a b : nat) : nat := (a + b - 1) / b.

(** ** Bytes *)

(** Hashes and files are byte strings. *)
Abbreviation bytes := (list byte).
(** [Hash = [u8; 32]]. *)
Abbreviation hash := (list byte).

Definition byte_of_N (n : N) : byte := default x00 (Byte.of_N (n mod 256)).

(** [to_le_bytes] of a [k]-byte integer. *)
Fixpoint le_bytes (k : nat) (n : N) : bytes :=
  match k with
  | O => []
  | S k => byte_of_N n :: le_bytes k (n / 256)
  end.

(** [from_le_bytes]. *)
Fixpoint le_value (bs : bytes) : N :=
  match bs with
  | [] => 0
  | b :: bs => (Byte.to_N b + 256 * le_value bs)%N
  end.

(** [&bytes[offset..offset + len]]. *)
Definition slice {A} (offset len : nat) (l : list A) : list A := take len (drop offset l).

(** [bytes[offset..offset + new.len()].copy_from_slice(new)], for a range inside [l]. *)
Definition splice {A} (offset : nat) (new l : list A) : list A :=
  take offset l ++ new ++ drop (offset + length new) l.

(** [Iterator::position]. *)
Fixpoint position {A} (p : A → bool) (l : list A) : option nat :=
  match l with
  | [] => None
  | x :: l => if p x then Some 0 else S <$> position p l
  end.

(** [Iterator::take_while]. *)
Fixpoint take_while {A} (p : A → bool) (l : list A) : list A :=
  match l with
  | [] => []
  | x :: l => if p x then x :: take_while p l else []
  end.

(** [slice::partition_point]: the index of the first element that fails [p], as documented
    for a slice partitioned by [p]. *)
Fixpoint partition_point {A} (p : A → bool) (l : list A) : nat :=
  match l with
  | [] => 0
  | x :: l => if p x then S (partition_point p l) else 0
  end.

(** [slice::chunks]: pieces of [n] elements, the last one shorter. *)
Fixpoint chunks_fuel {A} (fuel n : nat) (l : list A) : list (list A) :=
  match fuel, l with
  | S fuel, _ :: _ => take n l :: chunks_fuel fuel n (drop n l)
  | _, _ => []
  end.
Definition chunks {A} (n : nat) (l : list A) : list (list A) := chunks_fuel (length l) n l.

(** Strictly ascending sequences of numbers. *)
Abbreviation ascending := (StronglySorted N.lt).

(** Pushing onto a bounded queue, oldest first: a full queue loses its oldest element. *)
Definition push_list {A} (cap : nat) (l : list A) (x : A) : list A :=
  (if length l <? cap then l else drop 1 l) ++ [x].

(** The elements of a circular buffer from index [k] on, wrapping once. *)
Definition rot {A} (k : nat) (l : list A) : list A := drop k l ++ take k l.

(** ** Tactics *)

(** Splits conjunctions, existentials and [option] or [result] equations, then [lia]. *)
Ltac crush := repeat (simplify_eq/= || destruct_and? || case_match); try done; try lia.

(** Case analysis on the boolean comparisons of a goal or hypothesis. *)
Ltac nbool :=
  repeat match goal with
  | H : (_ && _) = true |- _ => apply andb_true_iff in H as [? ?]
  | H : (_ && _) = false |- _ => apply andb_false_iff in H
  | H : (_ || _) = true |- _ => apply orb_true_iff in H
  | H : (_ || _) = false |- _ => apply orb_false_iff in H as [? ?]
  | H : negb _ = true |- _ => apply negb_true_iff in H
  | H : negb _ = false |- _ => apply negb_false_iff in H
  | H : (_ <=? _)%N = true |- _ => apply N.leb_le in H
  | H : (_ <=? _)%N = false |- _ => apply N.leb_gt in H
  | H : (_ <? _)%N = true |- _ => apply N.ltb_lt in H
  | H : (_ <? _)%N = false |- _ => apply N.ltb_ge in H
  | H : (_ =? _)%N = true |- _ => apply N.eqb_eq in H
  | H : (_ =? _)%N = false |- _ => apply N.eqb_neq in H
  | H : (_ <=? _) = true |- _ => apply Nat.leb_le in H
  | H : (_ <=? _) = false |- _ => apply Nat.leb_gt in H
  | H : (_ <? _) = true |- _ => apply Nat.ltb_lt in H
  | H : (_ <? _) = false |- _ => apply Nat.ltb_ge in H
  | H : (_ =? _) = true |- _ => apply Nat.eqb_eq in H
  | H : (_ =? _) = false |- _ => apply Nat.eqb_neq in H
  | H : bool_decide _ = true |- _ => apply bool_decide_eq_true in H
  | H : bool_decide _ = false |- _ => apply bool_decide_eq_false in H
  end.

#[global] Arguments div_ceil : simpl never.
#[global] Arguments u64_saturating_add : simpl never.
#[global] Arguments u64_saturating_mul : simpl never.
#[global] Arguments u64_wrapping_add : simpl never.
#[global] Arguments u64_checked_add : simpl never.

(** ** Lemmas on integers *)

Lemma div_ceil_le_mul a b c : 0 < b → a ≤ c * b → div_ceil a b ≤ c.
Proof. intros Hb Hac. unfold div_ceil. apply Nat.lt_succ_r, Nat.Div0.div_lt_upper_bound. nia. Qed.

Lemma div_ceil_spec a b : 0 < b → b * div_ceil a b < a + b ∧ a ≤ b * div_ceil a b.
Proof.
  intros Hb. unfold div_ceil.
  pose proof (Nat.div_mod_eq (a + b - 1) b). pose proof (Nat.mod_upper_bound (a + b - 1) b).
  lia.
Qed.

Lemma u64_saturating_add_bound a b : (u64_saturating_add a b ≤ u64_max)%N.
Proof. unfold u64_saturating_add. lia. Qed.

(** ** Lemmas on bytes *)

Lemma byte_of_N_to_N n : Byte.to_N (byte_of_N n) = (n mod 256)%N.
Proof.
  unfold byte_of_N. destruct (Byte.of_N (n mod 256)) as [b|] eqn:Hb.
  - by apply Byte.to_of_N in Hb.
  - apply Byte.of_N_None_iff in Hb. pose proof (N.mod_lt n 256). lia.
Qed.

Lemma byte_to_N_bound b : (Byte.to_N b < 256)%N.
Proof. pose proof (Byte.to_N_bounded b). lia. Qed.

Lemma byte_to_N_of_N b : byte_of_N (Byte.to_N b) = b.
Proof.
  unfold byte_of_N. rewrite N.mod_small by apply byte_to_N_bound. by rewrite Byte.of_to_N.
Qed.

Lemma length_le_bytes k n : length (le_bytes k n) = k.
Proof. revert n. induction k as [|k IH]; intros n; simpl; [done|]. by rewrite IH. Qed.

Lemma le_value_bytes k n : le_value (le_bytes k n) = (n mod 256 ^ N.of_nat k)%N.
Proof.
  revert n. induction k as [|k IH]; intros n; cbn [le_bytes le_value].
  - by rewrite N.mod_1_r.
  - rewrite byte_of_N_to_N, IH, Nat2N.inj_succ, N.pow_succ_r' by lia.
    by rewrite N.Div0.mod_mul_r.
Qed.

Lemma le_value_bound bs : (le_value bs < 256 ^ N.of_nat (length bs))%N.
Proof.
  induction bs as [|b bs IH]; cbn [length le_value]; [done|].
  rewrite Nat2N.inj_succ, N.pow_succ_r' by lia. pose proof (byte_to_N_bound b). lia.
Qed.

Lemma le_bytes_value bs : le_bytes (length bs) (le_value bs) = bs.
Proof.
  induction bs as [|b bs IH]; cbn [length le_bytes le_value]; [done|].
  pose proof (byte_to_N_bound b). f_equal.
  - rewrite <- (byte_to_N_of_N b) at 2. unfold byte_of_N.
    by rewrite N.mul_comm, N.Div0.mod_add.
  - by rewrite N.mul_comm, N.div_add, N.div_small, N.add_0_l by done.
Qed.

Lemma le_value_bytes_small k n :
  (n < 256 ^ N.of_nat k)%N → le_value (le_bytes k n) = n.
Proof. intros Hn. rewrite le_value_bytes. by apply N.mod_small. Qed.

(** ** Lemmas on lists *)

Lemma length_slice {A} o n (l : list A) : o + n ≤ length l → length (slice o n l) = n.
Proof. intros H. unfold slice. rewrite length_take, length_drop. lia. Qed.

Lemma length_splice {A} o (new l : list A) :
  o + length new ≤ length l → length (splice o new l) = length l.
Proof. intros H. unfold splice. rewrite !length_app, length_take, length_drop. lia. Qed.

Lemma slice_splice_eq {A} o n (new l : list A) :
  length new = n → o + n ≤ length l → slice o n (splice o new l) = new.
Proof.
  intros <- H. unfold slice, splice. rewrite drop_app_length' by (rewrite length_take; lia).
  by rewrite take_app_length.
Qed.

Lemma slice_splice_before {A} o n o' (new l : list A) :
  o + n ≤ o' → o' ≤ length l → slice o n (splice o' new l) = slice o n l.
Proof.
  intros H Hl. unfold slice, splice. rewrite drop_app_le by (rewrite length_take; lia).
  rewrite take_app_le by (rewrite length_drop, length_take; lia).
  rewrite !take_drop_commute, take_take. by rewrite Nat.min_l by lia.
Qed.

Lemma slice_splice_after {A} o n o' (new l : list A) :
  o' + length new ≤ o → o ≤ length l → slice o n (splice o' new l) = slice o n l.
Proof.
  intros H Hl. unfold slice, splice. f_equal. rewrite app_assoc.
  rewrite drop_app_ge by (rewrite length_app, length_take; lia).
  rewrite drop_drop, length_app, length_take. f_equal. lia.
Qed.

Lemma position_Some {A} (p : A → bool) l i :
  position p l = Some i ↔
  (∃ x, l !! i = Some x ∧ p x = true) ∧ ∀ j y, j < i → l !! j = Some y → p y = false.
Proof.
  revert i. induction l as [|x l IH]; intros i; simpl.
  - split; [done|]. intros [(y & Hy & _) _]. by destruct i.
  - destruct (p x) eqn:Hp.
    + split.
      * intros [= <-]. split; [by exists x|]. intros j y Hj. lia.
      * intros [(y & Hy & Hpy) Hbefore]. destruct i as [|i]; [done|].
        specialize (Hbefore 0 x ltac:(lia) eq_refl). congruence.
    + rewrite fmap_Some. split.
      * intros (k & Hk & ->). apply IH in Hk as [(y & Hy & Hpy) Hbefore]. split; [by exists y|].
        intros [|j] z Hj Hz; simplify_eq/=; [done|]. eapply Hbefore; [|done]. lia.
      * intros [(y & Hy & Hpy) Hbefore]. destruct i as [|i]; [simplify_eq/=; congruence|].
        exists i. split; [|done]. apply IH. split; [by exists y|].
        intros j z Hj Hz. apply (Hbefore (S j)); [lia|done].
Qed.

Lemma position_None {A} (p : A → bool) l :
  position p l = None ↔ ∀ x, x ∈ l → p x = false.
Proof.
  induction l as [|x l IH]; simpl.
  - split; [|done]. intros _ y Hy. by apply elem_of_nil in Hy.
  - destruct (p x) eqn:Hp.
    + split; [done|]. intros H. rewrite (H x) in Hp; [done|by left].
    + rewrite fmap_None, IH. split; intros H y Hy.
      * apply elem_of_cons in Hy as [->|Hy]; auto.
      * apply H. by right.
Qed.

Lemma ascending_lookup (l : list N) i j x y :
  ascending l → i < j → l !! i = Some x → l !! j = Some y → (x < y)%N.
Proof.
  intros Hl. revert i j. induction Hl as [|a l Hl IH Ha]; intros i j Hij Hi Hj; [done|].
  destruct j as [|j]; [lia|]. destruct i as [|i]; simplify_eq/=.
  - rewrite Forall_forall in Ha. apply Ha. by eapply list_elem_of_lookup_2.
  - eapply IH; [|done|done]. lia.
Qed.

Lemma ascending_intro (l : list N) :
  (∀ i x y, l !! i = Some x → l !! S i = Some y → (x < y)%N) → ascending l.
Proof.
  intros H. apply Sorted_StronglySorted; [intros x y z; lia|].
  induction l as [|a l IH]; constructor.
  - apply IH. intros i x y Hx Hy. by apply (H (S i)).
  - destruct l as [|b l]; constructor. by apply (H 0).
Qed.

Lemma ascending_snoc (l : list N) x :
  ascending l → (∀ y, last l = Some y → (y < x)%N) → ascending (l ++ [x]).
Proof.
  intros Hl Hx. apply ascending_intro. intros i a b Ha Hb.
  destruct (decide (S i < length l)) as [Hlt|Hge].
    rewrite lookup_app_l in Ha, Hb by lia. eapply (ascending_lookup l i (S i)); [done|lia|done..].
  - pose proof (lookup_lt_Some _ _ _ Hb) as Hlen. rewrite length_app in Hlen. simpl in Hlen.
    rewrite lookup_app_l in Ha by lia. rewrite lookup_app_r in Hb by lia.
    replace (S i - length l) with 0 in Hb by lia. simplify_eq/=.
    apply Hx. rewrite last_lookup. by replace (pred (length l)) with i by lia.
Qed.

Lemma partition_point_le {A} (p : A → bool) l : partition_point p l ≤ length l.
Proof. induction l as [|x l IH]; simpl; [lia|]. destruct (p x); lia. Qed.

(** Up to the partition point everything satisfies [p]. *)
Lemma partition_point_take {A} (p : A → bool) l :
  Forall (λ x, p x = true) (take (partition_point p l) l).
Proof.
  induction l as [|x l IH]; simpl; [constructor|].
  destruct (p x) eqn:Hp; simpl; constructor; done.
Qed.

(** From the partition point on nothing satisfies [p], when [p] is closed downwards along
    the sorted list. *)
Lemma partition_point_drop (p : N → bool) l :
  ascending l → (∀ x y, (x < y)%N → p y = true → p x = true) →
  Forall (λ x, p x = false) (drop (partition_point p l) l).
Proof.
  intros Hl Hp. induction Hl as [|x l Hl IH Hx]; simpl; [constructor|].
  destruct (p x) eqn:Hpx; simpl; [done|]. constructor; [done|].
  eapply Forall_impl; [exact Hx|]. intros y Hy. simpl in *.
  destruct (p y) eqn:Hpy; [|done]. rewrite (Hp x y) in Hpx; done.
Qed.

Lemma filter_all {A} (P : A → Prop) `{∀ x, Decision (P x)} (l : list A) : Forall P l → filter P l = l.
Proof.
  induction 1 as [|x l Hx Hl IH]; [done|]. rewrite filter_cons_True by done. by rewrite IH.
Qed.

Lemma filter_none {A} (P : A → Prop) `{∀ x, Decision (P x)} (l : list A) :
  Forall (λ x, ¬ P x) l → filter P l = [].
Proof. induction 1 as [|x l Hx Hl IH]; [done|]. by rewrite filter_cons_False. Qed.

(** Chunks of a positive size hold all the elements, in order, and none is longer. *)
Lemma chunks_spec {A} n (l : list A) : 0 < n →
  mjoin (chunks n l) = l ∧ Forall (λ c, length c ≤ n) (chunks n l).
Proof.
  intros Hn. unfold chunks. assert (Hf : length l ≤ length l) by lia. revert Hf.
  generalize (length l) at 2 3 4 as fuel. intros fuel. revert l. induction fuel as [|fuel IH]; intros l Hf.
  - destruct l; simpl in *; [done|lia].
  - destruct l as [|x l]; [done|]. cbn [chunks_fuel]. destruct (IH (drop n (x :: l))) as [Hj Hall].
    + rewrite length_drop. simpl in *. lia.
    + split; [|constructor; [rewrite length_take; lia|done]].
      change (take n (x :: l) ++ mjoin (chunks_fuel fuel n (drop n (x :: l))) = x :: l).
      by rewrite Hj, take_drop.
Qed.

Lemma Forall_join_inv {A} (P : A → Prop) (ls : list (list A)) : Forall P (mjoin ls) → Forall (Forall P) ls.
Proof.
  induction ls as [|l ls IH]; [done|]. change (mjoin (l :: ls)) with (l ++ mjoin ls). rewrite Forall_app.
  intros [Hl Hls]. by constructor; [|apply IH].
Qed.

(** Mapping a call that never unwinds. *)
Lemma mapM_returns {A B} (f : A → outcome B) (g : A → B) l :
  Forall (λ x, f x = Returns (g x)) l → mapM f l = Returns (g <$> l).
Proof. induction 1 as [|x l Hx Hl IH]; [done|]. simpl. by rewrite Hx, IH. Qed.

Lemma subslice_take {A} n (l : list A) : n ≤ length l → subslice 0 n l = Returns (take n l).
Proof. intros Hn. unfold subslice. rewrite (proj2 (Nat.leb_le n _)) by done. simpl. by rewrite Nat.sub_0_r. Qed.

Lemma omap_join {A B} (f : A → option B) (ls : list (list A)) : mjoin (omap f <$> ls) = omap f (mjoin ls).
Proof. induction ls as [|l ls IH]; [done|]. change (omap f l ++ mjoin (omap f <$> ls) = omap f (l ++ mjoin ls)). by rewrite IH, omap_app. Qed.

Lemma chunks_fmap {A B} (f : A → B) n (l : list A) : chunks n (f <$> l) = fmap (M:=list) f <$> chunks n l.
Proof.
  unfold chunks. rewrite length_fmap. generalize (length l) as fuel. intros fuel. revert l.
  induction fuel as [|fuel IH]; intros [|x l]; try done.
  cbn [chunks_fuel]. rewrite <- (fmap_drop f n (x :: l)). simpl fmap at 1.
  rewrite <- fmap_cons. cbn [chunks_fuel fmap list_fmap]. f_equal; [|apply IH]. by rewrite <- fmap_cons, fmap_take.
Qed.

Lemma length_rot {A} k (l : list A) : length (rot k l) = length l.
Proof. unfold rot. rewrite length_app, length_drop, length_take. lia. Qed.

(** Reducing a sum below twice the modulus wraps at most once. *)
Lemma mod_wrap c h i : h < c → i < c →
  (h + i) mod c = if decide (h + i < c) then h + i else h + i - c.
Proof.
  intros Hh Hi. case_decide; [by apply Nat.mod_small|].
  replace (h + i) with (h + i - c + 1 * c) at 1 by lia.
  rewrite Nat.Div0.mod_add. apply Nat.mod_small. lia.
Qed.

Lemma rot_lookup {A} k (l : list A) i :
  k < length l → i < length l → rot k l !! i = l !! ((k + i) mod length l).
Proof.
  intros Hk Hi. unfold rot. rewrite mod_wrap by done. case_decide.
  - rewrite lookup_app_l by (rewrite length_drop; lia). by rewrite lookup_drop.
  - rewrite lookup_app_r by (rewrite length_drop; lia). rewrite length_drop.
    rewrite lookup_take_lt by lia. f_equal. lia.
Qed.

Lemma rot_fmap {A B} (f : A → B) k l : rot k (f <$> l) = f <$> rot k l.
Proof. unfold rot. by rewrite fmap_app, fmap_drop, fmap_take. Qed.

(** The newest-first scan finds the last element that passes. *)
Lemma find_reverse_Some {A} (p : A → bool) (l : list A) x :
  List.find p (reverse l) = Some x ↔
  ∃ l1 l2, l = l1 ++ x :: l2 ∧ p x = true ∧ Forall (λ y, p y = false) l2.
Proof.
  induction l as [|y l IH] using rev_ind; [split; [done|by intros ([] & ? & ? & _)]|].
  rewrite reverse_snoc. simpl. destruct (p y) eqn:Hy.
  - split.
    + intros [= ->]. exists l, []. by rewrite Hy.
    + intros (l1 & l2 & Heq & Hx & Hl2). destruct l2 as [|z l2 _] using rev_ind.
      * apply app_inj_tail in Heq as [_ ->]. done.
      * rewrite app_comm_cons, app_assoc in Heq. apply app_inj_tail in Heq as [_ ->].
        apply Forall_app in Hl2 as [_ Hz]. rewrite Forall_singleton in Hz. congruence.
  - rewrite IH. split.
    + intros (l1 & l2 & -> & Hx & Hl2). exists l1, (l2 ++ [y]).
      split_and!; [by rewrite <- app_assoc|done|]. apply Forall_app. by repeat constructor.
    + intros (l1 & l2 & Heq & Hx & Hl2). destruct l2 as [|z l2 _] using rev_ind.
      * apply app_inj_tail in Heq as [_ ->]. congruence.
      * rewrite app_comm_cons, app_assoc in Heq. apply app_inj_tail in Heq as [-> ->].
        apply Forall_app in Hl2 as [Hl2 _]. eauto.
Qed.

Lemma find_reverse_None {A} (p : A → bool) (l : list A) :
  List.find p (reverse l) = None ↔ Forall (λ y, p y = false) l.
Proof.
  rewrite <- (Forall_reverse _ l), List.Forall_forall. split.
  - intros Hf x Hx. by eapply List.find_none.
  - intros Hall. destruct (List.find p (reverse l)) as [x|] eqn:Hf; [|done].
    apply List.find_some in Hf as [Hx Hp]. rewrite Hall in Hp; done.
Qed.

Create HintDb works.
#[export] Hint Resolve length_le_bytes le_value_bound byte_to_N_bound : works.
Create Rewrite HintDb lens.
#[export] Hint Rewrite @length_app @length_take @length_drop length_le_bytes
  @length_replicate @length_insert @length_fmap : lens.

(** Normalises lengths, then [lia]. *)
Ltac lens := autorewrite with lens in *; simpl in *; lia.

(** ** Lemmas: the state monad *)

Lemma sm_bind_ok {S E A B} (m : SM S E A) (k : A → SM S E B) s s' a :
  runs_to m s s' a → (m ≫= k) s = k a s'.
Proof. unfold runs_to, mbind, sm_bind. by intros ->. Qed.

(** The primitive calls in front of a continuation. *)
Lemma sm_ret_bind {S E A B} (a : A) (k : A → SM S E B) s : (mret a ≫= k) s = k a s.
Proof. done. Qed.
Lemma sm_get_bind {S E B} (k : S → SM S E B) s : (sm_get ≫= k) s = k s s.
Proof. done. Qed.
Lemma debug_assert_bind {S E B} b (k : () → SM S E B) s : b = true → (debug_assert b ≫= k) s = k () s.
Proof. by intros ->. Qed.
Lemma sm_expect_bind {S E A B} (a : A) (k : A → SM S E B) s : (sm_expect (Some a) ≫= k) s = k a s.
Proof. done. Qed.
Lemma sm_modify_bind {S E B} (f : S → S) (k : () → SM S E B) s : (sm_modify f ≫= k) s = k () (f s).
Proof. done. Qed.
Lemma sm_map_err_ok {S E F A} (f : E → F) (m : SM S E A) s s' a :
  runs_to m s s' a → runs_to (sm_map_err f m) s s' a.
Proof. unfold runs_to, sm_map_err. by intros ->. Qed.
Lemma sm_run_ok {S T E A} (m : SM T E A) (t t' : T) (a : A) (s : S) :
  runs_to m t t' a → runs_to (sm_run m t) s s (t', a).
Proof. unfold runs_to, sm_run. by intros ->. Qed.
Lemma sm_result_ok {S E E' A} (m : SM S E A) s s' a :
  runs_to m s s' a → runs_to (sm_result (E' := E') m) s s' (Ok a).
Proof. unfold runs_to, sm_result. by intros ->. Qed.

Lemma sm_zoom_ok {S T E A} (get : S → option T) (put : T → S → S) (m : SM T E A) s t t' a :
  get s = Some t → runs_to m t t' a → runs_to (sm_zoom get put m) s (put t' s) a.
Proof. unfold runs_to, sm_zoom. by intros -> ->. Qed.

(** A method that never unwinds and keeps an invariant, whether it fails or not. *)
Definition keeps {S E A} (J : S → Prop) (m : SM S E A) : Prop :=
  ∀ s, J s → ∃ s' r, m s = (s', Returns r) ∧ J s'.

Lemma keeps_ret {S E A} (J : S → Prop) (a : A) : keeps J (mret a : SM S E A).
Proof. intros s Hs. by exists s, (Ok a). Qed.

Lemma keeps_bind {S E A B} (J : S → Prop) (m : SM S E A) (k : A → SM S E B) :
  keeps J m → (∀ a, keeps J (k a)) → keeps J (m ≫= k).
Proof.
  intros Hm Hk s Hs. destruct (Hm s Hs) as (s' & [a|e] & Heq & Hs').
  - destruct (Hk a s' Hs') as (s'' & r & Hr & ?). exists s'', r. unfold mbind, sm_bind. by rewrite Heq.
  - exists s', (Err e). unfold mbind, sm_bind. by rewrite Heq.
Qed.

Lemma keeps_get {S E B} (J : S → Prop) (k : S → SM S E B) :
  (∀ s, J s → keeps J (k s)) → keeps J (sm_get ≫= k).
Proof. intros Hk s Hs. apply (Hk s Hs s Hs). Qed.

Lemma keeps_modify {S E} (J : S → Prop) (f : S → S) : (∀ s, J s → J (f s)) → keeps J (sm_modify (E := E) f).
Proof. intros Hf s Hs. exists (f s), (Ok ()). auto. Qed.

(** A loop that keeps an invariant indexed by what is done so far. *)
Lemma sm_for_inv {S E A} (P : list A → S → Prop) (body : A → SM S E ()) (l : list A) s :
  P [] s →
  (∀ l1 x l2 s, l = l1 ++ x :: l2 → P l1 s → ∃ s', runs_to (body x) s s' () ∧ P (l1 ++ [x]) s') →
  ∃ s', runs_to (sm_for l body) s s' () ∧ P l s'.
Proof.
  intros H0 Hstep. assert (∀ l2 l1 s, l = l1 ++ l2 → P l1 s →
    ∃ s', runs_to (sm_for l2 body) s s' () ∧ P l s') as H.
  { induction l2 as [|x l2 IH]; intros l1 s1 Hl HP; simpl.
    - exists s1. split; [done|]. by rewrite Hl, app_nil_r.
    - destruct (Hstep l1 x l2 s1 Hl HP) as (s2 & Hr & HP2).
      destruct (IH (l1 ++ [x]) s2) as (s3 & Hr3 & HP3); [by rewrite <- app_assoc|done|].
      exists s3. split; [|done]. unfold runs_to. by rewrite (sm_bind_ok _ _ _ _ _ Hr). }
  by apply (H l []).
Qed.

(** ** Lemmas: slices and joins *)

Lemma slice_lookup {A} o n (l : list A) i : slice o n l !! i = if decide (i < n) then l !! (o + i) else None.
Proof.
  unfold slice. case_decide; [by rewrite lookup_take_lt, lookup_drop|].
  apply lookup_take_ge. lia.
Qed.

Lemma slice_all {A} (l : list A) n : length l ≤ n → slice 0 n l = l.
Proof. intros H. unfold slice. by rewrite drop_0, take_ge. Qed.

Lemma slice_0 {A} n (l : list A) : slice 0 n l = take n l.
Proof. done. Qed.

Lemma slice_slice {A} o n o' n' (l : list A) : o' + n' ≤ n → slice o' n' (slice o n l) = slice (o + o') n' l.
Proof.
  intros H. apply list_eq. intros i. rewrite !slice_lookup. case_decide; [|done].
  rewrite decide_True by lia. f_equal. lia.
Qed.

Lemma slice_app_add {A} o n m (l : list A) : slice o n l ++ slice (o + n) m l = slice o (n + m) l.
Proof. unfold slice. by rewrite <- drop_drop, take_take_drop. Qed.

Lemma slice_fmap {A B} (f : A → B) o n l : slice o n (f <$> l) = f <$> slice o n l.
Proof. unfold slice. by rewrite fmap_take, fmap_drop. Qed.

Lemma slice_snoc {A} o n (l : list A) x : l !! (o + n) = Some x → slice o (S n) l = slice o n l ++ [x].
Proof. intros H. unfold slice. rewrite (take_S_r _ _ x); [done|]. by rewrite lookup_drop. Qed.

(** A slice depends only on the elements it covers. *)
Lemma slice_ext {A} o n (l l' : list A) :
  (∀ i, o ≤ i < o + n → l !! i = l' !! i) → slice o n l = slice o n l'.
Proof. intros H. apply list_eq. intros i. rewrite !slice_lookup. case_decide; [|done]. apply H. lia. Qed.

Lemma splice_lookup {A} o (new l : list A) i :
  o + length new ≤ length l →
  splice o new l !! i = if decide (o ≤ i < o + length new) then new !! (i - o) else l !! i.
Proof.
  intros H. unfold splice. destruct (decide (i < o)).
  - rewrite decide_False, lookup_app_l, lookup_take_lt by (rewrite ?length_take; lia). done.
  - rewrite lookup_app_r by (rewrite length_take; lia). rewrite length_take, Nat.min_l by lia.
    case_decide; [by rewrite lookup_app_l by lia|].
    rewrite lookup_app_r, lookup_drop by lia. f_equal. lia.
Qed.

Lemma splice_single {A} o x (l : list A) : o < length l → splice o [x] l = <[o := x]> l.
Proof.
  intros H. apply list_eq. intros i. rewrite splice_lookup by (simpl; lia). simpl.
  case_decide.
  - replace i with o by lia. by rewrite Nat.sub_diag, list_lookup_insert_eq.
  - rewrite list_lookup_insert_ne by lia. done.
Qed.

Lemma mjoin_cons {A} (x : list A) xs : mjoin (x :: xs) = x ++ mjoin xs.
Proof. done. Qed.

(** Equal pieces of a join. *)
Lemma slices_join {A} k (ls : list (list A)) post :
  Forall (λ l, length l = k) ls → (λ i, slice (i * k) k (mjoin ls ++ post)) <$> seq 0 (length ls) = ls.
Proof.
  induction 1 as [|l ls Hl Hls IH]; [done|]. cbn [length seq fmap list_fmap]. f_equal.
  - unfold slice. rewrite drop_0, mjoin_cons, <- app_assoc. by rewrite take_app_length' by done.
  - rewrite <- fmap_S_seq, <- list_fmap_compose. etransitivity; [|exact IH]. apply list_fmap_ext. intros i j _.
    unfold slice, compose. change (S j * k) with (k + j * k). f_equal. rewrite mjoin_cons, <- app_assoc. by rewrite drop_app_add' by done.
Qed.

(** Lists of equal length, joined: where each element is. *)
Lemma mjoin_uniform_length {A} k (ls : list (list A)) :
  Forall (λ l, length l = k) ls → length (mjoin ls) = length ls * k.
Proof. induction 1 as [|l ls Hl _ IH]; [done|]. simpl. rewrite length_app. lia. Qed.

Lemma mjoin_uniform_lookup {A} k (ls : list (list A)) i :
  0 < k → Forall (λ l, length l = k) ls → mjoin ls !! i = l ← ls !! (i / k); l !! (i mod k).
Proof.
  intros Hk Hls. revert i. induction Hls as [|l ls Hl Hls IH]; intros i; [done|]. simpl.
  destruct (decide (i < k)).
  - rewrite lookup_app_l by lia. by rewrite Nat.div_small, Nat.mod_small by lia.
  - rewrite lookup_app_r, IH, Hl by lia.
    assert (i / k = S ((i - k) / k)) as ->.
    { rewrite <- Nat.add_1_r, <- Nat.div_add by lia. f_equal. lia. }
    assert (i mod k = (i - k) mod k) as ->; [|done].
    rewrite <- (Nat.Div0.mod_add (i - k) 1 k). f_equal. lia.
Qed.

Lemma div_ceil_unique a b q : 0 < b → a ≤ q * b < a + b → div_ceil a b = q.
Proof. intros Hb H. pose proof (div_ceil_spec a b Hb). nia. Qed.

Lemma div_ceil_0 b : 0 < b → div_ceil 0 b = 0.
Proof. intros Hb. apply div_ceil_unique; lia. Qed.

Lemma div_ceil_pos a b : 0 < b → 0 < a → 0 < div_ceil a b.
Proof. intros Hb Ha. pose proof (div_ceil_spec a b Hb). nia. Qed.

Lemma div_ceil_lt a b i : 0 < b → i < div_ceil a b ↔ i * b < a.
Proof. intros Hb. pose proof (div_ceil_spec a b Hb). nia. Qed.

Lemma splice_app {A} o (u v l : list A) :
  o + length u + length v ≤ length l → splice (o + length u) v (splice o u l) = splice o (u ++ v) l.
Proof.
  intros H. apply list_eq. intros i. rewrite !splice_lookup by (rewrite ?length_splice, ?length_app; lia).
  rewrite length_app. destruct (decide (o ≤ i < o + length u)).
  - rewrite decide_False, (decide_True (P := o ≤ i < _)), lookup_app_l by lia. done.
  - case_decide; [rewrite (decide_True (P := o ≤ i < _)), lookup_app_r by lia; f_equal; lia|].
    by rewrite (decide_False (P := o ≤ i < o + (length u + length v))) by lia.
Qed.

Lemma splice_nil {A} o (l : list A) : splice o [] l = l.
Proof. unfold splice. simpl. by rewrite Nat.add_0_r, take_drop. Qed.

Lemma splice_take {A} o n (u l : list A) :
  o + length u ≤ n → n ≤ length l → take n (splice o u l) = splice o u (take n l).
Proof.
  intros H1 H2. apply list_eq. intros i. rewrite lookup_take, !splice_lookup by (rewrite ?length_take; lia).
  rewrite lookup_take. repeat case_decide; done || lia.
Qed.

Lemma splice_end {A} o (u l : list A) : length l = o + length u → splice o u l = take o l ++ u.
Proof. intros H. unfold splice. rewrite drop_ge by lia. by rewrite app_nil_r. Qed.

(** Cutting a list into chunks of [w], padded at the end. *)
Lemma chunks_padded {A} w (ws : list A) (pad : nat → list A) :
  0 < w → (∀ ci, ci * w < length ws → length (pad ci) = w - Nat.min (length ws - ci * w) w) →
  take (length ws) (mjoin ((λ ci, slice (ci * w) (Nat.min (length ws - ci * w) w) ws ++ pad ci) <$>
    seq 0 (div_ceil (length ws) w))) = ws.
Proof.
  intros Hw Hpad. apply list_eq. intros i. rewrite lookup_take. case_decide as Hi; last first.
  { symmetry. apply lookup_ge_None_2. lia. }
  rewrite mjoin_uniform_lookup with (k := w); [|done|].
  - assert (i / w < div_ceil (length ws) w) as Hq.
    { apply div_ceil_lt; [done|]. pose proof (Nat.Div0.mul_div_le i w). lia. }
    rewrite list_lookup_fmap, lookup_seq_lt by done. simpl.
    pose proof (Nat.div_mod_eq i w) as Hi'. pose proof (Nat.mod_upper_bound i w ltac:(lia)).
    rewrite lookup_app_l by (rewrite length_slice; lia).
    rewrite slice_lookup, decide_True by lia. f_equal. lia.
  - apply Forall_fmap, Forall_forall. intros ci [_ Hci]%elem_of_seq. simpl in *.
    apply (div_ceil_lt _ _ ci Hw) in Hci. rewrite length_app, Hpad by done.
    rewrite length_slice by lia. lia.
Qed.

Lemma divide_mod n a c : (n | a) → (n | c) → (n | a mod c).
Proof.
  intros Ha Hc. rewrite Nat.Div0.mod_eq. apply Nat.divide_sub_r; [done|].
  by apply Nat.divide_mul_l.
Qed.

Lemma is_power_of_two_spec n : is_power_of_two n = true → ∃ k, n = 2 ^ k.
Proof. unfold is_power_of_two. intros H. nbool. eauto. Qed.

Lemma div_ceil_div_ceil a b c : 0 < b → 0 < c → div_ceil (div_ceil a b) c = div_ceil a (b * c).
Proof.
  intros Hb Hc. pose proof (div_ceil_spec a b Hb). pose proof (div_ceil_spec a (b * c) ltac:(nia)).
  apply div_ceil_unique; [done|]. nia.
Qed.

Lemma div_ceil_1 a : div_ceil a 1 = a.
Proof. apply div_ceil_unique; lia. Qed.

Lemma div_ceil_small a b : 0 < a ≤ b → div_ceil a b = 1.
Proof. intros. apply div_ceil_unique; lia. Qed.

Lemma lt_div_mul i k n : i < k / n → i * n + n ≤ k.
Proof.
  intros Hi. pose proof (Nat.Div0.mul_div_le k n).
  assert (n * (i + 1) ≤ n * (k / n)) by (apply Nat.mul_le_mono_l; lia). lia.
Qed.

Lemma div_le_div_ceil a b : 0 < b → a / b ≤ div_ceil a b.
Proof.
  intros Hb. pose proof (div_ceil_spec a b Hb). pose proof (Nat.Div0.mul_div_le a b).
  apply Nat.lt_succ_r. apply Nat.Div0.div_lt_upper_bound. lia.
Qed.

Lemma div_ceil_mono a a' b : 0 < b → a ≤ a' → div_ceil a b ≤ div_ceil a' b.
Proof. intros Hb Ha. apply div_ceil_le_mul; [done|]. pose proof (div_ceil_spec a' b Hb). lia. Qed.

(** Rounding down and up differ by at most one. *)
Lemma div_ceil_div a b : 0 < b → div_ceil a b = if a mod b =? 0 then a / b else S (a / b).
Proof.
  intros Hb. pose proof (Nat.div_mod_eq a b). pose proof (Nat.mod_upper_bound a b).
  case_match; nbool; apply div_ceil_unique; lia.
Qed.

Lemma take_slice_add {A} n m (l : list A) : take n l ++ slice n m l = take (n + m) l.
Proof. exact (slice_app_add 0 n m l). Qed.

(** A range cut into pieces of [w], as a parallel loop over pieces sees it. *)
Lemma pieces_of_range {A} w n (f : nat → A) :
  0 < w →
  mjoin ((λ ci, (λ i, f (ci * w + i)) <$> seq 0 (Nat.min w (n - ci * w))) <$> seq 0 (div_ceil n w)) = f <$> seq 0 n.
Proof.
  intros Hw. assert (∀ k, mjoin ((λ ci, (λ i, f (ci * w + i)) <$> seq 0 (Nat.min w (n - ci * w))) <$> seq 0 k) =
    f <$> seq 0 (Nat.min n (k * w))) as Hk.
  { induction k as [|k IH]; [by rewrite Nat.min_r by lia|].
    rewrite seq_S, fmap_app, join_app, IH. simpl. rewrite app_nil_r.
    destruct (decide (n ≤ k * w)).
    - rewrite (Nat.min_r w), (Nat.min_l n (k * w)), (Nat.min_l n (w + k * w)) by lia.
      replace (n - k * w) with 0 by lia. simpl. by rewrite app_nil_r.
    - rewrite (Nat.min_r n (k * w)) by lia.
      replace (Nat.min n (w + k * w)) with (k * w + Nat.min w (n - k * w)) by lia.
      rewrite seq_app, fmap_app. f_equal. simpl.
      replace (seq (k * w) (Nat.min w (n - k * w))) with (Nat.add (k * w) <$> seq 0 (Nat.min w (n - k * w)))
        by (rewrite fmap_add_seq; f_equal; lia).
      by rewrite <- list_fmap_compose. }
  rewrite Hk. pose proof (div_ceil_spec n w Hw). by rewrite Nat.min_l by lia.
Qed.

Lemma splice_whole {A} (u l : list A) : length l = length u → splice 0 u l = u.
Proof. intros H. by rewrite splice_end. Qed.
