(* ===== verification/Hash.v ===== *)
(** Hashing in rotortree ([crates/rotortree/src/hash.rs]): the streaming hasher as a type class,
    and what the tree relies on of any implementation. *)
From S2P Require Import Prelude.

(** ** Interface *)

(** The traits [HashState] and [Hasher]: a streaming primitive, and the two operations the tree
    calls, which an implementation may override. *)
Class Hasher := {
  State : Type;
  new_state : State;
  update : State → bytes → State;
  finalize : State → hash;
  hash_children : list hash → hash;
  hash_many_into : list (list hash) → list hash → list hash;
}.

(** [[0u8; 32]]. *)
Definition ZERO : hash := replicate 32 x00.

(** The provided body of [hash_children]: the children's bytes, one after the other. *)
Definition hash_children_default {S} (new : S) (update : S → bytes → S) (finalize : S → hash)
    (children : list hash) : hash :=
  finalize (update new (mjoin children)).

(** The provided body of [hash_many_into]: a zip of the groups with the output slots; slots past
    the groups keep what they hold. *)
Definition hash_many_default (hash_children : list hash → hash) (groups : list (list hash))
    (out : list hash) : list hash :=
  zip_with (λ g _, hash_children g) groups out ++ drop (length groups) out.

(** ** What the tree relies on *)

(** Hashes of the fixed width. *)
Abbreviation hash_wf := (λ h : hash, length h = 32).

(** The digest of a byte string. *)
Definition digest `{Hasher} (bs : bytes) : hash := finalize (update new_state bs).

(** [finalize] gives 32 bytes, and overrides agree with the provided bodies, on slots of 32 bytes. *)
Class HasherLaws `(Hasher) := {
  length_digest bs : length (digest bs) = 32;
  hash_children_digest g : hash_children g = digest (mjoin g);
  hash_many_into_map groups out : length groups ≤ length out → Forall hash_wf out →
    hash_many_into groups out = (hash_children <$> groups) ++ drop (length groups) out;
}.

Section laws.
Context `{HL : HasherLaws}.

Lemma length_hash_children g : hash_wf (hash_children g).
Proof. rewrite hash_children_digest. apply length_digest. Qed.

(** Fixed-width children are determined by their concatenation. *)
Lemma mjoin_hash_inj (g1 g2 : list hash) :
  Forall hash_wf g1 → Forall hash_wf g2 → mjoin g1 = mjoin g2 → g1 = g2.
Proof.
  intros H1. revert g2. induction H1 as [|h g1 Hh Hg1 IH]; intros g2 H2 Heq.
  - destruct H2 as [|h g2 Hh Hg2]; [done|]. simpl in Heq. apply (f_equal length) in Heq.
    rewrite length_app in Heq. simpl in Heq. lia.
  - destruct H2 as [|h2 g2 Hh2 Hg2]; simpl in Heq.
    + apply (f_equal length) in Heq. rewrite length_app in Heq. simpl in Heq. lia.
    + apply app_inj_1 in Heq as [-> Heq]; [|congruence]. f_equal. by apply IH.
Qed.

End laws.

(** The provided body of [hash_many_into] is the map over the groups. *)
Lemma hash_many_default_map (hc : list hash → hash) groups out :
  length groups ≤ length out →
  hash_many_default hc groups out = (hc <$> groups) ++ drop (length groups) out.
Proof.
  intros Hlen. unfold hash_many_default. f_equal. revert out Hlen.
  induction groups as [|g groups IH]; intros [|o out] Hlen; try (simpl in Hlen; lia); [done..|].
  rewrite fmap_cons. simpl. f_equal. apply IH. simpl in Hlen. lia.
Qed.

(** ** A concrete hasher *)

(** A small streaming hasher for the examples: the absorbed bytes as a number, mixed and cut to
    32 bytes. *)
Module Toy.
Definition toy_finalize (bs : bytes) : hash :=
  le_bytes 32 (31 + le_value bs + 257 * N.of_nat (length bs) + 2 ^ 255 * (le_value bs mod 2)).

Definition hasher : Hasher := {|
  State := bytes;
  new_state := [];
  update := λ s bs, s ++ bs;
  finalize := toy_finalize;
  hash_children := hash_children_default [] (λ s bs, s ++ bs) toy_finalize;
  hash_many_into := hash_many_default (hash_children_default [] (λ s bs, s ++ bs) toy_finalize);
|}.

Lemma hasher_laws : HasherLaws hasher.
Proof.
  split; intros; [apply length_le_bytes|done|by apply hash_many_default_map].
Qed.
End Toy.
