(* ===== verification/ChunkedLevel.v ===== *)
(** One level of the tree ([crates/rotortree/src/chunked_level.rs]): hashes in chunks, chunks in
    frozen segments and a pending buffer. Its abstraction is a growing list of hashes. *)
From S2P Require Import Prelude Hash.

(** ** Data *)

(** [TreeError] ([crates/rotortree/src/error.rs]). *)
Inductive TreeError :=
| MaxDepthExceeded (max_depth : nat)
| IndexOutOfRange (index size : N)
| EmptyBatch
| CapacityExceeded
| MathError
| InvalidProofDepth (expected actual : nat)
| NoUpdateNeeded.

#[export] Instance TreeError_eq_dec : EqDecision TreeError.
Proof. solve_decision. Defined.

Definition CHUNK_SIZE : nat := 128.
Definition CHUNKS_PER_SEGMENT : nat := 256.

(** [Chunk]: hashes in memory, or a range of a mapped file. Sharing through [Arc] is invisible
    here, because a shared chunk is only ever read; writing copies it first. *)
Inductive Chunk :=
| Memory (hs : list hash)
| Mapped (region : bytes) (offset : nat).

(** [ChunkedLevel]. *)
Record ChunkedLevel := MkLevel {
  segments : list (list Chunk);
  pending : list Chunk;
  level_len : nat;
}.

(** ** Chunks *)

(** A file range read as an array of hashes. *)
Definition cast_hashes (count : nat) (bs : bytes) : list hash :=
  (λ i, slice (i * 32) 32 bs) <$> seq 0 count.

(** [Chunk::as_slice]. *)
Definition as_slice (c : Chunk) : list hash :=
  match c with
  | Memory hs => hs
  | Mapped region offset => cast_hashes CHUNK_SIZE (drop offset region)
  end.

(** [Chunk::new_mapped]: the range must lie inside the region. *)
Definition new_mapped (region : bytes) (offset : nat) : option Chunk :=
  if offset + CHUNK_SIZE * 32 <=? length region then Some (Mapped region offset) else None.

(** ** Levels *)

(** [ChunkedLevel::new]. *)
Definition level_new : ChunkedLevel := MkLevel [] [] 0.

(** [ChunkedLevel::from_parts]. *)
Definition from_parts (chunks : list Chunk) (len : nat) : ChunkedLevel :=
  let full_segments := length chunks / CHUNKS_PER_SEGMENT in
  MkLevel ((λ i, slice (i * CHUNKS_PER_SEGMENT) CHUNKS_PER_SEGMENT chunks) <$> seq 0 full_segments)
    (drop (full_segments * CHUNKS_PER_SEGMENT) chunks) len.

(** [ChunkedLevel::chunk_count]. *)
Definition chunk_count (lv : ChunkedLevel) : nat :=
  length (segments lv) * CHUNKS_PER_SEGMENT + length (pending lv).

(** [ChunkedLevel::chunk]; [None] is the index panic. *)
Definition chunk (lv : ChunkedLevel) (chunk_idx : nat) : option Chunk :=
  let committed := length (segments lv) * CHUNKS_PER_SEGMENT in
  if chunk_idx <? committed
  then seg ← segments lv !! (chunk_idx / CHUNKS_PER_SEGMENT); seg !! (chunk_idx mod CHUNKS_PER_SEGMENT)
  else pending lv !! (chunk_idx - committed).

(** [ChunkedLevel::chunk_slice]. *)
Definition chunk_slice (lv : ChunkedLevel) (chunk_idx : nat) : option (list hash) :=
  as_slice <$> chunk lv chunk_idx.

(** [ChunkedLevel::get]. *)
Definition level_get (lv : ChunkedLevel) (index : nat) : option (result hash TreeError) :=
  if level_len lv <=? index
  then Some (Err (IndexOutOfRange (N.of_nat index) (N.of_nat (level_len lv))))
  else s ← chunk_slice lv (index / CHUNK_SIZE); h ← s !! (index mod CHUNK_SIZE); Some (Ok h).

(** The iterator of [ChunkedLevel::runs], drained from [done] on; every run takes at least one
    hash, so [count] calls are enough. *)
Fixpoint runs_from (fuel : nat) (lv : ChunkedLevel) (start count done : nat) : option (list (list hash)) :=
  if done =? count then Some [] else
  match fuel with
  | O => None
  | S fuel =>
    let idx := start + done in
    let offset := idx mod CHUNK_SIZE in
    let take := Nat.min (CHUNK_SIZE - offset) (count - done) in
    s ← chunk_slice lv (idx / CHUNK_SIZE);
    rest ← runs_from fuel lv start count (done + take);
    Some (slice offset take s :: rest)
  end.

(** [ChunkedLevel::runs], with its debug assertion. *)
Definition runs (lv : ChunkedLevel) (start count : nat) : option (list (list hash)) :=
  if start + count <=? level_len lv then runs_from count lv start count 0 else None.

(** The loop of [get_group]: each run is copied after the previous one; a run past the end of
    [out] is a panic. *)
Fixpoint copy_runs (rs : list (list hash)) (at_ : nat) (out : list hash) : option (list hash) :=
  match rs with
  | [] => Some out
  | r :: rs =>
    if at_ + length r <=? length out then copy_runs rs (at_ + length r) (splice at_ r out) else None
  end.

(** [ChunkedLevel::get_group]. *)
Definition get_group (lv : ChunkedLevel) (start count : nat) (out : list hash) : option (list hash) :=
  rs ← runs lv start count; copy_runs rs 0 out.

(** Replaces the chunk at an index. *)
Definition put_chunk (lv : ChunkedLevel) (chunk_idx : nat) (c : Chunk) : ChunkedLevel :=
  let committed := length (segments lv) * CHUNKS_PER_SEGMENT in
  if chunk_idx <? committed
  then MkLevel (alter (λ seg, <[chunk_idx mod CHUNKS_PER_SEGMENT := c]> seg)
                  (chunk_idx / CHUNKS_PER_SEGMENT) (segments lv)) (pending lv) (level_len lv)
  else MkLevel (segments lv) (<[chunk_idx - committed := c]> (pending lv)) (level_len lv).

(** [ChunkedLevel::chunk_slice_mut] and a write through the reference it returns: the chunk is
    copied into memory and its hashes become what [f] makes of them. *)
Definition chunk_slice_mut (chunk_idx : nat) (f : list hash → option (list hash))
    : SM ChunkedLevel TreeError () := λ lv,
  match chunk lv chunk_idx with
  | None => (lv, Panics)
  | Some c =>
    match f (as_slice c) with
    | None => (lv, Panics)
    | Some hs => (put_chunk lv chunk_idx (Memory hs), Returns (Ok ()))
    end
  end.

(** What a [fill] closure writes, for the offset and the length it is asked. *)
Definition Fill : Type := nat → nat → option (list hash).

(** [ChunkedLevel::write_with], from [done] on. *)
Fixpoint write_from (fuel : nat) (start count done : nat) (fill : Fill) : SM ChunkedLevel TreeError () :=
  if count <=? done then mret () else
  match fuel with
  | O => mret ()
  | S fuel =>
    let idx := start + done in
    let offset := idx mod CHUNK_SIZE in
    let take := Nat.min (CHUNK_SIZE - offset) (count - done) in
    chunk_slice_mut (idx / CHUNK_SIZE) (λ s, w ← fill done take; Some (splice offset w s));;
    write_from fuel start count (done + take) fill
  end.

(** [ChunkedLevel::write_with], with its debug assertion. *)
Definition write_with (start count : nat) (fill : Fill) : SM ChunkedLevel TreeError () :=
  lv ← sm_get; debug_assert (start + count <=? level_len lv);;
  write_from count start count 0 fill.

(** [ChunkedLevel::freeze_pending]. *)
Definition freeze_pending (lv : ChunkedLevel) : ChunkedLevel :=
  MkLevel (segments lv ++ [pending lv]) [] (level_len lv).

(** [ChunkedLevel::push_chunk]. *)
Definition push_chunk (lv : ChunkedLevel) (c : Chunk) : ChunkedLevel :=
  let lv := MkLevel (segments lv) (pending lv ++ [c]) (level_len lv) in
  if length (pending lv) =? CHUNKS_PER_SEGMENT then freeze_pending lv else lv.

(** [build_chunks]: in order, whether or not the iterator is parallel. *)
Definition build_chunks (n : nat) (build : nat → option Chunk) : option (list Chunk) :=
  mapM build (seq 0 n).

(** [ChunkedLevel::extend_with]. *)
Definition extend_with (count : nat) (fill : Fill) : SM ChunkedLevel TreeError () :=
  lv ← sm_get;
  if count =? 0 then mret () else
  if (u64_max <? N.of_nat (level_len lv) + N.of_nat count)%N then sm_fail MathError else
  let offset := level_len lv mod CHUNK_SIZE in
  done ← (if 0 <? offset
          then let take := Nat.min (CHUNK_SIZE - offset) count in
               chunk_slice_mut (level_len lv / CHUNK_SIZE)
                 (λ s, w ← fill 0 take; Some (splice offset w s));;
               mret take
          else mret 0);
  (if done <? count
   then let n := div_ceil (count - done) CHUNK_SIZE in
        built ← sm_expect (build_chunks n (λ ci,
          let base := done + ci * CHUNK_SIZE in
          let take := Nat.min (count - base) CHUNK_SIZE in
          w ← fill base take; Some (Memory (w ++ replicate (CHUNK_SIZE - take) ZERO))));
        sm_modify (λ lv, foldl push_chunk lv built)
   else mret ());;
  sm_modify (λ l, MkLevel (segments l) (pending l) (level_len lv + count)).

(** [ChunkedLevel::extend]: the copying closure. *)
Definition extend (values : list hash) : SM ChunkedLevel TreeError () :=
  extend_with (length values) (λ off n,
    if off + n <=? length values then Some (slice off n values) else None).

(** [ChunkedLevel::ensure_len]. *)
Definition ensure_len (target : nat) : SM ChunkedLevel TreeError () :=
  lv ← sm_get;
  if target <=? level_len lv then mret () else
  extend_with (target - level_len lv) (λ _ n, Some (replicate n ZERO)).

(** [ChunkedLevel::set_preallocated], with its debug assertion. *)
Definition set_preallocated (index : nat) (value : hash) : SM ChunkedLevel TreeError () :=
  lv ← sm_get; debug_assert (index <? level_len lv);;
  chunk_slice_mut (index / CHUNK_SIZE) (λ s, Some (<[index mod CHUNK_SIZE := value]> s)).

(** [ChunkedLevel::set]. *)
Definition level_set (index : nat) (value : hash) : SM ChunkedLevel TreeError () :=
  lv ← sm_get;
  (if level_len lv <=? index then ensure_len (index + 1) else mret ());;
  set_preallocated index value.

(** [ChunkedLevel::chunks_since]. *)
Definition chunks_since (lv : ChunkedLevel) (already : nat) : option (list Chunk) :=
  mapM (chunk lv) (seq already (chunk_count lv - already)).

(** ** Specification *)

Definition level_chunks (lv : ChunkedLevel) : list Chunk := mjoin (segments lv) ++ pending lv.

(** The hashes of a level, in index order. *)
Definition level_list (lv : ChunkedLevel) : list hash :=
  take (level_len lv) (mjoin (as_slice <$> level_chunks lv)).

(** Segments are full, the pending buffer is not, every chunk has its hashes, and there are
    just enough chunks. *)
Record level_wf (lv : ChunkedLevel) : Prop := {
  lw_segments : Forall (λ seg, length seg = CHUNKS_PER_SEGMENT) (segments lv);
  lw_pending : length (pending lv) < CHUNKS_PER_SEGMENT;
  lw_chunks : Forall (λ c, length (as_slice c) = CHUNK_SIZE) (level_chunks lv);
  lw_len : length (level_chunks lv) = div_ceil (level_len lv) CHUNK_SIZE;
}.

(** The closure writes the elements of [vs] it is asked for; it is never asked for none. *)
Definition fills (fill : Fill) (vs : list hash) : Prop :=
  ∀ off n, 0 < n → off + n ≤ length vs → fill off n = Some (slice off n vs).

Definition level_rep (lv : ChunkedLevel) (l : list hash) : Prop := level_wf lv ∧ level_list lv = l.

(** Hashes of all the chunks, the unused end of the last one included. *)
Definition flat (lv : ChunkedLevel) : list hash := mjoin (as_slice <$> level_chunks lv).

Definition set_len (n : nat) (lv : ChunkedLevel) : ChunkedLevel := MkLevel (segments lv) (pending lv) n.

(** ** Lemmas: chunks of a level *)

Lemma CHUNK_SIZE_pos : 0 < CHUNK_SIZE.
Proof. unfold CHUNK_SIZE. lia. Qed.
Lemma CHUNKS_PER_SEGMENT_pos : 0 < CHUNKS_PER_SEGMENT.
Proof. unfold CHUNKS_PER_SEGMENT. lia. Qed.

(** The two sizes stay symbolic from here on. *)
Local Opaque CHUNK_SIZE CHUNKS_PER_SEGMENT.
#[local] Hint Resolve CHUNK_SIZE_pos CHUNKS_PER_SEGMENT_pos : core.

Section level.
Implicit Types (lv : ChunkedLevel) (vs ws l : list hash).

(** Full segments and a short pending buffer. *)
Definition segments_ok lv : Prop :=
  Forall (λ seg, length seg = CHUNKS_PER_SEGMENT) (segments lv) ∧ length (pending lv) < CHUNKS_PER_SEGMENT.

Lemma level_chunks_length lv :
  segments_ok lv → length (level_chunks lv) = chunk_count lv.
Proof.
  intros [Hs _]. unfold level_chunks, chunk_count. by rewrite length_app, (mjoin_uniform_length _ _ Hs).
Qed.

Lemma chunk_lookup lv i : segments_ok lv → chunk lv i = level_chunks lv !! i.
Proof.
  intros [Hs _]. unfold chunk, level_chunks.
  pose proof (mjoin_uniform_length _ _ Hs) as Hlen.
  case_match; nbool.
  - by rewrite lookup_app_l, (mjoin_uniform_lookup _ _ i CHUNKS_PER_SEGMENT_pos Hs) by lia.
  - by rewrite lookup_app_r, Hlen by lia.
Qed.

Lemma put_chunk_chunks lv i c :
  segments_ok lv → i < length (level_chunks lv) →
  segments_ok (put_chunk lv i c) ∧ level_chunks (put_chunk lv i c) = <[i := c]> (level_chunks lv).
Proof.
  intros [Hs Hp] Hi. pose proof (mjoin_uniform_length _ _ Hs) as Hlen.
  unfold put_chunk, level_chunks in *. destruct (i <? length (segments lv) * CHUNKS_PER_SEGMENT) eqn:Hc; nbool.
  - assert (Forall (λ seg : list Chunk, length seg = CHUNKS_PER_SEGMENT)
      (alter (λ seg, <[i mod CHUNKS_PER_SEGMENT := c]> seg) (i / CHUNKS_PER_SEGMENT) (segments lv))) as Hs'.
    { rewrite Forall_lookup in Hs |- *. intros j seg.
      destruct (decide (j = i / CHUNKS_PER_SEGMENT)) as [->|Hne].
      - rewrite list_lookup_alter_eq. intros (seg' & Hj & ->)%fmap_Some. rewrite length_insert. by eapply Hs.
      - rewrite list_lookup_alter_ne by done. apply Hs. }
    split; [split; simpl; done|]. simpl. rewrite insert_app_l by lia. f_equal.
    apply list_eq. intros j. rewrite (mjoin_uniform_lookup _ _ j CHUNKS_PER_SEGMENT_pos Hs').
    pose proof (Nat.div_mod_eq i CHUNKS_PER_SEGMENT) as Hdi.
    pose proof (Nat.div_mod_eq j CHUNKS_PER_SEGMENT) as Hdj.
    assert (i / CHUNKS_PER_SEGMENT < length (segments lv)) as Hseg by (apply Nat.Div0.div_lt_upper_bound; lia).
    destruct (lookup_lt_is_Some_2 _ _ Hseg) as [seg Hseg'].
    assert (length seg = CHUNKS_PER_SEGMENT) as Hl.
    { rewrite Forall_forall in Hs. apply Hs. by eapply list_elem_of_lookup_2. }
    destruct (decide (j = i)) as [->|Hne].
    + rewrite list_lookup_alter_eq, list_lookup_insert_eq by lia. rewrite Hseg'. simpl.
      apply list_lookup_insert_eq. rewrite Hl. apply Nat.mod_upper_bound. pose proof CHUNKS_PER_SEGMENT_pos. lia.
    + rewrite list_lookup_insert_ne by done.
      rewrite (mjoin_uniform_lookup _ _ j CHUNKS_PER_SEGMENT_pos Hs).
      destruct (decide (j / CHUNKS_PER_SEGMENT = i / CHUNKS_PER_SEGMENT)) as [Hq|Hq].
      * rewrite Hq, list_lookup_alter_eq, Hseg'. simpl. apply list_lookup_insert_ne. rewrite Hq in Hdj. lia.
      * by rewrite list_lookup_alter_ne.
  - split; [split; simpl; [done|by rewrite length_insert]|]. simpl.
    rewrite insert_app_r_alt by lia. by rewrite Hlen.
Qed.

Lemma push_chunk_chunks lv c :
  segments_ok lv → segments_ok (push_chunk lv c) ∧ level_chunks (push_chunk lv c) = level_chunks lv ++ [c].
Proof.
  intros [Hs Hp]. unfold push_chunk, freeze_pending, level_chunks, segments_ok. simpl. rewrite length_app. simpl.
  case_match; nbool; simpl.
  - split; [split; [|by apply CHUNKS_PER_SEGMENT_pos]|].
    + apply Forall_app. split; [done|]. repeat constructor. rewrite length_app. simpl. lia.
    + rewrite join_app. simpl. by rewrite !app_nil_r, app_assoc.
  - split; [split; [done|rewrite length_app; simpl; lia]|]. by rewrite app_assoc.
Qed.

Lemma push_chunks_chunks lv cs :
  segments_ok lv →
  segments_ok (foldl push_chunk lv cs) ∧ level_chunks (foldl push_chunk lv cs) = level_chunks lv ++ cs ∧
  level_len (foldl push_chunk lv cs) = level_len lv.
Proof.
  revert lv. induction cs as [|c cs IH]; intros lv Hlv; simpl; [by rewrite app_nil_r|].
  destruct (push_chunk_chunks lv c Hlv) as [H1 H2]. destruct (IH _ H1) as (H3 & H4 & H5).
  split_and!; [done| |].
  - by rewrite H4, H2, <- app_assoc.
  - rewrite H5. unfold push_chunk. by case_match.
Qed.

(** ** Lemmas: the flat view *)

Lemma flat_lookup lv i :
  Forall (λ c, length (as_slice c) = CHUNK_SIZE) (level_chunks lv) →
  flat lv !! i = c ← level_chunks lv !! (i / CHUNK_SIZE); as_slice c !! (i mod CHUNK_SIZE).
Proof.
  intros Hc. unfold flat. rewrite (mjoin_uniform_lookup CHUNK_SIZE); [|done|by apply Forall_fmap].
  rewrite list_lookup_fmap. by destruct (level_chunks lv !! _).
Qed.

Lemma length_flat lv :
  Forall (λ c, length (as_slice c) = CHUNK_SIZE) (level_chunks lv) →
  length (flat lv) = length (level_chunks lv) * CHUNK_SIZE.
Proof.
  intros Hc. unfold flat. rewrite (mjoin_uniform_length CHUNK_SIZE) by by apply Forall_fmap.
  by rewrite length_fmap.
Qed.

Lemma level_wf_segments lv : level_wf lv → segments_ok lv.
Proof. by intros []. Qed.
#[local] Hint Resolve level_wf_segments : core.

Lemma level_wf_flat lv : level_wf lv → level_len lv ≤ length (flat lv) < level_len lv + CHUNK_SIZE.
Proof.
  intros Hwf. rewrite length_flat, (lw_len _ Hwf) by apply Hwf.
  pose proof (div_ceil_spec (level_len lv) CHUNK_SIZE CHUNK_SIZE_pos). lia.
Qed.

Lemma length_level_list lv : level_wf lv → length (level_list lv) = level_len lv.
Proof. intros Hwf. pose proof (level_wf_flat lv Hwf). unfold level_list. fold (flat lv). rewrite length_take. lia. Qed.

Lemma level_rep_len lv l : level_rep lv l → level_len lv = length l.
Proof. intros [Hwf <-]. by rewrite length_level_list. Qed.

(** The chunk that holds an index. *)
Lemma level_chunk_at lv i :
  level_wf lv → i < length (level_chunks lv) →
  ∃ c, chunk lv i = Some c ∧ level_chunks lv !! i = Some c ∧ length (as_slice c) = CHUNK_SIZE.
Proof.
  intros Hwf Hi. destruct (lookup_lt_is_Some_2 _ _ Hi) as [c Hc]. exists c.
  rewrite chunk_lookup by auto. split_and!; [done..|].
  pose proof (lw_chunks lv Hwf) as H. rewrite Forall_forall in H. apply H. by eapply list_elem_of_lookup_2.
Qed.

Lemma chunk_in_range lv i : level_wf lv → i < level_len lv → i / CHUNK_SIZE < length (level_chunks lv).
Proof.
  intros Hwf Hi. rewrite (lw_len _ Hwf). apply div_ceil_lt; [done|].
  pose proof (Nat.Div0.mul_div_le i CHUNK_SIZE). lia.
Qed.

(** Writing inside one chunk is a splice of the flat view. *)
Lemma put_chunk_flat lv ci c offset w :
  segments_ok lv → Forall (λ c, length (as_slice c) = CHUNK_SIZE) (level_chunks lv) →
  level_chunks lv !! ci = Some c → offset + length w ≤ CHUNK_SIZE →
  let lv' := put_chunk lv ci (Memory (splice offset w (as_slice c))) in
  segments_ok lv' ∧ Forall (λ c, length (as_slice c) = CHUNK_SIZE) (level_chunks lv') ∧
  length (level_chunks lv') = length (level_chunks lv) ∧ level_len lv' = level_len lv ∧
  flat lv' = splice (ci * CHUNK_SIZE + offset) w (flat lv).
Proof.
  intros Hs Hc Hci Hw lv'. pose proof (lookup_lt_Some _ _ _ Hci) as Hlt.
  assert (length (as_slice c) = CHUNK_SIZE) as Hlc.
  { rewrite Forall_forall in Hc. apply Hc. by eapply list_elem_of_lookup_2. }
  destruct (put_chunk_chunks lv ci (Memory (splice offset w (as_slice c))) Hs Hlt) as [Hs' Hchunks].
  fold lv' in Hs', Hchunks.
  assert (Forall (λ c, length (as_slice c) = CHUNK_SIZE) (level_chunks lv')) as Hc'.
  { rewrite Hchunks. apply Forall_insert; [done|]. simpl. rewrite length_splice; lia. }
  split_and!; [done|done|by rewrite Hchunks, length_insert|unfold lv', put_chunk; by case_match|].
  apply list_eq. intros i.
  pose proof (Nat.div_mod_eq i CHUNK_SIZE) as Hdi. pose proof (Nat.mod_upper_bound i CHUNK_SIZE) as Hmi.
  pose proof CHUNK_SIZE_pos. pose proof (length_flat lv Hc) as Hfl.
  rewrite splice_lookup by (rewrite Hfl; nia).
  rewrite (flat_lookup lv') by done. rewrite Hchunks.
  destruct (decide (ci = i / CHUNK_SIZE)) as [Heq|Hne].
  - rewrite <- Heq in *. rewrite list_lookup_insert_eq by done. simpl.
    rewrite splice_lookup by lia. rewrite (flat_lookup lv), <- Heq, Hci by done. simpl.
    repeat case_decide; try lia; [|done]. f_equal. lia.
  - rewrite list_lookup_insert_ne by done. rewrite <- flat_lookup by done.
    rewrite decide_False; [done|]. intros Hin. apply Hne. apply Nat.div_unique with (r := i - ci * CHUNK_SIZE); lia.
Qed.

(** ** Lemmas: reading *)

Lemma level_list_lookup lv i : level_list lv !! i = if decide (i < level_len lv) then flat lv !! i else None.
Proof. unfold level_list. by rewrite lookup_take. Qed.

Lemma level_get_spec lv l i :
  level_rep lv l →
  level_get lv i = Some match l !! i with
    | Some h => Ok h
    | None => Err (IndexOutOfRange (N.of_nat i) (N.of_nat (length l)))
    end.
Proof.
  intros [Hwf <-]. unfold level_get. rewrite length_level_list, level_list_lookup by done.
  destruct (level_len lv <=? i) eqn:Hi; nbool; [by rewrite decide_False by lia|].
  rewrite decide_True by lia.
  destruct (level_chunk_at lv (i / CHUNK_SIZE) Hwf) as (c & Hc & Hc' & Hlc); [by apply chunk_in_range|].
  unfold chunk_slice. rewrite Hc, flat_lookup, Hc' by apply Hwf. cbn [fmap option_fmap option_map mbind option_bind].
  destruct (as_slice c !! (i mod CHUNK_SIZE)) eqn:Hs; [done|].
  apply lookup_ge_None in Hs. pose proof (Nat.mod_upper_bound i CHUNK_SIZE) as Hm.
  pose proof CHUNK_SIZE_pos. lia.
Qed.

(** A run inside one chunk is a slice of the level. *)
Lemma level_chunk_slice lv idx n :
  level_wf lv → idx mod CHUNK_SIZE + n ≤ CHUNK_SIZE → 0 < n → idx + n ≤ level_len lv →
  ∃ s, chunk_slice lv (idx / CHUNK_SIZE) = Some s ∧ length s = CHUNK_SIZE ∧
    slice (idx mod CHUNK_SIZE) n s = slice idx n (level_list lv).
Proof.
  intros Hwf Hn Hpos Hlen.
  destruct (level_chunk_at lv (idx / CHUNK_SIZE) Hwf) as (c & Hc & Hc' & Hlc); [apply chunk_in_range; [done|lia]|].
  exists (as_slice c). unfold chunk_slice. rewrite Hc. split_and!; [done..|].
  apply list_eq. intros i. rewrite !slice_lookup. case_decide as Hi; [|done].
  rewrite level_list_lookup, decide_True, flat_lookup by (apply Hwf || lia).
  pose proof (Nat.div_mod_eq idx CHUNK_SIZE).
  assert ((idx + i) / CHUNK_SIZE = idx / CHUNK_SIZE) as ->.
  { symmetry. apply Nat.div_unique with (r := idx mod CHUNK_SIZE + i); lia. }
  rewrite Hc'. simpl. f_equal. apply Nat.mod_unique with (q := idx / CHUNK_SIZE); lia.
Qed.

(** The runs cover the range, in order; they are cut at chunk borders, so that a width that
    divides the chunk size, the start and the count divides every run. *)
Lemma runs_from_spec lv start count fuel done_ :
  level_wf lv → start + count ≤ level_len lv → done_ ≤ count → count - done_ ≤ fuel →
  ∃ rs, runs_from fuel lv start count done_ = Some rs ∧
    mjoin rs = slice (start + done_) (count - done_) (level_list lv) ∧
    (∀ n, (n | CHUNK_SIZE) → (n | start + done_) → (n | count - done_) → Forall (λ r, (n | length r)) rs).
Proof.
  intros Hwf Hlen. revert done_. induction fuel as [|fuel IH]; intros done_ Hd Hf; simpl.
  - assert (done_ = count) as -> by lia. rewrite Nat.eqb_refl, Nat.sub_diag. exists []. done.
  - destruct (done_ =? count) eqn:Hdc; nbool.
    { subst. rewrite Nat.sub_diag. exists []. done. }
    set (idx := start + done_). set (k := Nat.min (CHUNK_SIZE - idx mod CHUNK_SIZE) (count - done_)).
    pose proof (Nat.mod_upper_bound idx CHUNK_SIZE) as Hm. pose proof CHUNK_SIZE_pos.
    destruct (level_chunk_slice lv idx k) as (s & Hs & Hsl & Hslice); [done|lia|lia|lia|].
    destruct (IH (done_ + k)) as (rs & Hrs & Hj & Hdiv); [lia|lia|].
    rewrite Hs. cbn [mbind option_bind]. rewrite Hrs. cbn [mbind option_bind].
    eexists. split; [reflexivity|]. rewrite Hslice. split.
    + rewrite mjoin_cons, Hj. replace (start + (done_ + k)) with (idx + k) by lia.
      rewrite slice_app_add. f_equal. lia.
    + intros n Hn Hstart Hcount. assert ((n | k)) as Hk.
      { unfold k. destruct (Nat.min_spec (CHUNK_SIZE - idx mod CHUNK_SIZE) (count - done_)) as [[_ ->]|[_ ->]];
          [|done]. apply Nat.divide_sub_r; [done|]. by apply divide_mod. }
      constructor.
      * rewrite length_slice; [done|]. rewrite length_level_list by done. lia.
      * apply Hdiv; [done| |].
        -- replace (start + (done_ + k)) with (idx + k) by lia. by apply Nat.divide_add_r.
        -- replace (count - (done_ + k)) with (count - done_ - k) by lia. by apply Nat.divide_sub_r.
Qed.

Lemma runs_spec lv start count :
  level_wf lv → start + count ≤ level_len lv →
  ∃ rs, runs lv start count = Some rs ∧ mjoin rs = slice start count (level_list lv) ∧
    (∀ n, (n | CHUNK_SIZE) → (n | start) → (n | count) → Forall (λ r, (n | length r)) rs).
Proof.
  intros Hwf Hlen. unfold runs. rewrite (proj2 (Nat.leb_le _ _)) by done.
  destruct (runs_from_spec lv start count count 0 Hwf Hlen) as (rs & H1 & H2 & H3); [lia..|].
  rewrite Nat.add_0_r, Nat.sub_0_r in *. eauto.
Qed.

Lemma copy_runs_spec (rs : list (list hash)) at_ (out : list hash) :
  at_ + length (mjoin rs) ≤ length out → copy_runs rs at_ out = Some (splice at_ (mjoin rs) out).
Proof.
  revert at_ out. induction rs as [|r rs IH]; intros at_ out Hlen; [simpl; by rewrite splice_nil|].
  cbn [copy_runs]. rewrite mjoin_cons in *. rewrite length_app in Hlen. rewrite (proj2 (Nat.leb_le _ _)) by lia.
  rewrite IH by (rewrite length_splice; lia). f_equal. apply splice_app. lia.
Qed.

Lemma get_group_spec lv l start count (out : list hash) :
  level_rep lv l → start + count ≤ length l → count ≤ length out →
  get_group lv start count out = Some (splice 0 (slice start count l) out).
Proof.
  intros [Hwf <-] Hlen Hout. rewrite length_level_list in Hlen by done.
  destruct (runs_spec lv start count Hwf Hlen) as (rs & Hrs & Hj & _).
  unfold get_group. rewrite Hrs. cbn [mbind option_bind]. rewrite copy_runs_spec; [by rewrite Hj|].
  rewrite Hj, length_slice; [done|]. by rewrite length_level_list.
Qed.

(** ** Lemmas: writing *)

(** The chunk shape, without the length field. *)
Definition chunks_ok lv : Prop :=
  segments_ok lv ∧ Forall (λ c, length (as_slice c) = CHUNK_SIZE) (level_chunks lv).

Lemma level_wf_chunks lv :
  level_wf lv ↔ chunks_ok lv ∧ length (level_chunks lv) = div_ceil (level_len lv) CHUNK_SIZE.
Proof. split; [by intros []|]. intros [[[] ?] ?]. by split. Qed.

Lemma chunk_splice_spec lv idx n (w : list hash) (f : list hash → option (list hash)) :
  chunks_ok lv → idx / CHUNK_SIZE < length (level_chunks lv) → idx mod CHUNK_SIZE + n ≤ CHUNK_SIZE →
  length w = n → (∀ s, f s = Some (splice (idx mod CHUNK_SIZE) w s)) →
  ∃ lv', runs_to (chunk_slice_mut (idx / CHUNK_SIZE) f) lv lv' () ∧ chunks_ok lv' ∧
    length (level_chunks lv') = length (level_chunks lv) ∧ level_len lv' = level_len lv ∧
    flat lv' = splice idx w (flat lv).
Proof.
  intros [Hs Hc] Hidx Hn Hw Hf. destruct (lookup_lt_is_Some_2 _ _ Hidx) as [c Hci].
  destruct (put_chunk_flat lv (idx / CHUNK_SIZE) c (idx mod CHUNK_SIZE) w Hs Hc Hci)
    as (H1 & H2 & H3 & H4 & H5); [lia|].
  eexists. split.
  - unfold runs_to, chunk_slice_mut. by rewrite chunk_lookup, Hci, Hf by done.
  - split_and!; [by split|done|done|]. rewrite H5. f_equal.
    pose proof (Nat.div_mod_eq idx CHUNK_SIZE). lia.
Qed.

Lemma write_from_spec start count fill vs fuel done_ lv :
  fills fill vs → length vs = count → done_ ≤ count → count - done_ ≤ fuel →
  level_wf lv → start + count ≤ level_len lv →
  ∃ lv', runs_to (write_from fuel start count done_ fill) lv lv' () ∧
    level_rep lv' (splice (start + done_) (drop done_ vs) (level_list lv)).
Proof.
  intros Hfill Hvs. revert done_ lv. induction fuel as [|fuel IH]; intros done_ lv Hd Hf Hwf Hlen; simpl.
  - assert (done_ = count) as -> by lia. rewrite (proj2 (Nat.leb_le _ _)) by lia.
    exists lv. rewrite drop_ge by lia. by rewrite splice_nil.
  - destruct (count <=? done_) eqn:Hdc; nbool.
    { exists lv. rewrite drop_ge by lia. by rewrite splice_nil. }
    set (idx := start + done_). set (k := Nat.min (CHUNK_SIZE - idx mod CHUNK_SIZE) (count - done_)).
    pose proof (Nat.mod_upper_bound idx CHUNK_SIZE) as Hm. pose proof CHUNK_SIZE_pos.
    pose proof (level_wf_flat lv Hwf) as Hfl. pose proof (length_level_list lv Hwf) as Hll.
    assert (length (slice done_ k vs) = k) as Hsl by (apply length_slice; lia).
    destruct (chunk_splice_spec lv idx k (slice done_ k vs)
      (λ s, w ← fill done_ k; Some (splice (idx mod CHUNK_SIZE) w s)))
      as (lv1 & Hr & Hc1 & Hn1 & Hl1 & Hflat1); [|apply chunk_in_range; [done|lia]|lia|done| |].
    { apply level_wf_chunks in Hwf. tauto. }
    { intros s. by rewrite Hfill by lia. }
    assert (level_wf lv1) as Hwf1.
    { apply level_wf_chunks. split; [done|]. rewrite Hn1, Hl1. apply Hwf. }
    assert (level_list lv1 = splice idx (slice done_ k vs) (level_list lv)) as Hlist1.
    { unfold level_list. fold (flat lv1) (flat lv). rewrite Hl1, Hflat1. apply splice_take; lia. }
    destruct (IH (done_ + k) lv1) as (lv2 & Hr2 & Hrep2); [lia|lia|done|lia|].
    exists lv2. split.
    + unfold runs_to. rewrite (sm_bind_ok _ _ _ _ _ Hr). exact Hr2.
    + rewrite Hlist1 in Hrep2.
      replace (start + (done_ + k)) with (idx + length (slice done_ k vs)) in Hrep2 by lia.
      rewrite splice_app in Hrep2 by (rewrite length_drop; lia).
      assert (slice done_ k vs ++ drop (done_ + k) vs = drop done_ vs) as Heq; [|by rewrite Heq in Hrep2].
      unfold slice. by rewrite <- drop_drop, take_drop.
Qed.

Lemma write_with_spec start fill vs lv l :
  fills fill vs → level_rep lv l → start + length vs ≤ length l →
  ∃ lv', runs_to (write_with start (length vs) fill) lv lv' () ∧ level_rep lv' (splice start vs l).
Proof.
  intros Hfill Hrep Hlen. rewrite <- (level_rep_len _ _ Hrep) in Hlen. destruct Hrep as [Hwf <-].
  destruct (write_from_spec start (length vs) fill vs (length vs) 0 lv) as (lv' & H1 & H2); [done|done|lia|lia|done|done|].
  rewrite Nat.add_0_r in H2. exists lv'. split; [|done]. unfold write_with, runs_to.
  by rewrite sm_get_bind, debug_assert_bind by by apply Nat.leb_le.
Qed.

(** ** Lemmas: growing *)

(** Appending chunks to a level whose chunks are all used. *)
Lemma push_chunks_rep lv l built ws :
  level_rep lv l → length (flat lv) = length l →
  Forall (λ c, length (as_slice c) = CHUNK_SIZE) built → length built = div_ceil (length ws) CHUNK_SIZE →
  take (length ws) (mjoin (as_slice <$> built)) = ws →
  level_rep (set_len (length l + length ws) (foldl push_chunk lv built)) (l ++ ws).
Proof.
  intros [Hwf Hl] Hfull Hbuilt Hn Hws. pose proof (level_wf_segments lv Hwf) as Hs.
  destruct (push_chunks_chunks lv built Hs) as (H1 & H2 & H3).
  pose proof (length_flat lv (lw_chunks _ Hwf)) as Hfl.
  assert (flat lv = l) as Hflat.
  { rewrite <- Hl. unfold level_list. fold (flat lv). rewrite take_ge; [done|].
    rewrite <- (length_level_list lv Hwf). rewrite Hl. lia. }
  assert (level_chunks (set_len (length l + length ws) (foldl push_chunk lv built)) =
    level_chunks lv ++ built) as Hch by exact H2.
  split.
  - apply level_wf_chunks. split; [split; [exact H1|]|].
    + rewrite Hch. apply Forall_app. split; [apply Hwf|done].
    + rewrite Hch, length_app, Hn. simpl. symmetry. apply div_ceil_unique; [done|].
      pose proof (div_ceil_spec (length ws) CHUNK_SIZE CHUNK_SIZE_pos). lia.
  - unfold level_list. rewrite Hch, fmap_app, join_app. fold (flat lv). rewrite Hflat. simpl.
    rewrite take_app_ge by lia. f_equal. by replace (length l + length ws - length l) with (length ws) by lia.
Qed.

Lemma mapM_seq {A} (f : nat → option A) (g : nat → A) n :
  (∀ i, i < n → f i = Some (g i)) → mapM f (seq 0 n) = Some (g <$> seq 0 n).
Proof.
  intros H. apply mapM_Some_2, Forall2_fmap_r, Forall_Forall2_diag, Forall_forall.
  intros i [_ Hi]%elem_of_seq. by apply H.
Qed.

Lemma set_len_same lv : set_len (level_len lv) lv = lv.
Proof. by destruct lv. Qed.

(** Filling the unused end of the last chunk. *)
Lemma extend_tail_spec lv l ws (f : list hash → option (list hash)) :
  level_rep lv l → 0 < length l mod CHUNK_SIZE → length l mod CHUNK_SIZE + length ws ≤ CHUNK_SIZE →
  (∀ s, f s = Some (splice (length l mod CHUNK_SIZE) ws s)) →
  ∃ lv', runs_to (chunk_slice_mut (length l / CHUNK_SIZE) f) lv lv' () ∧ level_len lv' = level_len lv ∧
    level_rep (set_len (length l + length ws) lv') (l ++ ws).
Proof.
  intros Hrep Hoff Hn Hf. pose proof (level_rep_len lv l Hrep) as Hlen. destruct Hrep as [Hwf Hl].
  pose proof (Nat.div_mod_eq (length l) CHUNK_SIZE) as Hdm. pose proof CHUNK_SIZE_pos.
  assert (div_ceil (length l) CHUNK_SIZE = S (length l / CHUNK_SIZE)) as Hcl.
  { apply div_ceil_unique; [done|]. pose proof (Nat.mod_upper_bound (length l) CHUNK_SIZE). lia. }
  pose proof (length_flat lv (lw_chunks _ Hwf)) as Hfl. rewrite (lw_len _ Hwf), Hlen, Hcl in Hfl.
  destruct (chunk_splice_spec lv (length l) (length ws) ws f) as (lv' & Hr & Hc & Hn' & Hl' & Hflat); [|..].
  { apply level_wf_chunks in Hwf. tauto. }
  { rewrite (lw_len _ Hwf), Hlen, Hcl. lia. }
  { done. } { done. } { done. }
  exists lv'. split; [done|]. split; [done|]. split.
  - apply level_wf_chunks. split; [exact Hc|]. change (level_chunks (set_len _ lv')) with (level_chunks lv').
    rewrite Hn', (lw_len _ Hwf), Hlen, Hcl. simpl. symmetry. apply div_ceil_unique; [done|]. lia.
  - unfold level_list. change (mjoin (as_slice <$> level_chunks (set_len (length l + length ws) lv')))
      with (flat lv'). simpl. rewrite Hflat. unfold splice. rewrite app_assoc.
    assert (take (length l) (flat lv) = l) as ->.
    { rewrite <- Hl at 2. unfold level_list. fold (flat lv). by rewrite Hlen. }
    rewrite take_app_le by (rewrite length_app; lia). apply take_ge. rewrite length_app. lia.
Qed.

(** What [build_chunks] builds in [extend_with], for a closure that writes [vs]. *)
Lemma built_chunks_spec fill vs done_ :
  fills fill vs → done_ < length vs →
  ∃ built,
    build_chunks (div_ceil (length vs - done_) CHUNK_SIZE) (λ ci,
      let base := done_ + ci * CHUNK_SIZE in
      let take := Nat.min (length vs - base) CHUNK_SIZE in
      w ← fill base take; Some (Memory (w ++ replicate (CHUNK_SIZE - take) ZERO))) = Some built ∧
    Forall (λ c, length (as_slice c) = CHUNK_SIZE) built ∧
    length built = div_ceil (length (drop done_ vs)) CHUNK_SIZE ∧
    take (length (drop done_ vs)) (mjoin (as_slice <$> built)) = drop done_ vs.
Proof.
  intros Hfill Hd. pose proof CHUNK_SIZE_pos. set (ws := drop done_ vs).
  assert (length ws = length vs - done_) as Hws by apply length_drop.
  set (g ci := Memory (slice (ci * CHUNK_SIZE) (Nat.min (length ws - ci * CHUNK_SIZE) CHUNK_SIZE) ws ++
    replicate (CHUNK_SIZE - Nat.min (length ws - ci * CHUNK_SIZE) CHUNK_SIZE) ZERO)).
  exists (g <$> seq 0 (div_ceil (length ws) CHUNK_SIZE)).
  assert (as_slice <$> (g <$> seq 0 (div_ceil (length ws) CHUNK_SIZE)) =
    (λ ci, slice (ci * CHUNK_SIZE) (Nat.min (length ws - ci * CHUNK_SIZE) CHUNK_SIZE) ws ++
      replicate (CHUNK_SIZE - Nat.min (length ws - ci * CHUNK_SIZE) CHUNK_SIZE) ZERO) <$>
      seq 0 (div_ceil (length ws) CHUNK_SIZE)) as Hslices by by rewrite <- list_fmap_compose.
  split_and!.
  - rewrite <- Hws. apply mapM_seq. intros ci Hci. apply (div_ceil_lt _ _ ci CHUNK_SIZE_pos) in Hci.
    cbn zeta. rewrite Hfill by lia. cbn [mbind option_bind]. unfold g. do 3 f_equal.
    + replace (length vs - (done_ + ci * CHUNK_SIZE)) with (length ws - ci * CHUNK_SIZE) by lia.
      unfold ws, slice. by rewrite drop_drop.
    + do 2 f_equal. lia.
  - apply Forall_fmap, Forall_forall. intros ci [_ Hci]%elem_of_seq.
    apply (div_ceil_lt _ _ ci CHUNK_SIZE_pos) in Hci. simpl.
    rewrite length_app, length_slice, length_replicate by lia. lia.
  - by rewrite length_fmap, length_seq.
  - rewrite Hslices. apply chunks_padded; [done|]. intros ci _. apply length_replicate.
Qed.

Lemma extend_with_spec lv l fill vs :
  level_rep lv l → fills fill vs → (N.of_nat (length l) + N.of_nat (length vs) ≤ u64_max)%N →
  ∃ lv', runs_to (extend_with (length vs) fill) lv lv' () ∧ level_rep lv' (l ++ vs).
Proof.
  intros Hrep Hfill Hmax. pose proof (level_rep_len lv l Hrep) as Hlen.
  unfold extend_with, runs_to. rewrite (sm_bind_ok sm_get _ lv lv lv) by done.
  destruct (length vs =? 0) eqn:Hz; nbool.
  { exists lv. split; [done|]. by rewrite (nil_length_inv vs), app_nil_r by done. }
  rewrite Hlen. destruct (u64_max <? _)%N eqn:Hov; nbool; [lia|].
  set (m := length l mod CHUNK_SIZE). set (d := if 0 <? m then Nat.min (CHUNK_SIZE - m) (length vs) else 0).
  pose proof CHUNK_SIZE_pos. pose proof (Nat.mod_upper_bound (length l) CHUNK_SIZE) as Hm. fold m in Hm.
  pose proof (Nat.div_mod_eq (length l) CHUNK_SIZE) as Hdm. fold m in Hdm.
  assert (length (take d vs) = d) as Htd by (rewrite length_take; unfold d; case_match; lia).
  assert (∃ lv1, runs_to (if 0 <? m
      then let take := Nat.min (CHUNK_SIZE - m) (length vs) in
           chunk_slice_mut (length l / CHUNK_SIZE) (λ s, w ← fill 0 take; Some (splice m w s));; mret take
      else mret 0) lv lv1 d ∧ level_rep (set_len (length l + d) lv1) (l ++ take d vs)) as (lv1 & Hr1 & Hrep1).
  { unfold d in *. destruct (0 <? m) eqn:Hm0; nbool.
    - destruct (extend_tail_spec lv l (take (Nat.min (CHUNK_SIZE - m) (length vs)) vs)
        (λ s, w ← fill 0 (Nat.min (CHUNK_SIZE - m) (length vs)); Some (splice m w s)))
        as (lv1 & Hr & _ & Hrep1); [done|done|fold m; lia| |].
      + intros s. rewrite Hfill by lia. done.
      + rewrite Htd in Hrep1. exists lv1. split; [|done]. cbn zeta. unfold runs_to.
        by rewrite (sm_bind_ok _ _ _ _ _ Hr).
    - exists lv. split; [done|]. rewrite take_0, app_nil_r, Nat.add_0_r, <- Hlen, set_len_same. done. }
  rewrite (sm_bind_ok _ _ _ _ _ Hr1).
  destruct (d <? length vs) eqn:Hd; nbool.
  - destruct (built_chunks_spec fill vs d Hfill Hd) as (built & Hb & Hb1 & Hb2 & Hb3).
    assert (length (flat (set_len (length l + d) lv1)) = length (l ++ take d vs)) as Hfull.
    { pose proof (proj1 Hrep1) as Hwf1. rewrite length_flat, (lw_len _ Hwf1) by apply Hwf1.
      simpl. rewrite length_app, Htd. pose proof (div_ceil_spec (length l + d) CHUNK_SIZE CHUNK_SIZE_pos).
      unfold d in *. destruct (0 <? m) eqn:Hm0; nbool.
      - assert (div_ceil (length l + Nat.min (CHUNK_SIZE - m) (length vs)) CHUNK_SIZE =
          S (length l / CHUNK_SIZE)) as ->; [|lia]. apply div_ceil_unique; [done|]. lia.
      - assert (div_ceil (length l + 0) CHUNK_SIZE = length l / CHUNK_SIZE) as ->; [|lia].
        apply div_ceil_unique; [done|]. lia. }
    pose proof (push_chunks_rep _ _ built (drop d vs) Hrep1 Hfull Hb1 Hb2 Hb3) as Hrep2.
    rewrite length_app, Htd, <- app_assoc, take_drop in Hrep2.
    eexists. split.
    + etransitivity; [apply (sm_bind_ok _ _ _ (foldl push_chunk lv1 built) ())|reflexivity]. unfold runs_to.
      rewrite (sm_bind_ok _ _ lv1 lv1 built); [done|]. cbn zeta in *. unfold runs_to, sm_expect. by rewrite Hb.
    + destruct (push_chunks_chunks lv1 built) as (_ & _ & Hlp); [apply (level_wf_segments _ (proj1 Hrep1))|].
      assert (∀ n, foldl push_chunk (set_len n lv1) built = set_len n (foldl push_chunk lv1 built)) as Hcomm.
      { intros n. clear. revert lv1. induction built as [|c built IH]; intros lv1; simpl; [done|].
        rewrite <- IH. f_equal. unfold push_chunk, set_len. simpl. by case_match. }
      rewrite Hcomm in Hrep2. rewrite length_drop in Hrep2.
      replace (length l + d + (length vs - d)) with (length l + length vs) in Hrep2 by lia. exact Hrep2.
  - assert (d = length vs) as Hdv by (rewrite <- Htd, length_take in *; lia).
    eexists. split; [reflexivity|]. rewrite take_ge, Hdv in Hrep1 by lia. exact Hrep1.
Qed.

Lemma extend_spec lv l vs :
  level_rep lv l → (N.of_nat (length l) + N.of_nat (length vs) ≤ u64_max)%N →
  ∃ lv', runs_to (extend vs) lv lv' () ∧ level_rep lv' (l ++ vs).
Proof.
  intros Hrep Hmax. apply extend_with_spec; [done| |done].
  intros off n _ Hn. by rewrite (proj2 (Nat.leb_le _ _)) by lia.
Qed.

(** Zero-filling up to a length. *)
Definition pad_to (n : nat) l : list hash := l ++ replicate (n - length l) ZERO.

Lemma ensure_len_spec lv l n :
  level_rep lv l → (N.of_nat n ≤ u64_max)%N →
  ∃ lv', runs_to (ensure_len n) lv lv' () ∧ level_rep lv' (pad_to n l).
Proof.
  intros Hrep Hmax. unfold ensure_len, pad_to, runs_to.
  rewrite (sm_bind_ok sm_get _ lv lv lv), (level_rep_len lv l Hrep) by done. case_match; nbool.
  - exists lv. replace (n - length l) with 0 by lia. by rewrite app_nil_r.
  - pose proof (extend_with_spec lv l (λ _ k, Some (replicate k ZERO)) (replicate (n - length l) ZERO) Hrep) as Hext.
    rewrite length_replicate in Hext. apply Hext; [|lia].
    intros off k _ Hk. f_equal. rewrite length_replicate in Hk. symmetry. unfold slice.
    rewrite drop_replicate, take_replicate. f_equal. lia.
Qed.

Lemma set_preallocated_spec lv l i v :
  level_rep lv l → i < length l →
  ∃ lv', runs_to (set_preallocated i v) lv lv' () ∧ level_rep lv' (<[i := v]> l).
Proof.
  intros Hrep Hi. pose proof (level_rep_len lv l Hrep) as Hlen. destruct Hrep as [Hwf Hl].
  pose proof (level_wf_flat lv Hwf) as Hfl. pose proof CHUNK_SIZE_pos.
  pose proof (Nat.mod_upper_bound i CHUNK_SIZE) as Hm.
  pose proof (chunk_in_range lv i Hwf ltac:(lia)) as Hci.
  destruct (level_chunk_at lv _ Hwf Hci) as (c & Hc & Hc' & Hlc).
  destruct (put_chunk_flat lv (i / CHUNK_SIZE) c (i mod CHUNK_SIZE) [v])
    as (H1 & H2 & H3 & H4 & H5); [auto|apply Hwf|done|simpl; lia|].
  rewrite splice_single in H1, H2, H3, H4, H5 by lia.
  eexists. split.
  { unfold runs_to, set_preallocated, chunk_slice_mut. rewrite sm_get_bind, debug_assert_bind by (apply Nat.ltb_lt; lia).
    by rewrite Hc. }
  split.
  - apply level_wf_chunks. split; [done|]. rewrite H3, H4. apply Hwf.
  - unfold level_list. rewrite H4. fold (flat (put_chunk lv (i / CHUNK_SIZE)
      (Memory (<[i mod CHUNK_SIZE := v]> (as_slice c))))). rewrite H5.
    replace (i / CHUNK_SIZE * CHUNK_SIZE + i mod CHUNK_SIZE) with i
      by (pose proof (Nat.div_mod_eq i CHUNK_SIZE); lia).
    rewrite splice_take, splice_single by (rewrite ?length_take; simpl; lia). by rewrite <- Hl.
Qed.

(** [set] writes in place, after zero-filling up to the index when it is past the end. *)
Lemma level_set_spec lv l i v :
  level_rep lv l → (N.of_nat i < u64_max)%N →
  ∃ lv', runs_to (level_set i v) lv lv' () ∧ level_rep lv' (<[i := v]> (pad_to (i + 1) l)).
Proof.
  intros Hrep Hmax. unfold level_set.
  assert (∃ lv1, runs_to (if level_len lv <=? i then ensure_len (i + 1) else mret ()) lv lv1 () ∧
    level_rep lv1 (pad_to (i + 1) l)) as (lv1 & Hr1 & Hrep1).
  { rewrite (level_rep_len lv l Hrep). case_match; nbool.
    - apply ensure_len_spec; [done|]. lia.
    - exists lv. split; [done|]. unfold pad_to. replace (i + 1 - length l) with 0 by lia.
      by rewrite app_nil_r. }
  destruct (set_preallocated_spec lv1 (pad_to (i + 1) l) i v) as (lv2 & Hr2 & Hrep2); [done| |].
  { unfold pad_to. rewrite length_app, length_replicate. lia. }
  exists lv2. split; [|done]. unfold runs_to. rewrite (sm_bind_ok sm_get _ lv lv lv) by done.
  rewrite (sm_bind_ok _ _ _ _ _ Hr1). exact Hr2.
Qed.

(** Appending through [set], the way the tree grows a level. *)
Lemma pad_to_insert l i v :
  i ≤ length l → <[i := v]> (pad_to (i + 1) l) = take i l ++ [v] ++ drop (i + 1) l.
Proof.
  intros Hi. unfold pad_to. destruct (decide (i = length l)) as [->|].
  - replace (length l + 1 - length l) with 1 by lia. simpl.
    rewrite insert_app_r_alt, Nat.sub_diag, take_ge, drop_ge by lia. done.
  - replace (i + 1 - length l) with 0 by lia. rewrite app_nil_r, insert_take_drop by lia.
    by rewrite Nat.add_1_r.
Qed.

Lemma level_new_rep : level_rep level_new [].
Proof.
  split; [|done]. split; simpl; [constructor|auto|constructor|]. by rewrite div_ceil_0.
Qed.

Lemma segments_cut (chunks : list Chunk) k :
  k * CHUNKS_PER_SEGMENT ≤ length chunks →
  mjoin ((λ i, slice (i * CHUNKS_PER_SEGMENT) CHUNKS_PER_SEGMENT chunks) <$> seq 0 k) =
    take (k * CHUNKS_PER_SEGMENT) chunks.
Proof.
  induction k as [|k IH]; intros Hk; [done|]. rewrite seq_S, fmap_app, join_app. simpl.
  rewrite IH, app_nil_r by lia. replace (CHUNKS_PER_SEGMENT + k * CHUNKS_PER_SEGMENT)
    with (k * CHUNKS_PER_SEGMENT + CHUNKS_PER_SEGMENT) by lia.
  rewrite <- take_take_drop. done.
Qed.

(** Chunks from a checkpoint, cut into segments and pending. *)
Lemma from_parts_spec chunks n :
  Forall (λ c, length (as_slice c) = CHUNK_SIZE) chunks → length chunks = div_ceil n CHUNK_SIZE →
  level_chunks (from_parts chunks n) = chunks ∧
  level_rep (from_parts chunks n) (take n (mjoin (as_slice <$> chunks))).
Proof.
  intros Hc Hn. pose proof CHUNKS_PER_SEGMENT_pos as Hpos.
  set (k := length chunks / CHUNKS_PER_SEGMENT).
  pose proof (Nat.div_mod_eq (length chunks) CHUNKS_PER_SEGMENT) as Hdm. fold k in Hdm.
  pose proof (Nat.mod_upper_bound (length chunks) CHUNKS_PER_SEGMENT) as Hm.
  assert (level_chunks (from_parts chunks n) = chunks) as Hch.
  { unfold level_chunks, from_parts. simpl. fold k. rewrite segments_cut by lia. apply take_drop. }
  split; [done|]. split; [|unfold level_list; by rewrite Hch].
  split; [| |by rewrite Hch|by rewrite Hch].
  - simpl. apply Forall_fmap, Forall_forall. intros i [_ Hi]%elem_of_seq. simpl. apply length_slice.
    fold k in Hi. nia.
  - simpl. fold k. rewrite length_drop. lia.
Qed.

Lemma chunks_since_spec lv already :
  level_wf lv → chunks_since lv already = Some (drop already (level_chunks lv)).
Proof.
  intros Hwf. pose proof (level_wf_segments lv Hwf) as Hs. pose proof (level_chunks_length lv Hs) as Hlen.
  unfold chunks_since. rewrite <- Hlen. apply mapM_Some_2, Forall2_same_length_lookup.
  split; [by rewrite length_seq, length_drop|]. intros i j c Hj Hc.
  apply lookup_seq in Hj as [-> Hj]. rewrite lookup_drop in Hc. rewrite chunk_lookup by done. exact Hc.
Qed.

(** ** Properties *)

(** A level is a growing list of hashes, whatever the chunks, the segments and the pending
    buffer it is stored in. Reads return the list's elements, and an index past the end is an
    error; a write replaces one element; appending and zero-filling extend the list; a batch
    write replaces a range; a level rebuilt from its chunks and its length is the same list. On
    a well-formed level no operation panics, and each one leaves a well-formed level. *)
Theorem chunked_level_refines_list lv l i v vs start count fill out :
  level_rep lv l → (N.of_nat (length l) + N.of_nat (length vs) ≤ u64_max)%N → (N.of_nat i < u64_max)%N →
  level_get lv i = Some match l !! i with
    | Some h => Ok h
    | None => Err (IndexOutOfRange (N.of_nat i) (N.of_nat (length l)))
    end ∧
  (start + count ≤ length l → count ≤ length out →
    get_group lv start count out = Some (splice 0 (slice start count l) out)) ∧
  (∃ lv', runs_to (level_set i v) lv lv' () ∧ level_rep lv' (<[i := v]> (pad_to (i + 1) l))) ∧
  (fills fill vs → ∃ lv', runs_to (extend_with (length vs) fill) lv lv' () ∧ level_rep lv' (l ++ vs)) ∧
  (fills fill vs → start + length vs ≤ length l →
    ∃ lv', runs_to (write_with start (length vs) fill) lv lv' () ∧ level_rep lv' (splice start vs l)) ∧
  (∃ cs, chunks_since lv 0 = Some cs ∧ level_rep (from_parts cs (level_len lv)) l).
Proof.
  intros Hrep Hmax Hi. split_and!.
  - by apply level_get_spec.
  - intros. by apply get_group_spec.
  - by apply level_set_spec.
  - intros. by apply extend_with_spec.
  - intros. by apply write_with_spec.
  - destruct Hrep as [Hwf Hl]. exists (level_chunks lv). split; [by rewrite chunks_since_spec, drop_0|].
    destruct (from_parts_spec (level_chunks lv) (level_len lv)) as [_ H]; [apply Hwf..|].
    by rewrite <- Hl.
Qed.

End level.

Lemma chunked_level_refines_list_witness :
  let v := replicate 32 x01 in
  ∃ lv', runs_to (level_set 2 v) level_new lv' () ∧ level_rep lv' [ZERO; ZERO; v].
Proof.
  intros v.
  destruct (chunked_level_refines_list level_new [] 2 v [] 0 0 (λ _ _, None) [] level_new_rep)
    as (_ & _ & (lv' & H1 & H2) & _); [done|done|].
  exists lv'. split; [exact H1|exact H2].
Defined.
