(* ===== verification/Tree.v ===== *)
(** The lean incremental Merkle tree ([crates/rotortree/src/tree.rs]): depth, single and batched
    insertion, the parallel split, snapshots and the root recomputation of recovery. *)
From S2P Require Import Prelude Hash ChunkedLevel.

(** ** Integers *)

(** [trailing_zeros] of a nonzero number. *)
Fixpoint ctz (p : positive) : nat :=
  match p with xO p => S (ctz p) | _ => 0 end.
Definition trailing_zeros (n : nat) : nat :=
  match N.of_nat n with N0 => 64 | Npos p => ctz p end.

(** [u64::ilog]: dividing until the base is not reached; 64 divisions are enough. *)
Fixpoint ilog_loop (fuel : nat) (x base : N) : nat :=
  match fuel with
  | O => 0
  | S fuel => if (x <? base)%N then 0 else S (ilog_loop fuel (x / base) base)
  end.
Definition ilog (x base : N) : nat := ilog_loop 64 x base.

(** [ceil_log_n]. [u64::BITS - leading_zeros] is the number of significant bits. *)
Definition ceil_log_n (size : N) (n : nat) : nat :=
  if (size <=? 1)%N then 0 else
  if is_power_of_two n then
    let radix_bits := trailing_zeros n in
    let span_bits := N.to_nat (N.size (size - 1)) in
    div_ceil span_bits radix_bits
  else ilog (size - 1) (N.of_nat n) + 1.

(** [u64_to_usize], on a target whose [usize] has 64 bits. *)
Definition u64_to_usize (val : N) : result nat TreeError :=
  if (val <=? u64_max)%N then Ok (N.to_nat val) else Err CapacityExceeded.

(** ** Data *)

(** [TreeSnapshot<N, MAX_DEPTH>]. *)
Record TreeSnapshot := MkSnapshot {
  snap_levels : list ChunkedLevel;
  snap_root : option hash;
  snap_size : N;
  snap_depth : nat;
}.

(** [TreeInner<N, MAX_DEPTH>]. *)
Record TreeInner := MkTree {
  levels : list ChunkedLevel;
  root : option hash;
  size : N;
  depth : nat;
}.

Definition PARENT_WINDOW : nat := 16.
Definition PAR_CHUNK_SIZE : nat := 64.

Section tree.
(** The const generics [N] and [MAX_DEPTH], the hasher, and the [parallel] feature: [None] when
    it is off, else the threshold read from the environment. *)
Context (nary max_depth : nat) `{!Hasher} (par : option nat).

(** ** Snapshots *)

(** [TreeSnapshot::level_len]; [None] is the index panic. *)
Definition snapshot_level_len (s : TreeSnapshot) (level : nat) : option nat :=
  if snap_depth s <? level then Some 0 else
  if level =? snap_depth s then Some (match snap_root s with Some _ => 1 | None => 0 end) else
  level_len <$> snap_levels s !! level.

(** [TreeSnapshot::get_node]. *)
Definition get_node (s : TreeSnapshot) (level index : nat) : option (result hash TreeError) :=
  if snap_depth s <? level then Some (Err (IndexOutOfRange (N.of_nat index) 0)) else
  if level =? snap_depth s then
    Some (ok_or (r ← snap_root s; if index =? 0 then Some r else None)
      (IndexOutOfRange (N.of_nat index) (match snap_root s with Some _ => 1 | None => 0 end)))
  else lv ← snap_levels s !! level; level_get lv index.

(** ** The tree *)

(** [TreeInner::new]. *)
Definition tree_new : TreeInner := MkTree (replicate max_depth level_new) None 0 0.

(** [TreeInner::set_level_from_parts]. *)
Definition set_level_from_parts (t : TreeInner) (level_idx : nat) (chunks : list Chunk) (len : nat)
    : TreeInner :=
  MkTree (<[level_idx := from_parts chunks len]> (levels t)) (root t) (size t) (depth t).

(** [TreeInner::snapshot]: the levels up to the root's, the others empty. *)
Definition snapshot (t : TreeInner) : TreeSnapshot :=
  let snap_count := Nat.min (depth t + 1) max_depth in
  MkSnapshot (take snap_count (levels t) ++ replicate (max_depth - snap_count) level_new)
    (root t) (size t) (depth t).

(** [TreeInner::_hash_group]. *)
Definition _hash_group (current : list hash) (parent_idx len : nat) : hash :=
  let start := parent_idx * nary in
  let end_ := Nat.min (start + nary) len in
  let tally := end_ - start in
  if tally =? 1 then current !!! start else hash_children (slice start tally current).

(** The parents of one level in [recompute_root]: one map, or parallel pieces of
    [PAR_CHUNK_SIZE] written side by side. *)
Definition frontier_parents (frontier : list hash) : list hash :=
  let len := length frontier in
  let num_parents := div_ceil len nary in
  let scalar := (λ i, _hash_group frontier i len) <$> seq 0 num_parents in
  match par with
  | Some threshold =>
    if threshold <=? num_parents then
      mjoin ((λ ci, (λ i, _hash_group frontier (ci * PAR_CHUNK_SIZE + i) len) <$>
                      seq 0 (Nat.min PAR_CHUNK_SIZE (num_parents - ci * PAR_CHUNK_SIZE))) <$>
             seq 0 (div_ceil num_parents PAR_CHUNK_SIZE))
    else scalar
  | None => scalar
  end.

(** [TreeInner::recompute_root]; the outer [None] is an index panic. *)
Definition recompute_root (t : TreeInner) : option (option hash) :=
  if (size t =? 0)%N then Some None else
  l0 ← levels t !! 0;
  if (size t =? 1)%N then
    r ← level_get l0 0; Some (match r with Ok h => Some h | Err _ => None end)
  else
    gets ← mapM (level_get l0) (seq 0 (level_len l0));
    Some (frontier ← mapM (λ r, match r with Ok h => Some h | Err _ => None end) gets;
          head (Nat.iter (depth t) frontier_parents frontier)).

(** A call on one level of the tree. *)
Definition on_level {A} (level : nat) (m : SM ChunkedLevel TreeError A) : SM TreeInner TreeError A :=
  sm_zoom (λ t, levels t !! level)
    (λ lv t, MkTree (<[level := lv]> (levels t)) (root t) (size t) (depth t)) m.

(** Reading one level of the tree. *)
Definition read_level {A} (level : nat) (f : ChunkedLevel → option A) : SM TreeInner TreeError A :=
  t ← sm_get; sm_expect (lv ← levels t !! level; f lv).

(** The closing assignments of the two insertions. *)
Definition finish (r : hash) (new_size : N) (d : nat) : SM TreeInner TreeError hash :=
  sm_modify (λ t, MkTree (levels t) (Some r) new_size d);; mret r.

(** ** Single insertion *)

(** The level loop of [_insert], from [level] on. *)
Fixpoint insert_levels (rem level : nat) (rung : hash) (locus : nat) : SM TreeInner TreeError hash :=
  match rem with
  | O => mret rung
  | S rem =>
    on_level level (level_set locus rung);;
    let sibling_rank := locus mod nary in
    rung ← (if sibling_rank =? 0 then mret rung else
      let group_start := locus - sibling_rank in
      let tally := sibling_rank + 1 in
      children ← read_level level (λ lv, get_group lv group_start sibling_rank (replicate nary ZERO));
      let children := <[sibling_rank := rung]> children in
      mret (hash_children (take tally children)));
    insert_levels rem (S level) rung (locus / nary)
  end.

(** [LeanIMT::_insert]. *)
Definition _insert (leaf : hash) : SM TreeInner TreeError hash :=
  t ← sm_get;
  new_size ← sm_try (ok_or (u64_checked_add (size t) 1) CapacityExceeded);
  let d := ceil_log_n new_size nary in
  if max_depth <? d then sm_fail (MaxDepthExceeded max_depth) else
  index ← sm_try (u64_to_usize (size t));
  rung ← insert_levels d 0 leaf index;
  (if d <? max_depth then on_level d (level_set 0 rung) else mret ());;
  finish rung new_size d.

(** ** Batched insertion *)

(** [LeanIMT::_compute_parent]. *)
Definition _compute_parent (child_level : ChunkedLevel) (parent_idx level_len : nat)
    : option (result hash TreeError) :=
  let group_start := parent_idx * nary in
  let group_end := Nat.min (group_start + nary) level_len in
  let tally := group_end - group_start in
  if tally =? 1 then level_get child_level group_start else
  children ← get_group child_level group_start tally (replicate nary ZERO);
  Some (Ok (hash_children (take tally children))).

(** [slice::chunks_exact]. *)
Definition chunks_exact (n : nat) (l : list hash) : list (list hash) :=
  (λ i, slice (i * n) n l) <$> seq 0 (length l / n).

(** The window loop of [_compute_parents_batched]: groups gather in [refs] until there are
    [PARENT_WINDOW] of them; what is left at the end is hashed as a short window. *)
Fixpoint window_groups (groups refs : list (list hash)) (staging out : list hash) : list hash :=
  match groups with
  | [] =>
    if 0 <? length refs then out ++ hash_many_into refs (take (length refs) staging) else out
  | g :: groups =>
    let refs := refs ++ [g] in
    if length refs =? PARENT_WINDOW then
      let staging := hash_many_into refs staging in
      window_groups groups [] staging (out ++ staging)
    else window_groups groups refs staging out
  end.

(** [expect] on a result. *)
Definition expect_ok (r : option (result hash TreeError)) : option hash :=
  match r with Some (Ok h) => Some h | _ => None end.

(** [LeanIMT::_compute_parents_batched], into a buffer of [n] hashes. *)
Definition _compute_parents_batched (child : ChunkedLevel) (start_parent level_len n : nat)
    : option (list hash) :=
  let full := if CHUNK_SIZE mod nary =? 0
              then Nat.min (level_len / nary - start_parent) n else 0 in
  rs ← runs child (start_parent * nary) (full * nary);
  let groups := mjoin (chunks_exact nary <$> rs) in
  let out := window_groups groups [] (replicate PARENT_WINDOW ZERO) [] in
  rest ← mapM (λ i, expect_ok (_compute_parent child (start_parent + i) level_len))
    (seq (length out) (n - length out));
  Some (out ++ rest).

(** [LeanIMT::_insert_many_level_seq]; it returns the root variable. *)
Definition _insert_many_level_seq (level start_parent num_parents level_len : nat)
    (is_root_level : bool) (root : hash) : SM TreeInner TreeError hash :=
  let next_level := level + 1 in
  if next_level <? max_depth then
    on_level next_level (ensure_len num_parents);;
    child ← read_level level Some;
    on_level next_level (write_with start_parent (num_parents - start_parent)
      (λ off n, _compute_parents_batched child (start_parent + off) level_len n));;
    if is_root_level
    then r ← read_level next_level (λ lv, level_get lv (num_parents - 1)); sm_try r
    else mret root
  else
    ps ← read_level level (λ lv,
      mapM (λ parent_idx, _compute_parent lv parent_idx level_len)
        (seq start_parent (num_parents - start_parent)));
    ps ← sm_try (foldr (λ r acc, let? h := r in let? t := acc in Ok (h :: t))%works (Ok []) ps);
    mret (if is_root_level then default root (last ps) else root).

(** One level of [_insert_many]: the parallel branch when the work reaches the threshold. *)
Definition insert_many_level (level start_parent d : nat) (root : hash) : SM TreeInner TreeError hash :=
  len ← read_level level (λ lv, Some (level_len lv));
  let num_parents := div_ceil len nary in
  let is_root_level := level + 1 =? d in
  let work := num_parents - start_parent in
  match par with
  | Some threshold =>
    if (threshold <=? work) && (level + 1 <? max_depth) then
      child ← read_level level Some;
      parent_len ← read_level (level + 1) (λ lv, Some (level_len lv));
      let overlap := if start_parent <? parent_len then 1 else 0 in
      (if overlap =? 1 then
         on_level (level + 1) (write_with start_parent 1
           (λ _ n, _compute_parents_batched child start_parent len n))
       else mret ());;
      let appended := start_parent + overlap in
      on_level (level + 1) (extend_with (work - overlap)
        (λ off n, _compute_parents_batched child (appended + off) len n));;
      if is_root_level
      then r ← read_level (level + 1) (λ lv, level_get lv (num_parents - 1)); sm_try r
      else mret root
    else _insert_many_level_seq level start_parent num_parents len is_root_level root
  | None => _insert_many_level_seq level start_parent num_parents len is_root_level root
  end.

(** The level loop of [_insert_many], from [level] on. *)
Fixpoint insert_many_levels (rem level start_parent d : nat) (root : hash) : SM TreeInner TreeError hash :=
  match rem with
  | O => mret root
  | S rem =>
    root ← insert_many_level level start_parent d root;
    insert_many_levels rem (S level) (start_parent / nary) d root
  end.

(** [LeanIMT::_insert_many]. *)
Definition _insert_many (leaves : list hash) : SM TreeInner TreeError hash :=
  if bool_decide (leaves = []) then sm_fail EmptyBatch else
  t ← sm_get;
  let batch_len := N.min (N.of_nat (length leaves)) u64_max in
  new_size ← sm_try (ok_or (u64_checked_add (size t) batch_len) CapacityExceeded);
  let d := ceil_log_n new_size nary in
  if max_depth <? d then sm_fail (MaxDepthExceeded max_depth) else
  on_level 0 (extend leaves);;
  old_size_usize ← sm_try (u64_to_usize (size t));
  let start_parent := old_size_usize / nary in
  root ← (if d =? 0 then r ← read_level 0 (λ lv, level_get lv 0); sm_try r else mret ZERO);
  root ← insert_many_levels d 0 start_parent d root;
  finish root new_size d.

(** ** Specification *)

(** The parent of a group: a lone child is lifted, several are hashed. *)
Definition hash_group (g : list hash) : hash :=
  match g with [h] => h | _ => hash_children g end.

(** The nodes above a level: one per group of [nary] children, the last group possibly short. *)
Definition parents (xs : list hash) : list hash :=
  (λ i, hash_group (slice (i * nary) nary xs)) <$> seq 0 (div_ceil (length xs) nary).

(** The nodes [l] levels above the leaves. *)
Definition layer (l : nat) (leaves : list hash) : list hash := Nat.iter l parents leaves.

(** The depth and the root of the tree over some leaves. *)
Definition tree_depth (leaves : list hash) : nat := ceil_log_n (N.of_nat (length leaves)) nary.
Definition tree_root (leaves : list hash) : option hash := head (layer (tree_depth leaves) leaves).

(** What level [l] of a tree over [leaves] stores. *)
Definition stored_layer (leaves : list hash) (l : nat) : list hash :=
  if l <=? tree_depth leaves then layer l leaves else [].

Definition levels_rep (lvs : list ChunkedLevel) (f : nat → list hash) : Prop :=
  length lvs = max_depth ∧ ∀ l lv, lvs !! l = Some lv → level_rep lv (f l).

(** A tree that represents a list of leaves. *)
Record tree_rep (t : TreeInner) (leaves : list hash) : Prop := {
  tr_levels : levels_rep (levels t) (stored_layer leaves);
  tr_root : root t = tree_root leaves;
  tr_size : size t = N.of_nat (length leaves);
  tr_depth : depth t = tree_depth leaves;
  tr_max_depth : tree_depth leaves ≤ max_depth;
  tr_max_size : (N.of_nat (length leaves) ≤ u64_max)%N;
}.

(** A snapshot that represents a list of leaves. *)
Record snap_rep (s : TreeSnapshot) (leaves : list hash) : Prop := {
  sr_levels : levels_rep (snap_levels s) (stored_layer leaves);
  sr_root : snap_root s = tree_root leaves;
  sr_size : snap_size s = N.of_nat (length leaves);
  sr_depth : snap_depth s = tree_depth leaves;
  sr_max_depth : tree_depth leaves ≤ max_depth;
  sr_max_size : (N.of_nat (length leaves) ≤ u64_max)%N;
}.

End tree.
