(* ===== verification/Blake3.v ===== *)
(** The BLAKE3 adapter of rotortree ([crates/rotortree/src/adapters/blake3.rs]): parents of one
    arity are hashed several at a time by the crate's multi-input kernel, the others one by one. The
    crate is third-party code, given by a type class with its documented laws; the adapter is an
    instance of the hasher interface. *)
From S2P Require Import Prelude Hash ChunkedLevel.

(** ** The crate *)

Inductive IncrementCounter := IncrementYes | IncrementNo.

(** [blake3::Hasher], [blake3::hash], and [Platform] with its kernel [hash_many::<LEN>], which takes
    the inputs, a key, a counter, whether it increments, three sets of flags, and the bytes it
    overwrites. *)
Class Blake3 := {
  B3State : Type;
  b3_new : B3State;
  b3_update : B3State → bytes → B3State;
  b3_finalize : B3State → hash;
  b3_hash : bytes → hash;
  Platform : Type;
  detect : Platform;
  simd_degree : Platform → nat;
  MAX_SIMD_DEGREE : nat;
  hash_many : Platform → nat → list bytes → list N → N → IncrementCounter → N → N → N → bytes → bytes;
}.

(** Streaming is hashing at once; the kernel, under BLAKE3's initial vector and the flags of a chunk
    that is its own root, hashes inputs of whole blocks that fit a chunk. *)
Class Blake3Laws `(Blake3) := {
  b3_length bs : length (b3_hash bs) = 32;
  b3_streaming bs : b3_finalize (b3_update b3_new bs) = b3_hash bs;
  b3_degree : 1 ≤ MAX_SIMD_DEGREE;
  hash_many_roots plat len inputs out :
    0 < len → (64 | len) → len ≤ 1024 → Forall (λ i, length i = len) inputs →
    length inputs ≤ MAX_SIMD_DEGREE → length out = 32 * length inputs →
    hash_many plat len inputs
      [0x6A09E667; 0xBB67AE85; 0x3C6EF372; 0xA54FF53A; 0x510E527F; 0x9B05688C; 0x1F83D9AB; 0x5BE0CD19]%N
      0 IncrementNo 0 1 10 out = mjoin (b3_hash <$> inputs);
}.

(** ** The adapter *)

(** [as_flattened]. *)
Definition as_flattened (hs : list hash) : bytes := mjoin hs.

Definition B3_IV : list N :=
  [0x6A09E667; 0xBB67AE85; 0x3C6EF372; 0xA54FF53A; 0x510E527F; 0x9B05688C; 0x1F83D9AB; 0x5BE0CD19]%N.
Definition CHUNK_START : N := 1.
Definition CHUNK_END : N := 2.
Definition ROOT : N := 8.
Definition FLAGS_END : N := N.lor CHUNK_END ROOT.

Section adapter.
Context `{!Blake3}.

(** [platform]: detected once. *)
Definition platform : Platform := detect.

(** [Blake3Hasher::hash_children]. *)
Definition blake3_hash_children (children : list hash) : hash := b3_hash (as_flattened children).

(** The slots of the inputs are one run of bytes that the kernel overwrites. The condition is that of the debug
    assertions. *)
Definition batch_root (len : nat) (plat : Platform) (inputs : list bytes) (out : list hash) : outcome (list hash) :=
  if negb ((len mod 64 =? 0) && (len <=? 1024) && (length inputs <=? MAX_SIMD_DEGREE) && (length inputs <=? length out))
  then Panics else
  slots ← subslice 0 (length inputs) out;
  let flat := hash_many plat len inputs B3_IV 0 IncrementNo 0 CHUNK_START FLAGS_END (as_flattened slots) in
  Returns (cast_hashes (length inputs) flat ++ drop (length inputs) out).

(** The loop of [dispatch!]: every group takes a slot; [None] is the early return. *)
Fixpoint fill_refs (len : nat) (refs : list bytes) (groups : list (list hash)) : option (list bytes) :=
  match refs, groups with
  | _ :: refs, g :: groups =>
    if length (as_flattened g) =? len then rest ← fill_refs len refs groups; Some (as_flattened g :: rest) else None
  | refs, _ => Some refs
  end.

(** [dispatch!]. *)
Definition dispatch (len : nat) (plat : Platform) (groups : list (list hash)) (out : list hash) :
    outcome (bool * list hash) :=
  match fill_refs len (replicate MAX_SIMD_DEGREE (replicate len x00)) groups with
  | None => Returns (false, out)
  | Some refs =>
    inputs ← subslice 0 (length groups) refs;
    out ← batch_root len plat inputs out;
    Returns (true, out)
  end.

Definition batch_eligible (plat : Platform) (arity : nat) (groups : list (list hash)) (out : list hash) :
    outcome (bool * list hash) :=
  match arity with
  | 2 => dispatch 64 plat groups out
  | 4 => dispatch 128 plat groups out
  | 8 => dispatch 256 plat groups out
  | 16 => dispatch 512 plat groups out
  | _ => Returns (false, out)
  end.

(** The loop of [hash_many_into]; every turn takes a group at least, so that the number of groups is
    fuel enough. *)
Fixpoint hash_windows (fuel degree : nat) (plat : Platform) (arity : nat) (g : list (list hash)) (o : list hash) :
    outcome (list hash) :=
  match g, fuel with
  | [], _ => Returns o
  | _, O => Panics
  | _, S fuel =>
    let take_ := Nat.min (length g) degree in
    o_now ← subslice 0 take_ o;
    r ← batch_eligible plat arity (take take_ g) o_now;
    let '(done, o_now) := r in
    let o_now := if done : bool then o_now else hash_many_default blake3_hash_children (take take_ g) o_now in
    o_rest ← hash_windows fuel degree plat arity (drop take_ g) (drop take_ o);
    Returns (o_now ++ o_rest)
  end.

(** [usize::clamp], which panics on an empty range. *)
Definition clamp (n low high : nat) : outcome nat :=
  if low <=? high then Returns (Nat.max low (Nat.min n high)) else Panics.

(** [Blake3Hasher::hash_many_into], with its debug assertion. *)
Definition blake3_hash_many_into (groups : list (list hash)) (out : list hash) : outcome (list hash) :=
  if negb (length groups <=? length out) then Panics else
  let arity := match head groups with Some g => length g | None => 0 end in
  let uniform_eligible :=
    existsb (Nat.eqb arity) [2; 4; 8; 16] && forallb (λ g, length g =? arity) groups in
  if negb uniform_eligible then Returns (hash_many_default blake3_hash_children groups out) else
  let plat := platform in
  degree ← clamp (simd_degree plat) 1 MAX_SIMD_DEGREE;
  o ← subslice 0 (length groups) out;
  o ← hash_windows (length groups) degree plat arity groups o;
  Returns (o ++ drop (length groups) out).

(** [impl Hasher for Blake3Hasher]. *)
Definition Blake3Hasher : Hasher := {|
  State := B3State;
  new_state := b3_new;
  update := b3_update;
  finalize := b3_finalize;
  hash_children := blake3_hash_children;
  hash_many_into := λ groups out, match blake3_hash_many_into groups out with Returns o => o | Panics => out end;
|}.
End adapter.

(** ** Lemmas *)

Section laws.
Context `{HB : Blake3Laws}.

Lemma cast_hashes_join (hs : list hash) : Forall hash_wf hs → cast_hashes (length hs) (as_flattened hs) = hs.
Proof.
  intros Hwf. unfold cast_hashes, as_flattened. rewrite <- (app_nil_r (mjoin hs)). by apply slices_join.
Qed.

Lemma blake3_hash_children_wf g : hash_wf (blake3_hash_children g).
Proof. apply b3_length. Qed.

Lemma batch_root_spec len plat (groups : list (list hash)) out :
  0 < len → (64 | len) → len ≤ 1024 → Forall (λ g, length (as_flattened g) = len) groups →
  length groups ≤ MAX_SIMD_DEGREE → length groups ≤ length out → Forall hash_wf out →
  batch_root len plat (as_flattened <$> groups) out = Returns ((blake3_hash_children <$> groups) ++ drop (length groups) out).
Proof.
  intros Hpos Hdiv Hle Hg Hmax Hlen Hwf. unfold batch_root. rewrite length_fmap, subslice_take by done.
  rewrite (proj2 (Nat.eqb_eq _ _)) by by apply Nat.Lcm0.mod_divide. rewrite !(proj2 (Nat.leb_le _ _)) by done. cbn [andb negb].
  cbn [mbind outcome_bind]. unfold B3_IV, CHUNK_START. change FLAGS_END with 10%N. do 2 f_equal.
  rewrite hash_many_roots, <- list_fmap_compose; [|done..| | |].
  - rewrite <- (length_fmap blake3_hash_children groups) at 1. apply cast_hashes_join.
    apply Forall_fmap, Forall_true, blake3_hash_children_wf.
  - by apply Forall_fmap.
  - by rewrite length_fmap.
  - unfold as_flattened. rewrite (mjoin_uniform_length 32) by by apply Forall_take. rewrite length_take, length_fmap. lia.
Qed.

Lemma fill_refs_spec len refs groups :
  length groups ≤ length refs →
  fill_refs len refs groups =
    if forallb (λ g, length (as_flattened g) =? len) groups then Some ((as_flattened <$> groups) ++ drop (length groups) refs) else None.
Proof.
  revert refs. induction groups as [|g groups IH]; intros [|r refs] Hlen; simpl in Hlen; try lia; try done.
  cbn [fill_refs forallb]. destruct (_ =? len); [|done]. rewrite IH by lia. by destruct (forallb _ groups).
Qed.

(** A window of groups is hashed, or left to the caller. *)
Lemma dispatch_spec len plat groups out :
  0 < len → (64 | len) → len ≤ 1024 →
  length groups ≤ MAX_SIMD_DEGREE → length groups ≤ length out → Forall hash_wf out →
  ∃ done, dispatch len plat groups out =
    Returns (done, if done : bool then (blake3_hash_children <$> groups) ++ drop (length groups) out else out).
Proof.
  intros Hpos Hdiv Hle Hmax Hlen Hwf. unfold dispatch. rewrite fill_refs_spec by by rewrite length_replicate.
  destruct (forallb _ groups) eqn:Hall; [|by exists false].
  exists true. rewrite subslice_take by (rewrite length_app, length_fmap; lia).
  rewrite <- (length_fmap as_flattened groups), take_app_length, length_fmap. cbn [mbind outcome_bind].
  rewrite batch_root_spec; try done. rewrite forallb_forall in Hall.
  apply Forall_forall. intros g Hg%list_elem_of_In. apply Hall in Hg. by nbool.
Qed.

Lemma batch_eligible_spec plat arity groups out :
  length groups ≤ MAX_SIMD_DEGREE → length groups ≤ length out → Forall hash_wf out →
  ∃ done, batch_eligible plat arity groups out =
    Returns (done, if done : bool then (blake3_hash_children <$> groups) ++ drop (length groups) out else out).
Proof.
  intros Hmax Hlen Hwf. unfold batch_eligible.
  do 17 (destruct arity as [|arity]; [first [by exists false|apply dispatch_spec; try done; try lia; by apply (bool_decide_unpack _)]|]).
  by exists false.
Qed.

Lemma hash_windows_spec fuel degree plat arity g o :
  1 ≤ degree ≤ MAX_SIMD_DEGREE → length g ≤ fuel → length o = length g → Forall hash_wf o →
  hash_windows fuel degree plat arity g o = Returns (blake3_hash_children <$> g).
Proof.
  intros Hd. revert g o. induction fuel as [|fuel IH]; intros [|x g] o Hfuel Hlen Hwf; try (simpl in Hfuel; lia).
  - by destruct o.
  - by destruct o.
  - cbn [hash_windows]. set (gs := x :: g) in *. set (k := Nat.min (length gs) degree).
    assert (1 ≤ k ≤ length gs) as Hk by (assert (0 < length gs) by (unfold gs; cbn [length]; lia); lia).
    rewrite subslice_take by lia. cbn [mbind outcome_bind].
    destruct (batch_eligible_spec plat arity (take k gs) (take k o)) as (done & ->);
      [rewrite !length_take; lia..|by apply Forall_take|].
    assert (length (take k gs) = k) as Hk' by (rewrite length_take; lia).
    rewrite IH; [|rewrite length_drop; lia|rewrite !length_drop; lia|by apply Forall_drop].
    cbn [mbind outcome_bind]. f_equal. transitivity ((blake3_hash_children <$> take k gs) ++ (blake3_hash_children <$> drop k gs));
      [|by rewrite <- fmap_app, take_drop]. f_equal.
    assert (drop k (take k o) = []) as Hnil by (apply drop_ge; rewrite length_take; lia).
    destruct done; rewrite ?hash_many_default_map by (rewrite !length_take; lia); by rewrite Hk', Hnil, app_nil_r.
Qed.

Lemma blake3_hash_many_spec groups out :
  length groups ≤ length out → Forall hash_wf out →
  blake3_hash_many_into groups out = Returns ((blake3_hash_children <$> groups) ++ drop (length groups) out).
Proof.
  intros Hlen Hwf. unfold blake3_hash_many_into. rewrite (proj2 (Nat.leb_le _ _) Hlen). cbn [negb]. set (arity := match head groups with Some g => length g | None => 0 end).
  destruct (_ && _); cbn [negb]; [|by rewrite hash_many_default_map].
  pose proof b3_degree as Hdeg. unfold clamp. rewrite (proj2 (Nat.leb_le _ _)) by done. cbn [mbind outcome_bind].
  rewrite subslice_take by done. cbn [mbind outcome_bind].
  by rewrite hash_windows_spec by (by apply Forall_take) || (rewrite ?length_take; lia).
Qed.

(** The adapter keeps what the tree relies on. *)
#[export] Instance blake3_hasher_laws : HasherLaws Blake3Hasher.
Proof.
  split.
  - intros bs. unfold digest. cbn. rewrite b3_streaming. apply b3_length.
  - intros g. unfold digest. cbn. by rewrite b3_streaming.
  - intros groups out Hlen Hwf. cbn. by rewrite blake3_hash_many_spec.
Qed.

(** ** Properties *)

(** C31. The adapter computes what the trait's provided bodies do: a parent is the streamed digest of its
    children, and the batched path never panics and gives every group that digest, whatever the
    arities of the groups, their number and the width of the kernel; the slots past the groups keep
    what they hold. *)
Theorem blake3_batch_is_scalar groups out :
  length groups ≤ length out → Forall hash_wf out →
  (∀ g, blake3_hash_children g = hash_children_default b3_new b3_update b3_finalize g) ∧
  blake3_hash_many_into groups out =
    Returns (hash_many_default (hash_children_default b3_new b3_update b3_finalize) groups out).
Proof.
  intros Hlen Hwf.
  assert (∀ g, blake3_hash_children g = hash_children_default b3_new b3_update b3_finalize g) as Heq.
  { intros g. unfold hash_children_default. by rewrite b3_streaming. }
  split; [exact Heq|]. rewrite blake3_hash_many_spec, hash_many_default_map by done.
  do 2 f_equal. apply list_fmap_ext. intros i g _. apply Heq.
Qed.
End laws.

(** ** Example: a kernel of width two *)

Module Toy.
(** A digest of 32 bytes that depends on the length and the sum of the bytes. *)
Definition toy_hash (bs : bytes) : hash := le_bytes 32 (7 + le_value bs * 3 + 1000 * N.of_nat (length bs)).

(** The kernel honours its flags: any other choice of them gives other digests. *)
Definition toy_kernel (plat : nat) (len : nat) (inputs : list bytes) (key : list N) (counter : N)
    (increment : IncrementCounter) (flags start end_ : N) (out : bytes) : bytes :=
  mjoin ((λ i : bytes, if bool_decide (start = 1 ∧ end_ = 10)%N then toy_hash i else toy_hash (x00 :: i)) <$> inputs) ++
  drop (32 * length inputs) out.

#[export] Instance toy_blake3 : Blake3 := {|
  B3State := bytes;
  b3_new := [];
  b3_update := λ s bs, s ++ bs;
  b3_finalize := toy_hash;
  b3_hash := toy_hash;
  Platform := nat;
  detect := 0;
  simd_degree := λ _, 3;
  MAX_SIMD_DEGREE := 2;
  hash_many := toy_kernel;
|}.

#[export] Instance toy_blake3_laws : Blake3Laws toy_blake3.
Proof.
  split.
  - intros bs. apply length_le_bytes.
  - reflexivity.
  - simpl. lia.
  - intros plat len inputs out _ _ _ _ _ Hout. cbn. unfold toy_kernel. rewrite bool_decide_true by done.
    rewrite drop_ge by lia. by rewrite app_nil_r.
Qed.

(** Five pairs of children, and six slots. *)
Definition pairs : list (list hash) := (λ i, [le_bytes 32 i; le_bytes 32 (i * i)]) <$> [1; 2; 3; 4; 5]%N.
Definition slots : list hash := replicate 6 ZERO.

Lemma blake3_batch_is_scalar_witness :
  blake3_hash_many_into pairs slots =
    Returns (hash_many_default (hash_children_default b3_new b3_update b3_finalize) pairs slots).
Proof.
  apply (blake3_batch_is_scalar pairs slots); [vm_compute; lia|]. apply Forall_replicate. reflexivity.
Defined.
End Toy.
