(* ===== verification/TreeSpec.v ===== *)
(** Correctness of the Merkle tree: the depth is the exact logarithm, levels hold the layers of
    the leaves, batched hashing is scalar hashing, and both insertions append to the leaves. *)
From S2P Require Import Prelude Hash ChunkedLevel Tree.

(** ** Lemmas: logarithms *)

Lemma ctz_pow2 k : trailing_zeros (2 ^ k) = k.
Proof.
  unfold trailing_zeros. rewrite Nat2N.inj_pow. change (N.of_nat 2) with 2%N.
  assert (∀ k, ∃ p, (2 ^ N.of_nat k)%N = Npos p ∧ ctz p = k) as H.
  { clear. induction k as [|k (p & Hp & Hc)]; [by exists 1%positive|]. exists (xO p).
    rewrite Nat2N.inj_succ, N.pow_succ_r', Hp. simpl. by rewrite Hc. }
  by destruct (H k) as (p & -> & ->).
Qed.

Lemma ilog_loop_spec fuel x b :
  (2 ≤ b → 1 ≤ x → x < 2 ^ N.of_nat fuel →
   b ^ N.of_nat (ilog_loop fuel x b) ≤ x < b ^ N.of_nat (S (ilog_loop fuel x b)))%N.
Proof.
  intros Hb. revert x. induction fuel as [|fuel IH]; intros x Hx Hf; cbn [ilog_loop].
  { simpl in Hf. lia. }
  destruct (x <? b)%N eqn:Hxb; nbool.
  { simpl. rewrite N.pow_1_r. lia. }
  assert (1 ≤ x / b)%N as H1 by (apply N.div_le_lower_bound; lia).
  destruct (IH (x / b)%N H1) as [Hl Hu].
  { rewrite Nat2N.inj_succ, N.pow_succ_r' in Hf. apply N.Div0.div_lt_upper_bound. nia. }
  assert (∀ k, b ^ N.of_nat (S k) = b * b ^ N.of_nat k)%N as Hp
    by (intros; by rewrite Nat2N.inj_succ, N.pow_succ_r').
  rewrite !Hp in *. set (p := (b ^ N.of_nat (ilog_loop fuel (x / b) b))%N) in *.
  pose proof (N.div_mod' x b). pose proof (N.mod_upper_bound x b ltac:(lia)).
  assert (b * p ≤ b * (x / b))%N by (apply N.mul_le_mono_l; lia).
  assert (b * (x / b + 1) ≤ b * (b * p))%N by (apply N.mul_le_mono_l; lia).
  clear IH Hp Hf. clearbody p. rewrite N.mul_add_distr_l in *.
  generalize dependent (x / b)%N. generalize dependent (x mod b)%N. intros. lia.
Qed.

(** The depth is the least [k] with [size <= n ^ k]. *)
Lemma ceil_log_n_spec size n :
  2 ≤ n → (size ≤ u64_max)%N →
  (size ≤ N.of_nat n ^ N.of_nat (ceil_log_n size n))%N ∧
  ∀ j, (size ≤ N.of_nat n ^ N.of_nat j)%N → ceil_log_n size n ≤ j.
Proof.
  intros Hn Hmax. unfold ceil_log_n. destruct (size <=? 1)%N eqn:H1; nbool.
  { rewrite N.pow_0_r. split; [done|lia]. }
  assert (∀ j, (size ≤ N.of_nat n ^ N.of_nat j)%N ↔ (size - 1 < N.of_nat n ^ N.of_nat j)%N) as Hshift.
  { intros j. generalize (N.of_nat n ^ N.of_nat j)%N. lia. }
  destruct (is_power_of_two n) eqn:Hp.
  - apply is_power_of_two_spec in Hp as [r ->]. assert (0 < r) by (destruct r; simpl in *; lia).
    rewrite ctz_pow2.
    assert (∀ j, (N.of_nat (2 ^ r) ^ N.of_nat j = 2 ^ (N.of_nat (j * r)))%N) as Hpow.
    { intros j. rewrite Nat2N.inj_pow, <- N.pow_mul_r. f_equal. lia. }
    assert (∀ j, (size ≤ N.of_nat (2 ^ r) ^ N.of_nat j)%N ↔ N.to_nat (N.size (size - 1)) ≤ j * r) as Hiff.
    { intros j. rewrite Hshift, Hpow, N.size_log2 by lia.
      rewrite N.log2_lt_pow2 by lia. lia. }
    rewrite Hiff. split.
    + pose proof (div_ceil_spec (N.to_nat (N.size (size - 1))) r). lia.
    + intros j Hj%Hiff. by apply div_ceil_le_mul.
  - assert (size - 1 < 2 ^ N.of_nat 64)%N as Hb by (unfold u64_max in Hmax; simpl; lia).
    destruct (ilog_loop_spec 64 (size - 1) (N.of_nat n) ltac:(lia) ltac:(lia) Hb) as [Hl Hu].
    fold (ilog (size - 1) (N.of_nat n)) in Hl, Hu. rewrite Nat.add_1_r. split; [lia|].
    intros j Hj. apply Hshift in Hj.
    destruct (decide (S (ilog (size - 1) (N.of_nat n)) ≤ j)); [done|]. exfalso.
    assert (N.of_nat n ^ N.of_nat j ≤ N.of_nat n ^ N.of_nat (ilog (size - 1) (N.of_nat n)))%N; [|lia].
    apply N.pow_le_mono_r; lia.
Qed.

(** The same, in collection indices. *)
Lemma ceil_log_n_nat k n :
  2 ≤ n → (N.of_nat k ≤ u64_max)%N →
  k ≤ n ^ ceil_log_n (N.of_nat k) n ∧ ∀ j, k ≤ n ^ j ↔ ceil_log_n (N.of_nat k) n ≤ j.
Proof.
  intros Hn Hmax. destruct (ceil_log_n_spec (N.of_nat k) n Hn Hmax) as [H1 H2].
  rewrite <- Nat2N.inj_pow in H1. split; [lia|]. intros j. split.
  - intros Hj. apply H2. rewrite <- Nat2N.inj_pow. lia.
  - intros Hj. assert (n ^ ceil_log_n (N.of_nat k) n ≤ n ^ j) by (apply Nat.pow_le_mono_r; lia). lia.
Qed.

Lemma ceil_log_n_small size n : (size ≤ 1)%N → ceil_log_n size n = 0.
Proof. intros H. unfold ceil_log_n. by rewrite (proj2 (N.leb_le _ _)). Qed.

Lemma ceil_log_n_mono k k' n :
  2 ≤ n → k ≤ k' → (N.of_nat k' ≤ u64_max)%N →
  ceil_log_n (N.of_nat k) n ≤ ceil_log_n (N.of_nat k') n.
Proof.
  intros Hn Hk Hmax. apply ceil_log_n_nat; [done|lia|].
  destruct (ceil_log_n_nat k' n Hn Hmax). lia.
Qed.

(** ** Property: the depth *)

(** C40. The depth computed from the bit length, or from the integer logarithm when the arity is no
    power of two, is exactly the least [k] with [size <= arity ^ k], on every [u64] size. *)
Theorem ceil_log_n_exact sz n :
  2 ≤ n → (sz ≤ u64_max)%N →
  (sz ≤ N.of_nat n ^ N.of_nat (ceil_log_n sz n))%N ∧
  ∀ j, (sz ≤ N.of_nat n ^ N.of_nat j)%N ↔ ceil_log_n sz n ≤ j.
Proof.
  intros Hn2 Hmax. destruct (ceil_log_n_spec sz n Hn2 Hmax) as [H1 H2]. split; [done|].
  intros j. split; [apply H2|]. intros Hj. etransitivity; [exact H1|].
  apply N.pow_le_mono_r; lia.
Qed.

(** ** Lemmas: windows of groups *)

Section windows.
Context `{HL : HasherLaws}.

Lemma window_groups_spec (groups refs : list (list hash)) (staging out : list hash) :
  length refs < PARENT_WINDOW → length staging = PARENT_WINDOW → Forall hash_wf staging →
  window_groups groups refs staging out = out ++ (hash_children <$> refs ++ groups).
Proof.
  revert refs staging out. induction groups as [|g groups IH]; intros refs staging out Hr Hs Hw; cbn [window_groups].
  - rewrite app_nil_r. destruct (0 <? length refs) eqn:H0; nbool.
    + rewrite hash_many_into_map by (by rewrite ?length_take; lia || apply Forall_take).
      rewrite drop_ge by (rewrite length_take; lia). by rewrite app_nil_r.
    + rewrite (nil_length_inv refs) by lia. by rewrite app_nil_r.
  - rewrite length_app. simpl. destruct (length refs + 1 =? PARENT_WINDOW) eqn:Hp; nbool.
    + assert (hash_many_into (refs ++ [g]) staging = hash_children <$> refs ++ [g]) as Hh.
      { rewrite hash_many_into_map by (done || rewrite length_app; simpl; lia).
        rewrite drop_ge by (rewrite length_app; simpl; lia). by rewrite app_nil_r. }
      rewrite IH; [|simpl; unfold PARENT_WINDOW; lia|rewrite Hh, length_fmap, length_app; simpl; lia|].
      2: { rewrite Hh. apply Forall_fmap, Forall_true. intros x. apply length_hash_children. }
      rewrite Hh, <- app_assoc, <- fmap_app, <- app_assoc. done.
    + rewrite IH; [|rewrite length_app; simpl; lia|done|done]. by rewrite <- app_assoc.
Qed.
End windows.

Section spec.
Context (nary max_depth : nat) `{HL : HasherLaws} (Hn : 2 ≤ nary).
Implicit Types (xs ys g : list hash).

Abbreviation parents := (parents nary).
Abbreviation layer := (layer nary).
Abbreviation tree_depth := (tree_depth nary).
Abbreviation tree_root := (tree_root nary).
Abbreviation stored_layer := (stored_layer nary).
Abbreviation levels_rep := (levels_rep max_depth).
Abbreviation tree_rep := (tree_rep nary max_depth).
Abbreviation snap_rep := (snap_rep nary max_depth).

(** ** Lemmas: layers *)

Lemma length_parents xs : length (parents xs) = div_ceil (length xs) nary.
Proof. unfold Tree.parents. by rewrite length_fmap, length_seq. Qed.

Lemma parents_lookup xs i :
  parents xs !! i = if decide (i * nary < length xs) then Some (hash_group (slice (i * nary) nary xs)) else None.
Proof.
  unfold Tree.parents. rewrite list_lookup_fmap.
  pose proof (div_ceil_lt (length xs) nary i ltac:(lia)) as Hlt. case_decide.
  - by rewrite lookup_seq_lt by lia.
  - rewrite lookup_seq_ge by lia. done.
Qed.

Lemma layer_S l xs : layer (S l) xs = parents (layer l xs).
Proof. done. Qed.

Lemma pow_pos l : 0 < nary ^ l.
Proof. pose proof (Nat.pow_nonzero nary l). lia. Qed.

Lemma length_layer l xs : length (layer l xs) = div_ceil (length xs) (nary ^ l).
Proof.
  induction l as [|l IH]; [simpl; by rewrite div_ceil_1|].
  rewrite layer_S, length_parents, IH. rewrite div_ceil_div_ceil; [|apply pow_pos|lia].
  f_equal. simpl. lia.
Qed.

(** Complete groups do not change when leaves are appended or replaced after them. *)
Lemma parents_prefix xs ys k :
  k ≤ length xs → k ≤ length ys → take k xs = take k ys →
  take (k / nary) (parents xs) = take (k / nary) (parents ys).
Proof.
  intros Hx Hy Heq. apply list_eq. intros i. rewrite !lookup_take. case_decide as Hi; [|done].
  apply lt_div_mul in Hi.
  rewrite !parents_lookup, !decide_True by lia. do 2 f_equal. apply slice_ext. intros j Hj.
  rewrite <- (lookup_take_lt xs k), <- (lookup_take_lt ys k), Heq by lia. done.
Qed.

Lemma layer_prefix xs ys k l :
  k ≤ length xs → k ≤ length ys → take k xs = take k ys →
  take (k / nary ^ l) (layer l xs) = take (k / nary ^ l) (layer l ys).
Proof.
  intros Hx Hy Heq. induction l as [|l IH]; [by rewrite Nat.pow_0_r, Nat.div_1_r|].
  rewrite !layer_S. replace (nary ^ S l) with (nary ^ l * nary) by (simpl; lia).
  rewrite <- Nat.Div0.div_div. pose proof (pow_pos l).
  apply parents_prefix; [..|done]; rewrite length_layer;
    (etransitivity; [by apply div_le_div_ceil|by apply div_ceil_mono]).
Qed.

Lemma layer_app_prefix xs ys l :
  take (length xs / nary ^ l) (layer l (xs ++ ys)) = take (length xs / nary ^ l) (layer l xs).
Proof.
  apply layer_prefix; [rewrite length_app; lia|done|]. by rewrite take_app_le, take_ge by lia.
Qed.

(** At the depth of the tree there is one node. *)
Lemma layer_depth xs :
  xs ≠ [] → (N.of_nat (length xs) ≤ u64_max)%N → length (layer (tree_depth xs) xs) = 1.
Proof.
  intros Hne Hmax. rewrite length_layer. apply div_ceil_small.
  destruct (ceil_log_n_nat (length xs) nary Hn Hmax) as [Hd _]. unfold Tree.tree_depth.
  destruct xs; simpl in *; [done|lia].
Qed.

Lemma tree_root_Some xs :
  xs ≠ [] → (N.of_nat (length xs) ≤ u64_max)%N →
  ∃ r, tree_root xs = Some r ∧ layer (tree_depth xs) xs = [r].
Proof.
  intros Hne Hmax. pose proof (layer_depth xs Hne Hmax) as Hl. unfold Tree.tree_root.
  destruct (layer (tree_depth xs) xs) as [|r [|]]; simpl in *; try lia. eauto.
Qed.

(** Below the depth a level has more than one node. *)
Lemma layer_below_depth xs l :
  (N.of_nat (length xs) ≤ u64_max)%N → l < tree_depth xs → 1 < length (layer l xs).
Proof.
  intros Hmax Hl. rewrite length_layer. destruct (ceil_log_n_nat (length xs) nary Hn Hmax) as [_ Hd].
  unfold Tree.tree_depth in *. specialize (Hd l).
  pose proof (div_ceil_spec (length xs) (nary ^ l) (pow_pos l)). nia.
Qed.

(** The last node of a layer after appending: the last group of the layer below. *)
Lemma hash_group_tally xs i :
  i * nary < length xs →
  hash_group (slice (i * nary) nary xs) =
  let tally := Nat.min (i * nary + nary) (length xs) - i * nary in
  if tally =? 1 then xs !!! (i * nary) else hash_children (slice (i * nary) tally xs).
Proof.
  intros Hi. simpl. set (k := Nat.min (i * nary + nary) (length xs) - i * nary).
  assert (slice (i * nary) nary xs = slice (i * nary) k xs) as ->.
  { apply list_eq. intros j. rewrite !slice_lookup. repeat case_decide; try done.
    - apply lookup_ge_None_2. lia.
    - lia. }
  assert (length (slice (i * nary) k xs) = k) as Hk by (apply length_slice; lia).
  destruct (k =? 1) eqn:H1; nbool.
  - rewrite H1 in *. destruct (lookup_lt_is_Some_2 xs (i * nary) Hi) as [h Hh].
    rewrite (list_lookup_total_correct _ _ _ Hh).
    pose proof (slice_snoc (i * nary) 0 xs h) as Hs. rewrite Nat.add_0_r in Hs. by rewrite Hs.
  - destruct (slice (i * nary) k xs) as [|h [|h' g]]; simpl in *; try done; lia.
Qed.

(** ** Lemmas: parents computed from a level *)

Lemma take_splice_0 {A} (new out : list A) : take (length new) (splice 0 new out) = new.
Proof. unfold splice. rewrite take_0. simpl. by rewrite take_app_length. Qed.

Lemma compute_parent_spec lv xs i :
  level_rep lv xs → i * nary < length xs →
  _compute_parent nary lv i (length xs) = Some (Ok (hash_group (slice (i * nary) nary xs))).
Proof.
  intros Hrep Hi. rewrite hash_group_tally by done. unfold _compute_parent.
  set (k := Nat.min (i * nary + nary) (length xs) - i * nary). cbn zeta. fold k.
  destruct (k =? 1) eqn:Hk; nbool.
  - rewrite (level_get_spec lv xs) by done. destruct (lookup_lt_is_Some_2 xs (i * nary) Hi) as [h Hh].
    by rewrite Hh, (list_lookup_total_correct _ _ _ Hh).
  - rewrite (get_group_spec lv xs) by (rewrite ?length_replicate; done || lia).
    cbn [mbind option_bind]. do 3 f_equal.
    rewrite <- (length_slice (i * nary) k xs) at 1 by lia. apply take_splice_0.
Qed.

Lemma chunks_exact_app n (r s : list hash) :
  0 < n → (n | length r) → chunks_exact n (r ++ s) = chunks_exact n r ++ chunks_exact n s.
Proof.
  intros Hpos [k Hk]. unfold chunks_exact.
  assert (length (r ++ s) / n = k + length s / n) as ->.
  { rewrite length_app, Hk, Nat.div_add_l by lia. done. }
  assert (length r / n = k) as -> by (rewrite Hk; apply Nat.div_mul; lia).
  rewrite seq_app, fmap_app. f_equal.
  - apply list_fmap_ext. intros i j [-> Hj]%lookup_seq. apply slice_ext. intros x Hx.
    simpl in *. apply lookup_app_l. nia.
  - simpl. rewrite <- (Nat.add_0_r k) at 1. rewrite <- fmap_add_seq, <- list_fmap_compose.
    apply list_fmap_ext. intros i j _. simpl. apply list_eq. intros x. rewrite !slice_lookup.
    case_decide; [|done]. rewrite lookup_app_r by nia. f_equal. nia.
Qed.

Lemma chunks_exact_join n (rs : list (list hash)) :
  0 < n → Forall (λ r, (n | length r)) rs → mjoin (chunks_exact n <$> rs) = chunks_exact n (mjoin rs).
Proof.
  intros Hpos. induction 1 as [|r rs Hr _ IH].
  { unfold chunks_exact. cbn [mjoin list_join length]. by rewrite Nat.Div0.div_0_l. }
  rewrite fmap_cons, !mjoin_cons, (chunks_exact_app n r _ Hpos Hr). by rewrite IH.
Qed.

Lemma hash_group_full g : length g = nary → hash_group g = hash_children g.
Proof. destruct g as [|x [|y g]]; simpl; try done; lia. Qed.

(** Hashing complete groups in windows and the rest one by one is hashing one by one. *)
Lemma compute_parents_batched_spec child xs start n :
  level_rep child xs → 0 < n → start + n ≤ div_ceil (length xs) nary →
  _compute_parents_batched nary child start (length xs) n = Some (slice start n (parents xs)).
Proof.
  intros Hrep Hn0 Hn'. unfold _compute_parents_batched.
  set (full := if CHUNK_SIZE mod nary =? 0 then Nat.min (length xs / nary - start) n else 0).
  assert (full ≤ n ∧ (0 < full → (nary | CHUNK_SIZE) ∧ (start + full) * nary ≤ length xs)) as [Hfull Hpos].
  { unfold full. destruct (CHUNK_SIZE mod nary =? 0) eqn:Hd; nbool; [|lia]. split; [lia|]. intros Hf. split.
    - by apply Nat.Lcm0.mod_divide.
    - pose proof (Nat.Div0.mul_div_le (length xs) nary).
      assert (nary * (start + Nat.min (length xs / nary - start) n) ≤ nary * (length xs / nary))
        by (apply Nat.mul_le_mono_l; lia). lia. }
  clearbody full.
  assert (∃ rs, runs child (start * nary) (full * nary) = Some rs ∧
    mjoin (chunks_exact nary <$> rs) = (λ i, slice ((start + i) * nary) nary xs) <$> seq 0 full) as (rs & -> & Hgroups).
  { assert (start * nary ≤ level_len child) as Hstart.
    { rewrite (level_rep_len _ _ Hrep). pose proof (div_ceil_lt (length xs) nary start). lia. }
    destruct (decide (full = 0)) as [->|Hf].
    { exists []. split; [|done]. unfold runs. by rewrite Nat.add_0_r, (proj2 (Nat.leb_le _ _)) by done. }
    destruct Hpos as [Hdiv Hle]; [lia|].
    destruct (runs_spec child (start * nary) (full * nary)) as (rs & Hrs & Hj & Hall).
    { apply Hrep. } { rewrite (level_rep_len _ _ Hrep). lia. }
    exists rs. split; [done|]. rewrite chunks_exact_join; [|lia|].
    - rewrite Hj, (proj2 Hrep). unfold chunks_exact. rewrite length_slice, Nat.div_mul by lia.
      apply list_fmap_ext. intros i j [-> Hj']%lookup_seq. simpl. rewrite slice_slice by nia. f_equal. lia.
    - apply Hall; [done|apply Nat.divide_factor_r..]. }
  cbn [mbind option_bind]. rewrite Hgroups, window_groups_spec; [|unfold PARENT_WINDOW; simpl; lia|by rewrite length_replicate|by apply Forall_replicate].
  simpl. rewrite length_fmap, length_fmap, length_seq.
  assert (hash_children <$> ((λ i, slice ((start + i) * nary) nary xs) <$> seq 0 full) =
    slice start full (parents xs)) as ->.
  { rewrite <- list_fmap_compose. apply list_eq. intros i. rewrite slice_lookup, list_lookup_fmap.
    case_decide as Hi; [|by rewrite lookup_seq_ge by lia].
    destruct Hpos as [_ Hle]; [lia|]. rewrite lookup_seq_lt, parents_lookup, decide_True by nia. simpl.
    rewrite hash_group_full; [done|]. apply length_slice. nia. }
  assert (mapM (λ i, expect_ok (_compute_parent nary child (start + i) (length xs))) (seq full (n - full)) =
    Some (slice (start + full) (n - full) (parents xs))) as ->.
  { apply mapM_Some_2, Forall2_same_length_lookup. split.
    - rewrite length_seq, length_slice; [done|]. rewrite length_parents. lia.
    - intros i j h [-> Hj]%lookup_seq. rewrite slice_lookup, decide_True by done.
      replace (start + full + i) with (start + (full + i)) by lia.
      assert ((start + (full + i)) * nary < length xs) as Hlt by (apply div_ceil_lt; lia).
      rewrite parents_lookup, decide_True by done. intros [= <-].
      by rewrite (compute_parent_spec child xs) by done. }
  simpl. rewrite slice_app_add. do 2 f_equal. lia.
Qed.

Lemma batched_fills child xs start n :
  level_rep child xs → start + n ≤ div_ceil (length xs) nary →
  fills (λ off n, _compute_parents_batched nary child (start + off) (length xs) n) (slice start n (parents xs)) ∧
  length (slice start n (parents xs)) = n.
Proof.
  intros Hrep Hn'. assert (length (slice start n (parents xs)) = n) as Hl.
  { apply length_slice. by rewrite length_parents. }
  split; [|done]. intros off k Hk0 Hk. rewrite Hl in Hk.
  rewrite compute_parents_batched_spec by (done || lia). f_equal. by rewrite slice_slice by lia.
Qed.

(** Hashing parents in windows of complete groups through the batch kernel, across the chunks a
    level is stored in, gives what computing each parent alone gives. *)
Theorem batched_parents_are_scalar child xs start n :
  level_rep child xs → 0 < n → start + n ≤ div_ceil (length xs) nary →
  _compute_parents_batched nary child start (length xs) n =
    mapM (λ i, expect_ok (_compute_parent nary child i (length xs))) (seq start n).
Proof.
  intros Hrep Hpos Hle. rewrite compute_parents_batched_spec by done. symmetry.
  apply mapM_Some_2, Forall2_same_length_lookup. split.
  - rewrite length_seq, length_slice; [done|]. by rewrite length_parents.
  - intros i j h [-> Hj]%lookup_seq. rewrite slice_lookup, decide_True by done.
    assert ((start + i) * nary < length xs) as Hlt by (apply div_ceil_lt; lia).
    rewrite parents_lookup, decide_True by done. intros [= <-].
    by rewrite (compute_parent_spec child xs) by done.
Qed.

(** ** Lemmas: calls on one level *)

Definition same_meta (t t' : TreeInner) : Prop := root t' = root t ∧ size t' = size t ∧ depth t' = depth t.

Definition update_at (l : nat) (v : list hash) (f : nat → list hash) : nat → list hash :=
  λ j, if j =? l then v else f j.

Lemma levels_rep_ext lvs f f' :
  (∀ l, l < max_depth → f l = f' l) → levels_rep lvs f → levels_rep lvs f'.
Proof.
  intros Hfg [Hl Hrep]. split; [done|]. intros l lv Hlv. rewrite <- Hfg; [by apply Hrep|].
  apply lookup_lt_Some in Hlv. lia.
Qed.

Lemma levels_rep_at lvs f l :
  levels_rep lvs f → l < max_depth → ∃ lv, lvs !! l = Some lv ∧ level_rep lv (f l).
Proof.
  intros [Hl Hrep] Hlt. destruct (lookup_lt_is_Some_2 lvs l) as [lv Hlv]; [lia|]. eauto.
Qed.

Lemma on_level_spec {A} l (m : SM ChunkedLevel TreeError A) (a : A) v t f :
  levels_rep (levels t) f → l < max_depth →
  (∀ lv, level_rep lv (f l) → ∃ lv', runs_to m lv lv' a ∧ level_rep lv' v) →
  ∃ t', runs_to (on_level l m) t t' a ∧ levels_rep (levels t') (update_at l v f) ∧ same_meta t t'.
Proof.
  intros Hrep Hl Hm. destruct (levels_rep_at _ _ _ Hrep Hl) as (lv & Hlv & Hr).
  destruct (Hm lv Hr) as (lv' & Hrun & Hr').
  eexists. split; [by eapply sm_zoom_ok|]. split; [|done]. destruct Hrep as [Hlen Hrep].
  split; [simpl; by rewrite length_insert|]. simpl. intros j lvj Hj. unfold update_at.
  destruct (j =? l) eqn:Hjl; nbool.
  - subst. rewrite list_lookup_insert_eq in Hj by lia. by simplify_eq.
  - rewrite list_lookup_insert_ne in Hj by done. by apply Hrep.
Qed.

Lemma on_level_ok {A} l (m : SM ChunkedLevel TreeError A) t lv lv' a :
  levels t !! l = Some lv → runs_to m lv lv' a →
  runs_to (on_level l m) t (MkTree (<[l := lv']> (levels t)) (root t) (size t) (depth t)) a.
Proof. intros Hlv Hr. exact (sm_zoom_ok _ _ _ t lv lv' a Hlv Hr). Qed.

Lemma read_level_spec {A} l (g : ChunkedLevel → option A) t lv a :
  levels t !! l = Some lv → g lv = Some a → runs_to (read_level l g) t t a.
Proof.
  intros Hlv Hg. unfold read_level, runs_to. rewrite (sm_bind_ok sm_get _ t t t) by done.
  unfold sm_expect. by rewrite Hlv; simpl; rewrite Hg.
Qed.

Lemma same_meta_trans t1 t2 t3 : same_meta t1 t2 → same_meta t2 t3 → same_meta t1 t3.
Proof. intros (? & ? & ?) (? & ? & ?). repeat split; congruence. Qed.

(** ** Lemmas: depth when leaves are appended *)

Lemma tree_depth_app xs ys :
  (N.of_nat (length (xs ++ ys)) ≤ u64_max)%N → tree_depth xs ≤ tree_depth (xs ++ ys).
Proof. intros Hmax. apply ceil_log_n_mono; [done| |done]. rewrite length_app. lia. Qed.

Lemma tree_depth_snoc xs x :
  (N.of_nat (length (xs ++ [x])) ≤ u64_max)%N → tree_depth (xs ++ [x]) ≤ S (tree_depth xs).
Proof.
  intros Hmax. rewrite length_app in Hmax. simpl in Hmax.
  apply ceil_log_n_nat; [done|by rewrite length_app|].
  destruct (ceil_log_n_nat (length xs) nary Hn ltac:(lia)) as [Hd _]. unfold Tree.tree_depth.
  rewrite length_app. simpl. pose proof (pow_pos (ceil_log_n (N.of_nat (length xs)) nary)). nia.
Qed.

(** Above the depth no group is complete. *)
Lemma no_full_group xs l :
  (N.of_nat (length xs) ≤ u64_max)%N → tree_depth xs < l → length xs / nary ^ l = 0.
Proof.
  intros Hmax Hl. destruct (ceil_log_n_nat (length xs) nary Hn Hmax) as [Hd _]. apply Nat.div_small.
  assert (nary ^ tree_depth xs < nary ^ l) by (apply Nat.pow_lt_mono_r; lia). unfold Tree.tree_depth in *. lia.
Qed.

Lemma stored_layer_prefix xs ys l :
  (N.of_nat (length (xs ++ ys)) ≤ u64_max)%N →
  take (length xs / nary ^ l) (stored_layer xs l) = take (length xs / nary ^ l) (layer l (xs ++ ys)).
Proof.
  intros Hmax. rewrite length_app in Hmax. unfold Tree.stored_layer. case_match; nbool.
  - by rewrite layer_app_prefix.
  - rewrite no_full_group by (done || lia). by rewrite !take_0.
Qed.

(** A stored level is at most one node longer than its complete groups. *)
Lemma stored_layer_length xs l :
  (N.of_nat (length xs) ≤ u64_max)%N →
  length xs / nary ^ l ≤ length (stored_layer xs l) ≤ S (length xs / nary ^ l) ∧
  length (stored_layer xs l) ≤ length (layer l xs).
Proof.
  intros Hmax. unfold Tree.stored_layer. case_match; nbool.
  - rewrite length_layer, div_ceil_div by apply pow_pos. case_match; lia.
  - rewrite no_full_group by (done || lia). simpl. lia.
Qed.

Lemma stored_layer_total xs l : l ≤ tree_depth xs → stored_layer xs l = layer l xs.
Proof. intros Hl. unfold Tree.stored_layer. by rewrite (proj2 (Nat.leb_le _ _)). Qed.

Lemma length_layer_le l xs : length (layer l xs) ≤ length xs.
Proof. rewrite length_layer. apply div_ceil_le_mul; [apply pow_pos|]. pose proof (pow_pos l). nia. Qed.

(** ** Lemmas: single insertion *)

(** The children buffer of [_insert]: a copied prefix, then the rung. *)
Lemma take_insert_splice k g (out : list hash) (rung : hash) :
  length g = k → k < length out → take (k + 1) (<[k := rung]> (splice 0 g out)) = g ++ [rung].
Proof.
  intros <- Hk. rewrite <- splice_single by (rewrite length_splice; lia).
  pose proof (splice_app 0 g [rung] out ltac:(simpl; lia)) as Happ. rewrite Nat.add_0_l in Happ.
  rewrite Happ. replace (length g + 1) with (length (g ++ [rung])) by (rewrite length_app; simpl; lia).
  apply take_splice_0.
Qed.

(** The layers after appending one leaf: the complete groups, then the rung. *)
Definition rung_at xs x l (rung : hash) : Prop :=
  layer l (xs ++ [x]) = take (length xs / nary ^ l) (layer l xs) ++ [rung].

Lemma rung_length xs x l : length (layer l (xs ++ [x])) = S (length xs / nary ^ l).
Proof.
  rewrite length_layer, length_app. simpl. pose proof (pow_pos l) as Hp.
  pose proof (Nat.div_mod_eq (length xs) (nary ^ l)). pose proof (Nat.mod_upper_bound (length xs) (nary ^ l)).
  apply div_ceil_unique; lia.
Qed.

Lemma rung_step xs x l rung :
  rung_at xs x l rung →
  let locus := length xs / nary ^ l in
  let rank := locus mod nary in
  rung_at xs x (S l)
    (if rank =? 0 then rung
     else hash_children (slice (locus - rank) rank (layer l (xs ++ [x])) ++ [rung])).
Proof.
  intros Hrung locus rank. set (ys := layer l (xs ++ [x])).
  assert (length ys = S locus) as Hlen by apply rung_length.
  assert (ys !! locus = Some rung) as Hlast.
  { unfold rung_at in Hrung. fold ys locus in Hrung.
    assert (length (take locus (layer l xs)) = locus) as Htl.
    { rewrite Hrung, length_app in Hlen. simpl in Hlen. lia. }
    rewrite Hrung, lookup_app_r by lia. by rewrite Htl, Nat.sub_diag. }
  set (q := locus / nary). pose proof (Nat.div_mod_eq locus nary) as Hdm. fold rank q in Hdm.
  pose proof (Nat.mod_upper_bound locus nary ltac:(lia)) as Hr. fold rank in Hr.
  assert (length xs / nary ^ S l = q) as Hq.
  { unfold q, locus. rewrite Nat.Div0.div_div. f_equal. simpl. lia. }
  unfold rung_at. rewrite Hq, layer_S. fold ys.
  assert (take q (layer (S l) xs) = take q (parents ys)) as ->.
  { rewrite <- Hq. unfold ys. rewrite <- layer_S. symmetry. apply layer_app_prefix. }
  assert (length (parents ys) = S q) as Hpl.
  { rewrite length_parents, Hlen. apply div_ceil_unique; lia. }
  rewrite <- (take_drop q (parents ys)) at 1. f_equal.
  assert (parents ys !! q = Some (hash_group (slice (q * nary) nary ys))) as Hpq.
  { rewrite parents_lookup, decide_True by lia. done. }
  rewrite (drop_S _ _ _ Hpq), drop_ge by lia. f_equal.
  rewrite hash_group_tally by lia. cbn zeta.
  replace (Nat.min (q * nary + nary) (length ys) - q * nary) with (S rank) by lia.
  destruct (rank =? 0) eqn:H0; nbool.
  - rewrite H0. simpl. apply list_lookup_total_correct. rewrite <- Hlast. f_equal. lia.
  - assert ((S rank =? 1) = false) as -> by (apply Nat.eqb_neq; lia). f_equal.
    replace (q * nary) with (locus - rank) by lia. apply slice_snoc.
    rewrite <- Hlast. f_equal. lia.
Qed.

Lemma insert_levels_spec xs x rem l t rung :
  (N.of_nat (length (xs ++ [x])) ≤ u64_max)%N → tree_depth (xs ++ [x]) ≤ max_depth →
  l + rem = tree_depth (xs ++ [x]) →
  levels_rep (levels t) (λ j, if j <? l then layer j (xs ++ [x]) else stored_layer xs j) →
  rung_at xs x l rung →
  ∃ t' rung', runs_to (insert_levels nary rem l rung (length xs / nary ^ l)) t t' rung' ∧ same_meta t t' ∧
    levels_rep (levels t') (λ j, if j <? l + rem then layer j (xs ++ [x]) else stored_layer xs j) ∧
    rung_at xs x (l + rem) rung'.
Proof.
  intros Hmax Hdepth. revert l t rung. induction rem as [|rem IH]; intros l t rung Hl Hrep Hrung.
  { exists t, rung. rewrite Nat.add_0_r. done. }
  pose proof (tree_depth_snoc xs x Hmax) as Hds. cbn [insert_levels].
  set (locus := length xs / nary ^ l) in *. set (rank := locus mod nary) in *.
  assert (N.of_nat (length xs) + 1 ≤ u64_max)%N as Hmax' by (rewrite length_app in Hmax; simpl in Hmax; lia).
  assert (locus ≤ length xs) as Hlocus by (apply Nat.Div0.div_le_upper_bound; pose proof (pow_pos l); nia).
  destruct (on_level_spec l (level_set locus rung) () (layer l (xs ++ [x])) t _ Hrep) as (t1 & Hr1 & Hrep1 & Hm1);
    [lia| |].
  { intros lv Hlv. rewrite (proj2 (Nat.ltb_ge _ _)), stored_layer_total in Hlv by lia.
    destruct (level_set_spec lv _ locus rung Hlv ltac:(lia)) as (lv' & Hr & Hlv'). exists lv'. split; [done|].
    pose proof (stored_layer_length xs l ltac:(lia)) as [Hsl _]. rewrite stored_layer_total in Hsl by lia.
    rewrite pad_to_insert, (drop_ge _ (locus + 1)) in Hlv' by lia. by rewrite Hrung. }
  assert (levels_rep (levels t1) (λ j, if j <? S l then layer j (xs ++ [x]) else stored_layer xs j)) as Hrep1'.
  { eapply levels_rep_ext, Hrep1. intros j _. unfold update_at. simpl.
    destruct (j =? l) eqn:Hjl; nbool; [by rewrite Hjl, (proj2 (Nat.ltb_lt _ _)) by lia|].
    destruct (j <? l) eqn:Hj, (j <? S l) eqn:Hj'; nbool; done || lia. }
  pose proof (rung_step xs x l rung Hrung) as Hnext. cbn zeta in Hnext. fold locus rank in Hnext.
  set (rung' := if rank =? 0 then rung else _) in Hnext.
  assert (runs_to (if rank =? 0 then mret rung else
      let group_start := locus - rank in
      let tally := rank + 1 in
      children ← read_level l (λ lv, get_group lv group_start rank (replicate nary ZERO));
      let children := <[rank := rung]> children in
      mret (hash_children (take tally children))) t1 t1 rung') as Hr2.
  { unfold rung'. destruct (rank =? 0) eqn:H0; [done|]. cbn zeta.
    destruct (levels_rep_at _ _ l Hrep1 ltac:(lia)) as (lv & Hlv & Hlvr). unfold update_at in Hlvr.
    rewrite Nat.eqb_refl in Hlvr. pose proof (rung_length xs x l) as Hlen. fold locus in Hlen.
    pose proof (Nat.mod_upper_bound locus nary ltac:(lia)) as Hrk. fold rank in Hrk.
    pose proof (Nat.Div0.mod_le locus nary) as Hrl. fold rank in Hrl.
    assert (length (slice (locus - rank) rank (layer l (xs ++ [x]))) = rank) as Hsl by (apply length_slice; lia).
    unfold runs_to. rewrite (sm_bind_ok _ _ _ _ _ (read_level_spec l _ t1 lv _ Hlv
      (get_group_spec lv _ (locus - rank) rank (replicate nary ZERO) Hlvr ltac:(lia)
        ltac:(rewrite length_replicate; lia)))).
    unfold mret, sm_ret. do 4 f_equal. apply take_insert_splice; [done|]. rewrite length_replicate. lia. }
  destruct (IH (S l) t1 rung') as (t' & rung'' & Hr' & Hm' & Hrep' & Hru'); [lia|done|done|].
  exists t', rung''. replace (l + S rem) with (S l + rem) by lia. split_and!; [|by eapply same_meta_trans|done..].
  unfold runs_to. rewrite (sm_bind_ok _ _ _ _ _ Hr1). cbn zeta. fold rank.
  rewrite (sm_bind_ok _ _ _ _ _ Hr2). unfold locus. rewrite Nat.Div0.div_div.
  replace (nary ^ l * nary) with (nary ^ S l) by (simpl; lia). exact Hr'.
Qed.

(** The rung that reaches the depth is the root. *)
Lemma rung_root xs x rung :
  (N.of_nat (length (xs ++ [x])) ≤ u64_max)%N → rung_at xs x (tree_depth (xs ++ [x])) rung →
  layer (tree_depth (xs ++ [x])) (xs ++ [x]) = [rung] ∧ tree_root (xs ++ [x]) = Some rung.
Proof.
  intros Hmax Hrung. destruct (tree_root_Some (xs ++ [x])) as (r & Hr & Hl); [by destruct xs|done|].
  unfold rung_at in Hrung. rewrite Hl in Hrung |- *.
  destruct (take _ _) as [|y [|]]; simplify_eq/=; done.
Qed.

Lemma insert_spec xs x t :
  tree_rep t xs → (N.of_nat (length (xs ++ [x])) ≤ u64_max)%N → tree_depth (xs ++ [x]) ≤ max_depth →
  ∃ t' r, runs_to (_insert nary max_depth x) t t' r ∧ tree_rep t' (xs ++ [x]) ∧ tree_root (xs ++ [x]) = Some r.
Proof.
  intros [Hrep Hroot Hsize Hdepth Hmd Hms] Hmax Hd.
  assert (N.of_nat (length xs) + 1 = N.of_nat (length (xs ++ [x])))%N as Hns by (rewrite length_app; simpl; lia).
  destruct (insert_levels_spec xs x (tree_depth (xs ++ [x])) 0 t x Hmax Hd)
    as (t1 & rung & Hr1 & Hm1 & Hrep1 & Hrung); [done| | |].
  { eapply levels_rep_ext, Hrep. done. }
  { unfold rung_at. by rewrite Nat.pow_0_r, Nat.div_1_r, take_ge by done. }
  rewrite Nat.pow_0_r, Nat.div_1_r in Hr1. rewrite Nat.add_0_l in Hrep1, Hrung.
  destruct (rung_root xs x rung Hmax Hrung) as [Hlast Hroot'].
  set (d := tree_depth (xs ++ [x])) in *.
  assert (∃ t2, runs_to (if d <? max_depth then on_level d (level_set 0 rung) else mret ()) t1 t2 () ∧
    levels_rep (levels t2) (stored_layer (xs ++ [x]))) as (t2 & Hr2 & Hrep2).
  { pose proof (tree_depth_app xs [x] Hmax) as Hle. fold d in Hle.
    assert (∀ j, d < j → stored_layer xs j = stored_layer (xs ++ [x]) j) as Habove.
    { intros j Hj. unfold Tree.stored_layer. fold d. by rewrite !(proj2 (Nat.leb_gt _ _)) by lia. }
    destruct (d <? max_depth) eqn:Hlt; nbool.
    - destruct (on_level_spec d (level_set 0 rung) () [rung] t1 _ Hrep1 Hlt) as (t2 & Hr2 & Hrep2 & _).
      + intros lv Hlv. rewrite (proj2 (Nat.ltb_ge _ _)) in Hlv by lia.
        destruct (level_set_spec lv _ 0 rung Hlv) as (lv' & Hr & Hlv'); [done|]. exists lv'. split; [done|].
        rewrite pad_to_insert in Hlv' by lia. simpl in Hlv'. rewrite drop_ge in Hlv'; [done|].
        destruct (stored_layer_length xs d ltac:(lia)) as [[_ Hsl] _].
        assert (length xs / nary ^ d = 0) as Hz; [|lia]. apply Nat.div_small.
        destruct (ceil_log_n_nat (length (xs ++ [x])) nary Hn Hmax) as [Hpow _].
        rewrite length_app in Hpow. unfold d, Tree.tree_depth. rewrite length_app. simpl in *. lia.
      + exists t2. split; [done|]. eapply levels_rep_ext, Hrep2. intros j Hj. unfold update_at.
        destruct (j =? d) eqn:Hjd; nbool; [by rewrite Hjd, stored_layer_total, Hlast|].
        destruct (j <? d) eqn:Hjd'; nbool; [by rewrite stored_layer_total by (fold d; lia)|].
        apply Habove. lia.
    - exists t1. split; [done|]. eapply levels_rep_ext, Hrep1. intros j Hj. simpl.
      rewrite (proj2 (Nat.ltb_lt _ _)), stored_layer_total by (fold d; lia). done. }
  eexists _, rung. split; [|split; [|exact Hroot']].
  - unfold _insert, runs_to. rewrite (sm_bind_ok sm_get _ t t t) by done.
    rewrite (sm_bind_ok (sm_try _) _ t t (N.of_nat (length (xs ++ [x])))).
    2: { unfold runs_to, sm_try, u64_checked_add. rewrite Hsize, Hns. by rewrite (proj2 (N.leb_le _ _)). }
    cbn zeta. change (ceil_log_n (N.of_nat (length (xs ++ [x]))) nary) with d.
    rewrite (proj2 (Nat.ltb_ge _ _)) by done.
    rewrite (sm_bind_ok (sm_try _) _ t t (length xs)).
    2: { unfold runs_to, sm_try, u64_to_usize. by rewrite Hsize, (proj2 (N.leb_le _ _)), Nat2N.id by lia. }
    rewrite (sm_bind_ok _ _ _ _ _ Hr1), (sm_bind_ok _ _ _ _ _ Hr2). reflexivity.
  - split; simpl; done.
Qed.

(** ** Lemmas: batched insertion *)

(** The least [MAX_DEPTH] the constructor admits. *)
Context (Hmd1 : 1 ≤ max_depth).

Section many.
Context (par : option nat) (xs ys : list hash).
Context (Hys : ys ≠ []) (Hmax : (N.of_nat (length (xs ++ ys)) ≤ u64_max)%N).
Context (Hd : tree_depth (xs ++ ys) ≤ max_depth).

Abbreviation zs := (xs ++ ys).

Lemma zs_ne : zs ≠ [].
Proof. destruct xs; [done|]. simpl. done. Qed.

Lemma xs_max : (N.of_nat (length xs) ≤ u64_max)%N.
Proof. rewrite length_app in Hmax. lia. Qed.

(** Levels up to [l] are those of the new tree, the others still those of the old one. *)
Definition upto (l : nat) : nat → list hash :=
  λ j, if j <=? l then layer j zs else stored_layer xs j.

(** The parents to compute at a level: from the first incomplete group to the end. *)
Definition first_parent (l : nat) : nat := length xs / nary ^ S l.
Definition todo (l : nat) : nat := length (layer (S l) zs) - first_parent l.
Definition new_parents (l : nat) : list hash := slice (first_parent l) (todo l) (layer (S l) zs).

Lemma first_parent_le l : first_parent l ≤ length (layer (S l) zs).
Proof.
  rewrite length_layer. etransitivity; [apply div_le_div_ceil, pow_pos|].
  apply div_ceil_mono; [apply pow_pos|]. rewrite length_app. lia.
Qed.

Lemma new_parents_eq l : new_parents l = drop (first_parent l) (layer (S l) zs).
Proof. unfold new_parents, slice, todo. apply take_ge. rewrite length_drop. lia. Qed.

(** The old level up to the first incomplete group, then the new parents, is the new level. *)
Lemma parents_complete l :
  take (first_parent l) (stored_layer xs (S l)) ++ new_parents l = layer (S l) zs.
Proof.
  unfold first_parent. rewrite (stored_layer_prefix xs ys) by done. rewrite new_parents_eq.
  unfold first_parent. apply take_drop.
Qed.

Lemma upto_lt l j : j ≤ l → upto l j = layer j zs.
Proof. intros Hj. unfold upto. by rewrite (proj2 (Nat.leb_le _ _)). Qed.

Lemma upto_S l : upto l (S l) = stored_layer xs (S l).
Proof. unfold upto. by rewrite (proj2 (Nat.leb_gt _ _)) by lia. Qed.

Lemma upto_update l f :
  (∀ j, f j = update_at (S l) (layer (S l) zs) (upto l) j) → ∀ j, f j = upto (S l) j.
Proof.
  intros Hf j. rewrite Hf. unfold update_at, upto. destruct (j =? S l) eqn:Hj; nbool.
  - by rewrite Hj, Nat.leb_refl.
  - destruct (j <=? l) eqn:H1, (j <=? S l) eqn:H2; nbool; done || lia.
Qed.

Lemma layer_max l : (N.of_nat (length (layer l zs)) ≤ u64_max)%N.
Proof. pose proof (length_layer_le l zs). lia. Qed.

(** Writing the new parents over the zero-filled level. *)
Lemma write_parents l lv child :
  level_rep lv (upto l (S l)) → level_rep child (layer l zs) →
  ∃ lv1 lv2, runs_to (ensure_len (length (layer (S l) zs))) lv lv1 () ∧
    runs_to (write_with (first_parent l) (todo l)
      (λ off n, _compute_parents_batched nary child (first_parent l + off) (length (layer l zs)) n)) lv1 lv2 () ∧
    level_rep lv2 (layer (S l) zs).
Proof.
  intros Hlv Hchild. rewrite upto_S in Hlv. pose proof (first_parent_le l) as Hfp.
  destruct (ensure_len_spec lv _ (length (layer (S l) zs)) Hlv (layer_max (S l))) as (lv1 & Hr1 & Hrep1).
  destruct (batched_fills child (layer l zs) (first_parent l) (todo l) Hchild) as [Hfill Hlen].
  { rewrite <- length_parents. change (parents (layer l zs)) with (layer (S l) zs). unfold todo. lia. }
  change (parents (layer l zs)) with (layer (S l) zs) in Hfill, Hlen. fold (new_parents l) in Hfill, Hlen.
  destruct (stored_layer_length xs (S l) xs_max) as [[Hs1 _] _]. fold (first_parent l) in Hs1.
  set (padded := pad_to (length (layer (S l) zs)) (stored_layer xs (S l))) in *.
  assert (length (layer (S l) zs) ≤ length padded) as Hpl.
  { unfold padded, pad_to. rewrite length_app, length_replicate. lia. }
  destruct (write_with_spec (first_parent l) _ (new_parents l) lv1 padded Hfill Hrep1) as (lv2 & Hr2 & Hrep2).
  { rewrite Hlen. unfold todo. lia. }
  rewrite Hlen in Hr2. exists lv1, lv2. split_and!; [done..|].
  assert (length (stored_layer xs (S l)) ≤ length (layer (S l) zs)) as Hsz.
  { destruct (stored_layer_length xs (S l) xs_max) as [_ Hs]. etransitivity; [exact Hs|].
    rewrite !length_layer. apply div_ceil_mono; [apply pow_pos|]. rewrite length_app. lia. }
  rewrite splice_end in Hrep2.
  - unfold padded, pad_to in Hrep2. rewrite take_app_le, parents_complete in Hrep2 by lia. exact Hrep2.
  - rewrite Hlen. unfold padded, pad_to. rewrite length_app, length_replicate. unfold todo. lia.
Qed.

(** Overwriting the one incomplete parent, then appending the others. *)
Lemma extend_parents l lv child :
  level_rep lv (upto l (S l)) → level_rep child (layer l zs) → first_parent l < length (layer (S l) zs) →
  let overlap := if first_parent l <? level_len lv then 1 else 0 in
  ∃ lv1 lv2,
    runs_to (if overlap =? 1 then write_with (first_parent l) 1
        (λ _ n, _compute_parents_batched nary child (first_parent l) (length (layer l zs)) n) else mret ())
      lv lv1 () ∧
    runs_to (extend_with (todo l - overlap) (λ off n,
      _compute_parents_batched nary child (first_parent l + overlap + off) (length (layer l zs)) n)) lv1 lv2 () ∧
    level_rep lv2 (layer (S l) zs).
Proof.
  intros Hlv Hchild Hfp overlap. rewrite upto_S in Hlv. pose proof (level_rep_len _ _ Hlv) as Hlen.
  destruct (stored_layer_length xs (S l) xs_max) as [[Hs1 Hs2] _]. fold (first_parent l) in Hs1, Hs2.
  assert (overlap = if first_parent l <? length (stored_layer xs (S l)) then 1 else 0) as Hod
    by (unfold overlap; by rewrite Hlen).
  clearbody overlap.
  assert (overlap ≤ todo l) as Hov by (unfold todo; rewrite Hod; case_match; lia).
  assert (∃ lv1, runs_to (if overlap =? 1 then write_with (first_parent l) 1
      (λ _ n, _compute_parents_batched nary child (first_parent l) (length (layer l zs)) n) else mret ())
      lv lv1 () ∧ level_rep lv1 (take (first_parent l + overlap) (layer (S l) zs))) as (lv1 & Hr1 & Hrep1).
  { pose proof (parents_complete l) as Hpc. rewrite Hod.
    destruct (first_parent l <? length (stored_layer xs (S l))) eqn:Hlt; nbool.
    - destruct (batched_fills child (layer l zs) (first_parent l) 1 Hchild) as [Hfill Hl1].
      { rewrite <- length_parents. change (parents (layer l zs)) with (layer (S l) zs). lia. }
      destruct (write_with_spec (first_parent l)
        (λ _ n, _compute_parents_batched nary child (first_parent l) (length (layer l zs)) n)
        (slice (first_parent l) 1 (parents (layer l zs))) lv (stored_layer xs (S l))) as (lv1 & Hr1 & Hrep1); [|exact Hlv|rewrite Hl1; lia|].
      + intros off n Hn0 Hon. assert (off = 0) as -> by lia. specialize (Hfill 0 n Hn0 ltac:(lia)).
        cbn beta in Hfill. by rewrite Nat.add_0_r in Hfill.
      + rewrite Hl1 in Hr1. exists lv1. split; [exact Hr1|].
        rewrite splice_end in Hrep1 by lia.
        change (parents (layer l zs)) with (layer (S l) zs) in Hrep1.
        unfold first_parent in Hrep1 at 1. rewrite (stored_layer_prefix xs ys) in Hrep1 by done.
        fold (first_parent l) in Hrep1. rewrite take_slice_add in Hrep1. exact Hrep1.
    - exists lv. split; [done|]. rewrite Nat.add_0_r, <- Hpc.
      rewrite take_app_le by (rewrite length_take; lia). rewrite take_take, Nat.min_id, take_ge by lia. done. }
  destruct (batched_fills child (layer l zs) (first_parent l + overlap) (todo l - overlap) Hchild)
    as [Hfill Hl2].
  { rewrite <- length_parents. change (parents (layer l zs)) with (layer (S l) zs). unfold todo in *. lia. }
  destruct (extend_with_spec lv1 _ _ _ Hrep1 Hfill) as (lv2 & Hr2 & Hrep2).
  { rewrite Hl2, length_take. pose proof (layer_max (S l)). unfold todo. lia. }
  rewrite Hl2 in Hr2. exists lv1, lv2. split_and!; [done..|].
  change (parents (layer l zs)) with (layer (S l) zs) in Hrep2.
  rewrite take_slice_add in Hrep2.
  replace (first_parent l + overlap + (todo l - overlap)) with (length (layer (S l) zs)) in Hrep2
    by (unfold todo in *; lia).
  by rewrite take_ge in Hrep2.
Qed.

(** The last node computed is the root when the level below the root is done. *)
Definition root_after (l : nat) (r r' : hash) : Prop :=
  if l + 1 =? tree_depth zs then tree_root zs = Some r' else r' = r.

Lemma top_layer : ∃ r, tree_root zs = Some r ∧ layer (tree_depth zs) zs = [r].
Proof. apply tree_root_Some; [apply zs_ne|done]. Qed.

(** Reading the root back from the level that stores it. *)
Lemma read_root l t r :
  l < tree_depth zs → levels_rep (levels t) (upto (S l)) → S l < max_depth →
  ∃ r', runs_to (if l + 1 =? tree_depth zs
      then r ← read_level (l + 1) (λ lv, level_get lv (length (layer (S l) zs) - 1)); sm_try r
      else mret r) t t r' ∧ root_after l r r'.
Proof.
  intros Hl Hrep Hlt. unfold root_after. destruct (l + 1 =? tree_depth zs) eqn:Hroot; nbool; [|by exists r].
  destruct top_layer as (r' & Hr' & Htop). exists r'. split; [|done].
  destruct (levels_rep_at _ _ (l + 1) Hrep ltac:(lia)) as (lv & Hlv & Hlr).
  rewrite upto_lt, Hroot, Htop in Hlr by lia.
  unfold runs_to. rewrite (sm_bind_ok _ _ t t (Ok r')); [done|].
  apply (read_level_spec _ _ t lv); [done|]. rewrite (level_get_spec lv [r']) by done.
  by rewrite Nat.add_1_r in Hroot; rewrite Hroot, Htop.
Qed.

Lemma level_seq_spec l t r :
  l < tree_depth zs → levels_rep (levels t) (upto l) →
  ∃ t' r', runs_to (_insert_many_level_seq nary max_depth l (first_parent l) (length (layer (S l) zs))
      (length (layer l zs)) (l + 1 =? tree_depth zs) r) t t' r' ∧
    same_meta t t' ∧ levels_rep (levels t') (upto (S l)) ∧ root_after l r r'.
Proof.
  intros Hl Hrep. destruct (levels_rep_at _ _ l Hrep ltac:(lia)) as (child & Hchild & Hcr).
  rewrite upto_lt in Hcr by lia. unfold _insert_many_level_seq.
  rewrite Nat.add_1_r. change (length (layer (S l) zs) - first_parent l) with (todo l).
  destruct (S l <? max_depth) eqn:Hlt; nbool.
  - destruct (levels_rep_at _ _ (S l) Hrep Hlt) as (lv & Hlv & Hlr).
    destruct (write_parents l lv child Hlr Hcr) as (lv1 & lv2 & Hr1 & Hr2 & Hrep2).
    set (t1 := MkTree (<[S l := lv1]> (levels t)) (root t) (size t) (depth t)).
    set (t2 := MkTree (<[S l := lv2]> (levels t1)) (root t) (size t) (depth t)).
    assert (levels t1 !! S l = Some lv1) as Hlv1.
    { simpl. apply list_lookup_insert_eq. by eapply lookup_lt_Some. }
    assert (levels t1 !! l = Some child) as Hch1 by (simpl; by rewrite list_lookup_insert_ne by lia).
    assert (levels_rep (levels t2) (upto (S l))) as Hrep2'.
    { destruct Hrep as [Hlen Hrep]. split; [simpl; by rewrite !length_insert|]. simpl. intros j lvj Hj.
      rewrite <- (upto_update l (update_at (S l) (layer (S l) zs) (upto l))) by done. unfold update_at.
      destruct (j =? S l) eqn:Hjl; nbool.
      - subst. rewrite list_lookup_insert_eq in Hj by (rewrite length_insert; lia). by simplify_eq.
      - rewrite !list_lookup_insert_ne in Hj by done. by apply Hrep. }
    destruct (read_root l t2 r Hl Hrep2' Hlt) as (r' & Hr' & Hra).
    rewrite Nat.add_1_r in Hr'.
    exists t2, r'. split_and!; [|done..]. unfold runs_to.
    rewrite (sm_bind_ok _ _ _ _ _ (on_level_ok (S l) _ t lv lv1 () Hlv Hr1)).
    rewrite (sm_bind_ok _ _ _ _ _ (read_level_spec l Some t1 child child Hch1 eq_refl)).
    rewrite (sm_bind_ok _ _ _ _ _ (on_level_ok (S l) _ t1 lv1 lv2 () Hlv1 Hr2)). exact Hr'.
  - assert (S l = tree_depth zs) as Htop by lia. destruct top_layer as (r' & Hr' & Hlayer).
    rewrite <- Htop in Hlayer. pose proof (first_parent_le l) as Hfp. rewrite Hlayer in Hfp. simpl in Hfp.
    assert (first_parent l = 0) as Hz.
    { destruct (decide (first_parent l = 0)) as [|Hne]; [done|exfalso].
      assert (first_parent l = 1) as Hone by lia. unfold first_parent in Hone.
      destruct (ceil_log_n_nat (length zs) nary Hn Hmax) as [Hpow _].
      change (ceil_log_n (N.of_nat (length zs)) nary) with (tree_depth zs) in Hpow. rewrite <- Htop in Hpow.
      rewrite length_app in Hpow. pose proof (Nat.Div0.mul_div_le (length xs) (nary ^ S l)).
      rewrite Hone in *. destruct ys; simpl in *; [done|lia]. }
    assert (todo l = 1) as Htodo by (unfold todo; rewrite Hz, Hlayer; done).
    assert (_compute_parent nary child 0 (length (layer l zs)) = Some (Ok r')) as Hcp.
    { assert (0 * nary < length (layer l zs)) as Hlt0.
      { apply (div_ceil_lt _ nary 0); [lia|]. rewrite <- length_parents.
        change (parents (layer l zs)) with (layer (S l) zs). rewrite Hlayer. simpl. lia. }
      rewrite (compute_parent_spec child (layer l zs)) by done. do 2 f_equal.
      assert (layer (S l) zs !! 0 = Some r') as Hat by by rewrite Hlayer.
      rewrite layer_S, parents_lookup, decide_True in Hat by done. by simplify_eq. }
    exists t, r'. split_and!; [|done| |].
    + rewrite Hz, Htodo. unfold runs_to.
      rewrite (sm_bind_ok _ _ t t [Ok r']); last first.
      { apply (read_level_spec l _ t child); [done|]. simpl. by rewrite Hcp. }
      rewrite (sm_bind_ok _ _ t t [r']) by done. by rewrite Htop, Nat.eqb_refl.
    + eapply levels_rep_ext, Hrep. intros j Hj. unfold upto.
      destruct (j <=? l) eqn:H1, (j <=? S l) eqn:H2; nbool; done || lia.
    + unfold root_after. by rewrite Nat.add_1_r, Htop, Nat.eqb_refl.
Qed.

Lemma insert_many_level_spec l t r :
  l < tree_depth zs → levels_rep (levels t) (upto l) →
  ∃ t' r', runs_to (insert_many_level nary max_depth par l (first_parent l) (tree_depth zs) r) t t' r' ∧
    same_meta t t' ∧ levels_rep (levels t') (upto (S l)) ∧ root_after l r r'.
Proof.
  intros Hl Hrep. destruct (levels_rep_at _ _ l Hrep ltac:(lia)) as (child & Hchild & Hcr).
  rewrite upto_lt in Hcr by lia. pose proof (level_rep_len _ _ Hcr) as Hclen.
  unfold insert_many_level.
  assert (runs_to (read_level l (λ lv, Some (level_len lv))) t t (length (layer l zs))) as Hr0.
  { eapply read_level_spec; [done|]. by rewrite Hclen. }
  destruct (level_seq_spec l t r Hl Hrep) as (ts & rs & Hrs & Hms & Hreps & Hras).
  assert (div_ceil (length (layer l zs)) nary = length (layer (S l) zs)) as Hnp
    by (by rewrite layer_S, length_parents).
  destruct par as [threshold|]; last first.
  { exists ts, rs. split_and!; [|done..]. unfold runs_to. rewrite (sm_bind_ok _ _ _ _ _ Hr0). cbn zeta.
    by rewrite Hnp. }
  destruct ((threshold <=? length (layer (S l) zs) - first_parent l) && (l + 1 <? max_depth)) eqn:Hpar;
    last first.
  { exists ts, rs. split_and!; [|done..]. unfold runs_to. rewrite (sm_bind_ok _ _ _ _ _ Hr0). cbn zeta.
    by rewrite Hnp, Hpar. }
  assert (S l < max_depth) as Hlt.
  { apply andb_true_iff in Hpar as [_ Hlt]. apply Nat.ltb_lt in Hlt. lia. }
  destruct (levels_rep_at _ _ (S l) Hrep Hlt) as (lv & Hlv & Hlr).
  destruct (decide (first_parent l < length (layer (S l) zs))) as [Hfp|Hfp].
  - destruct (extend_parents l lv child Hlr Hcr Hfp) as (lv1 & lv2 & Hr1 & Hr2 & Hrep2). cbn zeta in Hr1, Hr2.
    set (overlap := if first_parent l <? level_len lv then 1 else 0) in *.
    set (t1 := MkTree (<[S l := lv1]> (levels t)) (root t) (size t) (depth t)).
    set (t2 := MkTree (<[S l := lv2]> (levels t1)) (root t) (size t) (depth t)).
    assert (levels t1 !! S l = Some lv1) as Hlv1.
    { simpl. apply list_lookup_insert_eq. by eapply lookup_lt_Some. }
    assert (runs_to (if overlap =? 1 then on_level (S l) (write_with (first_parent l) 1
      (λ _ n, _compute_parents_batched nary child (first_parent l) (length (layer l zs)) n)) else mret ())
      t t1 ()) as Hr1'.
    { destruct (overlap =? 1); [by apply (on_level_ok (S l) _ t lv lv1)|].
      unfold runs_to in Hr1. injection Hr1 as Heq. unfold t1. rewrite <- Heq, list_insert_id by done.
      by destruct t. }
    assert (levels_rep (levels t2) (upto (S l))) as Hrep2'.
    { destruct Hrep as [Hlen Hrep]. split; [simpl; by rewrite !length_insert|]. simpl. intros j lvj Hj.
      rewrite <- (upto_update l (update_at (S l) (layer (S l) zs) (upto l))) by done. unfold update_at.
      destruct (j =? S l) eqn:Hjl; nbool.
      - subst. rewrite list_lookup_insert_eq in Hj by (rewrite length_insert; lia). by simplify_eq.
      - rewrite !list_lookup_insert_ne in Hj by done. by apply Hrep. }
    destruct (read_root l t2 r Hl Hrep2' Hlt) as (r' & Hr' & Hra).
    exists t2, r'. split_and!; [|done..]. unfold runs_to.
    rewrite (sm_bind_ok _ _ _ _ _ Hr0). cbn zeta. rewrite Hnp, Hpar.
    rewrite (sm_bind_ok _ _ _ _ _ (read_level_spec l Some t child child Hchild eq_refl)).
    rewrite Nat.add_1_r in *.
    rewrite (sm_bind_ok _ _ _ _ _ (read_level_spec (S l) _ t lv (level_len lv) Hlv eq_refl)).
    fold overlap. rewrite (sm_bind_ok _ _ _ _ _ Hr1').
    rewrite (sm_bind_ok _ _ _ _ _ (on_level_ok (S l) _ t1 lv1 lv2 () Hlv1 Hr2)). exact Hr'.
  - exfalso. pose proof (first_parent_le l) as Hle. pose proof (layer_below_depth zs l Hmax Hl) as Hbig.
    assert (first_parent l = length (layer (S l) zs)) as Heq by lia. unfold first_parent in Heq.
    rewrite length_layer in Heq. pose proof (pow_pos (S l)) as Hp.
    pose proof (div_ceil_spec (length zs) (nary ^ S l) Hp).
    pose proof (Nat.Div0.mul_div_le (length xs) (nary ^ S l)). rewrite Heq in *.
    rewrite length_app in *. destruct ys; simpl length in *; [done|]. lia.
Qed.

Lemma insert_many_levels_spec rem l t r :
  l + rem = tree_depth zs → levels_rep (levels t) (upto l) → (rem = 0 → tree_root zs = Some r) →
  ∃ t' r', runs_to (insert_many_levels nary max_depth par rem l (length xs / nary ^ S l) (tree_depth zs) r) t t' r' ∧
    same_meta t t' ∧ levels_rep (levels t') (upto (tree_depth zs)) ∧ tree_root zs = Some r'.
Proof.
  revert l t r. induction rem as [|rem IH]; intros l t r Hl Hrep Hr.
  { exists t, r. rewrite Nat.add_0_r in Hl. subst l. split_and!; auto; done. }
  destruct (insert_many_level_spec l t r ltac:(lia) Hrep) as (t1 & r1 & Hr1 & Hm1 & Hrep1 & Hra).
  destruct (IH (S l) t1 r1) as (t2 & r2 & Hr2 & Hm2 & Hrep2 & Hroot); [lia|done| |].
  { intros ->. unfold root_after in Hra. by rewrite (proj2 (Nat.eqb_eq _ _)) in Hra by lia. }
  exists t2, r2. split_and!; [|by eapply same_meta_trans|done..]. cbn [insert_many_levels]. unfold runs_to.
  rewrite (sm_bind_ok _ _ _ _ _ Hr1), Nat.Div0.div_div.
  replace (nary ^ S l * nary) with (nary ^ S (S l)) by (simpl; lia). exact Hr2.
Qed.

Lemma insert_many_spec t :
  tree_rep t xs →
  ∃ t' r, runs_to (_insert_many nary max_depth par ys) t t' r ∧ tree_rep t' zs ∧ tree_root zs = Some r.
Proof.
  intros [Hrep Hroot Hsize Hdepth Hmd Hms].
  assert (N.of_nat (length xs) + N.of_nat (length ys) = N.of_nat (length zs))%N as Hlen
    by (rewrite length_app; lia).
  destruct (on_level_spec 0 (extend ys) () zs t _ Hrep ltac:(lia)) as (t1 & Hr1 & Hrep1 & Hm1).
  { intros lv Hlv. rewrite stored_layer_total in Hlv by lia. apply extend_spec; [done|]. simpl. lia. }
  assert (levels_rep (levels t1) (upto 0)) as Hrep1'.
  { eapply levels_rep_ext, Hrep1. intros [|j] _; [done|]. unfold update_at, upto. done. }
  set (d := tree_depth zs) in *.
  assert (∃ r0, runs_to (if d =? 0 then r ← read_level 0 (λ lv, level_get lv 0); sm_try r else mret ZERO) t1 t1 r0 ∧
    (d = 0 → tree_root zs = Some r0)) as (r0 & Hr0 & Hroot0).
  { destruct (d =? 0) eqn:Hd0; nbool; [|by exists ZERO]. destruct top_layer as (r & Hr & Hlayer).
    exists r. split; [|done]. destruct (levels_rep_at _ _ 0 Hrep1' ltac:(lia)) as (lv & Hlv & Hlr).
    rewrite upto_lt in Hlr by lia. fold d in Hlayer. rewrite Hd0 in Hlayer. rewrite Hlayer in Hlr.
    unfold runs_to. rewrite (sm_bind_ok _ _ t1 t1 (Ok r)); [done|].
    apply (read_level_spec _ _ t1 lv); [done|]. by rewrite (level_get_spec lv [r]). }
  destruct (insert_many_levels_spec d 0 t1 r0) as (t2 & r & Hr2 & Hm2 & Hrep2 & Hroot2); [done|done|done|].
  rewrite Nat.pow_1_r in Hr2. eexists _, r. split; [|split; [|exact Hroot2]].
  - unfold _insert_many, runs_to. rewrite bool_decide_false by done.
    rewrite (sm_bind_ok sm_get _ t t t) by done. cbn zeta.
    rewrite (sm_bind_ok (sm_try _) _ t t (N.of_nat (length zs))).
    2: { unfold runs_to, sm_try, u64_checked_add. rewrite Hsize, N.min_l, Hlen by lia.
         by rewrite (proj2 (N.leb_le _ _)). }
    change (ceil_log_n (N.of_nat (length zs)) nary) with d. rewrite (proj2 (Nat.ltb_ge _ _)) by done.
    rewrite (sm_bind_ok _ _ _ _ _ Hr1).
    rewrite (sm_bind_ok (sm_try _) _ t1 t1 (length xs)).
    2: { unfold runs_to, sm_try, u64_to_usize. by rewrite Hsize, (proj2 (N.leb_le _ _)), Nat2N.id by lia. }
    rewrite (sm_bind_ok _ _ _ _ _ Hr0), (sm_bind_ok _ _ _ _ _ Hr2). reflexivity.
  - split; simpl; try done. eapply levels_rep_ext, Hrep2. intros j _. unfold upto, Tree.stored_layer. fold d.
    destruct (j <=? d) eqn:Hj; [done|]. nbool. pose proof (tree_depth_app xs ys Hmax) as Hle. fold d in Hle.
    by rewrite (proj2 (Nat.leb_gt _ _)) by lia.
Qed.

End many.

(** ** Lemmas: the root from the leaves alone *)

Lemma hash_group_eq xs i :
  i * nary < length xs → _hash_group nary xs i (length xs) = hash_group (slice (i * nary) nary xs).
Proof. intros Hi. unfold _hash_group. by rewrite hash_group_tally by done. Qed.

Lemma frontier_parents_eq par xs : frontier_parents nary par xs = parents xs.
Proof.
  assert ((λ i, _hash_group nary xs i (length xs)) <$> seq 0 (div_ceil (length xs) nary) = parents xs) as Hs.
  { unfold Tree.parents. apply list_fmap_ext. intros i j [-> Hj]%lookup_seq.
    apply hash_group_eq. apply div_ceil_lt; simpl in *; lia. }
  unfold frontier_parents. destruct par as [threshold|]; [|exact Hs].
  case_match; [|exact Hs]. rewrite <- Hs. 
  apply (pieces_of_range PAR_CHUNK_SIZE _ (λ i, _hash_group nary xs i (length xs))). unfold PAR_CHUNK_SIZE. lia.
Qed.

Lemma recompute_root_spec par t xs : tree_rep t xs → recompute_root nary par t = Some (root t).
Proof.
  intros [Hrep Hroot Hsize Hdepth Hmd Hms]. unfold recompute_root. rewrite Hsize, Hroot.
  destruct (N.of_nat (length xs) =? 0)%N eqn:H0; nbool.
  { rewrite (nil_length_inv xs) by lia. done. }
  destruct (levels_rep_at _ _ 0 Hrep ltac:(lia)) as (l0 & Hl0 & Hlr). rewrite stored_layer_total in Hlr by lia.
  change (layer 0 xs) with xs in Hlr. rewrite Hl0. cbn [mbind option_bind].
  destruct (N.of_nat (length xs) =? 1)%N eqn:H1; nbool.
  { rewrite (level_get_spec l0 xs) by done. destruct xs as [|x [|]]; simpl in *; try lia. done. }
  assert (mapM (level_get l0) (seq 0 (level_len l0)) = Some (Ok <$> xs)) as ->.
  { apply mapM_Some_2, Forall2_same_length_lookup. rewrite (level_rep_len _ _ Hlr). split.
    - by rewrite length_seq, length_fmap.
    - intros i j r [-> Hj]%lookup_seq. rewrite list_lookup_fmap, (level_get_spec l0 xs) by done. simpl.
      by destruct (xs !! i); intros [= <-]. }
  cbn [mbind option_bind]. f_equal.
  assert (mapM (λ r : result hash TreeError, match r with Ok h => Some h | Err _ => None end) (Ok <$> xs) = Some xs) as ->.
  { apply mapM_Some_2, Forall2_fmap_l, Forall_Forall2_diag, Forall_forall. done. }
  cbn [mbind option_bind]. unfold Tree.tree_root. rewrite Hdepth. f_equal.
  unfold Tree.layer. generalize (tree_depth xs). intros k. induction k as [|k IH]; simpl; [done|].
  by rewrite IH, frontier_parents_eq.
Qed.

(** ** Lemmas: refused insertions *)

Lemma insert_refused xs x t :
  tree_rep t xs →
  ((u64_max < N.of_nat (length (xs ++ [x])))%N → _insert nary max_depth x t = (t, Returns (Err CapacityExceeded))) ∧
  ((N.of_nat (length (xs ++ [x])) ≤ u64_max)%N → max_depth < tree_depth (xs ++ [x]) →
    _insert nary max_depth x t = (t, Returns (Err (MaxDepthExceeded max_depth)))).
Proof.
  intros [_ _ Hsize _ _ _].
  assert (N.of_nat (length xs) + 1 = N.of_nat (length (xs ++ [x])))%N as Hns by (rewrite length_app; simpl; lia).
  unfold _insert, mbind, sm_bind, sm_get, sm_try, u64_checked_add. rewrite Hsize, Hns. split.
  - intros Hov. by rewrite (proj2 (N.leb_gt _ _)).
  - intros Hok Hd. rewrite (proj2 (N.leb_le _ _)) by done. simpl.
    change (ceil_log_n (N.of_nat (length (xs ++ [x]))) nary) with (tree_depth (xs ++ [x])).
    by rewrite (proj2 (Nat.ltb_lt _ _)).
Qed.

Lemma insert_many_refused par xs ys t :
  tree_rep t xs → (N.of_nat (length ys) ≤ u64_max)%N →
  (ys = [] → _insert_many nary max_depth par ys t = (t, Returns (Err EmptyBatch))) ∧
  (ys ≠ [] → (u64_max < N.of_nat (length (xs ++ ys)))%N →
    _insert_many nary max_depth par ys t = (t, Returns (Err CapacityExceeded))) ∧
  (ys ≠ [] → (N.of_nat (length (xs ++ ys)) ≤ u64_max)%N → max_depth < tree_depth (xs ++ ys) →
    _insert_many nary max_depth par ys t = (t, Returns (Err (MaxDepthExceeded max_depth)))).
Proof.
  intros [_ _ Hsize _ _ _] Hlen.
  assert (N.of_nat (length xs) + N.of_nat (length ys) = N.of_nat (length (xs ++ ys)))%N as Hns
    by (rewrite length_app; lia).
  unfold _insert_many. split_and!.
  - intros ->. done.
  - intros Hne Hov. rewrite bool_decide_false by done. unfold mbind, sm_bind, sm_get, sm_try, u64_checked_add.
    rewrite Hsize, N.min_l, Hns by done. by rewrite (proj2 (N.leb_gt _ _)).
  - intros Hne Hok Hd. rewrite bool_decide_false by done. unfold mbind, sm_bind, sm_get, sm_try, u64_checked_add.
    rewrite Hsize, N.min_l, Hns, (proj2 (N.leb_le _ _)) by done. simpl.
    change (ceil_log_n (N.of_nat (length (xs ++ ys))) nary) with (tree_depth (xs ++ ys)).
    by rewrite (proj2 (Nat.ltb_lt _ _)).
Qed.

Lemma tree_new_rep : tree_rep (tree_new max_depth) [].
Proof.
  split; try done; [|simpl; unfold Tree.tree_depth; simpl; rewrite ceil_log_n_small; lia].
  split; [simpl; by rewrite length_replicate|]. simpl. intros l lv [-> _]%lookup_replicate.
  assert (stored_layer [] l = []) as ->; [|apply level_new_rep].
  unfold Tree.stored_layer. case_match; [|done]. apply nil_length_inv. rewrite length_layer.
  by rewrite div_ceil_0 by apply pow_pos.
Qed.

(** Leaves one after the other. *)
Definition insert_all (ys : list hash) : SM TreeInner TreeError () :=
  sm_for ys (λ y, _insert nary max_depth y;; mret ()).

Lemma insert_all_spec xs ys t :
  tree_rep t xs → (N.of_nat (length (xs ++ ys)) ≤ u64_max)%N → tree_depth (xs ++ ys) ≤ max_depth →
  ∃ t', runs_to (insert_all ys) t t' () ∧ tree_rep t' (xs ++ ys).
Proof.
  intros Hrep Hmax Hd. unfold insert_all.
  apply (sm_for_inv (λ done_ t, tree_rep t (xs ++ done_))); [by rewrite app_nil_r|].
  intros l1 y l2 t1 Heq Hrep1.
  assert (xs ++ ys = (xs ++ l1 ++ [y]) ++ l2) as Hsplit by (rewrite Heq, <- !app_assoc; done).
  assert (N.of_nat (length (xs ++ l1 ++ [y])) ≤ u64_max)%N as Hmax1 by (rewrite Hsplit, length_app in Hmax; lia).
  destruct (insert_spec (xs ++ l1) y t1 Hrep1) as (t2 & r & Hr & Hrep2 & _).
  - by rewrite <- app_assoc.
  - rewrite <- app_assoc. rewrite Hsplit in Hmax, Hd. pose proof (tree_depth_app _ _ Hmax). lia.
  - exists t2. split; [|by rewrite <- app_assoc in Hrep2]. unfold runs_to. by rewrite (sm_bind_ok _ _ _ _ _ Hr).
Qed.

(** Two trees over the same leaves. *)
Lemma tree_rep_agree t1 t2 xs :
  tree_rep t1 xs → tree_rep t2 xs →
  root t1 = root t2 ∧ size t1 = size t2 ∧ depth t1 = depth t2 ∧
  (level_list <$> levels t1) = (level_list <$> levels t2).
Proof.
  intros [[Hl1 H1] Hr1 Hs1 Hd1 _ _] [[Hl2 H2] Hr2 Hs2 Hd2 _ _]. split_and!; [congruence..|].
  apply list_eq. intros l. rewrite !list_lookup_fmap.
  destruct (levels t1 !! l) as [lv1|] eqn:E1, (levels t2 !! l) as [lv2|] eqn:E2; simpl; [|exfalso..|done].
  - by rewrite (proj2 (H1 l lv1 E1)), (proj2 (H2 l lv2 E2)).
  - apply lookup_lt_Some in E1. apply lookup_ge_None in E2. lia.
  - apply lookup_lt_Some in E2. apply lookup_ge_None in E1. lia.
Qed.

(** Snapshots keep what the tree represents. *)
Lemma snapshot_rep t xs : tree_rep t xs → snap_rep (snapshot max_depth t) xs.
Proof.
  intros [[Hl Hrep] Hr Hs Hd Hmd Hms]. split; try done. unfold snapshot. simpl. rewrite Hd.
  set (k := Nat.min (tree_depth xs + 1) max_depth). split.
  - rewrite length_app, length_take, length_replicate. unfold k. lia.
  - intros l lv Hlv. destruct (decide (l < k)).
    + rewrite lookup_app_l, lookup_take_lt in Hlv by (rewrite ?length_take; unfold k in *; lia). by apply Hrep.
    + rewrite lookup_app_r in Hlv by (rewrite length_take; unfold k in *; lia).
      apply lookup_replicate in Hlv as [-> Hlt]. rewrite length_take in Hlt.
      assert (stored_layer xs l = []) as ->; [|apply level_new_rep].
      unfold Tree.stored_layer. rewrite (proj2 (Nat.leb_gt _ _)); [done|]. unfold k in *. lia.
Qed.

(** ** Properties *)

(** C20. Inserting a leaf appends it: the tree comes to represent the leaves with the new one at the
    end, every level holds its layer of that list, and the root returned is the root of that
    list. A tree that is full, by size or by depth, is refused and left as it was. *)
Theorem insert_correct xs x t :
  tree_rep t xs →
  ((u64_max < N.of_nat (length (xs ++ [x])))%N → _insert nary max_depth x t = (t, Returns (Err CapacityExceeded))) ∧
  ((N.of_nat (length (xs ++ [x])) ≤ u64_max)%N → max_depth < tree_depth (xs ++ [x]) →
    _insert nary max_depth x t = (t, Returns (Err (MaxDepthExceeded max_depth)))) ∧
  ((N.of_nat (length (xs ++ [x])) ≤ u64_max)%N → tree_depth (xs ++ [x]) ≤ max_depth →
    ∃ t' r, _insert nary max_depth x t = (t', Returns (Ok r)) ∧ tree_rep t' (xs ++ [x]) ∧
      tree_root (xs ++ [x]) = Some r).
Proof.
  intros Hrep. destruct (insert_refused xs x t Hrep) as [H1 H2]. split_and!; [done..|].
  intros Hmax Hd. by apply insert_spec.
Qed.

(** Inserting a batch appends it, with or without the parallel split and whatever its
    threshold; an empty batch and a batch that does not fit are refused and change nothing. *)
Theorem insert_many_correct par xs ys t :
  tree_rep t xs → (N.of_nat (length ys) ≤ u64_max)%N →
  (ys = [] → _insert_many nary max_depth par ys t = (t, Returns (Err EmptyBatch))) ∧
  (ys ≠ [] → (u64_max < N.of_nat (length (xs ++ ys)))%N →
    _insert_many nary max_depth par ys t = (t, Returns (Err CapacityExceeded))) ∧
  (ys ≠ [] → (N.of_nat (length (xs ++ ys)) ≤ u64_max)%N → max_depth < tree_depth (xs ++ ys) →
    _insert_many nary max_depth par ys t = (t, Returns (Err (MaxDepthExceeded max_depth)))) ∧
  (ys ≠ [] → (N.of_nat (length (xs ++ ys)) ≤ u64_max)%N → tree_depth (xs ++ ys) ≤ max_depth →
    ∃ t' r, _insert_many nary max_depth par ys t = (t', Returns (Ok r)) ∧ tree_rep t' (xs ++ ys) ∧
      tree_root (xs ++ ys) = Some r).
Proof.
  intros Hrep Hlen. destruct (insert_many_refused par xs ys t Hrep Hlen) as (H1 & H2 & H3).
  split_and!; [done..|]. intros Hne Hmax Hd. by apply insert_many_spec.
Qed.

(** C19. A batch inserted at once leaves the tree that its leaves inserted one by one leave: the same
    root, size, depth and the same hashes on every level. *)
Theorem insert_many_equals_inserts par xs ys t t1 r :
  tree_rep t xs → (N.of_nat (length ys) ≤ u64_max)%N →
  _insert_many nary max_depth par ys t = (t1, Returns (Ok r)) →
  ∃ t2, insert_all ys t = (t2, Returns (Ok ())) ∧ root t2 = Some r ∧
    root t1 = root t2 ∧ size t1 = size t2 ∧ depth t1 = depth t2 ∧
    (level_list <$> levels t1) = (level_list <$> levels t2).
Proof.
  intros Hrep Hlen Hmany. destruct (insert_many_refused par xs ys t Hrep Hlen) as (H1 & H2 & H3).
  destruct (decide (ys = [])) as [Hnil|Hne]; [by rewrite H1 in Hmany|].
  destruct (decide (N.of_nat (length (xs ++ ys)) ≤ u64_max)%N) as [Hmax|Hov]; last first.
  { rewrite H2 in Hmany; [done|done|lia]. }
  destruct (decide (tree_depth (xs ++ ys) ≤ max_depth)) as [Hd|Hd]; last first.
  { rewrite H3 in Hmany; [done|done|done|lia]. }
  destruct (insert_many_spec par xs ys Hne Hmax Hd t Hrep) as (t' & r' & Hr' & Hrep1 & Hroot).
  unfold runs_to in Hr'. rewrite Hr' in Hmany. simplify_eq.
  destruct (insert_all_spec xs ys t Hrep Hmax Hd) as (t2 & Hr2 & Hrep2). exists t2. split; [exact Hr2|].
  destruct (tree_rep_agree _ _ _ Hrep1 Hrep2) as (E1 & E2 & E3 & E4). split; [|done].
  rewrite <- Hroot. apply Hrep2.
Qed.

(** Recovery's recomputation from the leaves alone gives the root the insertions left, with and
    without its parallel branch. *)
Theorem recompute_root_agrees par t xs :
  tree_rep t xs → recompute_root nary par t = Some (root t).
Proof. apply recompute_root_spec. Qed.

(** A snapshot serves every node of the tree it was taken from: below the root the layers of the
    leaves, at the depth the root, and an error anywhere else. *)
Theorem snapshot_serves_layers t xs l i :
  tree_rep t xs →
  get_node (snapshot max_depth t) l i =
    Some match (if l <=? tree_depth xs then layer l xs else []) !! i with
         | Some h => Ok h
         | None => Err (IndexOutOfRange (N.of_nat i)
             (if l <=? tree_depth xs then N.of_nat (length (layer l xs)) else 0))
         end.
Proof.
  intros Hrep. pose proof (snapshot_rep t xs Hrep) as [Hl Hr Hs Hd Hmd Hms].
  unfold get_node. rewrite Hd, Hr.
  destruct (tree_depth xs <? l) eqn:Hlt; nbool; [by rewrite (proj2 (Nat.leb_gt _ _))|].
  rewrite (proj2 (Nat.leb_le _ _)) by done. destruct (l =? tree_depth xs) eqn:Heq; nbool.
  - subst l. destruct (decide (xs = [])) as [->|Hne].
    + unfold Tree.tree_root, Tree.tree_depth. rewrite ceil_log_n_small by done. simpl.
      by destruct i.
    + destruct (tree_root_Some xs Hne Hms) as (r & -> & ->). simpl. by destruct i.
  - destruct (levels_rep_at _ _ l Hl ltac:(lia)) as (lv & Hlv & Hlr). rewrite stored_layer_total in Hlr by lia.
    rewrite Hlv. simpl. by rewrite (level_get_spec lv (layer l xs)).
Qed.

End spec.

(** ** Witnesses: ternary trees of the toy hasher *)

Definition ex_leaf (n : N) : hash := le_bytes 32 n.
Definition ex_new : TreeInner := tree_new 4.
Definition ex_leaves : list hash := ex_leaf <$> [1; 2; 3; 4; 5]%N.

Lemma ex_new_rep : @tree_rep 3 4 Toy.hasher ex_new [].
Proof. apply tree_new_rep; lia. Qed.

Lemma ceil_log_n_exact_witness :
  ceil_log_n 10 3 = 3 ∧ ∀ j, (10 ≤ N.of_nat 3 ^ N.of_nat j)%N ↔ 3 ≤ j.
Proof. split; [reflexivity|]. apply (ceil_log_n_exact 10 3); [lia|vm_compute; discriminate]. Defined.

Lemma insert_correct_witness :
  ∃ t' r, @_insert 3 4 Toy.hasher (ex_leaf 1) ex_new = (t', Returns (Ok r)) ∧
    @tree_rep 3 4 Toy.hasher t' [ex_leaf 1].
Proof.
  destruct (@insert_correct 3 4 Toy.hasher ltac:(lia) ltac:(lia) [] (ex_leaf 1) ex_new ex_new_rep)
    as (_ & _ & H3).
  destruct H3 as (t' & r & H1 & H2 & _); [vm_compute; discriminate|vm_compute; lia|]. exists t', r. split; [exact H1|exact H2].
Defined.

Lemma ex_many :
  ∃ t' r, @_insert_many 3 4 Toy.hasher (Some 1) ex_leaves ex_new = (t', Returns (Ok r)) ∧
    @tree_rep 3 4 Toy.hasher t' ex_leaves.
Proof.
  destruct (@insert_many_spec 3 4 Toy.hasher Toy.hasher_laws ltac:(lia) ltac:(lia) (Some 1) [] ex_leaves)
    with (t := ex_new) as (t' & r & H1 & H2 & _); [done|vm_compute; discriminate|vm_compute; lia|exact ex_new_rep|]. eauto.
Qed.

Lemma insert_many_correct_witness :
  ∃ t' r, @_insert_many 3 4 Toy.hasher (Some 1) ex_leaves ex_new = (t', Returns (Ok r)) ∧
    @tree_rep 3 4 Toy.hasher t' ex_leaves.
Proof.
  destruct (@insert_many_correct 3 4 Toy.hasher Toy.hasher_laws ltac:(lia) ltac:(lia) (Some 1) [] ex_leaves ex_new
    ex_new_rep) as (_ & _ & _ & H); [vm_compute; discriminate|].
  destruct H as (t' & r & H1 & H2 & _); [done|vm_compute; discriminate|vm_compute; lia|]. exists t', r. split; [exact H1|exact H2].
Defined.

Lemma insert_many_equals_inserts_witness :
  ∃ t1 t2 r, @_insert_many 3 4 Toy.hasher None ex_leaves ex_new = (t1, Returns (Ok r)) ∧
    @insert_all 3 4 Toy.hasher ex_leaves ex_new = (t2, Returns (Ok ())) ∧ root t2 = Some r.
Proof.
  destruct (@insert_many_spec 3 4 Toy.hasher Toy.hasher_laws ltac:(lia) ltac:(lia) None [] ex_leaves)
    with (t := ex_new) as (t' & r & H1 & _ & _); [done|vm_compute; discriminate|vm_compute; lia|exact ex_new_rep|].
  destruct (@insert_many_equals_inserts 3 4 Toy.hasher Toy.hasher_laws ltac:(lia) ltac:(lia) None [] ex_leaves
    ex_new t' r ex_new_rep) as (t2 & H2 & H3 & _); [vm_compute; discriminate|exact H1|].
  exists t', t2, r. split; [exact H1|]. split; [exact H2|exact H3].
Defined.

Lemma recompute_root_agrees_witness :
  @recompute_root 3 Toy.hasher (Some 0) ex_new = Some (root ex_new).
Proof.
  apply (@recompute_root_agrees 3 4 Toy.hasher ltac:(lia) ltac:(lia) (Some 0) ex_new [] ex_new_rep).
Defined.

Lemma batched_parents_are_scalar_witness :
  ∃ lv, level_rep lv ex_leaves ∧
    @_compute_parents_batched 2 Toy.hasher lv 1 5 2 =
      mapM (λ i, expect_ok (@_compute_parent 2 Toy.hasher lv i 5)) [1; 2].
Proof.
  destruct (extend_spec level_new [] ex_leaves level_new_rep) as (lv & _ & Hrep); [vm_compute; discriminate|].
  exists lv. split; [exact Hrep|].
  apply (@batched_parents_are_scalar 2 Toy.hasher Toy.hasher_laws ltac:(lia) lv ex_leaves 1 2 Hrep); vm_compute; lia.
Defined.

Lemma snapshot_serves_layers_witness :
  get_node (snapshot 4 ex_new) 0 0 = Some (Err (IndexOutOfRange 0 0)).
Proof.
  exact (@snapshot_serves_layers 3 4 Toy.hasher ltac:(lia) ltac:(lia) ex_new [] 0 0 ex_new_rep).
Defined.
