(* ===== verification/TreeTypes.v ===== *)
(** The type of a tree: [Hash] is [[u8; 32]], while a hash of the model is a byte string. Every hash a
    tree stores or returns has 32 bytes, whatever the tree holds and however an operation ends. The
    judgement [typed] follows the code: one rule per construct of the state monad, one lemma per
    operation. *)
From S2P Require Import Prelude Hash ChunkedLevel Tree TreeSpec.

(** ** The judgement *)

(** From a state that satisfies [I], the call leaves one that does, also when it fails or unwinds, and
    what it returns satisfies [P]. *)
Definition typed {S E A} (I : S → Prop) (P : A → Prop) (m : SM S E A) : Prop :=
  ∀ s s' r, I s → m s = (s', r) → I s' ∧ ∀ a, r = Returns (Ok a) → P a.

Create HintDb typing.

Section rules.
Context {S E : Type} (I : S → Prop).

Lemma typed_ret {A} (P : A → Prop) a : P a → typed I P (mret a : SM S E A).
Proof. intros Ha s s' r Hs [= <- <-]. split; [done|]. by intros a' [= <-]. Qed.

Lemma typed_bind {A B} (Q : A → Prop) (P : B → Prop) (m : SM S E A) k :
  typed I Q m → (∀ a, Q a → typed I P (k a)) → typed I P (m ≫= k).
Proof.
  intros Hm Hk s s' r Hs. unfold mbind, sm_bind. destruct (m s) as [s1 [[a|e]|]] eqn:Heq;
    destruct (Hm s _ _ Hs Heq) as [Hs1 Ha]; [by apply Hk; auto|by intros [= <- <-]..].
Qed.

Lemma typed_get : typed I I (sm_get : SM S E S).
Proof. intros s s' r Hs [= <- <-]. split; [done|]. by intros a [= <-]. Qed.

Lemma typed_fail {A} (P : A → Prop) e : typed I P (sm_fail e : SM S E A).
Proof. by intros s s' r Hs [= <- <-]. Qed.

Lemma typed_modify (P : () → Prop) f : (∀ s, I s → I (f s)) → P () → typed I P (sm_modify f : SM S E ()).
Proof. intros Hf HP s s' r Hs [= <- <-]. split; [auto|]. by intros [] _. Qed.

Lemma typed_step {A} (P : A → Prop) (f : S → S * A) :
  (∀ s, I s → I (f s).1 ∧ P (f s).2) → typed I P (sm_step f : SM S E A).
Proof.
  intros Hf s s' r Hs. unfold sm_step. specialize (Hf s Hs). destruct (f s) as [s1 a]. intros [= <- <-].
  split; [apply Hf|]. intros a' [= <-]. apply Hf.
Qed.

Lemma typed_expect {A} (P : A → Prop) o : (∀ a, o = Some a → P a) → typed I P (sm_expect o : SM S E A).
Proof. intros Ho s s' r Hs [= <- <-]. split; [done|]. intros a. destruct o; intros [= ->]. auto. Qed.

Lemma typed_try {A} (P : A → Prop) (o : result A E) : (∀ a, o = Ok a → P a) → typed I P (sm_try o).
Proof. intros Ho s s' r Hs [= <- <-]. split; [done|]. intros a [= ->]. auto. Qed.

Lemma typed_outcome {A} (P : A → Prop) o : (∀ a, o = Returns a → P a) → typed I P (sm_outcome o : SM S E A).
Proof. intros Ho s s' r Hs [= <- <-]. split; [done|]. intros a. destruct o; intros [= ->]. auto. Qed.

Lemma typed_weaken {A} (Q P : A → Prop) (m : SM S E A) : typed I Q m → (∀ a, Q a → P a) → typed I P m.
Proof. intros Hm HQ s s' r Hs Hr. destruct (Hm s s' r Hs Hr) as [? Ha]. split; [done|]. auto. Qed.

Lemma typed_any {A} (m : SM S E A) P : typed I P m → typed I (λ _, True) m.
Proof. intros Hm. by eapply typed_weaken. Qed.

Lemma typed_zoom {T A} (J : T → Prop) (P : A → Prop) (get : S → option T) put (m : SM T E A) :
  (∀ s t, I s → get s = Some t → J t) → (∀ s t, I s → J t → I (put t s)) →
  typed J P m → typed I P (sm_zoom get put m).
Proof.
  intros Hget Hput Hm s s' r Hs. unfold sm_zoom. destruct (get s) as [t|] eqn:Ht; [|by intros [= <- <-]].
  destruct (m t) as [t' r'] eqn:Hr. intros [= <- <-]. destruct (Hm t t' r' (Hget s t Hs Ht) Hr) as [Ht' Ha]. auto.
Qed.

Lemma typed_result {E' A} (P : A → Prop) (m : SM S E A) :
  typed I P m → typed I (λ r, ∀ a, r = Ok a → P a) (sm_result m : SM S E' _).
Proof.
  intros Hm s s' r Hs. unfold sm_result. destruct (m s) as [s1 [r1|]] eqn:Heq; intros [= <- <-];
    destruct (Hm s _ _ Hs Heq) as [Hs1 Ha]; [|done]. split; [done|]. intros a [= <-] a' ->. auto.
Qed.

Lemma typed_map_err {E' A} (P : A → Prop) (f : E → E') (m : SM S E A) : typed I P m → typed I P (sm_map_err f m).
Proof.
  intros Hm s s' r Hs. unfold sm_map_err. destruct (m s) as [s1 [[a|e]|]] eqn:Heq; intros [= <- <-];
    destruct (Hm s _ _ Hs Heq) as [Hs1 Ha]; [|done..]. split; [done|]. intros a' [= <-]. auto.
Qed.

Lemma typed_run {T A} (J : T → Prop) (P : A → Prop) (m : SM T E A) t :
  J t → typed J P m → typed I (λ x, J x.1 ∧ P x.2) (sm_run m t : SM S E _).
Proof.
  intros Ht Hm s s' r Hs. unfold sm_run. destruct (m t) as [t1 [[a|e]|]] eqn:Heq; intros [= <- <-]; [|done..].
  destruct (Hm t _ _ Ht Heq) as [Ht1 Ha]. split; [done|]. intros [t2 a2] [= <- <-]. auto.
Qed.

Lemma typed_for {A} (l : list A) (body : A → SM S E ()) :
  (∀ x, x ∈ l → typed I (λ _, True) (body x)) → typed I (λ _, True) (sm_for l body).
Proof.
  intros Hb. induction l as [|x l IH]; cbn [sm_for]; [by apply typed_ret|].
  eapply typed_bind; [apply Hb; left|]. intros _ _. apply IH. intros y Hy. apply Hb. by right.
Qed.
End rules.

#[export] Hint Resolve typed_ret typed_get typed_fail typed_try typed_expect typed_outcome typed_modify : typing.

(** The next call of a sequence, by a rule. *)
Ltac typed_step := eapply typed_bind; [solve [eauto with typing]|].

(** ** Levels *)

Abbreviation hashes_wf := (Forall hash_wf).

Definition chunk_typed (c : Chunk) : Prop := hashes_wf (as_slice c).

Record level_typed (lv : ChunkedLevel) : Prop := {
  lt_segments : Forall (Forall chunk_typed) (segments lv);
  lt_pending : Forall chunk_typed (pending lv);
}.

(** A closure that writes hashes. *)
Definition fill_typed (fill : Fill) : Prop := ∀ off n ws, fill off n = Some ws → hashes_wf ws.

Lemma zeros_wf n : hashes_wf (replicate n ZERO).
Proof. by apply Forall_replicate. Qed.

Lemma slice_wf o n hs : hashes_wf hs → hashes_wf (slice o n hs).
Proof. intros Hwf. by apply Forall_take, Forall_drop. Qed.

Lemma splice_wf o new hs : hashes_wf new → hashes_wf hs → hashes_wf (splice o new hs).
Proof. intros H1 H2. unfold splice. repeat apply Forall_app_2; [by apply Forall_take|done|by apply Forall_drop]. Qed.

#[export] Hint Resolve zeros_wf slice_wf splice_wf Forall_app_2 Forall_take Forall_drop Forall_nil_2 : typing.

Lemma mapM_wf {A} (f : A → option hash) l hs :
  (∀ x h, f x = Some h → hash_wf h) → mapM f l = Some hs → hashes_wf hs.
Proof.
  intros Hf. rewrite mapM_Some. intros Hall. induction Hall; constructor; eauto.
Qed.

Lemma chunk_lookup_typed lv i c : level_typed lv → chunk lv i = Some c → chunk_typed c.
Proof.
  intros [Hs Hp]. unfold chunk. destruct (_ <? _).
  - destruct (segments lv !! _) as [seg|] eqn:Hseg; [|done]. cbn [mbind option_bind]. intros Hc.
    rewrite Forall_lookup in Hs. specialize (Hs _ _ Hseg). rewrite Forall_lookup in Hs. by eapply Hs.
  - intros Hc. rewrite Forall_lookup in Hp. by eapply Hp.
Qed.

Lemma chunk_slice_typed lv i hs : level_typed lv → chunk_slice lv i = Some hs → hashes_wf hs.
Proof.
  intros Hlv. unfold chunk_slice. destruct (chunk lv i) as [c|] eqn:Hc; [|done]. intros [= <-]. by eapply chunk_lookup_typed.
Qed.

Lemma level_get_typed lv i h : level_typed lv → level_get lv i = Some (Ok h) → hash_wf h.
Proof.
  intros Hlv. unfold level_get. destruct (_ <=? _); [done|].
  destruct (chunk_slice lv _) as [s|] eqn:Hs; [|done]. apply chunk_slice_typed in Hs; [|done]. cbn [mbind option_bind].
  destruct (s !! _) as [h'|] eqn:Hh; [|done]. intros [= <-]. rewrite Forall_lookup in Hs. by eapply Hs.
Qed.

Lemma runs_from_typed fuel lv start count n rs :
  level_typed lv → runs_from fuel lv start count n = Some rs → Forall hashes_wf rs.
Proof.
  intros Hlv. revert n rs. induction fuel as [|fuel IH]; intros n rs; cbn [runs_from]; destruct (_ =? _); try done; [by intros [= <-]..|].
  destruct (chunk_slice lv _) as [s|] eqn:Hs; [|done]. cbn [mbind option_bind]. apply chunk_slice_typed in Hs; [|done].
  destruct (runs_from _ _ _ _ _) as [rest|] eqn:Hr; [|done]. cbn [mbind option_bind]. intros [= <-].
  constructor; [by apply slice_wf|]. by eapply IH.
Qed.

Lemma runs_typed lv start count rs : level_typed lv → runs lv start count = Some rs → Forall hashes_wf rs.
Proof. intros Hlv. unfold runs. destruct (_ <=? _); [by apply runs_from_typed|done]. Qed.

Lemma copy_runs_typed rs n out hs :
  Forall hashes_wf rs → hashes_wf out → copy_runs rs n out = Some hs → hashes_wf hs.
Proof.
  intros Hrs. revert n out. induction Hrs as [|r rs Hr _ IH]; intros n out Hout; cbn [copy_runs]; [by intros [= <-]|].
  destruct (_ <=? _); [|done]. by apply IH, splice_wf.
Qed.

Lemma get_group_typed lv start count out hs :
  level_typed lv → hashes_wf out → get_group lv start count out = Some hs → hashes_wf hs.
Proof.
  intros Hlv Hout. unfold get_group. destruct (runs lv start count) as [rs|] eqn:Hr; [|done]. cbn [mbind option_bind].
  apply runs_typed in Hr; [|done]. by apply copy_runs_typed.
Qed.

Lemma put_chunk_typed lv i c : level_typed lv → chunk_typed c → level_typed (put_chunk lv i c).
Proof.
  intros [Hs Hp] Hc. unfold put_chunk. destruct (_ <? _); split; cbn [segments pending]; try done.
  - apply Forall_alter; [done|]. intros seg _ Hseg. by apply Forall_insert.
  - by apply Forall_insert.
Qed.

Lemma push_chunk_typed lv c : level_typed lv → chunk_typed c → level_typed (push_chunk lv c).
Proof.
  intros [Hs Hp] Hc. unfold push_chunk, freeze_pending. cbn zeta. destruct (_ =? _); split; cbn [segments pending]; try done.
  - apply Forall_app_2; [done|]. repeat constructor. apply Forall_app_2; [done|by constructor].
  - apply Forall_app_2; [done|by constructor].
Qed.

Lemma chunk_slice_mut_typed i f :
  (∀ hs hs', hashes_wf hs → f hs = Some hs' → hashes_wf hs') → typed level_typed (λ _, True) (chunk_slice_mut i f).
Proof.
  intros Hf lv lv' r Hlv. unfold chunk_slice_mut. destruct (chunk lv i) as [c|] eqn:Hc; [|by intros [= <- <-]].
  destruct (f (as_slice c)) as [hs|] eqn:Hh; intros [= <- <-]; [|done]. split; [|done].
  apply put_chunk_typed; [done|]. apply (Hf _ _ (chunk_lookup_typed _ _ _ Hlv Hc) Hh).
Qed.

Lemma splice_fill_typed fill off n offset : fill_typed fill →
  ∀ hs hs', hashes_wf hs → (w ← fill off n; Some (splice offset w hs)) = Some hs' → hashes_wf hs'.
Proof.
  intros Hfill hs hs' Hhs. destruct (fill off n) as [w|] eqn:Hw; [|done]. intros [= <-].
  apply splice_wf; [by eapply Hfill|done].
Qed.

Lemma write_from_typed fuel start count n fill :
  fill_typed fill → typed level_typed (λ _, True) (write_from fuel start count n fill).
Proof.
  intros Hfill. revert n. induction fuel as [|fuel IH]; intros n; cbn [write_from]; destruct (_ <=? _); auto with typing.
  eapply typed_bind; [|intros _ _; apply IH]. by apply chunk_slice_mut_typed, splice_fill_typed.
Qed.

Lemma write_with_typed start count fill :
  fill_typed fill → typed level_typed (λ _, True) (write_with start count fill).
Proof.
  intros Hfill. unfold write_with. typed_step. intros lv Hlv. apply (typed_bind _ (λ _, True)); [by apply typed_expect|].
  intros _ _. by apply write_from_typed.
Qed.

Lemma foldl_push_typed cs lv : level_typed lv → Forall chunk_typed cs → level_typed (foldl push_chunk lv cs).
Proof. intros Hlv Hcs. revert lv Hlv. induction Hcs; intros lv Hlv; cbn; [done|]. by apply IHHcs, push_chunk_typed. Qed.

Lemma set_len_typed n lv : level_typed lv → level_typed (MkLevel (segments lv) (pending lv) n).
Proof. by intros [? ?]. Qed.

Lemma extend_with_typed count fill : fill_typed fill → typed level_typed (λ _, True) (extend_with count fill).
Proof.
  intros Hfill. unfold extend_with. typed_step. intros lv Hlv.
  destruct (count =? 0); [auto with typing|]. destruct (_ <? _)%N; [auto with typing|].
  eapply (typed_bind _ (λ _, True)).
  { destruct (0 <? _); [|auto with typing]. cbn zeta. eapply typed_bind; [|by auto with typing].
    by apply chunk_slice_mut_typed, splice_fill_typed. }
  intros n _. eapply (typed_bind _ (λ _, True)); [|intros _ _; apply typed_modify; [|done]; intros l; apply set_len_typed].
  destruct (n <? count); [|auto with typing]. cbn zeta. eapply (typed_bind _ (Forall chunk_typed)).
  - apply typed_expect. intros cs Hcs. unfold build_chunks in Hcs. rewrite mapM_Some in Hcs.
    induction Hcs as [|ci c cis cs Hc _ IH]; constructor; [|done].
    destruct (fill _ _) as [w|] eqn:Hw; [|done]. injection Hc as <-. unfold chunk_typed. cbn [as_slice].
    apply Forall_app_2; [by eapply Hfill|apply zeros_wf].
  - intros cs Hcs. apply typed_modify; [|done]. intros l Hl. by apply foldl_push_typed.
Qed.

Lemma extend_typed vs : hashes_wf vs → typed level_typed (λ _, True) (extend vs).
Proof.
  intros Hvs. apply extend_with_typed. intros off n ws. destruct (_ <=? _); [|done]. intros [= <-]. by apply slice_wf.
Qed.

Lemma ensure_len_typed n : typed level_typed (λ _, True) (ensure_len n).
Proof.
  unfold ensure_len. typed_step. intros lv Hlv. destruct (_ <=? _); [auto with typing|].
  apply extend_with_typed. intros off k ws [= <-]. apply zeros_wf.
Qed.

Lemma level_set_typed i h : hash_wf h → typed level_typed (λ _, True) (level_set i h).
Proof.
  intros Hh. unfold level_set. typed_step. intros lv Hlv. eapply (typed_bind _ (λ _, True)).
  - destruct (_ <=? _); [apply ensure_len_typed|auto with typing].
  - intros _ _. unfold set_preallocated. typed_step. intros lv1 Hlv1. apply (typed_bind _ (λ _, True)); [by apply typed_expect|].
    intros _ _. apply chunk_slice_mut_typed. intros hs hs' Hhs [= <-]. by apply Forall_insert.
Qed.

(** ** The tree *)

Record tree_typed (t : TreeInner) : Prop := {
  tt_levels : Forall level_typed (levels t);
  tt_root : ∀ h, root t = Some h → hash_wf h;
}.

Record snapshot_typed (s : TreeSnapshot) : Prop := {
  st_levels : Forall level_typed (snap_levels s);
  st_root : ∀ h, snap_root s = Some h → hash_wf h;
}.

Lemma level_new_typed : level_typed level_new.
Proof. by split. Qed.

Lemma tree_new_typed max_depth : tree_typed (tree_new max_depth).
Proof. split; [|done]. apply Forall_replicate, level_new_typed. Qed.

Lemma snapshot_is_typed max_depth t : tree_typed t → snapshot_typed (snapshot max_depth t).
Proof.
  intros [Hl Hr]. split; [|done]. cbn [snapshot snap_levels]. apply Forall_app_2; [by apply Forall_take|].
  apply Forall_replicate, level_new_typed.
Qed.

(** A node that a snapshot serves is a hash. *)
Lemma get_node_typed s level index h : snapshot_typed s → get_node s level index = Some (Ok h) → hash_wf h.
Proof.
  intros [Hl Hr]. unfold get_node. destruct (_ <? _); [done|]. destruct (_ =? _).
  - destruct (snap_root s) as [r|] eqn:Hroot; [|done]. cbn. destruct (_ =? _); [|done]. intros [= <-]. auto.
  - destruct (snap_levels s !! level) as [lv|] eqn:Hlv; [|done]. cbn. rewrite Forall_lookup in Hl.
    apply level_get_typed. by eapply Hl.
Qed.

Section tree.
Context (nary max_depth : nat) `{HL : HasherLaws} (par : option nat).

Lemma on_level_typed {A} l (P : A → Prop) (m : SM ChunkedLevel TreeError A) :
  typed level_typed P m → typed tree_typed P (on_level l m).
Proof.
  apply typed_zoom.
  - intros t lv [Hl _] Hlv. rewrite Forall_lookup in Hl. by eapply Hl.
  - intros t lv [Hl Hr] Hlv. split; [|done]. by apply Forall_insert.
Qed.

Lemma read_level_typed {A} l (P : A → Prop) (f : ChunkedLevel → option A) :
  (∀ lv a, level_typed lv → f lv = Some a → P a) → typed tree_typed P (read_level l f).
Proof.
  intros Hf. unfold read_level. typed_step. intros t [Hl _]. apply typed_expect. intros a.
  destruct (levels t !! l) as [lv|] eqn:Hlv; [|done]. cbn. rewrite Forall_lookup in Hl. intros Ha. eapply Hf; [|done]. by eapply Hl.
Qed.

Lemma finish_typed h n d : hash_wf h → typed tree_typed hash_wf (finish h n d).
Proof.
  intros Hh. unfold finish. eapply (typed_bind _ (λ _, True)); [|by auto with typing].
  apply typed_modify; [|done]. intros t [Hl _]. split; [done|]. by intros h' [= <-].
Qed.

Lemma insert_levels_typed rem level rung locus :
  hash_wf rung → typed tree_typed hash_wf (insert_levels nary rem level rung locus).
Proof.
  revert level rung locus. induction rem as [|rem IH]; intros level rung locus Hr; cbn [insert_levels]; [by apply typed_ret|].
  eapply typed_bind; [by apply on_level_typed, level_set_typed|]. intros _ _. eapply (typed_bind _ hash_wf); [|by auto].
  destruct (_ =? _); [by apply typed_ret|]. eapply (typed_bind _ (λ _, True)); [by apply read_level_typed|]. intros cs _.
  apply typed_ret, length_hash_children.
Qed.

(** Inserting a leaf. *)
Lemma insert_typed leaf : hash_wf leaf → typed tree_typed hash_wf (_insert nary max_depth leaf).
Proof.
  intros Hleaf. unfold _insert. typed_step. intros t _. eapply (typed_bind _ (λ _, True)); [by apply typed_try|]. intros n _.
  cbn zeta. destruct (_ <? _); [auto with typing|]. eapply (typed_bind _ (λ _, True)); [by apply typed_try|]. intros i _.
  eapply typed_bind; [by apply insert_levels_typed|]. intros rung Hrung. eapply (typed_bind _ (λ _, True)).
  - destruct (_ <? _); [|auto with typing]. by apply on_level_typed, level_set_typed.
  - intros _ _. by apply finish_typed.
Qed.

Lemma compute_parent_typed lv i len h :
  level_typed lv → _compute_parent nary lv i len = Some (Ok h) → hash_wf h.
Proof.
  intros Hlv. unfold _compute_parent. cbn zeta. destruct (_ =? _); [by apply level_get_typed|].
  destruct (get_group _ _ _ _) as [cs|]; [|done]. intros [= <-]. apply length_hash_children.
Qed.

Lemma parents_batched_typed lv start len : level_typed lv → fill_typed (λ off n, _compute_parents_batched nary lv (start + off) len n).
Proof.
  intros Hlv off n ws. unfold _compute_parents_batched. cbn zeta. destruct (runs _ _ _) as [rs|]; [|done]. cbn [mbind option_bind].
  rewrite window_groups_spec; [|unfold PARENT_WINDOW; cbn; lia|by rewrite length_replicate|apply zeros_wf].
  destruct (mapM _ _) as [rest|] eqn:Hrest; [|done]. intros [= <-]. apply Forall_app_2.
  - apply Forall_fmap, Forall_true. intros g. apply length_hash_children.
  - eapply mapM_wf; [|exact Hrest]. intros i h. unfold expect_ok.
    destruct (_compute_parent _ _ _ _) as [[h'|]|] eqn:Hp; try done. intros [= <-]. by eapply compute_parent_typed.
Qed.

Lemma read_root_typed l i : typed tree_typed hash_wf (r ← read_level l (λ lv, level_get lv i); sm_try r).
Proof.
  eapply (typed_bind _ (λ r, ∀ h, r = Ok h → hash_wf h)); [|intros r Hr; by apply typed_try].
  apply read_level_typed. intros lv r Hlv Hr h ->. by eapply level_get_typed.
Qed.

Lemma collect_typed (rs : list (result hash TreeError)) hs :
  Forall (λ r, ∀ h, r = Ok h → hash_wf h) rs →
  foldr (λ r acc, let? h := r in let? t := acc in Ok (h :: t))%works (Ok []) rs = Ok hs → hashes_wf hs.
Proof.
  intros Hrs. revert hs. induction Hrs as [|r rs Hr _ IH]; intros hs; cbn; [by intros [= <-]|].
  destruct r as [h|]; [|done]. cbn. destruct (foldr _ _ rs) as [t|]; [|done]. intros [= <-]. constructor; auto.
Qed.

Lemma level_seq_typed level start num len is_root r :
  hash_wf r → typed tree_typed hash_wf (_insert_many_level_seq nary max_depth level start num len is_root r).
Proof.
  intros Hr. unfold _insert_many_level_seq. cbn zeta. destruct (_ <? _).
  - eapply typed_bind; [apply on_level_typed, ensure_len_typed|]. intros _ _.
    eapply (typed_bind _ level_typed); [apply read_level_typed; by intros lv a Hlv [= <-]|]. intros child Hchild.
    eapply typed_bind; [by apply on_level_typed, write_with_typed, parents_batched_typed|]. intros _ _.
    destruct is_root; [apply read_root_typed|by apply typed_ret].
  - eapply (typed_bind _ (Forall (λ r, ∀ h, r = Ok h → hash_wf h))).
    + apply read_level_typed. intros lv rs Hlv Hrs. rewrite mapM_Some in Hrs.
      induction Hrs as [|i x is_ rs Hx _ IH]; constructor; [|done]. intros h ->. by eapply compute_parent_typed.
    + intros rs Hrs. eapply (typed_bind _ hashes_wf); [apply typed_try; intros hs; by apply collect_typed|].
      intros hs Hhs. apply typed_ret. destruct is_root; [|done]. destruct (list.last hs) as [h|] eqn:Hlast; [|done].
      cbn. rewrite last_lookup in Hlast. rewrite Forall_lookup in Hhs. by eapply Hhs.
Qed.

Lemma insert_many_level_typed level start d r :
  hash_wf r → typed tree_typed hash_wf (insert_many_level nary max_depth par level start d r).
Proof.
  intros Hr. unfold insert_many_level. eapply (typed_bind _ (λ _, True)); [by apply read_level_typed|]. intros len _. cbn zeta.
  destruct par as [threshold|]; [|by apply level_seq_typed]. destruct (_ && _); [|by apply level_seq_typed].
  eapply (typed_bind _ level_typed); [apply read_level_typed; by intros lv a Hlv [= <-]|]. intros child Hchild.
  eapply (typed_bind _ (λ _, True)); [by apply read_level_typed|]. intros plen _. cbn zeta.
  set (overlap := if start <? plen then 1 else 0).
  eapply (typed_bind _ (λ _, True)).
  { destruct (overlap =? 1); [|auto with typing]. apply on_level_typed, write_with_typed. intros off n ws Hws.
    apply (parents_batched_typed child start len Hchild 0 n). by rewrite Nat.add_0_r. }
  intros _ _. eapply typed_bind; [by apply on_level_typed, extend_with_typed, parents_batched_typed|]. intros _ _.
  destruct (_ =? _); [apply read_root_typed|by apply typed_ret].
Qed.

Lemma insert_many_levels_typed rem level start d r :
  hash_wf r → typed tree_typed hash_wf (insert_many_levels nary max_depth par rem level start d r).
Proof.
  revert level start r. induction rem as [|rem IH]; intros level start r Hr; cbn [insert_many_levels]; [by apply typed_ret|].
  eapply typed_bind; [by apply insert_many_level_typed|]. intros r' Hr'. by apply IH.
Qed.

(** Inserting a batch. *)
Lemma insert_many_typed leaves :
  hashes_wf leaves → typed tree_typed hash_wf (_insert_many nary max_depth par leaves).
Proof.
  intros Hleaves. unfold _insert_many. case_bool_decide; [auto with typing|]. typed_step. intros t _. cbn zeta.
  eapply (typed_bind _ (λ _, True)); [by apply typed_try|]. intros n _. destruct (_ <? _); [auto with typing|].
  eapply typed_bind; [by apply on_level_typed, extend_typed|]. intros _ _.
  eapply (typed_bind _ (λ _, True)); [by apply typed_try|]. intros o _. eapply (typed_bind _ hash_wf).
  - destruct (_ =? _); [apply read_root_typed|by apply typed_ret].
  - intros r Hr. eapply typed_bind; [by apply insert_many_levels_typed|]. intros r' Hr'. by apply finish_typed.
Qed.
End tree.
