(* ===== verification/MerkleProof.v ===== *)
(** Merkle proofs ([crates/rotortree/src/proof.rs]): inclusion proofs, consistency proofs between
    two sizes of one tree, and carrying an inclusion proof from the old root to the new one. *)
From S2P Require Import Prelude Hash ChunkedLevel Tree.

(** ** Data *)

(** [to_u8]. *)
Definition to_u8 (v : nat) : result nat TreeError := if v <=? 255 then Ok v else Err MathError.

(** [ProofLevel<N>]. *)
Record ProofLevel := MkProofLevel {
  pl_position : nat;
  pl_sibling_count : nat;
  pl_siblings : list hash;
}.

(** [NaryProof<N, MAX_DEPTH>]. *)
Record NaryProof := MkNaryProof {
  np_root : hash;
  np_leaf : hash;
  np_leaf_index : N;
  np_tree_size : N;
  np_level_count : nat;
  np_levels : list ProofLevel;
}.

(** [ConsistencyLevel<N>]. *)
Record ConsistencyLevel := MkConsistencyLevel {
  cl_shared_count : nat;
  cl_new_count : nat;
  cl_hashes : list hash;
}.

(** [ConsistencyProof<N, MAX_DEPTH>]. *)
Record ConsistencyProof := MkConsistencyProof {
  cp_old_root : hash;
  cp_new_root : hash;
  cp_old_size : N;
  cp_new_size : N;
  cp_level_count : nat;
  cp_levels : list ConsistencyLevel;
}.

Section proof.
Context (nary max_depth : nat) `{!Hasher}.

(** The array types: [N] hashes per level, [MAX_DEPTH] levels. *)
Definition proof_shape (p : NaryProof) : Prop :=
  length (np_levels p) = max_depth ∧ Forall (λ pl, length (pl_siblings pl) = nary) (np_levels p).
Definition consistency_shape (c : ConsistencyProof) : Prop :=
  length (cp_levels c) = max_depth ∧ Forall (λ cl, length (cl_hashes cl) = nary) (cp_levels c).

(** [[[0u8; 32]; N]], [ProofLevel::EMPTY], [ConsistencyLevel::EMPTY]. *)
Definition zeros : list hash := replicate nary ZERO.
Definition EMPTY_LEVEL : ProofLevel := MkProofLevel 0 0 zeros.
Definition EMPTY_CONSISTENCY : ConsistencyLevel := MkConsistencyLevel 0 0 zeros.

(** [ConsistencyLevel::new_hashes]. *)
Definition new_hashes (cl : ConsistencyLevel) : list hash :=
  slice (cl_shared_count cl) (cl_new_count cl) (cl_hashes cl).

(** ** Inclusion proofs *)

(** The level loop of [NaryProof::verify]. The [children] buffer is written in full up to
    [total] at every level, so it is a list here; the bounds checks keep every copied range
    inside the arrays. *)
Fixpoint verify_levels (lvls : list ProofLevel) (expected_index : nat) (current : hash)
    : result hash TreeError :=
  match lvls with
  | [] => Ok current
  | level :: lvls =>
    let expected_pos := expected_index mod nary in
    if negb (pl_position level =? expected_pos) then Err MathError else
    if 0 <? pl_sibling_count level then
      let total := pl_sibling_count level + 1 in
      let pos := pl_position level in
      if (nary <? total) || (total <=? pos) then Err MathError else
      let rest := total - pos - 1 in
      let children := take pos (pl_siblings level) ++ [current] ++ slice pos rest (pl_siblings level) in
      verify_levels lvls (expected_index / nary) (hash_children children)
    else verify_levels lvls (expected_index / nary) current
  end.

(** [NaryProof::verify]. *)
Definition verify (p : NaryProof) : result bool TreeError :=
  if (np_tree_size p =? 0)%N || (np_tree_size p <=? np_leaf_index p)%N then Err MathError else
  let expected_depth := ceil_log_n (np_tree_size p) nary in
  if negb (np_level_count p =? expected_depth) || (max_depth <? expected_depth)
  then Err (InvalidProofDepth expected_depth (np_level_count p)) else
  (let? expected_index := u64_to_usize (np_leaf_index p) in
   let? current := verify_levels (take (np_level_count p) (np_levels p)) expected_index (np_leaf p) in
   Ok (bool_decide (current = np_root p)))%works.

(** [NaryProof::verify_against]. *)
Definition verify_against (p : NaryProof) (trusted_root : hash) : result bool TreeError :=
  if bool_decide (np_root p = trusted_root) then verify p else Ok false.

(** One level of [TreeSnapshot::generate_proof]; [None] is an index panic. *)
Definition generate_level (s : TreeSnapshot) (level index : nat) : option (result ProofLevel TreeError) :=
  let child_pos := index mod nary in
  let group_start := index - child_pos in
  lv ← snap_levels s !! level;
  let group_end := Nat.min (group_start + nary) (level_len lv) in
  let group_size := group_end - group_start in
  group ← get_group lv group_start group_size zeros;
  let rest := group_size - child_pos - 1 in
  let siblings := splice child_pos (slice (child_pos + 1) rest group) (splice 0 (take child_pos group) zeros) in
  Some (let? position := to_u8 child_pos in
        let? sibling_count := to_u8 (group_size - 1) in
        Ok (MkProofLevel position sibling_count siblings))%works.

(** The level loop of [TreeSnapshot::generate_proof]. *)
Fixpoint generate_levels (s : TreeSnapshot) (rem level index : nat)
    : option (result (list ProofLevel) TreeError) :=
  match rem with
  | O => Some (Ok [])
  | S rem =>
    r ← generate_level s level index;
    match r with
    | Err e => Some (Err e)
    | Ok pl =>
      rs ← generate_levels s rem (S level) (index / nary);
      Some (let? pls := rs in Ok (pl :: pls))%works
    end
  end.

(** [TreeSnapshot::generate_proof]; [None] is a panic. *)
Definition generate_proof (s : TreeSnapshot) (leaf_index : N) : option (result NaryProof TreeError) :=
  if (snap_size s <=? leaf_index)%N then Some (Err (IndexOutOfRange leaf_index (snap_size s))) else
  match u64_to_usize leaf_index with
  | Err e => Some (Err e)
  | Ok leaf_idx =>
    rs ← generate_levels s (snap_depth s) 0 leaf_idx;
    match rs with
    | Err e => Some (Err e)
    | Ok pls =>
      r ← snap_root s;
      l0 ← snap_levels s !! 0;
      leaf ← level_get l0 leaf_idx;
      Some (let? leaf := leaf in
            Ok (MkNaryProof r leaf leaf_index (snap_size s) (snap_depth s)
                  (pls ++ replicate (max_depth - length pls) EMPTY_LEVEL)))%works
    end
  end.

(** ** Consistency proofs *)

(** The [expected_depth] loop: the rounds until both sizes are one; the sum of the sizes falls
    at every round. *)
Fixpoint rounds_loop (fuel os ns : nat) : nat :=
  match fuel with
  | O => 0
  | S fuel =>
    if (1 <? os) || (1 <? ns) then S (rounds_loop fuel (div_ceil os nary) (div_ceil ns nary)) else 0
  end.
Definition rounds (os ns : nat) : nat := rounds_loop (os + ns) os ns.

(** The counts a level must have, from the two sizes at that level. The code adds [group_start + N] in a
    [usize], which overflows when the old size is within [N] of 2^64; the sum is not bounded here, as no
    tree has that many leaves. *)
Definition expected_shared (i old_level_size : nat) : nat :=
  let boundary_pos := (old_level_size - 1) mod nary in
  if i =? 0 then boundary_pos + 1 else boundary_pos.
Definition expected_new_count (old_level_size new_level_size : nat) : nat :=
  let boundary := old_level_size - 1 in
  let group_start := boundary - boundary mod nary in
  Nat.min new_level_size (group_start + nary) - boundary - 1.

(** One level of [ConsistencyProof::verify], past its checks: the two hashes above it. *)
Definition consistency_step (i : nat) (level : ConsistencyLevel) (old_level_size : nat)
    (old_hash new_hash : hash) : hash * hash :=
  let boundary_pos := (old_level_size - 1) mod nary in
  let mid := cl_hashes level !!! boundary_pos in
  let (old_mid, new_mid) := if i =? 0 then (mid, mid) else (old_hash, new_hash) in
  let left := take boundary_pos (cl_hashes level) in
  let new_child_count := boundary_pos + 1 + cl_new_count level in
  (if 0 <? boundary_pos then hash_children (left ++ [old_mid]) else old_mid,
   if 1 <? new_child_count then hash_children (left ++ [new_mid] ++ new_hashes level) else new_mid).

(** The level loop of [ConsistencyProof::verify]. *)
Fixpoint consistency_levels (i : nat) (lvls : list ConsistencyLevel)
    (old_level_size new_level_size : nat) (old_hash new_hash : hash) : result (hash * hash) TreeError :=
  match lvls with
  | [] => Ok (old_hash, new_hash)
  | level :: lvls =>
    if negb (cl_shared_count level =? expected_shared i old_level_size) ||
       negb (cl_new_count level =? expected_new_count old_level_size new_level_size)
    then Err MathError else
    let (o, n) := consistency_step i level old_level_size old_hash new_hash in
    consistency_levels (S i) lvls (div_ceil old_level_size nary) (div_ceil new_level_size nary) o n
  end.

(** [ConsistencyProof::verify]. *)
Definition verify_consistency (c : ConsistencyProof) : result bool TreeError :=
  if (cp_old_size c =? 0)%N || (cp_new_size c =? 0)%N || (cp_new_size c <? cp_old_size c)%N ||
     (max_depth <? cp_level_count c) then Err MathError else
  if (cp_old_size c =? cp_new_size c)%N then Ok (bool_decide (cp_old_root c = cp_new_root c)) else
  if cp_level_count c =? 0 then Ok false else
  (let? os := u64_to_usize (cp_old_size c) in
   let? ns := u64_to_usize (cp_new_size c) in
   if negb (cp_level_count c =? rounds os ns)
   then Err (InvalidProofDepth (rounds os ns) (cp_level_count c)) else
   let? hs := consistency_levels 0 (take (cp_level_count c) (cp_levels c)) os ns ZERO ZERO in
   Ok (bool_decide (hs.1 = cp_old_root c) && bool_decide (hs.2 = cp_new_root c)))%works.

(** [ConsistencyProof::verify_against]. *)
Definition verify_consistency_against (c : ConsistencyProof) (trusted_old_root trusted_new_root : hash)
    : result bool TreeError :=
  if bool_decide (cp_old_root c = trusted_old_root) && bool_decide (cp_new_root c = trusted_new_root)
  then verify_consistency c else Ok false.

(** [ConsistencyProof::verify_transition]. *)
Definition verify_transition (c : ConsistencyProof) (trusted_old_root : hash) : result bool TreeError :=
  verify_consistency_against c trusted_old_root (cp_new_root c).

(** The loop of [TreeSnapshot::generate_consistency_proof]. *)
Fixpoint generate_consistency_levels (s : TreeSnapshot) (fuel depth old_level_size new_level_size : nat)
    : option (result (list ConsistencyLevel) TreeError) :=
  match fuel with
  | O => Some (Ok [])
  | S fuel =>
    if (1 <? old_level_size) || (1 <? new_level_size) then
      if max_depth <=? depth then Some (Err MathError) else
      let boundary := old_level_size - 1 in
      let boundary_pos := boundary mod nary in
      let group_start := boundary - boundary_pos in
      let shared := expected_shared depth old_level_size in
      let new_count := expected_new_count old_level_size new_level_size in
      lv ← snap_levels s !! depth;
      left ← get_group lv group_start shared (take shared zeros);
      right ← get_group lv (boundary + 1) new_count (slice shared new_count zeros);
      let hashes := splice shared right (splice 0 left zeros) in
      match (let? sc := to_u8 shared in let? nc := to_u8 new_count in
             Ok (MkConsistencyLevel sc nc hashes))%works with
      | Err e => Some (Err e)
      | Ok cl =>
        rs ← generate_consistency_levels s fuel (S depth) (div_ceil old_level_size nary)
               (div_ceil new_level_size nary);
        Some (let? cls := rs in Ok (cl :: cls))%works
      end
    else Some (Ok [])
  end.

(** [TreeSnapshot::generate_consistency_proof]; [None] is a panic. *)
Definition generate_consistency_proof (s : TreeSnapshot) (old_size : N) (old_root : hash)
    : option (result ConsistencyProof TreeError) :=
  if (old_size =? 0)%N || (snap_size s =? 0)%N || (snap_size s <? old_size)%N
  then Some (Err (IndexOutOfRange old_size (snap_size s))) else
  new_root ← snap_root s;
  if (old_size =? snap_size s)%N then
    Some (Ok (MkConsistencyProof old_root new_root old_size (snap_size s) 0
                (replicate max_depth EMPTY_CONSISTENCY)))
  else
  match (let? os := u64_to_usize old_size in let? ns := u64_to_usize (snap_size s) in Ok (os, ns))%works with
  | Err e => Some (Err e)
  | Ok (os, ns) =>
    rs ← generate_consistency_levels s (os + ns) 0 os ns;
    Some (let? cls := rs in
          Ok (MkConsistencyProof old_root new_root old_size (snap_size s) (length cls)
                (cls ++ replicate (max_depth - length cls) EMPTY_CONSISTENCY)))%works
  end.

(** ** Updating an inclusion proof *)

(** The rebuilt level of [update_inclusion_proof], for a member in the boundary group; [None] is
    a slice panic, which a sibling count past the array causes. *)
Definition rebuilt_level (tree_level : nat) (level : ConsistencyLevel) (old_proof : NaryProof)
    (old_level_size member_idx : nat) (new_boundary_hash : hash) : option (result ProofLevel TreeError) :=
  let boundary_pos := (old_level_size - 1) mod nary in
  let member_pos := member_idx mod nary in
  let new_only := cl_new_count level in
  old ← (if tree_level <? np_level_count old_proof
         then old_level ← np_levels old_proof !! tree_level;
              let group_size := pl_sibling_count old_level + 1 in
              let group := splice 0 (take member_pos (pl_siblings old_level)) zeros in
              Some (if member_pos + 1 <? group_size
                    then splice (member_pos + 1)
                           (slice member_pos (group_size - 1 - member_pos) (pl_siblings old_level)) group
                    else group, group_size)
         else Some (zeros, 1));
  let '(group, old_group_size) := old in
  let group := if (0 <? tree_level) && negb (member_pos =? boundary_pos)
               then <[boundary_pos := new_boundary_hash]> group else group in
  let new_group_size := old_group_size + new_only in
  if nary <? new_group_size then None else
  let group := if 0 <? new_only then splice old_group_size (new_hashes level) group else group in
  let siblings := splice 0 (take member_pos group) zeros in
  let siblings := if member_pos + 1 <? new_group_size
                  then splice member_pos (slice (member_pos + 1) (new_group_size - 1 - member_pos) group) siblings
                  else siblings in
  Some (let? position := to_u8 member_pos in
        let? sibling_count := to_u8 (new_group_size - 1) in
        Ok (MkProofLevel position sibling_count siblings))%works.

(** The level loop of [update_inclusion_proof]; it returns the written prefix of [new_levels]. *)
Fixpoint update_levels (tree_level : nat) (lvls : list ConsistencyLevel) (old_proof : NaryProof)
    (old_level_size member_idx : nat) (new_boundary_hash : hash)
    : option (result (list ProofLevel) TreeError) :=
  match lvls with
  | [] => Some (Ok [])
  | level :: lvls =>
    let boundary := old_level_size - 1 in
    r ← (if negb (member_idx / nary =? boundary / nary)
         then Some (Ok (if tree_level <? np_level_count old_proof
                        then default EMPTY_LEVEL (np_levels old_proof !! tree_level) else EMPTY_LEVEL))
         else rebuilt_level tree_level level old_proof old_level_size member_idx new_boundary_hash);
    match r with
    | Err e => Some (Err e)
    | Ok pl =>
      let '(_, nbh) := consistency_step tree_level level old_level_size ZERO new_boundary_hash in
      rs ← update_levels (S tree_level) lvls old_proof (div_ceil old_level_size nary) (member_idx / nary) nbh;
      Some (let? pls := rs in Ok (pl :: pls))%works
    end
  end.

(** [ConsistencyProof::update_inclusion_proof]; [None] is a panic. *)
Definition update_inclusion_proof (c : ConsistencyProof) (old_proof : NaryProof)
    : option (result NaryProof TreeError) :=
  if negb (bool_decide (np_root old_proof = cp_old_root c)) then Some (Err MathError) else
  match verify_consistency c with
  | Err e => Some (Err e)
  | Ok false => Some (Err MathError)
  | Ok true =>
    if (cp_old_size c <=? np_leaf_index old_proof)%N
    then Some (Err (IndexOutOfRange (np_leaf_index old_proof) (cp_old_size c))) else
    if (cp_old_size c =? cp_new_size c)%N then Some (Err NoUpdateNeeded) else
    match (let? os := u64_to_usize (cp_old_size c) in
           let? mi := u64_to_usize (np_leaf_index old_proof) in Ok (os, mi))%works with
    | Err e => Some (Err e)
    | Ok (os, mi) =>
      rs ← update_levels 0 (take (cp_level_count c) (cp_levels c)) old_proof os mi ZERO;
      Some (let? pls := rs in
            Ok (MkNaryProof (cp_new_root c) (np_leaf old_proof) (np_leaf_index old_proof)
                  (cp_new_size c) (cp_level_count c)
                  (pls ++ replicate (max_depth - length pls) EMPTY_LEVEL)))%works
    end
  end.

End proof.
