(* ===== verification/ProofSpec.v ===== *)
(** Correctness of Merkle proofs: generated proofs verify, accepted proofs are about the tree
    they name, and an updated proof is the one the new tree would generate. *)
From S2P Require Import Prelude Hash ChunkedLevel Tree TreeSpec MerkleProof.

Section spec.
Context (nary max_depth : nat) `{H : !Hasher} (Hn : 2 ≤ nary).
Implicit Types (xs g : list hash).

Abbreviation parents := (parents nary).
Abbreviation layer := (layer nary).
Abbreviation tree_depth := (tree_depth nary).
Abbreviation tree_root := (tree_root nary).
Abbreviation stored_layer := (stored_layer nary).
Abbreviation levels_rep := (levels_rep max_depth).
Abbreviation snap_rep := (snap_rep nary max_depth).
Abbreviation zeros := (zeros nary).
Abbreviation to_u8_bound := (nary ≤ 256).

(** ** Specification *)

(** The group a node belongs to. *)
Definition group_at xs (l i : nat) : list hash := slice (i / nary * nary) nary (layer l xs).

(** The children of a group but one, in a zero-filled array. *)
Definition siblings_of g (pos : nat) : list hash :=
  splice pos (drop (pos + 1) g) (splice 0 (take pos g) zeros).

(** The proof of a leaf, as the layers give it. *)
Definition level_proof xs (l i : nat) : ProofLevel :=
  let g := group_at xs l i in
  MkProofLevel (i mod nary) (length g - 1) (siblings_of g (i mod nary)).
Definition inclusion_proof xs (idx : nat) : NaryProof :=
  MkNaryProof (default ZERO (tree_root xs)) (xs !!! idx) (N.of_nat idx) (N.of_nat (length xs)) (tree_depth xs)
    (((λ l, level_proof xs l (idx / nary ^ l)) <$> seq 0 (tree_depth xs)) ++
     replicate (max_depth - tree_depth xs) (EMPTY_LEVEL nary)).

(** The groups hashed while a proof is verified, and those hashed in a tree. *)
Fixpoint verified_groups (lvls : list ProofLevel) (current : hash) : list (list hash) :=
  match lvls with
  | [] => []
  | level :: lvls =>
    if 0 <? pl_sibling_count level then
      let pos := pl_position level in
      let children := take pos (pl_siblings level) ++ [current] ++
        slice pos (pl_sibling_count level - pos) (pl_siblings level) in
      children :: verified_groups lvls (hash_children children)
    else verified_groups lvls current
  end.
Definition proof_groups (p : NaryProof) : list (list hash) :=
  verified_groups (take (np_level_count p) (np_levels p)) (np_leaf p).
Definition tree_groups xs : list (list hash) :=
  mjoin ((λ l, (λ i, slice (i * nary) nary (layer l xs)) <$> seq 0 (length (layer (S l) xs))) <$>
    seq 0 (tree_depth xs)).

(** No group of the first list collides with a different group of the second. *)
Definition collision_free (gs1 gs2 : list (list hash)) : Prop :=
  ∀ g1 g2, g1 ∈ gs1 → g2 ∈ gs2 → hash_children g1 = hash_children g2 → g1 = g2.

(** The sibling counts a tree of that size has along the path of a leaf. *)
Definition well_counted xs (p : NaryProof) : Prop :=
  ∀ l pl, l < np_level_count p → np_levels p !! l = Some pl →
    pl_sibling_count pl = length (group_at xs l (N.to_nat (np_leaf_index p) / nary ^ l)) - 1.

(** ** Lemmas: groups *)

Lemma group_at_spec xs l i :
  i < length (layer l xs) →
  i mod nary < length (group_at xs l i) ≤ nary ∧
  length (group_at xs l i) = Nat.min nary (length (layer l xs) - i / nary * nary) ∧
  group_at xs l i !! (i mod nary) = layer l xs !! i ∧
  layer (S l) xs !! (i / nary) = Some (hash_group (group_at xs l i)).
Proof.
  intros Hi. pose proof (Nat.div_mod_eq i nary) as Hdm. pose proof (Nat.mod_upper_bound i nary ltac:(lia)).
  assert (length (group_at xs l i) = Nat.min nary (length (layer l xs) - i / nary * nary)) as Hl.
  { unfold group_at, slice. rewrite length_take, length_drop. lia. }
  split_and!; [lia|lia|done| |].
  - unfold group_at. rewrite slice_lookup, decide_True by done. f_equal. lia.
  - rewrite layer_S, parents_lookup, decide_True by lia. done.
Qed.

Lemma index_in_layer xs idx l : idx < length xs → idx / nary ^ l < length (layer l xs).
Proof.
  intros Hidx. rewrite length_layer by done. apply div_ceil_lt; [by apply pow_pos|].
  pose proof (Nat.Div0.mul_div_le idx (nary ^ l)). lia.
Qed.

Lemma index_step idx l : idx / nary ^ l / nary = idx / nary ^ S l.
Proof. rewrite Nat.Div0.div_div. f_equal. simpl. lia. Qed.

Lemma hash_group_many g : 2 ≤ length g → hash_group g = hash_children g.
Proof. destruct g as [|x [|y g]]; simpl; done || lia. Qed.

(** A group read through a zero-filled buffer. *)
Lemma buffer_take (g : list hash) k : length g ≤ nary → k ≤ length g → take k (splice 0 g zeros) = take k g.
Proof.
  intros Hg Hk. unfold splice. rewrite take_0. simpl. by rewrite take_app_le.
Qed.

Lemma buffer_slice (g : list hash) o k : o + k ≤ length g → slice o k (splice 0 g zeros) = slice o k g.
Proof.
  intros Hk. unfold splice. rewrite take_0. simpl. apply slice_ext. intros i Hi. apply lookup_app_l. lia.
Qed.

Lemma slice_rest (g : list hash) o : slice o (length g - o) g = drop o g.
Proof. unfold slice. apply take_ge. by rewrite length_drop. Qed.

Lemma length_siblings_of g pos : pos < length g ≤ nary → length (siblings_of g pos) = nary.
Proof.
  intros Hp. unfold siblings_of. rewrite length_splice; rewrite length_splice;
    rewrite ?length_drop, ?length_take; unfold MerkleProof.zeros; rewrite ?length_replicate; lia.
Qed.

(** Putting a child back among its siblings restores the group. *)
Lemma siblings_of_take g pos : pos < length g ≤ nary → take pos (siblings_of g pos) = take pos g.
Proof.
  intros Hp. unfold siblings_of. unfold splice at 1.
  assert (length (splice 0 (take pos g) zeros) = nary) as Hl.
  { rewrite length_splice; rewrite ?length_take; unfold MerkleProof.zeros; rewrite length_replicate; lia. }
  rewrite take_app_le by (rewrite length_take; lia). rewrite take_take, Nat.min_id.
  unfold splice. rewrite take_0. simpl.
  rewrite take_app_le by (rewrite length_take; lia). by rewrite take_take, Nat.min_id.
Qed.

Lemma siblings_of_slice g pos :
  pos < length g ≤ nary → slice pos (length g - pos - 1) (siblings_of g pos) = drop (pos + 1) g.
Proof.
  intros Hp. unfold siblings_of. replace (length g - pos - 1) with (length (drop (pos + 1) g))
    by (rewrite length_drop; lia).
  rewrite slice_splice_eq; [done|done|]. rewrite length_splice; rewrite ?length_take, ?length_drop;
    unfold MerkleProof.zeros; rewrite length_replicate; lia.
Qed.

Lemma siblings_of_restore g pos x :
  pos < length g ≤ nary → g !! pos = Some x →
  take pos (siblings_of g pos) ++ [x] ++ slice pos (length g - pos - 1) (siblings_of g pos) = g.
Proof.
  intros Hp Hx. rewrite siblings_of_take, siblings_of_slice by done.
  rewrite <- (take_drop_middle g pos x) at 3 by done. by rewrite Nat.add_1_r.
Qed.

Lemma to_u8_ok v : v ≤ 255 → to_u8 v = Ok v.
Proof. intros Hv. unfold to_u8. by rewrite (proj2 (Nat.leb_le _ _)). Qed.

(** ** Lemmas: generated inclusion proofs *)

Lemma generate_level_spec s xs l i :
  to_u8_bound → snap_rep s xs → l < tree_depth xs → i < length (layer l xs) →
  generate_level nary s l i = Some (Ok (level_proof xs l i)).
Proof.
  intros Hu Hs Hl Hi. destruct (group_at_spec xs l i Hi) as (Hg & Hgl & Hat & _).
  pose proof (Nat.div_mod_eq i nary) as Hdm. pose proof (Nat.mod_upper_bound i nary ltac:(lia)).
  pose proof (sr_max_depth _ _ _ _ Hs) as Hmd.
  destruct (levels_rep_at nary max_depth Hn _ _ l (sr_levels _ _ _ _ Hs) ltac:(lia)) as (lv & Hlv & Hlr).
  rewrite stored_layer_total in Hlr by lia.
  unfold generate_level. rewrite Hlv. cbn [mbind option_bind].
  rewrite (level_rep_len _ _ Hlr). set (start := i - i mod nary).
  assert (start = i / nary * nary) as Hst by (unfold start; lia).
  set (k := Nat.min (start + nary) (length (layer l xs)) - start).
  assert (k = length (group_at xs l i)) as Hk by (rewrite Hgl; unfold k; lia).
  assert (slice start k (layer l xs) = group_at xs l i) as Hslice.
  { unfold group_at. rewrite <- Hst. apply list_eq. intros j. rewrite !slice_lookup.
    repeat case_decide; try done; [lia|]. symmetry. apply lookup_ge_None_2. lia. }
  rewrite (get_group_spec lv (layer l xs)) by (unfold MerkleProof.zeros; rewrite ?length_replicate; done || lia).
  cbn [mbind option_bind]. rewrite Hslice, buffer_take, buffer_slice, !to_u8_ok by lia. simpl.
  rewrite Hk. unfold level_proof, siblings_of.
  replace (length (group_at xs l i) - i mod nary - 1) with (length (group_at xs l i) - (i mod nary + 1)) by lia.
  by rewrite slice_rest.
Qed.

Lemma generate_levels_spec s xs idx rem l :
  to_u8_bound → snap_rep s xs → idx < length xs → l + rem = tree_depth xs →
  generate_levels nary s rem l (idx / nary ^ l) =
    Some (Ok ((λ l, level_proof xs l (idx / nary ^ l)) <$> seq l rem)).
Proof.
  intros Hu Hs Hidx. revert l. induction rem as [|rem IH]; intros l Hl; [done|]. cbn [generate_levels].
  rewrite generate_level_spec with (xs := xs) by (done || lia || by apply index_in_layer).
  cbn [mbind option_bind]. rewrite index_step, IH by lia. done.
Qed.

Lemma generate_proof_spec s xs idx :
  to_u8_bound → 1 ≤ max_depth → snap_rep s xs → idx < length xs →
  generate_proof nary max_depth s (N.of_nat idx) = Some (Ok (inclusion_proof xs idx)).
Proof.
  intros Hu Hmd1 Hs Hidx. pose proof (sr_max_size _ _ _ _ Hs) as Hms.
  unfold generate_proof. rewrite (sr_size _ _ _ _ Hs), (proj2 (N.leb_gt _ _)) by lia.
  unfold u64_to_usize. rewrite (proj2 (N.leb_le _ _)), Nat2N.id by lia.
  rewrite (sr_depth _ _ _ _ Hs).
  pose proof (generate_levels_spec s xs idx (tree_depth xs) 0 Hu Hs Hidx ltac:(lia)) as Hg.
  rewrite Nat.pow_0_r, Nat.div_1_r in Hg. rewrite Hg. cbn [mbind option_bind].
  rewrite (sr_root _ _ _ _ Hs). destruct (tree_root_Some nary Hn xs) as (r & Hr & _); [by destruct xs; simpl in *; [lia|]|done|].
  destruct (levels_rep_at nary max_depth Hn _ _ 0 (sr_levels _ _ _ _ Hs) ltac:(lia)) as (l0 & Hl0 & Hlr).
  rewrite stored_layer_total in Hlr by lia. rewrite Hr, Hl0. cbn [mbind option_bind].
  rewrite (level_get_spec l0 xs) by done. destruct (lookup_lt_is_Some_2 xs idx Hidx) as [x Hx].
  rewrite Hx. cbn [mbind option_bind result_bind]. unfold inclusion_proof.
  rewrite length_fmap, length_seq, Hr, (list_lookup_total_correct _ _ _ Hx). done.
Qed.

(** ** Lemmas: verification of a generated proof *)

Lemma verify_level_step xs l i lvls x :
  i < length (layer l xs) → layer l xs !! i = Some x →
  verify_levels nary (level_proof xs l i :: lvls) i x =
    verify_levels nary lvls (i / nary) (layer (S l) xs !!! (i / nary)).
Proof.
  intros Hi Hx. destruct (group_at_spec xs l i Hi) as (Hg & Hgl & Hat & Hup).
  cbn [verify_levels]. unfold level_proof. cbn [pl_position pl_sibling_count pl_siblings].
  rewrite Nat.eqb_refl. cbn [negb]. rewrite (list_lookup_total_correct _ _ _ Hup).
  destruct (0 <? length (group_at xs l i) - 1) eqn:Hc; nbool.
  - rewrite (proj2 (Nat.ltb_ge nary _)), (proj2 (Nat.leb_gt _ (i mod nary))) by lia. cbn [orb].
    replace (length (group_at xs l i) - 1 + 1 - i mod nary - 1)
      with (length (group_at xs l i) - i mod nary - 1) by lia.
    rewrite siblings_of_restore by (done || by rewrite Hat). by rewrite hash_group_many by lia.
  - f_equal. assert (length (group_at xs l i) = 1) as H1 by lia.
    assert (i mod nary = 0) as Hp by lia. rewrite Hp, Hx in Hat.
    destruct (group_at xs l i) as [|y [|]]; simpl in *; try done. by simplify_eq.
Qed.

Lemma verify_levels_complete xs idx rem l x :
  idx < length xs → l + rem = tree_depth xs → layer l xs !! (idx / nary ^ l) = Some x →
  verify_levels nary ((λ l, level_proof xs l (idx / nary ^ l)) <$> seq l rem) (idx / nary ^ l) x =
    Ok (layer (tree_depth xs) xs !!! (idx / nary ^ tree_depth xs)).
Proof.
  intros Hidx. revert l x. induction rem as [|rem IH]; intros l x Hl Hx.
  { rewrite Nat.add_0_r in Hl. subst l. simpl. by rewrite (list_lookup_total_correct _ _ _ Hx). }
  cbn [seq]. rewrite fmap_cons, verify_level_step by (done || by apply index_in_layer).
  rewrite index_step. apply IH; [lia|].
  destruct (lookup_lt_is_Some_2 _ _ (index_in_layer xs idx (S l) Hidx)) as [y Hy].
  by rewrite (list_lookup_total_correct _ _ _ Hy).
Qed.

(** Every leaf index is below the one node at the depth. *)
Lemma index_at_depth xs idx :
  (N.of_nat (length xs) ≤ u64_max)%N → idx < length xs → idx / nary ^ tree_depth xs = 0.
Proof.
  intros Hmax Hidx. apply Nat.div_small.
  destruct (ceil_log_n_nat (length xs) nary Hn Hmax) as [Hd _]. unfold Tree.tree_depth. lia.
Qed.

Lemma root_node xs idx :
  (N.of_nat (length xs) ≤ u64_max)%N → idx < length xs →
  tree_root xs = Some (layer (tree_depth xs) xs !!! (idx / nary ^ tree_depth xs)).
Proof.
  intros Hmax Hidx. rewrite index_at_depth by done.
  destruct (tree_root_Some nary Hn xs) as (r & Hr & Hl); [by destruct xs; simpl in *; [lia|]|done|].
  by rewrite Hr, Hl.
Qed.

(** The checks [verify] makes before its loop. *)
Lemma verify_checked p :
  (np_leaf_index p < np_tree_size p)%N → (np_tree_size p ≤ u64_max)%N →
  np_level_count p = ceil_log_n (np_tree_size p) nary → np_level_count p ≤ max_depth →
  verify nary max_depth p =
    (let? current := verify_levels nary (take (np_level_count p) (np_levels p)) (N.to_nat (np_leaf_index p)) (np_leaf p) in
     Ok (bool_decide (current = np_root p)))%works.
Proof.
  intros Hi Hmax Hc Hd. unfold verify.
  rewrite (proj2 (N.eqb_neq _ _)), (proj2 (N.leb_gt _ _)) by lia. cbn [orb].
  rewrite <- Hc, Nat.eqb_refl, (proj2 (Nat.ltb_ge _ _)) by done. cbn [negb orb].
  unfold u64_to_usize. by rewrite (proj2 (N.leb_le _ _)) by lia.
Qed.

Lemma inclusion_levels xs idx :
  take (tree_depth xs) (np_levels (inclusion_proof xs idx)) =
    (λ l, level_proof xs l (idx / nary ^ l)) <$> seq 0 (tree_depth xs).
Proof.
  unfold inclusion_proof. cbn [np_levels]. rewrite take_app_le, take_ge
    by (rewrite length_fmap, length_seq; lia). done.
Qed.

Lemma inclusion_verifies xs idx :
  (N.of_nat (length xs) ≤ u64_max)%N → tree_depth xs ≤ max_depth → idx < length xs →
  verify nary max_depth (inclusion_proof xs idx) = Ok true.
Proof.
  intros Hmax Hd Hidx. rewrite verify_checked by (done || (simpl; lia)).
  change (np_level_count (inclusion_proof xs idx)) with (tree_depth xs). rewrite inclusion_levels.
  cbn [np_leaf_index np_leaf np_root inclusion_proof]. rewrite Nat2N.id.
  destruct (lookup_lt_is_Some_2 xs idx Hidx) as [x Hx]. rewrite (list_lookup_total_correct _ _ _ Hx).
  pose proof (verify_levels_complete xs idx (tree_depth xs) 0 x Hidx ltac:(lia)) as Hv.
  rewrite Nat.pow_0_r, Nat.div_1_r in Hv. rewrite (Hv Hx). simpl.
  rewrite (root_node xs idx Hmax Hidx). simpl. by rewrite bool_decide_true.
Qed.

(** ** Lemmas: soundness of inclusion *)

Lemma group_in_tree xs l i :
  l < tree_depth xs → i < length (layer l xs) → group_at xs l i ∈ tree_groups xs.
Proof.
  intros Hl Hi. unfold tree_groups. apply list_elem_of_join.
  exists ((λ i, slice (i * nary) nary (layer l xs)) <$> seq 0 (length (layer (S l) xs))). split.
  - apply list_elem_of_fmap. exists (i / nary). split; [done|]. apply elem_of_seq. split; [lia|].
    rewrite layer_S, length_parents by done. apply div_ceil_lt; [lia|].
    pose proof (Nat.Div0.mul_div_le i nary). lia.
  - apply (list_elem_of_fmap_2' (λ l, (λ i, slice (i * nary) nary (layer l xs)) <$> seq 0 (length (layer (S l) xs)))
      _ l); [|done]. apply elem_of_seq. lia.
Qed.

Lemma verify_levels_sound xs idx lvls l current :
  idx < length xs → l + length lvls = tree_depth xs →
  Forall (λ pl, length (pl_siblings pl) = nary) lvls →
  (∀ j pl, lvls !! j = Some pl →
    pl_sibling_count pl = length (group_at xs (l + j) (idx / nary ^ (l + j))) - 1) →
  collision_free (verified_groups lvls current) (tree_groups xs) →
  verify_levels nary lvls (idx / nary ^ l) current =
    Ok (layer (tree_depth xs) xs !!! (idx / nary ^ tree_depth xs)) →
  layer l xs !! (idx / nary ^ l) = Some current.
Proof.
  intros Hidx. revert l current. induction lvls as [|level lvls IH]; intros l current Hl Hsh Hcnt Hcf Hv.
  { simpl in Hl, Hv. rewrite Nat.add_0_r in Hl. subst l. injection Hv as ->.
    destruct (lookup_lt_is_Some_2 _ _ (index_in_layer xs idx (tree_depth xs) Hidx)) as [y Hy].
    by rewrite (list_lookup_total_correct _ _ _ Hy). }
  simpl in Hl. apply Forall_cons in Hsh as [Hsib Hsh].
  pose proof (index_in_layer xs idx l Hidx) as Hi.
  destruct (group_at_spec xs l (idx / nary ^ l) Hi) as (Hg & Hgl & Hat & Hup).
  pose proof (Hcnt 0 level eq_refl) as Hc0. rewrite Nat.add_0_r in Hc0.
  assert (∀ j pl, lvls !! j = Some pl →
    pl_sibling_count pl = length (group_at xs (S l + j) (idx / nary ^ (S l + j))) - 1) as Hcnt'.
  { intros j pl Hj. specialize (Hcnt (S j) pl Hj). by replace (S l + j) with (l + S j) by lia. }
  cbn [verify_levels] in Hv. destruct (pl_position level =? (idx / nary ^ l) mod nary) eqn:Hpos; [|done].
  nbool. cbn [negb] in Hv. rewrite index_step in Hv, Hup. rewrite <- Hat. rewrite <- Hpos in *.
  set (g := group_at xs l (idx / nary ^ l)) in *. cbn [verified_groups] in Hcf.
  destruct (0 <? pl_sibling_count level) eqn:Hcount; nbool.
  - rewrite (proj2 (Nat.ltb_ge nary _)), (proj2 (Nat.leb_gt _ (pl_position level))) in Hv by lia.
    cbn [orb] in Hv.
    replace (pl_sibling_count level + 1 - pl_position level - 1)
      with (pl_sibling_count level - pl_position level) in Hv by lia.
    set (children := take (pl_position level) (pl_siblings level) ++ [current] ++ _) in *.
    apply IH in Hv; [|lia|done|done|].
    + rewrite Hup in Hv. injection Hv as Heq. rewrite hash_group_many in Heq by lia.
      assert (children = g) as <-.
      { apply Hcf; [left|apply group_in_tree; [lia|done]|done]. }
      unfold children. rewrite lookup_app_r by (rewrite length_take; lia).
      rewrite length_take, Nat.min_l, Nat.sub_diag by lia. done.
    + intros g1 g2 H1 H2. apply Hcf; [by right|done].
  - apply IH in Hv; [|lia|done..]. rewrite Hup in Hv. injection Hv as <-.
    assert (length g = 1) as Hg1 by lia. assert (pl_position level = 0) as -> by lia.
    destruct g as [|y [|]]; simpl in *; done || lia.
Qed.

(** ** Lemmas: the two sizes of a consistency proof *)

Section consistency.
Context (xs : list hash) (m : nat) (Hm : 1 ≤ m ≤ length xs) (Hmax : (N.of_nat (length xs) ≤ u64_max)%N).

Abbreviation old := (take m xs).

(** The old and the new size of a level, and the last old node on it. *)
Definition os (i : nat) : nat := div_ceil m (nary ^ i).
Definition ns (i : nat) : nat := length (layer i xs).
Definition bnd (i : nat) : nat := os i - 1.

Lemma length_old : length old = m.
Proof. rewrite length_take. lia. Qed.

Lemma os_length i : length (layer i old) = os i.
Proof. rewrite length_layer by done. by rewrite length_old. Qed.

Lemma os_pos i : 0 < os i.
Proof. apply div_ceil_pos; [by apply pow_pos|lia]. Qed.

Lemma os_le_ns i : os i ≤ ns i.
Proof. unfold os, ns. rewrite length_layer by done. apply div_ceil_mono; [by apply pow_pos|lia]. Qed.

Lemma os_S i : div_ceil (os i) nary = os (S i).
Proof.
  unfold os. rewrite div_ceil_div_ceil; [|by apply pow_pos|lia]. f_equal. simpl. lia.
Qed.

Lemma ns_S i : div_ceil (ns i) nary = ns (S i).
Proof. unfold ns. by rewrite layer_S, length_parents. Qed.

Lemma bnd_S i : bnd i / nary = bnd (S i).
Proof.
  unfold bnd. rewrite <- os_S. pose proof (os_pos i) as Hp.
  pose proof (Nat.div_mod_eq (os i - 1) nary). pose proof (Nat.mod_upper_bound (os i - 1) nary ltac:(lia)).
  assert (div_ceil (os i) nary = S ((os i - 1) / nary)) as ->; [|lia]. apply div_ceil_unique; lia.
Qed.

Lemma bnd_0 : bnd 0 = m - 1.
Proof. unfold bnd, os. by rewrite Nat.pow_0_r, div_ceil_1. Qed.

(** Nodes before the last old one are the same in both trees. *)
Lemma shared_nodes i j : j < bnd i → layer i old !! j = layer i xs !! j.
Proof.
  intros Hj. assert (j < m / nary ^ i) as Hlt.
  { unfold bnd, os in Hj. rewrite div_ceil_div in Hj by by apply pow_pos. case_match; lia. }
  pose proof (layer_prefix nary Hn old xs m i) as Hp. rewrite length_old in Hp.
  specialize (Hp ltac:(lia) ltac:(lia)). rewrite take_take, Nat.min_id in Hp. specialize (Hp eq_refl).
  rewrite <- (lookup_take_lt (layer i old) (m / nary ^ i)) by done.
  rewrite Hp. by apply lookup_take_lt.
Qed.

Abbreviation old_group i := (group_at old i (bnd i)).
Abbreviation new_group i := (group_at xs i (bnd i)).
Abbreviation bpos i := (bnd i mod nary).
Abbreviation gstart i := (bnd i / nary * nary).

Lemma bnd_split i : gstart i + bpos i = bnd i ∧ bpos i < nary.
Proof.
  pose proof (Nat.div_mod_eq (bnd i) nary). pose proof (Nat.mod_upper_bound (bnd i) nary ltac:(lia)). lia.
Qed.

Lemma bnd_in_new i : bnd i < length (layer i xs).
Proof. pose proof (os_le_ns i). pose proof (os_pos i). unfold bnd, ns in *. lia. Qed.

Lemma bnd_in_old i : bnd i < length (layer i old).
Proof. rewrite os_length. pose proof (os_pos i). unfold bnd. lia. Qed.

(** The last old node, in the old tree and in the new one. *)
Definition old_node (i : nat) : hash := layer i old !!! bnd i.
Definition new_node (i : nat) : hash := layer i xs !!! bnd i.

Lemma old_node_at i : layer i old !! bnd i = Some (old_node i).
Proof.
  destruct (lookup_lt_is_Some_2 _ _ (bnd_in_old i)) as [x Hx]. unfold old_node.
  by rewrite (list_lookup_total_correct _ _ _ Hx).
Qed.

Lemma new_node_at i : layer i xs !! bnd i = Some (new_node i).
Proof.
  destruct (lookup_lt_is_Some_2 _ _ (bnd_in_new i)) as [x Hx]. unfold new_node.
  by rewrite (list_lookup_total_correct _ _ _ Hx).
Qed.

Lemma leaf_shared : old_node 0 = new_node 0.
Proof.
  unfold old_node, new_node. simpl. rewrite bnd_0, !list_lookup_total_alt. by rewrite lookup_take_lt by lia.
Qed.

Abbreviation new_count i := (expected_new_count nary (os i) (ns i)).
Abbreviation shared_part i := (slice (gstart i) (bpos i) (layer i xs)).
Abbreviation new_part i := (slice (bnd i + 1) (new_count i) (layer i xs)).

Lemma new_count_eq i : new_count i = length (new_group i) - (bpos i + 1).
Proof.
  destruct (group_at_spec xs i (bnd i) (bnd_in_new i)) as (Hg & Hgl & _).
  pose proof (bnd_split i). pose proof (os_le_ns i). pose proof (os_pos i).
  unfold expected_new_count. fold (bnd i). unfold ns, bnd in *. lia.
Qed.

Lemma length_shared_part i : length (shared_part i) = bpos i.
Proof. apply length_slice. pose proof (bnd_split i). pose proof (bnd_in_new i). lia. Qed.

Lemma length_new_part i : length (new_part i) = new_count i.
Proof.
  apply length_slice. pose proof (os_le_ns i). pose proof (os_pos i).
  unfold expected_new_count. fold (bnd i). unfold ns, bnd in *. lia.
Qed.

(** The boundary group in the old tree: the shared nodes, then the last old one. *)
Lemma old_group_eq i : old_group i = shared_part i ++ [old_node i].
Proof.
  pose proof (bnd_split i) as [Hb Hp]. pose proof (os_pos i) as Ho.
  unfold group_at. apply list_eq. intros j. rewrite slice_lookup.
  destruct (decide (j < bpos i)).
  - rewrite lookup_app_l by (rewrite length_shared_part; lia).
    rewrite slice_lookup, !decide_True by lia. apply shared_nodes. lia.
  - rewrite lookup_app_r by (rewrite length_shared_part; lia). rewrite length_shared_part.
    destruct (decide (j = bpos i)) as [->|].
    + rewrite decide_True, Nat.sub_diag, Hb by lia. apply old_node_at.
    + assert ([old_node i] !! (j - bpos i) = None) as -> by (apply lookup_ge_None_2; simpl; lia).
      case_decide; [|done]. apply lookup_ge_None_2. rewrite os_length. unfold bnd in *. lia.
Qed.

(** And in the new tree: followed by the new nodes. *)
Lemma new_group_eq i : new_group i = shared_part i ++ [new_node i] ++ new_part i.
Proof.
  pose proof (bnd_split i) as [Hb Hp]. pose proof (new_count_eq i) as Hc.
  destruct (group_at_spec xs i (bnd i) (bnd_in_new i)) as (Hg & _).
  rewrite app_assoc. assert (shared_part i ++ [new_node i] = slice (gstart i) (bpos i + 1) (layer i xs)) as ->.
  { rewrite Nat.add_1_r. symmetry. apply slice_snoc. rewrite Hb. apply new_node_at. }
  replace (bnd i + 1) with (gstart i + (bpos i + 1)) by lia. rewrite slice_app_add.
  replace (bpos i + 1 + new_count i) with (length (new_group i)) by lia.
  unfold group_at. apply list_eq. intros j. rewrite !slice_lookup.
  destruct (decide (j < length (slice (gstart i) nary (layer i xs)))) as [Hj|Hj].
  - unfold slice in Hj. rewrite length_take in Hj. rewrite decide_True by lia. done.
  - case_decide; [|done]. apply lookup_ge_None_2. unfold slice in Hj. rewrite length_take, length_drop in Hj. lia.
Qed.

Lemma old_node_S i :
  old_node (S i) = if 0 <? bpos i then hash_children (shared_part i ++ [old_node i]) else old_node i.
Proof.
  destruct (group_at_spec old i (bnd i) (bnd_in_old i)) as (_ & _ & _ & Hup).
  rewrite bnd_S, old_node_at in Hup. injection Hup as ->. rewrite old_group_eq.
  pose proof (length_shared_part i) as Hl. destruct (0 <? bpos i) eqn:H0; nbool.
  - apply hash_group_many. rewrite length_app. simpl. lia.
  - by rewrite (nil_length_inv (shared_part i)) by lia.
Qed.

Lemma new_node_S i :
  new_node (S i) = if 1 <? bpos i + 1 + new_count i
    then hash_children (shared_part i ++ [new_node i] ++ new_part i) else new_node i.
Proof.
  destruct (group_at_spec xs i (bnd i) (bnd_in_new i)) as (_ & _ & _ & Hup).
  rewrite bnd_S, new_node_at in Hup. injection Hup as ->. rewrite new_group_eq.
  pose proof (length_shared_part i) as Hl. pose proof (length_new_part i) as Hl2.
  destruct (1 <? bpos i + 1 + new_count i) eqn:H1; nbool.
  - apply hash_group_many. rewrite !length_app. simpl. lia.
  - rewrite (nil_length_inv (shared_part i)), (nil_length_inv (new_part i)) by lia. done.
Qed.

(** At the depth of the new tree both trees have one node. *)
Lemma bnd_depth : bnd (tree_depth xs) = 0.
Proof.
  assert (ns (tree_depth xs) = 1) as H1.
  { unfold ns. apply layer_depth; [done| |done]. destruct xs; simpl in *; [lia|done]. }
  pose proof (os_le_ns (tree_depth xs)). unfold bnd. lia.
Qed.

Lemma new_root_node : tree_root xs = Some (new_node (tree_depth xs)).
Proof.
  destruct (tree_root_Some nary Hn xs) as (r & Hr & Hl); [by destruct xs; simpl in *; [lia|]|done|].
  rewrite Hr. unfold new_node. by rewrite bnd_depth, Hl.
Qed.

(** A single node stays the same on every level above. *)
Lemma parents_single r : parents [r] = [r].
Proof.
  unfold Tree.parents. rewrite div_ceil_small by (simpl; lia). simpl. unfold slice. simpl.
  by destruct nary as [|[|k]]; [lia..|].
Qed.

Lemma layer_above ys r l k : layer l ys = [r] → layer (l + k) ys = [r].
Proof.
  intros Hl. induction k as [|k IH]; [by rewrite Nat.add_0_r|].
  rewrite Nat.add_succ_r, layer_S, IH. apply parents_single.
Qed.

Lemma old_root_node : tree_root old = Some (old_node (tree_depth xs)).
Proof.
  assert (old ≠ []) as Hne by (intros H0; apply (f_equal length) in H0; rewrite length_old in H0; simpl in H0; lia).
  assert (N.of_nat (length old) ≤ u64_max)%N as Hmo by (rewrite length_old; lia).
  destruct (tree_root_Some nary Hn old Hne Hmo) as (r & Hr & Hl).
  assert (tree_depth old ≤ tree_depth xs) as Hd.
  { pose proof (tree_depth_app nary Hn old (drop m xs)) as Hd. rewrite take_drop in Hd. by apply Hd. }
  pose proof (layer_above old r (tree_depth old) (tree_depth xs - tree_depth old) Hl) as Ha.
  replace (tree_depth old + (tree_depth xs - tree_depth old)) with (tree_depth xs) in Ha by lia.
  rewrite Hr. f_equal. unfold old_node. by rewrite bnd_depth, Ha.
Qed.

(** ** Lemmas: generated consistency proofs *)

(** One level of the consistency proof, as the layers give it. *)
Definition consistency_level (i : nat) : ConsistencyLevel :=
  let shared := expected_shared nary i (os i) in
  MkConsistencyLevel shared (new_count i)
    (splice shared (new_part i) (splice 0 (slice (gstart i) shared (layer i xs)) zeros)).

Definition consistency_for (r : hash) : ConsistencyProof :=
  MkConsistencyProof r (default ZERO (tree_root xs))
    (N.of_nat m) (N.of_nat (length xs)) (tree_depth xs)
    ((consistency_level <$> seq 0 (tree_depth xs)) ++
     replicate (max_depth - tree_depth xs) (EMPTY_CONSISTENCY nary)).
Definition consistency_proof : ConsistencyProof := consistency_for (default ZERO (tree_root old)).

Lemma shared_bound i :
  bpos i ≤ expected_shared nary i (os i) ≤ bpos i + 1 ∧
  expected_shared nary i (os i) + new_count i ≤ nary.
Proof.
  pose proof (bnd_split i) as [_ Hp]. pose proof (new_count_eq i) as Hc.
  destruct (group_at_spec xs i (bnd i) (bnd_in_new i)) as (Hg & _).
  unfold expected_shared. fold (bnd i). case_match; lia.
Qed.

Lemma length_consistency_hashes i : length (cl_hashes (consistency_level i)) = nary.
Proof.
  pose proof (shared_bound i) as [Hs Hs']. pose proof (bnd_split i) as [Hb _]. pose proof (bnd_in_new i).
  assert (length (slice (gstart i) (expected_shared nary i (os i)) (layer i xs)) = expected_shared nary i (os i)) as Hl.
  { apply length_slice. lia. }
  unfold consistency_level. cbn [cl_hashes].
  rewrite length_splice; rewrite length_splice; rewrite ?length_new_part, ?Hl; unfold MerkleProof.zeros;
    rewrite length_replicate; lia.
Qed.

Lemma consistency_left i : take (bpos i) (cl_hashes (consistency_level i)) = shared_part i.
Proof.
  pose proof (shared_bound i) as [Hs Hs']. pose proof (bnd_split i) as [Hb _]. pose proof (bnd_in_new i).
  set (sh := expected_shared nary i (os i)) in *. unfold consistency_level. fold sh. cbn [cl_hashes].
  assert (length (slice (gstart i) sh (layer i xs)) = sh) as Hl by (apply length_slice; lia).
  unfold splice at 1. rewrite take_app_le.
  2: { rewrite length_take, length_splice; rewrite ?Hl; unfold MerkleProof.zeros; rewrite length_replicate; lia. }
  rewrite take_take, Nat.min_l by lia. rewrite buffer_take by (rewrite Hl; lia).
  rewrite <- slice_0, slice_slice by lia. by rewrite Nat.add_0_r.
Qed.

Lemma consistency_new i : new_hashes (consistency_level i) = new_part i.
Proof.
  pose proof (shared_bound i) as [Hs Hs']. pose proof (bnd_split i) as [Hb _]. pose proof (bnd_in_new i).
  unfold new_hashes, consistency_level. cbn [cl_hashes cl_shared_count cl_new_count].
  set (sh := expected_shared nary i (os i)) in *.
  assert (length (slice (gstart i) sh (layer i xs)) = sh) as Hl by (apply length_slice; lia).
  apply slice_splice_eq; [apply length_new_part|].
  rewrite length_splice; rewrite ?Hl; unfold MerkleProof.zeros; rewrite length_replicate; lia.
Qed.

Lemma consistency_mid : cl_hashes (consistency_level 0) !!! bpos 0 = new_node 0.
Proof.
  pose proof (shared_bound 0) as [Hs Hs']. pose proof (bnd_split 0) as [Hb _]. pose proof (bnd_in_new 0).
  apply list_lookup_total_correct. unfold consistency_level. cbn [cl_hashes].
  set (sh := expected_shared nary 0 (os 0)) in *.
  assert (sh = bpos 0 + 1) as Hsh by done.
  assert (length (slice (gstart 0) sh (layer 0 xs)) = sh) as Hl by (apply length_slice; lia).
  rewrite splice_lookup.
  2: { rewrite length_new_part, length_splice; rewrite ?Hl; unfold MerkleProof.zeros; rewrite length_replicate; lia. }
  rewrite decide_False, splice_lookup by (rewrite ?Hl; unfold MerkleProof.zeros; rewrite ?length_replicate; lia).
  rewrite decide_True, Nat.sub_0_r, slice_lookup, decide_True, Hb by lia. apply new_node_at.
Qed.

(** One level lifts the pair of boundary nodes by one. *)
Lemma consistency_step_spec i o n :
  (i = 0 ∨ o = old_node i ∧ n = new_node i) →
  consistency_step nary i (consistency_level i) (os i) o n = (old_node (S i), new_node (S i)).
Proof.
  intros Hon. unfold consistency_step. fold (bnd i). rewrite consistency_left, consistency_new.
  change (cl_new_count (consistency_level i)) with (new_count i). rewrite old_node_S, new_node_S.
  destruct (i =? 0) eqn:Hi; nbool.
  - subst i. rewrite consistency_mid, leaf_shared. done.
  - destruct Hon as [|[-> ->]]; done.
Qed.

Lemma consistency_levels_complete rem i o n :
  i + rem = tree_depth xs → (i = 0 ∧ 0 < rem ∨ o = old_node i ∧ n = new_node i) →
  consistency_levels nary i (consistency_level <$> seq i rem) (os i) (ns i) o n =
    Ok (old_node (tree_depth xs), new_node (tree_depth xs)).
Proof.
  revert i o n. induction rem as [|rem IH]; intros i o n Hi Hon; simpl.
  { rewrite Nat.add_0_r in Hi. subst i. destruct Hon as [[? ?]|[-> ->]]; [lia|done]. }
  rewrite !Nat.eqb_refl. simpl. rewrite consistency_step_spec by tauto.
  rewrite os_S, ns_S. apply IH; [lia|auto].
Qed.

(** The rounds are the depth of the larger tree. *)
Lemma rounds_loop_spec fuel a b :
  a ≤ b → b ≤ fuel → (N.of_nat b ≤ u64_max)%N → rounds_loop nary fuel a b = ceil_log_n (N.of_nat b) nary.
Proof.
  revert a b. induction fuel as [|fuel IH]; intros a b Hab Hb Hbm; simpl.
  { rewrite ceil_log_n_small; [done|lia]. }
  destruct ((1 <? a) || (1 <? b)) eqn:Hone.
  - assert (1 < b) as H1 by (apply orb_true_iff in Hone as [?|?]; nbool; lia).
    assert (div_ceil b nary < b) as Hlt by (pose proof (div_ceil_spec b nary); nia).
    rewrite IH; [|by apply div_ceil_mono; lia|lia|lia].
    destruct (ceil_log_n_nat (div_ceil b nary) nary Hn ltac:(lia)) as [_ H2].
    destruct (ceil_log_n_nat b nary Hn Hbm) as [_ H3].
    assert (∀ j, b ≤ nary ^ S j ↔ div_ceil b nary ≤ nary ^ j) as Hj.
    { intros j. pose proof (div_ceil_spec b nary ltac:(lia)). split.
      - intros Hle. apply div_ceil_le_mul; [lia|]. simpl in Hle. lia.
      - intros Hle. simpl. nia. }
    apply Nat.le_antisymm.
    + destruct (ceil_log_n (N.of_nat b) nary) as [|k] eqn:Hk; [exfalso|].
      * pose proof (proj2 (H3 0) ltac:(lia)). simpl in *. lia.
      * apply le_n_S, H2, Hj, H3. lia.
    + apply H3, Hj, H2. done.
  - apply orb_false_iff in Hone as [Ha1 Hb1]. nbool. rewrite ceil_log_n_small; [done|lia].
Qed.

Lemma rounds_depth : rounds nary m (length xs) = tree_depth xs.
Proof. unfold rounds. apply rounds_loop_spec; lia. Qed.

Lemma os_0 : os 0 = m.
Proof. unfold os. by rewrite Nat.pow_0_r, div_ceil_1. Qed.

Lemma consistency_prefix r :
  take (tree_depth xs) (cp_levels (consistency_for r)) = consistency_level <$> seq 0 (tree_depth xs).
Proof.
  unfold consistency_for. cbn [cp_levels].
  rewrite take_app_le, take_ge by (rewrite length_fmap, length_seq; lia). done.
Qed.

Lemma depth_pos : m < length xs → 0 < tree_depth xs.
Proof.
  intros Hlt. destruct (decide (tree_depth xs = 0)) as [H0|]; [exfalso|lia].
  destruct (ceil_log_n_nat (length xs) nary Hn Hmax) as [Hp _]. unfold Tree.tree_depth in H0.
  rewrite H0 in Hp. simpl in Hp. lia.
Qed.

(** The checks [verify] makes before its loop. *)
Lemma verify_consistency_checked c :
  cp_old_size c = N.of_nat m → cp_new_size c = N.of_nat (length xs) → m < length xs →
  cp_level_count c = tree_depth xs → tree_depth xs ≤ max_depth →
  verify_consistency nary max_depth c =
    (let? hs := consistency_levels nary 0 (take (tree_depth xs) (cp_levels c)) (os 0) (ns 0) ZERO ZERO in
     Ok (bool_decide (hs.1 = cp_old_root c) && bool_decide (hs.2 = cp_new_root c)))%works.
Proof.
  intros Ho Hnw Hlt Hc Hd. unfold verify_consistency. rewrite Ho, Hnw, Hc.
  rewrite !(proj2 (N.eqb_neq _ _)), (proj2 (N.ltb_ge _ _)), (proj2 (Nat.ltb_ge _ _)) by lia. cbn [orb].
  pose proof (depth_pos Hlt) as Hpos.
  rewrite (proj2 (Nat.eqb_neq _ _)) by lia. unfold u64_to_usize.
  rewrite !(proj2 (N.leb_le _ _)), !Nat2N.id by lia. cbn [result_bind].
  rewrite rounds_depth, Nat.eqb_refl. cbn [negb]. by rewrite os_0.
Qed.

(** A generated proof verifies exactly for the root of the old tree. *)
Lemma consistency_verifies r :
  tree_depth xs ≤ max_depth → m < length xs →
  verify_consistency nary max_depth (consistency_for r) = Ok (bool_decide (tree_root old = Some r)).
Proof.
  intros Hd Hlt. rewrite verify_consistency_checked by (done || lia). rewrite consistency_prefix.
  rewrite consistency_levels_complete by (auto using depth_pos; lia). cbn [result_bind fst snd].
  cbn [cp_old_root cp_new_root consistency_for]. rewrite old_root_node, new_root_node. cbn [default].
  rewrite (bool_decide_true (new_node _ = _)), andb_true_r by done.
  f_equal. apply bool_decide_ext. split; congruence.
Qed.

Lemma ns_depth : ns (tree_depth xs) = 1.
Proof.
  unfold ns. apply layer_depth; [done| |done]. destruct xs; simpl in *; [lia|done].
Qed.

Lemma generate_consistency_levels_spec s fuel i :
  nary ≤ 255 → snap_rep s xs → i ≤ tree_depth xs → ns i ≤ fuel →
  generate_consistency_levels nary max_depth s fuel i (os i) (ns i) =
    Some (Ok (consistency_level <$> seq i (tree_depth xs - i))).
Proof.
  intros Hu Hs. pose proof (sr_max_depth _ _ _ _ Hs) as Hmd.
  revert i. induction fuel as [|fuel IH]; intros i Hi Hf.
  { pose proof (os_le_ns i). pose proof (os_pos i). lia. }
  cbn [generate_consistency_levels]. pose proof (os_le_ns i) as Hle. pose proof (os_pos i) as Hop.
  destruct (decide (i = tree_depth xs)) as [->|Hne].
  { rewrite ns_depth in *. assert (os (tree_depth xs) = 1) as -> by lia. simpl. by rewrite Nat.sub_diag. }
  pose proof (layer_below_depth nary Hn xs i Hmax ltac:(lia)) as Hbig. fold (ns i) in Hbig.
  rewrite (proj2 (Nat.ltb_lt 1 (ns i))) by done. rewrite orb_true_r.
  rewrite (proj2 (Nat.leb_gt _ _)) by lia. fold (bnd i).
  pose proof (bnd_split i) as [Hb Hbl]. pose proof (shared_bound i) as [Hsh Hsh']. pose proof (bnd_in_new i) as Hbn.
  set (sh := expected_shared nary i (os i)) in *. set (nc := new_count i) in *. cbn zeta.
  destruct (levels_rep_at nary max_depth Hn _ _ i (sr_levels _ _ _ _ Hs) ltac:(lia)) as (lv & Hlv & Hlr).
  rewrite stored_layer_total in Hlr by lia. rewrite Hlv. cbn [mbind option_bind].
  replace (bnd i - bnd i mod nary) with (gstart i) by lia.
  assert (length (new_part i) = nc) as Hnp by apply length_new_part.
  assert (bnd i + 1 + nc ≤ length (layer i xs)) as Hnc.
  { unfold nc, expected_new_count. fold (bnd i). unfold ns in *. lia. }
  rewrite (get_group_spec lv (layer i xs) (gstart i) sh) by (unfold MerkleProof.zeros;
    rewrite ?length_take, ?length_replicate; done || lia).
  cbn [mbind option_bind].
  rewrite (get_group_spec lv (layer i xs) (bnd i + 1) nc); [|done|done|].
  2: { rewrite length_slice; [done|]. unfold MerkleProof.zeros. rewrite length_replicate. lia. }
  cbn [mbind option_bind]. rewrite !to_u8_ok by lia. cbn [result_bind].
  rewrite os_S, ns_S, IH; [|lia|].
  2: { rewrite <- ns_S. pose proof (div_ceil_spec (ns i) nary). nia. }
  cbn [mbind option_bind result_bind].
  replace (tree_depth xs - i) with (S (tree_depth xs - S i)) by lia. simpl. do 3 f_equal.
  unfold consistency_level. fold sh nc. f_equal.
  assert (length (slice (gstart i) sh (layer i xs)) = sh) as Hl by (apply length_slice; lia).
  rewrite (splice_whole (new_part i)), (splice_whole (slice (gstart i) sh (layer i xs)));
    rewrite ?Hl, ?Hnp, ?length_take, ?length_slice; unfold MerkleProof.zeros; rewrite ?length_replicate; done || lia.
Qed.

Lemma generate_consistency_spec s r :
  nary ≤ 255 → snap_rep s xs → m < length xs →
  generate_consistency_proof nary max_depth s (N.of_nat m) r = Some (Ok (consistency_for r)).
Proof.
  intros Hu Hs Hlt. unfold generate_consistency_proof.
  rewrite (sr_size _ _ _ _ Hs), !(proj2 (N.eqb_neq _ _)), (proj2 (N.ltb_ge _ _)) by lia. cbn [orb].
  rewrite (sr_root _ _ _ _ Hs), new_root_node. cbn [mbind option_bind].
  unfold u64_to_usize. rewrite !(proj2 (N.leb_le _ _)), !Nat2N.id by lia. cbn [result_bind].
  pose proof (generate_consistency_levels_spec s (m + length xs) 0 Hu Hs ltac:(lia)) as Hg.
  rewrite os_0 in Hg. change (ns 0) with (length xs) in Hg. rewrite Hg, Nat.sub_0_r by lia.
  cbn [mbind option_bind result_bind]. rewrite length_fmap, length_seq.
  unfold consistency_for. rewrite new_root_node. done.
Qed.

(** ** Lemmas: soundness of consistency *)

(** The groups of the new tree hashed while a consistency proof is verified. *)
Fixpoint consistency_groups (i : nat) (lvls : list ConsistencyLevel) (old_level_size new_level_size : nat)
    (o n : hash) : list (list hash) :=
  match lvls with
  | [] => []
  | level :: lvls =>
    let boundary_pos := (old_level_size - 1) mod nary in
    let new_mid := if i =? 0 then cl_hashes level !!! boundary_pos else n in
    let group := take boundary_pos (cl_hashes level) ++ [new_mid] ++ new_hashes level in
    let (o', n') := consistency_step nary i level old_level_size o n in
    (if 1 <? boundary_pos + 1 + cl_new_count level then [group] else []) ++
    consistency_groups (S i) lvls (div_ceil old_level_size nary) (div_ceil new_level_size nary) o' n'
  end.

Definition consistency_proof_groups (c : ConsistencyProof) : list (list hash) :=
  consistency_groups 0 (take (cp_level_count c) (cp_levels c)) (N.to_nat (cp_old_size c))
    (N.to_nat (cp_new_size c)) ZERO ZERO.

Lemma consistency_levels_sound lvls i o n o' n' :
  i + length lvls = tree_depth xs → Forall (λ cl, length (cl_hashes cl) = nary) lvls →
  collision_free (consistency_groups i lvls (os i) (ns i) o n) (tree_groups xs) →
  consistency_levels nary i lvls (os i) (ns i) o n = Ok (o', n') → n' = new_node (tree_depth xs) →
  (0 < i ∨ lvls = [] → n = new_node i ∧ (o = old_node i → o' = old_node (tree_depth xs))) ∧
  (i = 0 → lvls ≠ [] → o' = old_node (tree_depth xs)).
Proof.
  revert i o n. induction lvls as [|level lvls IH]; intros i o n Hi Hsh Hcf Hv Hroot.
  { simpl in Hi, Hv. rewrite Nat.add_0_r in Hi. injection Hv as -> ->. subst i. split; [|done].
    intros _. split; [done|]. by intros ->. }
  apply Forall_cons in Hsh as [Hsib Hsh]. simpl in Hi. cbn [consistency_levels] in Hv.
  destruct (cl_shared_count level =? expected_shared nary i (os i)) eqn:Hs; [|done].
  destruct (cl_new_count level =? new_count i) eqn:Hc; [|done]. cbn [negb orb] in Hv. nbool.
  cbn [consistency_groups] in Hcf.
  destruct (consistency_step nary i level (os i) o n) as [o1 n1] eqn:Hstep.
  rewrite os_S, ns_S in Hv, Hcf.
  destruct (IH (S i) o1 n1) as [IHn _]; [lia|done| |done|done|].
  { intros g1 g2 H1 H2. apply Hcf; [|done]. apply elem_of_app. by right. }
  destruct IHn as [Hn1 Ho1]; [left; lia|].
  pose proof (shared_bound i) as [Hsb Hsb']. pose proof (bnd_split i) as [Hb Hbl].
  fold (bnd i) in Hcf. rewrite Hc in Hcf.
  set (left := take (bpos i) (cl_hashes level)) in *. set (mid := cl_hashes level !!! bpos i) in *.
  set (nm := if i =? 0 then mid else n) in *. set (om := if i =? 0 then mid else o).
  assert (o1 = (if 0 <? bpos i then hash_children (left ++ [om]) else om) ∧
    n1 = (if 1 <? bpos i + 1 + new_count i then hash_children (left ++ [nm] ++ new_hashes level) else nm))
    as [Ho1' Hn1'].
  { unfold consistency_step in Hstep. fold (bnd i) in Hstep. rewrite Hc in Hstep. fold left mid in Hstep.
    unfold om, nm. destruct (i =? 0); injection Hstep as <- <-; done. }
  assert (length left = bpos i) as Hleft by (unfold left; rewrite length_take; lia).
  assert (nm = new_node i ∧ left = shared_part i) as [Hnm Hls].
  { rewrite Hn1, new_node_S in Hn1'. destruct (1 <? bpos i + 1 + new_count i) eqn:H1.
    - assert (left ++ [nm] ++ new_hashes level = new_group i) as Heq.
      { apply Hcf; [by left|apply group_in_tree; [lia|apply bnd_in_new]|]. by rewrite new_group_eq, <- Hn1'. }
      rewrite new_group_eq in Heq. apply app_inj_1 in Heq as [-> Heq]; [|by rewrite length_shared_part].
      by simplify_eq/=.
    - nbool. split; [done|]. rewrite (nil_length_inv left), (nil_length_inv (shared_part i)); [done|..].
      + rewrite length_shared_part. lia.
      + lia. }
  assert (om = old_node i → o' = old_node (tree_depth xs)) as Hold.
  { intros Hom. apply Ho1. rewrite Ho1', old_node_S, Hom, Hls. done. }
  unfold om, nm in *. destruct (i =? 0) eqn:Hi0; nbool.
  - subst i. split; [intros [|]; [lia|done]|]. intros _ _. apply Hold. by rewrite Hnm, leaf_shared.
  - split; [done|lia].
Qed.

(** ** Lemmas: updating an inclusion proof *)

(** A buffer that holds a group except at the member's place gives the member's siblings. *)
Lemma member_siblings (buf g : list hash) mp :
  mp < length g ≤ nary → length buf = nary → (∀ j, j < length g → j ≠ mp → buf !! j = g !! j) →
  (if mp + 1 <? length g
   then splice mp (slice (mp + 1) (length g - 1 - mp) buf) (splice 0 (take mp buf) zeros)
   else splice 0 (take mp buf) zeros) = siblings_of g mp.
Proof.
  intros Hmp Hl Heq. assert (take mp buf = take mp g) as ->.
  { apply (slice_ext 0). intros j Hj. apply Heq; lia. }
  unfold siblings_of. destruct (mp + 1 <? length g) eqn:Hlt; nbool.
  - f_equal. rewrite <- slice_rest. replace (length g - 1 - mp) with (length g - (mp + 1)) by lia.
    apply slice_ext. intros j Hj. apply Heq; lia.
  - rewrite drop_ge, splice_nil by lia. done.
Qed.

Context (idx : nat) (Hidx : idx < m).

Abbreviation mi l := (idx / nary ^ l).
Abbreviation mpos l := (mi l mod nary).

Lemma member_le_bnd l : mi l ≤ bnd l.
Proof.
  assert (idx < length old) as Ho by by rewrite length_old.
  pose proof (index_in_layer old idx l Ho) as Hi. rewrite os_length in Hi. unfold bnd. lia.
Qed.

(** Above the old depth there is one old node. *)
Lemma above_old_depth l : tree_depth old ≤ l → os l = 1.
Proof.
  intros Hl. assert (old ≠ []) as Hne by (intros H0; apply (f_equal length) in H0; rewrite length_old in H0; simpl in H0; lia).
  destruct (tree_root_Some nary Hn old Hne) as (r & _ & Hr); [rewrite length_old; lia|].
  pose proof (layer_above old r (tree_depth old) (l - tree_depth old) Hr) as Ha.
  replace (tree_depth old + (l - tree_depth old)) with l in Ha by lia. by rewrite <- os_length, Ha.
Qed.

Lemma inclusion_level_at ys j l :
  l < tree_depth ys → np_levels (inclusion_proof ys j) !! l = Some (level_proof ys l (j / nary ^ l)).
Proof.
  intros Hl. unfold inclusion_proof. cbn [np_levels]. rewrite lookup_app_l by (rewrite length_fmap, length_seq; lia).
  by rewrite list_lookup_fmap, lookup_seq_lt by lia.
Qed.

(** Outside the boundary group the old level is the new one. *)
Lemma outside_boundary l :
  mi l / nary ≠ bnd l / nary → l < tree_depth old ∧ level_proof old l (mi l) = level_proof xs l (mi l).
Proof.
  intros Hne. pose proof (member_le_bnd l) as Hle. pose proof (bnd_split l) as [Hb _].
  assert (mi l / nary < bnd l / nary) as Hlt by (pose proof (Nat.Div0.div_le_mono (mi l) (bnd l) nary Hle); lia).
  apply lt_div_mul in Hlt. split.
  - destruct (decide (l < tree_depth old)) as [|Hge]; [done|exfalso].
    pose proof (above_old_depth l ltac:(lia)) as H1. unfold bnd in Hlt. lia.
  - unfold level_proof. assert (group_at old l (mi l) = group_at xs l (mi l)) as ->; [|done].
    unfold group_at. apply slice_ext. intros j Hj. apply shared_nodes. lia.
Qed.

(** The old siblings of a member of the boundary group, read back from its old proof. *)
Lemma old_group_buffer l :
  mi l / nary = bnd l / nary →
  ∃ buf, (if l <? np_level_count (inclusion_proof old idx)
     then old_level ← np_levels (inclusion_proof old idx) !! l;
          let group_size := pl_sibling_count old_level + 1 in
          let group := splice 0 (take (mpos l) (pl_siblings old_level)) zeros in
          Some (if mpos l + 1 <? group_size
                then splice (mpos l + 1)
                       (slice (mpos l) (group_size - 1 - mpos l) (pl_siblings old_level)) group
                else group, group_size)
     else Some (zeros, 1)) = Some (buf, bpos l + 1) ∧
    length buf = nary ∧ ∀ j, j < bpos l + 1 → j ≠ mpos l → buf !! j = old_group l !! j.
Proof.
  intros Hsame. change (np_level_count (inclusion_proof old idx)) with (tree_depth old).
  pose proof (member_le_bnd l) as Hle. pose proof (bnd_split l) as [Hb Hbl].
  pose proof (Nat.div_mod_eq (mi l) nary) as Hdm.
  assert (length (old_group l) = bpos l + 1) as Hlg.
  { rewrite old_group_eq, length_app, length_shared_part. done. }
  destruct (l <? tree_depth old) eqn:Hd; nbool.
  - rewrite inclusion_level_at by done. cbn [mbind option_bind].
    unfold level_proof. cbn [pl_sibling_count pl_siblings].
    assert (group_at old l (mi l) = old_group l) as -> by (unfold group_at; by rewrite Hsame).
    set (g := old_group l) in *. assert (mpos l < length g ≤ nary) as Hmp by lia.
    rewrite Hlg. replace (bpos l + 1 - 1 + 1) with (bpos l + 1) by lia.
    rewrite siblings_of_take by done.
    replace (bpos l + 1 - 1 - mpos l) with (length g - mpos l - 1) by lia.
    rewrite siblings_of_slice by done.
    set (pre := splice 0 (take (mpos l) g) zeros).
    assert (length pre = nary) as Hpre.
    { unfold pre. rewrite length_splice; rewrite ?length_take; unfold MerkleProof.zeros; rewrite length_replicate; lia. }
    assert (∀ j, j < mpos l → pre !! j = g !! j) as Hprej.
    { intros j Hj. unfold pre. rewrite splice_lookup by (rewrite length_take; unfold MerkleProof.zeros; rewrite length_replicate; lia).
      rewrite decide_True, Nat.sub_0_r by (rewrite length_take; lia). by apply lookup_take_lt. }
    eexists. split; [reflexivity|]. destruct (mpos l + 1 <? bpos l + 1) eqn:Hlt; nbool.
    + split; [rewrite length_splice; rewrite ?length_drop; lia|]. intros j Hj Hjne.
      rewrite splice_lookup by (rewrite length_drop; lia). rewrite length_drop.
      case_decide; [|apply Hprej; lia]. rewrite lookup_drop. f_equal. lia.
    + split; [done|]. intros j Hj Hjne. apply Hprej. lia.
  - pose proof (above_old_depth l ltac:(lia)) as H1. unfold bnd in *. rewrite H1 in *. simpl in *.
    rewrite Nat.Div0.mod_0_l in *. eexists. split; [done|]. split; [apply length_replicate|]. intros j Hj Hjne. lia.
Qed.

Lemma rebuilt_level_spec l nbh :
  nary ≤ 256 → mi l / nary = bnd l / nary → (l = 0 ∨ nbh = new_node l) →
  rebuilt_level nary l (consistency_level l) (inclusion_proof old idx) (os l) (mi l) nbh =
    Some (Ok (level_proof xs l (mi l))).
Proof.
  intros Hu Hsame Hnbh. pose proof (member_le_bnd l) as Hle. pose proof (bnd_split l) as [Hb Hbl].
  pose proof (Nat.div_mod_eq (mi l) nary) as Hdm.
  destruct (group_at_spec xs l (bnd l) (bnd_in_new l)) as (Hg & _). pose proof (new_count_eq l) as Hc.
  destruct (old_group_buffer l Hsame) as (buf & Hbuf & Hlb & Hbj).
  unfold rebuilt_level. fold (bnd l). cbn zeta in Hbuf |- *. rewrite Hbuf. cbn [mbind option_bind].
  rewrite consistency_new. change (cl_new_count (consistency_level l)) with (new_count l).
  assert (group_at xs l (mi l) = new_group l) as Hgm by (unfold group_at; by rewrite Hsame).
  set (buf1 := if (0 <? l) && negb (mpos l =? bpos l) then <[bpos l := nbh]> buf else buf).
  assert (length buf1 = nary) as Hlb1 by (unfold buf1; destruct (_ && _); rewrite ?length_insert; done).
  assert (∀ j, j < bpos l + 1 → j ≠ mpos l → buf1 !! j = new_group l !! j) as Hb1.
  { intros j Hj Hjne. pose proof (length_shared_part l) as Hlsp. rewrite new_group_eq.
    assert (j < bpos l → buf1 !! j = (shared_part l ++ [new_node l] ++ new_part l) !! j) as Hlow.
    { intros Hj'. rewrite lookup_app_l by lia. transitivity (buf !! j).
      - unfold buf1. destruct (_ && _); [|done]. by rewrite list_lookup_insert_ne by lia.
      - rewrite Hbj, old_group_eq by done. by rewrite lookup_app_l by lia. }
    destruct (decide (j < bpos l)) as [|Hge]; [by apply Hlow|]. assert (j = bpos l) as -> by lia.
    rewrite lookup_app_r, Hlsp, Nat.sub_diag by lia. cbn [app lookup list_lookup].
    unfold buf1. rewrite (proj2 (Nat.eqb_neq (mpos l) (bpos l))) by lia. rewrite andb_true_r.
    destruct (0 <? l) eqn:H0; nbool.
    - rewrite list_lookup_insert_eq by lia. by destruct Hnbh as [| ->]; [lia|].
    - assert (l = 0) as -> by lia. rewrite Hbj, old_group_eq by lia.
      pose proof (length_shared_part 0) as Hl0. rewrite lookup_app_r, Hl0, Nat.sub_diag by lia.
      cbn [lookup list_lookup]. by rewrite leaf_shared. }
  rewrite (proj2 (Nat.ltb_ge nary _)) by lia.
  set (buf2 := if 0 <? new_count l then splice (bpos l + 1) (new_part l) buf1 else buf1).
  pose proof (length_new_part l) as Hlnp.
  assert (bpos l + 1 + length (new_part l) ≤ length buf1) as Hfit by (rewrite Hlnp, Hlb1; clear -Hc Hg; lia).
  assert (length buf2 = nary) as Hlb2.
  { unfold buf2. destruct (0 <? new_count l); [|done]. by rewrite length_splice. }
  assert (∀ j, j < length (new_group l) → j ≠ mpos l → buf2 !! j = new_group l !! j) as Hb2.
  { intros j Hj Hjne. unfold buf2. destruct (0 <? new_count l) eqn:H0; nbool; [|apply Hb1; lia].
    rewrite splice_lookup by lia. case_decide as Hin; [|apply Hb1; lia].
    pose proof (length_shared_part l) as Hlsp. rewrite new_group_eq.
    rewrite lookup_app_r, (lookup_app_r [_]) by (simpl; lia). f_equal. simpl. lia. }
  assert (bpos l + 1 + new_count l = length (new_group l)) as -> by lia.
  rewrite member_siblings by (done || lia). rewrite !to_u8_ok by lia. cbn [result_bind].
  unfold level_proof. by rewrite Hgm.
Qed.

(** The new hash does not depend on the old one. *)
Lemma consistency_step_new i level k o o' n :
  (consistency_step nary i level k o n).2 = (consistency_step nary i level k o' n).2.
Proof. unfold consistency_step. by destruct (i =? 0). Qed.

Lemma update_levels_spec rem l nbh :
  nary ≤ 256 → l + rem = tree_depth xs → (l = 0 ∨ nbh = new_node l) →
  update_levels nary l (consistency_level <$> seq l rem) (inclusion_proof old idx) (os l) (mi l) nbh =
    Some (Ok ((λ l, level_proof xs l (mi l)) <$> seq l rem)).
Proof.
  intros Hu. revert l nbh. induction rem as [|rem IH]; intros l nbh Hl Hnbh; [done|].
  cbn [seq]. rewrite !fmap_cons. cbn [update_levels]. fold (bnd l).
  assert ((if negb (mi l / nary =? bnd l / nary)
     then Some (Ok (if l <? np_level_count (inclusion_proof old idx)
        then default (EMPTY_LEVEL nary) (np_levels (inclusion_proof old idx) !! l) else EMPTY_LEVEL nary))
     else rebuilt_level nary l (consistency_level l) (inclusion_proof old idx) (os l) (mi l) nbh) =
    Some (Ok (level_proof xs l (mi l)))) as ->.
  { destruct (mi l / nary =? bnd l / nary) eqn:Hsame; nbool; cbn [negb].
    - by apply rebuilt_level_spec.
    - destruct (outside_boundary l Hsame) as [Hd Heq].
      change (np_level_count (inclusion_proof old idx)) with (tree_depth old).
      rewrite (proj2 (Nat.ltb_lt _ _)), inclusion_level_at by done. simpl. by rewrite Heq. }
  cbn [mbind option_bind].
  assert ((consistency_step nary l (consistency_level l) (os l) ZERO nbh).2 = new_node (S l)) as Hstep.
  { rewrite (consistency_step_new _ _ _ _ (old_node l)).
    destruct Hnbh as [->| ->]; by rewrite consistency_step_spec by auto. }
  destruct (consistency_step nary l (consistency_level l) (os l) ZERO nbh) as [o' n']. simpl in Hstep. subst n'.
  rewrite os_S, index_step, IH by (done || lia || by right). done.
Qed.

Lemma update_spec :
  nary ≤ 256 → tree_depth xs ≤ max_depth → m < length xs →
  update_inclusion_proof nary max_depth consistency_proof (inclusion_proof old idx) =
    Some (Ok (inclusion_proof xs idx)).
Proof.
  intros Hu Hd Hlt. unfold update_inclusion_proof. rewrite bool_decide_true by done. cbn [negb].
  unfold consistency_proof at 1. rewrite consistency_verifies, old_root_node, bool_decide_true by done.
  cbn [cp_old_size cp_new_size consistency_proof consistency_for np_leaf_index inclusion_proof].
  rewrite (proj2 (N.leb_gt _ _)), (proj2 (N.eqb_neq _ _)) by lia.
  unfold u64_to_usize. rewrite !(proj2 (N.leb_le _ _)), !Nat2N.id by lia. cbn [result_bind].
  change (cp_level_count consistency_proof) with (tree_depth xs). unfold consistency_proof. rewrite consistency_prefix.
  pose proof (update_levels_spec (tree_depth xs) 0 ZERO Hu ltac:(lia) (or_introl eq_refl)) as Hup.
  rewrite os_0, Nat.pow_0_r, Nat.div_1_r in Hup. fold (inclusion_proof old idx) in *.
  rewrite Hup. cbn [mbind option_bind result_bind]. rewrite length_fmap, length_seq. unfold inclusion_proof.
  f_equal. f_equal. f_equal. rewrite !list_lookup_total_alt. by rewrite lookup_take_lt by lia.
Qed.

End consistency.

(** Equal sizes: a proof without levels, accepted exactly for equal roots. *)
Lemma generate_same_size s xs m r :
  snap_rep s xs → 1 ≤ m ≤ length xs → m = length xs →
  let c := MkConsistencyProof r (default ZERO (tree_root xs)) (N.of_nat m) (N.of_nat (length xs)) 0
    (replicate max_depth (EMPTY_CONSISTENCY nary)) in
  generate_consistency_proof nary max_depth s (N.of_nat m) r = Some (Ok c) ∧
  verify_consistency nary max_depth c = Ok (bool_decide (tree_root (take m xs) = Some r)) ∧
  tree_root xs = Some (cp_new_root c).
Proof.
  intros Hs Hm Heq c. pose proof (sr_max_size _ _ _ _ Hs) as Hms.
  pose proof (new_root_node xs m Hm Hms) as Hnew. split_and!.
  - unfold generate_consistency_proof. rewrite (sr_size _ _ _ _ Hs), (sr_root _ _ _ _ Hs), Hnew.
    rewrite !(proj2 (N.eqb_neq _ 0)), (proj2 (N.ltb_ge _ _)), (proj2 (N.eqb_eq _ _)) by lia.
    unfold c. by rewrite Hnew.
  - unfold verify_consistency, c. cbn [cp_old_size cp_new_size cp_level_count cp_old_root cp_new_root].
    rewrite !(proj2 (N.eqb_neq _ 0)), (proj2 (N.ltb_ge _ _)), (proj2 (Nat.ltb_ge _ _)), (proj2 (N.eqb_eq _ _)) by lia.
    cbn [orb]. rewrite take_ge, Hnew by lia. cbn [default]. f_equal. apply bool_decide_ext. { split; [by intros ->|by intros [= ->]]. }
  - unfold c. by rewrite Hnew.
Qed.

(** What an accepted consistency proof has been checked for. *)
Lemma verify_consistency_accepts xs c :
  (N.of_nat (length xs) ≤ u64_max)%N → verify_consistency nary max_depth c = Ok true →
  cp_new_size c = N.of_nat (length xs) →
  (1 ≤ N.to_nat (cp_old_size c) ≤ length xs) ∧
  (cp_old_size c = cp_new_size c ∧ cp_old_root c = cp_new_root c ∨
   N.to_nat (cp_old_size c) < length xs ∧ cp_level_count c = tree_depth xs ∧ cp_level_count c ≤ max_depth).
Proof.
  intros Hmax Hv Hsize. unfold verify_consistency in Hv.
  destruct (_ || _ || _ || _) eqn:Hbad in Hv; [done|]. apply orb_false_iff in Hbad as [Hbad Hd].
  apply orb_false_iff in Hbad as [Hbad Hle]. apply orb_false_iff in Hbad as [H0 _]. nbool.
  split; [lia|]. destruct (cp_old_size c =? cp_new_size c)%N eqn:Heq; nbool.
  { left. split; [done|]. injection Hv as Hv. by apply bool_decide_eq_true in Hv. }
  right. split; [lia|]. destruct (cp_level_count c =? 0); [done|]. unfold u64_to_usize in Hv.
  rewrite !(proj2 (N.leb_le _ _)), Hsize, Nat2N.id in Hv by lia. cbn [result_bind] in Hv.
  rewrite (rounds_depth xs (N.to_nat (cp_old_size c))) in Hv by (done || lia).
  destruct (cp_level_count c =? tree_depth xs) eqn:Hc; [|done]. nbool. done.
Qed.

(** ** Properties *)

(** Completeness of inclusion: for every leaf a snapshot generates a proof, without a panic and
    without an overflow of the byte-sized fields while the arity is at most 256; the proof
    names the leaf, the root and the size of the tree, and it verifies, against the tree's root
    and against no other. Past the last leaf the answer is an error. *)
Theorem inclusion_complete s xs :
  to_u8_bound → 1 ≤ max_depth → snap_rep s xs →
  (∀ idx x, xs !! idx = Some x →
    ∃ p, generate_proof nary max_depth s (N.of_nat idx) = Some (Ok p) ∧
      np_leaf p = x ∧ np_leaf_index p = N.of_nat idx ∧ np_tree_size p = N.of_nat (length xs) ∧
      tree_root xs = Some (np_root p) ∧ verify nary max_depth p = Ok true ∧
      ∀ r, verify_against nary max_depth p r = Ok (bool_decide (tree_root xs = Some r))) ∧
  (∀ idx, (N.of_nat (length xs) ≤ idx)%N →
    generate_proof nary max_depth s idx = Some (Err (IndexOutOfRange idx (N.of_nat (length xs))))).
Proof.
  intros Hu Hmd1 Hs. pose proof (sr_max_size _ _ _ _ Hs) as Hms. split.
  - intros idx x Hx. pose proof (lookup_lt_Some _ _ _ Hx) as Hidx. exists (inclusion_proof xs idx).
    assert (tree_root xs = Some (np_root (inclusion_proof xs idx))) as Hroot.
    { rewrite (root_node xs idx Hms Hidx). unfold inclusion_proof. simpl. by rewrite (root_node xs idx Hms Hidx). }
    assert (verify nary max_depth (inclusion_proof xs idx) = Ok true) as Hv.
    { apply inclusion_verifies; [done|apply (sr_max_depth _ _ _ _ Hs)|done]. }
    split_and!; try done; [by apply generate_proof_spec|by apply list_lookup_total_correct|].
    intros r. unfold verify_against. rewrite Hv, Hroot.
    destruct (decide (np_root (inclusion_proof xs idx) = r)) as [<-|Hne].
    + by rewrite !bool_decide_true.
    + rewrite !bool_decide_false; [done| |done]. intros Heq. by injection Heq.
  - intros idx Hidx. unfold generate_proof. rewrite (sr_size _ _ _ _ Hs). by rewrite (proj2 (N.leb_le _ _)).
Qed.

(** C11. Soundness of inclusion: an accepted proof with the tree's root and size, whose sibling counts
    are those of a tree of that size, is about the leaf at the index it names, unless a group
    hashed by the verification collides with a different group of the tree. *)
Theorem inclusion_sound xs p r :
  (N.of_nat (length xs) ≤ u64_max)%N → proof_shape nary max_depth p →
  verify nary max_depth p = Ok true → tree_root xs = Some (np_root p) →
  np_tree_size p = N.of_nat (length xs) → well_counted xs p →
  collision_free (proof_groups p) (tree_groups xs) →
  verify_against nary max_depth p r = Ok true →
  np_root p = r ∧ xs !! N.to_nat (np_leaf_index p) = Some (np_leaf p).
Proof.
  intros Hmax [Hlen Hsib] Hv Hroot Hsize Hcnt Hcf Hva. split.
  { unfold verify_against in Hva. by case_bool_decide. }
  assert ((np_leaf_index p < np_tree_size p)%N ∧ np_level_count p = ceil_log_n (np_tree_size p) nary ∧
    np_level_count p ≤ max_depth) as (Hi & Hc & Hd).
  { unfold verify in Hv. destruct (_ || _) eqn:H1 in Hv; [done|]. apply orb_false_iff in H1 as [_ H1].
    destruct (_ || _) eqn:H2 in Hv; [done|]. apply orb_false_iff in H2 as [H2 H3].
    apply negb_false_iff in H2. nbool. split_and!; [done|done|lia]. }
  rewrite verify_checked in Hv by (done || lia). rewrite Hsize in Hc. change (np_level_count p = tree_depth xs) in Hc.
  set (idx := N.to_nat (np_leaf_index p)) in *. assert (idx < length xs) as Hidx by lia.
  destruct (verify_levels nary (take (np_level_count p) (np_levels p)) idx (np_leaf p)) as [cur|] eqn:Hvl; [|done].
  simpl in Hv. injection Hv as Hcur. apply bool_decide_eq_true in Hcur. subst cur.
  rewrite (root_node xs idx Hmax Hidx) in Hroot. injection Hroot as Hroot. rewrite <- Hroot in Hvl.
  pose proof (verify_levels_sound xs idx (take (np_level_count p) (np_levels p)) 0 (np_leaf p) Hidx) as Hsound.
  rewrite Nat.pow_0_r, Nat.div_1_r in Hsound. apply Hsound; [|by apply Forall_take| |exact Hcf|exact Hvl].
  - rewrite length_take. lia.
  - intros j pl Hj. rewrite lookup_take_Some in Hj. destruct Hj as [Hj Hlt]. by apply Hcnt.
Qed.

(** Completeness of consistency: for every earlier size a snapshot generates a consistency proof
    for the root it is given, and that proof verifies exactly when the root is the root of the
    tree over the first leaves. *)
Theorem consistency_complete s xs m r :
  nary ≤ 255 → snap_rep s xs → 1 ≤ m ≤ length xs →
  ∃ c, generate_consistency_proof nary max_depth s (N.of_nat m) r = Some (Ok c) ∧
    cp_old_root c = r ∧ tree_root xs = Some (cp_new_root c) ∧
    verify_consistency nary max_depth c = Ok (bool_decide (tree_root (take m xs) = Some r)).
Proof.
  intros Hu Hs Hm. pose proof (sr_max_size _ _ _ _ Hs) as Hms. pose proof (sr_max_depth _ _ _ _ Hs) as Hmd.
  destruct (decide (m = length xs)) as [Heq|Hne].
  - destruct (generate_same_size s xs m r Hs Hm Heq) as (Hg & Hv & Hroot). eauto 10.
  - exists (consistency_for xs m r). split_and!.
    + apply generate_consistency_spec; done || lia.
    + done.
    + cbn [cp_new_root consistency_for]. by rewrite (new_root_node xs m).
    + apply consistency_verifies; done || lia.
Qed.

(** C10. Soundness of consistency: an accepted proof whose new root and size are those of a tree, with
    the tree's root, shows that the old root is the root of the tree over the first leaves, unless
    a group hashed by the verification collides with a different group of the tree. *)
Theorem consistency_sound xs c :
  (N.of_nat (length xs) ≤ u64_max)%N → consistency_shape nary max_depth c →
  verify_consistency nary max_depth c = Ok true → tree_root xs = Some (cp_new_root c) →
  cp_new_size c = N.of_nat (length xs) →
  collision_free (consistency_proof_groups c) (tree_groups xs) →
  tree_root (take (N.to_nat (cp_old_size c)) xs) = Some (cp_old_root c).
Proof.
  intros Hmax [Hlen Hsh] Hv Hroot Hsize Hcf.
  destruct (verify_consistency_accepts xs c Hmax Hv Hsize) as [Hm [[Heq ->]|(Hlt & Hc & Hd)]].
  { by rewrite take_ge by lia. }
  set (m := N.to_nat (cp_old_size c)) in *. pose proof (depth_pos xs m Hm Hmax Hlt) as Hpos.
  rewrite (verify_consistency_checked xs m) in Hv by (done || lia).
  destruct (consistency_levels nary 0 _ _ _ ZERO ZERO) as [[o' n']|] eqn:Hl in Hv; [|done].
  simpl in Hv. injection Hv as Hv. apply andb_true_iff in Hv as [Ho Hnr].
  apply bool_decide_eq_true in Ho, Hnr. subst o' n'.
  rewrite (new_root_node xs m Hm Hmax) in Hroot. injection Hroot as Hroot.
  rewrite (old_root_node xs m Hm Hmax). f_equal. symmetry.
  assert (length (take (tree_depth xs) (cp_levels c)) = tree_depth xs) as Hlt' by (rewrite length_take; lia).
  unfold consistency_proof_groups in Hcf. fold m in Hcf. rewrite Hc, Hsize, Nat2N.id, <- (os_0 m) in Hcf.
  destruct (consistency_levels_sound xs m Hm Hmax (take (tree_depth xs) (cp_levels c)) 0 ZERO ZERO _ _
    ltac:(lia) (Forall_take _ _ _ Hsh) Hcf Hl (eq_sym Hroot)) as [_ Hold].
  apply Hold; [done|]. intros H0. rewrite H0 in Hlt'. simpl in Hlt'. lia.
Qed.

(** C38. Updating is regenerating: take a proof of a leaf from a snapshot, append leaves, and take a
    consistency proof for the old root from the new snapshot; the update of the old proof is
    exactly the proof the new snapshot would generate for the leaf, hashes included. *)
Theorem update_is_regeneration s1 s2 xs1 xs2 r idx :
  nary ≤ 255 → 1 ≤ max_depth → snap_rep s1 xs1 → snap_rep s2 (xs1 ++ xs2) → xs2 ≠ [] →
  tree_root xs1 = Some r → idx < length xs1 →
  ∃ p1 c p2,
    generate_proof nary max_depth s1 (N.of_nat idx) = Some (Ok p1) ∧
    generate_consistency_proof nary max_depth s2 (N.of_nat (length xs1)) r = Some (Ok c) ∧
    update_inclusion_proof nary max_depth c p1 = Some (Ok p2) ∧
    generate_proof nary max_depth s2 (N.of_nat idx) = Some (Ok p2).
Proof.
  intros Hu Hmd1 Hs1 Hs2 Hne Hr Hidx. pose proof (sr_max_size _ _ _ _ Hs2) as Hms.
  assert (0 < length xs2) as Hpos by (destruct xs2; simpl; [done|lia]).
  rewrite length_app in Hms.
  set (xs := xs1 ++ xs2) in *. assert (take (length xs1) xs = xs1) as Htake by apply take_app_length.
  assert (length xs = length xs1 + length xs2) as Hlen by apply length_app.
  exists (inclusion_proof xs1 idx), (consistency_for xs (length xs1) r), (inclusion_proof xs idx).
  split_and!; try (apply generate_proof_spec; done || lia).
  { apply generate_consistency_spec; done || lia. }
  pose proof (update_spec xs (length xs1) ltac:(lia) ltac:(lia) idx Hidx ltac:(lia)
    (sr_max_depth _ _ _ _ Hs2) ltac:(lia)) as Hup.
  rewrite Htake in Hup. rewrite <- Hup. unfold consistency_proof. by rewrite Htake, Hr.
Qed.

End spec.

(** Nothing ties the sibling counts of an inclusion proof to the size it names: over six leaves in
    a binary tree, the levels of leaf 4, shifted by the level where its subtree is lifted, verify
    against the tree's root as a proof that leaf 4 sits at index 5. [inclusion_sound] needs
    [well_counted] for this reason. *)
Theorem verify_accepts_spoofed_index `{!Hasher} (a b c d e f : hash) :
  let xs := [a; b; c; d; e; f] in
  let r := hash_children [hash_children [hash_children [a; b]; hash_children [c; d]]; hash_children [e; f]] in
  let p := MkNaryProof r e 5 6 3
    [MkProofLevel 1 0 (zeros 2); MkProofLevel 0 1 [f; ZERO];
     MkProofLevel 1 1 [hash_children [hash_children [a; b]; hash_children [c; d]]; ZERO]] in
  tree_root 2 xs = Some r ∧ np_tree_size p = N.of_nat (length xs) ∧ proof_shape 2 3 p ∧
  verify_against 2 3 p r = Ok true ∧
  np_leaf p = e ∧ xs !! N.to_nat (np_leaf_index p) = Some f.
Proof.
  intros xs r p. split_and!; try reflexivity.
  - split; [done|]. repeat constructor.
  - unfold verify_against, p. cbn [np_root]. rewrite bool_decide_true by done.
    change (Ok (E := TreeError) (bool_decide (r = r)) = Ok true). by rewrite bool_decide_true.
Qed.

(** ** Examples *)

(** Snapshots of a ternary tree of four levels. *)
Lemma ex_snap xs :
  bool_decide (xs ≠ []) && (N.of_nat (length xs) <=? 81)%N && (tree_depth 3 xs <=? 4) = true →
  ∃ s, @snap_rep 3 4 Toy.hasher s xs.
Proof.
  intros Hc. apply andb_true_iff in Hc as [Hc Hd]. apply andb_true_iff in Hc as [Hne Hl]. nbool.
  assert (N.of_nat (length xs) ≤ u64_max)%N as Hmax by (transitivity 81%N; [done|vm_compute; discriminate]).
  destruct (@insert_many_spec 3 4 Toy.hasher Toy.hasher_laws ltac:(lia) ltac:(lia) None [] xs)
    with (t := ex_new) as (t' & r & _ & Hrep & _); [done|exact Hmax|exact Hd|exact ex_new_rep|].
  exists (snapshot 4 t'). by apply snapshot_rep; [lia..|].
Qed.

(** Whether no hash of the first groups is that of a different group of the second. *)
Lemma collision_free_check gs1 gs2 :
  forallb (λ g1, forallb (λ g2, implb (bool_decide (@hash_children Toy.hasher g1 = @hash_children Toy.hasher g2))
    (bool_decide (g1 = g2))) gs2) gs1 = true →
  @collision_free Toy.hasher gs1 gs2.
Proof.
  intros Hc g1 g2 H1 H2 Heq. rewrite forallb_forall in Hc. specialize (Hc g1 (proj1 (list_elem_of_In _ _) H1)).
  rewrite forallb_forall in Hc. specialize (Hc g2 (proj1 (list_elem_of_In _ _) H2)).
  rewrite bool_decide_true in Hc by done. by apply bool_decide_eq_true in Hc.
Qed.

Lemma inclusion_complete_witness :
  ∃ s p, generate_proof 3 4 s 3 = Some (Ok p) ∧ np_leaf p = ex_leaf 4 ∧ @verify 3 4 Toy.hasher p = Ok true.
Proof.
  destruct (ex_snap ex_leaves) as [s Hs]; [vm_compute; reflexivity|].
  destruct (@inclusion_complete 3 4 Toy.hasher ltac:(lia) s ex_leaves ltac:(lia) ltac:(lia) Hs) as [Hc _].
  destruct (Hc 3 (ex_leaf 4) eq_refl) as (p & H1 & H2 & _ & _ & _ & H3 & _). exists s, p.
  split; [exact H1|]. split; [exact H2|exact H3].
Defined.

Lemma inclusion_sound_witness :
  ∃ p, @verify 3 4 Toy.hasher p = Ok true ∧ np_leaf_index p = 3%N ∧ ex_leaves !! 3 = Some (np_leaf p).
Proof.
  set (p := @inclusion_proof 3 4 Toy.hasher ex_leaves 3). exists p.
  assert (@verify 3 4 Toy.hasher p = Ok true) as Hv by (vm_compute; reflexivity).
  split; [exact Hv|]. split; [reflexivity|].
  apply (@inclusion_sound 3 4 Toy.hasher ltac:(lia) ex_leaves p (np_root p)).
  - vm_compute; discriminate.
  - split; [vm_compute; reflexivity|]. vm_compute. repeat constructor.
  - exact Hv.
  - vm_compute; reflexivity.
  - vm_compute; reflexivity.
  - intros l pl Hl Hpl. destruct l as [|[|l]]; [vm_compute in Hpl |- *; by injection Hpl as <-..|].
    exfalso. vm_compute in Hl. lia.
  - apply collision_free_check. vm_compute. reflexivity.
  - vm_compute; reflexivity.
Defined.

Lemma consistency_complete_witness :
  ∃ s c, @generate_consistency_proof 3 4 s 2 ZERO = Some (Ok c) ∧
    @verify_consistency 3 4 Toy.hasher c = Ok false.
Proof.
  destruct (ex_snap ex_leaves) as [s Hs]; [vm_compute; reflexivity|].
  destruct (@consistency_complete 3 4 Toy.hasher ltac:(lia) s ex_leaves 2 ZERO ltac:(lia) Hs) as (c & H1 & _ & _ & H2).
  { vm_compute. lia. }
  exists s, c. split; [exact H1|]. rewrite H2. vm_compute. reflexivity.
Defined.

Lemma consistency_sound_witness :
  ∃ c, @verify_consistency 3 4 Toy.hasher c = Ok true ∧ cp_old_size c = 2%N ∧
    @tree_root 3 Toy.hasher (take 2 ex_leaves) = Some (cp_old_root c).
Proof.
  set (c := @consistency_proof 3 4 Toy.hasher ex_leaves 2). exists c.
  assert (@verify_consistency 3 4 Toy.hasher c = Ok true) as Hv by (vm_compute; reflexivity).
  split; [exact Hv|]. split; [reflexivity|].
  apply (@consistency_sound 3 4 Toy.hasher ltac:(lia) ex_leaves c).
  - vm_compute; discriminate.
  - split; [vm_compute; reflexivity|]. vm_compute. repeat constructor.
  - exact Hv.
  - vm_compute; reflexivity.
  - vm_compute; reflexivity.
  - apply collision_free_check. vm_compute. reflexivity.
Defined.

Lemma update_is_regeneration_witness :
  ∃ s1 s2 p1 c p2,
    generate_proof 3 4 s1 1 = Some (Ok p1) ∧ generate_consistency_proof 3 4 s2 2 (np_root p1) = Some (Ok c) ∧
    @update_inclusion_proof 3 4 Toy.hasher c p1 = Some (Ok p2) ∧ generate_proof 3 4 s2 1 = Some (Ok p2).
Proof.
  destruct (ex_snap (take 2 ex_leaves)) as [s1 Hs1]; [vm_compute; reflexivity|].
  destruct (ex_snap (take 2 ex_leaves ++ drop 2 ex_leaves)) as [s2 Hs2]; [vm_compute; reflexivity|].
  set (r := default ZERO (@tree_root 3 Toy.hasher (take 2 ex_leaves))).
  destruct (@update_is_regeneration 3 4 Toy.hasher ltac:(lia) s1 s2 (take 2 ex_leaves) (drop 2 ex_leaves) r 1
    ltac:(lia) ltac:(lia) Hs1 Hs2) as (p1 & c & p2 & H1 & H2 & H3 & H4).
  { vm_compute. discriminate. }
  { vm_compute. reflexivity. }
  { vm_compute. lia. }
  assert (np_root p1 = r) as Hr.
  { pose proof (@generate_proof_spec 3 4 Toy.hasher ltac:(lia) s1 _ 1 ltac:(lia) ltac:(lia) Hs1 ltac:(vm_compute; lia)) as Hg.
    change (N.of_nat 1) with 1%N in *. rewrite H1 in Hg. injection Hg as ->. reflexivity. }
  exists s1, s2, p1, c, p2. rewrite Hr. split; [exact H1|]. split; [exact H2|]. split; [exact H3|exact H4].
Defined.
