(* ===== verification/Position.v ===== *)
(** Positions and block references of chainfold ([crates/chainfold/src/position.rs]): the
    total order the engine applies events in, and the identity of a block. *)
From S2P Require Import Prelude.

(** [Position]: block number, then log index within the block. *)
Record Position := MkPosition { block : N; log_index : N }.

(** [BlockRef]: a block number and the hash that commits to its ancestry. *)
Record BlockRef := MkBlockRef { number : N; bhash : hash }.

#[export] Instance Position_eq_dec : EqDecision Position.
Proof. solve_decision. Defined.
#[export] Instance BlockRef_eq_dec : EqDecision BlockRef.
Proof. solve_decision. Defined.
#[export] Instance BlockRef_inhabited : Inhabited BlockRef := populate (MkBlockRef 0 []).

(** The derived [Ord] of [Position]: lexicographic. *)
Definition pos_ltb (p q : Position) : bool :=
  (block p <? block q)%N || ((block p =? block q)%N && (log_index p <? log_index q)%N).

(** The derived [Ord] of [Option<Position>]: [None] is below every [Some]. *)
Definition opos_ltb (p q : option Position) : bool :=
  match p, q with
  | _, None => false
  | None, Some _ => true
  | Some p, Some q => pos_ltb p q
  end.

Definition pos_lt (p q : Position) : Prop := pos_ltb p q = true.
Definition opos_lt (p q : option Position) : Prop := opos_ltb p q = true.
(** [a <= b] of the derived order. *)
Definition opos_le (p q : option Position) : Prop := opos_ltb q p = false.

Lemma pos_ltb_spec p q :
  pos_ltb p q = true ↔
  (block p < block q)%N ∨ (block p = block q ∧ (log_index p < log_index q)%N).
Proof.
  unfold pos_ltb. rewrite orb_true_iff, andb_true_iff, !N.ltb_lt, N.eqb_eq. done.
Qed.

Lemma pos_ltb_false p q :
  pos_ltb p q = false ↔
  (block q < block p)%N ∨ (block p = block q ∧ (log_index q ≤ log_index p)%N).
Proof. rewrite <- not_true_iff_false, pos_ltb_spec. lia. Qed.

#[export] Instance pos_lt_strict : StrictOrder pos_lt.
Proof.
  split.
  - intros p H. apply pos_ltb_spec in H. lia.
  - intros p q r Hpq%pos_ltb_spec Hqr%pos_ltb_spec. apply pos_ltb_spec. lia.
Qed.

Lemma pos_lt_total p q : pos_lt p q ∨ p = q ∨ pos_lt q p.
Proof.
  destruct p as [b i], q as [c j]. unfold pos_lt. rewrite !pos_ltb_spec. simpl.
  destruct (N.lt_trichotomy b c) as [?|[->|?]]; [by auto| |by auto].
  destruct (N.lt_trichotomy i j) as [?|[->|?]]; auto.
Qed.

#[export] Instance opos_lt_strict : StrictOrder opos_lt.
Proof.
  split.
  - intros [p|]; [|by intros [=]]. apply (irreflexivity pos_lt).
  - intros [p|] [q|] [r|]; unfold opos_lt; simpl; try done.
    apply (transitivity (R := pos_lt)).
Qed.

Lemma opos_lt_total p q : opos_lt p q ∨ p = q ∨ opos_lt q p.
Proof.
  destruct p as [p|], q as [q|]; [|by right; right|by left|by right; left].
  destruct (pos_lt_total p q) as [?|[->|?]]; auto.
Qed.

#[export] Instance opos_le_preorder : PreOrder opos_le.
Proof.
  split.
  - intros p. unfold opos_le. apply not_true_iff_false. apply (irreflexivity opos_lt).
  - intros p q r Hpq Hqr. unfold opos_le in *. apply not_true_iff_false. intros Hrp.
    destruct (opos_lt_total q r) as [Hlt|[->|Hlt]]; [|congruence|unfold opos_lt in Hlt; congruence].
    assert (opos_lt q p) by (by apply (transitivity (y := r))). unfold opos_lt in *. congruence.
Qed.

Lemma opos_lt_le p q : opos_lt p q → opos_le p q.
Proof.
  intros Hpq. unfold opos_le. apply not_true_iff_false. intros Hqp.
  apply (irreflexivity opos_lt p). by apply (transitivity (y := q)).
Qed.

(** A position at or below another sits in a block at or below it. *)
Lemma opos_le_block p q : opos_le (Some p) (Some q) → (block p ≤ block q)%N.
Proof. unfold opos_le. simpl. intros H%pos_ltb_false. lia. Qed.

Lemma opos_le_None p : opos_le p None ↔ p = None.
Proof. destruct p; unfold opos_le; simpl; split; congruence. Qed.

Lemma opos_ltb_irrefl p : opos_ltb p p = false.
Proof. apply not_true_iff_false, (irreflexivity opos_lt). Qed.

#[export] Hint Resolve opos_lt_le : works.
