(* ===== verification/Batch.v ===== *)
(** The flat batch of chainfold ([crates/chainfold/src/batch.rs]): parallel lanes of blocks,
    hashes, span ends, log indices and events; the span iterator; shape validation. *)
From S2P Require Import Prelude Position.

(** ** Data *)

(** [Batch<E>]. *)
Record Batch (E : Type) := MkBatch {
  boundary : option BlockRef;
  blocks : list N;
  hashes : list hash;
  ends : list nat;
  log_indices : list N;
  events : list E;
}.
Arguments MkBatch {E} _ _ _ _ _ _.
Arguments boundary {E} _.
Arguments blocks {E} _.
Arguments hashes {E} _.
Arguments ends {E} _.
Arguments log_indices {E} _.
Arguments events {E} _.

(** [SpanView<'a, E>]: one block's events. *)
Record SpanView (E : Type) := MkSpanView {
  sv_number : N;
  sv_hash : hash;
  sv_log_indices : list N;
  sv_events : list E;
}.
Arguments MkSpanView {E} _ _ _ _.
Arguments sv_number {E} _.
Arguments sv_hash {E} _.
Arguments sv_log_indices {E} _.
Arguments sv_events {E} _.

(** [Spans<'a, E>]: the iterator state over a borrowed batch. *)
Record Spans := MkSpans { next : nat; start : nat }.

(** [BatchShapeError]. *)
Inductive BatchShapeError :=
| SpanEmpty (span : nat)
| BlocksNotAscending (span : nat)
| LogIndexNotAscending (span index : nat).

#[export] Instance BatchShapeError_eq_dec : EqDecision BatchShapeError.
Proof. solve_decision. Defined.

(** ** Operations *)

(** [SpanView::block]. *)
Definition sv_block {E} (s : SpanView E) : BlockRef := MkBlockRef (sv_number s) (sv_hash s).

(** [Batch::new]. *)
Definition batch_new {E} : Batch E := MkBatch None [] [] [] [] [].

(** [Batch::clear]. *)
Definition batch_clear {E} (b : Batch E) : Batch E := MkBatch None [] [] [] [] [].

(** [Batch::is_empty]. *)
Definition batch_is_empty {E} (b : Batch E) : bool := bool_decide (ends b = []).

(** [Batch::span_count]. *)
Definition span_count {E} (b : Batch E) : nat := length (ends b).

(** Assignment to the public [boundary] field. *)
Definition set_boundary {E} (bd : option BlockRef) (b : Batch E) : Batch E :=
  MkBatch bd (blocks b) (hashes b) (ends b) (log_indices b) (events b).

(** [Batch::push_block]. *)
Definition push_block {E} (b : Batch E) (blk : BlockRef) (evs : list (N * E)) : Batch E :=
  MkBatch (boundary b)
    (blocks b ++ [number blk])
    (hashes b ++ [bhash blk])
    (ends b ++ [length (events b ++ evs.*2)])
    (log_indices b ++ evs.*1)
    (events b ++ evs.*2).

(** [Spans::next]. The lanes [blocks], [hashes] and [ends] have equal length by construction
    ([batch_wf]), so the indexing the source does after the bounds check on [ends] succeeds. *)
Definition spans_next {E} (b : Batch E) (s : Spans) : option (SpanView E * Spans) :=
  e ← ends b !! next s;
  n ← blocks b !! next s;
  h ← hashes b !! next s;
  Some (MkSpanView n h (slice (start s) (e - start s) (log_indices b))
                       (slice (start s) (e - start s) (events b)),
        MkSpans (S (next s)) e).

(** [Spans::size_hint]. *)
Definition spans_size_hint {E} (b : Batch E) (s : Spans) : nat * option nat :=
  let remaining := length (ends b) - next s in (remaining, Some remaining).

(** Draining the iterator; [fuel] bounds the number of [next] calls. *)
Fixpoint spans_collect {E} (fuel : nat) (b : Batch E) (s : Spans) : list (SpanView E) :=
  match fuel with
  | O => []
  | S fuel =>
    match spans_next b s with
    | None => []
    | Some (v, s') => v :: spans_collect fuel b s'
    end
  end.

(** [for span in batch.spans()]: one [next] per span. *)
Definition spans {E} (b : Batch E) : list (SpanView E) :=
  spans_collect (span_count b) b (MkSpans 0 0).

(** [slice::windows(2)]. *)
Fixpoint windows2 {A} (l : list A) : list (A * A) :=
  match l with
  | x :: ((y :: _) as t) => (x, y) :: windows2 t
  | _ => []
  end.

(** [locate_descent]. *)
Definition locate_descent (values : list N) : option nat :=
  S <$> position (λ pair, (pair.2 <=? pair.1)%N) (windows2 values).

(** [first_descent]: a branchless sweep, then the locate pass on failure. *)
Definition first_descent (values : list N) : option nat :=
  let tail := drop 1 values in
  let asc := foldl (λ acc pair, acc && (pair.1 <? pair.2)%N) true (zip values tail) in
  if asc then None else locate_descent values.

(** The loop of [Batch::validate] over the span ends. *)
Fixpoint validate_spans (logs : list N) (start span : nat) (es : list nat)
    : result () BatchShapeError :=
  match es with
  | [] => Ok ()
  | e :: es =>
    if e <=? start then Err (SpanEmpty span) else
    match first_descent (slice start (e - start) logs) with
    | Some offset => Err (LogIndexNotAscending span (start + offset))
    | None => validate_spans logs e (S span) es
    end
  end.

(** [Batch::validate]. *)
Definition validate {E} (b : Batch E) : result () BatchShapeError :=
  match first_descent (blocks b) with
  | Some span => Err (BlocksNotAscending span)
  | None => validate_spans (log_indices b) 0 0 (ends b)
  end.

(** ** Specification *)

(** Span ends never fall and stay inside the event lane. *)
Fixpoint ends_ok (lo hi : nat) (es : list nat) : Prop :=
  match es with
  | [] => lo = hi
  | e :: es => lo ≤ e ∧ ends_ok e hi es
  end.

(** The lanes agree. Every batch built by [batch_new], [push_block] and [batch_clear] does. *)
Definition batch_wf {E} (b : Batch E) : Prop :=
  length (blocks b) = length (ends b) ∧ length (hashes b) = length (ends b) ∧
  length (log_indices b) = length (events b) ∧ ends_ok 0 (length (events b)) (ends b).

(** What [validate] promises of every span: at least one event, ascending log indices. *)
Definition span_ok {E} (s : SpanView E) : Prop :=
  sv_log_indices s ≠ [] ∧ ascending (sv_log_indices s) ∧
  length (sv_events s) = length (sv_log_indices s).

(** What [validate] promises of the batch. *)
Definition batch_ok {E} (b : Batch E) : Prop :=
  ascending (blocks b) ∧ Forall span_ok (spans b).

(** ** Lemmas: [first_descent] *)

Lemma windows2_lookup {A} (l : list A) i p :
  windows2 l !! i = Some p ↔ l !! i = Some p.1 ∧ l !! S i = Some p.2.
Proof.
  revert i. induction l as [|x [|y l] IH]; intros i.
  - simpl. rewrite !lookup_nil. by split; [|intros [? ?]].
  - simpl. rewrite !lookup_nil. by split; [|intros [? ?]].
  - destruct i as [|i]; simpl; [|apply IH]. destruct p as [a b]. simpl.
    split; [by intros [= <- <-]|by intros [[= ->] [= ->]]].
Qed.

Lemma zip_tail_windows2 {A} (l : list A) : zip l (drop 1 l) = windows2 l.
Proof.
  induction l as [|x [|y l] IH]; [done|done|].
  change (windows2 (x :: y :: l)) with ((x, y) :: windows2 (y :: l)). by rewrite <- IH.
Qed.

Lemma foldl_and_true {A} (p : A → bool) l acc :
  foldl (λ acc x, acc && p x) acc l = acc && forallb p l.
Proof.
  revert acc. induction l as [|x l IH]; intros acc; simpl; [by rewrite andb_true_r|].
  by rewrite IH, andb_assoc.
Qed.

Lemma first_descent_None l : first_descent l = None ↔ ascending l.
Proof.
  unfold first_descent, locate_descent. rewrite foldl_and_true, zip_tail_windows2. simpl.
  destruct (forallb _ _) eqn:Hall.
  - split; [|done]. intros _. rewrite forallb_forall in Hall.
    apply ascending_intro. intros i x y Hx Hy.
    assert (In (x, y) (windows2 l)) as Hin.
    { apply list_elem_of_In, (list_elem_of_lookup_2 _ i), windows2_lookup. done. }
    apply Hall in Hin. simpl in Hin. by nbool.
  - rewrite fmap_None, position_None. split; intros H.
    + exfalso. apply not_true_iff_false in Hall. apply Hall, forallb_forall.
      intros [x y] Hin%list_elem_of_In. apply H in Hin. simpl in *. nbool. by apply N.ltb_lt.
    + intros [x y] [i Hi]%list_elem_of_lookup. apply windows2_lookup in Hi as [Hx Hy].
      simpl in *. apply N.leb_gt. by eapply ascending_lookup; [done| |done..]; lia.
Qed.

(** The reported index is the first one that does not exceed its predecessor. *)
Lemma first_descent_Some l i :
  first_descent l = Some i ↔
  (∃ k x y, i = S k ∧ l !! k = Some x ∧ l !! i = Some y ∧ (y ≤ x)%N) ∧ ascending (take i l).
Proof.
  unfold first_descent, locate_descent. rewrite foldl_and_true, zip_tail_windows2. simpl.
  assert (position (λ pair, (pair.2 <=? pair.1)%N) (windows2 l) = Some (pred i) ∧ i ≠ 0 ↔
    (∃ k x y, i = S k ∧ l !! k = Some x ∧ l !! i = Some y ∧ (y ≤ x)%N) ∧ ascending (take i l))
    as Hpos.
  { rewrite position_Some. split.
    - intros [[([x y] & Hxy & Hle) Hbefore] Hi]. apply windows2_lookup in Hxy as [Hx Hy].
      simpl in *. nbool. destruct i as [|i]; [done|]. split; [by exists i, x, y|].
      apply ascending_intro. intros j a b Ha Hb.
      apply lookup_take_Some in Ha as [Ha ?]. apply lookup_take_Some in Hb as [Hb ?].
      assert (windows2 l !! j = Some (a, b)) as Hj by by apply windows2_lookup.
      apply Hbefore in Hj; [|simpl; lia]. simpl in Hj. by nbool.
    - intros [(k & x & y & -> & Hx & Hy & Hle) Hasc]. split; [split|done].
      + exists (x, y). split; [by apply windows2_lookup|]. by apply N.leb_le.
      + simpl. intros j [a b] Hj Hab. apply windows2_lookup in Hab as [Ha Hb]. simpl in *.
        apply N.leb_gt. eapply (ascending_lookup _ j (S j)); [exact Hasc|lia| |].
        * rewrite lookup_take_lt by lia. done.
        * rewrite lookup_take_lt by lia. done. }
  rewrite <- Hpos. destruct (forallb _ _) eqn:Hall.
  - split; [done|]. intros [[([x y] & Hxy & Hle) _]%position_Some _].
    rewrite forallb_forall in Hall. apply list_elem_of_lookup_2, list_elem_of_In, Hall in Hxy.
    simpl in *. nbool. lia.
  - rewrite fmap_Some. split; [by intros (k & -> & ->)|]. intros [Hp Hi].
    exists (pred i). split; [done|lia].
Qed.

(** ** Lemmas: spans and [validate] *)

(** The spans of a suffix of the lanes, by recursion on the lanes: what draining the iterator
    from index [next] on yields. *)
Fixpoint spans_of {E} (ns : list N) (hs : list hash) (lo : nat) (es : list nat)
    (logs : list N) (evs : list E) : list (SpanView E) :=
  match ns, hs, es with
  | n :: ns, h :: hs, e :: es =>
      MkSpanView n h (slice lo (e - lo) logs) (slice lo (e - lo) evs)
      :: spans_of ns hs e es logs evs
  | _, _, _ => []
  end.

Lemma spans_collect_of {E} (b : Batch E) fuel k lo :
  length (ends b) ≤ k + fuel →
  spans_collect fuel b (MkSpans k lo) =
  spans_of (drop k (blocks b)) (drop k (hashes b)) lo (drop k (ends b))
    (log_indices b) (events b).
Proof.
  revert k lo. induction fuel as [|fuel IH]; intros k lo Hlen; simpl.
  - rewrite (drop_ge (ends b)) by lia.
    destruct (drop k (blocks b)), (drop k (hashes b)); done.
  - unfold spans_next. simpl.
    destruct (ends b !! k) as [e|] eqn:He; simpl.
    + rewrite (drop_S (ends b) e k He).
      destruct (blocks b !! k) as [n|] eqn:Hn; simpl.
      * rewrite (drop_S _ _ _ Hn). destruct (hashes b !! k) as [h|] eqn:Hh; simpl.
        -- rewrite (drop_S _ _ _ Hh). f_equal. apply IH. lia.
        -- by rewrite (drop_ge (hashes b)) by by apply lookup_ge_None.
      * by rewrite (drop_ge (blocks b)) by by apply lookup_ge_None.
    + rewrite (drop_ge (ends b)) by by apply lookup_ge_None.
      destruct (drop k (blocks b)), (drop k (hashes b)); done.
Qed.

Lemma spans_eq {E} (b : Batch E) :
  spans b = spans_of (blocks b) (hashes b) 0 (ends b) (log_indices b) (events b).
Proof. unfold spans, span_count. by rewrite spans_collect_of. Qed.

Lemma spans_of_numbers {E} ns hs lo es logs (evs : list E) :
  length ns = length es → length hs = length es →
  sv_number <$> spans_of ns hs lo es logs evs = ns.
Proof.
  revert hs lo es. induction ns as [|n ns IH]; intros [|h hs] lo [|e es] H1 H2; simplify_eq/=; auto.
  f_equal. by apply IH.
Qed.

(** The spans carry exactly the block lane, in order. *)
Lemma spans_numbers {E} (b : Batch E) :
  batch_wf b → sv_number <$> spans b = blocks b.
Proof. intros (H1 & H2 & _). rewrite spans_eq. by apply spans_of_numbers. Qed.

Lemma ends_ok_le lo hi es : ends_ok lo hi es → lo ≤ hi.
Proof. revert lo. induction es as [|e es IH]; intros lo; simpl; [lia|]. intros [? ?%IH]. lia. Qed.

Lemma validate_spans_ok {E} ns hs (evs : list E) logs span lo hi es :
  length ns = length es → length hs = length es →
  hi = length logs → length logs = length evs → ends_ok lo hi es →
  validate_spans logs lo span es = Ok () ↔ Forall span_ok (spans_of ns hs lo es logs evs).
Proof.
  intros H1 H2 Hhi Hev. revert ns hs span lo H1 H2.
  induction es as [|e es IH]; intros [|n ns] [|h hs] span lo H1 H2 Hends; simplify_eq/=.
  { split; constructor. }
  destruct Hends as [Hle Hends]. pose proof (ends_ok_le _ _ _ Hends) as Hhi.
  rewrite Forall_cons. unfold span_ok at 1. simpl.
  assert (length (slice lo (e - lo) logs) = e - lo) as Hl1 by (apply length_slice; lia).
  assert (length (slice lo (e - lo) evs) = e - lo) as Hl2 by (apply length_slice; lia).
  destruct (e <=? lo) eqn:Hcmp; nbool.
  - split; [done|]. intros [[Hne _] _]. destruct (slice lo (e - lo) logs); [done|simpl in *; lia].
  - destruct (first_descent _) as [o|] eqn:Hfd.
    + split; [done|]. intros [(_ & Hasc & _) _]. apply first_descent_None in Hasc. congruence.
    + apply first_descent_None in Hfd. rewrite (IH ns hs) by done. split; [|naive_solver].
      intros Hall. split; [|done]. repeat split; [|done|lia].
      intros Hnil. rewrite Hnil in Hl1. simpl in Hl1. lia.
Qed.

Lemma validate_ok_iff {E} (b : Batch E) : batch_wf b → validate b = Ok () ↔ batch_ok b.
Proof.
  intros (H1 & H2 & H3 & H4). unfold validate, batch_ok.
  destruct (first_descent (blocks b)) eqn:Hfd.
  - split; [done|]. intros [Hasc _]. apply first_descent_None in Hasc. congruence.
  - apply first_descent_None in Hfd. rewrite spans_eq.
    rewrite (validate_spans_ok (blocks b) (hashes b) (events b) _ _ _ (length (log_indices b)));
      [|done|done|done|done|by rewrite H3]. naive_solver.
Qed.

Lemma ends_ok_snoc lo mid hi es : ends_ok lo mid es → mid ≤ hi → ends_ok lo hi (es ++ [hi]).
Proof.
  revert lo. induction es as [|e es IH]; intros lo; simpl.
  - intros -> ?. done.
  - intros [? ?] ?. auto.
Qed.

Lemma batch_new_wf {E} : batch_wf (@batch_new E).
Proof. by repeat split. Qed.

Lemma push_block_wf {E} (b : Batch E) blk evs : batch_wf b → batch_wf (push_block b blk evs).
Proof.
  intros (H1 & H2 & H3 & H4). unfold batch_wf. simpl. repeat split; [lens..|].
  apply (ends_ok_snoc _ (length (events b))); [done|]. lens.
Qed.

Lemma set_boundary_wf {E} bd (b : Batch E) : batch_wf b → batch_wf (set_boundary bd b).
Proof. done. Qed.

Lemma spans_set_boundary {E} bd (b : Batch E) : spans (set_boundary bd b) = spans b.
Proof. by rewrite !spans_eq. Qed.

Lemma spans_of_app_lanes {E} ns hs lo es logs logs' (evs evs' : list E) hi :
  ends_ok lo hi es → hi ≤ length logs → hi ≤ length evs →
  spans_of ns hs lo es (logs ++ logs') (evs ++ evs') = spans_of ns hs lo es logs evs.
Proof.
  revert ns hs lo. induction es as [|e es IH]; intros [|n ns] [|h hs] lo; try done; simpl.
  intros [Hle Hends] Hl1 Hl2. pose proof (ends_ok_le _ _ _ Hends). f_equal; [|by apply IH].
  unfold slice. rewrite !drop_app_le by lia. by rewrite !take_app_le by (rewrite length_drop; lia).
Qed.

Lemma spans_of_snoc {E} ns hs lo hi es n h e logs (evs : list E) :
  length ns = length es → length hs = length es → ends_ok lo hi es →
  spans_of (ns ++ [n]) (hs ++ [h]) lo (es ++ [e]) logs evs =
  spans_of ns hs lo es logs evs ++
    [MkSpanView n h (slice hi (e - hi) logs) (slice hi (e - hi) evs)].
Proof.
  revert ns hs lo. induction es as [|e' es IH]; intros [|n' ns] [|h' hs] lo H1 H2 Hends;
    simplify_eq/=; [done|]. destruct Hends as [? ?]. f_equal. by apply IH.
Qed.

Lemma spans_push_block_eq {E} (b : Batch E) blk evs :
  batch_wf b →
  spans (push_block b blk evs) =
  spans b ++ [MkSpanView (number blk) (bhash blk) (evs.*1) (evs.*2)].
Proof.
  intros (H1 & H2 & H3 & H4). rewrite !spans_eq. simpl.
  rewrite (spans_of_snoc _ _ _ (length (events b))) by done.
  rewrite (spans_of_app_lanes _ _ _ _ _ _ _ _ (length (events b))) by (done || lia).
  do 3 f_equal; unfold slice; rewrite drop_app_length' by lia; apply take_ge; lens.
Qed.

Lemma spans_ok_positions {E} (b : Batch E) :
  batch_wf b → batch_ok b → ascending (sv_number <$> spans b).
Proof. intros Hwf [Hasc _]. by rewrite spans_numbers. Qed.

(** The first offending span, as [validate_spans] reports it. *)
Lemma validate_spans_err {E} ns hs (evs : list E) logs sp lo hi es err :
  length ns = length es → length hs = length es →
  hi = length logs → length logs = length evs → ends_ok lo hi es →
  validate_spans logs lo sp es = Err err →
  ∃ k s, spans_of ns hs lo es logs evs !! k = Some s ∧
    Forall span_ok (take k (spans_of ns hs lo es logs evs)) ∧
    ((err = SpanEmpty (sp + k) ∧ sv_log_indices s = []) ∨
     ∃ i x y, err = LogIndexNotAscending (sp + k) (S i) ∧
       logs !! i = Some x ∧ logs !! S i = Some y ∧ (y ≤ x)%N).
Proof.
  intros H1 H2 Hhi Hev. revert ns hs sp lo H1 H2.
  induction es as [|e es IH]; intros [|n ns] [|h hs] sp lo H1 H2 Hends Herr; simplify_eq/=.
  destruct Hends as [Hle Hends]. pose proof (ends_ok_le _ _ _ Hends) as Hhi.
  assert (length (slice lo (e - lo) logs) = e - lo) as Hl1 by (apply length_slice; lia).
  assert (length (slice lo (e - lo) evs) = e - lo) as Hl2 by (apply length_slice; lia).
  destruct (e <=? lo) eqn:Hcmp; nbool; simplify_eq/=.
  { eexists 0, _. split_and!; [done|constructor|]. left. rewrite Nat.add_0_r. split; [done|].
    simpl. apply nil_length_inv. lia. }
  destruct (first_descent _) as [o|] eqn:Hfd; simplify_eq/=.
  - apply first_descent_Some in Hfd as [(k & x & y & -> & Hx & Hy & Hle') _].
    unfold slice in Hx, Hy. rewrite lookup_take_Some, lookup_drop in Hx, Hy.
    eexists 0, _. split_and!; [done|constructor|]. right. exists (lo + k), x, y.
    rewrite Nat.add_0_r, Nat.add_succ_r in *. naive_solver.
  - apply first_descent_None in Hfd.
    destruct (IH ns hs (S sp) e) as (k & s & Hs & Hok & Hcases); [done..|].
    exists (S k), s. simpl. rewrite Nat.add_succ_r. split_and!; [done| |exact Hcases].
    constructor; [|done]. repeat split; simpl; [|done|lia].
    intros Hnil. rewrite Hnil in Hl1. simpl in Hl1. lia.
Qed.

(** ** Properties *)

(** [validate] accepts a batch exactly when the block numbers strictly ascend and every span
    carries at least one event with strictly ascending log indices. A rejection names the
    first offender: the first block that does not exceed its predecessor, or, with the blocks
    in order, the first span that is empty or has a log index that does not exceed the one
    before it in the event lane. *)
Theorem validate_correct {E} (b : Batch E) :
  batch_wf b →
  (validate b = Ok () ↔ batch_ok b) ∧
  (∀ err, validate b = Err err →
    (∃ i x y, err = BlocksNotAscending (S i) ∧ blocks b !! i = Some x ∧
       blocks b !! S i = Some y ∧ (y ≤ x)%N ∧ ascending (take (S i) (blocks b))) ∨
    (ascending (blocks b) ∧ ∃ k s, spans b !! k = Some s ∧
       Forall span_ok (take k (spans b)) ∧
       ((err = SpanEmpty k ∧ sv_log_indices s = []) ∨
        ∃ i x y, err = LogIndexNotAscending k (S i) ∧ log_indices b !! i = Some x ∧
          log_indices b !! S i = Some y ∧ (y ≤ x)%N))).
Proof.
  intros Hwf. split; [by apply validate_ok_iff|]. intros err Herr.
  destruct Hwf as (H1 & H2 & H3 & H4). unfold validate in Herr.
  destruct (first_descent (blocks b)) as [i|] eqn:Hfd; simplify_eq/=.
  - left. apply first_descent_Some in Hfd as [(k & x & y & -> & ? & ? & ?) Hasc].
    exists k, x, y. done.
  - right. apply first_descent_None in Hfd. split; [done|]. rewrite spans_eq.
    apply (validate_spans_err (blocks b) (hashes b) (events b) _ 0 _ (length (log_indices b)))
      in Herr; [exact Herr|done..|by rewrite H3].
Qed.

Lemma validate_correct_witness :
  let b := push_block (push_block batch_new (MkBlockRef 4 []) [(0, 7); (2, 8)]%N)
             (MkBlockRef 6 []) [(1, 9)]%N in
  batch_wf b ∧ (validate b = Ok () ↔ batch_ok b).
Proof.
  simpl. split; [repeat split; simpl; lia|]. apply validate_correct. repeat split; simpl; lia.
Defined.

(** [push_block] appends one span holding exactly the block's header and events, leaves the
    earlier spans as they were, and keeps the lanes in agreement. *)
Lemma push_block_spans {E} (b : Batch E) blk evs :
  batch_wf b →
  batch_wf (push_block b blk evs) ∧
  spans (push_block b blk evs) =
    spans b ++ [MkSpanView (number blk) (bhash blk) (evs.*1) (evs.*2)].
Proof. intros Hwf. split; [by apply push_block_wf|by apply spans_push_block_eq]. Qed.
