(* ===== verification/Ring.v ===== *)
(** The bounded history of observed blocks ([crates/chainfold/src/ring.rs]): a power-of-two
    circular buffer in two lanes, its searches, and the oldest-first iterator. Its abstraction
    is the list of blocks, oldest first. *)
From S2P Require Import Prelude Position.

(** ** Data *)

(** [BlockRing]. *)
Record BlockRing := MkRing {
  numbers : list N;
  rhashes : list hash;
  head : nat;
  len : nat;
}.

(** [Observed<'a>]: the iterator state over a borrowed ring. *)
Record Observed := MkObserved { o_next : nat; o_remaining : nat }.

(** ** Operations *)

(** [BlockRing::with_capacity]; the capacity is a power of two, checked by
    [EngineConfig::validate]. *)
Definition with_capacity (capacity : nat) : BlockRing :=
  MkRing (replicate capacity 0%N) (replicate capacity (replicate 32 x00)) 0 0.

(** [BlockRing::capacity]. *)
Definition capacity (r : BlockRing) : nat := length (numbers r).

(** [BlockRing::physical]. *)
Definition physical (r : BlockRing) (logical : nat) : nat :=
  Nat.land (head r + logical) (capacity r - 1).

(** [BlockRing::push]. *)
Definition ring_push (r : BlockRing) (blk : BlockRef) : BlockRing :=
  if len r <? capacity r then
    let index := physical r (len r) in
    MkRing (<[index := number blk]> (numbers r)) (<[index := bhash blk]> (rhashes r))
           (head r) (len r + 1)
  else
    let index := head r in
    MkRing (<[index := number blk]> (numbers r)) (<[index := bhash blk]> (rhashes r))
           (Nat.land (head r + 1) (capacity r - 1)) (len r).

(** [self.numbers[self.physical(logical)]]; in range under [ring_wf]. *)
Definition number_at (r : BlockRing) (logical : nat) : N := numbers r !!! physical r logical.

(** [BlockRing::newest_number]. *)
Definition newest_number (r : BlockRing) : option N :=
  newest ← usize_checked_sub (len r) 1; Some (number_at r newest).

(** [BlockRing::get]. *)
Definition ring_get (r : BlockRing) (index : nat) : BlockRef :=
  let p := physical r index in MkBlockRef (numbers r !!! p) (rhashes r !!! p).

(** The loop of [index_at_or_below]; [fuel] bounds its iterations. *)
Fixpoint search_at_or_below (r : BlockRing) (n : N) (fuel low high : nat) : nat :=
  match fuel with
  | O => low
  | S fuel =>
    if low <? high then
      let mid := low + div_ceil (high - low) 2 in
      if (number_at r mid <=? n)%N
      then search_at_or_below r n fuel mid high
      else search_at_or_below r n fuel low (mid - 1)
    else low
  end.

(** [BlockRing::index_at_or_below]. *)
Definition index_at_or_below (r : BlockRing) (n : N) : option nat :=
  newest ← usize_checked_sub (len r) 1;
  if (number_at r newest <=? n)%N then Some newest else
  let low := search_at_or_below r n newest 0 newest in
  if (number_at r low <=? n)%N then Some low else None.

(** [BlockRing::index_of]. [usize::try_from(behind)] succeeds on a 64-bit target, so the
    guess is [newest - behind], or [0] when that underflows. *)
Definition index_of (r : BlockRing) (n : N) : option nat :=
  newest ← usize_checked_sub (len r) 1;
  behind ← checked_sub (number_at r newest) n;
  let guess := if (behind <=? N.of_nat newest)%N then newest - N.to_nat behind else 0 in
  if (number_at r guess =? n)%N then Some guess else
  logical ← index_at_or_below r n;
  if (number_at r logical =? n)%N then Some logical else None.

(** [BlockRing::hash_at]. *)
Definition hash_at (r : BlockRing) (n : N) : option hash :=
  logical ← index_of r n; Some (rhashes r !!! physical r logical).

(** [BlockRing::truncate_above]. *)
Definition truncate_above (r : BlockRing) (n : N) : BlockRing :=
  let l := match index_at_or_below r n with Some logical => logical + 1 | None => 0 end in
  MkRing (numbers r) (rhashes r) (if l =? 0 then 0 else head r) l.

(** [BlockRing::clear]. *)
Definition ring_clear (r : BlockRing) : BlockRing := MkRing (numbers r) (rhashes r) 0 0.

(** [BlockRing::iter]. *)
Definition ring_iter (r : BlockRing) : Observed := MkObserved 0 (len r).

(** [BlockRing::iter_at_or_below]. *)
Definition iter_at_or_below (r : BlockRing) (n : N) : Observed :=
  MkObserved 0 (from_option S 0 (index_at_or_below r n)).

(** [BlockRing::observes]. *)
Definition observes (r : BlockRing) (n : N) : bool := bool_decide (is_Some (index_of r n)).

(** [Observed::next]. *)
Definition observed_next (r : BlockRing) (o : Observed) : option (BlockRef * Observed) :=
  if o_remaining o =? 0 then None
  else Some (ring_get r (o_next o), MkObserved (o_next o + 1) (o_remaining o - 1)).

(** Draining an [Observed]: it yields [o_remaining] items. *)
Fixpoint observed_collect (r : BlockRing) (fuel : nat) (o : Observed) : list BlockRef :=
  match fuel with
  | O => []
  | S fuel =>
    match observed_next r o with
    | None => []
    | Some (b, o') => b :: observed_collect r fuel o'
    end
  end.
Definition observed_list (r : BlockRing) (o : Observed) : list BlockRef :=
  observed_collect r (o_remaining o) o.

(** ** Specification *)

(** The blocks a ring holds, oldest first. *)
Definition ring_list (r : BlockRing) : list BlockRef := ring_get r <$> seq 0 (len r).

(** The representation invariant. *)
Record ring_wf (r : BlockRing) : Prop := {
  ring_pow2 : ∃ k, capacity r = 2 ^ k;
  ring_lanes : length (rhashes r) = capacity r;
  ring_head : head r < capacity r;
  ring_len : len r ≤ capacity r;
  ring_asc : ascending (number <$> ring_list r);
}.

(** The entries at or below a number. *)
Definition at_or_below (n : N) (l : list BlockRef) : list BlockRef :=
  filter (λ b, (number b ≤ n)%N) l.

(** ** Lemmas: indices *)

Lemma land_pow2_mod k x : Nat.land x (2 ^ k - 1) = x mod 2 ^ k.
Proof. rewrite <- Nat.land_ones, Nat.ones_equiv. f_equal. pose proof (Nat.pow_nonzero 2 k). lia. Qed.

Lemma physical_mod r i : ring_wf r → physical r i = (head r + i) mod capacity r.
Proof.
  intros Hwf. destruct (ring_pow2 r Hwf) as [k Hk]. unfold physical.
  rewrite Hk. apply land_pow2_mod.
Qed.

Lemma capacity_pos r : ring_wf r → 0 < capacity r.
Proof. intros Hwf. pose proof (ring_head r Hwf). lia. Qed.

Lemma physical_lt r i : ring_wf r → physical r i < capacity r.
Proof.
  intros Hwf. rewrite physical_mod by done. apply Nat.mod_upper_bound.
  pose proof (capacity_pos r Hwf). lia.
Qed.

Lemma physical_inj r i j :
  ring_wf r → i < capacity r → j < capacity r → physical r i = physical r j → i = j.
Proof.
  intros Hwf Hi Hj. rewrite !physical_mod by done. pose proof (ring_head r Hwf).
  rewrite !mod_wrap by done. repeat case_decide; lia.
Qed.

Lemma length_ring_list r : length (ring_list r) = len r.
Proof. unfold ring_list. by rewrite length_fmap, length_seq. Qed.

Lemma ring_list_lookup r i b :
  ring_list r !! i = Some b ↔ i < len r ∧ b = ring_get r i.
Proof.
  unfold ring_list. rewrite list_lookup_fmap, fmap_Some. split.
  - intros (j & Hj & ->). apply lookup_seq in Hj as [-> Hj]. done.
  - intros [Hi ->]. exists i. split; [|done]. apply lookup_seq. lia.
Qed.

Lemma ring_list_elem r b : b ∈ ring_list r ↔ ∃ i, i < len r ∧ b = ring_get r i.
Proof.
  rewrite list_elem_of_lookup. split; intros [i Hi]; exists i; by apply ring_list_lookup.
Qed.

Lemma number_get r i : number (ring_get r i) = number_at r i.
Proof. done. Qed.

Lemma number_at_asc r i j :
  ring_wf r → i < j → j < len r → (number_at r i < number_at r j)%N.
Proof.
  intros Hwf Hij Hj. eapply (ascending_lookup _ i j); [by apply (ring_asc r)|done| |].
  - rewrite list_lookup_fmap. assert (ring_list r !! i = Some (ring_get r i)) as ->
      by (apply ring_list_lookup; split; [lia|done]). done.
  - rewrite list_lookup_fmap. assert (ring_list r !! j = Some (ring_get r j)) as ->
      by (apply ring_list_lookup; split; [lia|done]). done.
Qed.

Lemma number_at_le r i j :
  ring_wf r → i ≤ j → j < len r → (number_at r i ≤ number_at r j)%N.
Proof.
  intros Hwf Hij Hj. destruct (decide (i = j)) as [->|]; [lia|].
  apply N.lt_le_incl, number_at_asc; [done|lia|done].
Qed.

Lemma observed_collect_seq r fuel o :
  fuel = o_remaining o → observed_collect r fuel o = ring_get r <$> seq (o_next o) fuel.
Proof.
  revert o. induction fuel as [|fuel IH]; intros [nx rem] Hf; simpl in *; [done|]. subst rem.
  unfold observed_next. simpl. f_equal. rewrite IH; simpl; [|lia].
  by rewrite Nat.add_1_r.
Qed.

(** The iterator yields the abstract history. *)
Lemma ring_iter_list r : observed_list r (ring_iter r) = ring_list r.
Proof. unfold observed_list. by rewrite observed_collect_seq. Qed.

(** ** Lemmas: searches *)

Lemma div_ceil_half d : 0 < d → 1 ≤ div_ceil d 2 ≤ d.
Proof. intros Hd. pose proof (div_ceil_spec d 2). lia. Qed.

(** The binary search keeps [low] the last index known to be at or below [n], or [0], and
    everything above [high] strictly above [n]. *)
Lemma search_at_or_below_spec r n fuel low high :
  ring_wf r → high - low ≤ fuel → low ≤ high → high < len r →
  (0 < low → (number_at r low ≤ n)%N) →
  (∀ i, high < i → i < len r → (n < number_at r i)%N) →
  let res := search_at_or_below r n fuel low high in
  res < len r ∧ (0 < res → (number_at r res ≤ n)%N) ∧
  (∀ i, res < i → i < len r → (n < number_at r i)%N).
Proof.
  intros Hwf. revert low high. induction fuel as [|fuel IH]; intros low high Hf Hlh Hh Hlo Hhi; simpl.
  { assert (low = high) as -> by lia. auto. }
  destruct (low <? high) eqn:Hlt; nbool; [|assert (low = high) as -> by lia; auto].
  pose proof (div_ceil_half (high - low)).
  destruct (number_at r (low + div_ceil (high - low) 2) <=? n)%N eqn:Hcmp; nbool.
  - apply IH; [lia|lia|done| |done]. done.
  - apply IH; [lia|lia|lia|done|]. intros i Hi Hil.
    eapply N.lt_le_trans; [exact Hcmp|]. apply number_at_le; [done|lia|done].
Qed.

Lemma index_at_or_below_Some r n i :
  ring_wf r → index_at_or_below r n = Some i →
  i < len r ∧ (number_at r i ≤ n)%N ∧ ∀ j, i < j → j < len r → (n < number_at r j)%N.
Proof.
  intros Hwf. unfold index_at_or_below, usize_checked_sub.
  destruct (1 <=? len r) eqn:Hlen; nbool; [|done]. simpl.
  destruct (number_at r (len r - 1) <=? n)%N eqn:Hnew; nbool.
  { intros [= <-]. split_and!; [lia|done|]. intros j. lia. }
  destruct (search_at_or_below_spec r n (len r - 1) 0 (len r - 1)) as (H1 & _ & H3);
    [done|lia|lia|lia|lia|intros; lia|].
  destruct (number_at r (search_at_or_below _ _ _ _ _) <=? n)%N eqn:Hlow; nbool; [|done].
  by intros [= <-].
Qed.

Lemma index_at_or_below_None r n :
  ring_wf r → index_at_or_below r n = None →
  ∀ i, i < len r → (n < number_at r i)%N.
Proof.
  intros Hwf. unfold index_at_or_below, usize_checked_sub.
  destruct (1 <=? len r) eqn:Hlen; nbool; [|intros _ i; lia]. simpl.
  destruct (number_at r (len r - 1) <=? n)%N eqn:Hnew; nbool; [done|].
  destruct (search_at_or_below_spec r n (len r - 1) 0 (len r - 1)) as (H1 & H2 & H3);
    [done|lia|lia|lia|lia|intros; lia|].
  destruct (number_at r (search_at_or_below _ _ _ _ _) <=? n)%N eqn:Hlow; nbool; [done|].
  intros _ i Hi. destruct (decide (search_at_or_below r n (len r - 1) 0 (len r - 1) < i)); [auto|].
  assert (search_at_or_below r n (len r - 1) 0 (len r - 1) = 0) as Hz.
  { destruct (search_at_or_below _ _ _ _ _); [done|]. exfalso. specialize (H2 ltac:(lia)). lia. }
  rewrite Hz in *. by replace i with 0 by lia.
Qed.


Lemma at_or_below_prefix r n k :
  k ≤ len r →
  (∀ i, i < k → (number_at r i ≤ n)%N) → (∀ i, k ≤ i → i < len r → (n < number_at r i)%N) →
  at_or_below n (ring_list r) = take k (ring_list r).
Proof.
  intros Hk Hlo Hhi. unfold at_or_below. rewrite <- (take_drop k (ring_list r)) at 1.
  rewrite filter_app, filter_all, filter_none, app_nil_r; [done| |].
  - apply Forall_lookup. intros i b. rewrite lookup_drop, ring_list_lookup. intros [Hi ->].
    rewrite number_get. specialize (Hhi (k + i)). lia.
  - apply Forall_lookup. intros i b. rewrite lookup_take_Some, ring_list_lookup.
    intros [[Hi ->] Hik]. rewrite number_get. auto.
Qed.

(** The search returns the length of that prefix, less one. *)
Lemma index_at_or_below_list r n :
  ring_wf r →
  at_or_below n (ring_list r) = take (from_option S 0 (index_at_or_below r n)) (ring_list r) ∧
  from_option S 0 (index_at_or_below r n) ≤ len r.
Proof.
  intros Hwf. destruct (index_at_or_below r n) as [i|] eqn:Hi; simpl.
  - apply index_at_or_below_Some in Hi as (Hi & Hn & Hgt); [|done]. split; [|lia].
    apply at_or_below_prefix; [lia| |intros j ??; apply Hgt; lia].
    intros j Hj. etransitivity; [|exact Hn]. apply number_at_le; [done|lia|done].
  - split; [|lia]. apply at_or_below_prefix; [lia|lia|].
    intros j _ Hj. by eapply index_at_or_below_None.
Qed.

(** The tip-relative guess is always a live index. *)
Lemma index_of_guess r n :
  1 ≤ len r →
  let behind := (number_at r (len r - 1) - n)%N in
  ∃ guess, (if (behind <=? N.of_nat (len r - 1))%N then len r - 1 - N.to_nat behind else 0) = guess ∧
    guess < len r.
Proof. intros Hl behind. eexists. split; [done|]. case_match; lia. Qed.

Lemma index_of_Some r n i :
  ring_wf r → index_of r n = Some i ↔ i < len r ∧ number_at r i = n.
Proof.
  intros Hwf. unfold index_of, usize_checked_sub, checked_sub.
  destruct (1 <=? len r) eqn:Hlen; nbool; simpl; [|split; [done|lia]].
  destruct (n <=? number_at r (len r - 1))%N eqn:Hn; nbool; simpl.
  - destruct (index_of_guess r n Hlen) as (guess & -> & Hg).
    destruct (number_at r guess =? n)%N eqn:Hgn; nbool.
    + split; [intros [= <-]; done|]. intros [Hi Hin]. f_equal.
      destruct (lt_eq_lt_dec guess i) as [[Hlt| ]|Hlt]; [|done|].
      * pose proof (number_at_asc r guess i Hwf Hlt Hi). lia.
      * pose proof (number_at_asc r i guess Hwf Hlt Hg). lia.
    + destruct (index_at_or_below r n) as [k|] eqn:Hk; simpl.
      * apply index_at_or_below_Some in Hk as (Hk & Hkn & Hgt); [|done].
        destruct (number_at r k =? n)%N eqn:Hkn'; nbool.
        -- split; [intros [= <-]; done|]. intros [Hi Hin]. f_equal.
           destruct (lt_eq_lt_dec k i) as [[Hlt| ]|Hlt]; [|done|].
           ++ specialize (Hgt i Hlt Hi). lia.
           ++ pose proof (number_at_asc r i k Hwf Hlt Hk). lia.
        -- split; [done|]. intros [Hi Hin]. exfalso.
           destruct (lt_eq_lt_dec k i) as [[Hlt| ->]|Hlt]; [|done|].
           ++ specialize (Hgt i Hlt Hi). lia.
           ++ pose proof (number_at_asc r i k Hwf Hlt Hk). lia.
      * split; [done|]. intros [Hi Hin].
        pose proof (index_at_or_below_None r n Hwf Hk i Hi). lia.
  - split; [done|]. intros [Hi Hin].
    pose proof (number_at_le r i (len r - 1) Hwf). lia.
Qed.

(** [hash_at] is lookup by number in the history. *)
Lemma hash_at_Some r n h :
  ring_wf r → hash_at r n = Some h ↔ MkBlockRef n h ∈ ring_list r.
Proof.
  intros Hwf. unfold hash_at. rewrite ring_list_elem. split.
  - intros (i & Hin & Hh)%bind_Some. apply index_of_Some in Hin as [Hi Hn]; [|done].
    simplify_eq. by exists i.
  - intros (i & Hi & Heq). assert (index_of r n = Some i) as ->.
    { apply index_of_Some; [done|]. split; [done|]. by apply (f_equal number) in Heq. }
    simpl. apply (f_equal bhash) in Heq. simpl in Heq. by rewrite Heq.
Qed.

Lemma observes_spec r n :
  ring_wf r → observes r n = true ↔ n ∈ number <$> ring_list r.
Proof.
  intros Hwf. unfold observes. rewrite bool_decide_eq_true, list_elem_of_fmap. split.
  - intros [i Hin]. apply index_of_Some in Hin as [Hi Hn]; [|done]. exists (ring_get r i).
    split; [done|]. apply ring_list_elem. eauto.
  - intros (b & -> & (i & Hi & ->)%ring_list_elem). exists i. by apply index_of_Some.
Qed.

Lemma newest_number_list r : newest_number r = number <$> last (ring_list r).
Proof.
  unfold newest_number, usize_checked_sub. rewrite last_lookup, length_ring_list.
  destruct (1 <=? len r) eqn:Hlen; nbool; simpl.
  - assert (ring_list r !! pred (len r) = Some (ring_get r (pred (len r)))) as ->.
    { apply ring_list_lookup. split; [lia|done]. }
    by rewrite Nat.sub_1_r.
  - rewrite lookup_ge_None_2; [done|]. rewrite length_ring_list. lia.
Qed.

(** ** Lemmas: updates *)

Lemma with_capacity_wf k : ring_wf (with_capacity (2 ^ k)).
Proof.
  assert (0 < 2 ^ k) by (pose proof (Nat.pow_nonzero 2 k); lia).
  split; unfold capacity; simpl; rewrite ?length_replicate; [by exists k|done|lia|lia|constructor].
Qed.

Lemma with_capacity_list c : ring_list (with_capacity c) = [].
Proof. done. Qed.

Lemma ring_clear_wf r : ring_wf r → ring_wf (ring_clear r).
Proof.
  intros Hwf. pose proof (capacity_pos r Hwf). destruct Hwf.
  split; unfold capacity in *; simpl; try done; [lia|constructor].
Qed.

Lemma ring_clear_list r : ring_list (ring_clear r) = [].
Proof. done. Qed.

(** Lowering the length keeps a prefix. *)
Lemma ring_prefix_list r l :
  l ≤ len r → ring_list (MkRing (numbers r) (rhashes r) (head r) l) = take l (ring_list r).
Proof.
  intros Hl. apply list_eq. intros i. destruct (decide (i < l)).
  - rewrite lookup_take_lt by done. rewrite (proj2 (ring_list_lookup r i (ring_get r i))) by (split; [lia|done]).
    apply ring_list_lookup. done.
  - rewrite !lookup_ge_None_2; [done| |]; rewrite ?length_take, length_ring_list; simpl; lia.
Qed.

Lemma ascending_take (l : list N) k : ascending l → ascending (take k l).
Proof.
  intros Hl. revert k. induction Hl as [|x l Hl IH Hx]; intros [|k]; simpl; try constructor; [done|].
  by apply Forall_take.
Qed.

Lemma truncate_above_list r n :
  ring_wf r → ring_list (truncate_above r n) = at_or_below n (ring_list r).
Proof.
  intros Hwf. destruct (index_at_or_below_list r n Hwf) as [-> Hle]. unfold truncate_above.
  destruct (index_at_or_below r n) as [i|]; simpl in *; [|done].
  rewrite Nat.add_1_r. apply ring_prefix_list. lia.
Qed.

Lemma truncate_above_wf r n : ring_wf r → ring_wf (truncate_above r n).
Proof.
  intros Hwf. pose proof (truncate_above_list r n Hwf) as Hlist.
  destruct (index_at_or_below_list r n Hwf) as [Htake Hle].
  pose proof (capacity_pos r Hwf) as Hpos. destruct Hwf as [H1 H2 H3 H4 H5].
  unfold truncate_above in *. destruct (index_at_or_below r n) as [i|]; simpl in *.
  - split; unfold capacity in *; simpl; [done|done| |lia|].
    + case_match; lia.
    + rewrite Hlist, Htake, fmap_take. by apply ascending_take.
  - split; unfold capacity in *; simpl; [done..|lia|lia|constructor].
Qed.

(** [iter_at_or_below] yields the history at or below the argument. *)
Lemma iter_at_or_below_list r n :
  ring_wf r → observed_list r (iter_at_or_below r n) = at_or_below n (ring_list r).
Proof.
  intros Hwf. destruct (index_at_or_below_list r n Hwf) as [-> Hle].
  unfold observed_list, iter_at_or_below. rewrite observed_collect_seq by done. simpl.
  unfold ring_list. rewrite <- fmap_take, take_seq. do 2 f_equal. lia.
Qed.

Lemma ring_push_get_new r b :
  ring_wf r → len r < capacity r → ring_get (ring_push r b) (len r) = b.
Proof.
  intros Hwf Hlt. pose proof (physical_lt r (len r) Hwf) as Hp.
  unfold ring_push. rewrite (proj2 (Nat.ltb_lt _ _) Hlt). unfold ring_get, physical, capacity in *.
  simpl. rewrite length_insert. rewrite !list_lookup_total_insert_eq; [by destruct b| |done].
  by rewrite (ring_lanes r Hwf).
Qed.

(** The physical index depends on the capacity and the head only. *)
Lemma physical_ext r r' i : capacity r' = capacity r → head r' = head r → physical r' i = physical r i.
Proof. intros Hc Hh. unfold physical. by rewrite Hc, Hh. Qed.

Lemma ring_push_get_old r b i :
  ring_wf r → len r < capacity r → i < len r → ring_get (ring_push r b) i = ring_get r i.
Proof.
  intros Hwf Hlt Hi. unfold ring_push. rewrite (proj2 (Nat.ltb_lt _ _) Hlt).
  unfold ring_get. rewrite (physical_ext r) by (done || unfold capacity; simpl; apply length_insert).
  simpl. rewrite !list_lookup_total_insert_ne; [done|..];
    intros Heq; apply physical_inj in Heq; lia || done.
Qed.

(** A full ring's slot [i] becomes slot [i - 1] once the oldest entry is overwritten. *)
Lemma physical_shift r i :
  ring_wf r → S i < capacity r →
  (Nat.land (head r + 1) (capacity r - 1) + i) mod capacity r = (head r + S i) mod capacity r.
Proof.
  intros Hwf Hi. destruct (ring_pow2 r Hwf) as [k Hk]. rewrite Hk, land_pow2_mod.
  rewrite Nat.Div0.add_mod_idemp_l. f_equal. lia.
Qed.

Lemma ring_push_capacity r b : capacity (ring_push r b) = capacity r.
Proof. unfold ring_push, capacity. case_match; simpl; by rewrite length_insert. Qed.

Lemma ring_push_list r b :
  ring_wf r → ring_list (ring_push r b) = push_list (capacity r) (ring_list r) b.
Proof.
  intros Hwf. unfold push_list. rewrite length_ring_list.
  pose proof (ring_len r Hwf) as Hlen. pose proof (capacity_pos r Hwf) as Hpos.
  destruct (len r <? capacity r) eqn:Hlt; nbool.
  - assert (len (ring_push r b) = len r + 1) as Hl.
    { unfold ring_push. by rewrite (proj2 (Nat.ltb_lt _ _) Hlt). }
    unfold ring_list. rewrite Hl, seq_app, fmap_app. simpl. f_equal.
    + apply list_fmap_ext. intros i j [-> Hj]%lookup_seq. apply ring_push_get_old; [done|done|lia].
    + by rewrite ring_push_get_new.
  - assert (len r = capacity r) as Hfull by lia.
    assert (len (ring_push r b) = S (pred (len r))) as Hl.
    { unfold ring_push. rewrite (proj2 (Nat.ltb_ge _ _)) by lia. simpl. lia. }
    unfold ring_list at 1. rewrite Hl, seq_S, fmap_app. simpl.
    assert (∀ i, physical (ring_push r b) i =
              (Nat.land (head r + 1) (capacity r - 1) + i) mod capacity r) as Hphys.
    { intros i. destruct (ring_pow2 r Hwf) as [k Hk]. unfold physical.
      rewrite ring_push_capacity. unfold ring_push. rewrite (proj2 (Nat.ltb_ge _ _)) by lia.
      simpl. rewrite Hk. by rewrite land_pow2_mod. }
    assert (∀ i, ring_get (ring_push r b) i = MkBlockRef
       (<[head r := number b]> (numbers r) !!!
          ((Nat.land (head r + 1) (capacity r - 1) + i) mod capacity r))
       (<[head r := bhash b]> (rhashes r) !!!
          ((Nat.land (head r + 1) (capacity r - 1) + i) mod capacity r))) as Hget.
    { intros i. unfold ring_get. rewrite Hphys. unfold ring_push.
      by rewrite (proj2 (Nat.ltb_ge _ _)) by lia. }
    pose proof (ring_head r Hwf) as Hh. pose proof (ring_lanes r Hwf) as Hla.
    f_equal.
    + apply list_eq. intros i. rewrite lookup_drop.
      destruct (decide (i < pred (len r))).
      * rewrite list_lookup_fmap, lookup_seq_lt by done. simpl.
        rewrite (proj2 (ring_list_lookup r (S i) (ring_get r (S i)))) by (split; [lia|done]).
        f_equal. rewrite Hget, physical_shift by (done || lia). unfold ring_get.
        rewrite physical_mod by done.
        assert ((head r + S i) mod capacity r ≠ head r).
        { rewrite mod_wrap by lia. case_decide; lia. }
        by rewrite !list_lookup_total_insert_ne by done.
      * rewrite !lookup_ge_None_2; [done|rewrite length_ring_list; lia|].
        rewrite length_fmap, length_seq. lia.
    + f_equal. rewrite Hget.
      assert ((Nat.land (head r + 1) (capacity r - 1) + pred (len r)) mod capacity r = head r) as ->.
      { destruct (ring_pow2 r Hwf) as [k Hk]. rewrite Hk, land_pow2_mod, <- Hk.
        rewrite Nat.Div0.add_mod_idemp_l. rewrite Hfull.
        replace (head r + 1 + pred (capacity r)) with (head r + 1 * capacity r) by lia.
        rewrite Nat.Div0.mod_add. by apply Nat.mod_small. }
      rewrite !list_lookup_total_insert_eq; [by destruct b|by rewrite Hla|done].
Qed.

Lemma ascending_drop (l : list N) k : ascending l → ascending (drop k l).
Proof.
  intros Hl. revert k. induction Hl as [|x l Hl IH Hx]; intros [|k]; simpl; try constructor; done.
Qed.

Lemma last_drop_1 (l : list N) : is_Some (last (drop 1 l)) → last (drop 1 l) = last l.
Proof. destruct l as [|x [|y l]]; simpl; [done|by intros []|done]. Qed.

Lemma ring_push_wf r b :
  ring_wf r → (∀ n, newest_number r = Some n → (n < number b)%N) → ring_wf (ring_push r b).
Proof.
  intros Hwf Hnew. pose proof (capacity_pos r Hwf) as Hpos.
  pose proof (ring_push_list r b Hwf) as Hlist. pose proof (ring_push_capacity r b) as Hcap.
  split; rewrite ?Hcap; [apply Hwf|..].
  - destruct Hwf. unfold ring_push, capacity in *. case_match; simpl; by rewrite length_insert.
  - destruct (ring_pow2 r Hwf) as [k Hk]. pose proof (ring_head r Hwf).
    unfold ring_push. case_match; simpl; [done|]. rewrite Hk, land_pow2_mod.
    apply Nat.mod_upper_bound. lia.
  - pose proof (ring_len r Hwf). unfold ring_push. case_match eqn:Hlt; nbool; simpl; lia.
  - rewrite Hlist. unfold push_list. rewrite fmap_app. simpl. rewrite newest_number_list in Hnew.
    pose proof (ring_asc r Hwf) as Hasc. apply ascending_snoc.
    + case_match; [done|]. rewrite fmap_drop. by apply ascending_drop.
    + intros y Hy. apply Hnew. case_match; [by rewrite <- fmap_last|].
      rewrite fmap_drop in Hy. rewrite <- fmap_last, <- Hy. symmetry. apply last_drop_1. by eexists.
Qed.

(** ** Properties *)

(** The ring refines a bounded list of blocks: from an empty ring, pushes of rising numbers
    keep the newest [capacity] blocks in order, [truncate_above] filters, [clear] empties, the
    iterators read the list out, and every query ([hash_at], [observes], [newest_number])
    answers as the list does. *)
Theorem ring_refines_list r b n :
  ring_wf r → (∀ m, newest_number r = Some m → (m < number b)%N) →
  (ring_wf (ring_push r b) ∧ ring_list (ring_push r b) = push_list (capacity r) (ring_list r) b) ∧
  (ring_wf (truncate_above r n) ∧ ring_list (truncate_above r n) = at_or_below n (ring_list r)) ∧
  (ring_wf (ring_clear r) ∧ ring_list (ring_clear r) = []) ∧
  observed_list r (ring_iter r) = ring_list r ∧
  observed_list r (iter_at_or_below r n) = at_or_below n (ring_list r) ∧
  (∀ h, hash_at r n = Some h ↔ MkBlockRef n h ∈ ring_list r) ∧
  (observes r n = true ↔ n ∈ number <$> ring_list r) ∧
  newest_number r = number <$> last (ring_list r).
Proof.
  intros Hwf Hb. split_and!; auto using ring_push_wf, ring_push_list, truncate_above_wf,
    truncate_above_list, ring_clear_wf, ring_iter_list, iter_at_or_below_list, hash_at_Some,
    newest_number_list; by apply observes_spec.
Qed.

Lemma ring_refines_list_witness :
  let r := ring_push (ring_push (ring_push (with_capacity 2) (MkBlockRef 3 [x01]))
             (MkBlockRef 5 [x02])) (MkBlockRef 6 [x03]) in
  newest_number r = Some 6%N ∧
  ring_list (ring_push r (MkBlockRef 9 [x04])) = [MkBlockRef 6 [x03]; MkBlockRef 9 [x04]] ∧
  ring_list (truncate_above r 5) = [MkBlockRef 5 [x02]].
Proof.
  intros r. assert (ring_wf r) as Hwf.
  { repeat (apply ring_push_wf; [|by intros n [= <-]]). apply (with_capacity_wf 1). }
  destruct (ring_refines_list r (MkBlockRef 9 [x04]) 5 Hwf) as ([_ Hp] & [_ Ht] & _);
    [by intros m [= <-]|].
  rewrite Hp, Ht. by repeat split.
Defined.
