(* ===== verification/Checkpoint.v ===== *)
(** The fixed ring of engine restore points ([crates/chainfold/src/checkpoint.rs]). Its
    abstraction is a bounded queue of slots, oldest first, whose cursors never fall. *)
From S2P Require Import Prelude Position Ring.

(** ** Data *)

(** [Slot<F>]. *)
Record Slot (F : Type) := MkSlot { slot_fold : F; slot_cursor : option Position }.
Arguments MkSlot {F} _ _.
Arguments slot_fold {F} _.
Arguments slot_cursor {F} _.

(** [CheckpointRing<F>]. *)
Record CheckpointRing (F : Type) := MkCheckpointRing {
  slots : list (option (Slot F));
  cp_next : nat;
}.
Arguments MkCheckpointRing {F} _ _.
Arguments slots {F} _.
Arguments cp_next {F} _.

(** ** Operations *)

(** [live]: the engine's ring can still serve the slot's window. *)
Definition live {F} (r : BlockRing) (s : Slot F) : bool :=
  match slot_cursor s with None => true | Some c => observes r (block c) end.

(** [CheckpointRing::new]. *)
Definition cp_new {F} (n : nat) : CheckpointRing F := MkCheckpointRing (replicate n None) 0.

(** [CheckpointRing::oldest_first]: [slots.split_at(next)], the later part first. *)
Definition oldest_first {F} (c : CheckpointRing F) (r : BlockRing) : list (Slot F) :=
  filter (λ s, live r s = true) (omap id (drop (cp_next c) (slots c) ++ take (cp_next c) (slots c))).

(** [CheckpointRing::count]. *)
Definition cp_count {F} (c : CheckpointRing F) (r : BlockRing) : nat := length (oldest_first c r).

(** [CheckpointRing::store]. *)
Definition store {F} (c : CheckpointRing F) (s : Slot F) : CheckpointRing F :=
  let n := length (slots c) in
  if n =? 0 then c else
  MkCheckpointRing (<[cp_next c := Some s]> (slots c)) ((cp_next c + 1) mod n).

(** [CheckpointRing::oldest]. *)
Definition oldest {F} (c : CheckpointRing F) (r : BlockRing) : option (Slot F) :=
  hd_error (oldest_first c r).

(** The closure of [best_at_or_below]. *)
Definition slot_at_or_below {F} (b : N) (s : Slot F) : bool :=
  match slot_cursor s with None => true | Some p => (block p <=? b)%N end.

(** [CheckpointRing::best_at_or_below]: the newest-first scan. *)
Definition best_at_or_below {F} (c : CheckpointRing F) (b : N) (r : BlockRing) : option (Slot F) :=
  List.find (slot_at_or_below b) (reverse (oldest_first c r)).

(** The condition of [take_if]. *)
Definition is_newer {F} (cursor : option Position) (o : option (Slot F)) : bool :=
  match o with Some s => opos_ltb cursor (slot_cursor s) | None => false end.

(** The loop of [drop_newer]: it walks the slots in storage order, empties each one whose
    cursor is after the argument, and moves the write position back once for it. *)
Fixpoint drop_newer_loop {F} (n : nat) (cursor : option Position)
    (l : list (option (Slot F))) (nx : nat) : list (option (Slot F)) * nat :=
  match l with
  | [] => ([], nx)
  | o :: l =>
    let newer := is_newer cursor o in
    let (l', nx') := drop_newer_loop n cursor l (if newer then (nx + n - 1) mod n else nx) in
    ((if newer then None else o) :: l', nx')
  end.

(** [CheckpointRing::drop_newer]. *)
Definition drop_newer {F} (c : CheckpointRing F) (cursor : option Position) : CheckpointRing F :=
  let (l, nx) := drop_newer_loop (length (slots c)) cursor (slots c) (cp_next c) in
  MkCheckpointRing l nx.

(** [CheckpointRing::clear]. *)
Definition cp_clear {F} (c : CheckpointRing F) : CheckpointRing F :=
  MkCheckpointRing (replicate (length (slots c)) None) (cp_next c).

(** ** Specification *)

(** The slots held, oldest first, live or not. *)
Definition held {F} (c : CheckpointRing F) : list (Slot F) := omap id (rot (cp_next c) (slots c)).

(** Cursors never fall from one slot to the next. *)
Definition cursors_sorted {F} (xs : list (Slot F)) : Prop :=
  StronglySorted (λ a b, opos_le (slot_cursor a) (slot_cursor b)) xs.

(** The write position is in range, the holes come first from it, and cursors rise. *)
Record cp_wf {F} (c : CheckpointRing F) : Prop := {
  cp_range : cp_next c < length (slots c) ∨ slots c = [];
  cp_shape : ∃ k xs, rot (cp_next c) (slots c) = replicate k None ++ (Some <$> xs);
  cp_sorted : cursors_sorted (held c);
}.

(** Keeping the slots whose cursor is not after the argument. *)
Definition not_newer {F} (cursor : option Position) (s : Slot F) : bool :=
  negb (opos_ltb cursor (slot_cursor s)).

(** ** Lemmas *)

Section checkpoint.
Context {F : Type}.
Implicit Types (c : CheckpointRing F) (s : Slot F) (xs : list (Slot F)).

Lemma omap_id_Some xs : omap id (Some <$> xs) = xs.
Proof. induction xs as [|x xs IH]; [done|]. cbn. f_equal. exact IH. Qed.

Lemma omap_id_None k : omap id (replicate k (@None (Slot F))) = [].
Proof. induction k; done. Qed.

(** The shape clause determines the slots held. *)
Lemma held_shape c k xs : rot (cp_next c) (slots c) = replicate k None ++ (Some <$> xs) → held c = xs.
Proof. intros Hrot. unfold held. by rewrite Hrot, omap_app, omap_id_None, omap_id_Some. Qed.

Lemma cp_shape_held c :
  cp_wf c → ∃ k, rot (cp_next c) (slots c) = replicate k None ++ (Some <$> held c) ∧
    k + length (held c) = length (slots c).
Proof.
  intros [_ (k & xs & Hrot) _]. exists k. rewrite (held_shape _ _ _ Hrot). split; [done|].
  apply (f_equal length) in Hrot. rewrite length_rot in Hrot. lens.
Qed.

Lemma oldest_first_held c r : oldest_first c r = filter (λ s, live r s = true) (held c).
Proof. done. Qed.

Lemma cp_new_wf n : cp_wf (@cp_new F n).
Proof.
  assert (rot 0 (replicate n (@None (Slot F))) = replicate n None ++ (Some <$> [])) as Hrot.
  { unfold rot. by rewrite take_0, drop_0. }
  split; simpl.
  - destruct n; [by right|left; rewrite length_replicate; lia].
  - by exists n, [].
  - rewrite (held_shape (cp_new n) _ _ Hrot). constructor.
Qed.

Lemma cp_clear_wf c : cp_wf c → cp_wf (cp_clear c) ∧ held (cp_clear c) = [].
Proof.
  intros Hwf.
  assert (rot (cp_next c) (slots (cp_clear c)) = replicate (length (slots c)) None ++ (Some <$> []))
    as Hrot.
  { unfold rot. simpl. rewrite app_nil_r, drop_replicate, take_replicate, <- replicate_add.
    f_equal. lia. }
  pose proof (held_shape (cp_clear c) _ _ Hrot) as Hheld. split; [|done]. split.
  - simpl. destruct (cp_range c Hwf) as [Hr| ->]; [left|by right]. by rewrite length_replicate.
  - eauto.
  - rewrite Hheld. constructor.
Qed.

Lemma sorted_suffix xs k : cursors_sorted xs → cursors_sorted (drop k xs).
Proof.
  intros Hxs. revert k. induction Hxs as [|x xs Hxs IH Hx]; intros [|k]; simpl; try constructor; done.
Qed.

(** ** Lemmas: [store] *)

Lemma rot_insert_head {A} k (l : list A) x :
  k < length l → rot ((k + 1) mod length l) (<[k := x]> l) = drop 1 (rot k l) ++ [x].
Proof.
  intros Hk. apply list_eq. intros i.
  assert ((k + 1) mod length l < length l) as Hm by (apply Nat.mod_upper_bound; lia).
  destruct (decide (i < length l)).
  - rewrite rot_lookup by (rewrite length_insert; lia). rewrite length_insert.
    rewrite Nat.Div0.add_mod_idemp_l.
    destruct (decide (i = length l - 1)) as [->|].
    + replace (k + 1 + (length l - 1)) with (k + 1 * length l) by lia.
      rewrite Nat.Div0.mod_add, Nat.mod_small, list_lookup_insert_eq by lia.
      rewrite lookup_app_r by (rewrite length_drop, length_rot; lia).
      rewrite length_drop, length_rot. by replace (length l - 1 - (length l - 1)) with 0 by lia.
    + rewrite lookup_app_l by (rewrite length_drop, length_rot; lia).
      rewrite lookup_drop, rot_lookup by lia.
      replace (k + 1 + i) with (k + (1 + i)) by lia.
      apply list_lookup_insert_ne. rewrite mod_wrap by lia. case_decide; lia.
  - rewrite !lookup_ge_None_2; [done|..]; rewrite ?length_app, ?length_drop, length_rot, ?length_insert;
      simpl; lia.
Qed.

Lemma store_rot c s :
  cp_wf c → slots c ≠ [] →
  rot (cp_next (store c s)) (slots (store c s)) = drop 1 (rot (cp_next c) (slots c)) ++ [Some s].
Proof.
  intros Hwf Hne. destruct (cp_range c Hwf) as [Hr|]; [|done]. unfold store.
  destruct (length (slots c) =? 0) eqn:Hz; nbool; [lia|]. simpl. by apply rot_insert_head.
Qed.

(** Storing is pushing onto the bounded queue. *)
Lemma store_held c s :
  cp_wf c → slots c ≠ [] → held (store c s) = push_list (length (slots c)) (held c) s.
Proof.
  intros Hwf Hne. destruct (cp_shape_held c Hwf) as (k & Hrot & Hlen).
  apply (held_shape _ (pred k)). rewrite store_rot, Hrot by done. unfold push_list.
  destruct (length (held c) <? length (slots c)) eqn:Hcmp; nbool.
  - destruct k as [|k]; [lia|]. simpl. by rewrite drop_0, fmap_app, app_assoc.
  - assert (k = 0) as -> by lia. simpl. by rewrite fmap_app, fmap_drop.
Qed.

Lemma length_store c s : length (slots (store c s)) = length (slots c).
Proof. unfold store. case_match; simpl; [done|]. by rewrite length_insert. Qed.

Lemma store_wf c s :
  cp_wf c → Forall (λ x, opos_le (slot_cursor x) (slot_cursor s)) (held c) → cp_wf (store c s).
Proof.
  intros Hwf Hs. destruct (decide (slots c = [])) as [Hnil|Hne].
  { unfold store. by rewrite Hnil. }
  destruct (cp_range c Hwf) as [Hr|]; [|done].
  destruct (cp_shape_held c Hwf) as (k & Hrot & Hlen). split.
  - left. rewrite length_store. unfold store. destruct (length (slots c) =? 0) eqn:?; nbool; [done|].
    simpl. apply Nat.mod_upper_bound. lia.
  - rewrite store_rot, Hrot by done. destruct k as [|k].
    + exists 0, (drop 1 (held c) ++ [s]). simpl. by rewrite fmap_app, fmap_drop.
    + exists k, (held c ++ [s]). simpl. by rewrite drop_0, fmap_app, app_assoc.
  - rewrite store_held by done. unfold push_list, cursors_sorted. apply StronglySorted_app.
    split_and!.
    + intros x y Hx ->%list_elem_of_singleton. rewrite Forall_forall in Hs. apply Hs.
      case_match; [done|]. rewrite <- (take_drop 1 (held c)), elem_of_app. by right.
    + case_match; [apply Hwf|]. apply sorted_suffix, Hwf.
    + repeat constructor.
Qed.

(** ** Lemmas: [drop_newer] *)

(** What [drop_newer] leaves in one storage cell. *)
Definition keep_cell (cursor : option Position) (o : option (Slot F)) : option (Slot F) :=
  if is_newer cursor o then None else o.

(** Cells [drop_newer] empties. *)
Definition dropped (cursor : option Position) (l : list (option (Slot F))) : nat :=
  length (filter (λ o, is_newer cursor o = true) l).

Lemma drop_newer_loop_spec n cursor l nx :
  nx < n →
  drop_newer_loop n cursor l nx =
    (keep_cell cursor <$> l, (nx + dropped cursor l * (n - 1)) mod n).
Proof.
  revert nx. induction l as [|o l IH]; intros nx Hnx; simpl.
  { unfold dropped. simpl. by rewrite Nat.add_0_r, Nat.mod_small. }
  assert ((nx + n - 1) mod n < n) by (apply Nat.mod_upper_bound; lia).
  unfold keep_cell, dropped. destruct (is_newer cursor o) eqn:Hnew.
  - rewrite filter_cons_True by done. rewrite IH by done. simpl. f_equal.
    replace (nx + n - 1) with (nx + (n - 1)) by lia. rewrite Nat.Div0.add_mod_idemp_l.
    f_equal. unfold dropped. lia.
  - rewrite filter_cons_False by congruence. by rewrite IH.
Qed.

Lemma dropped_rot cursor k l : dropped cursor (rot k l) = dropped cursor l.
Proof.
  unfold dropped, rot. rewrite <- (take_drop k l) at 3. rewrite !filter_app, !length_app. lia.
Qed.

(** Moving the start back by the length of the tail brings the tail to the front. *)
Lemma rot_back {A} k (l a b : list A) :
  k < length l → rot k l = a ++ b →
  rot ((k + length b * (length l - 1)) mod length l) l = b ++ a.
Proof.
  intros Hk Hab. pose proof (f_equal length Hab) as Hlen. rewrite length_rot, length_app in Hlen.
  set (n := length l) in *. assert (0 < n) by lia.
  assert ((k + length b * (n - 1)) mod n = (k + (n - length b)) mod n) as ->.
  { rewrite <- (Nat.Div0.mod_add (k + (n - length b)) (length b - 1) n).
    destruct b as [|x b]; simpl length in *.
    - simpl. rewrite !Nat.add_0_r, Nat.sub_0_r.
      rewrite <- (Nat.Div0.mod_add k 1 n). f_equal. lia.
    - f_equal. nia. }
  apply list_eq. intros i. destruct (decide (i < n)) as [Hi|Hi].
  - rewrite rot_lookup by (fold n; apply Nat.mod_upper_bound || done; lia). fold n.
    rewrite Nat.Div0.add_mod_idemp_l.
    destruct (decide (i < length b)).
    + rewrite lookup_app_l by done.
      assert (b !! i = rot k l !! (length a + i)) as ->.
      { rewrite Hab, lookup_app_r by lia. f_equal. lia. }
      rewrite rot_lookup by (fold n; lia). fold n. do 2 f_equal. lia.
    + rewrite lookup_app_r by lia.
      assert (a !! (i - length b) = rot k l !! (i - length b)) as ->.
      { rewrite Hab, lookup_app_l by lia. done. }
      rewrite rot_lookup by (fold n; lia). fold n.
      replace (k + (n - length b) + i) with (k + (i - length b) + 1 * n) by lia.
      by rewrite Nat.Div0.mod_add.
  - rewrite !lookup_ge_None_2; [done|..]; rewrite ?length_app, ?length_rot; lia.
Qed.

(** In a queue of rising cursors the slots after a cursor are a suffix. *)
Lemma sorted_split cursor xs :
  cursors_sorted xs →
  ∃ a b, xs = a ++ b ∧ Forall (λ s, not_newer cursor s = true) a ∧
    Forall (λ s, not_newer cursor s = false) b.
Proof.
  induction 1 as [|x xs Hxs IH Hx]; [by exists [], []|].
  destruct (not_newer cursor x) eqn:Hn.
  - destruct IH as (a & b & -> & Ha & Hb). exists (x :: a), b. split_and!; [done| |done].
    by constructor.
  - exists [], (x :: xs). split_and!; [done|constructor|]. constructor; [done|].
    eapply Forall_impl; [exact Hx|]. intros y Hy. simpl in *. unfold not_newer in *.
    nbool. apply negb_false_iff.
    destruct (opos_lt_total cursor (slot_cursor y)) as [?|[->|Hlt]]; [done| |].
    + unfold opos_le in Hy. congruence.
    + assert (opos_le (slot_cursor x) cursor) as Hxc by (etransitivity; [exact Hy|auto with works]).
      unfold opos_le in Hxc. congruence.
Qed.

Lemma not_newer_newer cursor s : is_newer cursor (Some s) = negb (not_newer cursor s).
Proof. unfold not_newer. simpl. by rewrite negb_involutive. Qed.

Lemma dropped_None cursor k : dropped cursor (replicate k None) = 0.
Proof. unfold dropped. induction k as [|k IH]; [done|]. simpl. by rewrite filter_cons_False. Qed.

Lemma dropped_kept cursor xs :
  Forall (λ s, not_newer cursor s = true) xs →
  dropped cursor (Some <$> xs) = 0 ∧ keep_cell cursor <$> (Some <$> xs) = Some <$> xs.
Proof.
  unfold dropped. induction 1 as [|x xs Hx Hxs [IH1 IH2]]; [done|]. split.
  - rewrite fmap_cons, filter_cons_False; [done|]. rewrite not_newer_newer, Hx. done.
  - rewrite !fmap_cons, IH2. f_equal. unfold keep_cell. by rewrite not_newer_newer, Hx.
Qed.

Lemma dropped_newer cursor xs :
  Forall (λ s, not_newer cursor s = false) xs →
  dropped cursor (Some <$> xs) = length xs ∧
  keep_cell cursor <$> (Some <$> xs) = replicate (length xs) None.
Proof.
  unfold dropped. induction 1 as [|x xs Hx Hxs [IH1 IH2]]; [done|]. split.
  - rewrite fmap_cons, filter_cons_True; [|by rewrite not_newer_newer, Hx]. simpl. by f_equal.
  - rewrite !fmap_cons, IH2. simpl. f_equal. unfold keep_cell. by rewrite not_newer_newer, Hx.
Qed.

Lemma keep_cell_None cursor k : keep_cell cursor <$> replicate k None = replicate k None.
Proof. induction k as [|k IH]; [done|]. cbn. f_equal. exact IH. Qed.

(** [drop_newer] filters the queue, and the cells it empties become the next to be written. *)
Lemma drop_newer_spec c cursor :
  cp_wf c →
  cp_wf (drop_newer c cursor) ∧
  held (drop_newer c cursor) = filter (λ s, not_newer cursor s = true) (held c) ∧
  length (slots (drop_newer c cursor)) = length (slots c).
Proof.
  intros Hwf. destruct (cp_range c Hwf) as [Hr|Hnil]; last first.
  { unfold drop_newer, held. rewrite Hnil. simpl. unfold rot. rewrite drop_nil, take_nil.
    split_and!; [|done..]. split; simpl; [by right| |].
    - exists 0, []. unfold rot. by rewrite drop_nil, take_nil.
    - unfold held, rot. simpl. rewrite drop_nil, take_nil. constructor. }
  destruct (cp_shape_held c Hwf) as (k & Hrot & Hlen).
  destruct (sorted_split cursor (held c) (cp_sorted c Hwf)) as (a & b & Hab & Ha & Hb).
  destruct (dropped_kept cursor a Ha) as [Ha1 Ha2], (dropped_newer cursor b Hb) as [Hb1 Hb2].
  assert (dropped cursor (slots c) = length b) as Hd.
  { rewrite <- (dropped_rot cursor (cp_next c)), Hrot, Hab, fmap_app. unfold dropped in *.
    rewrite !filter_app, !length_app, Ha1, Hb1.
    pose proof (dropped_None cursor k) as Hk. unfold dropped in Hk. lia. }
  assert (drop_newer c cursor = MkCheckpointRing (keep_cell cursor <$> slots c)
    ((cp_next c + length b * (length (slots c) - 1)) mod length (slots c))) as Heq.
  { unfold drop_newer. rewrite drop_newer_loop_spec by done. by rewrite Hd. }
  assert (rot (cp_next (drop_newer c cursor)) (slots (drop_newer c cursor)) =
    replicate (length b + k) None ++ (Some <$> a)) as Hrot'.
  { rewrite Heq. simpl. rewrite replicate_add, <- app_assoc.
    rewrite <- (length_replicate (length b) (@None (Slot F))) at 1.
    rewrite <- (length_fmap (keep_cell cursor) (slots c)).
    apply rot_back; [by rewrite length_fmap|].
    rewrite rot_fmap, Hrot, Hab, !fmap_app, keep_cell_None, Ha2, Hb2. by rewrite app_assoc. }
  pose proof (held_shape _ _ _ Hrot') as Hheld. split_and!.
  - split.
    + left. rewrite Heq. simpl. rewrite length_fmap. apply Nat.mod_upper_bound. lia.
    + eauto.
    + rewrite Hheld. pose proof (cp_sorted c Hwf) as Hs. rewrite Hab in Hs. unfold cursors_sorted in *.
      apply StronglySorted_app in Hs. tauto.
  - rewrite Hheld, Hab, filter_app, filter_all, filter_none, app_nil_r; [done| |done].
    eapply Forall_impl; [exact Hb|]. simpl. congruence.
  - rewrite Heq. simpl. by rewrite length_fmap.
Qed.

(** The newest-first scan returns the newest live slot at or below the block. *)
Lemma best_at_or_below_Some c b r s :
  best_at_or_below c b r = Some s ↔
  ∃ l1 l2, oldest_first c r = l1 ++ s :: l2 ∧ slot_at_or_below b s = true ∧
    Forall (λ s, slot_at_or_below b s = false) l2.
Proof. apply find_reverse_Some. Qed.

Lemma best_at_or_below_None c b r :
  best_at_or_below c b r = None ↔
  Forall (λ s, slot_at_or_below b s = false) (oldest_first c r).
Proof. apply find_reverse_None. Qed.

Lemma oldest_first_elem c r s : s ∈ oldest_first c r ↔ s ∈ held c ∧ live r s = true.
Proof. rewrite oldest_first_held, list_elem_of_filter. tauto. Qed.

Lemma best_at_or_below_held c b r s :
  best_at_or_below c b r = Some s →
  s ∈ held c ∧ live r s = true ∧ slot_at_or_below b s = true.
Proof.
  intros (l1 & l2 & Hl & Hb & _)%best_at_or_below_Some.
  assert (s ∈ oldest_first c r) as [? ?]%oldest_first_elem; [|done].
  rewrite Hl, elem_of_app. right. by left.
Qed.

(** ** Properties *)

(** The checkpoint ring refines a bounded queue of slots with rising cursors: [store] pushes
    and, at capacity, evicts the oldest; [drop_newer] keeps exactly the slots not after the
    cursor, and the cells it empties are refilled before any kept slot is evicted, since the
    queue it leaves still has the full capacity; [clear] empties it; [oldest] is the first
    live slot and [best_at_or_below] the last live one at or below the block. *)
Theorem checkpoint_ring_refines_queue c r s s' cursor b :
  cp_wf c → slots c ≠ [] → Forall (λ x, opos_le (slot_cursor x) (slot_cursor s)) (held c) →
  opos_le cursor (slot_cursor s') →
  (cp_wf (store c s) ∧ held (store c s) = push_list (length (slots c)) (held c) s) ∧
  (let kept := filter (λ x, not_newer cursor x = true) (held c) in
   cp_wf (drop_newer c cursor) ∧ held (drop_newer c cursor) = kept ∧
   held (store (drop_newer c cursor) s') = push_list (length (slots c)) kept s') ∧
  (cp_wf (cp_clear c) ∧ held (cp_clear c) = []) ∧
  oldest c r = hd_error (filter (λ x, live r x = true) (held c)) ∧
  (∀ x, best_at_or_below c b r = Some x ↔
    ∃ l1 l2, filter (λ x, live r x = true) (held c) = l1 ++ x :: l2 ∧
      slot_at_or_below b x = true ∧ Forall (λ y, slot_at_or_below b y = false) l2).
Proof.
  intros Hwf Hne Hs Hs'. destruct (drop_newer_spec c cursor Hwf) as (Hd1 & Hd2 & Hd3).
  split_and!; auto using store_wf, store_held, best_at_or_below_Some; try apply cp_clear_wf; try done.
  rewrite store_held, Hd2, Hd3; [done|done|]. intros Hnil. rewrite Hnil in Hd3. by destruct (slots c).
Qed.

End checkpoint.

Lemma checkpoint_ring_refines_queue_witness :
  let sl n := MkSlot n (Some (MkPosition n 0)) in
  let c := store (store (cp_new 2) (sl 3%N)) (sl 5%N) in
  held (store c (sl 7%N)) = [sl 5%N; sl 7%N] ∧
  held (drop_newer c (Some (MkPosition 4 0))) = [sl 3%N] ∧
  best_at_or_below c 4 (ring_push (with_capacity 2) (MkBlockRef 3 [])) = Some (sl 3%N).
Proof.
  intros sl c.
  assert (cp_wf c) as Hwf.
  { apply store_wf; [apply store_wf; [apply cp_new_wf|constructor]|]. by repeat constructor. }
  destruct (checkpoint_ring_refines_queue c (ring_push (with_capacity 2) (MkBlockRef 3 []))
              (sl 7%N) (sl 7%N) (Some (MkPosition 4 0)) 4 Hwf) as ((_ & H1) & (_ & H2 & _) & _ & _ & H3);
    [done|by repeat constructor|done|].
  rewrite H1, H2. split_and!; [done..|]. apply H3. by exists [], [].
Defined.
