(* ===== verification/ChainError.v ===== *)
(** The error and status types of chainfold ([crates/chainfold/src/error.rs]). The [Display]
    texts are not modelled. *)
From S2P Require Import Prelude Position Batch.

(** [FoldError<E>]. *)
Inductive FoldError (X : Type) :=
| Skip (x : X)
| Halt (x : X)
| Poison (x : X).
Arguments Skip {X} x.
Arguments Halt {X} x.
Arguments Poison {X} x.

(** [DivergenceCause]. *)
Inductive DivergenceCause :=
| HorizonExceeded (needed horizon : N).

(** [EngineStatus]. *)
Inductive EngineStatus :=
| Active
| Halted (at_ : Position)
| Poisoned (at_ : Position)
| Unrecoverable (cause : DivergenceCause).

(** [EngineStatus::is_active]. *)
Definition is_active (s : EngineStatus) : bool :=
  match s with Active => true | _ => false end.

(** [DurabilityLost]. *)
Inductive DurabilityLost := MkDurabilityLost.

(** [ConfigError]. *)
Inductive ConfigError :=
| RingCapacityNotPowerOfTwo (got : nat)
| RingCapacityOutOfRange (got : nat)
| CheckpointSlotsOutOfRange (got : nat)
| HorizonExceedsStart (start_ horizon : N).

(** [ApplyError<E>]. *)
Inductive ApplyError (X : Type) :=
| NotActive (status : EngineStatus)
| Shape (e : BatchShapeError)
| MissingBoundary
| BoundaryNumberMismatch (expected got : N)
| ForkSuspected (observed refetched : BlockRef)
| CursorBlockUnobserved (blk : N)
| ApplyHalted (at_ : Position) (error : X)
| ApplyPoisoned (at_ : Position) (error : X).
Arguments NotActive {X} status.
Arguments Shape {X} e.
Arguments MissingBoundary {X}.
Arguments BoundaryNumberMismatch {X} expected got.
Arguments ForkSuspected {X} observed refetched.
Arguments CursorBlockUnobserved {X} blk.
Arguments ApplyHalted {X} at_ error.
Arguments ApplyPoisoned {X} at_ error.

(** [RollbackError]. *)
Inductive RollbackError :=
| NoCheckpointAtOrBelow (blk : N)
| RollbackUnrecoverable (cause : DivergenceCause).

#[export] Instance DivergenceCause_eq_dec : EqDecision DivergenceCause.
Proof. solve_decision. Defined.
#[export] Instance EngineStatus_eq_dec : EqDecision EngineStatus.
Proof. solve_decision. Defined.
#[export] Instance ConfigError_eq_dec : EqDecision ConfigError.
Proof. solve_decision. Defined.
#[export] Instance RollbackError_eq_dec : EqDecision RollbackError.
Proof. solve_decision. Defined.
#[export] Instance FoldError_eq_dec {X} `{EqDecision X} : EqDecision (FoldError X).
Proof. solve_decision. Defined.
#[export] Instance ApplyError_eq_dec {X} `{EqDecision X} : EqDecision (ApplyError X).
Proof. solve_decision. Defined.

Lemma is_active_true s : is_active s = true ↔ s = Active.
Proof. by destruct s. Qed.
