(* ===== verification/Engine.v ===== *)
(** The single-writer fold engine ([crates/chainfold/src/engine.rs] and [fold.rs]): ordering,
    dedup, fork detection, checkpoints and rollback. The consumer's fold is a type class. *)
From S2P Require Import Prelude Position Batch Ring Checkpoint ChainError.

(** ** Interfaces and data *)

(** The [Fold] trait: one call mutates the fold and returns, or unwinds. *)
Class Fold (F E X : Type) :=
  fold_apply : F → Position → E → F * outcome (result () (FoldError X)).

(** [EngineConfig]. *)
Record EngineConfig := MkEngineConfig { ring_capacity : nat; checkpoint_slots : nat }.

(** [ApplySummary]. Its [u64] counters, and [skips] of the engine, count events one by one. They are unbounded
    here: only after 2^64 events, or from a snapshot that says so, would the code's additions overflow. *)
Record ApplySummary := MkApplySummary { applied : N; deduped : N; skipped : N }.
#[export] Instance ApplySummary_eq_dec : EqDecision ApplySummary.
Proof. solve_decision. Defined.

(** [Engine<F>]. *)
Record Engine (F : Type) := MkEngine {
  fold : F;
  cursor : option Position;
  ring : BlockRing;
  checkpoints : CheckpointRing F;
  status : EngineStatus;
  last_verified : option BlockRef;
  skips : N;
  resets : N;
}.
Arguments MkEngine {F} _ _ _ _ _ _ _ _.
Arguments fold {F} _.
Arguments cursor {F} _.
Arguments ring {F} _.
Arguments checkpoints {F} _.
Arguments status {F} _.
Arguments last_verified {F} _.
Arguments skips {F} _.
Arguments resets {F} _.

(** Field assignments. *)
Definition set_fold {F} (f : F) (e : Engine F) : Engine F :=
  MkEngine f (cursor e) (ring e) (checkpoints e) (status e) (last_verified e) (skips e) (resets e).
Definition set_cursor {F} (c : option Position) (e : Engine F) : Engine F :=
  MkEngine (fold e) c (ring e) (checkpoints e) (status e) (last_verified e) (skips e) (resets e).
Definition set_ring {F} (r : BlockRing) (e : Engine F) : Engine F :=
  MkEngine (fold e) (cursor e) r (checkpoints e) (status e) (last_verified e) (skips e) (resets e).
Definition set_checkpoints {F} (c : CheckpointRing F) (e : Engine F) : Engine F :=
  MkEngine (fold e) (cursor e) (ring e) c (status e) (last_verified e) (skips e) (resets e).
Definition set_status {F} (s : EngineStatus) (e : Engine F) : Engine F :=
  MkEngine (fold e) (cursor e) (ring e) (checkpoints e) s (last_verified e) (skips e) (resets e).
Definition set_last_verified {F} (b : option BlockRef) (e : Engine F) : Engine F :=
  MkEngine (fold e) (cursor e) (ring e) (checkpoints e) (status e) b (skips e) (resets e).
Definition set_skips {F} (n : N) (e : Engine F) : Engine F :=
  MkEngine (fold e) (cursor e) (ring e) (checkpoints e) (status e) (last_verified e) n (resets e).

(** ** Construction *)

Definition MIN_RING_CAPACITY : nat := 2.
Definition MAX_RING_CAPACITY : N := 1048576.
Definition MAX_CHECKPOINT_SLOTS : N := 65536.

(** [EngineConfig::default]. *)
Definition engine_config_default : EngineConfig := MkEngineConfig 1024 4.

(** [EngineConfig::validate]. *)
Definition config_validate (c : EngineConfig) : result () ConfigError :=
  if negb (is_power_of_two (ring_capacity c))
  then Err (RingCapacityNotPowerOfTwo (ring_capacity c)) else
  if negb ((MIN_RING_CAPACITY <=? ring_capacity c) &&
           (N.of_nat (ring_capacity c) <=? MAX_RING_CAPACITY)%N)
  then Err (RingCapacityOutOfRange (ring_capacity c)) else
  if (MAX_CHECKPOINT_SLOTS <? N.of_nat (checkpoint_slots c))%N
  then Err (CheckpointSlotsOutOfRange (checkpoint_slots c)) else
  Ok ().

(** [Engine::new]. *)
Definition engine_new {F} (f : F) (c : EngineConfig) : result (Engine F) ConfigError :=
  match config_validate c with
  | Err e => Err e
  | Ok _ => Ok (MkEngine f None (with_capacity (ring_capacity c)) (cp_new (checkpoint_slots c))
                  Active None 0 0)
  end.

(** ** Observers *)

(** [Engine::checkpoint_count]. *)
Definition checkpoint_count {F} (e : Engine F) : nat := cp_count (checkpoints e) (ring e).

(** [Engine::oldest_checkpoint]. *)
Definition oldest_checkpoint {F} (e : Engine F) : option (Slot F) := oldest (checkpoints e) (ring e).

(** [Engine::durable_point]. *)
Definition durable_point {F} (e : Engine F) : option Position :=
  s ← oldest (checkpoints e) (ring e); slot_cursor s.

(** [Engine::durable_fold]. *)
Definition durable_fold {F} (e : Engine F) : option F :=
  slot_fold <$> oldest (checkpoints e) (ring e).

(** [Engine::observed], collected. *)
Definition observed {F} (e : Engine F) : list BlockRef := observed_list (ring e) (ring_iter (ring e)).

(** [Engine::observed_at_or_below], collected. *)
Definition observed_at_or_below {F} (e : Engine F) (n : N) : list BlockRef :=
  observed_list (ring e) (iter_at_or_below (ring e) n).

(** ** Applying a batch *)

(** [fork_suspected]. *)
Definition fork_suspected {X} (n : N) (observed_hash : hash) (refetched : BlockRef) : ApplyError X :=
  ForkSuspected (MkBlockRef n observed_hash) refetched.

(** [Engine::advance]. *)
Definition advance {F} (e : Engine F) (n : N) (h : hash) (pos : Position) : Engine F :=
  let e :=
    if match newest_number (ring e) with None => true | Some newest => (newest <? n)%N end
    then let blk := MkBlockRef n h in
         set_last_verified (Some blk) (set_ring (ring_push (ring e) blk) e)
    else e in
  set_cursor (Some pos) e.

(** [Engine::consumed_through]. *)
Definition consumed_through {F E} (e : Engine F) (sp : SpanView E) (indices : list N)
    (offset : nat) : Engine F :=
  match (i ← usize_checked_sub offset 1; indices !! i) with
  | Some li => advance e (sv_number sp) (sv_hash sp) (MkPosition (sv_number sp) li)
  | None => e
  end.

(** [Engine::halt]. *)
Definition halt {F X} (e : Engine F) (at_ : Position) (x : X) : Engine F * ApplyError X :=
  (set_status (Halted at_) e, ApplyHalted at_ x).

(** [Engine::poison]. *)
Definition poison {F X} (e : Engine F) (at_ : Position) (x : X) : Engine F * ApplyError X :=
  (set_status (Poisoned at_) e, ApplyPoisoned at_ x).

Definition add_applied (s : ApplySummary) : ApplySummary :=
  MkApplySummary (applied s + 1) (deduped s) (skipped s).
Definition add_skipped (s : ApplySummary) : ApplySummary :=
  MkApplySummary (applied s) (deduped s) (skipped s + 1).
Definition add_deduped (n : nat) (s : ApplySummary) : ApplySummary :=
  MkApplySummary (applied s) (deduped s + N.of_nat n) (skipped s).

Section apply.
Context {F E X : Type} `{!Fold F E X}.

(** The event loop of [Engine::apply_span]. *)
Fixpoint apply_events (e : Engine F) (sm : ApplySummary) (sp : SpanView E) (indices : list N)
    (offset : nat) (rest : list (N * E))
    : Engine F * ApplySummary * outcome (result () (ApplyError X)) :=
  match rest with
  | [] => (e, sm, Returns (Ok ()))
  | (li, ev) :: rest =>
    let at_ := MkPosition (sv_number sp) li in
    let '(f, out) := fold_apply (fold e) at_ ev in
    let e := set_fold f e in
    match out with
    | Panics => (e, sm, Panics)
    | Returns (Ok _) => apply_events e (add_applied sm) sp indices (S offset) rest
    | Returns (Err (Skip _)) =>
        apply_events (set_skips (skips e + 1) e) (add_skipped sm) sp indices (S offset) rest
    | Returns (Err (Halt x)) =>
        let '(e, err) := halt (consumed_through e sp indices offset) at_ x in
        (e, sm, Returns (Err err))
    | Returns (Err (Poison x)) =>
        let '(e, err) := poison (consumed_through e sp indices offset) at_ x in
        (e, sm, Returns (Err err))
    end
  end.

(** How many leading events of a span sit at or below the cursor. *)
Definition span_deduped (c : option Position) (sp : SpanView E) : nat :=
  match c with
  | None => 0
  | Some c =>
    if (block c <? sv_number sp)%N then 0
    else if (sv_number sp <? block c)%N then length (sv_log_indices sp)
    else partition_point (λ index, (index <=? log_index c)%N) (sv_log_indices sp)
  end.

(** [Engine::apply_span]. *)
Definition apply_span (e : Engine F) (sm : ApplySummary) (sp : SpanView E)
    : Engine F * ApplySummary * outcome (result () (ApplyError X)) :=
  let d := span_deduped (cursor e) sp in
  let sm := add_deduped d sm in
  let indices := drop d (sv_log_indices sp) in
  let evs := drop d (sv_events sp) in
  match last indices with
  | None => (e, sm, Returns (Ok ()))
  | Some l =>
    match apply_events e sm sp indices 0 (zip indices evs) with
    | (e, sm, Returns (Ok _)) =>
        (advance e (sv_number sp) (sv_hash sp) (MkPosition (sv_number sp) l), sm, Returns (Ok ()))
    | stop => stop
    end
  end.

(** The fork check of a redelivered span: the hash observed for its block, when that differs
    from the span's. *)
Definition span_fork (e : Engine F) (sp : SpanView E) : option hash :=
  let redelivered :=
    match cursor e with None => false | Some c => (sv_number sp <=? block c)%N end in
  if redelivered then
    match hash_at (ring e) (sv_number sp) with
    | Some h => if bool_decide (h = sv_hash sp) then None else Some h
    | None => None
    end
  else None.

(** The span loop of [Engine::apply_batch]. *)
Fixpoint apply_spans (e : Engine F) (sm : ApplySummary) (sps : list (SpanView E))
    : Engine F * ApplySummary * outcome (result () (ApplyError X)) :=
  match sps with
  | [] => (e, sm, Returns (Ok ()))
  | sp :: sps =>
    match span_fork e sp with
    | Some h =>
        (set_status Active e, sm, Returns (Err (fork_suspected (sv_number sp) h (sv_block sp))))
    | None =>
      match apply_span e sm sp with
      | (e, sm, Returns (Ok _)) => apply_spans e sm sps
      | stop => stop
      end
    end
  end.

(** The boundary recheck of [Engine::apply_batch]. *)
Definition check_boundary (e : Engine F) (b : Batch E) : result (Engine F) (ApplyError X) :=
  match cursor e with
  | None => Ok e
  | Some c =>
    match boundary b with
    | None => Err MissingBoundary
    | Some bd =>
      if negb (number bd =? block c)%N then Err (BoundaryNumberMismatch (block c) (number bd)) else
      match hash_at (ring e) (block c) with
      | None => Err (CursorBlockUnobserved (block c))
      | Some h =>
        if negb (bool_decide (h = bhash bd)) then Err (fork_suspected (block c) h bd)
        else Ok (set_last_verified (Some bd) e)
      end
    end
  end.

(** [Engine::apply_batch]. *)
Definition apply_batch (e : Engine F) (b : Batch E)
    : Engine F * outcome (result ApplySummary (ApplyError X)) :=
  if negb (is_active (status e)) then (e, Returns (Err (NotActive (status e)))) else
  match validate b with
  | Err s => (e, Returns (Err (Shape s)))
  | Ok _ =>
    match check_boundary e b with
    | Err err => (e, Returns (Err err))
    | Ok e =>
      let e := set_status (Poisoned (default (MkPosition 0 0) (cursor e))) e in
      match apply_spans e (MkApplySummary 0 0 0) (spans b) with
      | (e, sm, Returns (Ok _)) => (set_status Active e, Returns (Ok sm))
      | (e, _, Returns (Err err)) => (e, Returns (Err err))
      | (e, _, Panics) => (e, Panics)
      end
    end
  end.

End apply.

(** ** Checkpoints, rollback and reset *)

(** [Engine::checkpoint]. *)
Definition checkpoint {F} (e : Engine F) : Engine F :=
  if negb (is_active (status e)) then e else
  set_checkpoints (store (checkpoints e) (MkSlot (fold e) (cursor e))) e.

(** [Engine::rollback_at_or_below]. *)
Definition rollback_at_or_below {F} (e : Engine F) (blk : N)
    : Engine F * result (option Position) RollbackError :=
  match status e with
  | Unrecoverable cause => (e, Err (RollbackUnrecoverable cause))
  | _ =>
    match best_at_or_below (checkpoints e) blk (ring e) with
    | None => (e, Err (NoCheckpointAtOrBelow blk))
    | Some s =>
      let r := match slot_cursor s with
               | Some c => truncate_above (ring e) (block c)
               | None => ring_clear (ring e)
               end in
      (MkEngine (slot_fold s) (slot_cursor s) r (drop_newer (checkpoints e) (slot_cursor s))
         Active None (skips e) (resets e),
       Ok (slot_cursor s))
    end
  end.

(** [Engine::reset]. *)
Definition reset {F} (e : Engine F) (f : F) : Engine F :=
  MkEngine f None (ring_clear (ring e)) (cp_clear (checkpoints e)) Active None 0
    (u64_wrapping_add (resets e) 1).

(** [Engine::mark_unrecoverable]. *)
Definition mark_unrecoverable {F} (e : Engine F) (cause : DivergenceCause) : Engine F :=
  set_status (Unrecoverable cause) e.

(** [Engine::restore_cursor_and_ring]. *)
Definition restore_cursor_and_ring {F} (e : Engine F) (c : option Position) (r : BlockRing)
    : Engine F :=
  set_ring r (set_cursor c e).

(** ** Specification *)

(** The engine invariant: the ring's newest entry is the cursor block, an engine without a
    cursor has observed nothing, and no checkpoint is ahead of the cursor. *)
Record engine_wf {F} (e : Engine F) : Prop := {
  ewf_ring : ring_wf (ring e);
  ewf_checkpoints : cp_wf (checkpoints e);
  ewf_cursor : newest_number (ring e) = block <$> cursor e;
  ewf_slots : Forall (λ s, opos_le (slot_cursor s) (cursor e)) (held (checkpoints e));
}.

(** The positioned events of a span, and of a batch. *)
Definition span_events {E} (sp : SpanView E) : list (Position * E) :=
  zip (MkPosition (sv_number sp) <$> sv_log_indices sp) (sv_events sp).
Definition spans_events {E} (sps : list (SpanView E)) : list (Position * E) :=
  mjoin (span_events <$> sps).
Definition batch_events {E} (b : Batch E) : list (Position * E) := spans_events (spans b).

(** The events strictly above a cursor. *)
Definition fresh {E} (c : option Position) (l : list (Position * E)) : list (Position * E) :=
  filter (λ pe, opos_ltb c (Some pe.1) = true) l.

(** How a sequential fold over positioned events ends. *)
Inductive Stop (X : Type) :=
| Done
| StopHalt (p : Position) (x : X)
| StopPoison (p : Position) (x : X)
| StopPanic (p : Position).
Arguments Done {X}.
Arguments StopHalt {X} p x.
Arguments StopPoison {X} p x.
Arguments StopPanic {X} p.

Section run.
Context {F E X : Type} `{!Fold F E X}.

(** The reference fold: the events one after the other, until one is refused. [c] is the last
    position consumed, [a] and [s] count the accepted and the skipped ones. *)
Fixpoint run (f : F) (c : option Position) (a s : N) (l : list (Position * E))
    : F * option Position * N * N * Stop X :=
  match l with
  | [] => (f, c, a, s, Done)
  | (p, ev) :: l =>
    let '(f, out) := fold_apply f p ev in
    match out with
    | Panics => (f, c, a, s, StopPanic p)
    | Returns (Ok _) => run f (Some p) (a + 1) s l
    | Returns (Err (Skip _)) => run f (Some p) a (s + 1) l
    | Returns (Err (Halt x)) => (f, c, a, s, StopHalt p x)
    | Returns (Err (Poison x)) => (f, c, a, s, StopPoison p x)
    end
  end.

(** What the engine reports for each way to stop. *)
Definition stop_out (st : Stop X) : outcome (result () (ApplyError X)) :=
  match st with
  | Done => Returns (Ok ())
  | StopHalt p x => Returns (Err (ApplyHalted p x))
  | StopPoison p x => Returns (Err (ApplyPoisoned p x))
  | StopPanic _ => Panics
  end.

(** The status the engine is left in, given the one it had while applying. *)
Definition stop_status (st : Stop X) (during : EngineStatus) : EngineStatus :=
  match st with
  | StopHalt p _ => Halted p
  | StopPoison p _ => Poisoned p
  | Done | StopPanic _ => during
  end.

(** Blocks a batch adds to the history: those above the cursor block. *)
Definition new_blocks (c : option Position) (sps : list (SpanView E)) : list BlockRef :=
  sv_block <$> filter (λ sp, match c with None => true | Some c => (block c <? sv_number sp)%N end = true) sps.

Implicit Types (e : Engine F) (sp : SpanView E) (sm : ApplySummary).

(** ** Lemmas: the reference fold *)

Lemma run_app f c a s l1 l2 :
  run f c a s (l1 ++ l2) =
  match run f c a s l1 with
  | (f, c, a, s, Done) => run f c a s l2
  | stop => stop
  end.
Proof.
  revert f c a s. induction l1 as [|[p ev] l1 IH]; intros f c a s; simpl; [done|].
  destruct (fold_apply f p ev) as [f' [[[]|[]]|]]; auto.
Qed.

(** The last position consumed is the starting one or one of the events'. *)
Lemma run_last f c a s l f' c' a' s' st :
  run f c a s l = (f', c', a', s', st) → c' = c ∨ ∃ pe, pe ∈ l ∧ c' = Some pe.1.
Proof.
  revert f c a s. induction l as [|[p ev] l IH]; intros f c a s; simpl; [naive_solver|].
  assert (∀ f a s, run f (Some p) a s l = (f', c', a', s', st) →
    c' = c ∨ ∃ pe, pe ∈ (p, ev) :: l ∧ c' = Some pe.1) as Hrec.
  { intros f1 a1 s1 [->|(pe & Hin & ->)]%IH; right.
    - exists (p, ev). split; [left|done].
    - exists pe. split; [by right|done]. }
  destruct (fold_apply f p ev) as [f1 [[[]|[]]|]]; eauto; intros [= <- <- <- <- <-]; auto.
Qed.

Lemma run_counts f c a s l f' c' a' s' st :
  run f c a s l = (f', c', a', s', st) →
  (a ≤ a' ∧ s ≤ s')%N ∧ (st = Done → a' + s' = a + s + N.of_nat (length l))%N.
Proof.
  revert f c a s. induction l as [|[p ev] l IH]; intros f c a s; simpl.
  { intros [= <- <- <- <- <-]. lia. }
  destruct (fold_apply f p ev) as [f1 [[[]|[]]|]];
    [intros [? Hd]%IH|intros [? Hd]%IH|intros [= <- <- <- <- <-]..];
    (split; [lia|]); try done; intros Hst; specialize (Hd Hst); lia.
Qed.

(** ** Lemmas: dedup *)

Lemma fresh_app c (l1 l2 : list (Position * E)) : fresh c (l1 ++ l2) = fresh c l1 ++ fresh c l2.
Proof. apply filter_app. Qed.

Lemma fresh_all c (l : list (Position * E)) :
  (∀ pe, pe ∈ l → opos_ltb c (Some pe.1) = true) → fresh c l = l.
Proof. intros H. apply filter_all, Forall_forall. auto. Qed.

Lemma span_events_Some sp i pe :
  span_events sp !! i = Some pe ↔
  ∃ li ev, sv_log_indices sp !! i = Some li ∧ sv_events sp !! i = Some ev ∧
    pe = (MkPosition (sv_number sp) li, ev).
Proof.
  unfold span_events. rewrite lookup_zip_with_Some. setoid_rewrite list_lookup_fmap_Some.
  split; [intros (? & ev & -> & (li & -> & ?) & ?)|intros (li & ev & ? & ? & ->)]; eauto 9.
Qed.

Lemma span_events_elem sp pe : pe ∈ span_events sp → block pe.1 = sv_number sp.
Proof. intros [i Hi]%list_elem_of_lookup. by apply span_events_Some in Hi as (li & ev & _ & _ & ->). Qed.

Lemma span_events_drop sp d :
  drop d (span_events sp) =
  zip (MkPosition (sv_number sp) <$> drop d (sv_log_indices sp)) (drop d (sv_events sp)).
Proof. unfold span_events. rewrite fmap_drop. apply zip_with_drop. Qed.

Lemma length_span_events sp :
  span_ok sp → length (span_events sp) = length (sv_log_indices sp).
Proof. intros (_ & _ & Hl). unfold span_events. rewrite length_zip, length_fmap. lia. Qed.

(** Dropping the deduped prefix of a span leaves exactly its events above the cursor. *)
Lemma span_fresh c sp :
  span_ok sp → fresh c (span_events sp) = drop (span_deduped c sp) (span_events sp).
Proof.
  intros (Hne & Hasc & Hlen). unfold span_deduped.
  destruct c as [c|]; [|rewrite fresh_all; done].
  destruct (block c <? sv_number sp)%N eqn:H1; nbool.
  { rewrite fresh_all; [done|]. intros pe Hpe%span_events_elem. simpl. apply pos_ltb_spec. lia. }
  destruct (sv_number sp <? block c)%N eqn:H2; nbool.
  { rewrite drop_ge by (rewrite length_span_events; done).
    apply filter_none, Forall_forall. intros pe Hpe%span_events_elem. simpl.
    apply not_true_iff_false, pos_ltb_false. lia. }
  set (p := λ index, (index <=? log_index c)%N). set (d := partition_point p (sv_log_indices sp)).
  rewrite <- (take_drop d (span_events sp)) at 1. rewrite fresh_app.
  assert (fresh (Some c) (take d (span_events sp)) = []) as ->.
  { apply filter_none, Forall_lookup. intros i pe. rewrite lookup_take_Some, span_events_Some.
    intros [(li & ev & Hli & Hev & ->) Hi]. simpl.
    pose proof (partition_point_take p (sv_log_indices sp)) as Htake. rewrite Forall_lookup in Htake.
    specialize (Htake i li). rewrite lookup_take_Some in Htake. fold d in Htake.
    specialize (Htake (conj Hli Hi)). subst p. simpl in Htake. nbool.
    apply not_true_iff_false, pos_ltb_false. simpl. lia. }
  rewrite fresh_all; [done|]. intros pe [i Hi]%list_elem_of_lookup.
  rewrite lookup_drop in Hi. apply span_events_Some in Hi as (li & ev & Hli & Hev & ->). simpl.
  pose proof (partition_point_drop p (sv_log_indices sp) Hasc) as Hdrop.
  rewrite Forall_lookup in Hdrop. specialize (Hdrop ltac:(subst p; simpl; intros; nbool; apply N.leb_le; lia) i li).
  rewrite lookup_drop in Hdrop. specialize (Hdrop Hli). subst p. simpl in Hdrop. nbool.
  apply pos_ltb_spec. simpl. lia.
Qed.

(** ** Lemmas: one span *)

(** The cursor move a span leaves behind: to the last position consumed in it, if any. *)
Definition settle e sp (c : option Position) : Engine F :=
  match c with
  | Some p => if opos_ltb (cursor e) (Some p) then advance e (sv_number sp) (sv_hash sp) p else e
  | None => e
  end.

Lemma settle_cursor e sp : settle e sp (cursor e) = e.
Proof. unfold settle. destruct (cursor e) eqn:Hc; [|done]. by rewrite opos_ltb_irrefl. Qed.

(** The engine after a span's event loop stopped: a refusal settles the cursor. *)
Definition span_stop e sp (c : option Position) (st : Stop X) : Engine F :=
  match st with
  | Done | StopPanic _ => e
  | StopHalt p _ => set_status (Halted p) (settle e sp c)
  | StopPoison p _ => set_status (Poisoned p) (settle e sp c)
  end.

(** The last position consumed before [offset]. *)
Definition consumed_before e sp (indices : list N) (offset : nat) : option Position :=
  match offset with
  | O => cursor e
  | S k => MkPosition (sv_number sp) <$> indices !! k
  end.

Lemma consumed_through_settle e sp indices offset :
  (∀ li, li ∈ indices → opos_ltb (cursor e) (Some (MkPosition (sv_number sp) li)) = true) →
  consumed_through e sp indices offset = settle e sp (consumed_before e sp indices offset).
Proof.
  intros Habove. unfold consumed_through, usize_checked_sub, consumed_before.
  destruct offset as [|k]; simpl; [by rewrite settle_cursor|]. unfold settle.
  rewrite Nat.sub_0_r. destruct (indices !! k) as [li|] eqn:Hk; simpl; [|done].
  rewrite Habove; [done|]. by eapply list_elem_of_lookup_2.
Qed.

Lemma apply_events_run e sm sp indices offset evs f' c' a' s' st :
  (∀ li, li ∈ indices → opos_ltb (cursor e) (Some (MkPosition (sv_number sp) li)) = true) →
  run (fold e) (consumed_before e sp indices offset) (applied sm) (skipped sm)
    (zip (MkPosition (sv_number sp) <$> drop offset indices) evs) = (f', c', a', s', st) →
  apply_events e sm sp indices offset (zip (drop offset indices) evs) =
    (span_stop (set_skips (skips e + (s' - skipped sm)) (set_fold f' e)) sp c' st,
     MkApplySummary a' (deduped sm) s', stop_out st).
Proof.
  revert e sm offset. induction evs as [|ev evs IH]; intros e sm offset Habove Hrun.
  { rewrite !zip_with_nil_r in *. simpl in *. simplify_eq. destruct e, sm; simpl.
    by rewrite N.sub_diag, N.add_0_r. }
  destruct (drop offset indices) as [|li rest] eqn:Hd.
  { simpl in *. simplify_eq. destruct e, sm; simpl. by rewrite N.sub_diag, N.add_0_r. }
  assert (indices !! offset = Some li) as Hli.
  { rewrite <- (Nat.add_0_r offset), <- lookup_drop, Hd. done. }
  assert (rest = drop (S offset) indices) as ->.
  { replace (S offset) with (offset + 1) by lia. by rewrite <- drop_drop, Hd. }
  simpl in *. destruct (fold_apply (fold e) (MkPosition (sv_number sp) li) ev) as [f1 out] eqn:Hf.
  assert (∀ e1, cursor e1 = cursor e → consumed_before e1 sp indices (S offset) =
    Some (MkPosition (sv_number sp) li)) as Hcb by (intros; simpl; by rewrite Hli).
  assert (∀ e1, cursor e1 = cursor e → consumed_through e1 sp indices offset =
    settle e1 sp (consumed_before e sp indices offset)) as Hct.
  { intros e1 He1. rewrite consumed_through_settle by (by rewrite He1).
    destruct offset; simpl; by rewrite ?He1. }
  destruct out as [[[]|[x|x|x]]|].
  - rewrite (IH (set_fold f1 e) (add_applied sm) (S offset)); [done|done|].
    rewrite Hcb by done. exact Hrun.
  - pose proof (run_counts _ _ _ _ _ _ _ _ _ _ Hrun) as [[_ Hs] _].
    rewrite (IH (set_skips (skips e + 1) (set_fold f1 e)) (add_skipped sm) (S offset)); [|done|].
    + destruct e; cbn -[N.add N.sub] in *. do 3 f_equal. unfold set_skips, set_fold; simpl. f_equal. lia.
    + rewrite Hcb by done. exact Hrun.
  - simplify_eq. rewrite Hct by done. destruct e, sm; simpl. by rewrite N.sub_diag, N.add_0_r.
  - simplify_eq. rewrite Hct by done. destruct e, sm; simpl. by rewrite N.sub_diag, N.add_0_r.
  - simplify_eq. destruct e, sm; simpl. by rewrite N.sub_diag, N.add_0_r.
Qed.

(** The engine after a whole span: done, it settles too. *)
Definition span_end e sp (c : option Position) (st : Stop X) : Engine F :=
  match st with Done => settle e sp c | _ => span_stop e sp c st end.

Lemma run_done_last f c a s l f' c' a' s' :
  run f c a s l = (f', c', a', s', @Done X) → c' = match last l with Some pe => Some pe.1 | None => c end.
Proof.
  revert f c a s. induction l as [|[p ev] l IH]; intros f c a s; cbn [run]; [by intros [= <- <- <- <-]|].
  rewrite last_cons.
  destruct (fold_apply f p ev) as [f1 [[[]|[]]|]]; intros Hr; try done; apply IH in Hr as ->;
    by destruct (last l).
Qed.

Lemma apply_span_run e sm sp f' c' a' s' st :
  span_ok sp →
  run (fold e) (cursor e) (applied sm) (skipped sm) (fresh (cursor e) (span_events sp)) =
    (f', c', a', s', st) →
  apply_span e sm sp =
    (span_end (set_skips (skips e + (s' - skipped sm)) (set_fold f' e)) sp c' st,
     MkApplySummary a' (deduped sm + N.of_nat (span_deduped (cursor e) sp)) s', stop_out st).
Proof.
  intros Hok Hrun. rewrite span_fresh in Hrun by done. unfold apply_span.
  set (d := span_deduped (cursor e) sp) in *. rewrite span_events_drop in Hrun.
  destruct (last (drop d (sv_log_indices sp))) as [l|] eqn:Hlast.
  - assert (∀ li, li ∈ drop d (sv_log_indices sp) →
      opos_ltb (cursor e) (Some (MkPosition (sv_number sp) li)) = true) as Habove.
    { intros li [i Hi]%list_elem_of_lookup. rewrite lookup_drop in Hi.
      destruct (lookup_lt_is_Some_2 (sv_events sp) (d + i)) as [ev Hev].
      { destruct Hok as (_ & _ & ->). by eapply lookup_lt_Some. }
      assert ((MkPosition (sv_number sp) li, ev) ∈ fresh (cursor e) (span_events sp)) as Hin.
      { rewrite span_fresh by done. apply (list_elem_of_lookup_2 _ i). rewrite lookup_drop.
        apply span_events_Some. eauto. }
      by apply list_elem_of_filter in Hin as [? _]. }
    pose proof (apply_events_run e (add_deduped d sm) sp (drop d (sv_log_indices sp)) 0
      (drop d (sv_events sp)) f' c' a' s' st Habove) as Hev.
    rewrite drop_0 in Hev. simpl in Hev. rewrite (Hev Hrun). clear Hev.
    destruct st; simpl; [|done..]. f_equal. f_equal.
    apply run_done_last in Hrun as ->.
    assert (last (zip (MkPosition (sv_number sp) <$> drop d (sv_log_indices sp)) (drop d (sv_events sp)))
      = (λ ev, (MkPosition (sv_number sp) l, ev)) <$> last (drop d (sv_events sp))) as ->.
    { rewrite !last_lookup in *. rewrite length_zip_with, length_fmap, !length_drop.
      destruct Hok as (_ & _ & Hlen). rewrite Hlen, Nat.min_id. rewrite length_drop in Hlast.
      destruct (drop d (sv_events sp) !! _) as [ev|] eqn:Hev; simpl.
      - apply lookup_zip_with_Some. eexists _, _. split; [done|]. split; [|exact Hev].
        by rewrite list_lookup_fmap, Hlast.
      - exfalso. apply lookup_lt_Some in Hlast. apply lookup_ge_None in Hev.
        rewrite !length_drop in *. lia. }
    destruct (last (drop d (sv_events sp))) as [ev|] eqn:Hev; simpl.
    + rewrite Habove; [done|]. by apply last_Some_elem_of.
    + exfalso. apply last_None in Hev. apply (f_equal length) in Hev. simpl in Hev.
      rewrite length_drop in Hev. destruct Hok as (_ & _ & Hlen).
      rewrite last_lookup in Hlast. apply lookup_lt_Some in Hlast. rewrite length_drop in Hlast. lia.
  - apply last_None in Hlast. rewrite Hlast in *. simpl in Hrun. simplify_eq. simpl.
    rewrite N.sub_diag, N.add_0_r.
    assert (set_skips (skips e) (set_fold (fold e) e) = e) as -> by by destruct e.
    rewrite settle_cursor. by destruct sm.
Qed.

(** ** Lemmas: cursor moves *)

Lemma advance_frame e n h p :
  fold (advance e n h p) = fold e ∧ cursor (advance e n h p) = Some p ∧
  checkpoints (advance e n h p) = checkpoints e ∧ status (advance e n h p) = status e ∧
  skips (advance e n h p) = skips e ∧ resets (advance e n h p) = resets e ∧
  capacity (ring (advance e n h p)) = capacity (ring e).
Proof. unfold advance. case_match; simpl; split_and!; auto using ring_push_capacity. Qed.

(** Whether a block number is above a cursor's block. *)
Definition above (c : option Position) (n : N) : bool :=
  match c with None => true | Some c => (block c <? n)%N end.

(** [advance] pushes the block exactly when it is above the cursor block. *)
Lemma advance_wf e n h p :
  engine_wf e → opos_le (cursor e) (Some p) → block p = n →
  engine_wf (advance e n h p) ∧
  ring_list (ring (advance e n h p)) =
    if above (cursor e) n then push_list (capacity (ring e)) (ring_list (ring e)) (MkBlockRef n h)
    else ring_list (ring e).
Proof.
  intros [Hr Hcp Hc Hs] Hle Hn. unfold advance, above. rewrite Hc.
  assert (Forall (λ s, opos_le (slot_cursor s) (Some p)) (held (checkpoints e))) as Hs'.
  { eapply Forall_impl; [exact Hs|]. intros s Hse. simpl in *. by etransitivity. }
  assert (∀ r', ring_wf r' → newest_number r' = Some n →
    engine_wf (set_cursor (Some p) (set_last_verified (Some (MkBlockRef n h)) (set_ring r' e)))) as Hnew.
  { intros r' Hr' Hn'. split; simpl; [done|done|by rewrite Hn', Hn|done]. }
  assert ((∀ m, newest_number (ring e) = Some m → (m < n)%N) →
    ring_wf (ring_push (ring e) (MkBlockRef n h)) ∧
    newest_number (ring_push (ring e) (MkBlockRef n h)) = Some n) as Hpush.
  { intros Hm. split; [by apply ring_push_wf|]. rewrite newest_number_list, ring_push_list by done.
    unfold push_list. by rewrite last_snoc. }
  destruct (cursor e) as [c|] eqn:Hce; simpl in *.
  - destruct (block c <? n)%N eqn:Hlt; nbool.
    + destruct Hpush as [? ?]; [rewrite Hc; by intros m [= <-]|]. split; [by apply Hnew|].
      simpl. by rewrite ring_push_list.
    + split; [|done]. apply opos_le_block in Hle. split; simpl; [done|done| |done].
      rewrite Hc. simpl. f_equal. lia.
  - destruct Hpush as [? ?]; [by rewrite Hc|]. split; [by apply Hnew|]. simpl. by rewrite ring_push_list.
Qed.

(** A settled cursor: unchanged, or moved up into the span's block. *)
Definition settles e sp (c : option Position) : Prop :=
  c = cursor e ∨ ∃ p, c = Some p ∧ block p = sv_number sp ∧ opos_ltb (cursor e) (Some p) = true.

Lemma settle_frame e sp c :
  settles e sp c →
  fold (settle e sp c) = fold e ∧ cursor (settle e sp c) = c ∧
  checkpoints (settle e sp c) = checkpoints e ∧ status (settle e sp c) = status e ∧
  skips (settle e sp c) = skips e ∧ resets (settle e sp c) = resets e ∧
  capacity (ring (settle e sp c)) = capacity (ring e).
Proof.
  intros [->|(p & -> & Hb & Hlt)]; [by rewrite settle_cursor|].
  unfold settle. rewrite Hlt. apply advance_frame.
Qed.

Lemma settle_wf e sp c :
  engine_wf e → settles e sp c →
  engine_wf (settle e sp c) ∧
  ring_list (ring (settle e sp c)) =
    if bool_decide (c = cursor e) then ring_list (ring e)
    else if above (cursor e) (sv_number sp)
    then push_list (capacity (ring e)) (ring_list (ring e)) (sv_block sp)
    else ring_list (ring e).
Proof.
  intros Hwf [->|(p & -> & Hb & Hlt)].
  - rewrite settle_cursor, bool_decide_true by done. done.
  - unfold settle. rewrite Hlt. rewrite bool_decide_false.
    + apply advance_wf; [done| |done]. by apply opos_lt_le.
    + intros Heq. rewrite Heq, opos_ltb_irrefl in Hlt. done.
Qed.

Lemma set_fold_skips_wf e f n : engine_wf e → engine_wf (set_skips n (set_fold f e)).
Proof. by intros []. Qed.

Lemma set_status_wf e s : engine_wf e → engine_wf (set_status s e).
Proof. by intros []. Qed.

(** The cursor the reference fold reaches over a span's events settles the engine. *)
Lemma run_settles e sp a s f' c' a' s' st :
  run (fold e) (cursor e) a s (fresh (cursor e) (span_events sp)) = (f', c', a', s', st) →
  settles e sp c'.
Proof.
  intros [->|(pe & Hin & ->)]%run_last; [by left|]. right. apply list_elem_of_filter in Hin as [Hlt Hin].
  apply span_events_elem in Hin. eauto.
Qed.

(** ** Lemmas: the span loop *)

(** What the span loop establishes, for a run that ends with [c'], [a'], [s'] and [st]. *)
Record spans_post e sm (sps : list (SpanView E)) (f' : F) (c' : option Position) (a' s' : N)
    (st : Stop X) (e' : Engine F) (sm' : ApplySummary) : Prop := {
  sp_wf : engine_wf e';
  sp_fold : fold e' = f';
  sp_applied : applied sm' = a';
  sp_skipped : skipped sm' = s';
  sp_status : status e' = stop_status st (status e);
  sp_checkpoints : checkpoints e' = checkpoints e;
  sp_resets : resets e' = resets e;
  sp_skips : skips e' = (skips e + (s' - skipped sm))%N;
  sp_cursor : (∀ p, st ≠ StopPanic p) → cursor e' = c';
  sp_deduped : st = Done → deduped sm' = (deduped sm +
    N.of_nat (length (spans_events sps) - length (fresh (cursor e) (spans_events sps))))%N;
  sp_ring : st = Done → ring_list (ring e') =
    foldl (push_list (capacity (ring e))) (ring_list (ring e)) (new_blocks (cursor e) sps);
}.

Lemma spans_events_cons sp sps : spans_events (sp :: sps) = span_events sp ++ spans_events sps.
Proof. done. Qed.

Lemma spans_events_elem sps pe :
  pe ∈ spans_events sps → ∃ sp, sp ∈ sps ∧ block pe.1 = sv_number sp.
Proof.
  unfold spans_events. rewrite list_elem_of_join.
  intros (l & Hpe & (sp & -> & Hsp)%list_elem_of_fmap). exists sp. split; [done|].
  by apply span_events_elem.
Qed.

(** Events of later spans are above the cursor a settled span leaves, exactly when they are
    above the cursor it started from. *)
Lemma fresh_settled e sp sps c :
  settles e sp c → Forall (λ sp', (sv_number sp < sv_number sp')%N) sps →
  fresh (cursor e) (spans_events sps) = fresh c (spans_events sps).
Proof.
  intros [->|(p & -> & Hb & Hlt)] Hnext; [done|].
  assert (∀ pe, pe ∈ spans_events sps → opos_ltb (Some p) (Some pe.1) = true) as Habove.
  { intros pe (sp' & Hin & Hpe)%spans_events_elem. rewrite Forall_forall in Hnext.
    specialize (Hnext _ Hin). simpl. apply pos_ltb_spec. lia. }
  rewrite !fresh_all; [done|done|]. intros pe Hpe.
  apply (transitivity (R := opos_lt) (y := Some p)); [done|by apply Habove].
Qed.

(** Blocks above the cursor stay the same ones for the rest of the batch. *)
Lemma new_blocks_settled e sp sps c :
  settles e sp c → Forall (λ sp', (sv_number sp < sv_number sp')%N) sps →
  new_blocks (cursor e) sps = new_blocks c sps.
Proof.
  intros [->|(p & -> & Hb & Hlt)] Hnext; [done|]. unfold new_blocks. f_equal.
  assert (∀ sp', sp' ∈ sps → above (Some p) (sv_number sp') = true) as Habove.
  { intros sp' Hin. rewrite Forall_forall in Hnext. specialize (Hnext _ Hin). simpl. apply N.ltb_lt. lia. }
  rewrite !filter_all; [done|..]; apply Forall_forall; intros sp' Hin; [by apply Habove|].
  specialize (Habove _ Hin). simpl in Habove. nbool.
  destruct (cursor e) as [c|]; [|done]. simpl in Hlt. apply pos_ltb_spec in Hlt. apply N.ltb_lt. lia.
Qed.

(** A settled span leaves no fork for the spans after it, if there was none before. *)
Lemma span_fork_settled e e' sp sp' :
  settles e sp (cursor e') → (cursor e' = cursor e → ring e' = ring e) →
  (sv_number sp < sv_number sp')%N → span_fork e sp' = None → span_fork e' sp' = None.
Proof.
  intros Hset Hring Hlt Hnone. destruct Hset as [Hc|(p & Hc & Hb & _)]; unfold span_fork in *.
  - by rewrite Hc, Hring.
  - rewrite Hc. by rewrite (proj2 (N.leb_gt _ _)) by lia.
Qed.

Lemma settle_ring_same e sp : settle e sp (cursor e) = e.
Proof. apply settle_cursor. Qed.

Lemma ascending_head (n : N) (ns : list N) : ascending (n :: ns) → Forall (N.lt n) ns ∧ ascending ns.
Proof. inversion 1; subst. done. Qed.

(** Nothing of a span at or below the cursor block's predecessor is new. *)
Lemma apply_spans_run e sm sps f' c' a' s' st :
  engine_wf e → ascending (sv_number <$> sps) → Forall span_ok sps →
  Forall (λ sp, span_fork e sp = None) sps →
  run (fold e) (cursor e) (applied sm) (skipped sm) (fresh (cursor e) (spans_events sps)) =
    (f', c', a', s', st) →
  ∃ e' sm', apply_spans e sm sps = (e', sm', stop_out st) ∧
    spans_post e sm sps f' c' a' s' st e' sm'.
Proof.
  revert e sm. induction sps as [|sp sps IH]; intros e sm Hwf Hasc Hok Hfork Hrun.
  { simpl in Hrun. simplify_eq. exists e, sm. split; [done|].
    split; try done; simpl; lia. }
  rewrite fmap_cons in Hasc. apply ascending_head in Hasc as [Hnext Hasc].
  rewrite Forall_fmap in Hnext. change (Forall (λ sp', (sv_number sp < sv_number sp')%N) sps) in Hnext.
  apply Forall_cons in Hok as [Hsp Hok]. apply Forall_cons in Hfork as [Hf Hfork].
  rewrite spans_events_cons, fresh_app, run_app in Hrun. simpl. rewrite Hf.
  destruct (run (fold e) (cursor e) (applied sm) (skipped sm) (fresh (cursor e) (span_events sp)))
    as [[[[f1 c1] a1] s1] st1] eqn:Hrun1.
  rewrite (apply_span_run _ _ _ _ _ _ _ _ Hsp Hrun1).
  pose proof (run_settles _ _ _ _ _ _ _ _ _ Hrun1) as Hset.
  pose proof (run_counts _ _ _ _ _ _ _ _ _ _ Hrun1) as [[_ Hs1] _].
  set (e0 := set_skips (skips e + (s1 - skipped sm)) (set_fold f1 e)).
  assert (engine_wf e0) as Hwf0 by by apply set_fold_skips_wf.
  assert (settles e0 sp c1) as Hset0 by done.
  destruct (settle_frame e0 sp c1 Hset0) as (Hfo & Hcu & Hcp & Hst & Hsk & Hre & Hca).
  destruct (settle_wf e0 sp c1 Hwf0 Hset0) as [Hwf1 Hring1].
  destruct st1 as [|p x|p x|p].
  - (* the span is consumed: the rest runs from the settled engine *)
    set (e1 := settle e0 sp c1) in *. simpl.
    set (sm1 := MkApplySummary a1 (deduped sm + N.of_nat (span_deduped (cursor e) sp)) s1).
    rewrite (fresh_settled e sp sps c1 Hset Hnext) in Hrun.
    destruct (IH e1 sm1) as (e' & sm' & Happ & Hpost); [done|done|done| | |].
    + apply Forall_forall. intros sp' Hin. rewrite Forall_forall in Hfork, Hnext.
      apply (span_fork_settled e e1 sp sp'); [by rewrite Hcu| |by apply Hnext|by apply Hfork].
      rewrite Hcu. intros Heq. unfold e1. rewrite Heq. change (cursor e) with (cursor e0).
      by rewrite settle_ring_same.
    + rewrite Hfo, Hcu. exact Hrun.
    + exists e', sm'. split; [exact Happ|].
      destruct Hpost as [P1 P2 P3 P4 P5 P6 P7 P8 P9 P10 P11]. split; try done.
      * rewrite P5, Hst. done.
      * rewrite P6, Hcp. done.
      * rewrite P7, Hre. done.
      * rewrite P8, Hsk. simpl.
        pose proof (run_counts _ _ _ _ _ _ _ _ _ _ Hrun) as [[_ ?] _]. lia.
      * intros Hd. rewrite (P10 Hd), Hcu. simpl.
        rewrite spans_events_cons, fresh_app, !length_app, (span_fresh _ sp Hsp), length_drop.
        rewrite length_span_events by done.
        rewrite (fresh_settled e sp sps c1 Hset Hnext).
        assert (span_deduped (cursor e) sp ≤ length (sv_log_indices sp)).
        { unfold span_deduped. repeat case_match; lia || apply partition_point_le. }
        assert (length (fresh c1 (spans_events sps)) ≤ length (spans_events sps))
          by apply length_filter.
        lia.
      * intros Hd. rewrite (P11 Hd), Hca, Hring1, Hcu. change (cursor e0) with (cursor e).
        change (ring e0) with (ring e). rewrite <- (new_blocks_settled e sp sps c1 Hset Hnext).
        unfold new_blocks at 2. rewrite filter_cons.
        change (match cursor e with Some c => (block c <? sv_number sp)%N | None => true end)
          with (above (cursor e) (sv_number sp)).
        destruct (decide (above (cursor e) (sv_number sp) = true)) as [Hab|Hab].
        -- rewrite bool_decide_false; [by rewrite Hab|]. intros Heq.
           apply run_done_last in Hrun1. rewrite (span_fresh _ sp Hsp) in Hrun1.
           assert (span_deduped (cursor e) sp = 0) as Hz.
           { unfold span_deduped, above in *. destruct (cursor e); [|done]. by rewrite Hab. }
           rewrite Hz, drop_0 in Hrun1. destruct (last (span_events sp)) as [pe|] eqn:Hl.
           ++ rewrite Hrun1 in Heq. apply last_Some_elem_of, span_events_elem in Hl.
              rewrite <- Heq in Hab. simpl in Hab. apply N.ltb_lt in Hab. lia.
           ++ apply last_None in Hl. pose proof (length_span_events sp Hsp) as Hlen.
              rewrite Hl in Hlen. destruct Hsp as (Hne & _). by destruct (sv_log_indices sp).
        -- apply not_true_is_false in Hab. rewrite Hab. by destruct (bool_decide (c1 = cursor e)).
  - simpl. simplify_eq. eexists _, _. split; [reflexivity|]. split; try done; simpl; try congruence.
    by apply set_status_wf.
  - simpl. simplify_eq. eexists _, _. split; [reflexivity|]. split; try done; simpl; try congruence.
    by apply set_status_wf.
  - simpl. simplify_eq. eexists _, _. split; [reflexivity|]. split; try done; simpl; try congruence.
Qed.

End run.
