(* ===== verification/EngineSpec.v ===== *)
(** The contract of the engine: [apply_batch] refines a sequential fold over the events above
    the cursor; rejected batches change nothing; forks are detected exactly; the invariant
    holds in every reachable engine; rollback restores a checkpoint; redelivery is idempotent. *)
From S2P Require Import Prelude Position Batch Ring Checkpoint ChainError Engine.

(** ** Specification *)

(** The boundary header a batch must carry: the cursor block as the ring observed it. *)
Definition boundary_ok {F E} (e : Engine F) (b : Batch E) : Prop :=
  match cursor e with
  | None => True
  | Some c => ∃ h, boundary b = Some (MkBlockRef (block c) h) ∧ MkBlockRef (block c) h ∈ ring_list (ring e)
  end.

(** A span at or below the cursor block whose hash is not the observed one. *)
Definition forked_span {F E} (e : Engine F) (sp : SpanView E) : Prop :=
  ∃ c h, cursor e = Some c ∧ (sv_number sp ≤ block c)%N ∧
    MkBlockRef (sv_number sp) h ∈ ring_list (ring e) ∧ h ≠ sv_hash sp.

(** What [apply_batch] answers for each way the sequential fold ends. *)
Definition batch_out {X} (a d s : N) (st : Stop X) : outcome (result ApplySummary (ApplyError X)) :=
  match st with
  | Done => Returns (Ok (MkApplySummary a d s))
  | StopHalt p x => Returns (Err (ApplyHalted p x))
  | StopPoison p x => Returns (Err (ApplyPoisoned p x))
  | StopPanic _ => Panics
  end.

(** The status [apply_batch] leaves for each way the sequential fold ends. *)
Definition batch_status {X} (c : option Position) (st : Stop X) : EngineStatus :=
  match st with
  | Done => Active
  | StopHalt p _ => Halted p
  | StopPoison p _ => Poisoned p
  | StopPanic _ => Poisoned (default (MkPosition 0 0) c)
  end.

(** Everything but the freshness mark. *)
Definition unchanged {F} (e e' : Engine F) : Prop :=
  ∃ v, e' = set_last_verified v e.

(** Errors that leave the fold untouched. *)
Definition is_rejection {X} (err : ApplyError X) : bool :=
  match err with ApplyHalted _ _ | ApplyPoisoned _ _ => false | _ => true end.

(** The calls a consumer or a driver can make on an engine. *)
Inductive engine_step {F E X} `{!Fold F E X} (e : Engine F) : Engine F → Prop :=
| step_apply b : batch_wf b → engine_step e (apply_batch e b).1
| step_checkpoint : engine_step e (checkpoint e)
| step_rollback n : engine_step e (rollback_at_or_below e n).1
| step_reset f : engine_step e (reset e f)
| step_mark cause : engine_step e (mark_unrecoverable e cause)
| step_fold_mut f : engine_step e (set_fold f e).

(** Engines reachable from a fresh one. *)
Inductive engine_reachable {F E X} `{!Fold F E X} : Engine F → Prop :=
| reach_new f c e : engine_new f c = Ok e → engine_reachable e
| reach_step e e' : engine_reachable e → engine_step e e' → engine_reachable e'.

(** ** Lemmas: construction and the cursor block *)

Lemma config_validate_ok c : config_validate c = Ok () → ∃ k, ring_capacity c = 2 ^ k.
Proof.
  unfold config_validate. destruct (is_power_of_two (ring_capacity c)) eqn:Hp; [|done].
  intros _. by apply is_power_of_two_spec.
Qed.

Lemma newest_with_capacity c : newest_number (with_capacity c) = None.
Proof. by rewrite newest_number_list. Qed.

Lemma engine_new_wf {F} (f : F) c e : engine_new f c = Ok e → engine_wf e.
Proof.
  unfold engine_new. destruct (config_validate c) as [[]|] eqn:Hc; [|done]. intros [= <-].
  apply config_validate_ok in Hc as [k Hk]. split; simpl.
  - rewrite Hk. apply with_capacity_wf.
  - apply cp_new_wf.
  - by rewrite newest_with_capacity.
  - assert (held (@cp_new F (checkpoint_slots c)) = []) as ->; [|constructor].
    unfold held, rot. simpl. rewrite drop_0, take_0, app_nil_r. apply omap_id_None.
Qed.

(** The cursor block of a well-formed engine is observed, as the newest entry. *)
Lemma cursor_block_observed {F} (e : Engine F) c :
  engine_wf e → cursor e = Some c → ∃ h, last (ring_list (ring e)) = Some (MkBlockRef (block c) h).
Proof.
  intros Hwf Hc. pose proof (ewf_cursor e Hwf) as Hn. rewrite newest_number_list, Hc in Hn.
  destruct (last (ring_list (ring e))) as [[n h]|]; simplify_eq/=. eauto.
Qed.

Lemma cursor_hash_at {F} (e : Engine F) c :
  engine_wf e → cursor e = Some c →
  ∃ h, hash_at (ring e) (block c) = Some h ∧ MkBlockRef (block c) h ∈ ring_list (ring e).
Proof.
  intros Hwf Hc. destruct (cursor_block_observed e c Hwf Hc) as [h Hl].
  apply last_Some_elem_of in Hl. exists h. split; [|done]. by apply hash_at_Some; [apply Hwf|].
Qed.

Section spec.
Context {F E X : Type} `{!Fold F E X}.
Implicit Types (e : Engine F) (b : Batch E).

Lemma span_fork_Some e (sp : SpanView E) h :
  engine_wf e →
  span_fork e sp = Some h ↔
  ∃ c, cursor e = Some c ∧ (sv_number sp ≤ block c)%N ∧
    MkBlockRef (sv_number sp) h ∈ ring_list (ring e) ∧ h ≠ sv_hash sp.
Proof.
  intros Hwf. unfold span_fork. destruct (cursor e) as [c|]; [|naive_solver].
  destruct (sv_number sp <=? block c)%N eqn:Hle; nbool; last first.
  { split; [done|]. intros (? & [= <-] & ? & _). lia. }
  destruct (hash_at (ring e) (sv_number sp)) as [h'|] eqn:Hh.
  - apply hash_at_Some in Hh; [|apply Hwf]. case_bool_decide as Heq.
    + split; [done|]. intros (? & [= <-] & _ & Hin & Hne).
      apply hash_at_Some in Hin; [|apply Hwf]. apply hash_at_Some in Hh; [|apply Hwf]. congruence.
    + split; [intros [= <-]; eauto|]. intros (? & [= <-] & _ & Hin & _).
      apply hash_at_Some in Hin; [|apply Hwf]. apply hash_at_Some in Hh; [|apply Hwf]. congruence.
  - split; [done|]. intros (? & [= <-] & _ & Hin & _).
    apply hash_at_Some in Hin; [|apply Hwf]. congruence.
Qed.

Lemma span_fork_None e (sp : SpanView E) :
  engine_wf e → span_fork e sp = None ↔ ¬ forked_span e sp.
Proof.
  intros Hwf. rewrite eq_None_not_Some. unfold is_Some, forked_span.
  setoid_rewrite (span_fork_Some e sp _ Hwf). naive_solver.
Qed.

(** ** Lemmas: the boundary check *)

Lemma check_boundary_ok e b e1 :
  engine_wf e → check_boundary (X := X) e b = Ok e1 →
  boundary_ok e b ∧ e1 = match cursor e with Some _ => set_last_verified (boundary b) e | None => e end.
Proof.
  intros Hwf. unfold check_boundary, boundary_ok. destruct (cursor e) as [c|]; [|by intros [= <-]].
  destruct (boundary b) as [[n h]|] eqn:Hb; [|done]. simpl.
  destruct (n =? block c)%N eqn:Hn; [|done]. nbool. subst n. simpl.
  destruct (hash_at (ring e) (block c)) as [h'|] eqn:Hh; [|done].
  case_bool_decide as Heq; [|done]. subst h'. intros [= <-]. split; [|done].
  exists h. split; [done|]. by apply hash_at_Some in Hh; [|apply Hwf].
Qed.

Lemma check_boundary_complete e b :
  engine_wf e → boundary_ok e b → ∃ e1, check_boundary (X := X) e b = Ok e1.
Proof.
  intros Hwf. unfold check_boundary, boundary_ok. destruct (cursor e) as [c|]; [|by eauto].
  intros (h & -> & Hin). simpl. rewrite N.eqb_refl. simpl.
  apply hash_at_Some in Hin; [|apply Hwf]. rewrite Hin.
  rewrite bool_decide_true by done. by eauto.
Qed.

(** A batch that fails the boundary check fails for one of three reasons. *)
Lemma check_boundary_err e b err :
  engine_wf e → check_boundary e b = Err err →
  ∃ c, cursor e = Some c ∧
  ((boundary b = None ∧ err = MissingBoundary) ∨
   (∃ bd, boundary b = Some bd ∧ number bd ≠ block c ∧
     err = @BoundaryNumberMismatch X (block c) (number bd)) ∨
   (∃ bd h, boundary b = Some bd ∧ number bd = block c ∧ h ≠ bhash bd ∧
     MkBlockRef (block c) h ∈ ring_list (ring e) ∧ err = ForkSuspected (MkBlockRef (block c) h) bd)).
Proof.
  intros Hwf. unfold check_boundary. destruct (cursor e) as [c|] eqn:Hc; [|done].
  destruct (boundary b) as [bd|]; [|intros [= <-]; eauto]. intros Herr. exists c. split; [done|].
  destruct (number bd =? block c)%N eqn:Hn; nbool; simplify_eq/=; [|eauto 7].
  destruct (cursor_hash_at e c Hwf Hc) as (h & Hh & Hin). rewrite Hh in Herr.
  case_bool_decide; simplify_eq/=. right. right. exists bd, h. done.
Qed.

(** ** Lemmas: spans below the cursor *)

(** A span strictly below the cursor block is deduped whole and changes nothing. *)
Lemma apply_span_below e sm (sp : SpanView E) c :
  cursor e = Some c → (sv_number sp < block c)%N →
  apply_span (X := X) e sm sp =
    (e, add_deduped (length (sv_log_indices sp)) sm, Returns (Ok ())).
Proof.
  intros Hc Hlt. unfold apply_span, span_deduped. rewrite Hc.
  rewrite (proj2 (N.ltb_ge _ _)) by lia. rewrite (proj2 (N.ltb_lt _ _)) by lia.
  by rewrite drop_ge.
Qed.

(** A forked span is reported before anything of the batch is folded. *)
Lemma apply_spans_fork e sm (sps : list (SpanView E)) :
  engine_wf e → ascending (sv_number <$> sps) → (∃ sp, sp ∈ sps ∧ forked_span e sp) →
  ∃ sp h sm', sp ∈ sps ∧ forked_span e sp ∧ span_fork e sp = Some h ∧
    apply_spans (X := X) e sm sps =
      (set_status Active e, sm', Returns (Err (fork_suspected (sv_number sp) h (sv_block sp)))).
Proof.
  intros Hwf. revert sm. induction sps as [|sp sps IH]; intros sm Hasc (sp' & Hin & Hf).
  { by apply elem_of_nil in Hin. }
  rewrite fmap_cons in Hasc. apply ascending_head in Hasc as [Hnext Hasc]. rewrite Forall_fmap in Hnext.
  rewrite Forall_forall in Hnext. simpl. destruct (span_fork e sp) as [h|] eqn:Hsp.
  - exists sp, h, sm. split_and!; [left| |done|done].
    apply (span_fork_Some e sp h Hwf) in Hsp as (c & ? & ? & ? & ?). by exists c, h.
  - apply elem_of_cons in Hin as [->|Hin].
    { apply (span_fork_None e sp Hwf) in Hsp. done. }
    destruct Hf as (c & h & Hc & Hle & Hh & Hne). specialize (Hnext _ Hin). simpl in Hnext.
    rewrite (apply_span_below e sm sp c) by (done || lia).
    destruct (IH (add_deduped (length (sv_log_indices sp)) sm) Hasc) as (sp1 & h1 & sm1 & Hin1 & ?).
    { exists sp'. split; [done|]. by exists c, h. }
    exists sp1, h1, sm1. split; [by right|done].
Qed.

(** [boundary_ok], [forked_span] and the invariant ignore status and freshness. *)
Lemma checked_engine_wf e b : 
  engine_wf e →
  engine_wf match cursor e with Some _ => set_last_verified (boundary b) e | None => e end.
Proof. intros []. by destruct (cursor e) eqn:?; split; simpl; rewrite ?Heqo. Qed.

(** ** Lemmas: the outcome of [apply_batch] *)

(** Past the checks, the engine the span loop starts from. *)
Definition during e b : Engine F :=
  set_status (Poisoned (default (MkPosition 0 0) (cursor e)))
    match cursor e with Some _ => set_last_verified (boundary b) e | None => e end.

Lemma during_frame e b :
  fold (during e b) = fold e ∧ cursor (during e b) = cursor e ∧ ring (during e b) = ring e ∧
  checkpoints (during e b) = checkpoints e ∧ skips (during e b) = skips e ∧
  resets (during e b) = resets e.
Proof. unfold during. destruct (cursor e) eqn:Hc; split_and!; simpl; done || congruence. Qed.

Lemma during_wf e b : engine_wf e → engine_wf (during e b).
Proof. intros Hwf. by apply set_status_wf, checked_engine_wf. Qed.

Lemma during_fork e b (sp : SpanView E) : span_fork (during e b) sp = span_fork e sp.
Proof. destruct (during_frame e b) as (_ & Hc & Hr & _). unfold span_fork. by rewrite Hc, Hr. Qed.

Lemma apply_batch_checked e b :
  engine_wf e → status e = Active → batch_wf b → batch_ok b → boundary_ok e b →
  apply_batch (X := X) e b =
    match apply_spans (during e b) (MkApplySummary 0 0 0) (spans b) with
    | (e, sm, Returns (Ok _)) => (set_status Active e, Returns (Ok sm))
    | (e, _, Returns (Err err)) => (e, Returns (Err err))
    | (e, _, Panics) => (e, Panics)
    end.
Proof.
  intros Hwf Hst Hbwf Hbok Hbd. unfold apply_batch. rewrite Hst. simpl.
  rewrite (proj2 (validate_ok_iff b Hbwf) Hbok).
  destruct (check_boundary_complete e b Hwf Hbd) as [e1 He1]. rewrite He1.
  apply check_boundary_ok in He1 as [_ ->]; [|done]. unfold during. destruct (cursor e) eqn:Hc; simpl; by rewrite Hc.
Qed.

(** The whole outcome of a batch that passes the checks and carries no fork. *)
Lemma apply_batch_run e b f' c' a s st :
  engine_wf e → status e = Active → batch_wf b → batch_ok b → boundary_ok e b →
  Forall (λ sp, ¬ forked_span e sp) (spans b) →
  run (fold e) (cursor e) 0 0 (fresh (cursor e) (batch_events b)) = (f', c', a, s, st) →
  ∃ e', apply_batch e b =
      (e', batch_out a (N.of_nat (length (batch_events b) - length (fresh (cursor e) (batch_events b)))) s st) ∧
    engine_wf e' ∧ fold e' = f' ∧ status e' = batch_status (cursor e) st ∧
    checkpoints e' = checkpoints e ∧ resets e' = resets e ∧ skips e' = (skips e + s)%N ∧
    ((∀ p, st ≠ StopPanic p) → cursor e' = c') ∧
    (st = Done → ring_list (ring e') =
      foldl (push_list (capacity (ring e))) (ring_list (ring e)) (new_blocks (cursor e) (spans b))).
Proof.
  intros Hwf Hst Hbwf Hbok Hbd Hnf Hrun. rewrite apply_batch_checked by done.
  destruct (during_frame e b) as (Hf & Hc & Hr & Hcp & Hsk & Hre).
  destruct (apply_spans_run (during e b) (MkApplySummary 0 0 0) (spans b) f' c' a s st)
    as (e' & sm' & -> & [P1 P2 P3 P4 P5 P6 P7 P8 P9 P10 P11]).
  - by apply during_wf.
  - by apply spans_ok_positions.
  - by destruct Hbok.
  - eapply Forall_impl; [exact Hnf|]. intros sp Hsp. simpl. rewrite during_fork.
    by apply span_fork_None.
  - rewrite Hf, Hc. exact Hrun.
  - rewrite Hc, Hr in *. destruct st as [|p x|p x|p]; simpl in *.
    + exists (set_status Active e'). split_and!; try done; simpl; try congruence.
      * destruct sm' as [a' d' s']; simpl in *. specialize (P10 eq_refl). subst. done.
      * by apply set_status_wf.
      * rewrite P8, Hsk. lia.
    + exists e'. split_and!; try done; try congruence. rewrite P8, Hsk. lia.
    + exists e'. split_and!; try done; try congruence. rewrite P8, Hsk. lia.
    + exists e'. split_and!; try done; try congruence. rewrite P8, Hsk. lia.
Qed.

(** ** Lemmas: order of the events *)

Lemma spans_events_sorted (sps : list (SpanView E)) :
  ascending (sv_number <$> sps) → Forall span_ok sps →
  StronglySorted (λ x y, pos_lt x.1 y.1) (spans_events sps).
Proof.
  induction sps as [|sp sps IH]; intros Hasc Hok; [constructor|].
  rewrite fmap_cons in Hasc. apply ascending_head in Hasc as [Hnext Hasc]. rewrite Forall_fmap in Hnext.
  rewrite Forall_forall in Hnext. apply Forall_cons in Hok as [Hsp Hok]. rewrite spans_events_cons.
  apply StronglySorted_app. split_and!.
  - intros x y Hx%span_events_elem (sp' & Hin & Hy)%spans_events_elem.
    specialize (Hnext _ Hin). simpl in Hnext. apply pos_ltb_spec. lia.
  - destruct Hsp as (_ & Hlogs & Hlen). unfold span_events. clear -Hlogs.
    generalize (sv_events sp). induction Hlogs as [|li logs Hlogs IH Hli]; intros [|ev evs]; simpl; constructor.
    + apply IH.
    + apply Forall_forall. intros [p ev'] Hin%elem_of_zip_l. apply list_elem_of_fmap in Hin as (li' & -> & Hin).
      rewrite Forall_forall in Hli. specialize (Hli _ Hin). apply pos_ltb_spec. simpl. lia.
  - by apply IH.
Qed.

Lemma StronglySorted_filter {A} (R : A → A → Prop) (P : A → Prop) `{∀ x, Decision (P x)} (l : list A) :
  StronglySorted R l → StronglySorted R (filter P l).
Proof.
  induction 1 as [|x l Hl IH Hx]; [constructor|]. rewrite filter_cons. case_decide; [|done].
  constructor; [done|]. rewrite Forall_forall in Hx |- *.
  intros y [_ Hy]%list_elem_of_filter. by apply Hx.
Qed.

Lemma fresh_sorted e b :
  batch_wf b → batch_ok b → StronglySorted (λ x y, pos_lt x.1 y.1) (fresh (cursor e) (batch_events b)).
Proof.
  intros Hwf Hok. apply StronglySorted_filter, spans_events_sorted; [by apply spans_ok_positions|].
  by destruct Hok.
Qed.

(** A run that consumes everything ends at or above every event. *)
Lemma run_done_above f c a s (l : list (Position * E)) f' c' a' s' :
  StronglySorted (λ x y, pos_lt x.1 y.1) l → Forall (λ pe, opos_lt c (Some pe.1)) l →
  run f c a s l = (f', c', a', s', @Done X) →
  opos_le c c' ∧ Forall (λ pe, opos_le (Some pe.1) c') l.
Proof.
  intros Hs. revert f c a s. induction Hs as [|[p ev] l Hs IH Hp]; intros f c a s Hc; cbn [run].
  { by intros [= <- <- <- <-]. }
  apply Forall_cons in Hc as [Hcp Hc]. simpl in *.
  assert (∀ f a s, run f (Some p) a s l = (f', c', a', s', Done) →
    opos_le c c' ∧ Forall (λ pe, opos_le (Some pe.1) c') ((p, ev) :: l)) as Hrec.
  { intros f1 a1 s1 Hr. apply IH in Hr as [H1 H2]; [|done]. split.
    - etransitivity; [|exact H1]. by apply opos_lt_le.
    - by constructor. }
  destruct (fold_apply f p ev) as [f1 [[[]|[]]|]]; eauto; done.
Qed.

(** ** Lemmas: redelivery *)

Lemma push_list_elem {A} cap (l : list A) x y : y ∈ push_list cap l x → y ∈ l ∨ y = x.
Proof.
  unfold push_list. rewrite elem_of_app, list_elem_of_singleton. intros [Hin|]; [left|by right].
  case_match; [done|]. rewrite <- (take_drop 1 l), elem_of_app. by right.
Qed.

Lemma foldl_push_list_elem {A} cap (xs l : list A) y :
  y ∈ foldl (push_list cap) l xs → y ∈ l ∨ y ∈ xs.
Proof.
  revert l. induction xs as [|x xs IH]; intros l; simpl; [auto|].
  intros [[?| ->]%push_list_elem|?]%IH; [by left|right; left|right; by right].
Qed.

(** Nothing the ring observed is above the cursor block. *)
Lemma observed_below_cursor e n h :
  engine_wf e → MkBlockRef n h ∈ ring_list (ring e) → ∃ c, cursor e = Some c ∧ (n ≤ block c)%N.
Proof.
  intros Hwf Hin. destruct (cursor e) as [c|] eqn:Hc.
  - exists c. split; [done|]. pose proof (ewf_cursor e Hwf) as Hn. rewrite Hc in Hn. simpl in Hn.
    unfold newest_number, usize_checked_sub in Hn. destruct (1 <=? len (ring e)) eqn:Hl; [|done].
    simpl in Hn. nbool. injection Hn as Hn. apply ring_list_elem in Hin as (i & Hi & Heq).
    apply (f_equal number) in Heq. rewrite number_get in Heq. simpl in Heq. rewrite Heq, <- Hn.
    apply (number_at_le (ring e) i (len (ring e) - 1)); [apply Hwf|lia|lia].
  - pose proof (ewf_cursor e Hwf) as Hn. rewrite newest_number_list, Hc in Hn.
    apply fmap_None, last_None in Hn. rewrite Hn in Hin. by apply elem_of_nil in Hin.
Qed.

(** Two spans of one batch with one number are the same span. *)
Lemma spans_number_inj (sps : list (SpanView E)) sp sp' :
  ascending (sv_number <$> sps) → sp ∈ sps → sp' ∈ sps → sv_number sp = sv_number sp' → sp = sp'.
Proof.
  intros Hasc [i Hi]%list_elem_of_lookup [j Hj]%list_elem_of_lookup Heq.
  assert (sv_number <$> sps !! i = Some (sv_number sp)) as Hi' by by rewrite Hi.
  assert (sv_number <$> sps !! j = Some (sv_number sp')) as Hj' by by rewrite Hj.
  rewrite <- list_lookup_fmap in Hi', Hj'.
  destruct (lt_eq_lt_dec i j) as [[Hlt| ->]|Hlt]; [|congruence|].
  - pose proof (ascending_lookup _ _ _ _ _ Hasc Hlt Hi' Hj'). lia.
  - pose proof (ascending_lookup _ _ _ _ _ Hasc Hlt Hj' Hi'). lia.
Qed.

(** After a run that consumes a batch, none of it is above the cursor. *)
Lemma redelivered_stale e b f f' c' a' s' :
  batch_wf b → batch_ok b →
  run f (cursor e) 0 0 (fresh (cursor e) (batch_events b)) = (f', c', a', s', @Done X) →
  fresh c' (batch_events b) = [].
Proof.
  intros Hwf Hok Hrun. apply run_done_above in Hrun as [Hle Hall]; [|by apply fresh_sorted|].
  - apply filter_none, Forall_forall. intros pe Hin. apply not_true_iff_false.
    change (opos_le (Some pe.1) c'). destruct (opos_ltb (cursor e) (Some pe.1)) eqn:Hlt.
    + rewrite Forall_forall in Hall. apply Hall. by apply list_elem_of_filter.
    + etransitivity; [exact Hlt|done].
  - apply Forall_forall. by intros pe [? _]%list_elem_of_filter.
Qed.

(** A batch with nothing above the cursor brings no new block. *)
Lemma stale_no_new_blocks c b :
  batch_ok b → fresh c (batch_events b) = [] → new_blocks c (spans b) = [].
Proof.
  intros [_ Hok] Hstale. unfold new_blocks. rewrite filter_none; [done|].
  apply Forall_forall. intros sp Hin Habove. rewrite Forall_forall in Hok.
  pose proof (length_span_events sp (Hok _ Hin)) as Hlen. destruct (Hok _ Hin) as (Hne & _).
  destruct (span_events sp) as [|pe l] eqn:Hsp; [by destruct (sv_log_indices sp)|].
  assert (pe ∈ span_events sp) as Hpe by (rewrite Hsp; left).
  assert (pe ∈ fresh c (batch_events b)) as Hbad; [|rewrite Hstale in Hbad; by apply elem_of_nil in Hbad].
  apply list_elem_of_filter. apply span_events_elem in Hpe as Hb. split.
  - destruct c as [c|]; [|done]. nbool. apply pos_ltb_spec. lia.
  - unfold batch_events, spans_events. apply list_elem_of_join. exists (span_events sp).
    split; [done|]. apply list_elem_of_fmap. eauto.
Qed.

(** The history grown by an unforked batch does not contradict the batch. *)
Lemma redelivered_unforked e e' b sp :
  engine_wf e → engine_wf e' → batch_ok b → batch_wf b → Forall (λ sp, ¬ forked_span e sp) (spans b) →
  ring_list (ring e') =
    foldl (push_list (capacity (ring e))) (ring_list (ring e)) (new_blocks (cursor e) (spans b)) →
  sp ∈ spans b → ¬ forked_span e' sp.
Proof.
  intros Hwf Hwf' Hok Hb Hnf Hring Hin (c & h & Hc & Hle & Hh & Hne). rewrite Hring in Hh.
  apply foldl_push_list_elem in Hh as [Hh|Hh].
  - destruct (observed_below_cursor e _ _ Hwf Hh) as (c0 & Hc0 & Hle0).
    rewrite Forall_forall in Hnf. apply (Hnf _ Hin). by exists c0, h.
  - unfold new_blocks in Hh. apply list_elem_of_fmap in Hh as (sp' & Heq & [_ Hin']%list_elem_of_filter).
    unfold sv_block in Heq. injection Heq as Hn ->.
    apply Hne. f_equal. eapply spans_number_inj; [by apply spans_ok_positions|done..].
Qed.

(** ** Lemmas: every outcome *)

Lemma apply_batch_cases e b :
  engine_wf e → batch_wf b →
  (∃ err, apply_batch e b = (e, Returns (Err err)) ∧
    match err with
    | NotActive s => s = status e ∧ s ≠ Active
    | Shape s => validate b = Err s
    | MissingBoundary => is_Some (cursor e) ∧ boundary b = None
    | BoundaryNumberMismatch x g => ∃ c bd, cursor e = Some c ∧ boundary b = Some bd ∧
        x = block c ∧ g = number bd ∧ g ≠ x
    | ForkSuspected o r => status e = Active ∧ batch_ok b ∧ boundary b = Some r ∧
        o ∈ ring_list (ring e) ∧ number r = number o ∧ bhash r ≠ bhash o
    | _ => False
    end) ∨
  (status e = Active ∧ batch_ok b ∧ boundary_ok e b ∧ ∃ sp h,
    sp ∈ spans b ∧ forked_span e sp ∧ MkBlockRef (sv_number sp) h ∈ ring_list (ring e) ∧
    h ≠ sv_hash sp ∧
    apply_batch (X := X) e b = (set_status Active (during e b),
      Returns (Err (ForkSuspected (MkBlockRef (sv_number sp) h) (sv_block sp))))) ∨
  (status e = Active ∧ batch_ok b ∧ boundary_ok e b ∧ Forall (λ sp, ¬ forked_span e sp) (spans b)).
Proof.
  intros Hwf Hb. destruct (is_active (status e)) eqn:Hact; last first.
  { left. exists (NotActive (status e)). unfold apply_batch. rewrite Hact. split; [done|].
    split; [done|]. intros Heq. rewrite Heq in Hact. done. }
  pose proof (proj1 (is_active_true _) Hact) as Hst.
  destruct (validate b) as [[]|s] eqn:Hv; last first.
  { left. exists (Shape s). unfold apply_batch. by rewrite Hact, Hv. }
  pose proof (proj1 (validate_ok_iff b Hb) Hv) as Hok.
  destruct (check_boundary (X := X) e b) as [e1|err] eqn:Hcb; last first.
  { left. exists err. unfold apply_batch. rewrite Hact, Hv, Hcb. split; [done|].
    apply check_boundary_err in Hcb as (c & Hc & [[? ->]|[(bd & Hbd & Hn & ->)|(bd & h & Hbd & Hn & Hh & Hin & ->)]]);
      [by rewrite Hc|by exists c, bd| |done].
    split_and!; [done|done|done|done|done|]. simpl. congruence. }
  apply check_boundary_ok in Hcb as [Hbd _]; [|done]. right.
  destruct (decide (Forall (λ sp, span_fork e sp = None) (spans b))) as [Hnf|Hf].
  - right. split_and!; [done..|]. eapply Forall_impl; [exact Hnf|]. intros sp Hsp.
    by apply span_fork_None.
  - left. split_and!; [done..|]. apply not_Forall_Exists in Hf; [|apply _].
    apply Exists_exists in Hf as (sp & Hin & Hsp).
    destruct (apply_spans_fork (during e b) (MkApplySummary 0 0 0) (spans b))
      as (sp1 & h & sm & Hin1 & Hf1 & Hsf & Happ).
    + by apply during_wf.
    + by apply spans_ok_positions.
    + exists sp. split; [done|]. simpl in Hsp. rewrite <- (during_fork e b) in Hsp.
      destruct (span_fork (during e b) sp) as [h|] eqn:Hh; [|done].
      apply span_fork_Some in Hh as (c & ? & ? & ? & ?); [|by apply during_wf]. by exists c, h.
    + exists sp1, h. rewrite during_fork in Hsf. pose proof Hsf as Hsf'.
      apply span_fork_Some in Hsf as (c & ? & ? & ? & ?); [|done].
      split_and!; [done|by exists c, h|done|done|]. rewrite apply_batch_checked by done. by rewrite Happ.
Qed.

Lemma during_active_unchanged e b :
  status e = Active → unchanged e (set_status Active (during e b)).
Proof.
  intros Hst. unfold during. destruct (cursor e) eqn:Hc.
  - exists (boundary b). destruct e; simpl in *. by subst.
  - exists (last_verified e). destruct e; simpl in *. by subst.
Qed.

(** Every batch, accepted or not, preserves the invariant and the retained checkpoints. *)
Lemma apply_batch_inv e b :
  engine_wf e → batch_wf b →
  engine_wf (apply_batch (X := X) e b).1 ∧ checkpoints (apply_batch (X := X) e b).1 = checkpoints e ∧
  (∀ cause, status (apply_batch (X := X) e b).1 = Unrecoverable cause → status e = Unrecoverable cause).
Proof.
  intros Hwf Hb. destruct (apply_batch_cases e b Hwf Hb)
    as [(err & -> & _)|[(Hst & _ & _ & sp & h & _ & _ & _ & _ & ->)|(Hst & Hok & Hbd & Hnf)]]; [done| |].
  - simpl. destruct (during_frame e b) as (_ & _ & _ & Hcp & _). split_and!; [|done|done].
    by apply set_status_wf, during_wf.
  - destruct (run (fold e) (cursor e) 0 0 (fresh (cursor e) (batch_events b)))
      as [[[[f' c'] a] s] st] eqn:Hrun.
    destruct (apply_batch_run e b f' c' a s st) as (e' & -> & ? & _ & Hs & ? & _); try done.
    simpl. split_and!; [done..|]. intros cause. rewrite Hs. by destruct st.
Qed.

Lemma checkpoint_wf e : engine_wf e → engine_wf (checkpoint e).
Proof.
  intros Hwf. unfold checkpoint. case_match; [done|]. destruct Hwf as [H1 H2 H3 H4].
  split; simpl; [done| |done|].
  - by apply store_wf.
  - destruct (decide (slots (checkpoints e) = [])) as [Hnil|Hne].
    + unfold store. by rewrite Hnil.
    + rewrite store_held by done. apply Forall_forall. intros s [Hin| ->]%push_list_elem; [|done].
      rewrite Forall_forall in H4. by apply H4.
Qed.

Lemma newest_at_or_below (l : list BlockRef) n :
  ascending (number <$> l) → n ∈ number <$> l → number <$> last (at_or_below n l) = Some n.
Proof.
  induction l as [|b l IH] using rev_ind; intros Hasc Hin; [by apply elem_of_nil in Hin|].
  rewrite fmap_app in *. unfold at_or_below. rewrite filter_app. simpl in *.
  apply StronglySorted_app in Hasc as (Hlast & Hasc & _).
  apply elem_of_app in Hin as [Hin|Hin].
  - assert ((n < number b)%N) as Hlt by (apply Hlast; [done|left]).
    rewrite filter_cons_False by lia. rewrite app_nil_r. by apply IH.
  - apply list_elem_of_singleton in Hin as ->. rewrite filter_cons_True by lia. by rewrite filter_nil, last_snoc.
Qed.

(** A rollback that finds a slot. *)
Lemma rollback_slot_wf e s :
  engine_wf e → s ∈ held (checkpoints e) → live (ring e) s = true →
  let r := match slot_cursor s with Some c => truncate_above (ring e) (block c) | None => ring_clear (ring e) end in
  engine_wf (MkEngine (slot_fold s) (slot_cursor s) r (drop_newer (checkpoints e) (slot_cursor s))
    Active None (skips e) (resets e)) ∧
  ring_list r = match slot_cursor s with Some c => at_or_below (block c) (ring_list (ring e)) | None => [] end.
Proof.
  intros Hwf Hin Hlive r. destruct (drop_newer_spec (checkpoints e) (slot_cursor s)) as (D1 & D2 & _); [apply Hwf|].
  pose proof (ewf_ring e Hwf) as Hr.
  assert (ring_list r = match slot_cursor s with Some c => at_or_below (block c) (ring_list (ring e)) | None => [] end)
    as Hl. { unfold r. destruct (slot_cursor s); [by apply truncate_above_list|done]. }
  split; [|done]. split; simpl; [|done| |].
  - unfold r. destruct (slot_cursor s); [by apply truncate_above_wf|by apply ring_clear_wf].
  - rewrite newest_number_list, Hl. unfold live in Hlive. destruct (slot_cursor s) as [c|]; [|done].
    apply newest_at_or_below; [apply Hr|]. by apply observes_spec in Hlive.
  - rewrite D2. apply Forall_forall. intros x [Hx _]%list_elem_of_filter. unfold opos_le, not_newer in *.
    by apply negb_true_iff in Hx.
Qed.

Lemma rollback_wf e n : engine_wf e → engine_wf (rollback_at_or_below e n).1.
Proof.
  intros Hwf. unfold rollback_at_or_below.
  destruct (status e); try done; destruct (best_at_or_below _ _ _) as [s|] eqn:Hbest; try done;
    apply best_at_or_below_held in Hbest as (? & ? & _); by apply rollback_slot_wf.
Qed.

Lemma reset_wf e f : engine_wf e → engine_wf (reset e f).
Proof.
  intros [H1 H2 H3 H4]. destruct (cp_clear_wf _ H2) as [? Hheld].
  split; simpl; [by apply ring_clear_wf|done|by rewrite newest_number_list|by rewrite Hheld].
Qed.

(** A run of batches, whatever their outcomes. *)
Definition apply_all e (bs : list (Batch E)) : Engine F :=
  foldl (λ e b, (apply_batch (X := X) e b).1) e bs.

Lemma apply_all_inv e bs :
  engine_wf e → Forall batch_wf bs →
  engine_wf (apply_all e bs) ∧ checkpoints (apply_all e bs) = checkpoints e ∧
  (∀ cause, status (apply_all e bs) = Unrecoverable cause → status e = Unrecoverable cause).
Proof.
  intros Hwf Hbs. revert e Hwf. induction Hbs as [|b bs Hb _ IH]; intros e Hwf; [done|].
  destruct (apply_batch_inv e b Hwf Hb) as (Hwf1 & Hcp & Hst).
  destruct (IH _ Hwf1) as (? & Hcp' & Hst'). cbn [apply_all foldl]. split_and!; [done| |].
  - by rewrite <- Hcp.
  - intros cause Hc. by apply Hst, Hst'.
Qed.

(** A fresh checkpoint is the newest slot held. *)
Lemma checkpoint_held e :
  engine_wf e → status e = Active → slots (checkpoints e) ≠ [] →
  ∃ xs, held (checkpoints (checkpoint e)) = xs ++ [MkSlot (fold e) (cursor e)].
Proof.
  intros Hwf Hst Hne. unfold checkpoint. rewrite Hst. simpl.
  rewrite store_held by (done || apply Hwf). unfold push_list. eauto.
Qed.

(** No slot held is newer than the cursor. *)
Lemma held_not_newer e :
  engine_wf e → filter (λ s, not_newer (cursor e) s = true) (held (checkpoints e)) = held (checkpoints e).
Proof.
  intros Hwf. apply filter_all. eapply Forall_impl; [apply (ewf_slots e Hwf)|]. intros s Hs.
  unfold not_newer. unfold opos_le in Hs. by apply negb_true_iff.
Qed.

Lemma engine_step_wf e e' : engine_wf e → engine_step e e' → engine_wf e'.
Proof.
  intros Hwf [b Hb| |?|?|?|?].
  - by destruct (apply_batch_inv e b Hwf Hb) as [? _].
  - by apply checkpoint_wf.
  - by apply rollback_wf.
  - by apply reset_wf.
  - unfold mark_unrecoverable. by destruct Hwf.
  - by destruct Hwf.
Qed.

(** ** Properties *)

(** C1. [apply_batch] refines a sequential fold: on a well-formed active engine, a batch that
    passes the shape and boundary checks and carries no forked span folds exactly its events
    strictly above the cursor, in strictly ascending position order, until one is refused.
    All folded: the summary counts accepted, deduped and skipped events, the cursor is the
    last position and the history gains the new blocks. Refused (halt, poison): the error and
    the status name the refused position, and the cursor is the one before it. A panic leaves
    the engine poisoned. *)
Theorem apply_batch_refines_fold e b f' c' a s st :
  engine_wf e → status e = Active → batch_wf b → batch_ok b → boundary_ok e b →
  Forall (λ sp, ¬ forked_span e sp) (spans b) →
  run (fold e) (cursor e) 0 0 (fresh (cursor e) (batch_events b)) = (f', c', a, s, st) →
  StronglySorted (λ x y, pos_lt x.1 y.1) (fresh (cursor e) (batch_events b)) ∧
  Forall (λ x, opos_lt (cursor e) (Some x.1)) (fresh (cursor e) (batch_events b)) ∧
  let d := N.of_nat (length (batch_events b) - length (fresh (cursor e) (batch_events b))) in
  ∃ e', apply_batch e b = (e', batch_out a d s st) ∧
    fold e' = f' ∧ status e' = batch_status (cursor e) st ∧ skips e' = (skips e + s)%N ∧
    ((∀ p, st ≠ StopPanic p) → cursor e' = c') ∧
    (st = Done → (a + d + s)%N = N.of_nat (length (batch_events b)) ∧ ring_list (ring e') =
      foldl (push_list (capacity (ring e))) (ring_list (ring e)) (new_blocks (cursor e) (spans b))).
Proof.
  intros Hwf Hst Hb Hok Hbd Hnf Hrun. split; [by apply fresh_sorted|]. split.
  { apply Forall_forall. by intros x [? _]%list_elem_of_filter. }
  destruct (apply_batch_run e b f' c' a s st) as (e' & He' & ? & ? & ? & ? & ? & ? & ? & Hring); try done.
  exists e'. split_and!; try done. intros Hd. split; [|by apply Hring].
  apply run_counts in Hrun as [_ Hcount]. specialize (Hcount Hd).
  assert (length (fresh (cursor e) (batch_events b)) ≤ length (batch_events b)) by apply length_filter.
  lia.
Qed.

(** C39. A rejected batch changes nothing but the freshness mark, and every rejection names its
    reason; a well-formed engine never reports an unobserved cursor block. *)
Theorem apply_batch_rejection_atomic e b e' err :
  engine_wf e → batch_wf b → apply_batch e b = (e', Returns (Err err)) →
  is_rejection (X := X) err = true →
  unchanged e e' ∧
  match err with
  | NotActive s => s = status e ∧ s ≠ Active
  | Shape s => validate b = Err s
  | MissingBoundary => is_Some (cursor e) ∧ boundary b = None
  | BoundaryNumberMismatch x g => ∃ c bd, cursor e = Some c ∧ boundary b = Some bd ∧
      x = block c ∧ g = number bd ∧ g ≠ x
  | ForkSuspected o r => o ∈ ring_list (ring e) ∧ number r = number o ∧ bhash r ≠ bhash o ∧
      (boundary b = Some r ∨ ∃ sp, sp ∈ spans b ∧ sv_block sp = r)
  | CursorBlockUnobserved _ | ApplyHalted _ _ | ApplyPoisoned _ _ => False
  end.
Proof.
  intros Hwf Hb Happ Hrej. destruct (apply_batch_cases e b Hwf Hb)
    as [(err1 & Hr & Hwhy)|[(Hst & _ & _ & sp & h & Hin & _ & Hh & Hne & Hr)|(Hst & Hok & Hbd & Hnf)]].
  - rewrite Hr in Happ. simplify_eq. split; [exists (last_verified e'); by destruct e'|].
    destruct err; naive_solver.
  - rewrite Hr in Happ. simplify_eq. split; [by apply during_active_unchanged|].
    split_and!; [done|done|done|]. right. eauto.
  - destruct (run (fold e) (cursor e) 0 0 (fresh (cursor e) (batch_events b)))
      as [[[[f' c'] a] s] st] eqn:Hrun.
    destruct (apply_batch_run e b f' c' a s st) as (e1 & Hr & _); try done.
    rewrite Hr in Happ. destruct st; simplify_eq/=.
Qed.

(** C5. Forks are detected exactly: with a boundary that names the cursor block, a well-shaped
    batch is reported as a fork iff the boundary hash is not the observed one or some span at
    or below the cursor block contradicts the observed history. *)
Theorem forks_detected e b c bd :
  engine_wf e → status e = Active → batch_wf b → batch_ok b →
  cursor e = Some c → boundary b = Some bd → number bd = block c →
  (∃ o r, (apply_batch (X := X) e b).2 = Returns (Err (ForkSuspected o r))) ↔
  bd ∉ ring_list (ring e) ∨ ∃ sp, sp ∈ spans b ∧ forked_span e sp.
Proof.
  intros Hwf Hst Hb Hok Hc Hbd Hn. destruct (apply_batch_cases e b Hwf Hb)
    as [(err & Hr & Hwhy)|[(_ & _ & Hbok & sp & h & Hin & Hf & Hh & Hne & Hr)|(_ & _ & Hbok & Hnf)]].
  - rewrite Hr. simpl. apply (validate_ok_iff b Hb) in Hok. destruct err; try naive_solver congruence.
    destruct Hwhy as (_ & _ & Heq & Hin & Hnum & Hne). simplify_eq. split; [|by eauto]. intros _. left.
    intros Hin2. destruct observed as [on oh], bd as [bn bh]. simpl in *. subst.
    apply hash_at_Some in Hin; [|apply Hwf]. apply hash_at_Some in Hin2; [|apply Hwf]. congruence.
  - rewrite Hr. simpl. split; [|by eauto]. intros _. right. eauto.
  - destruct (run (fold e) (cursor e) 0 0 (fresh (cursor e) (batch_events b)))
      as [[[[f' c'] a] s] st] eqn:Hrun.
    destruct (apply_batch_run e b f' c' a s st) as (e1 & -> & _); try done. simpl. split.
    + intros (o & r & Heq). destruct st; simplify_eq/=.
    + intros [Hbad|(sp & Hin & Hf)].
      * unfold boundary_ok in Hbok. rewrite Hc in Hbok. destruct Hbok as (h & Heq & Hin). by simplify_eq.
      * rewrite Forall_forall in Hnf. by destruct (Hnf _ Hin).
Qed.

(** C32. Every reachable engine satisfies the invariant, whatever the calls, their order and their
    outcome; and an unrecoverable engine stays unrecoverable until a reset. *)
Theorem engine_reachable_invariant e :
  engine_reachable e →
  engine_wf e ∧
  ∀ e' cause, engine_step e e' → status e = Unrecoverable cause →
    (∃ cause', status e' = Unrecoverable cause') ∨ ∃ f, e' = reset e f.
Proof.
  intros Hreach. assert (engine_wf e) as Hwf.
  { induction Hreach as [f c e Hnew|e e' _ IH Hstep]; [by eapply engine_new_wf|].
    by eapply engine_step_wf. }
  split; [done|]. intros e' cause Hstep Hs. destruct Hstep as [b Hb| |?|f|?|?].
  - left. unfold apply_batch. rewrite Hs. simpl. eauto.
  - left. unfold checkpoint. rewrite Hs. simpl. eauto.
  - left. unfold rollback_at_or_below. rewrite Hs. simpl. eauto.
  - right. eauto.
  - left. simpl. eauto.
  - left. simpl. eauto.
Qed.

(** C34. Rollback restores a checkpoint: after a checkpoint and any batches, accepted or not, while
    the window still observes the checkpoint's block, a rollback to that block or a later one
    restores the fold and the cursor the checkpoint took, makes the engine active again, cuts
    the history at the checkpoint's block and keeps every checkpoint taken up to it. *)
Theorem rollback_restores_checkpoint e bs n :
  engine_wf e → status e = Active → slots (checkpoints e) ≠ [] → Forall batch_wf bs →
  (∀ c, cursor e = Some c → (block c ≤ n)%N ∧
    block c ∈ number <$> ring_list (ring (apply_all (checkpoint e) bs))) →
  ∃ e', rollback_at_or_below (apply_all (checkpoint e) bs) n = (e', Ok (cursor e)) ∧
    fold e' = fold e ∧ cursor e' = cursor e ∧ status e' = Active ∧ last_verified e' = None ∧
    held (checkpoints e') = held (checkpoints (checkpoint e)) ∧
    ring_list (ring e') = match cursor e with
      | Some c => at_or_below (block c) (ring_list (ring (apply_all (checkpoint e) bs)))
      | None => []
      end.
Proof.
  intros Hwf Hst Hne Hbs Hwin. pose proof (checkpoint_wf e Hwf) as Hwf1.
  destruct (apply_all_inv _ bs Hwf1 Hbs) as (Hwf2 & Hcp & Hun).
  destruct (checkpoint_held e Hwf Hst Hne) as [xs Hxs].
  pose proof (held_not_newer _ Hwf1) as Hnn.
  assert (cursor (checkpoint e) = cursor e ∧ status (checkpoint e) = Active) as [Hc1 Hs1].
  { unfold checkpoint. by rewrite Hst. }
  set (e2 := apply_all (checkpoint e) bs) in *. set (s := MkSlot (fold e) (cursor e)) in *.
  assert (live (ring e2) s = true) as Hlive.
  { unfold live, s. simpl. destruct (cursor e) as [c|]; [|done].
    apply observes_spec; [apply Hwf2|]. by apply Hwin. }
  assert (best_at_or_below (checkpoints e2) n (ring e2) = Some s) as Hbest.
  { apply best_at_or_below_Some. rewrite oldest_first_held, Hcp, Hxs, filter_app.
    rewrite (filter_cons_True _ s []) by done. eexists _, []. split_and!; [done| |constructor].
    unfold slot_at_or_below, s. simpl. destruct (cursor e) as [c|]; [|done].
    apply N.leb_le. by apply Hwin. }
  pose proof (best_at_or_below_held _ _ _ _ Hbest) as (Hin & _ & _).
  destruct (rollback_slot_wf e2 s Hwf2 Hin Hlive) as [_ Hring].
  destruct (drop_newer_spec (checkpoints e2) (cursor e)) as (_ & Hd & _); [apply Hwf2|].
  unfold rollback_at_or_below. destruct (status e2) eqn:Hs2;
    [..|specialize (Hun _ eq_refl); congruence];
    rewrite Hbest; (eexists; split; [reflexivity|]); simpl; split_and!; try done;
    rewrite Hd, Hcp; rewrite Hc1 in Hnn; exact Hnn.
Qed.

(** Redelivery is idempotent: a batch that was applied, delivered again with the header of the
    new cursor block, folds nothing; every event counts as deduped and fold, cursor, status,
    history and checkpoints stay as they were. *)
Theorem redelivery_idempotent e b e' sm h :
  engine_wf e → batch_wf b → apply_batch (X := X) e b = (e', Returns (Ok sm)) →
  (∀ c, cursor e' = Some c → MkBlockRef (block c) h ∈ ring_list (ring e')) →
  let b' := set_boundary ((λ c, MkBlockRef (block c) h) <$> cursor e') b in
  ∃ e'', apply_batch (X := X) e' b' =
      (e'', Returns (Ok (MkApplySummary 0 (N.of_nat (length (batch_events b))) 0))) ∧
    fold e'' = fold e' ∧ cursor e'' = cursor e' ∧ status e'' = Active ∧
    ring_list (ring e'') = ring_list (ring e') ∧ checkpoints e'' = checkpoints e' ∧
    skips e'' = skips e'.
Proof.
  intros Hwf Hb Happ Hh b'. destruct (apply_batch_cases e b Hwf Hb)
    as [(? & Hr & _)|[(_ & _ & _ & ? & ? & _ & _ & _ & _ & Hr)|(Hst & Hok & Hbd & Hnf)]];
    [rewrite Hr in Happ; simplify_eq..|].
  destruct (run (fold e) (cursor e) 0 0 (fresh (cursor e) (batch_events b)))
    as [[[[f' c'] a] s] st] eqn:Hrun.
  destruct (apply_batch_run e b f' c' a s st) as (e1 & Hr & Hwf1 & _ & Hst1 & _ & _ & _ & Hc1 & Hring);
    try done.
  rewrite Hr in Happ. destruct st; simplify_eq/=. specialize (Hring eq_refl). specialize (Hc1 ltac:(done)).
  rewrite <- Hc1 in Hrun. assert (fresh (cursor e') (batch_events b) = []) as Hnone.
  { by eapply redelivered_stale. }
  assert (new_blocks (cursor e') (spans b) = []) as Hnew by by apply stale_no_new_blocks.
  assert (batch_ok b') as Hok' by (unfold b', batch_ok; by rewrite spans_set_boundary).
  destruct (apply_batch_run e' b' (fold e') (cursor e') 0 0 Done)
    as (e'' & Hr'' & _ & Hf & Hst2 & Hcp & _ & Hsk & Hc2 & Hring2); try done.
  - unfold b', boundary_ok. destruct (cursor e') as [c|]; [|done]. exists h. split; [done|].
    by apply Hh.
  - apply Forall_forall. intros sp Hin. unfold b' in Hin. rewrite spans_set_boundary in Hin.
    by apply (redelivered_unforked e e' b sp).
  - unfold b', batch_events. rewrite spans_set_boundary. unfold batch_events in Hnone. by rewrite Hnone.
  - unfold b', batch_events in *. rewrite spans_set_boundary in *. rewrite Hnone in Hr''.
    simpl in Hr''. rewrite Nat.sub_0_r in Hr''. exists e''. split_and!; try done.
    + by apply Hc2.
    + rewrite Hring2, Hnew by done. done.
    + rewrite Hsk. lia.
Qed.

End spec.

(** ** Witnesses: a recording fold over three blocks *)

(** Records what it is given; event [0] is skipped, event [1] halts. *)
#[local] Instance recorder : Fold (list (Position * N)) N () := λ f p ev,
  if (ev =? 0)%N then (f, Returns (Err (Skip ()))) else
  if (ev =? 1)%N then (f, Returns (Err (Halt ()))) else (f ++ [(p, ev)], Returns (Ok ())).

Definition ex_hash (n : N) : hash := [byte_of_N n].
Definition ex_block (n : N) : BlockRef := MkBlockRef n (ex_hash n).
Definition ex_start : Engine (list (Position * N)) :=
  MkEngine [] None (with_capacity 4) (cp_new 2) Active None 0 0.
Definition ex_first : Batch N :=
  push_block (push_block batch_new (ex_block 3) [(0, 7); (2, 0)]%N) (ex_block 5) [(1, 9)]%N.
Definition ex_engine : Engine (list (Position * N)) := (apply_batch ex_start ex_first).1.
Definition ex_second : Batch N :=
  set_boundary (Some (ex_block 5))
    (push_block (push_block batch_new (ex_block 5) [(1, 9); (4, 8)]%N) (ex_block 6) [(0, 0)]%N).

Lemma ex_start_new : engine_new [] (MkEngineConfig 4 2) = Ok ex_start.
Proof. reflexivity. Defined.
Lemma ex_first_wf : batch_wf ex_first.
Proof. unfold ex_first. repeat apply push_block_wf. apply batch_new_wf. Qed.
Lemma ex_second_wf : batch_wf ex_second.
Proof. apply set_boundary_wf. repeat apply push_block_wf. apply batch_new_wf. Qed.
Lemma ex_engine_wf : engine_wf ex_engine.
Proof.
  eapply apply_batch_inv; [eapply engine_new_wf, ex_start_new|exact ex_first_wf].
Qed.
Lemma ex_second_ok : batch_ok ex_second.
Proof. apply (validate_ok_iff _ ex_second_wf). reflexivity. Qed.

Lemma ex_boundary_ok : boundary_ok ex_engine ex_second.
Proof. exists (ex_hash 5). split; [reflexivity|]. vm_compute. right. left. Qed.

Lemma ex_unforked : Forall (λ sp, ¬ forked_span ex_engine sp) (spans ex_second).
Proof.
  apply Forall_forall. intros sp Hin. apply (span_fork_None _ _ ex_engine_wf).
  revert sp Hin. apply Forall_forall. repeat constructor.
Qed.

Lemma apply_batch_refines_fold_witness :
  batch_ok ex_second ∧
  ∃ e', apply_batch ex_engine ex_second = (e', Returns (Ok (MkApplySummary 1 1 1))) ∧
    fold e' = [(MkPosition 3 0, 7); (MkPosition 5 1, 9); (MkPosition 5 4, 8)]%N ∧
    cursor e' = Some (MkPosition 6 0).
Proof.
  split; [exact ex_second_ok|].
  destruct (apply_batch_refines_fold (X := ()) ex_engine ex_second
    [(MkPosition 3 0, 7); (MkPosition 5 1, 9); (MkPosition 5 4, 8)]%N (Some (MkPosition 6 0)) 1 1 Done
    ex_engine_wf eq_refl ex_second_wf ex_second_ok ex_boundary_ok ex_unforked)
    as (_ & _ & e' & H1 & H2 & _ & _ & H3 & _); [vm_compute; reflexivity|].
  exists e'. split_and!; [exact H1|exact H2|]. apply H3. done.
Defined.

Lemma apply_batch_rejection_atomic_witness :
  let e' := (apply_batch ex_engine ex_first).1 in
  apply_batch (X := ()) ex_engine ex_first = (e', Returns (Err MissingBoundary)) ∧ unchanged ex_engine e'.
Proof.
  intros e'. assert (apply_batch (X := ()) ex_engine ex_first = (e', Returns (Err MissingBoundary))) as H
    by reflexivity.
  split; [exact H|].
  exact (proj1 (apply_batch_rejection_atomic _ _ _ _ ex_engine_wf ex_first_wf H eq_refl)).
Defined.

Lemma forks_detected_witness :
  let b := set_boundary (Some (MkBlockRef 5 (ex_hash 9))) ex_second in
  ∃ o r, (apply_batch (X := ()) ex_engine b).2 = Returns (Err (ForkSuspected o r)).
Proof.
  intros b. apply (forks_detected (X := ()) ex_engine b (MkPosition 5 1) (MkBlockRef 5 (ex_hash 9)) ex_engine_wf
    eq_refl); [apply set_boundary_wf, ex_second_wf|by vm_compute; apply ex_second_ok| |done|done|].
  - reflexivity.
  - left. vm_compute. intros H. repeat (apply elem_of_cons in H as [H|H]; [done|]).
    by apply elem_of_nil in H.
Defined.

Lemma engine_reachable_invariant_witness :
  engine_reachable ex_engine ∧ engine_wf ex_engine.
Proof.
  assert (engine_reachable ex_engine) as H.
  { eapply reach_step; [eapply reach_new, ex_start_new|]. apply step_apply, ex_first_wf. }
  split; [exact H|]. exact (proj1 (engine_reachable_invariant ex_engine H)).
Defined.

Lemma rollback_restores_checkpoint_witness :
  ∃ e', rollback_at_or_below (apply_all (X := ()) (checkpoint ex_engine) [ex_second]) 5 =
      (e', Ok (cursor ex_engine)) ∧ fold e' = fold ex_engine ∧ cursor ex_engine = Some (MkPosition 5 1).
Proof.
  destruct (rollback_restores_checkpoint (X := ()) ex_engine [ex_second] 5 ex_engine_wf eq_refl)
    as (e' & H1 & H2 & _).
  - done.
  - apply Forall_singleton, ex_second_wf.
  - intros c [= <-]. split; [done|]. vm_compute. right. left.
  - exists e'. split; [exact H1|]. split; [exact H2|reflexivity].
Defined.

Lemma redelivery_idempotent_witness :
  let b' := set_boundary ((λ c, MkBlockRef (block c) (ex_hash 5)) <$> cursor ex_engine) ex_first in
  boundary b' = Some (ex_block 5) ∧ length (batch_events ex_first) = 3 ∧
  ∃ e'', apply_batch (X := ()) ex_engine b' =
      (e'', Returns (Ok (MkApplySummary 0 (N.of_nat (length (batch_events ex_first))) 0))) ∧
    fold e'' = fold ex_engine.
Proof.
  intros b'. split; [reflexivity|]. split; [reflexivity|].
  destruct (redelivery_idempotent (X := ()) ex_start ex_first ex_engine (MkApplySummary 2 0 1) (ex_hash 5))
    as (e'' & H1 & H2 & _).
  - eapply engine_new_wf, ex_start_new.
  - exact ex_first_wf.
  - vm_compute. reflexivity.
  - intros c [= <-]. vm_compute. right. left.
  - exists e''. split; [exact H1|exact H2].
Defined.
