(* ===== verification/Driver.v ===== *)
(** The poll loop of chainfold ([crates/chainfold/src/driver.rs], [source.rs], [sink.rs]): it
    scans a source window by window, feeds the engine, and recovers from forks by bisection. The
    source and the durability sink are the consumer's, so they are type classes. *)
From S2P Require Import Prelude Position Batch Ring Checkpoint ChainError Engine.

(** ** Interfaces *)

(** [ReplayHorizon]. *)
Inductive ReplayHorizon :=
| Genesis
| FromBlock (n : N).

(** An event as a source reports it: its block, its log index, and the decoded event. *)
Abbreviation entry E := (BlockRef * N * E)%type.
Definition entry_block {E} (x : entry E) : BlockRef := x.1.1.
Definition entry_index {E} (x : entry E) : N := x.1.2.

(** The [Source] trait. [events_in] appends to the buffer it is given, so its state is paired
    with it. *)
Class Source (St E Err : Type) := {
  source_head : SM St Err BlockRef;
  header_at : N → SM St Err (option BlockRef);
  events_in : N → N → SM (St * list (entry E)) Err ();
  horizon : St → ReplayHorizon;
  window : St → N;
}.

(** The [SnapshotSink] trait. *)
Class SnapshotSink (K F : Type) := {
  offer : Engine F → K → K * result () DurabilityLost;
  durable_cursor : K → option Position;
  sink_reset : K → K;
}.

(** [NoSink]. *)
Definition NoSink : Type := ().
#[export] Instance no_sink {F} : SnapshotSink NoSink F := {|
  offer := λ _ k, (k, Ok ());
  durable_cursor := λ _, None;
  sink_reset := λ k, k;
|}.

(** ** Data *)

(** A [Duration] is a number of nanoseconds up to its maximum. *)
Definition duration_max : N := u64_max * 1000000000 + 999999999.
Definition duration_saturating_mul (d f : N) : N := N.min (d * f) duration_max.

Definition DEFAULT_POLL_INTERVAL : N := 1000000000.
Definition DEFAULT_BACKOFF_BASE : N := 200000000.
Definition DEFAULT_BACKOFF_MAX : N := 30000000000.
Definition DEFAULT_CHECKPOINT_INTERVAL : N := 64.
Definition MAX_SPAN : N := 64.

(** [Tick]. *)
Inductive Tick :=
| Progressed (summary : ApplySummary)
| Idle
| RolledBack (to : option Position)
| Resynced
| SourceError
| TickDurabilityLost
| Terminal (s : EngineStatus).
#[export] Instance Tick_eq_dec : EqDecision Tick.
Proof. solve_decision. Defined.

(** [Scan]. *)
Inductive Scan :=
| Ready (h : BlockRef)
| Capped (anchor h : BlockRef)
| Lagging
| Refused.

(** [DriverStatus]. *)
Record DriverStatus := MkDriverStatus {
  ds_cursor : option Position;
  ds_last_verified : option BlockRef;
  ds_engine : EngineStatus;
  ds_caught_up : bool;
  ds_skips : N;
  ds_durable_cursor : option Position;
  ds_durability_lost : bool;
  ds_generation : N;
}.

(** [DriverStatus::is_terminal]. *)
Definition is_terminal (s : DriverStatus) : bool := negb (is_active (ds_engine s)).

(** [DriverConfig]. *)
Record DriverConfig := MkDriverConfig {
  start_block : N;
  poll_interval : N;
  backoff_base : N;
  backoff_max : N;
  checkpoint_interval : option N;
  snapshot_interval : option N;
}.

(** [DriverConfig::default] and [DriverConfig::from_block]. *)
Definition driver_config_default : DriverConfig :=
  MkDriverConfig 0 DEFAULT_POLL_INTERVAL DEFAULT_BACKOFF_BASE DEFAULT_BACKOFF_MAX
    (Some DEFAULT_CHECKPOINT_INTERVAL) (Some DEFAULT_CHECKPOINT_INTERVAL).
Definition from_block (start : N) : DriverConfig :=
  MkDriverConfig start DEFAULT_POLL_INTERVAL DEFAULT_BACKOFF_BASE DEFAULT_BACKOFF_MAX
    (Some DEFAULT_CHECKPOINT_INTERVAL) (Some DEFAULT_CHECKPOINT_INTERVAL).

(** The marks a driver keeps between ticks. *)
Record Marks := MkMarks {
  consecutive_errors : N;
  caught_up : bool;
  generation : N;
  last_checkpoint_block : option N;
  last_snapshot_block : option N;
  seen_resets : N;
  durability_lost : bool;
  advanced : bool;
  span : N;
  walked : option BlockRef;
  vouched : option BlockRef;
  left_at : option (option Position * N);
}.

(** [Driver<F, S, K>]: the parts it drives, its buffers, and its marks (fields of the same
    struct in the source). *)
Record Driver (F E St K : Type) := MkDriver {
  engine : Engine F;
  source : St;
  sink : K;
  config : DriverConfig;
  batch : Batch E;
  scratch : list (entry E);
  initial : F;
  marks : Marks;
}.
Arguments MkDriver {F E St K} _ _ _ _ _ _ _ _.
Arguments engine {F E St K} _.
Arguments source {F E St K} _.
Arguments sink {F E St K} _.
Arguments config {F E St K} _.
Arguments batch {F E St K} _.
Arguments scratch {F E St K} _.
Arguments initial {F E St K} _.
Arguments marks {F E St K} _.

(** Field assignments. *)
Definition set_consecutive_errors (v : N) (m : Marks) : Marks :=
  let (_, b, c, d, e, f, g, h, i, j, k, l) := m in MkMarks v b c d e f g h i j k l.
Definition set_caught_up (v : bool) (m : Marks) : Marks :=
  let (a, _, c, d, e, f, g, h, i, j, k, l) := m in MkMarks a v c d e f g h i j k l.
Definition set_generation (v : N) (m : Marks) : Marks :=
  let (a, b, _, d, e, f, g, h, i, j, k, l) := m in MkMarks a b v d e f g h i j k l.
Definition set_last_checkpoint_block (v : option N) (m : Marks) : Marks :=
  let (a, b, c, _, e, f, g, h, i, j, k, l) := m in MkMarks a b c v e f g h i j k l.
Definition set_last_snapshot_block (v : option N) (m : Marks) : Marks :=
  let (a, b, c, d, _, f, g, h, i, j, k, l) := m in MkMarks a b c d v f g h i j k l.
Definition set_seen_resets (v : N) (m : Marks) : Marks :=
  let (a, b, c, d, e, _, g, h, i, j, k, l) := m in MkMarks a b c d e v g h i j k l.
Definition set_durability_lost (v : bool) (m : Marks) : Marks :=
  let (a, b, c, d, e, f, _, h, i, j, k, l) := m in MkMarks a b c d e f v h i j k l.
Definition set_advanced (v : bool) (m : Marks) : Marks :=
  let (a, b, c, d, e, f, g, _, i, j, k, l) := m in MkMarks a b c d e f g v i j k l.
Definition set_span (v : N) (m : Marks) : Marks :=
  let (a, b, c, d, e, f, g, h, _, j, k, l) := m in MkMarks a b c d e f g h v j k l.
Definition set_walked (v : option BlockRef) (m : Marks) : Marks :=
  let (a, b, c, d, e, f, g, h, i, _, k, l) := m in MkMarks a b c d e f g h i v k l.
Definition set_vouched (v : option BlockRef) (m : Marks) : Marks :=
  let (a, b, c, d, e, f, g, h, i, j, _, l) := m in MkMarks a b c d e f g h i j v l.
Definition set_left_at (v : option (option Position * N)) (m : Marks) : Marks :=
  let (a, b, c, d, e, f, g, h, i, j, k, _) := m in MkMarks a b c d e f g h i j k v.

(** ** Pure operations *)

(** [due]. *)
Definition due (last : option N) (blk interval : N) : bool :=
  match last with None => true | Some last => (u64_saturating_add last interval <=? blk)%N end.

(** A stable [sort_by_key] on block number and log index. *)
Definition entry_le {E} (x y : entry E) : bool :=
  (number (entry_block x) <? number (entry_block y))%N ||
  ((number (entry_block x) =? number (entry_block y))%N && (entry_index x <=? entry_index y)%N).
Fixpoint insert_entry {E} (x : entry E) (l : list (entry E)) : list (entry E) :=
  match l with
  | [] => [x]
  | y :: l => if entry_le x y then x :: y :: l else y :: insert_entry x l
  end.
Definition sort_entries {E} (l : list (entry E)) : list (entry E) := foldr insert_entry [] l.

(** The loop of [group_into]: the open span is pushed when the block changes. *)
Fixpoint group_entries {E} (entries : list (entry E)) (open : list (N * E)) (current : option BlockRef)
    (b : Batch E) : Batch E :=
  match entries with
  | [] => match current with Some o => push_block b o open | None => b end
  | (blk, li, ev) :: entries =>
    match current with
    | Some o =>
      if bool_decide (o = blk) then group_entries entries (open ++ [(li, ev)]) current b
      else group_entries entries [(li, ev)] (Some blk) (push_block b o open)
    | None => group_entries entries (open ++ [(li, ev)]) (Some blk) b
    end
  end.

(** [group_into]. *)
Definition group_into {E} (b : Batch E) (entries : list (entry E)) : Batch E :=
  group_entries (sort_entries entries) [] None b.

Section driver.
Context {F E X St SE K : Type} `{!Fold F E X} `{!Source St E SE} `{!SnapshotSink K F}.

Abbreviation D := (Driver F E St K).

(** Assignments to fields. *)
Definition put_engine (e : Engine F) (d : D) : D :=
  MkDriver e (source d) (sink d) (config d) (batch d) (scratch d) (initial d) (marks d).
Definition put_source (s : St) (d : D) : D :=
  MkDriver (engine d) s (sink d) (config d) (batch d) (scratch d) (initial d) (marks d).
Definition put_sink (k : K) (d : D) : D :=
  MkDriver (engine d) (source d) k (config d) (batch d) (scratch d) (initial d) (marks d).
Definition put_batch (b : Batch E) (d : D) : D :=
  MkDriver (engine d) (source d) (sink d) (config d) b (scratch d) (initial d) (marks d).
Definition put_scratch (l : list (entry E)) (d : D) : D :=
  MkDriver (engine d) (source d) (sink d) (config d) (batch d) l (initial d) (marks d).
Definition mark (f : Marks → Marks) (d : D) : D :=
  MkDriver (engine d) (source d) (sink d) (config d) (batch d) (scratch d) (initial d) (f (marks d)).

(** ** Marks and cadence *)

(** [Driver::engine_point]. *)
Definition engine_point (d : D) : option Position * N := (cursor (engine d), resets (engine d)).

(** [Driver::is_caught_up]. *)
Definition is_caught_up (d : D) : bool :=
  caught_up (marks d) && is_active (status (engine d)) &&
  bool_decide (left_at (marks d) = Some (engine_point d)).

(** [Driver::run_checkpoint]. *)
Definition run_checkpoint (d : D) : D :=
  let d := put_engine (checkpoint (engine d)) d in
  match cursor (engine d) with
  | Some c => mark (set_last_checkpoint_block (Some (block c))) d
  | None => d
  end.

(** [Driver::auto_checkpoint]. *)
Definition auto_checkpoint (d : D) : D :=
  match checkpoint_interval (config d), cursor (engine d) with
  | Some interval, Some c =>
    if due (last_checkpoint_block (marks d)) (block c) interval then run_checkpoint d else d
  | _, _ => d
  end.

(** [Driver::offer_snapshot], with [Driver::lose_durability]. *)
Definition offer_snapshot (d : D) : D * option Tick :=
  if durability_lost (marks d) then (d, None) else
  match snapshot_interval (config d), durable_point (engine d) with
  | Some interval, Some point =>
    if negb (due (last_snapshot_block (marks d)) (block point) interval) then (d, None) else
    let (k, r) := offer (engine d) (sink d) in
    let d := put_sink k d in
    match r with
    | Ok _ => (mark (set_last_snapshot_block (Some (block point))) d, None)
    | Err _ => (mark (set_durability_lost true) d, Some TickDurabilityLost)
    end
  | _, _ => (d, None)
  end.

(** [Driver::clamp_marks]. *)
Definition clamp_marks (d : D) : D :=
  let blk := block <$> cursor (engine d) in
  let clamp := λ m : option N, match m, blk with Some m, Some b => Some (N.min m b) | _, _ => None end in
  mark (λ m, set_last_snapshot_block (clamp (last_snapshot_block m))
              (set_last_checkpoint_block (clamp (last_checkpoint_block m)) m)) d.

(** ** Recovery *)

(** [Driver::resync]. *)
Definition resync (d : D) : D * Tick :=
  (mark (λ m, set_consecutive_errors 0 (set_caught_up false m)) (put_engine (reset (engine d) (initial d)) d),
   Resynced).

(** [Driver::resync_or_terminal]. *)
Definition resync_or_terminal (d : D) : D * Tick :=
  match horizon (source d) with
  | FromBlock h =>
    if (start_block (config d) <? h)%N then
      let d := put_engine (mark_unrecoverable (engine d) (HorizonExceeded (start_block (config d)) h)) d in
      (d, Terminal (status (engine d)))
    else resync d
  | Genesis => resync d
  end.

(** [Driver::roll_back_to]. *)
Definition roll_back_to (ancestor : N) (d : D) : D * Tick :=
  let (e, r) := rollback_at_or_below (engine d) ancestor in
  let d := put_engine e d in
  match r with
  | Ok to => (mark (set_caught_up false) d, RolledBack to)
  | Err (NoCheckpointAtOrBelow _) => resync_or_terminal d
  | Err (RollbackUnrecoverable cause) => (d, Terminal (Unrecoverable cause))
  end.

(** A call on the source, and one that also fills the scratch buffer. *)
Definition on_source {A} (m : SM St SE A) : SM D SE A :=
  sm_zoom (λ d, Some (source d)) put_source m.
Definition on_scratch {A} (m : SM (St * list (entry E)) SE A) : SM D SE A :=
  sm_zoom (λ d, Some (source d, scratch d)) (λ p d, put_scratch p.2 (put_source p.1 d)) m.

(** The loop of [Driver::recover_via_bisection] over [lo..hi]; the interval shrinks at every
    round, so [fuel] is its length. The answer is [lo]. *)
Fixpoint bisect (obs : list BlockRef) (fuel lo hi : nat) : SM D SE nat :=
  match fuel with
  | O => mret lo
  | S fuel =>
    if lo <? hi then
      let mid := lo + (hi - lo) / 2 in
      o ← sm_expect (obs !! mid);
      r ← on_source (header_at (number o));
      match r with
      | Some h => if bool_decide (bhash h = bhash o) then bisect obs fuel (mid + 1) hi
                  else bisect obs fuel lo mid
      | None => bisect obs fuel lo mid
      end
    else mret lo
  end.

(** [u32::saturating_add] on the error count. *)
Definition count_error (m : Marks) : Marks :=
  set_consecutive_errors (N.min (consecutive_errors m + 1) u32_max) m.

(** [Driver::recover_via_bisection]. *)
Definition recover_via_bisection : SM D Empty_set Tick :=
  sm_modify (mark (set_vouched None));;
  d ← sm_get;
  let obs := observed (engine d) in
  r ← sm_result (bisect obs (length obs) 0 (length obs));
  match r with
  | Err _ => sm_modify (mark count_error);; mret SourceError
  | Ok O => sm_step resync_or_terminal
  | Ok (S i) => o ← sm_expect (obs !! i); sm_step (roll_back_to (number o))
  end.

(** ** Scanning *)

(** The head trails the floor of the scan: the cursor block, or the block the last walk ended
    on. It lags when the newest observed block at or below it is on its chain. *)
Definition lagging (h : BlockRef) : SM D SE bool :=
  d ← sm_get;
  let floor := match walked (marks d) with
               | Some w => Some (number w)
               | None => block <$> cursor (engine d)
               end in
  match floor with
  | Some floor =>
    if (number h <? floor)%N then
      match last (take_while (λ seen, (number seen <=? number h)%N) (observed (engine d))) with
      | None => mret true
      | Some seen =>
        if (number seen =? number h)%N then mret (bool_decide (seen = h)) else
        r ← on_source (header_at (number seen));
        mret (match r with None => true | Some header => bool_decide (header = seen) end)
      end
    else mret false
  | None => mret false
  end.

(** Where the walk starts, and whether it resumes above the cursor block. *)
Definition scan_from (h : BlockRef) : SM D SE (N * bool) :=
  d ← sm_get;
  let from := match cursor (engine d) with Some c => block c | None => start_block (config d) end in
  let vouched := bool_decide (vouched (marks d) = Some h) in
  match walked (marks d) with
  | Some w =>
    on_chain ← (if vouched || bool_decide (h = w) then mret true else
                r ← on_source (header_at (number w)); mret (bool_decide (r = Some w)));
    if (on_chain : bool) then mret (u64_saturating_add (number w) 1, true)
    else sm_modify (mark (set_walked None));; mret (from, false)
  | None =>
    match cursor (engine d) with
    | Some c => if vouched then mret (u64_saturating_add (block c) 1, true) else mret (from, false)
    | None => mret (from, false)
    end
  end.

(** The window that holds the cursor block: its header becomes the boundary, and only the
    events above the cursor stay. [false] when it names the block twice. *)
Definition at_cursor (c : Position) : SM D SE bool :=
  d ← sm_get;
  let hdrs := filter (λ b, number b = block c) (entry_block <$> scratch d) in
  let bd := hdrs !! 0 in
  if existsb (λ b, negb (bool_decide (Some b = bd))) (drop 1 hdrs) then mret false else
  sm_modify (put_batch (set_boundary bd (batch d)));;
  sm_modify (λ d, put_scratch (filter (λ x, opos_ltb (Some c)
    (Some (MkPosition (number (entry_block x)) (entry_index x))) = true) (scratch d)) d);;
  mret true.

(** One window of [Driver::scan]: its events are read into the scratch buffer, and only those
    above the cursor stay. [false] when the source contradicts itself. *)
Definition read_window (c : option Position) (from to : N) : SM D SE bool :=
  sm_modify (put_scratch []);;
  on_scratch (events_in from to);;
  d ← sm_get;
  if existsb (λ x, negb ((from <=? number (entry_block x))%N && (number (entry_block x) <=? to)%N)) (scratch d)
  then mret false else
  match c with
  | Some c => if (from =? block c)%N then at_cursor c else mret true
  | None => mret true
  end.

(** The window loop of [Driver::scan]: it reads at most [span] windows, which is its fuel. *)
Fixpoint walk (fuel : nat) (c : option Position) (width end_ from : N) : SM D SE bool :=
  match fuel with
  | O => mret true
  | S fuel =>
    if (from <=? end_)%N then
      let to := N.min end_ (u64_saturating_add from (width - 1)) in
      ok ← read_window c from to;
      if negb ok then mret false else
      d ← sm_get;
      if bool_decide (scratch d = []) then
        match u64_checked_add to 1 with
        | None => mret true
        | Some next => walk fuel c width end_ next
        end
      else
        sm_modify (λ d, put_scratch [] (put_batch (group_into (batch d) (scratch d)) d));; mret true
    else mret true
  end.

(** The boundary of a walk that did not read the cursor block. *)
Definition fill_boundary (h : BlockRef) (resumed : bool) : SM D SE () :=
  d ← sm_get;
  match cursor (engine d), boundary (batch d) with
  | Some c, None =>
    bd ← (if resumed then mret (last (observed (engine d)))
          else if (number h =? block c)%N then mret (Some h)
          else on_source (header_at (block c)));
    sm_modify (λ d, put_batch (set_boundary bd (batch d)) d)
  | _, _ => mret ()
  end.

(** [Driver::scan]. *)
Definition scan : SM D SE Scan :=
  sm_modify (λ d, put_batch (batch_clear (batch d)) d);;
  h ← on_source source_head;
  lags ← lagging h;
  if (lags : bool) then mret Lagging else
  d ← sm_get;
  let width := N.max (window (source d)) 1 in
  fr ← scan_from h;
  let '(from, resumed) := fr in
  d ← sm_get;
  let end_ := N.min (number h)
    (u64_saturating_add from (u64_saturating_mul (span (marks d)) width - 1)) in
  ok ← walk (N.to_nat (span (marks d))) (cursor (engine d)) width end_ from;
  if negb ok then mret Refused else
  fill_boundary h resumed;;
  d ← sm_get;
  if (end_ <? number h)%N && batch_is_empty (batch d) then
    anchor ← on_source (header_at end_);
    r ← on_source (header_at (number h));
    mret (match anchor with
          | Some a => if bool_decide (r = Some h) && (number a =? end_)%N then Capped a h else Refused
          | None => Refused
          end)
  else if batch_is_empty (batch d) then mret (Ready h) else
    r ← on_source (header_at (number h));
    mret (if bool_decide (r = Some h) then Ready h else Refused).

(** ** One tick *)

(** Past the scan, [Driver::poll_apply] applies the batch. *)
Definition apply_scanned (h : BlockRef) (capped_at : option BlockRef) : SM D Empty_set Tick :=
  sm_modify (mark (set_consecutive_errors 0));;
  d ← sm_get;
  let old_walked := walked (marks d) in
  sm_modify (mark (set_walked None));;
  r ← sm_result (sm_zoom (λ d, Some (engine d)) put_engine (λ e, apply_batch e (batch d)));
  match r with
  | Ok summary =>
    let empty := batch_is_empty (batch d) in
    let idle := empty && bool_decide (capped_at = None) in
    sm_modify (mark (λ m,
      let m := if empty then set_walked (match capped_at with Some a => Some a | None => old_walked end) m else m in
      let m := if idle then m else set_vouched (Some h) m in
      set_caught_up idle m));;
    sm_modify auto_checkpoint;;
    lost ← sm_step offer_snapshot;
    mret (match lost with
          | Some tick => tick
          | None => if idle then Idle else Progressed summary
          end)
  | Err (ForkSuspected _ _) | Err MissingBoundary | Err (CursorBlockUnobserved _) => recover_via_bisection
  | Err (ApplyHalted _ _) | Err (ApplyPoisoned _ _) => d ← sm_get; mret (Terminal (status (engine d)))
  | Err (Shape _) | Err (BoundaryNumberMismatch _ _) =>
    sm_modify (mark count_error);; mret SourceError
  | Err (NotActive _) => sm_expect None
  end.

(** [Driver::poll_apply]. *)
Definition poll_apply : SM D Empty_set Tick :=
  sm_modify (mark (λ m, set_generation (u64_wrapping_add (generation m) 1) m));;
  d ← sm_get;
  if negb (is_active (status (engine d))) then mret (Terminal (status (engine d))) else
  r ← sm_result scan;
  match r with
  | Ok (Ready h) => apply_scanned h None
  | Ok (Capped anchor h) => apply_scanned h (Some anchor)
  | Ok Lagging => sm_modify (mark (λ m, set_caught_up true (set_consecutive_errors 0 m)));; mret Idle
  | Ok Refused | Err _ =>
    sm_modify (λ d, mark count_error (put_batch (batch_clear (batch d)) d));; mret SourceError
  end.

(** The assignments [Driver::step] makes before and after [poll_apply]. *)
Definition step_enter (d : D) : D :=
  let d := clamp_marks d in
  let d := if negb (seen_resets (marks d) =? resets (engine d))%N
           then mark (set_seen_resets (resets (engine d))) (put_sink (sink_reset (sink d)) d) else d in
  let moved := negb (bool_decide (left_at (marks d) = Some (engine_point d))) in
  mark (λ m, let m := set_left_at None m in
             if moved then set_vouched None (set_walked None m) else m) d.
Definition step_leave (tick : Tick) (d : D) : D :=
  mark (λ m,
    let m := set_advanced (match tick with Progressed _ => true | _ => false end) m in
    let m := set_span (if bool_decide (tick = SourceError) then N.max (span m / 2) 1
                       else N.min (u64_saturating_mul (span m) 2) MAX_SPAN) m in
    set_left_at (if is_active (status (engine d)) then Some (engine_point d) else None) m) d.

(** [Driver::step]. *)
Definition step : SM D Empty_set Tick :=
  sm_modify step_enter;;
  tick ← poll_apply;
  sm_modify (step_leave tick);;
  mret tick.

(** [Driver::tick]. *)
Definition tick : SM D Empty_set Tick := step.

(** ** Construction and observers *)

(** [Driver::around]. *)
Definition around (e : Engine F) (s : St) (k : K) (init : F) (c : DriverConfig) : result D ConfigError :=
  match (match horizon s with
         | FromBlock h => if (start_block c <? h)%N then Some (HorizonExceedsStart (start_block c) h) else None
         | Genesis => None
         end) with
  | Some err => Err err
  | None =>
    let k := if opos_ltb (cursor e) (durable_cursor k) then sink_reset k else k in
    let d := MkDriver e s k c batch_new [] init
      (MkMarks 0 false 0 None None (resets e) false false MAX_SPAN None None None) in
    Ok (if checkpoint_count e =? 0 then auto_checkpoint d else d)
  end.

(** [Driver::build], which [new] and [with_sink] call. *)
Definition build (f : F) (s : St) (k : K) (ec : EngineConfig) (c : DriverConfig) : result D ConfigError :=
  (let? e := engine_new f ec in around e s k f c)%works.

(** [Driver::engine_mut] and [Driver::source_mut]: the caller moves the engine or the source. *)
Definition engine_mut (g : Engine F → Engine F) (d : D) : D := put_engine (g (engine d)) d.
Definition source_mut (g : St → St) (d : D) : D :=
  put_source (g (source d)) (mark (λ m, set_vouched None (set_walked None m)) d).

(** [Driver::checkpoint]. *)
Definition driver_checkpoint (d : D) : D := run_checkpoint d.

(** [Driver::status]. *)
Definition driver_status (d : D) : DriverStatus :=
  MkDriverStatus (cursor (engine d)) (last_verified (engine d)) (status (engine d)) (is_caught_up d)
    (skips (engine d))
    (if (seen_resets (marks d) =? resets (engine d))%N then durable_cursor (sink d) else None)
    (durability_lost (marks d)) (generation (marks d)).

(** [Driver::next_delay]; [checked_shl] is [None] from a shift of 32 on. *)
Definition next_delay (d : D) : N :=
  if (consecutive_errors (marks d) =? 0)%N then
    if advanced (marks d) then 0 else poll_interval (config d)
  else
    let shift := (consecutive_errors (marks d) - 1)%N in
    let factor := if (shift <? 32)%N then ((2 ^ shift) mod (u32_max + 1))%N else u32_max in
    N.min (duration_saturating_mul (backoff_base (config d)) factor) (backoff_max (config d)).

End driver.
