(* ===== verification/DriverSpec.v ===== *)
(** Correctness of the poll loop: grouping a window, catching up with an honest source, fork
    recovery by bisection, and what every tick keeps. *)
From S2P Require Import Prelude Position Batch Ring Checkpoint ChainError Engine EngineSpec Driver.

(** ** Specification *)

(** The position of an entry, and the entry as a positioned event. *)
Definition entry_key {E} (x : entry E) : Position := MkPosition (number (entry_block x)) (entry_index x).
Definition positioned {E} (x : entry E) : Position * E := (entry_key x, x.2).

(** Entries in strictly ascending position order, and entries that name one block per number. *)
Abbreviation keys_ascending := (StronglySorted (λ x y, pos_lt (entry_key x) (entry_key y))).
Definition consistent {E} (l : list (entry E)) : Prop :=
  ∀ x y, x ∈ l → y ∈ l → number (entry_block x) = number (entry_block y) → entry_block x = entry_block y.

(** The spans of sorted entries: one per run of entries of one block. *)
Fixpoint block_runs {E} (o : BlockRef) (open : list (N * E)) (l : list (entry E)) : list (SpanView E) :=
  match l with
  | [] => [MkSpanView (number o) (bhash o) (open.*1) (open.*2)]
  | x :: l =>
    if bool_decide (o = entry_block x) then block_runs o (open ++ [(entry_index x, x.2)]) l
    else MkSpanView (number o) (bhash o) (open.*1) (open.*2) ::
         block_runs (entry_block x) [(entry_index x, x.2)] l
  end.
Definition entry_spans {E} (l : list (entry E)) : list (SpanView E) :=
  match l with [] => [] | x :: l => block_runs (entry_block x) [(entry_index x, x.2)] l end.

(** ** Lemmas: sorting a window *)

Section group.
Context {E : Type}.
Implicit Types (l : list (entry E)) (x y : entry E) (b : Batch E).

Lemma entry_le_key x y : entry_le x y = negb (pos_ltb (entry_key y) (entry_key x)).
Proof.
  apply eq_true_iff_eq. rewrite negb_true_iff, pos_ltb_false. unfold entry_le, entry_key. cbn [block log_index].
  rewrite orb_true_iff, andb_true_iff, N.ltb_lt, N.eqb_eq, N.leb_le. split; intros; naive_solver lia.
Qed.

Lemma entry_le_total x y : entry_le x y = false → entry_le y x = true.
Proof.
  rewrite !entry_le_key. rewrite negb_false_iff, negb_true_iff, pos_ltb_spec, pos_ltb_false. lia.
Qed.

Lemma entry_le_trans x y z : entry_le x y = true → entry_le y z = true → entry_le x z = true.
Proof. rewrite !entry_le_key, !negb_true_iff, !pos_ltb_false. lia. Qed.

Lemma insert_entry_perm x l : insert_entry x l ≡ₚ x :: l.
Proof.
  induction l as [|y l IH]; simpl; [done|]. destruct (entry_le x y); [done|]. rewrite IH. apply Permutation_swap.
Qed.

Lemma sort_entries_perm l : sort_entries l ≡ₚ l.
Proof.
  unfold sort_entries. induction l as [|x l IH]; simpl; [done|]. by rewrite insert_entry_perm, IH.
Qed.

Lemma insert_entry_sorted x l :
  StronglySorted (λ x y, entry_le x y = true) l → StronglySorted (λ x y, entry_le x y = true) (insert_entry x l).
Proof.
  induction 1 as [|y l Hs IH Hy]; simpl; [by repeat constructor|].
  destruct (entry_le x y) eqn:Hxy.
  - constructor; [by constructor|]. constructor; [done|]. eapply Forall_impl; [exact Hy|].
    intros z Hz. by apply (entry_le_trans x y z).
  - constructor; [done|]. rewrite insert_entry_perm. constructor; [by apply entry_le_total|done].
Qed.

Lemma sort_entries_sorted l : StronglySorted (λ x y, entry_le x y = true) (sort_entries l).
Proof. unfold sort_entries. induction l; simpl; [constructor|by apply insert_entry_sorted]. Qed.

Lemma keys_ascending_inj l x y : keys_ascending l → x ∈ l → y ∈ l → entry_key x = entry_key y → x = y.
Proof.
  induction 1 as [|z l Hs IH Hz]; intros Hx Hy Hk; [by apply elem_of_nil in Hx|].
  rewrite Forall_forall in Hz. assert (∀ w, w ∈ l → entry_key z ≠ entry_key w) as Hne.
  { intros w Hw Heq. specialize (Hz w Hw). rewrite Heq in Hz. by apply (irreflexivity pos_lt) in Hz. }
  apply elem_of_cons in Hx as [->|Hx], Hy as [->|Hy]; [done| | |by apply IH]; by destruct (Hne _ ltac:(eassumption)).
Qed.

Lemma keys_ascending_le l : keys_ascending l → StronglySorted (λ x y, entry_le x y = true) l.
Proof.
  induction 1 as [|x l Hs IH Hx]; constructor; [done|]. eapply Forall_impl; [exact Hx|].
  intros y Hy. simpl. rewrite entry_le_key, negb_true_iff. apply not_true_iff_false. intros Hyx.
  apply (irreflexivity pos_lt (entry_key x)). by apply (transitivity (y := entry_key y)).
Qed.

(** Sorting gives the one ascending arrangement. *)
Lemma sort_entries_unique l l0 : l ≡ₚ l0 → keys_ascending l0 → sort_entries l = l0.
Proof.
  intros Hp Hs. apply (StronglySorted_unique_strong (λ x y, entry_le x y = true)).
  - intros x y Hx Hy Hxy Hyx. rewrite sort_entries_perm, Hp in Hx. apply (keys_ascending_inj l0); [done..|].
    rewrite entry_le_key, negb_true_iff in Hxy, Hyx.
    destruct (pos_lt_total (entry_key x) (entry_key y)) as [?|[?|?]]; unfold pos_lt in *; congruence.
  - apply sort_entries_sorted.
  - by apply keys_ascending_le.
  - by rewrite sort_entries_perm.
Qed.

(** ** Lemmas: grouping a window *)

Lemma group_entries_spans l open o b :
  batch_wf b →
  let b' := group_entries l open (Some o) b in
  batch_wf b' ∧ spans b' = spans b ++ block_runs o open l ∧ boundary b' = boundary b.
Proof.
  revert open o b. induction l as [|[[blk li] ev] l IH]; intros open o b Hb; simpl.
  { rewrite spans_push_block_eq by done. split_and!; [by apply push_block_wf|done|done]. }
  unfold entry_block, entry_index. simpl. case_bool_decide as Ho; [by apply IH|].
  destruct (IH [(li, ev)] blk (push_block b o open)) as (H1 & H2 & H3); [by apply push_block_wf|].
  rewrite spans_push_block_eq, <- app_assoc in H2 by done. done.
Qed.

Lemma group_into_spans b l :
  batch_wf b →
  batch_wf (group_into b l) ∧ spans (group_into b l) = spans b ++ entry_spans (sort_entries l) ∧
  boundary (group_into b l) = boundary b.
Proof.
  intros Hb. unfold group_into. destruct (sort_entries l) as [|[[blk li] ev] l']; simpl.
  - by rewrite app_nil_r.
  - by apply group_entries_spans.
Qed.

Lemma block_runs_events o open l :
  spans_events (block_runs o open l) = ((λ p, (MkPosition (number o) p.1, p.2)) <$> open) ++ (positioned <$> l).
Proof.
  assert (∀ (o : BlockRef) (open : list (N * E)),
    span_events (MkSpanView (number o) (bhash o) (open.*1) (open.*2)) =
    (λ p, (MkPosition (number o) p.1, p.2)) <$> open) as Hsp.
  { intros o' open'. unfold span_events. simpl. induction open' as [|[i ev] open' IH]; simpl; [done|]. by f_equal. }
  revert o open. induction l as [|x l IH]; intros o open; simpl.
  - by rewrite spans_events_cons, Hsp.
  - case_bool_decide as Ho.
    + rewrite IH, fmap_app, <- app_assoc. simpl. unfold positioned, entry_key. by rewrite Ho.
    + by rewrite spans_events_cons, Hsp, IH.
Qed.

Lemma entry_spans_events l : spans_events (entry_spans l) = positioned <$> l.
Proof. destruct l as [|x l]; [done|]. simpl. by rewrite block_runs_events. Qed.

Lemma block_runs_blocks o open l sp :
  sp ∈ block_runs o open l → sv_block sp = o ∨ ∃ x, x ∈ l ∧ sv_block sp = entry_block x.
Proof.
  revert o open. induction l as [|x l IH]; intros o open; simpl.
  - rewrite list_elem_of_singleton. intros ->. left. by destruct o.
  - case_bool_decide as Ho.
    + intros [|(y & Hy & ?)]%IH; [by left|]. right. exists y. split; [by right|done].
    + rewrite elem_of_cons. intros [->|[|(y & Hy & ?)]%IH]; [left; by destruct o| |]; right;
        [exists x|exists y]; split; try done; [left|by right].
Qed.

Lemma entry_spans_blocks l sp : sp ∈ entry_spans l → ∃ x, x ∈ l ∧ sv_block sp = entry_block x.
Proof.
  destruct l as [|x l]; simpl; [by intros ?%elem_of_nil|].
  intros [|(y & Hy & ?)]%block_runs_blocks; [exists x|exists y]; split; try done; [left|by right].
Qed.

Lemma block_runs_ok o (open : list (N * E)) l :
  open ≠ [] → ascending (open.*1) → keys_ascending l → consistent l →
  (∀ x, x ∈ l → (number o < number (entry_block x))%N ∨
    entry_block x = o ∧ ∀ p, p ∈ open → (p.1 < entry_index x)%N) →
  Forall span_ok (block_runs o open l) ∧ ascending (sv_number <$> block_runs o open l) ∧
  Forall (λ sp, (number o ≤ sv_number sp)%N) (block_runs o open l).
Proof.
  intros Hne Hasc Hs. revert o open Hne Hasc.
  induction Hs as [|x l Hs IH Hx]; intros o open Hne Hasc Hcons Hl; cbn [block_runs].
  { split_and!; repeat constructor; simpl; try done; [by destruct open|by rewrite !length_fmap]. }
  assert (consistent l) as Hcons' by (intros y z Hy Hz; apply Hcons; by right).
  assert (∀ y, y ∈ l → (number (entry_block x) < number (entry_block y))%N ∨
    entry_block y = entry_block x ∧ (entry_index x < entry_index y)%N) as Hafter.
  { intros y Hy. rewrite Forall_forall in Hx. specialize (Hx y Hy). apply pos_ltb_spec in Hx. simpl in Hx.
    destruct Hx as [?|[Hn ?]]; [by left|]. right. split; [|done]. apply Hcons; [by right|by left|done]. }
  case_bool_decide as Ho.
  - apply IH; [by destruct open| |done|].
    + rewrite fmap_app. apply StronglySorted_app_2; [|done|by repeat constructor].
      intros i j (p & -> & Hp)%list_elem_of_fmap ->%list_elem_of_singleton.
      destruct (Hl x ltac:(left)) as [Hlt|[_ Hlt]]; [|by apply Hlt]. rewrite Ho in Hlt. lia.
    + intros y Hy. destruct (Hafter y Hy) as [?|[Heq ?]]; [left; by rewrite Ho|]. right.
      split; [by rewrite Ho|]. intros p [Hp| ->%list_elem_of_singleton]%elem_of_app; [|done].
      destruct (Hl y ltac:(by right)) as [Hlt|[_ Hlt]]; [|by apply Hlt]. rewrite Ho, Heq in Hlt. lia.
  - destruct (Hl x ltac:(left)) as [Hlt|[? _]]; [|congruence].
    destruct (IH (entry_block x) [(entry_index x, x.2)]) as (H1 & H2 & H3); [done|by repeat constructor|done| |].
    { intros y Hy. destruct (Hafter y Hy) as [?|[? ?]]; [by left|]. right. split; [done|].
      by intros p ->%list_elem_of_singleton. }
    split_and!.
    + constructor; [|done]. split_and!; simpl; [by destruct open|done|by rewrite !length_fmap].
    + simpl. constructor; [done|]. rewrite Forall_fmap. eapply Forall_impl; [exact H3|].
      intros sp Hsp. simpl in *. lia.
    + constructor; simpl; [lia|]. eapply Forall_impl; [exact H3|]. intros sp Hsp. simpl in *. lia.
Qed.

Lemma entry_spans_ok l :
  keys_ascending l → consistent l →
  Forall span_ok (entry_spans l) ∧ ascending (sv_number <$> entry_spans l).
Proof.
  intros Hs Hc. destruct l as [|x l]; simpl; [by repeat constructor|].
  apply StronglySorted_inv in Hs as [Hs Hx]. rewrite Forall_forall in Hx.
  destruct (block_runs_ok (entry_block x) [(entry_index x, x.2)] l) as (H1 & H2 & _);
    [done|by repeat constructor|done| | |done].
  - intros y z Hy Hz. apply Hc; by right.
  - intros y Hy. specialize (Hx y Hy). apply pos_ltb_spec in Hx. simpl in Hx.
    destruct Hx as [?|[Hn ?]]; [by left|]. right. split; [apply Hc; [by right|by left|done]|].
    by intros p ->%list_elem_of_singleton.
Qed.

(** A window grouped into an empty batch. *)
Lemma group_into_batch b l l0 :
  batch_wf b → spans b = [] → l ≡ₚ l0 → keys_ascending l0 → consistent l0 →
  batch_wf (group_into b l) ∧ batch_ok (group_into b l) ∧ boundary (group_into b l) = boundary b ∧
  batch_events (group_into b l) = positioned <$> l0 ∧
  ∀ sp, sp ∈ spans (group_into b l) → ∃ x, x ∈ l0 ∧ sv_block sp = entry_block x.
Proof.
  intros Hb Hnil Hp Hs Hc. destruct (group_into_spans b l Hb) as (H1 & H2 & H3).
  rewrite Hnil, (sort_entries_unique l l0) in H2 by done. simpl in H2.
  destruct (entry_spans_ok l0 Hs Hc) as [H4 H5]. split_and!; [done| |done| |].
  - split; [by rewrite <- spans_numbers, H2|by rewrite H2].
  - unfold batch_events. by rewrite H2, entry_spans_events.
  - intros sp. rewrite H2. apply entry_spans_blocks.
Qed.

End group.

(** ** Chains and honest sources *)

(** A chain: the block it is served from, its head block, and each block's hash and logs. *)
Record Chain (E : Type) := MkChain {
  ch_first : N;
  ch_head : N;
  ch_hash : N → hash;
  ch_logs : N → list (N * E);
}.
Arguments ch_first {E} _.
Arguments ch_head {E} _.
Arguments ch_hash {E} _ _.
Arguments ch_logs {E} _ _.

Definition chain_ref {E} (ch : Chain E) (n : N) : BlockRef := MkBlockRef n (ch_hash ch n).
Definition chain_wf {E} (ch : Chain E) : Prop :=
  (ch_head ch < u64_max)%N ∧ ∀ n, ascending (ch_logs ch n).*1.

(** The entries of one block, and of a range of blocks. *)
Definition block_entries {E} (ch : Chain E) (n : N) : list (entry E) :=
  (λ le, (chain_ref ch n, le.1, le.2)) <$> ch_logs ch n.
Definition blocks_from {E} (ch : Chain E) (lo : N) (len : nat) : list (entry E) :=
  mjoin ((λ i, block_entries ch (lo + N.of_nat i)) <$> seq 0 len).
Definition between {E} (ch : Chain E) (lo hi : N) : list (entry E) :=
  blocks_from ch lo (N.to_nat (hi + 1 - lo)).

(** The entries above a cursor. *)
Definition above_cursor {E} (c : option Position) (l : list (entry E)) : list (entry E) :=
  filter (λ x, opos_ltb c (Some (entry_key x)) = true) l.

(** A source that answers from one chain, whatever it is asked from its first block on, and in whatever
    order. *)
Record honest {St E SE} `{!Source St E SE} (ch : Chain E) (I : St → Prop) : Prop := {
  honest_head s : I s → ∃ s', runs_to source_head s s' (chain_ref ch (ch_head ch)) ∧ I s';
  honest_header s n : I s → (ch_first ch ≤ n)%N →
    ∃ s', runs_to (header_at n) s s' (if (n <=? ch_head ch)%N then Some (chain_ref ch n) else None) ∧ I s';
  honest_events s out lo hi : I s → (ch_first ch ≤ lo ≤ hi)%N → (hi ≤ ch_head ch)%N →
    ∃ s' l, runs_to (events_in lo hi) (s, out) (s', out ++ l) () ∧ I s' ∧ l ≡ₚ between ch lo hi;
}.

(** ** Lemmas: ranges of a chain *)

Section chain.
Context {E : Type} (ch : Chain E) (Hch : chain_wf ch).
Implicit Types (l : list (entry E)) (x y : entry E) (c : option Position).

Lemma blocks_from_app lo n m :
  blocks_from ch lo (n + m) = blocks_from ch lo n ++ blocks_from ch (lo + N.of_nat n) m.
Proof.
  unfold blocks_from. rewrite seq_app, fmap_app, join_app. f_equal. f_equal. simpl.
  apply list_eq. intros i. rewrite !list_lookup_fmap.
  destruct (decide (i < m)) as [Hi|Hi].
  - rewrite !lookup_seq_lt by done. simpl. do 2 f_equal. lia.
  - by rewrite !lookup_seq_ge by lia.
Qed.

Lemma between_split lo mid hi :
  (lo ≤ mid + 1)%N → (mid ≤ hi)%N → between ch lo hi = between ch lo mid ++ between ch (mid + 1) hi.
Proof.
  intros H1 H2. unfold between. replace (N.to_nat (hi + 1 - lo))
    with (N.to_nat (mid + 1 - lo) + N.to_nat (hi + 1 - (mid + 1))) by lia.
  rewrite blocks_from_app. do 2 f_equal. lia.
Qed.

Lemma between_nil lo hi : (hi < lo)%N → between ch lo hi = [].
Proof. intros H. unfold between. by replace (N.to_nat (hi + 1 - lo)) with 0 by lia. Qed.

Lemma between_elem lo hi x :
  x ∈ between ch lo hi →
  (lo ≤ number (entry_block x) ≤ hi)%N ∧ entry_block x = chain_ref ch (number (entry_block x)).
Proof.
  unfold between, blocks_from. rewrite list_elem_of_join. intros (l & Hx & Hl).
  apply list_elem_of_fmap in Hl as (i & -> & [_ Hi]%elem_of_seq).
  apply list_elem_of_fmap in Hx as (le & -> & _). unfold entry_block. simpl. split; [lia|done].
Qed.

Lemma block_entries_ascending n : keys_ascending (block_entries ch n).
Proof.
  destruct Hch as [_ Hlogs]. specialize (Hlogs n). unfold block_entries.
  induction (ch_logs ch n) as [|le l IH]; [constructor|]. rewrite fmap_cons.
  change ((le :: l).*1) with (le.1 :: l.*1) in Hlogs.
  apply StronglySorted_inv in Hlogs as [Hs Hle]. constructor; [by apply IH|].
  apply (proj1 (Forall_fmap fst (N.lt le.1) l)) in Hle. apply Forall_fmap.
  eapply Forall_impl; [exact Hle|]. intros p Hp. simpl in *. apply pos_ltb_spec. right. done.
Qed.

Lemma keys_ascending_app l1 l2 :
  keys_ascending l1 → keys_ascending l2 →
  (∀ x y, x ∈ l1 → y ∈ l2 → (number (entry_block x) < number (entry_block y))%N) → keys_ascending (l1 ++ l2).
Proof.
  intros H1 H2 Hlt. apply StronglySorted_app_2; [|done|done].
  intros x y Hx Hy. apply pos_ltb_spec. left. by apply Hlt.
Qed.

Lemma blocks_from_ascending lo n : keys_ascending (blocks_from ch lo n).
Proof.
  revert lo. induction n as [|n IH]; intros lo; [constructor|].
  change (S n) with (1 + n). rewrite blocks_from_app. apply keys_ascending_app; [|apply IH|].
  - unfold blocks_from. simpl. rewrite app_nil_r. apply block_entries_ascending.
  - intros x y Hx Hy.
    assert (blocks_from ch lo 1 = between ch lo lo) as Heq by (unfold between; f_equal; lia).
    rewrite Heq in Hx. apply between_elem in Hx as [Hx _].
    assert (blocks_from ch (lo + N.of_nat 1) n = between ch (lo + 1) (lo + N.of_nat n)) as Hy'
      by (unfold between; f_equal; lia).
    rewrite Hy' in Hy. apply between_elem in Hy as [Hy _]. lia.
Qed.

Lemma between_ascending lo hi : keys_ascending (between ch lo hi).
Proof. apply blocks_from_ascending. Qed.

Lemma keys_ascending_above c l : keys_ascending l → keys_ascending (above_cursor c l).
Proof. apply StronglySorted_filter. Qed.

Lemma above_elem c l x : x ∈ above_cursor c l ↔ opos_lt c (Some (entry_key x)) ∧ x ∈ l.
Proof. unfold above_cursor. by rewrite list_elem_of_filter. Qed.

Lemma above_app c l1 l2 : above_cursor c (l1 ++ l2) = above_cursor c l1 ++ above_cursor c l2.
Proof. apply filter_app. Qed.

Lemma above_perm c l1 l2 : l1 ≡ₚ l2 → above_cursor c l1 ≡ₚ above_cursor c l2.
Proof. intros H. unfold above_cursor. by rewrite H. Qed.

Lemma above_fresh c l : positioned <$> above_cursor c l = fresh c (positioned <$> l).
Proof.
  unfold above_cursor, fresh. induction l as [|x l IH]; [done|]. rewrite fmap_cons, !filter_cons.
  cbn [fst]. case_decide as H1; case_decide as H2; try done. simpl. by f_equal.
Qed.

(** Entries of blocks above the cursor block are all above the cursor; of blocks below, none. *)
Lemma above_all c l :
  (∀ x p, x ∈ l → c = Some p → (block p < number (entry_block x))%N) → above_cursor c l = l.
Proof.
  intros H. apply filter_all, Forall_forall. intros x Hx. destruct c as [p|]; [|done].
  simpl. apply pos_ltb_spec. left. by apply (H x p).
Qed.

Lemma above_none c l :
  (∀ x, x ∈ l → opos_le (Some (entry_key x)) c) → above_cursor c l = [].
Proof.
  intros H. apply filter_none, Forall_forall. intros x Hx. specialize (H x Hx). unfold opos_le in H. simpl.
  by rewrite H.
Qed.

Lemma on_chain_consistent l : (∀ x, x ∈ l → entry_block x = chain_ref ch (number (entry_block x))) → consistent l.
Proof. intros H x y Hx Hy Heq. rewrite (H x Hx), (H y Hy). by rewrite Heq. Qed.

End chain.

(** ** Lemmas: one scan of an honest source *)

Section sync.
Context {F E X St SE K : Type} `{!Fold F E X} `{!Source St E SE} `{!SnapshotSink K F}.
Context (ch : Chain E) (Hch : chain_wf ch) (I : St → Prop) (HI : honest ch I).
Implicit Types (d : Driver F E St K) (c : option Position) (b : Batch E).

(** A call that leaves the engine, the sink, the settings and the marks alone. *)
Definition frame d d' : Prop :=
  engine d' = engine d ∧ sink d' = sink d ∧ config d' = config d ∧ initial d' = initial d ∧ marks d' = marks d.

#[local] Instance frame_preorder : PreOrder frame.
Proof.
  split; [done|]. intros d1 d2 d3 (?&?&?&?&?) (?&?&?&?&?). unfold frame. split_and!; congruence.
Qed.

(** The boundary is unset or the cursor block's header. *)
Definition bd_ok c b : Prop :=
  boundary b = None ∨ ∃ p, c = Some p ∧ boundary b = Some (chain_ref ch (block p)).

Lemma batch_is_empty_spans b : batch_wf b → batch_is_empty b = bool_decide (spans b = []).
Proof.
  intros Hb. unfold batch_is_empty. apply bool_decide_ext. pose proof (spans_numbers b Hb) as Hn.
  apply (f_equal length) in Hn. rewrite length_fmap in Hn. destruct Hb as [Hl _]. rewrite Hl in Hn.
  destruct (ends b), (spans b); simpl in *; done || lia.
Qed.

Lemma source_call {A} (m : SM St SE A) d s' a :
  runs_to m (source d) s' a → runs_to (on_source m) d (put_source s' d) a.
Proof. intros H. unfold on_source. by apply (sm_zoom_ok _ _ _ _ (source d)). Qed.

Lemma scratch_call {A} (m : SM (St * list (entry E)) SE A) d s' l a :
  runs_to m (source d, scratch d) (s', l) a → runs_to (on_scratch m) d (put_scratch l (put_source s' d)) a.
Proof. unfold runs_to, on_scratch, sm_zoom. by intros ->. Qed.

Lemma at_cursor_spec p d lo hi :
  batch_wf (batch d) → scratch d ≡ₚ between ch lo hi →
  ∃ d', runs_to (E := SE) (at_cursor p) d d' true ∧ frame d d' ∧ source d' = source d ∧
    scratch d' = above_cursor (Some p) (scratch d) ∧ batch_wf (batch d') ∧
    spans (batch d') = spans (batch d) ∧ bd_ok (Some p) (batch d').
Proof.
  intros Hb Hp. set (hdrs := filter (λ h, number h = block p) (entry_block <$> scratch d)).
  assert (∀ h, h ∈ hdrs → h = chain_ref ch (block p)) as Hall.
  { intros h [Hn (x & -> & Hx)%list_elem_of_fmap]%list_elem_of_filter. rewrite Hp in Hx.
    apply between_elem in Hx as [_ Hx]. by rewrite Hx, Hn. }
  eexists. split; [|split_and!].
  - unfold runs_to, at_cursor. rewrite sm_get_bind. fold hdrs.
    destruct (existsb _ (drop 1 hdrs)) eqn:Hex; [exfalso|reflexivity].
    apply existsb_exists in Hex as (h & Hin & Hne). apply list_elem_of_In in Hin.
    destruct hdrs as [|h0 hdrs']; simpl in *; [by apply elem_of_nil in Hin|].
    rewrite (Hall h0), (Hall h) in Hne by (by left || by right). by rewrite bool_decide_true in Hne.
  - done.
  - done.
  - done.
  - simpl. by apply set_boundary_wf.
  - simpl. apply spans_set_boundary.
  - unfold bd_ok. simpl. destruct hdrs as [|h0 hdrs']; simpl; [by left|]. right. exists p.
    split; [done|]. by rewrite (Hall h0) by left.
Qed.

(** What the window loop finds: nothing up to [end_], or the first windows with an event above
    the cursor. *)
Definition walk_post c (from end_ : N) d : Prop :=
  spans (batch d) = [] ∧ above_cursor c (between ch from end_) = [] ∨
  ∃ to, (from ≤ to ≤ end_)%N ∧ above_cursor c (between ch from to) ≠ [] ∧ batch_ok (batch d) ∧
    batch_events (batch d) = positioned <$> above_cursor c (between ch from to) ∧
    spans (batch d) ≠ [] ∧
    ∀ sp, sp ∈ spans (batch d) → ∃ x, x ∈ between ch from to ∧ sv_block sp = entry_block x.

(** One window: the events above the cursor are left in the scratch buffer. *)
Lemma window_spec c from to d :
  I (source d) → batch_wf (batch d) → (ch_first ch ≤ from ≤ to)%N → (to ≤ ch_head ch)%N →
  bd_ok c (batch d) → (∀ p, c = Some p → (block p ≤ from)%N) →
  ∃ d', runs_to (read_window c from to) d d' true ∧
    frame d d' ∧ I (source d') ∧ scratch d' ≡ₚ above_cursor c (between ch from to) ∧ batch_wf (batch d') ∧
    spans (batch d') = spans (batch d) ∧ bd_ok c (batch d').
Proof.
  intros Hs Hb Hft Hth Hbd Hc. destruct (honest_events ch I HI (source d) [] from to Hs Hft Hth) as (s' & l & Hr & Hs' & Hp).
  set (d1 := put_scratch l (put_source s' (put_scratch [] d))).
  assert (runs_to (on_scratch (events_in from to)) (put_scratch [] d) d1 ()) as Hr1.
  { by apply scratch_call. }
  assert (read_window c from to d = (match c with
     | Some p => if (from =? block p)%N then at_cursor p else mret true
     | None => mret true
     end) d1) as Hrw.
  { unfold read_window. rewrite sm_modify_bind, (sm_bind_ok _ _ _ _ _ Hr1), sm_get_bind.
    change (scratch d1) with l. destruct (existsb _ l) eqn:Hex; [exfalso|done].
    apply existsb_exists in Hex as (x & Hx & Hout). apply list_elem_of_In in Hx. rewrite Hp in Hx.
    apply between_elem in Hx as [[H1 H2] _]. by rewrite !(proj2 (N.leb_le _ _)) in Hout. }
  assert (∀ p, c = Some p → from ≠ block p → above_cursor c (between ch from to) = between ch from to) as Hall.
  { intros p Hp' Hne. apply above_all. intros x q Hx Hq. apply between_elem in Hx as [Hx _].
    specialize (Hc q Hq). rewrite Hp' in Hq. injection Hq as <-. lia. }
  unfold runs_to. rewrite Hrw. clear Hrw. destruct c as [p|].
  - destruct (from =? block p)%N eqn:Hf; nbool.
    + destruct (at_cursor_spec p d1 from to Hb Hp) as (d' & Hr' & Hfr & Hs1 & Hsc & Hw & Hsp & Hbd').
      exists d'. split_and!; try done; [by rewrite Hs1|]. rewrite Hsc. by apply above_perm.
    + exists d1. rewrite (Hall p) by done. done.
  - exists d1. split_and!; try done. simpl. by rewrite above_all.
Qed.

Lemma walk_spec fuel c width end_ from d :
  I (source d) → batch_wf (batch d) → spans (batch d) = [] → bd_ok c (batch d) →
  (ch_first ch ≤ from)%N → (end_ ≤ ch_head ch)%N → (∀ p, c = Some p → (block p ≤ from)%N) →
  (1 ≤ width)%N → (end_ < from + N.of_nat fuel * width)%N →
  ∃ d', runs_to (walk fuel c width end_ from) d d' true ∧ frame d d' ∧ I (source d') ∧
    batch_wf (batch d') ∧ bd_ok c (batch d') ∧ walk_post c from end_ d'.
Proof.
  intros Hs Hb Hnil Hbd Hfirst Hend Hc Hw. pose proof (proj1 Hch) as Hhead.
  revert from d Hs Hb Hnil Hbd Hfirst Hc.
  induction fuel as [|fuel IH]; intros from d Hs Hb Hnil Hbd Hfirst Hc Hfuel.
  { exists d. split_and!; try done. left. split; [done|]. by rewrite between_nil by lia. }
  cbn [walk]. destruct (from <=? end_)%N eqn:Hfe; nbool.
  2: { exists d. split_and!; try done. left. split; [done|]. by rewrite between_nil by lia. }
  set (to := N.min end_ (u64_saturating_add from (width - 1))).
  assert (from ≤ to ≤ end_)%N as Hto by (unfold to, u64_saturating_add; lia).
  destruct (window_spec c from to d Hs Hb ltac:(lia) ltac:(lia) Hbd Hc) as (d1 & Hr1 & Hf1 & Hs1 & Hp1 & Hb1 & Hsp1 & Hbd1).
  unfold runs_to. cbn zeta. rewrite (sm_bind_ok _ _ _ _ _ Hr1). cbn [negb]. rewrite sm_get_bind.
  case_bool_decide as Hempty.
  - rewrite Hempty in Hp1. apply Permutation_nil_l in Hp1.
    unfold u64_checked_add. rewrite (proj2 (N.leb_le _ _)) by lia.
    assert (∀ t, (to ≤ t)%N → above_cursor c (between ch from t) = above_cursor c (between ch (to + 1) t)) as Hskip.
    { intros t Ht. rewrite (between_split ch from to t), above_app by lia. by rewrite <- Hp1. }
    destruct (IH (to + 1)%N d1) as (d' & Hr' & Hf' & Hs' & Hb' & Hbd' & Hpost); try done; [congruence|lia| | |].
    { intros p Hp'. specialize (Hc p Hp'). lia. }
    { unfold to, u64_saturating_add in *. destruct (N.le_gt_cases end_ (from + (width - 1))); lia. }
    exists d'. split_and!; try done; [by transitivity d1|].
    destruct Hpost as [[H1 H2]|(t & Ht & H1 & H2 & H3 & H4 & H5)].
    + left. split; [done|]. by rewrite Hskip by lia.
    + right. exists t. rewrite Hskip by lia. split_and!; try done; [lia..|].
      intros sp Hin. destruct (H5 sp Hin) as (x & Hx & Heq). exists x. split; [|done].
      rewrite (between_split ch from to t) by lia. apply elem_of_app. by right.
  - eexists. split; [reflexivity|]. destruct (group_into_batch (batch d1) (scratch d1)
      (above_cursor c (between ch from to))) as (G1 & G2 & G3 & G4 & G5); [done|congruence|done| | |].
    { by apply keys_ascending_above, between_ascending. }
    { apply (on_chain_consistent ch). intros x [_ Hx]%above_elem. by apply between_elem in Hx as [_ Hx]. }
    split_and!; try done; [by rewrite <- Hf1..| |].
    { unfold bd_ok in *. simpl. by rewrite G3. }
    assert (above_cursor c (between ch from to) ≠ []) as Hne.
    { intros H0. rewrite H0 in Hp1. apply Permutation_nil_r in Hp1. done. }
    right. exists to. split_and!; try done; [lia|lia| |].
    + intros H0. unfold batch_events in G4. simpl in H0. rewrite H0 in G4. simpl in G4.
      by destruct (above_cursor c (between ch from to)).
    + intros sp Hin. destruct (G5 sp Hin) as (x & [_ Hx]%above_elem & Heq). by exists x.
Qed.

(** A block the chain still has. *)
Definition canonical (o : BlockRef) : bool :=
  (number o <=? ch_head ch)%N && bool_decide (ch_hash ch (number o) = bhash o).

Lemma canonical_ref o : canonical o = true → o = chain_ref ch (number o) ∧ (number o ≤ ch_head ch)%N.
Proof.
  unfold canonical. intros Hc. nbool. split; [|done]. unfold chain_ref. destruct o; simpl in *. congruence.
Qed.

Lemma canonical_chain_ref n : (n ≤ ch_head ch)%N → canonical (chain_ref ch n) = true.
Proof. intros Hn. unfold canonical. simpl. by rewrite (proj2 (N.leb_le _ _)), bool_decide_true. Qed.

(** Whether the last answer vouched for the head, and whether the walk goes on behind [w]: a mark left by
    a chain that is gone is recognised and dropped. *)
Definition vouches (m : Marks) : bool := bool_decide (vouched m = Some (chain_ref ch (ch_head ch))).
Definition resumes (m : Marks) (w : BlockRef) : bool := vouches m || canonical w.

(** What is left to fold, and the block the next walk starts at. *)
Definition pending d : list (entry E) :=
  above_cursor (cursor (engine d)) (between ch (start_block (config d)) (ch_head ch)).
Definition next_block d : N :=
  let floor := match cursor (engine d) with Some p => block p | None => start_block (config d) end in
  match walked (marks d), cursor (engine d) with
  | Some w, _ => if resumes (marks d) w then number w + 1 else floor
  | None, Some p => if vouches (marks d) then block p + 1 else block p
  | None, None => start_block (config d)
  end.

(** An engine whose history is on the chain. *)
Definition on_chain (e : Engine F) : Prop :=
  Forall (λ r, r = chain_ref ch (number r) ∧ (number r ≤ ch_head ch)%N) (ring_list (ring e)).

(** A driver that follows the chain: its engine is on it, and its marks tell the truth or are stale. *)
Record synced d : Prop := {
  sy_wf : engine_wf (engine d);
  sy_active : status (engine d) = Active;
  sy_chain : on_chain (engine d);
  sy_source : I (source d);
  sy_first : (ch_first ch ≤ start_block (config d))%N;
  sy_ring : Forall (λ r, (start_block (config d) ≤ number r)%N) (ring_list (ring (engine d)));
  sy_span : (1 ≤ span (marks d) ≤ MAX_SPAN)%N;
  sy_floor : ∀ w, walked (marks d) = Some w → (start_block (config d) ≤ number w ≤ ch_head ch)%N;
  sy_walked : ∀ w, walked (marks d) = Some w → resumes (marks d) w = true → canonical w = true ∧
    (∀ p, cursor (engine d) = Some p → (block p ≤ number w)%N) ∧
    ∀ x, x ∈ pending d → (number w < number (entry_block x))%N;
  sy_vouched : vouches (marks d) = true →
    ∀ p x, cursor (engine d) = Some p → x ∈ pending d → (block p < number (entry_block x))%N;
}.

Lemma sy_start d : synced d → ∀ p, cursor (engine d) = Some p → (start_block (config d) ≤ block p)%N.
Proof.
  intros Hs p Hp. destruct (cursor_block_observed _ p (sy_wf d Hs) Hp) as [h Hl].
  pose proof (sy_ring d Hs) as Hr. rewrite Forall_forall in Hr. by apply (Hr _ (last_Some_elem_of _ _ Hl)).
Qed.

Lemma cursor_on_chain e p :
  engine_wf e → on_chain e → cursor e = Some p →
  last (ring_list (ring e)) = Some (chain_ref ch (block p)) ∧ (block p ≤ ch_head ch)%N.
Proof.
  intros Hwf Hon Hp. destruct (cursor_block_observed e p Hwf Hp) as [h Hl].
  unfold on_chain in Hon. rewrite Forall_forall in Hon.
  destruct (Hon _ (last_Some_elem_of _ _ Hl)) as [Heq Hle]. simpl in *. rewrite Heq in Hl. done.
Qed.

Definition span_on_chain (start : N) (sp : SpanView E) : Prop :=
  sv_block sp = chain_ref ch (sv_number sp) ∧ (start ≤ sv_number sp ≤ ch_head ch)%N.

Lemma on_chain_unforked start e b :
  on_chain e → Forall (span_on_chain start) (spans b) → Forall (λ sp, ¬ forked_span e sp) (spans b).
Proof.
  intros Hon Hb. eapply Forall_impl; [exact Hb|]. intros sp [Hsp _] (p & h & _ & _ & Hin & Hne).
  unfold on_chain in Hon. rewrite Forall_forall in Hon. destruct (Hon _ Hin) as [Heq _]. unfold sv_block, chain_ref in *. simpl in *. congruence.
Qed.

Lemma pending_next d x : synced d → x ∈ pending d → (next_block d ≤ number (entry_block x))%N.
Proof.
  intros Hs Hx. unfold next_block.
  assert (match cursor (engine d) with Some p => block p | None => start_block (config d) end ≤ number (entry_block x))%N
    as Hfloor.
  { pose proof Hx as Hx'. apply above_elem in Hx' as [Hab Hin]. apply between_elem in Hin as [Hin _].
    destruct (cursor (engine d)) as [p|]; [|lia]. by apply opos_lt_le, opos_le_block in Hab. }
  destruct (walked (marks d)) as [w|] eqn:Hw.
  { destruct (resumes (marks d) w) eqn:Hr; [|done]. destruct (sy_walked d Hs w Hw Hr) as (_ & _ & Hall).
    specialize (Hall x Hx). lia. }
  destruct (cursor (engine d)) as [p|] eqn:Hp; [|lia]. destruct (vouches (marks d)) eqn:Hv; [|done].
  pose proof (sy_vouched d Hs Hv p x Hp Hx). lia.
Qed.

Lemma next_block_bounds d :
  synced d → (start_block (config d) ≤ next_block d)%N ∧
  ∀ p, cursor (engine d) = Some p → (block p ≤ next_block d ≤ ch_head ch + 1)%N.
Proof.
  intros Hs. unfold next_block.
  assert (∀ p, cursor (engine d) = Some p → (start_block (config d) ≤ block p ≤ ch_head ch)%N) as Hcur.
  { intros p Hp. split; [by apply sy_start|]. by apply (cursor_on_chain _ p (sy_wf d Hs) (sy_chain d Hs)). }
  destruct (walked (marks d)) as [w|] eqn:Hw; [pose proof (sy_floor d Hs w Hw); destruct (resumes (marks d) w) eqn:Hr|].
  - destruct (sy_walked d Hs w Hw Hr) as (_ & Hc & _). split; [lia|]. intros p Hp. specialize (Hc p Hp). lia.
  - destruct (cursor (engine d)) as [p|]; [|by split; [lia|]]. specialize (Hcur p eq_refl). split; [lia|].
    intros q [= <-]. lia.
  - destruct (cursor (engine d)) as [p|]; [|by split; [lia|]]. specialize (Hcur p eq_refl).
    split; [case_match; lia|]. intros q [= <-]. case_match; lia.
Qed.

(** Nothing to fold lies below the next block. *)
Lemma pending_from d :
  synced d → pending d = above_cursor (cursor (engine d)) (between ch (next_block d) (ch_head ch)).
Proof.
  intros Hs. destruct (next_block_bounds d Hs) as [Hlo _].
  destruct (decide (next_block d ≤ ch_head ch)%N) as [Hle|Hgt].
  - unfold pending in *. destruct (decide (next_block d = 0)%N) as [H0|Hpos].
    { by replace (start_block (config d)) with (next_block d) by lia. }
    pose proof (between_split ch (start_block (config d)) (next_block d - 1) (ch_head ch) ltac:(lia) ltac:(lia)) as Hsp.
    replace (next_block d - 1 + 1)%N with (next_block d) in Hsp by lia. rewrite Hsp, above_app.
    rewrite (elem_of_nil_inv (above_cursor _ (between ch _ (next_block d - 1)))); [done|].
    intros x Hx. assert (x ∈ pending d) as Hp.
    { unfold pending. rewrite Hsp, above_app. apply elem_of_app. by left. }
    pose proof (pending_next d x Hs Hp). apply above_elem in Hx as [_ Hx]. apply between_elem in Hx as [Hx _]. lia.
  - rewrite between_nil by lia. apply elem_of_nil_inv. intros x Hx.
    pose proof (pending_next d x Hs Hx). apply above_elem in Hx as [_ Hx]. apply between_elem in Hx as [Hx _]. lia.
Qed.

(** ** Lemmas: the steps of a scan *)

(** Where a scan may start from: marks and cursor within the range of the chain. *)
Record scannable d : Prop := {
  sc_source : I (source d);
  sc_first : (ch_first ch ≤ start_block (config d))%N;
  sc_cursor : ∀ p, cursor (engine d) = Some p → (start_block (config d) ≤ block p ≤ ch_head ch)%N;
  sc_floor : ∀ w, walked (marks d) = Some w → (start_block (config d) ≤ number w ≤ ch_head ch)%N;
  sc_span : (1 ≤ span (marks d) ≤ MAX_SPAN)%N;
}.

Lemma synced_scannable d : synced d → scannable d.
Proof.
  intros Hs. split; try apply Hs. intros p Hp. split; [by apply sy_start|].
  by apply (cursor_on_chain _ p (sy_wf d Hs) (sy_chain d Hs)).
Qed.

Lemma lagging_spec d : scannable d → runs_to (lagging (chain_ref ch (ch_head ch))) d d false.
Proof.
  intros Hs. unfold runs_to, lagging. rewrite sm_get_bind. cbn zeta.
  assert (∀ n, match walked (marks d) with Some w => Some (number w) | None => block <$> cursor (engine d) end = Some n →
    (n ≤ ch_head ch)%N) as Hn.
  { intros n. destruct (walked (marks d)) as [w|] eqn:Hw.
    - intros [= <-]. by apply (sc_floor d Hs).
    - destruct (cursor (engine d)) as [p|] eqn:Hp; [|done]. intros [= <-]. by apply (sc_cursor d Hs). }
  destruct (match walked (marks d) with Some w => _ | None => _ end) as [n|]; [|done].
  specialize (Hn n eq_refl). simpl. by rewrite (proj2 (N.ltb_ge _ _)).
Qed.

(** A stale walk is forgotten. *)
Definition tidy (m : Marks) : Marks :=
  match walked m with Some w => if resumes m w then m else set_walked None m | None => m end.
Definition tidied d : Driver F E St K := mark tidy d.

Lemma tidy_marks m :
  span (tidy m) = span m ∧ vouches (tidy m) = vouches m ∧ vouched (tidy m) = vouched m ∧
  (∀ w, walked (tidy m) = Some w → walked m = Some w ∧ resumes m w = true).
Proof.
  unfold tidy. destruct (walked m) as [w|] eqn:Hw; [|split_and!; try done; by rewrite Hw].
  destruct (resumes m w) eqn:Hr; [split_and!; try done; rewrite Hw; by intros ? [= <-]|].
  unfold vouches. by destruct m.
Qed.

Lemma tidy_walked m : walked (tidy m) = walked m ∨ walked (tidy m) = None.
Proof.
  unfold tidy. destruct (walked m) eqn:Hw; [|by left]. destruct (resumes _ _); [by left|right]. by destruct m.
Qed.

Lemma tidied_synced d : synced d → synced (tidied d) ∧ next_block (tidied d) = next_block d.
Proof.
  intros Hs. destruct (tidy_marks (marks d)) as (Hsp & Hv & _ & Hw).
  assert (∀ w, resumes (tidy (marks d)) w = resumes (marks d) w) as Hr by (intros w; unfold resumes; by rewrite Hv).
  split.
  - split; cbn [tidied marks mark]; rewrite ?Hsp, ?Hv; try apply Hs.
    + intros w [Hw' _]%Hw. by apply (sy_floor d Hs).
    + intros w [Hw' Hr']%Hw _. by apply (sy_walked d Hs).
  - unfold next_block. cbn [tidied marks mark engine config]. rewrite Hv. unfold tidy.
    destruct (walked (marks d)) as [w|] eqn:Hwk; [|by rewrite Hwk].
    destruct (resumes (marks d) w) eqn:Hrw; [by rewrite Hwk, Hrw|]. simpl.
    unfold resumes in Hrw. apply orb_false_iff in Hrw as [-> _].
    destruct (marks d); simpl. by destruct (cursor (engine d)).
Qed.

(** Whether the scan resumes above the cursor block. *)
Definition resumed d : bool :=
  match walked (marks d) with
  | Some w => resumes (marks d) w
  | None => bool_decide (is_Some (cursor (engine d))) && vouches (marks d)
  end.

Lemma scan_from_spec d :
  scannable d → ∃ s',
    runs_to (scan_from (chain_ref ch (ch_head ch))) d (put_source s' (tidied d)) (next_block d, resumed d) ∧ I s'.
Proof.
  intros Hs. pose proof (proj1 Hch) as Hhead. set (h := chain_ref ch (ch_head ch)).
  assert (put_source (source d) d = d) as Hid by by destruct d.
  assert (tidy (marks d) = marks d → ∀ s, put_source s (tidied d) = put_source s d) as Htidy.
  { intros Heq s. unfold tidied, mark, put_source. simpl. by rewrite Heq. }
  unfold runs_to, scan_from, next_block, resumed. rewrite sm_get_bind. cbn zeta. fold h.
  change (bool_decide (vouched (marks d) = Some h)) with (vouches (marks d)). unfold tidy in Htidy.
  destruct (walked (marks d)) as [w|] eqn:Hw.
  - pose proof (sc_floor d Hs w Hw) as [Hge Hle]. unfold u64_saturating_add. rewrite N.min_l by lia.
    destruct (vouches (marks d) || bool_decide (h = w)) eqn:Hknown.
    + assert (resumes (marks d) w = true) as Hr.
      { unfold resumes. apply orb_true_iff in Hknown as [->|<-%bool_decide_eq_true]; [done|].
        unfold h. rewrite canonical_chain_ref by done. apply orb_true_r. }
      rewrite Hr in *. exists (source d). rewrite Htidy, Hid by done. split; [done|apply Hs].
    + destruct (honest_header ch I HI (source d) (number w) (sc_source d Hs) ltac:(pose proof (sc_first d Hs); lia)) as (s' & Hr & Hs').
      apply source_call in Hr. unfold mbind, sm_bind in *. rewrite Hr. unfold mret, sm_ret.
      rewrite (proj2 (N.leb_le _ _)) by done. apply orb_false_iff in Hknown as [Hv _].
      assert (resumes (marks d) w = bool_decide (Some (chain_ref ch (number w)) = Some w)) as Hres.
      { unfold resumes. rewrite Hv. unfold canonical. rewrite (proj2 (N.leb_le _ _)) by done. cbn [orb andb].
        apply bool_decide_ext. unfold chain_ref. destruct w; simpl. naive_solver. }
      rewrite <- Hres. destruct (resumes (marks d) w) eqn:Hrw.
      * exists s'. by rewrite Htidy.
      * exists s'. split; [|done]. unfold sm_modify, tidied, mark, put_source. simpl. unfold tidy.
        by rewrite Hw, Hrw.
  - destruct (cursor (engine d)) as [p|] eqn:Hp; [|exists (source d); rewrite Htidy, Hid by done; split; [done|apply Hs]].
    destruct (sc_cursor d Hs p Hp) as [_ Hle].
    exists (source d). rewrite Htidy, Hid by done. split; [|apply Hs].
    destruct (vouches (marks d)); [|done]. unfold u64_saturating_add. by rewrite N.min_l by lia.
Qed.

(** The boundary is the header the source has for the cursor block: refetched, or taken from the history
    when the scan resumes behind a block that was vouched for. *)
Lemma fill_boundary_spec d resumed :
  I (source d) → batch_wf (batch d) → bd_ok (cursor (engine d)) (batch d) →
  (∀ p, cursor (engine d) = Some p → (ch_first ch ≤ block p ≤ ch_head ch)%N ∧
    (resumed = true → last (ring_list (ring (engine d))) = Some (chain_ref ch (block p)))) →
  ∃ d', runs_to (fill_boundary (chain_ref ch (ch_head ch)) resumed) d d' () ∧ frame d d' ∧ I (source d') ∧
    batch_wf (batch d') ∧ spans (batch d') = spans (batch d) ∧
    ∀ p, cursor (engine d) = Some p → boundary (batch d') = Some (chain_ref ch (block p)).
Proof.
  intros Hs Hb Hbd Hcur. unfold runs_to, fill_boundary. rewrite sm_get_bind.
  destruct (cursor (engine d)) as [p|] eqn:Hp; [|by exists d].
  destruct (Hcur p eq_refl) as [[Hfirst Hle] Hlast].
  destruct Hbd as [Hnone|(q & [= <-] & Hsome)].
  2: { exists d. rewrite Hsome. split_and!; try done. by intros q [= <-]. }
  rewrite Hnone.
  assert (∃ s', runs_to (if resumed then mret (last (observed (engine d)))
    else if (number (chain_ref ch (ch_head ch)) =? block p)%N then mret (Some (chain_ref ch (ch_head ch)))
    else on_source (header_at (block p))) d (put_source s' d) (Some (chain_ref ch (block p))) ∧ I s')
    as (s' & Hr & Hs').
  { assert (put_source (source d) d = d) as Hid by by destruct d.
    destruct resumed.
    - exists (source d). rewrite Hid. split; [|done]. unfold observed. by rewrite ring_iter_list, Hlast.
    - simpl. destruct (ch_head ch =? block p)%N eqn:Hh; nbool.
      + exists (source d). rewrite Hid, Hh. done.
      + destruct (honest_header ch I HI (source d) (block p) Hs Hfirst) as (s' & Hr & Hs'). exists s'.
        split; [|done]. apply source_call in Hr. by rewrite (proj2 (N.leb_le _ _)) in Hr. }
  rewrite (sm_bind_ok _ _ _ _ _ Hr). eexists. split; [reflexivity|]. split_and!; try done.
  - simpl. apply spans_set_boundary.
  - by intros q [= <-].
Qed.

(** What a scan from block [from] finds: nothing left, nothing up to its cap, or the first windows with
    something to fold. *)
Definition found (from : N) d d' (r : Scan) : Prop :=
  let h := chain_ref ch (ch_head ch) in
  let owed := λ hi, above_cursor (cursor (engine d)) (between ch from hi) in
  (r = Ready h ∧ batch_is_empty (batch d') = true ∧ owed (ch_head ch) = []) ∨
  (∃ e, r = Capped (chain_ref ch e) h ∧ batch_is_empty (batch d') = true ∧
    (from ≤ e < ch_head ch)%N ∧ owed e = []) ∨
  (∃ to, r = Ready h ∧ batch_is_empty (batch d') = false ∧ (from ≤ to ≤ ch_head ch)%N ∧
    owed to ≠ [] ∧ batch_events (batch d') = positioned <$> owed to).
Definition scan_post d d' (r : Scan) : Prop := found (next_block d) d d' r.

Lemma empty_batch_ok b : batch_wf b → spans b = [] → batch_ok b.
Proof.
  intros Hb Hnil. split; [|by rewrite Hnil]. pose proof (spans_numbers b Hb) as Hn. rewrite Hnil in Hn.
  simpl in Hn. rewrite <- Hn. constructor.
Qed.

(** The scan past [scan_from]. *)
Definition scan_tail (h : BlockRef) (width : N) (fr : N * bool) : SM (Driver F E St K) SE Scan :=
  let '(from, resumed) := fr in
  d ← sm_get;
  let end_ := N.min (number h)
    (u64_saturating_add from (u64_saturating_mul (span (marks d)) width - 1)) in
  ok ← walk (N.to_nat (span (marks d))) (cursor (engine d)) width end_ from;
  if negb ok then mret Refused else
  fill_boundary h resumed;;
  d ← sm_get;
  if (end_ <? number h)%N && batch_is_empty (batch d) then
    anchor ← on_source (header_at end_);
    r ← on_source (header_at (number h));
    mret (match anchor with
          | Some a => if bool_decide (r = Some h) && (number a =? end_)%N then Capped a h else Refused
          | None => Refused
          end)
  else if batch_is_empty (batch d) then mret (Ready h) else
    r ← on_source (header_at (number h));
    mret (if bool_decide (r = Some h) then Ready h else Refused).

(** A scan that does not lag runs to its tail. *)
Lemma scan_runs d h s1 s2 d3 fr :
  runs_to source_head (source d) s1 h →
  let d1 := put_source s1 (put_batch (batch_clear (batch d)) d) in
  runs_to (lagging h) d1 (put_source s2 d1) false → runs_to (scan_from h) (put_source s2 d1) d3 fr →
  scan d = scan_tail h (N.max (window s2) 1) fr d3.
Proof.
  intros Hr1 d1 Hr2 Hr3. apply (source_call _ (put_batch (batch_clear (batch d)) d)) in Hr1.
  unfold scan. rewrite sm_modify_bind, (sm_bind_ok _ _ _ _ _ Hr1), (sm_bind_ok _ _ _ _ _ Hr2).
  rewrite sm_get_bind, (sm_bind_ok _ _ _ _ _ Hr3). by destruct fr.
Qed.

(** The tail over an honest source, from a block in range. *)
Lemma scan_tail_spec d2 width from resumed :
  I (source d2) → batch_wf (batch d2) → spans (batch d2) = [] → boundary (batch d2) = None →
  (1 ≤ span (marks d2) ≤ MAX_SPAN)%N → (1 ≤ width)%N → (ch_first ch ≤ start_block (config d2) ≤ from)%N →
  (∀ p, cursor (engine d2) = Some p → (start_block (config d2) ≤ block p ≤ ch_head ch)%N ∧ (block p ≤ from)%N) →
  (resumed = true → ∀ p, cursor (engine d2) = Some p →
    last (ring_list (ring (engine d2))) = Some (chain_ref ch (block p))) →
  ∃ d' r, runs_to (scan_tail (chain_ref ch (ch_head ch)) width (from, resumed)) d2 d' r ∧ frame d2 d' ∧ I (source d') ∧
    batch_wf (batch d') ∧ batch_ok (batch d') ∧
    (∀ p, cursor (engine d2) = Some p → boundary (batch d') = Some (chain_ref ch (block p))) ∧
    Forall (span_on_chain (start_block (config d2))) (spans (batch d')) ∧ found from d2 d' r.
Proof.
  intros Hs Hb Hnil0 Hbd Hspan Hwidth [Hfirst Hfrom] Hcur Hres. pose proof (proj1 Hch) as Hhead.
  set (h := chain_ref ch (ch_head ch)).
  set (end_ := N.min (ch_head ch) (u64_saturating_add from (u64_saturating_mul (span (marks d2)) width - 1))).
  assert (1 ≤ u64_saturating_mul (span (marks d2)) width ≤ span (marks d2) * width)%N as Hmul.
  { unfold u64_saturating_mul, u64_max. nia. }
  destruct (walk_spec (N.to_nat (span (marks d2))) (cursor (engine d2)) width end_ from d2)
    as (d3 & Hr4 & Hf3 & Hs3 & Hb3 & Hbd3 & Hpost); try done.
  { by left. }
  { lia. }
  { unfold end_. lia. }
  { intros p Hp. by apply Hcur. }
  { unfold end_, u64_saturating_add. lia. }
  assert (frame d2 d3) as (He3 & Hk3 & Hc3 & Hi3 & Hm3) by done.
  destruct (fill_boundary_spec d3 resumed) as (d4 & Hr5 & Hf4 & Hs4 & Hb4 & Hsp4 & Hbok);
    [done|done|by rewrite He3| |].
  { rewrite He3. intros p Hp. destruct (Hcur p Hp) as [[? ?] ?]. split; [lia|]. intros Hr. by apply Hres. }
  rewrite He3 in Hbok.
  assert (frame d2 d4) as Hfr by (transitivity d3; [exact Hf3|exact Hf4]).
  assert (batch_is_empty (batch d4) = bool_decide (spans (batch d3) = [])) as Hemp.
  { by rewrite batch_is_empty_spans, Hsp4. }
  assert (scan_tail h width (from, resumed) d2 = (if (end_ <? number h)%N && batch_is_empty (batch d4) then
    anchor ← on_source (header_at end_);
    r ← on_source (header_at (number h));
    mret (match anchor with
          | Some a => if bool_decide (r = Some h) && (number a =? end_)%N then Capped a h else Refused
          | None => Refused
          end)
  else if batch_is_empty (batch d4) then mret (Ready h) else
    r ← on_source (header_at (number h));
    mret (if bool_decide (r = Some h) then Ready h else Refused)) d4) as Hscan.
  { unfold scan_tail. rewrite sm_get_bind. cbn zeta. cbn [number chain_ref h]. fold end_.
    rewrite (sm_bind_ok _ _ _ _ _ Hr4). cbn [negb]. rewrite (sm_bind_ok _ _ _ _ _ Hr5), sm_get_bind. done. }
  unfold runs_to. fold h. rewrite Hscan. clear Hscan Hr4 Hr5.
  assert (end_ ≤ ch_head ch)%N as Hend by (unfold end_; lia).
  destruct Hpost as [[Hnil Hnone]|(to & Hto & Hne & Hok & Hev & Hsne & Hblk)].
  - rewrite Hnil in Hemp. rewrite bool_decide_true in Hemp by done. rewrite Hemp, andb_true_r. cbn [number chain_ref h].
    assert (batch_ok (batch d4)) as Hok4 by (apply empty_batch_ok; [done|by rewrite Hsp4]).
    destruct (end_ <? ch_head ch)%N eqn:Hlt; nbool.
    + destruct (honest_header ch I HI (source d4) end_ Hs4 ltac:(unfold end_, u64_saturating_add in *; lia)) as (s5 & Hr5 & Hs5). apply source_call in Hr5.
      set (d5 := put_source s5 d4) in *.
      destruct (honest_header ch I HI (source d5) (ch_head ch) Hs5 ltac:(unfold end_, u64_saturating_add in *; lia)) as (s6 & Hr6 & Hs6). apply source_call in Hr6.
      set (d6 := put_source s6 d5) in *. exists d6, (Capped (chain_ref ch end_) h).
      rewrite (sm_bind_ok _ _ _ _ _ Hr5), (sm_bind_ok _ _ _ _ _ Hr6).
      rewrite !(proj2 (N.leb_le _ _)) by lia. rewrite bool_decide_true by done. cbn [number chain_ref andb].
      rewrite N.eqb_refl. split_and!; try done.
      { simpl. rewrite Hsp4, Hnil. constructor. }
      right. left. exists end_. split_and!; try done. unfold end_, u64_saturating_add in *. lia.
    + exists d4, (Ready h). split_and!; try done; [rewrite Hsp4, Hnil; constructor|]. left. split_and!; try done.
      by replace (ch_head ch) with end_ by lia.
  - rewrite bool_decide_false in Hemp by done. rewrite Hemp, andb_false_r. cbn [number chain_ref h].
    destruct (honest_header ch I HI (source d4) (ch_head ch) Hs4 ltac:(lia)) as (s5 & Hr5 & Hs5). apply source_call in Hr5.
    exists (put_source s5 d4), (Ready h). rewrite (sm_bind_ok _ _ _ _ _ Hr5).
    rewrite (proj2 (N.leb_le _ _)), bool_decide_true by done.
    assert (batch_ok (batch d4)) as Hok4.
    { destruct Hok as [H1 H2]. split; [by rewrite <- spans_numbers, Hsp4, spans_numbers|by rewrite Hsp4]. }
    split_and!; try done.
    + simpl. rewrite Hsp4. apply Forall_forall. intros sp Hsp.
      destruct (Hblk sp Hsp) as (x & Hx & Heq). apply between_elem in Hx as [Hn Hx].
      assert (sv_number sp = number (entry_block x)) as Hnum by by rewrite <- Heq.
      split; [by rewrite Heq, Hx, Hnum|lia].
    + right. right. exists to. split_and!; try done; [lia..|]. unfold batch_events in *. simpl. by rewrite Hsp4.
Qed.

(** A scan over an honest source, from marks and a cursor in range: also when the history is not on the
    chain any more, as long as nothing vouches for it. *)
Lemma scan_range d :
  scannable d → (∀ p, cursor (engine d) = Some p → (block p ≤ next_block d ≤ ch_head ch + 1)%N) →
  (start_block (config d) ≤ next_block d)%N →
  (resumed d = true → ∀ p, cursor (engine d) = Some p →
    last (ring_list (ring (engine d))) = Some (chain_ref ch (block p))) →
  ∃ d' r, runs_to scan d d' r ∧ frame (tidied d) d' ∧ I (source d') ∧ batch_wf (batch d') ∧ batch_ok (batch d') ∧
    (∀ p, cursor (engine d) = Some p → boundary (batch d') = Some (chain_ref ch (block p))) ∧
    Forall (span_on_chain (start_block (config d))) (spans (batch d')) ∧ scan_post d d' r.
Proof.
  intros Hs Hcur Hfrom Hres. destruct (honest_head ch I HI (source d) (sc_source d Hs)) as (s1 & Hr1 & Hs1).
  set (d1 := put_source s1 (put_batch (batch_clear (batch d)) d)). assert (scannable d1) as Hsy1 by by destruct Hs.
  pose proof (lagging_spec d1 Hsy1) as Hr2.
  destruct (scan_from_spec d1 Hsy1) as (s2 & Hr3 & Hs2). change (resumed d1) with (resumed d) in Hr3.
  set (d2 := put_source s2 (tidied d1)) in *. change (next_block d1) with (next_block d) in Hr3.
  destruct (scan_tail_spec d2 (N.max (window s1) 1) (next_block d) (resumed d)) as (d' & r & Hr & Hf & Hpost); try done.
  - change (span (marks d2)) with (span (tidy (marks d))). rewrite (proj1 (tidy_marks (marks d))). apply Hs.
  - lia.
  - pose proof (sc_first d Hs). change (config d2) with (config d). lia.
  - change (engine d2) with (engine d). change (config d2) with (config d). intros p Hp.
    split; [by apply Hs|by apply Hcur].
  - exists d', r. split; [|split; [exact Hf|exact Hpost]]. unfold runs_to.
    by rewrite (scan_runs d _ s1 s1 d2 _ Hr1 Hr2 Hr3).
Qed.

Lemma scan_spec d :
  synced d →
  ∃ d' r, runs_to scan d d' r ∧ frame (tidied d) d' ∧ I (source d') ∧ batch_wf (batch d') ∧ batch_ok (batch d') ∧
    boundary_ok (engine d) (batch d') ∧ Forall (span_on_chain (start_block (config d))) (spans (batch d')) ∧
    scan_post d d' r.
Proof.
  intros Hs. destruct (next_block_bounds d Hs) as [Hfrom Hcur].
  assert (∀ p, cursor (engine d) = Some p → last (ring_list (ring (engine d))) = Some (chain_ref ch (block p))) as Hlast.
  { intros p Hp. by apply (cursor_on_chain _ p (sy_wf d Hs) (sy_chain d Hs)). }
  destruct (scan_range d (synced_scannable d Hs)) as (d' & r & H1 & H2 & H3 & H4 & H5 & Hbd & H6 & H7); try done.
  exists d', r. split_and!; try done. unfold boundary_ok. destruct (cursor (engine d)) as [p|]; [|done].
  exists (ch_hash ch (block p)). split; [by apply Hbd|]. by apply last_Some_elem_of, Hlast.
Qed.

(** ** Lemmas: one tick over an honest source *)

(** The counters of a run are additive. *)
Lemma run_shift (f : F) c a s (l : list (Position * E)) f' c' a' s' (st : Stop X) n m :
  run f c a s l = (f', c', a', s', st) → run f c (n + a) (m + s) l = (f', c', n + a', m + s', st)%N.
Proof.
  revert f c a s. induction l as [|[p ev] l IH]; intros f c a s; cbn [run].
  { by intros [= <- <- <- <- <-]. }
  destruct (fold_apply f p ev) as [f1 [[[]|[]]|]]; intros Hr.
  - rewrite <- N.add_assoc. by apply IH.
  - rewrite <- N.add_assoc. by apply IH.
  - by injection Hr as <- <- <- <- <-.
  - by injection Hr as <- <- <- <- <-.
  - by injection Hr as <- <- <- <- <-.
Qed.

(** The checkpoints held are old ones, or the present fold. *)
Definition slots_from (e e' : Engine F) : Prop :=
  ∀ sl, sl ∈ held (checkpoints e') → sl ∈ held (checkpoints e) ∨ sl = MkSlot (fold e') (cursor e').

Lemma checkpoint_slots_from e : engine_wf e → slots_from e (checkpoint e).
Proof.
  intros Hwf sl. unfold checkpoint. destruct (negb _); [by left|]. simpl.
  destruct (decide (slots (checkpoints e) = [])) as [Hnil|Hne]; [unfold store; rewrite Hnil; by left|].
  rewrite store_held by (done || apply Hwf). apply push_list_elem.
Qed.

(** What a checkpoint or an offer leaves of the engine. *)
Definition same_engine (e e' : Engine F) : Prop :=
  fold e' = fold e ∧ cursor e' = cursor e ∧ ring e' = ring e ∧ status e' = status e ∧
  skips e' = skips e ∧ resets e' = resets e ∧ (engine_wf e → engine_wf e' ∧ slots_from e e').

(** Everything of a driver but its checkpoints, its sink and its cadence marks. *)
Definition same_course d d' : Prop :=
  same_engine (engine d) (engine d') ∧ source d' = source d ∧ config d' = config d ∧ initial d' = initial d ∧
  walked (marks d') = walked (marks d) ∧ vouched (marks d') = vouched (marks d) ∧
  span (marks d') = span (marks d) ∧ caught_up (marks d') = caught_up (marks d) ∧
  left_at (marks d') = left_at (marks d) ∧ batch d' = batch d.

Lemma same_course_refl d : same_course d d.
Proof. unfold same_course, same_engine, slots_from. tauto. Qed.

Lemma auto_checkpoint_course d : same_course d (auto_checkpoint d).
Proof.
  unfold auto_checkpoint. destruct (checkpoint_interval (config d)) as [i|]; [|apply same_course_refl].
  destruct (cursor (engine d)) as [p|] eqn:Hp; [|apply same_course_refl].
  destruct (due _ _ _); [|apply same_course_refl]. unfold run_checkpoint.
  assert (same_engine (engine d) (checkpoint (engine d))) as Hse.
  { unfold same_engine. split_and!; try (unfold checkpoint; by case_match).
    auto using checkpoint_wf, checkpoint_slots_from. }
  assert (cursor (checkpoint (engine d)) = Some p) as Hp' by by rewrite <- Hp; apply Hse.
  cbn [engine put_engine]. rewrite Hp'. unfold same_course. split; [exact Hse|]. simpl. by destruct (marks d).
Qed.

(** A sink that can fail, and what a tick that is not a recovery reports. *)
Definition sink_fails : Prop := ∃ (e : Engine F) (k : K) x, (offer e k).2 = Err x.
Definition reports (idle : bool) (t : Tick) : Prop :=
  t = TickDurabilityLost ∧ sink_fails ∨ if idle then t = Idle else ∃ sm, t = Progressed sm.

Lemma reports_no_error idle t : reports idle t → t ≠ SourceError.
Proof. intros [[-> _]|Ht]; [done|]. destruct idle; [by subst t|by destruct Ht as [sm ->]]. Qed.

Lemma offer_snapshot_course d :
  same_course d (offer_snapshot d).1 ∧
  ((offer_snapshot d).2 = None ∨ (offer_snapshot d).2 = Some TickDurabilityLost ∧ sink_fails).
Proof.
  unfold offer_snapshot. destruct (durability_lost (marks d)); [split; [apply same_course_refl|by left]|].
  destruct (snapshot_interval (config d)) as [i|]; [|split; [apply same_course_refl|by left]].
  destruct (durable_point (engine d)) as [p|]; [|split; [apply same_course_refl|by left]].
  destruct (negb _); [split; [apply same_course_refl|by left]|].
  destruct (offer (engine d) (sink d)) as [k [[]|lost]] eqn:Hoffer; simpl;
    (split; [|first [by left|right; split; [done|]; exists (engine d), (sink d), lost; by rewrite Hoffer]]);
    unfold same_course, same_engine, slots_from; simpl; split_and!; (tauto || by destruct (marks d)).
Qed.

Lemma same_course_trans d1 d2 d3 : same_course d1 d2 → same_course d2 d3 → same_course d1 d3.
Proof.
  unfold same_course, same_engine.
  intros ((?&?&?&?&?&?&Hw1)&?&?&?&?&?&?&?&?&?) ((?&?&?&?&?&?&Hw2)&?&?&?&?&?&?&?&?&?).
  split_and!; try congruence. intros Hwf. destruct (Hw1 Hwf) as [Hwf1 Hs1]. destruct (Hw2 Hwf1) as [Hwf2 Hs2].
  split; [done|]. intros sl [Hin| ->]%Hs2; [|by right]. destruct (Hs1 sl Hin) as [?| ->]; [by left|right]. congruence.
Qed.

(** A batch that the engine takes whole. *)
Lemma apply_scanned_spec d h capped f' c' a s :
  engine_wf (engine d) → status (engine d) = Active → batch_wf (batch d) → batch_ok (batch d) →
  boundary_ok (engine d) (batch d) → Forall (λ sp, ¬ forked_span (engine d) sp) (spans (batch d)) →
  run (fold (engine d)) (cursor (engine d)) 0 0 (fresh (cursor (engine d)) (batch_events (batch d))) =
    (f', c', a, s, Done) →
  let empty := batch_is_empty (batch d) in
  let idle := empty && bool_decide (capped = None) in
  ∃ d' t, runs_to (apply_scanned h capped) d d' t ∧
    engine_wf (engine d') ∧ fold (engine d') = f' ∧ cursor (engine d') = c' ∧ status (engine d') = Active ∧
    skips (engine d') = (skips (engine d) + s)%N ∧ slots_from (engine d) (engine d') ∧ initial d' = initial d ∧
    ring_list (ring (engine d')) = foldl (push_list (capacity (ring (engine d)))) (ring_list (ring (engine d)))
      (new_blocks (cursor (engine d)) (spans (batch d))) ∧
    source d' = source d ∧ config d' = config d ∧ batch d' = batch d ∧
    walked (marks d') = (if empty then match capped with Some a => Some a | None => walked (marks d) end else None) ∧
    vouched (marks d') = (if idle then vouched (marks d) else Some h) ∧
    caught_up (marks d') = idle ∧ span (marks d') = span (marks d) ∧
    reports idle t.
Proof.
  intros Hwf Hst Hb Hok Hbd Hnf Hrun empty idle.
  destruct (apply_batch_run _ _ _ _ _ _ _ Hwf Hst Hb Hok Hbd Hnf Hrun)
    as (e' & Happ & Hwf' & Hf & Hst' & Hcp & _ & Hsk & Hcur & Hring). simpl in Happ.
  set (sm := MkApplySummary a _ s) in Happ.
  set (d1 := put_engine e' (mark (set_walked None) (mark (set_consecutive_errors 0) d))).
  set (d2 := mark (λ m,
      let m := if empty then set_walked (match capped with Some a => Some a | None => walked (marks d) end) m else m in
      let m := if idle then m else set_vouched (Some h) m in
      set_caught_up idle m) d1).
  set (d3 := auto_checkpoint d2). pose proof (auto_checkpoint_course d2) as H3. fold d3 in H3.
  destruct (offer_snapshot_course d3) as [H4 Hlost]. set (d4 := (offer_snapshot d3).1) in *.
  assert (same_course d2 d4) as Hc by by apply (same_course_trans _ d3).
  destruct Hc as ((Hc1&Hc2&Hc3&Hc4&Hc5&_&Hc6)&Hc7&Hc8&Hc9&Hc10&Hc11&Hc12&Hc13&_&Hc14).
  exists d4, (match (offer_snapshot d3).2 with Some t => t | None => if idle then Idle else Progressed sm end).
  split.
  { unfold runs_to, apply_scanned. rewrite sm_modify_bind, sm_get_bind. cbn zeta. rewrite sm_modify_bind.
    assert (runs_to (sm_result (E' := Empty_set) (sm_zoom (λ d, Some (engine d)) put_engine
      (λ e, apply_batch e (batch (mark (set_consecutive_errors 0) d)))))
      (mark (set_walked None) (mark (set_consecutive_errors 0) d)) d1 (Ok sm)) as Hr.
    { unfold runs_to, sm_result, sm_zoom. simpl. by rewrite Happ. }
    rewrite (sm_bind_ok _ _ _ _ _ Hr), !sm_modify_bind.
    assert (walked (marks (mark (set_consecutive_errors 0) d)) = walked (marks d)) as -> by (simpl; by destruct (marks d)).
    change (batch (mark (set_consecutive_errors 0) d)) with (batch d). fold empty idle d2 d3.
    unfold mbind, sm_bind, sm_step. fold d4. destruct (offer_snapshot d3) as [d5 lost]. done. }
  specialize (Hcur ltac:(done)). specialize (Hring eq_refl). change (engine d2) with e' in *.
  change (initial d2) with (initial d) in *. destruct (Hc6 Hwf') as [Hwf4 Hslots].
  change (source d2) with (source d) in *. change (config d2) with (config d) in *.
  change (batch d2) with (batch d) in *.
  split_and!; try congruence.
  - by rewrite Hc4, Hst'.
  - intros sl [Hin| ->]%Hslots; [left; by rewrite <- Hcp|by right].
  - rewrite Hc10. simpl. destruct empty, idle, (marks d); done.
  - rewrite Hc11. simpl. destruct empty, idle, (marks d); done.
  - rewrite Hc13. simpl. destruct empty, idle, (marks d); done.
  - rewrite Hc12. simpl. destruct empty, idle, (marks d); done.
  - destruct Hlost as [-> | [-> ?]]; [right|by left]. destruct idle; eauto.
Qed.

(** What was owed up to a block, and what is left behind it. *)
Lemma pending_split d to :
  synced d → (next_block d ≤ to ≤ ch_head ch)%N →
  pending d = above_cursor (cursor (engine d)) (between ch (next_block d) to) ++ between ch (to + 1) (ch_head ch).
Proof.
  intros Hs Hto. rewrite pending_from by done. destruct (next_block_bounds d Hs) as [_ Hcur].
  rewrite (between_split ch _ to), above_app by lia. f_equal. apply above_all.
  intros x p Hx Hp. apply between_elem in Hx as [Hx _]. specialize (Hcur p Hp). lia.
Qed.

Lemma settled_pending d to f a s f' c' a' s' :
  synced d → (next_block d ≤ to ≤ ch_head ch)%N →
  let l := above_cursor (cursor (engine d)) (between ch (next_block d) to) in
  l ≠ [] → run f (cursor (engine d)) a s (positioned <$> l) = (f', c', a', s', @Done X) →
  above_cursor c' (between ch (start_block (config d)) (ch_head ch)) = between ch (to + 1) (ch_head ch) ∧
  ∃ p, c' = Some p ∧ (next_block d ≤ block p ≤ to)%N.
Proof.
  intros Hs Hto l Hne Hrun. destruct (next_block_bounds d Hs) as [Hstart _].
  assert (∃ p, c' = Some p ∧ (next_block d ≤ block p ≤ to)%N) as (p & Hp & Hblk).
  { apply run_done_last in Hrun. rewrite fmap_last in Hrun.
    destruct (last l) as [x|] eqn:Hl; [|by apply last_None in Hl]. simpl in Hrun. exists (entry_key x).
    split; [done|]. apply last_Some_elem_of, above_elem in Hl as [_ Hl]. apply between_elem in Hl as [Hl _]. done. }
  split; [|by exists p].
  assert (opos_le (cursor (engine d)) c' ∧ Forall (λ pe, opos_le (Some pe.1) c') (positioned <$> l)) as [Hmono Hall].
  { eapply (run_done_above (X := X)); [| |exact Hrun].
    - assert (keys_ascending l) as Hk by by apply keys_ascending_above, between_ascending.
      clear -Hk. induction Hk as [|x l Hk IH Hx]; simpl; [constructor|]. constructor; [done|]. by apply Forall_fmap.
    - apply Forall_fmap, Forall_forall. intros x [Hx _]%above_elem. done. }
  rewrite (between_split ch _ to), above_app by lia.
  rewrite (above_none c' (between ch (start_block (config d)) to)), above_all; [done| |].
  - intros x q Hx Hq. apply between_elem in Hx as [Hx _]. rewrite Hp in Hq. injection Hq as <-. lia.
  - intros x Hx. destruct (opos_ltb (cursor (engine d)) (Some (entry_key x))) eqn:Hab.
    + assert (x ∈ pending d) as Hpen.
      { apply above_elem. split; [done|]. rewrite (between_split ch _ to) by lia. apply elem_of_app. by left. }
      rewrite (pending_split d to) in Hpen by done. apply elem_of_app in Hpen as [Hxl|Hxr].
      * rewrite Forall_fmap, Forall_forall in Hall. by apply (Hall x).
      * apply between_elem in Hx as [Hx _], Hxr as [Hxr _]. lia.
    + etransitivity; [|exact Hmono]. done.
Qed.

(** The work left: events to fold, and blocks to read. *)
Definition todo_at (next : N) d : nat := length (pending d) + N.to_nat (ch_head ch + 1 - next).

(** A tick with an empty batch: the engine stays, the marks may move. *)
Lemma quiet_tick d h capped :
  engine_wf (engine d) → status (engine d) = Active → batch_wf (batch d) → boundary_ok (engine d) (batch d) →
  batch_is_empty (batch d) = true →
  ∃ d' t, runs_to (apply_scanned h capped) d d' t ∧ reports (bool_decide (capped = None)) t ∧
    engine_wf (engine d') ∧ fold (engine d') = fold (engine d) ∧ cursor (engine d') = cursor (engine d) ∧
    status (engine d') = Active ∧ skips (engine d') = skips (engine d) ∧
    slots_from (engine d) (engine d') ∧ initial d' = initial d ∧
    ring_list (ring (engine d')) = ring_list (ring (engine d)) ∧
    source d' = source d ∧ config d' = config d ∧ span (marks d') = span (marks d) ∧
    walked (marks d') = match capped with Some a => Some a | None => walked (marks d) end ∧
    vouched (marks d') = match capped with Some _ => Some h | None => vouched (marks d) end ∧
    caught_up (marks d') = bool_decide (capped = None).
Proof.
  intros Hwf Hst Hb Hbd Hemp. rewrite batch_is_empty_spans in Hemp by done. apply bool_decide_eq_true in Hemp.
  assert (fresh (cursor (engine d)) (batch_events (batch d)) = []) as Hev.
  { unfold batch_events. by rewrite Hemp. }
  destruct (apply_scanned_spec d h capped (fold (engine d)) (cursor (engine d)) 0 0)
    as (d' & t & Hr & H1 & H2 & H3 & H4 & H5 & H5a & H5b & H6 & H7 & H8 & H9 & H10 & H11 & H12 & H13 & H14); try done.
  { by apply empty_batch_ok. }
  { by rewrite Hemp. }
  { by rewrite Hev. }
  rewrite batch_is_empty_spans, Hemp in * by done. rewrite bool_decide_true in * by done. cbn [andb] in *.
  exists d', t. split_and!; try done.
  - rewrite H5. lia.
  - by destruct capped.
Qed.

(** Marks that stay truthful when nothing was folded. *)
Lemma quiet_synced d d' :
  synced d → engine_wf (engine d') → cursor (engine d') = cursor (engine d) → status (engine d') = Active →
  ring_list (ring (engine d')) = ring_list (ring (engine d)) → I (source d') → config d' = config d →
  span (marks d') = span (marks d) →
  (∀ w, walked (marks d) = Some w → canonical w = true) →
  (walked (marks d') = walked (marks d) ∨ ∃ e, walked (marks d') = Some (chain_ref ch e) ∧
    (next_block d ≤ e ≤ ch_head ch)%N ∧ above_cursor (cursor (engine d)) (between ch (next_block d) e) = []) →
  (vouched (marks d') = vouched (marks d) ∨ vouched (marks d') = Some (chain_ref ch (ch_head ch)) ∧
    ∀ p x, cursor (engine d) = Some p → x ∈ pending d → (block p < number (entry_block x))%N) →
  synced d'.
Proof.
  intros Hs Hwf Hc Hst Hring HIs Hcfg Hsp Hstale Hw Hv.
  assert (pending d' = pending d) as Hp by (unfold pending; by rewrite Hc, Hcfg).
  destruct (next_block_bounds d Hs) as [Hst' Hcur].
  split; try done; rewrite ?Hring, ?Hcfg, ?Hsp, ?Hc, ?Hp; try apply Hs.
  - unfold on_chain. rewrite Hring. apply Hs.
  - intros w Hw'. destruct Hw as [Hw|(e & Hw & He & _)]; rewrite Hw in Hw'; [by apply (sy_floor d Hs)|].
    injection Hw' as <-. simpl. lia.
  - intros w Hw' Hr. destruct Hw as [Hw|(e & Hw & He & Hnone)]; rewrite Hw in Hw'.
    { apply (sy_walked d Hs w Hw'). unfold resumes. rewrite (Hstale w Hw'). apply orb_true_r. }
    injection Hw' as <-. simpl. split_and!; [apply canonical_chain_ref; lia| |].
    + intros p Hp'. specialize (Hcur p Hp'). lia.
    + intros x Hx. rewrite (pending_split d e), Hnone in Hx by (done || lia).
      apply between_elem in Hx as [Hx _]. lia.
  - intros Hv'. destruct Hv as [Hv|[Hv Hall]]; [|exact Hall].
    apply (sy_vouched d Hs). by unfold vouches in *; rewrite <- Hv.
Qed.

(** Marks after a batch was folded. *)
Lemma folded_synced d d' to f f' c' a s a' s' :
  synced d → (next_block d ≤ to ≤ ch_head ch)%N →
  let l := above_cursor (cursor (engine d)) (between ch (next_block d) to) in
  l ≠ [] → run f (cursor (engine d)) a s (positioned <$> l) = (f', c', a', s', @Done X) →
  engine_wf (engine d') → cursor (engine d') = c' → status (engine d') = Active → on_chain (engine d') →
  Forall (λ r, (start_block (config d') ≤ number r)%N) (ring_list (ring (engine d'))) →
  I (source d') → config d' = config d → span (marks d') = span (marks d) →
  walked (marks d') = None → vouched (marks d') = Some (chain_ref ch (ch_head ch)) →
  synced d' ∧ pending d' = between ch (to + 1) (ch_head ch) ∧ (next_block d < next_block d')%N.
Proof.
  intros Hs Hto l Hne Hrun Hwf Hc Hst Hon Hlow HIs Hcfg Hsp Hw Hv.
  destruct (settled_pending d to f a s f' c' a' s' Hs Hto Hne Hrun) as (Hpen & p & Hp & Hblk).
  destruct (next_block_bounds d Hs) as [Hstart _].
  assert (pending d' = between ch (to + 1) (ch_head ch)) as Hpd by (unfold pending; by rewrite Hc, Hcfg).
  assert (vouches (marks d') = true) as Hvd by (unfold vouches; by rewrite Hv, bool_decide_true).
  assert (next_block d' = block p + 1)%N as Hnb by (unfold next_block; by rewrite Hw, Hc, Hp, Hvd).
  split_and!; [|done|lia]. split; try done; rewrite ?Hcfg, ?Hsp, ?Hw; try apply Hs; try done.
  intros _. rewrite Hc, Hp, Hpd. intros q x [= <-] Hx. apply between_elem in Hx as [Hx _]. lia.
Qed.

(** The marks after a tick: old ones where nothing was folded, or set by this chain. *)
Definition marks_from d d' : Prop :=
  cursor (engine d') = cursor (engine d) ∧ ring_list (ring (engine d')) = ring_list (ring (engine d)) ∧
    (walked (marks d') = walked (marks d) ∨ walked (marks d') = None) ∧
    (vouched (marks d') = vouched (marks d) ∨ vouched (marks d') = None) ∨
  vouched (marks d') = Some (chain_ref ch (ch_head ch)) ∧
    (walked (marks d') = None ∨ ∃ e, walked (marks d') = Some (chain_ref ch e)).

(** What a tick makes of the work left: some of it is folded. *)
Definition advances d d' : Prop :=
  marks_from d d' ∧ initial d' = initial d ∧ slots_from (engine d) (engine d') ∧ config d' = config d ∧
  ∃ l a s, pending d = l ++ pending d' ∧
    run (fold (engine d)) (cursor (engine d)) 0 0 (positioned <$> l) =
      (fold (engine d'), cursor (engine d'), a, s, Done).

Lemma advances_quiet d d' :
  marks_from d d' → initial d' = initial d → slots_from (engine d) (engine d') → config d' = config d →
  fold (engine d') = fold (engine d) → cursor (engine d') = cursor (engine d) → advances d d'.
Proof.
  intros Hm Hi Hsl Hc Hf Hcur. split; [exact Hm|]. split_and!; try done. exists [], 0%N, 0%N. unfold pending. rewrite Hc, Hf, Hcur. done.
Qed.

Lemma poll_apply_spec d f' c' a s :
  synced d →
  run (fold (engine d)) (cursor (engine d)) 0 0 (positioned <$> pending d) = (f', c', a, s, Done) →
  ∃ d' t, runs_to poll_apply d d' t ∧ synced d' ∧ reports (caught_up (marks d')) t ∧ advances d d' ∧
    (∃ a' s', run (fold (engine d')) (cursor (engine d')) 0 0 (positioned <$> pending d') = (f', c', a', s', Done) ∧
      (skips (engine d') + s' = skips (engine d) + s)%N) ∧
    (if caught_up (marks d') then pending d' = []
     else todo_at (next_block d') d' < todo_at (next_block d) d).
Proof.
  intros Hs0 Hrun0. set (d0 := mark (λ m, set_generation (u64_wrapping_add (generation m) 1) m) d).
  assert (synced d0 ∧ next_block d0 = next_block d) as [Hs1 Hnext].
  { unfold d0, next_block. destruct Hs0, d as [? ? ? ? ? ? ? []]. by split. }
  destruct (scan_spec d0 Hs1) as (d2 & r & Hr & (He2 & Hk2 & Hc2 & Hi2 & Hm2) & HI2 & Hb2 & Hok2 & Hbd2 & Hon2 & Hpost).
  assert (poll_apply d = match r with
    | Ready h => apply_scanned h None d2
    | Capped anchor h => apply_scanned h (Some anchor) d2
    | Lagging => (sm_modify (mark (λ m, set_caught_up true (set_consecutive_errors 0 m)));; mret Idle) d2
    | Refused => (sm_modify (λ d, mark count_error (put_batch (batch_clear (batch d)) d));; mret SourceError) d2
    end) as Hpoll.
  { unfold poll_apply. rewrite sm_modify_bind, sm_get_bind. fold d0.
    rewrite (sy_active d0 Hs1). cbn [is_active negb]. rewrite (sm_bind_ok _ _ _ _ _ (sm_result_ok _ _ _ _ Hr)).
    by destruct r. }
  destruct (tidied_synced d0 Hs1) as [Hs Hnext1]. rewrite Hnext in Hnext1. unfold scan_post, found in Hpost.
  rewrite Hnext in Hpost.
  assert (∀ w, walked (marks (tidied d0)) = Some w → canonical w = true) as Hfresh.
  { intros w Hw. destruct (tidy_marks (marks d0)) as (_ & _ & _ & Hwr). destruct (Hwr w Hw) as [Hw' Hres].
    by apply (sy_walked d0 Hs1). }
  set (d1 := tidied d0) in *. change (engine d1) with (engine d) in *. change (engine d0) with (engine d) in *.
  change (pending d) with (pending d1) in *. change (config d0) with (config d1) in *.
  assert (initial d1 = initial d ∧ config d1 = config d) as [Hi1 Hc1] by done.
  rewrite <- Hnext1 in Hpost |- *. clear Hs1 Hnext Hnext1 Hr.
  rewrite <- He2 in Hbd2.
  assert (Forall (λ sp, ¬ forked_span (engine d2) sp) (spans (batch d2))) as Hnf.
  { eapply on_chain_unforked; [rewrite He2; apply Hs|exact Hon2]. }
  assert (engine_wf (engine d2)) as Hwf2 by (rewrite He2; apply Hs).
  assert (status (engine d2) = Active) as Hst2 by (rewrite He2; apply Hs).
  destruct Hpost as [(-> & Hemp & Hnone)|[(e & -> & Hemp & He & Hnone)|(to & -> & Hemp & Hto & Hne & Hev)]].
  - change (engine d) with (engine d1) in Hnone. rewrite <- pending_from in Hnone by done.
    destruct (quiet_tick d2 (chain_ref ch (ch_head ch)) None Hwf2 Hst2 Hb2 Hbd2 Hemp)
      as (d' & t & Hrt & Ht & Q1 & Q2 & Q3 & Q4 & Q5 & Q5a & Q5b & Q6 & Q7 & Q8 & Q9 & Q10 & Q11 & Q12).
    exists d', t. rewrite He2, ?Hm2 in *. simpl in Q10, Q11, Q12.
    assert (synced d') as Hs'.
    { apply (quiet_synced d1); try done; try (by rewrite ?Q7, ?Q8, ?Q9, ?Hc2, ?Hm2); left; by rewrite ?Q10, ?Q11, ?Hm2. }
    assert (pending d' = []) as Hpd by (unfold pending in *; by rewrite Q3, Q8, Hc2).
    assert (marks_from d d') as Hmarks.
    { left. rewrite Q10, Q11. destruct (tidy_marks (marks d0)) as (_ & _ & Hv & _), (tidy_walked (marks d0)) as [Hw|Hw].
      all: unfold d0 in Hv, Hw; cbn [marks mark] in Hv, Hw; rewrite Hv, Hw; split_and!; try done; destruct (marks d); auto. }
    rewrite Q12. split_and!; try done; [by unfold runs_to; rewrite Hpoll|by apply advances_quiet; try congruence|].
    exists 0%N, 0%N. rewrite Hnone in Hrun0. rewrite Hpd, Q2, Q3, Q5.
    simpl in Hrun0 |- *. by injection Hrun0 as <- <- <- <-.
  - destruct (quiet_tick d2 (chain_ref ch (ch_head ch)) (Some (chain_ref ch e)) Hwf2 Hst2 Hb2 Hbd2 Hemp)
      as (d' & t & Hrt & Ht & Q1 & Q2 & Q3 & Q4 & Q5 & Q5a & Q5b & Q6 & Q7 & Q8 & Q9 & Q10 & Q11 & Q12).
    exists d', t. rewrite He2, ?Hm2 in *. simpl in Q10, Q11, Q12.
    destruct (next_block_bounds d1 Hs) as [_ Hcur].
    assert (synced d') as Hs'.
    { apply (quiet_synced d1); try done; try (by rewrite ?Q7, ?Q8, ?Q9, ?Hc2, ?Hm2).
      - right. exists e. split_and!; try done; lia.
      - right. split; [done|]. intros p x Hp Hx. rewrite (pending_split d1 e) in Hx by (done || lia).
        change (engine d1) with (engine d) in Hx. rewrite Hnone in Hx.
        apply between_elem in Hx as [Hx _]. specialize (Hcur p Hp). lia. }
    assert (pending d' = pending d1) as Hpd.
    { unfold pending. rewrite Q3, Q8, Hc2. done. }
    assert (marks_from d d') as Hmarks by (right; split; [exact Q11|]; right; by exists e).
    rewrite Q12. split_and!; try done; [by unfold runs_to; rewrite Hpoll|by apply advances_quiet; try congruence| |].
    + exists a, s. rewrite Hpd, Q2, Q3, Q5. split; [exact Hrun0|]. done.
    + simpl. unfold todo_at. rewrite Hpd. unfold next_block at 1. rewrite Q10. simpl.
      unfold resumes. rewrite canonical_chain_ref, orb_true_r by lia. simpl.
      change (pending d) with (pending d1). lia.
  - pose proof (pending_split d1 to Hs Hto) as Hsplit.
    set (l := above_cursor (cursor (engine d1)) (between ch (next_block d1) to)) in *.
    rewrite Hsplit, fmap_app, run_app in Hrun0.
    destruct (run (fold (engine d)) (cursor (engine d)) 0 0 (positioned <$> l)) as [[[[f1 c1] a1] s1] st1] eqn:Hrun1.
    destruct st1; [|done..].
    assert (fresh (cursor (engine d2)) (batch_events (batch d2)) = positioned <$> l) as Hfr.
    { rewrite Hev, He2, <- above_fresh. f_equal. unfold l. apply filter_all, Forall_forall.
      intros x Hx. by apply list_elem_of_filter in Hx as [Hx _]. }
    destruct (apply_scanned_spec d2 (chain_ref ch (ch_head ch)) None f1 c1 a1 s1) as
      (d' & t & Hrt & P1 & P2 & P3 & P4 & P5 & P5a & P5b & P6 & P7 & P8 & P9 & P10 & P11 & P12 & P13 & P14); try done.
    { rewrite Hfr, He2. exact Hrun1. }
    rewrite Hemp, He2 in *. cbn [andb] in *.
    assert (Forall (λ r, r = chain_ref ch (number r) ∧ (start_block (config d1) ≤ number r ≤ ch_head ch)%N)
      (ring_list (ring (engine d')))) as Hring'.
    { rewrite P6. apply Forall_forall. intros x [Hx|Hx]%foldl_push_list_elem.
      - pose proof (sy_chain d1 Hs) as Hc. pose proof (sy_ring d1 Hs) as Hl. unfold on_chain in Hc.
        rewrite Forall_forall in Hc, Hl. destruct (Hc _ Hx). specialize (Hl _ Hx). done.
      - unfold new_blocks in Hx. apply list_elem_of_fmap in Hx as (sp & -> & [_ Hsp]%list_elem_of_filter).
        rewrite Forall_forall in Hon2. destruct (Hon2 sp Hsp) as [-> ?]. done. }
    destruct (folded_synced d1 d' to (fold (engine d)) f1 c1 0 0 a1 s1) as (Hs' & Hpd & Hlt); try done;
      try (by rewrite ?P7, ?P8, ?P13, ?Hc2, ?Hm2).
    { eapply Forall_impl; [exact Hring'|]. simpl. tauto. }
    { rewrite P8, Hc2. eapply Forall_impl; [exact Hring'|]. simpl. tauto. }
    exists d', t. split_and!; try done.
    + by unfold runs_to; rewrite Hpoll.
    + by rewrite P12.
    + split; [right; split; [exact P11|by left]|]. split_and!; [congruence|done|congruence|]. exists l, a1, s1.
      change (pending d) with (pending d1). by rewrite Hsplit, Hpd, P2, P3.
    + rewrite Hpd, P2, P3, P5.
      destruct (run f1 c1 0 0 (positioned <$> between ch (to + 1) (ch_head ch)))
        as [[[[f2 c2] a2] s2] st2] eqn:Hrun2.
      pose proof (run_shift _ _ _ _ _ _ _ _ _ _ a1 s1 Hrun2) as Hrun3. rewrite !N.add_0_r in Hrun3.
      rewrite Hrun3 in Hrun0. injection Hrun0 as <- <- <- <- ->. exists a2, s2. split; [done|].
      change (engine d1) with (engine d). lia.
    + rewrite P12. unfold todo_at. change (pending d) with (pending d1). rewrite Hpd, Hsplit, length_app.
      assert (l ≠ []) as Hl by exact Hne. assert (0 < length l) by (destruct l; [done|simpl; lia]). lia.
Qed.

(** The caller's loop: some ticks in a row. *)
Fixpoint ticks (n : nat) : SM (Driver F E St K) Empty_set (list Tick) :=
  match n with
  | O => mret []
  | S n => t ← tick; ts ← ticks n; mret (t :: ts)
  end.

(** The work left for a driver that is about to tick. *)
Definition todo d : nat := todo_at (next_block (step_enter d)) d.

Lemma step_enter_marks d :
  engine (step_enter d) = engine d ∧ source (step_enter d) = source d ∧ config (step_enter d) = config d ∧
  span (marks (step_enter d)) = span (marks d) ∧
  (left_at (marks d) = Some (engine_point d) →
    walked (marks (step_enter d)) = walked (marks d) ∧ vouched (marks (step_enter d)) = vouched (marks d)) ∧
  (left_at (marks d) ≠ Some (engine_point d) →
    walked (marks (step_enter d)) = None ∧ vouched (marks (step_enter d)) = None).
Proof.
  unfold step_enter. cbn zeta.
  set (d1 := if negb _ then _ else clamp_marks d).
  assert (engine d1 = engine d ∧ source d1 = source d ∧ config d1 = config d ∧
    span (marks d1) = span (marks d) ∧ walked (marks d1) = walked (marks d) ∧
    vouched (marks d1) = vouched (marks d) ∧ left_at (marks d1) = left_at (marks d)) as (H1&H2&H3&H4&H5&H6&H7).
  { unfold d1, clamp_marks. destruct (negb _); simpl; by destruct (marks d). }
  assert (engine_point d1 = engine_point d) as Hp by (unfold engine_point; by rewrite H1).
  rewrite H7, Hp. simpl. rewrite H1, H2, H3. destruct (decide (left_at (marks d) = Some (engine_point d))) as [Hl|Hl].
  - rewrite bool_decide_true by done. simpl. rewrite <- H4, <- H5, <- H6. by destruct (marks d1).
  - rewrite bool_decide_false by done. simpl. rewrite <- H4. by destruct (marks d1).
Qed.

(** Marks that stay, or are dropped. *)
Lemma synced_marks d d' :
  synced d → engine d' = engine d → source d' = source d → config d' = config d →
  (1 ≤ span (marks d') ≤ MAX_SPAN)%N →
  (walked (marks d') = walked (marks d) ∧ vouched (marks d') = vouched (marks d) ∨
   walked (marks d') = None ∧ vouched (marks d') = None) → synced d'.
Proof.
  intros Hs He Hso Hc Hsp Hm. assert (pending d' = pending d) as Hp by (unfold pending; by rewrite He, Hc).
  destruct Hm as [[Hw Hv]|[Hw Hv]].
  - assert (vouches (marks d') = vouches (marks d)) as Hvo by (unfold vouches; by rewrite Hv).
    split; rewrite ?He, ?Hso, ?Hc, ?Hw, ?Hvo, ?Hp; try done; try apply Hs.
    intros w Hw' Hr. apply (sy_walked d Hs w Hw'). unfold resumes in *. by rewrite <- Hvo.
  - assert (vouches (marks d') = false) as Hvo by (unfold vouches; by rewrite Hv, bool_decide_false).
    split; rewrite ?He, ?Hso, ?Hc, ?Hw, ?Hvo, ?Hp; try done; apply Hs.
Qed.

Lemma step_enter_synced d : synced d → synced (step_enter d).
Proof.
  intros Hs. destruct (step_enter_marks d) as (He & Hso & Hc & Hsp & Hsame & Hmoved).
  apply (synced_marks d); try done; [rewrite Hsp; apply Hs|].
  destruct (decide (left_at (marks d) = Some (engine_point d))); auto.
Qed.

Lemma next_span_bounds n : (1 ≤ n ≤ MAX_SPAN)%N → (1 ≤ N.min (u64_saturating_mul n 2) MAX_SPAN ≤ MAX_SPAN)%N.
Proof. unfold u64_saturating_mul, MAX_SPAN, u64_max. lia. Qed.

Lemma step_leave_synced t d : synced d → t ≠ SourceError → synced (step_leave t d).
Proof.
  intros Hs Ht. set (d' := step_leave t d).
  assert (engine d' = engine d ∧ source d' = source d ∧ config d' = config d) as (He & Hso & Hc) by done.
  assert (span (marks d') = N.min (u64_saturating_mul (span (marks d)) 2) MAX_SPAN ∧
    walked (marks d') = walked (marks d) ∧ vouched (marks d') = vouched (marks d)) as (Hsp & Hw & Hv).
  { unfold d', step_leave. simpl. rewrite bool_decide_false by done. by destruct (marks d). }
  clearbody d'. apply (synced_marks d); try done; [|by left]. rewrite Hsp. apply next_span_bounds, Hs.
Qed.

Lemma tick_spec d f' c' a s :
  synced d →
  run (fold (engine d)) (cursor (engine d)) 0 0 (positioned <$> pending d) = (f', c', a, s, Done) →
  ∃ d' t, runs_to tick d d' t ∧ synced d' ∧ reports (is_caught_up d') t ∧ advances d d' ∧
    (∃ a' s', run (fold (engine d')) (cursor (engine d')) 0 0 (positioned <$> pending d') = (f', c', a', s', Done) ∧
      (skips (engine d') + s' = skips (engine d) + s)%N) ∧
    (if is_caught_up d' then pending d' = [] else todo d' < todo d).
Proof.
  intros Hs Hrun. pose proof (step_enter_synced d Hs) as Hs0.
  destruct (step_enter_marks d) as (He & Hso & Hc & Hsp & _).
  assert (pending (step_enter d) = pending d) as Hp by (unfold pending; by rewrite He, Hc).
  destruct (poll_apply_spec (step_enter d) f' c' a s Hs0) as (d1 & t & Hr & Hs1 & Ht & Hadv & Hrun1 & Hdone).
  { by rewrite He, Hp. }
  rewrite He in Hrun1. pose proof (step_leave_synced t d1 Hs1 (reports_no_error _ _ Ht)) as Hs'.
  exists (step_leave t d1), t. split.
  { unfold runs_to, tick, step. rewrite sm_modify_bind, (sm_bind_ok _ _ _ _ _ Hr). done. }
  assert (left_at (marks (step_leave t d1)) = Some (engine_point (step_leave t d1))) as Hl.
  { unfold step_leave, mark. simpl. rewrite (sy_active d1 Hs1). by destruct (marks d1). }
  assert (caught_up (marks (step_leave t d1)) = caught_up (marks d1)) as Hcu.
  { unfold step_leave, mark. simpl. by destruct (marks d1). }
  assert (initial (step_enter d) = initial d) as Hi0 by (unfold step_enter, clamp_marks; cbn zeta; by destruct (negb (_ =? _)%N)).
  assert (advances d (step_leave t d1)) as Hadv'.
  { destruct Hadv as [Hm Hadv]. rewrite He, Hc, Hi0, Hp in Hadv. split; [|exact Hadv].
    unfold marks_from in *. rewrite He in Hm. destruct (step_enter_marks d) as (_ & _ & _ & _ & Hsame & Hmoved).
    assert (walked (marks (step_leave t d1)) = walked (marks d1) ∧ vouched (marks (step_leave t d1)) = vouched (marks d1))
      as [-> ->] by (unfold step_leave, mark; simpl; by destruct (marks d1)).
    destruct Hm as [(? & ? & Hw & Hv)|?]; [left|by right].
    destruct (decide (left_at (marks d) = Some (engine_point d))) as [Hpt|Hpt];
      [destruct (Hsame Hpt) as [Hw' Hv']|destruct (Hmoved Hpt) as [Hw' Hv']]; rewrite Hw', Hv' in *; naive_solver. }
  assert (is_caught_up (step_leave t d1) = caught_up (marks d1)) as Hcaught.
  { unfold is_caught_up. rewrite Hcu, Hl, bool_decide_true by done.
    change (engine (step_leave t d1)) with (engine d1). rewrite (sy_active d1 Hs1). simpl. by rewrite !andb_true_r. }
  rewrite Hcaught.
  split; [done|]. split; [done|]. split; [exact Hadv'|]. split; [exact Hrun1|].
  destruct (caught_up (marks d1)); simpl; [exact Hdone|].
  destruct (step_enter_marks (step_leave t d1)) as (He' & _ & Hc' & _ & Hsame & _). destruct (Hsame Hl) as [Hw Hv].
  assert (next_block (step_enter (step_leave t d1)) = next_block d1) as Hnb.
  { unfold next_block, resumes, vouches. rewrite Hw, Hv, He', Hc'. unfold step_leave, mark. simpl. by destruct (marks d1). }
  unfold todo. rewrite Hnb. unfold todo_at in *. rewrite Hp in Hdone.
  change (pending (step_leave t d1)) with (pending d1). lia.
Qed.

(** A driver built on an honest source follows its chain. *)
Lemma build_synced (f : F) s (k : K) ec dc d :
  build f s k ec dc = Ok d → I s → (ch_first ch ≤ start_block dc)%N → synced d ∧ fold (engine d) = f ∧ cursor (engine d) = None ∧ skips (engine d) = 0%N.
Proof.
  unfold build. destruct (engine_new f ec) as [e|] eqn:He; [|done]. cbn [result_bind]. unfold around.
  destruct (match horizon s with Genesis => _ | FromBlock _ => _ end) as [err|]; [done|]. intros [= <-] HIs Hfirst.
  pose proof (engine_new_wf f ec e He) as Hwf. unfold engine_new in He.
  destruct (config_validate ec) as [[]|]; [|done]. injection He as He.
  assert (fold e = f ∧ cursor e = None ∧ skips e = 0%N ∧ status e = Active ∧ ring_list (ring e) = [])
    as (Hf & Hc & Hsk & Hst & Hring) by by subst e.
  set (k' := if opos_ltb (cursor e) (durable_cursor k) then sink_reset k else k).
  set (d := MkDriver e s k' dc batch_new [] f (MkMarks 0 false 0 None None (resets e) false false MAX_SPAN None None None)).
  assert (auto_checkpoint d = d) as ->.
  { unfold auto_checkpoint. change (engine d) with e. rewrite Hc. by destruct (checkpoint_interval _). }
  assert ((if checkpoint_count e =? 0 then d else d) = d) as -> by by destruct (_ =? 0).
  split; [|done]. split; try done; cbn [engine d]; try done.
  - unfold on_chain. rewrite Hring. constructor.
  - rewrite Hring. constructor.
Qed.

(** ** Lemmas: recovery from a fork *)

Lemma bisect_spec (good bad : list BlockRef) fuel lo hi d :
  Forall (λ o, canonical o = true) good → Forall (λ o, canonical o = false) bad →
  Forall (λ o, (ch_first ch ≤ number o)%N) (good ++ bad) → I (source d) →
  lo ≤ length good ≤ hi → hi ≤ length (good ++ bad) → hi - lo ≤ fuel →
  ∃ s', runs_to (bisect (good ++ bad) fuel lo hi) d (put_source s' d) (length good) ∧ I s'.
Proof.
  intros Hg Hb Hfirst. revert lo hi d. induction fuel as [|fuel IH]; intros lo hi d HIs Hlo Hhi Hf; cbn [bisect].
  { exists (source d). assert (lo = length good) as -> by lia. by destruct d. }
  destruct (lo <? hi) eqn:Hlt; nbool.
  2: { exists (source d). assert (lo = length good) as -> by lia. by destruct d. }
  cbn zeta. set (mid := lo + (hi - lo) / 2).
  assert (lo ≤ mid < hi) as Hmid.
  { unfold mid. pose proof (Nat.Div0.div_lt_upper_bound (hi - lo) 2 (hi - lo) ltac:(lia)). lia. }
  destruct (lookup_lt_is_Some_2 (good ++ bad) mid) as [o Ho]; [lia|].
  destruct (honest_header ch I HI (source d) (number o) HIs ltac:(by eapply Forall_lookup_1 in Hfirst)) as (s1 & Hr & Hs1). apply source_call in Hr.
  set (d1 := put_source s1 d) in *.
  assert ((∃ s', runs_to (bisect (good ++ bad) fuel (mid + 1) hi) d1 (put_source s' d1) (length good) ∧ I s') ∧
    canonical o = true ∨ (∃ s', runs_to (bisect (good ++ bad) fuel lo mid) d1 (put_source s' d1) (length good) ∧ I s') ∧
    canonical o = false) as Hrec.
  { destruct (decide (mid < length good)).
    - left. rewrite lookup_app_l in Ho by done. rewrite Forall_lookup in Hg. split; [|by eapply Hg].
      apply IH; done || lia.
    - right. rewrite lookup_app_r in Ho by lia. rewrite Forall_lookup in Hb. split; [|by eapply Hb].
      apply IH; done || lia. }
  unfold runs_to. unfold sm_expect. unfold mbind at 1, sm_bind at 1. rewrite Ho. cbn beta iota.
  rewrite (sm_bind_ok _ _ _ _ _ Hr). unfold canonical in Hrec.
  destruct (number o <=? ch_head ch)%N; cbn [andb chain_ref bhash] in *.
  - destruct (bool_decide (ch_hash ch (number o) = bhash o)).
    + destruct Hrec as [[(s' & Hs' & ?) _]|[_ ?]]; [|done]. by exists s'.
    + destruct Hrec as [[_ ?]|[(s' & Hs' & ?) _]]; [done|]. by exists s'.
  - destruct Hrec as [[_ ?]|[(s' & Hs' & ?) _]]; [done|]. by exists s'.
Qed.

(** The history kept by a rollback to a common ancestor is on the chain. *)
Lemma kept_on_chain (good bad : list BlockRef) a n :
  ascending (number <$> (good ++ bad)) → Forall (λ o, canonical o = true) good → last good = Some a →
  (n ≤ number a)%N →
  Forall (λ r, r = chain_ref ch (number r) ∧ (number r ≤ ch_head ch)%N) (at_or_below n (good ++ bad)).
Proof.
  intros Hasc Hg Ha Hn. apply Forall_forall. intros x [Hx Hin]%list_elem_of_filter.
  apply elem_of_app in Hin as [Hin|Hin].
  - apply canonical_ref. rewrite Forall_forall in Hg. by apply Hg.
  - exfalso. rewrite fmap_app in Hasc. apply StronglySorted_app in Hasc as (Hlt & _ & _).
    apply last_Some_elem_of in Ha.
    specialize (Hlt (number a) (number x) ltac:(by apply list_elem_of_fmap_2) ltac:(by apply list_elem_of_fmap_2)).
    simpl in *. lia.
Qed.

(** A recovery keeps old checkpoints only, and no mark. *)
Definition restored d d' : Prop :=
  initial d' = initial d ∧ config d' = config d ∧ walked (marks d') = None ∧ vouched (marks d') = None ∧
  ∀ sl, sl ∈ held (checkpoints (engine d')) → sl ∈ held (checkpoints (engine d)).

(** The resync branch. *)
Lemma resync_or_terminal_spec d :
  let (d', t) := resync_or_terminal d in
  (t = Resynced ∧ engine d' = reset (engine d) (initial d) ∨
   ∃ h, horizon (source d) = FromBlock h ∧ (start_block (config d) < h)%N ∧
     t = Terminal (Unrecoverable (HorizonExceeded (start_block (config d)) h)) ∧
     engine d' = mark_unrecoverable (engine d) (HorizonExceeded (start_block (config d)) h)) ∧
  source d' = source d ∧ config d' = config d ∧ walked (marks d') = walked (marks d) ∧
  vouched (marks d') = vouched (marks d) ∧ span (marks d') = span (marks d) ∧ initial d' = initial d.
Proof.
  unfold resync_or_terminal. destruct (horizon (source d)) as [|h] eqn:Hh.
  - simpl. split; [by left|]. by destruct (marks d).
  - destruct (start_block (config d) <? h)%N eqn:Hlt; nbool; simpl.
    + split; [right; by exists h|]. done.
    + split; [by left|]. by destruct (marks d).
Qed.

(** Following the chain again after the engine was moved back to it. *)
Lemma moved_synced d :
  engine_wf (engine d) → status (engine d) = Active → on_chain (engine d) → I (source d) →
  (ch_first ch ≤ start_block (config d))%N → Forall (λ r, (start_block (config d) ≤ number r)%N) (ring_list (ring (engine d))) →
  (1 ≤ span (marks d) ≤ MAX_SPAN)%N → walked (marks d) = None → vouched (marks d) = None → synced d.
Proof.
  intros Hwf Hst Hon HIs Hfirst Hstart Hsp Hw Hv.
  split; try done; rewrite ?Hw; try done. unfold vouches. by rewrite Hv, bool_decide_false.
Qed.

Lemma reset_synced d :
  engine_wf (engine d) → I (source d) → (ch_first ch ≤ start_block (config d))%N →
  (1 ≤ span (marks d) ≤ MAX_SPAN)%N → walked (marks d) = None → vouched (marks d) = None →
  let (d', t) := resync_or_terminal d in
  (t = Resynced ∧ fold (engine d') = initial d ∧ cursor (engine d') = None ∧ synced d' ∧ restored d d') ∨
  (∃ h, horizon (source d) = FromBlock h ∧ (start_block (config d) < h)%N ∧
    t = Terminal (Unrecoverable (HorizonExceeded (start_block (config d)) h)) ∧
    fold (engine d') = fold (engine d) ∧ status (engine d') = Unrecoverable (HorizonExceeded (start_block (config d)) h)).
Proof.
  intros Hwf HIs Hfirst Hsp Hw Hv. pose proof (resync_or_terminal_spec d) as Hspec.
  destruct (resync_or_terminal d) as [d' t].
  destruct Hspec as ([[-> He]|(h & Hh & Hlt & -> & He)] & Hso & Hc & Hw' & Hv' & Hsp' & Hi).
  - left. pose proof (reset_wf (engine d) (initial d) Hwf) as Hwf'.
    assert (synced d') as Hs' by (apply moved_synced; rewrite ?He; try done; try congruence; try (by constructor)).
    unfold restored. rewrite He. split_and!; try done; try congruence.
    intros sl. simpl. destruct (cp_clear_wf _ (ewf_checkpoints _ Hwf)) as [_ ->]. by intros ?%elem_of_nil.
  - right. exists h. rewrite He. done.
Qed.

Lemma roll_back_synced d (good bad : list BlockRef) a :
  engine_wf (engine d) → status (engine d) = Active → I (source d) → (ch_first ch ≤ start_block (config d))%N →
  (1 ≤ span (marks d) ≤ MAX_SPAN)%N → walked (marks d) = None → vouched (marks d) = None →
  ring_list (ring (engine d)) = good ++ bad → Forall (λ o, canonical o = true) good → last good = Some a →
  Forall (λ r, (start_block (config d) ≤ number r)%N) (good ++ bad) →
  let (d', t) := roll_back_to (number a) d in
  match best_at_or_below (checkpoints (engine d)) (number a) (ring (engine d)) with
  | Some sl => t = RolledBack (slot_cursor sl) ∧ fold (engine d') = slot_fold sl ∧
      cursor (engine d') = slot_cursor sl ∧ synced d' ∧ restored d d'
  | None => roll_back_to (number a) d = resync_or_terminal (put_engine (engine d) d)
  end.
Proof.
  intros Hwf Hst HIs Hfirst Hsp Hw Hv Hring Hg Ha Hstart. unfold roll_back_to, rollback_at_or_below. rewrite Hst.
  destruct (best_at_or_below _ _ _) as [sl|] eqn:Hbest.
  2: { by destruct (resync_or_terminal (put_engine (engine d) d)). }
  pose proof (best_at_or_below_held _ _ _ _ Hbest) as (Hin & Hlive & Hbelow).
  destruct (rollback_slot_wf (engine d) sl Hwf Hin Hlive) as [Hwf' Hring']. cbn zeta in *.
  assert (restored d (mark (set_caught_up false) (put_engine (MkEngine (slot_fold sl) (slot_cursor sl)
    match slot_cursor sl with Some c => truncate_above (ring (engine d)) (block c) | None => ring_clear (ring (engine d)) end
    (drop_newer (checkpoints (engine d)) (slot_cursor sl)) Active None (skips (engine d)) (resets (engine d))) d)))
    as Hrestored.
  { split; [done|]. split; [done|]. split; [simpl; by destruct (marks d)|]. split; [simpl; by destruct (marks d)|].
    intros s. simpl.
    destruct (drop_newer_spec _ (slot_cursor sl) (ewf_checkpoints _ Hwf)) as (_ & -> & _).
    by intros [_ ?]%list_elem_of_filter. }
  split_and!; try done. rewrite Hring in Hring'.
  assert (ascending (number <$> (good ++ bad))) as Hasc by (rewrite <- Hring; apply Hwf).
  apply moved_synced; try done; unfold on_chain; simpl; rewrite ?Hring'; try (by destruct (marks d)).
  - unfold slot_at_or_below in Hbelow. destruct (slot_cursor sl) as [c|]; [|constructor]. nbool.
    by apply (kept_on_chain good bad a).
  - destruct (slot_cursor sl); [|constructor]. apply Forall_forall. intros x [_ Hx]%list_elem_of_filter.
    rewrite Forall_forall in Hstart. by apply Hstart.
Qed.

End sync.

(** ** Properties *)

Section properties.
Context {F E X St SE K : Type} `{!Fold F E X} `{!Source St E SE} `{!SnapshotSink K F}.
Implicit Types d : Driver F E St K.

(** The ticks of a driver that catches up: it reports progress, and then that it is idle. *)
Definition catching_up (ts : list Tick) : Prop :=
  ∃ ts0 t, ts = ts0 ++ [t] ∧ Forall (reports (F := F) (K := K) false) ts0 ∧ reports (F := F) (K := K) true t.

Lemma catching_up_no_error ts : catching_up ts → Forall (λ t, t ≠ SourceError) ts.
Proof.
  intros (ts0 & t & -> & Hts & Ht). apply list.Forall_app. split; [|by repeat constructor; eapply reports_no_error].
  eapply Forall_impl; [exact Hts|]. intros t0. apply reports_no_error.
Qed.

(** Ticks of a driver that follows an honest source, until it is caught up; [J] is any invariant of
    folding some of the work left. *)
Lemma ticks_catch_up ch (I : St → Prop) (J : Driver F E St K → Prop) d f' c' a s :
  chain_wf ch → honest ch I → synced ch I d → J d →
  (∀ d1 d2, synced ch I d1 → synced ch I d2 → J d1 → advances ch d1 d2 → J d2) →
  run (fold (engine d)) (cursor (engine d)) 0 0 (positioned <$> pending ch d) = (f', c', a, s, Done) →
  ∃ n d' ts, n ≤ S (todo ch d) ∧ runs_to (ticks n) d d' ts ∧ catching_up ts ∧
    is_caught_up d' = true ∧ pending ch d' = [] ∧ synced ch I d' ∧ J d' ∧
    fold (engine d') = f' ∧ cursor (engine d') = c' ∧ skips (engine d') = (skips (engine d) + s)%N.
Proof.
  intros Hch HI Hs HJ Hadvance. remember (todo ch d) as k eqn:Hk. revert d a s Hk Hs HJ.
  induction (lt_wf k) as [k _ IH]. intros d a s -> Hs HJ Hrun.
  destruct (tick_spec ch Hch I HI d f' c' a s Hs Hrun)
    as (d1 & t & Hr & Hs1 & Ht & Hadv & (a1 & s1 & Hrun1 & Hsk) & Hdone).
  pose proof (Hadvance d d1 Hs Hs1 HJ Hadv) as HJ1. destruct (is_caught_up d1) eqn:Hcu.
  - rewrite Hdone in Hrun1. injection Hrun1 as Hf Hc <- <-.
    exists 1, d1, [t]. split_and!; try done; [lia| |by exists [], t|lia].
    unfold runs_to. cbn [ticks]. by rewrite (sm_bind_ok _ _ _ _ _ Hr).
  - destruct (IH (todo ch d1) Hdone d1 a1 s1 eq_refl Hs1 HJ1 Hrun1)
      as (n & d' & ts & Hn & Hrs & (ts0 & t0 & -> & Hts & Ht0) & H1 & H2 & H3 & H4 & H5 & H6 & H7).
    exists (S n), d', (t :: ts0 ++ [t0]). split_and!; try done; [lia| |by exists (t :: ts0), t0; split_and!; [|constructor|]|lia].
    unfold runs_to. cbn [ticks]. by rewrite (sm_bind_ok _ _ _ _ _ Hr), (sm_bind_ok _ _ _ _ _ Hrs).
Qed.

(** C25. Catching up: on a source that answers from one chain, a driver that follows the chain and whose
    fold refuses none of the events left reaches the head within as many ticks as there are events
    to fold and blocks to read, plus one. It reports itself caught up, its fold is the fold of
    exactly the chain's events above the cursor, in position order, its cursor is the last of them,
    and its skip count grew by the skipped ones. A driver just built on such a source follows the
    chain ([build_synced]). *)
Theorem driver_catches_up ch (I : St → Prop) d f' c' a s :
  chain_wf ch → honest ch I → synced ch I d →
  run (fold (engine d)) (cursor (engine d)) 0 0 (positioned <$> pending ch d) = (f', c', a, s, Done) →
  ∃ n d' ts, n ≤ S (todo ch d) ∧ runs_to (ticks n) d d' ts ∧ Forall (λ t, t ≠ SourceError) ts ∧
    is_caught_up d' = true ∧ pending ch d' = [] ∧
    fold (engine d') = f' ∧ cursor (engine d') = c' ∧ skips (engine d') = (skips (engine d) + s)%N.
Proof.
  intros Hch HI Hs Hrun.
  destruct (ticks_catch_up ch I (λ _, True) d f' c' a s) as (n & d' & ts & ? & ? & ?%catching_up_no_error & ? & ? & _ & _ & ?); try done.
  by exists n, d', ts.
Qed.

(** Recovery after a fork, with what it keeps. *)
Lemma fork_recovery ch (I : St → Prop) d good bad :
  chain_wf ch → honest ch I → I (source d) → engine_wf (engine d) → status (engine d) = Active →
  ring_list (ring (engine d)) = good ++ bad →
  Forall (λ o, canonical ch o = true) good → Forall (λ o, canonical ch o = false) bad →
  (ch_first ch ≤ start_block (config d))%N → Forall (λ r, (start_block (config d) ≤ number r)%N) (good ++ bad) →
  (1 ≤ span (marks d) ≤ MAX_SPAN)%N → walked (marks d) = None →
  ∃ d' t, runs_to recover_via_bisection d d' t ∧
    match (a ← last good; best_at_or_below (checkpoints (engine d)) (number a) (ring (engine d))) with
    | Some sl => t = RolledBack (slot_cursor sl) ∧ fold (engine d') = slot_fold sl ∧
        cursor (engine d') = slot_cursor sl ∧ synced ch I d' ∧ restored d d'
    | None =>
      (t = Resynced ∧ fold (engine d') = initial d ∧ cursor (engine d') = None ∧ synced ch I d' ∧ restored d d') ∨
      (∃ h, (∃ s, I s ∧ horizon s = FromBlock h) ∧ (start_block (config d) < h)%N ∧
        t = Terminal (Unrecoverable (HorizonExceeded (start_block (config d)) h)) ∧
        fold (engine d') = fold (engine d) ∧
        status (engine d') = Unrecoverable (HorizonExceeded (start_block (config d)) h))
    end.
Proof.
  intros Hch HI HIs Hwf Hst Hring Hg Hb Hfirst Hstart Hsp Hw. set (d0 := mark (set_vouched None) d).
  assert (span (marks d0) = span (marks d) ∧ walked (marks d0) = None ∧ vouched (marks d0) = None) as (Hsp0 & Hw0 & Hv0).
  { unfold d0. simpl. by destruct (marks d). }
  destruct (bisect_spec ch I HI good bad (length (good ++ bad)) 0 (length (good ++ bad)) d0)
    as (s' & Hr & Hs'); try done; [|rewrite length_app; lia..|].
  { eapply Forall_impl; [exact Hstart|]. simpl. intros. lia. }
  set (d1 := put_source s' d0) in *. change (marks d0) with (marks d1) in Hsp0, Hw0, Hv0.
  unfold runs_to. assert (recover_via_bisection d = match length good with
    | O => sm_step resync_or_terminal d1
    | S i => (o ← sm_expect ((good ++ bad) !! i); sm_step (roll_back_to (number o))) d1
    end) as ->.
  { unfold recover_via_bisection. rewrite sm_modify_bind. fold d0. rewrite sm_get_bind. cbn zeta.
    change (observed (engine d0)) with (observed (engine d)). unfold observed. rewrite ring_iter_list, Hring.
    rewrite (sm_bind_ok _ _ _ _ _ (sm_result_ok _ _ _ _ Hr)). by destruct (length good). }
  destruct (last good) as [a|] eqn:Ha; cbn [mbind option_bind].
  - destruct (length good) as [|i] eqn:Hlen; [by destruct good|].
    assert ((good ++ bad) !! i = Some a) as Hi.
    { rewrite lookup_app_l by lia. rewrite last_lookup, Hlen in Ha. done. }
    unfold mbind, sm_bind, sm_expect. rewrite Hi. unfold sm_step.
    pose proof (roll_back_synced ch I d1 good bad a) as Hrb. rewrite Hsp0, Hw0, Hv0 in Hrb.
    specialize (Hrb Hwf Hst Hs' Hfirst Hsp eq_refl eq_refl Hring Hg Ha Hstart).
    destruct (roll_back_to (number a) d1) as [d' t] eqn:Hd'. exists d', t. split; [done|].
    change (engine d1) with (engine d) in Hrb. destruct (best_at_or_below _ _ _) as [sl|]; [done|].
    assert (put_engine (engine d) d1 = d1) as Hid by done. rewrite Hid in Hrb.
    pose proof (reset_synced ch I d1 Hwf Hs' Hfirst) as Hrs. rewrite Hsp0, Hw0, Hv0, <- Hrb in Hrs.
    destruct (Hrs Hsp eq_refl eq_refl) as [?|(h & ? & ?)]; [by left|right; exists h; split; [by exists s'|done]].
  - apply last_None in Ha as ->. simpl. unfold sm_step.
    pose proof (reset_synced ch I d1 Hwf Hs' Hfirst) as Hrs. rewrite Hsp0, Hw0, Hv0 in Hrs.
    specialize (Hrs Hsp eq_refl eq_refl). destruct (resync_or_terminal d1) as [d' t]. exists d', t.
    split; [done|]. destruct Hrs as [?|(h & ? & ?)]; [by left|right; exists h; split; [by exists s'|done]].
Qed.

(** C24. Fork recovery: when the observed history is a part still on the source's chain followed by a
    part that is not, bisection finds the newest common block, and the driver rolls back to the
    newest live checkpoint at or below it; the fold and the cursor are the checkpointed ones. With
    no such checkpoint it starts over from the initial fold, or gives up when the source no longer
    reaches the start block. After a rollback or a resync the driver follows the source's chain
    again, so [driver_catches_up] applies to it. *)
Theorem fork_recovers ch (I : St → Prop) d good bad :
  chain_wf ch → honest ch I → I (source d) → engine_wf (engine d) → status (engine d) = Active →
  ring_list (ring (engine d)) = good ++ bad →
  Forall (λ o, canonical ch o = true) good → Forall (λ o, canonical ch o = false) bad →
  (ch_first ch ≤ start_block (config d))%N → Forall (λ r, (start_block (config d) ≤ number r)%N) (good ++ bad) →
  (1 ≤ span (marks d) ≤ MAX_SPAN)%N → walked (marks d) = None →
  ∃ d' t, runs_to recover_via_bisection d d' t ∧
    match (a ← last good; best_at_or_below (checkpoints (engine d)) (number a) (ring (engine d))) with
    | Some sl => t = RolledBack (slot_cursor sl) ∧ fold (engine d') = slot_fold sl ∧
        cursor (engine d') = slot_cursor sl ∧ synced ch I d'
    | None =>
      (t = Resynced ∧ fold (engine d') = initial d ∧ cursor (engine d') = None ∧ synced ch I d') ∨
      (∃ h, (start_block (config d) < h)%N ∧
        t = Terminal (Unrecoverable (HorizonExceeded (start_block (config d)) h)) ∧
        fold (engine d') = fold (engine d) ∧
        status (engine d') = Unrecoverable (HorizonExceeded (start_block (config d)) h))
    end.
Proof.
  intros. destruct (fork_recovery ch I d good bad) as (d' & t & Hr & Hpost); try done.
  exists d', t. split; [done|]. destruct (a ← last good; _) as [sl|]; [by destruct Hpost as (? & ? & ? & ? & _)|].
  destruct Hpost as [(? & ? & ? & ? & _)|(h & _ & ?)]; [by left|right; by exists h].
Qed.

End properties.

(** ** Examples: a chain of thirteen blocks, served newest event first *)

Definition chain_source {E} (ch : Chain E) : Source () E () := {|
  source_head := mret (chain_ref ch (ch_head ch));
  header_at n := mret (if (n <=? ch_head ch)%N then Some (chain_ref ch n) else None);
  events_in lo hi := sm_modify (λ p, (p.1, p.2 ++ rev (between ch lo hi)));
  horizon _ := Genesis;
  window _ := 3%N;
|}.

Lemma chain_source_honest {E} (ch : Chain E) : @honest () E () (chain_source ch) ch (λ _, True).
Proof.
  split; [intros []; by exists ()|intros [] n _; by exists ()|].
  intros [] out lo hi _ _. exists (), (rev (between ch lo hi)). split_and!; [done|done|].
  symmetry. apply Permutation_rev.
Qed.

Definition ex_logs (n : N) : list (N * N) :=
  if (n =? 3)%N then [(0, 7); (2, 0)]%N else if (n =? 5)%N then [(1, 9)]%N else if (n =? 11)%N then [(4, 8)]%N else [].
Definition ex_chain : Chain N := MkChain _ 0 12 ex_hash ex_logs.
Definition ex_driver : Driver (list (Position * N)) N () NoSink :=
  MkDriver ex_start () () (from_block 1) batch_new [] []
    (MkMarks 0 false 0 None None 0 false false MAX_SPAN None None None).

Lemma ex_chain_wf : chain_wf ex_chain.
Proof. split; [done|]. intros n. unfold ex_chain, ex_logs. simpl. repeat case_match; repeat constructor. Qed.

Lemma driver_catches_up_witness :
  ∃ n d' ts, n ≤ 5 + 12 ∧
    runs_to (@ticks _ _ () () () NoSink EngineSpec.recorder (chain_source ex_chain) _ n) ex_driver d' ts ∧
    is_caught_up d' = true ∧
    fold (engine d') = [(MkPosition 3 0, 7); (MkPosition 5 1, 9); (MkPosition 11 4, 8)]%N.
Proof.
  destruct (@driver_catches_up _ _ () () () NoSink EngineSpec.recorder (chain_source ex_chain) _ ex_chain (λ _, True)
    ex_driver [(MkPosition 3 0, 7); (MkPosition 5 1, 9); (MkPosition 11 4, 8)]%N (Some (MkPosition 11 4)) 3 1
    ex_chain_wf (chain_source_honest ex_chain)) as (n & d' & ts & H1 & H2 & _ & H3 & _ & H4 & _).
  { apply (@build_synced _ _ () () NoSink (chain_source ex_chain) _ ex_chain (λ _, True) [] () ()
      (MkEngineConfig 4 2) (from_block 1)); [reflexivity|done|done]. }
  { vm_compute. reflexivity. }
  exists n, d', ts. split; [exact H1|]. split; [exact H2|]. split; [exact H3|exact H4].
Defined.

(** The same engine after a reorganisation that replaced every block from 4 on. *)
Definition ex_fork_chain : Chain N := MkChain _ 0 12 (λ n, if (n <? 4)%N then ex_hash n else []) ex_logs.
Definition ex_forked : Driver (list (Position * N)) N () NoSink :=
  let recorder := EngineSpec.recorder in
  let b1 := push_block batch_new (ex_block 3) [(0, 7)]%N in
  let b2 := set_boundary (Some (ex_block 3)) (push_block batch_new (ex_block 5) [(1, 9)]%N) in
  let e := checkpoint (@apply_batch _ _ _ recorder ex_start b1).1 in
  put_engine (@apply_batch _ _ _ recorder e b2).1 ex_driver.

Lemma fork_recovers_witness :
  ∃ d' t, runs_to (@recover_via_bisection _ _ () () NoSink (chain_source ex_fork_chain)) ex_forked d' t ∧
    t = RolledBack (Some (MkPosition 3 0)) ∧ fold (engine d') = [(MkPosition 3 0, 7)]%N.
Proof.
  assert (engine_wf (engine ex_forked)) as Hwf.
  { unfold ex_forked. cbn [engine put_engine]. apply apply_batch_inv.
    - apply checkpoint_wf. apply apply_batch_inv; [eapply engine_new_wf, ex_start_new|].
      apply push_block_wf, batch_new_wf.
    - apply set_boundary_wf, push_block_wf, batch_new_wf. }
  destruct (@fork_recovers _ _ () () NoSink (chain_source ex_fork_chain) ex_fork_chain (λ _, True)
    ex_forked [ex_block 3] [ex_block 5]) as (d' & t & H1 & H2).
  - split; [done|]. apply ex_chain_wf.
  - apply chain_source_honest.
  - done.
  - exact Hwf.
  - vm_compute. reflexivity.
  - vm_compute. reflexivity.
  - repeat constructor.
  - repeat constructor.
  - done.
  - vm_compute. repeat constructor; discriminate.
  - vm_compute. split; discriminate.
  - vm_compute. reflexivity.
  - exists d', t. split; [exact H1|]. vm_compute in H2. destruct H2 as (H2 & H3 & _). split; [exact H2|exact H3].
Defined.
