(* ===== verification/DriverSafety.v ===== *)
(** What every tick of the poll loop keeps, whatever the source answers: the engine's invariant,
    the bounds of the marks, and an untouched fold when the tick fails. *)
From S2P Require Import Prelude Position Batch Ring Checkpoint ChainError Engine EngineSpec Driver DriverSpec.

Section safety.
Context {F E X St SE K : Type} `{!Fold F E X} `{!Source St E SE} `{!SnapshotSink K F}.
Implicit Types (d : Driver F E St K).

(** ** Specification *)

(** A source whose calls return, with whatever answer; a fold that returns. *)
Record source_returns : Prop := {
  head_returns s : (source_head s).2 ≠ Panics;
  header_returns n s : (header_at n s).2 ≠ Panics;
  events_return lo hi s : (events_in lo hi s).2 ≠ Panics;
}.
Definition fold_returns : Prop := ∀ (f : F) p (ev : E), (fold_apply f p ev).2 ≠ Panics.

(** The invariant of a driver. *)
Record driver_wf d : Prop := {
  dw_engine : engine_wf (engine d);
  dw_span : (1 ≤ span (marks d) ≤ MAX_SPAN)%N;
  dw_batch : batch_wf (batch d);
}.

(** What each outcome of a tick says about the engine before it, the initial fold, and the engine
    after it. *)
Definition tick_effect (e : Engine F) (init : F) (t : Tick) (e' : Engine F) : Prop :=
  match t with
  | Idle => fold e' = fold e ∧ cursor e' = cursor e ∧ ring_list (ring e') = ring_list (ring e) ∧
      status e' = Active
  | Progressed _ | TickDurabilityLost => status e' = Active ∧ opos_le (cursor e) (cursor e')
  | SourceError => unchanged e e'
  | RolledBack to => status e' = Active ∧ cursor e' = to ∧ opos_le to (cursor e)
  | Resynced => status e' = Active ∧ cursor e' = None ∧ fold e' = init
  | Terminal s => status e' = s ∧ s ≠ Active
  end.

Context (Hsrc : source_returns) (Hfold : fold_returns).

(** ** Lemmas: a scan leaves the engine alone *)

(** During a scan. *)
Definition scanning (e : Engine F * F) (n : N) d : Prop :=
  (engine d, initial d) = e ∧ span (marks d) = n ∧ batch_wf (batch d).

Abbreviation scans e n := (keeps (scanning e n)).

Lemma on_source_scans {A} e n (m : SM St SE A) : (∀ s, (m s).2 ≠ Panics) → scans e n (on_source m).
Proof.
  intros Hm d (H1 & H2 & H3). unfold on_source, sm_zoom. specialize (Hm (source d)).
  destruct (m (source d)) as [s' [r|]]; [|done]. by exists (put_source s' d), r.
Qed.

Lemma header_scans e n k : scans e n (on_source (header_at k)).
Proof. apply on_source_scans, header_returns, Hsrc. Qed.

Lemma lagging_scans e n h : scans e n (lagging h).
Proof.
  apply keeps_get. intros d _. cbn zeta. destruct (match walked (marks d) with Some _ => _ | None => _ end); [|apply keeps_ret].
  destruct (number h <? _)%N; [|apply keeps_ret]. destruct (last _) as [seen|]; [|apply keeps_ret].
  destruct (number seen =? number h)%N; [apply keeps_ret|].
  apply keeps_bind; [apply header_scans|]. intros r. apply keeps_ret.
Qed.

Lemma scan_from_scans e n h : scans e n (scan_from h).
Proof.
  apply keeps_get. intros d _. cbn zeta. destruct (walked (marks d)) as [w|].
  - apply keeps_bind.
    + destruct (_ || _); [apply keeps_ret|]. apply keeps_bind; [apply header_scans|]. intros r. apply keeps_ret.
    + intros []; [apply keeps_ret|]. apply keeps_bind; [|intros; apply keeps_ret].
      apply keeps_modify. intros d' (H1 & H2 & H3). split_and!; try done. simpl. by destruct (marks d').
  - destruct (cursor (engine d)); [|apply keeps_ret]. case_bool_decide; apply keeps_ret.
Qed.

Lemma read_window_scans e n c lo hi : scans e n (read_window c lo hi).
Proof.
  apply keeps_bind; [by apply keeps_modify|]. intros _. apply keeps_bind.
  { intros d (H1 & H2 & H3). unfold on_scratch, sm_zoom.
    pose proof (events_return Hsrc lo hi (source d, scratch d)) as Hr.
    destruct (events_in lo hi (source d, scratch d)) as [p [r|]]; [|done].
    by exists (put_scratch p.2 (put_source p.1 d)), r. }
  intros _. apply keeps_get. intros d1 _. destruct (existsb _ _); [apply keeps_ret|].
  destruct c as [c|]; [|apply keeps_ret]. destruct (lo =? block c)%N; [|apply keeps_ret].
  apply keeps_get. intros d (_ & _ & Hb). cbn zeta. destruct (existsb _ _); [apply keeps_ret|].
  apply keeps_bind; [apply keeps_modify|intros _; apply keeps_bind; [by apply keeps_modify|intros _; apply keeps_ret]].
  intros d' (H1 & H2 & H3). split; [done|]. split; [done|by apply set_boundary_wf].
Qed.

Lemma walk_scans e n fuel c width hi lo : scans e n (walk fuel c width hi lo).
Proof.
  revert lo. induction fuel as [|fuel IH]; intros lo; cbn [walk]; [apply keeps_ret|].
  destruct (lo <=? hi)%N; [|apply keeps_ret]. cbn zeta. apply keeps_bind; [apply read_window_scans|].
  intros [|]; cbn [negb]; [|apply keeps_ret]. apply keeps_get. intros d _. case_bool_decide.
  - destruct (u64_checked_add _ 1); [apply IH|apply keeps_ret].
  - apply keeps_bind; [|intros _; apply keeps_ret]. apply keeps_modify. intros d' (H1 & H2 & H3).
    split; [done|]. split; [done|by apply group_into_spans].
Qed.

Lemma fill_boundary_scans e n h resumed : scans e n (fill_boundary h resumed).
Proof.
  apply keeps_get. intros d (_ & _ & Hb). destruct (cursor (engine d)) as [c|]; [|apply keeps_ret].
  destruct (boundary (batch d)); [apply keeps_ret|]. apply keeps_bind.
  - destruct resumed; [apply keeps_ret|]. destruct (number h =? block c)%N; [apply keeps_ret|apply header_scans].
  - intros bd. apply keeps_modify. intros d' (H1 & H2 & H3). split; [done|]. split; [done|by apply set_boundary_wf].
Qed.

Lemma scan_scans e n : scans e n scan.
Proof.
  apply keeps_bind.
  { apply keeps_modify. intros d (H1 & H2 & H3). split; [done|]. split; [done|apply batch_new_wf]. }
  intros _. apply keeps_bind; [apply on_source_scans, head_returns, Hsrc|]. intros h.
  apply keeps_bind; [apply lagging_scans|]. intros [|]; [apply keeps_ret|].
  apply keeps_get. intros d _. cbn zeta. apply keeps_bind; [apply scan_from_scans|]. intros [from resumed].
  apply keeps_get. intros d1 _. apply keeps_bind; [apply walk_scans|]. intros [|]; cbn [negb]; [|apply keeps_ret].
  apply keeps_bind; [apply fill_boundary_scans|]. intros _. apply keeps_get. intros d2 _.
  destruct (_ && _).
  - apply keeps_bind; [apply header_scans|]. intros a. apply keeps_bind; [apply header_scans|]. intros r. apply keeps_ret.
  - destruct (batch_is_empty _); [apply keeps_ret|]. apply keeps_bind; [apply header_scans|]. intros r. apply keeps_ret.
Qed.

(** ** Lemmas: recovery *)

Lemma bisect_safe (obs : list BlockRef) fuel lo hi d :
  lo ≤ hi → hi ≤ length obs →
  ∃ s' r, bisect obs fuel lo hi d = (put_source s' d, Returns r) ∧
    match r with Ok k => k ≤ hi | Err _ => True end.
Proof.
  revert lo hi d. induction fuel as [|fuel IH]; intros lo hi d Hlo Hhi; cbn [bisect].
  { exists (source d), (Ok lo). by destruct d. }
  destruct (lo <? hi) eqn:Hlt; nbool; [|exists (source d), (Ok lo); by destruct d]. cbn zeta.
  set (mid := lo + (hi - lo) / 2).
  assert (lo ≤ mid < hi) as Hmid.
  { unfold mid. pose proof (Nat.Div0.div_lt_upper_bound (hi - lo) 2 (hi - lo) ltac:(lia)). lia. }
  destruct (lookup_lt_is_Some_2 obs mid) as [o Ho]; [lia|].
  unfold sm_expect. unfold mbind at 1, sm_bind at 1. rewrite Ho. cbn beta iota.
  unfold mbind, sm_bind, on_source, sm_zoom. pose proof (header_returns Hsrc (number o) (source d)) as Hret.
  destruct (header_at (number o) (source d)) as [s1 [[h|err]|]]; [| |done].
  2: { by exists s1, (Err err). }
  destruct (IH (mid + 1) hi (put_source s1 d)) as (s2 & r2 & Hr2 & Hb2); [lia|lia|].
  destruct (IH lo mid (put_source s1 d)) as (s3 & r3 & Hr3 & Hb3); [lia|lia|].
  destruct h as [h|]; [case_bool_decide|].
  - by exists s2, r2.
  - exists s3, r3. split; [done|]. destruct r3; [lia|done].
  - exists s3, r3. split; [done|]. destruct r3; [lia|done].
Qed.

Lemma unchanged_facts (e e' : Engine F) :
  unchanged e e' → fold e' = fold e ∧ cursor e' = cursor e ∧ ring e' = ring e ∧ status e' = status e ∧
    checkpoints e' = checkpoints e ∧ (engine_wf e → engine_wf e').
Proof. intros [v ->]. split_and!; try done. by intros []. Qed.

Lemma resync_safe d e :
  engine_wf (engine d) → status (engine d) = Active →
  let (d', t) := resync_or_terminal d in
  engine_wf (engine d') ∧ span (marks d') = span (marks d) ∧ batch d' = batch d ∧ tick_effect e (initial d) t (engine d').
Proof.
  intros Hwf Hst. pose proof (resync_or_terminal_spec d) as Hspec.
  assert (batch (resync_or_terminal d).1 = batch d) as Hb.
  { unfold resync_or_terminal. destruct (horizon (source d)); [done|]. by destruct (_ <? _)%N. }
  destruct (resync_or_terminal d) as [d' t]. simpl in Hb.
  destruct Hspec as ([[-> He]|(h & _ & _ & -> & He)] & _ & _ & _ & _ & Hsp & _); rewrite He; split_and!; try done.
  - by apply reset_wf.
  - by destruct Hwf.
Qed.

Lemma roll_back_safe d n :
  engine_wf (engine d) → status (engine d) = Active →
  let (d', t) := roll_back_to n d in
  engine_wf (engine d') ∧ span (marks d') = span (marks d) ∧ batch d' = batch d ∧
    tick_effect (engine d) (initial d) t (engine d').
Proof.
  intros Hwf Hst. unfold roll_back_to. pose proof (rollback_wf (engine d) n Hwf) as Hwf'.
  unfold rollback_at_or_below in *. rewrite Hst in *.
  destruct (best_at_or_below _ _ _) as [sl|] eqn:Hbest.
  - apply best_at_or_below_held in Hbest as (Hin & _ & _). simpl. split_and!; try done.
    + by destruct (marks d).
    + pose proof (ewf_slots _ Hwf) as Hsl. rewrite Forall_forall in Hsl. by apply Hsl.
  - apply (resync_safe (put_engine (engine d) d)); done.
Qed.

Lemma recover_safe d e :
  engine_wf (engine d) → status (engine d) = Active → unchanged e (engine d) →
  ∃ d' t, runs_to recover_via_bisection d d' t ∧ engine_wf (engine d') ∧ span (marks d') = span (marks d) ∧
    batch d' = batch d ∧ tick_effect e (initial d) t (engine d').
Proof.
  intros Hwf Hst Hun. set (d0 := mark (set_vouched None) d).
  assert (span (marks d0) = span (marks d)) as Hsp by (simpl; by destruct (marks d)).
  set (obs := observed (engine d)).
  destruct (bisect_safe obs (length obs) 0 (length obs) d0) as (s' & r & Hr & Hk); [lia|done|].
  set (d1 := put_source s' d0) in *. change (marks d0) with (marks d1) in Hsp.
  unfold runs_to, recover_via_bisection. rewrite sm_modify_bind. fold d0. rewrite sm_get_bind. cbn zeta.
  change (observed (engine d0)) with obs.
  assert (runs_to (E := Empty_set) (sm_result (bisect obs (length obs) 0 (length obs))) d0 d1 r) as Hr'.
  { unfold runs_to, sm_result. by rewrite Hr. }
  rewrite (sm_bind_ok _ _ _ _ _ Hr'). destruct (unchanged_facts e (engine d) Hun) as (_ & Hc & _).
  destruct r as [[|i]|err].
  - pose proof (resync_safe d1 e Hwf Hst) as H1. unfold sm_step. destruct (resync_or_terminal d1) as [d' t].
    exists d', t. rewrite Hsp in H1. done.
  - destruct (lookup_lt_is_Some_2 obs i) as [o Ho]; [lia|]. unfold mbind, sm_bind, sm_expect, sm_step. rewrite Ho.
    pose proof (roll_back_safe d1 (number o) Hwf Hst) as H1. destruct (roll_back_to (number o) d1) as [d' t].
    exists d', t. rewrite Hsp in H1. destruct H1 as (H1 & H2 & H3 & H4). split_and!; try done.
    change (engine d1) with (engine d) in H4. destruct t; simpl in *; try done.
    + by rewrite <- Hc.
    + destruct (unchanged_facts e (engine d) Hun) as (Hf & _ & Hri & _). by rewrite Hf, Hc, Hri in H4.
    + by rewrite <- Hc.
    + destruct H4 as [v4 ->], Hun as [v ->]. by exists v4.
    + by rewrite <- Hc.
  - eexists _, SourceError. split; [reflexivity|]. split_and!; try done. simpl. by destruct (marks d).
Qed.

(** ** Lemmas: a tick *)

Lemma run_returns (f : F) c a s (l : list (Position * E)) f' c' a' s' (st : Stop X) :
  run f c a s l = (f', c', a', s', st) → ∀ p, st ≠ StopPanic p.
Proof.
  revert f c a s. induction l as [|[p ev] l IH]; intros f c a s; cbn [run]; [by intros [= _ _ _ _ <-]|].
  pose proof (Hfold f p ev) as Hret. destruct (fold_apply f p ev) as [f1 [[[]|[]]|]]; simpl in Hret;
    [by apply IH|by apply IH|by intros [= _ _ _ _ <-]|by intros [= _ _ _ _ <-]|done].
Qed.

(** The part of a tick after a scan. *)
Lemma apply_scanned_safe d h capped :
  driver_wf d → status (engine d) = Active →
  ∃ d' t, runs_to (apply_scanned h capped) d d' t ∧ engine_wf (engine d') ∧ span (marks d') = span (marks d) ∧
    batch_wf (batch d') ∧ tick_effect (engine d) (initial d) t (engine d').
Proof.
  intros [Hwf Hsp Hb] Hst.
  assert (∀ e' err, apply_batch (engine d) (batch d) = (e', Returns (Err err)) → engine_wf e' → unchanged (engine d) e' →
    (∃ o r, err = ForkSuspected o r) ∨ err = MissingBoundary ∨ (∃ n, err = CursorBlockUnobserved n) →
    ∃ d' t, runs_to (apply_scanned h capped) d d' t ∧ engine_wf (engine d') ∧ span (marks d') = span (marks d) ∧
      batch_wf (batch d') ∧ tick_effect (engine d) (initial d) t (engine d')) as Hrec.
  { intros e' err Happ Hwf' Hun Herr.
    set (d1 := put_engine e' (mark (set_walked None) (mark (set_consecutive_errors 0) d))).
    assert (span (marks d1) = span (marks d)) as Hsp1 by (simpl; by destruct (marks d)).
    destruct (unchanged_facts _ _ Hun) as (_ & _ & _ & Hst' & _).
    destruct (recover_safe d1 (engine d)) as (d' & t & Hr & H1 & H2 & H3 & H4); [done|by rewrite <- Hst, <- Hst'|done|].
    exists d', t. split_and!; [|done|by rewrite H2|by rewrite H3|done].
    unfold runs_to, apply_scanned. rewrite sm_modify_bind, sm_get_bind. cbn zeta. rewrite sm_modify_bind.
    unfold mbind at 1, sm_bind at 1, sm_result, sm_zoom. cbn [engine mark batch]. rewrite Happ. cbn beta iota.
    destruct Herr as [(o & r & ->)|[->|(n & ->)]]; exact Hr. }
  assert (∀ e' err t, apply_batch (engine d) (batch d) = (e', Returns (Err err)) → engine_wf e' →
    (t = SourceError ∧ ((∃ s, err = Shape s) ∨ ∃ x g, err = BoundaryNumberMismatch x g) ∨
     t = Terminal (status e') ∧ ((∃ p x, err = ApplyHalted p x) ∨ ∃ p x, err = ApplyPoisoned p x)) →
    tick_effect (engine d) (initial d) t e' →
    ∃ d' t, runs_to (apply_scanned h capped) d d' t ∧ engine_wf (engine d') ∧ span (marks d') = span (marks d) ∧
      batch_wf (batch d') ∧ tick_effect (engine d) (initial d) t (engine d')) as Hstop.
  { intros e' err t Happ Hwf' Ht Heff.
    set (d1 := put_engine e' (mark (set_walked None) (mark (set_consecutive_errors 0) d))).
    exists (if bool_decide (t = SourceError) then mark count_error d1 else d1), t. split.
    { unfold runs_to, apply_scanned. rewrite sm_modify_bind, sm_get_bind. cbn zeta. rewrite sm_modify_bind.
      unfold mbind at 1, sm_bind at 1, sm_result, sm_zoom. cbn [engine mark batch]. rewrite Happ. cbn beta iota.
      by destruct Ht as [[-> [[s ->]|(x & g & ->)]]|[-> [(p & x & ->)|(p & x & ->)]]]. }
    case_bool_decide; split_and!; try done; simpl; by destruct (marks d). }
  destruct (apply_batch_cases (engine d) (batch d) Hwf Hb)
    as [(err & Happ & Hwhy)|[(_ & _ & _ & sp & r & _ & _ & _ & _ & Happ)|(_ & Hok & Hbd & Hnf)]].
  - assert (unchanged (engine d) (engine d)) as Hun by (exists (last_verified (engine d)); by destruct (engine d)).
    destruct err; try done.
    + destruct Hwhy as [-> Hne]. congruence.
    + eapply (Hstop _ _ SourceError Happ); eauto.
    + eapply (Hrec _ _ Happ); auto.
    + eapply (Hstop _ _ SourceError Happ); eauto 10.
    + eapply (Hrec _ _ Happ); eauto.
  - eapply (Hrec _ _ Happ); [|by apply during_active_unchanged|eauto].
    by apply set_status_wf, during_wf.
  - destruct (run (fold (engine d)) (cursor (engine d)) 0 0 (fresh (cursor (engine d)) (batch_events (batch d))))
      as [[[[f' c'] a] s] st] eqn:Hrun.
    destruct st as [|p x|p x|p].
    + destruct (apply_scanned_spec d h capped f' c' a s) as
        (d' & t & Hr & P1 & P2 & P3 & P4 & P5 & _ & _ & P6 & P7 & P8 & P9 & P10 & P11 & P12 & P13 & P14); try done.
      destruct (run_done_above (X := X) (fold (engine d)) (cursor (engine d)) 0 0
        (fresh (cursor (engine d)) (batch_events (batch d))) f' c' a s) as [Hmono _]; [by apply fresh_sorted| |done|].
      { apply Forall_forall. by intros x [? _]%list_elem_of_filter. }
      exists d', t. split_and!; [done|done|done|by rewrite P9|].
      destruct P14 as [[-> _]|P14]; [simpl; by rewrite P3|].
      destruct (batch_is_empty (batch d)) eqn:Hemp; cbn [andb] in P14.
      2: { destruct P14 as [sm ->]. simpl. by rewrite P3. }
      case_bool_decide; [subst t|destruct P14 as [sm ->]; simpl; by rewrite P3].
      rewrite batch_is_empty_spans in Hemp by done. apply bool_decide_eq_true in Hemp.
      unfold batch_events in Hrun. rewrite Hemp in Hrun, P6. simpl in Hrun. injection Hrun as <- <- <- <-.
      simpl. done.
    + destruct (apply_batch_run _ _ _ _ _ _ _ Hwf Hst Hb Hok Hbd Hnf Hrun) as (e' & Happ & Hwf' & _ & Hst' & _).
      apply (Hstop _ _ (Terminal (status e')) Happ Hwf'); [right; eauto|]. simpl. by rewrite Hst'.
    + destruct (apply_batch_run _ _ _ _ _ _ _ Hwf Hst Hb Hok Hbd Hnf Hrun) as (e' & Happ & Hwf' & _ & Hst' & _).
      apply (Hstop _ _ (Terminal (status e')) Happ Hwf'); [right; eauto|]. simpl. by rewrite Hst'.
    + exfalso. by apply (run_returns _ _ _ _ _ _ _ _ _ _ Hrun p).
Qed.
Lemma poll_apply_safe d :
  driver_wf d →
  ∃ d' t, runs_to poll_apply d d' t ∧ engine_wf (engine d') ∧ span (marks d') = span (marks d) ∧
    batch_wf (batch d') ∧ tick_effect (engine d) (initial d) t (engine d').
Proof.
  intros Hd. set (d1 := mark (λ m, set_generation (u64_wrapping_add (generation m) 1) m) d).
  assert (span (marks d1) = span (marks d)) as Hsp1 by (unfold d1; simpl; by destruct (marks d)).
  unfold runs_to, poll_apply. rewrite sm_modify_bind, sm_get_bind. fold d1. change (engine d1) with (engine d).
  destruct (is_active (status (engine d))) eqn:Hact; cbn [negb].
  2: { exists d1, (Terminal (status (engine d))). split_and!; try done; try apply Hd.
       simpl. split; [done|]. intros Heq. by rewrite Heq in Hact. }
  apply is_active_true in Hact.
  destruct (scan_scans (engine d, initial d) (span (marks d)) d1) as (d2 & r & Hr & Heq & Hsp2 & Hb2).
  { split; [done|]. split; [exact Hsp1|apply Hd]. }
  injection Heq as He2 Hi2.
  assert (runs_to (E := Empty_set) (sm_result scan) d1 d2 r) as Hr' by (unfold runs_to, sm_result; by rewrite Hr).
  rewrite (sm_bind_ok _ _ _ _ _ Hr').
  assert (unchanged (engine d) (engine d2)) as Hun by (rewrite He2; exists (last_verified (engine d)); by destruct (engine d)).
  assert (driver_wf d2) as Hd2 by (split; [rewrite He2; apply Hd|rewrite Hsp2; apply Hd|done]).
  assert (∃ d' t, runs_to (E := Empty_set) ((sm_modify (λ d, mark count_error (put_batch (batch_clear (batch d)) d));; mret SourceError)) d2 d' t ∧
    engine_wf (engine d') ∧ span (marks d') = span (marks d) ∧ batch_wf (batch d') ∧
    tick_effect (engine d) (initial d) t (engine d')) as Hrefused.
  { eexists _, SourceError. split; [reflexivity|]. split_and!; try done; try apply Hd2.
    simpl. rewrite <- Hsp2. by destruct (marks d2). }
  assert (∀ h c, ∃ d' t, runs_to (apply_scanned h c) d2 d' t ∧
    engine_wf (engine d') ∧ span (marks d') = span (marks d) ∧ batch_wf (batch d') ∧
    tick_effect (engine d) (initial d) t (engine d')) as Happly.
  { intros h c. destruct (apply_scanned_safe d2 h c Hd2) as (d' & t & H); [by rewrite He2|].
    exists d', t. rewrite Hsp2, He2, Hi2 in H. exact H. }
  destruct r as [[h|anchor h| |]|err]; [by apply Happly|by apply Happly| |exact Hrefused|exact Hrefused].
  eexists _, Idle. split; [reflexivity|]. split_and!; simpl; try apply Hd2; try done; try (by rewrite He2).
  rewrite <- Hsp2. by destruct (marks d2).
Qed.

(** One step, which is what [tick] makes. *)
Lemma step_safe d :
  driver_wf d →
  ∃ d' t, runs_to step d d' t ∧ driver_wf d' ∧ tick_effect (engine d) (initial d) t (engine d').
Proof.
  intros Hd. destruct (step_enter_marks d) as (He & _ & _ & Hsp & _).
  assert (initial (step_enter d) = initial d ∧ batch (step_enter d) = batch d) as [Hi Hb].
  { unfold step_enter, clamp_marks. cbn zeta. by destruct (negb (_ =? _)%N). }
  destruct (poll_apply_safe (step_enter d)) as (d1 & t & Hr & H1 & H2 & H3 & H4).
  { split; [rewrite He|rewrite Hsp|rewrite Hb]; apply Hd. }
  exists (step_leave t d1), t. split.
  { unfold runs_to, step. rewrite sm_modify_bind, (sm_bind_ok _ _ _ _ _ Hr). done. }
  rewrite He, Hi in H4. split; [|exact H4]. split; [exact H1| |exact H3].
  assert (span (marks (step_leave t d1)) = if bool_decide (t = SourceError) then N.max (span (marks d1) / 2) 1
    else N.min (u64_saturating_mul (span (marks d1)) 2) MAX_SPAN) as ->.
  { unfold step_leave, mark. cbn zeta. simpl. by destruct (marks d1). }
  rewrite H2, Hsp. pose proof (dw_span d Hd) as Hbounds. case_bool_decide; [|by apply next_span_bounds].
  unfold MAX_SPAN in *. pose proof (N.Div0.div_le_upper_bound (span (marks d)) 2 64). lia.
Qed.

(** ** Properties *)

(** C22. Every tick is safe: with a source and a fold that return, whatever they return, a tick returns,
    its only defences against misuse ([unreachable!], the indexing in the bisection) never fire,
    and it keeps the engine's invariant and the bounds of the window budget. Its outcome tells what
    happened to the engine: [Idle] folded nothing, [SourceError] left everything but the freshness
    mark as it was, [Progressed] never moves the cursor back, a rollback lands on a checkpoint at or
    below the cursor, a resync starts over, and [Terminal] names the engine's status. *)
Theorem tick_safe d :
  driver_wf d →
  ∃ d' t, runs_to tick d d' t ∧ driver_wf d' ∧ tick_effect (engine d) (initial d) t (engine d').
Proof. apply step_safe. Qed.

End safety.
(** ** Example: a source that fails *)

Definition failing_source : Source () N () := {|
  source_head := sm_fail ();
  header_at _ := sm_fail ();
  events_in _ _ := sm_fail ();
  horizon _ := FromBlock 7;
  window _ := 0%N;
|}.

Lemma tick_safe_witness :
  ∃ d', runs_to (@tick _ _ () () () NoSink EngineSpec.recorder failing_source _) ex_driver d' SourceError ∧
    unchanged (engine ex_driver) (engine d').
Proof.
  destruct (@tick_safe _ _ () () () NoSink EngineSpec.recorder failing_source _) with (d := ex_driver)
    as (d' & t & H1 & _ & H2).
  - split; done.
  - intros f p ev. unfold fold_apply, recorder. by repeat case_match.
  - split; [eapply engine_new_wf, ex_start_new|vm_compute; split; discriminate|apply batch_new_wf].
  - exists d'. assert (t = SourceError) as ->.
    { assert (∃ d0, runs_to (@tick _ _ () () () NoSink EngineSpec.recorder failing_source _) ex_driver d0 SourceError) as [d0 H0].
      { eexists. reflexivity. }
      unfold runs_to in *. rewrite H1 in H0. by injection H0. }
    split; [exact H1|exact H2].
Defined.
