(* ===== verification/Lineage.v ===== *)
(** The states an engine under a driver can still return to: the folds of its live checkpoints and
    the current one. A tick that keeps the driver serving only drops some of them and adds states
    further along, so what holds of the durable point is final. *)
From S2P Require Import Prelude Position Batch Ring Checkpoint ChainError Engine EngineSpec Driver DriverSpec DriverSafety.

(** ** Specification *)

(** The folds a rollback can restore, the oldest first, and the current one. *)
Definition line {F} (e : Engine F) : list F := (slot_fold <$> oldest_first (checkpoints e) (ring e)) ++ [fold e].

(** The ticks after which a driver goes on with the state it has. *)
Definition serving (t : Tick) : Prop := match t with Resynced | Terminal _ => False | _ => True end.

(** ** Lemmas: lists *)

Lemma StronglySorted_sublist {A} (R : A → A → Prop) (l k : list A) :
  l `sublist_of` k → StronglySorted R k → StronglySorted R l.
Proof.
  induction 1 as [|x l k Hsub IH|x l k Hsub IH]; intros Hk; [done|inversion_clear Hk..]; [|auto].
  constructor; [auto|]. rewrite Forall_forall in *. intros y Hy. apply H0. by eapply sublist_subseteq.
Qed.

Lemma filter_sublist_mono {A} (P Q : A → Prop) `{∀ x, Decision (P x), ∀ x, Decision (Q x)} (l : list A) :
  (∀ x, x ∈ l → P x → Q x) → filter P l `sublist_of` filter Q l.
Proof.
  induction l as [|x l IH]; intros HPQ; [done|]. rewrite !filter_cons.
  assert (filter P l `sublist_of` filter Q l) by (apply IH; intros y Hy; apply HPQ; by right).
  repeat case_decide; [by apply sublist_skip|exfalso; naive_solver set_solver|by apply sublist_cons|done].
Qed.

Section lineage.
Context {F E X St SE K : Type} `{!Fold F E X} `{!Source St E SE} `{!SnapshotSink K F}.
Context (R : F → F → Prop) `{!PreOrder R} (HR : ∀ (f : F) p (ev : E), R f (fold_apply f p ev).1).
Implicit Types (e : Engine F) (d : Driver F E St K).

(** A move that keeps the line sorted and adds nothing below it. *)
Definition onward e e' : Prop :=
  (StronglySorted R (line e) → StronglySorted R (line e')) ∧ ∀ g, g ∈ line e' → ∃ f, f ∈ line e ∧ R f g.

(** ** Lemmas: moves *)

#[export] Instance onward_preorder : PreOrder onward.
Proof.
  split.
  - intros e. split; [done|]. intros g Hg. by exists g.
  - intros e1 e2 e3 [S1 E1] [S2 E2]. split; [auto|]. intros h (g & (f & Hf & Hfg)%E1 & Hgh)%E2.
    exists f. split; [done|]. by trans g.
Qed.

Lemma onward_line e e' : line e' = line e → onward e e'.
Proof. intros Heq. split; rewrite Heq; [done|]. intros g Hg. by exists g. Qed.

(** States up to some member of the line, then states further along than it. *)
Lemma onward_move e e' ps g qs xs k g' :
  line e = ps ++ g :: qs → xs `sublist_of` ps ++ [g] → R g g' → line e' = xs ++ replicate (S k) g' → onward e e'.
Proof.
  intros He Hxs Hg He'. rewrite (cons_middle g ps qs), app_assoc in He.
  assert (∀ x, x ∈ xs → x ∈ ps ++ [g]) as Hin by (intros x; by apply sublist_subseteq).
  split; rewrite He, He'.
  - intros (_ & Hs & _)%StronglySorted_app. apply StronglySorted_app. split_and!.
    + intros x y Hx%Hin ->%elem_of_replicate_inv. apply StronglySorted_app in Hs as (Hs & _ & _).
      apply elem_of_app in Hx as [Hx| ->%list_elem_of_singleton]; [|done]. trans g; [|done]. apply Hs; [done|left].
    + by eapply StronglySorted_sublist.
    + generalize (S k). intros n. induction n; constructor; [done|]. by apply Forall_replicate.
  - intros y [Hy%Hin| ->%elem_of_replicate_inv]%elem_of_app.
    + exists y. split; [|done]. rewrite elem_of_app. by left.
    + exists g. split; [|done]. set_solver.
Qed.

(** A run of events only climbs. *)
Lemma run_climbs (f : F) c a s (l : list (Position * E)) f' c' a' s' (st : Stop X) :
  run f c a s l = (f', c', a', s', st) → R f f'.
Proof.
  revert f c a s. induction l as [|[p ev] l IH]; intros f c a s; cbn [run]; [by intros [= <- _ _ _ _]|].
  pose proof (HR f p ev) as Hstep. destruct (fold_apply f p ev) as [f1 [[[]|[]]|]]; simpl in Hstep;
    intros Hr; simplify_eq; try done; (trans f1; [done|by eapply IH]).
Qed.

(** New blocks do not bring a slot back to life. *)
Lemma live_grown e r s bs :
  engine_wf e → ring_wf r → s ∈ held (checkpoints e) →
  ring_list r = foldl (push_list (capacity (ring e))) (ring_list (ring e)) bs →
  Forall (λ b, above (cursor e) (number b) = true) bs → live r s = true → live (ring e) s = true.
Proof.
  intros Hwf Hr Hs Hring Hbs. unfold live. pose proof (ewf_slots e Hwf) as Hle. rewrite Forall_forall in Hle. rewrite Forall_forall in Hbs.
  specialize (Hle _ Hs). destruct (slot_cursor s) as [c|]; [|done].
  rewrite !observes_spec by (done || apply Hwf). rewrite !list_elem_of_fmap. intros (b & Hn & Hb).
  exists b. split; [done|]. rewrite Hring in Hb. apply foldl_push_list_elem in Hb as [Hb|Hb]; [done|exfalso].
  apply Hbs in Hb. unfold above in Hb. destruct (cursor e) as [p|]; [|done].
  apply opos_le_block in Hle. nbool. lia.
Qed.

Lemma apply_onward e b e' r :
  engine_wf e → batch_wf b → apply_batch e b = (e', Returns r) →
  match r with Err (ApplyHalted _ _) | Err (ApplyPoisoned _ _) => False | _ => True end → onward e e'.
Proof.
  intros Hwf Hb Happ Hr. destruct (apply_batch_cases e b Hwf Hb)
    as [(err & Heq & _)|[(_ & _ & _ & sp & h & _ & _ & _ & _ & Heq)|(Hst & Hok & Hbd & Hnf)]].
  - rewrite Heq in Happ. by injection Happ as <- _.
  - rewrite Heq in Happ. injection Happ as <- _. apply onward_line. unfold line.
    cbn [set_status fold ring checkpoints]. by destruct (during_frame e b) as (-> & _ & -> & -> & _).
  - destruct (run (fold e) (cursor e) 0 0 (fresh (cursor e) (batch_events b))) as [[[[f' c'] a] s] st] eqn:Hrun.
    destruct (apply_batch_run _ _ _ _ _ _ _ Hwf Hst Hb Hok Hbd Hnf Hrun)
      as (e1 & Heq & Hwf1 & Hf & _ & Hcp & _ & _ & _ & Hring).
    rewrite Heq in Happ. injection Happ as <- Hout. destruct st as [| | |]; simpl in Hout; simplify_eq; [|done..].
    specialize (Hring eq_refl). eapply (onward_move e e1 _ (fold e) [] _ 0 (fold e1)); [done| |by eapply run_climbs|done].
    rewrite Hcp, !oldest_first_held. apply sublist_inserts_r, fmap_sublist, filter_sublist_mono.
    intros s1 Hs1. eapply live_grown; [done|apply Hwf1|done|exact Hring|].
    unfold new_blocks. apply Forall_fmap, Forall_forall. intros sp [Hsp _]%list_elem_of_filter. exact Hsp.
Qed.

Lemma checkpoint_onward e : engine_wf e → onward e (checkpoint e).
Proof.
  intros Hwf. unfold checkpoint. destruct (is_active (status e)); [|done]. simpl.
  destruct (decide (slots (checkpoints e) = [])) as [Hnil|Hne].
  { apply onward_line. unfold line, store. by rewrite Hnil. }
  set (s := MkSlot (fold e) (cursor e)). set (P := λ x : Slot F, live (ring e) x = true).
  assert (∃ k, line (set_checkpoints (store (checkpoints e) s) e) =
    (slot_fold <$> filter P (if length (held (checkpoints e)) <? length (slots (checkpoints e))
                             then held (checkpoints e) else drop 1 (held (checkpoints e)))) ++ replicate (S k) (fold e)) as [k Hk].
  { unfold line. simpl. rewrite oldest_first_held, store_held by (done || apply Hwf). unfold push_list.
    rewrite filter_app, fmap_app, <- app_assoc. exists (if decide (P s) then 1 else 0). f_equal.
    rewrite filter_cons, filter_nil. case_decide; simpl; [by rewrite decide_True|by rewrite decide_False]. }
  eapply (onward_move e _ _ (fold e) [] _ k (fold e)); [done| |done|exact Hk].
  rewrite oldest_first_held. apply sublist_inserts_r, fmap_sublist. case_match; [done|].
  rewrite <- (take_drop 1 (held _)) at 2. rewrite filter_app. by apply sublist_inserts_l.
Qed.

Lemma rollback_onward e n : engine_wf e → onward e (rollback_at_or_below e n).1.
Proof.
  intros Hwf. unfold rollback_at_or_below.
  destruct (best_at_or_below (checkpoints e) n (ring e)) as [s|] eqn:Hbest; [|by destruct (status e)].
  pose proof (best_at_or_below_held _ _ _ _ Hbest) as (Hin & Hlive & _).
  apply best_at_or_below_Some in Hbest as (l1 & l2 & Hl & Hs & Hl2).
  destruct (rollback_slot_wf e s Hwf Hin Hlive) as [Hwf' Hring].
  set (r := match slot_cursor s with Some c => _ | None => _ end) in *.
  assert (onward e (MkEngine (slot_fold s) (slot_cursor s) r (drop_newer (checkpoints e) (slot_cursor s))
    Active None (skips e) (resets e))) as H; [|by destruct (status e)].
  destruct (drop_newer_spec (checkpoints e) (slot_cursor s)) as (_ & Hd & _); [apply Hwf|].
  set (nn := λ x : Slot F, not_newer (slot_cursor s) x = true).
  eapply (onward_move e _ (slot_fold <$> l1) (slot_fold s) ((slot_fold <$> l2) ++ [fold e]) _ 0 (slot_fold s)); [| |done|done].
  { unfold line. by rewrite Hl, fmap_app, fmap_cons, <- app_assoc. }
  simpl. rewrite oldest_first_held, Hd. change [slot_fold s] with (slot_fold <$> [s]). rewrite <- fmap_app. apply fmap_sublist.
  trans (filter nn (oldest_first (checkpoints e) (ring e))).
  - rewrite oldest_first_held, !list_filter_filter. apply filter_sublist_mono. intros x Hx [Hlx Hnx]. split; [done|].
    revert Hlx. unfold live. destruct (slot_cursor x) as [c|]; [|done].
    rewrite !observes_spec by apply Hwf || apply (ewf_ring _ Hwf'). rewrite Hring, !list_elem_of_fmap.
    intros (b & ? & Hb). exists b. split; [done|].
    destruct (slot_cursor s); [by apply list_elem_of_filter in Hb as [_ Hb]|by apply elem_of_nil in Hb].
  - rewrite Hl, (cons_middle s l1 l2), app_assoc, filter_app, (filter_none _ l2), app_nil_r; [apply sublist_filter|].
    eapply Forall_impl; [exact Hl2|]. intros x Hx. unfold nn, not_newer. apply not_true_iff_false, negb_false_iff.
    unfold slot_at_or_below in *. destruct (slot_cursor x) as [p|]; [|done]. destruct (slot_cursor s) as [c|]; [|done].
    nbool. apply pos_ltb_spec. lia.
Qed.

(** ** Lemmas: a tick *)

Lemma auto_checkpoint_onward d :
  engine_wf (engine d) → onward (engine d) (engine (auto_checkpoint d)).
Proof.
  intros Hwf. unfold auto_checkpoint, run_checkpoint.
  repeat case_match; try done; simpl; by apply checkpoint_onward.
Qed.

Lemma offer_snapshot_engine d : engine (offer_snapshot d).1 = engine d.
Proof. unfold offer_snapshot. repeat case_match; done. Qed.

Context (Hsrc : @source_returns E St SE _).

Lemma roll_back_onward n d d' t :
  engine_wf (engine d) → roll_back_to n d = (d', t) → serving t → onward (engine d) (engine d').
Proof.
  intros Hwf. unfold roll_back_to. pose proof (rollback_onward (engine d) n Hwf) as Hon.
  destruct (rollback_at_or_below (engine d) n) as [e [to|[m|cause]]]; simpl in Hon.
  - intros [= <- <-] _. exact Hon.
  - unfold resync_or_terminal, resync. intros Heq Ht. repeat case_match; injection Heq as _ <-; done.
  - by intros [= _ <-].
Qed.

Lemma recover_onward d d' t :
  engine_wf (engine d) → runs_to recover_via_bisection d d' t → serving t → onward (engine d) (engine d').
Proof.
  intros Hwf Hr Ht. unfold runs_to, recover_via_bisection in Hr. rewrite sm_modify_bind, sm_get_bind in Hr. cbn zeta in Hr.
  set (d0 := mark (set_vouched None) d) in *. set (obs := observed (engine d0)) in *.
  destruct (bisect_safe Hsrc obs (length obs) 0 (length obs) d0) as (s & r & Hb & Hk); [lia|done|].
  unfold mbind at 1, sm_bind at 1, sm_result in Hr. rewrite Hb in Hr. destruct r as [[|i]|err].
  - unfold sm_step, resync_or_terminal, resync in Hr. exfalso. repeat case_match; simplify_eq; done.
  - destruct (lookup_lt_is_Some_2 obs i) as [o Ho]; [lia|]. unfold mbind, sm_bind, sm_expect, sm_step in Hr.
    rewrite Ho in Hr. destruct (roll_back_to (number o) (put_source s d0)) as [d1 t1] eqn:Hrb. injection Hr as <- <-.
    exact (roll_back_onward _ (put_source s d0) _ _ Hwf Hrb Ht).
  - injection Hr as <- <-. done.
Qed.

Lemma apply_scanned_onward h capped d d' t :
  engine_wf (engine d) → batch_wf (batch d) → runs_to (apply_scanned h capped) d d' t → serving t →
  onward (engine d) (engine d').
Proof.
  intros Hwf Hb Hr Ht. unfold runs_to, apply_scanned in Hr. rewrite sm_modify_bind, sm_get_bind in Hr. cbn zeta in Hr.
  rewrite sm_modify_bind in Hr. unfold mbind at 1, sm_bind at 1, sm_result at 1, sm_zoom at 1 in Hr.
  cbn [engine mark batch] in Hr. pose proof (apply_batch_inv (engine d) (batch d) Hwf Hb) as (Hwf' & _).
  destruct (apply_batch (engine d) (batch d)) as [e [r|]] eqn:Happ; [|done]. simpl in Hwf'.
  pose proof (apply_onward _ _ _ _ Hwf Hb Happ) as Hon.
  set (d1 := put_engine e _) in Hr. assert (engine d1 = e) as He by done. clearbody d1.
  destruct r as [sm|err].
  - specialize (Hon I). rewrite !sm_modify_bind in Hr. unfold mbind, sm_bind, sm_step in Hr. trans e; [done|]. subst e.
    set (d2 := mark _ d1) in Hr. change (engine d1) with (engine d2) in *. pose proof (auto_checkpoint_onward d2 Hwf') as Hc.
    pose proof (offer_snapshot_engine (auto_checkpoint d2)) as Ho. clearbody d2.
    destruct (offer_snapshot (auto_checkpoint d2)) as [d3 lost]. simpl in Ho. injection Hr as <- _. by rewrite Ho.
  - assert (∀ d', runs_to recover_via_bisection d1 d' t → onward e (engine d')) as Hrec.
    { intros d2 H2. rewrite <- He. apply (recover_onward _ _ t); [by rewrite He|done|done]. }
    destruct err; try (by trans e; [exact (Hon I)|apply Hrec]); try (injection Hr as <- <-; simpl in Ht; done);
      injection Hr as <- <-; rewrite <- He in Hon; exact (Hon I).
Qed.

Lemma tick_onward d d' t :
  driver_wf d → runs_to tick d d' t → serving t → onward (engine d) (engine d').
Proof.
  intros [Hwf Hsp Hb] Hr Ht. unfold runs_to, tick, step in Hr. rewrite sm_modify_bind in Hr.
  destruct (step_enter_marks d) as (He & _).
  assert (batch (step_enter d) = batch d) as Hbt.
  { unfold step_enter, clamp_marks. cbn zeta. by destruct (negb (_ =? _)%N). }
  rewrite <- He in Hwf |- *. rewrite <- Hbt in Hb. set (d0 := step_enter d) in *. clearbody d0.
  unfold mbind at 1, sm_bind at 1 in Hr. destruct (poll_apply d0) as [d1 [[t1|[]]|]] eqn:Hpoll; [|done].
  rewrite sm_modify_bind in Hr. injection Hr as <- <-. change (engine (step_leave t1 d1)) with (engine d1).
  unfold poll_apply in Hpoll. rewrite sm_modify_bind, sm_get_bind in Hpoll.
  set (d2 := mark _ d0) in Hpoll. change (engine d0) with (engine d2) in *. change (batch d0) with (batch d2) in Hb.
  clearbody d2. destruct (is_active (status (engine d2))); cbn [negb] in Hpoll; [|by injection Hpoll as <- <-].
  destruct (scan_scans Hsrc (engine d2, initial d2) (span (marks d2)) d2) as (d3 & r & Hs & He3 & _ & Hb3); [done|].
  injection He3 as He3 _. unfold mbind at 1, sm_bind at 1, sm_result at 1 in Hpoll. rewrite Hs in Hpoll.
  rewrite <- He3 in Hwf |- *.
  destruct r as [[h|a h| |]|err]; try (injection Hpoll as <- <-; done); eapply apply_scanned_onward; done.
Qed.

(** Ticks that all keep the driver serving. *)
Lemma ticks_onward n d d' ts :
  @fold_returns F E X _ → driver_wf d → runs_to (ticks n) d d' ts → Forall serving ts →
  driver_wf d' ∧ onward (engine d) (engine d').
Proof.
  intros Hfold. revert d ts. induction n as [|n IH]; intros d ts Hd Hr Hts; [by injection Hr as <- <-|].
  unfold runs_to in Hr. cbn [ticks] in Hr. unfold mbind at 1, sm_bind at 1 in Hr.
  destruct (step_safe Hsrc Hfold d Hd) as (d1 & t & Ht & Hd1 & _). unfold tick in Hr.
  rewrite Ht in Hr. unfold mbind, sm_bind in Hr. destruct (ticks n d1) as [d2 [[ts'|[]]|]] eqn:Hn; [|done]. injection Hr as <- <-.
  apply Forall_cons in Hts as [Hs Hts]. destruct (IH _ _ Hd1 Hn Hts) as [Hd2 Hon]. split; [done|].
  trans (engine d1); [|done]. by eapply tick_onward.
Qed.

(** A new driver has one state, its initial fold. *)
Lemma build_line (f : F) (s : St) (k : K) ec dc d :
  build f s k ec dc = Ok d → driver_wf d ∧ line (engine d) = [f].
Proof.
  unfold build. destruct (engine_new f ec) as [e|err] eqn:He; [|done]. pose proof (engine_new_wf _ _ _ He) as Hwf.
  unfold engine_new in He. destruct (config_validate ec); [|done]. injection He as <-. unfold around. cbn [cursor].
  destruct (match horizon s with Genesis => _ | FromBlock _ => _ end); [done|]. cbn [result_bind]. cbv zeta.
  set (e := MkEngine f None _ _ _ _ _ _) in *. intros Hd.
  assert (line e = [f]) as Hline.
  { unfold line, oldest_first, e. cbn [checkpoints cp_new slots cp_next ring fold].
    by rewrite drop_0, take_0, app_nil_r, omap_id_None. }
  assert (∀ k' : K, driver_wf (MkDriver e s k' dc (@batch_new E) [] f
    (MkMarks 0 false 0 None None (resets e) false false MAX_SPAN None None None))) as Hwf'.
  { intros k'. split; [done|vm_compute; split; discriminate|apply batch_new_wf]. }
  injection Hd as <-. unfold auto_checkpoint. case_match; repeat case_match; by split.
Qed.

(** ** Properties *)

(** C23. The durable point is final. In any order of states that events only climb, whatever the source
    answers, reorganisations included: as long as no tick resyncs the driver or stops it, every
    state it has, or can roll back to, after a moment is at or above the state that was durable at
    that moment. *)
Theorem durable_point_final (f0 : F) (s : St) (k : K) ec dc d0 n1 d1 ts1 n2 d2 ts2 f g :
  @fold_returns F E X _ → build f0 s k ec dc = Ok d0 →
  runs_to (ticks n1) d0 d1 ts1 → Forall serving ts1 → durable_fold (engine d1) = Some f →
  runs_to (ticks n2) d1 d2 ts2 → Forall serving ts2 → g ∈ line (engine d2) → R f g.
Proof.
  intros Hfold Hb H1 Hs1 Hf H2 Hs2 Hg. destruct (build_line _ _ _ _ _ _ Hb) as [Hwf0 Hl0].
  destruct (ticks_onward _ _ _ _ Hfold Hwf0 H1 Hs1) as [Hwf1 [Hsort _]].
  destruct (ticks_onward _ _ _ _ Hfold Hwf1 H2 Hs2) as [_ [_ Hon]].
  destruct (Hon g Hg) as (x & Hx & Hxg). trans x; [|done]. rewrite Hl0 in Hsort.
  specialize (Hsort ltac:(repeat constructor)). revert Hsort Hx. unfold durable_fold, oldest, line in *.
  destruct (oldest_first (checkpoints (engine d1)) (ring (engine d1))) as [|sl l]; [done|]. simpl in Hf. injection Hf as <-.
  cbn [fmap list_fmap app]. intros Hsort%StronglySorted_inv [->|Hx]%elem_of_cons; [done|].
  destruct Hsort as [_ Hall]. rewrite Forall_forall in Hall. by apply Hall.
Qed.

End lineage.

(** ** Witness: the recording fold over the chain of [DriverSpec] *)

Lemma recorder_climbs (f : list (Position * N)) p ev : f `prefix_of` (@fold_apply _ _ _ EngineSpec.recorder f p ev).1.
Proof. unfold fold_apply, EngineSpec.recorder. repeat case_match; simpl; by try apply prefix_app_r. Qed.

Definition ex_run (n : nat) : SM (Driver (list (Position * N)) N () NoSink) Empty_set (list Tick) :=
  @ticks _ _ () () () NoSink EngineSpec.recorder (chain_source ex_chain) _ n.
Definition ex_one : Driver (list (Position * N)) N () NoSink := (ex_run 1 ex_driver).1.
Definition ex_more : Driver (list (Position * N)) N () NoSink := (ex_run 4 ex_one).1.

Lemma durable_point_final_witness :
  durable_fold (engine ex_one) = Some [(MkPosition 3 0, 7)]%N ∧ [(MkPosition 3 0, 7)]%N `prefix_of` fold (engine ex_more).
Proof.
  assert (durable_fold (engine ex_one) = Some [(MkPosition 3 0, 7)]%N) as Hd by (vm_compute; reflexivity).
  split; [exact Hd|].
  eapply (@durable_point_final _ N () () () NoSink EngineSpec.recorder (chain_source ex_chain) _ prefix _ recorder_climbs
    ltac:(by split) [] () () (MkEngineConfig 4 2) (from_block 1) ex_driver 1 ex_one _ 4 ex_more _ _ _).
  - intros f p ev. unfold fold_apply, recorder. by repeat case_match.
  - reflexivity.
  - vm_compute. reflexivity.
  - by repeat constructor.
  - exact Hd.
  - vm_compute. reflexivity.
  - by repeat constructor.
  - unfold line. rewrite elem_of_app. right. by left.
Defined.
