(* ===== verification/Convergence.v ===== *)
(** * Convergence over reorganisations

    What the loop of [Driver] is for: whatever forks the source went through, a driver that catches up
    holds the fold of the one chain the source has now. [follows] is the invariant that carries this
    from one chain to the next: the fold and every checkpoint are replays of a prefix of the chain the
    driver last saw, and its marks are true of every chain they can be mistaken for. Hashes commit to
    ancestry ([commits]): that is what the engine compares hashes for, and it is a hypothesis here. *)
From S2P Require Import Prelude Position Batch Ring Checkpoint ChainError Engine EngineSpec Driver DriverSpec.

(** ** Chains *)

Section chains.
Context {E : Type}.
Implicit Types (c ch : Chain E) (start a n : N).

(** Two chains have the same blocks up to [a]. *)
Definition agree_to start a c1 c2 : Prop :=
  ∀ m, (start ≤ m ≤ a)%N → ch_hash c1 m = ch_hash c2 m ∧ ch_logs c1 m = ch_logs c2 m.

(** Equal hashes mean equal blocks below. *)
Definition commits start c1 c2 : Prop :=
  ∀ n, (start ≤ n ≤ ch_head c1)%N → (n ≤ ch_head c2)%N → ch_hash c1 n = ch_hash c2 n → agree_to start n c1 c2.

Lemma agree_le start a a' c1 c2 : agree_to start a c1 c2 → (a' ≤ a)%N → agree_to start a' c1 c2.
Proof. intros H Ha m Hm. apply H. lia. Qed.

Lemma agree_ref start a c1 c2 n : agree_to start a c1 c2 → (start ≤ n ≤ a)%N → chain_ref c1 n = chain_ref c2 n.
Proof. intros H Hn. unfold chain_ref. by destruct (H n Hn) as [-> _]. Qed.

Lemma agree_between start a c1 c2 : agree_to start a c1 c2 → between c1 start a = between c2 start a.
Proof.
  intros H. unfold between, blocks_from. f_equal. apply list_fmap_ext. intros i x [-> Hi]%lookup_seq.
  simpl. unfold block_entries. rewrite (agree_ref _ _ _ _ _ H) by lia. by destruct (H (start + N.of_nat i)%N ltac:(lia)) as [_ ->].
Qed.

(** A block on the one chain that the other still has. *)
Lemma commits_canonical start c1 c2 n :
  commits start c1 c2 → (start ≤ n ≤ ch_head c1)%N → canonical c2 (chain_ref c1 n) = true →
  (n ≤ ch_head c2)%N ∧ agree_to start n c1 c2.
Proof. intros Hc Hn Hcan. unfold canonical in Hcan. simpl in Hcan. nbool. auto. Qed.

Lemma agree_canonical start a c1 c2 n :
  agree_to start a c1 c2 → (start ≤ n ≤ a)%N → (n ≤ ch_head c2)%N → canonical c2 (chain_ref c1 n) = true.
Proof. intros H Hn Hh. rewrite (agree_ref _ _ _ _ _ H Hn). by apply canonical_chain_ref. Qed.

(** A history on the one chain splits into the part the other has too, and a part it has not. *)
Lemma history_split start c1 c2 (l : list BlockRef) :
  commits start c1 c2 → ascending (number <$> l) →
  Forall (λ r, r = chain_ref c1 (number r) ∧ (start ≤ number r ≤ ch_head c1)%N) l →
  ∃ good bad, l = good ++ bad ∧ Forall (λ o, canonical c2 o = true) good ∧ Forall (λ o, canonical c2 o = false) bad.
Proof.
  intros Hc Hasc Hl. induction Hl as [|r l [Hr Hn] Hl IH]; [by exists [], []|].
  rewrite fmap_cons in Hasc. apply StronglySorted_inv in Hasc as [Hasc Hlt].
  destruct (canonical c2 r) eqn:Hcan.
  { destruct (IH Hasc) as (good & bad & -> & Hg & Hb). exists (r :: good), bad. split_and!; try done. by constructor. }
  exists [], (r :: l). split_and!; [done|constructor|]. constructor; [done|].
  apply Forall_forall. intros o Ho. rewrite Forall_forall in Hl. destruct (Hl o Ho) as [Heq Hno].
  apply not_true_iff_false. intros Hcan'. rewrite Heq in Hcan'.
  apply (commits_canonical start) in Hcan' as [Hle Hag]; [|done..].
  rewrite Forall_forall in Hlt. pose proof (Hlt _ (list_elem_of_fmap_2 number _ _ Ho)).
  rewrite Hr, (agree_canonical start (number o) c1 c2) in Hcan by (done || lia). done.
Qed.

End chains.

(** ** The invariant *)

Section convergence.
Context {F E X St SE K : Type} `{!Fold F E X} `{!Source St E SE} `{!SnapshotSink K F}.
Implicit Types (d : Driver F E St K) (c ch : Chain E).

(** The fold [f] with cursor [p] is the initial fold after the chain's first events, those up to [p]. *)
Definition replayed ch (start : N) (f0 : F) (p : option Position) (f : F) : Prop :=
  let l := between ch start (ch_head ch) in
  ∃ pre a s, l = pre ++ above_cursor p l ∧ run f0 None 0 0 (positioned <$> pre) = (f, p, a, s, Done).

(** Up to block [n] the chain [c] has the driver's history, and nothing it has not folded. *)
Definition behind c (n : N) d : Prop :=
  (∀ r, last (ring_list (ring (engine d))) = Some r → canonical c r = true ∧ (number r ≤ n)%N) ∧
  ∀ x, x ∈ pending c d → (n < number (entry_block x))%N.

(** [C] is the set of chains the source may ever have. *)
Record follows (C : Chain E → Prop) ch d : Prop := {
  fo_synced : synced ch (λ _, True) d;
  fo_fold : replayed ch (start_block (config d)) (initial d) (cursor (engine d)) (fold (engine d));
  fo_slots : Forall (λ sl, replayed ch (start_block (config d)) (initial d) (slot_cursor sl) (slot_fold sl))
    (held (checkpoints (engine d)));
  fo_walked c w : C c → walked (marks d) = Some w → canonical c w = true → behind c (number w) d;
  fo_vouched c : C c → vouches c (marks d) = true →
    (∀ w, walked (marks d) = Some w → canonical c w = true) ∧
    ∀ p, cursor (engine d) = Some p → behind c (block p) d;
}.

(** The head of a chain is not below the block the driver's next scan starts at. *)
Definition in_reach ch d : Prop :=
  (∀ p, cursor (engine d) = Some p → (block p ≤ ch_head ch)%N) ∧
  ∀ w, walked (marks d) = Some w → (number w ≤ ch_head ch)%N.

(** A block of the history that the chain has replaced, at or below its head. *)
Definition exposed ch d : Prop :=
  ∃ r, r ∈ ring_list (ring (engine d)) ∧ (number r ≤ ch_head ch)%N ∧ canonical ch r = false.

(** A chain that ends below the cursor, with nothing in the history to tell it from one that lags. *)
Definition out_of_sight ch d : Prop :=
  (∃ p, cursor (engine d) = Some p ∧ (ch_head ch < block p)%N) ∧ ¬ exposed ch d.

#[export] Instance exposed_dec ch d : Decision (exposed ch d).
Proof.
  refine (cast_if (decide (Exists (λ r, (number r ≤ ch_head ch)%N ∧ canonical ch r = false) (ring_list (ring (engine d))))));
    unfold exposed; rewrite <- list.Exists_exists; done.
Defined.

Lemma in_sight ch d : walked (marks d) = None → ¬ out_of_sight ch d → in_reach ch d ∨ exposed ch d.
Proof.
  intros Hw Hsight. destruct (decide (exposed ch d)) as [|Hex]; [by right|left]. split; [|by rewrite Hw].
  intros p Hp. apply N.nlt_ge. intros Hlt. apply Hsight. split; [by exists p|done].
Qed.

(** ** Lemmas: replays *)

Lemma above_start (l : list (entry E)) : above_cursor None l = l.
Proof. apply above_all. done. Qed.

Lemma replayed_none ch start f0 f : replayed ch start f0 None f ↔ f = f0.
Proof.
  unfold replayed. rewrite above_start. split.
  - intros (pre & a & s & Hl & Hrun). apply (f_equal length) in Hl. rewrite length_app in Hl.
    destruct pre; [|simpl in Hl; lia]. simpl in Hrun. by injection Hrun as ->.
  - intros ->. by exists [], 0%N, 0%N.
Qed.

(** A replay up to a block that two chains share is a replay on both. *)
Lemma replayed_moves c1 c2 start f0 p f a :
  agree_to start a c1 c2 → (block p ≤ a)%N → (start ≤ a ≤ ch_head c1)%N → (a ≤ ch_head c2)%N →
  replayed c1 start f0 (Some p) f → replayed c2 start f0 (Some p) f.
Proof.
  intros Hag Hp Ha1 Ha2 (pre & n & s & Hl & Hrun). exists pre, n, s. split; [|exact Hrun].
  assert (∀ c, (a ≤ ch_head c)%N → above_cursor (Some p) (between c start (ch_head c)) =
    above_cursor (Some p) (between c start a) ++ between c (a + 1) (ch_head c)) as Hsplit.
  { intros c Hc. rewrite (between_split c start a), above_app by lia. f_equal. apply above_all.
    intros x q Hx [= <-]. apply between_elem in Hx as [Hx _]. lia. }
  rewrite (Hsplit c1), (between_split c1 start a), app_assoc in Hl by lia. apply app_inv_tail in Hl.
  rewrite (Hsplit c2), (between_split c2 start a), app_assoc by lia. f_equal.
  by rewrite <- (agree_between start a c1 c2).
Qed.

(** Folding some of the work left extends the replay. *)
Lemma replayed_extends ch start f0 p f p' f' l a s :
  above_cursor p (between ch start (ch_head ch)) = l ++ above_cursor p' (between ch start (ch_head ch)) →
  run f p 0 0 (positioned <$> l) = (f', p', a, s, Done) →
  replayed ch start f0 p f → replayed ch start f0 p' f'.
Proof.
  intros Hl Hrun (pre & a0 & s0 & Hpre & Hrun0).
  exists (pre ++ l), (a0 + a)%N, (s0 + s)%N. split; [by rewrite Hpre at 1; rewrite Hl, app_assoc|].
  rewrite fmap_app, run_app, Hrun0. apply (run_shift _ _ _ _ _ _ _ _ _ _ a0 s0) in Hrun. by rewrite !N.add_0_r in Hrun.
Qed.

(** What is left after a replay leads to the fold of the whole chain. *)
Lemma replayed_rest ch start f0 p f f' p' a s :
  replayed ch start f0 p f → run f0 None 0 0 (positioned <$> between ch start (ch_head ch)) = (f', p', a, s, Done) →
  ∃ a' s', run f p 0 0 (positioned <$> above_cursor p (between ch start (ch_head ch))) = (f', p', a', s', Done).
Proof.
  intros (pre & a0 & s0 & Hpre & Hrun0) Hrun. rewrite Hpre, fmap_app, run_app, Hrun0 in Hrun.
  destruct (run f p 0 0 _) as [[[[f1 p1] a1] s1] st] eqn:Hrest.
  apply (run_shift _ _ _ _ _ _ _ _ _ _ a0 s0) in Hrest. rewrite !N.add_0_r, Hrun in Hrest.
  injection Hrest as -> -> _ _ <-. by exists a1, s1.
Qed.

(** ** Lemmas: marks and chains *)

Lemma last_on_chain ch I d r :
  synced ch I d → last (ring_list (ring (engine d))) = Some r →
  r = chain_ref ch (number r) ∧ (start_block (config d) ≤ number r ≤ ch_head ch)%N.
Proof.
  intros Hs Hl. apply last_Some_elem_of in Hl. pose proof (sy_chain _ _ d Hs) as Hc. pose proof (sy_ring _ _ d Hs) as Hr.
  unfold on_chain in Hc. rewrite Forall_forall in Hc, Hr. destruct (Hc r Hl). specialize (Hr r Hl). done.
Qed.

Lemma cursor_last d p :
  engine_wf (engine d) → cursor (engine d) = Some p →
  ∃ r, last (ring_list (ring (engine d))) = Some r ∧ number r = block p.
Proof. intros Hwf Hp. destruct (cursor_block_observed _ p Hwf Hp) as [h Hl]. by eexists. Qed.

Lemma behind_moves c1 c2 I n d :
  synced c1 I d → agree_to (start_block (config d)) n c1 c2 → (start_block (config d) ≤ n)%N →
  (n ≤ ch_head c1)%N → (n ≤ ch_head c2)%N → behind c1 n d → behind c2 n d.
Proof.
  intros Hs Hag Hn H1 H2 [Hlast Hpend]. split.
  - intros r Hr. destruct (Hlast r Hr) as [_ Hle]. destruct (last_on_chain _ _ _ _ Hs Hr) as [-> Hlo].
    split; [|done]. eapply agree_canonical; [exact Hag|simpl in *; lia..].
  - intros x Hx. apply above_elem in Hx as [Hab Hx]. rewrite (between_split c2 _ n) in Hx by lia.
    apply elem_of_app in Hx as [Hx|Hx]; [|apply between_elem in Hx as [Hx _]; lia].
    rewrite <- (agree_between _ _ c1 c2 Hag) in Hx. apply Hpend, above_elem. split; [done|].
    rewrite (between_split c1 _ n) by lia. apply elem_of_app. by left.
Qed.

(** The truths a driver knows of the chain it is synced with. *)
Lemma synced_walked ch I d w :
  synced ch I d → walked (marks d) = Some w → canonical ch w = true → behind ch (number w) d.
Proof.
  intros Hs Hw Hcan. destruct (sy_walked _ _ d Hs w Hw) as (_ & Hcur & Hpend); [unfold resumes; by rewrite Hcan, orb_true_r|].
  split; [|done]. intros r Hr. destruct (last_on_chain _ _ _ _ Hs Hr) as [Heq Hlo].
  split; [rewrite Heq; apply canonical_chain_ref; lia|].
  pose proof (ewf_cursor _ (sy_wf _ _ d Hs)) as Hc. rewrite newest_number_list, Hr in Hc.
  destruct (cursor (engine d)) as [p|]; [|done]. injection Hc as ->. by apply Hcur.
Qed.

Lemma synced_vouched ch I d p :
  synced ch I d → vouches ch (marks d) = true → cursor (engine d) = Some p → behind ch (block p) d.
Proof.
  intros Hs Hv Hp. split; [|intros x; by apply (sy_vouched _ _ d Hs Hv)].
  intros r Hr. destruct (last_on_chain _ _ _ _ Hs Hr) as [Heq Hlo].
  split; [rewrite Heq; apply canonical_chain_ref; lia|].
  destruct (cursor_last d p (sy_wf _ _ d Hs) Hp) as (r' & Hr' & <-). rewrite Hr in Hr'. by injection Hr' as ->.
Qed.

Lemma synced_any ch I d : synced ch I d → synced ch (λ _, True) d.
Proof. by intros []. Qed.

Lemma behind_same c n d d' :
  ring_list (ring (engine d')) = ring_list (ring (engine d)) → cursor (engine d') = cursor (engine d) →
  config d' = config d → behind c n d → behind c n d'.
Proof. intros Hr Hc Hcfg. unfold behind, pending. by rewrite Hr, Hc, Hcfg. Qed.

(** Marks that were dropped leave the rest true. *)
Lemma follows_marks C ch d d' :
  follows C ch d → engine d' = engine d → config d' = config d → initial d' = initial d →
  (1 ≤ span (marks d') ≤ MAX_SPAN)%N →
  (walked (marks d') = walked (marks d) ∨ walked (marks d') = None) →
  (vouched (marks d') = vouched (marks d) ∨ vouched (marks d') = None) → follows C ch d'.
Proof.
  intros [Hs Hf Hsl Hwk Hvo] He Hc Hi Hsp Hw Hv.
  assert (∀ c, vouches c (marks d') = true → vouches c (marks d) = true) as Hvd.
  { intros c Hc'. unfold vouches in *. destruct Hv as [<-|Hv]; [done|]. rewrite Hv in Hc'. by apply bool_decide_eq_true in Hc'. }
  assert (∀ w, walked (marks d') = Some w → walked (marks d) = Some w) as Hwd by (destruct Hw as [<-|Hn]; [done|by rewrite Hn]).
  assert (∀ c n, behind c n d → behind c n d') as Hbe.
  { intros c n. apply behind_same; congruence. }
  assert (∀ c, pending c d' = pending c d) as Hp by (intros c; unfold pending; by rewrite He, Hc).
  split; rewrite ?He, ?Hc, ?Hi; try done; [|intros; apply Hbe; by apply Hwk; auto|].
  - split; rewrite ?He, ?Hc, ?Hp; try done; try apply Hs.
    + intros w Hw'. by apply (sy_floor _ _ d Hs), Hwd.
    + intros w Hw' Hr. apply (sy_walked _ _ d Hs w (Hwd w Hw')). unfold resumes in *.
      apply orb_true_iff in Hr as [Hr|Hr]; apply orb_true_iff; auto.
    + intros Hv'. by apply (sy_vouched _ _ d Hs), Hvd.
  - intros c Hc' Hv'. destruct (Hvo c Hc' (Hvd c Hv')) as [H1 H2]. split; [auto|]. intros p Hp'. apply Hbe. by apply H2.
Qed.

(** ** Lemmas: ticks on the chain *)

Section chain_set.
Context (C : Chain E → Prop) (start : N).
Context (HC : ∀ c1 c2, C c1 → C c2 → commits start c1 c2).

(** Marks set on [ch] are true of every chain they fit. *)
Lemma marks_set_true ch I d :
  C ch → start_block (config d) = start → synced ch I d → vouched (marks d) = Some (chain_ref ch (ch_head ch)) →
  (walked (marks d) = None ∨ ∃ e, walked (marks d) = Some (chain_ref ch e)) →
  (∀ c w, C c → walked (marks d) = Some w → canonical c w = true → behind c (number w) d) ∧
  (∀ c, C c → vouches c (marks d) = true → (∀ w, walked (marks d) = Some w → canonical c w = true) ∧
    ∀ p, cursor (engine d) = Some p → behind c (block p) d).
Proof.
  intros Hch Hst Hs Hv Hw. assert (vouches ch (marks d) = true) as Hvo by (unfold vouches; by apply bool_decide_true).
  pose proof (sy_floor _ _ d Hs) as Hfloor. rewrite Hst in Hfloor. split.
  - intros c w Hc Hwk Hcan. destruct Hw as [Hw|[e Hw]]; rewrite Hw in Hwk; [done|]. injection Hwk as <-.
    specialize (Hfloor _ Hw). cbn [number chain_ref] in *. apply (commits_canonical start) in Hcan as [Hle Hag]; [|by apply HC|done].
    apply (behind_moves ch c I); rewrite ?Hst; try done; try lia.
    apply (synced_walked ch I d _ Hs Hw). apply canonical_chain_ref. lia.
  - intros c Hc Hvc. unfold vouches in Hvc. apply bool_decide_eq_true in Hvc. rewrite Hv in Hvc.
    injection Hvc as Hhead Hhash. split.
    + intros w Hwk. destruct Hw as [Hw|[e Hw]]; rewrite Hw in Hwk; [done|]. injection Hwk as <-.
      specialize (Hfloor _ Hw). cbn [number chain_ref] in Hfloor.
      assert (agree_to start (ch_head ch) ch c) as Hag.
      { apply HC; try done; [lia|lia|]. by rewrite Hhash, Hhead. }
      eapply agree_canonical; [exact Hag|lia..].
    + intros p Hp. pose proof (sy_start _ _ d Hs p Hp) as Hlo. rewrite Hst in Hlo.
      destruct (cursor_on_chain _ _ p (sy_wf _ _ d Hs) (sy_chain _ _ d Hs) Hp) as [_ Hhi].
      assert (agree_to start (ch_head ch) ch c) as Hag.
      { apply HC; try done; [lia|lia|]. by rewrite Hhash, Hhead. }
      apply (behind_moves ch c I); rewrite ?Hst; try done; try lia; [by eapply agree_le|].
      by apply (synced_vouched ch I).
Qed.

Lemma follows_advances ch I d d' :
  C ch → start_block (config d) = start → synced ch I d' → follows C ch d → advances ch d d' → follows C ch d'.
Proof.
  intros Hch Hst Hs' [_ Hf Hsl Hwk Hvo] (Hm & Hi & Hslots & Hcfg & l & a & s & Hl & Hrun).
  unfold pending in Hl. rewrite Hcfg in Hl.
  assert (replayed ch (start_block (config d)) (initial d) (cursor (engine d')) (fold (engine d'))) as Hf'
    by by eapply replayed_extends.
  assert ((∀ c w, C c → walked (marks d') = Some w → canonical c w = true → behind c (number w) d') ∧
    (∀ c, C c → vouches c (marks d') = true → (∀ w, walked (marks d') = Some w → canonical c w = true) ∧
      ∀ p, cursor (engine d') = Some p → behind c (block p) d')) as [Hwk' Hvo'].
  { destruct Hm as [(Hc & Hr & Hw & Hv)|[Hv Hw]]; [|by apply (marks_set_true ch I); rewrite ?Hcfg]. split.
    - intros c w Hc' Hw' Hcan. destruct Hw as [Hw|Hw]; rewrite Hw in Hw'; [|done].
      apply (behind_same _ _ d); try done. by apply Hwk.
    - intros c Hc' Hv'. unfold vouches in Hv'. destruct Hv as [Hv|Hv]; rewrite Hv in Hv'; [|done].
      destruct (Hvo c Hc' Hv') as [H1 H2]. split.
      + intros w Hw'. destruct Hw as [Hw|Hw]; rewrite Hw in Hw'; [|done]. by apply H1.
      + intros p Hp. rewrite Hc in Hp. apply (behind_same _ _ d); try done. by apply H2. }
  split; try done; rewrite ?Hcfg, ?Hi; [by eapply synced_any|done|].
  apply Forall_forall. intros sl Hin. rewrite Forall_forall in Hsl. destruct (Hslots sl Hin) as [?| ->]; [by apply Hsl|done].
Qed.

(** ** Lemmas: a history that is on the new chain *)

(** The cursor lies in a block that two chains share, with all below it. *)
Definition shared c1 c2 (q : option Position) : Prop :=
  ∀ p, q = Some p → ∃ a, agree_to start a c1 c2 ∧ (block p ≤ a)%N ∧ (start ≤ a ≤ ch_head c1)%N ∧ (a ≤ ch_head c2)%N.

Lemma shared_le c1 c2 q q' : shared c1 c2 q → opos_le q' q → shared c1 c2 q'.
Proof.
  intros Hs Hle p ->. destruct q as [p'|]; [|by apply opos_le_None in Hle].
  destruct (Hs p' eq_refl) as (a & ? & ? & ?). apply opos_le_block in Hle. exists a. split_and!; try done; lia.
Qed.

Lemma replayed_shared c1 c2 f0 q f : shared c1 c2 q → replayed c1 start f0 q f → replayed c2 start f0 q f.
Proof.
  intros Hs. destruct q as [p|]; [|by rewrite !replayed_none].
  destruct (Hs p eq_refl) as (a & ? & ? & ? & ?). by eapply replayed_moves.
Qed.

Lemma shared_block c1 c2 r q :
  C c1 → C c2 → r = chain_ref c1 (number r) → (start ≤ number r ≤ ch_head c1)%N → canonical c2 r = true →
  (∀ p, q = Some p → (block p ≤ number r)%N) → shared c1 c2 q.
Proof.
  intros H1 H2 Hr Hn Hcan Hq p Hp. rewrite Hr in Hcan. apply (commits_canonical start) in Hcan as [Hle Hag]; [|by apply HC|done].
  exists (number r). auto.
Qed.

Lemma ring_split ch ch' I d :
  C ch → C ch' → start_block (config d) = start → synced ch I d →
  ∃ good bad, ring_list (ring (engine d)) = good ++ bad ∧
    Forall (λ o, canonical ch' o = true) good ∧ Forall (λ o, canonical ch' o = false) bad.
Proof.
  intros H1 H2 Hst Hs. apply (history_split start ch ch'); [by apply HC|apply Hs|].
  pose proof (sy_chain _ _ d Hs) as Hc. pose proof (sy_ring _ _ d Hs) as Hr. unfold on_chain in Hc.
  rewrite Forall_forall in Hc, Hr |- *. intros r Hin. destruct (Hc r Hin). specialize (Hr r Hin). rewrite Hst in Hr. done.
Qed.

(** A driver whose newest block the new chain has follows the new chain as it is. *)
Lemma follows_switch ch ch' (I : St → Prop) d :
  C ch → C ch' → start_block (config d) = start → follows C ch d →
  I (source d) → (ch_first ch' ≤ start)%N → in_reach ch' d →
  (∀ r, last (ring_list (ring (engine d))) = Some r → canonical ch' r = true) →
  synced ch' I d ∧ follows C ch' d.
Proof.
  intros Hch Hch' Hst [Hs Hf Hsl Hwk Hvo] HIs Hfirst [_ Hreach] Hlast.
  assert (synced ch' I d) as Hs'.
  { split; try done; try apply Hs.
    - destruct (ring_split ch ch' _ d Hch Hch' Hst Hs) as (good & bad & Hring & Hg & Hb). unfold on_chain. rewrite Hring in *.
      destruct (last bad) as [r|] eqn:Hr.
      + specialize (Hlast r ltac:(by rewrite last_app, Hr)). apply last_Some_elem_of in Hr.
        rewrite Forall_forall in Hb. by rewrite Hb in Hlast.
      + apply last_None in Hr as ->. rewrite app_nil_r. eapply Forall_impl; [exact Hg|]. apply canonical_ref.
    - by rewrite Hst.
    - intros w Hw. pose proof (sy_floor _ _ d Hs w Hw). split; [lia|by apply Hreach].
    - intros w Hw Hr. assert (canonical ch' w = true) as Hcan.
      { unfold resumes in Hr. apply orb_true_iff in Hr as [Hr|Hr]; [|done]. by apply (Hvo ch' Hch' Hr). }
      destruct (Hwk ch' w Hch' Hw Hcan) as [H1 H2]. split_and!; try done.
      intros p Hp. destruct (cursor_last d p (sy_wf _ _ d Hs) Hp) as (r & Hr' & <-). by apply H1.
    - intros Hv p x Hp. by apply (Hvo ch' Hch' Hv). }
  assert (shared ch ch' (cursor (engine d))) as Hsh.
  { destruct (cursor (engine d)) as [p|] eqn:Hp; [|by intros ? ?].
    destruct (cursor_last d p (sy_wf _ _ d Hs) Hp) as (r & Hr & Hn).
    destruct (last_on_chain _ _ _ _ Hs Hr) as [Heq Hle]. rewrite Hst in Hle.
    apply (shared_block ch ch' r); auto. intros q [= <-]. lia. }
  rewrite Hst in Hf, Hsl.
  split; [done|]. split; rewrite ?Hst; [by eapply synced_any|by eapply replayed_shared| |done..].
  pose proof (ewf_slots _ (sy_wf _ _ d Hs)) as Hle. rewrite Forall_forall in Hsl, Hle |- *.
  intros sl Hin. eapply replayed_shared; [|by apply Hsl]. eapply shared_le; [exact Hsh|]. by apply Hle.
Qed.

(** ** Lemmas: a history that is not *)

Section fork.
Context (ch ch' : Chain E) (I : St → Prop) (Hch : C ch) (Hch' : C ch') (Hwf' : chain_wf ch') (HI : honest ch' I).
Context (Hfirst : (ch_first ch' ≤ start)%N).

(** The newest block is gone from the chain. *)
Definition forked d : Prop :=
  ∃ r, last (ring_list (ring (engine d))) = Some r ∧ canonical ch' r = false.

Lemma forked_resumed d : follows C ch d → forked d → resumed ch' d = false ∧
  ∀ p, cursor (engine d) = Some p → next_block ch' d = block p.
Proof.
  intros Hfo (r & Hr & Hcan).
  assert (vouches ch' (marks d) = false) as Hv.
  { apply not_true_iff_false. intros Hv. destruct (fo_vouched _ _ _ Hfo ch' Hch' Hv) as [_ Hb].
    pose proof (ewf_cursor _ (sy_wf _ _ d (fo_synced _ _ _ Hfo))) as Hc. rewrite newest_number_list, Hr in Hc.
    destruct (cursor (engine d)) as [p|]; [|done]. destruct (Hb p eq_refl) as [Hl _]. destruct (Hl r Hr). congruence. }
  assert (∀ w, walked (marks d) = Some w → resumes ch' (marks d) w = false) as Hw.
  { intros w Hw. unfold resumes. rewrite Hv. apply not_true_iff_false. simpl. intros Hc.
    destruct (fo_walked _ _ _ Hfo ch' w Hch' Hw Hc) as [Hl _]. destruct (Hl r Hr). congruence. }
  unfold resumed, next_block. rewrite Hv, andb_false_r. destruct (walked (marks d)) as [w|].
  - rewrite (Hw w eq_refl). split; [done|]. by intros p ->.
  - split; [done|]. by intros p ->.
Qed.

Lemma elem_of_take_while {A} (q : A → bool) l x : x ∈ take_while q l → x ∈ l ∧ q x = true.
Proof.
  induction l as [|y l IH]; simpl; [by intros ?%elem_of_nil|].
  destruct (q y) eqn:Hq; [|by intros ?%elem_of_nil]. intros [->|Hx]%elem_of_cons; [split; [left|done]|].
  destruct (IH Hx). split; [by right|done].
Qed.

(** The newest block of the history at or below a number: it is gone if any block there is. *)
Lemma take_while_bad n (good bad : list BlockRef) r :
  ascending (number <$> good ++ bad) → r ∈ bad → (number r ≤ n)%N →
  ∃ x, last (take_while (λ b, number b <=? n)%N (good ++ bad)) = Some x ∧ x ∈ bad ∧ (number x ≤ n)%N.
Proof.
  intros Hasc Hr Hn. induction good as [|g good IH]; simpl in *.
  - destruct (last (take_while (λ b, number b <=? n)%N bad)) as [x|] eqn:Hl.
    + exists x. split; [done|]. apply last_Some_elem_of, elem_of_take_while in Hl as [Hx Hle]. by nbool.
    + apply last_None in Hl. destruct bad as [|b bad]; [by apply elem_of_nil in Hr|]. simpl in Hl.
      destruct (number b <=? n)%N eqn:Hb; [done|]. nbool. apply StronglySorted_inv in Hasc as [_ Hall].
      apply elem_of_cons in Hr as [->|Hr]; [lia|]. apply (proj1 (Forall_fmap _ _ _)) in Hall. rewrite Forall_forall in Hall.
      specialize (Hall r Hr). unfold compose in Hall. lia.
  - apply StronglySorted_inv in Hasc as [Hasc Hall]. destruct (IH Hasc) as (x & Hx & Hxb & Hxn).
    apply (proj1 (Forall_fmap _ _ _)) in Hall. rewrite Forall_forall in Hall.
    specialize (Hall r ltac:(apply elem_of_app; by right)). unfold compose in Hall.
    rewrite (proj2 (N.leb_le _ _)) by lia. exists x. split; [|done].
    destruct (take_while _ (good ++ bad)); [done|exact Hx].
Qed.

Lemma exposed_last d :
  start_block (config d) = start → follows C ch d → exposed ch' d →
  forked d ∧ ∃ x, last (take_while (λ b, number b <=? ch_head ch')%N (ring_list (ring (engine d)))) = Some x ∧
    (start ≤ number x ≤ ch_head ch')%N ∧ canonical ch' x = false.
Proof.
  intros Hst Hfo (r & Hin & Hle & Hcan). pose proof (fo_synced _ _ _ Hfo) as Hs.
  destruct (ring_split ch ch' _ d Hch Hch' Hst Hs) as (good & bad & Hring & Hg & Hb).
  pose proof (sy_ring _ _ d Hs) as Hlow. rewrite Hst in Hlow.
  pose proof (ring_asc _ (ewf_ring _ (sy_wf _ _ d Hs))) as Hasc. unfold forked. rewrite Hring in *.
  rewrite Forall_forall in Hg, Hb, Hlow.
  assert (r ∈ bad) as Hbad.
  { apply elem_of_app in Hin as [Hin|]; [|done]. by rewrite Hg in Hcan. }
  split.
  - destruct (last bad) as [x|] eqn:Hx; [|apply last_None in Hx as ->; by apply elem_of_nil in Hbad].
    exists x. rewrite last_app, Hx. split; [done|]. by apply Hb, last_Some_elem_of.
  - destruct (take_while_bad (ch_head ch') good bad r Hasc Hbad Hle) as (x & Hx & Hxb & Hxn).
    exists x. split; [done|]. split; [split; [|done]|by apply Hb]. apply Hlow, elem_of_app. by right.
Qed.

(** The head does not trail the history, or is on another chain: the scan does not take it to lag. *)
Lemma lagging_false d :
  start_block (config d) = start → follows C ch d → I (source d) → in_reach ch' d ∨ exposed ch' d →
  ∃ s', runs_to (lagging (chain_ref ch' (ch_head ch'))) d (put_source s' d) false ∧ I s'.
Proof.
  intros Hst Hfo HIs Hor. unfold runs_to, lagging. rewrite sm_get_bind. cbn zeta. cbn [number chain_ref].
  assert (put_source (source d) d = d) as Hid by by destruct d.
  destruct (match walked (marks d) with Some w => Some (number w) | None => block <$> cursor (engine d) end) as [n|] eqn:Hn.
  2: { exists (source d). by rewrite Hid. }
  destruct (ch_head ch' <? n)%N eqn:Hlt; [|exists (source d); by rewrite Hid]. nbool.
  destruct Hor as [[Hc Hw]|He].
  { exfalso. destruct (walked (marks d)) as [w|]; [injection Hn as <-; specialize (Hw w eq_refl); lia|].
    destruct (cursor (engine d)) as [p|]; [|done]. injection Hn as <-. specialize (Hc p eq_refl). lia. }
  destruct (exposed_last d Hst Hfo He) as (_ & x & Hx & Hnx & Hcan). unfold observed. rewrite ring_iter_list, Hx.
  unfold canonical in Hcan. rewrite (proj2 (N.leb_le _ _)) in Hcan by lia. cbn [andb] in Hcan.
  apply bool_decide_eq_false in Hcan. destruct (number x =? ch_head ch')%N eqn:Heq; nbool.
  { exists (source d). rewrite Hid, bool_decide_false; [done|]. intros Hxh. apply Hcan. by rewrite Hxh. }
  destruct (honest_header ch' I HI (source d) (number x) HIs ltac:(lia)) as (s' & Hr & Hs').
  apply source_call in Hr. rewrite (proj2 (N.leb_le _ _)) in Hr by lia. exists s'. split; [|done].
  rewrite (sm_bind_ok _ _ _ _ _ Hr). rewrite bool_decide_false; [done|]. intros Hxh. apply Hcan. by rewrite <- Hxh.
Qed.

(** The marks vouch for nothing, so the scan starts over at the cursor block. *)
Lemma forked_scan_from d p :
  start_block (config d) = start → follows C ch d → forked d → cursor (engine d) = Some p → I (source d) →
  ∃ s', runs_to (scan_from (chain_ref ch' (ch_head ch'))) d (put_source s' (tidied ch' d)) (block p, false) ∧ I s'.
Proof.
  intros Hst Hfo Hfork Hp HIs. destruct (forked_resumed d Hfo Hfork) as [Hres _]. pose proof (fo_synced _ _ _ Hfo) as Hs.
  assert (put_source (source d) d = d) as Hid by by destruct d.
  unfold runs_to, scan_from. rewrite sm_get_bind. cbn zeta. rewrite Hp.
  change (bool_decide (vouched (marks d) = Some (chain_ref ch' (ch_head ch')))) with (vouches ch' (marks d)).
  unfold resumed in Hres. rewrite Hp in Hres. unfold tidied, mark, tidy. destruct (walked (marks d)) as [w|] eqn:Hw.
  - unfold resumes in Hres. apply orb_false_iff in Hres as [Hv Hcan]. rewrite Hv. unfold resumes. rewrite Hv, Hcan. cbn [orb].
    pose proof (sy_floor _ _ d Hs w Hw) as [Hlow _].
    rewrite bool_decide_false by (intros <-; rewrite canonical_chain_ref in Hcan by lia; done).
    destruct (honest_header ch' I HI (source d) (number w) HIs ltac:(lia)) as (s' & Hr & Hs'). apply source_call in Hr.
    exists s'. split; [|done]. unfold mbind, sm_bind in *. rewrite Hr. unfold mret, sm_ret.
    rewrite bool_decide_false; [done|]. intros Heq. unfold canonical in Hcan.
    destruct (number w <=? ch_head ch')%N; [|done]. injection Heq as Heq. cbn [andb] in Hcan.
    apply bool_decide_eq_false in Hcan. apply Hcan. by rewrite <- Heq.
  - rewrite bool_decide_true in Hres by eauto. cbn [andb] in Hres. rewrite Hres. exists (source d). split; [|done].
    by destruct d.
Qed.

(** Above the head there is nothing to read. *)
Lemma scan_tail_above d width from p :
  I (source d) → spans (batch d) = [] → batch_wf (batch d) → boundary (batch d) = None → cursor (engine d) = Some p →
  (start ≤ ch_head ch')%N → (ch_head ch' < from)%N → (ch_head ch' < block p)%N →
  ∃ d', runs_to (scan_tail (chain_ref ch' (ch_head ch')) width (from, false)) d d' (Ready (chain_ref ch' (ch_head ch'))) ∧
    frame d d' ∧ I (source d') ∧ batch_wf (batch d') ∧ batch_ok (batch d') ∧ boundary (batch d') = None.
Proof.
  intros HIs Hnil Hb Hbd Hp Hlow Hfrom Hcur. set (h := chain_ref ch' (ch_head ch')).
  destruct (honest_header ch' I HI (source d) (block p) HIs ltac:(lia)) as (s' & Hr & Hs').
  rewrite (proj2 (N.leb_gt _ _)) in Hr by lia. apply source_call in Hr.
  assert (∀ fuel q w e, (e < from)%N → walk (SE := SE) fuel q w e from d = (d, Returns (Ok true))) as Hwalk.
  { intros [|fuel] q w e He; [done|]. cbn [walk]. by rewrite (proj2 (N.leb_gt _ _)). }
  set (d' := put_batch (set_boundary None (batch d)) (put_source s' d)).
  assert (N.min (ch_head ch') (u64_saturating_add from (u64_saturating_mul (span (marks d)) width - 1)) = ch_head ch') as Hend.
  { pose proof (proj1 Hwf'). unfold u64_saturating_add. lia. }
  assert (batch_is_empty (batch d') = true) as Hemp.
  { rewrite batch_is_empty_spans by (by apply set_boundary_wf). apply bool_decide_true. simpl. by rewrite spans_set_boundary. }
  exists d'. split.
  - unfold runs_to, scan_tail. rewrite sm_get_bind. cbn zeta. cbn [number chain_ref h]. rewrite Hend.
    rewrite (sm_bind_ok _ _ _ _ _ (Hwalk _ _ _ _ Hfrom)). cbn [negb].
    assert (runs_to (E := SE) (fill_boundary h false) d d' ()) as Hfill.
    { unfold runs_to, fill_boundary. rewrite sm_get_bind, Hp, Hbd. cbn [number chain_ref h].
      rewrite (proj2 (N.eqb_neq _ _)) by lia. by rewrite (sm_bind_ok _ _ _ _ _ Hr). }
    rewrite (sm_bind_ok _ _ _ _ _ Hfill), sm_get_bind, N.ltb_irrefl. cbn [andb]. by rewrite Hemp.
  - split_and!; try done.
    apply empty_batch_ok; [by apply set_boundary_wf|]. simpl. by rewrite spans_set_boundary.
Qed.

(** The scan finds that the cursor block is another one, or gone. *)
Lemma forked_scan d p :
  start_block (config d) = start → follows C ch d → forked d → in_reach ch' d ∨ exposed ch' d →
  cursor (engine d) = Some p → I (source d) →
  ∃ d2 r h, runs_to scan d d2 r ∧ (r = Ready h ∨ ∃ a, r = Capped a h) ∧ engine d2 = engine d ∧
    config d2 = config d ∧ initial d2 = initial d ∧ span (marks d2) = span (marks d) ∧
    vouched (marks d2) = vouched (marks d) ∧ I (source d2) ∧ batch_wf (batch d2) ∧ batch_ok (batch d2) ∧
    boundary (batch d2) = if (block p <=? ch_head ch')%N then Some (chain_ref ch' (block p)) else None.
Proof.
  intros Hst Hfo Hfork Hor Hp HIs. pose proof (fo_synced _ _ _ Hfo) as Hs. pose proof (sy_start _ _ d Hs p Hp) as Hlo.
  destruct (honest_head ch' I HI (source d) HIs) as (s1 & Hr1 & Hs1).
  set (d1 := put_source s1 (put_batch (batch_clear (batch d)) d)).
  assert (∀ s, follows C ch (put_source s d1)) as Hfo1 by (intros s; apply (follows_marks _ _ d); try done; [apply Hs|by left..]).
  destruct (lagging_false d1) as (s2 & Hr2 & Hs2); [done|apply (Hfo1 s1)|done|exact Hor|].
  destruct (forked_scan_from (put_source s2 d1) p) as (s3 & Hr3 & Hs3); [done|apply Hfo1|exact Hfork|done|done|].
  pose proof (scan_runs d _ s1 s2 _ _ Hr1 Hr2 Hr3) as Hscan.
  set (d3 := put_source s3 (tidied ch' (put_source s2 d1))) in *. set (width := N.max (window s2) 1) in *.
  assert (span (marks d3) = span (marks d) ∧ vouched (marks d3) = vouched (marks d)) as [Hsp3 Hv3].
  { split; apply (tidy_marks ch' (marks d)). }
  destruct (block p <=? ch_head ch')%N eqn:Hle; nbool.
  - destruct (scan_tail_spec ch' Hwf' I HI d3 width (block p) false) as (d2 & r & Hr & Hf & HI2 & Hb & Hok & Hbd & _ & Hfound);
      try done; [rewrite Hsp3; apply Hs|lia|change (config d3) with (config d); lia| |].
    { change (engine d3) with (engine d). change (config d3) with (config d). intros q Hq. rewrite Hp in Hq. injection Hq as <-. lia. }
    exists d2, r, (chain_ref ch' (ch_head ch')). split; [unfold runs_to; by rewrite Hscan|].
    destruct Hf as (He & _ & Hc & Hi & Hm). split.
    { destruct Hfound as [(-> & _)|[(e & -> & _)|(to & -> & _)]]; eauto. }
    rewrite He, Hc, Hi, Hm. split_and!; try done. by apply Hbd.
  - assert (start ≤ ch_head ch')%N as Hlow.
    { destruct Hor as [[Hc _]|He]; [specialize (Hc p Hp); lia|].
      destruct (exposed_last d Hst Hfo He) as (_ & x & _ & ? & _). lia. }
    destruct (scan_tail_above d3 width (block p) p) as (d2 & Hr & Hf & HI2 & Hb & Hok & Hbd); try done.
    exists d2, (Ready (chain_ref ch' (ch_head ch'))), (chain_ref ch' (ch_head ch')).
    split; [unfold runs_to; by rewrite Hscan|]. destruct Hf as (He & _ & Hc & Hi & Hm).
    rewrite He, Hc, Hi, Hm. split_and!; try done. by left.
Qed.

(** The boundary check of the engine finds the fork. *)
Lemma forked_batch (e : Engine F) b p r :
  engine_wf e → status e = Active → batch_wf b → batch_ok b → cursor e = Some p →
  boundary b = (if (block p <=? ch_head ch')%N then Some (chain_ref ch' (block p)) else None) →
  last (ring_list (ring e)) = Some r → canonical ch' r = false →
  ∃ x : ApplyError X, apply_batch e b = (e, Returns (Err x)) ∧
    (x = MissingBoundary ∨ ∃ seen refetched, x = ForkSuspected seen refetched).
Proof.
  intros Hwf Hst Hb Hok Hp Hbd Hr Hcan. unfold apply_batch. rewrite Hst. simpl.
  rewrite (proj2 (validate_ok_iff b Hb) Hok). unfold check_boundary. rewrite Hp, Hbd.
  destruct (cursor_block_observed e p Hwf Hp) as [h Hl]. rewrite Hr in Hl. injection Hl as ->.
  destruct (block p <=? ch_head ch')%N eqn:Hle; [|simpl; eauto]. cbn [number chain_ref]. rewrite N.eqb_refl. simpl.
  apply last_Some_elem_of in Hr. apply hash_at_Some in Hr; [|apply Hwf]. rewrite Hr.
  unfold canonical in Hcan. cbn [number bhash] in Hcan. rewrite Hle in Hcan. simpl in Hcan.
  apply bool_decide_eq_false in Hcan. rewrite bool_decide_false by congruence. simpl. eauto 10.
Qed.

Context (Hhorizon : ∀ s h, I s → horizon s = FromBlock h → (h ≤ start)%N).

(** Every live checkpoint is after the blocks the new chain kept. *)
Definition stranded (e : Engine F) : Prop :=
  ∀ sl r, sl ∈ held (checkpoints e) → live (ring e) sl = true → r ∈ ring_list (ring e) →
    canonical ch' r = true → slot_at_or_below (number r) sl = false.

(** What a tick that recovers reports: it starts over only when there is no checkpoint to return to. *)
Definition recovery (e : Engine F) (t : Tick) : Prop := t = Resynced ∧ stranded e ∨ ∃ to, t = RolledBack to.

Lemma ascending_last (l : list BlockRef) r a :
  ascending (number <$> l) → r ∈ l → last l = Some a → (number r ≤ number a)%N.
Proof.
  intros Hasc (i & Hi)%list_elem_of_lookup Ha. rewrite last_lookup in Ha. pose proof (lookup_lt_Some _ _ _ Hi).
  destruct (decide (i = pred (length l))) as [->|]; [rewrite Hi in Ha; by injection Ha as ->|].
  apply N.lt_le_incl. apply (ascending_lookup (number <$> l) i (pred (length l))); [done|lia|..];
    rewrite list_lookup_fmap; [by rewrite Hi|by rewrite Ha].
Qed.

(** A recovery lands on a replay of the new chain. *)
Lemma restored_follows d d' q :
  start_block (config d) = start → follows C ch d → synced ch' I d' → restored d d' →
  cursor (engine d') = q → shared ch ch' q → replayed ch start (initial d) q (fold (engine d')) → follows C ch' d'.
Proof.
  intros Hst Hfo Hs' (Hi & Hcfg & Hw & Hv & Hslots) Hq Hsh Hf.
  split; rewrite ?Hi, ?Hcfg, ?Hst, ?Hw, ?Hq; try done; [by eapply synced_any|by eapply replayed_shared| |].
  - pose proof (ewf_slots _ (sy_wf _ _ d' Hs')) as Hle. pose proof (fo_slots _ _ _ Hfo) as Hsl.
    rewrite Forall_forall in Hle, Hsl |- *. intros sl Hin. rewrite Hst in Hsl.
    eapply replayed_shared; [|by apply Hsl, Hslots]. eapply shared_le; [exact Hsh|]. rewrite <- Hq. by apply Hle.
  - intros c _ Hvc. unfold vouches in Hvc. rewrite Hv in Hvc. by apply bool_decide_eq_true in Hvc.
Qed.

Lemma forked_recovery d :
  start_block (config d) = start → follows C ch d → I (source d) → walked (marks d) = None →
  ∃ d' t, runs_to recover_via_bisection d d' t ∧ recovery (engine d) t ∧ synced ch' I d' ∧ follows C ch' d' ∧
    config d' = config d ∧ initial d' = initial d.
Proof.
  intros Hst Hfo HIs Hw. pose proof (fo_synced _ _ _ Hfo) as Hs.
  destruct (ring_split ch ch' _ d Hch Hch' Hst Hs) as (good & bad & Hring & Hg & Hb).
  pose proof (sy_ring _ _ d Hs) as Hlow.
  destruct (fork_recovery ch' I d good bad) as (d' & t & Hr & Hpost);
    try done; try apply Hs; [by rewrite Hst|by rewrite <- Hring|].
  assert ((a ← last good; best_at_or_below (checkpoints (engine d)) (number a) (ring (engine d))) = None → stranded (engine d))
    as Hstrand.
  { intros Hnone sl r Hsl Hlive Hin Hcan. rewrite Hring in Hin. apply elem_of_app in Hin as [Hin|Hin].
    2: { rewrite Forall_forall in Hb. by rewrite Hb in Hcan. }
    destruct (last good) as [a|] eqn:Ha; [|apply last_None in Ha as ->; by apply elem_of_nil in Hin].
    apply best_at_or_below_None in Hnone. rewrite Forall_forall in Hnone.
    specialize (Hnone sl ltac:(by apply oldest_first_elem)).
    assert (number r ≤ number a)%N.
    { pose proof (ring_asc _ (ewf_ring _ (sy_wf _ _ d Hs))) as Hasc. rewrite Hring, fmap_app in Hasc.
      apply StronglySorted_app_1_l in Hasc. by eapply ascending_last. }
    unfold slot_at_or_below in *. destruct (slot_cursor sl); [|done]. nbool. apply N.leb_gt. lia. }
  exists d', t. split; [exact Hr|].
  destruct (last good) as [a|] eqn:Ha; cbn [mbind option_bind] in Hpost;
    [destruct (best_at_or_below _ _ _) as [sl|] eqn:Hbest|].
  2-3: destruct Hpost as [(-> & Hf & Hq & Hs' & Hres)|(h & (s & HIs' & Hh) & Hlt & _)];
    [pose proof Hres as (Hi & Hcfg & _); split_and!; try done; [left; split; [done|by apply Hstrand]|]; apply (restored_follows d d' None); try done; by apply replayed_none
    |specialize (Hhorizon s h HIs' Hh); lia].
  destruct Hpost as (-> & Hf & Hq & Hs' & Hres). pose proof Hres as (Hi & Hcfg & _).
  split_and!; try done; [right; by eexists|].
  apply best_at_or_below_held in Hbest as (Hin & _ & Hbelow).
  apply (restored_follows d d' (slot_cursor sl)); try done.
  - apply last_Some_elem_of in Ha. rewrite Forall_forall in Hg, Hlow.
    assert (a ∈ ring_list (ring (engine d))) as Hin' by (rewrite Hring; apply elem_of_app; by left).
    pose proof (sy_chain _ _ d Hs) as Hc. unfold on_chain in Hc. rewrite Forall_forall in Hc.
    destruct (Hc a Hin'). specialize (Hlow a Hin'). rewrite Hst in Hlow.
    apply (shared_block ch ch' a); auto. intros p Hp. unfold slot_at_or_below in Hbelow. rewrite Hp in Hbelow. by nbool.
  - rewrite Hf. pose proof (fo_slots _ _ _ Hfo) as Hsl. rewrite Forall_forall, Hst in Hsl. by apply Hsl.
Qed.

Lemma forked_poll d :
  start_block (config d) = start → follows C ch d → forked d → in_reach ch' d ∨ exposed ch' d → I (source d) →
  ∃ d' t, runs_to poll_apply d d' t ∧ recovery (engine d) t ∧ synced ch' I d' ∧ follows C ch' d' ∧
    config d' = config d ∧ initial d' = initial d.
Proof.
  intros Hst Hfo0 Hfork Hor HIs. set (d0 := mark (λ m, set_generation (u64_wrapping_add (generation m) 1) m) d).
  assert (follows C ch d0) as Hfo.
  { apply (follows_marks _ _ d); try done; simpl; destruct (marks d) eqn:Hm; simpl; auto.
    pose proof (sy_span _ _ d (fo_synced _ _ _ Hfo0)) as Hsp. by rewrite Hm in Hsp. }
  pose proof (fo_synced _ _ _ Hfo) as Hs. destruct Hfork as (r0 & Hr0 & Hcan).
  destruct (cursor (engine d)) as [p|] eqn:Hp.
  2: { pose proof (ewf_cursor _ (sy_wf _ _ d0 Hs)) as Hc. change (engine d0) with (engine d) in Hc.
       by rewrite newest_number_list, Hr0, Hp in Hc. }
  destruct (forked_scan d0 p) as (d2 & r & h & Hr & Hrdy & He2 & Hc2 & Hi2 & Hsp2 & Hv2 & HI2 & Hb2 & Hok2 & Hbd2);
    try done; [by exists r0|by destruct d as [? ? ? ? ? ? ? []]|].
  destruct (forked_batch (engine d2) (batch d2) p r0) as (x & Happ & Hx); try done;
    [by rewrite He2; apply Hs|by rewrite He2; apply Hs|by rewrite He2|by rewrite He2|].
  set (d3 := put_engine (engine d2) (mark (set_walked None) (mark (set_consecutive_errors 0) d2))).
  assert (poll_apply d = recover_via_bisection d3) as Hpoll.
  { unfold poll_apply. rewrite sm_modify_bind, sm_get_bind. fold d0. rewrite (sy_active _ _ d0 Hs).
    cbn [is_active negb]. rewrite (sm_bind_ok _ _ _ _ _ (sm_result_ok _ _ _ _ Hr)).
    assert (∀ capped, apply_scanned h capped d2 = recover_via_bisection d3) as Hscan.
    { intros capped. unfold apply_scanned. rewrite sm_modify_bind, sm_get_bind. cbn zeta. rewrite sm_modify_bind.
      set (d2' := mark (set_walked None) (mark (set_consecutive_errors 0) d2)) in *.
      assert (runs_to (sm_result (E' := Empty_set) (sm_zoom (λ d, Some (engine d)) put_engine
        (λ e, apply_batch e (batch (mark (set_consecutive_errors 0) d2))))) d2' d3 (Err x)) as Hz.
      { unfold runs_to, sm_result, sm_zoom. simpl. by rewrite Happ. }
      rewrite (sm_bind_ok _ _ _ _ _ Hz). by destruct Hx as [->|(? & ? & ->)]. }
    by destruct Hrdy as [->|[a ->]]. }
  destruct (forked_recovery d3) as (d' & t & Hrt & Ht & Hs' & Hfo' & Hc' & Hi'); try done.
  - change (config d3) with (config d2). by rewrite Hc2.
  - apply (follows_marks _ _ d0); try done; try (simpl; by rewrite ?He2); simpl; try (destruct (marks d2); simpl in *; by auto).
    { destruct (marks d2); simpl in *. rewrite Hsp2. apply Hs. }
  - simpl. by destruct (marks d2).
  - change (engine d3) with (engine d2) in Ht. rewrite He2 in Ht.
    exists d', t. split_and!; try done; [by unfold runs_to; rewrite Hpoll|by rewrite Hc'; simpl; rewrite Hc2|by rewrite Hi'; simpl; rewrite Hi2].
Qed.

Lemma step_enter_reach d : in_reach ch' d → in_reach ch' (step_enter d).
Proof.
  intros [Hc Hw]. destruct (step_enter_marks d) as (He & _ & _ & _ & Hsame & Hmoved). split; rewrite ?He; [done|].
  intros w Hwk. destruct (decide (left_at (marks d) = Some (engine_point d))) as [Heq|Hne].
  - destruct (Hsame Heq) as [E1 _]. rewrite E1 in Hwk. by apply Hw.
  - destruct (Hmoved Hne) as [E1 _]. by rewrite E1 in Hwk.
Qed.

Lemma forked_tick d :
  start_block (config d) = start → follows C ch d → forked d → in_reach ch' d ∨ exposed ch' d → I (source d) →
  ∃ d' t, runs_to tick d d' t ∧ recovery (engine d) t ∧ synced ch' I d' ∧ follows C ch' d' ∧
    config d' = config d ∧ initial d' = initial d.
Proof.
  intros Hst Hfo Hfork Hor HIs. destruct (step_enter_marks d) as (He & Hso & Hc & Hsp & Hsame & Hmoved).
  assert (initial (step_enter d) = initial d) as Hi by (unfold step_enter, clamp_marks; cbn zeta; by destruct (negb (_ =? _)%N)).
  destruct (forked_poll (step_enter d)) as (d1 & t & Hr & Ht & Hs1 & Hfo1 & Hc1 & Hi1).
  - by rewrite Hc.
  - apply (follows_marks _ _ d); try done; [rewrite Hsp; apply (fo_synced _ _ _ Hfo)|..];
      destruct (decide (left_at (marks d) = Some (engine_point d))); naive_solver.
  - unfold forked. by rewrite He.
  - destruct Hor as [?|Hex]; [left; by apply step_enter_reach|right]. unfold exposed. by rewrite He.
  - by rewrite Hso.
  - rewrite He in Ht. exists (step_leave t d1), t. split.
    { unfold runs_to, tick, step. rewrite sm_modify_bind, (sm_bind_ok _ _ _ _ _ Hr). done. }
    assert (t ≠ SourceError) as Hne by (destruct Ht as [[-> _]|[to ->]]; done).
    pose proof (step_leave_synced ch' I t d1 Hs1 Hne) as Hs'. split_and!; try done.
    + apply (follows_marks _ _ d1); try done; [apply Hs'|left..]; unfold step_leave, mark; simpl; by destruct (marks d1).
    + by rewrite <- Hc, <- Hc1.
    + by rewrite <- Hi, <- Hi1.
Qed.

(** A head below the block the next scan starts at, with no block of the history at or below it replaced,
    is taken to lag: the driver waits, and its engine stays as it is. *)
Lemma lagging_waits d n :
  start_block (config d) = start → follows C ch d → I (source d) → ¬ exposed ch' d →
  match walked (marks (step_enter d)) with Some w => Some (number w) | None => block <$> cursor (engine d) end = Some n →
  (ch_head ch' < n)%N →
  ∃ d', runs_to tick d d' Idle ∧ engine d' = engine d.
Proof.
  intros Hst Hfo HIs Hexp Hfloor Hn. pose proof (fo_synced _ _ _ Hfo) as Hs.
  destruct (step_enter_marks d) as (He & Hso & _).
  set (d0 := mark (λ m, set_generation (u64_wrapping_add (generation m) 1) m) (step_enter d)).
  destruct (honest_head ch' I HI (source d0)) as (s1 & Hr1 & Hs1); [change (source d0) with (source (step_enter d)); by rewrite Hso|].
  set (d1 := put_source s1 (put_batch (batch_clear (batch d0)) d0)).
  assert (∃ s2, runs_to (E := SE) (lagging (chain_ref ch' (ch_head ch'))) d1 (put_source s2 d1) true) as (s2 & Hr2).
  { assert (put_source (source d1) d1 = d1) as Hid by by destruct d1.
    assert (walked (marks d1) = walked (marks (step_enter d)) ∧ engine d1 = engine d) as [Hw1 He1].
    { split; [|exact He]. unfold d1, d0. cbn [marks put_source put_batch mark]. by destruct (marks (step_enter d)). }
    unfold runs_to, lagging. rewrite sm_get_bind. cbn zeta. cbn [number chain_ref]. rewrite Hw1, He1, Hfloor.
    rewrite (proj2 (N.ltb_lt _ _)) by done. unfold observed. rewrite ring_iter_list.
    destruct (last (take_while _ (ring_list (ring (engine d))))) as [x|] eqn:Hx; [|exists (source d1); by rewrite Hid].
    apply last_Some_elem_of, elem_of_take_while in Hx as [Hin Hle]. nbool.
    assert (canonical ch' x = true) as Hcan.
    { apply not_false_iff_true. intros Hcan. apply Hexp. by exists x. }
    apply canonical_ref in Hcan as [Hx _]. pose proof (sy_ring _ _ d Hs) as Hlow. rewrite Forall_forall, Hst in Hlow.
    specialize (Hlow x Hin). destruct (number x =? ch_head ch')%N eqn:Heq; nbool.
    { exists (source d1). rewrite Hid, bool_decide_true; [done|]. rewrite Hx. by rewrite Heq. }
    destruct (honest_header ch' I HI (source d1) (number x) Hs1 ltac:(lia)) as (s' & Hr & _).
    apply source_call in Hr. rewrite (proj2 (N.leb_le _ _)) in Hr by lia. exists s'.
    rewrite (sm_bind_ok _ _ _ _ _ Hr). by rewrite bool_decide_true. }
  assert (scan d0 = (put_source s2 d1, Returns (Ok Lagging))) as Hscan.
  { apply (source_call _ (put_batch (batch_clear (batch d0)) d0)) in Hr1.
    unfold scan. by rewrite sm_modify_bind, (sm_bind_ok _ _ _ _ _ Hr1), (sm_bind_ok _ _ _ _ _ Hr2). }
  set (d3 := mark (λ m, set_caught_up true (set_consecutive_errors 0 m)) (put_source s2 d1)).
  exists (step_leave Idle d3). split; [|exact He].
  unfold runs_to, tick, step. rewrite sm_modify_bind.
  assert (runs_to poll_apply (step_enter d) d3 Idle) as Hpoll; [|by rewrite (sm_bind_ok _ _ _ _ _ Hpoll)].
  unfold runs_to, poll_apply. rewrite sm_modify_bind, sm_get_bind. fold d0.
  assert (status (engine d0) = Active) as -> by (change (engine d0) with (engine (step_enter d)); rewrite He; apply Hs).
  cbn [is_active negb]. by rewrite (sm_bind_ok _ _ _ _ _ (sm_result_ok _ _ _ _ Hscan)).
Qed.

(** The work left is bounded by the chain. *)
Lemma todo_bound d : synced ch' I d → start_block (config d) = start →
  todo ch' d ≤ length (between ch' start (ch_head ch')) + N.to_nat (ch_head ch' + 1 - start).
Proof.
  intros Hs Hst. unfold todo, todo_at. destruct (step_enter_marks d) as (_ & _ & Hc & _).
  destruct (next_block_bounds ch' I (step_enter d) (step_enter_synced ch' I d Hs)) as [Hlo _].
  rewrite Hc, Hst in Hlo. unfold pending, above_cursor. rewrite Hst.
  pose proof (length_filter (λ x, opos_ltb (cursor (engine d)) (Some (entry_key x)) = true) (between ch' start (ch_head ch'))).
  lia.
Qed.

(** From a driver that follows the new chain to one that has caught up with it. *)
Lemma converges_from d f' p' a s :
  start_block (config d) = start → synced ch' I d → follows C ch' d →
  run (initial d) None 0 0 (positioned <$> between ch' start (ch_head ch')) = (f', p', a, s, Done) →
  ∃ n d' ts, n ≤ S (todo ch' d) ∧ runs_to (ticks n) d d' ts ∧ catching_up (F := F) (K := K) ts ∧
    is_caught_up d' = true ∧ fold (engine d') = f' ∧ cursor (engine d') = p' ∧ synced ch' I d' ∧
    follows C ch' d' ∧ config d' = config d ∧ initial d' = initial d.
Proof.
  intros Hst Hs Hfo Hrun. pose proof (fo_fold _ _ _ Hfo) as Hf. rewrite Hst in Hf.
  destruct (replayed_rest _ _ _ _ _ _ _ _ _ Hf Hrun) as (a' & s' & Hrest).
  destruct (ticks_catch_up ch' I (λ d', follows C ch' d' ∧ config d' = config d ∧ initial d' = initial d) d f' p' a' s')
    as (n & d' & ts & ? & ? & ? & ? & _ & ? & (? & ? & ?) & ? & ? & _); try done.
  - intros d1 d2 _ Hs2 (Hfo1 & Hc1 & Hi1) Hadv. pose proof Hadv as (_ & Hi2 & _ & Hc2 & _). split_and!; try congruence.
    apply (follows_advances ch' I d1); try done. by rewrite Hc1.
  - unfold pending. by rewrite Hst.
  - by exists n, d', ts.
Qed.
End fork.
End chain_set.
End convergence.

(** ** Properties *)

Section properties.
Context {F E X St SE K : Type} `{!Fold F E X} `{!Source St E SE} `{!SnapshotSink K F}.
Implicit Types (d : Driver F E St K) (c ch : Chain E).

(** A driver that was just built follows every chain of the set. *)
Lemma build_follows (C : Chain E → Prop) ch (f : F) s (k : K) ec dc d :
  build f s k ec dc = Ok d → (ch_first ch ≤ start_block dc)%N →
  follows C ch d ∧ config d = dc ∧ initial d = f ∧ source d = s.
Proof.
  intros Hbuild Hfirst.
  destruct (build_synced ch (λ _, True) f s k ec dc d Hbuild I Hfirst) as (Hs & Hf & Hc & _).
  unfold build in Hbuild. destruct (engine_new f ec) as [e|] eqn:He; [|done]. cbn [result_bind] in Hbuild. unfold around in Hbuild.
  destruct (match horizon s with Genesis => _ | FromBlock _ => _ end) as [err|]; [done|]. injection Hbuild as Hd.
  unfold engine_new in He. destruct (config_validate ec) as [[]|]; [|done]. injection He as He.
  assert (cursor e = None ∧ checkpoints e = cp_new (checkpoint_slots ec)) as [Hec Hcp] by by subst e.
  set (d0 := MkDriver e _ _ _ _ _ _ _) in Hd.
  assert (auto_checkpoint d0 = d0) as Hauto.
  { unfold auto_checkpoint. change (engine d0) with e. rewrite Hec. by destruct (checkpoint_interval _). }
  rewrite Hauto in Hd. assert (d = d0) as -> by (rewrite <- Hd; by destruct (checkpoint_count e =? 0)).
  split_and!; try done. split; try done.
  - rewrite Hc. apply replayed_none. by rewrite Hf.
  - change (checkpoints (engine d0)) with (checkpoints e). rewrite Hcp. unfold held. simpl. unfold rot.
    rewrite drop_0, take_0, app_nil_r. rewrite omap_id_None. constructor.
Qed.

(** The ticks: a recovery when the history is gone, and then progress until the driver is idle. *)
Definition converging ch' (e : Engine F) (ts : list Tick) : Prop :=
  catching_up (F := F) (K := K) ts ∨
  ∃ t ts', ts = t :: ts' ∧ recovery ch' e t ∧ catching_up (F := F) (K := K) ts'.

(** Catching up with the chain the source has now. *)
Lemma converges (C : Chain E → Prop) ch ch' (I : St → Prop) d f' p' a s :
  let start := start_block (config d) in
  (∀ c1 c2, C c1 → C c2 → commits start c1 c2) → C ch → C ch' → chain_wf ch' → honest ch' I →
  (ch_first ch' ≤ start)%N → in_reach ch' d ∨ exposed ch' d →
  (∀ s h, I s → horizon s = FromBlock h → (h ≤ start)%N) → follows C ch d → I (source d) →
  run (initial d) None 0 0 (positioned <$> between ch' start (ch_head ch')) = (f', p', a, s, Done) →
  ∃ n d' ts, n ≤ length (between ch' start (ch_head ch')) + N.to_nat (ch_head ch' + 1 - start) + 2 ∧
    runs_to (ticks n) d d' ts ∧ converging ch' (engine d) ts ∧ is_caught_up d' = true ∧
    fold (engine d') = f' ∧ cursor (engine d') = p' ∧ follows C ch' d' ∧ I (source d') ∧
    config d' = config d ∧ initial d' = initial d.
Proof.
  intros start HC Hch Hch' Hwf' HI Hfirst Hor Hhor Hfo HIs Hrun.
  assert (forked ch' d ∨ ∀ r, last (ring_list (ring (engine d))) = Some r → canonical ch' r = true) as [Hfork|Hkept].
  { unfold forked. destruct (last _) as [r|]; [|by right]. destruct (canonical ch' r) eqn:Hr; [right|left].
    - by intros ? [= <-].
    - by exists r. }
  - destruct (forked_tick C start HC ch ch' I Hch Hch' Hwf' HI Hfirst Hhor d) as (d1 & t & Hr & Ht & Hs1 & Hfo1 & Hc1 & Hi1);
      try done.
    assert (start_block (config d1) = start) as Hst by by rewrite Hc1.
    destruct (converges_from C start HC ch' I Hch' Hwf' HI d1 f' p' a s)
      as (n & d' & ts & Hn & Hrs & Hts & Hcu & Hf & Hp & Hs' & Hfo' & Hc' & Hi'); try done; [by rewrite Hi1|].
    assert (todo ch' d1 ≤ length (between ch' start (ch_head ch')) + N.to_nat (ch_head ch' + 1 - start)) as Hbound
      by by eapply todo_bound.
    exists (S n), d', (t :: ts). split_and!; try done; [lia| |right; by exists t, ts|apply Hs'|congruence..].
    unfold runs_to. cbn [ticks]. by rewrite (sm_bind_ok _ _ _ _ _ Hr), (sm_bind_ok _ _ _ _ _ Hrs).
  - assert (in_reach ch' d) as Hreach.
    { destruct Hor as [?|Hex]; [done|]. destruct (exposed_last C start HC ch ch' Hch Hch' Hfirst d eq_refl Hfo Hex) as [(r & Hr & Hc) _].
      by rewrite (Hkept r Hr) in Hc. }
    destruct (follows_switch C start HC ch ch' I d) as [Hs Hfo']; try done.
    destruct (converges_from C start HC ch' I Hch' Hwf' HI d f' p' a s)
      as (n & d' & ts & Hn & Hrs & Hts & Hcu & Hf & Hp & Hs' & ? & Hc' & Hi'); try done.
    assert (todo ch' d ≤ length (between ch' start (ch_head ch')) + N.to_nat (ch_head ch' + 1 - start)) as Hbound
      by by eapply todo_bound.
    exists n, d', ts. split_and!; try done; [lia|by left|apply Hs'].
Qed.

(** A chain that is at least as long as the one the driver followed is in reach. *)
Lemma follows_reach (C : Chain E → Prop) ch ch' d : follows C ch d → (ch_head ch ≤ ch_head ch')%N → in_reach ch' d.
Proof.
  intros Hfo Hle. pose proof (fo_synced _ _ _ Hfo) as Hs. split.
  - intros p Hp. destruct (cursor_on_chain ch _ p (sy_wf _ _ d Hs) (sy_chain _ _ d Hs) Hp) as [_ ?]. lia.
  - intros w Hw. pose proof (sy_floor _ _ d Hs w Hw). lia.
Qed.

End properties.

(** ** Example: a source whose chain is replaced under the driver *)

Module ConvergenceEx.
(** The source is the chain it serves. *)
Definition serve : Source (Chain N) N () := {|
  source_head := ch ← sm_get; mret (chain_ref ch (ch_head ch));
  header_at n := ch ← sm_get; mret (if (n <=? ch_head ch)%N then Some (chain_ref ch n) else None);
  events_in lo hi := sm_modify (λ so, (so.1, so.2 ++ rev (between so.1 lo hi)));
  horizon _ := Genesis;
  window _ := 3%N;
|}.

Lemma serve_honest ch : @honest (Chain N) N () serve ch (λ s, s = ch).
Proof.
  split; [by intros s ->; exists ch|by intros s n -> _; exists ch|].
  intros s out lo hi -> _ _. exists ch, (rev (between ch lo hi)). split_and!; [done|done|].
  symmetry. apply Permutation_rev.
Qed.

(** Two other branches, from block 4 on: a longer one, and a shorter one. *)
Definition branch : Chain N :=
  MkChain _ 0 13 (λ n, if (n <? 4)%N then ex_hash n else [])
    (λ n, if (n <? 4)%N then ex_logs n else if (n =? 6)%N then [(0, 3)]%N else []).
Definition shorter : Chain N :=
  MkChain _ 0 8 (λ n, if (n <? 4)%N then ex_hash n else [x00])
    (λ n, if (n <? 4)%N then ex_logs n else if (n =? 4)%N then [(0, 99)]%N else []).

Definition branches (c : Chain N) : Prop := c = ex_chain ∨ c = branch ∨ c = shorter.

Lemma branches_wf c : branches c → chain_wf c.
Proof.
  intros [->|[->| ->]]; (split; [done|]); intros n; unfold ex_chain, branch, shorter, ex_logs; simpl;
    repeat case_match; repeat constructor.
Qed.

Lemma branches_commit c1 c2 : branches c1 → branches c2 → commits 1 c1 c2.
Proof.
  assert (∀ n m, (n < 4)%N → (m ≤ n)%N → (m <? 4)%N = true) as Hlt by (intros; apply N.ltb_lt; lia).
  assert (∀ n, (n ≤ 12)%N → (4 ≤ n)%N → ex_hash n ≠ [x00]) as Hex.
  { intros n Hn H4 Heq. assert (n = 4 ∨ n = 5 ∨ n = 6 ∨ n = 7 ∨ n = 8 ∨ n = 9 ∨ n = 10 ∨ n = 11 ∨ n = 12)%N as Hcase by lia.
    by repeat destruct Hcase as [->|Hcase]; subst. }
  intros [->|[->| ->]] [->|[->| ->]] n Hn Hn' Hh m Hm; try done; cbn [ch_hash ch_logs ch_head ex_chain branch shorter] in *;
    (destruct (n <? 4)%N eqn:H4; nbool; [by rewrite (Hlt n m) by lia|]); try done; exfalso;
    [by destruct (Hex n ltac:(lia) ltac:(lia))|by destruct (Hex n ltac:(lia) ltac:(lia))].
Qed.

(** The driver keeps following when the chain behind its source is replaced. *)
Lemma follows_put c (d : Driver (list (Position * N)) N (Chain N) NoSink) c' :
  branches c → follows (Fold0 := EngineSpec.recorder) branches c d →
  follows (Fold0 := EngineSpec.recorder) branches c (put_source c' d).
Proof. intros Hbr Hfd. apply (follows_marks _ _ d); try done; [apply (fo_synced _ _ _ Hfd)|by left..]. Qed.

End ConvergenceEx.
