(* ===== verification/Harness.v ===== *)
(** The harness of chainfold ([crates/chainfold/src/harness.rs]): a thread that polls a driver and
    publishes its status, and a handle that asks it for checkpoints, waits for a status and stops it.
    The mutex makes a section atomic; the interleavings of the sections are the runs of the program.
    Blocking calls of the driver's source belong to its tick. *)
From S2P Require Import Prelude Position Batch Ring Checkpoint ChainError Engine EngineSpec Driver DriverSpec.

(** What the threads may do next: the loop's next section, the end of its delay, and the handle's
    calls. *)
Inductive Action := Turn | Expire | Request | Shutdown.

#[export] Instance action_eq_dec : EqDecision Action.
Proof. solve_decision. Defined.

Section harness.
Context {F E X St SE K : Type} `{!Fold F E X} `{!Source St E SE} `{!SnapshotSink K F}.

Abbreviation D := (Driver F E St K).

(** ** State *)

(** Where the loop thread is: before it takes the requests, with them taken, after it published the
    status of a tick that may have panicked, after its first look at the stop signal, waiting on the
    condition variable, and ended by a break or by the rethrown panic. *)
Inductive Phase :=
| AtTop
| Took (requests : N)
| Published (panicked : bool)
| Polled
| Waiting
| Finished
| Unwound.

#[export] Instance phase_eq_dec : EqDecision Phase.
Proof. solve_decision. Defined.

(** [HarnessState], the watch channel, and the loop thread with its driver. *)
Record Harness := MkHarness {
  checkpoint_requests : N;
  stop : bool;
  published : DriverStatus;
  driver : D;
  phase : Phase;
}.

(** [spawn]. *)
Definition spawn (d : D) : Harness := MkHarness 0 false (driver_status d) d AtTop.

Definition at_phase (p : Phase) (h : Harness) : Harness :=
  MkHarness (checkpoint_requests h) (stop h) (published h) (driver h) p.

(** ** The loop *)

(** [catch_unwind] of one poll: requests coalesce into one checkpoint, then a tick. *)
Definition poll (requests : N) (d : D) : D * bool :=
  let d := if (0 <? requests)%N then driver_checkpoint d else d in
  match tick d with
  | (d, Returns _) => (d, false)
  | (d, Panics) => (d, true)
  end.

(** [!state.stop && state.checkpoint_requests == 0]: the condition under which the loop sleeps. *)
Definition idle (h : Harness) : bool := negb (stop h) && (checkpoint_requests h =? 0)%N.

(** The next section of the loop thread; [None] when it sleeps or has ended. *)
Definition loop_step (h : Harness) : option Harness :=
  match phase h with
  | AtTop => Some (MkHarness 0 (stop h) (published h) (driver h) (Took (checkpoint_requests h)))
  | Took requests =>
    let '(d, panicked) := poll requests (driver h) in
    Some (MkHarness (checkpoint_requests h) (stop h) (driver_status d) d (Published panicked))
  | Published panicked =>
    let terminal := is_terminal (driver_status (driver h)) in
    Some (at_phase (if panicked && negb terminal then Unwound
                    else if terminal || stop h then Finished else Polled) h)
  | Polled =>
    Some (at_phase (if stop h then Finished
                    else if (next_delay (driver h) =? 0)%N then AtTop
                    else if idle h then Waiting else AtTop) h)
  | Waiting => if idle h then None else Some (at_phase AtTop h)
  | Finished | Unwound => None
  end.

(** The delay runs out. *)
Definition expire (h : Harness) : option Harness :=
  match phase h with Waiting => Some (at_phase AtTop h) | _ => None end.

(** ** The handle *)

(** [Handle::request_checkpoint]. What the code waits for is a condition of the state, which it tests under
    the lock before it waits and whenever it wakes; so a waiting loop goes on in the model as soon as the
    condition fails, and the calls of [notify_all] here and in [shutdown], which wake it, leave nothing in
    the state. That a wake-up is delivered is the scheduler's. *)
Definition handle_request_checkpoint (h : Harness) : Harness :=
  MkHarness (u64_saturating_add (checkpoint_requests h) 1) (stop h) (published h) (driver h) (phase h).

(** [Handle::shutdown], up to the join. *)
Definition shutdown (h : Harness) : Harness :=
  MkHarness (checkpoint_requests h) true (published h) (driver h) (phase h).

(** The join: the driver, or the panic of the thread; [None] while it runs. *)
Definition join (h : Harness) : option (outcome D) :=
  match phase h with Finished => Some (Returns (driver h)) | Unwound => Some Panics | _ => None end.

Definition ended (h : Harness) : bool := match join h with Some _ => true | None => false end.

(** [Handle::settled]: the published status once it is accepted, or the last one; [None] is waiting. *)
Definition settled (accept : DriverStatus → bool) (h : Harness) : option DriverStatus :=
  if accept (published h) then Some (published h) else if ended h then Some (published h) else None.

Definition wait_caught_up : Harness → option DriverStatus := settled (λ s, ds_caught_up s || is_terminal s).
Definition wait_past (pos : Position) : Harness → option DriverStatus :=
  settled (λ s, is_terminal s || match ds_cursor s with Some c => negb (pos_ltb c pos) | None => false end).
Definition wait_durable (pos : Position) : Harness → option DriverStatus :=
  settled (λ s, is_terminal s || match ds_durable_cursor s with Some c => negb (pos_ltb c pos) | None => false end).

(** ** Runs *)

Definition act (a : Action) (h : Harness) : option Harness :=
  match a with
  | Turn => loop_step h
  | Expire => expire h
  | Request => Some (handle_request_checkpoint h)
  | Shutdown => Some (shutdown h)
  end.

Fixpoint run (tr : list Action) (h : Harness) : option Harness :=
  match tr with [] => Some h | a :: tr => h ← act a h; run tr h end.

(** ** Specification *)

(** The sequential loop: a checkpoint if asked for, then a tick. *)
Definition turn (d : D) (asked : bool) : D := (tick (if asked then driver_checkpoint d else d)).1.

(** The turns a run makes. *)
Fixpoint turns (tr : list Action) (h : Harness) : list bool :=
  match tr with
  | [] => []
  | a :: tr =>
    (match a, phase h with Turn, Took requests => [(0 <? requests)%N] | _, _ => [] end) ++
    match act a h with Some h => turns tr h | None => [] end
  end.

Definition requests_in (tr : list Action) : nat := length (filter (λ a, a = Request) tr).
Definition checkpoints_in (asked : list bool) : nat := length (filter (λ b : bool, b) asked).
Definition sections_in (tr : list Action) : nat := length (filter (λ a, a = Turn ∨ a = Expire) tr).

(** ** Lemmas *)

Lemma run_snoc tr a h : run (tr ++ [a]) h = h' ← run tr h; act a h'.
Proof.
  revert h. induction tr as [|b tr IH]; intros h; cbn [app run].
  - cbn [mbind option_bind]. by destruct (act a h).
  - destruct (act b h); cbn [mbind option_bind]; [apply IH|done].
Qed.

Lemma turns_snoc tr a h h' :
  run tr h = Some h' →
  turns (tr ++ [a]) h = turns tr h ++ match a, phase h' with Turn, Took requests => [(0 <? requests)%N] | _, _ => [] end.
Proof.
  revert h. induction tr as [|b tr IH]; intros h; cbn [app run turns].
  - intros [= ->]. cbn [app]. destruct (act a h'); by rewrite ?app_nil_r.
  - destruct (act b h) as [h1|]; cbn [mbind option_bind]; [|done]. intros Hr. by rewrite (IH _ Hr), app_assoc.
Qed.

Lemma poll_eq n d : poll n d =
  let d' := if (0 <? n)%N then driver_checkpoint d else d in
  (turn d (0 <? n)%N, match (tick d').2 with Returns _ => false | Panics => true end).
Proof. unfold poll, turn. cbn zeta. by destruct (tick _) as [d' [r|]]. Qed.

(** What holds after a run [tr] from a fresh harness over [d]. *)
Record run_inv (d : D) (tr : list Action) (h : Harness) : Prop := {
  ri_driver : driver h = fold_left turn (turns tr (spawn d)) d;
  ri_published : published h = driver_status (driver h);
  ri_stop : stop h = true → Shutdown ∈ tr;
  ri_finished : phase h = Finished → is_terminal (published h) = true ∨ stop h = true;
  ri_panicked : phase h = Published true ∨ phase h = Unwound →
    ∃ asked b, turns tr (spawn d) = asked ++ [b] ∧
      let d' := fold_left turn asked d in (tick (if b : bool then driver_checkpoint d' else d')).2 = Panics;
  ri_unwound : phase h = Unwound → is_terminal (published h) = false;
  ri_requests :
    checkpoints_in (turns tr (spawn d)) + (if (0 <? checkpoint_requests h)%N then 1 else 0) +
      (match phase h with Took n => if (0 <? n)%N then 1 else 0 | _ => 0 end) ≤ requests_in tr;
}.

Lemma requests_snoc tr a : requests_in (tr ++ [a]) = requests_in tr + (if decide (a = Request) then 1 else 0).
Proof. unfold requests_in. rewrite filter_app, length_app, filter_cons. by case_decide. Qed.

Lemma checkpoints_snoc l b : checkpoints_in (l ++ [b]) = checkpoints_in l + (if b : bool then 1 else 0).
Proof. unfold checkpoints_in. rewrite filter_app, length_app, filter_cons. by destruct b. Qed.

Lemma saturating_positive n : (0 <? u64_saturating_add n 1)%N = true.
Proof. apply N.ltb_lt. unfold u64_saturating_add, u64_max. lia. Qed.

(** The step that ticks. *)
Lemma run_inv_tick d tr h n :
  run_inv d tr h → run tr (spawn d) = Some h → phase h = Took n →
  run_inv d (tr ++ [Turn]) (let '(d', panicked) := poll n (driver h) in
    MkHarness (checkpoint_requests h) (stop h) (driver_status d') d' (Published panicked)).
Proof.
  intros [I1 I2 I3 I4 I5 I6 I7] Hrun Hp. rewrite poll_eq. cbn zeta. pose proof (turns_snoc tr Turn _ _ Hrun) as Ht. rewrite Hp in Ht.
  split; cbn [driver published stop phase checkpoint_requests]; rewrite ?Ht; try done.
  - by rewrite fold_left_app, <- I1.
  - intros Hs. apply elem_of_app. left. by apply I3.
  - intros [Hpan|?]; [|done]. injection Hpan as Hpan. eexists _, _. split; [done|]. cbn zeta. rewrite <- I1.
    by destruct (tick _).2.
  - rewrite requests_snoc, checkpoints_snoc. rewrite Hp in I7. cbn [decide]. case_decide; [done|]. lia.
Qed.

(** The other steps of the loop make no turn. *)
Lemma run_inv_loop d tr h r p a :
  run_inv d tr h → run tr (spawn d) = Some h → a ≠ Request → (∀ n, phase h ≠ Took n) →
  (p = Finished → is_terminal (published h) = true ∨ stop h = true) →
  (p = Unwound → phase h = Published true ∧ is_terminal (published h) = false) →
  (∀ b, p ≠ Published b) →
  r = checkpoint_requests h ∧ (∀ n, p ≠ Took n) ∨ r = 0%N ∧ p = Took (checkpoint_requests h) →
  run_inv d (tr ++ [a]) (MkHarness r (stop h) (published h) (driver h) p).
Proof.
  intros [I1 I2 I3 I4 I5 I6 I7] Hrun Ha Hp Hfin Hunw Hpub Hreq. pose proof (turns_snoc tr a _ _ Hrun) as Ht.
  assert (turns (tr ++ [a]) (spawn d) = turns tr (spawn d)) as Ht'.
  { rewrite Ht. destruct a, (phase h) eqn:Hph; rewrite ?app_nil_r; try done. by destruct (Hp requests). }
  split; cbn [driver published stop phase checkpoint_requests]; rewrite ?Ht'; try done.
  - intros Hs. apply elem_of_app. left. by apply I3.
  - intros [Hq|Hq]; [by destruct (Hpub true)|]. apply I5. left. by apply Hunw.
  - intros Hq. by apply Hunw.
  - rewrite requests_snoc, decide_False by done. rewrite Nat.add_0_r.
    assert (match phase h with Took n => if (0 <? n)%N then 1 else 0 | _ => 0 end = 0) as Hz.
    { destruct (phase h); try done. by destruct (Hp requests). }
    rewrite Hz in I7. destruct Hreq as [[-> Hq]|[-> ->]].
    + assert (match p with Took n => if (0 <? n)%N then 1 else 0 | _ => 0 end = 0) as ->.
      { destruct p; try done. by destruct (Hq requests). } lia.
    + change (0 <? 0)%N with false. cbn match. lia.
Qed.

Lemma run_inv_handle d tr h a h' :
  run_inv d tr h → run tr (spawn d) = Some h →
  a = Request ∧ h' = handle_request_checkpoint h ∨ a = Shutdown ∧ h' = shutdown h →
  run_inv d (tr ++ [a]) h'.
Proof.
  intros [I1 I2 I3 I4 I5 I6 I7] Hrun Ha. pose proof (turns_snoc tr a _ _ Hrun) as Ht.
  assert (turns (tr ++ [a]) (spawn d) = turns tr (spawn d)) as Ht'.
  { rewrite Ht. destruct Ha as [[-> _]|[-> _]]; by rewrite app_nil_r. }
  destruct Ha as [[-> ->]|[-> ->]]; split; cbn [driver published stop phase checkpoint_requests handle_request_checkpoint shutdown];
    rewrite ?Ht', ?requests_snoc; try done.
  - intros Hs. apply elem_of_app. left. by apply I3.
  - rewrite saturating_positive, decide_True by done. destruct (0 <? checkpoint_requests h)%N; lia.
  - intros _. apply elem_of_app. right. by apply list_elem_of_singleton.
  - auto.
  - case_decide; [done|]. lia.
Qed.

Lemma run_inv_holds d tr h : run tr (spawn d) = Some h → run_inv d tr h.
Proof.
  revert h. induction tr as [|a tr IH] using rev_ind; intros h'.
  { intros [= <-]. split; cbn; try done; try lia. by intros [?|?]. }
  rewrite run_snoc. destruct (run tr (spawn d)) as [h|] eqn:Hrun; [|done]. cbn [mbind option_bind]. specialize (IH h eq_refl).
  destruct a; cbn [act].
  - unfold loop_step. destruct (phase h) as [|n|panicked| | | |] eqn:Hp; intros Hs; try done.
    + injection Hs as <-. apply run_inv_loop; try done; auto; by rewrite Hp.
    + pose proof (run_inv_tick d tr h n IH Hrun Hp) as Hi. destruct (poll n (driver h)). by injection Hs as <-.
    + injection Hs as <-. rewrite <- (ri_published _ _ _ IH).
      apply run_inv_loop; try done; rewrite ?Hp; try done; destruct panicked, (is_terminal _), (stop h); simpl; auto; try done.
      all: left; split; [done|by intros]. 
    + injection Hs as <-. apply run_inv_loop; try done; rewrite ?Hp; try done;
        destruct (stop h), (next_delay (driver h) =? 0)%N, (idle h); simpl; auto; try done; left; split; done.
    + destruct (idle h); [done|]. injection Hs as <-. apply run_inv_loop; try done; rewrite ?Hp; try done. by left.
  - unfold expire. destruct (phase h) eqn:Hp; intros Hs; try done. injection Hs as <-.
    apply run_inv_loop; try done; rewrite ?Hp; try done. by left.
  - intros [= <-]. apply (run_inv_handle d tr h); auto.
  - intros [= <-]. apply (run_inv_handle d tr h); auto.
Qed.

(** ** Lemmas: what is asked for happens *)

(** Sections until the loop has ended, once it is asked to stop. *)
Definition until_ended (h : Harness) : nat :=
  match phase h with Waiting => 4 | AtTop => 3 | Took _ => 2 | Published _ | Polled => 1 | Finished | Unwound => 0 end.

(** Sections until the loop is about to take the requests. *)
Definition until_taken (h : Harness) : nat :=
  match phase h with Took _ => 3 | Published _ => 2 | Polled | Waiting => 1 | AtTop | Finished | Unwound => 0 end.

(** The loop has taken requests, and checkpoints next. *)
Definition takes_requests (tr : list Action) (h : Harness) : Prop :=
  ∃ tr1 tr2 h' n, tr = tr1 ++ tr2 ∧ run tr1 h = Some h' ∧ phase h' = Took n ∧ (0 < n)%N.

Lemma sections_cons a tr : sections_in (a :: tr) = (if decide (a = Turn ∨ a = Expire) then 1 else 0) + sections_in tr.
Proof. unfold sections_in. rewrite filter_cons. by case_decide. Qed.

Lemma stopping_step a h h' :
  stop h = true → act a h = Some h' →
  stop h' = true ∧ (if decide (a = Turn ∨ a = Expire) then 1 else 0) + until_ended h' ≤ until_ended h.
Proof.
  intros Hs. unfold until_ended. destruct a; cbn [act]; rewrite ?decide_True, ?decide_False by naive_solver.
  - unfold loop_step. destruct (phase h) as [|n|b| | | |]; intros Ha; try done.
    + injection Ha as <-. cbn. split; [done|lia].
    + destruct (poll n (driver h)). injection Ha as <-. cbn. split; [done|lia].
    + injection Ha as <-. split; [done|]. rewrite Hs, orb_true_r. cbn [at_phase phase].
      destruct (b && negb (is_terminal (driver_status (driver h)))); lia.
    + injection Ha as <-. rewrite Hs. by split.
    + unfold idle in Ha. rewrite Hs in Ha. injection Ha as <-. by split.
  - unfold expire. destruct (phase h); intros Ha; try done. injection Ha as <-. by split.
  - intros [= <-]. by split.
  - intros [= <-]. by split.
Qed.

Lemma stopping_run tr h h' : stop h = true → run tr h = Some h' → sections_in tr ≤ until_ended h.
Proof.
  revert h. induction tr as [|a tr IH]; intros h Hs; cbn [run]; [intros _; apply Nat.le_0_l|].
  destruct (act a h) as [h1|] eqn:Ha; [|done]. cbn [mbind option_bind]. intros Hr.
  destruct (stopping_step _ _ _ Hs Ha) as [Hs1 Hle]. specialize (IH h1 Hs1 Hr). rewrite sections_cons. lia.
Qed.

Lemma loop_step_enabled h : ended h = false → idle h = false → is_Some (loop_step h).
Proof.
  unfold ended, join, loop_step. intros He Hi. destruct (phase h) as [|n| | | | |]; try done.
  - by destruct (poll n (driver h)).
  - by rewrite Hi.
Qed.

Lemma stopping_ends n h :
  until_ended h ≤ n → stop h = true → ∃ k h', k ≤ n ∧ run (replicate k Turn) h = Some h' ∧ ended h' = true.
Proof.
  revert h. induction n as [|n IH]; intros h Hn Hs.
  all: destruct (ended h) eqn:He; [exists 0, h; by split_and!; [lia|done|]|].
  all: destruct (loop_step_enabled h He) as [h1 Hh1]; [unfold idle; by rewrite Hs|].
  all: destruct (stopping_step Turn h h1 Hs Hh1) as [Hs1 Hle]; rewrite decide_True in Hle by auto.
  { lia. }
  destruct (IH h1) as (k & h' & Hk & Hr & He'); [lia|done|]. exists (S k), h'.
  split; [lia|]. split; [|done]. cbn [replicate run act]. by rewrite Hh1.
Qed.

Lemma requested_step a h h' :
  (0 < checkpoint_requests h)%N → act a h = Some h' → ¬ (a = Turn ∧ phase h = AtTop) →
  (0 < checkpoint_requests h')%N ∧ (if decide (a = Turn ∨ a = Expire) then 1 else 0) + until_taken h' ≤ until_taken h.
Proof.
  intros Hq. unfold until_taken. destruct a; cbn [act]; rewrite ?decide_True, ?decide_False by naive_solver.
  - unfold loop_step. destruct (phase h) as [|n|b| | | |]; intros Ha Hne; try done.
    + by destruct Hne.
    + destruct (poll n (driver h)). injection Ha as <-. cbn. split; [done|lia].
    + injection Ha as <-. split; [done|]. cbn [at_phase phase].
      destruct (b && negb (is_terminal (driver_status (driver h)))), (is_terminal (driver_status (driver h)) || stop h); lia.
    + injection Ha as <-. split; [done|]. cbn [at_phase phase]. unfold idle.
      rewrite (proj2 (N.eqb_neq (checkpoint_requests h) 0)), andb_false_r by lia.
      destruct (stop h), (next_delay (driver h) =? 0)%N; lia.
    + destruct (idle h); [done|]. injection Ha as <-. by split.
  - unfold expire. destruct (phase h); intros Ha; try done. injection Ha as <-. by split.
  - intros [= <-] _. split; [|done]. cbn. apply N.ltb_lt, saturating_positive.
  - intros [= <-] _. by split.
Qed.

Lemma requested_run tr h h' :
  (0 < checkpoint_requests h)%N → run tr h = Some h' → sections_in tr ≤ until_taken h ∨ takes_requests tr h.
Proof.
  revert h. induction tr as [|a tr IH]; intros h Hq; cbn [run]; [intros _; left; apply Nat.le_0_l|].
  destruct (act a h) as [h1|] eqn:Ha; [|done]. cbn [mbind option_bind]. intros Hr. rewrite sections_cons.
  destruct (decide (a = Turn ∧ phase h = AtTop)) as [[-> Hp]|Hne].
  { right. exists [Turn], tr, h1, (checkpoint_requests h). split; [done|].
    assert (h1 = MkHarness 0 (stop h) (published h) (driver h) (Took (checkpoint_requests h))) as ->.
    { cbn [act] in Ha. unfold loop_step in Ha. rewrite Hp in Ha. by injection Ha as <-. }
    split; [|by split]. cbn [run]. by rewrite Ha. }
  destruct (requested_step a h h1 Hq Ha Hne) as [Hq1 Hle].
  destruct (IH h1 Hq1 Hr) as [Hs|(tr1 & tr2 & h2 & n & -> & Hr2 & Hp2 & Hn)]; [left; lia|].
  right. exists (a :: tr1), tr2, h2, n. split; [done|]. split; [|done]. cbn [run]. by rewrite Ha.
Qed.

(** ** Properties *)

(** C26. The harness is the sequential poll loop. In every interleaving of the loop with requests, expiring
    delays and a shutdown, the driver is what a sequence of turns makes of it, the published status is
    its own, and there are at most as many checkpoints as requests. When the thread has ended by a
    break, the handle gets that driver back, and it is terminal or was asked to stop; when it has ended by
    a panic, the last tick panicked and left the engine active. *)
Theorem harness_refines_polling d tr h :
  run tr (spawn d) = Some h →
  driver h = fold_left turn (turns tr (spawn d)) d ∧ published h = driver_status (driver h) ∧
  checkpoints_in (turns tr (spawn d)) ≤ requests_in tr ∧
  match join h with
  | Some (Returns d') => d' = driver h ∧ (is_terminal (published h) = true ∨ Shutdown ∈ tr)
  | Some Panics => is_terminal (published h) = false ∧
      ∃ asked b, turns tr (spawn d) = asked ++ [b] ∧
        let d' := fold_left turn asked d in (tick (if b : bool then driver_checkpoint d' else d')).2 = Panics
  | None => True
  end.
Proof.
  intros Hrun. destruct (run_inv_holds d tr h Hrun) as [I1 I2 I3 I4 I5 I6 I7].
  split; [exact I1|]. split; [exact I2|]. split; [lia|]. unfold join. destruct (phase h) eqn:Hp; try done.
  - split; [done|]. destruct (I4 eq_refl) as [?|Hs]; [by left|right; by apply I3].
  - split; [by apply I6|]. apply I5. by right.
Qed.

(** C27. The handle is heard. While the loop is asked for something and has not ended, its next section can
    run. Asked to stop, it runs at most four more, whatever else happens, and then has ended. Asked for
    a checkpoint, it runs at most three before it takes the request, or it ends. *)
Theorem harness_responds h :
  ended h = false → stop h = true ∨ (0 < checkpoint_requests h)%N →
  is_Some (loop_step h) ∧
  (stop h = true →
    (∃ k h', k ≤ 4 ∧ run (replicate k Turn) h = Some h' ∧ ended h' = true) ∧
    ∀ tr h', run tr h = Some h' → sections_in tr ≤ 4) ∧
  ((0 < checkpoint_requests h)%N →
    ∀ tr h', run tr h = Some h' → sections_in tr ≤ 3 ∨ takes_requests tr h).
Proof.
  intros He Hask.
  assert (until_ended h ≤ 4 ∧ until_taken h ≤ 3) as [H4 H3] by (unfold until_ended, until_taken; destruct (phase h); lia).
  split_and!.
  - apply loop_step_enabled; [done|]. unfold idle. destruct Hask as [->|Hq]; [done|].
    by rewrite (proj2 (N.eqb_neq (checkpoint_requests h) 0)), andb_false_r by lia.
  - intros Hs. split; [by apply stopping_ends|]. intros tr h' Hr. pose proof (stopping_run tr h h' Hs Hr). lia.
  - intros Hq tr h' Hr. destruct (requested_run tr h h' Hq Hr) as [?|?]; [left; lia|by right].
Qed.
End harness.

(** ** Example: a source that fails *)

Module HarnessEx.
Definition failing : Source () N () := {|
  source_head := sm_fail ();
  header_at _ := sm_fail ();
  events_in _ _ := sm_fail ();
  horizon _ := FromBlock 7;
  window _ := 0%N;
|}.

#[local] Existing Instances EngineSpec.recorder failing.

(** A request, a turn that ends in a backoff, a shutdown that wakes the loop, and its last turn. *)
Definition script : list Action := [Request; Turn; Turn; Turn; Turn; Shutdown; Turn; Turn; Turn; Turn].
Definition start : Harness := spawn ex_driver.
Definition end_ : Harness := default start (run script start).

Lemma script_runs : run script start = Some end_.
Proof. vm_compute. reflexivity. Qed.

Lemma script_turns : turns script start = [true; false].
Proof. vm_compute. reflexivity. Qed.

Lemma harness_refines_polling_witness :
  phase end_ = Finished ∧ published end_ = driver_status (driver end_) ∧ checkpoints_in [true; false] ≤ requests_in script.
Proof.
  destruct (harness_refines_polling ex_driver script end_ script_runs)
    as (_ & H1 & H2 & _).
  fold start in H2. rewrite script_turns in H2. split; [vm_compute; reflexivity|]. split; [exact H1|exact H2].
Defined.

(** The loop waits out a backoff when the handle asks it to stop. *)
Definition asleep : Harness :=
  default start (run [Turn; Turn; Turn; Turn; Shutdown] start).

Lemma harness_responds_witness :
  phase asleep = Waiting ∧ is_Some (loop_step asleep).
Proof.
  split; [vm_compute; reflexivity|].
  apply (harness_responds asleep); [vm_compute; reflexivity|left; vm_compute; reflexivity].
Defined.
End HarnessEx.
