(* ===== verification/Checksum.v ===== *)
(** The CRC32C checksum that frames snapshots, manifest slots and log frames. The crates call
    third-party code for it, so it is a type class here; a bitwise implementation of the
    catalogued CRC-32/ISCSI shows that the class has an instance. *)
From S2P Require Import Prelude.

(** [crc32c(bytes)]. *)
Class Checksum := crc32c : bytes → N.

(** The checksum is a [u32]. *)
Class ChecksumLaws `(Checksum) := crc32c_bound bs : (crc32c bs < 256 ^ 4)%N.

(** ** A bitwise implementation *)

(** One bit of the reflected polynomial division. *)
Definition crc_bit (c : N) : N :=
  if N.testbit c 0 then N.lxor (N.shiftr c 1) 0x82F63B78 else N.shiftr c 1.
Definition crc_byte (c : N) (b : byte) : N := Nat.iter 8 crc_bit (N.lxor c (Byte.to_N b)).
Definition crc_bitwise (bs : bytes) : N :=
  N.land (N.lxor (foldl crc_byte 0xFFFFFFFF%N bs) 0xFFFFFFFF) 0xFFFFFFFF.

Definition iscsi : Checksum := crc_bitwise.

Lemma iscsi_laws : ChecksumLaws iscsi.
Proof.
  intros bs. unfold crc32c, iscsi, crc_bitwise. change 0xFFFFFFFF%N with (N.ones 32).
  rewrite N.land_ones. apply N.mod_lt. done.
Qed.

(** The catalogue's check value, for the bytes ["123456789"]. *)
Example iscsi_check : crc_bitwise (byte_of_N <$> [49; 50; 51; 52; 53; 54; 55; 56; 57]%N) = 0xE3069283%N.
Proof. reflexivity. Qed.
