(* ===== verification/Snapshot.v ===== *)
(** The snapshot envelope of chainfold ([crates/chainfold/src/snapshot.rs]): an engine's fold,
    cursor and observed blocks, framed with a CRC32C trailer. The fold's own encoding is a type
    class; the checksum and the field codec are third-party code, so they are classes with the
    behaviour the envelope relies on as their laws. *)
From S2P Require Import Prelude Checksum Position Batch Ring Checkpoint ChainError Engine EngineSpec.

(** ** Interfaces *)

(** [Envelope]: the fields in wire order. *)
Record Envelope := MkEnvelope {
  env_magic : bytes;
  env_version : N;
  env_tag : bytes;
  env_cursor_set : N;
  env_cursor_block : N;
  env_cursor_log_index : N;
  env_ring_numbers : list N;
  env_ring_hashes : bytes;
  env_state : bytes;
}.

(** The field codec (wincode, under the envelope's configuration). *)
Class Codec := {
  serialize : Envelope → option bytes;
  deserialize : bytes → option Envelope;
}.

(** What was serialized deserializes to itself, and starts with the raw magic and the
    little-endian version. *)
Class CodecLaws `(Codec) := {
  deserialize_serialize env bs : serialize env = Some bs → deserialize bs = Some env;
  serialize_prefix env bs : length (env_magic env) = 8 → (env_version env < 256 ^ 2)%N →
    serialize env = Some bs → take 10 bs = env_magic env ++ le_bytes 2 (env_version env);
}.

(** The [Persist] trait. *)
Class Persist (F PE : Type) := {
  STATE_TAG : bytes;
  encode_state : F → bytes;
  decode_state : bytes → result F PE;
}.

(** A fold whose state decodes to what was encoded. *)
Class PersistLaws `(Persist F PE) :=
  decode_encode_state f : decode_state (encode_state f) = Ok f.

(** ** Data *)

Definition HASH_LEN : nat := 32.
Definition MAGIC_LEN : nat := 8.
Definition VERSION_LEN : nat := 2.
Definition CRC_LEN : nat := 4.
Definition MIN_ENVELOPE_LEN : nat := MAGIC_LEN + VERSION_LEN + CRC_LEN.
Definition MAX_ENVELOPE_FIELD_LEN : N := 1073741824.

(** [b"CHNFOLD1"]. *)
Definition SNAPSHOT_MAGIC : bytes := byte_of_N <$> [67; 72; 78; 70; 79; 76; 68; 49]%N.
Definition SNAPSHOT_VERSION : N := 1.

(** [SnapshotError<E>]. *)
Inductive SnapshotError (PE : Type) :=
| TooShort
| BadMagic
| BadVersion (got : N)
| BadTag
| Crc (expected got : N)
| EnvelopeInvalid
| TooLarge (limit : N)
| SnapshotPoisoned (at_ : Position)
| RingExceedsCapacity (len capacity : nat)
| RingNotAscending
| RingHashLenMismatch
| RingCursorMismatch
| Config (e : ConfigError)
| StateInvalid (e : PE).
Arguments TooShort {PE}.
Arguments BadMagic {PE}.
Arguments BadVersion {PE} got.
Arguments BadTag {PE}.
Arguments Crc {PE} expected got.
Arguments EnvelopeInvalid {PE}.
Arguments TooLarge {PE} limit.
Arguments SnapshotPoisoned {PE} at_.
Arguments RingExceedsCapacity {PE} len capacity.
Arguments RingNotAscending {PE}.
Arguments RingHashLenMismatch {PE}.
Arguments RingCursorMismatch {PE}.
Arguments Config {PE} e.
Arguments StateInvalid {PE} e.

(** [ring_lanes]. *)
Definition ring_lanes (blocks : list BlockRef) : list N * bytes :=
  foldl (λ lanes b, (lanes.1 ++ [number b], lanes.2 ++ bhash b)) ([], []) blocks.

(** [cursor_fields]. *)
Definition cursor_fields (cursor : option Position) : N * N * N :=
  match cursor with Some pos => (1, block pos, log_index pos)%N | None => (0, 0, 0)%N end.

(** [slice::chunks_exact(HASH_LEN)]. *)
Definition hash_chunks (bs : bytes) : list hash :=
  (λ i, slice (i * HASH_LEN) HASH_LEN bs) <$> seq 0 (length bs / HASH_LEN).

Section snapshot.
Context {F PE : Type} `{!Checksum, !Codec, !Persist F PE}.

(** ** Encoding *)

(** [write_envelope]; the output buffer is left as it was on failure. *)
Definition write_envelope (env : Envelope) (out : bytes) : bytes * result () (SnapshotError PE) :=
  match serialize env with
  | None => (out, Err (TooLarge MAX_ENVELOPE_FIELD_LEN))
  | Some payload => (out ++ payload ++ le_bytes CRC_LEN (crc32c payload), Ok ())
  end.

(** [encode_envelope]. *)
Definition encode_envelope (f : F) (cursor : option Position) (blocks : list BlockRef) (out : bytes)
    : bytes * result () (SnapshotError PE) :=
  let (ring_numbers, ring_hashes) := ring_lanes blocks in
  let '(cursor_set, cursor_block, cursor_log_index) := cursor_fields cursor in
  write_envelope
    (MkEnvelope SNAPSHOT_MAGIC SNAPSHOT_VERSION STATE_TAG cursor_set cursor_block cursor_log_index
       ring_numbers ring_hashes (encode_state f)) out.

(** [Engine::encode_snapshot]. *)
Definition encode_snapshot (e : Engine F) (out : bytes) : bytes * result () (SnapshotError PE) :=
  match status e with
  | Poisoned at_ => (out, Err (SnapshotPoisoned at_))
  | _ => encode_envelope (fold e) (cursor e) (observed e) out
  end.

(** [Engine::encode_durable_snapshot]. *)
Definition encode_durable_snapshot (e : Engine F) (out : bytes)
    : bytes * result (option Position) (SnapshotError PE) :=
  match oldest_checkpoint e with
  | None => (out, Ok None)
  | Some slot =>
    match slot_cursor slot with
    | None => (out, Ok None)
    | Some point =>
      let window := observed_at_or_below e (block point) in
      match encode_envelope (slot_fold slot) (slot_cursor slot) window out with
      | (out, Ok _) => (out, Ok (Some point))
      | (out, Err err) => (out, Err err)
      end
    end
  end.

(** ** Decoding *)

(** [Engine::decode_snapshot]. Every chunk of the hash lane has the hash's width, so the
    conversion of a chunk into a hash does not fail. *)
Definition decode_snapshot (bs : bytes) (c : EngineConfig) : result (Engine F) (SnapshotError PE) :=
  match config_validate c with
  | Err e => Err (Config e)
  | Ok _ =>
    if length bs <? MIN_ENVELOPE_LEN then Err TooShort else
    if negb (bool_decide (take MAGIC_LEN bs = SNAPSHOT_MAGIC)) then Err BadMagic else
    let version := le_value (slice MAGIC_LEN 2 bs) in
    if negb (version =? SNAPSHOT_VERSION)%N then Err (BadVersion version) else
    let payload := take (length bs - CRC_LEN) bs in
    let trailer := drop (length bs - CRC_LEN) bs in
    let expected := le_value trailer in
    let got := crc32c payload in
    if negb (got =? expected)%N then Err (Crc expected got) else
    match deserialize payload with
    | None => Err EnvelopeInvalid
    | Some env =>
      if negb (bool_decide (env_tag env = STATE_TAG)) then Err BadTag else
      let n := length (env_ring_numbers env) in
      if ring_capacity c <? n then Err (RingExceedsCapacity n (ring_capacity c)) else
      match first_descent (env_ring_numbers env) with
      | Some _ => Err RingNotAscending
      | None =>
        if negb (length (env_ring_hashes env) =? n * HASH_LEN) then Err RingHashLenMismatch else
        let cursor := if negb (env_cursor_set env =? 0)%N
                      then Some (MkPosition (env_cursor_block env) (env_cursor_log_index env)) else None in
        if negb (bool_decide (last (env_ring_numbers env) = block <$> cursor)) then Err RingCursorMismatch else
        match decode_state (env_state env) with
        | Err e => Err (StateInvalid e)
        | Ok f =>
          let ring := foldl (λ r p, ring_push r (MkBlockRef p.1 p.2)) (with_capacity (ring_capacity c))
                        (zip (env_ring_numbers env) (hash_chunks (env_ring_hashes env))) in
          match engine_new f c with
          | Err e => Err (Config e)
          | Ok e => Ok (restore_cursor_and_ring e cursor ring)
          end
        end
      end
    end
  end.

(** ** Specification *)

(** An engine restored from some fold, cursor and history: nothing else is kept. *)
Record restored (e : Engine F) (c : EngineConfig) (f : F) (cur : option Position) (blocks : list BlockRef) : Prop := {
  re_wf : engine_wf e;
  re_fold : fold e = f;
  re_cursor : cursor e = cur;
  re_ring : ring_list (ring e) = blocks;
  re_capacity : capacity (ring e) = ring_capacity c;
  re_status : status e = Active;
  re_checkpoints : checkpoints e = cp_new (checkpoint_slots c);
  re_rest : last_verified e = None ∧ skips e = 0%N ∧ resets e = 0%N;
}.

(** Blocks whose hashes have their fixed width. *)
Abbreviation hashes_wf := (Forall (λ b, length (bhash b) = HASH_LEN)).

(** ** Lemmas: lanes *)

Lemma ring_lanes_eq blocks : ring_lanes blocks = (number <$> blocks, mjoin (bhash <$> blocks)).
Proof.
  unfold ring_lanes. assert (∀ ns hs, foldl (λ lanes b, (lanes.1 ++ [number b], lanes.2 ++ bhash b)) (ns, hs) blocks =
    (ns ++ (number <$> blocks), hs ++ mjoin (bhash <$> blocks))) as Hgen; [|apply (Hgen [] [])].
  induction blocks as [|b blocks IH]; intros ns hs; simpl; [by rewrite !app_nil_r|].
  rewrite IH. simpl. by rewrite <- !app_assoc.
Qed.

Lemma hash_chunks_join (hs : list hash) : Forall (λ h, length h = HASH_LEN) hs → hash_chunks (mjoin hs) = hs.
Proof.
  intros Hh. unfold hash_chunks.
  assert (length (mjoin hs) = length hs * HASH_LEN) as Hl.
  { induction Hh as [|h hs Hh _ IH]; [done|]. rewrite mjoin_cons, length_app, IH, Hh. simpl. lia. }
  rewrite Hl, Nat.div_mul by done. clear Hl. induction Hh as [|h hs Hh _ IH]; [done|].
  rewrite mjoin_cons. cbn [length seq]. rewrite fmap_cons. f_equal.
  - rewrite Nat.mul_0_l, slice_0, take_app_le, take_ge by lia. done.
  - rewrite <- IH at 2. rewrite <- fmap_S_seq, <- list_fmap_compose. apply list_fmap_ext. intros i n _.
    unfold compose, slice. f_equal. rewrite drop_app_ge by lia. f_equal. lia.
Qed.

Lemma length_hash_chunks bs n : length bs = n * HASH_LEN → length (hash_chunks bs) = n.
Proof. intros Hl. unfold hash_chunks. by rewrite length_fmap, length_seq, Hl, Nat.div_mul. Qed.

(** A history pushed into an empty ring that can hold it. *)
Lemma push_history k blocks :
  ascending (number <$> blocks) → length blocks ≤ 2 ^ k →
  let r := foldl ring_push (with_capacity (2 ^ k)) blocks in
  ring_wf r ∧ ring_list r = blocks ∧ capacity r = 2 ^ k.
Proof.
  induction blocks as [|b blocks IH] using rev_ind; intros Hasc Hlen.
  { split_and!; [apply with_capacity_wf|done|]. unfold capacity. simpl. by rewrite length_replicate. }
  rewrite fmap_app in Hasc. apply StronglySorted_app in Hasc as (Hlt & Hasc & _).
  rewrite length_app in Hlen. simpl in Hlen.
  destruct IH as (Hwf & Hl & Hc); [done|lia|]. cbn zeta in *. rewrite foldl_snoc. split_and!.
  - apply ring_push_wf; [done|]. intros n. rewrite newest_number_list, Hl. intros Hn.
    apply fmap_Some in Hn as (b' & Hb' & ->). apply Hlt; [|left].
    apply list_elem_of_fmap_2. by apply last_Some_elem_of.
  - rewrite ring_push_list, Hl, Hc by done. unfold push_list. by rewrite (proj2 (Nat.ltb_lt _ _)) by lia.
  - by rewrite ring_push_capacity.
Qed.

(** ** Lemmas: frames *)

Definition envelope_of (f : F) (cursor : option Position) (blocks : list BlockRef) : Envelope :=
  let '(cursor_set, cursor_block, cursor_log_index) := cursor_fields cursor in
  MkEnvelope SNAPSHOT_MAGIC SNAPSHOT_VERSION STATE_TAG cursor_set cursor_block cursor_log_index
    (number <$> blocks) (mjoin (bhash <$> blocks)) (encode_state f).

Lemma encode_envelope_ok f cursor blocks out out' :
  encode_envelope f cursor blocks out = (out', Ok ()) →
  ∃ payload, serialize (envelope_of f cursor blocks) = Some payload ∧
    out' = out ++ payload ++ le_bytes CRC_LEN (crc32c payload).
Proof.
  unfold encode_envelope, envelope_of, write_envelope. rewrite ring_lanes_eq.
  destruct (cursor_fields cursor) as [[cs cb] cl]. destruct (serialize _) as [payload|]; [|done].
  intros [= <-]. by exists payload.
Qed.

(** What the checks of the decoder establish. *)
Lemma decode_restores c f cur (ns : list N) (hs : bytes) :
  config_validate c = Ok () → first_descent ns = None → length hs = length ns * HASH_LEN →
  length ns ≤ ring_capacity c → last ns = block <$> cur →
  let ring := foldl (λ r p, ring_push r (MkBlockRef p.1 p.2)) (with_capacity (ring_capacity c)) (zip ns (hash_chunks hs)) in
  ∃ e, engine_new f c = Ok e ∧
    restored (restore_cursor_and_ring e cur ring) c f cur (zip_with MkBlockRef ns (hash_chunks hs)).
Proof.
  intros Hcfg Hasc Hlen Hcap Hlast ring. apply first_descent_None in Hasc.
  destruct (config_validate_ok c Hcfg) as [k Hk].
  set (blocks := zip_with MkBlockRef ns (hash_chunks hs)).
  pose proof (length_hash_chunks hs (length ns) Hlen) as Hch.
  assert (number <$> blocks = ns) as Hns.
  { unfold blocks. clear -Hch. revert Hch. generalize (hash_chunks hs). induction ns as [|n ns IH]; intros [|h l]; simpl; try done.
    intros [= Hl]. f_equal. by apply IH. }
  assert (ring = foldl ring_push (with_capacity (2 ^ k)) blocks) as Hring.
  { unfold ring, blocks. rewrite Hk. clear. generalize (with_capacity (2 ^ k)) (hash_chunks hs).
    induction ns as [|n ns IH]; intros r [|h l]; simpl; try done. }
  destruct (push_history k blocks) as (Hwf & Hl & Hc); [by rewrite Hns| |].
  { unfold blocks. rewrite length_zip_with, Hch, Nat.min_id, <- Hk. done. }
  rewrite <- Hring in *. unfold engine_new. rewrite Hcfg. eexists. split; [reflexivity|].
  split; try done; simpl; [|by rewrite Hc].
  split; simpl; [done|apply cp_new_wf| |].
  - rewrite newest_number_list, Hl. rewrite <- Hlast, <- Hns. symmetry. apply fmap_last.
  - assert (held (@cp_new F (checkpoint_slots c)) = []) as ->; [|constructor].
    unfold held, rot. simpl. rewrite drop_0, take_0, app_nil_r. apply omap_id_None.
Qed.

(** A frame splits into its payload and its trailer, and passes the checks before the codec. *)
Lemma frame_split `{!ChecksumLaws _, !CodecLaws _} env payload :
  env_magic env = SNAPSHOT_MAGIC → env_version env = SNAPSHOT_VERSION → serialize env = Some payload →
  let bs := payload ++ le_bytes CRC_LEN (crc32c payload) in
  MIN_ENVELOPE_LEN ≤ length bs ∧ take MAGIC_LEN bs = SNAPSHOT_MAGIC ∧
  le_value (slice MAGIC_LEN 2 bs) = SNAPSHOT_VERSION ∧
  take (length bs - CRC_LEN) bs = payload ∧
  le_value (drop (length bs - CRC_LEN) bs) = crc32c payload.
Proof.
  intros Hm Hv Hs bs. pose proof (serialize_prefix env payload) as Hp. rewrite Hm, Hv in Hp.
  specialize (Hp eq_refl eq_refl Hs).
  assert (10 ≤ length payload) as Hlen.
  { apply (f_equal length) in Hp. rewrite length_take in Hp. change (length (_ ++ _)) with 10 in Hp. lia. }
  assert (payload = (SNAPSHOT_MAGIC ++ le_bytes 2 SNAPSHOT_VERSION) ++ drop 10 payload) as Heq.
  { rewrite <- Hp. by rewrite take_drop. }
  assert (length bs = length payload + 4) as Hl.
  { unfold bs. by rewrite length_app, length_le_bytes. }
  rewrite Hl. unfold CRC_LEN. replace (length payload + 4 - 4) with (length payload) by lia.
  split_and!.
  - change MIN_ENVELOPE_LEN with 14. lia.
  - unfold bs. rewrite Heq. reflexivity.
  - unfold bs. rewrite Heq. reflexivity.
  - unfold bs. apply take_app_length.
  - unfold bs. rewrite drop_app_length. apply le_value_bytes_small. apply crc32c_bound.
Qed.

(** An encoded envelope decodes to the fold, cursor and history it was made from. *)
Lemma decode_encode_envelope `{!ChecksumLaws _, !CodecLaws _, !PersistLaws _} c f cursor blocks out out' :
  config_validate c = Ok () → encode_envelope f cursor blocks out = (out', Ok ()) →
  ascending (number <$> blocks) → number <$> last blocks = block <$> cursor →
  length blocks ≤ ring_capacity c → hashes_wf blocks →
  ∃ e', decode_snapshot (drop (length out) out') c = Ok e' ∧ restored e' c f cursor blocks.
Proof.
  intros Hcfg Henc Hasc Hlast Hcap Hh.
  destruct (encode_envelope_ok _ _ _ _ _ Henc) as (payload & Hs & ->). rewrite drop_app_length.
  pose proof (frame_split (envelope_of f cursor blocks) payload) as Hf.
  assert (hash_chunks (mjoin (bhash <$> blocks)) = bhash <$> blocks) as Hch.
  { apply hash_chunks_join. by apply Forall_fmap. }
  assert (length (mjoin (bhash <$> blocks)) = length (number <$> blocks) * HASH_LEN) as Hl.
  { clear -Hh. induction Hh as [|b l Hb _ IH]; [done|]. rewrite !fmap_cons, mjoin_cons, length_app, IH, Hb. simpl. lia. }
  destruct (decode_restores c f cursor (number <$> blocks) (mjoin (bhash <$> blocks))) as (e & Hnew & Hr);
    [done|by apply first_descent_None|done|by rewrite length_fmap|by rewrite fmap_last|].
  unfold envelope_of in *. destruct (cursor_fields cursor) as [[cs cb] cl] eqn:Hcf.
  specialize (Hf eq_refl eq_refl Hs) as (Hmin & Hmag & Hver & Hpl & Htr).
  eexists. split; [|]. 
  - unfold decode_snapshot. rewrite Hcfg, (proj2 (Nat.ltb_ge _ _) Hmin), Hmag.
    rewrite bool_decide_true by done. cbn [negb]. rewrite Hver, N.eqb_refl. cbn [negb].
    rewrite Hpl, Htr, N.eqb_refl, (deserialize_serialize _ _ Hs). cbn [negb env_tag env_ring_numbers env_ring_hashes env_cursor_set env_cursor_block env_cursor_log_index env_state].
    rewrite bool_decide_true by done. cbn [negb].
    rewrite (proj2 (Nat.ltb_ge _ _)) by (rewrite length_fmap; lia).
    rewrite (proj2 (first_descent_None _) Hasc), Hl, Nat.eqb_refl. cbn [negb].
    assert ((if negb (cs =? 0)%N then Some (MkPosition cb cl) else None) = cursor) as ->.
    { destruct cursor as [[]|]; by simplify_eq/=. }
    rewrite bool_decide_true by (by rewrite fmap_last). cbn [negb].
    rewrite decode_encode_state, Hnew. reflexivity.
  - assert (zip_with MkBlockRef (number <$> blocks) (bhash <$> blocks) = blocks) as Hz.
    { clear. induction blocks as [|[n h] blocks IH]; [done|]. rewrite !fmap_cons. cbn [zip_with number bhash]. by rewrite IH. }
    rewrite Hch in Hr |- *. rewrite Hz in Hr. exact Hr.
Qed.

(** ** Properties *)

(** C35. Snapshots round trip: encoding only appends; a poisoned engine is never encoded; and what an
    encoded engine decodes to, under any valid configuration whose ring can hold its history, is
    a well-formed active engine with the same fold, cursor and history and with no checkpoint. *)
Theorem snapshot_roundtrip `{!ChecksumLaws _, !CodecLaws _, !PersistLaws _} (e : Engine F) c out out' :
  engine_wf e → hashes_wf (ring_list (ring e)) → config_validate c = Ok () → len (ring e) ≤ ring_capacity c →
  encode_snapshot e out = (out', Ok ()) →
  (∀ p, status e ≠ Poisoned p) ∧ take (length out) out' = out ∧
  ∃ e', decode_snapshot (drop (length out) out') c = Ok e' ∧
    restored e' c (fold e) (cursor e) (ring_list (ring e)).
Proof.
  intros Hwf Hh Hcfg Hcap Henc. pose proof (ewf_ring e Hwf) as Hr. unfold encode_snapshot in Henc.
  assert (encode_envelope (fold e) (cursor e) (ring_list (ring e)) out = (out', Ok ())) as Henc'.
  { unfold observed in Henc. rewrite ring_iter_list in Henc by done. by destruct (status e). }
  destruct (encode_envelope_ok _ _ _ _ _ Henc') as (payload & _ & Hout). split_and!.
  - intros p Hp. by rewrite Hp in Henc.
  - rewrite Hout. apply take_app_length.
  - eapply decode_encode_envelope; [done|exact Henc'|apply Hr| |by rewrite length_ring_list|done].
    rewrite <- newest_number_list. apply Hwf.
Qed.

(** Durable snapshots: [Ok(None)] appends nothing; [Ok(Some point)] means the oldest live
    checkpoint sits at [point], and the appended bytes decode to the engine that checkpoint
    stands for: its fold, its cursor and the history up to its block. *)
Theorem durable_snapshot_roundtrip `{!ChecksumLaws _, !CodecLaws _, !PersistLaws _} (e : Engine F) c out out' point :
  engine_wf e → hashes_wf (ring_list (ring e)) → config_validate c = Ok () → len (ring e) ≤ ring_capacity c →
  encode_durable_snapshot e out = (out', Ok point) →
  point = durable_point e ∧ take (length out) out' = out ∧
  match point with
  | None => out' = out
  | Some p => ∃ f e', durable_fold e = Some f ∧ decode_snapshot (drop (length out) out') c = Ok e' ∧
      restored e' c f (Some p) (at_or_below (block p) (ring_list (ring e)))
  end.
Proof.
  intros Hwf Hh Hcfg Hcap. pose proof (ewf_ring e Hwf) as Hr.
  unfold encode_durable_snapshot, durable_point, durable_fold, oldest_checkpoint.
  destruct (oldest (checkpoints e) (ring e)) as [s|] eqn:Hs; simpl;
    [|intros [= -> <-]; by rewrite take_ge by done].
  destruct (slot_cursor s) as [p|] eqn:Hp; simpl; [|intros [= -> <-]; by rewrite take_ge by done].
  destruct (encode_envelope _ _ _ _) as [o [[]|?]] eqn:Henc; [|done]. intros [= -> <-].
  destruct (encode_envelope_ok _ _ _ _ _ Henc) as (payload & _ & Hout).
  split; [done|]. split; [rewrite Hout; apply take_app_length|].
  assert (s ∈ oldest_first (checkpoints e) (ring e)) as [_ Hlive]%oldest_first_elem.
  { unfold oldest in Hs. destruct (oldest_first _ _); simplify_eq/=. left. }
  unfold live in Hlive. rewrite Hp in Hlive. apply observes_spec in Hlive; [|done].
  unfold observed_at_or_below in Henc. rewrite iter_at_or_below_list in Henc by done.
  destruct (decode_encode_envelope c (slot_fold s) (Some p) (at_or_below (block p) (ring_list (ring e))) out out')
    as (e' & He' & Hre); [done|done| | | | |by exists (slot_fold s), e'].
  - rewrite <- truncate_above_list by done. apply truncate_above_wf, Hr.
  - apply newest_at_or_below; [apply Hr|done].
  - etransitivity; [|exact Hcap]. rewrite <- length_ring_list. apply length_filter.
  - apply Forall_forall. intros b [_ Hb]%list_elem_of_filter. rewrite Forall_forall in Hh. by apply Hh.
Qed.

(** C36. Decoding is safe on any bytes: an engine that comes out is well-formed, active, holds the
    fold its state decodes to and has no checkpoint, under a valid configuration; and the
    bytes carried the magic, the version, the checksum and the fold's tag. *)
Theorem decode_snapshot_safe bs c (e : Engine F) :
  decode_snapshot bs c = Ok e →
  (∃ f cur blocks, restored e c f cur blocks) ∧
  take MAGIC_LEN bs = SNAPSHOT_MAGIC ∧ le_value (slice MAGIC_LEN 2 bs) = SNAPSHOT_VERSION ∧
  ∃ env, deserialize (take (length bs - CRC_LEN) bs) = Some env ∧ env_tag env = STATE_TAG ∧
    crc32c (take (length bs - CRC_LEN) bs) = le_value (drop (length bs - CRC_LEN) bs) ∧
    decode_state (env_state env) = Ok (fold e).
Proof.
  unfold decode_snapshot. destruct (config_validate c) as [[]|] eqn:Hcfg; [|done].
  repeat (case_match; nbool; try done); intros [= <-];
    match goal with Hn : engine_new ?f _ = _, Hl : last _ = _ |- _ =>
      destruct (decode_restores c f _ _ _ Hcfg ltac:(eassumption) ltac:(eassumption) ltac:(eassumption) Hl)
        as (e1 & Hnew & Hre); rewrite Hn in Hnew; injection Hnew as <-
    end;
    (split; [by eauto|]; split_and!; [done|done|]; eexists; split_and!; [done|done|done|]; by rewrite (re_fold _ _ _ _ _ Hre)).
Qed.

End snapshot.



(** ** Witnesses: a fixed-width codec with length prefixes, and a fold of bytes *)

Definition read (n : nat) (bs : bytes) : option (bytes * bytes) :=
  if length bs <? n then None else Some (take n bs, drop n bs).
Definition read_int (k : nat) (bs : bytes) : option (N * bytes) := prod_map le_value id <$> read k bs.
Definition write_seq (n : nat) (bs : bytes) : bytes := le_bytes 8 (N.of_nat n) ++ bs.
Definition read_bytes (bs : bytes) : option (bytes * bytes) :=
  '(n, bs) ← read_int 8 bs; read (N.to_nat n) bs.
Fixpoint read_ints (n : nat) (bs : bytes) : option (list N * bytes) :=
  match n with
  | O => Some ([], bs)
  | S n => '(x, bs) ← read_int 8 bs; '(xs, bs) ← read_ints n bs; Some (x :: xs, bs)
  end.

Definition u64b (n : N) : bool := (n <? 256 ^ 8)%N.
Definition lenb {A} (l : list A) : bool := u64b (N.of_nat (length l)).

Definition plain : Codec := {|
  serialize env :=
    if (length (env_magic env) =? 8) && (env_version env <? 256 ^ 2)%N && lenb (env_tag env) &&
       (env_cursor_set env <? 256 ^ 1)%N && u64b (env_cursor_block env) && u64b (env_cursor_log_index env) &&
       lenb (env_ring_numbers env) && forallb u64b (env_ring_numbers env) && lenb (env_ring_hashes env) &&
       lenb (env_state env)
    then Some (env_magic env ++ le_bytes 2 (env_version env) ++ write_seq (length (env_tag env)) (env_tag env) ++
      le_bytes 1 (env_cursor_set env) ++ le_bytes 8 (env_cursor_block env) ++ le_bytes 8 (env_cursor_log_index env) ++
      write_seq (length (env_ring_numbers env)) (mjoin (le_bytes 8 <$> env_ring_numbers env)) ++
      write_seq (length (env_ring_hashes env)) (env_ring_hashes env) ++
      write_seq (length (env_state env)) (env_state env))
    else None;
  deserialize bs :=
    '(m, bs) ← read 8 bs; '(v, bs) ← read_int 2 bs; '(t, bs) ← read_bytes bs; '(cs, bs) ← read_int 1 bs;
    '(cb, bs) ← read_int 8 bs; '(cl, bs) ← read_int 8 bs; '(n, bs) ← read_int 8 bs;
    '(ns, bs) ← read_ints (N.to_nat n) bs; '(hs, bs) ← read_bytes bs; '(st, bs) ← read_bytes bs;
    match bs with [] => Some (MkEnvelope m v t cs cb cl ns hs st) | _ => None end
|}.

Lemma read_app n a b : length a = n → read n (a ++ b) = Some (a, b).
Proof.
  intros <-. unfold read. rewrite (proj2 (Nat.ltb_ge _ _)) by (rewrite length_app; lia).
  by rewrite take_app_length, drop_app_length.
Qed.

Lemma read_int_app k n b : (n < 256 ^ N.of_nat k)%N → read_int k (le_bytes k n ++ b) = Some (n, b).
Proof.
  intros Hn. unfold read_int. rewrite read_app by apply length_le_bytes. simpl.
  by rewrite le_value_bytes_small.
Qed.

Lemma read_bytes_app a b : lenb a = true → read_bytes (write_seq (length a) a ++ b) = Some (a, b).
Proof.
  unfold lenb, u64b. intros Ha. nbool. unfold read_bytes, write_seq. rewrite <- app_assoc, read_int_app by done.
  simpl. apply read_app. lia.
Qed.

Lemma read_ints_app ns b :
  forallb u64b ns = true → read_ints (length ns) (mjoin (le_bytes 8 <$> ns) ++ b) = Some (ns, b).
Proof.
  induction ns as [|n ns IH]; intros Hn; [done|]. cbn [forallb] in Hn. apply andb_true_iff in Hn as [H1 H2].
  rewrite fmap_cons, mjoin_cons, <- app_assoc. cbn [length read_ints]. unfold u64b in H1. nbool.
  rewrite read_int_app by done. cbn [mbind option_bind]. by rewrite IH.
Qed.

Lemma plain_laws : CodecLaws plain.
Proof.
  split.
  - intros env bs. unfold serialize, deserialize, plain. destruct (_ && _) eqn:Hc; [|done]. intros Hs%(inj Some). subst bs.
    repeat (apply andb_true_iff in Hc as [Hc ?]). unfold u64b in *. nbool.
    rewrite read_app by done. cbn [mbind option_bind]. rewrite read_int_app by done. cbn [mbind option_bind].
    rewrite read_bytes_app by done. cbn [mbind option_bind]. rewrite read_int_app by done. cbn [mbind option_bind].
    rewrite read_int_app by done. cbn [mbind option_bind]. rewrite read_int_app by done. cbn [mbind option_bind].
    unfold write_seq at 1. rewrite <- app_assoc, read_int_app; [|unfold lenb, u64b in *; nbool; done].
    cbn [mbind option_bind]. rewrite Nat2N.id, read_ints_app by done. cbn [mbind option_bind].
    rewrite read_bytes_app by done. cbn [mbind option_bind].
    rewrite <- (app_nil_r (write_seq (length (env_state env)) _)), read_bytes_app by done.
    by destruct env.
  - intros env bs Hm Hv. unfold serialize, plain. destruct (_ && _); [|done]. intros Hs%(inj Some). subst bs.
    rewrite app_assoc, take_app_length'; [done|]. by rewrite length_app, length_le_bytes, Hm.
Qed.

#[local] Existing Instance iscsi.
#[local] Existing Instance iscsi_laws.
#[local] Existing Instance plain.
#[local] Existing Instance plain_laws.
#[local] Instance raw : Persist bytes () :=
  {| STATE_TAG := [x72; x61; x77]; encode_state f := f; decode_state bs := Ok bs |}.
#[local] Instance raw_laws : PersistLaws raw.
Proof. intros f. reflexivity. Qed.

Definition ex_seen (n : N) : BlockRef := MkBlockRef n (replicate 24 x00 ++ le_bytes 8 n).
Definition ex_saved : Engine bytes :=
  MkEngine [x0a; x0b] (Some (MkPosition 6 2))
    (ring_push (ring_push (ring_push (with_capacity 4) (ex_seen 3)) (ex_seen 5)) (ex_seen 6))
    (store (cp_new 2) (MkSlot [x0a] (Some (MkPosition 5 1)))) Active None 0 0.
Definition ex_config : EngineConfig := MkEngineConfig 4 2.

Lemma ex_saved_wf : engine_wf ex_saved.
Proof.
  split; simpl.
  - repeat (apply ring_push_wf; [|by intros n [= <-]]). apply (with_capacity_wf 2).
  - apply store_wf; [apply cp_new_wf|constructor].
  - reflexivity.
  - repeat constructor.
Qed.

Lemma ex_saved_hashes : Forall (λ b, length (bhash b) = HASH_LEN) (ring_list (ring ex_saved)).
Proof. vm_compute. repeat constructor. Qed.

Lemma snapshot_roundtrip_witness :
  ∃ out, encode_snapshot ex_saved [x00] = (out, Ok ()) ∧ length out = 189 ∧
    ∃ e', decode_snapshot (drop 1 out) ex_config = Ok e' ∧ fold e' = [x0a; x0b] ∧
      cursor e' = Some (MkPosition 6 2) ∧ ring_list (ring e') = [ex_seen 3; ex_seen 5; ex_seen 6].
Proof.
  eexists. assert (encode_snapshot ex_saved [x00] = (_, Ok ())) as Henc by (vm_compute; reflexivity).
  split; [exact Henc|]. split; [reflexivity|].
  destruct (snapshot_roundtrip ex_saved ex_config [x00] _ ex_saved_wf ex_saved_hashes eq_refl
    ltac:(vm_compute; repeat constructor) Henc) as (_ & _ & e' & H1 & H2).
  exists e'. split; [exact H1|]. destruct H2 as [_ H3 H4 H5 _ _ _ _]. split_and!; [exact H3|exact H4|exact H5].
Defined.

Lemma durable_snapshot_roundtrip_witness :
  ∃ out, encode_durable_snapshot ex_saved [] = (out, Ok (Some (MkPosition 5 1))) ∧
    ∃ e', decode_snapshot out ex_config = Ok e' ∧ fold e' = [x0a] ∧
      cursor e' = Some (MkPosition 5 1) ∧ ring_list (ring e') = [ex_seen 3; ex_seen 5].
Proof.
  eexists. assert (encode_durable_snapshot ex_saved [] = (_, Ok (Some (MkPosition 5 1)))) as Henc
    by (vm_compute; reflexivity).
  split; [exact Henc|].
  destruct (durable_snapshot_roundtrip ex_saved ex_config [] _ _ ex_saved_wf ex_saved_hashes eq_refl
    ltac:(vm_compute; repeat constructor) Henc) as (_ & _ & f & e' & Hf & H1 & H2).
  exists e'. split; [exact H1|]. destruct H2 as [_ H3 H4 H5 _ _ _ _]. injection Hf as <-.
  split_and!; [exact H3|exact H4|exact H5].
Defined.

Lemma decode_snapshot_safe_witness :
  ∃ bs e, decode_snapshot bs ex_config = Ok e ∧ engine_wf e ∧ fold e = [x0a].
Proof.
  set (bs := (encode_durable_snapshot ex_saved []).1).
  assert (∃ e, decode_snapshot bs ex_config = Ok e ∧ fold e = [x0a]) as (e & He & Hf)
    by (eexists; split; vm_compute; reflexivity).
  exists bs, e. split; [exact He|].
  destruct (decode_snapshot_safe bs ex_config e He) as ((f & cur & blocks & Hre) & _).
  split; [|exact Hf]. destruct Hre as [Hwf _ _ _ _ _ _ _]. exact Hwf.
Defined.
