(* ===== verification/Manifest.v ===== *)
(** The fixed 64-byte manifest slot of the snapshot store
    ([crates/chainfold/src/storage/manifest.rs]): its layout, its encoding and its decoding. *)
From S2P Require Import Prelude Checksum Position.

(** ** Data *)

Definition U64_LEN : nat := 8.
Definition FLAG_LEN : nat := 1.
Definition SLOT_CRC_LEN : nat := 4.
Definition VERSION_OFFSET : nat := 0.
Definition CURSOR_FLAG_OFFSET : nat := VERSION_OFFSET + U64_LEN.
Definition CURSOR_BLOCK_OFFSET : nat := CURSOR_FLAG_OFFSET + FLAG_LEN.
Definition CURSOR_LOG_INDEX_OFFSET : nat := CURSOR_BLOCK_OFFSET + U64_LEN.
Definition SNAPSHOT_ID_OFFSET : nat := CURSOR_LOG_INDEX_OFFSET + U64_LEN.
Definition CRC_COVERED_LEN : nat := 60.
Definition CRC_OFFSET : nat := CRC_COVERED_LEN.
Definition SLOT_SIZE : nat := CRC_OFFSET + SLOT_CRC_LEN.
Definition SLOT_STRIDE : nat := 4096.
Definition MANIFEST_SIZE : nat := SLOT_STRIDE + SLOT_SIZE.

(** [SlotRecord]. *)
Record SlotRecord := MkSlotRecord {
  version : N;
  rec_cursor : option Position;
  snapshot_id : N;
}.
#[export] Instance SlotRecord_eq_dec : EqDecision SlotRecord.
Proof. solve_decision. Defined.

(** [put_u64]. *)
Definition put_u64 (bs : bytes) (offset : nat) (value : N) : bytes :=
  splice offset (le_bytes U64_LEN value) bs.

(** [get_u64]. *)
Definition get_u64 (bs : bytes) (offset : nat) : N := le_value (slice offset U64_LEN bs).

Section slots.
Context `{!Checksum}.

(** [encode_slot]. *)
Definition encode_slot (r : SlotRecord) : bytes :=
  let bs := replicate SLOT_SIZE x00 in
  let bs := put_u64 bs VERSION_OFFSET (version r) in
  let bs := splice CURSOR_FLAG_OFFSET [if rec_cursor r is Some _ then x01 else x00] bs in
  let bs := put_u64 bs CURSOR_BLOCK_OFFSET (from_option block 0%N (rec_cursor r)) in
  let bs := put_u64 bs CURSOR_LOG_INDEX_OFFSET (from_option log_index 0%N (rec_cursor r)) in
  let bs := put_u64 bs SNAPSHOT_ID_OFFSET (snapshot_id r) in
  let crc := crc32c (take CRC_COVERED_LEN bs) in
  splice CRC_OFFSET (le_bytes SLOT_CRC_LEN crc) bs.

(** [decode_slot]. *)
Definition decode_slot (bs : bytes) : option SlotRecord :=
  if negb (length bs =? SLOT_SIZE) then None else
  let stored := slice CRC_OFFSET SLOT_CRC_LEN bs in
  if negb (crc32c (take CRC_COVERED_LEN bs) =? le_value stored)%N then None else
  let record cursor := MkSlotRecord (get_u64 bs VERSION_OFFSET) cursor (get_u64 bs SNAPSHOT_ID_OFFSET) in
  match bs !!! CURSOR_FLAG_OFFSET with
  | x00 => Some (record None)
  | x01 => Some (record (Some (MkPosition (get_u64 bs CURSOR_BLOCK_OFFSET) (get_u64 bs CURSOR_LOG_INDEX_OFFSET))))
  | _ => None
  end.

(** ** Specification *)

(** The fields of a record are [u64]s. *)
Definition record_wf (r : SlotRecord) : Prop :=
  (version r ≤ u64_max)%N ∧ (snapshot_id r ≤ u64_max)%N ∧
  ∀ c, rec_cursor r = Some c → (block c ≤ u64_max)%N ∧ (log_index c ≤ u64_max)%N.

(** ** Lemmas *)

(** The bytes of a slot, field after field. *)
Definition slot_body (r : SlotRecord) : bytes :=
  le_bytes 8 (version r) ++ [if rec_cursor r is Some _ then x01 else x00] ++
  le_bytes 8 (from_option block 0%N (rec_cursor r)) ++ le_bytes 8 (from_option log_index 0%N (rec_cursor r)) ++
  le_bytes 8 (snapshot_id r) ++ replicate 27 x00.

Lemma encode_slot_eq r : encode_slot r = slot_body r ++ le_bytes 4 (crc32c (slot_body r)).
Proof. reflexivity. Qed.

Lemma length_slot_body r : length (slot_body r) = 60.
Proof. reflexivity. Qed.

Lemma length_encode_slot r : length (encode_slot r) = SLOT_SIZE.
Proof. reflexivity. Qed.

Lemma u64_bytes n : (n ≤ u64_max)%N → le_value (le_bytes 8 n) = n.
Proof. intros Hn. apply le_value_bytes_small. unfold u64_max in Hn. simpl. lia. Qed.

Lemma get_u64_bound bs o : (get_u64 bs o ≤ u64_max)%N.
Proof.
  unfold get_u64, u64_max. pose proof (le_value_bound (slice o U64_LEN bs)) as Hb.
  assert (length (slice o U64_LEN bs) ≤ 8) as Hl by (unfold slice; rewrite length_take; unfold U64_LEN; lia).
  assert ((256 ^ N.of_nat (length (slice o U64_LEN bs)) ≤ 256 ^ 8)%N) by (apply N.pow_le_mono_r; lia).
  lia.
Qed.

Lemma decode_encode_slot `{!ChecksumLaws _} r : record_wf r → decode_slot (encode_slot r) = Some r.
Proof.
  intros (Hv & Hs & Hc). rewrite encode_slot_eq. unfold decode_slot.
  rewrite length_app, length_le_bytes, length_slot_body. cbn [Nat.add Nat.eqb negb SLOT_SIZE CRC_OFFSET CRC_COVERED_LEN SLOT_CRC_LEN].
  assert (∀ b, take 60 (slot_body r ++ b) = slot_body r) as -> by reflexivity.
  assert (∀ b, slice 60 4 (slot_body r ++ b) = take 4 b) as -> by reflexivity.
  rewrite take_ge by (by rewrite length_le_bytes).
  rewrite le_value_bytes_small by apply crc32c_bound. rewrite N.eqb_refl. cbn [negb].
  generalize (le_bytes 4 (crc32c (slot_body r))). intros t.
  change ((slot_body r ++ t) !!! CURSOR_FLAG_OFFSET) with (if rec_cursor r is Some _ then x01 else x00).
  change (get_u64 (slot_body r ++ t) VERSION_OFFSET) with (le_value (le_bytes 8 (version r))).
  change (get_u64 (slot_body r ++ t) SNAPSHOT_ID_OFFSET) with (le_value (le_bytes 8 (snapshot_id r))).
  change (get_u64 (slot_body r ++ t) CURSOR_BLOCK_OFFSET)
    with (le_value (le_bytes 8 (from_option block 0%N (rec_cursor r)))).
  change (get_u64 (slot_body r ++ t) CURSOR_LOG_INDEX_OFFSET)
    with (le_value (le_bytes 8 (from_option log_index 0%N (rec_cursor r)))).
  rewrite (u64_bytes (version r)), (u64_bytes (snapshot_id r)) by done.
  destruct r as [v [[b l]|] s]; cbn [version rec_cursor snapshot_id from_option block log_index] in *; [|done].
  destruct (Hc _ eq_refl) as [Hb Hl]. cbn [block log_index] in *. by rewrite !u64_bytes by done.
Qed.

(** ** Properties *)

(** A slot round trips through its 64 bytes, so two records never share an encoding; and
    whatever decodes has the full length, a trailer that matches its covered bytes, and fields
    that are [u64]s, with a cursor exactly when the flag byte is one. *)
Theorem manifest_slot_roundtrip `{!ChecksumLaws _} r bs r' :
  record_wf r → decode_slot bs = Some r' →
  length (encode_slot r) = SLOT_SIZE ∧ decode_slot (encode_slot r) = Some r ∧
  (encode_slot r = bs → r' = r) ∧
  length bs = SLOT_SIZE ∧ record_wf r' ∧
  crc32c (take CRC_COVERED_LEN bs) = le_value (drop CRC_COVERED_LEN bs) ∧
  bs !! CURSOR_FLAG_OFFSET = Some (if rec_cursor r' is Some _ then x01 else x00).
Proof.
  intros Hr Hd. pose proof (decode_encode_slot r Hr) as Hrt.
  split; [apply length_encode_slot|]. split; [exact Hrt|]. split; [intros <-; congruence|].
  unfold decode_slot in Hd. destruct (negb (length bs =? SLOT_SIZE)) eqn:Hl; [done|]. nbool.
  destruct (negb _) eqn:Hcrc in Hd; [done|]. nbool. split; [done|]. split; [|split].
  - destruct (bs !!! CURSOR_FLAG_OFFSET); simplify_eq;
      (split; [apply get_u64_bound|split; [apply get_u64_bound|intros c Hc; simplify_eq/=; auto using get_u64_bound]]).
  - rewrite Hcrc. f_equal. apply take_ge. rewrite length_drop, Hl. done.
  - assert (is_Some (bs !! CURSOR_FLAG_OFFSET)) as [b Hb].
    { apply lookup_lt_is_Some. rewrite Hl. change (8 < 64). lia. }
    rewrite Hb. rewrite (list_lookup_total_correct _ _ _ Hb) in Hd. destruct b; by simplify_eq.
Qed.

End slots.

#[local] Existing Instance iscsi.
#[local] Existing Instance iscsi_laws.

Lemma manifest_slot_roundtrip_witness :
  let r := MkSlotRecord 7 (Some (MkPosition 100 3)) 12 in
  decode_slot (encode_slot r) = Some r ∧ length (encode_slot r) = 64.
Proof.
  intros r. assert (record_wf r) as Hr.
  { split_and!; [done|done|]. by intros c [= <-]. }
  assert (decode_slot (encode_slot (MkSlotRecord 1 None 0)) = Some (MkSlotRecord 1 None 0)) as H0
    by (vm_compute; reflexivity).
  destruct (manifest_slot_roundtrip r _ _ Hr H0) as (H1 & H2 & _). split; [exact H2|exact H1].
Defined.
