(* ===== verification/Vfs.v ===== *)
(** The filesystem the snapshot store is built from ([crates/chainfold/src/storage/vfs.rs]) and
    the repository's in-memory filesystem with crash injection, [CrashVfs]
    ([crates/chainfold/src/test_util.rs]), which fixes what a crash may lose. *)
From stdpp Require Import strings.
From S2P Require Import Prelude.

(** ** Interfaces *)

(** A path is the list of its components. *)
Abbreviation Path := (list string).

(** [Path::join] with one component, [Path::parent] and [Path::file_name]. *)
Definition path_join (dir : Path) (name : string) : Path := dir ++ [name].
Definition parent (p : Path) : option Path := (λ _, take (pred (length p)) p) <$> last p.
Definition file_name (p : Path) : option string := last p.

(** [io::ErrorKind], as far as the sources tell kinds apart. *)
Inductive ErrorKind := NotFound | InvalidInput | Unsupported | OtherKind.
#[export] Instance ErrorKind_eq_dec : EqDecision ErrorKind.
Proof. solve_decision. Defined.

(** The [Vfs] trait; an [io::Error] is its kind. *)
Class Vfs (V : Type) := {
  create_dir_all : Path → SM V ErrorKind ();
  vfs_read : Path → SM V ErrorKind bytes;
  vfs_write : Path → bytes → SM V ErrorKind ();
  write_at : Path → nat → bytes → SM V ErrorKind ();
  fsync_file : Path → SM V ErrorKind ();
  rename : Path → Path → SM V ErrorKind ();
  vfs_remove : Path → SM V ErrorKind ();
  vfs_list : Path → SM V ErrorKind (list Path);
  fsync_dir : Path → SM V ErrorKind ();
  vfs_exists : Path → SM V ErrorKind bool;
}.

(** ** [CrashVfs] *)

(** [CrashFileBytes]. *)
Record CrashFileBytes := MkCrashFileBytes { durable : bytes; volatile : bytes }.

(** [CrashVfs]. *)
Record CrashVfs := MkCrashVfs {
  files : gmap N CrashFileBytes;
  durable_names : gmap Path N;
  volatile_names : gmap Path N;
  next_inode : N;
  budget : option N;
  torn_len : nat;
  op_count : N;
}.

(** Field assignments. *)
Definition set_files (m : gmap N CrashFileBytes) (v : CrashVfs) : CrashVfs :=
  MkCrashVfs m (durable_names v) (volatile_names v) (next_inode v) (budget v) (torn_len v) (op_count v).
Definition set_durable_names (m : gmap Path N) (v : CrashVfs) : CrashVfs :=
  MkCrashVfs (files v) m (volatile_names v) (next_inode v) (budget v) (torn_len v) (op_count v).
Definition set_volatile_names (m : gmap Path N) (v : CrashVfs) : CrashVfs :=
  MkCrashVfs (files v) (durable_names v) m (next_inode v) (budget v) (torn_len v) (op_count v).

(** [CrashVfs::new] and [CrashVfs::with_crash_budget]. *)
Definition crash_vfs_new : CrashVfs := MkCrashVfs ∅ ∅ ∅ 0 None 0 0.
Definition with_crash_budget (ops : N) (torn_len : nat) : CrashVfs :=
  MkCrashVfs ∅ ∅ ∅ 0 (Some ops) torn_len 0.

(** [CrashVfs::crash]. *)
Definition crash (v : CrashVfs) : CrashVfs :=
  set_files ((λ file, MkCrashFileBytes (durable file) (durable file)) <$> files v)
    (set_volatile_names (durable_names v) v).

(** [CrashVfs::consume_budget]. *)
Definition consume_budget (v : CrashVfs) : CrashVfs * bool :=
  let count := ((op_count v + 1) mod 4294967296)%N in
  let v' b := MkCrashVfs (files v) (durable_names v) (volatile_names v) (next_inode v) b (torn_len v) count in
  match budget v with
  | None => (v' None, false)
  | Some 0%N => (v' (Some 0%N), true)
  | Some remaining => (v' (Some (remaining - 1)%N), false)
  end.

(** [CrashVfs::torn_write]. *)
Definition torn_write (len : nat) (v : CrashVfs) : CrashVfs * (bool * nat) :=
  let (v, crashing) := consume_budget v in
  (v, (crashing, if crashing then Nat.min len (torn_len v) else len)).

(** [CrashVfs::outcome]. *)
Definition vfs_outcome (crashing : bool) : SM CrashVfs ErrorKind () :=
  if crashing then sm_fail OtherKind else mret ().

(** [CrashVfs::inode_for_write]. *)
Definition inode_for_write (path : Path) (v : CrashVfs) : CrashVfs * N :=
  match volatile_names v !! path with
  | Some inode => (v, inode)
  | None =>
      let inode := next_inode v in
      (MkCrashVfs (<[inode := MkCrashFileBytes [] []]> (files v)) (durable_names v)
         (<[path := inode]> (volatile_names v)) (inode + 1) (budget v) (torn_len v) (op_count v), inode)
  end.

(** [Vec::resize(len, 0)] of a shorter vector. *)
Definition grow (len : nat) (bs : bytes) : bytes :=
  if length bs <? len then bs ++ replicate (len - length bs) x00 else bs.

(** [self.files.get_mut(&inode).expect(..)], then an assignment. *)
Definition update_file (inode : N) (f : CrashFileBytes → CrashFileBytes) : SM CrashVfs ErrorKind () :=
  v ← sm_get;
  file ← sm_expect (files v !! inode);
  sm_modify (set_files (<[inode := f file]> (files v))).

Definition crash_read (path : Path) : SM CrashVfs ErrorKind bytes :=
  v ← sm_get;
  inode ← sm_try (ok_or (volatile_names v !! path) NotFound);
  file ← sm_expect (files v !! inode);
  mret (volatile file).

Definition crash_write (path : Path) (bs : bytes) : SM CrashVfs ErrorKind () :=
  inode ← sm_step (inode_for_write path);
  kept ← sm_step (torn_write (length bs));
  update_file inode (λ file, MkCrashFileBytes (durable file) (take kept.2 bs));;
  vfs_outcome kept.1.

Definition crash_write_at (path : Path) (offset : nat) (bs : bytes) : SM CrashVfs ErrorKind () :=
  inode ← sm_step (inode_for_write path);
  kept ← sm_step (torn_write (length bs));
  update_file inode (λ file, MkCrashFileBytes (durable file)
    (splice offset (take kept.2 bs) (grow (offset + kept.2) (volatile file))));;
  vfs_outcome kept.1.

Definition crash_fsync_file (path : Path) : SM CrashVfs ErrorKind () :=
  v ← sm_get;
  inode ← sm_try (ok_or (volatile_names v !! path) NotFound);
  file ← sm_expect (files v !! inode);
  kept ← sm_step (torn_write (length (volatile file)));
  update_file inode (λ file, MkCrashFileBytes
    (splice 0 (take kept.2 (volatile file)) (grow (length (volatile file)) (durable file))) (volatile file));;
  vfs_outcome kept.1.

Definition crash_rename (from to : Path) : SM CrashVfs ErrorKind () :=
  v ← sm_get;
  inode ← sm_try (ok_or (volatile_names v !! from) NotFound);
  sm_modify (set_volatile_names (delete from (volatile_names v)));;
  crashing ← sm_step consume_budget;
  sm_modify (λ v, set_volatile_names (<[if (crashing : bool) then from else to := inode]> (volatile_names v)) v);;
  vfs_outcome crashing.

Definition crash_remove (path : Path) : SM CrashVfs ErrorKind () :=
  v ← sm_get;
  inode ← sm_try (ok_or (volatile_names v !! path) NotFound);
  sm_modify (set_volatile_names (delete path (volatile_names v)));;
  crashing ← sm_step consume_budget;
  (if (crashing : bool) then sm_modify (λ v, set_volatile_names (<[path := inode]> (volatile_names v)) v) else mret ());;
  vfs_outcome crashing.

(** [list]: the order of the map's keys is not modelled, since every caller sorts. *)
Definition crash_list (dir : Path) : SM CrashVfs ErrorKind (list Path) :=
  v ← sm_get;
  mret (filter (λ p, parent p = Some dir) (map_to_list (volatile_names v)).*1).

Definition crash_fsync_dir (path : Path) : SM CrashVfs ErrorKind () :=
  crashing ← sm_step consume_budget;
  if (crashing : bool) then sm_fail OtherKind else
  sm_modify (λ v, set_durable_names
    (filter (λ np, parent np.1 = Some path) (volatile_names v) ∪
     filter (λ np, parent np.1 ≠ Some path) (durable_names v)) v).

Definition crash_exists (path : Path) : SM CrashVfs ErrorKind bool :=
  v ← sm_get; mret (bool_decide (is_Some (volatile_names v !! path))).

(** [impl Vfs for CrashVfs]. *)
Definition crash_vfs : Vfs CrashVfs := {|
  create_dir_all _ := mret ();
  vfs_read := crash_read;
  vfs_write := crash_write;
  write_at := crash_write_at;
  fsync_file := crash_fsync_file;
  rename := crash_rename;
  vfs_remove := crash_remove;
  vfs_list := crash_list;
  fsync_dir := crash_fsync_dir;
  vfs_exists := crash_exists;
|}.
#[export] Existing Instance crash_vfs.

(** ** Lemmas: names *)

Lemma parent_join d x : parent (path_join d x) = Some d.
Proof.
  unfold parent, path_join. rewrite last_snoc. simpl. f_equal.
  rewrite length_app, Nat.add_1_r. simpl. apply take_app_length.
Qed.

Lemma path_join_inj d x y : path_join d x = path_join d y → x = y.
Proof. unfold path_join. intros H. apply app_inj_tail in H. tauto. Qed.

Lemma string_length_app a b : String.length (a +:+ b) = String.length a + String.length b.
Proof. induction a as [|c a IH]; [done|]. simpl. by rewrite IH. Qed.

Lemma string_app_inv_tail a b c : a +:+ c = b +:+ c → a = b.
Proof.
  revert b. induction a as [|x a IH]; intros [|y b] H; [done| | |].
  - apply (f_equal String.length) in H. rewrite !string_length_app in H. simpl in H. lia.
  - apply (f_equal String.length) in H. rewrite !string_length_app in H. simpl in H. lia.
  - simpl in H. injection H as -> H. by rewrite (IH b).
Qed.
