(* ===== verification/Store.v ===== *)
(** The durable snapshot store of chainfold ([crates/chainfold/src/storage/store.rs]): commits
    through a temporary file, a rename and a dual-slot manifest, over any [Vfs]. *)
From stdpp Require Import strings pretty.
From Stdlib Require Ascii.
From S2P Require Import Prelude Checksum Position Manifest Vfs.

(** ** File names *)

Definition MANIFEST_FILE : string := "manifest".
Definition TEMP_FILE : string := "snap.tmp".
Definition SNAPSHOT_PREFIX : string := "snap-".
Definition SNAPSHOT_SUFFIX : string := ".bin".

(** [snapshot_file_name]. *)
Definition snapshot_file_name (id : N) : string :=
  (SNAPSHOT_PREFIX +:+ pretty id +:+ SNAPSHOT_SUFFIX)%string.

(** [str::strip_prefix] and [str::strip_suffix]. *)
Fixpoint strip_prefix (p s : string) : option string :=
  match p, s with
  | EmptyString, _ => Some s
  | String a p, String b s => if Ascii.eqb a b then strip_prefix p s else None
  | String _ _, EmptyString => None
  end.
Fixpoint strip_suffix (suf s : string) : option string :=
  if String.eqb s suf then Some EmptyString else
  match s with EmptyString => None | String c s => String c <$> strip_suffix suf s end.

(** [str::parse::<u64>]: an optional plus sign, then at least one digit, all decimal, in range. *)
Fixpoint parse_digits (acc : N) (s : string) : option N :=
  match s with
  | EmptyString => Some acc
  | String c s =>
      let d := Ascii.N_of_ascii c in
      if negb ((48 <=? d) && (d <=? 57))%N then None else
      let acc := (acc * 10 + (d - 48))%N in
      if (u64_max <? acc)%N then None else parse_digits acc s
  end.
Definition parse_u64 (s : string) : option N :=
  let digits := match s with String (Ascii.Ascii true true false true false true false false) s => s | _ => s end in
  match digits with EmptyString => None | _ => parse_digits 0 digits end.

(** [snapshot_id_from_path]. *)
Definition snapshot_id_from_path (path : Path) : option N :=
  name ← file_name path;
  rest ← strip_prefix SNAPSHOT_PREFIX name;
  digits ← strip_suffix SNAPSHOT_SUFFIX rest;
  id ← parse_u64 digits;
  if String.eqb (snapshot_file_name id) name then Some id else None.

(** [manifest_is_uninitialized]. *)
Definition manifest_is_uninitialized (bs : bytes) : bool :=
  (length bs <? SLOT_SIZE * 2) || forallb (λ b, bool_decide (b = x00)) bs.

(** ** Data *)

(** [StoreConfig]. *)
Record StoreConfig := MkStoreConfig { config_dir : Path; config_retain : nat }.

(** [Recovered]. *)
Record Recovered := MkRecovered { rec_snapshot : bytes; recovered_cursor : option Position }.

(** [StoreError]. *)
Inductive StoreError :=
| Io (e : ErrorKind)
| CorruptManifest
| MissingSnapshot (id : N)
| RetainZero
| StorePoisoned.

(** [SnapshotStore<V>]. *)
Record SnapshotStore (V : Type) := MkStore {
  dir : Path;
  vfs : V;
  retain : nat;
  slots : list (option SlotRecord);
  active : nat;
  poisoned : bool;
}.
Arguments MkStore {V} _ _ _ _ _ _.
Arguments dir {V} _.
Arguments vfs {V} _.
Arguments retain {V} _.
Arguments slots {V} _.
Arguments active {V} _.
Arguments poisoned {V} _.

(** Field assignments. *)
Definition set_vfs {V} (v : V) (s : SnapshotStore V) : SnapshotStore V :=
  MkStore (dir s) v (retain s) (slots s) (active s) (poisoned s).
Definition set_slot {V} (i : nat) (r : SlotRecord) (s : SnapshotStore V) : SnapshotStore V :=
  MkStore (dir s) (vfs s) (retain s) (<[i := Some r]> (slots s)) (active s) (poisoned s).
Definition set_active {V} (i : nat) (s : SnapshotStore V) : SnapshotStore V :=
  MkStore (dir s) (vfs s) (retain s) (slots s) i (poisoned s).
Definition set_poisoned {V} (b : bool) (s : SnapshotStore V) : SnapshotStore V :=
  MkStore (dir s) (vfs s) (retain s) (slots s) (active s) b.

(** [missing_ok]. *)
Definition missing_ok {V A} (m : SM V ErrorKind A) : SM V ErrorKind (option A) := λ v,
  match m v with
  | (v, Returns (Ok a)) => (v, Returns (Ok (Some a)))
  | (v, Returns (Err NotFound)) => (v, Returns (Ok None))
  | (v, Returns (Err e)) => (v, Returns (Err e))
  | (v, Panics) => (v, Panics)
  end.

(** The [?] operator on an [io::Result]: [From<io::Error> for StoreError]. *)
Definition io {V A} (m : SM V ErrorKind A) : SM V StoreError A := λ v,
  match m v with
  | (v, Returns r) => (v, Returns (map_err Io r))
  | (v, Panics) => (v, Panics)
  end.

(** A call on [self.vfs]. *)
Definition on_vfs {V A} (m : SM V ErrorKind A) : SM (SnapshotStore V) StoreError A :=
  sm_zoom (λ s, Some (vfs s)) set_vfs (io m).

(** [slice::get(offset..offset + len)]. *)
Definition get_range (offset len : nat) (bs : bytes) : option bytes :=
  if offset + len <=? length bs then Some (slice offset len bs) else None.

(** [slice::sort_unstable] on distinct numbers. *)
Definition sort_ids : list N → list N := merge_sort N.le.

Section store.
Context `{!Checksum} {V : Type} `{!Vfs V}.

(** [prune]. *)
Definition prune : SM (SnapshotStore V) StoreError () :=
  s ← sm_get;
  let referenced : list (option N) := (λ slot : option SlotRecord, snapshot_id <$> slot) <$> slots s in
  paths ← on_vfs (vfs_list (dir s));
  let unreferenced := sort_ids (filter (λ id, Some id ∉ referenced) (omap snapshot_id_from_path (paths : list Path))) in
  let remove_count := length unreferenced - retain s in
  sm_for (take remove_count unreferenced)
    (λ id, on_vfs (missing_ok (vfs_remove (path_join (dir s) (snapshot_file_name id))));; mret ());;
  if 0 <? remove_count then on_vfs (fsync_dir (dir s)) else mret ().

(** [open], up to the construction of the store. *)
Definition open_slots (config : StoreConfig)
    : SM V StoreError (list (option SlotRecord) * nat * option Recovered) :=
  (if config_retain config =? 0 then sm_fail RetainZero else mret ());;
  io (create_dir_all (config_dir config));;
  let temp_path := path_join (config_dir config) TEMP_FILE in
  removed ← io (missing_ok (vfs_remove temp_path));
  (if removed is Some _ then io (fsync_dir (config_dir config)) else mret ());;
  let manifest_path := path_join (config_dir config) MANIFEST_FILE in
  manifest ← io (missing_ok (vfs_read manifest_path));
  slots ← match manifest with
          | Some bs =>
              let left := get_range 0 SLOT_SIZE bs ≫= decode_slot in
              let right := get_range SLOT_STRIDE SLOT_SIZE bs ≫= decode_slot in
              if bool_decide (left = None) && bool_decide (right = None) && negb (manifest_is_uninitialized bs)
              then sm_fail CorruptManifest else mret [left; right]
          | None =>
              io (vfs_write manifest_path (replicate MANIFEST_SIZE x00));;
              mret [None; None]
          end;
  let active := match slots with
                | [Some l; Some r] => if (version l <? version r)%N then 1 else 0
                | [None; Some _] => 1
                | _ => 0
                end in
  recovered ← match slots !!! active with
              | None => mret None
              | Some record =>
                  let snapshot_path := path_join (config_dir config) (snapshot_file_name (snapshot_id record)) in
                  bs ← io (missing_ok (vfs_read snapshot_path));
                  bs ← sm_try (ok_or bs (MissingSnapshot (snapshot_id record)));
                  mret (Some (MkRecovered bs (rec_cursor record)))
              end;
  mret (slots, active, recovered).

(** [SnapshotStore::open]: an error drops the filesystem, and a failed prune is ignored. *)
Definition open (config : StoreConfig) (v : V)
    : outcome (result (SnapshotStore V * option Recovered) StoreError) :=
  match open_slots config v with
  | (_, Panics) => Panics
  | (_, Returns (Err e)) => Returns (Err e)
  | (v, Returns (Ok (slots, active, recovered))) =>
      match prune (MkStore (config_dir config) v (config_retain config) slots active false) with
      | (_, Panics) => Panics
      | (s, Returns _) => Returns (Ok (s, recovered))
      end
  end.

(** [commit_once]. *)
Definition commit_once (snapshot : bytes) (cursor : option Position) : SM (SnapshotStore V) StoreError () :=
  s ← sm_get;
  let current_version := from_option version 0%N (slots s !!! active s) in
  next_version ← sm_expect (u64_checked_add current_version 1);
  let older := 1 - active s in
  let temp_path := path_join (dir s) TEMP_FILE in
  let snapshot_path := path_join (dir s) (snapshot_file_name next_version) in
  on_vfs (vfs_write temp_path snapshot);;
  on_vfs (fsync_file temp_path);;
  on_vfs (rename temp_path snapshot_path);;
  on_vfs (fsync_dir (dir s));;
  let record := MkSlotRecord next_version cursor next_version in
  let slot_bytes := encode_slot record in
  let slot_offset := older * SLOT_STRIDE in
  let manifest_path := path_join (dir s) MANIFEST_FILE in
  on_vfs (write_at manifest_path slot_offset slot_bytes);;
  on_vfs (fsync_file manifest_path);;
  sm_modify (set_slot older record);;
  sm_modify (set_active older);;
  _ ← sm_result prune : SM _ StoreError (result () StoreError);
  mret ().

(** [SnapshotStore::commit]. *)
Definition commit (snapshot : bytes) (cursor : option Position) : SM (SnapshotStore V) StoreError () :=
  s ← sm_get;
  if poisoned s then sm_fail StorePoisoned else
  r ← sm_result (commit_once snapshot cursor);
  (if r is Err _ then sm_modify (set_poisoned true) else mret ());;
  sm_try r.

End store.

(** [durable_cursor]. *)
Definition durable_cursor {V} (s : SnapshotStore V) : option Position :=
  slot ← slots s !!! active s; rec_cursor slot.
