(* ===== verification/StoreSpec.v ===== *)
(** Correctness of the snapshot store over [CrashVfs]: whatever operation of a commit a crash
    lands on, and however many bytes it tears, reopening recovers a committed snapshot. *)
From stdpp Require Import strings pretty.
From S2P Require Import Prelude Checksum Position Manifest Vfs Store.

(** ** Lemmas: names *)

Lemma snapshot_file_name_inj i j : snapshot_file_name i = snapshot_file_name j → i = j.
Proof.
  unfold snapshot_file_name. unfold SNAPSHOT_PREFIX. cbn [String.append]. intros H. injection H as H. apply (inj pretty). exact (string_app_inv_tail (pretty i) (pretty j) _ H).
Qed.

Lemma snapshot_ne_manifest id : snapshot_file_name id ≠ MANIFEST_FILE.
Proof. done. Qed.
Lemma snapshot_ne_temp id : snapshot_file_name id ≠ TEMP_FILE.
Proof. done. Qed.

(** ** Lemmas: the operations of [CrashVfs]

    Each operation spends budget, and either has its whole effect or fails with part of it. *)

(** Equal up to the budget and the operation count. *)
Definition disk (F : gmap N CrashFileBytes) (D V : gmap Path N) (n : N) (v : CrashVfs) : Prop :=
  files v = F ∧ durable_names v = D ∧ volatile_names v = V ∧ next_inode v = n.

Lemma disk_self v : disk (files v) (durable_names v) (volatile_names v) (next_inode v) v.
Proof. done. Qed.

Lemma consume_budget_disk F D V n v : disk F D V n v → disk F D V n (consume_budget v).1.
Proof. unfold consume_budget. by destruct (budget v) as [[|]|]. Qed.

Lemma torn_write_disk F D V n v len :
  disk F D V n v →
  ∃ v' c k, torn_write len v = (v', (c, k)) ∧ disk F D V n v' ∧ k ≤ len ∧ (c = false → k = len).
Proof.
  intros Hv. apply consume_budget_disk in Hv. unfold torn_write. destruct (consume_budget v) as [v' c].
  eexists _, _, _. split; [reflexivity|]. split; [done|]. destruct c; split; lia || done.
Qed.

(** How an operation ends: completely, or with the crash error. *)
Definition ended (r : result () ErrorKind) (complete : Prop) : Prop :=
  r = Ok () ∧ complete ∨ r = Err OtherKind.

Ltac run_vfs := unfold update_file, vfs_outcome;
  unfold mbind, mret, sm_bind, sm_step, sm_get, sm_modify, sm_try, sm_expect, sm_fail, sm_ret; cbn [fst snd].

(** The effect of an update of a file's bytes, after the budget was spent. *)
Lemma torn_update F D V n v len i file (upd : nat → CrashFileBytes → CrashFileBytes) :
  disk F D V n v → F !! i = Some file →
  ∃ v' r k, (kept ← sm_step (torn_write len); update_file i (upd kept.2);; vfs_outcome kept.1) v = (v', Returns r) ∧
    disk (<[i := upd k file]> F) D V n v' ∧ k ≤ len ∧ ended r (k = len).
Proof.
  intros Hv Hi. destruct (torn_write_disk F D V n v len Hv) as (v1 & c & k & Ht & (HF & HD & HV & Hn) & Hk & Hc).
  exists (set_files (<[i := upd k file]> F) v1), (if c then Err OtherKind else Ok ()), k.
  split; [|split; [done|split; [done|]]].
  - run_vfs. rewrite Ht. cbn [fst snd]. rewrite HF, Hi. by destruct c.
  - destruct c; [by right|left; auto].
Qed.

Lemma write_new F D V n v p bs :
  disk F D V n v → V !! p = None →
  ∃ v' r k, crash_write p bs v = (v', Returns r) ∧
    disk (<[n := MkCrashFileBytes [] (take k bs)]> F) D (<[p := n]> V) (n + 1) v' ∧ ended r (k = length bs).
Proof.
  intros (HF & HD & HV & Hn) Hp.
  set (v0 := MkCrashVfs (<[n := MkCrashFileBytes [] []]> F) D (<[p := n]> V) (n + 1) (budget v) (torn_len v) (op_count v)).
  destruct (torn_update (<[n := MkCrashFileBytes [] []]> F) D (<[p := n]> V) (n + 1) v0 (length bs) n
    (MkCrashFileBytes [] []) (λ k file, MkCrashFileBytes (durable file) (take k bs))) as (v' & r & k & Hr & Hd & _ & He).
  { done. } { by rewrite lookup_insert_eq. }
  exists v', r, k. rewrite insert_insert_eq in Hd. split; [|done].
  unfold crash_write, mbind at 1, sm_bind at 1, sm_step at 1, inode_for_write. by rewrite HF, HD, HV, Hn, Hp.
Qed.

Lemma write_at_old F D V n v p i file o bs :
  disk F D V n v → V !! p = Some i → F !! i = Some file →
  ∃ v' r k, crash_write_at p o bs v = (v', Returns r) ∧
    disk (<[i := MkCrashFileBytes (durable file) (splice o (take k bs) (grow (o + k) (volatile file)))]> F) D V n v' ∧
    ended r (k = length bs).
Proof.
  intros Hd Hp Hi.
  destruct (torn_update F D V n v (length bs) i file
    (λ k file, MkCrashFileBytes (durable file) (splice o (take k bs) (grow (o + k) (volatile file))))) 
    as (v' & r & k & Hr & Hd' & _ & He); [done|done|].
  exists v', r, k. split; [|done]. destruct Hd as (HF & HD & HV & Hn).
  unfold crash_write_at, mbind at 1, sm_bind at 1, sm_step at 1, inode_for_write. by rewrite HV, Hp.
Qed.

Lemma fsync_file_old F D V n v p i file :
  disk F D V n v → V !! p = Some i → F !! i = Some file →
  ∃ v' r k, crash_fsync_file p v = (v', Returns r) ∧
    disk (<[i := MkCrashFileBytes
      (splice 0 (take k (volatile file)) (grow (length (volatile file)) (durable file))) (volatile file)]> F) D V n v' ∧
    k ≤ length (volatile file) ∧ ended r (k = length (volatile file)).
Proof.
  intros Hd Hp Hi.
  destruct (torn_update F D V n v (length (volatile file)) i file
    (λ k file, MkCrashFileBytes (splice 0 (take k (volatile file)) (grow (length (volatile file)) (durable file))) (volatile file))) 
    as (v' & r & k & Hr & Hd' & Hk & He); [done|done|].
  exists v', r, k. split; [|done]. destruct Hd as (HF & HD & HV & Hn).
  unfold crash_fsync_file, mbind at 1, sm_bind at 1, sm_get at 1, mbind at 1, sm_bind at 1, sm_try at 1.
  rewrite HV, Hp. simpl. unfold mbind at 1, sm_bind at 1, sm_expect at 1. by rewrite HF, Hi.
Qed.

Lemma rename_old F D V n v p q i :
  disk F D V n v → V !! p = Some i →
  ∃ v' r, crash_rename p q v = (v', Returns r) ∧
    (r = Ok () ∧ disk F D (<[q := i]> (delete p V)) n v' ∨ r = Err OtherKind ∧ disk F D V n v').
Proof.
  intros (HF & HD & HV & Hn) Hp. unfold crash_rename. run_vfs. rewrite HV, Hp. cbn [ok_or].
  pose proof (consume_budget_disk F D (delete p V) n (set_volatile_names (delete p V) v)) as Hc.
  destruct (consume_budget _) as [v1 c]. destruct Hc as (HF1 & HD1 & HV1 & Hn1); [done|]. simpl in *.
  rewrite HV1. destruct c; (eexists _, _; split; [reflexivity|]); [right|by left].
  split; [done|]. split_and!; [done|done| |done]. simpl. by apply insert_delete_id.
Qed.

Lemma remove_disk F D V n v p :
  disk F D V n v →
  ∃ v' r, crash_remove p v = (v', Returns r) ∧
    (V !! p = None ∧ r = Err NotFound ∧ v' = v ∨
     r = Ok () ∧ disk F D (delete p V) n v' ∨ r = Err OtherKind ∧ disk F D V n v').
Proof.
  intros (HF & HD & HV & Hn). unfold crash_remove. run_vfs. rewrite HV. destruct (V !! p) as [i|] eqn:Hp.
  2:{ eexists _, _. split; [reflexivity|by left]. }
  cbn [ok_or].
  pose proof (consume_budget_disk F D (delete p V) n (set_volatile_names (delete p V) v)) as Hc.
  destruct (consume_budget _) as [v1 c]. destruct Hc as (HF1 & HD1 & HV1 & Hn1); [done|]. simpl in *.
  destruct c; (eexists _, _; split; [reflexivity|]); right; [right|by left].
  split; [done|]. split_and!; [done|done| |done]. simpl. rewrite HV1. by apply insert_delete_id.
Qed.

Lemma fsync_dir_disk F D V n v p :
  disk F D V n v →
  ∃ v' r, crash_fsync_dir p v = (v', Returns r) ∧
    (r = Ok () ∧ disk F (filter (λ np, parent np.1 = Some p) V ∪ filter (λ np, parent np.1 ≠ Some p) D) V n v' ∨
     r = Err OtherKind ∧ disk F D V n v').
Proof.
  intros Hv. pose proof (consume_budget_disk F D V n v Hv) as (HF & HD & HV & Hn).
  unfold crash_fsync_dir. run_vfs. destruct (consume_budget v) as [v1 c]. simpl in *.
  destruct c; (eexists _, _; split; [reflexivity|]); [by right|left].
  split; [done|]. split_and!; simpl; [done| |done|done]. by rewrite HD, HV.
Qed.

(** The names a directory sync makes durable. *)
Lemma synced_lookup (V D : gmap Path N) d p :
  parent p = Some d →
  (filter (λ np : Path * N, parent np.1 = Some d) V ∪ filter (λ np : Path * N, parent np.1 ≠ Some d) D) !! p = V !! p.
Proof.
  intros Hp. destruct (V !! p) as [i|] eqn:Hi.
  - apply lookup_union_Some_l. by apply map_lookup_filter_Some_2.
  - apply lookup_union_None. split; apply map_lookup_filter_None_2; [by left|].
    right. intros x _ Hx. by apply Hx.
Qed.

(** ** Specification *)

Section spec.
Context `{!Checksum}.

(** The bytes of one slot, and the slots a manifest holds. *)
Definition slot_bytes_at (i : nat) (bs : bytes) : bytes := slice (i * SLOT_STRIDE) SLOT_SIZE bs.
Definition read_slots (bs : bytes) : list (option SlotRecord) :=
  [decode_slot (slot_bytes_at 0 bs); decode_slot (slot_bytes_at 1 bs)].

(** The active slot holds [rec], which names its own snapshot; the other slot is older. *)
Record slots_ok (sl : list (option SlotRecord)) (a : nat) (rec : SlotRecord) : Prop := {
  so_len : length sl = 2;
  so_active : a < 2;
  so_rec : sl !!! a = Some rec;
  so_other : ∀ r, sl !!! (1 - a) = Some r → (version r < version rec)%N;
  so_id : snapshot_id rec = version rec;
}.

(** The names and files [rec] depends on, in one view of the disk: the names [names], and the
    contents [content]. *)
Record view_ok (d : Path) (sl : list (option SlotRecord)) (rec : SlotRecord) (snap : bytes)
    (names : gmap Path N) (content : N → option bytes) (n m k : N) : Prop := {
  vo_manifest : names !! path_join d MANIFEST_FILE = Some m;
  vo_snapshot : names !! path_join d (snapshot_file_name (snapshot_id rec)) = Some k;
  vo_temp : names !! path_join d TEMP_FILE = None;
  vo_inodes : m ≠ k ∧ (m < n)%N ∧ (k < n)%N;
  vo_slots : ∃ M, content m = Some M ∧ length M = MANIFEST_SIZE ∧ read_slots M = sl;
  vo_bytes : content k = Some snap;
}.

(** What a crash keeps, and what a process sees. *)
Definition durable_ok d sl rec snap (v : CrashVfs) (m k : N) : Prop :=
  view_ok d sl rec snap (durable_names v) (λ i, durable <$> files v !! i) (next_inode v) m k.
Definition volatile_ok d sl rec snap (v : CrashVfs) (m k : N) : Prop :=
  view_ok d sl rec snap (volatile_names v) (λ i, volatile <$> files v !! i) (next_inode v) m k.

(** The two views agree on the manifest, the snapshot and its record. *)
Definition consistent d sl rec snap (v : CrashVfs) : Prop :=
  ∃ m k, durable_ok d sl rec snap v m k ∧ volatile_ok d sl rec snap v m k ∧
    files v !! m = (λ f, MkCrashFileBytes (durable f) (durable f)) <$> files v !! m.

(** A store whose last acknowledged commit is [rec] with the bytes [snap]. *)
Record committed (s : SnapshotStore CrashVfs) (rec : SlotRecord) (snap : bytes) : Prop := {
  cm_poisoned : poisoned s = false;
  cm_retain : retain s ≠ 0;
  cm_slots : slots_ok (slots s) (active s) rec;
  cm_disk : consistent (dir s) (slots s) rec snap (vfs s);
}.

(** The checksum tells a torn slot from a whole one: bytes of the new slot followed by bytes of
    the old one decode to the new record, to the old one, or to nothing. *)
Definition tear_detected (old new : bytes) : Prop :=
  Forall (λ j, let torn := take j new ++ drop j old in
    decode_slot torn = None ∨ decode_slot torn = decode_slot old ∨ decode_slot torn = decode_slot new)
    (seq 0 (S SLOT_SIZE)).

#[export] Instance tear_detected_dec old new : Decision (tear_detected old new).
Proof. unfold tear_detected. apply _. Defined.

(** The bytes the manifest holds in the slot the next commit writes. *)
Definition older_slot_bytes (s : SnapshotStore CrashVfs) : bytes :=
  match volatile_names (vfs s) !! path_join (dir s) MANIFEST_FILE ≫= λ i, files (vfs s) !! i with
  | Some file => slot_bytes_at (1 - active s) (durable file)
  | None => []
  end.

(** ** Lemmas: slots *)

Lemma slots_ok_active sl a rec :
  slots_ok sl a rec →
  match sl with
  | [Some l; Some r] => if (version l <? version r)%N then 1 else 0
  | [None; Some _] => 1
  | _ => 0
  end = a.
Proof.
  intros [Hl Ha Hr Ho _]. destruct sl as [|l [|r [|? ?]]]; try done.
  destruct a as [|[|]]; simpl in *; [| |lia]; subst.
  - destruct r as [r|]; [|done]. specialize (Ho r eq_refl). case_match; nbool; lia.
  - destruct l as [l|]; [|done]. specialize (Ho l eq_refl). case_match; nbool; lia.
Qed.

Lemma read_slots_range M :
  length M = MANIFEST_SIZE →
  [get_range 0 SLOT_SIZE M ≫= decode_slot; get_range SLOT_STRIDE SLOT_SIZE M ≫= decode_slot] = read_slots M.
Proof.
  intros Hl. unfold get_range, MANIFEST_SIZE in *. rewrite !(proj2 (Nat.leb_le _ _)) by (rewrite Hl; lia).
  unfold read_slots, slot_bytes_at. by rewrite Nat.mul_0_l, Nat.mul_1_l.
Qed.

Lemma crash_consistent d sl rec snap v m k :
  durable_ok d sl rec snap v m k → consistent d sl rec snap (crash v).
Proof.
  intros [H1 H2 H3 H4 (M & H5 & H6 & H7) H8].
  apply fmap_Some in H5 as (fm & Hm & HM). apply fmap_Some in H8 as (fk & Hk & Hs).
  exists m, k. split; [|split]; [| |]; simpl.
  - split; simpl; try done; rewrite ?lookup_fmap, ?Hm, ?Hk; simpl; [|by rewrite Hs].
    exists M. rewrite HM. split_and!; congruence.
  - split; simpl; try done; rewrite ?lookup_fmap, ?Hm, ?Hk; simpl; [|by rewrite Hs].
    exists M. rewrite HM. split_and!; congruence.
  - by rewrite lookup_fmap, Hm.
Qed.

(** ** Lemmas: calls on the file system *)

Lemma on_vfs_bind {A B} (m : SM CrashVfs ErrorKind A) (k : A → SM (SnapshotStore CrashVfs) StoreError B) s v' r :
  m (vfs s) = (v', Returns r) →
  (on_vfs m ≫= k) s = match r with Ok a => k a (set_vfs v' s) | Err e => (set_vfs v' s, Returns (Err (Io e))) end.
Proof. intros Hm. unfold on_vfs, mbind, sm_bind, sm_zoom, io. rewrite Hm. by destruct r. Qed.

Lemma keeps_on_vfs {A} (P : CrashVfs → Prop) (Q : SnapshotStore CrashVfs → Prop) (m : SM CrashVfs ErrorKind A) :
  keeps P m → (∀ s v, Q s → Q (set_vfs v s)) → keeps (λ s, Q s ∧ P (vfs s)) (on_vfs m).
Proof.
  intros Hm HQ s [Hq Hp]. destruct (Hm _ Hp) as (v' & r & Hr & Hp').
  eexists (set_vfs v' s), _. split; [|split; [by apply HQ|done]].
  unfold on_vfs, sm_zoom, io. by rewrite Hr.
Qed.

Lemma keeps_missing_ok {V A} (P : V → Prop) (m : SM V ErrorKind A) : keeps P m → keeps P (missing_ok m).
Proof.
  intros Hm v Hv. destruct (Hm v Hv) as (v' & r & Hr & Hp). unfold missing_ok. rewrite Hr.
  destruct r as [a|[]]; eexists _, _; by split.
Qed.

(** ** Lemmas: pruning *)

Lemma consistent_remove d sl rec snap id :
  id ≠ snapshot_id rec →
  keeps (consistent d sl rec snap) (crash_remove (path_join d (snapshot_file_name id))).
Proof.
  intros Hid v Hc. destruct (remove_disk _ _ _ _ v (path_join d (snapshot_file_name id)) (disk_self v))
    as (v' & r & Hr & Hcases).
  exists v', r. split; [done|]. destruct Hcases as [(_ & _ & ->)|[(_ & Hd)|(_ & Hd)]]; [done|..];
    destruct Hc as (m & k & H1 & H2 & H3), Hd as (HF & HD & HV & Hn);
    exists m, k; unfold durable_ok, volatile_ok in *; rewrite HF, HD, HV, Hn; (split; [done|split; [|done]]).
  - destruct H2 as [E1 E2 E3 E4 E5 E6]. split; try done; rewrite lookup_delete_ne; try done;
      intros Heq%path_join_inj; [done|apply snapshot_file_name_inj in Heq; congruence|done].
  - exact H2.
Qed.

Lemma consistent_sync d sl rec snap : keeps (consistent d sl rec snap) (crash_fsync_dir d).
Proof.
  intros v Hc. destruct (fsync_dir_disk _ _ _ _ v d (disk_self v)) as (v' & r & Hr & Hcases).
  exists v', r. split; [done|]. destruct Hc as (m & k & H1 & H2 & H3).
  destruct Hcases as [(_ & HF & HD & HV & Hn)|(_ & HF & HD & HV & Hn)];
    exists m, k; unfold durable_ok, volatile_ok in *; rewrite HF, HD, HV, Hn; (split; [|split; [done|done]]); [|done].
  destruct H1 as [E1 E2 E3 E4 E5 E6], H2 as [D1 D2 D3 _ _ _].
  split; try done; rewrite synced_lookup by apply parent_join; done.
Qed.

(** What pruning keeps. *)
Definition pruning (s0 : SnapshotStore CrashVfs) rec snap (s : SnapshotStore CrashVfs) : Prop :=
  s = set_vfs (vfs s) s0 ∧ consistent (dir s0) (slots s0) rec snap (vfs s).

Lemma prune_keeps s0 rec snap :
  Some rec ∈ slots s0 → keeps (pruning s0 rec snap) prune.
Proof.
  intros Hin. unfold pruning. apply keeps_get. intros s [Hs _].
  assert (dir s = dir s0 ∧ slots s = slots s0) as [-> ->] by (rewrite Hs; done). cbn zeta.
  assert (∀ A (m : SM CrashVfs ErrorKind A), keeps (consistent (dir s0) (slots s0) rec snap) m →
    keeps (λ s, s = set_vfs (vfs s) s0 ∧ consistent (dir s0) (slots s0) rec snap (vfs s)) (on_vfs m)) as Hon.
  { intros A m Hm. apply keeps_on_vfs; [done|]. intros s1 v1 ->. done. }
  apply keeps_bind.
  { apply Hon. intros v Hv. eexists v, _. by split. }
  intros paths. apply keeps_bind.
  - assert (Forall (λ id, id ≠ snapshot_id rec) (sort_ids (filter (λ id, Some id ∉
      (λ slot : option SlotRecord, snapshot_id <$> slot) <$> slots s0) (omap snapshot_id_from_path (paths : list Path))))) as Hall.
    { apply Forall_forall. intros id Hid Heq. unfold sort_ids in Hid.
      rewrite merge_sort_Permutation, list_elem_of_filter in Hid. destruct Hid as [Hn _]. apply Hn. subst.
      change (Some (snapshot_id rec)) with ((λ slot : option SlotRecord, snapshot_id <$> slot) (Some rec)).
      by apply list_elem_of_fmap_2. }
    revert Hall. generalize (sort_ids (filter (λ id, Some id ∉
      (λ slot : option SlotRecord, snapshot_id <$> slot) <$> slots s0) (omap snapshot_id_from_path (paths : list Path)))).
    intros ids Hall. generalize (length ids - retain s). intros c. apply Forall_take with (n := c) in Hall.
    induction Hall as [|id l Hid _ IH]; [apply keeps_ret|]. simpl. apply keeps_bind; [|done].
    apply keeps_bind; [|intros; apply keeps_ret]. apply Hon, keeps_missing_ok, consistent_remove. congruence.
  - intros _. case_match; [|apply keeps_ret]. apply Hon, consistent_sync.
Qed.

(** ** Lemmas: opening *)

Lemma read_volatile v p i file :
  volatile_names v !! p = Some i → files v !! i = Some file →
  crash_read p v = (v, Returns (Ok (volatile file))).
Proof. intros Hp Hi. unfold crash_read. run_vfs. rewrite Hp. cbn [ok_or]. by rewrite Hi. Qed.

Lemma remove_missing v p : volatile_names v !! p = None → crash_remove p v = (v, Returns (Err NotFound)).
Proof. intros Hp. unfold crash_remove. run_vfs. by rewrite Hp. Qed.

Lemma io_missing_bind {V A B} (m : SM V ErrorKind A) (k : option A → SM V StoreError B) v v' r :
  m v = (v', Returns r) → (r ≠ Err NotFound → ∃ a, r = Ok a) →
  (io (missing_ok m) ≫= k) v = k (match r with Ok a => Some a | Err _ => None end) v'.
Proof.
  intros Hm Hr. unfold io, missing_ok, mbind, sm_bind. rewrite Hm. destruct r as [a|[]]; [done|done|..];
    by destruct Hr as [? ?].
Qed.

Lemma io_bind_ok {V A B} (m : SM V ErrorKind A) (k : A → SM V StoreError B) v v' a :
  m v = (v', Returns (Ok a)) → (io m ≫= k) v = k a v'.
Proof. intros Hm. unfold io, mbind, sm_bind. by rewrite Hm. Qed.

Lemma open_slots_consistent d ret sl a rec snap v :
  ret ≠ 0 → slots_ok sl a rec → consistent d sl rec snap v →
  open_slots (MkStoreConfig d ret) v = (v, Returns (Ok (sl, a, Some (MkRecovered snap (rec_cursor rec))))).
Proof.
  intros Hret Hso (m & k & _ & [V1 V2 V3 _ (M & V4 & V5 & V6) V7] & _).
  apply fmap_Some in V4 as (fm & Hfm & ->). apply fmap_Some in V7 as (fk & Hfk & ->).
  unfold open_slots. cbn [config_dir config_retain].
  rewrite (proj2 (Nat.eqb_neq _ _)) by done. rewrite sm_ret_bind.
  rewrite (io_bind_ok (create_dir_all d) _ v v ()) by done. cbn zeta. rewrite (io_missing_bind _ _ v v (Err NotFound)); [|by apply remove_missing|done]. rewrite sm_ret_bind.
  rewrite (io_missing_bind _ _ v v (Ok (volatile fm))); [|by eapply read_volatile|by eauto].
  cbn zeta. pose proof (read_slots_range _ V5) as Hrs. rewrite V6 in Hrs.
  assert (bool_decide (get_range 0 SLOT_SIZE (volatile fm) ≫= decode_slot = None) &&
    bool_decide (get_range SLOT_STRIDE SLOT_SIZE (volatile fm) ≫= decode_slot = None) = false) as Hb.
  { pose proof (so_rec _ _ _ Hso) as Hr. pose proof (so_active _ _ _ Hso). rewrite <- Hrs in Hr.
    apply andb_false_iff. rewrite !bool_decide_eq_false.
    destruct a as [|[|]]; [left|right|lia]; simpl in Hr; by rewrite Hr. }
  rewrite Hb. cbn [andb]. rewrite Hrs, sm_ret_bind. cbn beta zeta.
  rewrite (slots_ok_active _ _ _ Hso), (so_rec _ _ _ Hso). cbn zeta.
  unfold mbind at 1, sm_bind at 1.
  rewrite (io_missing_bind _ _ v v (Ok (volatile fk))); [|by eapply read_volatile|by eauto].
  reflexivity.
Qed.

(** Opening a consistent disk yields the committed store. *)
Lemma open_consistent d ret sl a rec snap v :
  ret ≠ 0 → slots_ok sl a rec → consistent d sl rec snap v →
  ∃ s, open (MkStoreConfig d ret) v = Returns (Ok (s, Some (MkRecovered snap (rec_cursor rec)))) ∧
    committed s rec snap ∧ dir s = d ∧ retain s = ret ∧ slots s = sl ∧ active s = a.
Proof.
  intros Hret Hso Hc. unfold open. rewrite (open_slots_consistent d ret sl a rec snap v) by done.
  set (s0 := MkStore d v ret sl a false).
  assert (Some rec ∈ slots s0) as Hin.
  { apply list_elem_of_lookup_2 with a. apply list_lookup_alt. simpl. split; [|apply Hso].
    rewrite (so_len _ _ _ Hso). apply Hso. }
  destruct (prune_keeps s0 rec snap Hin s0) as (s & r & Hr & Hs & Hcs); [split; done|].
  cbn [config_dir config_retain]. fold s0. rewrite Hr. exists s. split; [done|]. rewrite Hs. split; [|done].
  split; simpl; [done|done|done|]. exact Hcs.
Qed.

(** ** Lemmas: committing *)

(** The record of the next commit, and the slots after it. *)
Definition next_record (rec : SlotRecord) (cursor : option Position) : SlotRecord :=
  MkSlotRecord (version rec + 1) cursor (version rec + 1).

Lemma durable_ok_frame d sl rec snap v v' m k :
  durable_ok d sl rec snap v m k →
  (∀ i, i = m ∨ i = k → durable <$> files v' !! i = durable <$> files v !! i) →
  durable_names v' = durable_names v → (next_inode v ≤ next_inode v')%N →
  durable_ok d sl rec snap v' m k.
Proof.
  intros [H1 H2 H3 H4 H5 H6] HF HD Hn. split; rewrite ?HD; auto.
  - lia.
  - by rewrite HF by auto.
  - by rewrite HF by auto.
Qed.

(** The disk once the new snapshot has its name: the names are durable, the old record is still
    the one the manifest holds. *)
Definition placed d sl rec snap (new : bytes) (id : N) (v : CrashVfs) (m k : N) : Prop :=
  durable_ok d sl rec snap v m k ∧ files v !! m = (λ f, MkCrashFileBytes (durable f) (durable f)) <$> files v !! m ∧
  volatile_names v !! path_join d MANIFEST_FILE = Some m ∧
  volatile_names v !! path_join d (snapshot_file_name (snapshot_id rec)) = Some k ∧
  volatile_names v !! path_join d TEMP_FILE = None ∧
  ∃ t, durable_names v !! path_join d (snapshot_file_name id) = Some t ∧
    volatile_names v !! path_join d (snapshot_file_name id) = Some t ∧
    t ≠ m ∧ (t < next_inode v)%N ∧ files v !! t = Some (MkCrashFileBytes new new).

(** A disk that gained one fresh file keeps what it had. *)
Lemma fresh_file_frame d sl rec snap v0 v m k f :
  durable_ok d sl rec snap v0 m k →
  disk (<[next_inode v0 := f]> (files v0)) (durable_names v0) (volatile_names v) (next_inode v0 + 1) v →
  durable_ok d sl rec snap v m k.
Proof.
  intros Hdur (HF & HD & _ & Hn). pose proof (vo_inodes _ _ _ _ _ _ _ _ _ Hdur) as (Hmk & Hm & Hk).
  eapply durable_ok_frame; [exact Hdur| |done|lia].
  rewrite HF. intros i [-> | ->]; rewrite lookup_insert_ne by lia; done.
Qed.

Lemma disk_volatile F D V n v : disk F D V n v → disk F D (volatile_names v) n v.
Proof. by intros (? & ? & ? & ?). Qed.

(** The rename and the directory sync of a commit. *)
Lemma name_snapshot d sl rec snap new id v0 s (K : SM (SnapshotStore CrashVfs) StoreError ()) m k :
  durable_ok d sl rec snap v0 m k → volatile_ok d sl rec snap v0 m k →
  files v0 !! m = (λ f, MkCrashFileBytes (durable f) (durable f)) <$> files v0 !! m →
  id ≠ snapshot_id rec →
  disk (<[next_inode v0 := MkCrashFileBytes new new]> (files v0)) (durable_names v0)
    (<[path_join d TEMP_FILE := next_inode v0]> (volatile_names v0)) (next_inode v0 + 1) (vfs s) →
  let run := (on_vfs (rename (path_join d TEMP_FILE) (path_join d (snapshot_file_name id)));; on_vfs (fsync_dir d);; K) s in
  (∃ v1, run = K (set_vfs v1 s) ∧ files v1 !! m = files v0 !! m ∧ placed d sl rec snap new id v1 m k) ∨
  (∃ v1, run = (set_vfs v1 s, Returns (Err (Io OtherKind))) ∧ durable_ok d sl rec snap v1 m k).
Proof.
  intros Hdur Hvol Hsync Hid Hd run. pose proof (vo_inodes _ _ _ _ _ _ _ _ _ Hdur) as (Hmk & Hm & Hk).
  destruct (rename_old _ _ _ _ (vfs s) (path_join d TEMP_FILE) (path_join d (snapshot_file_name id)) (next_inode v0) Hd)
    as (v3 & r3 & Hr3 & Hc3); [by rewrite lookup_insert_eq|].
  unfold run. rewrite (on_vfs_bind _ _ s v3 r3 Hr3).
  destruct Hc3 as [[-> Hd3]|[-> Hd3]].
  2:{ right. exists v3. split; [done|]. eapply fresh_file_frame, disk_volatile; [exact Hdur|exact Hd3]. }
  rewrite delete_insert_eq in Hd3.
  destruct (fsync_dir_disk _ _ _ _ v3 d Hd3) as (v4 & r4 & Hr4 & Hc4).
  rewrite (on_vfs_bind _ _ (set_vfs v3 s) v4 r4 Hr4).
  destruct Hc4 as [[-> Hd4]|[-> Hd4]].
  2:{ right. exists v4. split; [done|]. eapply fresh_file_frame, disk_volatile; [exact Hdur|exact Hd4]. }
  left. exists v4. split; [done|]. clear -Hdur Hvol Hsync Hid Hm Hk Hmk Hd4.
  destruct Hd4 as (HF & HD & HV & Hn), Hdur as [_ _ _ _ D5 D6], Hvol as [V1 V2 V3 _ _ _].
  set (V := delete (path_join d TEMP_FILE) (volatile_names v0)) in *.
  assert (∀ x, <[path_join d (snapshot_file_name id):=next_inode v0]> V !! path_join d x =
    if decide (x = snapshot_file_name id) then Some (next_inode v0) else
    if decide (x = TEMP_FILE) then None else volatile_names v0 !! path_join d x) as HVx.
  { intros x. case_decide as H1; [subst; by rewrite lookup_insert_eq|].
    rewrite lookup_insert_ne by (intros Heq%path_join_inj; congruence). unfold V.
    case_decide as H2; [subst; by rewrite lookup_delete_eq|].
    by rewrite lookup_delete_ne by (intros Heq%path_join_inj; congruence). }
  assert (∀ x, durable_names v4 !! path_join d x = volatile_names v4 !! path_join d x) as Hsy.
  { intros x. rewrite HD, HV. apply synced_lookup, parent_join. }
  assert (snapshot_file_name (snapshot_id rec) ≠ snapshot_file_name id) as Hne.
  { intros Heq%snapshot_file_name_inj. congruence. }
  assert (∀ i, i = m ∨ i = k → files v4 !! i = files v0 !! i) as HFi.
  { rewrite HF. intros i [-> | ->]; rewrite lookup_insert_ne by lia; done. }
  assert (volatile_names v4 !! path_join d MANIFEST_FILE = Some m) as W1 by (rewrite HV, HVx; done).
  assert (volatile_names v4 !! path_join d (snapshot_file_name (snapshot_id rec)) = Some k) as W2.
  { rewrite HV, HVx. by rewrite decide_False, decide_False by done. }
  assert (volatile_names v4 !! path_join d TEMP_FILE = None) as W3 by (rewrite HV, HVx; done).
  split; [by apply HFi; left|].
  split; [|split; [|split; [done|split; [done|split; [done|]]]]].
  - split; rewrite ?Hsy, ?Hn; [done|done|done|lia|..]; rewrite HFi by auto; done.
  - rewrite HFi by auto. done.
  - exists (next_inode v0). rewrite Hsy, HV, HVx, decide_True, Hn, HF, lookup_insert_eq by done. split_and!; lia || done.
Qed.

(** The first half of a commit: the snapshot reaches its durable name, or a failure leaves the
    durable disk as it was. *)
Lemma place_snapshot d sl rec snap new id s (K : SM (SnapshotStore CrashVfs) StoreError ()) :
  consistent d sl rec snap (vfs s) → id ≠ snapshot_id rec → 
  let run := (on_vfs (vfs_write (path_join d TEMP_FILE) new);; on_vfs (fsync_file (path_join d TEMP_FILE));;
    on_vfs (rename (path_join d TEMP_FILE) (path_join d (snapshot_file_name id)));; on_vfs (fsync_dir d);; K) s in
  ∃ m k, volatile_names (vfs s) !! path_join d MANIFEST_FILE = Some m ∧
    ((∃ v1, run = K (set_vfs v1 s) ∧ files v1 !! m = files (vfs s) !! m ∧ placed d sl rec snap new id v1 m k) ∨
     (∃ v1, run = (set_vfs v1 s, Returns (Err (Io OtherKind))) ∧ durable_ok d sl rec snap v1 m k)).
Proof.
  intros (m & k & Hdur & Hvol & Hsync) Hid run. exists m, k. split; [apply Hvol|].
  pose proof (vo_temp _ _ _ _ _ _ _ _ _ Hvol) as Ht.
  destruct (write_new _ _ _ _ (vfs s) (path_join d TEMP_FILE) new (disk_self _) Ht) as (v1 & r1 & k1 & Hr1 & Hd1 & He1).
  unfold run. rewrite (on_vfs_bind _ _ s v1 r1 Hr1).
  destruct He1 as [[-> ->]| ->].
  2:{ right; exists v1; split; [done|]. eapply fresh_file_frame, disk_volatile; [exact Hdur|exact Hd1]. }
  rewrite firstn_all in Hd1.
  destruct (fsync_file_old _ _ _ _ v1 (path_join d TEMP_FILE) (next_inode (vfs s)) (MkCrashFileBytes [] new) Hd1)
    as (v2 & r2 & k2 & Hr2 & Hd2 & _ & He2); [by rewrite lookup_insert_eq..|].
  rewrite insert_insert_eq in Hd2. cbn [durable volatile] in *.
  rewrite (on_vfs_bind _ _ (set_vfs v1 s) v2 r2 Hr2).
  destruct He2 as [[-> ->]| ->].
  2:{ right. exists v2. split; [done|]. eapply fresh_file_frame, disk_volatile; [exact Hdur|exact Hd2]. }
  rewrite firstn_all, splice_whole in Hd2.
  2:{ unfold grow. simpl. destruct new; simpl; [done|]. by rewrite length_replicate. }
  by destruct (name_snapshot d sl rec snap new id (vfs s) (set_vfs v2 s) K m k Hdur Hvol Hsync Hid Hd2); [left|right].
Qed.

(** ** Lemmas: the manifest slot *)

Lemma slots_ok_next sl a rec cursor :
  slots_ok sl a rec → slots_ok (<[1 - a := Some (next_record rec cursor)]> sl) (1 - a) (next_record rec cursor).
Proof.
  intros [Hl Ha Hr Ho Hi]. split; simpl; [by rewrite length_insert|lia| | |done].
  - rewrite list_lookup_total_insert_eq; [done|lia].
  - replace (1 - (1 - a)) with a by lia. rewrite list_lookup_total_insert_ne, Hr by lia. intros r [= <-]. lia.
Qed.

Lemma slots_ok_torn sl a rec : slots_ok sl a rec → slots_ok (<[1 - a := None]> sl) a rec.
Proof.
  intros [Hl Ha Hr Ho Hi]. split; [by rewrite length_insert|done| | |done].
  - by rewrite list_lookup_total_insert_ne by lia.
  - rewrite list_lookup_total_insert_eq by lia. done.
Qed.

Lemma read_slots_update X M a :
  a < 2 → slot_bytes_at a X = slot_bytes_at a M →
  read_slots X = <[1 - a := decode_slot (slot_bytes_at (1 - a) X)]> (read_slots M).
Proof. intros Ha Heq. unfold read_slots. destruct a as [|[|]]; simpl; [by rewrite Heq..|lia]. Qed.

(** A manifest torn at byte [k] while its older slot was being written: the active slot is
    whole, and the older one starts with new bytes and ends with old ones. *)
Lemma torn_manifest M nb a k :
  a < 2 → length M = MANIFEST_SIZE → length nb = SLOT_SIZE → k ≤ MANIFEST_SIZE →
  let X := take k (splice ((1 - a) * SLOT_STRIDE) nb M) ++ drop k M in
  length X = MANIFEST_SIZE ∧ slot_bytes_at a X = slot_bytes_at a M ∧
  ∃ j, j ≤ SLOT_SIZE ∧ slot_bytes_at (1 - a) X = take j nb ++ drop j (slot_bytes_at (1 - a) M).
Proof.
  intros Ha HM Hnb Hk X. assert (X = take k (splice ((1 - a) * SLOT_STRIDE) nb M) ++ drop k M) as EX by done. clearbody X. unfold MANIFEST_SIZE, SLOT_SIZE, CRC_OFFSET, CRC_COVERED_LEN, SLOT_CRC_LEN in *. simpl in Hnb.
  assert (∃ st, SLOT_STRIDE = st ∧ 64 ≤ st) as (st & Est & Hst) by (eexists; split; [done|unfold SLOT_STRIDE; lia]).
  unfold slot_bytes_at. rewrite Est in *. clear Est.
  set (o := (1 - a) * st) in *. assert (o + 64 ≤ length M) as Ho by (unfold o; nia).
  assert (length (splice o nb M) = length M) as Hs by (apply length_splice; lia).
  assert (∀ i, X !! i = if decide (i < k) then splice o nb M !! i else M !! i) as HX.
  { intros i. rewrite EX. case_decide.
    - rewrite lookup_app_l by (rewrite length_take; lia). by rewrite lookup_take_lt.
    - rewrite lookup_app_r by (rewrite length_take; lia). rewrite lookup_drop, length_take. f_equal. lia. }
  split; [rewrite EX, length_app, length_take, length_drop; lia|]. split.
  - apply slice_ext. intros i Hi. rewrite HX. case_decide; [|done]. rewrite splice_lookup by lia.
    rewrite decide_False; [done|]. change SLOT_SIZE with 64 in Hi. clear -Ha Hi Hst Hnb. unfold o. destruct a as [|[|]]; simpl in *; lia.
  - exists (Nat.min 64 (k - o)). split; [change SLOT_SIZE with 64; lia|].
    apply list_eq. intros i. rewrite slice_lookup, HX. change SLOT_SIZE with 64.
    destruct (decide (i < Nat.min 64 (k - o))) as [Hi|Hi].
    + rewrite lookup_app_l by (rewrite length_take; lia). rewrite lookup_take_lt by lia.
      rewrite decide_True, decide_True, splice_lookup, decide_True by lia. f_equal. lia.
    + rewrite lookup_app_r by (rewrite length_take; lia). rewrite length_take, lookup_drop, slice_lookup.
      replace (Nat.min 64 (k - o) + (i - Nat.min (Nat.min 64 (k - o)) (length nb))) with i by lia.
      case_decide; [|done]. case_decide; [|done]. rewrite splice_lookup, decide_False by lia. done.
Qed.

(** What a crash may leave after a commit that did not return: a store at one of two commits. *)
Definition recoverable (d : Path) (choices : list (SlotRecord * bytes)) (v : CrashVfs) : Prop :=
  ∃ sl a rec snap m k, (rec, snap) ∈ choices ∧ slots_ok sl a rec ∧ durable_ok d sl rec snap v m k.

(** The new record is served once the manifest holds it. *)
Lemma placed_next d sl rec snap new cursor v v' m k X :
  placed d sl rec snap new (version rec + 1) v m k →
  durable_names v' = durable_names v → next_inode v' = next_inode v →
  (∀ i, i ≠ m → files v' !! i = files v !! i) → durable <$> files v' !! m = Some X → length X = MANIFEST_SIZE →
  ∃ t, t ≠ m ∧ durable_ok d (read_slots X) (next_record rec cursor) new v' m t ∧
    (volatile_names v' = volatile_names v → volatile <$> files v' !! m = Some X →
     consistent d (read_slots X) (next_record rec cursor) new v').
Proof.
  intros (Hdur & _ & W1 & W2 & W3 & t & T1 & T2 & T3 & T4 & T5) HD Hn HF HX Hl. exists t. split; [done|].
  assert (durable_ok d (read_slots X) (next_record rec cursor) new v' m t) as Hd.
  { destruct Hdur as [D1 D2 D3 D4 _ _]. split; rewrite ?HD, ?Hn; simpl; [done..|lia|by exists X|].
    by rewrite HF, T5 by done. }
  split; [done|]. intros HV HXv. exists m, t. split; [done|]. split.
  - destruct Hdur as [_ _ _ D4 _ _]. split; rewrite ?HV, ?Hn; simpl; [done..|lia|by exists X|].
    by rewrite HF, T5 by done.
  - apply fmap_Some in HX as (f & Hf & ->). rewrite Hf in HXv |- *. simpl in *. destruct f. by simplify_eq/=.
Qed.

(** A crash in the manifest sync: the torn slot decodes to nothing, to the old record, or to the
    new one, and each leaves a committed snapshot. *)
Lemma torn_recoverable `{!ChecksumLaws _} d sl a rec snap new cursor v v' m k M j :
  let nb := encode_slot (next_record rec cursor) in
  let X := take j (splice ((1 - a) * SLOT_STRIDE) nb M) ++ drop j M in
  placed d sl rec snap new (version rec + 1) v m k → slots_ok sl a rec → record_wf (next_record rec cursor) →
  length M = MANIFEST_SIZE → read_slots M = sl → j ≤ MANIFEST_SIZE →
  tear_detected (slot_bytes_at (1 - a) M) nb →
  durable_names v' = durable_names v → next_inode v' = next_inode v →
  (∀ i, i ≠ m → files v' !! i = files v !! i) → durable <$> files v' !! m = Some X →
  recoverable d [(rec, snap); (next_record rec cursor, new)] v'.
Proof.
  intros nb X Hpl Hso Hrec HM Hsl Hj Htear HD Hn HF HX. pose proof (so_active _ _ _ Hso) as Ha.
  destruct (torn_manifest M nb a j Ha HM eq_refl Hj) as (HlX & Heqa & i & Hi & Hmix). fold X in HlX, Heqa, Hmix.
  assert (decode_slot nb = Some (next_record rec cursor)) as Hnb by by apply decode_encode_slot.
  assert (Hold : ∀ sl', slots_ok sl' a rec → read_slots X = sl' → recoverable d [(rec, snap); (next_record rec cursor, new)] v').
  { intros sl' Hsl' HXs. exists sl', a, rec, snap, m, k. split; [left|]. split; [done|].
    destruct Hpl as ([D1 D2 D3 D4 _ D6] & _). split; rewrite ?HD, ?Hn; try done; [by exists X|].
    rewrite HF by (destruct D4; congruence). done. }
  pose proof (read_slots_update X M a Ha Heqa) as HXs. rewrite Hsl, Hmix in HXs.
  unfold tear_detected in Htear. rewrite Forall_forall in Htear.
  specialize (Htear i). rewrite elem_of_seq in Htear. destruct Htear as [Hd|[Hd|Hd]]; [lia|..]; rewrite Hd in HXs.
  - by eapply Hold; [apply slots_ok_torn|].
  - apply (Hold sl Hso). rewrite HXs. apply list_insert_id. rewrite <- Hsl. by destruct a as [|[|]]; [..|lia].
  - rewrite Hnb in HXs. destruct (placed_next d sl rec snap new cursor v v' m k X) as (t & _ & Ht & _); try done.
    exists (read_slots X), (1 - a), (next_record rec cursor), new, m, t. split; [right; left|]. split; [|done].
    rewrite HXs. by apply slots_ok_next.
Qed.

Lemma placed_manifest d sl rec snap new id v m k :
  placed d sl rec snap new id v m k →
  ∃ M, files v !! m = Some (MkCrashFileBytes M M) ∧ length M = MANIFEST_SIZE ∧ read_slots M = sl.
Proof.
  intros ([_ _ _ _ (M & HM & Hl & Hs) _] & Hsync & _). apply fmap_Some in HM as (f & Hf & ->).
  rewrite Hf in Hsync. simpl in Hsync. rewrite Hf. exists (durable f). split; [congruence|done].
Qed.

(** The second half of a commit: the manifest slot is written and synced, or a failure leaves a
    recoverable disk. *)
Lemma write_slot `{!ChecksumLaws _} d sl a rec snap new cursor s m k (K : SM (SnapshotStore CrashVfs) StoreError ()) :
  let nb := encode_slot (next_record rec cursor) in
  placed d sl rec snap new (version rec + 1) (vfs s) m k → slots_ok sl a rec → record_wf (next_record rec cursor) →
  (∀ M, durable <$> files (vfs s) !! m = Some M → tear_detected (slot_bytes_at (1 - a) M) nb) →
  let run := (on_vfs (write_at (path_join d MANIFEST_FILE) ((1 - a) * SLOT_STRIDE) nb);;
    on_vfs (fsync_file (path_join d MANIFEST_FILE));; K) s in
  (∃ v1, run = K (set_vfs v1 s) ∧
    consistent d (<[1 - a := Some (next_record rec cursor)]> sl) (next_record rec cursor) new v1) ∨
  (∃ v1, run = (set_vfs v1 s, Returns (Err (Io OtherKind))) ∧
    recoverable d [(rec, snap); (next_record rec cursor, new)] v1).
Proof.
  intros nb Hpl Hso Hrec Htear run. destruct (placed_manifest _ _ _ _ _ _ _ _ _ Hpl) as (M & HM & Hl & Hs).
  rewrite HM in Htear. specialize (Htear M eq_refl). pose proof (so_active _ _ _ Hso) as Ha.
  pose proof Hpl as (Hdur & _ & W1 & _).
  assert ((1 - a) * SLOT_STRIDE + SLOT_SIZE ≤ length M) as Ho by (rewrite Hl; unfold MANIFEST_SIZE; nia).
  destruct (write_at_old _ _ _ _ (vfs s) (path_join d MANIFEST_FILE) m _ ((1 - a) * SLOT_STRIDE) nb (disk_self _) W1 HM)
    as (v1 & r1 & k1 & Hr1 & Hd1 & He1).
  unfold run. rewrite (on_vfs_bind _ _ s v1 r1 Hr1). cbn [durable volatile] in *.
  destruct He1 as [[-> ->]| ->].
  2:{ right. exists v1. split; [done|]. exists sl, a, rec, snap, m, k. split; [left|]. split; [done|].
      destruct Hd1 as (HF1 & HD1 & HV1 & Hn1). eapply durable_ok_frame; [exact Hdur| |done|by rewrite Hn1].
      rewrite HF1. intros i _. destruct (decide (i = m)) as [->|]; [by rewrite lookup_insert_eq, HM|by rewrite lookup_insert_ne]. }
  change (length nb) with SLOT_SIZE in Hd1. rewrite firstn_all2 in Hd1 by done.
  assert (grow ((1 - a) * SLOT_STRIDE + SLOT_SIZE) M = M) as Hg.
  { unfold grow. by rewrite (proj2 (Nat.ltb_ge _ _)). }
  rewrite Hg in Hd1. set (Y := splice ((1 - a) * SLOT_STRIDE) nb M) in *.
  assert (length Y = MANIFEST_SIZE) as HY by (unfold Y; rewrite length_splice by done; done).
  destruct (fsync_file_old _ _ _ _ v1 (path_join d MANIFEST_FILE) m (MkCrashFileBytes M Y) Hd1 W1)
    as (v2 & r2 & k2 & Hr2 & Hd2 & Hk2 & He2); [by rewrite lookup_insert_eq|].
  rewrite (on_vfs_bind _ _ (set_vfs v1 s) v2 r2 Hr2). rewrite insert_insert_eq in Hd2. cbn [durable volatile] in *.
  assert (splice 0 (take k2 Y) (grow (length Y) M) = take k2 Y ++ drop k2 M) as Hsp.
  { unfold grow. rewrite (proj2 (Nat.ltb_ge _ _)) by lia. unfold splice. simpl. by rewrite length_take, Nat.min_l by lia. }
  rewrite Hsp in Hd2. destruct Hd2 as (HF2 & HD2 & HV2 & Hn2).
  assert (∀ i, i ≠ m → files v2 !! i = files (vfs s) !! i) as HF by (intros i Hi; by rewrite HF2, lookup_insert_ne).
  destruct He2 as [[-> ->]| ->].
  - left. exists v2. split; [done|]. rewrite firstn_all, drop_ge, app_nil_r in HF2 by lia.
    destruct (placed_next d sl rec snap new cursor (vfs s) v2 m k Y Hpl HD2 Hn2 HF) as (t & _ & _ & Hc);
      [by rewrite HF2, lookup_insert_eq|done|].
    assert (read_slots Y = <[1 - a := Some (next_record rec cursor)]> sl) as <-; [|apply Hc; by rewrite ?HF2, ?lookup_insert_eq].
    destruct (torn_manifest M nb a MANIFEST_SIZE Ha Hl eq_refl (le_n _)) as (_ & Heqa & _). fold Y in Heqa.
    rewrite firstn_all2, drop_ge, app_nil_r in Heqa by lia.
    rewrite (read_slots_update Y M a Ha Heqa), Hs. do 2 f_equal. unfold slot_bytes_at, Y.
    rewrite slice_splice_eq by done. by apply decode_encode_slot.
  - right. exists v2. split; [done|]. apply (torn_recoverable d sl a rec snap new cursor (vfs s) v2 m k M k2); try done.
    + lia.
    + by rewrite HF2, lookup_insert_eq.
Qed.

(** A recoverable disk, once crashed, opens to a committed store. *)
Lemma open_recoverable d ret choices v :
  ret ≠ 0 → recoverable d choices v →
  ∃ s rec snap, (rec, snap) ∈ choices ∧
    open (MkStoreConfig d ret) (crash v) = Returns (Ok (s, Some (MkRecovered snap (rec_cursor rec)))) ∧
    committed s rec snap ∧ durable_cursor s = rec_cursor rec.
Proof.
  intros Hret (sl & a & rec & snap & m & k & Hin & Hso & Hdur). apply crash_consistent in Hdur.
  destruct (open_consistent d ret sl a rec snap (crash v) Hret Hso Hdur) as (s & Ho & Hc & _).
  exists s, rec, snap. split; [done|]. split; [done|]. split; [done|]. unfold durable_cursor. by rewrite (so_rec _ _ _ (cm_slots _ _ _ Hc)).
Qed.

Lemma committed_recoverable s rec snap choices :
  committed s rec snap → (rec, snap) ∈ choices → recoverable (dir s) choices (vfs s).
Proof.
  intros [_ _ Hso (m & k & Hd & _)] Hin. by exists (slots s), (active s), rec, snap, m, k.
Qed.

(** How one attempt at a commit ends. *)
Lemma commit_once_cases `{!ChecksumLaws _} s rec snap new cursor :
  committed s rec snap → (version rec < u64_max)%N → record_wf (next_record rec cursor) →
  tear_detected (older_slot_bytes s) (encode_slot (next_record rec cursor)) →
  ∃ s', dir s' = dir s ∧ retain s' = retain s ∧
   ((commit_once new cursor s = (s', Returns (Ok ())) ∧ committed s' (next_record rec cursor) new) ∨
    (commit_once new cursor s = (s', Returns (Err (Io OtherKind))) ∧
     recoverable (dir s) [(rec, snap); (next_record rec cursor, new)] (vfs s'))).
Proof.
  intros [Hp Hret Hso Hdisk] Hver Hrec Htear.
  assert ((version rec + 1)%N ≠ snapshot_id rec) as Hid by (rewrite (so_id _ _ _ Hso); lia).
  unfold commit_once. rewrite sm_get_bind, (so_rec _ _ _ Hso). cbn [from_option]. cbn zeta.
  unfold u64_checked_add. rewrite (proj2 (N.leb_le _ _)) by lia. rewrite sm_expect_bind. cbn zeta.
  match goal with |- context [(on_vfs (vfs_write _ _) ≫= λ _, on_vfs (fsync_file _) ≫= λ _, on_vfs (rename _ _) ≫= λ _,
    on_vfs (fsync_dir _) ≫= λ _, ?K) s] =>
    destruct (place_snapshot (dir s) (slots s) rec snap new (version rec + 1) s K Hdisk Hid)
      as (m & k & Hm & [(v1 & -> & HFm & Hpl)|(v1 & -> & Hdur)]) end.
  2:{ exists (set_vfs v1 s). split; [done|]. split; [done|]. right. split; [done|].
      exists (slots s), (active s), rec, snap, m, k. split; [left|done]. }
  assert (∀ M, durable <$> files v1 !! m = Some M →
    tear_detected (slot_bytes_at (1 - active s) M) (encode_slot (next_record rec cursor))) as Ht.
  { intros M HM. unfold older_slot_bytes in Htear. rewrite Hm in Htear. simpl in Htear. rewrite <- HFm in Htear.
    apply fmap_Some in HM as (f & Hf & ->). by rewrite Hf in Htear. }
  match goal with |- context [(on_vfs (write_at _ _ _) ≫= λ _, on_vfs (fsync_file _) ≫= λ _, ?K) _] =>
    destruct (write_slot (dir s) (slots s) (active s) rec snap new cursor (set_vfs v1 s) m k K Hpl Hso Hrec Ht)
      as [(v2 & Hrun & Hc)|(v2 & Hrun & Hr)] end; unfold next_record in Hrun; cbn [version] in Hrun; rewrite Hrun.
  2:{ exists (set_vfs v2 s). split; [done|]. split; [done|]. by right. }
  rewrite !sm_modify_bind.
  set (s2 := set_active _ _). pose proof (slots_ok_next _ _ _ cursor Hso) as Hso'.
  assert (Some (next_record rec cursor) ∈ slots s2) as Hin.
  { change (slots s2) with (<[1 - active s := Some (next_record rec cursor)]> (slots s)).
    apply list_elem_of_lookup_2 with (1 - active s). apply list_lookup_alt. split; [|apply Hso'].
    rewrite (so_len _ _ _ Hso'). apply Hso'. }
  destruct (prune_keeps s2 (next_record rec cursor) new Hin s2) as (s3 & r & Hr & Hs3 & Hc3); [by split|].
  exists s3. rewrite Hs3. split; [done|]. split; [done|]. left. split.
  - unfold mbind, sm_bind, sm_result. rewrite Hr. by rewrite <- Hs3.
  - split; [done|done|exact Hso'|exact Hc3].
Qed.

(** ** Properties *)

(** C2. Commits are atomic under crashes: from a store whose last commit is [rec] with the bytes
    [snap], a commit on which the device may fail at any operation, tearing any of its bytes,
    either returns [Ok] and leaves the new commit, or fails and poisons the store; and after a
    crash at that point reopening succeeds and recovers, bytes and cursor together, the new
    snapshot if the commit returned [Ok], and otherwise the old or the new one. The reopened
    store is again a committed store, so this repeats. *)
Theorem commit_crash_safe `{!ChecksumLaws _} s rec snap new cursor :
  committed s rec snap → (version rec < u64_max)%N → record_wf (next_record rec cursor) →
  tear_detected (older_slot_bytes s) (encode_slot (next_record rec cursor)) →
  ∃ s' r s'' rec' snap', commit new cursor s = (s', Returns r) ∧
    (r = Ok () ∧ committed s' (next_record rec cursor) new ∨
     r = Err (Io OtherKind) ∧ poisoned s' = true ∧ ∀ n c, commit n c s' = (s', Returns (Err StorePoisoned))) ∧
    open (MkStoreConfig (dir s) (retain s)) (crash (vfs s')) =
      Returns (Ok (s'', Some (MkRecovered snap' (rec_cursor rec')))) ∧
    committed s'' rec' snap' ∧ durable_cursor s'' = rec_cursor rec' ∧
    ((rec', snap') = (next_record rec cursor, new) ∨ (rec', snap') = (rec, snap) ∧ r ≠ Ok ()).
Proof.
  intros Hcm Hver Hrec Htear.
  destruct (commit_once_cases s rec snap new cursor Hcm Hver Hrec Htear) as (s' & Hd & Hrt & Hcases).
  assert (poisoned s = false) as Hp by apply Hcm. assert (retain s ≠ 0) as Hret by apply Hcm.
  destruct Hcases as [[Honce Hc']|[Honce Hr]].
  - destruct (open_recoverable (dir s') (retain s') [(next_record rec cursor, new)] (vfs s'))
      as (s'' & rec' & snap' & Hin & Ho & Hc'' & Hdc); [by rewrite Hrt|by eapply committed_recoverable; [|left]|].
    rewrite Hd, Hrt in Ho. exists s', (Ok ()), s'', rec', snap'. split.
    { unfold commit. rewrite sm_get_bind, Hp. unfold mbind, sm_bind, sm_result. by rewrite Honce. }
    split; [by left|]. split; [done|]. split; [done|]. split; [done|]. left. by apply list_elem_of_singleton in Hin.
  - destruct (open_recoverable (dir s) (retain s) _ (vfs s') Hret Hr) as (s'' & rec' & snap' & Hin & Ho & Hc'' & Hdc).
    exists (set_poisoned true s'), (Err (Io OtherKind)), s'', rec', snap'. split.
    { unfold commit. rewrite sm_get_bind, Hp. unfold mbind, sm_bind, sm_result. by rewrite Honce. }
    split; [by right|]. split; [done|]. split; [done|]. split; [done|].
    apply elem_of_cons in Hin as [Hin|Hin%list_elem_of_singleton]; [right|left]; [split|]; done.
Qed.

End spec.

(** ** Witnesses: one directory, the real checksum *)

#[local] Existing Instance iscsi.
#[local] Existing Instance iscsi_laws.

Definition ex_dir : Path := ["store"%string].
Definition ex_store_config : StoreConfig := MkStoreConfig ex_dir 1.
Definition ex_opened (v : CrashVfs) : SnapshotStore CrashVfs :=
  match open ex_store_config v with
  | Returns (Ok (s, _)) => s
  | _ => MkStore ex_dir v 1 [] 0 true
  end.
Definition ex_cursor (n : N) : option Position := Some (MkPosition n 0).
(** A device that fails for good in the middle of the second commit's manifest sync. *)
Definition ex_committed : SnapshotStore CrashVfs :=
  (commit [x0a] (ex_cursor 1) (ex_opened (with_crash_budget 12 10))).1.

Lemma ex_committed_ok : committed ex_committed (MkSlotRecord 1 (ex_cursor 1) 1) [x0a].
Proof.
  split; [reflexivity|done| |].
  - split; [reflexivity|vm_compute; lia|reflexivity| |reflexivity].
    vm_compute. by intros r.
  - exists 0%N, 1%N. split; [|split; [|vm_compute; reflexivity]];
      (split; [vm_compute; reflexivity|vm_compute; reflexivity|vm_compute; reflexivity|split_and!; vm_compute; done| |vm_compute; reflexivity]);
      (eexists; split; [vm_compute; reflexivity|split; vm_compute; reflexivity]).
Qed.

Lemma ex_tear_detected :
  tear_detected (older_slot_bytes ex_committed) (encode_slot (next_record (MkSlotRecord 1 (ex_cursor 1) 1) (ex_cursor 2))).
Proof. apply (bool_decide_unpack _). vm_compute. exact I. Qed.

Lemma commit_crash_safe_witness :
  ∃ s' s'' rec' snap', (commit [x0b] (ex_cursor 2) ex_committed).1 = s' ∧
    open ex_store_config (crash (vfs s')) = Returns (Ok (s'', Some (MkRecovered snap' (rec_cursor rec')))) ∧
    (snap' = [x0b] ∨ snap' = [x0a]).
Proof.
  assert (record_wf (next_record (MkSlotRecord 1 (ex_cursor 1) 1) (ex_cursor 2))) as Hrec.
  { split_and!; [done|done|]. by intros c [= <-]. }
  destruct (commit_crash_safe ex_committed (MkSlotRecord 1 (ex_cursor 1) 1) [x0a] [x0b] (ex_cursor 2)
    ex_committed_ok eq_refl Hrec ex_tear_detected) as (s' & r & s'' & rec' & snap' & H1 & _ & H3 & _ & _ & H4).
  exists s', s'', rec', snap'. split; [exact (f_equal fst H1)|]. split; [exact H3|].
  destruct H4 as [H4|[H4 _]]; injection H4 as _ ->; [left|right]; reflexivity.
Defined.

(** A tear in the very first commit leaves a directory that no longer opens: nothing was ever
    acknowledged, yet the manifest is neither blank nor valid. *)
Lemma first_commit_tear_corrupts :
  let s := ex_opened (with_crash_budget 6 4100) in
  let (s', r) := commit [x0a] (ex_cursor 1) s in
  slots s = [None; None] ∧ r = Returns (Err (Io OtherKind)) ∧
  open ex_store_config (crash (vfs s')) = Returns (Err CorruptManifest).
Proof. vm_compute. done. Qed.
