(* ===== verification/Flusher.v ===== *)
(** The background flusher of chainfold ([crates/chainfold/src/storage/flusher.rs]): the apply
    thread submits snapshots, the flusher thread commits them, and both share an admission
    gate, a poison flag and the durable watermark. Every action below is one critical section
    or one blocking call of one thread; their interleavings are the runs of the program. *)
From S2P Require Import Prelude Checksum Position ChainError Engine Snapshot Manifest Vfs Store.

(** ** Data *)

(** [FlushError]. *)
Inductive FlushError := Closed | FlushIo (kind : ErrorKind) | Corrupt.
#[export] Instance FlushError_eq_dec : EqDecision FlushError.
Proof. solve_decision. Defined.

(** [From<StoreError> for FlushError]. *)
Definition flush_error_of (e : StoreError) : FlushError :=
  match e with
  | Io kind => FlushIo kind
  | CorruptManifest | MissingSnapshot _ | RetainZero => Corrupt
  | StorePoisoned => Closed
  end.

(** [Job]; its token is named by the order of submission. *)
Record Job := MkJob {
  job_snapshot : bytes;
  job_cursor : option Position;
  job_epoch : N;
  job_token : nat;
}.

(** Where the flusher thread stands: waiting in [recv], holding a job it has not looked at, back
    from [commit] with its result, past the watermark update, or gone ([false]: by a panic). *)
Inductive FlusherAt :=
| Receiving
| Holding (job : Job)
| Returned (job : Job) (r : result () StoreError)
| Acknowledging (job : Job)
| Exited (clean : bool).

(** Where the apply thread stands in [submit]: outside it, past the poison check on its way into the
    gate, or admitted; with the job's parts. *)
Inductive SubmitterAt :=
| Outside
| Acquiring (snapshot : bytes) (cursor : option Position)
| Admitting (snapshot : bytes) (cursor : option Position).

(** The two threads, the channel and [Shared]; a token's result is [None] until it settles. *)
Record Flusher (V : Type) := MkFlusher {
  thread : FlusherAt;
  submitter : SubmitterAt;
  fl_store : SnapshotStore V;
  channel : list Job;
  sender_open : bool;
  available : nat;
  fl_poisoned : bool;
  watermark : N * option Position;
  tokens : list (option (result () FlushError));
}.
Arguments MkFlusher {V} _ _ _ _ _ _ _ _ _.
Arguments thread {V} _.
Arguments submitter {V} _.
Arguments fl_store {V} _.
Arguments channel {V} _.
Arguments sender_open {V} _.
Arguments available {V} _.
Arguments fl_poisoned {V} _.
Arguments watermark {V} _.
Arguments tokens {V} _.

Section flusher.
Context `{!Checksum} {V : Type} `{!Vfs V}.
Implicit Types st : Flusher V.

(** Field assignments. *)
Definition set_thread (t : FlusherAt) st : Flusher V :=
  MkFlusher t (submitter st) (fl_store st) (channel st) (sender_open st) (available st) (fl_poisoned st)
    (watermark st) (tokens st).
Definition set_submitter (t : SubmitterAt) st : Flusher V :=
  MkFlusher (thread st) t (fl_store st) (channel st) (sender_open st) (available st) (fl_poisoned st)
    (watermark st) (tokens st).
Definition set_fl_store (s : SnapshotStore V) st : Flusher V :=
  MkFlusher (thread st) (submitter st) s (channel st) (sender_open st) (available st) (fl_poisoned st)
    (watermark st) (tokens st).
Definition set_channel (l : list Job) st : Flusher V :=
  MkFlusher (thread st) (submitter st) (fl_store st) l (sender_open st) (available st) (fl_poisoned st)
    (watermark st) (tokens st).
Definition set_sender_open (b : bool) st : Flusher V :=
  MkFlusher (thread st) (submitter st) (fl_store st) (channel st) b (available st) (fl_poisoned st)
    (watermark st) (tokens st).
Definition set_available (n : nat) st : Flusher V :=
  MkFlusher (thread st) (submitter st) (fl_store st) (channel st) (sender_open st) n (fl_poisoned st)
    (watermark st) (tokens st).
Definition set_fl_poisoned (b : bool) st : Flusher V :=
  MkFlusher (thread st) (submitter st) (fl_store st) (channel st) (sender_open st) (available st) b
    (watermark st) (tokens st).
Definition set_watermark (w : N * option Position) st : Flusher V :=
  MkFlusher (thread st) (submitter st) (fl_store st) (channel st) (sender_open st) (available st) (fl_poisoned st)
    w (tokens st).
Definition set_tokens (l : list (option (result () FlushError))) st : Flusher V :=
  MkFlusher (thread st) (submitter st) (fl_store st) (channel st) (sender_open st) (available st) (fl_poisoned st)
    (watermark st) l.

(** [TokenState::complete]: the first outcome is kept. *)
Definition complete (t : nat) (r : result () FlushError) st : Flusher V :=
  match tokens st !! t with
  | Some None => set_tokens (<[t := Some r]> (tokens st)) st
  | _ => st
  end.

(** [Admission::release]. *)
Definition release st : Flusher V := set_available (available st + 1) st.

(** [Drop for Job]. *)
Definition drop_job (j : Job) st : Flusher V := release (complete (job_token j) (Err Closed) st).

(** [Flusher::spawn]; a depth of 0 counts as 1. *)
Definition spawn (s : SnapshotStore V) (queue_depth : nat) : Flusher V :=
  MkFlusher Receiving Outside s [] true (Nat.max queue_depth 1) false (0%N, durable_cursor s) [].

(** [Flusher::durable_cursor]. *)
Definition fl_durable_cursor st : option Position := (watermark st).2.

(** ** The apply thread *)

(** [submit], its check: [Err] when poisoned. It cannot be called inside itself, nor after [join],
    which takes the flusher away. *)
Definition submit_check (snapshot : bytes) (cursor : option Position) st
    : option (Flusher V * result () FlushError) :=
  match submitter st with
  | Outside =>
      if negb (sender_open st) then None else
      if fl_poisoned st then Some (st, Err Closed) else
      Some (set_submitter (Acquiring snapshot cursor) st, Ok ())
  | _ => None
  end.

(** [submit], its admission ([Admission::acquire]): [None] blocks. *)
Definition submit_acquire st : option (Flusher V) :=
  match submitter st with
  | Acquiring snapshot cursor =>
      match available st with
      | O => None
      | S n => Some (set_submitter (Admitting snapshot cursor) (set_available n st))
      end
  | _ => None
  end.

(** [submit], from the admission on: the job carries the epoch read now; a closed channel hands
    it back, and dropping it settles its token. *)
Definition submit_end st : option (Flusher V * result nat FlushError) :=
  match submitter st with
  | Outside | Acquiring _ _ => None
  | Admitting snapshot cursor =>
      let token := length (tokens st) in
      let job := MkJob snapshot cursor (watermark st).1 token in
      let st := set_submitter Outside (set_tokens (tokens st ++ [None]) st) in
      match thread st with
      | Exited _ => Some (drop_job job st, Err Closed)
      | _ => Some (set_channel (channel st ++ [job]) st, Ok token)
      end
  end.

(** [SnapshotSink::reset]. *)
Definition fl_reset st : option (Flusher V) :=
  match submitter st with
  | Outside => if negb (sender_open st) then None else Some (set_watermark (u64_wrapping_add (watermark st).1 1, None) st)
  | _ => None
  end.

(** [join]: the sender is dropped; the thread then drains the channel and exits. *)
Definition close st : option (Flusher V) :=
  match submitter st with
  | Outside => Some (set_sender_open false st)
  | _ => None
  end.

(** ** The flusher thread *)

(** [receiver.recv()] in [run_flusher]: a closed and empty channel ends the loop. *)
Definition recv st : option (Flusher V) :=
  match thread st with
  | Receiving =>
      match channel st with
      | j :: l => Some (set_thread (Holding j) (set_channel l st))
      | [] => if sender_open st then None else Some (set_thread (Exited true) st)
      end
  | _ => None
  end.

(** The body of the loop up to the return of [commit]; a panic unwinds the thread, which drops
    the job and the receiver with every job still queued. *)
Definition process st : option (Flusher V) :=
  match thread st with
  | Holding j =>
      if fl_poisoned st then Some (drop_job j (set_thread Receiving st)) else
      match commit (job_snapshot j) (job_cursor j) (fl_store st) with
      | (s, Returns r) => Some (set_thread (Returned j r) (set_fl_store s st))
      | (s, Panics) =>
          Some (foldl (λ st j, drop_job j st)
            (set_channel [] (set_thread (Exited false) (set_fl_store s st))) (j :: channel st))
      end
  | _ => None
  end.

(** The arms of the loop's [match]: the watermark critical section, or [poison_and_report] and
    the end of the iteration. *)
Definition acknowledge st : option (Flusher V) :=
  match thread st with
  | Returned j (Ok _) =>
      let w := watermark st in
      Some (set_thread (Acknowledging j)
        (if (w.1 =? job_epoch j)%N then set_watermark (w.1, durable_cursor (fl_store st)) st else st))
  | Returned j (Err e) =>
      Some (drop_job j (complete (job_token j) (Err (flush_error_of e))
        (set_fl_poisoned true (set_thread Receiving st))))
  | _ => None
  end.

(** [job.token.complete(Ok(()))] and the end of the iteration. *)
Definition settle st : option (Flusher V) :=
  match thread st with
  | Acknowledging j => Some (drop_job j (complete (job_token j) (Ok ()) (set_thread Receiving st)))
  | _ => None
  end.

(** ** Interleavings *)

Inductive Action :=
| SubmitCheck (snapshot : bytes) (cursor : option Position)
| SubmitAcquire
| SubmitEnd
| Reset
| Close
| Recv
| Process
| Acknowledge
| Settle.
#[export] Instance Action_eq_dec : EqDecision Action.
Proof. solve_decision. Defined.

(** One action; [None] when it is not enabled. *)
Definition perform (a : Action) st : option (Flusher V) :=
  match a with
  | SubmitCheck snapshot cursor => fst <$> submit_check snapshot cursor st
  | SubmitAcquire => submit_acquire st
  | SubmitEnd => fst <$> submit_end st
  | Reset => fl_reset st
  | Close => close st
  | Recv => recv st
  | Process => process st
  | Acknowledge => acknowledge st
  | Settle => settle st
  end.

(** A run of both threads. *)
Fixpoint run (l : list Action) st : option (Flusher V) :=
  match l with
  | [] => Some st
  | a :: l => perform a st ≫= run l
  end.

(** [offer], up to the gate and from the admission: it encodes the oldest retained checkpoint and
    submits it. *)
Definition offer_begin {F PE : Type} `{!Codec, !Persist F PE} (e : Engine F) st
    : option (Flusher V * result () DurabilityLost) :=
  match encode_durable_snapshot e [] with
  | (_, Ok None) => Some (st, Ok ())
  | (out, Ok (Some point)) => prod_map id (map_err (λ _, MkDurabilityLost)) <$> submit_check out (Some point) st
  | (_, Err _) => Some (st, Err MkDurabilityLost)
  end.
Definition offer_end st : option (Flusher V * result () DurabilityLost) :=
  '(st, r) ← submit_end st;
  Some (st, match r with Ok _ => Ok () | Err _ => Err MkDurabilityLost end).

End flusher.
