(* ===== verification/FlusherSpec.v ===== *)
(** What the two threads of the flusher promise each other, over every interleaving. *)
From stdpp Require Import strings.
From S2P Require Import Prelude Checksum Position ChainError Engine Snapshot Manifest Vfs Store StoreSpec Flusher.

Section spec.
Context `{!Checksum} {V : Type} `{!Vfs V}.
Implicit Types st : Flusher V.

(** ** Lemmas: the store *)

(** Calls that change the filesystem only. *)
Definition keeps_header {A} (m : SM (SnapshotStore V) StoreError A) : Prop :=
  ∀ s s' o, m s = (s', o) → slots s' = slots s ∧ active s' = active s.

Lemma header_on_vfs {A} (m : SM V ErrorKind A) : keeps_header (on_vfs m).
Proof.
  intros s s' o. unfold on_vfs, sm_zoom, io. destruct (m (vfs s)) as [v [r|]]; by intros [= <- _].
Qed.
Lemma header_ret {A} (a : A) : keeps_header (mret a).
Proof. by intros s s' o [= <- _]. Qed.
Lemma header_get_bind {A} (k : SnapshotStore V → SM (SnapshotStore V) StoreError A) :
  (∀ s, keeps_header (k s)) → keeps_header (sm_get ≫= k).
Proof. intros Hk s s' o. rewrite sm_get_bind. apply Hk. Qed.
Lemma header_bind {A B} (m : SM (SnapshotStore V) StoreError A) (k : A → SM (SnapshotStore V) StoreError B) :
  keeps_header m → (∀ a, keeps_header (k a)) → keeps_header (m ≫= k).
Proof.
  intros Hm Hk s s' o. unfold mbind, sm_bind. destruct (m s) as [s1 [[a|e]|]] eqn:Heq.
  - intros Hs. apply Hm in Heq as [<- <-]. exact (Hk a _ _ _ Hs).
  - intros [= <- _]. by eapply Hm.
  - intros [= <- _]. by eapply Hm.
Qed.
Lemma header_for {B} (l : list B) (body : B → SM (SnapshotStore V) StoreError ()) :
  (∀ x, keeps_header (body x)) → keeps_header (sm_for l body).
Proof. intros Hb. induction l as [|x l IH]; simpl; [apply header_ret|]. by apply header_bind. Qed.

Lemma header_prune : keeps_header prune.
Proof.
  apply header_get_bind. intros s. apply header_bind; [apply header_on_vfs|]. intros paths. apply header_bind.
  - apply header_for. intros id. apply header_bind; [apply header_on_vfs|]. intros ?. apply header_ret.
  - intros _. case_match; [apply header_on_vfs|apply header_ret].
Qed.

Lemma header_expect {A} (a : option A) : keeps_header (sm_expect a).
Proof. by intros s s' o [= <- _]. Qed.

(** An attempt at a commit with [cursor]: either the other slot becomes active with the new
    record, or the header is kept and the call did not return [Ok]. *)
Definition attempt (cursor : option Position) (sl : list (option SlotRecord)) (a : nat)
    (m : SM (SnapshotStore V) StoreError ()) : Prop :=
  ∀ s s' o, slots s = sl → active s = a → m s = (s', o) →
  (∃ rec, rec_cursor rec = cursor ∧ slots s' = <[1 - a := Some rec]> sl ∧ active s' = 1 - a ∧
    ∀ e, o ≠ Returns (Err e)) ∨
  (slots s' = sl ∧ active s' = a ∧ ∀ b, o ≠ Returns (Ok b)).

Lemma attempt_bind {A} cursor sl a (m : SM (SnapshotStore V) StoreError A) k :
  keeps_header m → (∀ x, attempt cursor sl a (k x)) → attempt cursor sl a (m ≫= k).
Proof.
  intros Hm Hk s s' o Hs Ha. unfold mbind, sm_bind. destruct (m s) as [s1 [[x|e]|]] eqn:Heq;
    apply Hm in Heq as [E1 E2].
  - apply (Hk x); congruence.
  - intros [= <- <-]. right. split_and!; [congruence..|done].
  - intros [= <- <-]. right. split_and!; [congruence..|done].
Qed.

Lemma commit_once_attempt snapshot cursor s s' o :
  commit_once snapshot cursor s = (s', o) →
  (∃ rec, rec_cursor rec = cursor ∧ slots s' = <[1 - active s := Some rec]> (slots s) ∧ active s' = 1 - active s ∧
    ∀ e, o ≠ Returns (Err e)) ∨
  (slots s' = slots s ∧ active s' = active s ∧ ∀ b, o ≠ Returns (Ok b)).
Proof.
  unfold commit_once. rewrite sm_get_bind. cbn zeta.
  match goal with |- ?m s = _ → _ =>
    assert (attempt cursor (slots s) (active s) m) as Hat; [|by apply Hat] end.
  apply attempt_bind; [apply header_expect|]. intros ver.
  do 6 (apply attempt_bind; [apply header_on_vfs|intros []]).
  intros s1 s2 o1 Hs Ha. rewrite !sm_modify_bind. unfold mbind, sm_bind, mret, sm_ret, sm_result.
  destruct (prune _) as [s3 o3] eqn:Hp. apply header_prune in Hp as [E1 E2]. simpl in E1, E2. rewrite Hs in E1.
  intros Hr. left. exists (MkSlotRecord ver cursor ver). split; [done|]. destruct o3; simplify_eq; auto.
Qed.

(** A commit that returns [Ok] serves its cursor; one that returns an error serves what it did. *)
Lemma commit_cursor snapshot cursor s s' o :
  length (slots s) = 2 → active s < 2 → commit snapshot cursor s = (s', o) →
  length (slots s') = 2 ∧ active s' < 2 ∧
  ∀ r, o = Returns r → durable_cursor s' = match r with Ok _ => cursor | Err _ => durable_cursor s end.
Proof.
  intros Hl Ha. unfold commit. rewrite sm_get_bind. destruct (poisoned s).
  { intros [= <- <-]. split_and!; [done..|]. by intros r [= <-]. }
  unfold mbind at 1, sm_bind at 1, sm_result. destruct (commit_once snapshot cursor s) as [s1 o1] eqn:Hc.
  apply commit_once_attempt in Hc. intros Hr.
  assert (slots s' = slots s1 ∧ active s' = active s1 ∧ ∀ r, o = Returns r → o1 = Returns r) as (E1 & E2 & E3).
  { destruct o1 as [[]|]; unfold mbind, mret, sm_bind, sm_modify, sm_try, sm_ret in Hr; by simplify_eq/=. }
  unfold durable_cursor at 1. rewrite E1, E2.
  destruct Hc as [(rec & <- & -> & -> & Ho)|(-> & -> & Ho)].
  - rewrite length_insert. split_and!; [done|lia|]. intros r Hr'. specialize (E3 r Hr'). subst.
    rewrite list_lookup_total_insert_eq by lia. destruct r as [[]|e]; [done|by destruct (Ho e)].
  - split_and!; [done..|]. intros r Hr'. specialize (E3 r Hr'). subst. destruct r as [b|e]; [by destruct (Ho b)|done].
Qed.

(** ** Specification *)

(** Jobs the flusher thread holds, and admissions the apply thread holds. *)
Definition in_hand st : list Job :=
  match thread st with
  | Holding j | Returned j _ | Acknowledging j => [j]
  | Receiving | Exited _ => []
  end.
Definition admitted st : nat := match submitter st with Admitting _ _ => 1 | _ => 0 end.

(** The jobs whose outcome is still open. *)
Definition pending st : list Job := in_hand st ++ channel st.

(** The moment between a successful commit and its watermark update; a flusher thread that
    unwound may have stopped there. *)
Definition in_window st : Prop :=
  match thread st with Returned _ (Ok _) | Exited false => True | _ => False end.

(** A token is open exactly while its job is pending. *)
Record tokens_ok (toks : list (option (result () FlushError))) (js : list Job) : Prop := {
  tk_nodup : NoDup (job_token <$> js);
  tk_fresh : Forall (λ j, job_token j < length toks) js;
  tk_open : ∀ t, toks !! t = Some None ↔ t ∈ job_token <$> js;
}.

(** The invariant of the two threads, for a gate of [depth] slots. *)
Record flusher_wf (depth : nat) st : Prop := {
  fw_slots : length (slots (fl_store st)) = 2 ∧ active (fl_store st) < 2;
  fw_gate : available st + admitted st + length (pending st) = depth;
  fw_tokens : tokens_ok (tokens st) (pending st);
  fw_watermark : ∀ p, (watermark st).2 = Some p → in_window st ∨ durable_cursor (fl_store st) = Some p;
  fw_epochs : StronglySorted N.le ((job_epoch <$> pending st) ++ [(watermark st).1]);
  fw_current : is_Some (watermark st).2 → Forall (λ j, job_epoch j = (watermark st).1) (pending st);
  fw_exit : ∀ b, thread st = Exited b → channel st = [];
  fw_clean : thread st = Exited true → sender_open st = false;
  fw_open : sender_open st = false → submitter st = Outside;
  fw_poison : fl_poisoned st = true → match thread st with Returned _ _ | Acknowledging _ => False | _ => True end;
}.

(** ** Lemmas: tokens *)

Lemma tokens_ok_pop toks j js r : tokens_ok toks (j :: js) → tokens_ok (<[job_token j := Some r]> toks) js.
Proof.
  intros [Hn Hf Ho]. rewrite fmap_cons, NoDup_cons in Hn. destruct Hn as [Hj Hn].
  apply Forall_cons in Hf as [Hlt Hf]. split; [done|by rewrite length_insert|].
  intros t. destruct (decide (t = job_token j)) as [->|Hne].
  - rewrite list_lookup_insert_eq by done. naive_solver.
  - rewrite list_lookup_insert_ne by done. rewrite Ho. rewrite fmap_cons, elem_of_cons. naive_solver.
Qed.

Lemma tokens_ok_push toks js j :
  tokens_ok toks js → job_token j = length toks → tokens_ok (toks ++ [None]) (js ++ [j]).
Proof.
  intros [Hn Hf Ho] Hj. rewrite Forall_forall in Hf.
  assert (∀ t, t ∈ job_token <$> js → t < length toks) as Hlt.
  { intros t (k & -> & Hk)%list_elem_of_fmap. by apply Hf. }
  split.
  - rewrite fmap_app. apply NoDup_app. split_and!; [done| |apply NoDup_singleton].
    intros t Ht%Hlt [->|[]%elem_of_nil]%elem_of_cons. lia.
  - apply Forall_forall. intros k. rewrite length_app. simpl.
    intros [Hk%Hf|[->|[]%elem_of_nil]%elem_of_cons]%elem_of_app; lia.
  - intros t. rewrite fmap_app, elem_of_app. simpl. rewrite list_elem_of_singleton, Hj.
    destruct (decide (t < length toks)) as [Ht|Ht].
    + rewrite lookup_app_l by done. rewrite Ho. naive_solver lia.
    + rewrite lookup_app_r by lia. destruct (t - length toks) as [|k] eqn:Hk; simpl.
      * split; [right; lia|done].
      * split; [done|]. intros [Hin%Hlt| ->]; lia.
Qed.


(** Dropping the first pending job settles its token, with the outcome set before if any. *)
Lemma drop_job_tokens j js st :
  tokens_ok (tokens st) (j :: js) →
  tokens_ok (tokens (drop_job j st)) js ∧
  ∀ r, tokens_ok (tokens (drop_job j (complete (job_token j) r st))) js.
Proof.
  intros Hok. assert (tokens st !! job_token j = Some None) as Ht.
  { apply (tk_open _ _ Hok). rewrite fmap_cons. left. }
  assert (job_token j < length (tokens st)) as Hlt by by eapply lookup_lt_Some.
  split; [|intros r]; unfold drop_job, release, complete; rewrite Ht; simpl; [by apply tokens_ok_pop|].
  rewrite list_lookup_insert_eq by done. simpl. by apply tokens_ok_pop.
Qed.

(** Everything but the tokens and the gate is left alone. *)
Lemma drop_job_frame j st :
  thread (drop_job j st) = thread st ∧ submitter (drop_job j st) = submitter st ∧
  fl_store (drop_job j st) = fl_store st ∧ channel (drop_job j st) = channel st ∧
  sender_open (drop_job j st) = sender_open st ∧ available (drop_job j st) = available st + 1 ∧
  fl_poisoned (drop_job j st) = fl_poisoned st ∧ watermark (drop_job j st) = watermark st.
Proof. unfold drop_job, release, complete. by destruct (tokens st !! _) as [[?|]|]. Qed.

Lemma complete_frame t r st :
  thread (complete t r st) = thread st ∧ submitter (complete t r st) = submitter st ∧
  fl_store (complete t r st) = fl_store st ∧ channel (complete t r st) = channel st ∧
  sender_open (complete t r st) = sender_open st ∧ available (complete t r st) = available st ∧
  fl_poisoned (complete t r st) = fl_poisoned st ∧ watermark (complete t r st) = watermark st.
Proof. unfold complete. by destruct (tokens st !! _) as [[?|]|]. Qed.

Lemma drop_jobs js st :
  tokens_ok (tokens st) js →
  let st' := foldl (λ st j, drop_job j st) st js in
  tokens_ok (tokens st') [] ∧ available st' = available st + length js ∧ thread st' = thread st ∧
  submitter st' = submitter st ∧ fl_store st' = fl_store st ∧ channel st' = channel st ∧
  sender_open st' = sender_open st ∧ watermark st' = watermark st ∧ fl_poisoned st' = fl_poisoned st.
Proof.
  revert st. induction js as [|j js IH]; intros st Hok; simpl; [split_and!; done || lia|].
  destruct (drop_job_frame j st) as (E1 & E2 & E3 & E4 & E5 & E6 & E7 & E8).
  destruct (IH (drop_job j st)) as (F1 & F2 & F3 & F4 & F5 & F6 & F7 & F8 & F9); [by apply drop_job_tokens|].
  split_and!; [done|lia|congruence..].
Qed.

(** ** Lemmas: the invariant *)

Lemma spawn_wf s depth :
  length (slots s) = 2 → active s < 2 → flusher_wf (Nat.max depth 1) (spawn s depth).
Proof.
  intros Hl Ha. split; [done|change (Nat.max depth 1 + 0 + 0 = Nat.max depth 1); lia| |by right|repeat constructor|constructor|done|done|done|done].
  split; simpl; [constructor|constructor|]. intros t. rewrite lookup_nil. split; [done|by intros []%elem_of_nil].
Qed.

Lemma submit_check_wf depth snap cur st st' r :
  flusher_wf depth st → submit_check snap cur st = Some (st', r) → flusher_wf depth st'.
Proof.
  intros Hwf. unfold submit_check. destruct (submitter st) eqn:Hs; try done.
  destruct (sender_open st) eqn:Hopen; simpl; [|done].
  destruct (fl_poisoned st); [by intros [= <- _]|]. intros [= <- _].
  destruct Hwf as [H1 H2 H3 H4 H5 H6 H7 H8 H9 H10]. unfold admitted in H2. rewrite Hs in H2. split; try done.
  simpl. congruence.
Qed.

Lemma submit_acquire_wf depth st st' :
  flusher_wf depth st → submit_acquire st = Some st' → flusher_wf depth st'.
Proof.
  intros Hwf. unfold submit_acquire. destruct (submitter st) as [|snap cur|] eqn:Hs; try done.
  destruct (available st) as [|n] eqn:Ha; [done|]. intros [= <-].
  destruct Hwf as [H1 H2 H3 H4 H5 H6 H7 H8 H9 H10]. unfold admitted in H2. rewrite Hs in H2. split; try done.
  - unfold admitted, pending, in_hand in *. simpl in *. lia.
  - simpl. intros Ho. specialize (H9 Ho). congruence.
Qed.

(** Jobs leave the queue at the front and join it with the current epoch. *)
Lemma epochs_pop (e : N) es : StronglySorted N.le (e :: es) → StronglySorted N.le es.
Proof. by intros [_ ?]%StronglySorted_cons. Qed.

Lemma epochs_push (es : list N) (e : N) :
  StronglySorted N.le (es ++ [e]) → StronglySorted N.le ((es ++ [e]) ++ [e]).
Proof.
  intros Hs. apply StronglySorted_app_2; [|done|repeat constructor].
  intros x y Hx [-> |[]%elem_of_nil]%elem_of_cons. apply elem_of_app in Hx as [Hx|Hx].
  - eapply StronglySorted_app_1_elem_of; [exact Hs|done|left].
  - apply list_elem_of_singleton in Hx. by subst.
Qed.

Lemma epochs_reset (es : list N) (e : N) :
  StronglySorted N.le (es ++ [e]) → StronglySorted N.le (es ++ [(e + 1)%N]).
Proof.
  intros Hs. apply StronglySorted_app_2; [|by eapply StronglySorted_app_1_l|repeat constructor].
  intros x y Hx [-> |[]%elem_of_nil]%elem_of_cons.
  pose proof (StronglySorted_app_1_elem_of _ _ _ x e Hs Hx ltac:(left)). lia.
Qed.

Lemma submit_end_wf depth st st' r :
  flusher_wf depth st → submit_end st = Some (st', r) → flusher_wf depth st'.
Proof.
  intros [H1 H2 H3 H4 H5 H6 H7 H8 H9 H10]. unfold submit_end. destruct (submitter st) as [| |snap cur] eqn:Hs; [done..|].
  unfold admitted in H2. rewrite Hs in H2. cbn zeta.
  set (j := MkJob snap cur (watermark st).1 (length (tokens st))).
  set (st1 := set_submitter Outside (set_tokens (tokens st ++ [None]) st)).
  pose proof (tokens_ok_push _ _ j H3 eq_refl) as Hpush.
  assert (sender_open st = true) as Hopen by (destruct (sender_open st); [done|by specialize (H9 eq_refl)]).
  assert (∀ b, thread st = Exited b → flusher_wf depth (drop_job j st1)) as Hdrop.
  { intros b Ht. assert (pending st = []) as Hp by (unfold pending, in_hand; by rewrite Ht, (H7 b Ht)).
    rewrite Hp in *. destruct (drop_job_frame j st1) as (E1 & E2 & E3 & E4 & E5 & E6 & E7 & E8).
    assert (pending (drop_job j st1) = []) as Hp' by (unfold pending, in_hand; rewrite E1, E4; exact Hp).
    split; rewrite ?Hp', ?E3, ?E6, ?E8; try done.
    - unfold admitted. rewrite E2. simpl in *. lia.
    - by apply (drop_job_tokens j []).
    - unfold in_window. by rewrite E1.
    - rewrite E1, E4. exact H7.
    - rewrite E1, E5. exact H8.
    - rewrite E1. change (thread st1) with (thread st). by rewrite Ht. }
  assert ((∀ b, thread st ≠ Exited b) → flusher_wf depth (set_channel (channel st ++ [j]) st1)) as Hsend.
  { intros Ht. assert (pending (set_channel (channel st ++ [j]) st1) = pending st ++ [j]) as Hp
      by (unfold pending; simpl; by rewrite app_assoc).
    split; rewrite ?Hp; try done.
    - rewrite length_app. unfold admitted. simpl. lia.
    - rewrite fmap_app. by apply epochs_push.
    - intros Hw. apply Forall_app. split; [by apply H6|by repeat constructor].
    - intros b Hb. by destruct (Ht b). }
  change (thread st1) with (thread st). destruct (thread st) eqn:Ht; intros Hr; apply (inj Some), (f_equal fst) in Hr; cbn [fst] in Hr; subst st';
    first [by apply Hsend|by eapply Hdrop].
Qed.

Lemma recv_wf depth st st' : flusher_wf depth st → recv st = Some st' → flusher_wf depth st'.
Proof.
  intros [H1 H2 H3 H4 H5 H6 H7 H8 H9 H10]. unfold recv. destruct (thread st) eqn:Ht; try done.
  unfold pending, in_hand, in_window in *. rewrite Ht in *. destruct (channel st) as [|j l] eqn:Hc.
  - destruct (sender_open st) eqn:Ho; [done|]. intros [= <-].
    split; try done; unfold pending, in_window; simpl; rewrite ?Hc; auto.
  - intros [= <-]. by split.
Qed.

(** The end of an iteration: the job in hand is dropped and the thread waits again. *)
Lemma iteration_wf depth st st1 j :
  flusher_wf depth st → in_hand st = [j] →
  st1 = set_thread Receiving st ∨ st1 = set_fl_poisoned true (set_thread Receiving st) →
  (∀ p, (watermark st).2 = Some p → durable_cursor (fl_store st) = Some p) →
  ∀ st', st' = drop_job j st1 ∨ (∃ r, st' = drop_job j (complete (job_token j) r st1)) → flusher_wf depth st'.
Proof.
  intros [H1 H2 H3 H4 H5 H6 H7 H8 H9 H10] Hj Hst1 Hwm st' Hst'. unfold pending in *. rewrite Hj in *.
  assert (thread st1 = Receiving ∧ submitter st1 = submitter st ∧ fl_store st1 = fl_store st ∧
    channel st1 = channel st ∧ sender_open st1 = sender_open st ∧ available st1 = available st ∧
    watermark st1 = watermark st ∧ tokens st1 = tokens st) as (A1 & A2 & A3 & A4 & A5 & A6 & A7 & A8)
    by (by destruct Hst1 as [-> | ->]).
  assert (thread st' = Receiving ∧ submitter st' = submitter st ∧ fl_store st' = fl_store st ∧
    channel st' = channel st ∧ sender_open st' = sender_open st ∧ available st' = available st + 1 ∧
    watermark st' = watermark st ∧ tokens_ok (tokens st') (channel st)) as (B1 & B2 & B3 & B4 & B5 & B6 & B7 & B8).
  { rewrite <- A8 in H3. destruct (drop_job_tokens j (channel st) st1 H3) as [T1 T2]. destruct Hst' as [-> |[r ->]].
    - destruct (drop_job_frame j st1) as (E1 & E2 & E3 & E4 & E5 & E6 & E7 & E8). split_and!; congruence || apply T1.
    - destruct (drop_job_frame j (complete (job_token j) r st1)) as (E1 & E2 & E3 & E4 & E5 & E6 & E7 & E8).
      destruct (complete_frame (job_token j) r st1) as (F1 & F2 & F3 & F4 & F5 & F6 & F7 & F8).
      split_and!; congruence || apply T2. }
  assert (pending st' = channel st) as Hp' by (unfold pending, in_hand; by rewrite B1, B4).
  split; rewrite ?Hp', ?B1, ?B2, ?B3, ?B4, ?B5, ?B6, ?B7; try done.
  - unfold admitted in *. rewrite B2. simpl in H2. lia.
  - intros p Hp. right. by apply Hwm.
  - exact (epochs_pop _ _ H5).
  - intros Hw. by apply H6 in Hw as [_ Hw]%Forall_cons.
Qed.

(** Outside the window the watermark, when set, is the store's cursor. *)
Lemma watermark_exact depth st :
  flusher_wf depth st → ¬ in_window st → ∀ p, (watermark st).2 = Some p → durable_cursor (fl_store st) = Some p.
Proof. intros Hwf Hw p Hp. by destruct (fw_watermark _ _ Hwf p Hp). Qed.

Lemma process_wf depth st st' : flusher_wf depth st → process st = Some st' → flusher_wf depth st'.
Proof.
  intros Hwf. unfold process. destruct (thread st) as [|j| | |] eqn:Ht; try done.
  assert (in_hand st = [j]) as Hj by (unfold in_hand; by rewrite Ht).
  assert (¬ in_window st) as Hw by (unfold in_window; rewrite Ht; by intros []).
  pose proof (watermark_exact _ _ Hwf Hw) as Hwm.
  destruct (fl_poisoned st) eqn:Hpo.
  { intros [= <-]. apply (iteration_wf depth st (set_thread Receiving st) j); [done|done|by left|exact Hwm|by left]. }
  destruct Hwf as [[Hl Ha] H2 H3 H4 H5 H6 H7 H8 H9 H10].
  destruct (commit _ _ _) as [s o] eqn:Hc. destruct (commit_cursor _ _ _ _ _ Hl Ha Hc) as (Hl' & Ha' & Hcur).
  unfold pending in H2, H3, H5, H6. rewrite Hj in H2, H3, H5, H6. destruct o as [r|]; intros [= <-].
  - specialize (Hcur r eq_refl). split; try done; unfold in_window; simpl; [|by rewrite Hpo].
    intros p Hp. destruct r as [[]|e]; [by left|right]. rewrite Hcur. by apply Hwm.
  - set (st1 := set_channel [] (set_thread (Exited false) (set_fl_store s st))).
    change (drop_job j st1) with (foldl (λ st j, drop_job j st) st1 [j]). rewrite <- foldl_app.
    destruct (drop_jobs ([j] ++ channel st) st1 H3) as (E1 & E2 & E3 & E4 & E5 & E6 & E7 & E8 & _).
    set (st2 := foldl _ _ _) in *. clearbody st2.
    assert (pending st2 = []) as Hp by (unfold pending, in_hand; by rewrite E3, E6).
    split; rewrite ?Hp, ?E5, ?E8; try done.
    + unfold admitted in *. rewrite E2, E4. simpl in *. lia.
    + left. unfold in_window. by rewrite E3.
    + repeat constructor.
    + by rewrite E3.
    + by rewrite E7, E4.
    + by rewrite E3.
Qed.

(** A list of rising numbers between two equal ones. *)
Lemma sorted_constant (es : list N) (e : N) :
  StronglySorted N.le ((e :: es) ++ [e]) → Forall (λ x, x = e) (e :: es).
Proof.
  intros Hs. constructor; [done|]. apply Forall_forall. intros x Hx. simpl in Hs.
  apply StronglySorted_cons in Hs as [Hle Hs]. rewrite Forall_forall in Hle.
  pose proof (Hle x ltac:(apply elem_of_app; by left)).
  pose proof (StronglySorted_app_1_elem_of _ _ _ x e Hs Hx ltac:(left)). lia.
Qed.

Lemma acknowledge_wf depth st st' : flusher_wf depth st → acknowledge st = Some st' → flusher_wf depth st'.
Proof.
  intros Hwf. unfold acknowledge. destruct (thread st) as [| |j r| |] eqn:Ht; try done.
  assert (in_hand st = [j]) as Hj by (unfold in_hand; by rewrite Ht).
  destruct r as [u|e]; intros [= <-].
  - destruct Hwf as [H1 H2 H3 H4 H5 H6 H7 H8 H9 H10]. unfold pending in H2, H3, H5, H6. rewrite Hj in H2, H3, H5, H6.
    destruct (_ =? _)%N eqn:He; nbool.
    + rewrite Ht in H10. split; try done; unfold in_window; simpl; [by right|]. intros _.
      rewrite He in H5 |- *. apply (Forall_fmap job_epoch (λ x, x = job_epoch j)). by apply sorted_constant.
    + rewrite Ht in H10. split; try done; unfold in_window; simpl. intros p Hp. exfalso.
      apply He. symmetry. rewrite Hp in H6. specialize (H6 ltac:(eauto)). by apply Forall_cons in H6 as [? _].
  - assert (¬ in_window st) as Hw by (unfold in_window; rewrite Ht; by intros []).
    eapply (iteration_wf depth st _ j Hwf Hj); [right; reflexivity|exact (watermark_exact _ _ Hwf Hw)|right; eauto].
Qed.

Lemma thread_settle_wf depth st st' : flusher_wf depth st → settle st = Some st' → flusher_wf depth st'.
Proof.
  intros Hwf. unfold settle. destruct (thread st) as [| | |j|] eqn:Ht; try done. intros [= <-].
  assert (in_hand st = [j]) as Hj by (unfold in_hand; by rewrite Ht).
  assert (¬ in_window st) as Hw by (unfold in_window; rewrite Ht; by intros []).
  eapply (iteration_wf depth st _ j Hwf Hj); [left; reflexivity|exact (watermark_exact _ _ Hwf Hw)|right; eauto].
Qed.

(** Every action keeps the invariant, as long as the epoch counter does not wrap. *)
Lemma perform_wf depth a st st' :
  flusher_wf depth st → (a = Reset → (watermark st).1 < u64_max)%N → perform a st = Some st' → flusher_wf depth st'.
Proof.
  intros Hwf Hr. destruct a; simpl.
  - intros ([st1 r] & Hb & ->)%fmap_Some. by eapply submit_check_wf.
  - by apply submit_acquire_wf.
  - intros ([st1 r] & Hb & ->)%fmap_Some. by eapply submit_end_wf.
  - specialize (Hr eq_refl). destruct Hwf as [H1 H2 H3 H4 H5 H6 H7 H8 H9 H10]. unfold fl_reset.
    destruct (submitter st) eqn:Hs; try done. destruct (sender_open st) eqn:Ho; simpl; [|done]. intros [= <-].
    split; try done; simpl.
    + unfold u64_wrapping_add. rewrite N.mod_small by (unfold u64_max, u64_modulus in *; lia). by apply epochs_reset.
    + by intros [? [=]].
    + rewrite Ho. exact H8.
  - destruct Hwf as [H1 H2 H3 H4 H5 H6 H7 H8 H9 H10]. unfold close.
    destruct (submitter st) eqn:Hs; try done. intros [= <-]. by split.
  - by apply recv_wf.
  - by apply process_wf.
  - by apply acknowledge_wf.
  - by apply thread_settle_wf.
Qed.

(** How many times a run resets. *)
Definition resets_in (l : list Action) : N :=
  foldr (λ a n, match a with Reset => n + 1 | _ => n end)%N 0%N l.

Lemma actions_app l l' st : run (l ++ l') st = run l st ≫= run l'.
Proof. revert st. induction l as [|a l IH]; intros st; simpl; [done|]. destruct (perform a st); simpl; auto. Qed.

Lemma resets_app l l' : resets_in (l ++ l') = (resets_in l + resets_in l')%N.
Proof. induction l as [|[] l IH]; simpl; rewrite ?IH; lia. Qed.

Lemma drop_job_watermark j st : watermark (drop_job j st) = watermark st.
Proof. apply drop_job_frame. Qed.
Lemma complete_watermark t r st : watermark (complete t r st) = watermark st.
Proof. apply complete_frame. Qed.
#[local] Arguments drop_job : simpl never.
#[local] Arguments complete : simpl never.

(** What moves the watermark. *)
Lemma perform_watermark depth a st st' :
  flusher_wf depth st → perform a st = Some st' →
  match a with
  | Reset => watermark st' = (u64_wrapping_add (watermark st).1 1, None)
  | Acknowledge => watermark st' = watermark st ∨
      ∃ j u, thread st = Returned j (Ok u) ∧ job_epoch j = (watermark st).1 ∧
        watermark st' = ((watermark st).1, durable_cursor (fl_store st))
  | _ => watermark st' = watermark st
  end.
Proof.
  intros Hwf. destruct a; simpl.
  - intros ([st1 r] & Hb & ->)%fmap_Some. unfold submit_check in Hb. by repeat (case_match; simplify_eq/=).
  - unfold submit_acquire. intros. by repeat (case_match; simplify_eq/=).
  - intros ([st1 r] & Hb & ->)%fmap_Some. unfold submit_end in Hb. destruct (submitter st); [done..|]. cbn zeta in Hb.
    destruct (thread _) in Hb; apply (inj Some), (f_equal fst) in Hb; cbn [fst] in *; subst st1;
      rewrite ?drop_job_watermark; done.
  - unfold fl_reset. intros. by repeat (case_match; simplify_eq/=).
  - unfold close. intros. by repeat (case_match; simplify_eq/=).
  - unfold recv. intros. by repeat (case_match; simplify_eq/=).
  - unfold process. destruct (thread st) as [|j| | |] eqn:Ht; try done. destruct (fl_poisoned st).
    { intros [= <-]. by rewrite ?drop_job_watermark. }
    destruct (commit _ _ _) as [s [r|]]; intros [= <-]; [done|].
    pose proof (fw_tokens _ _ Hwf) as H3. unfold pending, in_hand in H3. rewrite Ht in H3.
    set (st1 := set_channel [] (set_thread (Exited false) (set_fl_store s st))).
    change (drop_job j st1) with (foldl (λ st j, drop_job j st) st1 [j]). rewrite <- foldl_app.
    by destruct (drop_jobs ([j] ++ channel st) st1 H3) as (_ & _ & _ & _ & _ & _ & _ & -> & _).
  - unfold acknowledge. destruct (thread st) as [| |j [u|e]| |] eqn:Ht; try done.
    + intros [= <-]. case_match; nbool; [right|by left]. exists j, u. auto.
    + intros [= <-]. left. rewrite drop_job_watermark.
      by rewrite complete_watermark.
  - unfold settle. destruct (thread st) as [| | |j|] eqn:Ht; try done. intros [= <-].
    rewrite drop_job_watermark.
    by rewrite complete_watermark.
Qed.

(** Runs keep the invariant, and the epoch counts the resets. *)
Lemma run_wf depth l st st' :
  flusher_wf depth st → ((watermark st).1 + resets_in l ≤ u64_max)%N → run l st = Some st' →
  flusher_wf depth st' ∧ (watermark st').1 = ((watermark st).1 + resets_in l)%N.
Proof.
  revert st. induction l as [|a l IH]; intros st Hwf Hc; simpl; [intros [= <-]; split; [done|lia]|].
  intros (st1 & Ha & Hr)%bind_Some. simpl in Hc.
  assert (flusher_wf depth st1) as Hwf1 by (eapply perform_wf; [exact Hwf| |exact Ha]; intros ->; lia).
  pose proof (perform_watermark _ _ _ _ Hwf Ha) as Hw.
  assert ((watermark st1).1 + resets_in l = (watermark st).1 + match a with Reset => resets_in l + 1 | _ => resets_in l end)%N
    as Hsum.
  { destruct a; simpl in Hw; try (rewrite Hw; done).
    - rewrite Hw. simpl. unfold u64_wrapping_add. rewrite N.mod_small by (unfold u64_max, u64_modulus in *; lia). lia.
    - destruct Hw as [->|(? & ? & _ & _ & ->)]; done. }
  destruct (IH st1 Hwf1) as [? ?]; [lia|done|]. split; [done|lia].
Qed.

Lemma drop_job_pending j st : pending (drop_job j st) = pending st.
Proof. unfold pending, in_hand. by destruct (drop_job_frame j st) as (-> & _ & _ & -> & _). Qed.
Lemma complete_pending t r st : pending (complete t r st) = pending st.
Proof. unfold pending, in_hand. by destruct (complete_frame t r st) as (-> & _ & _ & -> & _). Qed.

(** The pending jobs after a step without a submission were pending before it. *)
Lemma perform_pending depth a st st' :
  flusher_wf depth st → perform a st = Some st' → a ≠ SubmitEnd → ∀ j, j ∈ pending st' → j ∈ pending st.
Proof.
  intros Hwf Ha Hne. destruct a; simpl in Ha; try done.
  - apply fmap_Some in Ha as ([st1 r] & Hb & ->). unfold submit_check in Hb. by repeat (case_match; simplify_eq/=).
  - unfold submit_acquire in Ha. by repeat (case_match; simplify_eq/=).
  - unfold fl_reset in Ha. by repeat (case_match; simplify_eq/=).
  - unfold close in Ha. by repeat (case_match; simplify_eq/=).
  - unfold recv in Ha. destruct (thread st) eqn:Ht; try done. unfold pending, in_hand. rewrite Ht.
    destruct (channel st) eqn:Hc; [destruct (sender_open st); [done|]|]; simplify_eq/=; by rewrite ?Hc.
  - unfold process in Ha. destruct (thread st) as [|j0| | |] eqn:Ht; try done.
    assert (pending st = j0 :: channel st) as Hp by (unfold pending, in_hand; by rewrite Ht).
    destruct (fl_poisoned st).
    { injection Ha as <-. rewrite drop_job_pending, Hp. simpl. intros j Hj. by right. }
    destruct (commit _ _ _) as [s [r|]]; injection Ha as <-; [by rewrite Hp|].
    pose proof (fw_tokens _ _ Hwf) as H3. rewrite Hp in H3.
    set (st1 := set_channel [] (set_thread (Exited false) (set_fl_store s st))).
    change (drop_job j0 st1) with (foldl (λ st j, drop_job j st) st1 [j0]). rewrite <- foldl_app.
    destruct (drop_jobs ([j0] ++ channel st) st1 H3) as (_ & _ & E3 & _ & _ & E6 & _).
    intros j. unfold pending at 1, in_hand at 1. rewrite E3, E6. by intros []%elem_of_nil.
  - unfold acknowledge in Ha. destruct (thread st) as [| |j0 [u|e]| |] eqn:Ht; try done.
    + injection Ha as <-. intros j. unfold pending, in_hand. rewrite Ht. by destruct (_ =? _)%N.
    + injection Ha as <-. rewrite drop_job_pending, complete_pending. unfold pending at 2, in_hand. rewrite Ht.
      intros j Hj. by right.
  - unfold settle in Ha. destruct (thread st) as [| | |j0|] eqn:Ht; try done. injection Ha as <-.
    rewrite drop_job_pending, complete_pending. unfold pending at 2, in_hand. rewrite Ht. intros j Hj. by right.
Qed.

(** A watermark hidden by a reset stays hidden while only older jobs are pending. *)
Lemma run_hidden depth l st st' :
  flusher_wf depth st → ((watermark st).1 + resets_in l ≤ u64_max)%N → run l st = Some st' → SubmitEnd ∉ l →
  (watermark st).2 = None → (∀ j, j ∈ pending st → (job_epoch j < (watermark st).1)%N) →
  (watermark st').2 = None.
Proof.
  revert st. induction l as [|a l IH]; intros st Hwf Hc; simpl; [by intros [= <-]|].
  intros (st1 & Ha & Hr)%bind_Some [Hne Hnin]%not_elem_of_cons Hnone Hold. simpl in Hc.
  destruct (run_wf depth [a] st st1 Hwf) as [Hwf1 He]; [simpl; destruct a; lia|simpl; by rewrite Ha|].
  pose proof (perform_watermark _ _ _ _ Hwf Ha) as Hw.
  assert (((watermark st).1 ≤ (watermark st1).1)%N) as Hle by (rewrite He; lia).
  apply (IH st1); [done| |done|done| |].
  - rewrite He. simpl. destruct a; lia.
  - destruct a; try (by rewrite Hw). destruct Hw as [-> |(j & u & Ht & Hj & _)]; [done|exfalso].
    assert (j ∈ pending st) as Hin by (unfold pending, in_hand; rewrite Ht; left).
    specialize (Hold j Hin). lia.
  - intros j Hj. eapply N.lt_le_trans; [|exact Hle]. apply Hold. by eapply perform_pending.
Qed.

Lemma drop_job_store j st : fl_store (drop_job j st) = fl_store st.
Proof. apply drop_job_frame. Qed.
Lemma complete_store t r st : fl_store (complete t r st) = fl_store st.
Proof. apply complete_frame. Qed.

(** A poisoned flusher commits nothing. *)
Lemma poisoned_store a st st' :
  fl_poisoned st = true → perform a st = Some st' → fl_store st' = fl_store st.
Proof.
  intros Hpo. destruct a; simpl.
  - intros ([st1 r] & Hb & ->)%fmap_Some. unfold submit_check in Hb. by repeat (case_match; simplify_eq/=).
  - unfold submit_acquire. intros. by repeat (case_match; simplify_eq/=).
  - intros ([st1 r] & Hb & ->)%fmap_Some. unfold submit_end in Hb. destruct (submitter st); [done..|]. cbn zeta in Hb.
    destruct (thread _) in Hb; apply (inj Some), (f_equal fst) in Hb; cbn [fst] in *; subst st1;
      rewrite ?drop_job_store; done.
  - unfold fl_reset. intros. by repeat (case_match; simplify_eq/=).
  - unfold close. intros. by repeat (case_match; simplify_eq/=).
  - unfold recv. intros. by repeat (case_match; simplify_eq/=).
  - unfold process. destruct (thread st); try done. rewrite Hpo. intros [= <-]. by rewrite drop_job_store.
  - unfold acknowledge. destruct (thread st) as [| |j [u|e]| |]; try done; intros [= <-]; [by case_match|].
    by rewrite drop_job_store, complete_store.
  - unfold settle. destruct (thread st); try done. intros [= <-]. by rewrite drop_job_store, complete_store.
Qed.

(** Actions of the flusher thread. *)
Definition of_thread (a : Action) : bool :=
  match a with Recv | Process | Acknowledge | Settle => true | _ => false end.

(** A thread with a job in hand gives its admission back within three actions. *)
Lemma in_hand_releases st j :
  in_hand st = [j] → ∃ l st', length l ≤ 3 ∧ forallb of_thread l = true ∧ run l st = Some st' ∧ available st < available st'.
Proof.
  assert (∀ st t r, available st < available (drop_job j (complete t r st)) ∧ available st < available (drop_job j st)) as Hd.
  { intros st1 t r. destruct (drop_job_frame j st1) as (_ & _ & _ & _ & _ & -> & _).
    destruct (drop_job_frame j (complete t r st1)) as (_ & _ & _ & _ & _ & -> & _).
    destruct (complete_frame t r st1) as (_ & _ & _ & _ & _ & -> & _). lia. }
  assert (∀ st, thread st = Acknowledging j → ∃ st', run [Settle] st = Some st' ∧ available st < available st') as Hs.
  { intros st1 Ht. eexists. simpl. unfold settle. rewrite Ht. split; [reflexivity|]. apply (Hd (set_thread Receiving st1)). }
  assert (∀ st r, thread st = Returned j r → ∃ l st', length l ≤ 2 ∧ forallb of_thread l = true ∧
    run l st = Some st' ∧ available st < available st') as Hr.
  { intros st1 [u|e] Ht.
    - destruct (Hs (set_thread (Acknowledging j) (if ((watermark st1).1 =? job_epoch j)%N
        then set_watermark ((watermark st1).1, durable_cursor (fl_store st1)) st1 else st1)) eq_refl) as (st' & Hr & Hl).
      exists [Acknowledge; Settle], st'. split_and!; [done|done| |].
      + change (acknowledge st1 ≫= run [Settle] = Some st'). unfold acknowledge. rewrite Ht. exact Hr.
      + simpl in Hl. by destruct (_ =? _)%N.
    - eexists [Acknowledge], _. split_and!; [simpl; lia|done| |].
      + simpl. unfold acknowledge. rewrite Ht. reflexivity.
      + apply (Hd (set_fl_poisoned true (set_thread Receiving st1))). }
  intros Hj. unfold in_hand in Hj. destruct (thread st) as [|j' |j' r|j'|] eqn:Ht; simplify_eq.
  - destruct (process st) as [st1|] eqn:Hp.
    2:{ unfold process in Hp. rewrite Ht in Hp. destruct (fl_poisoned st); [done|]. by destruct (commit _ _ _) as [? [|]]. }
    pose proof Hp as Hp'. unfold process in Hp'. rewrite Ht in Hp'. destruct (fl_poisoned st).
    { injection Hp' as <-. eexists [Process], _. split_and!; [simpl; lia|done|simpl; rewrite Hp; reflexivity|].
      apply (Hd (set_thread Receiving st) 0 (Ok ())). }
    destruct (commit _ _ _) as [s [r|]]; injection Hp' as <-.
    + destruct (Hr (set_thread (Returned j r) (set_fl_store s st)) r eq_refl) as (l & st' & Hl & Hf & Hrun & Hav).
      exists (Process :: l), st'. split_and!; [simpl; lia|done|simpl; by rewrite Hp|done].
    + eexists [Process], _. split_and!; [simpl; lia|done|simpl; rewrite Hp; reflexivity|].
      assert (∀ js st, available st ≤ available (foldl (λ st j, drop_job j st) st js)) as Hfold.
      { induction js as [|j0 js IH]; intros st0; simpl; [lia|]. etransitivity; [|apply IH].
        destruct (drop_job_frame j0 st0) as (_ & _ & _ & _ & _ & -> & _). lia. }
      eapply Nat.lt_le_trans; [|apply Hfold]. apply (Hd (set_channel [] (set_thread (Exited false) (set_fl_store s st))) 0 (Ok ())).
  - destruct (Hr st r Ht) as (l & st' & Hl & ?). exists l, st'. split; [lia|done].
  - destruct (Hs st Ht) as (st' & ? & ?). exists [Settle], st'. split_and!; [simpl; lia|done..].
Qed.

(** ** Properties *)


(** After a reset the watermark stays empty until a snapshot submitted after the reset commits:
    jobs queued before it commit without moving the watermark, whatever the interleaving. *)
Theorem flusher_reset_hides s depth l1 l2 st :
  length (slots s) = 2 → active s < 2 → (resets_in (l1 ++ Reset :: l2) ≤ u64_max)%N →
  run (l1 ++ Reset :: l2) (spawn s depth) = Some st → SubmitEnd ∉ l2 →
  fl_durable_cursor st = None.
Proof.
  intros Hl Ha Hc Hr Hnin. rewrite resets_app in Hc. simpl in Hc. rewrite actions_app in Hr.
  apply bind_Some in Hr as (st1 & Hr1 & Hr). simpl in Hr. apply bind_Some in Hr as (st2 & Hr2 & Hr).
  destruct (run_wf _ l1 _ _ (spawn_wf s depth Hl Ha) ltac:(simpl; lia) Hr1) as [Hwf1 He1]. simpl in He1.
  destruct (run_wf _ [Reset] st1 st2 Hwf1) as [Hwf2 He2]; [simpl; lia|simpl; by rewrite Hr2|]. simpl in He2.
  pose proof (perform_watermark _ Reset _ _ Hwf1 Hr2) as Hw. simpl in Hw.
  eapply (run_hidden _ l2 st2); [exact Hwf2|lia|done|done|by rewrite Hw|].
  intros j Hj. apply (perform_pending _ Reset st1 st2 Hwf1 Hr2) in Hj; [|done].
  pose proof (StronglySorted_app_1_elem_of _ _ _ (job_epoch j) (watermark st1).1 (fw_epochs _ _ Hwf1)
    ltac:(by apply list_elem_of_fmap_2) ltac:(left)). lia.
Qed.

(** C37. Submitting never deadlocks: whenever the gate is empty and nobody is being admitted, the
    flusher thread alone frees a slot within four of its actions. *)
Theorem flusher_never_deadlocks s depth l st :
  length (slots s) = 2 → active s < 2 → (resets_in l ≤ u64_max)%N → run l (spawn s depth) = Some st →
  available st = 0 → admitted st = 0 →
  ∃ l' st', length l' ≤ 4 ∧ forallb of_thread l' = true ∧ run l' st = Some st' ∧ 0 < available st'.
Proof.
  intros Hl Ha Hc Hr Hav Hout. destruct (run_wf _ l _ _ (spawn_wf s depth Hl Ha) ltac:(simpl; lia) Hr) as [Hwf _].
  pose proof (fw_gate _ _ Hwf) as Hg. rewrite Hav, Hout in Hg.
  assert (∀ st1 l0 j, run l0 st = Some st1 → length l0 ≤ 1 → forallb of_thread l0 = true → in_hand st1 = [j] → available st1 = 0 →
    ∃ l' st', length l' ≤ 4 ∧ forallb of_thread l' = true ∧ run l' st = Some st' ∧ 0 < available st') as Hgo.
  { intros st1 l0 j H0 Hl0 Hf0 Hj Hav1. destruct (in_hand_releases st1 j Hj) as (l' & st' & Hl' & Hf & Hr' & Hlt).
    exists (l0 ++ l'), st'. rewrite length_app, forallb_app, Hf0, Hf, actions_app, H0. split_and!; [lia|done|done|lia]. }
  destruct (in_hand st) as [|j js] eqn:Hj.
  - unfold pending in Hg. rewrite Hj in Hg. destruct (channel st) as [|j js] eqn:Hch; [simpl in Hg; lia|].
    assert (thread st = Receiving) as Ht.
    { unfold in_hand in Hj. destruct (thread st) as [| | | |b] eqn:Ht; try done. by rewrite (fw_exit _ _ Hwf b Ht) in Hch. }
    apply (Hgo (set_thread (Holding j) (set_channel js st)) [Recv] j); try done.
    simpl. unfold recv. by rewrite Ht, Hch.
  - assert (js = []) as -> by (unfold in_hand in Hj; by destruct (thread st); simplify_eq).
    by apply (Hgo st [] j); simpl; try done; lia.
Qed.

(** The store is touched by the commit of [Process] only. *)
Lemma perform_store a st st' : a ≠ Process → perform a st = Some st' → fl_store st' = fl_store st.
Proof.
  intros Hne. destruct a; simpl; try done.
  - intros ([st1 r] & Hb & ->)%fmap_Some. unfold submit_check in Hb. by repeat (case_match; simplify_eq/=).
  - unfold submit_acquire. intros. by repeat (case_match; simplify_eq/=).
  - intros ([st1 r] & Hb & ->)%fmap_Some. unfold submit_end in Hb. destruct (submitter st); [done..|]. cbn zeta in Hb.
    destruct (thread _) in Hb; apply (inj Some), (f_equal fst) in Hb; cbn [fst] in *; subst st1;
      rewrite ?drop_job_store; done.
  - unfold fl_reset. intros. by repeat (case_match; simplify_eq/=).
  - unfold close. intros. by repeat (case_match; simplify_eq/=).
  - unfold recv. intros. by repeat (case_match; simplify_eq/=).
  - unfold acknowledge. destruct (thread st) as [| |j [u|e]| |]; try done; intros [= <-]; [by case_match|].
    by rewrite drop_job_store, complete_store.
  - unfold settle. destruct (thread st); try done. intros [= <-]. by rewrite drop_job_store, complete_store.
Qed.

End spec.

(** ** The store on a device that crashes *)

Section crashing.
Context `{!Checksum, !ChecksumLaws _}.
Implicit Types (st : Flusher CrashVfs) (s : SnapshotStore CrashVfs) (l : list Action).

(** The record a store names as its own. *)
Definition active_record s : option SlotRecord := slots s !!! active s.

(** The checksum tells every torn slot of a run from a whole one, and no record exceeds its widths. *)
Definition commit_sound s (j : Job) : Prop :=
  match active_record s with
  | Some rec => (version rec < u64_max)%N ∧ record_wf (next_record rec (job_cursor j)) ∧
      tear_detected (older_slot_bytes s) (encode_slot (next_record rec (job_cursor j)))
  | None => False
  end.
Fixpoint commits_sound l st : Prop :=
  match l with
  | [] => True
  | a :: l =>
    match a, thread st with
    | Process, Holding j => fl_poisoned st = false → poisoned (fl_store st) = false → commit_sound (fl_store st) j
    | _, _ => True
    end ∧ match perform a st with Some st' => commits_sound l st' | None => True end
  end.

(** Bytes and a cursor that were on disk from the start, or were submitted together. *)
Definition offered l (rec0 : SlotRecord) (snap0 snap : bytes) (cursor : option Position) : Prop :=
  (cursor, snap) = (rec_cursor rec0, snap0) ∨ SubmitCheck snap cursor ∈ l.

Lemma offered_more l a rec0 snap0 snap cursor :
  offered l rec0 snap0 snap cursor → offered (l ++ [a]) rec0 snap0 snap cursor.
Proof. intros [?|Hin]; [by left|right]. apply elem_of_app. by left. Qed.

(** The disk of a store: at its own record, or, after a commit that failed, there or at the next one. *)
Definition on_disk l rec0 snap0 s : Prop :=
  ∃ rec snap, offered l rec0 snap0 snap (rec_cursor rec) ∧ active_record s = Some rec ∧ retain s ≠ 0 ∧
    (committed s rec snap ∨
     poisoned s = true ∧ ∃ new cursor, offered l rec0 snap0 new cursor ∧
       recoverable (dir s) [(rec, snap); (next_record rec cursor, new)] (vfs s)).

Record persists l rec0 snap0 s0 st : Prop := {
  pe_config : dir (fl_store st) = dir s0 ∧ retain (fl_store st) = retain s0;
  pe_thread : thread st ≠ Exited false;
  pe_pending j : j ∈ pending st → SubmitCheck (job_snapshot j) (job_cursor j) ∈ l;
  pe_submitter : match submitter st with
    | Outside => True
    | Acquiring snap cursor | Admitting snap cursor => SubmitCheck snap cursor ∈ l
    end;
  pe_disk : on_disk l rec0 snap0 (fl_store st);
  pe_acknowledged j u : thread st = Returned j (Ok u) → durable_cursor (fl_store st) = job_cursor j;
}.

(** A commit of something that was offered. *)
Lemma commit_on_disk l rec0 snap0 s j :
  on_disk l rec0 snap0 s → (poisoned s = false → commit_sound s j) →
  offered l rec0 snap0 (job_snapshot j) (job_cursor j) →
  ∃ s' r, commit (job_snapshot j) (job_cursor j) s = (s', Returns r) ∧ dir s' = dir s ∧ retain s' = retain s ∧
    on_disk l rec0 snap0 s' ∧ (∀ u, r = Ok u → durable_cursor s' = job_cursor j).
Proof.
  intros Hdisk Hsound Hoff. destruct (poisoned s) eqn:Hp.
  { exists s, (Err StorePoisoned). unfold commit. rewrite sm_get_bind, Hp. by split_and!. }
  destruct Hdisk as (rec & snap & Hrec & Hact & Hret & [Hcm|[? _]]); [|congruence].
  specialize (Hsound eq_refl). unfold commit_sound in Hsound. rewrite Hact in Hsound. destruct Hsound as (Hver & Hwf & Htear).
  destruct (commit_once_cases s rec snap (job_snapshot j) (job_cursor j) Hcm Hver Hwf Htear) as (s' & Hd & Hrt & Hcases).
  destruct Hcases as [[Honce Hc']|[Honce Hr]].
  - pose proof (so_rec _ _ _ (cm_slots _ _ _ Hc')) as Hact'. exists s', (Ok ()). split.
    { unfold commit. rewrite sm_get_bind, Hp. unfold mbind, sm_bind, sm_result. by rewrite Honce. }
    split_and!; [done|done| |].
    + exists (next_record rec (job_cursor j)), (job_snapshot j). split_and!; [exact Hoff|exact Hact'|congruence|by left].
    + intros _ _. unfold durable_cursor. by rewrite Hact'.
  - exists (set_poisoned true s'), (Err (Io OtherKind)). split.
    { unfold commit. rewrite sm_get_bind, Hp. unfold mbind, sm_bind, sm_result. by rewrite Honce. }
    split_and!; [done|done| |done].
    assert (slots s' = slots s ∧ active s' = active s) as [Es Ea].
    { pose proof (commit_once_attempt _ _ _ _ _ Honce) as [(rec' & _ & _ & _ & He)|(? & ? & _)]; [by destruct (He (Io OtherKind))|done]. }
    exists rec, snap. unfold active_record. simpl. rewrite Es, Ea, Hrt, Hd. split_and!; [done|done|done|].
    right. split; [done|]. by exists (job_snapshot j), (job_cursor j).
Qed.

Lemma on_disk_more l a rec0 snap0 s : on_disk l rec0 snap0 s → on_disk (l ++ [a]) rec0 snap0 s.
Proof.
  intros (rec & snap & Ho & Ha & Hr & Hcs). exists rec, snap. split; [by apply offered_more|]. split; [done|]. split; [done|].
  destruct Hcs as [?|(? & new & cursor & ? & ?)]; [by left|right]. split; [done|]. exists new, cursor. split; [by apply offered_more|done].
Qed.

(** The parts of the state an action leaves to the submitter and to the jobs. *)
Lemma perform_submitted depth a l st st' :
  flusher_wf depth st → perform a st = Some st' →
  (∀ j, j ∈ pending st → SubmitCheck (job_snapshot j) (job_cursor j) ∈ l) →
  match submitter st with
  | Outside => True
  | Acquiring snap cursor | Admitting snap cursor => SubmitCheck snap cursor ∈ l
  end →
  (∀ j, j ∈ pending st' → SubmitCheck (job_snapshot j) (job_cursor j) ∈ l ++ [a]) ∧
  match submitter st' with
  | Outside => True
  | Acquiring snap cursor | Admitting snap cursor => SubmitCheck snap cursor ∈ l ++ [a]
  end.
Proof.
  intros Hwf Ha Hp Hs.
  assert (∀ x, x ∈ l → x ∈ l ++ [a]) as Hmore by (intros; apply elem_of_app; by left).
  assert (∀ s' : SubmitterAt, s' = submitter st ∨ s' = Outside →
    match s' with Outside => True | Acquiring snap cursor | Admitting snap cursor => SubmitCheck snap cursor ∈ l ++ [a] end)
    as Hkeep by (intros s' [-> | ->]; [destruct (submitter st)|]; auto).
  split.
  - destruct (decide (a = SubmitEnd)) as [->|Hne].
    2: { intros j Hj. apply Hmore, Hp. by eapply perform_pending. }
    simpl in Ha. apply fmap_Some in Ha as ([st1 r] & Hb & ->). unfold submit_end in Hb.
    destruct (submitter st) as [| |snap cursor] eqn:Hsub; [done..|]. cbn zeta in Hb. intros j Hj.
    assert (j ∈ pending st ∨ (job_snapshot j, job_cursor j) = (snap, cursor)) as [?|[= -> ->]]; [|by apply Hmore, Hp|by apply Hmore].
    destruct (thread _) in Hb; apply (inj Some), (f_equal fst) in Hb; cbn [fst] in *; subst st1;
      rewrite ?drop_job_pending in Hj; unfold pending in *; simpl in Hj; try (by left);
      (rewrite app_assoc in Hj; apply elem_of_app in Hj as [?| ->%list_elem_of_singleton]; [by left|by right]).
  - destruct a; simpl in Ha.
    + apply fmap_Some in Ha as ([st1 r] & Hb & ->). unfold submit_check in Hb.
      destruct (submitter st) eqn:Hsub; try done. destruct (negb (sender_open st)); [done|].
      destruct (fl_poisoned st); injection Hb as <- _; cbn [fst]; [by apply Hkeep; left|].
      simpl. apply elem_of_app. right. by left.
    + unfold submit_acquire in Ha. destruct (submitter st) eqn:Hsub; try done. destruct (available st); [done|].
      injection Ha as <-. simpl. by apply Hmore.
    + apply fmap_Some in Ha as ([st1 r] & Hb & ->). unfold submit_end in Hb.
      destruct (submitter st) as [| |snap cursor] eqn:Hsub; [done..|]. cbn zeta in Hb.
      destruct (thread _) in Hb; apply (inj Some), (f_equal fst) in Hb; cbn [fst] in *; subst st1;
        rewrite ?(proj1 (proj2 (drop_job_frame _ _))); done.
    + apply Hkeep. left. unfold fl_reset in Ha. by repeat (case_match; simplify_eq/=).
    + apply Hkeep. left. unfold close in Ha. by repeat (case_match; simplify_eq/=).
    + apply Hkeep. left. unfold recv in Ha. by repeat (case_match; simplify_eq/=).
    + apply Hkeep. left. unfold process in Ha. destruct (thread st) as [|j| | |] eqn:Ht; try done. destruct (fl_poisoned st).
      { injection Ha as <-. by rewrite (proj1 (proj2 (drop_job_frame _ _))). }
      destruct (commit _ _ _) as [s [r|]]; injection Ha as <-; [done|].
      pose proof (fw_tokens _ _ Hwf) as H3. unfold pending, in_hand in H3. rewrite Ht in H3.
      set (st1 := set_channel [] (set_thread (Exited false) (set_fl_store s st))).
      change (drop_job j st1) with (foldl (λ st j, drop_job j st) st1 [j]). rewrite <- foldl_app.
      by destruct (drop_jobs ([j] ++ channel st) st1 H3) as (_ & _ & _ & -> & _).
    + apply Hkeep. left. unfold acknowledge in Ha. destruct (thread st) as [| |j [u|e]| |]; try done; injection Ha as <-.
      * by destruct (_ =? _)%N.
      * rewrite (proj1 (proj2 (drop_job_frame _ _))). by rewrite (proj1 (proj2 (complete_frame _ _ _))).
    + apply Hkeep. left. unfold settle in Ha. destruct (thread st); try done. injection Ha as <-.
      rewrite (proj1 (proj2 (drop_job_frame _ _))). by rewrite (proj1 (proj2 (complete_frame _ _ _))).
Qed.

(** Where the flusher thread stands after an action other than its commit. *)
Lemma perform_thread a st st' :
  a ≠ Process → perform a st = Some st' →
  thread st' = thread st ∨ thread st' = Receiving ∨ thread st' = Exited true ∨
  (∃ j, thread st' = Holding j) ∨ ∃ j, thread st' = Acknowledging j.
Proof.
  intros Hne. destruct a; simpl; try done.
  - intros ([st1 r] & Hb & ->)%fmap_Some. left. unfold submit_check in Hb. by repeat (case_match; simplify_eq/=).
  - left. unfold submit_acquire in *. by repeat (case_match; simplify_eq/=).
  - intros ([st1 r] & Hb & ->)%fmap_Some. left. unfold submit_end in Hb. destruct (submitter st); [done..|]. cbn zeta in Hb.
    destruct (thread _) in Hb; apply (inj Some), (f_equal fst) in Hb; cbn [fst] in *; subst st1;
      rewrite ?(proj1 (drop_job_frame _ _)); done.
  - left. unfold fl_reset in *. by repeat (case_match; simplify_eq/=).
  - left. unfold close in *. by repeat (case_match; simplify_eq/=).
  - unfold recv. intros. repeat (case_match; simplify_eq/=); eauto 10.
  - unfold acknowledge. destruct (thread st) as [| |j [u|e]| |]; try done; intros [= <-].
    + case_match; eauto 10.
    + rewrite (proj1 (drop_job_frame _ _)), (proj1 (complete_frame _ _ _)). eauto.
  - unfold settle. destruct (thread st); try done. intros [= <-].
    rewrite (proj1 (drop_job_frame _ _)), (proj1 (complete_frame _ _ _)). eauto.
Qed.

Lemma persists_step depth l a rec0 snap0 s0 st st' :
  flusher_wf depth st → persists l rec0 snap0 s0 st → commits_sound [a] st → perform a st = Some st' →
  persists (l ++ [a]) rec0 snap0 s0 st'.
Proof.
  intros Hwf [[Hd Hr] Ht Hp Hs Hdisk Hack] [Hsound _] Ha.
  destruct (perform_submitted depth a l st st' Hwf Ha Hp Hs) as [Hp' Hs'].
  destruct (decide (a = Process)) as [->|Hne].
  - simpl in Ha. unfold process in Ha. destruct (thread st) as [|j| | |] eqn:Hth; try done.
    assert (j ∈ pending st) as Hj by (unfold pending, in_hand; rewrite Hth; left).
    destruct (fl_poisoned st) eqn:Hpo.
    { injection Ha as <-. split; try done; rewrite ?drop_job_store; try (rewrite (proj1 (drop_job_frame _ _)); done);
        [done|by apply on_disk_more]. }
    destruct (commit_on_disk l rec0 snap0 (fl_store st) j Hdisk) as (s' & r & Hc & Hd' & Hr' & Hdisk' & Hcur);
      [intros; by apply Hsound|right; by apply Hp|].
    rewrite Hc in Ha. injection Ha as <-. split; try done; simpl; [split; congruence|by apply on_disk_more|].
    intros j' u [= <- ->]. by eapply Hcur.
  - pose proof (perform_store a st st' Hne Ha) as Hst. pose proof (perform_thread a st st' Hne Ha) as Hth.
    split; rewrite ?Hst; try done; [|by apply on_disk_more|].
    + destruct Hth as [-> |[-> |[-> |[[j ->]|[j ->]]]]]; done.
    + intros j u Hj. destruct Hth as [E|[E|[E|[[j' E]|[j' E]]]]]; rewrite E in Hj; try done. by eapply Hack.
Qed.

Lemma commits_sound_app l l' st :
  commits_sound (l ++ l') st ↔ commits_sound l st ∧ ∀ st', run l st = Some st' → commits_sound l' st'.
Proof.
  revert st. induction l as [|a l IH]; intros st; simpl.
  { split; [intros Hs; split; [done|by intros ? [= <-]]|intros [_ Hs]; by apply Hs]. }
  destruct (perform a st) as [st1|]; simpl; [|naive_solver]. rewrite IH. tauto.
Qed.

Lemma run_persists l rec snap s depth st :
  committed s rec snap → (resets_in l ≤ u64_max)%N → commits_sound l (spawn s depth) →
  run l (spawn s depth) = Some st → flusher_wf (Nat.max depth 1) st ∧ persists l rec snap s st.
Proof.
  intros Hcm. pose proof (cm_slots _ _ _ Hcm) as Hso.
  assert (flusher_wf (Nat.max depth 1) (spawn s depth)) as Hwf0 by (apply spawn_wf; apply Hso).
  revert st. induction l as [|a l IH] using rev_ind; intros st Hc Hsound Hrun.
  { injection Hrun as <-. split; [done|]. split; try done; [by intros j ?%elem_of_nil|].
    exists rec, snap. split_and!; [by left|apply Hso|apply Hcm|by left]. }
  rewrite resets_app in Hc. rewrite actions_app in Hrun. apply bind_Some in Hrun as (st1 & Hr1 & Hr).
  simpl in Hr. apply bind_Some in Hr as (st2 & Ha & [= <-]). apply commits_sound_app in Hsound as [Hs1 Hs2].
  destruct (IH st1 ltac:(lia) Hs1 Hr1) as [Hwf1 Hpe].
  destruct (run_wf (Nat.max depth 1) (l ++ [a]) (spawn s depth) st2 Hwf0) as [Hwf2 _];
    [rewrite resets_app; change (watermark (spawn s depth)).1 with 0%N; lia|rewrite actions_app, Hr1; simpl; by rewrite Ha|].
  split; [done|]. eapply persists_step; [exact Hwf1|exact Hpe|by apply Hs2|done].
Qed.

End crashing.

(** ** Witnesses: the store of a crashing device *)

#[local] Existing Instance iscsi.
#[local] Existing Instance iscsi_laws.

Definition ex_flusher_store : SnapshotStore CrashVfs :=
  match open (MkStoreConfig ["store"%string] 1) crash_vfs_new with
  | Returns (Ok (s, _)) => s
  | _ => MkStore [] crash_vfs_new 1 [] 0 true
  end.
Definition ex_actions : list Action :=
  [SubmitCheck [x0a] (Some (MkPosition 3 0)); SubmitAcquire; SubmitEnd; Recv; Process; Acknowledge; Settle;
   SubmitCheck [x0b] (Some (MkPosition 4 0)); SubmitAcquire; SubmitEnd].


Lemma flusher_reset_hides_witness :
  ∃ st, run (ex_actions ++ Reset :: [Recv; Process; Acknowledge; Settle]) (spawn ex_flusher_store 1) = Some st ∧
    durable_cursor (fl_store st) = Some (MkPosition 4 0) ∧ fl_durable_cursor st = None.
Proof.
  eexists. assert (run (ex_actions ++ Reset :: [Recv; Process; Acknowledge; Settle]) (spawn ex_flusher_store 1) = Some _) as Hr
    by (vm_compute; reflexivity).
  split; [exact Hr|]. split; [reflexivity|].
  refine (flusher_reset_hides ex_flusher_store 1 ex_actions [Recv; Process; Acknowledge; Settle] _ eq_refl
    ltac:(vm_compute; lia) ltac:(vm_compute; discriminate) Hr _).
  intros Hin. repeat (apply elem_of_cons in Hin as [Hin|Hin]; [discriminate|]). by apply elem_of_nil in Hin.
Defined.

Lemma flusher_never_deadlocks_witness :
  ∃ l' st st', run ex_actions (spawn ex_flusher_store 1) = Some st ∧ available st = 0 ∧
    run l' st = Some st' ∧ 0 < available st'.
Proof.
  assert (∃ st, run ex_actions (spawn ex_flusher_store 1) = Some st ∧ available st = 0 ∧ admitted st = 0)
    as (st & Hr & Hav & Hout) by (eexists; split; [vm_compute; reflexivity|split; reflexivity]).
  destruct (flusher_never_deadlocks ex_flusher_store 1 ex_actions st eq_refl ltac:(vm_compute; lia)
    ltac:(vm_compute; discriminate) Hr Hav Hout) as (l' & st' & _ & _ & H1 & H2).
  exists l', st, st'. split; [exact Hr|]. split; [exact Hav|]. split; [exact H1|exact H2].
Defined.

(** A store with one commit, on a device that fails for good half-way through the next one. *)
Definition ex_torn_actions : list Action :=
  [SubmitCheck [x0b] (ex_cursor 2); SubmitAcquire; SubmitEnd; Recv; Process; Acknowledge].
Definition ex_holding : Flusher CrashVfs :=
  MkFlusher (Holding (MkJob [x0b] (ex_cursor 2) 0 0)) Outside ex_committed [] true 0 false
    (0%N, durable_cursor ex_committed) [None].

Lemma ex_next_wf : record_wf (next_record (MkSlotRecord 1 (ex_cursor 1) 1) (ex_cursor 2)).
Proof. split_and!; [done|done|]. by intros c [= <-]. Qed.

Lemma ex_torn_sound : commits_sound ex_torn_actions (spawn ex_committed 1).
Proof.
  change ex_torn_actions with (take 4 ex_torn_actions ++ [Process; Acknowledge]).
  apply commits_sound_app. split; [cbn; tauto|]. intros st Hst.
  assert (run (take 4 ex_torn_actions) (spawn ex_committed 1) = Some ex_holding) as Hr by reflexivity.
  rewrite Hr in Hst. apply (inj Some) in Hst as <-. cbn [commits_sound]. split.
  - intros _ _. unfold commit_sound.
    assert (active_record (fl_store ex_holding) = Some (MkSlotRecord 1 (ex_cursor 1) 1)) as ->
      by exact (so_rec _ _ _ (cm_slots _ _ _ ex_committed_ok)).
    split; [reflexivity|]. split; [exact ex_next_wf|exact ex_tear_detected].
  - destruct (perform Process ex_holding) as [st|]; [|exact I]. split; [exact I|].
    by destruct (perform Acknowledge st).
Qed.

(** The other case: the commit of the cursor 2 fails in its last call, when its record is on the disk in full. The
    watermark says 1, and a reopen recovers 2. *)
Definition ex_late : SnapshotStore CrashVfs := (commit [x0a] (ex_cursor 1) (ex_opened (with_crash_budget 12 64))).1.

Lemma torn_commit_ahead :
  ∃ st s', run ex_torn_actions (spawn ex_late 1) = Some st ∧ fl_poisoned st = true ∧ fl_durable_cursor st = ex_cursor 1 ∧
    open (MkStoreConfig ex_dir 1) (crash (vfs (fl_store st))) = Returns (Ok (s', Some (MkRecovered [x0b] (ex_cursor 2)))).
Proof. eexists _, _. split; [vm_compute; reflexivity|]. split_and!; [reflexivity|reflexivity|]. vm_compute. reflexivity. Qed.

