(* ===== verification/Word.v ===== *)
(** * 64-bit words and arrays of four

    What the circuits of [crates/binius-mayo/src] compute with: the word operations of the
    constraint system's gates, bit by bit, and Rust's [[T; 4]], which holds the planes of a
    bitsliced vector, its packed limbs and a digest. *)
From S2P Require Import Prelude.
From Stdlib Require Import Lia.

(** ** Word operations *)

(** A value of a wire: an unsigned 64-bit word. *)
Definition is_word (x : N) : Prop := (x < u64_modulus)%N.

(** [x << n] on [u64]: the bits that leave the word are lost. *)
Definition u64_shl (x n : N) : N := N.land (N.shiftl x n) u64_max.
(** [x >> n] on [u64]. *)
Definition u64_shr (x n : N) : N := N.shiftr x n.
(** [x >> n] on [i64]: the sign bit fills the vacated positions. *)
Definition u64_sar (x n : N) : N :=
  if N.testbit x 63 then N.lor (N.shiftr x n) (u64_shl u64_max (64 - n)) else N.shiftr x n.

(** [x << n] and [x.wrapping_mul(y)] on [u8]. *)
Definition u8_shl (x n : N) : N := N.land (N.shiftl x n) u8_max.
Definition u8_wrapping_mul (x y : N) : N := ((x * y) mod 256)%N.

#[global] Arguments u64_shl : simpl never.
#[global] Arguments u64_shr : simpl never.
#[global] Arguments u64_sar : simpl never.

(** *** Bits *)

Lemma testbit_u64_max i : N.testbit u64_max i = (i <? 64)%N.
Proof.
  change u64_max with (N.ones 64). destruct (N.ltb_spec i 64).
  - by apply N.ones_spec_low.
  - by apply N.ones_spec_high.
Qed.

Lemma testbit_word x i : is_word x → (64 ≤ i)%N → N.testbit x i = false.
Proof.
  intros Hx Hi. destruct (decide (x = 0%N)) as [->|Hx0]; [apply N.bits_0|].
  apply N.bits_above_log2. enough (N.log2 x < 64)%N by lia.
  apply N.log2_lt_pow2; [lia|]. exact Hx.
Qed.

Lemma is_word_bits x : (∀ i, (64 ≤ i)%N → N.testbit x i = false) → is_word x.
Proof.
  intros Hx. unfold is_word. change u64_modulus with (2 ^ 64)%N.
  assert (x = N.land x (N.ones 64)) as ->.
  { apply N.bits_inj. intros i. rewrite N.land_spec. destruct (N.ltb_spec i 64).
    - by rewrite N.ones_spec_low, andb_true_r.
    - by rewrite Hx by done. }
  rewrite N.land_ones. by apply N.mod_lt.
Qed.

(** Two words are equal when their 64 bits are. *)
Lemma word_ext x y :
  is_word x → is_word y → (∀ i, (i < 64)%N → N.testbit x i = N.testbit y i) → x = y.
Proof.
  intros Hx Hy Hxy. apply N.bits_inj. intros i. destruct (N.ltb_spec i 64).
  - by apply Hxy.
  - by rewrite !testbit_word.
Qed.

Lemma testbit_u64_shl x n i :
  N.testbit (u64_shl x n) i = (n <=? i)%N && (i <? 64)%N && N.testbit x (i - n).
Proof.
  unfold u64_shl. rewrite N.land_spec, testbit_u64_max. destruct (N.leb_spec n i).
  - rewrite N.shiftl_spec_high' by done. by rewrite andb_comm.
  - by rewrite N.shiftl_spec_low.
Qed.

Lemma testbit_u64_shr x n i : N.testbit (u64_shr x n) i = N.testbit x (i + n).
Proof. apply N.shiftr_spec'. Qed.

Lemma testbit_u64_sar x n i :
  is_word x → (n ≤ 64)%N → (i < 64)%N →
  N.testbit (u64_sar x n) i = N.testbit x (N.min (i + n) 63).
Proof.
  intros Hx Hn Hi. unfold u64_sar. destruct (N.testbit x 63) eqn:Hmsb.
  - rewrite N.lor_spec, N.shiftr_spec', testbit_u64_shl, testbit_u64_max.
    destruct (N.leb_spec (i + n) 63).
    + rewrite N.min_l by done. destruct (N.leb_spec (64 - n) i); [lia|]. by rewrite orb_false_r.
    + rewrite N.min_r, Hmsb by lia. destruct (N.leb_spec (64 - n) i); [|lia].
      destruct (N.ltb_spec i 64); [|lia]. destruct (N.ltb_spec (i - (64 - n)) 64); [|lia].
      by rewrite orb_true_r.
  - rewrite N.shiftr_spec'. destruct (N.leb_spec (i + n) 63).
    + by rewrite N.min_l.
    + rewrite N.min_r, Hmsb by lia. by rewrite testbit_word by (done || lia).
Qed.

Create Rewrite HintDb testbit.
#[export] Hint Rewrite N.land_spec N.lxor_spec N.lor_spec N.bits_0 testbit_u64_shl testbit_u64_shr
  testbit_u64_max : testbit.

(** The bits of word expressions, as boolean expressions in the bits of their operands. *)
Ltac testbits := autorewrite with testbit.

(** ** Arrays of four *)

(** Rust's [[T; 4]]. *)
Record arr4 (A : Type) := Arr4 { at0 : A; at1 : A; at2 : A; at3 : A }.
Arguments Arr4 {A}.
Arguments at0 {A}. Arguments at1 {A}. Arguments at2 {A}. Arguments at3 {A}.

#[export] Instance arr4_eq_dec {A} `{EqDecision A} : EqDecision (arr4 A).
Proof. solve_decision. Defined.

(** [array[i]]; an index out of range panics, and no index below is. *)
Definition arr4_get {A} (l : arr4 A) (i : nat) : A :=
  match i with 0 => at0 l | 1 => at1 l | 2 => at2 l | _ => at3 l end.

(** An update through [&mut array[i]]. *)
Definition arr4_alter {A} (f : A → A) (i : nat) (l : arr4 A) : arr4 A :=
  match i with
  | 0 => Arr4 (f (at0 l)) (at1 l) (at2 l) (at3 l)
  | 1 => Arr4 (at0 l) (f (at1 l)) (at2 l) (at3 l)
  | 2 => Arr4 (at0 l) (at1 l) (f (at2 l)) (at3 l)
  | _ => Arr4 (at0 l) (at1 l) (at2 l) (f (at3 l))
  end.

(** [core::array::from_fn]. *)
Definition arr4_from_fn {A} (f : nat → A) : arr4 A := Arr4 (f 0) (f 1) (f 2) (f 3).
(** [array.iter()]. *)
Definition arr4_list {A} (l : arr4 A) : list A := [at0 l; at1 l; at2 l; at3 l].
Definition arr4_map {A B} (f : A → B) (l : arr4 A) : arr4 B :=
  Arr4 (f (at0 l)) (f (at1 l)) (f (at2 l)) (f (at3 l)).

Lemma arr4_map_list {A B} (f : A → B) l : arr4_list (arr4_map f l) = f <$> arr4_list l.
Proof. done. Qed.

Lemma arr4_get_map {A B} (f : A → B) l i : arr4_get (arr4_map f l) i = f (arr4_get l i).
Proof. by destruct i as [|[|[|i]]]. Qed.

Lemma arr4_ext {A} (l k : arr4 A) : (∀ i, i < 4 → arr4_get l i = arr4_get k i) → l = k.
Proof.
  intros H. destruct l as [l0 l1 l2 l3], k as [k0 k1 k2 k3].
  pose proof (H 0 ltac:(lia)). pose proof (H 1 ltac:(lia)).
  pose proof (H 2 ltac:(lia)). pose proof (H 3 ltac:(lia)). by simplify_eq/=.
Qed.

Lemma arr4_list_lookup {A} (l : arr4 A) i : i < 4 → arr4_list l !! i = Some (arr4_get l i).
Proof. intros Hi. by destruct i as [|[|[|[|i]]]]; [..|lia]. Qed.

Lemma arr4_get_alter {A} (f : A → A) l i j :
  i < 4 → j < 4 →
  arr4_get (arr4_alter f i l) j = if decide (i = j) then f (arr4_get l j) else arr4_get l j.
Proof.
  intros Hi Hj. destruct i as [|[|[|[|i]]]]; [..|lia]; destruct j as [|[|[|[|j]]]]; try lia; done.
Qed.

