(* ===== verification/Scripted.v ===== *)
(** * The scripted chain

    [crates/chainfold/src/test_util.rs]: the folds, the sink and the in-memory chain that the tests, the
    examples and the benchmarks of chainfold drive the engine with ([CrashVfs] of the same file is in
    [Vfs]). The chain keeps its blocks in a list and hashes each from its parent, its number and a
    salt; [Listed] is the reading of such a list as a [Chain], shared with the pool of [Wallet]. *)
From S2P Require Import Prelude Position Batch Ring Checkpoint ChainError Engine EngineSpec Driver DriverSpec.
From S2P Require Import Snapshot Word.
From Stdlib Require Import Lia.

(** ** Blocks in a list *)

(** A published block: its number, its hash and its logs with their indices. *)
Record ListedBlock (E : Type) := MkListedBlock { lb_number : N; lb_hash : hash; lb_logs : list (N * E) }.
Arguments MkListedBlock {E}. Arguments lb_number {E}. Arguments lb_hash {E}. Arguments lb_logs {E}.

Section listed.
Context {E : Type}.
Implicit Types (bs : list (ListedBlock E)) (first : N).

Definition lb_ref (b : ListedBlock E) : BlockRef := MkBlockRef (lb_number b) (lb_hash b).
Definition lb_entries (b : ListedBlock E) : list (entry E) := (λ le, (lb_ref b, le.1, le.2)) <$> lb_logs b.

(** Blocks numbered from [first] on, below the top of the number range, with ascending logs. *)
Record listed first bs : Prop := {
  ls_number i b : bs !! i = Some b → lb_number b = (first + N.of_nat i)%N;
  ls_logs b : b ∈ bs → ascending (lb_logs b).*1;
  ls_room : (first + N.of_nat (length bs) ≤ u64_max)%N;
}.

(** The chain they are. *)
Definition listed_chain first bs : Chain E := {|
  ch_first := first;
  ch_head := (first + N.of_nat (length bs) - 1)%N;
  ch_hash n := default [] (lb_hash <$> bs !! N.to_nat (n - first));
  ch_logs n := if (first <=? n)%N then default [] (lb_logs <$> bs !! N.to_nat (n - first)) else [];
|}.

Lemma listed_chain_wf first bs : listed first bs → bs ≠ [] → chain_wf (listed_chain first bs).
Proof.
  intros [_ Hlogs Hroom] Hne. destruct bs as [|b0 bs0]; [done|]. split; [simpl in *; lia|].
  intros n. cbn [ch_logs listed_chain]. destruct (first <=? n)%N; [|constructor].
  destruct ((b0 :: bs0) !! _) as [b|] eqn:Hb; [|constructor]. simpl.
  apply Hlogs. by eapply list_elem_of_lookup_2.
Qed.

Lemma listed_ref first bs i b :
  listed first bs → bs !! i = Some b → lb_ref b = chain_ref (listed_chain first bs) (first + N.of_nat i).
Proof.
  intros Hl Hb. unfold lb_ref, chain_ref. cbn [ch_hash listed_chain].
  replace (N.to_nat (first + N.of_nat i - first)) with i by lia. rewrite Hb. simpl.
  by rewrite (ls_number _ _ Hl i b Hb).
Qed.

(** A block looked up by number. *)
Lemma listed_header first bs n :
  listed first bs → bs ≠ [] → (first ≤ n)%N →
  lb_ref <$> bs !! N.to_nat (n - first) =
  if (n <=? ch_head (listed_chain first bs))%N then Some (chain_ref (listed_chain first bs) n) else None.
Proof.
  intros Hl Hne Hn. destruct (bs !! N.to_nat (n - first)) as [b|] eqn:Hb.
  - pose proof (lookup_lt_Some _ _ _ Hb) as Hlt. cbn [ch_head listed_chain].
    rewrite (proj2 (N.leb_le _ _)) by lia. simpl. f_equal.
    rewrite (listed_ref first bs _ b Hl Hb). f_equal. lia.
  - apply lookup_ge_None in Hb. cbn [ch_head listed_chain]. rewrite (proj2 (N.leb_gt _ _)); [done|].
    destruct bs; [done|]. simpl in *. lia.
Qed.

Lemma listed_tip first bs :
  listed first bs → bs ≠ [] →
  lb_ref <$> last bs = Some (chain_ref (listed_chain first bs) (ch_head (listed_chain first bs))).
Proof.
  intros Hl Hne. rewrite last_lookup. destruct (bs !! pred (length bs)) as [b|] eqn:Hb.
  - simpl. f_equal. rewrite (listed_ref first bs _ b Hl Hb). f_equal. simpl.
    pose proof (lookup_lt_Some _ _ _ Hb). lia.
  - apply lookup_ge_None in Hb. destruct bs; [done|]. simpl in *. lia.
Qed.

(** The logs of a range are those of a slice of the list. *)
Lemma listed_between first bs lo hi :
  listed first bs → (first ≤ lo ≤ hi)%N → (hi ≤ ch_head (listed_chain first bs))%N → bs ≠ [] →
  between (listed_chain first bs) lo hi =
  slice (N.to_nat (lo - first)) (N.to_nat (hi + 1 - lo)) bs ≫= lb_entries.
Proof.
  intros Hl Hlo Hhi Hne. cbn [ch_head listed_chain] in Hhi. unfold between, blocks_from.
  remember (N.to_nat (hi + 1 - lo)) as n eqn:Hn.
  assert (length bs ≠ 0) as Hpos by (by destruct bs).
  assert (N.to_nat (lo - first) + n ≤ length bs) as Hfit by lia. clear Hn Hhi.
  assert (first ≤ lo)%N as Hge by lia. clear Hlo. revert lo Hge Hfit.
  induction n as [|n IH]; intros lo Hge Hfit.
  { unfold slice. by rewrite take_0. }
  rewrite <- cons_seq, fmap_cons, <- fmap_S_seq, <- list_fmap_compose. cbn [mjoin list_join].
  destruct (lookup_lt_is_Some_2 bs (N.to_nat (lo - first))) as [b Hb]; [lia|].
  unfold slice. rewrite (drop_S _ b) by done. cbn [take]. rewrite bind_cons. f_equal.
  - rewrite N.add_0_r. unfold block_entries, lb_entries. cbn [ch_logs listed_chain].
    rewrite (proj2 (N.leb_le _ _)), Hb by lia. simpl. rewrite (listed_ref first bs _ b Hl Hb).
    by replace (first + N.of_nat (N.to_nat (lo - first)))%N with lo by lia.
  - specialize (IH (lo + 1)%N ltac:(lia) ltac:(lia)). unfold slice in IH.
    replace (N.to_nat (lo + 1 - first)) with (S (N.to_nat (lo - first))) in IH by lia.
    rewrite <- IH. f_equal. apply list_fmap_ext. intros _ i _. unfold compose. f_equal. lia.
Qed.
End listed.

(** ** Scripted folds *)

(** [FailKind]: how the recording fold fails. *)
Inductive FailKind := FailSkip | FailHalt | FailPoison | FailPanic.

(** [RecordingFold]; [recorded] is its field [applied]. *)
Record RecordingFold := MkRecordingFold {
  recorded : list (Position * N);
  fail_at : option (Position * FailKind);
}.

#[export] Instance recording_fold : Fold RecordingFold N FailKind := λ self pos event,
  let push := MkRecordingFold (recorded self ++ [(pos, event)]) (fail_at self) in
  match fail_at self with
  | Some (scripted_pos, kind) =>
    if bool_decide (scripted_pos = pos) then
      match kind with
      | FailSkip => (self, Returns (Err (Skip kind)))
      | FailHalt => (self, Returns (Err (Halt kind)))
      | FailPoison => (push, Returns (Err (Poison kind)))
      | FailPanic => (push, Panics)
      end
    else (push, Returns (Ok ()))
  | None => (push, Returns (Ok ()))
  end.

(** [slice::chunks_exact]: whole chunks, the rest is left out. *)
Definition exact_chunks {A} (n : nat) (l : list A) : list (list A) :=
  (λ i, slice (i * n) n l) <$> seq 0 (length l / n).

Definition ENTRY_LEN : nat := 24.

Definition recording_encode_state (self : RecordingFold) : bytes :=
  le_bytes 8 (N.of_nat (length (recorded self))) ++
  (recorded self ≫= λ pe, le_bytes 8 (block pe.1) ++ le_bytes 8 (log_index pe.1) ++ le_bytes 8 pe.2).

(** [usize] has 64 bits; [checked_mul] is the bound on the product. *)
Definition recording_decode_state (bs : bytes) : result RecordingFold () :=
  if length bs <? 8 then Err () else
  let count := le_value (take 8 bs) in
  let entries := drop 8 bs in
  if (u64_max <? count * N.of_nat ENTRY_LEN)%N then Err () else
  if negb (N.of_nat (length entries) =? count * N.of_nat ENTRY_LEN)%N then Err () else
  let lane e i := le_value (slice (i * 8) 8 e) in
  Ok (MkRecordingFold ((λ e, (MkPosition (lane e 0) (lane e 1), lane e 2)) <$> exact_chunks ENTRY_LEN entries) None).

(** [NoopFold]. *)
Definition NoopFold : Type := ().
Definition noop_apply (self : NoopFold) (pos : Position) (event : N) : NoopFold * outcome (result () (FoldError Empty_set)) :=
  (self, Returns (Ok ())).

(** ** A sink *)

Record WatermarkSink := MkWatermarkSink { offered : list Position; fail_next_offers : N }.

#[export] Instance watermark_sink {F} : SnapshotSink WatermarkSink F := {|
  offer := λ e self,
    if (0 <? fail_next_offers self)%N then
      (MkWatermarkSink (offered self) (fail_next_offers self - 1), Err MkDurabilityLost)
    else
      (match durable_point e with
       | Some point => MkWatermarkSink (offered self ++ [point]) (fail_next_offers self)
       | None => self
       end, Ok ());
  durable_cursor := λ self, last (offered self);
  sink_reset := λ self, MkWatermarkSink [] (fail_next_offers self);
|}.

(** ** The chain *)

(** [u64] arithmetic of the mixing step. *)
Definition u64_wrapping_mul (a b : N) : N := ((a * b) mod u64_modulus)%N.

Definition splitmix64 (x : N) : N :=
  let x := u64_wrapping_add x 0x9e3779b97f4a7c15 in
  let x := u64_wrapping_mul (N.lxor x (N.shiftr x 30)) 0xbf58476d1ce4e5b9 in
  let x := u64_wrapping_mul (N.lxor x (N.shiftr x 27)) 0x94d049bb133111eb in
  N.lxor x (N.shiftr x 31).

Definition HASH_LANES : nat := 4.
Definition LANE_BYTES : nat := 8.
Definition UNBOUNDED_WINDOW : N := u64_max.

(** The lanes are written one after the other, each once. *)
Definition block_hash (parent_hash : hash) (number salt : N) : hash :=
  seq 0 HASH_LANES ≫= λ lane,
    let parent_lane := le_value (slice (lane * LANE_BYTES) LANE_BYTES parent_hash) in
    le_bytes LANE_BYTES (splitmix64 (N.lxor (N.lxor (N.lxor parent_lane number) salt) (N.of_nat lane))).

Record ScriptedBlock := MkScriptedBlock { sb_number : N; sb_hash : hash; sb_events : list N }.

Record ScriptedChain := MkScriptedChain {
  first_block : N;
  blocks : list ScriptedBlock;
  next_salt : N;
  chain_horizon : ReplayHorizon;
  chain_window : N;
  pending_failures : N;
}.

Inductive PollFailureT := PollFailure.

Definition scripted_new (first_block : N) : ScriptedChain :=
  MkScriptedChain first_block [] 0 Genesis UNBOUNDED_WINDOW 0.

Definition set_blocks (bs : list ScriptedBlock) (self : ScriptedChain) : ScriptedChain :=
  MkScriptedChain (first_block self) bs (next_salt self) (chain_horizon self) (chain_window self)
    (pending_failures self).

(** [push_block], which panics when the number or the salt overflows. *)
Definition push_scripted (self : ScriptedChain) (events : list N) : outcome ScriptedChain :=
  number ← expect (u64_checked_add (first_block self) (N.of_nat (length (blocks self))));
  let parent_hash := match last (blocks self) with Some b => sb_hash b | None => replicate 32 x00 end in
  let salt := next_salt self in
  next ← expect (u64_checked_add (next_salt self) 1);
  let hash := block_hash parent_hash number salt in
  Returns (MkScriptedChain (first_block self) (blocks self ++ [MkScriptedBlock number hash events]) next
    (chain_horizon self) (chain_window self) (pending_failures self)).

Fixpoint push_all (self : ScriptedChain) (replacements : list (list N)) : outcome ScriptedChain :=
  match replacements with
  | [] => Returns self
  | events :: replacements => self ← push_scripted self events; push_all self replacements
  end.

Definition reorg (self : ScriptedChain) (depth : nat) (replacements : list (list N)) : outcome ScriptedChain :=
  let keep := length (blocks self) - depth in
  push_all (set_blocks (take keep (blocks self)) self) replacements.

Definition sb_ref (b : ScriptedBlock) : BlockRef := MkBlockRef (sb_number b) (sb_hash b).

Definition tip (self : ScriptedChain) : option BlockRef := sb_ref <$> last (blocks self).

Definition header (self : ScriptedChain) (number : N) : option BlockRef :=
  if (number <? first_block self)%N then None
  else sb_ref <$> blocks self !! N.to_nat (number - first_block self).

Definition set_horizon (h : ReplayHorizon) (self : ScriptedChain) : ScriptedChain :=
  MkScriptedChain (first_block self) (blocks self) (next_salt self) h (chain_window self) (pending_failures self).
Definition set_window (n : N) (self : ScriptedChain) : ScriptedChain :=
  MkScriptedChain (first_block self) (blocks self) (next_salt self) (chain_horizon self) n (pending_failures self).
Definition fail_next_polls (n : N) (self : ScriptedChain) : ScriptedChain :=
  MkScriptedChain (first_block self) (blocks self) (next_salt self) (chain_horizon self) (chain_window self) n.

(** [head]: a scripted failure, or the tip; an empty chain heads at the parent of its first block. *)
Definition scripted_head : SM ScriptedChain PollFailureT BlockRef :=
  self ← sm_get;
  if (0 <? pending_failures self)%N then
    sm_modify (fail_next_polls (pending_failures self - 1));; sm_fail PollFailure
  else mret (default (MkBlockRef (first_block self - 1) (replicate 32 x00)) (tip self)).

(** The entries of a block; [None] is the panic of a log index over [u32]. *)
Definition scripted_entries (b : ScriptedBlock) : outcome (list (entry N)) :=
  if (N.of_nat (length (sb_events b)) <=? u32_max + 1)%N then
    Returns ((λ ie, (sb_ref b, N.of_nat ie.1, ie.2)) <$> enumerate (sb_events b))
  else Panics.

(** The block range of [events_in], with its clamps. *)
Definition scripted_range (self : ScriptedChain) (from to : N) : list ScriptedBlock :=
  let index number := N.to_nat (N.min (number - first_block self) (N.of_nat (length (blocks self)))) in
  let end_ := if (to <? first_block self)%N then 0 else Nat.min (index to + 1) (length (blocks self)) in
  let start := Nat.min (index from) end_ in
  slice start (end_ - start) (blocks self).

(** A panic leaves the buffer as it was; the driver that would read it unwinds. *)
Definition scripted_events_in (from to : N) : SM (ScriptedChain * list (entry N)) PollFailureT () :=
  so ← sm_get;
  entries ← sm_outcome (mapM scripted_entries (scripted_range so.1 from to));
  sm_modify (λ so, (so.1, so.2 ++ mjoin entries)).

#[export] Instance scripted_source : Source ScriptedChain N PollFailureT := {|
  source_head := scripted_head;
  header_at n := self ← sm_get; mret (header self n);
  events_in := scripted_events_in;
  horizon := chain_horizon;
  window := chain_window;
|}.

(** ** Lemmas: the mixing step is injective *)

(** A shifted difference is smaller. *)
Lemma xorshift_inj k x y : (0 < k)%N → N.lxor x (N.shiftr x k) = N.lxor y (N.shiftr y k) → x = y.
Proof.
  intros Hk Heq. apply N.lxor_eq. set (d := N.lxor x y).
  assert (d = N.shiftr d k) as Hd.
  { apply N.lxor_eq. unfold d. rewrite N.shiftr_lxor.
    rewrite N.lxor_assoc, <- (N.lxor_assoc y), (N.lxor_comm y), N.lxor_assoc, <- N.lxor_assoc, Heq.
    apply N.lxor_nilpotent. }
  rewrite N.shiftr_div_pow2 in Hd. destruct (N.eq_dec d 0%N) as [|Hne]; [done|].
  pose proof (N.div_lt d (2 ^ k) ltac:(lia) (N.pow_gt_1 2 k ltac:(lia) ltac:(lia)))%N. lia.
Qed.

Lemma xorshift_bound k x : (x < u64_modulus)%N → (N.lxor x (N.shiftr x k) < u64_modulus)%N.
Proof.
  intros Hx. apply is_word_bits. intros i Hi. rewrite N.lxor_spec, N.shiftr_spec'.
  rewrite !(testbit_word x) by (done || lia). done.
Qed.

(** Multiplying by a unit. *)
Lemma wrapping_mul_inj c c' x y :
  ((c * c') mod u64_modulus = 1)%N → (x < u64_modulus)%N → (y < u64_modulus)%N →
  u64_wrapping_mul x c = u64_wrapping_mul y c → x = y.
Proof.
  intros Hc Hx Hy Heq. unfold u64_wrapping_mul in Heq.
  assert (∀ z, (z < u64_modulus)%N → ((z * c) mod u64_modulus * c') mod u64_modulus = z)%N as Hinv.
  { intros z Hz. rewrite N.Div0.mul_mod_idemp_l, <- N.mul_assoc, <- N.Div0.mul_mod_idemp_r, Hc, N.mul_1_r.
    by apply N.mod_small. }
  rewrite <- (Hinv x), <- (Hinv y), Heq by done. done.
Qed.

Lemma wrapping_mul_bound x c : (u64_wrapping_mul x c < u64_modulus)%N.
Proof. apply N.mod_lt. done. Qed.

Lemma wrapping_add_inj c x y :
  (x < u64_modulus)%N → (y < u64_modulus)%N → u64_wrapping_add x c = u64_wrapping_add y c → x = y.
Proof.
  unfold u64_wrapping_add. intros Hx Hy Heq.
  pose proof (N.Div0.div_mod (x + c) u64_modulus). pose proof (N.Div0.div_mod (y + c) u64_modulus).
  unfold u64_modulus in *. nia.
Qed.

Lemma splitmix64_inj x y :
  (x < u64_modulus)%N → (y < u64_modulus)%N → splitmix64 x = splitmix64 y → x = y.
Proof.
  intros Hx Hy Heq. unfold splitmix64 in Heq. apply xorshift_inj in Heq; [|done].
  apply (wrapping_mul_inj _ 0x319642b2d24d8ec3) in Heq;
    [|reflexivity|apply xorshift_bound, wrapping_mul_bound..].
  apply xorshift_inj in Heq; [|done].
  apply (wrapping_mul_inj _ 0x96de1b173f119089) in Heq;
    [|reflexivity|apply xorshift_bound; by apply N.mod_lt..].
  apply xorshift_inj in Heq; [|done]. by apply wrapping_add_inj in Heq.
Qed.

Lemma length_block_hash p n s : length (block_hash p n s) = 32.
Proof. done. Qed.

(** A word of a parent's hash. *)
Definition lane_word (lane : nat) (h : hash) : N := le_value (slice (lane * LANE_BYTES) LANE_BYTES h).

Lemma lane_word_bound lane h : (lane_word lane h < u64_modulus)%N.
Proof.
  eapply N.lt_le_trans; [apply le_value_bound|]. etrans; [apply (N.pow_le_mono_r 256 _ 8); [done|]|done].
  unfold slice. rewrite length_take. unfold LANE_BYTES. lia.
Qed.

Lemma lxor_bound a b : (a < u64_modulus)%N → (b < u64_modulus)%N → (N.lxor a b < u64_modulus)%N.
Proof. intros Ha Hb. apply is_word_bits. intros i Hi. rewrite N.lxor_spec, !testbit_word by done. done. Qed.

Lemma splitmix64_bound x : (splitmix64 x < u64_modulus)%N.
Proof. apply xorshift_bound, wrapping_mul_bound. Qed.

(** Two exclusive ors agree when the differences of their parts do. *)
Lemma lxor_swap a b c d n l :
  N.lxor (N.lxor (N.lxor a n) c) l = N.lxor (N.lxor (N.lxor b n) d) l ↔ N.lxor a b = N.lxor c d.
Proof.
  split; intros Heq; apply N.bits_inj; intros i; apply (f_equal (λ x, N.testbit x i)) in Heq;
    rewrite ?N.lxor_spec in *; by destruct (N.testbit a i), (N.testbit b i), (N.testbit c i), (N.testbit d i),
      (N.testbit n i), (N.testbit l i).
Qed.

(** Lists of blocks of one length agree when their blocks do. *)
Lemma bind_blocks_eq {A B} (f g : A → list B) (l : list A) n :
  (∀ x, length (f x) = n) → (∀ x, length (g x) = n) → l ≫= f = l ≫= g ↔ ∀ x, x ∈ l → f x = g x.
Proof.
  intros Hf Hg. induction l as [|x l IH]; [split; [by intros _ x ?%elem_of_nil|done]|]. rewrite !bind_cons. split.
  - intros Heq. apply app_inj_1 in Heq as [Hx Hl]; [|by rewrite Hf, Hg]. rewrite IH in Hl.
    intros y [->|Hy]%elem_of_cons; auto.
  - intros Hall. rewrite (Hall x) by left. f_equal. apply IH. intros y Hy. apply Hall. by right.
Qed.

(** Blocks with the same number have the same hash exactly when their parents' hashes differ in every
    lane by the word in which their salts differ. *)
Lemma block_hash_eq p q n s s' :
  (n ≤ u64_max)%N → (s ≤ u64_max)%N → (s' ≤ u64_max)%N →
  block_hash p n s = block_hash q n s' ↔
  ∀ lane, lane < HASH_LANES → N.lxor (lane_word lane p) (lane_word lane q) = N.lxor s s'.
Proof.
  intros Hn Hs Hs'. unfold block_hash. rewrite (bind_blocks_eq _ _ _ LANE_BYTES) by (intros; apply length_le_bytes).
  assert (∀ x, (x ≤ u64_max)%N → (x < u64_modulus)%N) as Hw by (unfold u64_max, u64_modulus; lia).
  assert (∀ lane x h, lane < HASH_LANES → (x ≤ u64_max)%N →
    (N.lxor (N.lxor (N.lxor (lane_word lane h) n) x) (N.of_nat lane) < u64_modulus)%N) as Hb.
  { intros lane x h Hl Hx. repeat apply lxor_bound; auto using lane_word_bound. unfold HASH_LANES, u64_modulus in *. lia. }
  split; intros Heq lane Hlane.
  - assert (lane ∈ seq 0 HASH_LANES) as Hin by (apply elem_of_seq; lia).
    specialize (Heq lane Hin). cbn zeta in Heq. apply (f_equal le_value) in Heq.
    rewrite !le_value_bytes_small in Heq by apply splitmix64_bound.
    apply splitmix64_inj in Heq; [by apply lxor_swap in Heq|by apply Hb..].
  - apply elem_of_seq in Hlane as [_ Hlane]. cbn zeta. do 2 f_equal. apply lxor_swap, Heq. lia.
Qed.

(** ** Lemmas: the chain as a source *)

Lemma join_fmap {A B} (f : A → list B) l : mjoin (f <$> l) = l ≫= f.
Proof. induction l as [|x l IH]; [done|]. rewrite fmap_cons, mjoin_cons, bind_cons. by rewrite IH. Qed.

Lemma elem_of_slice {A} o n (l : list A) x : x ∈ slice o n l → x ∈ l.
Proof.
  unfold slice. intros Hx. rewrite <- (take_drop o l). rewrite <- (take_drop n (drop o l)).
  rewrite !elem_of_app. auto.
Qed.

(** The blocks of a scripted chain, with their logs numbered. *)
Definition listed_of (b : ScriptedBlock) : ListedBlock N :=
  MkListedBlock (sb_number b) (sb_hash b) ((λ ie, (N.of_nat ie.1, ie.2)) <$> enumerate (sb_events b)).

(** The hash a block at index [i] commits to. *)
Definition parent_of (bs : list ScriptedBlock) (i : nat) : hash :=
  match last (take i bs) with Some b => sb_hash b | None => replicate 32 x00 end.

(** A chain as its own operations leave it: blocks numbered from the first on, hashed from their parent
    with a salt already spent, and no block with more logs than [u32] can index. *)
Record scripted_wf (s : ScriptedChain) : Prop := {
  sw_number i b : blocks s !! i = Some b → sb_number b = (first_block s + N.of_nat i)%N;
  sw_hash i b : blocks s !! i = Some b → ∃ salt, (salt < next_salt s)%N ∧ (sb_number b ≤ u64_max)%N ∧
    sb_hash b = block_hash (parent_of (blocks s) i) (sb_number b) salt;
  sw_logs b : b ∈ blocks s → (N.of_nat (length (sb_events b)) ≤ u32_max + 1)%N;
  sw_salt : (next_salt s ≤ u64_max)%N;
}.

(** Below the top of the number range, with a block. *)
Definition serving (s : ScriptedChain) : Prop :=
  scripted_wf s ∧ (first_block s + N.of_nat (length (blocks s)) ≤ u64_max)%N ∧ blocks s ≠ [].

(** What the chain reports, as a [Chain]. *)
Definition scripted_chain (s : ScriptedChain) : Chain N := listed_chain (first_block s) (listed_of <$> blocks s).

Lemma ascending_enumerated {A} (l : list A) : ascending ((λ ie, (N.of_nat ie.1, ie.2)) <$> enumerate l).*1.
Proof.
  assert (((λ ie : nat * A, (N.of_nat ie.1, ie.2)) <$> enumerate l).*1 = N.of_nat <$> seq 0 (length l)) as ->.
  { rewrite <- list_fmap_compose. unfold enumerate. rewrite <- (fst_zip (seq 0 (length l)) l) at 2
      by (rewrite length_seq; lia). by rewrite <- list_fmap_compose. }
  apply ascending_intro. intros i x y Hx Hy. rewrite list_lookup_fmap in Hx, Hy.
  destruct (seq _ _ !! i) eqn:Hi in Hx; [|done]. destruct (seq _ _ !! S i) eqn:Hj in Hy; [|done].
  apply lookup_seq in Hi as [-> _], Hj as [-> _]. injection Hx as <-. injection Hy as <-. lia.
Qed.

Lemma scripted_listed s : serving s → listed (first_block s) (listed_of <$> blocks s).
Proof.
  intros ([Hn _ Hlogs _] & Hroom & _). split.
  - intros i b Hb. rewrite list_lookup_fmap in Hb. destruct (blocks s !! i) as [b0|] eqn:Hb0; [|done].
    injection Hb as <-. by apply Hn.
  - intros b (b0 & -> & _)%list_elem_of_fmap. apply ascending_enumerated.
  - by rewrite length_fmap.
Qed.

Lemma header_spec s n :
  serving s → (first_block s ≤ n)%N →
  header s n = if (n <=? ch_head (scripted_chain s))%N then Some (chain_ref (scripted_chain s) n) else None.
Proof.
  intros Hs Hn. pose proof Hs as (Hwf & _ & Hne). unfold header. rewrite (proj2 (N.ltb_ge _ _)) by done. unfold scripted_chain.
  rewrite <- listed_header by (done || by apply scripted_listed || by intros ?%fmap_nil_inv).
  rewrite list_lookup_fmap. by destruct (blocks s !! _).
Qed.

Lemma tip_spec s :
  serving s → tip s = Some (chain_ref (scripted_chain s) (ch_head (scripted_chain s))).
Proof.
  intros Hs. pose proof Hs as (Hwf & _ & Hne). unfold tip, scripted_chain.
  rewrite <- listed_tip by (by apply scripted_listed || by intros ?%fmap_nil_inv).
  rewrite fmap_last. by destruct (last (blocks s)).
Qed.

Lemma scripted_range_spec s lo hi :
  blocks s ≠ [] → (first_block s ≤ lo ≤ hi)%N → (hi ≤ ch_head (scripted_chain s))%N →
  scripted_range s lo hi = slice (N.to_nat (lo - first_block s)) (N.to_nat (hi + 1 - lo)) (blocks s).
Proof.
  intros Hne Hlo Hhi. unfold scripted_chain in Hhi. cbn [ch_head listed_chain] in Hhi.
  rewrite length_fmap in Hhi. assert (length (blocks s) ≠ 0) as Hpos by (by destruct (blocks s)).
  unfold scripted_range. rewrite (proj2 (N.ltb_ge _ _)) by lia. f_equal; lia.
Qed.

Lemma entries_of_blocks bs :
  Forall (λ b, N.of_nat (length (sb_events b)) ≤ u32_max + 1)%N bs →
  mapM scripted_entries bs = Returns (lb_entries ∘ listed_of <$> bs).
Proof.
  intros Hbs. apply mapM_returns. eapply Forall_impl; [exact Hbs|]. intros b Hb.
  unfold scripted_entries. rewrite (proj2 (N.leb_le _ _)) by done. f_equal. unfold compose, lb_entries.
  cbn [listed_of lb_logs]. by rewrite <- list_fmap_compose.
Qed.

(** A chain that is not scripted to fail, with blocks: the interface the driver's theorems are
    proved against. *)
Lemma scripted_honest s :
  serving s → pending_failures s = 0%N → honest (scripted_chain s) (λ s', s' = s).
Proof.
  intros Hs Hf. pose proof Hs as (Hwf & _ & Hne). split.
  - intros s' ->. exists s. split; [|done]. unfold runs_to. cbn [source_head scripted_source].
    unfold scripted_head. rewrite sm_get_bind, Hf. cbn. by rewrite tip_spec.
  - intros s' n -> Hn. exists s. split; [|done]. unfold runs_to. cbn [header_at scripted_source].
    rewrite sm_get_bind, header_spec by done. done.
  - intros s' out lo hi -> Hlo Hhi. exists s, (between (scripted_chain s) lo hi).
    unfold runs_to. cbn [events_in scripted_source]. unfold scripted_events_in. rewrite sm_get_bind. cbn [fst].
    rewrite scripted_range_spec by done.
    rewrite entries_of_blocks by (apply Forall_forall; intros b Hb; apply (sw_logs s Hwf); by eapply elem_of_slice).
    split; [|done]. unfold sm_outcome. cbn. unfold scripted_chain.
    rewrite listed_between by (done || by apply scripted_listed || by intros ?%fmap_nil_inv).
    rewrite slice_fmap, <- join_fmap. by rewrite <- list_fmap_compose.
Qed.

(** ** Lemmas: growing and replacing blocks *)

Lemma scripted_new_wf first : scripted_wf (scripted_new first).
Proof. split; try done. intros b Hb. by apply elem_of_nil in Hb. Qed.

Lemma parent_of_app bs k i : i ≤ length bs → parent_of (bs ++ k) i = parent_of bs i.
Proof. intros Hi. unfold parent_of. by rewrite take_app_le. Qed.

Lemma push_spec s events s' :
  scripted_wf s → (N.of_nat (length events) ≤ u32_max + 1)%N → push_scripted s events = Returns s' →
  scripted_wf s' ∧ first_block s' = first_block s ∧ pending_failures s' = pending_failures s ∧
  next_salt s' = (next_salt s + 1)%N ∧
  blocks s' = blocks s ++ [MkScriptedBlock (first_block s + N.of_nat (length (blocks s)))
    (block_hash (parent_of (blocks s) (length (blocks s))) (first_block s + N.of_nat (length (blocks s))) (next_salt s))
    events].
Proof.
  intros [Hn Hh Hl Hs] Hev. unfold push_scripted, u64_checked_add.
  destruct (first_block s + N.of_nat (length (blocks s)) <=? u64_max)%N eqn:Hroom; [|done].
  destruct (next_salt s + 1 <=? u64_max)%N eqn:Hsalt; [|done]. nbool. cbn [expect mbind outcome_bind].
  intros [= <-]. cbn [blocks first_block pending_failures next_salt].
  assert (parent_of (blocks s) (length (blocks s)) =
    match last (blocks s) with Some b => sb_hash b | None => replicate 32 x00 end) as ->
    by (unfold parent_of; by rewrite take_ge).
  split; [|done]. split; cbn [blocks first_block next_salt].
  - intros i b [[_ Hb]|[-> <-]]%lookup_snoc_Some; [by apply Hn|done].
  - intros i b [[Hi Hb]|[-> <-]]%lookup_snoc_Some; rewrite parent_of_app by lia.
    + destruct (Hh i b Hb) as (salt & ? & ? & ?). exists salt. split_and!; [lia|done..].
    + exists (next_salt s). split_and!; [lia|done|]. cbn [sb_hash sb_number]. unfold parent_of. by rewrite take_ge.
  - intros b [Hb| ->%list_elem_of_singleton]%elem_of_app; [by apply Hl|done].
  - done.
Qed.

(** Pushing several blocks: they follow the blocks there are, in order, and each is hashed from its
    parent with the next salt. *)
Lemma push_all_spec evs s s' :
  scripted_wf s → Forall (λ ev, N.of_nat (length ev) ≤ u32_max + 1)%N evs → push_all s evs = Returns s' →
  scripted_wf s' ∧ first_block s' = first_block s ∧ pending_failures s' = pending_failures s ∧
  ∃ new, blocks s' = blocks s ++ new ∧ sb_events <$> new = evs ∧
    (next_salt s + N.of_nat (length evs) ≤ u64_max)%N ∧
    ∀ j b, new !! j = Some b → sb_hash b =
      block_hash (parent_of (blocks s') (length (blocks s) + j)) (first_block s + N.of_nat (length (blocks s) + j))
        (next_salt s + N.of_nat j).
Proof.
  intros Hwf Hevs. revert s Hwf. induction Hevs as [|ev evs Hev _ IH]; intros s Hwf Hpush; cbn [push_all] in Hpush.
  { injection Hpush as <-. split_and!; try done. exists []. rewrite app_nil_r. split_and!; try done.
    pose proof (sw_salt s Hwf). simpl. lia. }
  destruct (push_scripted s ev) as [s1|] eqn:Hone; [|done].
  destruct (push_spec s ev s1 Hwf Hev Hone) as (Hwf1 & Hf1 & Hp1 & Hn1 & Hb1).
  destruct (IH s1 Hwf1 Hpush) as (Hwf' & Hf' & Hp' & new & Hb' & Hnew & Hsalt & Hall).
  split; [done|]. split; [congruence|]. split; [congruence|].
  eexists (_ :: new). rewrite Hb1, <- app_assoc in Hb'. split; [exact Hb'|].
  split; [by rewrite fmap_cons, Hnew|]. split; [rewrite Hn1 in Hsalt; simpl; lia|]. intros [|j] b Hj.
  - injection Hj as <-. cbn [sb_hash]. rewrite Nat.add_0_r, N.add_0_r, Hb', parent_of_app by done. done.
  - simpl in Hj. rewrite (Hall j b Hj), Hb1, Hf1, Hn1, length_app. cbn [length]. f_equal; [f_equal|..]; lia.
Qed.

(** A chain cut back to its first blocks. *)
Lemma set_blocks_wf s k : scripted_wf s → scripted_wf (set_blocks (take k (blocks s)) s).
Proof.
  intros [Hn Hh Hl Hs]. split; cbn [set_blocks blocks first_block next_salt]; [..|done].
  - intros i b [Hb _]%lookup_take_Some. by apply Hn.
  - intros i b [Hb Hi]%lookup_take_Some. destruct (Hh i b Hb) as (salt & ? & ? & Heq). exists salt.
    split_and!; try done. rewrite Heq. unfold parent_of. by rewrite take_take, Nat.min_l by lia.
  - intros b Hb. apply Hl. rewrite <- (take_drop k (blocks s)). apply elem_of_app. by left.
Qed.

(** The chain read at an index of the list. *)
Lemma scripted_chain_at s i b :
  serving s → blocks s !! i = Some b →
  let n := (first_block s + N.of_nat i)%N in
  chain_ref (scripted_chain s) n = MkBlockRef n (sb_hash b) ∧
  ch_logs (scripted_chain s) n = (λ ie, (N.of_nat ie.1, ie.2)) <$> enumerate (sb_events b).
Proof.
  intros Hs Hb n. assert ((listed_of <$> blocks s) !! i = Some (listed_of b)) as Hl
    by (rewrite list_lookup_fmap, Hb; done).
  unfold scripted_chain, chain_ref. cbn [ch_hash ch_logs listed_chain]. unfold n.
  rewrite (proj2 (N.leb_le _ _)) by lia.
  replace (N.to_nat (first_block s + N.of_nat i - first_block s)) with i by lia. by rewrite Hl.
Qed.

(** ** Properties *)

(** C28. A reorganisation gives an honest source of a chain that agrees with the old one below the cut and
    holds the replacements' events from it on, in order. Where both chains have a block from the cut on,
    each is hashed from its own parent, with a salt that no two blocks ever share; the two hashes are
    equal exactly when the parents' hashes differ by one and the same word in all four lanes, that in
    which the two salts differ. So the first replaced block, whose parent stays, has another hash. *)
Theorem scripted_reorg_serves s depth evs s' :
  serving s → pending_failures s = 0%N → Forall (λ ev, N.of_nat (length ev) ≤ u32_max + 1)%N evs →
  reorg s depth evs = Returns s' → blocks s' ≠ [] →
  (first_block s' + N.of_nat (length (blocks s')) ≤ u64_max)%N →
  let keep := length (blocks s) - depth in
  let cut := (first_block s + N.of_nat keep)%N in
  serving s' ∧ honest (scripted_chain s') (λ s'', s'' = s') ∧
  ch_head (scripted_chain s') = (cut + N.of_nat (length evs) - 1)%N ∧
  (∀ n, (first_block s ≤ n < cut)%N → chain_ref (scripted_chain s') n = chain_ref (scripted_chain s) n ∧
    ch_logs (scripted_chain s') n = ch_logs (scripted_chain s) n) ∧
  (∀ i ev, evs !! i = Some ev →
    ch_logs (scripted_chain s') (cut + N.of_nat i) = (λ ie, (N.of_nat ie.1, ie.2)) <$> enumerate ev) ∧
  (0 < depth → evs ≠ [] → ch_hash (scripted_chain s') cut ≠ ch_hash (scripted_chain s) cut) ∧
  ∀ i, keep + i < length (blocks s) → i < length evs →
    let n := (cut + N.of_nat i)%N in
    let (q, p) := (parent_of (blocks s') (keep + i), parent_of (blocks s) (keep + i)) in
    let salt' := (next_salt s + N.of_nat i)%N in
    ∃ salt, (salt < next_salt s)%N ∧ ch_hash (scripted_chain s) n = block_hash p n salt ∧
      ch_hash (scripted_chain s') n = block_hash q n salt' ∧
      (ch_hash (scripted_chain s') n = ch_hash (scripted_chain s) n ↔
       ∀ lane, lane < HASH_LANES → N.lxor (lane_word lane q) (lane_word lane p) = N.lxor salt' salt).
Proof.
  intros Hs Hf Hevs Hreorg Hne Hroom keep cut. pose proof Hs as (Hwf & Hroom0 & Hne0).
  assert (length (take keep (blocks s)) = keep) as Hkeep by (rewrite length_take; lia).
  destruct (push_all_spec evs (set_blocks (take keep (blocks s)) s) s')
    as (Hwf' & Hf' & Hp' & new & Hb' & Hnew & Hsalts & Hhash); [by apply set_blocks_wf|done|exact Hreorg|].
  cbn [set_blocks blocks first_block pending_failures next_salt] in Hf', Hp', Hb', Hhash, Hsalts.
  assert (serving s') as Hs' by done. split; [done|].
  split; [apply scripted_honest; [done|congruence]|].
  assert (length new = length evs) as Hlen by (by rewrite <- Hnew, length_fmap).
  assert (∀ i b, new !! i = Some b → blocks s' !! (keep + i) = Some b) as Hnew'.
  { intros i b Hb. rewrite Hb', lookup_app_r by lia. rewrite <- Hb. f_equal. lia. }
  assert (∀ i, keep + i < length (blocks s) → i < length evs →
    let n := (cut + N.of_nat i)%N in
    let (q, p) := (parent_of (blocks s') (keep + i), parent_of (blocks s) (keep + i)) in
    let salt' := (next_salt s + N.of_nat i)%N in
    ∃ salt, (salt < next_salt s)%N ∧ ch_hash (scripted_chain s) n = block_hash p n salt ∧
      ch_hash (scripted_chain s') n = block_hash q n salt' ∧
      (ch_hash (scripted_chain s') n = ch_hash (scripted_chain s) n ↔
       ∀ lane, lane < HASH_LANES → N.lxor (lane_word lane q) (lane_word lane p) = N.lxor salt' salt)) as Hhashes.
  { intros i Hi Hie n salt'. destruct (lookup_lt_is_Some_2 new i) as [b Hb]; [lia|].
    destruct (lookup_lt_is_Some_2 (blocks s) (keep + i) Hi) as [b0 Hb0].
    destruct (scripted_chain_at s _ b0 Hs Hb0) as [H1 _]. destruct (scripted_chain_at s' _ b Hs' (Hnew' i b Hb)) as [H2 _].
    rewrite Hf' in H2. apply (f_equal bhash) in H1, H2. cbn [chain_ref bhash] in H1, H2.
    destruct (sw_hash s Hwf _ b0 Hb0) as (salt & Hsalt & Hn & Hh0). rewrite (sw_number s Hwf _ b0 Hb0) in Hn, Hh0.
    pose proof (Hhash i b Hb) as Hh. rewrite Hkeep in Hh.
    replace (first_block s + N.of_nat (keep + i))%N with n in * by (unfold n, cut; lia).
    exists salt. rewrite H1, H2, Hh0, Hh. split_and!; [done..|]. apply block_hash_eq; lia. }
  split.
  { unfold scripted_chain. cbn [ch_head listed_chain]. rewrite length_fmap, Hb', length_app, Hkeep, Hf'. unfold cut. lia. }
  split_and!; [| | |exact Hhashes].
  - intros n Hn. destruct (lookup_lt_is_Some_2 (blocks s) (N.to_nat (n - first_block s))) as [b Hb]; [lia|].
    assert (blocks s' !! N.to_nat (n - first_block s) = Some b) as Hb2.
    { rewrite Hb', lookup_app_l by lia. rewrite lookup_take_lt by lia. done. }
    destruct (scripted_chain_at s _ b Hs Hb) as [H1 H2]. destruct (scripted_chain_at s' _ b Hs' Hb2) as [H3 H4].
    rewrite Hf' in H3, H4.
    replace (first_block s + N.of_nat (N.to_nat (n - first_block s)))%N with n in * by lia.
    by rewrite H1, H2, H3, H4.
  - intros i ev Hev. rewrite <- Hnew, list_lookup_fmap in Hev. destruct (new !! i) as [b|] eqn:Hb; [|done].
    injection Hev as <-. destruct (scripted_chain_at s' _ b Hs' (Hnew' i b Hb)) as [_ H2]. rewrite <- H2. f_equal. unfold cut. lia.
  - intros Hd Hevs0 Heq. assert (length (blocks s) ≠ 0) as Hpos by (by destruct (blocks s)).
    assert (0 < length evs) as Hpe by (destruct evs; [done|simpl; lia]).
    destruct (Hhashes 0 ltac:(lia) Hpe) as (salt & Hsalt & _ & _ & Hiff). rewrite N.add_0_r in Hiff.
    apply Hiff with (lane := 0) in Heq; [|unfold HASH_LANES; lia]. rewrite Nat.add_0_r in Heq.
    assert (parent_of (blocks s') keep = parent_of (blocks s) keep) as Hpar.
    { rewrite Hb', parent_of_app by lia. unfold parent_of. by rewrite take_take, Nat.min_id. }
    rewrite Hpar, N.lxor_nilpotent in Heq. symmetry in Heq. apply N.lxor_eq in Heq. lia.
Qed.

(** The state codec of the recording fold reads back what it wrote. *)
Lemma exact_chunks_bind {A B} (f : A → list B) n l :
  0 < n → Forall (λ x, length (f x) = n) l → exact_chunks n (l ≫= f) = f <$> l.
Proof.
  intros Hn Hl. unfold exact_chunks. induction Hl as [|x l Hx Hl IH]; [by rewrite Nat.Div0.div_0_l|].
  rewrite bind_cons, length_app, Hx. replace ((n + length (l ≫= f)) / n) with (S (length (l ≫= f) / n))
    by (rewrite <- (Nat.mul_1_l n) at 2; rewrite Nat.div_add_l by lia; lia).
  rewrite <- cons_seq, fmap_cons, <- fmap_S_seq, <- list_fmap_compose. rewrite fmap_cons, <- IH. f_equal.
  - unfold slice. by rewrite drop_0, take_app_length'.
  - apply list_fmap_ext. intros _ i _. unfold compose, slice. f_equal. rewrite drop_app_ge by lia. f_equal. lia.
Qed.

(** Events and positions that fit their widths, on a fold with no script, survive the state codec. *)
Theorem recording_state_roundtrip self :
  fail_at self = None → (N.of_nat (length (recorded self)) * N.of_nat ENTRY_LEN ≤ u64_max)%N →
  Forall (λ pe, block pe.1 ≤ u64_max ∧ log_index pe.1 ≤ u64_max ∧ pe.2 ≤ u64_max)%N (recorded self) →
  recording_decode_state (recording_encode_state self) = Ok self.
Proof.
  intros Hfail Hlen Hfit. destruct self as [rs fa]. cbn [recorded fail_at] in *. subst fa.
  set (f := λ pe : Position * N, le_bytes 8 (block pe.1) ++ le_bytes 8 (log_index pe.1) ++ le_bytes 8 pe.2).
  assert (∀ l, length (l ≫= f) = length l * ENTRY_LEN) as Hbind.
  { intros l. induction l as [|x l IH]; [done|]. rewrite bind_cons, length_app, IH. done. }
  unfold recording_decode_state, recording_encode_state. cbn [recorded]. fold f.
  rewrite length_app, length_le_bytes. rewrite (proj2 (Nat.ltb_ge _ _)) by lia.
  rewrite take_app_length', drop_app_length' by (by rewrite length_le_bytes).
  change ENTRY_LEN with 24 in *. rewrite le_value_bytes_small by (unfold u64_max in *; change (256 ^ N.of_nat 8)%N with 18446744073709551616%N; lia).
  rewrite (proj2 (N.ltb_ge _ _)) by lia. rewrite Hbind. rewrite (proj2 (N.eqb_eq _ _)) by lia. cbn [negb].
  do 2 f_equal. rewrite exact_chunks_bind by (lia || by apply Forall_true; intros []; done).
  rewrite <- list_fmap_compose. rewrite <- list_fmap_id. apply list_fmap_ext. intros i [[b j] ev] Hx.
  rewrite Forall_lookup in Hfit. specialize (Hfit i _ Hx). cbn [fst snd block log_index] in Hfit.
  unfold compose, f. cbn [fst snd block log_index].
  assert (∀ a b c : bytes, length a = 8 → length b = 8 → length c = 8 →
    slice (0 * 8) 8 (a ++ b ++ c) = a ∧ slice (1 * 8) 8 (a ++ b ++ c) = b ∧ slice (2 * 8) 8 (a ++ b ++ c) = c) as Hsl.
  { intros u v w Hu Hv Hw. unfold slice. split_and!.
    - by apply take_app_length'.
    - rewrite drop_app_length' by done. by apply take_app_length'.
    - rewrite app_assoc, drop_app_length' by (rewrite length_app; lia). by apply take_ge; lia. }
  destruct (Hsl (le_bytes 8 b) (le_bytes 8 j) (le_bytes 8 ev)) as (-> & -> & ->); try apply length_le_bytes.
  rewrite !le_value_bytes_small by (unfold u64_max in *; change (256 ^ N.of_nat 8)%N with 18446744073709551616%N; lia). done.
Qed.

(** ** An instance *)

Module ScriptedEx.
Definition short : ScriptedChain :=
  match push_all (scripted_new 1) [[7]; []; [8; 9]]%N with Returns s => s | Panics => scripted_new 1 end.
Definition forked : ScriptedChain :=
  match reorg short 2 [[5]; [6; 6]; []]%N with Returns s => s | Panics => short end.

Lemma short_serving : serving short.
Proof.
  destruct (push_all_spec [[7]; []; [8; 9]]%N (scripted_new 1) short) as (H & _).
  - apply scripted_new_wf.
  - repeat constructor; discriminate.
  - vm_compute. reflexivity.
  - split; [exact H|]. split; vm_compute; discriminate.
Qed.

(** Three blocks from number 1, of which the last two are replaced by three. *)
Lemma scripted_reorg_serves_witness :
  reorg short 2 [[5]; [6; 6]; []]%N = Returns forked ∧
  honest (scripted_chain forked) (λ s, s = forked) ∧ ch_head (scripted_chain forked) = 4%N ∧
  ch_logs (scripted_chain forked) 3 = [(0, 6); (1, 6)]%N ∧
  ch_hash (scripted_chain forked) 2 ≠ ch_hash (scripted_chain short) 2.
Proof.
  assert (reorg short 2 [[5]; [6; 6]; []]%N = Returns forked) as Hr by (vm_compute; reflexivity).
  destruct (scripted_reorg_serves short 2 [[5]; [6; 6]; []]%N forked short_serving) as (_ & H1 & H2 & _ & H3 & H4).
  - vm_compute. reflexivity.
  - repeat constructor; discriminate.
  - exact Hr.
  - vm_compute. discriminate.
  - vm_compute. discriminate.
  - split; [exact Hr|]. split; [exact H1|]. split; [exact H2|]. split; [exact (H3 1 [6; 6]%N eq_refl)|].
    destruct H4 as [H4 _]. apply H4; [lia|discriminate].
Defined.

(** Ten blocks, of which the last seven are replaced by six: the hashes of blocks 4 to 9 all change. *)
Definition ten : ScriptedChain :=
  match push_all (scripted_new 1) (replicate 10 []) with Returns s => s | Panics => scripted_new 1 end.

Lemma hashes_commit_to_ancestry :
  match reorg ten 7 (replicate 6 []) with
  | Returns s => (λ n, bool_decide (header s (N.of_nat n) = header ten (N.of_nat n))) <$> seq 1 9
  | Panics => []
  end = [true; true; true; false; false; false; false; false; false].
Proof. vm_compute. reflexivity. Qed.

Lemma recording_state_roundtrip_witness :
  let f := MkRecordingFold [(MkPosition 3 0, 7); (MkPosition 5 1, 9)]%N None in
  recording_decode_state (recording_encode_state f) = Ok f.
Proof. apply recording_state_roundtrip; [reflexivity|vm_compute; discriminate|repeat constructor; vm_compute; discriminate]. Defined.
End ScriptedEx.
