(* ===== verification/Gf16.v ===== *)
(** * The field GF(16) and its layouts

    [crates/binius-mayo/src/gf16/scalar.rs] and [params.rs]: the arithmetic of
    GF(16) = GF(2)[x]/(x^4 + x + 1) on nibbles, the packed layout of a 64-lane vector (sixteen
    nibbles to a word, as in MAYO-C) and its bitsliced layout (one word per bit of a nibble).
    The circuits of the crate are specified by these definitions, as its own tests do. *)
From S2P Require Import Prelude Word.
From Stdlib Require Import Lia Btauto.

(** ** Parameters of MAYO-2 *)

Definition N_vars : nat := 81.
Definition M_eqs : nat := 64.
Definition O_oil : nat := 17.
Definition V_vinegar : nat := N_vars - O_oil.
Definition K_whip : nat := 4.
Definition SALT_BYTES : nat := 24.
Definition PK_SEED_BYTES : nat := 16.
Definition S_BYTES : nat := K_whip * N_vars / 2.
Definition SIG_BYTES : nat := S_BYTES + SALT_BYTES.
Definition M_VEC_BYTES : nat := M_eqs / 2.
Definition P1_ENTRIES : nat := V_vinegar * (V_vinegar + 1) / 2.
Definition P2_ENTRIES : nat := V_vinegar * O_oil.
Definition P3_ENTRIES : nat := O_oil * (O_oil + 1) / 2.
Definition P1_BYTES : nat := P1_ENTRIES * M_VEC_BYTES.
Definition P2_BYTES : nat := P2_ENTRIES * M_VEC_BYTES.
Definition P3_BYTES : nat := P3_ENTRIES * M_VEC_BYTES.
Definition CPK_BYTES : nat := PK_SEED_BYTES + P3_BYTES.
Definition EXPANDED_PK_BYTES : nat := P1_BYTES + P2_BYTES + P3_BYTES.

#[global] Arguments N_vars : simpl never.
#[global] Arguments M_eqs : simpl never.
#[global] Arguments O_oil : simpl never.
#[global] Arguments V_vinegar : simpl never.
#[global] Arguments K_whip : simpl never.
#[global] Arguments P1_ENTRIES : simpl never.
#[global] Arguments P2_ENTRIES : simpl never.
#[global] Arguments P3_ENTRIES : simpl never.

(** ** Scalar arithmetic *)

(** A field element is a nibble in the low half of a [u8]. *)
Definition is_gf16 (v : N) : Prop := (v < 16)%N.

Definition gf_add (a b : N) : N := N.land (N.lxor a b) 0x0F.

Definition gf_mul (a b : N) : N :=
  let a := N.land a 0x0F in
  let b := N.land b 0x0F in
  let p := 0%N in
  let p := N.lxor p (u8_wrapping_mul (N.land (N.shiftr a 0) 1) b) in
  let p := N.lxor p (u8_wrapping_mul (N.land (N.shiftr a 1) 1) (u8_shl b 1)) in
  let p := N.lxor p (u8_wrapping_mul (N.land (N.shiftr a 2) 1) (u8_shl b 2)) in
  let p := N.lxor p (u8_wrapping_mul (N.land (N.shiftr a 3) 1) (u8_shl b 3)) in
  let top := N.land p 0xF0 in
  N.land (N.lxor (N.lxor p (N.shiftr top 4)) (N.shiftr top 3)) 0x0F.

#[global] Arguments gf_add : simpl never.
#[global] Arguments gf_mul : simpl never.

(** ** Layouts of a 64-lane vector *)

(** [pack_lanes]: nibble [16*w + k] goes to bits [4*k ..] of word [w]. *)
Definition pack_lane (out : arr4 N) (iv : nat * N) : arr4 N :=
  let (i, v) := iv in
  let w := i / 16 in
  let k := i mod 16 in
  arr4_alter (λ word, N.lor word (u64_shl (N.land v 0x0F) (N.of_nat (k * 4)))) w out.

Definition pack_lanes (lanes : list N) : arr4 N :=
  fold_left pack_lane (enumerate lanes) (Arr4 0 0 0 0)%N.

Definition unpack_lanes (packed : arr4 N) : list N :=
  pw ← arr4_list packed; (λ k, N.land (u64_shr pw (N.of_nat (k * 4))) 0x0F) <$> seq 0 16.

(** [lanes_to_bitsliced]: bit [b] of nibble [i] goes to bit [i] of plane [b]. *)
Definition bitslice_lane (planes : arr4 N) (iv : nat * N) : arr4 N :=
  let (i, v) := iv in
  arr4_from_fn (λ b, N.lor (arr4_get planes b)
    (u64_shl (N.land (N.shiftr v (N.of_nat b)) 1) (N.of_nat i))).

Definition lanes_to_bitsliced (lanes : list N) : arr4 N :=
  fold_left bitslice_lane (enumerate lanes) (Arr4 0 0 0 0)%N.

Definition bitsliced_to_lanes (planes : arr4 N) : list N :=
  (λ i, fold_left
    (λ v b, N.lor v (u8_shl (N.land (u64_shr (arr4_get planes b) (N.of_nat i)) 1) (N.of_nat b)))
    (seq 0 4) 0%N) <$> seq 0 64.

(** ** Nibbles and their bits *)

(** The nibble with the given bits, low to high. *)
Definition nibble (b0 b1 b2 b3 : bool) : N :=
  (N.b2n b0 + 2 * N.b2n b1 + 4 * N.b2n b2 + 8 * N.b2n b3)%N.

(** The nibble in the four low bits of [x]. *)
Definition low_nibble (x : N) : N :=
  nibble (N.testbit x 0) (N.testbit x 1) (N.testbit x 2) (N.testbit x 3).

Lemma nibble_gf16 b0 b1 b2 b3 : is_gf16 (nibble b0 b1 b2 b3).
Proof. unfold is_gf16. by destruct b0, b1, b2, b3. Qed.

(** Bit [b] of a nibble. *)
Lemma nibble_testbit b0 b1 b2 b3 (b : nat) :
  b < 4 → N.testbit (nibble b0 b1 b2 b3) (N.of_nat b) = arr4_get (Arr4 b0 b1 b2 b3) b.
Proof.
  intros Hb. destruct b as [|[|[|[|b]]]]; [..|lia]; by destruct b0, b1, b2, b3.
Qed.

Lemma nibble_inj b0 b1 b2 b3 c0 c1 c2 c3 :
  nibble b0 b1 b2 b3 = nibble c0 c1 c2 c3 → b0 = c0 ∧ b1 = c1 ∧ b2 = c2 ∧ b3 = c3.
Proof. by destruct b0, b1, b2, b3, c0, c1, c2, c3. Qed.

(** A field element is one of sixteen nibbles. *)
Lemma gf16_nibble v : is_gf16 v → ∃ b0 b1 b2 b3, v = nibble b0 b1 b2 b3.
Proof.
  unfold is_gf16. intros Hv.
  exists (N.testbit v 0), (N.testbit v 1), (N.testbit v 2), (N.testbit v 3).
  assert (v ∈ N.of_nat <$> seq 0 16) as Hin.
  { apply list_elem_of_fmap. exists (N.to_nat v). split; [lia|]. apply elem_of_seq. lia. }
  repeat (apply elem_of_cons in Hin as [->|Hin]; [done|]). by apply elem_of_nil in Hin.
Qed.

Lemma low_nibble_land x : N.land x 0x0F = low_nibble x.
Proof.
  destruct x as [|p]; [done|].
  destruct p as [[[[p|p|]|[p|p|]|]|[[p|p|]|[p|p|]|]|]|[[[p|p|]|[p|p|]|]|[[p|p|]|[p|p|]|]|]|]; done.
Qed.

Lemma low_nibble_gf16 v : is_gf16 v → low_nibble v = v.
Proof. intros (b0 & b1 & b2 & b3 & ->)%gf16_nibble. by destruct b0, b1, b2, b3. Qed.

(** The product of two nibbles, as the reduction of the schoolbook product of their bits. *)
Lemma gf_mul_nibble a0 a1 a2 a3 b0 b1 b2 b3 :
  gf_mul (nibble a0 a1 a2 a3) (nibble b0 b1 b2 b3) =
  let p0 := a0 && b0 in
  let p1 := xorb (a0 && b1) (a1 && b0) in
  let p2 := xorb (xorb (a0 && b2) (a1 && b1)) (a2 && b0) in
  let p3 := xorb (xorb (a0 && b3) (a1 && b2)) (xorb (a2 && b1) (a3 && b0)) in
  let p4 := xorb (xorb (a1 && b3) (a2 && b2)) (a3 && b1) in
  let p5 := xorb (a2 && b3) (a3 && b2) in
  let p6 := a3 && b3 in
  nibble (xorb p0 p4) (xorb p1 (xorb p4 p5)) (xorb p2 (xorb p5 p6)) (xorb p3 p6).
Proof. by destruct a0, a1, a2, a3, b0, b1, b2, b3. Qed.

Lemma gf_add_nibble a0 a1 a2 a3 b0 b1 b2 b3 :
  gf_add (nibble a0 a1 a2 a3) (nibble b0 b1 b2 b3) =
  nibble (xorb a0 b0) (xorb a1 b1) (xorb a2 b2) (xorb a3 b3).
Proof. by destruct a0, a1, a2, a3, b0, b1, b2, b3. Qed.

Lemma gf_add_gf16 a b : is_gf16 (gf_add a b).
Proof. unfold gf_add. rewrite low_nibble_land. apply nibble_gf16. Qed.
Lemma gf_mul_gf16 a b : is_gf16 (gf_mul a b).
Proof. unfold gf_mul. rewrite low_nibble_land. apply nibble_gf16. Qed.

(** Splits field elements into bits and checks the remaining cases by evaluation. *)
Ltac gf16_cases :=
  repeat match goal with
  | H : is_gf16 ?v |- _ =>
      let b0 := fresh "b" in let b1 := fresh "b" in let b2 := fresh "b" in let b3 := fresh "b" in
      apply gf16_nibble in H as (b0 & b1 & b2 & b3 & ->)
  end;
  rewrite ?gf_add_nibble, ?gf_mul_nibble; cbv zeta;
  repeat match goal with b : bool |- _ => destruct b end; reflexivity.

Lemma gf_add_comm a b : gf_add a b = gf_add b a.
Proof. unfold gf_add. by rewrite N.lxor_comm. Qed.
Lemma gf_add_0_l a : is_gf16 a → gf_add 0 a = a.
Proof. intros Ha. gf16_cases. Qed.
Lemma gf_add_assoc a b c : gf_add a (gf_add b c) = gf_add (gf_add a b) c.
Proof.
  unfold gf_add. apply N.bits_inj. intros i. autorewrite with testbit.
  by destruct (N.testbit a i), (N.testbit b i), (N.testbit c i), (N.testbit 15 i).
Qed.
Lemma gf_mul_0_r a : is_gf16 a → gf_mul a 0 = 0%N.
Proof. intros Ha. gf16_cases. Qed.

(** *** The field laws the quadratic map relies on *)

Lemma gf_mul_low a b : gf_mul a b = gf_mul (low_nibble a) (low_nibble b).
Proof.
  unfold gf_mul. rewrite !low_nibble_land.
  by rewrite !(low_nibble_gf16 (low_nibble _)) by apply nibble_gf16.
Qed.

Lemma low_nibble_add a b : low_nibble (gf_add a b) = gf_add (low_nibble a) (low_nibble b).
Proof.
  rewrite low_nibble_gf16 by apply gf_add_gf16. unfold low_nibble at 1 2. rewrite gf_add_nibble.
  unfold gf_add. rewrite low_nibble_land. unfold low_nibble. by rewrite !N.lxor_spec.
Qed.

Lemma gf_mul_add_r a b c : gf_mul a (gf_add b c) = gf_add (gf_mul a b) (gf_mul a c).
Proof.
  rewrite gf_mul_low, (gf_mul_low a b), (gf_mul_low a c), low_nibble_add. unfold low_nibble.
  rewrite gf_add_nibble, !gf_mul_nibble. cbv zeta. rewrite gf_add_nibble.
  generalize (N.testbit a 0), (N.testbit a 1), (N.testbit a 2), (N.testbit a 3),
    (N.testbit b 0), (N.testbit b 1), (N.testbit b 2), (N.testbit b 3),
    (N.testbit c 0), (N.testbit c 1), (N.testbit c 2), (N.testbit c 3). intros.
  f_equal; btauto.
Qed.

Definition gf_sum (l : list N) : N := foldr gf_add 0%N l.

Lemma gf_sum_gf16 l : is_gf16 (gf_sum l).
Proof. destruct l; [done|]. apply gf_add_gf16. Qed.

Lemma gf_mul_sum a l : gf_mul a (gf_sum l) = gf_sum (gf_mul a <$> l).
Proof.
  induction l as [|x l IH]; simpl.
  - rewrite gf_mul_low. apply gf_mul_0_r, nibble_gf16.
  - by rewrite gf_mul_add_r, IH.
Qed.

(** ** Lanes *)

(** Lane [i] of a bitsliced and of a packed vector. *)
Definition plane_lane (planes : arr4 N) (i : nat) : N :=
  let bit x := N.testbit x (N.of_nat i) in
  nibble (bit (at0 planes)) (bit (at1 planes)) (bit (at2 planes)) (bit (at3 planes)).
Definition packed_lane (packed : arr4 N) (i : nat) : N :=
  low_nibble (u64_shr (arr4_get packed (i / 16)) (N.of_nat (i mod 16 * 4))).

Lemma length_bitsliced_to_lanes p : length (bitsliced_to_lanes p) = 64.
Proof. unfold bitsliced_to_lanes. by rewrite length_fmap, length_seq. Qed.

Lemma land_1_testbit x : N.land x 1 = N.b2n (N.testbit x 0).
Proof. change 1%N with (N.ones 1). rewrite N.land_ones. by rewrite N.bit0_mod. Qed.

Lemma bitsliced_to_lanes_lookup p i :
  i < 64 → bitsliced_to_lanes p !! i = Some (plane_lane p i).
Proof.
  intros Hi. unfold bitsliced_to_lanes. rewrite list_lookup_fmap, lookup_seq_lt by done.
  cbn -[u64_shr u8_shl N.of_nat]. do 2 f_equal. unfold plane_lane. rewrite !land_1_testbit.
  rewrite !testbit_u64_shr, !N.add_0_l. cbn [N.of_nat Pos.of_succ_nat Pos.succ].
  by destruct (N.testbit (at0 p) _), (N.testbit (at1 p) _), (N.testbit (at2 p) _),
    (N.testbit (at3 p) _).
Qed.

Lemma lookup_bitsliced_to_lanes p i v :
  bitsliced_to_lanes p !! i = Some v → i < 64 ∧ v = plane_lane p i.
Proof.
  intros Hv. pose proof (lookup_lt_Some _ _ _ Hv) as Hi. rewrite length_bitsliced_to_lanes in Hi.
  rewrite bitsliced_to_lanes_lookup in Hv by done. by simplify_eq.
Qed.

Lemma length_unpack_lanes p : length (unpack_lanes p) = 64.
Proof. done. Qed.

Lemma unpack_lanes_lookup p i : i < 64 → unpack_lanes p !! i = Some (packed_lane p i).
Proof.
  intros Hi. unfold packed_lane. rewrite <- low_nibble_land.
  do 64 (destruct i as [|i]; [done|]). lia.
Qed.

(** Bit [i] of plane [b] is bit [b] of lane [i]. *)
Lemma lanes_to_bitsliced_testbit lanes b j :
  length lanes ≤ 64 → b < 4 →
  N.testbit (arr4_get (lanes_to_bitsliced lanes) b) j =
  N.testbit (default 0%N (lanes !! N.to_nat j)) (N.of_nat b).
Proof.
  intros Hlen Hb. unfold lanes_to_bitsliced. revert Hlen.
  induction lanes as [|v lanes IH] using rev_ind; intros Hlen.
  { by destruct b as [|[|[|[|b]]]]. }
  rewrite length_app in Hlen. simpl in Hlen.
  rewrite fold_enumerate_snoc. cbn -[arr4_get arr4_from_fn].
  assert (∀ f : nat → N, arr4_get (arr4_from_fn f) b = f b) as ->
    by (intros f; destruct b as [|[|[|[|b]]]]; [done..|lia]).
  rewrite N.lor_spec, IH, testbit_u64_shl, land_1_testbit, N.shiftr_spec', N.add_0_l by lia.
  destruct (N.leb_spec (N.of_nat (length lanes)) j) as [Hj|Hj]; cycle 1.
  { rewrite lookup_app_l by lia. by rewrite orb_false_r. }
  rewrite lookup_app_r, (lookup_ge_None_2 lanes) by lia. rewrite N.bits_0. cbn [orb andb].
  destruct (decide (j = N.of_nat (length lanes))) as [->|Hne].
  - rewrite Nat2N.id, Nat.sub_diag, N.sub_diag. destruct (N.ltb_spec (N.of_nat (length lanes)) 64); [|lia].
    simpl. by destruct (N.testbit v _).
  - rewrite (lookup_ge_None_2 [v]) by (simpl; lia). rewrite N.bits_0.
    assert (N.testbit (N.b2n (N.testbit v (N.of_nat b))) (j - N.of_nat (length lanes)) = false) as ->.
    { destruct (N.testbit v (N.of_nat b)); [|apply N.bits_0]. apply N.bits_above_log2. simpl. lia. }
    by rewrite andb_false_r.
Qed.

Lemma lanes_to_bitsliced_word lanes b :
  length lanes ≤ 64 → b < 4 → is_word (arr4_get (lanes_to_bitsliced lanes) b).
Proof.
  intros Hlen Hb. apply is_word_bits. intros i Hi. rewrite lanes_to_bitsliced_testbit by done.
  by rewrite lookup_ge_None_2 by lia.
Qed.

#[local] Arguments Nat.modulo : simpl never.
#[local] Arguments Nat.div : simpl never.

(** Bit [j] of packed word [w] is bit [j mod 4] of lane [16 w + j / 4]. *)
Lemma pack_lanes_testbit lanes w j :
  length lanes ≤ 64 → w < 4 → j < 64 →
  N.testbit (arr4_get (pack_lanes lanes) w) (N.of_nat j) =
  N.testbit (default 0%N (lanes !! (16 * w + j / 4))) (N.of_nat (j mod 4)).
Proof.
  intros Hlen Hw Hj. unfold pack_lanes. revert Hlen.
  induction lanes as [|v lanes IH] using rev_ind; intros Hlen.
  { by destruct w as [|[|[|[|w]]]]. }
  rewrite length_app in Hlen. simpl in Hlen. specialize (IH ltac:(lia)).
  rewrite fold_enumerate_snoc. set (out := fold_left _ _ _) in *. set (n := length lanes) in *.
  unfold pack_lane. assert (n / 16 < 4) as Hn by (apply Nat.Div0.div_lt_upper_bound; lia).
  pose proof (Nat.div_mod_eq n 16). pose proof (Nat.mod_upper_bound n 16 ltac:(lia)).
  pose proof (Nat.div_mod_eq j 4). pose proof (Nat.mod_upper_bound j 4 ltac:(lia)).
  rewrite arr4_get_alter by done. case_decide as Hwn.
  - rewrite N.lor_spec, testbit_u64_shl, IH.
    destruct (decide (n mod 16 = j / 4)) as [Hk|Hk].
    + replace (16 * w + j / 4) with n by lia. rewrite (lookup_ge_None_2 lanes) by done.
      rewrite lookup_app_r, Nat.sub_diag by lia. simpl.
      destruct (N.leb_spec (N.of_nat (n mod 16 * 4)) (N.of_nat j)); [|lia].
      destruct (N.ltb_spec (N.of_nat j) 64); [|lia].
      replace (N.of_nat j - N.of_nat (n mod 16 * 4))%N with (N.of_nat (j mod 4)) by lia.
      rewrite low_nibble_land. unfold low_nibble. rewrite nibble_testbit by done.
      destruct (j mod 4) as [|[|[|[|k]]]]; [done..|lia].
    + assert (u64_shl_bit : (N.of_nat (n mod 16 * 4) <=? N.of_nat j)%N && (N.of_nat j <? 64)%N &&
        N.testbit (N.land v 0x0F) (N.of_nat j - N.of_nat (n mod 16 * 4)) = false).
      { destruct (N.leb_spec (N.of_nat (n mod 16 * 4)) (N.of_nat j)); [|done].
        rewrite N.land_spec. change 15%N with (N.ones 4). rewrite N.ones_spec_high by lia.
        by rewrite !andb_false_r. }
      rewrite u64_shl_bit, orb_false_r.
      destruct (decide (16 * w + j / 4 < n)) as [Hlt|Hge].
      * by rewrite lookup_app_l by done.
      * rewrite !lookup_ge_None_2; rewrite ?length_app; simpl; fold n; (done || lia).
  - rewrite IH. destruct (decide (16 * w + j / 4 < n)) as [Hlt|Hge].
    + by rewrite lookup_app_l by done.
    + assert (16 * w + j / 4 ≠ n) by (intros Heq; apply Hwn; nia).
      rewrite !lookup_ge_None_2; rewrite ?length_app; simpl; fold n; (done || lia).
Qed.

Lemma pack_lanes_word lanes w : length lanes ≤ 64 → w < 4 → is_word (arr4_get (pack_lanes lanes) w).
Proof.
  intros Hlen Hw. apply is_word_bits. intros i Hi. unfold pack_lanes. revert Hlen.
  induction lanes as [|v lanes IH] using rev_ind; intros Hlen.
  { by destruct w as [|[|[|[|w]]]]. }
  rewrite length_app in Hlen. simpl in Hlen. rewrite fold_enumerate_snoc.
  set (out := fold_left _ _ _) in *. unfold pack_lane. rewrite arr4_get_alter; [|apply Nat.Div0.div_lt_upper_bound; lia|done].
  case_decide; [|apply IH; lia]. rewrite N.lor_spec, IH, testbit_u64_shl by lia.
  destruct (N.ltb_spec i 64); [lia|]. by rewrite andb_false_r.
Qed.

(** *** Vectors of lanes *)

(** A 64-lane vector over GF(16). *)
Definition is_mvec (l : list N) : Prop := length l = 64 ∧ Forall is_gf16 l.

Lemma plane_lane_gf16 p i : is_gf16 (plane_lane p i).
Proof. apply nibble_gf16. Qed.

Lemma plane_lane_testbit p i b :
  b < 4 → N.testbit (plane_lane p i) (N.of_nat b) = N.testbit (arr4_get p b) (N.of_nat i).
Proof.
  intros Hb. unfold plane_lane. cbv zeta. rewrite nibble_testbit by done.
  by destruct b as [|[|[|b]]].
Qed.

Lemma packed_lane_testbit p i b :
  b < 4 →
  N.testbit (packed_lane p i) (N.of_nat b) =
  N.testbit (arr4_get p (i / 16)) (N.of_nat (4 * (i mod 16) + b)).
Proof.
  intros Hb. unfold packed_lane, low_nibble. rewrite nibble_testbit by done.
  rewrite !testbit_u64_shr. destruct b as [|[|[|[|b]]]]; [..|lia]; simpl arr4_get; f_equal; lia.
Qed.

Lemma bitsliced_to_lanes_mvec p : is_mvec (bitsliced_to_lanes p).
Proof.
  split; [apply length_bitsliced_to_lanes|]. apply Forall_lookup. intros i v Hv.
  apply lookup_bitsliced_to_lanes in Hv as [_ ->]. apply plane_lane_gf16.
Qed.

Lemma unpack_lanes_mvec p : is_mvec (unpack_lanes p).
Proof.
  split; [done|]. apply Forall_lookup. intros i v Hv.
  pose proof (lookup_lt_Some _ _ _ Hv) as Hi. rewrite length_unpack_lanes in Hi.
  rewrite unpack_lanes_lookup in Hv by done. simplify_eq. apply nibble_gf16.
Qed.

(** Field elements are equal when their four bits are. *)
Lemma gf16_ext u v :
  is_gf16 u → is_gf16 v →
  (∀ b, b < 4 → N.testbit u (N.of_nat b) = N.testbit v (N.of_nat b)) → u = v.
Proof.
  intros (a0 & a1 & a2 & a3 & ->)%gf16_nibble (b0 & b1 & b2 & b3 & ->)%gf16_nibble H.
  pose proof (H 0 ltac:(lia)) as H0. pose proof (H 1 ltac:(lia)) as H1.
  pose proof (H 2 ltac:(lia)) as H2. pose proof (H 3 ltac:(lia)) as H3.
  rewrite !nibble_testbit in H0, H1, H2, H3 by lia. simpl in *. by subst.
Qed.

Lemma mvec_ext l k :
  is_mvec l → is_mvec k →
  (∀ i b, i < 64 → b < 4 → N.testbit (default 0%N (l !! i)) (N.of_nat b) =
                         N.testbit (default 0%N (k !! i)) (N.of_nat b)) → l = k.
Proof.
  intros [Hl Hlg] [Hk Hkg] H. apply list_eq_same_length with 64; [done..|].
  intros i u v Hi Hu Hv. apply gf16_ext; [exact (Forall_lookup_1 _ _ _ _ Hlg Hu)|exact (Forall_lookup_1 _ _ _ _ Hkg Hv)|].
  intros b Hb. specialize (H i b Hi Hb). by rewrite Hu, Hv in H.
Qed.

(** *** Round trips of the two layouts *)

Lemma bitsliced_lanes_inverse lanes :
  is_mvec lanes → bitsliced_to_lanes (lanes_to_bitsliced lanes) = lanes.
Proof.
  intros Hl. apply mvec_ext; [apply bitsliced_to_lanes_mvec|done|]. intros i b Hi Hb.
  rewrite bitsliced_to_lanes_lookup by done. simpl. rewrite plane_lane_testbit by done.
  rewrite lanes_to_bitsliced_testbit by (try done; by rewrite (proj1 Hl)). by rewrite Nat2N.id.
Qed.

Lemma packed_lanes_inverse lanes : is_mvec lanes → unpack_lanes (pack_lanes lanes) = lanes.
Proof.
  intros Hl. apply mvec_ext; [apply unpack_lanes_mvec|done|]. intros i b Hi Hb.
  rewrite unpack_lanes_lookup by done. simpl. rewrite packed_lane_testbit by done.
  assert (i / 16 < 4) by (apply Nat.Div0.div_lt_upper_bound; lia).
  pose proof (Nat.mod_upper_bound i 16 ltac:(lia)). pose proof (Nat.div_mod_eq i 16).
  rewrite pack_lanes_testbit by (try done; try lia; by rewrite (proj1 Hl)).
  replace (4 * (i mod 16) + b) with (b + i mod 16 * 4) by lia.
  rewrite Nat.div_add, Nat.Div0.mod_add, (Nat.div_small b), (Nat.mod_small b) by lia.
  by replace (16 * (i / 16) + (0 + i mod 16)) with i by lia.
Qed.

(** A bitsliced value is determined by its lanes. *)
Lemma bitsliced_to_lanes_inj p q :
  (∀ b, b < 4 → is_word (arr4_get p b)) → (∀ b, b < 4 → is_word (arr4_get q b)) →
  bitsliced_to_lanes p = bitsliced_to_lanes q → p = q.
Proof.
  intros Hp Hq H. apply arr4_ext. intros b Hb. apply word_ext; [by auto..|]. intros i Hi.
  assert (N.to_nat i < 64) as Hi' by lia.
  pose proof (bitsliced_to_lanes_lookup p _ Hi') as Hl. rewrite H in Hl.
  rewrite bitsliced_to_lanes_lookup in Hl by done. apply (inj Some) in Hl.
  rewrite <- (N2Nat.id i), <- !plane_lane_testbit by done. by rewrite Hl.
Qed.

(** Packing the lanes of four words gives them back. *)
Lemma pack_unpack_inverse p :
  (∀ w, w < 4 → is_word (arr4_get p w)) → pack_lanes (unpack_lanes p) = p.
Proof.
  intros Hp. apply arr4_ext. intros w Hw.
  apply word_ext; [by apply pack_lanes_word; [rewrite length_unpack_lanes|]|by auto|].
  intros i Hi. rewrite <- (N2Nat.id i).
  pose proof (Nat.div_mod_eq (N.to_nat i) 4).
  pose proof (Nat.mod_upper_bound (N.to_nat i) 4 ltac:(lia)).
  rewrite pack_lanes_testbit by (rewrite ?length_unpack_lanes; lia).
  rewrite unpack_lanes_lookup by lia. cbn [from_option id]. rewrite packed_lane_testbit by done.
  replace (16 * w + N.to_nat i / 4) with (N.to_nat i / 4 + w * 16) by lia.
  rewrite Nat.div_add, Nat.Div0.mod_add, (Nat.div_small (N.to_nat i / 4)),
    (Nat.mod_small (N.to_nat i / 4)) by lia.
  f_equal. lia.
Qed.
