(* ===== verification/Circuit.v ===== *)
(** * Circuits

    The interface [crates/binius-mayo] uses of the binius frontend (third-party code): a
    builder hands out wires and records gates, inputs and assertions; a valuation gives every
    wire a 64-bit word. [CircuitLaws] states the documented behaviour of the gates, of the
    inputs, of the assertions and of the evaluation of a circuit ([populate_wire_witness]).
    [computes] and [constrains] are the program logic in which the circuits are verified:
    what the wires a generator returns carry under every valuation that obeys its gates, and
    which condition on that valuation its assertions state. [netlist] is an instance. *)
From S2P Require Import Prelude Word.
From Stdlib Require Import Lia.

(** A circuit generator runs against a builder, which the code shares as [&CircuitBuilder]. *)
Definition Circ (B A : Type) : Type := B → A * B.

#[export] Instance circ_ret {B} : MRet (Circ B) := λ A x b, (x, b).
#[export] Instance circ_bind {B} : MBind (Circ B) := λ A A' k m b, let (x, b) := m b in k x b.

(** [for x in l { state = body(x, state) }]. *)
Fixpoint circ_for {B X S} (l : list X) (body : X → S → Circ B S) (s : S) : Circ B S :=
  match l with
  | [] => mret s
  | x :: l => s ← body x s; circ_for l body s
  end.

(** [iter.map(body).collect()]. *)
Fixpoint circ_map {B X A} (body : X → Circ B A) (l : list X) : Circ B (list A) :=
  match l with
  | [] => mret []
  | x :: l => y ← body x; ys ← circ_map body l; mret (y :: ys)
  end.

(** [core::array::from_fn] over four elements. *)
Definition circ_arr4 {B A} (body : nat → Circ B A) : Circ B (arr4 A) :=
  x0 ← body 0; x1 ← body 1; x2 ← body 2; x3 ← body 3; mret (Arr4 x0 x1 x2 x3).

(** The values of the wires of a circuit. *)
Abbreviation valuation W := (W → N).

(** [CircuitBuilder], with [subcircuit] left out: it only names a scope. [inout_wires] and
    [witness_wires] are in order of allocation. [consistent] says that a valuation obeys every
    gate and constant, [assertions] that it passes every [assert_eq]; a proof is accepted for
    valuations that do both. [populate_wire_witness] evaluates the gates from the inputs. *)
Class CircuitBuilder (B W : Type) := {
  new_builder : B;
  add_witness : Circ B W;
  add_inout : Circ B W;
  add_constant : N → Circ B W;
  band : W → W → Circ B W;
  bxor : W → W → Circ B W;
  bxor_multi : list W → Circ B W;
  fax : W → W → W → Circ B W;
  shl : W → N → Circ B W;
  shr : W → N → Circ B W;
  sar : W → N → Circ B W;
  wire_assert_eq : W → W → Circ B ();
  inout_wires : B → list W;
  witness_wires : B → list W;
  consistent : B → valuation W → Prop;
  assertions : B → valuation W → Prop;
  populate_wire_witness : B → valuation W → valuation W;
}.

Section gates.
Context {B W : Type} `{CircuitBuilder B W}.

(** A gate defines the value of its output wire and asserts nothing. *)
Record gate (m : Circ B W) (f : valuation W → N) : Prop := {
  gate_inout b : inout_wires (m b).2 = inout_wires b;
  gate_witness b : witness_wires (m b).2 = witness_wires b;
  gate_value b a : consistent (m b).2 a → consistent b a ∧ a (m b).1 = f a;
  gate_assertions b a : assertions (m b).2 a ↔ assertions b a;
}.

(** A new input: no gate, no assertion, a wire that is no input yet. *)
Record input (m : Circ B W) : Prop := {
  input_fresh b : (m b).1 ∉ inout_wires b ++ witness_wires b;
  input_value b a : consistent (m b).2 a → consistent b a;
  input_assertions b a : assertions (m b).2 a ↔ assertions b a;
}.
End gates.

Class CircuitLaws (B W : Type) `{CircuitBuilder B W} : Prop := {
  new_inouts : inout_wires new_builder = [];
  new_witnesses : witness_wires new_builder = [];
  new_assertions a : assertions new_builder a;
  consistent_words b a w : consistent b a → is_word (a w);
  add_witness_input : input add_witness;
  add_witness_wires b : inout_wires (add_witness b).2 = inout_wires b ∧
    witness_wires (add_witness b).2 = witness_wires b ++ [(add_witness b).1];
  add_inout_input : input add_inout;
  add_inout_wires b : inout_wires (add_inout b).2 = inout_wires b ++ [(add_inout b).1] ∧
    witness_wires (add_inout b).2 = witness_wires b;
  add_constant_gate c : is_word c → gate (add_constant c) (λ _, c);
  band_gate x y : gate (band x y) (λ a, N.land (a x) (a y));
  bxor_gate x y : gate (bxor x y) (λ a, N.lxor (a x) (a y));
  bxor_multi_gate xs : gate (bxor_multi xs) (λ a, foldr N.lxor 0%N (a <$> xs));
  fax_gate x y z : gate (fax x y z) (λ a, N.lxor (N.land (a x) (a y)) (a z));
  shl_gate x n : (n < 64)%N → gate (shl x n) (λ a, u64_shl (a x) n);
  shr_gate x n : (n < 64)%N → gate (shr x n) (λ a, u64_shr (a x) n);
  sar_gate x n : (n < 64)%N → gate (sar x n) (λ a, u64_sar (a x) n);
  wire_assert_eq_wires x y b : inout_wires (wire_assert_eq x y b).2 = inout_wires b ∧
    witness_wires (wire_assert_eq x y b).2 = witness_wires b;
  wire_assert_eq_consistent x y b a : consistent (wire_assert_eq x y b).2 a → consistent b a;
  wire_assert_eq_assertions x y b a :
    assertions (wire_assert_eq x y b).2 a ↔ assertions b a ∧ a x = a y;
  populate_consistent b i : (∀ w, is_word (i w)) → consistent b (populate_wire_witness b i);
  populate_inputs b i w :
    w ∈ inout_wires b ++ witness_wires b → populate_wire_witness b i w = i w;
}.

(** ** Generators that only emit gates *)

Section shape.
Context {B W : Type} `{CircuitBuilder B W}.

(** A generator only adds constraints. *)
Definition grows {A} (m : Circ B A) : Prop := ∀ b a, consistent (m b).2 a → consistent b a.

(** A generator that allocates no input. *)
Definition input_free {A} (m : Circ B A) : Prop :=
  ∀ b, inout_wires (m b).2 = inout_wires b ∧ witness_wires (m b).2 = witness_wires b.

(** A generator that asserts nothing. *)
Definition silent {A} (m : Circ B A) : Prop :=
  ∀ b a, assertions (m b).2 a ↔ assertions b a.

(** A generator that does neither. *)
Definition gates_only {A} (m : Circ B A) : Prop := grows m ∧ input_free m ∧ silent m.

(** A generator whose result satisfies [R] whatever the wires carry. *)
Definition returns {A} (m : Circ B A) (R : A → Prop) : Prop := ∀ b, R (m b).1.

(** A generator that allocates the inputs [ws], with [R result ws]. *)
Definition allocates {A} (m : Circ B A) (R : A → list W → Prop) : Prop := ∀ b, ∃ ws,
  inout_wires (m b).2 ++ witness_wires (m b).2 ≡ₚ (inout_wires b ++ witness_wires b) ++ ws ∧
  (NoDup (inout_wires b ++ witness_wires b) →
   NoDup (inout_wires (m b).2 ++ witness_wires (m b).2)) ∧ R (m b).1 ws.

Lemma grows_ret {A} (x : A) : grows (mret x).
Proof. by intros b a. Qed.
Lemma grows_bind {A A'} (m : Circ B A) (k : A → Circ B A') :
  grows m → (∀ x, grows (k x)) → grows (m ≫= k).
Proof.
  intros Hm Hk b a. unfold mbind, circ_bind. specialize (Hm b a).
  destruct (m b) as [x b1]. intros Hb. by apply Hm, (Hk x).
Qed.

Lemma input_free_ret {A} (x : A) : input_free (mret x).
Proof. by intros b. Qed.
Lemma input_free_bind {A A'} (m : Circ B A) (k : A → Circ B A') :
  input_free m → (∀ x, input_free (k x)) → input_free (m ≫= k).
Proof.
  intros Hm Hk b. unfold mbind, circ_bind. destruct (Hm b) as [Hi Ho].
  destruct (m b) as [x b1]. simpl in *. rewrite <- Hi, <- Ho. apply Hk.
Qed.

Lemma silent_ret {A} (x : A) : silent (mret x).
Proof. by intros b a. Qed.
Lemma silent_bind {A A'} (m : Circ B A) (k : A → Circ B A') :
  silent m → (∀ x, silent (k x)) → silent (m ≫= k).
Proof.
  intros Hm Hk b a. unfold mbind, circ_bind. specialize (Hm b a). destruct (m b) as [x b1].
  simpl in Hm. rewrite <- Hm. apply Hk.
Qed.

Lemma returns_ret {A} (x : A) (R : A → Prop) : R x → returns (mret x) R.
Proof. by intros HR b. Qed.
Lemma returns_bind {A A'} (m : Circ B A) (k : A → Circ B A') R S :
  returns m R → (∀ x, R x → returns (k x) S) → returns (m ≫= k) S.
Proof.
  intros Hm Hk b. unfold mbind, circ_bind. specialize (Hm b). destruct (m b) as [x b1].
  by apply Hk.
Qed.
Lemma returns_any {A} (m : Circ B A) : returns m (λ _, True).
Proof. done. Qed.
Lemma returns_for {X S} (l : list X) (body : X → S → Circ B S) (I : S → Prop) s :
  (∀ x s, I s → returns (body x s) I) → I s → returns (circ_for l body s) I.
Proof.
  intros Hb. revert s. induction l as [|x l IH]; intros s Hs; [by apply returns_ret|].
  eapply returns_bind; [by apply Hb|]. intros s' Hs'. by apply IH.
Qed.
Lemma returns_map {X A} (body : X → Circ B A) (R : A → Prop) l :
  (∀ x, x ∈ l → returns (body x) R) →
  returns (circ_map body l) (λ r, length r = length l ∧ Forall R r).
Proof.
  intros Hb. induction l as [|x l IH]; [by apply returns_ret|].
  eapply returns_bind; [apply Hb; by left|intros y Hy].
  eapply returns_bind; [apply IH; intros; apply Hb; by right|intros ys [Hlen Hys]].
  apply returns_ret. simpl. split; [by rewrite Hlen|by constructor].
Qed.

Lemma allocates_ret {A} (x : A) (R : A → list W → Prop) : R x [] → allocates (mret x) R.
Proof. intros HR b. exists []. by rewrite app_nil_r. Qed.
Lemma allocates_bind {A A'} (m : Circ B A) (k : A → Circ B A') R (S : A' → list W → Prop) :
  allocates m R → (∀ x ws, R x ws → allocates (k x) (λ y us, S y (ws ++ us))) →
  allocates (m ≫= k) S.
Proof.
  intros Hm Hk b. unfold mbind, circ_bind. destruct (Hm b) as (ws & Hws & Hnd & HR).
  destruct (m b) as [x b1]. simpl in *. destruct (Hk x ws HR b1) as (us & Hus & Hnd' & HS).
  exists (ws ++ us). split; [|split]; [|tauto|done]. by rewrite Hus, Hws, app_assoc.
Qed.
Lemma allocates_mono {A} (m : Circ B A) (R S : A → list W → Prop) :
  allocates m R → (∀ x ws, R x ws → S x ws) → allocates m S.
Proof. intros Hm HRS b. destruct (Hm b) as (ws & ? & ? & ?). exists ws. auto. Qed.
Lemma allocates_input_free {A} (m : Circ B A) (R : A → list W → Prop) :
  input_free m → returns m (λ x, R x []) → allocates m R.
Proof. intros Hm HR b. exists []. destruct (Hm b) as [-> ->]. rewrite app_nil_r. auto. Qed.
Lemma allocates_map {X A} (body : X → Circ B A) (R : A → list W → Prop) l :
  (∀ x, x ∈ l → allocates (body x) R) →
  allocates (circ_map body l) (λ r ws, length r = length l ∧ ∃ wss, ws = concat wss ∧ Forall2 R r wss).
Proof.
  intros Hb. induction l as [|x l IH].
  { apply allocates_ret. split; [done|]. by exists []. }
  eapply allocates_bind; [apply Hb; by left|intros y ws Hy].
  eapply allocates_bind; [apply IH; intros; apply Hb; by right|intros ys us (Hlen & wss & -> & Hys)].
  apply allocates_ret. simpl. split; [by rewrite Hlen|]. exists (ws :: wss).
  split; [by rewrite app_nil_r|by constructor].
Qed.

Lemma gates_only_ret {A} (x : A) : gates_only (mret x).
Proof. split; [apply grows_ret|]. split; [apply input_free_ret|done]. Qed.
Lemma gates_only_bind {A A'} (m : Circ B A) (k : A → Circ B A') :
  gates_only m → (∀ x, gates_only (k x)) → gates_only (m ≫= k).
Proof.
  intros (Hg & Hi & Ha) Hk. split; [|split].
  - apply grows_bind; [done|]. intros x. apply Hk.
  - apply input_free_bind; [done|]. intros x. apply Hk.
  - apply silent_bind; [done|]. intros x. apply Hk.
Qed.

Lemma gates_only_silent {A} (m : Circ B A) : gates_only m → silent m.
Proof. by intros (_ & _ & ?). Qed.
Lemma gates_only_grows {A} (m : Circ B A) : gates_only m → grows m.
Proof. by intros [? _]. Qed.
Lemma gates_only_input_free {A} (m : Circ B A) : gates_only m → input_free m.
Proof. by intros (_ & ? & _). Qed.

Lemma gates_only_for {X S} (l : list X) (body : X → S → Circ B S) s :
  (∀ x s, gates_only (body x s)) → gates_only (circ_for l body s).
Proof.
  intros Hb. revert s. induction l as [|x l IH]; intros s; [apply gates_only_ret|].
  apply gates_only_bind; auto.
Qed.

Lemma grows_for {X S} (l : list X) (body : X → S → Circ B S) s :
  (∀ x s, grows (body x s)) → grows (circ_for l body s).
Proof.
  intros Hb. revert s. induction l as [|x l IH]; intros s; [apply grows_ret|].
  apply grows_bind; auto.
Qed.

Lemma grows_arr4 {A} (body : nat → Circ B A) : (∀ i, grows (body i)) → grows (circ_arr4 body).
Proof. intros Hb. unfold circ_arr4. repeat (apply grows_bind; [done|]; intros ?). apply grows_ret. Qed.

Lemma silent_map {X A} (body : X → Circ B A) l :
  (∀ x, silent (body x)) → silent (circ_map body l).
Proof.
  intros Hb. induction l as [|x l IH]; [apply silent_ret|].
  apply silent_bind; [done|]. intros y. apply silent_bind; [done|]. intros ys. apply silent_ret.
Qed.

Lemma silent_arr4 {A} (body : nat → Circ B A) : (∀ i, silent (body i)) → silent (circ_arr4 body).
Proof. intros Hb. unfold circ_arr4. repeat (apply silent_bind; [done|]; intros ?). apply silent_ret. Qed.

Lemma allocates_arr4 (body : nat → Circ B W) :
  (∀ i, allocates (body i) (λ w ws, ws = [w])) →
  allocates (circ_arr4 body) (λ r ws, ws = arr4_list r).
Proof.
  intros Hb. unfold circ_arr4. do 4 (eapply allocates_bind; [apply Hb|intros ? ? ->]).
  by apply allocates_ret.
Qed.

Lemma grows_map {X A} (body : X → Circ B A) l : (∀ x, grows (body x)) → grows (circ_map body l).
Proof.
  intros Hb. induction l as [|x l IH]; [apply grows_ret|].
  apply grows_bind; [done|]. intros y. apply grows_bind; [done|]. intros ys. apply grows_ret.
Qed.

Lemma gates_only_map {X A} (body : X → Circ B A) l :
  (∀ x, gates_only (body x)) → gates_only (circ_map body l).
Proof.
  intros Hb. induction l as [|x l IH]; [apply gates_only_ret|].
  apply gates_only_bind; [done|]. intros y. apply gates_only_bind; [done|]. intros ys.
  apply gates_only_ret.
Qed.

Lemma gates_only_arr4 {A} (body : nat → Circ B A) :
  (∀ i, i < 4 → gates_only (body i)) → gates_only (circ_arr4 body).
Proof.
  intros Hb. unfold circ_arr4. repeat (apply gates_only_bind; [apply Hb; lia|]; intros ?).
  apply gates_only_ret.
Qed.

Lemma gates_only_gate m f : gate m f → gates_only m.
Proof.
  intros [Hi Ho Hv Ha]. split; [|split]; [|done..]. intros b a Hb. by apply (Hv b a).
Qed.
End shape.

(** ** What generators compute *)

Section logic.
Context {B W : Type} `{CircuitBuilder B W} (a : valuation W).

(** What [m] returns satisfies [R] if the valuation obeys the gates. *)
Definition computes {A} (m : Circ B A) (R : A → Prop) : Prop :=
  ∀ b, consistent (m b).2 a → R (m b).1.

(** The assertions of [m] hold exactly when some [C] with [R x C] does, [x] the result. *)
Definition constrains {A} (m : Circ B A) (R : A → Prop → Prop) : Prop :=
  ∀ b, consistent (m b).2 a →
  ∃ C : Prop, (assertions (m b).2 a ↔ assertions b a ∧ C) ∧ R (m b).1 C.

Lemma computes_ret {A} (x : A) (R : A → Prop) : R x → computes (mret x) R.
Proof. by intros HR b Hb. Qed.

Lemma computes_bind_grows {A A'} (m : Circ B A) (k : A → Circ B A') R S :
  (∀ x, grows (k x)) → computes m R → (∀ x, R x → computes (k x) S) → computes (m ≫= k) S.
Proof.
  intros Hg Hm Hk b. unfold mbind, circ_bind. specialize (Hm b). destruct (m b) as [x b1].
  intros Hb. apply Hk; [|done]. apply Hm. by apply (Hg x).
Qed.

Lemma computes_bind {A A'} (m : Circ B A) (k : A → Circ B A') R S :
  (∀ x, gates_only (k x)) → computes m R → (∀ x, R x → computes (k x) S) →
  computes (m ≫= k) S.
Proof. intros Hg. apply computes_bind_grows. intros x. by apply gates_only_grows. Qed.

Lemma computes_and {A} (m : Circ B A) (R S : A → Prop) :
  computes m R → returns m S → computes m (λ x, R x ∧ S x).
Proof. intros HR HS b Hb. split; [by apply HR|apply HS]. Qed.

Lemma computes_returns {A} (m : Circ B A) (R : A → Prop) : returns m R → computes m R.
Proof. intros Hm b _. apply Hm. Qed.

Lemma computes_mono {A} (m : Circ B A) (R S : A → Prop) :
  computes m R → (∀ x, R x → S x) → computes m S.
Proof. intros Hm HRS b Hb. by apply HRS, Hm. Qed.

Lemma computes_gate m f : gate m f → computes m (λ w, a w = f a).
Proof. intros [_ _ Hv _] b Hb. by apply Hv. Qed.

(** A loop computes the fold its body computes a step of. *)
Lemma computes_for {X S T} (l : list X) (body : X → S → Circ B S) (step : T → X → T)
    (rel : S → T → Prop) s t :
  (∀ x s, gates_only (body x s)) →
  (∀ x s t, x ∈ l → rel s t → computes (body x s) (λ s', rel s' (step t x))) →
  rel s t → computes (circ_for l body s) (λ s', rel s' (fold_left step l t)).
Proof.
  intros Hg. revert s t. induction l as [|x l IH]; intros s t Hbody Hst; simpl.
  { by apply computes_ret. }
  eapply computes_bind.
  - intros s'. by apply gates_only_for.
  - apply Hbody, Hst. by left.
  - intros s' Hs'. apply IH; [|done]. intros y s'' t' Hy. apply Hbody. by right.
Qed.

Lemma computes_map_grows {X A} (body : X → Circ B A) (R : X → A → Prop) l :
  (∀ x, grows (body x)) → (∀ x, x ∈ l → computes (body x) (R x)) →
  computes (circ_map body l) (Forall2 R l).
Proof.
  intros Hg Hb. induction l as [|x l IH]; simpl; [by apply computes_ret|].
  eapply computes_bind_grows; [|apply Hb; by left|intros y Hy].
  { intros y. apply grows_bind; [by apply grows_map|]. intros ys. apply grows_ret. }
  eapply computes_bind_grows; [intros ys; apply grows_ret|apply IH; intros; apply Hb; by right|].
  intros ys Hys. apply computes_ret. by constructor.
Qed.

Lemma computes_arr4 {A} (body : nat → Circ B A) (R : nat → A → Prop) :
  (∀ i, i < 4 → gates_only (body i)) → (∀ i, i < 4 → computes (body i) (R i)) →
  computes (circ_arr4 body) (λ r, ∀ i, i < 4 → R i (arr4_get r i)).
Proof.
  intros Hg Hb. unfold circ_arr4.
  repeat (eapply computes_bind;
    [intros; repeat (apply gates_only_bind; [apply Hg; lia|]; intros ?); apply gates_only_ret
    |apply Hb; lia|intros ? ?]).
  apply computes_ret. intros i Hi. by destruct i as [|[|[|[|i]]]]; [..|lia].
Qed.

Lemma computes_map {X A} (body : X → Circ B A) (R : X → A → Prop) l :
  (∀ x, gates_only (body x)) → (∀ x, x ∈ l → computes (body x) (R x)) →
  computes (circ_map body l) (Forall2 R l).
Proof. intros Hg. apply computes_map_grows. intros x. by apply gates_only_grows. Qed.

Lemma constrains_ret {A} (x : A) (R : A → Prop → Prop) : R x True → constrains (mret x) R.
Proof. intros HR b Hb. exists True. split; [tauto|done]. Qed.

(** A generator that asserts nothing, then one that may. *)
Lemma constrains_silent {A A'} (m : Circ B A) (k : A → Circ B A') R S :
  silent m → (∀ x, grows (k x)) → computes m R → (∀ x, R x → constrains (k x) S) →
  constrains (m ≫= k) S.
Proof.
  intros Ha Hg Hm Hk b. unfold mbind, circ_bind. specialize (Hm b). specialize (Ha b a).
  destruct (m b) as [x b1]. simpl in *. intros Hb.
  assert (consistent b1 a) as Hb1 by (by apply (Hg x)). destruct (Hk x (Hm Hb1) b1 Hb) as (C & HC & HS).
  exists C. split; [|done]. by rewrite HC, Ha.
Qed.

Lemma constrains_mono {A} (m : Circ B A) (R S : A → Prop → Prop) :
  constrains m R → (∀ x C, R x C → S x C) → constrains m S.
Proof. intros Hm HRS b Hb. destruct (Hm b Hb) as (C & HC & HR). exists C. auto. Qed.

Lemma constrains_bind_returns {A A'} (m : Circ B A) (k : A → Circ B A') R0 R S T :
  (∀ x, grows (k x)) → returns m R0 → constrains m R → (∀ x, R0 x → constrains (k x) S) →
  (∀ x C y D, R x C → S y D → T y (C ∧ D)) → constrains (m ≫= k) T.
Proof.
  intros Hg Hm0 Hm Hk HT b. unfold mbind, circ_bind. specialize (Hm b). specialize (Hm0 b).
  destruct (m b) as [x b1]. simpl in *. intros Hb.
  assert (consistent b1 a) as Hb1 by (by apply (Hg x)).
  destruct (Hm Hb1) as (C & HC & HR). destruct (Hk x Hm0 b1 Hb) as (D & HD & HS).
  exists (C ∧ D). split; [|by eapply HT]. rewrite HD, HC. tauto.
Qed.

Lemma constrains_bind {A A'} (m : Circ B A) (k : A → Circ B A') R S T :
  (∀ x, grows (k x)) → constrains m R → (∀ x, constrains (k x) (S x)) →
  (∀ x C y D, R x C → S x y D → T y (C ∧ D)) → constrains (m ≫= k) T.
Proof.
  intros Hg Hm Hk HT b. unfold mbind, circ_bind. specialize (Hm b). destruct (m b) as [x b1].
  simpl in *. intros Hb. assert (consistent b1 a) as Hb1 by (by apply (Hg x)).
  destruct (Hm Hb1) as (C & HC & HR). destruct (Hk x b1 Hb) as (D & HD & HS).
  exists (C ∧ D). split; [|by eapply HT]. rewrite HD, HC. tauto.
Qed.
End logic.

(** ** The gates *)

Create HintDb gates discriminated.
#[export] Hint Resolve gates_only_ret gates_only_arr4 gates_only_map gates_only_for : gates.
#[export] Hint Extern 2 (gates_only (_ ≫= _)) => apply gates_only_bind; [|intro] : gates.
#[export] Hint Extern 1 (gates_only (let '_ := ?x in _)) => destruct x : gates.

Section gate_rules.
Context {B W : Type} `{CircuitLaws B W}.

Lemma gates_only_constant c : is_word c → gates_only (add_constant c).
Proof. intros Hc. by eapply gates_only_gate, add_constant_gate. Qed.
Lemma gates_only_band x y : gates_only (band x y).
Proof. eapply gates_only_gate, band_gate. Qed.
Lemma gates_only_bxor x y : gates_only (bxor x y).
Proof. eapply gates_only_gate, bxor_gate. Qed.
Lemma gates_only_bxor_multi xs : gates_only (bxor_multi xs).
Proof. eapply gates_only_gate, bxor_multi_gate. Qed.
Lemma gates_only_fax x y z : gates_only (fax x y z).
Proof. eapply gates_only_gate, fax_gate. Qed.
Lemma gates_only_shl x n : (n < 64)%N → gates_only (shl x n).
Proof. intros Hn. by eapply gates_only_gate, shl_gate. Qed.
Lemma gates_only_shr x n : (n < 64)%N → gates_only (shr x n).
Proof. intros Hn. by eapply gates_only_gate, shr_gate. Qed.
Lemma gates_only_sar x n : (n < 64)%N → gates_only (sar x n).
Proof. intros Hn. by eapply gates_only_gate, sar_gate. Qed.

Lemma grows_witness : grows add_witness.
Proof. intros b a. apply add_witness_input. Qed.
Lemma grows_inout : grows add_inout.
Proof. intros b a. apply add_inout_input. Qed.
Lemma silent_witness : silent add_witness.
Proof. intros b a. apply add_witness_input. Qed.
Lemma silent_inout : silent add_inout.
Proof. intros b a. apply add_inout_input. Qed.

Lemma allocates_witness : allocates add_witness (λ w ws, ws = [w]).
Proof.
  intros b. exists [(add_witness b).1]. destruct (add_witness_wires b) as [-> ->].
  pose proof (input_fresh _ add_witness_input b) as Hfresh. split; [by rewrite app_assoc|].
  split; [|done]. rewrite app_assoc. intros Hnd. apply NoDup_app. split; [done|]. split.
  - by intros x Hx ->%list_elem_of_singleton.
  - apply NoDup_singleton.
Qed.
Lemma allocates_inout : allocates add_inout (λ w ws, ws = [w]).
Proof.
  intros b. exists [(add_inout b).1]. destruct (add_inout_wires b) as [-> ->].
  pose proof (input_fresh _ add_inout_input b) as Hfresh.
  assert ((inout_wires b ++ [(add_inout b).1]) ++ witness_wires b ≡ₚ
    (inout_wires b ++ witness_wires b) ++ [(add_inout b).1]) as Hp by solve_Permutation.
  split; [done|]. split; [|done]. intros Hnd. rewrite Hp. apply NoDup_app. split; [done|]. split.
  - by intros x Hx ->%list_elem_of_singleton.
  - apply NoDup_singleton.
Qed.

Lemma grows_assert_eq x y : grows (wire_assert_eq x y).
Proof. intros b a. apply wire_assert_eq_consistent. Qed.

Lemma constrains_assert_eq a x y :
  constrains a (wire_assert_eq x y) (λ _ C, C ↔ a x = a y).
Proof. intros b Hb. exists (a x = a y). split; [apply wire_assert_eq_assertions|done]. Qed.

(** Asserting that two arrays of wires are equal. *)
Lemma constrains_assert_arr4 a (x y : arr4 W) :
  constrains a (circ_for (seq 0 4) (λ i _, wire_assert_eq (arr4_get x i) (arr4_get y i)) ())
    (λ _ C, C ↔ arr4_map a x = arr4_map a y).
Proof.
  eapply constrains_mono with (λ _ C, C ↔ a (at0 x) = a (at0 y) ∧ a (at1 x) = a (at1 y) ∧
    a (at2 x) = a (at2 y) ∧ a (at3 x) = a (at3 y) ∧ True).
  - assert (∀ (k : () → Circ B ()) R (x y : W), (∀ u, grows (k u)) → (∀ u, constrains a (k u) (λ _ C, C ↔ R)) →
      constrains a (wire_assert_eq x y ≫= k) (λ _ C, C ↔ a x = a y ∧ R)) as Hstep.
    { intros k R x' y' Hg Hk. eapply constrains_bind; [done|apply constrains_assert_eq|exact Hk|].
      cbv beta. intros _ C _ D -> ->. done. }
    assert (∀ l u, grows (circ_for l (λ i _, wire_assert_eq (arr4_get x i) (arr4_get y i)) u))
      as Hgrows by (intros; apply grows_for; intros; apply grows_assert_eq).
    cbn [seq circ_for]. do 4 (apply Hstep; [apply (Hgrows [_; _; _]) || apply (Hgrows [_; _]) ||
      apply (Hgrows [_]) || apply (Hgrows [])|intros []]).
    apply constrains_ret. tauto.
  - cbv beta. intros _ C ->. unfold arr4_map. split; [by intros (-> & -> & -> & -> & _)|].
    by intros [= -> -> -> ->].
Qed.

(** The wires of a circuit carry words. *)
Lemma computes_words {A} a (m : Circ B A) R :
  ((∀ w, is_word (a w)) → computes a m R) → computes a m R.
Proof.
  intros Hm b Hb. apply Hm; [|done]. intros w. by eapply consistent_words.
Qed.

Lemma constrains_words {A} a (m : Circ B A) R :
  ((∀ w, is_word (a w)) → constrains a m R) → constrains a m R.
Proof.
  intros Hm b Hb. apply Hm; [|done]. intros w. by eapply consistent_words.
Qed.
End gate_rules.

#[export] Hint Resolve gates_only_band gates_only_bxor gates_only_bxor_multi gates_only_fax : gates.
#[export] Hint Extern 2 (gates_only (add_constant _)) => apply gates_only_constant; done : gates.
#[export] Hint Extern 2 (gates_only (shl _ _)) => apply gates_only_shl; lia : gates.
#[export] Hint Extern 2 (gates_only (shr _ _)) => apply gates_only_shr; lia : gates.
#[export] Hint Extern 2 (gates_only (sar _ _)) => apply gates_only_sar; lia : gates.

(** Shows that a generator only emits gates. *)
Ltac gates := solve [eauto 100 with gates nocore].

(** One gate of a straight-line generator: its value is recorded. *)
Ltac gate_step :=
  eapply computes_bind;
  [intros; gates
  |eapply computes_gate;
   first [apply band_gate | apply bxor_gate | apply bxor_multi_gate | apply fax_gate
         |apply shl_gate; lia | apply shr_gate; lia | apply sar_gate; lia
         |apply add_constant_gate; done]
  |let w := fresh "w" in let Hw := fresh "Hw" in intros w Hw; cbv beta in Hw].

(** Replaces the wires of a circuit by the recorded values of their gates. *)
Ltac wire_values :=
  repeat match goal with Hw : ?a ?w = _ |- context [?a ?w] => is_var w; rewrite Hw end.

(** ** A netlist *)

(** Wires are expressions over the inputs; a builder lists its inputs (in order of allocation,
    [true] for [add_inout]), the gates it has emitted and the assertions. *)
Module Netlist.
Inductive wire :=
| Input (n : nat)
| Constant (c : N)
| And (x y : wire)
| Xor (x y : wire)
| Fax (x y z : wire)
| Shl (x : wire) (n : N)
| Shr (x : wire) (n : N)
| Sar (x : wire) (n : N).

#[export] Instance wire_eq_dec : EqDecision wire.
Proof. solve_decision. Defined.

Record netlist := Build { kinds : list bool; gates : list wire; equalities : list (wire * wire) }.

(** The value of a gate from the values of its operands. *)
Definition gate_of (a : wire → N) (w : wire) : N :=
  match w with
  | Input n => a (Input n)
  | Constant c => N.land c u64_max
  | And x y => N.land (a x) (a y)
  | Xor x y => N.lxor (a x) (a y)
  | Fax x y z => N.lxor (N.land (a x) (a y)) (a z)
  | Shl x n => u64_shl (a x) n
  | Shr x n => u64_shr (a x) n
  | Sar x n => u64_sar (a x) n
  end.

Fixpoint eval (i : wire → N) (w : wire) : N :=
  match w with
  | Input n => i (Input n)
  | Constant c => N.land c u64_max
  | And x y => N.land (eval i x) (eval i y)
  | Xor x y => N.lxor (eval i x) (eval i y)
  | Fax x y z => N.lxor (N.land (eval i x) (eval i y)) (eval i z)
  | Shl x n => u64_shl (eval i x) n
  | Shr x n => u64_shr (eval i x) n
  | Sar x n => u64_sar (eval i x) n
  end.

Definition emit (w : wire) : Circ netlist wire := λ b,
  (w, Build (kinds b) (w :: gates b) (equalities b)).

Fixpoint xor_chain (xs : list wire) : Circ netlist wire :=
  match xs with [] => emit (Constant 0) | x :: xs => y ← xor_chain xs; emit (Xor x y) end.

Definition allocate (inout : bool) : Circ netlist wire := λ b,
  (Input (length (kinds b)), Build (kinds b ++ [inout]) (gates b) (equalities b)).

Definition inputs_of (inout : bool) (b : netlist) : list wire :=
  (λ nk, Input nk.1) <$> filter (λ nk, nk.2 = inout) (enumerate (kinds b)).

#[export] Instance netlist_builder : CircuitBuilder netlist wire := {
  new_builder := Build [] [] [];
  add_witness := allocate false;
  add_inout := allocate true;
  add_constant c := emit (Constant c);
  band x y := emit (And x y);
  bxor x y := emit (Xor x y);
  bxor_multi := xor_chain;
  fax x y z := emit (Fax x y z);
  shl x n := emit (Shl x n);
  shr x n := emit (Shr x n);
  sar x n := emit (Sar x n);
  wire_assert_eq x y := λ b, ((), Build (kinds b) (gates b) ((x, y) :: equalities b));
  inout_wires := inputs_of true;
  witness_wires := inputs_of false;
  consistent b a := (∀ w, is_word (a w)) ∧ Forall (λ w, a w = gate_of a w) (gates b);
  assertions b a := Forall (λ xy, a xy.1 = a xy.2) (equalities b);
  populate_wire_witness b i := eval i;
}.

Lemma eval_word i w : (∀ w, is_word (i w)) → is_word (eval i w).
Proof.
  intros Hi. apply is_word_bits. induction w as
    [n|c|x IHx y IHy|x IHx y IHy|x IHx y IHy z IHz|x IHx n|x IHx n|x IHx n]; intros j Hj; simpl;
    rewrite ?N.lxor_spec, ?N.land_spec, ?testbit_u64_shl, ?testbit_u64_shr, ?testbit_u64_max.
  - by apply testbit_word.
  - destruct (N.ltb_spec j 64); [lia|]. apply andb_false_r.
  - by rewrite IHx.
  - by rewrite IHx, IHy.
  - by rewrite IHx, IHz.
  - destruct (N.ltb_spec j 64); [lia|]. by rewrite andb_false_r.
  - apply IHx. lia.
  - unfold u64_sar. destruct (N.testbit (eval i x) 63).
    + rewrite N.lor_spec, N.shiftr_spec', IHx, testbit_u64_shl by lia.
      destruct (N.ltb_spec j 64); [lia|]. by rewrite andb_false_r.
    + rewrite N.shiftr_spec'. apply IHx. lia.
Qed.

Lemma eval_gate i w : eval i w = gate_of (eval i) w.
Proof. by destruct w. Qed.

Lemma emit_gate w f :
  (∀ a, gate_of a w = f a) → gate (emit w) f.
Proof.
  intros Hf. split; [done..| |done]. intros b a [Ha Hg]. simpl in *.
  apply Forall_cons in Hg as [Hw Hg]. split; [by split|]. by rewrite Hw.
Qed.

Lemma inputs_of_allocate k k' b :
  inputs_of k (allocate k' b).2 =
  inputs_of k b ++ if decide (k' = k) then [(allocate k' b).1] else [].
Proof.
  unfold inputs_of, allocate. simpl. rewrite enumerate_snoc, filter_app, fmap_app. f_equal.
  rewrite filter_cons. simpl. by case_decide.
Qed.

Lemma allocate_input k : input (allocate k).
Proof.
  split; [|done..]. intros b. simpl. rewrite elem_of_app.
  assert (∀ k', Input (length (kinds b)) ∉ inputs_of k' b) as Hfresh; [|intros [?|?]; by eapply Hfresh].
  intros k'. unfold inputs_of, enumerate. rewrite list_elem_of_fmap.
  intros ([n q] & [= Hn] & [_ Hin]%list_elem_of_filter). apply elem_of_zip_l, elem_of_seq in Hin.
  simpl in *. lia.
Qed.

Lemma xor_multi_gate xs : gate (bxor_multi xs) (λ a, foldr N.lxor 0%N (a <$> xs)).
Proof.
  induction xs as [|x xs IH]; [by apply emit_gate|].
  destruct IH as [Hi Ho Hv Ha]. split; intros b; cbn [bxor_multi netlist_builder xor_chain] in *;
    unfold mbind, circ_bind.
  - specialize (Hi b). by destruct (xor_chain xs b).
  - specialize (Ho b). by destruct (xor_chain xs b).
  - intros a. specialize (Hv b a). destruct (xor_chain xs b) as [y b1]. simpl. intros [Hw Hg].
    apply Forall_cons in Hg as [Hx Hg]. destruct (Hv (conj Hw Hg)) as [Hb Hy].
    split; [done|]. simpl in Hy. rewrite Hx. simpl. by rewrite Hy.
  - intros a. specialize (Ha b a). by destruct (xor_chain xs b).
Qed.

#[export] Instance netlist_laws : CircuitLaws netlist wire.
Proof.
  split; try done.
  - intros a. by constructor.
  - by intros b a w [Hw _].
  - apply allocate_input.
  - intros b. split; [|apply (inputs_of_allocate false false)].
    etrans; [apply (inputs_of_allocate true false)|apply app_nil_r].
  - apply allocate_input.
  - intros b. split; [apply (inputs_of_allocate true true)|].
    etrans; [apply (inputs_of_allocate false true)|apply app_nil_r].
  - intros c Hc. apply emit_gate. intros a. simpl. apply N.bits_inj. intros i.
    rewrite N.land_spec, testbit_u64_max. destruct (N.ltb_spec i 64).
    + by rewrite andb_true_r.
    + by rewrite andb_false_r, testbit_word.
  - intros. by apply emit_gate.
  - intros. by apply emit_gate.
  - apply xor_multi_gate.
  - intros. by apply emit_gate.
  - intros. by apply emit_gate.
  - intros. by apply emit_gate.
  - intros. by apply emit_gate.
  - intros x y b a. simpl. unfold assertions. simpl. rewrite Forall_cons. simpl. tauto.
  - intros b i Hi. split; [intros w; by apply eval_word|]. apply Forall_true. intros w.
    apply eval_gate.
  - intros b i w. unfold inout_wires, witness_wires. simpl. unfold inputs_of.
    rewrite elem_of_app, !list_elem_of_fmap. by intros [([n k] & -> & _)|([n k] & -> & _)].
Qed.
End Netlist.
