(* ===== verification/Gf16Circuit.v ===== *)
(** * GF(16) circuits

    [crates/binius-mayo/src/gf16]: bitsliced vectors ([mod.rs]), the two-level Karatsuba
    multiplication and the broadcast of a scalar ([mul.rs]), and the transposes between the
    packed and the bitsliced layout ([transpose.rs]). Each circuit is shown to compute, lane by
    lane, what the scalar oracle of [scalar.rs] (file Gf16) does. *)
From S2P Require Import Prelude Word Gf16 Circuit.
From stdpp Require Export functions.
From Stdlib Require Import Lia.

(** [BitslicedGf16Mvec]: one wire per bit of a nibble, 64 lanes to a wire. *)
Record BitslicedGf16Mvec (W : Type) := from_wires { bits : arr4 W }.
Arguments from_wires {W}.
Arguments bits {W}.

Section circuits.
Context {B W : Type} `{CircuitBuilder B W}.

(** ** [mod.rs] *)

Definition mvec_new_witness : Circ B (BitslicedGf16Mvec W) :=
  bits ← circ_arr4 (λ _, add_witness); mret (from_wires bits).

Definition mvec_add (x y : BitslicedGf16Mvec W) : Circ B (BitslicedGf16Mvec W) :=
  r ← circ_arr4 (λ i, bxor (arr4_get (bits x) i) (arr4_get (bits y) i)); mret (from_wires r).

Definition mvec_assert_eq (x y : BitslicedGf16Mvec W) : Circ B () :=
  circ_for (seq 0 4)
    (λ i _, wire_assert_eq (arr4_get (bits x) i) (arr4_get (bits y) i)) ().

(** The writes of [populate] to the witness filler [w]. *)
Definition mvec_populate `{EqDecision W} (x : BitslicedGf16Mvec W) (w : valuation W)
    (lanes : list N) : valuation W :=
  let planes := lanes_to_bitsliced lanes in
  fold_left (λ w b, <[arr4_get (bits x) b := arr4_get planes b]> w) (seq 0 4) w.

(** ** [mul.rs] *)

(** Returns [(y2, y1, y0)]. *)
Definition mul2 (a0 a1 b0 b1 : W) : Circ B (W * W * W) :=
  y0 ← band a0 b0;
  y2 ← band a1 b1;
  lane_a ← bxor a0 a1;
  lane_b ← bxor b0 b1;
  y_bridge ← bxor y0 y2;
  y1 ← fax lane_a lane_b y_bridge;
  mret (y2, y1, y0).

Definition mul_karatsuba (a b : BitslicedGf16Mvec W) : Circ B (BitslicedGf16Mvec W) :=
  let (a_lo0, a_lo1) := (at0 (bits a), at1 (bits a)) in
  let (a_hi0, a_hi1) := (at2 (bits a), at3 (bits a)) in
  let (bb_lo0, bb_lo1) := (at0 (bits b), at1 (bits b)) in
  let (bb_hi0, bb_hi1) := (at2 (bits b), at3 (bits b)) in
  s_a0 ← bxor a_lo0 a_hi0;
  s_a1 ← bxor a_lo1 a_hi1;
  s_b0 ← bxor bb_lo0 bb_hi0;
  s_b1 ← bxor bb_lo1 bb_hi1;
  '(z0_2, z0_1, z0_0) ← mul2 a_lo0 a_lo1 bb_lo0 bb_lo1;
  '(z2_2, z2_1, z2_0) ← mul2 a_hi0 a_hi1 bb_hi0 bb_hi1;
  '(z1m_2, z1m_1, z1m_0) ← mul2 s_a0 s_a1 s_b0 s_b1;
  let p0 := z0_0 in
  let p1 := z0_1 in
  p2 ← bxor_multi [z0_2; z1m_0; z2_0; z0_0];
  p3 ← bxor_multi [z1m_1; z2_1; z0_1];
  p4 ← bxor_multi [z1m_2; z2_2; z0_2; z2_0];
  let p5 := z2_1 in
  let p6 := z2_2 in
  r0 ← bxor p0 p4;
  r1 ← bxor_multi [p1; p4; p5];
  r2 ← bxor_multi [p2; p5; p6];
  r3 ← bxor p3 p6;
  mret (from_wires (Arr4 r0 r1 r2 r3)).

(** [if n == 0 { x } else { b.shr(x, n) }], and the same for [shl]. *)
Definition shr_unless_0 (x : W) (n : nat) : Circ B W :=
  if n =? 0 then mret x else shr x (N.of_nat n).
Definition shl_unless_0 (x : W) (n : nat) : Circ B W :=
  if n =? 0 then mret x else shl x (N.of_nat n).

Definition broadcast_scalar (nibble_word : W) : Circ B (BitslicedGf16Mvec W) :=
  one ← add_constant 1;
  r ← circ_arr4 (λ bit_idx,
    shifted ← shr_unless_0 nibble_word bit_idx;
    bit0 ← band shifted one;
    at_msb ← shl bit0 63;
    sar at_msb 63);
  mret (from_wires r).

Definition mul_into_acc (scalar vec acc : BitslicedGf16Mvec W) : Circ B (BitslicedGf16Mvec W) :=
  prod ← mul_karatsuba scalar vec;
  mvec_add acc prod.

(** ** [transpose.rs] *)

Definition compress_stride4_to_low16 (x : W) : Circ B W :=
  m1 ← add_constant 0x0303030303030303;
  s1 ← shr x 3;
  t1 ← bxor x s1;
  r1 ← band t1 m1;
  m2 ← add_constant 0x000F000F000F000F;
  s2 ← shr r1 6;
  t2 ← bxor r1 s2;
  r2 ← band t2 m2;
  m3 ← add_constant 0x000000FF000000FF;
  s3 ← shr r2 12;
  t3 ← bxor r2 s3;
  r3 ← band t3 m3;
  m4 ← add_constant 0x000000000000FFFF;
  s4 ← shr r3 24;
  t4 ← bxor r3 s4;
  band t4 m4.

Definition packed_to_bitsliced (packed : arr4 W) : Circ B (BitslicedGf16Mvec W) :=
  stride_mask ← add_constant 0x1111111111111111;
  bits ← circ_arr4 (λ bit_idx,
    chunks ← circ_arr4 (λ w,
      let pw := arr4_get packed w in
      shifted ← shr_unless_0 pw bit_idx;
      extracted ← band shifted stride_mask;
      compressed ← compress_stride4_to_low16 extracted;
      shl_unless_0 compressed (16 * w));
    bxor_multi (arr4_list chunks));
  mret (from_wires bits).

Definition expand_low16_to_stride4 (x : W) : Circ B W :=
  m1 ← add_constant 0x000000FF000000FF;
  s1 ← shl x 24;
  t1 ← bxor x s1;
  r1 ← band t1 m1;
  m2 ← add_constant 0x000F000F000F000F;
  s2 ← shl r1 12;
  t2 ← bxor r1 s2;
  r2 ← band t2 m2;
  m3 ← add_constant 0x0303030303030303;
  s3 ← shl r2 6;
  t3 ← bxor r2 s3;
  r3 ← band t3 m3;
  m4 ← add_constant 0x1111111111111111;
  s4 ← shl r3 3;
  t4 ← bxor r3 s4;
  band t4 m4.

Definition bitsliced_to_packed (bv : BitslicedGf16Mvec W) : Circ B (arr4 W) :=
  mask16 ← add_constant 0x000000000000FFFF;
  circ_arr4 (λ w,
    bit_contribs ← circ_arr4 (λ bit_idx,
      let pl := arr4_get (bits bv) bit_idx in
      down ← shr_unless_0 pl (16 * w);
      chunk ← band down mask16;
      expanded ← expand_low16_to_stride4 chunk;
      shl_unless_0 expanded bit_idx);
    bxor_multi (arr4_list bit_contribs)).
End circuits.

(** ** Only gates *)

Section shape.
Context {B W : Type} `{CircuitLaws B W}.

Lemma gates_only_shr_unless_0 x n : n < 64 → gates_only (shr_unless_0 x n).
Proof. intros Hn. unfold shr_unless_0. destruct n; simpl; gates. Qed.
Lemma gates_only_shl_unless_0 x n : n < 64 → gates_only (shl_unless_0 x n).
Proof. intros Hn. unfold shl_unless_0. destruct n; simpl; gates. Qed.
End shape.

#[export] Hint Extern 2 (gates_only (shr_unless_0 _ _)) => apply gates_only_shr_unless_0; lia : gates.
#[export] Hint Extern 2 (gates_only (shl_unless_0 _ _)) => apply gates_only_shl_unless_0; lia : gates.

Section gates_only.
Context {B W : Type} `{CircuitLaws B W}.

Lemma gates_only_mvec_add x y : gates_only (mvec_add x y).
Proof. unfold mvec_add. gates. Qed.
Lemma gates_only_mul2 a0 a1 b0 b1 : gates_only (mul2 a0 a1 b0 b1).
Proof. unfold mul2. gates. Qed.
Lemma gates_only_compress x : gates_only (compress_stride4_to_low16 x).
Proof. unfold compress_stride4_to_low16. gates. Qed.
Lemma gates_only_expand x : gates_only (expand_low16_to_stride4 x).
Proof. unfold expand_low16_to_stride4. gates. Qed.
Lemma gates_only_broadcast x : gates_only (broadcast_scalar x).
Proof. unfold broadcast_scalar. gates. Qed.
End gates_only.

#[export] Hint Resolve gates_only_mvec_add gates_only_mul2 gates_only_compress gates_only_expand
  gates_only_broadcast : gates.

Section gates_only_2.
Context {B W : Type} `{CircuitLaws B W}.

Lemma gates_only_mul_karatsuba a b : gates_only (mul_karatsuba a b).
Proof. unfold mul_karatsuba. cbv zeta. gates. Qed.
Lemma gates_only_packed_to_bitsliced p : gates_only (packed_to_bitsliced p).
Proof. unfold packed_to_bitsliced. gates. Qed.
Lemma gates_only_bitsliced_to_packed p : gates_only (bitsliced_to_packed p).
Proof. unfold bitsliced_to_packed. gates. Qed.
Lemma gates_only_mul_into_acc s v acc : gates_only (mul_into_acc s v acc).
Proof.
  unfold mul_into_acc. apply gates_only_bind; [apply gates_only_mul_karatsuba|]. intros. gates.
Qed.
End gates_only_2.

#[export] Hint Resolve gates_only_mul_karatsuba gates_only_packed_to_bitsliced
  gates_only_bitsliced_to_packed gates_only_mul_into_acc : gates.


(** ** Lane by lane *)

Section lanes.
Context {B W : Type} `{CircuitLaws B W} (a : valuation W).

(** The values of a bitsliced vector's wires, and the 64 field elements they carry. *)
Definition planes (x : BitslicedGf16Mvec W) : arr4 N := arr4_map a (bits x).
Definition mvec_lane (x : BitslicedGf16Mvec W) (i : nat) : N := plane_lane (planes x) i.
Definition mvec_value (x : BitslicedGf16Mvec W) : list N := bitsliced_to_lanes (planes x).

(** Bit [i] of plane [b]. *)
Definition plane_bit (x : BitslicedGf16Mvec W) (b i : nat) : bool :=
  N.testbit (a (arr4_get (bits x) b)) (N.of_nat i).

Lemma mvec_lane_bits x i :
  mvec_lane x i = nibble (plane_bit x 0 i) (plane_bit x 1 i) (plane_bit x 2 i) (plane_bit x 3 i).
Proof. done. Qed.

Lemma mvec_value_lookup x i : i < 64 → mvec_value x !! i = Some (mvec_lane x i).
Proof. apply bitsliced_to_lanes_lookup. Qed.

Lemma mvec_value_mvec x : is_mvec (mvec_value x).
Proof. apply bitsliced_to_lanes_mvec. Qed.

Lemma length_mvec_value x : length (mvec_value x) = 64.
Proof. apply length_bitsliced_to_lanes. Qed.

(** Two ways to give the 64 lanes of a vector. *)
Lemma mvec_value_lanes x l :
  length l = 64 → (∀ i, i < 64 → l !! i = Some (mvec_lane x i)) → mvec_value x = l.
Proof.
  intros Hlen Hl. apply list_eq_same_length with 64; [done|apply mvec_value_mvec|].
  intros i u v Hi Hu Hv. rewrite mvec_value_lookup in Hu by done. rewrite Hl in Hv by done.
  by simplify_eq.
Qed.

Lemma computes_mvec_add x y :
  computes a (mvec_add x y)
    (λ r, ∀ i, mvec_lane r i = gf_add (mvec_lane x i) (mvec_lane y i)).
Proof.
  unfold mvec_add. eapply computes_bind; [gates| |].
  - apply (computes_arr4 a _ (λ i w, a w = N.lxor (a (arr4_get (bits x) i)) (a (arr4_get (bits y) i))));
      intros i Hi; [gates|]. exact (computes_gate a _ _ (bxor_gate _ _)).
  - cbv beta. intros r Hr. apply computes_ret. intros i. rewrite !mvec_lane_bits, gf_add_nibble.
    unfold plane_bit. cbn [bits]. rewrite !Hr by lia. by rewrite !N.lxor_spec.
Qed.

Lemma computes_mvec_add_value x y :
  computes a (mvec_add x y)
    (λ r, mvec_value r = zip_with gf_add (mvec_value x) (mvec_value y)).
Proof.
  eapply computes_mono; [apply computes_mvec_add|]. cbv beta. intros r Hr.
  apply mvec_value_lanes; [by rewrite length_zip_with, !length_mvec_value|].
  intros i Hi. rewrite lookup_zip_with, !mvec_value_lookup by done. simpl. by rewrite Hr.
Qed.

(** The coefficients of the product of two polynomials of degree one, in every lane. *)
Lemma computes_mul2 a0 a1 b0 b1 :
  computes a (mul2 a0 a1 b0 b1) (λ '(y2, y1, y0), ∀ i,
    N.testbit (a y0) i = N.testbit (a a0) i && N.testbit (a b0) i ∧
    N.testbit (a y1) i = xorb (N.testbit (a a0) i && N.testbit (a b1) i)
      (N.testbit (a a1) i && N.testbit (a b0) i) ∧
    N.testbit (a y2) i = N.testbit (a a1) i && N.testbit (a b1) i).
Proof.
  unfold mul2. do 6 gate_step. apply computes_ret. intros i.
  rewrite Hw, Hw0, Hw4, Hw1, Hw2, Hw3, Hw, Hw0. testbits.
  by destruct (N.testbit (a a0) i), (N.testbit (a a1) i), (N.testbit (a b0) i),
    (N.testbit (a b1) i).
Qed.

Lemma computes_mul_karatsuba x y :
  computes a (mul_karatsuba x y)
    (λ r, ∀ i, mvec_lane r i = gf_mul (mvec_lane x i) (mvec_lane y i)).
Proof.
  unfold mul_karatsuba. destruct x as [[x0 x1 x2 x3]], y as [[y0 y1 y2 y3]].
  cbn [bits at0 at1 at2 at3]. cbv zeta. do 4 gate_step.
  eapply computes_bind; [intros; gates|apply computes_mul2|intros [[z02 z01] z00] Hz0].
  eapply computes_bind; [intros; gates|apply computes_mul2|intros [[z22 z21] z20] Hz2].
  eapply computes_bind; [intros; gates|apply computes_mul2|intros [[z12 z11] z10] Hz1].
  do 7 gate_step. apply computes_ret. intros i. rewrite !mvec_lane_bits. unfold plane_bit.
  cbn [bits at0 at1 at2 at3 arr4_get]. rewrite gf_mul_nibble. cbv zeta.
  specialize (Hz0 (N.of_nat i)) as (Hz00 & Hz01 & Hz02).
  specialize (Hz1 (N.of_nat i)) as (Hz10 & Hz11 & Hz12).
  specialize (Hz2 (N.of_nat i)) as (Hz20 & Hz21 & Hz22).
  rewrite Hw6, Hw7, Hw8, Hw9. cbn [fmap list_fmap foldr]. rewrite Hw3, Hw4, Hw5.
  cbn [fmap list_fmap foldr]. testbits.
  rewrite Hz00, Hz01, Hz02, Hz10, Hz11, Hz12, Hz20, Hz21, Hz22, Hw, Hw0, Hw1, Hw2. testbits.
  f_equal; by destruct (N.testbit (a x0) (N.of_nat i)), (N.testbit (a x1) (N.of_nat i)),
    (N.testbit (a x2) (N.of_nat i)), (N.testbit (a x3) (N.of_nat i)),
    (N.testbit (a y0) (N.of_nat i)), (N.testbit (a y1) (N.of_nat i)),
    (N.testbit (a y2) (N.of_nat i)), (N.testbit (a y3) (N.of_nat i)).
Qed.

Lemma computes_mul_into_acc s v acc :
  computes a (mul_into_acc s v acc) (λ r, ∀ i,
    mvec_lane r i = gf_add (mvec_lane acc i) (gf_mul (mvec_lane s i) (mvec_lane v i))).
Proof.
  unfold mul_into_acc. eapply computes_bind; [intros; gates|apply computes_mul_karatsuba|].
  intros prod Hprod. eapply computes_mono; [apply computes_mvec_add|]. intros r Hr i.
  by rewrite Hr, Hprod.
Qed.

Lemma computes_shr_unless_0 x n :
  n < 64 → computes a (shr_unless_0 x n) (λ w, a w = u64_shr (a x) (N.of_nat n)).
Proof.
  intros Hn. unfold shr_unless_0. destruct n as [|n].
  - apply computes_ret. unfold u64_shr. by rewrite N.shiftr_0_r.
  - exact (computes_gate a _ _ (shr_gate x (N.of_nat (S n)) ltac:(lia))).
Qed.

Lemma computes_shl_unless_0 x n :
  n < 64 → is_word (a x) →
  computes a (shl_unless_0 x n) (λ w, a w = u64_shl (a x) (N.of_nat n)).
Proof.
  intros Hn Hx. unfold shl_unless_0. destruct n as [|n].
  - apply computes_ret. apply N.bits_inj. intros i. rewrite testbit_u64_shl. change (N.of_nat 0) with 0%N.
    rewrite N.sub_0_r. destruct (N.leb_spec 0 i); [|lia].
    destruct (N.ltb_spec i 64); [done|]. by rewrite testbit_word.
  - exact (computes_gate a _ _ (shl_gate x (N.of_nat (S n)) ltac:(lia))).
Qed.

(** Every lane of a broadcast is the low nibble of its word. *)
Lemma computes_broadcast_scalar x :
  computes a (broadcast_scalar x) (λ r, ∀ i, i < 64 → mvec_lane r i = low_nibble (a x)).
Proof.
  apply computes_words. intros Hwords. unfold broadcast_scalar. gate_step.
  eapply computes_bind; [gates|apply (computes_arr4 a _ (λ b r, ∀ i, (i < 64)%N →
    N.testbit (a r) i = N.testbit (a x) (N.of_nat b)))|].
  - intros b Hb. gates.
  - intros b Hb. eapply computes_bind;
      [intros; gates|apply computes_shr_unless_0; lia|intros w1 Hw1; cbv beta in Hw1].
    do 2 gate_step. eapply computes_mono; [apply computes_gate, sar_gate; lia|].
    cbv beta. intros r Hr i Hi. rewrite Hr, testbit_u64_sar by (done || lia).
    rewrite N.min_r, Hw2, testbit_u64_shl, Hw0, Hw1, Hw by lia. testbits.
    cbn [N.leb N.ltb N.compare Pos.compare Pos.compare_cont andb N.sub Pos.sub_mask N.testbit].
    by rewrite andb_true_r.
  - cbv beta. intros r Hr. apply computes_ret. intros i Hi. rewrite mvec_lane_bits.
    unfold plane_bit. cbn [bits]. rewrite !Hr by lia. done.
Qed.
End lanes.

(** ** Transposes *)

(** One stage of a compression or an expansion, on bits: shift, merge, mask. *)
Definition compress_stage (s m : N) (f : N → bool) : N → bool :=
  λ j, N.testbit m j && xorb (f j) (f (j + s)%N).
Definition expand_stage (s m : N) (f : N → bool) : N → bool :=
  λ j, N.testbit m j && xorb (f j) ((s <=? j)%N && (j <? 64)%N && f (j - s)%N).

(** A number below [n] is one of [0 .. n - 1]. *)
Lemma N_below_cases n l (P : N → Prop) :
  N.of_nat <$> seq 0 n = l → Forall P l → ∀ j, (j < N.of_nat n)%N → P j.
Proof.
  intros <- HP j Hj. apply (Forall_lookup_1 _ _ (N.to_nat j) _ HP).
  rewrite list_lookup_fmap, lookup_seq_lt by lia. simpl. by rewrite N2Nat.id.
Qed.

Ltac forall_cases :=
  repeat match goal with |- Forall _ [] => constructor | |- Forall _ (_ :: _) => constructor end.

Lemma compress_stages f j :
  (∀ j, negb (j mod 4 =? 0)%N = true → f j = false) →
  compress_stage 24 0xFFFF (compress_stage 12 0x000000FF000000FF
    (compress_stage 6 0x000F000F000F000F (compress_stage 3 0x0303030303030303 f))) j =
  (j <? 16)%N && f (4 * j)%N.
Proof.
  intros Hf. destruct (N.ltb_spec j 16) as [Hj|Hj].
  - change 16%N with (N.of_nat 16) in Hj. revert j Hj. eapply N_below_cases; [vm_compute; reflexivity|].
    forall_cases; vm_compute;
      repeat match goal with |- context [f ?k] => rewrite (Hf k eq_refl) end;
      repeat match goal with |- context [f ?k] => destruct (f k) end; reflexivity.
  - unfold compress_stage at 1. change 0xFFFF%N with (N.ones 16). by rewrite N.ones_spec_high.
Qed.

Lemma expand_stages f j :
  (∀ j, (16 <=? j)%N = true → f j = false) →
  expand_stage 3 0x1111111111111111 (expand_stage 6 0x0303030303030303
    (expand_stage 12 0x000F000F000F000F (expand_stage 24 0x000000FF000000FF f))) j =
  (j mod 4 =? 0)%N && (j <? 64)%N && f (j / 4)%N.
Proof.
  intros Hf. destruct (N.ltb_spec j 64) as [Hj|Hj].
  - change 64%N with (N.of_nat 64) in Hj. revert j Hj. eapply N_below_cases; [vm_compute; reflexivity|].
    forall_cases; vm_compute;
      repeat match goal with |- context [f ?k] => rewrite (Hf k eq_refl) end;
      repeat match goal with |- context [f ?k] => destruct (f k) end; reflexivity.
  - unfold expand_stage at 1. rewrite testbit_word by done. by rewrite andb_false_r.
Qed.

(** The mask that keeps bit 0 of every nibble. *)
Lemma testbit_stride_mask j : N.testbit 0x1111111111111111 j = (j mod 4 =? 0)%N && (j <? 64)%N.
Proof.
  destruct (N.ltb_spec j 64) as [Hj|Hj].
  - change 64%N with (N.of_nat 64) in Hj. revert j Hj. eapply N_below_cases; [vm_compute; reflexivity|].
    by forall_cases.
  - rewrite testbit_word by done. by rewrite andb_false_r.
Qed.

Section transposes.
Context {B W : Type} `{CircuitLaws B W} (a : valuation W).

Lemma computes_compress x :
  (∀ j, negb (j mod 4 =? 0)%N = true → N.testbit (a x) j = false) →
  computes a (compress_stride4_to_low16 x)
    (λ r, ∀ j, N.testbit (a r) j = (j <? 16)%N && N.testbit (a x) (4 * j)).
Proof.
  intros Hx. unfold compress_stride4_to_low16. do 15 gate_step.
  eapply computes_mono; [apply computes_gate, band_gate|]. cbv beta. intros r Hr j.
  rewrite <- (compress_stages (N.testbit (a x))) by done. unfold compress_stage.
  rewrite Hr, Hw13, Hw12, Hw11, Hw10, Hw9, Hw8, Hw7, Hw6, Hw5, Hw4, Hw3, Hw2, Hw1, Hw0, Hw.
  testbits. by rewrite !(andb_comm (xorb _ _) (N.testbit _ _)).
Qed.

Lemma computes_expand x :
  (∀ j, (16 <=? j)%N = true → N.testbit (a x) j = false) →
  computes a (expand_low16_to_stride4 x) (λ r, ∀ j,
    N.testbit (a r) j = (j mod 4 =? 0)%N && (j <? 64)%N && N.testbit (a x) (j / 4)).
Proof.
  intros Hx. unfold expand_low16_to_stride4. do 15 gate_step.
  eapply computes_mono; [apply computes_gate, band_gate|]. cbv beta. intros r Hr j.
  rewrite <- (expand_stages (N.testbit (a x))) by done. unfold expand_stage.
  rewrite Hr, Hw13, Hw12, Hw11, Hw10, Hw9, Hw8, Hw7, Hw6, Hw5, Hw4, Hw3, Hw2, Hw1, Hw0, Hw.
  testbits. by rewrite !(andb_comm (xorb _ _) (N.testbit _ _)).
Qed.

(** A sixteen-bit chunk of a plane: bit [b] of the sixteen nibbles of a packed word. *)
Lemma computes_plane_chunk stride_mask pw b w :
  a stride_mask = 0x1111111111111111%N → b < 4 → w < 4 →
  computes a (shifted ← shr_unless_0 pw b;
              extracted ← band shifted stride_mask;
              compressed ← compress_stride4_to_low16 extracted;
              shl_unless_0 compressed (16 * w))
    (λ r, ∀ i, i < 64 → N.testbit (a r) (N.of_nat i) =
      (i / 16 =? w) && N.testbit (a pw) (N.of_nat (4 * (i mod 16) + b))).
Proof.
  intros Hmask Hb Hw. apply computes_words. intros Hwords.
  eapply computes_bind; [intros; gates|apply computes_shr_unless_0; lia|intros x Hx; cbv beta in Hx].
  gate_step. eapply computes_bind; [intros; gates|apply computes_compress|intros y Hy; cbv beta in Hy].
  { intros j Hj. rewrite Hw0, Hmask, N.land_spec, testbit_stride_mask.
    apply negb_true_iff in Hj. rewrite Hj. by rewrite andb_false_r. }
  eapply computes_mono; [apply computes_shl_unless_0; [lia|done]|].
  cbv beta. intros r Hr i Hi.
  rewrite Hr, testbit_u64_shl, Hy, Hw0, Hmask, Hx. testbits. rewrite testbit_stride_mask.
  pose proof (Nat.div_mod_eq i 16). pose proof (Nat.mod_upper_bound i 16 ltac:(lia)).
  destruct (Nat.eqb_spec (i / 16) w) as [<-|Hne].
  - replace (N.of_nat i - N.of_nat (16 * (i / 16)))%N with (N.of_nat (i mod 16)) by lia.
    destruct (N.leb_spec (N.of_nat (16 * (i / 16))) (N.of_nat i)); [|lia].
    destruct (N.ltb_spec (N.of_nat i) 64); [|lia].
    destruct (N.ltb_spec (N.of_nat (i mod 16)) 16); [|lia].
    destruct (N.ltb_spec (4 * N.of_nat (i mod 16)) 64); [|lia].
    rewrite N.mul_comm, N.Div0.mod_mul. cbn [andb N.eqb]. rewrite andb_true_r. f_equal. lia.
  - destruct (N.leb_spec (N.of_nat (16 * w)) (N.of_nat i)); [|done].
    destruct (N.ltb_spec (N.of_nat i - N.of_nat (16 * w)) 16); [lia|]. by rewrite andb_false_r.
Qed.

(** Bit [i] of plane [b] is bit [4 (i mod 16) + b] of packed word [i / 16]. *)
Lemma computes_packed_to_bitsliced packed :
  computes a (packed_to_bitsliced packed) (λ r, ∀ b i, b < 4 → i < 64 →
    plane_bit a r b i =
    N.testbit (a (arr4_get packed (i / 16))) (N.of_nat (4 * (i mod 16) + b))).
Proof.
  unfold packed_to_bitsliced. gate_step. eapply computes_bind;
    [intros; gates|apply (computes_arr4 a _ (λ b r, ∀ i, i < 64 → N.testbit (a r) (N.of_nat i) =
      N.testbit (a (arr4_get packed (i / 16))) (N.of_nat (4 * (i mod 16) + b))))|].
  - intros b Hb. gates.
  - intros b Hb. eapply computes_bind; [intros; gates|apply (computes_arr4 a _ (λ w r, ∀ i, i < 64 →
      N.testbit (a r) (N.of_nat i) = (i / 16 =? w) &&
        N.testbit (a (arr4_get packed w)) (N.of_nat (4 * (i mod 16) + b))))|].
    + intros w' Hw'. gates.
    + intros w' Hw'. by apply computes_plane_chunk.
    + cbv beta. intros chunks Hchunks. eapply computes_mono; [apply computes_gate, bxor_multi_gate|].
      cbv beta. intros r Hr i Hi. rewrite Hr. cbn [arr4_list fmap list_fmap foldr].
      pose proof (λ w Hw, Hchunks w Hw i Hi) as Hc. rewrite !N.lxor_spec, N.bits_0.
      rewrite (Hc 0 ltac:(lia) : N.testbit (a (at0 chunks)) _ = _).
      rewrite (Hc 1 ltac:(lia) : N.testbit (a (at1 chunks)) _ = _).
      rewrite (Hc 2 ltac:(lia) : N.testbit (a (at2 chunks)) _ = _).
      rewrite (Hc 3 ltac:(lia) : N.testbit (a (at3 chunks)) _ = _).
      assert (i / 16 < 4) by (apply Nat.Div0.div_lt_upper_bound; lia).
      destruct (i / 16) as [|[|[|[|k]]]]; [..|lia]; cbn [Nat.eqb andb];
        by rewrite ?xorb_false_l, ?xorb_false_r.
  - cbv beta. intros r Hr. apply computes_ret. intros b i Hb Hi. by apply Hr.
Qed.

Lemma computes_packed_lanes packed :
  computes a (packed_to_bitsliced packed)
    (λ r, mvec_value a r = unpack_lanes (arr4_map a packed)).
Proof.
  eapply computes_mono; [apply computes_packed_to_bitsliced|]. cbv beta. intros r Hr.
  apply mvec_ext; [apply bitsliced_to_lanes_mvec|apply unpack_lanes_mvec|]. intros i b Hi Hb.
  unfold mvec_value, planes. rewrite bitsliced_to_lanes_lookup, unpack_lanes_lookup by done.
  simpl default. rewrite plane_lane_testbit, packed_lane_testbit by done.
  rewrite !arr4_get_map. by apply Hr.
Qed.

(** The contribution of plane [b] to a packed word. *)
Lemma computes_plane_contrib mask16 pl b w :
  a mask16 = 0xFFFF%N → b < 4 → w < 4 →
  computes a (down ← shr_unless_0 pl (16 * w);
              chunk ← band down mask16;
              expanded ← expand_low16_to_stride4 chunk;
              shl_unless_0 expanded b)
    (λ r, ∀ j, j < 64 → N.testbit (a r) (N.of_nat j) =
      (j mod 4 =? b) && N.testbit (a pl) (N.of_nat (16 * w + j / 4))).
Proof.
  intros Hmask Hb Hw. apply computes_words. intros Hwords.
  eapply computes_bind; [intros; gates|apply computes_shr_unless_0; lia|intros x Hx; cbv beta in Hx].
  gate_step. assert (∀ j, N.testbit (a w0) j = N.testbit (a pl) (j + N.of_nat (16 * w)) && (j <? 16)%N) as Hchunk.
  { intros j. rewrite Hw0, Hmask, Hx. testbits. f_equal. change 65535%N with (N.ones 16).
    destruct (N.ltb_spec j 16); [by apply N.ones_spec_low|by apply N.ones_spec_high]. }
  eapply computes_bind; [intros; gates|apply computes_expand|intros y Hy; cbv beta in Hy].
  { intros j Hj. rewrite Hchunk. apply N.leb_le in Hj.
    destruct (N.ltb_spec j 16); [lia|]. by rewrite andb_false_r. }
  eapply computes_mono; [apply computes_shl_unless_0; [lia|done]|]. cbv beta. intros r Hr j Hj.
  rewrite Hr, testbit_u64_shl, Hy, Hchunk.
  pose proof (Nat.div_mod_eq j 4). pose proof (Nat.mod_upper_bound j 4 ltac:(lia)).
  destruct (N.ltb_spec (N.of_nat j) 64); [|lia].
  destruct (Nat.eqb_spec (j mod 4) b) as [<-|Hne].
  - replace (N.of_nat j - N.of_nat (j mod 4))%N with (N.of_nat (j / 4) * 4)%N by lia.
    rewrite N.Div0.mod_mul, N.div_mul by done. cbn [N.eqb].
    destruct (N.leb_spec (N.of_nat (j mod 4)) (N.of_nat j)); [|lia].
    destruct (N.ltb_spec (N.of_nat (j / 4) * 4) 64); [|lia].
    destruct (N.ltb_spec (N.of_nat (j / 4)) 16); [|lia]. cbn [andb]. rewrite andb_true_r.
    f_equal. lia.
  - destruct (N.leb_spec (N.of_nat b) (N.of_nat j)); [|done].
    destruct (N.eqb_spec ((N.of_nat j - N.of_nat b) mod 4) 0) as [Hmod|]; [|done].
    exfalso. apply Hne. pose proof (N.div_mod (N.of_nat j - N.of_nat b) 4 ltac:(done)). lia.
Qed.

(** Bit [j] of packed word [w] is bit [16 w + j / 4] of plane [j mod 4]. *)
Lemma computes_bitsliced_to_packed bv :
  computes a (bitsliced_to_packed bv) (λ r, ∀ w j, w < 4 → j < 64 →
    N.testbit (a (arr4_get r w)) (N.of_nat j) = plane_bit a bv (j mod 4) (16 * w + j / 4)).
Proof.
  unfold bitsliced_to_packed. gate_step. rename w into mask16.
  eapply computes_mono; [apply (computes_arr4 a _ (λ w r, ∀ j, j < 64 →
    N.testbit (a r) (N.of_nat j) = plane_bit a bv (j mod 4) (16 * w + j / 4)))|].
  - intros w' Hw'. gates.
  - intros w' Hw'. eapply computes_bind; [intros; gates|apply (computes_arr4 a _ (λ b r, ∀ j, j < 64 →
      N.testbit (a r) (N.of_nat j) = (j mod 4 =? b) &&
        N.testbit (a (arr4_get (bits bv) b)) (N.of_nat (16 * w' + j / 4))))|].
    + intros b Hb. gates.
    + intros b Hb. by apply computes_plane_contrib.
    + cbv beta. intros chunks Hchunks. eapply computes_mono; [apply computes_gate, bxor_multi_gate|].
      cbv beta. intros r Hr j Hj. rewrite Hr. cbn [arr4_list fmap list_fmap foldr].
      pose proof (λ w Hw, Hchunks w Hw j Hj) as Hc. rewrite !N.lxor_spec, N.bits_0.
      rewrite (Hc 0 ltac:(lia) : N.testbit (a (at0 chunks)) _ = _).
      rewrite (Hc 1 ltac:(lia) : N.testbit (a (at1 chunks)) _ = _).
      rewrite (Hc 2 ltac:(lia) : N.testbit (a (at2 chunks)) _ = _).
      rewrite (Hc 3 ltac:(lia) : N.testbit (a (at3 chunks)) _ = _).
      pose proof (Nat.mod_upper_bound j 4 ltac:(lia)). unfold plane_bit.
      destruct (j mod 4) as [|[|[|[|k]]]]; [..|lia]; cbn [Nat.eqb andb];
        by rewrite ?xorb_false_l, ?xorb_false_r.
  - cbv beta. intros r Hr w j Hw' Hj. by apply Hr.
Qed.

Lemma computes_bitsliced_lanes bv :
  computes a (bitsliced_to_packed bv) (λ r, arr4_map a r = pack_lanes (mvec_value a bv)).
Proof.
  apply computes_words. intros Hwords.
  eapply computes_mono; [apply computes_bitsliced_to_packed|]. cbv beta. intros r Hr.
  apply arr4_ext. intros w Hw. rewrite arr4_get_map. apply word_ext; [done|..].
  { apply pack_lanes_word; [|done]. unfold mvec_value. rewrite length_bitsliced_to_lanes. lia. }
  intros i Hi. rewrite <- (N2Nat.id i). rewrite Hr by lia.
  rewrite pack_lanes_testbit; [|unfold mvec_value; rewrite length_bitsliced_to_lanes|..]; try lia.
  pose proof (Nat.div_mod_eq (N.to_nat i) 4).
  pose proof (Nat.mod_upper_bound (N.to_nat i) 4 ltac:(lia)).
  unfold mvec_value. rewrite bitsliced_to_lanes_lookup by lia. simpl default.
  rewrite plane_lane_testbit by done. unfold planes. by rewrite arr4_get_map.
Qed.
End transposes.

(** ** The properties of the field circuits *)

Section properties.
Context {B W : Type} `{CircuitLaws B W}.

(** The two-level Karatsuba circuit multiplies: it emits only gates, and under every valuation
    that obeys them each of the 64 lanes of its result is the product of the lanes of its
    operands as the scalar oracle of the crate computes it; the accumulating form adds that
    product, and a broadcast scalar is the low nibble of its word in every lane. *)
Theorem karatsuba_matches_oracle (a : valuation W) (x y acc : BitslicedGf16Mvec W) (s : W) :
  gates_only (mul_karatsuba x y) ∧
  computes a (mul_karatsuba x y)
    (λ r, mvec_value a r = zip_with gf_mul (mvec_value a x) (mvec_value a y)) ∧
  computes a (mul_into_acc x y acc)
    (λ r, mvec_value a r = zip_with gf_add (mvec_value a acc)
      (zip_with gf_mul (mvec_value a x) (mvec_value a y))) ∧
  computes a (broadcast_scalar s) (λ r, mvec_value a r = replicate 64 (low_nibble (a s))).
Proof.
  split; [gates|]. split; [|split].
  - eapply computes_mono; [apply computes_mul_karatsuba|]. cbv beta. intros r Hr.
    apply mvec_value_lanes; [by rewrite length_zip_with, !length_mvec_value|].
    intros i Hi. rewrite lookup_zip_with, !mvec_value_lookup by done. simpl. by rewrite Hr.
  - eapply computes_mono; [apply computes_mul_into_acc|]. cbv beta. intros r Hr.
    apply mvec_value_lanes; [by rewrite !length_zip_with, !length_mvec_value|].
    intros i Hi. rewrite !lookup_zip_with, !mvec_value_lookup by done. simpl. by rewrite Hr.
  - eapply computes_mono; [apply computes_broadcast_scalar|]. cbv beta. intros r Hr.
    apply mvec_value_lanes; [apply length_replicate|]. intros i Hi.
    rewrite lookup_replicate_2 by done. by rewrite Hr.
Qed.

(** The transposes between the packed and the bitsliced layout are inverse circuits, and each
    agrees with its scalar counterpart. *)
Theorem transposes_inverse (a : valuation W) (p : arr4 W) (v : BitslicedGf16Mvec W) :
  computes a (packed_to_bitsliced p) (λ r, mvec_value a r = unpack_lanes (arr4_map a p)) ∧
  computes a (bitsliced_to_packed v) (λ r, arr4_map a r = pack_lanes (mvec_value a v)) ∧
  computes a (packed_to_bitsliced p ≫= bitsliced_to_packed) (λ r, arr4_map a r = arr4_map a p) ∧
  computes a (bitsliced_to_packed v ≫= packed_to_bitsliced) (λ r, planes a r = planes a v).
Proof.
  split; [apply computes_packed_lanes|]. split; [apply computes_bitsliced_lanes|].
  split; apply computes_words; intros Hwords.
  - eapply computes_bind; [intros; gates|apply computes_packed_lanes|]. cbv beta. intros r Hr.
    eapply computes_mono; [apply computes_bitsliced_lanes|]. cbv beta. intros q ->. rewrite Hr.
    apply pack_unpack_inverse. intros w Hw. by rewrite arr4_get_map.
  - eapply computes_bind; [intros; gates|apply computes_bitsliced_lanes|]. cbv beta. intros q Hq.
    eapply computes_mono; [apply computes_packed_lanes|]. cbv beta. intros r Hr.
    rewrite Hq, packed_lanes_inverse in Hr by apply mvec_value_mvec.
    apply bitsliced_to_lanes_inj; [..|exact Hr]; intros b Hb; unfold planes; by rewrite arr4_get_map.
Qed.
End properties.

Section witnesses.
Import Netlist.

(** Inputs 0 to 3 and 4 to 7 are the planes of two vectors, input 8 a scalar. *)
Definition witness_x : BitslicedGf16Mvec wire := from_wires (arr4_from_fn Input).
Definition witness_y : BitslicedGf16Mvec wire := from_wires (arr4_from_fn (λ i, Input (4 + i))).
Definition witness_inputs (w : wire) : N :=
  match w with Input n => (N.of_nat n * 0x0123456789ABCDE + 5)%N | _ => 0%N end.

Lemma witness_inputs_words w : is_word (u64_shr (u64_shl (witness_inputs w) 0) 0).
Proof.
  apply is_word_bits. intros i Hi. rewrite testbit_u64_shr, testbit_u64_shl, N.add_0_r.
  destruct (N.ltb_spec i 64); [lia|]. by rewrite andb_false_r.
Qed.

(** The valuation that evaluates every gate from these inputs. *)
Definition witness_valuation : valuation wire :=
  eval (λ w, u64_shr (u64_shl (witness_inputs w) 0) 0).

Lemma witness_valuation_consistent (b : netlist) : consistent b witness_valuation.
Proof. exact (populate_consistent b _ witness_inputs_words). Qed.

Lemma karatsuba_matches_oracle_witness :
  let m : Circ netlist _ := mul_karatsuba witness_x witness_y in
  let r := (m new_builder).1 in
  consistent (m new_builder).2 witness_valuation ∧
  mvec_value witness_valuation r =
    zip_with gf_mul (mvec_value witness_valuation witness_x) (mvec_value witness_valuation witness_y) ∧
  mvec_value witness_valuation r !! 0 = Some 10%N.
Proof.
  intros m r. split; [apply witness_valuation_consistent|]. split.
  - subst r m. destruct (karatsuba_matches_oracle (B:=netlist) witness_valuation witness_x witness_y
      witness_x (Input 8)) as (_ & Hmul & _). apply Hmul, witness_valuation_consistent.
  - vm_compute. reflexivity.
Defined.

Lemma transposes_inverse_witness :
  let m : Circ netlist _ := packed_to_bitsliced (bits witness_x) ≫= bitsliced_to_packed in
  consistent (m new_builder).2 witness_valuation ∧
  arr4_map witness_valuation (m new_builder).1 = arr4_map witness_valuation (bits witness_x).
Proof.
  intros m. split; [apply witness_valuation_consistent|]. subst m.
  destruct (transposes_inverse (B:=netlist) witness_valuation (bits witness_x) witness_x)
    as (_ & _ & Hinv & _). apply Hinv, witness_valuation_consistent.
Defined.
End witnesses.
