(* ===== verification/Whipping.v ===== *)
(** * The whipping reduction

    [crates/binius-mayo/src/whipping.rs]: [compute_rhs] folds the sixteen vectors
    [sps[row*K + col]] into one, multiplying its accumulator by [z] modulo
    [f(z) = z^64 + 8 z^3 + 2 z^2 + 8] before each of the ten additions. The reference is the
    scalar loop of the module's tests, on lists of 64 field elements. *)
From S2P Require Import Prelude Word Gf16 Circuit Gf16Circuit.
From Stdlib Require Import Lia.

(** The pairs [(i, j)] of the two nested loops, in their order. *)
Definition whip_pairs : list (nat * nat) :=
  i_inv ← seq 0 K_whip;
  let i := K_whip - 1 - i_inv in
  (λ j, (i, j)) <$> seq i (K_whip - i).

Lemma whip_pairs_bound : Forall (λ ij, ij.1 < K_whip ∧ ij.2 < K_whip) whip_pairs.
Proof. apply (bool_decide_unpack _). vm_compute. exact I. Qed.

(** ** The scalar reference *)

(** [acc * z mod f(z)]: shift up one lane and fold the lane that falls off. *)
Definition scalar_mul_z (acc : list N) : list N :=
  let top := default 0%N (acc !! (M_eqs - 1)) in
  let acc := 0%N :: take (M_eqs - 1) acc in
  let acc := alter (λ v, gf_add v (gf_mul top 8)) 0 acc in
  let acc := alter (λ v, gf_add v (gf_mul top 2)) 2 acc in
  alter (λ v, gf_add v (gf_mul top 8)) 3 acc.

(** [acc[ell] = add(acc[ell], v[ell])] for every lane. *)
Definition scalar_xor_in (acc v : list N) : list N := zip_with gf_add acc v.

Definition scalar_whip_step (sps : list (list N)) (acc : list N) (ij : nat * nat) : list N :=
  let (i, j) := ij in
  let acc := scalar_mul_z acc in
  let acc := scalar_xor_in acc (default [] (sps !! (i * K_whip + j))) in
  if i =? j then acc else scalar_xor_in acc (default [] (sps !! (j * K_whip + i))).

Definition scalar_compute_rhs (sps : list (list N)) : list N :=
  fold_left (scalar_whip_step sps) whip_pairs (replicate M_eqs 0%N).

(** ** The circuit *)

Section circuit.
Context {B W : Type} `{CircuitBuilder B W}.

(** Step 1 of an iteration: [ledger * z mod f(z)]. *)
Definition whip_mul_z (ledger : BitslicedGf16Mvec W) : Circ B (BitslicedGf16Mvec W) :=
  let (l0, l1) := (at0 (bits ledger), at1 (bits ledger)) in
  let (l2, l3) := (at2 (bits ledger), at3 (bits ledger)) in
  t0 ← shr l0 63; t1 ← shr l1 63; t2 ← shr l2 63; t3 ← shr l3 63;
  s0 ← shl l0 1; s1 ← shl l1 1; s2 ← shl l2 1; s3 ← shl l3 1;
  let m8_0 := t1 in
  m8_1 ← bxor t1 t2;
  m8_2 ← bxor t2 t3;
  m8_3 ← bxor t0 t3;
  let m2_0 := t3 in
  m2_1 ← bxor t0 t3;
  let m2_2 := t1 in
  let m2_3 := t2 in
  f0_lane3 ← shl m8_0 3;
  f0_lane2 ← shl m2_0 2;
  new0 ← bxor_multi [s0; m8_0; f0_lane2; f0_lane3];
  f1_lane3 ← shl m8_1 3;
  f1_lane2 ← shl m2_1 2;
  new1 ← bxor_multi [s1; m8_1; f1_lane2; f1_lane3];
  f2_lane3 ← shl m8_2 3;
  f2_lane2 ← shl m2_2 2;
  new2 ← bxor_multi [s2; m8_2; f2_lane2; f2_lane3];
  f3_lane3 ← shl m8_3 3;
  f3_lane2 ← shl m2_3 2;
  new3 ← bxor_multi [s3; m8_3; f3_lane2; f3_lane3];
  mret (from_wires (Arr4 new0 new1 new2 new3)).

(** One iteration. [sps[n]] panics out of range, which the length check of [compute_rhs]
    excludes; here it is the ledger itself. *)
Definition whip_step (sps : list (BitslicedGf16Mvec W)) (ij : nat * nat)
    (ledger : BitslicedGf16Mvec W) : Circ B (BitslicedGf16Mvec W) :=
  let (i, j) := ij in
  ledger ← whip_mul_z ledger;
  let upper := default ledger (sps !! (i * K_whip + j)) in
  ledger ← mvec_add ledger upper;
  if i =? j then mret ledger
  else
    let lower := default ledger (sps !! (j * K_whip + i)) in
    mvec_add ledger lower.

(** [compute_rhs]; [None] is the panic of its length check. *)
Definition compute_rhs (sps : list (BitslicedGf16Mvec W)) :
    option (Circ B (BitslicedGf16Mvec W)) :=
  if length sps =? K_whip * K_whip then Some (
    zero ← add_constant 0;
    circ_for whip_pairs (whip_step sps) (from_wires (Arr4 zero zero zero zero)))
  else None.
End circuit.

Section gates_only.
Context {B W : Type} `{CircuitLaws B W}.

Lemma gates_only_whip_mul_z l : gates_only (whip_mul_z l).
Proof. unfold whip_mul_z. cbv zeta. gates. Qed.
Lemma gates_only_whip_step sps ij l : gates_only (whip_step sps ij l).
Proof.
  unfold whip_step. destruct ij as [i j]. apply gates_only_bind; [apply gates_only_whip_mul_z|].
  intros x. apply gates_only_bind; [gates|]. intros y. case_match; gates.
Qed.
Lemma gates_only_compute_rhs sps m : compute_rhs sps = Some m → gates_only m.
Proof.
  unfold compute_rhs. case_match; [|done]. intros Hm%(inj Some). subst m.
  apply gates_only_bind; [gates|]. intros z. apply gates_only_for. apply gates_only_whip_step.
Qed.
End gates_only.

Lemma gf_mul_8 t0 t1 t2 t3 :
  gf_mul (nibble t0 t1 t2 t3) 8 = nibble t1 (xorb t1 t2) (xorb t2 t3) (xorb t0 t3).
Proof. by destruct t0, t1, t2, t3. Qed.
Lemma gf_mul_2 t0 t1 t2 t3 :
  gf_mul (nibble t0 t1 t2 t3) 2 = nibble t3 (xorb t0 t3) t1 t2.
Proof. by destruct t0, t1, t2, t3. Qed.

Section correctness.
Context {B W : Type} `{CircuitLaws B W} (a : valuation W).

(** What is added to lane [i] when the lane [top] falls off. *)
Definition fold_in (top : N) (i : nat) : N :=
  match i with 0 => gf_mul top 8 | 2 => gf_mul top 2 | 3 => gf_mul top 8 | _ => 0%N end.

Definition below (v : nat → N) (i : nat) : N := match i with 0 => 0%N | S i => v i end.

Lemma computes_whip_mul_z l :
  computes a (whip_mul_z l) (λ r, ∀ i, i < 64 →
    mvec_lane a r i = gf_add (below (mvec_lane a l) i) (fold_in (mvec_lane a l 63) i)).
Proof.
  apply computes_words. intros Hwords. unfold whip_mul_z.
  destruct l as [[l0 l1 l2 l3]]. cbn [bits at0 at1 at2 at3]. cbv zeta. do 24 gate_step.
  apply computes_ret. intros i Hi. rewrite !mvec_lane_bits. unfold plane_bit.
  cbn [bits at0 at1 at2 at3 arr4_get].
  assert (∀ l j, N.testbit (u64_shr (a l) 63) j = (j =? 0)%N && N.testbit (a l) 63) as Htop.
  { intros l j. rewrite testbit_u64_shr. destruct (N.eqb_spec j 0) as [->|Hj]; [done|].
    rewrite testbit_word; [done|done|lia]. }
  wire_values. cbn [fmap list_fmap foldr]. wire_values.
  rewrite ?N.lxor_spec, ?testbit_u64_shl, ?N.bits_0, ?N.lxor_spec, ?Htop.
  change (N.of_nat 63) with 63%N.
  destruct i as [|[|[|[|i]]]]; cbn [below fold_in]; rewrite ?gf_mul_8, ?gf_mul_2.
  1-4: cbn -[N.testbit gf_add nibble mvec_lane N.of_nat]; rewrite ?mvec_lane_bits; unfold plane_bit;
    cbn -[N.testbit gf_add nibble]; rewrite ?gf_add_nibble, ?(gf_add_0_l (nibble _ _ _ _)),
      ?(gf_add_comm (nibble _ _ _ _) 0), ?(gf_add_0_l (nibble _ _ _ _)) by apply nibble_gf16;
    f_equal; rewrite ?xorb_false_r, ?xorb_false_l; try done; by rewrite ?xorb_assoc.
  set (n := N.of_nat (S (S (S (S i))))) in *.
  rewrite gf_add_comm, gf_add_0_l by apply nibble_gf16. rewrite mvec_lane_bits. unfold plane_bit.
  cbn [bits at0 at1 at2 at3 arr4_get].
  replace (N.of_nat (S (S (S i)))) with (n - 1)%N by (unfold n; lia).
  rewrite (proj2 (N.eqb_neq n 0)), (proj2 (N.eqb_neq (n - 2) 0)), (proj2 (N.eqb_neq (n - 3) 0)),
    (proj2 (N.leb_le 1 n)), (proj2 (N.ltb_lt n 64)) by (unfold n; lia).
  cbn [andb]. rewrite !andb_false_r. cbn [xorb]. by rewrite !xorb_false_r.
Qed.

Lemma scalar_mul_z_lookup acc i :
  is_mvec acc → i < 64 →
  scalar_mul_z acc !! i =
  Some (gf_add (below (λ i, default 0%N (acc !! i)) i) (fold_in (default 0%N (acc !! 63)) i)).
Proof.
  intros [Hlen Hgf] Hi. unfold scalar_mul_z. change (M_eqs - 1) with 63.
  set (top := default 0%N (acc !! 63)).
  assert (∀ j, j < 64 → (0%N :: take 63 acc) !! j = Some (below (λ i, default 0%N (acc !! i)) j)) as Hshift.
  { intros [|j] Hj; [done|]. simpl. rewrite lookup_take_lt by lia.
    destruct (acc !! j) eqn:Hj'; [done|]. apply lookup_ge_None in Hj'. lia. }
  assert (is_gf16 (below (λ i, default 0%N (acc !! i)) i)) as Hv.
  { destruct i as [|i]; [done|]. simpl. destruct (acc !! i) eqn:Hi'; [|done].
    exact (Forall_lookup_1 _ _ _ _ Hgf Hi'). }
  destruct (decide (i = 0)) as [->|]; [|destruct (decide (i = 2)) as [->|];
    [|destruct (decide (i = 3)) as [->|]]];
    rewrite ?list_lookup_alter_ne, ?list_lookup_alter, ?list_lookup_alter_ne, ?Hshift by lia; try done.
  f_equal. rewrite <- (gf_add_0_l (below _ _)) at 1 by done. rewrite gf_add_comm. f_equal.
  destruct i as [|[|[|[|i]]]]; done.
Qed.

Lemma computes_whip_mul_z_value l :
  computes a (whip_mul_z l) (λ r, mvec_value a r = scalar_mul_z (mvec_value a l)).
Proof.
  eapply computes_mono; [apply computes_whip_mul_z|]. cbv beta. intros r Hr.
  apply mvec_value_lanes.
  { unfold scalar_mul_z. rewrite !length_alter. cbn [length]. by rewrite length_take, length_mvec_value. }
  intros i Hi. rewrite scalar_mul_z_lookup by (done || apply mvec_value_mvec). rewrite Hr by done. do 2 f_equal.
  - destruct i as [|i]; [done|]. simpl. by rewrite mvec_value_lookup by lia.
  - by rewrite mvec_value_lookup by lia.
Qed.

Lemma computes_whip_step sps ij l :
  length sps = K_whip * K_whip → ij ∈ whip_pairs →
  computes a (whip_step sps ij l) (λ r,
    mvec_value a r = scalar_whip_step (mvec_value a <$> sps) (mvec_value a l) ij).
Proof.
  intros Hlen Hij. apply list_elem_of_lookup in Hij as [n Hn].
  pose proof (Forall_lookup_1 _ _ _ _ whip_pairs_bound Hn) as [Hi Hj].
  destruct ij as [i j]. simpl in Hi, Hj. change K_whip with 4 in *.
  destruct (lookup_lt_is_Some_2 sps (i * 4 + j)) as [upper Hupper]; [lia|].
  destruct (lookup_lt_is_Some_2 sps (j * 4 + i)) as [lower Hlower]; [lia|].
  unfold whip_step, scalar_whip_step. change K_whip with 4. rewrite !list_lookup_fmap, Hupper, Hlower.
  eapply computes_bind; [|apply computes_whip_mul_z_value|].
  { intros x. apply gates_only_bind; [gates|]. intros y. case_match; gates. }
  cbv beta. intros x Hx. eapply computes_bind; [|apply computes_mvec_add_value|].
  { intros y. case_match; gates. }
  cbv beta. intros y Hy. unfold scalar_xor_in. rewrite <- Hx. simpl. case_match.
  - by apply computes_ret.
  - eapply computes_mono; [apply computes_mvec_add_value|]. cbv beta. intros r Hr. by rewrite Hr, Hy.
Qed.

Lemma computes_compute_rhs sps m :
  compute_rhs sps = Some m →
  computes a m (λ r, mvec_value a r = scalar_compute_rhs (mvec_value a <$> sps)).
Proof.
  unfold compute_rhs. destruct (Nat.eqb_spec (length sps) (K_whip * K_whip)) as [Hlen|]; [|done].
  intros Hm%(inj Some). subst m.
  eapply computes_bind; [intros z; apply gates_only_for, gates_only_whip_step
    |eapply computes_gate, add_constant_gate; done|].
  cbv beta. intros z Hz. unfold scalar_compute_rhs.
  apply (computes_for a _ _ _ (λ l acc, mvec_value a l = acc)).
  - intros x s. apply gates_only_whip_step.
  - intros ij l acc Hij <-. by apply computes_whip_step.
  - unfold mvec_value, planes, arr4_map. cbn [bits at0 at1 at2 at3]. rewrite Hz. done.
Qed.
End correctness.
