(* ===== verification/Quadratic.v ===== *)
(** * The quadratic map

    [crates/binius-mayo/src/quadratic.rs]: the index functions of the three blocks of the
    public matrix, the wires of the expanded key and of the signature, and the two passes
    [compute_ps] and [compute_sps] that evaluate [SPS[row][col] = s[row]^T P s[col]]. *)
From S2P Require Import Prelude Word Gf16 Circuit Gf16Circuit.
From Stdlib Require Import Lia.

(** ** Index functions *)

Definition idx_p1 (i j : nat) : nat := i * (2 * V_vinegar - i + 1) / 2 + (j - i).
Definition idx_p2 (i j : nat) : nat := i * O_oil + j.
Definition idx_p3 (i j : nat) : nat := i * (2 * O_oil - i + 1) / 2 + (j - i).

(** ** Circuits *)

Record ExpandedPkWires (W : Type) := {
  p1 : list (BitslicedGf16Mvec W);
  p2 : list (BitslicedGf16Mvec W);
  p3 : list (BitslicedGf16Mvec W);
}.
Arguments Build_ExpandedPkWires {W}.
Arguments p1 {W}. Arguments p2 {W}. Arguments p3 {W}.

(** [nibble_wires] and [broadcasts], K rows of N. *)
Record SigBroadcasts (W : Type) := {
  nibble_wires : list (list W);
  broadcasts : list (list (BitslicedGf16Mvec W));
}.
Arguments Build_SigBroadcasts {W}.
Arguments nibble_wires {W}. Arguments broadcasts {W}.

Section circuits.
Context {B W : Type} `{CircuitBuilder B W}.

Definition expanded_pk_new_witness : Circ B (ExpandedPkWires W) :=
  p1 ← circ_map (λ _, mvec_new_witness) (seq 0 P1_ENTRIES);
  p2 ← circ_map (λ _, mvec_new_witness) (seq 0 P2_ENTRIES);
  p3 ← circ_map (λ _, mvec_new_witness) (seq 0 P3_ENTRIES);
  mret (Build_ExpandedPkWires p1 p2 p3).

Definition sig_new_witness : Circ B (SigBroadcasts W) :=
  nibble_wires ← circ_map (λ _, circ_map (λ _, add_witness) (seq 0 N_vars)) (seq 0 K_whip);
  broadcasts ← circ_map (circ_map broadcast_scalar) nibble_wires;
  mret (Build_SigBroadcasts nibble_wires broadcasts).

Definition zero_mvec : Circ B (BitslicedGf16Mvec W) :=
  z ← add_constant 0; mret (from_wires (Arr4 z z z z)).

(** [mul_into_acc(&b, scalar, entry, &mut table[n])]. Indexing out of range panics; here it
    gives the zero vector [z], and no index is out of range in the loops below. *)
Definition acc_at (z : BitslicedGf16Mvec W) (scalar entry : BitslicedGf16Mvec W) (n : nat)
    (table : list (BitslicedGf16Mvec W)) : Circ B (list (BitslicedGf16Mvec W)) :=
  acc ← mul_into_acc scalar entry (default z (table !! n));
  mret (<[n := acc]> table).

(** [sb.broadcasts[col][r]]. *)
Definition broadcast_at (z : BitslicedGf16Mvec W) (sb : SigBroadcasts W) (col r : nat) :
    BitslicedGf16Mvec W :=
  default z (default [] (broadcasts sb !! col) !! r).

(** The body of the loop over [col]: the three blocks. *)
Definition ps_column (z : BitslicedGf16Mvec W) (pk : ExpandedPkWires W) (sb : SigBroadcasts W)
    (col : nat) (ps : list (BitslicedGf16Mvec W)) : Circ B (list (BitslicedGf16Mvec W)) :=
  ps ← circ_for (seq 0 V_vinegar) (λ j, circ_for (seq j (V_vinegar - j)) (λ r,
    acc_at z (broadcast_at z sb col r) (default z (p1 pk !! idx_p1 j r)) (j * K_whip + col))) ps;
  ps ← circ_for (seq 0 V_vinegar) (λ j, circ_for (seq V_vinegar (N_vars - V_vinegar)) (λ r,
    acc_at z (broadcast_at z sb col r) (default z (p2 pk !! idx_p2 j (r - V_vinegar)))
      (j * K_whip + col))) ps;
  circ_for (seq V_vinegar (N_vars - V_vinegar)) (λ j, circ_for (seq j (N_vars - j)) (λ r,
    acc_at z (broadcast_at z sb col r)
      (default z (p3 pk !! idx_p3 (j - V_vinegar) (r - V_vinegar))) (j * K_whip + col))) ps.

Definition compute_ps (pk : ExpandedPkWires W) (sb : SigBroadcasts W) :
    Circ B (list (BitslicedGf16Mvec W)) :=
  z ← zero_mvec;
  circ_for (seq 0 K_whip) (ps_column z pk sb) (replicate (N_vars * K_whip) z).

(** [None] is the panic of the length check. *)
Definition compute_sps (sb : SigBroadcasts W) (ps : list (BitslicedGf16Mvec W)) :
    option (Circ B (list (BitslicedGf16Mvec W))) :=
  if length ps =? N_vars * K_whip then Some (
    z ← zero_mvec;
    circ_for (seq 0 K_whip) (λ row, circ_for (seq 0 K_whip) (λ col, circ_for (seq 0 N_vars) (λ j,
      acc_at z (broadcast_at z sb row j) (default z (ps !! (j * K_whip + col)))
        (row * K_whip + col)))) (replicate (K_whip * K_whip) z))
  else None.

(** The writes of [ExpandedPkWires::populate]; [None] is the panic of a length check. *)
Definition expanded_pk_populate `{EqDecision W} (pk : ExpandedPkWires W) (w : valuation W)
    (p1_lanes p2_lanes p3_lanes : list (list N)) : option (valuation W) :=
  if (length p1_lanes =? P1_ENTRIES) && (length p2_lanes =? P2_ENTRIES) &&
     (length p3_lanes =? P3_ENTRIES) then
    let populate_all mvecs lanes w :=
      fold_left (λ w ml, mvec_populate ml.1 w ml.2) (zip mvecs lanes) w in
    Some (populate_all (p3 pk) p3_lanes (populate_all (p2 pk) p2_lanes
      (populate_all (p1 pk) p1_lanes w)))
  else None.

(** The writes of [SigBroadcasts::populate]. *)
Definition sig_populate `{EqDecision W} (sb : SigBroadcasts W) (w : valuation W)
    (s : list (list N)) : valuation W :=
  fold_left (λ w ws, fold_left (λ w wv, <[wv.1 := wv.2]> w) (zip ws.1 ws.2) w)
    (zip (nibble_wires sb) s) w.
End circuits.

(** ** The matrix and the form *)

(** Entry [(j, r)] of the upper-triangular block matrix [P = [P1 P2; 0 P3]]. *)
Definition p_entry (p1 p2 p3 : list (list N)) (j r : nat) : list N :=
  default (replicate M_eqs 0%N)
    (if r <? V_vinegar then p1 !! idx_p1 j r
     else if j <? V_vinegar then p2 !! idx_p2 j (r - V_vinegar)
     else p3 !! idx_p3 (j - V_vinegar) (r - V_vinegar)).

Definition s_entry (s : list (list N)) (col r : nat) : N := default 0%N (default [] (s !! col) !! r).

(** Lane [ell] of [s[row]^T P s[col]]: the sum over [j <= r] of
    [s[row][j] * P[j][r] * s[col][r]]. *)
Definition bilinear_form (p1 p2 p3 s : list (list N)) (row col ell : nat) : N :=
  gf_sum ((λ j, gf_sum ((λ r,
    gf_mul (s_entry s row j)
      (gf_mul (s_entry s col r) (default 0%N (p_entry p1 p2 p3 j r !! ell))))
    <$> seq j (N_vars - j))) <$> seq 0 N_vars).

(** ** Tables updated in place *)

(** [acc + s * v], lane by lane. *)
Definition axpy (acc : list N) (sv : N * list N) : list N :=
  zip_with (λ x y, gf_add x (gf_mul sv.1 y)) acc sv.2.

Lemma fold_left_bind {A B C} (f : C → B → C) (g : A → list B) l c :
  fold_left f (l ≫= g) c = fold_left (λ c x, fold_left f (g x) c) l c.
Proof.
  revert c. induction l as [|x l IH]; intros c; [done|]. rewrite bind_cons, fold_left_app. apply IH.
Qed.

Lemma fold_left_fmap {A B C} (f : C → B → C) (g : A → B) l c :
  fold_left f (g <$> l) c = fold_left (λ c x, f c (g x)) l c.
Proof. revert c. by induction l as [|x l IH]; simpl. Qed.

Lemma fold_alter_lookup {A B} (f : A → B → A) (idx : B → nat) ops (t : list A) n :
  fold_left (λ t op, alter (λ v, f v op) (idx op) t) ops t !! n =
  (λ v, fold_left f (filter (λ op, idx op = n) ops) v) <$> t !! n.
Proof.
  revert t. induction ops as [|op ops IH]; intros t; simpl; [by destruct (t !! n)|].
  rewrite IH, filter_cons. case_decide as Hn.
  - subst n. rewrite list_lookup_alter_eq. by destruct (t !! idx op).
  - by rewrite list_lookup_alter_ne.
Qed.

(** Of a loop whose bodies write to different places, only one touches a given place. *)
Lemma filter_bind_seq {A} (P : A → Prop) `{∀ x, Decision (P x)} (g : nat → list A) m n k :
  m ≤ k < m + n → (∀ x, m ≤ x < m + n → x ≠ k → Forall (λ y, ¬ P y) (g x)) →
  filter P (seq m n ≫= g) = filter P (g k).
Proof.
  intros Hk Hg.
  assert (∀ m' n', m ≤ m' → m' + n' ≤ m + n → (k < m' ∨ m' + n' ≤ k) →
    filter P (seq m' n' ≫= g) = []) as Hnone.
  { intros m' n' Hm Hn Hout. apply filter_none. apply Forall_bind, Forall_seq. intros j Hj.
    apply Hg; lia. }
  replace n with ((k - m) + (1 + (m + n - k - 1))) by lia.
  rewrite !seq_app, !bind_app, !list.filter_app.
  rewrite (Hnone m), (Hnone (m + (k - m) + 1)) by lia. rewrite app_nil_r. cbn [seq app].
  rewrite bind_cons, list.filter_app. replace (m + (k - m)) with k by lia. simpl. by rewrite app_nil_r.
Qed.

(** ** Correctness of the two passes *)

Section gates_only.
Context {B W : Type} `{CircuitLaws B W}.

Lemma gates_only_zero_mvec : gates_only zero_mvec.
Proof. unfold zero_mvec. gates. Qed.
Lemma gates_only_acc_at z s e n t : gates_only (acc_at z s e n t).
Proof. unfold acc_at. gates. Qed.
Lemma gates_only_rows js (rs : nat → list nat)
    (body : nat → nat → list (BitslicedGf16Mvec W) → Circ B (list (BitslicedGf16Mvec W))) t :
  (∀ j r t, gates_only (body j r t)) →
  gates_only (circ_for js (λ j, circ_for (rs j) (body j)) t).
Proof. intros Hb. apply gates_only_for. intros j t'. by apply gates_only_for. Qed.
Lemma gates_only_ps_column z pk sb col ps : gates_only (ps_column z pk sb col ps).
Proof.
  unfold ps_column.
  repeat (apply gates_only_bind; [apply gates_only_rows; intros; apply gates_only_acc_at|intros]).
  apply gates_only_rows. intros. apply gates_only_acc_at.
Qed.
Lemma gates_only_compute_ps pk sb : gates_only (compute_ps pk sb).
Proof.
  unfold compute_ps. apply gates_only_bind; [apply gates_only_zero_mvec|]. intros z.
  apply gates_only_for. apply gates_only_ps_column.
Qed.
Lemma gates_only_compute_sps sb ps m : compute_sps sb ps = Some m → gates_only m.
Proof.
  unfold compute_sps. case_match; [|done]. intros Hm%(inj Some). subst m.
  apply gates_only_bind; [apply gates_only_zero_mvec|]. intros z.
  do 3 (apply gates_only_for; intros). apply gates_only_acc_at.
Qed.
End gates_only.

(** *** The passes on values *)

Section values.
Context (p1 p2 p3 s : list (list N)).

Abbreviation zeros := (replicate M_eqs 0%N).

(** One accumulation of the PS pass, for [(col, j, r)]. *)
Definition ps_step (t : list (list N)) (op : nat * nat * nat) : list (list N) :=
  let '(col, j, r) := op in
  alter (λ acc, axpy acc (s_entry s col r, p_entry p1 p2 p3 j r)) (j * K_whip + col) t.

(** The rows [j] of a block, each with its columns. *)
Definition block (col : nat) (js : list nat) (rs : nat → list nat) : list (nat * nat * nat) :=
  js ≫= λ j, (λ r, (col, j, r)) <$> rs j.

Definition ps_ops_of (col : nat) : list (nat * nat * nat) :=
  block col (seq 0 V_vinegar) (λ j, seq j (V_vinegar - j)) ++
  block col (seq 0 V_vinegar) (λ _, seq V_vinegar (N_vars - V_vinegar)) ++
  block col (seq V_vinegar (N_vars - V_vinegar)) (λ j, seq j (N_vars - j)).

Definition ps_ops : list (nat * nat * nat) := seq 0 K_whip ≫= ps_ops_of.

(** [PS[j][col] = sum of P[j][r] * s[col][r] over r >= j]. *)
Definition ps_value (j col : nat) : list N :=
  fold_left axpy ((λ r, (s_entry s col r, p_entry p1 p2 p3 j r)) <$> seq j (N_vars - j)) zeros.

Definition ps_index (op : nat * nat * nat) : nat := op.1.2 * K_whip + op.1.1.

Lemma block_filter col js rs j :
  NoDup js → col < K_whip → j ∈ js → js = seq (hd 0 js) (length js) →
  filter (λ op, ps_index op = j * K_whip + col) (block col js rs) = (λ r, (col, j, r)) <$> rs j.
Proof.
  intros _ Hcol Hj Hjs. rewrite Hjs in Hj |- *. apply elem_of_seq in Hj. unfold block.
  rewrite (filter_bind_seq _ _ _ _ j) by
    (try lia; intros x _ Hx; apply Forall_fmap, Forall_true; intros r; unfold ps_index; simpl; change K_whip with 4; lia).
  apply filter_all. apply Forall_fmap, Forall_true. done.
Qed.

Lemma block_filter_none col js rs j :
  Forall (λ x, x ≠ j) js → filter (λ op, ps_index op = j * K_whip + col) (block col js rs) = [].
Proof.
  intros Hjs. apply filter_none. apply Forall_bind. revert Hjs. apply Forall_impl. simpl.
  intros x Hx. apply Forall_fmap, Forall_true. intros r. unfold ps_index. simpl.
  change K_whip with 4. lia.
Qed.

(** The accumulations of one entry of the table are its row of the matrix. *)
Lemma ps_ops_filter j col :
  j < N_vars → col < K_whip →
  filter (λ op, ps_index op = j * K_whip + col) ps_ops = (λ r, (col, j, r)) <$> seq j (N_vars - j).
Proof.
  intros Hj Hcol. unfold ps_ops. rewrite (filter_bind_seq _ _ _ _ col); [|lia|]; cycle 1.
  { intros x Hx Hne. assert (∀ js rs, Forall (λ op, ps_index op ≠ j * K_whip + col) (block x js rs)) as Hb.
    { intros js rs. apply Forall_bind, Forall_true. intros j'. apply Forall_fmap, Forall_true.
      intros r. unfold ps_index. simpl. change K_whip with 4 in *. lia. }
    unfold ps_ops_of. by rewrite !Forall_app. }
  unfold ps_ops_of. rewrite !list.filter_app. change V_vinegar with 64 in *. change N_vars with 81 in *.
  destruct (decide (j < 64)) as [Hlt|Hge].
  - rewrite !(block_filter _ (seq 0 64)) by (done || apply NoDup_seq || (apply elem_of_seq; lia)).
    rewrite block_filter_none, app_nil_r by (apply Forall_seq; lia).
    rewrite <- fmap_app. f_equal. replace (81 - j) with ((64 - j) + 17) by lia.
    rewrite seq_app. by replace (j + (64 - j)) with 64 by lia.
  - rewrite !(block_filter_none _ (seq 0 64)) by (apply Forall_seq; lia).
    by rewrite block_filter by (done || apply NoDup_seq || (apply elem_of_seq; lia)).
Qed.

Lemma length_ps_steps ops t : length (fold_left ps_step ops t) = length t.
Proof.
  revert t. induction ops as [|[[c j] r] ops IH]; intros t; [done|]. simpl. rewrite IH.
  apply length_alter.
Qed.

Lemma ps_steps_lookup j col :
  j < N_vars → col < K_whip →
  fold_left ps_step ps_ops (replicate (N_vars * K_whip) zeros) !! (j * K_whip + col) =
  Some (ps_value j col).
Proof.
  intros Hj Hcol.
  assert (∀ t, fold_left ps_step ps_ops t = fold_left (λ t op,
    alter (λ acc, axpy acc (s_entry s op.1.1 op.2, p_entry p1 p2 p3 op.1.2 op.2)) (ps_index op) t)
    ps_ops t) as ->.
  { generalize ps_ops. intros ops. induction ops as [|[[c j'] r] ops IH]; intros t; [done|].
    apply IH. }
  rewrite (fold_alter_lookup (λ acc op,
    axpy acc (s_entry s op.1.1 op.2, p_entry p1 p2 p3 op.1.2 op.2)) ps_index).
  rewrite ps_ops_filter by done. rewrite lookup_replicate_2 by (change K_whip with 4 in *; change N_vars with 81 in *; lia).
  simpl. f_equal. unfold ps_value. rewrite !fold_left_fmap. done.
Qed.
End values.

Section sps_values.
Context (s : list (list N)) (psv : nat → nat → list N).

Definition sps_step (t : list (list N)) (op : nat * nat * nat) : list (list N) :=
  let '(row, col, j) := op in
  alter (λ acc, axpy acc (s_entry s row j, psv j col)) (row * K_whip + col) t.

Definition sps_ops : list (nat * nat * nat) :=
  seq 0 K_whip ≫= λ row, block row (seq 0 K_whip) (λ _, seq 0 N_vars).

(** [sum of s[row][j] * PS[j][col] over j]. *)
Definition sps_value (row col : nat) : list N :=
  fold_left axpy ((λ j, (s_entry s row j, psv j col)) <$> seq 0 N_vars) (replicate M_eqs 0%N).

Lemma length_sps_steps ops t : length (fold_left sps_step ops t) = length t.
Proof.
  revert t. induction ops as [|[[row col] j] ops IH]; intros t; [done|]. simpl. rewrite IH.
  apply length_alter.
Qed.

Lemma sps_steps_lookup row col :
  row < K_whip → col < K_whip →
  fold_left sps_step sps_ops (replicate (K_whip * K_whip) (replicate M_eqs 0%N))
    !! (row * K_whip + col) = Some (sps_value row col).
Proof.
  intros Hrow Hcol.
  assert (∀ t, fold_left sps_step sps_ops t = fold_left (λ t op,
    alter (λ acc, axpy acc (s_entry s op.1.1 op.2, psv op.2 op.1.2)) (op.1.1 * K_whip + op.1.2) t)
    sps_ops t) as ->.
  { generalize sps_ops. intros ops. induction ops as [|[[row' col'] j] ops IH]; intros t; [done|].
    apply IH. }
  rewrite (fold_alter_lookup (λ acc op, axpy acc (s_entry s op.1.1 op.2, psv op.2 op.1.2))
    (λ op, op.1.1 * K_whip + op.1.2)).
  change K_whip with 4 in *. rewrite lookup_replicate_2 by lia. cbn [fmap option_fmap option_map].
  f_equal. unfold sps_ops. change K_whip with 4.
  rewrite (filter_bind_seq _ _ _ _ row); [|lia|]; cycle 1.
  { intros x Hx Hne. unfold block. apply Forall_bind, Forall_seq. intros y Hy.
    apply Forall_fmap, Forall_true. intros j. simpl. lia. }
  unfold block. rewrite (filter_bind_seq _ _ _ _ col); [|lia|]; cycle 1.
  { intros y Hy Hne. apply Forall_fmap, Forall_true. intros j. simpl. lia. }
  rewrite filter_all by (apply Forall_fmap, Forall_true; done).
  unfold sps_value. by rewrite !fold_left_fmap.
Qed.
End sps_values.

Section correctness.
Context {B W : Type} `{CircuitLaws B W} (a : valuation W).

Abbreviation zeros := (replicate M_eqs 0%N).

Lemma computes_zero_mvec : computes a zero_mvec (λ z, mvec_value a z = zeros).
Proof.
  unfold zero_mvec. gate_step. apply computes_ret. unfold mvec_value, planes, arr4_map.
  cbn [bits at0 at1 at2 at3]. by rewrite Hw.
Qed.

(** A broadcast scalar: every lane is [v]. *)
Definition carries (x : BitslicedGf16Mvec W) (v : N) : Prop := ∀ i, i < 64 → mvec_lane a x i = v.

Lemma computes_mul_into_acc_value s v acc x :
  carries s v →
  computes a (mul_into_acc s x acc)
    (λ r, mvec_value a r = axpy (mvec_value a acc) (v, mvec_value a x)).
Proof.
  intros Hs. eapply computes_mono; [apply computes_mul_into_acc|]. cbv beta. intros r Hr.
  apply mvec_value_lanes; [unfold axpy; by rewrite length_zip_with, !length_mvec_value|].
  intros i Hi. unfold axpy. cbn [fst snd]. rewrite lookup_zip_with, !mvec_value_lookup by done. simpl.
  by rewrite Hr, Hs.
Qed.

(** A table of vectors and its values; missing entries count as zero. *)
Definition table_value (t : list (BitslicedGf16Mvec W)) : list (list N) := mvec_value a <$> t.

Lemma table_value_lookup z t n :
  mvec_value a z = zeros → mvec_value a (default z (t !! n)) = default zeros (table_value t !! n).
Proof. intros Hz. unfold table_value. rewrite list_lookup_fmap. by destruct (t !! n). Qed.

Lemma computes_acc_at z s v e n t :
  mvec_value a z = zeros → carries s v →
  computes a (acc_at z s e n t) (λ t',
    table_value t' = alter (λ acc, axpy acc (v, mvec_value a e)) n (table_value t)).
Proof.
  intros Hz Hs. unfold acc_at. eapply computes_bind; [intros; gates
    |by apply computes_mul_into_acc_value|]. cbv beta. intros acc Hacc. apply computes_ret.
  rewrite (table_value_lookup z) in Hacc by done. unfold table_value in *. rewrite list_fmap_insert.
  apply list_eq. intros m.
  destruct (decide (m = n)) as [->|Hm].
  - rewrite list_lookup_alter_eq. destruct ((mvec_value a <$> t) !! n) as [v'|] eqn:Hn.
    + simpl in *. rewrite list_lookup_insert_eq by (by eapply lookup_lt_Some). by rewrite Hacc.
    + simpl. apply lookup_ge_None in Hn. apply lookup_ge_None. by rewrite length_insert.
  - by rewrite list_lookup_insert_ne, list_lookup_alter_ne.
Qed.

(** The broadcasts carry the signature [s]. *)
Definition broadcasts_carry (sb : SigBroadcasts W) (s : list (list N)) : Prop :=
  Forall2 (Forall2 carries) (broadcasts sb) s.

Lemma broadcast_at_carries z sb s col r :
  mvec_value a z = zeros → broadcasts_carry sb s →
  carries (broadcast_at z sb col r) (s_entry s col r).
Proof.
  intros Hz Hs.
  assert (carries z 0) as Hz0.
  { intros i Hi. pose proof (mvec_value_lookup a z i Hi) as Hl. rewrite Hz in Hl.
    rewrite lookup_replicate_2 in Hl by done. by simplify_eq. }
  unfold broadcast_at, s_entry. destruct (broadcasts sb !! col) as [row|] eqn:Hrow; simpl.
  - destruct (Forall2_lookup_l _ _ _ _ _ Hs Hrow) as (vs & Hvs & Hrows). rewrite Hvs. simpl.
    destruct (row !! r) as [x|] eqn:Hx; simpl.
    + destruct (Forall2_lookup_l _ _ _ _ _ Hrows Hx) as (v & Hv & Hxv). by rewrite Hv.
    + apply lookup_ge_None in Hx. rewrite (Forall2_length Hrows) in Hx.
      by rewrite (lookup_ge_None_2 _ _ Hx).
  - apply lookup_ge_None in Hrow. rewrite (Forall2_length Hs) in Hrow.
    by rewrite (lookup_ge_None_2 _ _ Hrow).
Qed.

(** Two nested loops that update a table. *)
Lemma computes_block (step : list (list N) → nat * nat * nat → list (list N)) col js rs
    (body : nat → nat → list (BitslicedGf16Mvec W) → Circ B (list (BitslicedGf16Mvec W))) t :
  (∀ j r t, gates_only (body j r t)) →
  (∀ j r t, j ∈ js → r ∈ rs j → computes a (body j r t)
    (λ t', table_value t' = step (table_value t) (col, j, r))) →
  computes a (circ_for js (λ j, circ_for (rs j) (body j)) t)
    (λ t', table_value t' = fold_left step (block col js rs) (table_value t)).
Proof.
  intros Hg Hbody. unfold block. rewrite fold_left_bind.
  apply (computes_for a _ _ _ (λ t v, table_value t = v)); [|intros j t' v Hj <-|done].
  { intros. by apply gates_only_for. }
  rewrite fold_left_fmap.
  apply (computes_for a _ _ _ (λ t v, table_value t = v)); [by intros| |done].
  intros r t'' v Hr <-. by apply Hbody.
Qed.

Lemma computes_ps_column z pk sb s col t :
  mvec_value a z = zeros → broadcasts_carry sb s →
  computes a (ps_column z pk sb col t) (λ t', table_value t' =
    fold_left (ps_step (table_value (p1 pk)) (table_value (p2 pk)) (table_value (p3 pk)) s)
      (ps_ops_of col) (table_value t)).
Proof.
  intros Hz Hs. set (step := ps_step _ _ _ s).
  assert (∀ e j r t, mvec_value a e = p_entry (table_value (p1 pk)) (table_value (p2 pk))
      (table_value (p3 pk)) j r →
    computes a (acc_at z (broadcast_at z sb col r) e (j * K_whip + col) t)
      (λ t', table_value t' = step (table_value t) (col, j, r))) as Hacc.
  { intros e j r t' He. unfold step, ps_step. rewrite <- He. apply computes_acc_at; [done|].
    by apply broadcast_at_carries. }
  assert (V_vinegar = 64) as HV by done. assert (N_vars = 81) as HN by done.
  unfold ps_column, ps_ops_of. rewrite !fold_left_app. unfold step in *. clear step.
  eapply computes_bind; [|apply computes_block|cbv beta; intros t1 <-; eapply computes_bind;
    [|apply computes_block|cbv beta; intros t2 <-; apply computes_block]].
  - intros t1. apply gates_only_bind; [|intros t2];
      apply gates_only_rows; intros; apply gates_only_acc_at.
  - intros. apply gates_only_acc_at.
  - intros j r t' Hj%elem_of_seq Hr%elem_of_seq. apply Hacc.
    rewrite (table_value_lookup z) by done. unfold p_entry.
    by rewrite (proj2 (Nat.ltb_lt r V_vinegar)) by lia.
  - intros t2. apply gates_only_rows; intros; apply gates_only_acc_at.
  - intros. apply gates_only_acc_at.
  - intros j r t' Hj%elem_of_seq Hr%elem_of_seq. apply Hacc.
    rewrite (table_value_lookup z) by done. unfold p_entry.
    by rewrite (proj2 (Nat.ltb_ge r V_vinegar)), (proj2 (Nat.ltb_lt j V_vinegar)) by lia.
  - intros. apply gates_only_acc_at.
  - intros j r t' Hj%elem_of_seq Hr%elem_of_seq. apply Hacc.
    rewrite (table_value_lookup z) by done. unfold p_entry.
    by rewrite (proj2 (Nat.ltb_ge r V_vinegar)), (proj2 (Nat.ltb_ge j V_vinegar)) by lia.
Qed.

Lemma computes_compute_ps pk sb s :
  broadcasts_carry sb s →
  computes a (compute_ps pk sb) (λ ps, length ps = N_vars * K_whip ∧
    ∀ j col, j < N_vars → col < K_whip → table_value ps !! (j * K_whip + col) =
    Some (ps_value (table_value (p1 pk)) (table_value (p2 pk)) (table_value (p3 pk)) s j col)).
Proof.
  intros Hs. eapply computes_mono with (λ ps, table_value ps =
    fold_left (ps_step (table_value (p1 pk)) (table_value (p2 pk)) (table_value (p3 pk)) s)
      ps_ops (replicate (N_vars * K_whip) zeros)); cycle 1.
  { intros ps Hps. split.
    - rewrite <- (length_fmap (mvec_value a)). fold (table_value ps). rewrite Hps.
      by rewrite length_ps_steps, length_replicate.
    - intros j col Hj Hcol. rewrite Hps. by apply ps_steps_lookup. }
  unfold compute_ps. eapply computes_bind; [|apply computes_zero_mvec|].
  { intros z. apply gates_only_for, gates_only_ps_column. }
  cbv beta. intros z Hz. unfold ps_ops. rewrite fold_left_bind.
  apply (computes_for a _ _ _ (λ t v, table_value t = v)); [apply gates_only_ps_column| |].
  - intros col t v _ <-. by apply computes_ps_column.
  - unfold table_value. by rewrite fmap_replicate, Hz.
Qed.

Lemma computes_compute_sps sb ps s (psv : nat → nat → list N) m :
  broadcasts_carry sb s →
  (∀ j col, j < N_vars → col < K_whip → table_value ps !! (j * K_whip + col) = Some (psv j col)) →
  compute_sps sb ps = Some m →
  computes a m (λ sps, length sps = K_whip * K_whip ∧ ∀ row col, row < K_whip → col < K_whip →
    table_value sps !! (row * K_whip + col) = Some (sps_value s psv row col)).
Proof.
  intros Hs Hps. unfold compute_sps. case_match; [|done]. intros Hm%(inj Some). subst m.
  eapply computes_mono with (λ sps, table_value sps =
    fold_left (sps_step s psv) sps_ops (replicate (K_whip * K_whip) zeros)); cycle 1.
  { intros sps Hsps. split.
    - rewrite <- (length_fmap (mvec_value a)). fold (table_value sps). rewrite Hsps.
      by rewrite length_sps_steps, length_replicate.
    - intros row col Hrow Hcol. rewrite Hsps. by apply sps_steps_lookup. }
  eapply computes_bind; [|apply computes_zero_mvec|].
  { intros z. do 3 (apply gates_only_for; intros). apply gates_only_acc_at. }
  cbv beta. intros z Hz. unfold sps_ops. rewrite fold_left_bind.
  apply (computes_for a _ _ _ (λ t v, table_value t = v)).
  - intros. apply gates_only_rows. intros. apply gates_only_acc_at.
  - intros row t v _ <-. apply computes_block; [intros; apply gates_only_acc_at|].
    intros col j t' Hcol%elem_of_seq Hj%elem_of_seq. unfold sps_step.
    replace (psv j col) with (mvec_value a (default z (ps !! (j * K_whip + col)))).
    { apply computes_acc_at; [done|]. by apply broadcast_at_carries. }
    rewrite (table_value_lookup z) by done. by rewrite Hps by lia.
  - unfold table_value. by rewrite fmap_replicate, Hz.
Qed.
End correctness.

(** *** Lengths, whatever the wires carry *)

Section lengths.
Context {B W : Type} `{CircuitBuilder B W}.

Lemma returns_acc_at z s e n t k :
  length t = k → returns (acc_at z s e n t) (λ t', length t' = k).
Proof.
  intros Ht. unfold acc_at. eapply returns_bind; [apply returns_any|]. intros acc _.
  apply returns_ret. by rewrite length_insert.
Qed.

Lemma returns_rows js (rs : nat → list nat)
    (body : nat → nat → list (BitslicedGf16Mvec W) → Circ B (list (BitslicedGf16Mvec W))) t k :
  (∀ j r t, length t = k → returns (body j r t) (λ t', length t' = k)) → length t = k →
  returns (circ_for js (λ j, circ_for (rs j) (body j)) t) (λ t', length t' = k).
Proof.
  intros Hb. apply (returns_for _ _ (λ t, length t = k)). intros j t' Ht'.
  apply (returns_for _ _ (λ t, length t = k)); [|done]. intros r t'' Ht''. by apply Hb.
Qed.

Lemma compute_ps_length pk sb :
  returns (compute_ps pk sb) (λ ps, length ps = N_vars * K_whip).
Proof.
  unfold compute_ps. eapply returns_bind; [apply returns_any|]. intros z _.
  apply (returns_for _ _ (λ t, length t = N_vars * K_whip)); [|apply length_replicate]. intros col ps Hps. unfold ps_column.
  eapply returns_bind; [apply returns_rows; [intros; by apply returns_acc_at|exact Hps]|].
  cbv beta. intros ps1 Hps1.
  eapply returns_bind; [apply returns_rows; [intros; by apply returns_acc_at|exact Hps1]|].
  cbv beta. intros ps2 Hps2. apply returns_rows; [intros; by apply returns_acc_at|done].
Qed.

Lemma compute_sps_length sb ps m :
  compute_sps sb ps = Some m → returns m (λ sps, length sps = K_whip * K_whip).
Proof.
  unfold compute_sps. case_match; [|done]. intros Hm%(inj Some). subst m.
  eapply returns_bind; [apply returns_any|]. intros z _.
  apply (returns_for _ _ (λ t, length t = K_whip * K_whip)); [|apply length_replicate]. intros row t Ht.
  apply returns_rows; [|done]. intros. by apply returns_acc_at.
Qed.
End lengths.

(** *** The bilinear form *)

(** Accumulated products, lane by lane. *)
Lemma fold_axpy_lookup l v i x :
  v !! i = Some x → is_gf16 x → Forall (λ sv, i < length sv.2) l →
  fold_left axpy l v !! i =
  Some (gf_add x (gf_sum ((λ sv, gf_mul sv.1 (default 0%N (sv.2 !! i))) <$> l))).
Proof.
  intros Hv Hx Hl. revert v x Hv Hx. induction Hl as [|[s u] l Hu Hl IH]; intros v x Hv Hx; simpl.
  - by rewrite gf_add_comm, gf_add_0_l, Hv.
  - simpl in Hu. destruct (lookup_lt_is_Some_2 u i Hu) as [y Hy].
    rewrite (IH _ (gf_add x (gf_mul s y))); [|unfold axpy; by rewrite lookup_zip_with, Hv; simpl; rewrite Hy|apply gf_add_gf16].
    rewrite Hy. simpl. by rewrite gf_add_assoc.
Qed.

Lemma length_fold_axpy l v n :
  length v = n → Forall (λ sv, length sv.2 = n) l → length (fold_left axpy l v) = n.
Proof.
  intros Hv Hl. revert v Hv. induction Hl as [|[s u] l Hu Hl IH]; intros v Hv; [done|].
  apply IH. unfold axpy. rewrite length_zip_with, Hv, Hu. lia.
Qed.

(** A public matrix of 64-lane vectors. *)
Definition is_matrix (p1 p2 p3 : list (list N)) : Prop :=
  Forall is_mvec p1 ∧ Forall is_mvec p2 ∧ Forall is_mvec p3.

Lemma p_entry_mvec p1 p2 p3 j r : is_matrix p1 p2 p3 → is_mvec (p_entry p1 p2 p3 j r).
Proof.
  intros (H1 & H2 & H3). unfold p_entry.
  assert (is_mvec (replicate M_eqs 0%N)) as Hz by (split; [done|by apply Forall_replicate]).
  assert (∀ p i, Forall is_mvec p → is_mvec (default (replicate M_eqs 0%N) (p !! i))) as Hp.
  { intros p i Hp. destruct (p !! i) eqn:Hi; [|done]. exact (Forall_lookup_1 _ _ _ _ Hp Hi). }
  repeat case_match; by apply Hp.
Qed.

Lemma ps_value_lookup p1 p2 p3 s j col i :
  is_matrix p1 p2 p3 → i < M_eqs →
  ps_value p1 p2 p3 s j col !! i = Some (gf_sum ((λ r,
    gf_mul (s_entry s col r) (default 0%N (p_entry p1 p2 p3 j r !! i))) <$> seq j (N_vars - j))).
Proof.
  intros Hp Hi. unfold ps_value. rewrite (fold_axpy_lookup _ _ _ 0%N); [|by apply lookup_replicate_2|done|].
  - rewrite gf_add_0_l by apply gf_sum_gf16. by rewrite <- list_fmap_compose.
  - apply Forall_fmap, Forall_true. intros r. simpl. by rewrite (proj1 (p_entry_mvec _ _ _ j r Hp)).
Qed.

Lemma length_ps_value p1 p2 p3 s j col :
  is_matrix p1 p2 p3 → length (ps_value p1 p2 p3 s j col) = M_eqs.
Proof.
  intros Hp. apply length_fold_axpy; [apply length_replicate|]. apply Forall_fmap, Forall_true.
  intros r. simpl. by rewrite (proj1 (p_entry_mvec _ _ _ j r Hp)).
Qed.

Lemma sps_value_bilinear p1 p2 p3 s row col i :
  is_matrix p1 p2 p3 → i < M_eqs →
  sps_value s (ps_value p1 p2 p3 s) row col !! i = Some (bilinear_form p1 p2 p3 s row col i).
Proof.
  intros Hp Hi. unfold sps_value.
  rewrite (fold_axpy_lookup _ _ _ 0%N); [|by apply lookup_replicate_2|done|].
  - rewrite gf_add_0_l by apply gf_sum_gf16. f_equal. unfold bilinear_form. f_equal.
    rewrite <- list_fmap_compose. apply list_fmap_ext. intros n j _. simpl.
    rewrite ps_value_lookup by done. simpl. rewrite gf_mul_sum. f_equal.
    by rewrite <- list_fmap_compose.
  - apply Forall_fmap, Forall_true. intros j. simpl. by rewrite length_ps_value.
Qed.

(** ** The properties of the quadratic map *)

(** The index functions enumerate their blocks: row by row, the entries of the upper triangle of
    P1 (or P3) and of the rectangle P2 get the indices 0, 1, 2, ... up to the number of entries of
    the block, so that no index is out of range and no two entries share one. *)
Theorem idx_enumerates :
  (i ← seq 0 V_vinegar; idx_p1 i <$> seq i (V_vinegar - i)) = seq 0 P1_ENTRIES ∧
  (i ← seq 0 V_vinegar; idx_p2 i <$> seq 0 O_oil) = seq 0 P2_ENTRIES ∧
  (i ← seq 0 O_oil; idx_p3 i <$> seq i (O_oil - i)) = seq 0 P3_ENTRIES.
Proof. split_and!; vm_compute; reflexivity. Qed.

Section properties.
Context {B W : Type} `{CircuitLaws B W}.

(** The two passes evaluate the quadratic form: under every valuation that obeys their gates,
    for broadcasts that carry the scalars [s], entry [row * K + col] of the result is the vector
    whose lane [ell] is the sum over [j <= r] of [s[row][j] * P[j][r][ell] * s[col][r]], where
    [P] is the block matrix of the key. *)
Theorem sps_evaluates_form (a : valuation W) (pk : ExpandedPkWires W) (sb : SigBroadcasts W) s :
  broadcasts_carry a sb s →
  computes a (ps ← compute_ps pk sb; match compute_sps sb ps with Some m => m | None => mret [] end)
    (λ sps, length sps = K_whip * K_whip ∧
      ∀ row col ell, row < K_whip → col < K_whip → ell < M_eqs →
      table_value a sps !! (row * K_whip + col) ≫= lookup ell =
      Some (bilinear_form (table_value a (p1 pk)) (table_value a (p2 pk)) (table_value a (p3 pk))
        s row col ell)).
Proof.
  intros Hs. eapply computes_bind; [|by apply computes_compute_ps|].
  { intros ps. case_match eqn:Hm; [by eapply gates_only_compute_sps|gates]. }
  cbv beta. intros ps [Hlen Hps].
  case_match eqn:Hm; [|unfold compute_sps in Hm; by rewrite Hlen in Hm].
  eapply computes_mono; [by eapply computes_compute_sps|]. cbv beta. intros sps [Hsps Hval].
  split; [done|]. intros row col ell Hrow Hcol Hell. rewrite Hval by done. cbn [mbind option_bind].
  apply sps_value_bilinear; [|done].
  repeat split; apply Forall_fmap, Forall_true; intros; apply mvec_value_mvec.
Qed.
End properties.
