(* ===== verification/Mayo.v ===== *)
(** * The MAYO-2 verifier circuit

    [crates/binius-mayo/src]: the byte helpers of [util.rs], the single-block SHAKE-256 gadget
    of [shake256.rs], the off-circuit commitments and key expansion of [api.rs], and
    [Mayo2Verify::new] and [populate] of [verify.rs]. Hash functions, AES and their circuits are
    third-party code: class [Primitives] names them and [PrimitiveLaws] and [GadgetLaws] state
    their documented behaviour. *)
From S2P Require Import Prelude Word Gf16 Circuit Gf16Circuit Whipping Quadratic.
From Stdlib Require Import Lia.

(** ** Words and bytes *)

(** [n] little-endian words of a byte string ([chunks_exact(8)] and [u64::from_le_bytes]), and
    back. *)
Definition le_words (n : nat) (bs : bytes) : list N :=
  (λ i, le_value (slice (8 * i) 8 bs)) <$> seq 0 n.
Definition words_bytes (ws : list N) : bytes := ws ≫= le_bytes 8.

(** The low nibble of a byte, then its high nibble. *)
Definition byte_nibbles (b : byte) : list N :=
  [N.land (Byte.to_N b) 0x0F; N.land (N.shiftr (Byte.to_N b) 4) 0x0F].

(** [write_le_words]: the writes to the filler; [None] is the panic of the length check. *)
Definition write_le_words {W} `{EqDecision W} (w : valuation W) (wires : list W) (bs : bytes) :
    option (valuation W) :=
  if length wires * 8 =? length bs then
    Some (fold_left (λ w wv, <[wv.1 := wv.2]> w) (zip wires (le_words (length wires) bs)) w)
  else None.

(** ** Hash functions and ciphers *)

(** [sha3::Keccak256], [sha3::Shake256] with 32 bytes of output, the Keccak-f[1600]
    permutation on 25 words, and AES-128 on a block, under a key. *)
Class Primitives := {
  keccak256 : bytes → bytes;
  shake256_32 : bytes → bytes;
  keccak_f1600 : list N → list N;
  aes128_encrypt_block : bytes → bytes → bytes;
}.

Definition N_WORDS_PER_BLOCK : nat := 17.
Definition N_WORDS_PER_STATE : nat := 25.

(** The lengths of the outputs, and the SHAKE-256 sponge of FIPS 202 on a message that fits in
    a block: pad with [0x1F], zeros and [0x80] to the rate of 136 bytes, permute, and take the
    first 32 bytes. *)
Class PrimitiveLaws `{Primitives} : Prop := {
  length_keccak256 bs : length (keccak256 bs) = 32;
  length_shake256_32 bs : length (shake256_32 bs) = 32;
  length_keccak_f1600 st :
    length st = N_WORDS_PER_STATE → length (keccak_f1600 st) = N_WORDS_PER_STATE;
  keccak_f1600_words st : Forall is_word (keccak_f1600 st);
  length_aes128 key block : length block = 16 → length (aes128_encrypt_block key block) = 16;
  shake256_block bs : length bs < 135 →
    shake256_32 bs = words_bytes (take 4 (keccak_f1600
      (le_words N_WORDS_PER_BLOCK (bs ++ [x1f] ++ replicate (134 - length bs) x00 ++ [x80]) ++
       replicate (N_WORDS_PER_STATE - N_WORDS_PER_BLOCK) 0%N)));
}.

(** ** Commitments *)

Definition DOMAIN_TAG_LEN : nat := 8.
Definition DOMAIN_TAG_C : bytes := [x01; x00; x00; x00; x00; x00; x00; x00].
Definition DOMAIN_TAG_PK : bytes := [x02; x00; x00; x00; x00; x00; x00; x00].
Definition DOMAIN_TAG_C_WORD : N := le_value DOMAIN_TAG_C.
Definition DOMAIN_TAG_PK_WORD : N := le_value DOMAIN_TAG_PK.

Section api.
Context `{Primitives}.

Definition compute_c_from_digest (m : bytes) : bytes := keccak256 (DOMAIN_TAG_C ++ m).
Definition compute_c (payload : bytes) : bytes := compute_c_from_digest (shake256_32 payload).

(** The bytes hashed into the fingerprint of a key. *)
Definition canonical_packed (p1 p2 p3 : list (list N)) : bytes :=
  (p1 ++ p2 ++ p3) ≫= λ lanes, words_bytes (arr4_list (pack_lanes lanes)).

(** [None] is the panic of an entry count. *)
Definition pk_id_from_lanes (p1 p2 p3 : list (list N)) : option bytes :=
  if (length p1 =? P1_ENTRIES) && (length p2 =? P2_ENTRIES) && (length p3 =? P3_ENTRIES) then
    Some (keccak256 (DOMAIN_TAG_PK ++ canonical_packed p1 p2 p3))
  else None.

(** [counter.to_be_bytes()] of a [u32]. *)
Definition be_bytes4 (n : N) : bytes := rev (le_bytes 4 n).

(** [fill_entry] of [expand_pk_to_lanes], from and to the counter: two AES blocks. *)
Definition fill_entry (key : bytes) (counter : N) : list N * N :=
  fold_left (λ ec half,
    let '(entry, counter) := ec in
    let blk := aes128_encrypt_block key (replicate 12 x00 ++ be_bytes4 counter) in
    (entry ++ (blk ≫= byte_nibbles), ((counter + 1) mod 2 ^ 32)%N)) (seq 0 (M_VEC_BYTES / 16)) ([], counter).

(** [unpack_m_vec_array]; [None] is the panic of its length check. *)
Definition unpack_m_vec_array (packed : bytes) (n_entries : nat) : option (list (list N)) :=
  if length packed =? n_entries * (M_eqs / 2) then
    Some ((λ i, slice (i * (M_eqs / 2)) (M_eqs / 2) packed ≫= byte_nibbles) <$> seq 0 n_entries)
  else None.

Definition expand_pk_to_lanes (cpk : bytes) : option (list (list N) * list (list N) * list (list N)) :=
  let pk_seed := take PK_SEED_BYTES cpk in
  let p3_packed := drop PK_SEED_BYTES cpk in
  let fill n counter := fold_left (λ ec _,
    let '(entries, counter) := ec in
    let '(e, counter) := fill_entry pk_seed counter in (entries ++ [e], counter))
    (seq 0 n) ([], counter) in
  let '(p1, counter) := fill P1_ENTRIES 0%N in
  let '(p2, counter) := fill P2_ENTRIES counter in
  p3 ← unpack_m_vec_array p3_packed P3_ENTRIES;
  Some (p1, p2, p3).

Definition compute_pk_id (cpk : bytes) : option bytes :=
  '(p1, p2, p3) ← expand_pk_to_lanes cpk; pk_id_from_lanes p1 p2 p3.

Definition compute_commitments (payload cpk : bytes) : option (bytes * bytes) :=
  pk_id ← compute_pk_id cpk; Some (compute_c payload, pk_id).
End api.

(** ** The circuits *)

(** [binius_circuits::keccak]: Keccak-256 of the bytes of a list of words, and the
    permutation. *)
Class Gadgets (B W : Type) := {
  keccak256_circuit : list W → nat → Circ B (arr4 W);
  keccak_f1600_circuit : list W → Circ B (list W);
}.

Class GadgetLaws (B W : Type) `{CircuitBuilder B W, Primitives, Gadgets B W} : Prop := {
  keccak256_gates ws n : gates_only (keccak256_circuit ws n);
  keccak256_computes a ws n : n = 8 * length ws →
    computes a (keccak256_circuit ws n) (λ r,
      words_bytes (arr4_list (arr4_map a r)) = keccak256 (words_bytes (a <$> ws)));
  keccak_f1600_gates ws : gates_only (keccak_f1600_circuit ws);
  keccak_f1600_returns ws : length ws = N_WORDS_PER_STATE →
    returns (keccak_f1600_circuit ws) (λ r, length r = N_WORDS_PER_STATE);
  keccak_f1600_computes a ws : length ws = N_WORDS_PER_STATE →
    computes a (keccak_f1600_circuit ws) (λ r, a <$> r = keccak_f1600 (a <$> ws));
}.

Record Mayo2Verify (W : Type) := {
  c : arr4 W;
  pk_id : arr4 W;
  msg_wires : arr4 W;
  pk_wires : ExpandedPkWires W;
  sig : SigBroadcasts W;
  salt_wires : list W;
}.
Arguments Build_Mayo2Verify {W}.
Arguments c {W}. Arguments pk_id {W}. Arguments msg_wires {W}. Arguments pk_wires {W}.
Arguments sig {W}. Arguments salt_wires {W}.

Definition N_DIGEST_WORDS : nat := 4.
Definition N_SALT_WORDS : nat := SALT_BYTES / 8.
Definition SHAKE_DOMAIN_SEP : N := 0x1F.

Section circuits.
Context {B W : Type} `{CircuitBuilder B W, Gadgets B W}.

(** [shake256_single_block_to_32]; [None] is the panic of one of its assertions. *)
Definition shake256_single_block_to_32 (input : list W) (input_byte_len : nat) :
    option (Circ B (arr4 W)) :=
  if negb (length input * 8 =? input_byte_len) then None
  else if negb (input_byte_len <? N_WORDS_PER_BLOCK * 8) then None
  else if negb (length input <? N_WORDS_PER_BLOCK - 1) then None
  else Some (
    zero ← add_constant 0;
    let block := splice 0 input (replicate N_WORDS_PER_BLOCK zero) in
    let dom_word_idx := length input in
    sep ← add_constant SHAKE_DOMAIN_SEP;
    let block := <[dom_word_idx := sep]> block in
    last_byte_high ← add_constant (N.shiftl 0x80 56);
    let block := <[N_WORDS_PER_BLOCK - 1 := last_byte_high]> block in
    let state := splice 0 block (replicate N_WORDS_PER_STATE zero) in
    state ← keccak_f1600_circuit state;
    mret (arr4_from_fn (λ i, default zero (state !! i)))).

Definition shake256_56_to_32 (in56 : list W) : option (Circ B (arr4 W)) :=
  shake256_single_block_to_32 in56 56.

(** The assertions of two digests' equality, word by word. *)
Definition assert_digest_eq (x y : arr4 W) : Circ B () :=
  circ_for (seq 0 N_DIGEST_WORDS) (λ i _, wire_assert_eq (arr4_get x i) (arr4_get y i)) ().

(** Constraint 1: [keccak256(DOMAIN_C ‖ m) == c]. *)
Definition hash_message (msg c : arr4 W) : Circ B () :=
  tag ← add_constant DOMAIN_TAG_C_WORD;
  c_hat ← keccak256_circuit (tag :: arr4_list msg) (DOMAIN_TAG_LEN + 32);
  assert_digest_eq c_hat c.

(** Constraint 2: [keccak256(DOMAIN_PK ‖ canonical_packed(P)) == pk_id]; [None] is the panic
    of the length check. *)
Definition hash_pk (pk : ExpandedPkWires W) (pk_id : arr4 W) : Circ B (option ()) :=
  let total_words := (P1_ENTRIES + P2_ENTRIES + P3_ENTRIES) * (M_VEC_BYTES / 8) in
  tag ← add_constant DOMAIN_TAG_PK_WORD;
  packed ← circ_for (p1 pk ++ p2 pk ++ p3 pk) (λ mvec packed,
    words ← bitsliced_to_packed mvec; mret (packed ++ arr4_list words)) [tag];
  if length packed =? 1 + total_words then
    pk_id_hat ← keccak256_circuit packed (DOMAIN_TAG_LEN + EXPANDED_PK_BYTES);
    assert_digest_eq pk_id_hat pk_id;; mret (Some ())
  else mret None.

(** Constraints 3 to 5: [compute_rhs(compute_sps(compute_ps(P, s))) == SHAKE-256(m ‖ salt)].
    [None] is the panic of an assertion on lengths. *)
Definition check_signature (msg : arr4 W) (pk : ExpandedPkWires W) (sig : SigBroadcasts W)
    (salt : list W) : Circ B (option ()) :=
  let in56 := arr4_list msg ++ salt in
  match shake256_56_to_32 in56 with
  | None => mret None
  | Some shake =>
      t_packed ← shake;
      t ← packed_to_bitsliced t_packed;
      ps ← compute_ps pk sig;
      match compute_sps sig ps with
      | None => mret None
      | Some sps_pass =>
          sps ← sps_pass;
          match compute_rhs sps with
          | None => mret None
          | Some rhs => y ← rhs; mvec_assert_eq y t;; mret (Some ())
          end
      end
  end.

(** [Mayo2Verify::new]; [None] if an assertion of the code panics. *)
Definition mayo2_verify_new : Circ B (option (Mayo2Verify W)) :=
  c ← circ_arr4 (λ _, add_inout);
  pk_id ← circ_arr4 (λ _, add_inout);
  msg_wires ← circ_arr4 (λ _, add_witness);
  pk_wires ← expanded_pk_new_witness;
  sig ← sig_new_witness;
  salt_wires ← circ_map (λ _, add_witness) (seq 0 N_SALT_WORDS);
  hash_message msg_wires c;;
  hashed ← hash_pk pk_wires pk_id;
  match hashed with
  | None => mret None
  | Some _ =>
      checked ← check_signature msg_wires pk_wires sig salt_wires;
      mret ((λ _, Build_Mayo2Verify c pk_id msg_wires pk_wires sig salt_wires) <$> checked)
  end.
End circuits.

(** [Mayo2Verify::populate] on a filler: the writes, in order; [None] is a panic. *)
Definition mayo2_populate {W} `{EqDecision W, Primitives} (mv : Mayo2Verify W) (w : valuation W)
    (m : bytes) (p1_lanes p2_lanes p3_lanes : list (list N)) (sig_bytes : bytes) :
    option (valuation W) :=
  w ← write_le_words w (arr4_list (msg_wires mv)) m;
  w ← expanded_pk_populate (pk_wires mv) w p1_lanes p2_lanes p3_lanes;
  let s_bytes := take S_BYTES sig_bytes in
  let salt_bytes := slice S_BYTES (SIG_BYTES - S_BYTES) sig_bytes in
  let nibbles := s_bytes ≫= byte_nibbles in
  let s_lanes := (λ col, slice (col * N_vars) N_vars nibbles) <$> seq 0 K_whip in
  let w := sig_populate (sig mv) w s_lanes in
  w ← write_le_words w (salt_wires mv) salt_bytes;
  w ← write_le_words w (arr4_list (c mv)) (compute_c_from_digest m);
  pk_id_bytes ← pk_id_from_lanes p1_lanes p2_lanes p3_lanes;
  write_le_words w (arr4_list (pk_id mv)) pk_id_bytes.

(** ** The statement of the circuit *)

(** The public map of MAYO: the sixteen forms [s[row]^T P s[col]], whipped. *)
Definition public_map (p1 p2 p3 s : list (list N)) : list N :=
  scalar_compute_rhs ((λ n, bilinear_form p1 p2 p3 s (n / K_whip) (n mod K_whip) <$> seq 0 M_eqs)
    <$> seq 0 (K_whip * K_whip)).

(** [s] and [salt] are a MAYO-2 signature of the digest [m] under the key [p1, p2, p3]. *)
Definition mayo2_valid `{Primitives} (p1 p2 p3 s : list (list N)) (m salt : bytes) : Prop :=
  public_map p1 p2 p3 s = shake256_32 (m ++ salt) ≫= byte_nibbles.

Section statement.
Context {W : Type} (a : valuation W).

(** The bytes of an array of wires. *)
Definition digest_bytes (x : arr4 W) : bytes := words_bytes (arr4_list (arr4_map a x)).

(** The signature scalars: the low nibbles of their wires. *)
Definition sig_lanes (mv : Mayo2Verify W) : list (list N) :=
  map (map (λ w, low_nibble (a w))) (nibble_wires (sig mv)).

(** What the verifier circuit is to establish of the values of its wires. *)
Definition mayo2_statement `{Primitives} (mv : Mayo2Verify W) : Prop :=
  let m := digest_bytes (msg_wires mv) in
  let salt := words_bytes (a <$> salt_wires mv) in
  let (v1, v2) := (mvec_value a <$> p1 (pk_wires mv), mvec_value a <$> p2 (pk_wires mv)) in
  let v3 := mvec_value a <$> p3 (pk_wires mv) in
  compute_c_from_digest m = digest_bytes (c mv) ∧
  pk_id_from_lanes v1 v2 v3 = Some (digest_bytes (pk_id mv)) ∧
  mayo2_valid v1 v2 v3 (sig_lanes mv) m salt.
End statement.

(** ** Lemmas on words and bytes *)

Lemma words_bytes_app ws us : words_bytes (ws ++ us) = words_bytes ws ++ words_bytes us.
Proof. apply bind_app. Qed.

Lemma length_words_bytes ws : length (words_bytes ws) = 8 * length ws.
Proof.
  induction ws as [|x ws IH]; [done|]. unfold words_bytes in *. rewrite bind_cons, length_app, IH.
  rewrite length_le_bytes. simpl. lia.
Qed.

Lemma le_words_words_bytes ws :
  Forall is_word ws → le_words (length ws) (words_bytes ws) = ws.
Proof.
  intros Hws. induction Hws as [|x ws Hx Hws IH]; [done|]. unfold le_words in *.
  cbn [length]. rewrite <- cons_seq, fmap_cons, <- fmap_S_seq, <- list_fmap_compose.
  unfold words_bytes in *. rewrite bind_cons. f_equal.
  - rewrite Nat.mul_0_r. unfold slice. rewrite drop_0, take_app_length' by (by rewrite length_le_bytes).
    by apply le_value_bytes_small.
  - rewrite <- IH at 2. apply list_fmap_ext. intros _ i _. unfold compose, slice.
    rewrite drop_app_ge by (rewrite length_le_bytes; lia). rewrite length_le_bytes.
    do 3 f_equal. lia.
Qed.

Lemma words_bytes_inj ws us :
  Forall is_word ws → Forall is_word us → length ws = length us →
  words_bytes ws = words_bytes us → ws = us.
Proof.
  intros Hws Hus Hlen H. rewrite <- (le_words_words_bytes ws), <- (le_words_words_bytes us) by done.
  by rewrite H, Hlen.
Qed.

Lemma words_bytes_le_words n bs : length bs = 8 * n → words_bytes (le_words n bs) = bs.
Proof.
  revert bs. induction n as [|n IH]; intros bs Hlen; [by apply nil_length_inv in Hlen as ->|].
  unfold le_words in *. rewrite <- cons_seq, fmap_cons, <- fmap_S_seq, <- list_fmap_compose.
  unfold words_bytes in *. rewrite bind_cons.
  replace (_ <$> seq 0 n) with ((λ i, le_value (slice (8 * i) 8 (drop 8 bs))) <$> seq 0 n).
  - rewrite IH by (rewrite length_drop; lia). unfold slice. rewrite Nat.mul_0_r, drop_0.
    rewrite <- (take_drop 8 bs) at 3. f_equal.
    rewrite <- (length_take_le bs 8) at 1 by lia. apply le_bytes_value.
  - apply list_fmap_ext. intros _ i _. unfold compose, slice. rewrite drop_drop. do 3 f_equal. lia.
Qed.

(** The nibbles of a word's bytes are its nibbles. *)
Lemma byte_nibbles_of_N n : byte_nibbles (byte_of_N n) = [N.land n 0x0F; N.land (N.shiftr n 4) 0x0F].
Proof.
  unfold byte_nibbles. rewrite byte_of_N_to_N. change 256%N with (2 ^ 8)%N.
  rewrite <- N.land_ones, !low_nibble_land. unfold low_nibble.
  by rewrite !N.shiftr_spec', !N.land_spec, !andb_true_r.
Qed.

Lemma le_bytes_nibbles k n :
  le_bytes k n ≫= byte_nibbles = (λ j, N.land (N.shiftr n (N.of_nat (j * 4))) 0x0F) <$> seq 0 (2 * k).
Proof.
  revert n. induction k as [|k IH]; intros n; [done|]. cbn [le_bytes].
  rewrite bind_cons, byte_nibbles_of_N, IH. replace (2 * S k) with (S (S (2 * k))) by lia.
  rewrite <- !cons_seq, !fmap_cons. cbn [app]. rewrite N.shiftr_0_r. do 2 f_equal.
  rewrite <- !fmap_S_seq, <- !list_fmap_compose. apply list_fmap_ext. intros _ j _. unfold compose.
  f_equal. change 256%N with (2 ^ 8)%N. rewrite <- N.shiftr_div_pow2, N.shiftr_shiftr. f_equal. lia.
Qed.

Lemma unpack_lanes_bytes packed :
  unpack_lanes packed = words_bytes (arr4_list packed) ≫= byte_nibbles.
Proof.
  unfold unpack_lanes, words_bytes, arr4_list. rewrite !bind_cons, !bind_app.
  by rewrite !le_bytes_nibbles.
Qed.

(** ** The parts of the circuit *)

Section parts.
Context {B W : Type} `{GadgetLaws B W} `{!PrimitiveLaws} `{!CircuitLaws B W}.
Context (a : valuation W).

Lemma grows_digest_eq x y : grows (assert_digest_eq x y).
Proof. apply grows_for. intros. apply grows_assert_eq. Qed.

Lemma words_of_wires (Hwords : ∀ w, is_word (a w)) (ws : list W) : Forall is_word (a <$> ws).
Proof. apply Forall_fmap, Forall_true. exact Hwords. Qed.

Lemma digest_bytes_inj (Hwords : ∀ w, is_word (a w)) x y :
  digest_bytes a x = digest_bytes a y ↔ arr4_map a x = arr4_map a y.
Proof.
  split; [|unfold digest_bytes; by intros ->]. intros Hxy. apply arr4_ext. intros i Hi.
  apply (inj Some). rewrite <- !arr4_list_lookup by done. f_equal.
  apply words_bytes_inj; [..|done|exact Hxy]; rewrite arr4_map_list; by apply words_of_wires.
Qed.

Lemma hash_message_constrains msg c :
  constrains a (hash_message msg c) (λ _ C, C ↔
    compute_c_from_digest (digest_bytes a msg) = digest_bytes a c).
Proof.
  apply constrains_words. intros Hwords. unfold hash_message.
  eapply constrains_silent; [apply gates_only_silent; gates| |by apply computes_gate, add_constant_gate|].
  { intros x. apply grows_bind; [apply gates_only_grows, keccak256_gates|]. intros y.
    apply grows_digest_eq. }
  cbv beta. intros tag Htag.
  eapply constrains_silent; [apply gates_only_silent, keccak256_gates|intros; apply grows_digest_eq
    |by apply keccak256_computes|].
  cbv beta. intros c_hat Hc. eapply constrains_mono; [apply constrains_assert_arr4|].
  cbv beta. intros _ C ->. rewrite <- digest_bytes_inj by done. unfold digest_bytes at 1.
  rewrite Hc, fmap_cons, Htag. unfold compute_c_from_digest, digest_bytes. rewrite arr4_map_list.
  done.
Qed.

(** *** The key *)

Definition packed_words (mvecs : list (BitslicedGf16Mvec W)) : list N :=
  mvecs ≫= λ mvec, arr4_list (pack_lanes (mvec_value a mvec)).

Lemma computes_packed mvecs packed0 :
  computes a (circ_for mvecs (λ mvec packed,
    words ← bitsliced_to_packed mvec; mret (packed ++ arr4_list words)) packed0)
    (λ packed, a <$> packed = (a <$> packed0) ++ packed_words mvecs).
Proof.
  eapply computes_mono; [apply (computes_for a _ _
    (λ ws mvec, ws ++ arr4_list (pack_lanes (mvec_value a mvec))) (λ packed ws, a <$> packed = ws)
    packed0 (a <$> packed0))|].
  - intros. apply gates_only_bind; [gates|]. intros. gates.
  - intros mvec packed ws _ <-. eapply computes_bind;
      [intros; gates|apply computes_bitsliced_lanes|].
    cbv beta. intros words Hws. apply computes_ret. by rewrite fmap_app, <- arr4_map_list, Hws.
  - done.
  - cbv beta. intros packed ->. generalize (a <$> packed0). unfold packed_words.
    induction mvecs as [|m mvecs IH]; intros ws; simpl; [by rewrite app_nil_r|].
    rewrite IH. by rewrite <- app_assoc.
Qed.

Lemma returns_packed mvecs packed0 :
  returns (circ_for mvecs (λ mvec packed,
    words ← bitsliced_to_packed mvec; mret (packed ++ arr4_list words)) packed0)
    (λ packed, length packed = length packed0 + 4 * length mvecs).
Proof.
  revert packed0. induction mvecs as [|m mvecs IH]; intros packed0.
  { apply returns_ret. simpl. lia. }
  cbn [circ_for]. eapply returns_bind.
  - eapply returns_bind; [apply returns_any|]. intros words _.
    apply (returns_ret _ (λ packed, ∃ words : arr4 W, packed = packed0 ++ arr4_list words)).
    by exists words.
  - cbv beta. intros packed [words ->]. intros b. specialize (IH (packed0 ++ arr4_list words) b).
    rewrite IH, length_app. simpl. lia.
Qed.

(** The three blocks have the lengths of the parameters. *)
Definition pk_complete (pk : ExpandedPkWires W) : Prop :=
  length (p1 pk) = P1_ENTRIES ∧ length (p2 pk) = P2_ENTRIES ∧ length (p3 pk) = P3_ENTRIES.

Lemma length_packed_pk (pk : ExpandedPkWires W) :
  pk_complete pk → length (p1 pk ++ p2 pk ++ p3 pk) = 3321.
Proof. intros (H1' & H2' & H3'). by rewrite !length_app, H1', H2', H3'. Qed.

Lemma packed_words_bytes mvecs :
  words_bytes (packed_words mvecs) =
  (mvec_value a <$> mvecs) ≫= λ lanes, words_bytes (arr4_list (pack_lanes lanes)).
Proof.
  unfold packed_words, words_bytes. induction mvecs as [|m mvecs IH]; [done|].
  rewrite fmap_cons, !bind_cons, <- IH. apply bind_app.
Qed.

Lemma hash_pk_returns pk id : pk_complete pk → returns (hash_pk pk id) (λ r, r = Some ()).
Proof.
  intros Hpk. unfold hash_pk. eapply returns_bind; [apply returns_any|]. intros tag _.
  eapply returns_bind; [apply returns_packed|]. cbv beta. intros packed Hlen.
  rewrite length_packed_pk in Hlen by done. rewrite Hlen. change (_ =? _) with true at 1. cbv iota.
  do 2 (eapply returns_bind; [apply returns_any|]; intros ? _). by apply returns_ret.
Qed.

Lemma grows_hash_pk pk id : grows (hash_pk pk id).
Proof.
  unfold hash_pk. apply grows_bind; [apply gates_only_grows; gates|]. intros tag.
  apply grows_bind.
  { apply grows_for. intros. apply gates_only_grows, gates_only_bind; intros; gates. }
  intros packed. case_match; [|apply grows_ret].
  apply grows_bind; [apply gates_only_grows, keccak256_gates|]. intros r.
  apply grows_bind; [apply grows_digest_eq|]. intros. apply grows_ret.
Qed.

Lemma hash_pk_constrains pk id :
  pk_complete pk →
  constrains a (hash_pk pk id) (λ _ C, C ↔
    pk_id_from_lanes (mvec_value a <$> p1 pk) (mvec_value a <$> p2 pk) (mvec_value a <$> p3 pk) =
    Some (digest_bytes a id)).
Proof.
  intros Hpk. apply constrains_words. intros Hwords. pose proof Hpk as (H1' & H2' & H3').
  unfold hash_pk. eapply constrains_silent;
    [apply gates_only_silent; gates| |by apply computes_gate, add_constant_gate|].
  { intros tag. apply grows_bind.
    { apply grows_for. intros. apply gates_only_grows, gates_only_bind; intros; gates. }
    intros packed. case_match; [|apply grows_ret].
    apply grows_bind; [apply gates_only_grows, keccak256_gates|]. intros r.
    apply grows_bind; [apply grows_digest_eq|]. intros. apply grows_ret. }
  cbv beta. intros tag Htag. eapply constrains_silent;
    [| |apply computes_and; [apply computes_packed|apply returns_packed]|].
  { apply gates_only_silent, gates_only_for. intros. apply gates_only_bind; intros; gates. }
  { intros packed. case_match; [|apply grows_ret].
    apply grows_bind; [apply gates_only_grows, keccak256_gates|]. intros r.
    apply grows_bind; [apply grows_digest_eq|]. intros. apply grows_ret. }
  cbv beta. intros packed [Hpacked Hlen]. rewrite length_packed_pk in Hlen by done.
  rewrite Hlen. change (_ =? _) with true at 1. cbv iota.
  eapply constrains_silent; [apply gates_only_silent, keccak256_gates| |
    apply keccak256_computes; by rewrite Hlen|].
  { intros r. apply grows_bind; [apply grows_digest_eq|]. intros. apply grows_ret. }
  cbv beta. intros r Hr. eapply constrains_bind; [intros; apply grows_ret|apply constrains_assert_arr4
    |intros x; apply (constrains_ret _ _ (λ _ C, C ↔ True)); done|].
  cbv beta. intros _ C _ D -> ->. rewrite <- digest_bytes_inj by done. unfold digest_bytes at 1.
  rewrite Hr, Hpacked. unfold pk_id_from_lanes. rewrite !length_fmap, H1', H2', H3'.
  rewrite !Nat.eqb_refl. cbn [andb fmap list_fmap app]. rewrite Htag.
  unfold canonical_packed. rewrite <- !fmap_app, <- packed_words_bytes.
  assert (∀ k, words_bytes (DOMAIN_TAG_PK_WORD :: k) = DOMAIN_TAG_PK ++ words_bytes k) as Htagb by done.
  rewrite Htagb. split; [by intros [-> _]|]. intros Hk%(inj Some). by split.
Qed.

(** *** SHAKE-256 *)

(** The padded block of a message of seven words. *)
Lemma shake_block ws :
  Forall is_word ws → length ws = 7 →
  le_words N_WORDS_PER_BLOCK
    (words_bytes ws ++ [x1f] ++ replicate (134 - length (words_bytes ws)) x00 ++ [x80]) =
  ws ++ [0x1F; 0; 0; 0; 0; 0; 0; 0; 0; N.shiftl 0x80 56]%N.
Proof.
  intros Hws Hlen. rewrite length_words_bytes, Hlen.
  assert ([x1f] ++ replicate (134 - 8 * 7) x00 ++ [x80] =
    words_bytes [0x1F; 0; 0; 0; 0; 0; 0; 0; 0; N.shiftl 0x80 56]%N) as -> by (vm_compute; done).
  rewrite <- words_bytes_app. rewrite <- (le_words_words_bytes (ws ++ _)) at 2.
  - by rewrite length_app, Hlen.
  - apply Forall_app. split; [done|]. repeat constructor.
Qed.

Lemma shake_gates input m : shake256_56_to_32 input = Some m → gates_only m.
Proof.
  unfold shake256_56_to_32, shake256_single_block_to_32. repeat case_match; try done.
  intros Hm%(inj Some). subst m. apply gates_only_bind; [gates|]. intros z.
  apply gates_only_bind; [gates|]. intros sep. apply gates_only_bind; [gates|]. intros last.
  apply gates_only_bind; [apply keccak_f1600_gates|]. intros. gates.
Qed.

Lemma shake_computes input m :
  length input = 7 → shake256_56_to_32 input = Some m →
  computes a m (λ r, digest_bytes a r = shake256_32 (words_bytes (a <$> input))).
Proof.
  intros Hlen. unfold shake256_56_to_32, shake256_single_block_to_32. rewrite Hlen.
  cbn [negb Nat.eqb Nat.mul Nat.add Nat.ltb Nat.leb Nat.sub N_WORDS_PER_BLOCK].
  intros Hm%(inj Some). subst m. apply computes_words. intros Hwords.
  eapply computes_bind; [|by apply computes_gate, add_constant_gate|cbv beta; intros zero Hzero].
  { intros z. apply gates_only_bind; [gates|]. intros sep. apply gates_only_bind; [gates|].
    intros last. apply gates_only_bind; [apply keccak_f1600_gates|]. intros. gates. }
  eapply computes_bind; [|by apply computes_gate, add_constant_gate|cbv beta; intros sep Hsep].
  { intros sep. apply gates_only_bind; [gates|]. intros last.
    apply gates_only_bind; [apply keccak_f1600_gates|]. intros. gates. }
  eapply computes_bind; [|by apply computes_gate, add_constant_gate|cbv beta; intros last Hlast].
  { intros last. apply gates_only_bind; [apply keccak_f1600_gates|]. intros. gates. }
  assert (∃ block, block = splice 0 (<[16 := last]> (<[7 := sep]> (splice 0 input (replicate 17 zero))))
      (replicate N_WORDS_PER_STATE zero) ∧ length block = N_WORDS_PER_STATE ∧
    a <$> block = (a <$> input) ++ ([0x1F; 0; 0; 0; 0; 0; 0; 0; 0; N.shiftl 0x80 56]%N ++
      replicate (N_WORDS_PER_STATE - N_WORDS_PER_BLOCK) 0%N)) as (block & Hblock & Hblen & Hvalues).
  { eexists. split; [done|].
    do 7 (destruct input as [|? input]; [done|]). destruct input; [|done].
    cbn. by rewrite Hzero, Hsep, Hlast. }
  change N_WORDS_PER_BLOCK with 17. rewrite <- Hblock. eapply computes_bind; [intros; gates| |].
  { by apply computes_and; [apply keccak_f1600_computes|apply keccak_f1600_returns]. }
  cbv beta. intros state [Hstate Hslen]. apply computes_ret.
  rewrite shake256_block by (rewrite length_words_bytes, length_fmap, Hlen; lia).
  rewrite shake_block by (try (by apply words_of_wires); by rewrite length_fmap).
  rewrite <- app_assoc, <- Hvalues, <- Hstate. unfold digest_bytes. f_equal.
  do 4 (destruct state as [|? state]; [done|]). done.
Qed.

(** *** The signature *)

(** The scalars that the broadcasts of a signature carry. *)
Definition sig_scalars (sb : SigBroadcasts W) : list (list N) :=
  map (map (λ w, low_nibble (a w))) (nibble_wires sb).

Lemma table_value_sps pk sb sps :
  length sps = K_whip * K_whip →
  (∀ row col, row < K_whip → col < K_whip →
    table_value a sps !! (row * K_whip + col) =
    Some (sps_value (sig_scalars sb) (ps_value (table_value a (p1 pk)) (table_value a (p2 pk))
      (table_value a (p3 pk)) (sig_scalars sb)) row col)) →
  scalar_compute_rhs (table_value a sps) =
  public_map (table_value a (p1 pk)) (table_value a (p2 pk)) (table_value a (p3 pk)) (sig_scalars sb).
Proof.
  intros Hlen Hsps. unfold public_map. f_equal. change K_whip with 4 in *.
  apply list_eq_same_length with 16; [by rewrite length_fmap, length_seq
    |unfold table_value; by rewrite length_fmap|].
  intros n u v Hn Hu Hv. rewrite list_lookup_fmap, lookup_seq_lt in Hv by done. cbn [fmap option_fmap option_map] in Hv.
  pose proof (Nat.div_mod_eq n 4). pose proof (Nat.mod_upper_bound n 4 ltac:(lia)).
  specialize (Hsps (n / 4) (n mod 4) ltac:(lia) ltac:(lia)).
  replace (n / 4 * 4 + n mod 4) with n in Hsps by lia. rewrite Hsps in Hu.
  apply (inj Some) in Hu, Hv. subst u v.
  assert (is_matrix (table_value a (p1 pk)) (table_value a (p2 pk)) (table_value a (p3 pk))) as Hm.
  { repeat split; apply Forall_fmap, Forall_true; intros; apply mvec_value_mvec. }
  apply list_eq_same_length with M_eqs; [by rewrite length_fmap, length_seq| |].
  - apply length_fold_axpy; [apply length_replicate|]. apply Forall_fmap, Forall_true. intros j.
    simpl. by apply length_ps_value.
  - intros i x y Hi Hx Hy. rewrite sps_value_bilinear in Hx by done.
    rewrite list_lookup_fmap, lookup_seq_lt in Hy by done.
    cbn [fmap option_fmap option_map] in Hy. apply (inj Some) in Hx, Hy.
    by rewrite <- Hx, <- Hy.
Qed.

(** From the matrix to the whipped sum. *)
Lemma grows_check_tail sps t : grows (match compute_rhs sps with
  | None => mret None
  | Some rhs => y ← rhs; mvec_assert_eq y t;; mret (Some ()) end).
Proof.
  case_match eqn:Hrhs; [|apply grows_ret].
  apply grows_bind; [by eapply gates_only_grows, gates_only_compute_rhs|]. intros y.
  apply grows_bind; [apply grows_for; intros; apply grows_assert_eq|]. intros. apply grows_ret.
Qed.

Lemma mvec_assert_constrains y t :
  constrains a (mvec_assert_eq y t) (λ _ C, C ↔ mvec_value a y = mvec_value a t).
Proof.
  apply constrains_words. intros Hwords.
  eapply constrains_mono; [apply constrains_assert_arr4|]. cbv beta. intros _ C ->.
  unfold mvec_value, planes. split; [by intros ->|].
  apply bitsliced_to_lanes_inj; intros b Hb; by rewrite arr4_get_map.
Qed.

Lemma check_tail_constrains sps t :
  length sps = K_whip * K_whip →
  constrains a (match compute_rhs sps with
    | None => mret None
    | Some rhs => y ← rhs; mvec_assert_eq y t;; mret (Some ()) end)
    (λ _ C, C ↔ scalar_compute_rhs (table_value a sps) = mvec_value a t).
Proof.
  intros Hlen. case_match eqn:Hrhs; [|unfold compute_rhs in Hrhs; by rewrite Hlen in Hrhs].
  eapply constrains_silent; [by eapply gates_only_silent, gates_only_compute_rhs| |
    by apply computes_compute_rhs|].
  { intros y. apply grows_bind; [apply grows_for; intros; apply grows_assert_eq|].
    intros. apply grows_ret. }
  cbv beta. intros y Hy. eapply constrains_bind; [intros; apply grows_ret
    |apply mvec_assert_constrains|intros x; apply (constrains_ret _ _ (λ _ C, C ↔ True)); done|].
  cbv beta. intros _ C _ D -> ->. rewrite Hy. unfold table_value. tauto.
Qed.

Lemma grows_check_signature msg pk sb salt : grows (check_signature msg pk sb salt).
Proof.
  unfold check_signature. case_match eqn:Hshake; [|apply grows_ret].
  apply grows_bind; [by eapply gates_only_grows, shake_gates|]. intros t_packed.
  apply grows_bind; [apply gates_only_grows; gates|]. intros t.
  apply grows_bind; [apply gates_only_grows, gates_only_compute_ps|]. intros ps.
  case_match eqn:Hsps; [|apply grows_ret].
  apply grows_bind; [by eapply gates_only_grows, gates_only_compute_sps|]. intros sps.
  apply grows_check_tail.
Qed.

Lemma check_signature_constrains msg pk sb salt :
  length salt = N_SALT_WORDS → broadcasts_carry a sb (sig_scalars sb) →
  constrains a (check_signature msg pk sb salt) (λ _ C, C ↔
    mayo2_valid (table_value a (p1 pk)) (table_value a (p2 pk)) (table_value a (p3 pk))
      (sig_scalars sb) (digest_bytes a msg) (words_bytes (a <$> salt))).
Proof.
  intros Hsalt Hcarry. unfold check_signature.
  assert (length (arr4_list msg ++ salt) = 7) as Hlen by (rewrite length_app, Hsalt; done).
  case_match eqn:Hshake; cycle 1.
  { unfold shake256_56_to_32, shake256_single_block_to_32 in Hshake. by rewrite Hlen in Hshake. }
  eapply constrains_silent; [by eapply gates_only_silent, shake_gates| |by apply shake_computes|].
  { intros t_packed. apply grows_bind; [apply gates_only_grows; gates|]. intros t.
    apply grows_bind; [apply gates_only_grows, gates_only_compute_ps|]. intros ps.
    case_match eqn:Hsps; [|apply grows_ret].
    apply grows_bind; [by eapply gates_only_grows, gates_only_compute_sps|]. intros sps.
    apply grows_check_tail. }
  cbv beta. intros t_packed Hpacked.
  eapply constrains_silent; [apply gates_only_silent; gates| |apply computes_packed_lanes|].
  { intros t. apply grows_bind; [apply gates_only_grows, gates_only_compute_ps|]. intros ps.
    case_match eqn:Hsps; [|apply grows_ret].
    apply grows_bind; [by eapply gates_only_grows, gates_only_compute_sps|]. intros sps.
    apply grows_check_tail. }
  cbv beta. intros t Ht.
  eapply constrains_silent; [apply gates_only_silent, gates_only_compute_ps| |
    apply computes_compute_ps, Hcarry|].
  { intros ps. case_match eqn:Hsps; [|apply grows_ret].
    apply grows_bind; [by eapply gates_only_grows, gates_only_compute_sps|]. intros sps.
    apply grows_check_tail. }
  cbv beta. intros ps [Hpslen Hps].
  case_match eqn:Hsps; [|unfold compute_sps in Hsps; by rewrite Hpslen in Hsps].
  eapply constrains_silent; [by eapply gates_only_silent, gates_only_compute_sps|
    intros; apply grows_check_tail|by eapply computes_compute_sps|].
  cbv beta. intros sps [Hspslen Hspsv]. eapply constrains_mono; [by apply check_tail_constrains|].
  cbv beta. intros _ C ->. rewrite (table_value_sps pk sb) by done. unfold mayo2_valid.
  rewrite Ht, unpack_lanes_bytes. fold (digest_bytes a t_packed). rewrite Hpacked.
  by rewrite fmap_app, words_bytes_app.
Qed.

Lemma check_signature_returns msg pk sb salt :
  length salt = N_SALT_WORDS → returns (check_signature msg pk sb salt) (λ r, r = Some ()).
Proof.
  intros Hsalt. unfold check_signature.
  assert (length (arr4_list msg ++ salt) = 7) as Hlen by (rewrite length_app, Hsalt; done).
  case_match eqn:Hshake; cycle 1.
  { unfold shake256_56_to_32, shake256_single_block_to_32 in Hshake. by rewrite Hlen in Hshake. }
  do 2 (eapply returns_bind; [apply returns_any|]; intros ? _).
  eapply returns_bind; [apply compute_ps_length|]. cbv beta. intros ps Hps.
  case_match eqn:Hsps; [|unfold compute_sps in Hsps; by rewrite Hps in Hsps].
  eapply returns_bind; [by eapply compute_sps_length|]. cbv beta. intros sps Hspslen.
  case_match eqn:Hrhs; [|unfold compute_rhs in Hrhs; by rewrite Hspslen in Hrhs].
  do 2 (eapply returns_bind; [apply returns_any|]; intros ? _). by apply returns_ret.
Qed.

(** *** Inputs *)

Lemma grows_mvec_new_witness : grows mvec_new_witness.
Proof. apply grows_bind; [apply grows_arr4; intros; apply grows_witness|intros; apply grows_ret]. Qed.
Lemma silent_mvec_new_witness : silent mvec_new_witness.
Proof. apply silent_bind; [apply silent_arr4; intros; apply silent_witness|intros; apply silent_ret]. Qed.

Lemma grows_expanded_pk : grows expanded_pk_new_witness.
Proof.
  unfold expanded_pk_new_witness.
  do 3 (apply grows_bind; [apply grows_map; intros; apply grows_mvec_new_witness|intros]).
  apply grows_ret.
Qed.
Lemma silent_expanded_pk : silent expanded_pk_new_witness.
Proof.
  unfold expanded_pk_new_witness.
  do 3 (apply silent_bind; [apply silent_map; intros; apply silent_mvec_new_witness|intros]).
  apply silent_ret.
Qed.
Lemma expanded_pk_complete : returns expanded_pk_new_witness pk_complete.
Proof.
  unfold expanded_pk_new_witness.
  do 3 (eapply returns_bind; [apply (returns_map _ (λ _, True)); intros; apply returns_any|];
    cbv beta; intros ? [? _]).
  apply returns_ret. unfold pk_complete. simpl. by rewrite length_seq in *.
Qed.

Lemma grows_sig : grows sig_new_witness.
Proof.
  unfold sig_new_witness. apply grows_bind.
  { apply grows_map. intros. apply grows_map. intros. apply grows_witness. }
  intros ws. apply grows_bind; [|intros; apply grows_ret].
  apply grows_map. intros. apply gates_only_grows. gates.
Qed.
Lemma silent_sig : silent sig_new_witness.
Proof.
  unfold sig_new_witness. apply silent_bind.
  { apply silent_map. intros. apply silent_map. intros. apply silent_witness. }
  intros ws. apply silent_bind; [|intros; apply silent_ret].
  apply silent_map. intros. apply gates_only_silent. gates.
Qed.
Lemma sig_new_witness_shape : returns sig_new_witness (λ sb,
  length (nibble_wires sb) = K_whip ∧ Forall (λ row, length row = N_vars) (nibble_wires sb)).
Proof.
  unfold sig_new_witness. eapply returns_bind.
  - apply (returns_map _ (λ row, length row = N_vars)). intros _ _ b.
    pose proof (returns_map (λ _ : nat, add_witness) (λ _, True) (seq 0 N_vars)
      ltac:(intros; apply returns_any) b) as [Hlen _]. by rewrite Hlen, length_seq.
  - cbv beta. intros ws [Hlen Hws]. eapply returns_bind; [apply returns_any|]. intros bs _.
    apply returns_ret. simpl. by rewrite Hlen, length_seq.
Qed.
Lemma sig_new_witness_computes :
  computes a sig_new_witness (λ sb, broadcasts_carry a sb (sig_scalars sb)).
Proof.
  unfold sig_new_witness. eapply computes_bind_grows; [|by apply computes_returns, returns_any|].
  { intros ws. apply grows_bind; [|intros; apply grows_ret].
    apply grows_map. intros. apply gates_only_grows. gates. }
  intros ws _. eapply computes_bind; [intros; gates| |].
  - apply (computes_map _ _ (λ row xs,
      Forall2 (λ w x, carries a x (low_nibble (a w))) row xs)); [intros; gates|].
    intros row _. apply (computes_map _ _ (λ w x, carries a x (low_nibble (a w)))); [intros; gates|].
    intros w _. apply computes_broadcast_scalar.
  - cbv beta. intros bs Hbs. apply computes_ret. unfold broadcasts_carry, sig_scalars. simpl.
    apply Forall2_flip, Forall2_fmap_l. eapply Forall2_impl; [|exact Hbs]. intros row xs Hrow.
    unfold compose. apply Forall2_flip, Forall2_fmap_l. exact Hrow.
Qed.

(** *** The whole circuit *)

(** What is emitted after the inputs. *)
Definition mayo2_constraints (mv : Mayo2Verify W) : Circ B (option (Mayo2Verify W)) :=
  hash_message (msg_wires mv) (c mv);;
  hashed ← hash_pk (pk_wires mv) (pk_id mv);
  match hashed with
  | None => mret None
  | Some _ =>
      checked ← check_signature (msg_wires mv) (pk_wires mv) (sig mv) (salt_wires mv);
      mret ((λ _, mv) <$> checked)
  end.

Definition mayo2_inputs : Circ B (Mayo2Verify W) :=
  c ← circ_arr4 (λ _, add_inout);
  pk_id ← circ_arr4 (λ _, add_inout);
  msg_wires ← circ_arr4 (λ _, add_witness);
  pk_wires ← expanded_pk_new_witness;
  sig ← sig_new_witness;
  salt_wires ← circ_map (λ _, add_witness) (seq 0 N_SALT_WORDS);
  mret (Build_Mayo2Verify c pk_id msg_wires pk_wires sig salt_wires).

Lemma circ_bind_assoc {A1 A2 A3} (m : Circ B A1) (k : A1 → Circ B A2) (l : A2 → Circ B A3) b :
  ((m ≫= k) ≫= l) b = (m ≫= λ x, k x ≫= l) b.
Proof. unfold mbind, circ_bind. by destruct (m b). Qed.

Lemma mayo2_verify_new_split b : mayo2_verify_new b = (mayo2_inputs ≫= mayo2_constraints) b.
Proof.
  unfold mayo2_verify_new, mayo2_inputs, mbind, circ_bind, mret, circ_ret.
  do 6 (match goal with |- context [let (x, b) := ?m ?b0 in _] => destruct (m b0) end). done.
Qed.

(** The inputs have the lengths of the parameters. *)
Definition well_shaped (mv : Mayo2Verify W) : Prop :=
  pk_complete (pk_wires mv) ∧ length (salt_wires mv) = N_SALT_WORDS ∧
  length (nibble_wires (sig mv)) = K_whip ∧
  Forall (λ row, length row = N_vars) (nibble_wires (sig mv)).

Lemma grows_mayo2_constraints mv : grows (mayo2_constraints mv).
Proof.
  unfold mayo2_constraints. apply grows_bind.
  { unfold hash_message. apply grows_bind; [apply gates_only_grows; gates|]. intros tag.
    apply grows_bind; [apply gates_only_grows, keccak256_gates|]. intros. apply grows_digest_eq. }
  intros _. apply grows_bind; [apply grows_hash_pk|]. intros [[]|]; [|apply grows_ret].
  apply grows_bind; [apply grows_check_signature|]. intros. apply grows_ret.
Qed.

Lemma mayo2_inputs_shape : returns mayo2_inputs well_shaped.
Proof.
  unfold mayo2_inputs. do 3 (eapply returns_bind; [apply returns_any|]; intros ? _).
  eapply returns_bind; [apply expanded_pk_complete|]. intros pk Hpk.
  eapply returns_bind; [apply sig_new_witness_shape|]. intros sb [Hrows Hrow].
  eapply returns_bind; [apply (returns_map _ (λ _, True)); intros; apply returns_any|].
  cbv beta. intros salt [Hsalt _]. apply returns_ret. split; [done|]. simpl.
  by rewrite Hsalt, length_seq.
Qed.

Lemma silent_mayo2_inputs : silent mayo2_inputs.
Proof.
  unfold mayo2_inputs. do 2 (apply silent_bind; [apply silent_arr4; intros; apply silent_inout|intros]).
  apply silent_bind; [apply silent_arr4; intros; apply silent_witness|intros].
  apply silent_bind; [apply silent_expanded_pk|intros].
  apply silent_bind; [apply silent_sig|intros].
  apply silent_bind; [apply silent_map; intros; apply silent_witness|intros]. apply silent_ret.
Qed.

Lemma mayo2_inputs_compute :
  computes a mayo2_inputs (λ mv, broadcasts_carry a (sig mv) (sig_lanes a mv)).
Proof.
  unfold mayo2_inputs.
  assert (grows (circ_map (λ _, add_witness) (seq 0 N_SALT_WORDS) : Circ B (list W))) as Hsalt.
  { apply grows_map. intros. apply grows_witness. }
  do 4 (eapply computes_bind_grows; [|by apply computes_returns, returns_any|]; cycle 1;
    [intros ? _|]; cycle 1; [intros;
      repeat (apply grows_bind; [first
        [apply grows_arr4; intros; first [apply grows_inout|apply grows_witness]
        |apply grows_expanded_pk|apply grows_sig|apply Hsalt]|intros]); apply grows_ret|]).
  eapply computes_bind_grows; [|apply sig_new_witness_computes|].
  { intros. apply grows_bind; [apply Hsalt|]. intros. apply grows_ret. }
  intros sb Hsb. eapply computes_bind_grows; [intros; apply grows_ret
    |by apply computes_returns, returns_any|]. intros salt _. by apply computes_ret.
Qed.

Lemma mayo2_constraints_exact mv :
  well_shaped mv → broadcasts_carry a (sig mv) (sig_lanes a mv) →
  constrains a (mayo2_constraints mv) (λ _ C, C ↔ mayo2_statement a mv).
Proof.
  intros (Hpk & Hsalt & _) Hcarry. unfold mayo2_constraints.
  eapply constrains_bind; [|apply hash_message_constrains| |].
  { intros _. apply grows_bind; [apply grows_hash_pk|]. intros [[]|]; [|apply grows_ret].
    apply grows_bind; [apply grows_check_signature|]. intros. apply grows_ret. }
  - intros u. eapply (constrains_bind_returns a _ _ (λ r, r = Some ()) ?[R] (λ _ C, C ↔
      mayo2_valid (mvec_value a <$> p1 (pk_wires mv)) (mvec_value a <$> p2 (pk_wires mv))
        (mvec_value a <$> p3 (pk_wires mv)) (sig_lanes a mv) (digest_bytes a (msg_wires mv))
        (words_bytes (a <$> salt_wires mv))) (λ _ C, C ↔
      pk_id_from_lanes (mvec_value a <$> p1 (pk_wires mv)) (mvec_value a <$> p2 (pk_wires mv))
        (mvec_value a <$> p3 (pk_wires mv)) = Some (digest_bytes a (pk_id mv)) ∧
      mayo2_valid (mvec_value a <$> p1 (pk_wires mv)) (mvec_value a <$> p2 (pk_wires mv))
        (mvec_value a <$> p3 (pk_wires mv)) (sig_lanes a mv) (digest_bytes a (msg_wires mv))
        (words_bytes (a <$> salt_wires mv)))).
    + intros [[]|]; [|apply grows_ret].
      apply grows_bind; [apply grows_check_signature|]. intros. apply grows_ret.
    + by apply hash_pk_returns.
    + by apply hash_pk_constrains.
    + intros r ->. eapply constrains_bind; [intros; apply grows_ret
        |by apply check_signature_constrains
        |intros x; apply (constrains_ret _ _ (λ _ C, C ↔ True)); done|].
      cbv beta. intros _ C _ D -> ->. unfold sig_lanes, table_value, sig_scalars. tauto.
    + cbv beta. intros _ C _ D -> ->. done.
  - cbv beta. intros _ C _ D -> ->. done.
Qed.

Lemma mayo2_constraints_return mv :
  well_shaped mv → returns (mayo2_constraints mv) (λ r, r = Some mv).
Proof.
  intros (Hpk & Hsalt & _). unfold mayo2_constraints. eapply returns_bind; [apply returns_any|].
  intros _ _. eapply returns_bind; [by apply hash_pk_returns|]. intros r ->.
  eapply returns_bind; [by apply check_signature_returns|]. intros r ->. by apply returns_ret.
Qed.

(** The verifier circuit is emitted without a panic, and a valuation that obeys its gates
    passes its assertions exactly when it satisfies the statement. *)
Lemma mayo2_exact b :
  ∃ mv b', mayo2_verify_new b = (Some mv, b') ∧ well_shaped mv ∧
    (consistent b' a → (assertions b' a ↔ assertions b a ∧ mayo2_statement a mv)).
Proof.
  rewrite mayo2_verify_new_split. unfold mbind, circ_bind.
  pose proof (mayo2_inputs_shape b) as Hshape. pose proof (silent_mayo2_inputs b a) as Hsilent.
  pose proof (mayo2_inputs_compute b) as Hcompute.
  destruct (mayo2_inputs b) as [mv b1]. simpl in *.
  pose proof (mayo2_constraints_return mv Hshape b1) as Hret.
  pose proof (mayo2_constraints_exact mv Hshape) as Hexact.
  pose proof (grows_mayo2_constraints mv b1 a) as Hgrows. specialize (λ H, Hexact H b1).
  destruct (mayo2_constraints mv b1) as [r b2]. simpl in *. subst r.
  exists mv, b2. split; [done|]. split; [done|]. intros Hb2.
  destruct (Hexact (Hcompute (Hgrows Hb2)) Hb2) as (C & HC & HCs). by rewrite HC, HCs, Hsilent.
Qed.
End parts.
