(* ===== verification/MayoSpec.v ===== *)
(** * The witness of the MAYO-2 verifier, and its properties

    What [Mayo2Verify::populate] writes, and the theorems about the whole circuit: it states
    exactly the relation of [Mayo.mayo2_statement], and a populated witness satisfies it exactly
    when the signature is valid. [Toy] instantiates the hash functions and their gadgets. *)
From S2P Require Import Prelude Word Gf16 Circuit Gf16Circuit Whipping Quadratic Mayo.
From Stdlib Require Import Lia.

(** ** Writes to a filler *)

Section writes.
Context {W : Type} `{EqDecision W}.

(** A batch of writes [w[wire] = value], in order. *)
Definition write_all (writes : list (W * N)) (w : valuation W) : valuation W :=
  fold_left (λ w wv, <[wv.1 := wv.2]> w) writes w.

Lemma write_all_app l k w : write_all (l ++ k) w = write_all k (write_all l w).
Proof. apply fold_left_app. Qed.

Lemma write_all_other l w x : x ∉ l.*1 → write_all l w x = w x.
Proof.
  revert w. induction l as [|[y v] l IH]; intros w Hx; [done|]. simpl in *.
  apply not_elem_of_cons in Hx as [Hxy Hx]. etrans; [by apply IH|]. by rewrite fn_lookup_insert_ne.
Qed.

Lemma write_all_lookup l w x v : NoDup l.*1 → (x, v) ∈ l → write_all l w x = v.
Proof.
  revert w. induction l as [|[y u] l IH]; intros w Hnd Hx; [by apply elem_of_nil in Hx|].
  simpl in Hnd. apply list.NoDup_cons in Hnd as [Hy Hnd].
  apply elem_of_cons in Hx as [[= <- <-]|Hx]; [|by apply IH].
  simpl. fold (write_all l (<[x:=v]> w)). by rewrite write_all_other, fn_lookup_insert.
Qed.

(** A valuation that has the written values. *)
Definition reads (a : valuation W) (l : list (W * N)) : Prop := ∀ x v, (x, v) ∈ l → a x = v.

Lemma reads_wires a l wires vs :
  reads a l → length wires = length vs → zip wires vs ⊆ l → a <$> wires = vs.
Proof.
  intros Ha Hlen Hl. revert vs Hlen Hl. induction wires as [|x wires IH]; intros [|v vs] Hlen Hl; try done.
  rewrite fmap_cons. f_equal.
  - apply Ha, Hl. by left.
  - apply IH; [by injection Hlen|]. intros p Hp. apply Hl. by right.
Qed.

Lemma write_all_words l w :
  (∀ x, is_word (w x)) → Forall (λ wv, is_word wv.2) l → ∀ x, is_word (write_all l w x).
Proof.
  intros Hw Hl. revert w Hw. induction Hl as [|[y v] l Hv Hl IH]; intros w Hw; [done|].
  apply IH. intros x. destruct (decide (y = x)) as [->|]; [by rewrite fn_lookup_insert|].
  by rewrite fn_lookup_insert_ne.
Qed.

(** The writes of each populating method. *)
Definition mvec_writes (x : BitslicedGf16Mvec W) (lanes : list N) : list (W * N) :=
  zip (arr4_list (bits x)) (arr4_list (lanes_to_bitsliced lanes)).
Definition mvecs_writes (xs : list (BitslicedGf16Mvec W)) (ls : list (list N)) : list (W * N) :=
  zip xs ls ≫= λ xl, mvec_writes xl.1 xl.2.
Definition sig_writes (sb : SigBroadcasts W) (s : list (list N)) : list (W * N) :=
  zip (nibble_wires sb) s ≫= λ ws, zip ws.1 ws.2.
Definition byte_writes (wires : list W) (bs : bytes) : list (W * N) :=
  zip wires (le_words (length wires) bs).

Lemma mvec_populate_writes x w lanes : mvec_populate x w lanes = write_all (mvec_writes x lanes) w.
Proof. done. Qed.

Lemma fold_writes {X} (f : X → list (W * N)) l w :
  fold_left (λ w x, write_all (f x) w) l w = write_all (l ≫= f) w.
Proof.
  revert w. induction l as [|x l IH]; intros w; [done|]. rewrite bind_cons, write_all_app. apply IH.
Qed.

Lemma expanded_pk_populate_writes pk w l1 l2 l3 w' :
  expanded_pk_populate pk w l1 l2 l3 = Some w' →
  length l1 = P1_ENTRIES ∧ length l2 = P2_ENTRIES ∧ length l3 = P3_ENTRIES ∧
  w' = write_all (mvecs_writes (p1 pk) l1 ++ mvecs_writes (p2 pk) l2 ++ mvecs_writes (p3 pk) l3) w.
Proof.
  unfold expanded_pk_populate. case_match; [|done]. nbool. intros Hw%(inj Some). subst w'.
  split; [done|]. split; [done|]. split; [done|]. rewrite !write_all_app. unfold mvecs_writes.
  by rewrite <- !(fold_writes (λ xl, mvec_writes xl.1 xl.2)).
Qed.

Lemma sig_populate_writes sb w s : sig_populate sb w s = write_all (sig_writes sb s) w.
Proof. unfold sig_populate, sig_writes. by rewrite <- (fold_writes (λ ws, zip ws.1 ws.2)). Qed.

Lemma write_le_words_writes w wires bs w' :
  write_le_words w wires bs = Some w' →
  length bs = 8 * length wires ∧ w' = write_all (byte_writes wires bs) w.
Proof. unfold write_le_words. case_match; [|done]. nbool. intros Hw%(inj Some). split; [lia|done]. Qed.
End writes.

(** The nibbles of a signature, as [populate] slices them. *)
Definition sig_scalars_of (sig_bytes : bytes) : list (list N) :=
  (λ col, slice (col * N_vars) N_vars (take S_BYTES sig_bytes ≫= byte_nibbles)) <$> seq 0 K_whip.
Definition salt_of (sig_bytes : bytes) : bytes := slice S_BYTES (SIG_BYTES - S_BYTES) sig_bytes.

Section populate.
Context {W : Type} `{EqDecision W} `{PrimitiveLaws}.

Definition mayo2_writes (mv : Mayo2Verify W) m l1 l2 l3 sig_bytes pk_id_bytes : list (W * N) :=
  byte_writes (arr4_list (msg_wires mv)) m ++
  (mvecs_writes (p1 (pk_wires mv)) l1 ++ mvecs_writes (p2 (pk_wires mv)) l2 ++
   mvecs_writes (p3 (pk_wires mv)) l3) ++
  sig_writes (sig mv) (sig_scalars_of sig_bytes) ++
  byte_writes (salt_wires mv) (salt_of sig_bytes) ++
  byte_writes (arr4_list (c mv)) (compute_c_from_digest m) ++
  byte_writes (arr4_list (pk_id mv)) pk_id_bytes.

Lemma mayo2_populate_writes mv w m l1 l2 l3 sig_bytes w' :
  mayo2_populate mv w m l1 l2 l3 sig_bytes = Some w' →
  length m = 32 ∧ length l1 = P1_ENTRIES ∧ length l2 = P2_ENTRIES ∧ length l3 = P3_ENTRIES ∧
  length (salt_of sig_bytes) = 8 * length (salt_wires mv) ∧
  ∃ pk_id_bytes, pk_id_from_lanes l1 l2 l3 = Some pk_id_bytes ∧ length pk_id_bytes = 32 ∧
    w' = write_all (mayo2_writes mv m l1 l2 l3 sig_bytes pk_id_bytes) w.
Proof.
  unfold mayo2_populate. intros Hw.
  apply bind_Some in Hw as (w1 & [Hm ->]%write_le_words_writes & Hw).
  apply bind_Some in Hw as (w2 & (H1' & H2' & H3' & ->)%expanded_pk_populate_writes & Hw).
  cbv zeta in Hw. rewrite sig_populate_writes in Hw.
  apply bind_Some in Hw as (w3 & [Hsalt ->]%write_le_words_writes & Hw).
  apply bind_Some in Hw as (w4 & [Hc ->]%write_le_words_writes & Hw).
  apply bind_Some in Hw as (pk_id_bytes & Hid & Hw). apply write_le_words_writes in Hw as [Hlen ->].
  split; [done|]. do 3 (split; [done|]). split; [done|].
  exists pk_id_bytes. split; [done|]. split; [done|]. unfold mayo2_writes. by rewrite !write_all_app.
Qed.

(** Conversely, on inputs of the right lengths nothing panics. *)
Lemma mayo2_populate_writes_2 mv w m l1 l2 l3 sig_bytes id :
  length m = 32 → length l1 = P1_ENTRIES → length l2 = P2_ENTRIES → length l3 = P3_ENTRIES →
  length (salt_of sig_bytes) = 8 * length (salt_wires mv) →
  pk_id_from_lanes l1 l2 l3 = Some id → length id = 32 →
  mayo2_populate mv w m l1 l2 l3 sig_bytes = Some (write_all (mayo2_writes mv m l1 l2 l3 sig_bytes id) w).
Proof.
  intros Hm H1' H2' H3' Hsalt Hid Hidlen.
  assert (∀ w (wires : list W) bs, length bs = 8 * length wires →
    write_le_words w wires bs = Some (write_all (byte_writes wires bs) w)) as Hbytes.
  { intros w0 wires bs Hlen. unfold write_le_words. by rewrite (proj2 (Nat.eqb_eq _ _)) by lia. }
  assert (∃ w', expanded_pk_populate (pk_wires mv)
    (write_all (byte_writes (arr4_list (msg_wires mv)) m) w) l1 l2 l3 = Some w') as [w1 Hw1].
  { unfold expanded_pk_populate. rewrite H1', H2', H3', !Nat.eqb_refl. by eexists. }
  unfold mayo2_populate. rewrite Hbytes by done. cbn [mbind option_bind]. rewrite Hw1.
  cbn [mbind option_bind]. cbv zeta. apply expanded_pk_populate_writes in Hw1 as (_ & _ & _ & ->).
  rewrite sig_populate_writes. fold (sig_scalars_of sig_bytes). fold (salt_of sig_bytes).
  rewrite Hbytes by done. cbn [mbind option_bind]. rewrite Hbytes by apply length_keccak256.
  cbn [mbind option_bind]. rewrite Hid. cbn [mbind option_bind]. rewrite Hbytes by (by rewrite Hidlen).
  f_equal. unfold mayo2_writes. by rewrite !write_all_app.
Qed.
End populate.

(** ** The inputs of the circuit *)

Section inputs.
Context {B W : Type} `{GadgetLaws B W} `{!PrimitiveLaws} `{!CircuitLaws B W}.

Definition mvecs_wires (xs : list (BitslicedGf16Mvec W)) : list W := xs ≫= λ x, arr4_list (bits x).

(** Every input of the circuit, in order of allocation. *)
Definition mayo2_wires (mv : Mayo2Verify W) : list W :=
  arr4_list (c mv) ++ arr4_list (pk_id mv) ++ arr4_list (msg_wires mv) ++
  (mvecs_wires (p1 (pk_wires mv)) ++ mvecs_wires (p2 (pk_wires mv)) ++ mvecs_wires (p3 (pk_wires mv))) ++
  concat (nibble_wires (sig mv)) ++ salt_wires mv.

Lemma Forall2_singletons (xs : list W) wss : Forall2 (λ x ws, ws = [x]) xs wss → concat wss = xs.
Proof. induction 1 as [|x ws xs wss -> _ IH]; [done|]. simpl. by rewrite IH. Qed.

Lemma Forall2_function {A X} (f : A → list X) xs wss :
  Forall2 (λ x ws, ws = f x) xs wss → concat wss = xs ≫= f.
Proof. induction 1 as [|x ws xs wss -> _ IH]; [done|]. simpl. by rewrite IH. Qed.

Lemma allocates_witnesses l :
  allocates (circ_map (λ _ : nat, add_witness) l) (λ r ws, ws = r).
Proof.
  eapply allocates_mono; [apply allocates_map; intros; apply allocates_witness|].
  cbv beta. intros r ws (_ & wss & -> & Hr). by apply Forall2_singletons.
Qed.

Lemma allocates_mvecs l :
  allocates (circ_map (λ _ : nat, mvec_new_witness) l) (λ r ws, ws = mvecs_wires r).
Proof.
  eapply allocates_mono; [apply (allocates_map _ (λ x ws, ws = arr4_list (bits x)))|].
  - intros _ _. eapply allocates_bind; [apply allocates_arr4; intros; apply allocates_witness|].
    intros r ws ->. apply allocates_ret. by rewrite app_nil_r.
  - cbv beta. intros r ws (_ & wss & -> & Hr). by apply Forall2_function.
Qed.

Lemma mayo2_inputs_allocates : allocates mayo2_inputs (λ mv ws, ws = mayo2_wires mv).
Proof.
  unfold mayo2_inputs.
  do 2 (eapply allocates_bind; [apply allocates_arr4; intros; apply allocates_inout|intros ? ? ->]).
  eapply allocates_bind; [apply allocates_arr4; intros; apply allocates_witness|intros ? ? ->].
  eapply (allocates_bind _ _ (λ pk ws, ws = mvecs_wires (p1 pk) ++ mvecs_wires (p2 pk) ++ mvecs_wires (p3 pk))).
  { unfold expanded_pk_new_witness. do 3 (eapply allocates_bind; [apply allocates_mvecs|intros ? ? ->]).
    apply allocates_ret. by rewrite app_nil_r. }
  intros pk ws ->. eapply (allocates_bind _ _ (λ sb ws, ws = concat (nibble_wires sb))).
  { unfold sig_new_witness.
    eapply allocates_bind; [apply allocates_map; intros; apply allocates_witnesses|].
    cbv beta. intros ws us (_ & wss & -> & Hws). eapply allocates_bind.
    - apply (allocates_input_free _ (λ _ vs, vs = [])); [|by intros b].
      apply gates_only_input_free. gates.
    - cbv beta. intros bs vs ->. apply allocates_ret. simpl. rewrite !app_nil_r. f_equal.
      clear -Hws. induction Hws as [|x y l k -> _ IH]; [done|]. by rewrite IH. }
  intros sb ws ->. eapply allocates_bind; [apply allocates_witnesses|intros salt ? ->].
  apply allocates_ret. unfold mayo2_wires. simpl. by rewrite app_nil_r, <- !app_assoc.
Qed.

Lemma input_free_for {X S} (l : list X) (body : X → S → Circ B S) s :
  (∀ x s, input_free (body x s)) → input_free (circ_for l body s).
Proof.
  intros Hb. revert s. induction l as [|x l IH]; intros s; [apply input_free_ret|].
  apply input_free_bind; auto.
Qed.

Lemma input_free_asserts (x y : arr4 W) :
  input_free (circ_for (seq 0 4) (λ i _, wire_assert_eq (arr4_get x i) (arr4_get y i)) ()).
Proof. apply input_free_for. intros i _ b. apply wire_assert_eq_wires. Qed.

Lemma input_free_constraints mv : input_free (mayo2_constraints mv).
Proof.
  unfold mayo2_constraints. apply input_free_bind.
  { unfold hash_message. apply input_free_bind; [apply gates_only_input_free; gates|]. intros tag.
    apply input_free_bind; [apply gates_only_input_free, keccak256_gates|]. intros.
    apply input_free_asserts. }
  intros _. apply input_free_bind.
  { unfold hash_pk. apply input_free_bind; [apply gates_only_input_free; gates|]. intros tag.
    apply input_free_bind.
    { apply gates_only_input_free, gates_only_for. intros. apply gates_only_bind; intros; gates. }
    intros packed. case_match; [|apply input_free_ret].
    apply input_free_bind; [apply gates_only_input_free, keccak256_gates|]. intros r.
    apply input_free_bind; [apply input_free_asserts|]. intros. apply input_free_ret. }
  intros [[]|]; [|apply input_free_ret]. apply input_free_bind; [|intros; apply input_free_ret].
  unfold check_signature. case_match eqn:Hshake; [|apply input_free_ret].
  apply input_free_bind; [by eapply gates_only_input_free, shake_gates|]. intros t_packed.
  apply input_free_bind; [apply gates_only_input_free; gates|]. intros t.
  apply input_free_bind; [apply gates_only_input_free, gates_only_compute_ps|]. intros ps.
  case_match eqn:Hsps; [|apply input_free_ret].
  apply input_free_bind; [by eapply gates_only_input_free, gates_only_compute_sps|]. intros sps.
  case_match eqn:Hrhs; [|apply input_free_ret].
  apply input_free_bind; [by eapply gates_only_input_free, gates_only_compute_rhs|]. intros y.
  apply input_free_bind; [apply input_free_asserts|]. intros. apply input_free_ret.
Qed.

(** The circuit built from nothing has exactly these inputs, all different. *)
Lemma mayo2_new_inputs mv b' :
  mayo2_verify_new new_builder = (Some mv, b') →
  inout_wires b' ++ witness_wires b' ≡ₚ mayo2_wires mv ∧ NoDup (mayo2_wires mv).
Proof.
  rewrite mayo2_verify_new_split. unfold mbind, circ_bind. intros Hnew.
  destruct (mayo2_inputs_allocates new_builder) as (ws & Hws & Hnd & Hmv).
  rewrite new_inouts, new_witnesses in Hws, Hnd. specialize (Hnd (NoDup_nil_2)).
  pose proof (mayo2_inputs_shape new_builder) as Hshape.
  destruct (mayo2_inputs new_builder) as [mv0 b1]. simpl in *. subst ws.
  pose proof (mayo2_constraints_return mv0 Hshape b1) as Hret.
  pose proof (input_free_constraints mv0 b1) as [Hi Hw]. rewrite Hnew in Hret, Hi, Hw. simpl in *.
  apply (inj Some) in Hret as <-. rewrite Hi, Hw. split; [done|]. by rewrite <- Hws.
Qed.
End inputs.

(** ** Reading the witness back *)

Lemma zip_fst_full {A C} (l : list A) (k : list C) : length l = length k → (zip l k).*1 = l.
Proof. intros Hlen. apply fst_zip. lia. Qed.

Section read_back.
Context {W : Type} `{EqDecision W} `{PrimitiveLaws}.

Lemma length_le_words n bs : length (le_words n bs) = n.
Proof. unfold le_words. by rewrite length_fmap, length_seq. Qed.

Lemma byte_writes_fst (wires : list W) bs : (byte_writes wires bs).*1 = wires.
Proof. apply zip_fst_full. by rewrite length_le_words. Qed.

Lemma mvecs_writes_fst (xs : list (BitslicedGf16Mvec W)) ls :
  length xs = length ls → (mvecs_writes xs ls).*1 = mvecs_wires xs.
Proof.
  revert ls. induction xs as [|x xs IH]; intros [|l ls] Hlen; try done. unfold mvecs_writes, mvecs_wires in *.
  cbn [zip zip_with]. by rewrite !bind_cons, fmap_app, IH by (by injection Hlen).
Qed.

Lemma sig_writes_fst (sb : SigBroadcasts W) s :
  Forall2 (λ row srow, length row = length srow) (nibble_wires sb) s →
  (sig_writes sb s).*1 = concat (nibble_wires sb).
Proof.
  unfold sig_writes. induction 1 as [|row srow rows s Hrow _ IH]; [done|].
  cbn [zip zip_with concat]. by rewrite bind_cons, fmap_app, IH, zip_fst_full.
Qed.

(** Bytes written word by word are read back. *)
Lemma read_bytes a L (wires : list W) bs :
  reads a L → length bs = 8 * length wires → byte_writes wires bs ⊆ L →
  words_bytes (a <$> wires) = bs.
Proof.
  intros Hnd Hlen HL. rewrite (reads_wires a L wires (le_words (length wires) bs)) by
    (done || by rewrite length_le_words). by apply words_bytes_le_words.
Qed.

Lemma read_mvec a L (x : BitslicedGf16Mvec W) lanes :
  reads a L → is_mvec lanes → mvec_writes x lanes ⊆ L → mvec_value a x = lanes.
Proof.
  intros Hnd Hl HL. unfold mvec_value, planes.
  enough (arr4_map a (bits x) = lanes_to_bitsliced lanes) as -> by
    (by apply bitsliced_lanes_inverse).
  pose proof (reads_wires a L (arr4_list (bits x))
    (arr4_list (lanes_to_bitsliced lanes)) Hnd eq_refl HL) as Hread. rewrite <- arr4_map_list in Hread.
  destruct (arr4_map _ _), (lanes_to_bitsliced lanes). by injection Hread as -> -> -> ->.
Qed.

Lemma read_mvecs a L (xs : list (BitslicedGf16Mvec W)) ls :
  reads a L → length xs = length ls → Forall is_mvec ls → mvecs_writes xs ls ⊆ L →
  mvec_value a <$> xs = ls.
Proof.
  intros Hnd Hlen Hls HL. revert ls Hlen Hls HL.
  induction xs as [|x xs IH]; intros [|l ls] Hlen Hls HL; try done.
  apply list.Forall_cons in Hls as [Hl Hls]. unfold mvecs_writes in HL. cbn [zip zip_with] in HL.
  rewrite bind_cons in HL.
  rewrite fmap_cons. f_equal.
  - apply (read_mvec a L); [done|done|]. intros p Hp. apply HL, elem_of_app. by left.
  - apply IH; [by injection Hlen|done|]. intros p Hp. apply HL, elem_of_app. by right.
Qed.

Lemma read_scalars a L (rows : list (list W)) s :
  reads a L → Forall2 (λ row srow, length row = length srow) rows s → Forall (Forall is_gf16) s →
  (zip rows s ≫= λ ws, zip ws.1 ws.2) ⊆ L →
  map (map (λ x, low_nibble (a x))) rows = s.
Proof.
  intros Hnd Hrows. induction Hrows as [|row srow rows s Hrow _ IH]; intros Hs HL; [done|].
  apply list.Forall_cons in Hs as [Hsrow Hs]. simpl in HL |- *. f_equal.
  - assert (a <$> row = srow) as Hread.
    { apply (reads_wires _ L); [done|done|]. intros p Hp. apply HL, elem_of_app. by left. }
    rewrite <- Hread in Hsrow |- *. clear -Hsrow. induction row as [|x row IH]; [done|].
    apply list.Forall_cons in Hsrow as [Hx Hsrow]. simpl. f_equal; [by apply low_nibble_gf16|by apply IH].
  - apply IH; [done|]. intros p Hp. apply HL, elem_of_app. by right.
Qed.
End read_back.

(** ** The properties of the circuit *)

Section properties.
Context {B W : Type} `{EqDecision W} `{GadgetLaws B W} `{!PrimitiveLaws} `{!CircuitLaws B W}.

Lemma byte_nibbles_gf16 bs : Forall is_gf16 (bs ≫= byte_nibbles).
Proof.
  apply Forall_bind, Forall_true. intros b. unfold compose, byte_nibbles.
  rewrite !low_nibble_land. repeat constructor; apply nibble_gf16.
Qed.

Lemma length_byte_nibbles bs : length (bs ≫= byte_nibbles) = 2 * length bs.
Proof. induction bs as [|b bs IH]; [done|]. rewrite bind_cons, length_app, IH. simpl. lia. Qed.

Lemma sig_scalars_of_shape sig_bytes :
  length sig_bytes = SIG_BYTES →
  length (sig_scalars_of sig_bytes) = K_whip ∧
  Forall (λ row, length row = N_vars ∧ Forall is_gf16 row) (sig_scalars_of sig_bytes).
Proof.
  intros Hlen. split; [done|]. unfold sig_scalars_of. apply Forall_fmap, Forall_seq.
  intros col Hcol. unfold compose. split.
  - apply length_slice. rewrite length_byte_nibbles, length_take, Hlen.
    change K_whip with 4 in Hcol. change N_vars with 81. change S_BYTES with 162.
    change SIG_BYTES with 186. lia.
  - unfold slice. apply Forall_take, Forall_drop, byte_nibbles_gf16.
Qed.

Lemma length_salt_of sig_bytes :
  length sig_bytes = SIG_BYTES → length (salt_of sig_bytes) = 8 * N_SALT_WORDS.
Proof. intros Hlen. unfold salt_of. rewrite length_slice; [done|]. rewrite Hlen. done. Qed.

Lemma sig_rows_match (mv : Mayo2Verify W) sig_bytes :
  well_shaped mv → length sig_bytes = SIG_BYTES →
  Forall2 (λ row srow, length row = length srow) (nibble_wires (sig mv)) (sig_scalars_of sig_bytes).
Proof.
  intros (_ & _ & Hrows & Hrow) Hlen.
  destruct (sig_scalars_of_shape sig_bytes Hlen) as [Hsrows Hsrow].
  apply Forall2_same_length_lookup. split; [by rewrite Hrows|].
  intros i row srow Hi Hsi.
  rewrite (Forall_lookup_1 _ _ _ _ Hrow Hi). symmetry.
  apply (Forall_lookup_1 _ _ _ _ Hsrow Hsi).
Qed.

(** The writes of [populate] go to the inputs, each exactly once. *)
Lemma mayo2_writes_fst (mv : Mayo2Verify W) m l1 l2 l3 sig_bytes id :
  well_shaped mv → length l1 = P1_ENTRIES → length l2 = P2_ENTRIES → length l3 = P3_ENTRIES →
  length sig_bytes = SIG_BYTES →
  (mayo2_writes mv m l1 l2 l3 sig_bytes id).*1 ≡ₚ mayo2_wires mv.
Proof.
  intros Hmv H1' H2' H3' Hsig. unfold mayo2_writes, mayo2_wires.
  pose proof Hmv as ((Hp1 & Hp2 & Hp3) & _).
  rewrite !fmap_app, !byte_writes_fst, !mvecs_writes_fst by congruence.
  rewrite sig_writes_fst by (by apply sig_rows_match). solve_Permutation.
Qed.

Lemma le_words_words n bs : Forall is_word (le_words n bs).
Proof.
  apply Forall_fmap, Forall_true. intros i. unfold compose, is_word.
  pose proof (le_value_bound (slice (8 * i) 8 bs)) as Hb.
  assert (length (slice (8 * i) 8 bs) ≤ 8) as Hlen by (unfold slice; rewrite length_take; lia).
  eapply N.lt_le_trans; [exact Hb|]. change u64_modulus with (256 ^ N.of_nat 8)%N.
  apply N.pow_le_mono_r; lia.
Qed.

Lemma zip_values {A C} (P : C → Prop) (l : list A) k :
  Forall P k → Forall (λ ac, P ac.2) (zip l k).
Proof.
  intros Hk. revert l. induction Hk as [|y k Hy Hk IH]; intros [|x l]; by constructor.
Qed.

Lemma mayo2_writes_words (mv : Mayo2Verify W) m l1 l2 l3 sig_bytes id :
  Forall is_mvec l1 → Forall is_mvec l2 → Forall is_mvec l3 → length sig_bytes = SIG_BYTES →
  Forall (λ wv, is_word wv.2) (mayo2_writes mv m l1 l2 l3 sig_bytes id).
Proof.
  intros H1' H2' H3' Hsig.
  assert (∀ wires bs, Forall (λ wv, is_word wv.2) (byte_writes (W:=W) wires bs)) as Hbytes
    by (intros; apply zip_values, le_words_words).
  assert (∀ xs ls, Forall is_mvec ls → Forall (λ wv, is_word wv.2) (mvecs_writes (W:=W) xs ls)) as Hmvecs.
  { intros xs ls Hls. apply Forall_bind. eapply Forall_impl; [|apply (zip_values is_mvec xs ls Hls)].
    intros [x lanes] [Hlen _]. apply zip_values. repeat constructor;
      [apply (lanes_to_bitsliced_word lanes 0)|apply (lanes_to_bitsliced_word lanes 1)
      |apply (lanes_to_bitsliced_word lanes 2)|apply (lanes_to_bitsliced_word lanes 3)]; simpl in *; lia. }
  unfold mayo2_writes. repeat (apply Forall_app; split); auto.
  destruct (sig_scalars_of_shape sig_bytes Hsig) as [_ Hrows]. apply Forall_bind.
  eapply Forall_impl; [|apply (zip_values _ (nibble_wires (sig mv)) _ Hrows)].
  intros [ws srow] [_ Hgf]. apply zip_values. simpl in *. eapply Forall_impl; [|exact Hgf].
  intros v Hv. unfold is_gf16, is_word, u64_modulus in *. lia.
Qed.

(** The side conditions of reading an input back: lengths, and that it was written. *)
Ltac read_side :=
  first [done | congruence | apply length_keccak256 | (rewrite length_salt_of by done; congruence)
    | (match goal with L := mayo2_writes _ _ _ _ _ _ _ |- _ => unfold L end; unfold mayo2_writes; auto 10)].

(** The public inputs read back: the digests [populate] computed. *)
Lemma populated_digests (mv : Mayo2Verify W) a m l1 l2 l3 sig_bytes id :
  reads a (mayo2_writes mv m l1 l2 l3 sig_bytes id) → pk_id_from_lanes l1 l2 l3 = Some id →
  digest_bytes a (c mv) = compute_c_from_digest m ∧ digest_bytes a (pk_id mv) = id.
Proof.
  intros Ha Hid. set (L := mayo2_writes mv m l1 l2 l3 sig_bytes id) in *.
  assert (∀ l k j : list (W * N), l ⊆ k → l ⊆ k ++ j) as Hleft by (intros; set_solver).
  assert (∀ l k j : list (W * N), l ⊆ j → l ⊆ k ++ j) as Hright by (intros; set_solver).
  assert (length id = 32) as Hidlen.
  { unfold pk_id_from_lanes in Hid. case_match; [|done]. apply (inj Some) in Hid as <-.
    apply length_keccak256. }
  unfold digest_bytes. rewrite !arr4_map_list.
  rewrite (read_bytes a L (arr4_list (c mv)) (compute_c_from_digest m)) by read_side.
  by rewrite (read_bytes a L (arr4_list (pk_id mv)) id) by read_side.
Qed.

(** A filler populated by [mayo2_populate] and evaluated: the statement about it. *)
Lemma populated_statement (mv : Mayo2Verify W) a m l1 l2 l3 sig_bytes id :
  well_shaped mv → reads a (mayo2_writes mv m l1 l2 l3 sig_bytes id) →
  length m = 32 → length l1 = P1_ENTRIES → length l2 = P2_ENTRIES → length l3 = P3_ENTRIES →
  Forall is_mvec l1 → Forall is_mvec l2 → Forall is_mvec l3 → length sig_bytes = SIG_BYTES →
  pk_id_from_lanes l1 l2 l3 = Some id →
  mayo2_statement a mv ↔ mayo2_valid l1 l2 l3 (sig_scalars_of sig_bytes) m (salt_of sig_bytes).
Proof.
  intros Hmv Ha Hm H1' H2' H3' Hl1 Hl2 Hl3 Hsig Hid. pose proof Hmv as ((Hp1 & Hp2 & Hp3) & Hsalt & _).
  set (L := mayo2_writes mv m l1 l2 l3 sig_bytes id) in *.
  assert (∀ l k j : list (W * N), l ⊆ k → l ⊆ k ++ j) as Hleft by (intros; set_solver).
  assert (∀ l k j : list (W * N), l ⊆ j → l ⊆ k ++ j) as Hright by (intros; set_solver).
  destruct (populated_digests mv a m l1 l2 l3 sig_bytes id Ha Hid) as [Hc Hpk].
  unfold mayo2_statement. rewrite Hc, Hpk. unfold digest_bytes, sig_lanes. rewrite !arr4_map_list.
  rewrite (read_bytes a L (arr4_list (msg_wires mv)) m) by read_side.
  rewrite (read_bytes a L (salt_wires mv) (salt_of sig_bytes)) by read_side.
  rewrite (read_mvecs a L (p1 (pk_wires mv)) l1) by read_side.
  rewrite (read_mvecs a L (p2 (pk_wires mv)) l2) by read_side.
  rewrite (read_mvecs a L (p3 (pk_wires mv)) l3) by read_side.
  rewrite (read_scalars a L (nibble_wires (sig mv)) (sig_scalars_of sig_bytes)); [|done|..].
  - rewrite Hid. tauto.
  - by apply sig_rows_match.
  - eapply Forall_impl; [|apply (sig_scalars_of_shape sig_bytes Hsig)]. by intros row [_ Hrow].
  - unfold L, mayo2_writes. apply Hright, Hright, Hleft. unfold sig_writes. done.
Qed.

(** On inputs of the right lengths [populate] does not panic; the witness it fills in, evaluated, carries
    the commitments in the public wires, and passes the assertions exactly when the signature is valid. *)
Lemma populate_fills (mv : Mayo2Verify W) b' w m l1 l2 l3 sig_bytes :
  mayo2_verify_new new_builder = (Some mv, b') → (∀ x, is_word (w x)) →
  length m = 32 → length l1 = P1_ENTRIES → length l2 = P2_ENTRIES → length l3 = P3_ENTRIES →
  is_matrix l1 l2 l3 → length sig_bytes = SIG_BYTES →
  ∃ w' id, mayo2_populate mv w m l1 l2 l3 sig_bytes = Some w' ∧ (∀ x, is_word (w' x)) ∧
    pk_id_from_lanes l1 l2 l3 = Some id ∧
    let a := populate_wire_witness b' w' in
    consistent b' a ∧
    digest_bytes a (c mv) = compute_c_from_digest m ∧ digest_bytes a (pk_id mv) = id ∧
    (assertions b' a ↔ mayo2_valid l1 l2 l3 (sig_scalars_of sig_bytes) m (salt_of sig_bytes)).
Proof.
  intros Hnew Hw Hm H1' H2' H3' (Hl1 & Hl2 & Hl3) Hsig.
  destruct (mayo2_exact (λ _, 0%N) new_builder) as (mv0 & b0 & Hnew0 & Hmv & _).
  rewrite Hnew in Hnew0. simplify_eq. destruct (mayo2_new_inputs _ _ Hnew) as [Hinputs Hnd].
  assert (∃ id, pk_id_from_lanes l1 l2 l3 = Some id ∧ length id = 32) as (id & Hid & Hidlen).
  { unfold pk_id_from_lanes. rewrite H1', H2', H3', !Nat.eqb_refl. eexists. split; [done|].
    apply length_keccak256. }
  set (L := mayo2_writes mv0 m l1 l2 l3 sig_bytes id).
  assert (mayo2_populate mv0 w m l1 l2 l3 sig_bytes = Some (write_all L w)) as Hpop.
  { apply mayo2_populate_writes_2; try done. by rewrite length_salt_of, (proj1 (proj2 Hmv)). }
  exists (write_all L w), id. split; [done|]. cbv zeta.
  assert (∀ x, is_word (write_all L w x)) as Hwords by (apply write_all_words; [done|by apply mayo2_writes_words]).
  split; [exact Hwords|]. split; [exact Hid|].
  pose proof (populate_consistent b0 _ Hwords) as Hcons. split; [done|].
  set (a := populate_wire_witness b0 (write_all L w)) in *.
  pose proof (mayo2_writes_fst mv0 m l1 l2 l3 sig_bytes id Hmv H1' H2' H3' Hsig) as Hfst. fold L in Hfst.
  assert (reads a L) as Hreads.
  { intros x v Hx. unfold a. rewrite populate_inputs.
    - apply write_all_lookup; [by rewrite Hfst|done].
    - rewrite Hinputs, <- Hfst. apply list_elem_of_fmap. by exists (x, v). }
  destruct (populated_digests mv0 a m l1 l2 l3 sig_bytes id Hreads Hid) as [Hc Hpk].
  split; [exact Hc|]. split; [exact Hpk|].
  destruct (mayo2_exact a new_builder) as (mv' & b'' & Hnew' & _ & Hexact).
  rewrite Hnew in Hnew'. simplify_eq. rewrite (Hexact Hcons).
  rewrite (populated_statement mv' a m l1 l2 l3 sig_bytes id) by done.
  split; [by intros [_ ?]|]. split; [apply new_assertions|done].
Qed.

(** C3. Whatever circuit builder it runs in, [Mayo2Verify::new] emits the verifier without a
    panic. Every valuation that obeys the emitted gates, a dishonest prover's included, passes
    the assertions exactly when its values satisfy the statement: the digest in the message
    wires hashes to [c], the packed key to [pk_id], and the public map of the key at the
    scalars in the low nibbles of the signature wires is SHAKE-256 of the digest and the salt. *)
Theorem mayo2_circuit_exact (b : B) :
  ∃ mv b', mayo2_verify_new b = (Some mv, b') ∧
    ∀ a, consistent b' a → (assertions b' a ↔ assertions b a ∧ mayo2_statement a mv).
Proof.
  destruct (mayo2_exact (λ _, 0%N) b) as (mv & b' & Hnew & Hmv & _). exists mv, b'.
  split; [done|]. intros a Ha. destruct (mayo2_exact a b) as (mv' & b'' & Hnew' & _ & Hexact).
  rewrite Hnew in Hnew'. simplify_eq. by apply Hexact.
Qed.

(** On inputs of the right lengths [populate] does not panic, and the witness it fills in,
    evaluated, passes every assertion of the circuit exactly when the signature is valid: the
    prover succeeds on valid signatures and only on them. *)
Theorem mayo2_populated_witness (mv : Mayo2Verify W) b' w m l1 l2 l3 sig_bytes :
  mayo2_verify_new new_builder = (Some mv, b') → (∀ x, is_word (w x)) →
  length m = 32 → length l1 = P1_ENTRIES → length l2 = P2_ENTRIES → length l3 = P3_ENTRIES →
  is_matrix l1 l2 l3 → length sig_bytes = SIG_BYTES →
  ∃ w', mayo2_populate mv w m l1 l2 l3 sig_bytes = Some w' ∧
    let a := populate_wire_witness b' w' in
    consistent b' a ∧
    (assertions b' a ↔ mayo2_valid l1 l2 l3 (sig_scalars_of sig_bytes) m (salt_of sig_bytes)).
Proof.
  intros Hnew Hw Hm H1' H2' H3' Hl Hsig.
  destruct (populate_fills mv b' w m l1 l2 l3 sig_bytes) as (w' & id & Hpop & _ & _ & Hc & _ & _ & Hex); try done.
  exists w'. split; [exact Hpop|]. by split.
Qed.
End properties.

(** ** An instance *)

(** Stand-ins for the hash functions with gadgets that compute them: a "hash" that keeps the
    first 32 bytes, the identity for the permutation and the cipher. *)
Module Toy.
Import Netlist.

#[export] Instance toy_primitives : Primitives := {
  keccak256 bs := take 32 (bs ++ replicate 32 x00);
  shake256_32 bs := words_bytes (take 4 (map (λ x, N.land x u64_max)
    (le_words N_WORDS_PER_BLOCK (bs ++ [x1f] ++ replicate (134 - length bs) x00 ++ [x80]) ++
     replicate (N_WORDS_PER_STATE - N_WORDS_PER_BLOCK) 0%N)));
  keccak_f1600 st := map (λ x, N.land x u64_max) st;
  aes128_encrypt_block key block := block;
}.

Lemma land_max_word x : is_word (N.land x u64_max).
Proof.
  apply is_word_bits. intros i Hi. rewrite N.land_spec, testbit_u64_max.
  destruct (N.ltb_spec i 64); [lia|]. apply andb_false_r.
Qed.

Lemma land_max_id x : is_word x → N.land x u64_max = x.
Proof.
  intros Hx. apply word_ext; [apply land_max_word|done|]. intros i Hi.
  rewrite N.land_spec, testbit_u64_max. destruct (N.ltb_spec i 64); [|lia]. apply andb_true_r.
Qed.

#[export] Instance toy_primitive_laws : PrimitiveLaws.
Proof.
  split.
  - intros bs. cbn [keccak256 toy_primitives].
    rewrite length_take, length_app, length_replicate. lia.
  - intros bs. cbn [shake256_32 toy_primitives]. by rewrite length_words_bytes.
  - intros st Hst. cbn [keccak_f1600 toy_primitives]. by rewrite length_map.
  - intros st. cbn [keccak_f1600 toy_primitives]. apply Forall_fmap, Forall_true.
    intros x. apply land_max_word.
  - done.
  - done.
Qed.

#[export] Instance toy_gadgets : Gadgets netlist wire := {
  keccak256_circuit ws _ :=
    zero ← add_constant 0;
    mret (arr4_from_fn (λ i, default zero (ws !! i)));
  keccak_f1600_circuit ws := mret ws;
}.

Lemma toy_keccak_words (vs : list N) :
  take 32 (words_bytes vs ++ replicate 32 x00) =
  words_bytes (arr4_list (arr4_from_fn (λ i, default 0%N (vs !! i)))).
Proof.
  assert (∀ l : bytes, length l = 32 → ∀ k, take 32 (l ++ k) = l) as Htake
    by (intros l Hl k; by apply take_app_length').
  assert (replicate 32 x00 = words_bytes [0; 0; 0; 0]%N) as -> by (by vm_compute).
  rewrite <- words_bytes_app.
  assert (∀ w0 w1 w2 w3 rest, take 32 (words_bytes (w0 :: w1 :: w2 :: w3 :: rest)) =
    words_bytes [w0; w1; w2; w3]) as Hfour.
  { intros w0 w1 w2 w3 rest. rewrite (words_bytes_app [w0; w1; w2; w3] rest
      : words_bytes (w0 :: w1 :: w2 :: w3 :: rest) = _). apply Htake. by rewrite length_words_bytes. }
  destruct vs as [|v0 [|v1 [|v2 [|v3 vs]]]]; cbn [app]; rewrite Hfour; done.
Qed.

#[export] Instance toy_gadget_laws : GadgetLaws netlist wire.
Proof.
  split.
  - intros ws n. unfold keccak256_circuit. cbn [toy_gadgets]. gates.
  - intros a ws n Hn. cbn [keccak256_circuit keccak256 toy_gadgets toy_primitives].
    eapply computes_bind; [intros; gates|by apply computes_gate, add_constant_gate|].
    cbv beta. intros zero Hzero. apply computes_ret. rewrite toy_keccak_words.
    unfold arr4_map, arr4_from_fn. cbn [at0 at1 at2 at3]. rewrite !list_lookup_fmap.
    repeat f_equal; match goal with |- a (default zero (ws !! ?i)) = _ => by destruct (ws !! i) end.
  - intros ws. apply gates_only_ret.
  - intros ws Hws. by apply returns_ret.
  - intros a ws Hws. apply computes_words. intros Hwords. apply computes_ret.
    cbn [keccak_f1600 toy_primitives]. symmetry. apply list_eq. intros i.
    rewrite list_lookup_fmap. rewrite list_lookup_fmap. destruct (ws !! i); [|done]. simpl.
    by rewrite land_max_id.
Qed.
End Toy.

Section witnesses.
Import Netlist Toy.

(** The circuit built in an empty netlist, and the valuation that evaluates it from zeros. *)
Lemma mayo2_circuit_exact_witness :
  ∃ (mv : Mayo2Verify wire) (b' : netlist), mayo2_verify_new new_builder = (Some mv, b') ∧
    let a := populate_wire_witness b' (λ _, 0%N) in
    consistent b' a ∧ (assertions b' a ↔ assertions new_builder a ∧ mayo2_statement a mv).
Proof.
  destruct (mayo2_circuit_exact (B:=netlist) (W:=wire) new_builder) as (mv & b' & Hnew & Hexact).
  exists mv, b'. split; [exact Hnew|]. cbv zeta.
  assert (consistent b' (populate_wire_witness b' (λ _ : wire, 0%N))) as Hcons.
  { apply populate_consistent. intros w. reflexivity. }
  split; [exact Hcons|]. exact (Hexact _ Hcons).
Defined.

(** The all-zero key, signature, digest and salt. *)
Lemma mayo2_populated_witness_witness :
  let l n := replicate n (replicate 64 0%N) in
  ∃ (mv : Mayo2Verify wire) (b' : netlist), mayo2_verify_new new_builder = (Some mv, b') ∧
  ∃ w', mayo2_populate mv (λ _, 0%N) (replicate 32 x00) (l P1_ENTRIES) (l P2_ENTRIES) (l P3_ENTRIES)
      (replicate SIG_BYTES x00) = Some w' ∧
    let a := populate_wire_witness b' w' in
    consistent b' a ∧ (assertions b' a ↔
      mayo2_valid (l P1_ENTRIES) (l P2_ENTRIES) (l P3_ENTRIES)
        (sig_scalars_of (replicate SIG_BYTES x00)) (replicate 32 x00)
        (salt_of (replicate SIG_BYTES x00))).
Proof.
  intros l.
  destruct (mayo2_exact (B:=netlist) (λ _ : wire, 0%N) new_builder) as (mv & b' & Hnew & _).
  exists mv, b'. split; [exact Hnew|].
  assert (∀ n, Forall is_mvec (l n)) as Hl.
  { intros n. apply Forall_replicate. split; [done|]. by apply Forall_replicate. }
  apply (mayo2_populated_witness mv b' (λ _, 0%N)); [exact Hnew|done|..];
    try apply length_replicate. by split_and!.
Defined.
End witnesses.
