(* ===== verification/Snark.v ===== *)
(** * Prover and verifier of signatures

    [crates/binius-mayo/src/api.rs]: [Prover] and [Verifier] hand the circuit of [Mayo] to a proving
    system. The proving system is third-party code: class [Backend] names what the crate calls of it,
    and [BackendLaws] states that evaluating a witness checks the assertions and that honest proofs
    are accepted. That an accepted proof comes from a witness is not such a law: it fails with a
    negligible probability, so the theorem about accepted bundles takes it as a hypothesis about the one
    proof. Panics carry their payload here, because [try_verify] catches them. *)
From S2P Require Import Prelude Word Gf16 Circuit Gf16Circuit Whipping Quadratic Mayo MayoSpec.
From stdpp Require Import strings pretty.
From Stdlib Require Import Lia.
Local Open Scope works_scope.

(** ** Panics that are caught *)

(** The payload of a panic: the types [from_caught_panic] tries. *)
Inductive panic_payload :=
| StaticStr (s : string)
| OwnedString (s : string)
| OtherPayload.

(** A call that returns, or unwinds with a payload. *)
Inductive unwinding (A : Type) :=
| Finished (a : A)
| Unwound (p : panic_payload).
Arguments Finished {A}. Arguments Unwound {A}.

#[export] Instance unwinding_ret : MRet unwinding := λ A a, Finished a.
#[export] Instance unwinding_bind : MBind unwinding := λ A A' k m,
  match m with Finished a => k a | Unwound p => Unwound p end.

(** [v[i] = x], with the standard library's panic out of range. *)
Definition set_at {A} (v : list A) (i : nat) (x : A) : unwinding (list A) :=
  if i <? length v then Finished (<[i := x]> v)
  else Unwound (OwnedString ("index out of bounds: the len is " +:+ pretty (N.of_nat (length v)) +:+
    " but the index is " +:+ pretty (N.of_nat i))).

(** [for (i, x) in xs.enumerate() { v[offset + i] = x }]. *)
Fixpoint set_from {A} (v : list A) (offset : nat) (xs : list A) : unwinding (list A) :=
  match xs with
  | [] => mret v
  | x :: xs => v ← set_at v offset x; set_from v (S offset) xs
  end.

(** ** The proving system *)

(** What [Verifier::compile] reads of a constraint system: its constants, and where the public and the
    private words start in the value vector. *)
Record ConstraintLayout := {
  cs_constants : list N;
  cs_offset_inout : nat;
  cs_offset_witness : nat;
}.

(** A circuit is the builder that emitted it. [fill_witness] is [Circuit::populate_wire_witness], which
    reports a failed assertion; the transcripts are created with the standard challenger. *)
Class Backend (B W : Type) := {
  BackendError : Type;
  VerifyingKey : Type;
  ProvingKey : Type;
  Randomness : Type;
  ProverTranscript : Type;
  VerifierTranscript : Type;
  constraint_system : B → ConstraintLayout;
  new_witness_filler : B → valuation W;
  fill_witness : B → valuation W → result (valuation W) BackendError;
  setup_verifier : B → nat → result VerifyingKey BackendError;
  setup_prover : VerifyingKey → result ProvingKey BackendError;
  new_prover_transcript : ProverTranscript;
  backend_prove : ProvingKey → valuation W → Randomness → ProverTranscript → result ProverTranscript BackendError;
  finalize_prover : ProverTranscript → bytes;
  new_verifier_transcript : bytes → VerifierTranscript;
  backend_verify : VerifyingKey → list N → VerifierTranscript →
    unwinding (result VerifierTranscript BackendError);
  finalize_verifier : VerifierTranscript → unwinding (result () BackendError);
}.

(** ** Errors and messages *)

(** The boxed causes: an error of the backend, a [LayoutError], a [PanicError]. *)
Inductive cause (E : Type) :=
| BackendFailure (e : E)
| LayoutError (offset_inout offset_witness constants_len : nat) (detail : string)
| PanicError (message : string).
Arguments BackendFailure {E}. Arguments LayoutError {E}. Arguments PanicError {E}.

Inductive SnarkError (E : Type) :=
| Setup (e : cause E)
| Prove (e : cause E)
| Verify (e : cause E).
Arguments Setup {E}. Arguments Prove {E}. Arguments Verify {E}.

Definition from_caught_panic {E} (payload : panic_payload) : SnarkError E :=
  let msg := match payload with
    | StaticStr s => s
    | OwnedString s => s
    | OtherPayload => "non-string panic payload"
    end in
  Verify (PanicError msg).

(** [Commitment], [PkId] and [Proof] are their bytes. *)
Record ProofBundle := { bundle_c : bytes; bundle_pk_id : bytes; bundle_proof : bytes }.
Record SignedMessage := { payload : bytes; cpk : bytes; signed_sig : bytes }.

Definition LOG_INV_RATE : nat := 3.

(** ** Prover and verifier *)

Section snark.
Context {B W : Type} `{EqDecision W} `{CircuitBuilder B W, Gadgets B W, Primitives, Backend B W}.

Record Prover := { inner : Mayo2Verify W; circuit : B; binius_prover : ProvingKey }.
Record Verifier := {
  binius_verifier : VerifyingKey;
  constants : list N;
  offset_inout : nat;
  offset_witness : nat;
}.

Definition prover_compile : outcome (result Prover (SnarkError BackendError)) :=
  let '(inner, circuit) := mayo2_verify_new new_builder in
  inner ← expect inner;
  Returns (
    let? vk := map_err (λ e, Setup (BackendFailure e)) (setup_verifier circuit LOG_INV_RATE) in
    let? pk := map_err (λ e, Setup (BackendFailure e)) (setup_prover vk) in
    Ok {| inner := inner; circuit := circuit; binius_prover := pk |}).

(** The panics of [populate] and of the key expansion are those of [Mayo]. *)
Definition prove_with_rng (self : Prover) (signed : SignedMessage) (rng : Randomness) :
    outcome (result ProofBundle (SnarkError BackendError)) :=
  let m := shake256_32 (payload signed) in
  '(p1, p2, p3) ← expect (expand_pk_to_lanes (cpk signed));
  let w := new_witness_filler (circuit self) in
  w ← expect (mayo2_populate (inner self) w m p1 p2 p3 (signed_sig signed));
  match fill_witness (circuit self) w with
  | Err e => Returns (Err (Prove (BackendFailure e)))
  | Ok value_vec =>
      match backend_prove (binius_prover self) value_vec rng new_prover_transcript with
      | Err e => Returns (Err (Prove (BackendFailure e)))
      | Ok transcript =>
          let proof_bytes := finalize_prover transcript in
          let c := compute_c_from_digest m in
          pk_id ← expect (pk_id_from_lanes p1 p2 p3);
          Returns (Ok {| bundle_c := c; bundle_pk_id := pk_id; bundle_proof := proof_bytes |})
      end
  end.

Definition verifier_compile : outcome (result Verifier (SnarkError BackendError)) :=
  let '(inner, circuit) := mayo2_verify_new (W:=W) new_builder in
  _ ← expect inner;
  let cs := constraint_system circuit in
  Returns (
    let? vk := map_err (λ e, Setup (BackendFailure e)) (setup_verifier circuit LOG_INV_RATE) in
    if cs_offset_witness cs <? cs_offset_inout cs + 8 then
      Err (Setup (LayoutError (cs_offset_inout cs) (cs_offset_witness cs) (length (cs_constants cs))
        "offset_witness must be >= offset_inout + 8 for c/pk_id slots"))
    else if cs_offset_inout cs <? length (cs_constants cs) then
      Err (Setup (LayoutError (cs_offset_inout cs) (cs_offset_witness cs) (length (cs_constants cs))
        "constants must fit in the [0, offset_inout) prefix"))
    else Ok {| binius_verifier := vk; constants := cs_constants cs;
               offset_inout := cs_offset_inout cs; offset_witness := cs_offset_witness cs |}).

(** The public words [verify] hands to the backend; [chunks_exact(8)] drops an incomplete word. *)
Definition public_input (self : Verifier) (bundle : ProofBundle) : unwinding (list N) :=
  let public := replicate (offset_witness self) 0%N in
  public ← set_from public 0 (constants self);
  public ← set_from public (offset_inout self) (le_words (length (bundle_c bundle) / 8) (bundle_c bundle));
  set_from public (offset_inout self + 4)
    (le_words (length (bundle_pk_id bundle) / 8) (bundle_pk_id bundle)).

Definition verify (self : Verifier) (bundle : ProofBundle) :
    unwinding (result () (SnarkError BackendError)) :=
  public ← public_input self bundle;
  let transcript := new_verifier_transcript (bundle_proof bundle) in
  verified ← backend_verify (binius_verifier self) public transcript;
  match verified with
  | Err e => mret (Err (Verify (BackendFailure e)))
  | Ok transcript =>
      finished ← finalize_verifier transcript;
      mret (map_err (λ e, Verify (BackendFailure e)) finished)
  end.

(** With panics that unwind, as the documentation asks. *)
Definition try_verify (self : Verifier) (bundle : ProofBundle) : result () (SnarkError BackendError) :=
  match verify self bundle with
  | Finished r => r
  | Unwound payload => Err (from_caught_panic payload)
  end.
End snark.
Arguments Prover B W {_}. Arguments Verifier B W {_}.

(** ** What the proving system promises *)

(** The public words of a circuit whose [add_inout] wires carry [inouts]: constants, zeros, the values in
    order of allocation, zeros. *)
Definition public_words (cs : ConstraintLayout) (inouts : list N) : list N :=
  cs_constants cs ++ replicate (cs_offset_inout cs - length (cs_constants cs)) 0%N ++ inouts ++
  replicate (cs_offset_witness cs - (cs_offset_inout cs + length inouts)) 0%N.

(** Whether there is room for constants and public values. *)
Definition layout_fits (cs : ConstraintLayout) (n_inout : nat) : Prop :=
  length (cs_constants cs) ≤ cs_offset_inout cs ∧ cs_offset_inout cs + n_inout ≤ cs_offset_witness cs.

(** The verifier accepts the proof for the public words. *)
Definition accepts {B W} `{Backend B W} (vk : VerifyingKey) (public : list N) (proof : bytes) : Prop :=
  ∃ t, backend_verify vk public (new_verifier_transcript proof) = Finished (Ok t) ∧
    finalize_verifier t = Finished (Ok ()).

(** Evaluating a witness succeeds when the assertions hold, and a proof of a satisfying valuation can
    be made and is accepted for its public words. *)
Class BackendLaws (B W : Type) `{CircuitBuilder B W, !Backend B W} : Prop := {
  filler_words b x : is_word (new_witness_filler b x);
  fill_witness_ok b w a : (∀ x, is_word (w x)) →
    fill_witness b w = Ok a ↔ a = populate_wire_witness b w ∧ assertions b a;
  prove_complete b rate vk pk a rng :
    setup_verifier b rate = Ok vk → setup_prover vk = Ok pk → consistent b a → assertions b a →
    layout_fits (constraint_system b) (length (inout_wires b)) →
    ∃ t, backend_prove pk a rng new_prover_transcript = Ok t ∧
      accepts vk (public_words (constraint_system b) (a <$> inout_wires b)) (finalize_prover t);
}.

(** ** The public words *)

Lemma set_from_splice {A} (v : list A) offset xs :
  offset + length xs ≤ length v → set_from v offset xs = Finished (splice offset xs v).
Proof.
  revert v offset. induction xs as [|x xs IH]; intros v offset Hlen; simpl in *.
  { by rewrite splice_nil. }
  unfold set_at. destruct (Nat.ltb_spec offset (length v)); [|lia].
  simpl. rewrite IH by (rewrite length_insert; lia). f_equal.
  rewrite <- splice_single, <- Nat.add_1_r by lia.
  by rewrite (splice_app offset [x] xs) by (simpl; lia).
Qed.

(** A public vector is filled in place. *)
Lemma public_words_splices cs inouts :
  layout_fits cs (length inouts) →
  splice (cs_offset_inout cs) inouts
    (splice 0 (cs_constants cs) (replicate (cs_offset_witness cs) 0%N)) = public_words cs inouts.
Proof.
  intros [Hc Hi].
  assert (∀ n, splice 0 (cs_constants cs) (replicate n 0%N) =
    cs_constants cs ++ replicate (n - length (cs_constants cs)) 0%N) as ->
    by (intros n; unfold splice; by rewrite drop_replicate).
  unfold splice, public_words. rewrite take_app_ge, drop_app_ge by lia.
  rewrite take_replicate, drop_replicate, <- app_assoc. f_equal. f_equal; [f_equal; lia|].
  f_equal. f_equal. lia.
Qed.

Lemma public_words_inj cs us vs :
  length us = length vs → public_words cs us = public_words cs vs → us = vs.
Proof.
  unfold public_words. intros Hlen Heq. apply app_inv_head, app_inv_head in Heq.
  by apply app_inj_1 in Heq as [? _].
Qed.

Section public_input.
Context {B W : Type} `{EqDecision W} `{CircuitBuilder B W, Gadgets B W, Primitives, Backend B W}.

(** What [Verifier::compile] keeps: the checks it makes are those [verify] relies on. *)
Lemma verifier_compile_ok (self : Verifier B W) mv b :
  mayo2_verify_new (new_builder : B) = (mv, b) → verifier_compile = Returns (Ok self) →
  setup_verifier b LOG_INV_RATE = Ok (binius_verifier self) ∧
  constraint_system b = Build_ConstraintLayout (constants self) (offset_inout self) (offset_witness self) ∧
  layout_fits (constraint_system b) 8.
Proof.
  unfold verifier_compile. intros ->. destruct mv; [|done]. simpl.
  destruct (setup_verifier b LOG_INV_RATE) as [vk|]; [|done]. simpl.
  destruct (Nat.ltb_spec (cs_offset_witness (constraint_system b)) (cs_offset_inout (constraint_system b) + 8)); [done|].
  destruct (Nat.ltb_spec (cs_offset_inout (constraint_system b)) (length (cs_constants (constraint_system b)))); [done|].
  intros [= <-]. simpl. split; [done|]. by destruct (constraint_system b).
Qed.

(** On a bundle of 32-byte commitments a compiled verifier indexes inside its buffer, and gives the
    backend the words of [c] and [pk_id] at the circuit's first eight public wires. *)
Lemma public_input_eq (self : Verifier B W) mv b bundle :
  mayo2_verify_new (new_builder : B) = (mv, b) → verifier_compile = Returns (Ok self) →
  length (bundle_c bundle) = 32 → length (bundle_pk_id bundle) = 32 →
  public_input self bundle = Finished (public_words (constraint_system b)
    (le_words 4 (bundle_c bundle) ++ le_words 4 (bundle_pk_id bundle))).
Proof.
  intros Hnew Hself Hc Hpk. destruct (verifier_compile_ok self mv b Hnew Hself) as (_ & Hcs & Hfits).
  rewrite Hcs in *. destruct Hfits as [Hf1 Hf2]. simpl in Hf1, Hf2. unfold public_input. rewrite Hc, Hpk.
  change (32 / 8) with 4.
  set (cw := le_words 4 (bundle_c bundle)). set (pw := le_words 4 (bundle_pk_id bundle)).
  assert (length cw = 4) as Hcw by apply length_le_words. assert (length pw = 4) as Hpw by apply length_le_words.
  set (v := replicate (offset_witness self) 0%N).
  assert (length v = offset_witness self) as Hv by apply length_replicate.
  assert (length (splice 0 (constants self) v) = offset_witness self) as Hv1 by (rewrite length_splice; lia).
  rewrite set_from_splice by lia. cbn [mbind unwinding_bind].
  rewrite set_from_splice by lia. cbn [mbind unwinding_bind].
  rewrite set_from_splice by (rewrite length_splice; lia). f_equal.
  rewrite <- public_words_splices by (split; simpl; rewrite ?length_app; lia).
  cbn [cs_constants cs_offset_inout cs_offset_witness]. fold v.
  rewrite <- splice_app by lia. by rewrite Hcw.
Qed.

(** [verify] of such a bundle is the backend's verdict on these words. *)
Lemma verify_accepts (self : Verifier B W) mv b bundle :
  mayo2_verify_new (new_builder : B) = (mv, b) → verifier_compile = Returns (Ok self) →
  length (bundle_c bundle) = 32 → length (bundle_pk_id bundle) = 32 →
  verify self bundle = Finished (Ok ()) ↔ accepts (binius_verifier self)
    (public_words (constraint_system b) (le_words 4 (bundle_c bundle) ++ le_words 4 (bundle_pk_id bundle)))
    (bundle_proof bundle).
Proof.
  intros Hnew Hself Hc Hpk. unfold verify, accepts. rewrite (public_input_eq self mv b) by done. simpl.
  destruct (backend_verify _ _ _) as [[t|e]|p]; simpl; [|split; [done|by intros (t & ? & _)]..].
  split.
  - destruct (finalize_verifier t) as [[[]|e]|p] eqn:Hfin; simpl; intros; [|done..]. by exists t.
  - intros (t' & [= <-] & Hfin). by rewrite Hfin.
Qed.

Lemma try_verify_ok (self : Verifier B W) bundle :
  try_verify self bundle = Ok () ↔ verify self bundle = Finished (Ok ()).
Proof. unfold try_verify. destruct (verify self bundle) as [[[]|e]|p]; split; congruence || done. Qed.
End public_input.

(** ** The public wires, in order *)

Section inout_order.
Context {B W : Type} `{GadgetLaws B W} `{!PrimitiveLaws} `{!CircuitLaws B W}.

(** A generator that adds the public wires [ws], with [R result ws]. *)
Definition publishes {A} (m : Circ B A) (R : A → list W → Prop) : Prop := ∀ b, ∃ ws,
  inout_wires (m b).2 = inout_wires b ++ ws ∧ R (m b).1 ws.
Definition publishes_nothing {A} (m : Circ B A) : Prop := publishes m (λ _ ws, ws = []).

Lemma publishes_ret {A} (x : A) (R : A → list W → Prop) : R x [] → publishes (mret x) R.
Proof. intros HR b. exists []. by rewrite app_nil_r. Qed.

Lemma publishes_bind {A A'} (m : Circ B A) (k : A → Circ B A') R (S : A' → list W → Prop) :
  publishes m R → (∀ x ws, R x ws → publishes (k x) (λ y us, S y (ws ++ us))) → publishes (m ≫= k) S.
Proof.
  intros Hm Hk b. destruct (Hm b) as (ws & Hws & HR). unfold mbind, circ_bind.
  destruct (m b) as [x b1]. simpl in *. destruct (Hk x ws HR b1) as (us & Hus & HS).
  exists (ws ++ us). by rewrite Hus, Hws, app_assoc.
Qed.

Lemma publishes_nothing_bind {A A'} (m : Circ B A) (k : A → Circ B A') :
  publishes_nothing m → (∀ x, publishes_nothing (k x)) → publishes_nothing (m ≫= k).
Proof. intros Hm Hk. eapply publishes_bind; [exact Hm|]. intros x ws ->. apply Hk. Qed.

Lemma publishes_nothing_ret {A} (x : A) : publishes_nothing (mret x).
Proof. by apply publishes_ret. Qed.

Lemma publishes_nothing_free {A} (m : Circ B A) : input_free m → publishes_nothing m.
Proof. intros Hm b. exists []. rewrite app_nil_r. split; [apply (Hm b)|done]. Qed.

Lemma publishes_witness : publishes_nothing add_witness.
Proof. intros b. exists []. rewrite app_nil_r. split; [apply (add_witness_wires b)|done]. Qed.

Lemma publishes_nothing_map {X A} (body : X → Circ B A) l :
  (∀ x, publishes_nothing (body x)) → publishes_nothing (circ_map body l).
Proof.
  intros Hb. induction l as [|x l IH]; [apply publishes_nothing_ret|].
  apply publishes_nothing_bind; [apply Hb|]. intros y.
  apply publishes_nothing_bind; [apply IH|]. intros ys. apply publishes_nothing_ret.
Qed.

Lemma publishes_nothing_arr4 {A} (body : nat → Circ B A) :
  (∀ i, publishes_nothing (body i)) → publishes_nothing (circ_arr4 body).
Proof.
  intros Hb. unfold circ_arr4. do 4 (apply publishes_nothing_bind; [apply Hb|intros]).
  apply publishes_nothing_ret.
Qed.

Lemma publishes_inouts : publishes (circ_arr4 (λ _, add_inout)) (λ r ws, ws = arr4_list r).
Proof.
  assert (publishes add_inout (λ w ws, ws = [w])) as Hone.
  { intros b. exists [(add_inout b).1]. split; [apply (add_inout_wires b)|done]. }
  unfold circ_arr4. do 4 (eapply publishes_bind; [exact Hone|intros ? ? ->]). by apply publishes_ret.
Qed.

(** The inputs of the circuit publish [c], then [pk_id]. *)
Lemma publishes_inputs :
  publishes mayo2_inputs (λ mv ws, ws = arr4_list (c mv) ++ arr4_list (pk_id mv)).
Proof.
  assert (publishes_nothing mvec_new_witness) as Hmvec.
  { apply publishes_nothing_bind; [|intros; apply publishes_nothing_ret].
    apply publishes_nothing_arr4. intros. apply publishes_witness. }
  unfold mayo2_inputs. do 2 (eapply publishes_bind; [apply publishes_inouts|intros ? ? ->]).
  eapply publishes_bind; [apply publishes_nothing_arr4; intros; apply publishes_witness|intros ? ? ->].
  eapply (publishes_bind _ _ (λ _ ws, ws = [])).
  { unfold expanded_pk_new_witness.
    do 3 (apply publishes_nothing_bind; [by apply publishes_nothing_map|intros]). apply publishes_nothing_ret. }
  intros pk ws ->. eapply (publishes_bind _ _ (λ _ ws, ws = [])).
  { unfold sig_new_witness. apply publishes_nothing_bind.
    { do 2 (apply publishes_nothing_map; intros). apply publishes_witness. }
    intros ws. apply publishes_nothing_bind; [|intros; apply publishes_nothing_ret].
    apply publishes_nothing_free, gates_only_input_free. gates. }
  intros sb ws ->. eapply publishes_bind; [apply publishes_nothing_map; intros; apply publishes_witness|].
  intros salt ws ->. apply publishes_ret. simpl. done.
Qed.

Lemma mayo2_inout_wires mv b :
  mayo2_verify_new new_builder = (Some mv, b) →
  inout_wires b = arr4_list (c mv) ++ arr4_list (pk_id mv).
Proof.
  rewrite mayo2_verify_new_split. unfold mbind, circ_bind. intros Hnew.
  destruct (publishes_inputs new_builder) as (ws & Hws & Hmv). rewrite new_inouts in Hws.
  pose proof (mayo2_inputs_shape new_builder) as Hshape.
  destruct (mayo2_inputs new_builder) as [mv0 b1]. simpl in *. subst ws.
  pose proof (mayo2_constraints_return mv0 Hshape b1) as Hret.
  pose proof (input_free_constraints mv0 b1) as [Hi _]. rewrite Hnew in Hret, Hi. simpl in *.
  apply (inj Some) in Hret as <-. by rewrite Hi.
Qed.
End inout_order.

(** ** Keys *)

Section keys.
Context `{PrimitiveLaws}.

(** These two byte strings collide under Keccak-256. *)
Definition collide (x y : bytes) : Prop := x ≠ y ∧ keccak256 x = keccak256 y.

Lemma keccak_binds tag x y : keccak256 (tag ++ x) = keccak256 (tag ++ y) → x = y ∨ collide (tag ++ x) (tag ++ y).
Proof.
  intros Heq. destruct (decide (x = y)); [by left|]. right. split; [|done]. by intros ?%app_inv_head.
Qed.

Lemma fill_entry_mvec key counter : is_mvec (fill_entry key counter).1.
Proof.
  unfold fill_entry. change (seq 0 (M_VEC_BYTES / 16)) with [0; 1]. cbn [fold_left fst app].
  split; [|apply Forall_app; split; apply byte_nibbles_gf16].
  rewrite length_app, !length_byte_nibbles, !length_aes128; [done|..];
    by rewrite length_app, length_replicate; unfold be_bytes4; rewrite length_rev, length_le_bytes.
Qed.

(** The loop that fills [n] entries. *)
Lemma fill_entries_mvecs key l entries counter :
  Forall is_mvec entries →
  let '(entries', _) := fold_left (λ ec (_ : nat),
    let '(entries, counter) := ec in
    let '(e, counter) := fill_entry key counter in (entries ++ [e], counter)) l (entries, counter) in
  length entries' = length entries + length l ∧ Forall is_mvec entries'.
Proof.
  revert entries counter. induction l as [|x l IH]; intros entries counter Hes; cbn [fold_left].
  { split; [simpl; lia|done]. }
  pose proof (fill_entry_mvec key counter) as He. destruct (fill_entry key counter) as [e counter'].
  specialize (IH (entries ++ [e]) counter'). destruct (fold_left _ l _) as [es ?].
  destruct IH as [Hlen Hmv]; [by apply Forall_app; split; [|by constructor]|].
  rewrite length_app in Hlen. simpl in *. split; [lia|done].
Qed.

Lemma unpack_m_vec_array_mvecs packed n es :
  unpack_m_vec_array packed n = Some es → length es = n ∧ Forall is_mvec es.
Proof.
  unfold unpack_m_vec_array. destruct (Nat.eqb_spec (length packed) (n * (M_eqs / 2))) as [Hlen|]; [|done].
  intros [= <-]. rewrite length_fmap, length_seq. split; [done|].
  apply Forall_fmap, Forall_seq. intros i Hi. unfold compose. split; [|apply byte_nibbles_gf16].
  rewrite length_byte_nibbles, length_slice; [done|]. change (M_eqs / 2) with 32 in *. nia.
Qed.

(** A compact key expands to a matrix of the right shape. *)
Lemma expand_pk_to_lanes_matrix cpk :
  length cpk = CPK_BYTES → ∃ p1 p2 p3, expand_pk_to_lanes cpk = Some (p1, p2, p3) ∧
    length p1 = P1_ENTRIES ∧ length p2 = P2_ENTRIES ∧ length p3 = P3_ENTRIES ∧ is_matrix p1 p2 p3.
Proof.
  intros Hcpk. unfold expand_pk_to_lanes.
  pose proof (fill_entries_mvecs (take PK_SEED_BYTES cpk) (seq 0 P1_ENTRIES) [] 0%N) as Hp1.
  destruct (fold_left _ (seq 0 P1_ENTRIES) _) as [p1 counter]. destruct Hp1 as [Hp1 Hm1]; [by constructor|].
  pose proof (fill_entries_mvecs (take PK_SEED_BYTES cpk) (seq 0 P2_ENTRIES) [] counter) as Hp2.
  destruct (fold_left _ (seq 0 P2_ENTRIES) _) as [p2 counter']. destruct Hp2 as [Hp2 Hm2]; [by constructor|].
  destruct (unpack_m_vec_array (drop PK_SEED_BYTES cpk) P3_ENTRIES) as [p3|] eqn:Hp3.
  - apply unpack_m_vec_array_mvecs in Hp3 as [Hp3 Hm3]. exists p1, p2, p3. split; [done|].
    rewrite length_seq in Hp1, Hp2. done.
  - unfold unpack_m_vec_array in Hp3. rewrite length_drop, Hcpk in Hp3.
    change (CPK_BYTES - PK_SEED_BYTES) with (P3_ENTRIES * (M_eqs / 2)) in Hp3. by rewrite Nat.eqb_refl in Hp3.
Qed.

(** A function to blocks of one length, injective on the elements, is injective on lists. *)
Lemma bind_inj {X Y} (P : X → Prop) (f : X → list Y) n l k :
  0 < n → (∀ x, P x → length (f x) = n) → (∀ x y, P x → P y → f x = f y → x = y) →
  Forall P l → Forall P k → l ≫= f = k ≫= f → l = k.
Proof.
  intros Hn Hlen Hinj Hl. revert k. induction Hl as [|x l Hx Hl IH]; intros [|y k] Hk Heq; [done|..].
  - apply Forall_cons in Hk as [Hy _]. rewrite bind_cons in Heq. apply (f_equal length) in Heq.
    rewrite length_app, (Hlen y Hy) in Heq. simpl in Heq. lia.
  - rewrite bind_cons in Heq. apply (f_equal length) in Heq. rewrite length_app, (Hlen x Hx) in Heq. simpl in Heq. lia.
  - apply Forall_cons in Hk as [Hy Hk]. rewrite !bind_cons in Heq.
    apply app_inj_1 in Heq as [Hxy Heq]; [|by rewrite !Hlen]. f_equal; [by apply Hinj|by apply IH].
Qed.

Lemma packed_entry_inj x y :
  is_mvec x → is_mvec y →
  words_bytes (arr4_list (pack_lanes x)) = words_bytes (arr4_list (pack_lanes y)) → x = y.
Proof.
  intros Hx Hy Heq.
  assert (∀ z, is_mvec z → Forall is_word (arr4_list (pack_lanes z))) as Hwords.
  { intros z [Hz _]. assert (∀ w, w < 4 → is_word (arr4_get (pack_lanes z) w)) as Hw
      by (intros; apply pack_lanes_word; lia).
    repeat constructor; [apply (Hw 0)|apply (Hw 1)|apply (Hw 2)|apply (Hw 3)]; lia. }
  apply words_bytes_inj in Heq; [|by apply Hwords..|done].
  rewrite <- (packed_lanes_inverse x), <- (packed_lanes_inverse y) by done. f_equal.
  apply arr4_ext. intros i Hi. apply (inj Some). by rewrite <- !arr4_list_lookup, Heq by done.
Qed.

(** Keys with the same fingerprint are equal, or what is hashed of them collides. *)
Lemma pk_id_binds p1 p2 p3 q1 q2 q3 id :
  is_matrix p1 p2 p3 → is_matrix q1 q2 q3 →
  pk_id_from_lanes p1 p2 p3 = Some id → pk_id_from_lanes q1 q2 q3 = Some id →
  (p1, p2, p3) = (q1, q2, q3) ∨
  collide (DOMAIN_TAG_PK ++ canonical_packed p1 p2 p3) (DOMAIN_TAG_PK ++ canonical_packed q1 q2 q3).
Proof.
  intros (Hp1 & Hp2 & Hp3) (Hq1 & Hq2 & Hq3). unfold pk_id_from_lanes.
  destruct ((length p1 =? _) && _ && _) eqn:Hp; [|done]. intros <-.
  destruct ((length q1 =? _) && _ && _) eqn:Hq; [|done]. intros Heq%(inj Some)%eq_sym. nbool.
  apply keccak_binds in Heq as [Heq|]; [|by right]. left.
  apply (bind_inj is_mvec _ 32) in Heq;
    [|lia|intros; by rewrite length_words_bytes|apply packed_entry_inj
    |repeat (apply Forall_app; split; [done|]); done..].
  apply app_inj_1 in Heq as [-> Heq]; [|congruence].
  apply app_inj_1 in Heq as [-> ->]; [done|congruence].
Qed.
End keys.

(** ** Properties *)

Lemma Ok_inj {A E} (x y : A) : @Ok A E x = Ok y → x = y.
Proof. by intros [= ->]. Qed.

Section properties.
Context {B W : Type} `{EqDecision W} `{GadgetLaws B W} `{!PrimitiveLaws} `{!CircuitLaws B W}.
Context `{!Backend B W}.

#[local] Opaque P1_ENTRIES P2_ENTRIES P3_ENTRIES CPK_BYTES SIG_BYTES.

(** The signature is one of the payload, under the expanded key. *)
Definition signed_valid (signed : SignedMessage) (p1 p2 p3 : list (list N)) : Prop :=
  mayo2_valid p1 p2 p3 (sig_scalars_of (signed_sig signed)) (shake256_32 (payload signed))
    (salt_of (signed_sig signed)).

#[export] Instance signed_valid_dec signed p1 p2 p3 : Decision (signed_valid signed p1 p2 p3).
Proof. unfold signed_valid, mayo2_valid. apply _. Defined.

(** What [extract] finds behind a proof: for whatever public words it is accepted, a valuation that
    satisfies the circuit with these words in its public wires. *)
Definition extracts (circuit : B) (vk : VerifyingKey) (proof : bytes) (extract : list N → valuation W) : Prop :=
  ∀ public, accepts vk public proof →
    consistent circuit (extract public) ∧ assertions circuit (extract public) ∧
    public_words (constraint_system circuit) (extract public <$> inout_wires circuit) = public.

(** The public words of a bundle: its two commitments. *)
Definition bundle_words (circuit : B) (bundle : ProofBundle) : list N :=
  public_words (constraint_system circuit) (le_words 4 (bundle_c bundle) ++ le_words 4 (bundle_pk_id bundle)).

Lemma prover_compile_ok (self : Prover B W) :
  prover_compile = Returns (Ok self) →
  mayo2_verify_new new_builder = (Some (inner self), circuit self) ∧
  ∃ vk, setup_verifier (circuit self) LOG_INV_RATE = Ok vk ∧ setup_prover vk = Ok (binius_prover self).
Proof.
  unfold prover_compile. destruct (mayo2_verify_new new_builder) as [[mv|] b]; [|done]. simpl.
  destruct (setup_verifier b LOG_INV_RATE) as [vk|] eqn:Hvk; [|done]. simpl.
  destruct (setup_prover vk) as [pk|] eqn:Hpk; [|done]. intros [= <-]. simpl. eauto.
Qed.

(** The words of a digest's wires. *)
Lemma digest_words a (x : arr4 W) :
  (∀ w, is_word (a w)) → a <$> arr4_list x = le_words 4 (digest_bytes a x).
Proof.
  intros Hwords. unfold digest_bytes. rewrite arr4_map_list.
  pose proof (le_words_words_bytes (a <$> arr4_list x) (words_of_wires a Hwords _)) as Hle.
  rewrite length_fmap in Hle. change (length (arr4_list x)) with 4 in Hle. by rewrite Hle.
Qed.

Lemma length_digest_bytes a (x : arr4 W) : length (digest_bytes a x) = 32.
Proof. unfold digest_bytes. by rewrite length_words_bytes. Qed.

Lemma length_compute_c m : length (compute_c m) = 32.
Proof. apply length_keccak256. Qed.

Lemma length_pk_id p1 p2 p3 id : pk_id_from_lanes p1 p2 p3 = Some id → length id = 32.
Proof. unfold pk_id_from_lanes. case_match; [|done]. intros <-%(inj Some). apply length_keccak256. Qed.

Lemma compute_commitments_inv pl key p1 p2 p3 c0 id :
  expand_pk_to_lanes key = Some (p1, p2, p3) →
  compute_commitments pl key = Some (c0, id) ↔ c0 = compute_c pl ∧ pk_id_from_lanes p1 p2 p3 = Some id.
Proof.
  intros Hexp. unfold compute_commitments, compute_pk_id. rewrite Hexp. cbn [mbind option_bind].
  destruct (pk_id_from_lanes p1 p2 p3) as [id'|]; cbn [mbind option_bind].
  - split; [intros Heq%(inj Some)%pair_eq; destruct Heq as [<- <-]; by split|intros [-> Heq%(inj Some)]; by rewrite Heq].
  - split; [discriminate|by intros [_ ?]].
Qed.

(** Public words that come from a valuation: the values of the wires of [c] and [pk_id]. *)
Lemma public_digests mv b a cs (x y : bytes) :
  mayo2_verify_new new_builder = (Some mv, b) → consistent b a → length x = 32 → length y = 32 →
  public_words cs (a <$> inout_wires b) = public_words cs (le_words 4 x ++ le_words 4 y) →
  digest_bytes a (c mv) = x ∧ digest_bytes a (pk_id mv) = y.
Proof.
  intros Hnew Ha Hx Hy Heq. pose proof (λ w, consistent_words _ _ w Ha) as Hwords.
  rewrite (mayo2_inout_wires mv b Hnew), fmap_app, !digest_words in Heq by done.
  apply public_words_inj in Heq; [|by rewrite !length_app, !length_le_words].
  apply app_inj_1 in Heq as [Hc Hpk]; [|by rewrite !length_le_words].
  apply (f_equal words_bytes) in Hc, Hpk.
  by rewrite !words_bytes_le_words in Hc, Hpk by (done || by rewrite length_digest_bytes).
Qed.

(** What an accepted bundle shows of the values behind it. *)
Lemma accepted_statement (self : Verifier B W) mv b bundle extract :
  mayo2_verify_new new_builder = (Some mv, b) → verifier_compile = Returns (Ok self) →
  length (bundle_c bundle) = 32 → length (bundle_pk_id bundle) = 32 →
  extracts b (binius_verifier self) (bundle_proof bundle) extract →
  try_verify self bundle = Ok () →
  let a := extract (bundle_words b bundle) in
  mayo2_statement a mv ∧ well_shaped mv ∧
  digest_bytes a (c mv) = bundle_c bundle ∧ digest_bytes a (pk_id mv) = bundle_pk_id bundle.
Proof.
  intros Hnew Hself Hc Hpk Hext Hok a.
  rewrite try_verify_ok, (verify_accepts self (Some mv) b) in Hok by done.
  destruct (Hext _ Hok) as (Ha & Hassert & Hpub). fold (bundle_words b bundle) a in Ha, Hassert, Hpub.
  destruct (mayo2_exact a new_builder) as (mv' & b' & Hnew' & Hshape & Hexact).
  rewrite Hnew in Hnew'. simplify_eq. apply (Hexact Ha) in Hassert as [_ Hst].
  split; [done|]. split; [done|]. by eapply public_digests.
Qed.

(** C4. Soundness as the application sees it. Let the verifier accept a bundle whose commitments are those
    the application computes from a payload and a compact key, and let [extract] find the valuation behind
    the proof. The values on its wires are a MAYO-2 signature, with its salt, of the digest and under the
    key on its wires. Digest and key are those of the payload and the compact key, or the bytes hashed for
    the one or the other collide under Keccak-256: two strings that the theorem names, read off the
    extracted wires and computed from the application's input. *)
Theorem accepted_bundle_signed (self : Verifier B W) mv b bundle pl key extract :
  mayo2_verify_new new_builder = (Some mv, b) → verifier_compile = Returns (Ok self) → length key = CPK_BYTES →
  extracts b (binius_verifier self) (bundle_proof bundle) extract →
  compute_commitments pl key = Some (bundle_c bundle, bundle_pk_id bundle) →
  try_verify self bundle = Ok () →
  let a := extract (bundle_words b bundle) in
  let (m, s) := (digest_bytes a (msg_wires mv), sig_lanes a mv) in
  let salt := words_bytes (a <$> salt_wires mv) in
  let (q1, q2) := (mvec_value a <$> p1 (pk_wires mv), mvec_value a <$> p2 (pk_wires mv)) in
  let q3 := mvec_value a <$> p3 (pk_wires mv) in
  length salt = SALT_BYTES ∧ length s = K_whip ∧ Forall (λ row, length row = N_vars ∧ Forall is_gf16 row) s ∧
  mayo2_valid q1 q2 q3 s m salt ∧
  ∃ p1 p2 p3, expand_pk_to_lanes key = Some (p1, p2, p3) ∧
    (m = shake256_32 pl ∧ (q1, q2, q3) = (p1, p2, p3) ∧ mayo2_valid p1 p2 p3 s (shake256_32 pl) salt ∨
     collide (DOMAIN_TAG_C ++ m) (DOMAIN_TAG_C ++ shake256_32 pl) ∨
     collide (DOMAIN_TAG_PK ++ canonical_packed q1 q2 q3) (DOMAIN_TAG_PK ++ canonical_packed p1 p2 p3)).
Proof.
  intros Hnew Hself Hkey Hext Hcom Hok a.
  destruct (expand_pk_to_lanes_matrix key Hkey) as (p1 & p2 & p3 & Hexp & Hp1 & Hp2 & Hp3 & Hm).
  apply (compute_commitments_inv _ _ _ _ _ _ _ Hexp) in Hcom as [Hc Hpk].
  destruct (accepted_statement self mv b bundle extract) as ((Hsc & Hspk & Hvalid) & Hshape & Hac & Hapk);
    [done..|by rewrite Hc; apply length_compute_c|by eapply length_pk_id|done|done|].
  fold a in Hsc, Hspk, Hvalid, Hac, Hapk. rewrite Hac, Hc in Hsc. rewrite Hapk in Hspk.
  pose proof Hshape as (_ & Hsalt & Hrows & Hrow).
  split; [by rewrite length_words_bytes, length_fmap, Hsalt|]. split; [by unfold sig_lanes; rewrite length_map|].
  split.
  { unfold sig_lanes. apply Forall_fmap. eapply Forall_impl; [exact Hrow|]. intros row Hlen. unfold compose.
    split; [by rewrite length_map|]. apply Forall_fmap, Forall_true. intros w. apply nibble_gf16. }
  split; [exact Hvalid|]. exists p1, p2, p3. split; [done|].
  apply keccak_binds in Hsc as [Hm'|]; [|by right; left].
  apply (pk_id_binds _ _ _ p1 p2 p3) in Hspk as [Heq|]; [|by right; right|..|done|done].
  2: { split_and!; apply Forall_fmap, Forall_true; intros x; apply mvec_value_mvec. }
  left. split; [done|]. split; [done|].
  apply pair_eq in Heq as [Heq E3]. apply pair_eq in Heq as [E1 E2]. by rewrite E1, E2, E3, Hm' in Hvalid.
Qed.

Context `{!BackendLaws B W}.

(** Both compilations return; what they return is up to the setups and the layout. *)
Lemma compile_returns : ∃ mv b, mayo2_verify_new new_builder = (Some mv, b) ∧
  (∃ r : result (Prover B W) _, prover_compile = Returns r) ∧
  (∃ r : result (Verifier B W) _, verifier_compile = Returns r) ∧
  ∀ vk, setup_verifier b LOG_INV_RATE = Ok vk →
    (∀ pk, setup_prover vk = Ok pk → prover_compile = Returns (Ok {| inner := mv; circuit := b; binius_prover := pk |})) ∧
    (layout_fits (constraint_system b) 8 → ∃ self, verifier_compile = Returns (Ok self) ∧
      binius_verifier self = vk).
Proof.
  destruct (mayo2_exact (λ _, 0%N) new_builder) as (mv & b & Hnew & _). exists mv, b.
  split; [done|]. unfold prover_compile, verifier_compile. rewrite Hnew. cbn [expect mbind outcome_bind].
  split; [by eexists|]. split; [by eexists|]. intros vk Hvk. rewrite Hvk. cbn [map_err result_bind].
  split; [by intros pk ->|]. intros [Hc Hi]. rewrite (proj2 (Nat.ltb_ge _ _)) by lia.
  rewrite (proj2 (Nat.ltb_ge _ _)) by lia. by eexists.
Qed.

(** The prover on a signature of the right length: a witness it can fill, or an assertion that fails. *)
Lemma honest_bundle (prover : Prover B W) signed p1 p2 p3 rng :
  prover_compile = Returns (Ok prover) → layout_fits (constraint_system (circuit prover)) 8 →
  length (signed_sig signed) = SIG_BYTES → expand_pk_to_lanes (cpk signed) = Some (p1, p2, p3) →
  length p1 = P1_ENTRIES → length p2 = P2_ENTRIES → length p3 = P3_ENTRIES → is_matrix p1 p2 p3 →
  if decide (signed_valid signed p1 p2 p3) then
    ∃ a t id, consistent (circuit prover) a ∧ assertions (circuit prover) a ∧
      backend_prove (binius_prover prover) a rng new_prover_transcript = Ok t ∧
      pk_id_from_lanes p1 p2 p3 = Some id ∧
      a <$> inout_wires (circuit prover) = le_words 4 (compute_c (payload signed)) ++ le_words 4 id ∧
      prove_with_rng prover signed rng =
        Returns (Ok (Build_ProofBundle (compute_c (payload signed)) id (finalize_prover t)))
  else ∃ e, prove_with_rng prover signed rng = Returns (Err (Prove e)).
Proof.
  intros Hprover Hfits Hsig Hexp Hp1 Hp2 Hp3 Hm.
  destruct (prover_compile_ok prover Hprover) as (Hnew & vk & Hvk & Hpk).
  destruct (populate_fills (inner prover) (circuit prover) (new_witness_filler (circuit prover))
    (shake256_32 (payload signed)) p1 p2 p3 (signed_sig signed))
    as (w' & id & Hpop & Hwords & Hid & Hcons & Hc & Hpkid & Hexact);
    [done|intros; apply filler_words|apply length_shake256_32|done..|].
  unfold prove_with_rng. rewrite Hexp. cbn [expect mbind outcome_bind]. rewrite Hpop.
  cbn [expect mbind outcome_bind]. set (a := populate_wire_witness (circuit prover) w') in *.
  pose proof (fill_witness_ok (circuit prover) w' a Hwords) as Hfill. case_decide as Hv.
  - apply Hexact in Hv. rewrite (proj2 Hfill) by (split; [reflexivity|exact Hv]).
    destruct (prove_complete (circuit prover) LOG_INV_RATE _ _ _ rng Hvk Hpk Hcons Hv) as (t & Ht & _).
    { by rewrite (mayo2_inout_wires _ _ Hnew). }
    exists a, t, id. rewrite Ht, Hid. cbn [expect mbind outcome_bind].
    rewrite (mayo2_inout_wires _ _ Hnew), fmap_app, !digest_words, Hc, Hpkid
      by (intros; by eapply consistent_words). split_and!; (reflexivity || assumption).
  - destruct (fill_witness (circuit prover) w') as [v|e] eqn:Hf; [|by eexists].
    exfalso. apply (fill_witness_ok _ _ _ Hwords) in Hf as [-> Hass]. by apply Hv, Hexact.
Qed.

(** C17. Compiled from the same circuit, prover and verifier agree. On a compact key and a signature of the
    right lengths the prover never panics: it fails, with [Prove], exactly when the signature is not one of
    the payload under the key; otherwise its bundle carries the commitments the application computes
    itself, and the verifier accepts it. *)
Theorem prove_then_verify (prover : Prover B W) (verifier : Verifier B W) signed rng :
  prover_compile = Returns (Ok prover) → verifier_compile = Returns (Ok verifier) →
  length (cpk signed) = CPK_BYTES → length (signed_sig signed) = SIG_BYTES →
  ∃ p1 p2 p3, expand_pk_to_lanes (cpk signed) = Some (p1, p2, p3) ∧
    (signed_valid signed p1 p2 p3 ∧ (∃ bundle, prove_with_rng prover signed rng = Returns (Ok bundle) ∧
       compute_commitments (payload signed) (cpk signed) = Some (bundle_c bundle, bundle_pk_id bundle) ∧
       verify verifier bundle = Finished (Ok ())) ∨
     ¬ signed_valid signed p1 p2 p3 ∧ ∃ e, prove_with_rng prover signed rng = Returns (Err (Prove e))).
Proof.
  intros Hprover Hverifier Hkey Hsig.
  destruct (prover_compile_ok prover Hprover) as (Hnew & vk & Hvk & Hpk).
  destruct (verifier_compile_ok verifier _ _ Hnew Hverifier) as (Hvk' & _ & Hfits).
  rewrite Hvk in Hvk'. apply Ok_inj in Hvk' as ->.
  destruct (expand_pk_to_lanes_matrix _ Hkey) as (p1 & p2 & p3 & Hexp & Hp1 & Hp2 & Hp3 & Hm).
  exists p1, p2, p3. split; [exact Hexp|].
  pose proof (honest_bundle prover signed p1 p2 p3 rng Hprover Hfits Hsig Hexp Hp1 Hp2 Hp3 Hm) as Hb.
  case_decide as Hv; [left|right]; (split; [exact Hv|]); [|exact Hb].
  destruct Hb as (a & t & id & Ha & Hass & Ht & Hid & Hpub & ->). eexists. split; [reflexivity|].
  cbn [bundle_c bundle_pk_id bundle_proof].
  split; [apply (compute_commitments_inv _ _ _ _ _ _ _ Hexp); split; [reflexivity|exact Hid]|].
  rewrite (verify_accepts verifier _ _ _ Hnew Hverifier); cbn [bundle_c bundle_pk_id bundle_proof];
    [|apply length_compute_c|by eapply length_pk_id].
  destruct (prove_complete (circuit prover) LOG_INV_RATE _ _ _ rng Hvk Hpk Ha Hass) as (t' & Ht' & Hacc).
  { by rewrite (mayo2_inout_wires _ _ Hnew). }
  rewrite Ht in Ht'. apply Ok_inj in Ht' as <-. by rewrite Hpub in Hacc.
Qed.
End properties.

(** ** An instance *)

(** A backend whose proof of a witness is its public words in the clear. *)
Module SnarkEx.
Import Netlist Toy.

#[export] Instance public_backend : Backend netlist wire := {
  BackendError := ();
  VerifyingKey := netlist;
  ProvingKey := netlist;
  Randomness := ();
  ProverTranscript := bytes;
  VerifierTranscript := bytes;
  constraint_system b := {|
    cs_constants := [u64_max]; cs_offset_inout := 2;
    cs_offset_witness := 2 + length (inout_wires b) + 1 |};
  new_witness_filler _ := λ _, 0%N;
  fill_witness b w :=
    let a := populate_wire_witness b w in
    if decide (Forall (λ xy, a xy.1 = a xy.2) (equalities b)) then Ok a else Err ();
  setup_verifier b _ := Ok b;
  setup_prover b := Ok b;
  new_prover_transcript := [];
  backend_prove b a _ t := Ok (t ++ words_bytes (public_words
    {| cs_constants := [u64_max]; cs_offset_inout := 2; cs_offset_witness := 2 + length (inout_wires b) + 1 |}
    (a <$> inout_wires b)));
  finalize_prover t := t;
  new_verifier_transcript bs := bs;
  backend_verify _ public t :=
    if decide (Forall is_word public ∧ t = words_bytes public) then Finished (Ok t) else Finished (Err ());
  finalize_verifier _ := Finished (Ok ());
}.

Lemma public_words_words cs inouts :
  Forall is_word (cs_constants cs) → Forall is_word inouts → Forall is_word (public_words cs inouts).
Proof.
  intros Hc Hi. unfold public_words. repeat (apply Forall_app; split); try done; by apply Forall_replicate.
Qed.

#[export] Instance public_backend_laws : BackendLaws netlist wire.
Proof.
  split.
  - done.
  - intros b w a Hw. cbn [fill_witness public_backend]. case_decide as Hd.
    + split; [by intros <-%Ok_inj|by intros [-> _]].
    + split; [done|intros [-> Hass]; by destruct Hd].
  - intros b rate vk pk a rng Hvk Hpk Ha Hass Hfits. apply Ok_inj in Hvk as <-. apply Ok_inj in Hpk as <-.
    eexists. split; [reflexivity|]. cbn [new_prover_transcript public_backend app finalize_prover].
    eexists. split; [|reflexivity]. cbn [backend_verify public_backend new_verifier_transcript].
    rewrite decide_True; [reflexivity|]. split; [|reflexivity].
    apply public_words_words; [by repeat constructor|]. apply Forall_fmap, Forall_true.
    intros x. apply (consistent_words _ _ _ Ha).
Qed.

(** The witness of a proof of this backend can be extracted. *)
Lemma public_proof_extracts (b : netlist) (a : valuation wire) :
  consistent b a → assertions b a →
  extracts (B:=netlist) (W:=wire) b b (words_bytes (public_words (constraint_system b) (a <$> inout_wires b))) (λ _, a).
Proof.
  intros Ha Hass public (t & Ht & _). cbn [backend_verify public_backend new_verifier_transcript] in Ht.
  case_decide as Hd; [|done]. destruct Hd as [Hwords Heq]. split; [done|]. split; [done|].
  apply words_bytes_inj; [|done| |done].
  - apply public_words_words; [by repeat constructor|]. apply Forall_fmap, Forall_true.
    intros x. apply (consistent_words _ _ _ Ha).
  - apply (f_equal length) in Heq. rewrite !length_words_bytes in Heq. lia.
Qed.

(** The all-zero signature is one of 32 zero bytes, whatever the key. *)
Definition zero_message : SignedMessage := {|
  payload := replicate 32 x00; cpk := replicate CPK_BYTES x00; signed_sig := replicate SIG_BYTES x00 |}.

Lemma gf_mul_0_l x : gf_mul 0 x = 0%N.
Proof.
  rewrite gf_mul_low. destruct (gf16_nibble (low_nibble x)) as (b0 & b1 & b2 & b3 & ->); [apply nibble_gf16|].
  by destruct b0, b1, b2, b3.
Qed.

Lemma fmap_same {A A'} (f : A → A') y l : (∀ x, f x = y) → f <$> l = replicate (length l) y.
Proof. intros Hf. induction l as [|x l IH]; [done|]. rewrite fmap_cons, Hf, IH. done. Qed.

Lemma gf_sum_zeros {A} (f : A → N) l : (∀ x, f x = 0%N) → gf_sum (f <$> l) = 0%N.
Proof. intros Hf. induction l as [|x l IH]; [done|]. rewrite fmap_cons. simpl. by rewrite IH, Hf. Qed.

Lemma zero_signature_valid p1 p2 p3 : signed_valid zero_message p1 p2 p3.
Proof.
  assert (∀ col r, s_entry (replicate K_whip (replicate N_vars 0%N)) col r = 0%N) as Hs.
  { intros col r. unfold s_entry.
    destruct (replicate K_whip _ !! col) as [row|] eqn:Hrow; [|done]. cbn [default from_option].
    apply lookup_replicate in Hrow as [-> _]. destruct (_ !! r) as [v|] eqn:Hv; [|done].
    by apply lookup_replicate in Hv as [-> _]. }
  assert (sig_scalars_of (signed_sig zero_message) = replicate K_whip (replicate N_vars 0%N)) as E
    by (vm_compute; reflexivity).
  unfold signed_valid, mayo2_valid, public_map. rewrite E.
  rewrite (fmap_same _ (replicate 64 0%N)); [vm_compute; reflexivity|]. intros n.
  rewrite (fmap_same _ 0%N); [reflexivity|]. intros i.
  unfold bilinear_form. apply gf_sum_zeros. intros j. apply gf_sum_zeros. intros r.
  by rewrite Hs, gf_mul_0_l.
Qed.

Definition zero_key : bytes := cpk zero_message.

(** What the two compilations of this instance hold. *)
Lemma compiled : ∃ (prover : Prover netlist wire) (verifier : Verifier netlist wire),
  prover_compile = Returns (Ok prover) ∧ verifier_compile = Returns (Ok verifier) ∧
  circuit prover = (mayo2_verify_new (W:=wire) new_builder).2 ∧ binius_prover prover = circuit prover ∧
  binius_verifier verifier = circuit prover ∧ layout_fits (constraint_system (circuit prover)) 8.
Proof.
  destruct (compile_returns (B:=netlist) (W:=wire)) as (mv & b & Hnew & _ & _ & Hok).
  destruct (Hok b eq_refl) as [Hp Hv].
  assert (layout_fits (constraint_system b) 8) as Hfits.
  { split; [simpl; lia|]. cbn [constraint_system public_backend cs_offset_inout cs_offset_witness].
    rewrite (mayo2_inout_wires mv b Hnew). simpl. lia. }
  destruct (Hv Hfits) as (verifier & Hver & Hkey).
  specialize (Hp b eq_refl). eexists _, verifier. rewrite Hnew.
  split; [exact Hp|]. split; [exact Hver|]. by split_and!.
Qed.

(** A bundle for the zero message: accepted, with a proof whose witness can be extracted. *)
Lemma zero_bundle : ∃ (verifier : Verifier netlist wire) mv b bundle a,
  mayo2_verify_new (W:=wire) new_builder = (Some mv, b) ∧ verifier_compile = Returns (Ok verifier) ∧
  extracts b (binius_verifier verifier) (bundle_proof bundle) (λ _, a) ∧
  compute_commitments (payload zero_message) zero_key = Some (bundle_c bundle, bundle_pk_id bundle) ∧
  try_verify verifier bundle = Ok ().
Proof.
  destruct compiled as (prover & verifier & Hp & Hv & Hcirc & Hpk & Hvk & Hfits).
  destruct (prover_compile_ok prover Hp) as [Hnew _].
  destruct (expand_pk_to_lanes_matrix zero_key) as (p1 & p2 & p3 & Hexp & Hp1 & Hp2 & Hp3 & Hm);
    [apply length_replicate|].
  pose proof (honest_bundle prover zero_message p1 p2 p3 () Hp Hfits (length_replicate _ _) Hexp Hp1 Hp2 Hp3 Hm)
    as Hb. rewrite decide_True in Hb by apply zero_signature_valid.
  destruct Hb as (a & t & id & Ha & Hass & Ht & Hid & Hpub & _).
  exists verifier, (inner prover), (circuit prover),
    {| bundle_c := compute_c (payload zero_message); bundle_pk_id := id; bundle_proof := t |}, a.
  cbn [bundle_c bundle_pk_id bundle_proof]. split; [exact Hnew|]. split; [exact Hv|].
  cbn [backend_prove public_backend new_prover_transcript app] in Ht. apply Ok_inj in Ht. rewrite Hpk in Ht.
  rewrite Hvk, <- Ht. split; [by apply public_proof_extracts|].
  split; [apply (compute_commitments_inv _ _ _ _ _ _ _ Hexp); split; [reflexivity|exact Hid]|].
  apply try_verify_ok, (verify_accepts verifier _ _ _ Hnew Hv);
    cbn [bundle_c bundle_pk_id bundle_proof]; [apply length_compute_c|by eapply length_pk_id|].
  rewrite <- Hpub, Hvk. eexists. split; [|reflexivity].
  cbn [backend_verify public_backend new_verifier_transcript]. rewrite decide_True; [reflexivity|].
  split; [|reflexivity]. apply public_words_words; [by repeat constructor|].
  apply Forall_fmap, Forall_true. intros x. apply (consistent_words _ _ _ Ha).
Qed.

(** The bundle of the zero message. *)
Lemma accepted_bundle_signed_witness : ∃ (verifier : Verifier netlist wire) mv b bundle a,
  mayo2_verify_new (W:=wire) new_builder = (Some mv, b) ∧
  verifier_compile = Returns (Ok verifier) ∧ try_verify verifier bundle = Ok () ∧
  mayo2_valid (mvec_value a <$> p1 (pk_wires mv)) (mvec_value a <$> p2 (pk_wires mv))
    (mvec_value a <$> p3 (pk_wires mv)) (sig_lanes a mv) (digest_bytes a (msg_wires mv))
    (words_bytes (a <$> salt_wires mv)).
Proof.
  destruct zero_bundle as (verifier & mv & b & bundle & a & Hnew & Hv & Hext & Hcom & Hok).
  exists verifier, mv, b, bundle, a. split; [exact Hnew|]. split; [exact Hv|]. split; [exact Hok|].
  destruct (accepted_bundle_signed verifier mv b bundle _ zero_key (λ _, a) Hnew Hv (length_replicate _ _) Hext Hcom Hok)
    as (_ & _ & _ & Hvalid & _). exact Hvalid.
Defined.

(** The zero message, proved and verified: the first case holds. *)
Lemma prove_then_verify_witness : ∃ (prover : Prover netlist wire) (verifier : Verifier netlist wire),
  prover_compile = Returns (Ok prover) ∧ verifier_compile = Returns (Ok verifier) ∧
  ∃ bundle, prove_with_rng prover zero_message () = Returns (Ok bundle) ∧
    compute_commitments (payload zero_message) zero_key = Some (bundle_c bundle, bundle_pk_id bundle) ∧
    verify verifier bundle = Finished (Ok ()).
Proof.
  destruct compiled as (prover & verifier & Hp & Hv & _). exists prover, verifier.
  split; [exact Hp|]. split; [exact Hv|].
  destruct (prove_then_verify prover verifier zero_message () Hp Hv (length_replicate _ _) (length_replicate _ _))
    as (p1 & p2 & p3 & _ & [[_ Hb]|[Hn _]]); [exact Hb|].
  destruct (Hn (zero_signature_valid p1 p2 p3)).
Defined.
End SnarkEx.
