(* ===== verification/Kem.v ===== *)
(** The interfaces of sealring: the key-encapsulation trait ([crates/sealring/src/kem.rs]), the
    domain trait ([domain.rs]), a recipient's key pair ([recipient.rs]), what the suite relies on
    of an implementation, and the toy implementations of [test_util.rs]. *)
From S2P Require Import Prelude.
From stdpp Require Import strings.

(** ** Randomness *)

(** [CryptoRng] of [rand_core]: a generator hands out bytes and moves on. *)
Class CryptoRng (R : Type) := fill_bytes : nat → R → R * bytes.

(** [fill_bytes] fills the buffer it is given. *)
Class CryptoRngLaws (R : Type) `(CryptoRng R) :=
  length_fill_bytes n rng : length (fill_bytes n rng).2 = n.

(** ** Key encapsulation *)

Class Kem := {
  PublicKey : Type;
  SecretKey : Type;
  Epk : Type;
  SharedSecret : Type;
  (** [Epk: AsRef<[u8]>] and [SharedSecret: AsRef<[u8]>]. *)
  epk_ref : Epk → bytes;
  shared_ref : SharedSecret → bytes;
  KEM_ID : byte;
  EPK_LEN : nat;
  encap : ∀ {R : Type} `{CryptoRng R}, R → PublicKey → R * (Epk * SharedSecret);
  decap : SecretKey → bytes → option SharedSecret;
  derive_pk : SecretKey → PublicKey;
  encode_pk : PublicKey → Epk;
  decap_batch : SecretKey → list bytes → list (option SharedSecret) → list (option SharedSecret);
}.

(** The provided body of [decap_batch]: a zip of the keys with the slots; slots past the keys keep
    what they hold. *)
Definition decap_batch_default {SK SS} (decap : SK → bytes → option SS) (sk : SK)
    (epks : list bytes) (out : list (option SS)) : list (option SS) :=
  zip_with (λ epk _, decap sk epk) epks out ++ drop (length epks) out.

(** A shared secret that tells nothing: every byte is zero. *)
Abbreviation degenerate := (Forall (λ b : byte, b = x00)).

(** What the suite relies on: encodings have the announced length, the two sides of an
    encapsulation agree unless the secret is degenerate, and the batch is the scalar loop. The
    conformance suite of [test_util.rs] asks the same of an adapter. *)
Class KemLaws `(Kem) := {
  length_encode_pk pk : length (epk_ref (encode_pk pk)) = EPK_LEN;
  length_encap {R : Type} `{!CryptoRng R, !CryptoRngLaws R _} (rng : R) pk :
    length (epk_ref (encap rng pk).2.1) = EPK_LEN;
  decap_encap {R : Type} `{!CryptoRng R, !CryptoRngLaws R _} (rng : R) sk :
    let '(epk, shared) := (encap rng (derive_pk sk)).2 in
    ¬ degenerate (shared_ref shared) →
    shared_ref <$> decap sk (epk_ref epk) = Some (shared_ref shared);
  decap_batch_map sk epks out : length epks = length out →
    (fmap shared_ref) <$> decap_batch sk epks out = (λ epk, shared_ref <$> decap sk epk) <$> epks;
}.

(** ** Domains *)

Class Domain := {
  Note : Type;
  DomainError : Type;
  DOMAIN_TAG : string;
  (** Appends the encoding of a note to the buffer. *)
  encode_note : Note → bytes → bytes * result () DomainError;
  decode_note : bytes → result Note DomainError;
  verify : Note → bytes → bool;
}.

(** The provided body of [verify]. *)
Definition verify_default {N} (note : N) (aad : bytes) : bool := true.

(** An encoded note decodes to itself. *)
Class DomainLaws `(Domain) :=
  decode_encode note out : encode_note note [] = (out, Ok ()) → decode_note out = Ok note.

(** [D::DOMAIN_TAG.as_bytes()]. *)
Definition tag_bytes `{Domain} : bytes := String.list_byte_of_string DOMAIN_TAG.

(** ** Recipients *)

Section recipient.
Context `{Kem}.

Record Recipient := MkRecipient { sk : SecretKey; pk : PublicKey; pk_encoded : Epk }.

Definition recipient_new (sk : SecretKey) : Recipient :=
  let pk := derive_pk sk in
  let pk_encoded := encode_pk pk in
  MkRecipient sk pk pk_encoded.

(** [pk_encoded()]: the form the KDF consumes. *)
Definition pk_encoded_ref (r : Recipient) : bytes := epk_ref (pk_encoded r).

End recipient.

(** ** Toy implementations *)

(** [[u8; 32]]. *)
Record array32 := MkArray32 { array_bytes : bytes; array_len : bool_decide (length array_bytes = 32) }.

(** [try_into()] of a slice. *)
Definition try_array32 (bs : bytes) : option array32 :=
  match decide (bool_decide (length bs = 32)) with
  | left Hlen => Some (MkArray32 bs Hlen)
  | right _ => None
  end.

(** A zeroed array that is filled from a buffer of its length. *)
Definition fill_array32 (bs : bytes) : array32 :=
  default (MkArray32 (replicate 32 x00) I) (try_array32 bs).

Definition xor_byte (a b : byte) : byte := byte_of_N (N.lxor (Byte.to_N a) (Byte.to_N b)).
Definition xor32 (a b : array32) : array32 :=
  fill_array32 (zip_with xor_byte (array_bytes a) (array_bytes b)).

Definition mock_encap {R : Type} `{CryptoRng R} (rng : R) (to : array32) : R * (array32 * array32) :=
  let (rng, filled) := fill_bytes 32 rng in
  let epk := fill_array32 filled in
  let shared := xor32 epk to in
  (rng, (epk, shared)).

Definition mock_decap (sk : array32) (epk : bytes) : option array32 :=
  epk ← try_array32 epk; Some (xor32 epk sk).

(** Public and secret keys share a representation. *)
Definition MockKem : Kem := {|
  PublicKey := array32;
  SecretKey := array32;
  Epk := array32;
  SharedSecret := array32;
  epk_ref := array_bytes;
  shared_ref := array_bytes;
  KEM_ID := xff;
  EPK_LEN := 32;
  encap := @mock_encap;
  decap := mock_decap;
  derive_pk := id;
  encode_pk := id;
  decap_batch := decap_batch_default mock_decap;
|}.

(** Notes are raw bytes, and their codec cannot fail. *)
Definition TestDomain : Domain := {|
  Note := bytes;
  DomainError := Empty_set;
  DOMAIN_TAG := "sealring-test"%string;
  encode_note note out := (out ++ note, Ok ());
  decode_note bs := Ok bs;
  verify := verify_default;
|}.

(** ** The conformance suite, as predicates on an adapter *)

Section conformance.
Context `{Kem}.

Definition conformance_garbage_fails (sk : SecretKey) : bool :=
  bool_decide (decap sk [] = None) &&
  bool_decide (decap sk (replicate (EPK_LEN - 1) xaa) = None) &&
  bool_decide (decap sk (replicate (EPK_LEN + 1) xaa) = None).

Definition conformance_low_order_fails (sk : SecretKey) (cases : list bytes) : bool :=
  forallb (λ case, bool_decide (decap sk case = None)) cases.

Definition conformance_roundtrip {R : Type} `{CryptoRng R} (rng : R) (pk : PublicKey) (sk : SecretKey) : outcome bool :=
  let '(_, (epk, expected)) := encap rng pk in
  actual ← expect (decap sk (epk_ref epk));
  mret (bool_decide (shared_ref expected = shared_ref actual)).

Definition conformance_derive_pk_agrees (pk : PublicKey) (sk : SecretKey) : bool :=
  bool_decide (epk_ref (encode_pk (derive_pk sk)) = epk_ref (encode_pk pk)).

End conformance.

(** ** Lemmas *)

Lemma length_array32 (a : array32) : length (array_bytes a) = 32.
Proof. exact (bool_decide_unpack _ (array_len a)). Qed.

Lemma array32_eq (a b : array32) : array_bytes a = array_bytes b → a = b.
Proof. destruct a, b; simpl. intros ->. f_equal. apply proof_irrel. Qed.

Lemma try_array32_bytes (a : array32) : try_array32 (array_bytes a) = Some a.
Proof.
  unfold try_array32. case_match; [f_equal; by apply array32_eq|].
  destruct n. by apply bool_decide_pack, length_array32.
Qed.

Lemma try_array32_Some bs a : try_array32 bs = Some a → array_bytes a = bs.
Proof. unfold try_array32. case_match; [|done]. by intros [= <-]. Qed.

Lemma decap_batch_default_map {SK SS} (decap : SK → bytes → option SS) sk epks out :
  length epks = length out → decap_batch_default decap sk epks out = decap sk <$> epks.
Proof.
  unfold decap_batch_default. intros Hlen. rewrite drop_ge, app_nil_r by lia.
  revert out Hlen. induction epks as [|e epks IH]; intros [|o out] Hlen; simplify_eq/=; [done|].
  by rewrite IH by lia.
Qed.

Lemma mock_kem_laws : KemLaws MockKem.
Proof.
  split; simpl.
  - apply length_array32.
  - intros. apply length_array32.
  - intros R ? ? rng sk. unfold mock_encap. destruct (fill_bytes 32 rng) as [rng' filled]. simpl.
    intros _. unfold mock_decap. by rewrite try_array32_bytes.
  - intros sk epks out Hlen. rewrite decap_batch_default_map by done. by rewrite <- list_fmap_compose.
Qed.

Lemma test_domain_laws : DomainLaws TestDomain.
Proof. intros note out. simpl. by intros [= <-]. Qed.

(** The toy adapter passes the conformance suite on every key. *)
Lemma mock_conformance {R : Type} `{CryptoRng R} (rng : R) (sk : array32) :
  @conformance_garbage_fails MockKem sk = true ∧
  @conformance_roundtrip MockKem R _ rng sk sk = Returns true ∧
  @conformance_derive_pk_agrees MockKem sk sk = true.
Proof.
  split_and!.
  - unfold conformance_garbage_fails. rewrite !bool_decide_true; done.
  - unfold conformance_roundtrip. simpl. unfold mock_encap. destruct (fill_bytes 32 rng). simpl.
    unfold mock_decap. rewrite try_array32_bytes. simpl. by rewrite bool_decide_true.
  - unfold conformance_derive_pk_agrees. by rewrite bool_decide_true.
Qed.
