(* ===== verification/SealedNote.v ===== *)
(** The wire format of a sealed note ([crates/sealring/src/envelope.rs]) and the errors of the
    suite ([error.rs]): the parser, the accessors of a parsed note, and the proof that a note is
    exactly one byte string. *)
From S2P Require Import Prelude Kem.

(** ** Errors *)

Inductive ParseErrorKind :=
| TooShort (expected actual : nat)
| WrongVersion (expected actual : byte)
| WrongKemId (expected actual : byte)
| CtTooLong (max actual : nat).

Record ParseError := MkParseError { input : bytes; kind : ParseErrorKind }.

Definition too_short (input : bytes) (expected actual : nat) : ParseError :=
  MkParseError input (TooShort expected actual).
Definition wrong_version (input : bytes) (expected actual : byte) : ParseError :=
  MkParseError input (WrongVersion expected actual).
Definition wrong_kem_id (input : bytes) (expected actual : byte) : ParseError :=
  MkParseError input (WrongKemId expected actual).
Definition ct_too_long (input : bytes) (max actual : nat) : ParseError :=
  MkParseError input (CtTooLong max actual).
Definition into_inner (e : ParseError) : bytes := input e.

(** Sealing failed; nothing says why. *)
Inductive SealErrorT := SealError.

Inductive OpenError := AeadError | NoteDecode | VerifyError.

(** An envelope addressed to the scanning key that does not open. *)
Inductive MalformedT := Malformed (e : OpenError).

#[export] Instance parse_error_kind_eq_dec : EqDecision ParseErrorKind.
Proof. solve_decision. Defined.
#[export] Instance open_error_eq_dec : EqDecision OpenError.
Proof. solve_decision. Defined.
#[export] Instance malformed_eq_dec : EqDecision MalformedT.
Proof. solve_decision. Defined.

(** ** The envelope *)

(** [MAX_CT_LEN = 64 * 1024]; a binary numeral, not to spell out 65536 successors. *)
Definition MAX_CT_LEN : nat := N.to_nat 65536.
Definition VERSION : byte := x01.
Definition HEADER_LEN : nat := 2.
Definition COMMIT_LEN : nat := 32.
Definition AEAD_TAG_LEN : nat := 16.

Lemma MAX_CT_LEN_large : 1000 ≤ MAX_CT_LEN.
Proof. unfold MAX_CT_LEN. lia. Qed.
#[global] Opaque MAX_CT_LEN.

Section envelope.
Context `{Kem}.

(** [SealedNote<K, B>]: its canonical bytes. *)
Record SealedNote := MkSealedNote { as_bytes : bytes }.

Definition parse (bs : bytes) : outcome (result SealedNote ParseError) :=
  let min_len := HEADER_LEN + EPK_LEN + COMMIT_LEN + AEAD_TAG_LEN in
  let len := length bs in
  if len <? min_len then mret (Err (too_short bs min_len len)) else
  version ← index bs 0;
  if negb (bool_decide (version = VERSION)) then mret (Err (wrong_version bs VERSION version)) else
  kem_id ← index bs 1;
  if negb (bool_decide (kem_id = KEM_ID)) then mret (Err (wrong_kem_id bs KEM_ID kem_id)) else
  let ct_len := len - (HEADER_LEN + EPK_LEN + COMMIT_LEN) in
  if MAX_CT_LEN <? ct_len then mret (Err (ct_too_long bs MAX_CT_LEN ct_len)) else
  mret (Ok (MkSealedNote bs)).

Definition version (n : SealedNote) : outcome byte := index (as_bytes n) 0.
Definition kem_id (n : SealedNote) : outcome byte := index (as_bytes n) 1.
Definition epk (n : SealedNote) : outcome bytes :=
  subslice HEADER_LEN (HEADER_LEN + EPK_LEN) (as_bytes n).
(** [first_chunk()] is [None] on a slice shorter than the chunk. *)
Definition commit (n : SealedNote) : outcome bytes :=
  let start := HEADER_LEN + EPK_LEN in
  rest ← subslice start (length (as_bytes n)) (as_bytes n);
  if length rest <? COMMIT_LEN then Panics else mret (take COMMIT_LEN rest).
Definition ct (n : SealedNote) : outcome bytes :=
  let start := HEADER_LEN + EPK_LEN + COMMIT_LEN in
  subslice start (length (as_bytes n)) (as_bytes n).

(** The byte string of an envelope with the given fields. *)
Definition envelope (e c t : bytes) : bytes := [VERSION; KEM_ID] ++ e ++ c ++ t.

(** What [parse] accepts. *)
Definition wire (bs : bytes) : Prop := ∃ e c t,
  bs = envelope e c t ∧ length e = EPK_LEN ∧ length c = COMMIT_LEN ∧
  AEAD_TAG_LEN ≤ length t ≤ MAX_CT_LEN.

(** *** Byte strings from a self-describing format *)

Definition max_envelope_len : nat := HEADER_LEN + EPK_LEN + COMMIT_LEN + MAX_CT_LEN.

(** The loop of [visit_seq]: the elements pushed in order, or the first error. *)
Fixpoint collect_bytes {E} (seq : list (result byte E)) (out : bytes) : result bytes E :=
  match seq with
  | [] => Ok out
  | Ok byte :: seq => collect_bytes seq (out ++ [byte])
  | Err e :: _ => Err e
  end.

(** [visit_seq]: the capacity reserved up front, and the bytes. *)
Definition visit_seq {E} (size_hint : option nat) (seq : list (result byte E)) : nat * result bytes E :=
  let reserve := default 0 size_hint `min` max_envelope_len in
  (reserve, collect_bytes seq []).

(** ** Lemmas *)

Lemma envelope_eq e c t : length e = EPK_LEN → length c = COMMIT_LEN →
  length (envelope e c t) = HEADER_LEN + EPK_LEN + COMMIT_LEN + length t.
Proof. intros He Hc. unfold envelope, HEADER_LEN. rewrite !length_app, He, Hc. cbn [length]. lia. Qed.

(** Fields of the right widths read back. *)
Lemma envelope_fields e c t : length e = EPK_LEN → length c = COMMIT_LEN →
  let n := MkSealedNote (envelope e c t) in
  version n = Returns VERSION ∧ kem_id n = Returns KEM_ID ∧
  epk n = Returns e ∧ commit n = Returns c ∧ ct n = Returns t.
Proof.
  intros He Hc n. pose proof (envelope_eq e c t He Hc) as Hlen.
  assert (Hdrop : drop (HEADER_LEN + EPK_LEN) (envelope e c t) = c ++ t).
  { unfold envelope, HEADER_LEN. rewrite <- drop_drop. change (drop EPK_LEN (e ++ c ++ t) = c ++ t).
    by rewrite drop_app_length'. }
  split_and!; try done.
  - unfold epk, subslice. simpl as_bytes. rewrite Hlen. rewrite (proj2 (Nat.leb_le _ _)) by lia.
    rewrite (proj2 (Nat.leb_le _ _)) by lia. simpl andb. cbv iota. do 2 f_equal.
    rewrite Nat.add_sub'. change (take EPK_LEN (e ++ c ++ t) = e). by rewrite take_app_length'.
  - unfold commit, subslice. simpl as_bytes. rewrite Hlen. rewrite (proj2 (Nat.leb_le _ _)) by lia.
    rewrite (proj2 (Nat.leb_le _ _)) by lia. simpl andb. cbv iota. rewrite Hdrop.
    rewrite take_ge by (rewrite length_app; lia). cbn [mbind outcome_bind].
    rewrite (proj2 (Nat.ltb_ge _ _)) by (rewrite length_app; lia). by rewrite take_app_length'.
  - unfold ct, subslice. simpl as_bytes. rewrite Hlen. rewrite (proj2 (Nat.leb_le _ _)) by lia.
    rewrite (proj2 (Nat.leb_le _ _)) by lia. simpl andb. cbv iota.
    rewrite <- drop_drop, Hdrop, drop_app_length' by done. rewrite take_ge by lia. done.
Qed.

(** The fields of a byte string long enough, with the right two first bytes. *)
Lemma envelope_split bs : HEADER_LEN + EPK_LEN + COMMIT_LEN ≤ length bs →
  bs !! 0 = Some VERSION → bs !! 1 = Some KEM_ID →
  ∃ e c t, bs = envelope e c t ∧ length e = EPK_LEN ∧ length c = COMMIT_LEN.
Proof.
  intros Hlen H0 H1. destruct bs as [|v [|k bs]]; simplify_eq/=.
  exists (take EPK_LEN bs), (take COMMIT_LEN (drop EPK_LEN bs)), (drop COMMIT_LEN (drop EPK_LEN bs)).
  unfold HEADER_LEN in Hlen. unfold envelope. rewrite !take_drop. split; [done|].
  rewrite !length_take, length_drop. lia.
Qed.

Lemma bool_decide_neg_true (P : Prop) `{Decision P} : negb (bool_decide P) = true ↔ ¬ P.
Proof. by rewrite negb_true_iff, bool_decide_eq_false. Qed.

(** [parse], as one decision: accept, or name the first defect. *)
Lemma parse_decides bs :
  (wire bs ∧ parse bs = Returns (Ok (MkSealedNote bs))) ∨
  (¬ wire bs ∧ ∃ kind, parse bs = Returns (Err (MkParseError bs kind)) ∧
    let len := length bs in let fixed := HEADER_LEN + EPK_LEN + COMMIT_LEN in
    match kind with
    | TooShort expected actual => expected = fixed + AEAD_TAG_LEN ∧ actual = len ∧ len < expected
    | WrongVersion expected actual => expected = VERSION ∧ bs !! 0 = Some actual ∧ actual ≠ VERSION ∧
        fixed + AEAD_TAG_LEN ≤ len
    | WrongKemId expected actual => expected = KEM_ID ∧ bs !! 1 = Some actual ∧ actual ≠ KEM_ID ∧
        bs !! 0 = Some VERSION ∧ fixed + AEAD_TAG_LEN ≤ len
    | CtTooLong max actual => max = MAX_CT_LEN ∧ fixed + actual = len ∧ MAX_CT_LEN < actual ∧
        bs !! 0 = Some VERSION ∧ bs !! 1 = Some KEM_ID
    end).
Proof.
  assert (Hwire : wire bs → HEADER_LEN + EPK_LEN + COMMIT_LEN + AEAD_TAG_LEN ≤ length bs ∧
    bs !! 0 = Some VERSION ∧ bs !! 1 = Some KEM_ID ∧
    length bs - (HEADER_LEN + EPK_LEN + COMMIT_LEN) ≤ MAX_CT_LEN).
  { intros (e & c & t & -> & He & Hc & Ht). rewrite envelope_eq by done. split_and!; [lia|done|done|lia]. }
  unfold parse, index, mret, outcome_ret.
  destruct (length bs <? _) eqn:Hlen; nbool.
  { right. split; [intros Hw%Hwire; lia|]. eexists. split; [done|]. cbv zeta iota. lia. }
  destruct (lookup_lt_is_Some_2 bs 0) as [v Hv]; [unfold HEADER_LEN in *; lia|].
  destruct (lookup_lt_is_Some_2 bs 1) as [k Hk]; [unfold HEADER_LEN in *; lia|].
  rewrite Hv. cbn [expect mbind outcome_bind]. case_bool_decide as Hve; simpl negb; cbv iota.
  2: { right. split; [intros Hw%Hwire; naive_solver|]. eexists. split; [done|]. cbv zeta iota. auto. }
  rewrite Hk. cbn [expect mbind outcome_bind]. case_bool_decide as Hke; simpl negb; cbv iota.
  2: { right. split; [intros Hw%Hwire; naive_solver|]. eexists. split; [done|]. cbv zeta iota. subst. auto. }
  destruct (MAX_CT_LEN <? _) eqn:Hct; nbool.
  { right. split; [intros Hw%Hwire; lia|]. eexists. split; [done|]. cbv zeta iota. subst. split_and!; [done|lia|done..]. }
  left. split; [|done]. subst.
  destruct (envelope_split bs) as (e & c & t & -> & He & Hc); [lia|done|done|].
  exists e, c, t. rewrite envelope_eq in * by done. split_and!; [done..|lia|lia].
Qed.

#[export] Instance wire_dec bs : Decision (wire bs).
Proof.
  destruct (parse bs) as [[n|err]|] eqn:Hp; [left|right..];
    destruct (parse_decides bs) as [[Hw Hp']|(Hw & kind & Hp' & _)]; congruence || done.
Defined.

(** A sequence never reserves more than the largest envelope, whatever it claims. *)
Lemma visit_seq_bounded {E} hint (seq : list (result byte E)) :
  (visit_seq hint seq).1 ≤ max_envelope_len ∧
  ∀ bs, seq = Ok <$> bs → (visit_seq hint seq).2 = Ok bs.
Proof.
  unfold visit_seq. split; [simpl; lia|]. intros bs ->. simpl.
  assert (Hc : ∀ out, collect_bytes (Ok <$> bs) out = @Ok bytes E (out ++ bs)); [|apply Hc].
  induction bs as [|b bs IH]; intros out; simpl; [by rewrite app_nil_r|].
  by rewrite IH, <- app_assoc.
Qed.

(** ** Properties *)

(** The parser accepts exactly the byte strings of the wire format, keeps them verbatim, hands a
    rejected input back with its first defect, and every accessor of an accepted note returns its
    field: fields determine the bytes, and the bytes the fields. *)
Theorem parse_exact bs :
  (∀ n, parse bs = Returns (Ok n) ↔ wire bs ∧ as_bytes n = bs) ∧
  (∀ err, parse bs = Returns (Err err) → ¬ wire bs ∧ into_inner err = bs) ∧
  parse bs ≠ Panics ∧
  (∀ e c t, length e = EPK_LEN → length c = COMMIT_LEN → AEAD_TAG_LEN ≤ length t ≤ MAX_CT_LEN →
    let n := MkSealedNote bs in
    bs = envelope e c t ↔ parse bs = Returns (Ok n) ∧
      version n = Returns VERSION ∧ kem_id n = Returns KEM_ID ∧
      epk n = Returns e ∧ commit n = Returns c ∧ ct n = Returns t).
Proof.
  destruct (parse_decides bs) as [[Hw Hp]|(Hw & kind & Hp & _)]; rewrite Hp.
  - split_and!; [| done | done |].
    + intros [bs']. split; [intros [= <-]; done|]. intros [_ Heq]. simpl in Heq. by subst.
    + intros e c t He Hc Ht n. split.
      * intros Hbs. split; [done|]. unfold n. rewrite Hbs. by apply envelope_fields.
      * intros (_ & _ & _ & He' & Hc' & Ht'). destruct Hw as (e0 & c0 & t0 & Hbs & He0 & Hc0 & _).
        unfold n in *. rewrite Hbs in He', Hc', Ht'.
        destruct (envelope_fields e0 c0 t0 He0 Hc0) as (_ & _ & He1 & Hc1 & Ht1).
        rewrite He1 in He'. rewrite Hc1 in Hc'. rewrite Ht1 in Ht'. by simplify_eq.
  - split_and!; [| | done |].
    + intros n. split; [done|]. intros [? _]. done.
    + intros err [= <-]. done.
    + intros e c t He Hc Ht n. split; [|naive_solver]. intros Hbs. destruct Hw. rewrite Hbs. by exists e, c, t.
Qed.

End envelope.

(** ** A concrete envelope *)

Definition ex_envelope : bytes := envelope (H := MockKem) (replicate 32 xaa) (replicate 32 xbb) (replicate 20 xcc).

Lemma parse_exact_witness :
  @wire MockKem ex_envelope ∧
  @parse MockKem ex_envelope = Returns (Ok (MkSealedNote ex_envelope)) ∧
  @commit MockKem (MkSealedNote ex_envelope) = Returns (replicate 32 xbb).
Proof.
  assert (Hw : @wire MockKem ex_envelope).
  { exists (replicate 32 xaa), (replicate 32 xbb), (replicate 20 xcc). pose proof MAX_CT_LEN_large.
    do 3 (split; [done|]). rewrite length_replicate. unfold AEAD_TAG_LEN. lia. }
  pose proof (@parse_exact MockKem ex_envelope) as (Hp & _ & _ & Hf).
  split; [done|]. split; [by apply Hp|].
  destruct (Hf (replicate 32 xaa) (replicate 32 xbb) (replicate 20 xcc)) as [Hfields _]; [done|done| |].
  - pose proof MAX_CT_LEN_large. rewrite length_replicate. unfold AEAD_TAG_LEN. lia.
  - by destruct (Hfields eq_refl) as (_ & _ & _ & _ & Hcommit & _).
Defined.
