(* ===== verification/Seal.v ===== *)
(** Sealing and opening a note ([crates/sealring/src/seal.rs]): the key schedule, the two entry
    points, and what an opened note proves about its envelope. HKDF-SHA256 and
    ChaCha20-Poly1305 are third-party code, given by type classes with their documented laws. *)
From S2P Require Import Prelude Kem SealedNote.
From stdpp Require Import strings.

(** ** Third-party primitives *)

(** [Hkdf::<Sha256>::new(Some(salt), ikm)] followed by [expand(info, &mut okm)] of [n] bytes. *)
Class Hkdf := hkdf_expand : bytes → bytes → bytes → nat → option bytes.

(** Expansion fills its buffer up to 255 digests. *)
Class HkdfLaws `(Hkdf) := hkdf_fills salt ikm info n : n ≤ 255 * 32 →
  ∃ okm, hkdf_expand salt ikm info n = Some okm ∧ length okm = n.

(** ChaCha20-Poly1305 under a key and a nonce: [encrypt] and [decrypt] of a message with its
    associated data, and the in-place variant, which leaves the plaintext in the buffer. *)
Class Aead := {
  aead_encrypt : bytes → bytes → bytes → bytes → option bytes;
  aead_decrypt : bytes → bytes → bytes → bytes → option bytes;
  aead_decrypt_in_place : bytes → bytes → bytes → bytes → bytes * bool;
}.

(** A ciphertext decrypts to its message, carries a 16-byte tag, and is the only one that does:
    the cipher is a keystream and the tag is recomputed. The in-place variant agrees. *)
Class AeadLaws `(Aead) := {
  decrypt_encrypt key nonce aad msg c :
    aead_encrypt key nonce aad msg = Some c → aead_decrypt key nonce aad c = Some msg;
  encrypt_decrypt key nonce aad msg c :
    aead_decrypt key nonce aad c = Some msg → aead_encrypt key nonce aad msg = Some c;
  length_encrypt key nonce aad msg c :
    aead_encrypt key nonce aad msg = Some c → length c = length msg + AEAD_TAG_LEN;
  decrypt_in_place_ok key nonce aad buffer :
    match aead_decrypt key nonce aad buffer with
    | Some msg => aead_decrypt_in_place key nonce aad buffer = (msg, true)
    | None => (aead_decrypt_in_place key nonce aad buffer).2 = false
    end;
}.

(** ** The key schedule *)

(** [b"sealring/v1"]. *)
Definition SALT : bytes := String.list_byte_of_string "sealring/v1".
Definition KEY_LEN : nat := 32.
Definition NONCE_LEN : nat := 12.
Definition DERIVED_LEN : nat := KEY_LEN + NONCE_LEN + COMMIT_LEN.
Definition LP_PREFIX_LEN : nat := 2.
Definition INFO_FIELD_COUNT : nat := 5.
Definition INFO_FIXED_LEN : nat := INFO_FIELD_COUNT * LP_PREFIX_LEN + HEADER_LEN.
Definition u16_max : N := 65535.

Record Derived := MkDerived { key : bytes; nonce : bytes; derived_commit : bytes }.

(** [u16::to_be_bytes]. *)
Definition u16_be_bytes (n : N) : bytes := rev (le_bytes 2 n).

Definition push_lp (out field : bytes) : outcome bytes :=
  len ← expect (if (N.of_nat (length field) <=? u16_max)%N then Some (N.of_nat (length field)) else None);
  mret (out ++ u16_be_bytes len ++ field).

Definition write_kdf_info (out : bytes) (version kem_id : byte) (tag epk pk_r : bytes) : outcome bytes :=
  out ← push_lp out [version];
  out ← push_lp out [kem_id];
  out ← push_lp out tag;
  out ← push_lp out epk;
  push_lp out pk_r.

(** The compile-time checks of an instantiation. *)
Definition suite_asserts `{Kem, Domain} : bool :=
  negb (bool_decide (tag_bytes = [])) && (N.of_nat (length tag_bytes) <=? u16_max)%N &&
  (N.of_nat EPK_LEN <=? u16_max)%N.

Definition expand `{Hkdf} (shared info : bytes) : outcome Derived :=
  okm ← expect (hkdf_expand SALT shared info DERIVED_LEN);
  key ← subslice 0 KEY_LEN okm;
  nonce ← subslice KEY_LEN (KEY_LEN + NONCE_LEN) okm;
  commit ← subslice (KEY_LEN + NONCE_LEN) (length okm) okm;
  mret (MkDerived key nonce commit).

Definition derive `{Hkdf} (shared : bytes) (kem_id : byte) (tag epk pk_r : bytes) : outcome Derived :=
  info_scratch ← write_kdf_info [] VERSION kem_id tag epk pk_r;
  expand shared info_scratch.

Definition is_all_zero (bs : bytes) : bool :=
  let residue := foldl (λ residue octet, N.lor residue (Byte.to_N octet)) 0%N bs in
  (residue =? 0)%N.

(** [ct_eq] of two slices. *)
Definition ct_eq (a b : bytes) : bool := bool_decide (a = b).

(** ** Sealing and opening *)

Section seal.
Context `{Hkdf, Aead, Kem, Domain}.

Definition seal {R} `{CryptoRng R} (pk : PublicKey) (note : Note) (aad : bytes) (rng : R) :
    R * outcome (result SealedNote SealErrorT) :=
  let '(rng, (epk, shared)) := encap rng pk in
  (rng,
   if is_all_zero (shared_ref shared) then mret (Err SealError) else
   let pk_r_encoded := encode_pk pk in
   derived ← derive (shared_ref shared) KEM_ID tag_bytes (epk_ref epk) (epk_ref pk_r_encoded);
   let (note_bytes, encoded) := encode_note note [] in
   match encoded with
   | Err _ => mret (Err SealError)
   | Ok _ =>
     match aead_encrypt (key derived) (nonce derived) aad note_bytes with
     | None => mret (Err SealError)
     | Some ct =>
       let bs := [VERSION] ++ [KEM_ID] ++ epk_ref epk ++ derived_commit derived ++ ct in
       parsed ← parse bs;
       mret (map_err (λ _, SealError) parsed)
     end
   end).

Definition open (recipient : Recipient) (envelope : SealedNote) (aad : bytes) : outcome (result (option Note) OpenError) :=
  e ← epk envelope;
  match decap (sk recipient) e with
  | None => mret (Ok None)
  | Some shared =>
    e ← epk envelope;
    derived ← derive (shared_ref shared) KEM_ID tag_bytes e (pk_encoded_ref recipient);
    c ← commit envelope;
    if negb (ct_eq (derived_commit derived) c) then mret (Ok None) else
    t ← ct envelope;
    match aead_decrypt (key derived) (nonce derived) aad t with
    | None => mret (Err AeadError)
    | Some plaintext =>
      match decode_note plaintext with
      | Err _ => mret (Err NoteDecode)
      | Ok note => if negb (verify note aad) then mret (Err VerifyError) else mret (Ok (Some note))
      end
    end
  end.

(** What a derived key makes of an envelope's fields: nothing when the tag is another key's,
    otherwise the note or the reason it does not open. *)
Definition attempt (d : Derived) (c t aad : bytes) : option (result Note OpenError) :=
  if decide (derived_commit d = c) then
    Some (match aead_decrypt (key d) (nonce d) aad t with
          | None => Err AeadError
          | Some m => match decode_note m with
            | Err _ => Err NoteDecode
            | Ok note => if verify note aad then Ok note else Err VerifyError end
          end)
  else None.

End seal.

(** ** The KDF info string *)

Definition lp (field : bytes) : bytes := u16_be_bytes (N.of_nat (length field)) ++ field.
Definition kdf_info (version kem_id : byte) (tag epk pk_r : bytes) : bytes :=
  lp [version] ++ lp [kem_id] ++ lp tag ++ lp epk ++ lp pk_r.

Abbreviation fits := (λ field : bytes, (N.of_nat (length field) ≤ u16_max)%N).

Lemma length_u16_be_bytes n : length (u16_be_bytes n) = 2.
Proof. unfold u16_be_bytes. by rewrite length_rev, length_le_bytes. Qed.

Lemma u16_be_bytes_inj m n : (m ≤ u16_max)%N → (n ≤ u16_max)%N → u16_be_bytes m = u16_be_bytes n → m = n.
Proof.
  unfold u16_be_bytes, u16_max. intros Hm Hn Heq%(f_equal (@rev byte)). rewrite !rev_involutive in Heq.
  rewrite <- (le_value_bytes_small 2 m), <- (le_value_bytes_small 2 n), Heq; [done|simpl; lia..].
Qed.

(** Length-prefixed fields are read back one way. *)
Lemma lp_inj f1 f2 r1 r2 : fits f1 → fits f2 → lp f1 ++ r1 = lp f2 ++ r2 → f1 = f2 ∧ r1 = r2.
Proof.
  unfold lp. intros Hf1 Hf2. rewrite <- !app_assoc. intros Heq.
  apply app_inj_1 in Heq as [Hlen Heq]; [|by rewrite !length_u16_be_bytes].
  apply u16_be_bytes_inj in Hlen; [|done..]. by apply app_inj_1 in Heq; [|lia].
Qed.

(** The five fields are determined by the string, so no two parties or domains share one. *)
Lemma kdf_info_inj v1 v2 k1 k2 t1 t2 e1 e2 p1 p2 :
  Forall fits [t1; e1; p1] → Forall fits [t2; e2; p2] →
  kdf_info v1 k1 t1 e1 p1 = kdf_info v2 k2 t2 e2 p2 →
  v1 = v2 ∧ k1 = k2 ∧ t1 = t2 ∧ e1 = e2 ∧ p1 = p2.
Proof.
  rewrite !Forall_cons. intros (Ht1 & He1 & Hp1 & _) (Ht2 & He2 & Hp2 & _). unfold kdf_info. intros Heq.
  apply lp_inj in Heq as [Hv Heq]; [|done..]. apply lp_inj in Heq as [Hk Heq]; [|done..].
  apply lp_inj in Heq as [Ht Heq]; [|done..]. apply lp_inj in Heq as [He Heq]; [|done..].
  rewrite <- (app_nil_r (lp p1)), <- (app_nil_r (lp p2)) in Heq.
  apply lp_inj in Heq as [Hp _]; [|done..]. by simplify_eq.
Qed.

Lemma push_lp_ok out field : fits field → push_lp out field = Returns (out ++ lp field).
Proof. intros Hf. unfold push_lp. by rewrite (proj2 (N.leb_le _ _)). Qed.

Lemma write_kdf_info_ok out v k tag e p : Forall fits [tag; e; p] →
  write_kdf_info out v k tag e p = Returns (out ++ kdf_info v k tag e p).
Proof.
  rewrite !Forall_cons. intros (Ht & He & Hp & _). unfold write_kdf_info, kdf_info.
  do 5 (rewrite push_lp_ok by done; try change (mbind ?f (Returns ?x)) with (f x); cbn [mbind outcome_bind]).
  by rewrite <- !app_assoc.
Qed.

(** A field past the prefix unwinds. *)
Lemma push_lp_panics out field : ¬ fits field → push_lp out field = Panics.
Proof. cbv beta. intros Hf%N.nle_gt. unfold push_lp. by rewrite (proj2 (N.leb_gt _ _)). Qed.

(** ** Derivation *)

Section lemmas.
Context `{HL : HkdfLaws}.

(** The derived values, when the inputs fit. *)
Definition derived_of (shared info : bytes) : Derived :=
  let okm := default [] (hkdf_expand SALT shared info DERIVED_LEN) in
  MkDerived (take KEY_LEN okm) (take NONCE_LEN (drop KEY_LEN okm)) (drop (KEY_LEN + NONCE_LEN) okm).

Lemma expand_ok shared info : expand shared info = Returns (derived_of shared info).
Proof.
  unfold expand, derived_of.
  destruct (hkdf_fills SALT shared info DERIVED_LEN) as (okm & -> & Hlen); [by apply Nat.leb_le|].
  cbn [expect mbind outcome_bind]. unfold subslice. rewrite Hlen. cbn. do 2 f_equal.
  change (DERIVED_LEN - (KEY_LEN + NONCE_LEN)) with 32. by rewrite take_ge by (rewrite length_drop, Hlen; done).
Qed.

Lemma length_derived_commit shared info : length (derived_commit (derived_of shared info)) = COMMIT_LEN.
Proof.
  unfold derived_of. destruct (hkdf_fills SALT shared info DERIVED_LEN) as (okm & -> & Hlen); [by apply Nat.leb_le|].
  simpl. by rewrite length_drop, Hlen.
Qed.

Lemma derive_ok shared k tag e p : Forall fits [tag; e; p] →
  derive shared k tag e p = Returns (derived_of shared (kdf_info VERSION k tag e p)).
Proof. intros Hfit. unfold derive. rewrite write_kdf_info_ok by done. apply expand_ok. Qed.

End lemmas.

Lemma is_all_zero_degenerate bs : is_all_zero bs = true ↔ degenerate bs.
Proof.
  unfold is_all_zero. rewrite N.eqb_eq.
  assert (Hf : ∀ acc, foldl (λ r b, N.lor r (Byte.to_N b)) acc bs = 0%N ↔ acc = 0%N ∧ degenerate bs).
  { induction bs as [|b bs IH]; intros acc; simpl; [naive_solver|].
    rewrite IH, N.lor_eq_0_iff, list.Forall_cons.
    assert (Byte.to_N b = 0%N ↔ b = x00) as ->; [|naive_solver].
    split; [|by intros ->]. intros Hb. by rewrite <- (byte_to_N_of_N b), Hb. }
  rewrite Hf. naive_solver.
Qed.

(** ** Sealing and opening *)

Section suite.
Context `{Hkdf, Aead, Kem, Domain} `{!HkdfLaws _, !AeadLaws _, !KemLaws _}.

(** The info string that binds an envelope to this suite, domain and recipient. *)
Definition suite_info (e pk_r : bytes) : bytes := kdf_info VERSION KEM_ID tag_bytes e pk_r.

(** What the KDF is fed for an ephemeral key that decapsulates. *)
Definition kdf_input (sk : SecretKey) (e : bytes) : option (bytes * bytes) :=
  (λ s, (shared_ref s, suite_info e (pk_encoded_ref (recipient_new sk)))) <$> decap sk e.

(** The envelope of a plaintext under a secret. *)
Definition sealed_bytes (shared e pk_r aad m : bytes) : option bytes :=
  let d := derived_of shared (suite_info e pk_r) in
  (λ t, envelope e (derived_commit d) t) <$> aead_encrypt (key d) (nonce d) aad m.

Lemma suite_fits e pk_r : suite_asserts = true → length e = EPK_LEN → length pk_r = EPK_LEN →
  Forall fits [tag_bytes; e; pk_r].
Proof. unfold suite_asserts. intros Hs He Hp. nbool. repeat constructor; lia. Qed.

Lemma length_pk_encoded sk : length (pk_encoded_ref (recipient_new sk)) = EPK_LEN.
Proof. apply length_encode_pk. Qed.

(** Opening, on the fields of an envelope. *)
Definition opened (sk : SecretKey) (e c t aad : bytes) : result (option Note) OpenError :=
  match kdf_input sk e with
  | None => Ok None
  | Some (s, i) => match attempt (derived_of s i) c t aad with
    | None => Ok None
    | Some (Ok note) => Ok (Some note)
    | Some (Err err) => Err err
    end
  end.

Lemma open_envelope k aad e c t : suite_asserts = true → length e = EPK_LEN → length c = COMMIT_LEN →
  open (recipient_new k) (MkSealedNote (envelope e c t)) aad = Returns (opened k e c t aad).
Proof.
  intros Hs He Hc. destruct (envelope_fields e c t He Hc) as (_ & _ & Hepk & Hcommit & Hct).
  unfold open, opened, kdf_input, attempt, ct_eq. rewrite Hepk. cbn [mbind outcome_bind sk recipient_new].
  destruct (decap k e) as [s|]; [|done].
  rewrite derive_ok by (apply suite_fits; auto using length_pk_encoded).
  cbn [mbind outcome_bind fmap option_fmap option_map]. rewrite Hcommit. cbn [mbind outcome_bind]. unfold suite_info.
  case_bool_decide; case_decide; try done. simpl negb. cbv iota. rewrite Hct. cbn [mbind outcome_bind].
  destruct (aead_decrypt _ _ _ _); [|done]. destruct (decode_note _); [|done]. by destruct (verify _ _).
Qed.

(** Sealing, as one decision. *)
Lemma seal_decides {R} `{!CryptoRng R, !CryptoRngLaws R _} pk note aad (rng : R) : suite_asserts = true →
  let '(rng', (e, s)) := encap rng pk in
  seal pk note aad rng = (rng', Returns (
    if decide (degenerate (shared_ref s)) then Err SealError else
    match encode_note note [] with
    | (_, Err _) => Err SealError
    | (m, Ok _) => match sealed_bytes (shared_ref s) (epk_ref e) (epk_ref (encode_pk pk)) aad m with
      | None => Err SealError
      | Some bs => if decide (wire bs) then Ok (MkSealedNote bs) else Err SealError
      end
    end)).
Proof.
  intros Hs. unfold seal. pose proof (length_encap rng pk) as He. destruct (encap rng pk) as [rng' [e s]].
  simpl in He. f_equal. pose proof (is_all_zero_degenerate (shared_ref s)) as Hz.
  destruct (is_all_zero _) eqn:Hiz.
  { rewrite decide_True; [done|]. by apply Hz. }
  rewrite decide_False by (rewrite <- Hz; done). clear Hz Hiz.
  rewrite derive_ok by (apply suite_fits; auto using length_encode_pk). cbn [mbind outcome_bind].
  destruct (encode_note note []) as [m [u|err]]; [|done]. unfold sealed_bytes, suite_info.
  destruct (aead_encrypt _ _ _ _) as [t|]; [|done]. cbn [fmap option_fmap option_map].
  set (d := derived_of _ _). change ([VERSION] ++ [KEM_ID] ++ ?r) with (VERSION :: KEM_ID :: r).
  change (VERSION :: KEM_ID :: epk_ref e ++ derived_commit d ++ t) with (envelope (epk_ref e) (derived_commit d) t).
  destruct (parse_decides (envelope (epk_ref e) (derived_commit d) t)) as [[Hw ->]|(Hw & kind & -> & _)];
    cbn [mbind outcome_bind]; by case_decide.
Qed.

Lemma attempt_Ok d c t aad note :
  attempt d c t aad = Some (Ok note) ↔
  derived_commit d = c ∧ ∃ m, aead_encrypt (key d) (nonce d) aad m = Some t ∧
    decode_note m = Ok note ∧ verify note aad = true.
Proof.
  unfold attempt. split.
  - case_decide; [|done]. destruct (aead_decrypt _ _ _ _) as [m|] eqn:Hd; [|done].
    destruct (decode_note m) as [note'|] eqn:Hn; [|done]. destruct (verify note' aad) eqn:Hv; [|done].
    intros [= <-]. split; [done|]. exists m. auto using encrypt_decrypt.
  - intros (-> & m & Hm & Hn & Hv). rewrite decide_True by done.
    apply decrypt_encrypt in Hm. by rewrite Hm, Hn, Hv.
Qed.

(** What a seal to [pk] under the secret [s] and the ephemeral key [e] cannot do. *)
Definition unsealable (e : Epk) (s : SharedSecret) (pk : PublicKey) (note : Note) (aad : bytes) : Prop :=
  degenerate (shared_ref s) ∨ (∃ err, (encode_note note []).2 = Err err) ∨
  sealed_bytes (shared_ref s) (epk_ref e) (epk_ref (encode_pk pk)) aad (encode_note note []).1 = None ∨
  MAX_CT_LEN < length (encode_note note []).1 + AEAD_TAG_LEN.

Lemma sealed_bytes_wire s e pk_r aad m bs : length e = EPK_LEN → sealed_bytes s e pk_r aad m = Some bs →
  wire bs ↔ length m + AEAD_TAG_LEN ≤ MAX_CT_LEN.
Proof.
  unfold sealed_bytes. intros He. destruct (aead_encrypt _ _ _ _) as [t|] eqn:Ht; [|done]. intros [= <-].
  apply length_encrypt in Ht. pose proof (length_derived_commit s (suite_info e pk_r)) as Hc. split.
  - intros (e0 & c0 & t0 & Heq%(f_equal length) & He0 & Hc0 & Ht0).
    rewrite !envelope_eq in Heq by done.
    lia.
  - intros Hm. eexists _, _, _. split; [done|]. split; [done|]. split; [done|]. lia.
Qed.

(** C15. A seal returns, and fails for one of four reasons only; the note it emits is a valid envelope,
    and the recipient opens it to the note that was sealed, unless the domain's own check rejects
    that note. *)
Theorem seal_opens {R} `{!CryptoRng R, !CryptoRngLaws R _, !DomainLaws _} k note aad (rng : R) :
  suite_asserts = true →
  let '(_, (e, s)) := encap rng (derive_pk k) in
  ∃ r, (seal (derive_pk k) note aad rng).2 = Returns r ∧
    match r with
    | Err _ => unsealable e s (derive_pk k) note aad
    | Ok n => ¬ unsealable e s (derive_pk k) note aad ∧ parse (as_bytes n) = Returns (Ok n) ∧
        open (recipient_new k) n aad = Returns (if verify note aad then Ok (Some note) else Err VerifyError)
    end.
Proof.
  intros Hs. pose proof (seal_decides (derive_pk k) note aad rng Hs) as Hseal.
  pose proof (length_encap rng (derive_pk k)) as He. pose proof (decap_encap rng k) as Hdecap.
  destruct (encap rng (derive_pk k)) as [rng' [e s]]. simpl in He, Hdecap. rewrite Hseal. clear Hseal.
  eexists. split; [done|]. unfold unsealable. case_decide as Hz; [by left|]. specialize (Hdecap Hz).
  destruct (encode_note note []) as [m [[]|err]] eqn:Hm; [|by eauto]. simpl.
  destruct (sealed_bytes _ _ _ _ _) as [bs|] eqn:Hbs; [|by auto].
  pose proof (sealed_bytes_wire _ _ _ _ _ _ He Hbs) as Hwire. case_decide as Hw.
  2: { right. right. right. apply not_iff_compat in Hwire. apply Hwire in Hw. lia. }
  split_and!.
  - apply Hwire in Hw. intros [?|[[? ?]|[?|?]]]; [done..|lia].
  - by destruct (parse_decides bs) as [[_ ?]|[? _]].
  - unfold sealed_bytes in Hbs. destruct (aead_encrypt _ _ _ _) as [t|] eqn:Ht; [|done]. injection Hbs as <-.
    rewrite open_envelope by (done || apply length_derived_commit). unfold opened, kdf_input.
    destruct (decap k (epk_ref e)) as [s'|]; [|done]. apply (inj Some) in Hdecap.
    cbn [fmap option_fmap option_map]. rewrite Hdecap. unfold attempt, pk_encoded_ref, recipient_new.
    cbn [pk_encoded]. rewrite decide_True by done. rewrite (decrypt_encrypt _ _ _ _ _ Ht).
    rewrite (decode_encode note m Hm). by destruct (verify note aad).
Qed.

(** A note opens exactly when its bytes are the ones that sealing the opened plaintext under the
    decapsulated secret emits: nobody without that secret can vary an envelope that opens. *)
Theorem opened_is_sealed k n aad note : suite_asserts = true → wire (as_bytes n) →
  open (recipient_new k) n aad = Returns (Ok (Some note)) ↔
  ∃ e s m, epk n = Returns e ∧ decap k e = Some s ∧
    sealed_bytes (shared_ref s) e (pk_encoded_ref (recipient_new k)) aad m = Some (as_bytes n) ∧
    decode_note m = Ok note ∧ verify note aad = true.
Proof.
  intros Hs (e & c & t & Hn & He & Hc & _). destruct n as [bs]. simpl in Hn. subst bs.
  rewrite open_envelope by done. destruct (envelope_fields e c t He Hc) as (_ & _ & -> & _ & _).
  unfold opened, kdf_input, sealed_bytes. simpl as_bytes. split.
  - destruct (decap k e) as [s|] eqn:Hd; [|done]. cbn [fmap option_fmap option_map].
    destruct (attempt _ _ _ _) as [[note'|err]|] eqn:Ha; [|done..]. intros [= <-].
    apply attempt_Ok in Ha as (Hcommit & m & Hm & Hdec & Hv). eexists e, s, m.
    rewrite Hd, Hm. cbn [fmap option_fmap option_map]. by rewrite Hcommit.
  - intros (e' & s & m & [= <-] & Hd & Henc & Hdec & Hv). rewrite Hd. cbn [fmap option_fmap option_map].
    destruct (aead_encrypt _ _ _ _) as [t'|] eqn:Hm; [|done].
    apply (inj Some) in Henc. unfold envelope in Henc. do 2 apply (inj (app _)) in Henc.
    apply app_inj_1 in Henc as [Hcc ->]; [|by rewrite Hc; apply length_derived_commit].
    rewrite (proj2 (attempt_Ok _ _ _ _ note)); [done|]. eauto.
Qed.
End suite.

(** ** Key commitment *)

Section commitment.
Context `{Hkdf, Aead, K : Kem} `{!HkdfLaws _, !AeadLaws _, !KemLaws _} (D1 D2 : Domain).

(** An envelope that is not skipped commits to the secret and info that the key schedule fed. *)
Lemma claimed_commits (D : Domain) k n aad : suite_asserts = true → wire (as_bytes n) →
  open (recipient_new k) n aad ≠ Returns (Ok None) →
  ∃ e s i, epk n = Returns e ∧ length e = EPK_LEN ∧ kdf_input k e = Some (s, i) ∧
    i = suite_info e (pk_encoded_ref (recipient_new k)) ∧
    commit n = Returns (derived_commit (derived_of s i)).
Proof.
  intros Hs (e & c & t & Hn & He & Hc & _). destruct n as [bs]. simpl in Hn. subst bs.
  rewrite open_envelope by done. destruct (envelope_fields e c t He Hc) as (_ & _ & -> & -> & _).
  unfold opened. destruct (kdf_input k e) as [[s i]|] eqn:Hi; [|done].
  unfold attempt. case_decide as Hcommit; [|done]. intros _. exists e, s, i. rewrite Hcommit.
  split_and!; try done. unfold kdf_input in Hi. by destruct (decap k e); simplify_eq/=.
Qed.

(** C16. One commitment tag is claimed once: two envelopes with the same tag that two keys, in two
    domains, do not skip have the same ephemeral key, recipient, domain and secret, or the two
    inputs of the key derivation collide on the tag. *)
Theorem commit_binds k1 k2 n1 n2 aad1 aad2 c :
  suite_asserts (H0 := D1) = true → suite_asserts (H0 := D2) = true →
  wire (as_bytes n1) → wire (as_bytes n2) → commit n1 = Returns c → commit n2 = Returns c →
  open (H2 := D1) (recipient_new k1) n1 aad1 ≠ Returns (Ok None) →
  open (H2 := D2) (recipient_new k2) n2 aad2 ≠ Returns (Ok None) →
  ∃ e1 e2 in1 in2,
    epk n1 = Returns e1 ∧ epk n2 = Returns e2 ∧
    kdf_input (H2 := D1) k1 e1 = Some in1 ∧ kdf_input (H2 := D2) k2 e2 = Some in2 ∧
    derived_commit (derived_of in1.1 in1.2) = derived_commit (derived_of in2.1 in2.2) ∧
    (in1 = in2 → e1 = e2 ∧ in1.1 = in2.1 ∧ @tag_bytes D1 = @tag_bytes D2 ∧
      pk_encoded_ref (recipient_new k1) = pk_encoded_ref (recipient_new k2)).
Proof.
  intros Hs1 Hs2 Hw1 Hw2 Hc1 Hc2 Ho1 Ho2.
  destruct (claimed_commits D1 _ _ _ Hs1 Hw1 Ho1) as (e1 & s1 & i1 & He1 & Hl1 & Hk1 & Hi1 & Hd1).
  destruct (claimed_commits D2 _ _ _ Hs2 Hw2 Ho2) as (e2 & s2 & i2 & He2 & Hl2 & Hk2 & Hi2 & Hd2).
  exists e1, e2, (s1, i1), (s2, i2). split_and!; try done; [cbn [fst snd]; congruence|].
  intros [= -> Heq]. rewrite Hi1, Hi2 in Heq.
  apply kdf_info_inj in Heq; [naive_solver|..]; apply suite_fits; auto using length_pk_encoded.
Qed.
End commitment.

(** ** Toy primitives *)

Module Toy.

(** A key derivation that sums its inputs up, and a cipher that leaves the message in the clear and
    appends a tag over everything. *)
Definition hkdf : Hkdf := λ salt ikm info n,
  if n <=? 255 * 32 then
    Some (le_bytes n (foldl (λ h b, (31 * h + Byte.to_N b + 7) mod 2 ^ 600)%N 1%N (salt ++ ikm ++ info)))
  else None.

Definition tag (key nonce aad msg : bytes) : bytes :=
  le_bytes AEAD_TAG_LEN (foldl (λ h b, (31 * h + Byte.to_N b + 7) mod 2 ^ 120)%N 1%N (key ++ nonce ++ aad ++ msg)).

Definition encrypt (key nonce aad msg : bytes) : option bytes := Some (msg ++ tag key nonce aad msg).

Definition decrypt (key nonce aad c : bytes) : option bytes :=
  let msg := take (length c - AEAD_TAG_LEN) c in
  if decide (c = msg ++ tag key nonce aad msg) then Some msg else None.

Definition aead : Aead := {|
  aead_encrypt := encrypt;
  aead_decrypt := decrypt;
  aead_decrypt_in_place key nonce aad buffer :=
    match decrypt key nonce aad buffer with Some msg => (msg, true) | None => (buffer, false) end;
|}.

(** A generator that counts. *)
Definition rng : CryptoRng N := λ n r, ((r + 1)%N, replicate n (byte_of_N r)).

Lemma length_tag key nonce aad msg : length (tag key nonce aad msg) = AEAD_TAG_LEN.
Proof. apply length_le_bytes. Qed.

Lemma hkdf_laws : HkdfLaws hkdf.
Proof.
  intros salt ikm info n Hn. unfold hkdf_expand, hkdf. rewrite (proj2 (Nat.leb_le _ _)) by done.
  eexists. split; [done|]. apply length_le_bytes.
Qed.

Lemma aead_laws : AeadLaws aead.
Proof.
  assert (Hed : ∀ k n a m, decrypt k n a (m ++ tag k n a m) = Some m).
  { intros k n a m. unfold decrypt. rewrite length_app, length_tag, Nat.add_sub, take_app_length.
    by rewrite decide_True. }
  split; simpl.
  - intros k n a m c [= <-]. apply Hed.
  - intros k n a m c. unfold decrypt, encrypt. case_decide as Hc; [|done]. intros [= <-]. by rewrite <- Hc.
  - intros k n a m c [= <-]. by rewrite length_app, length_tag.
  - intros k n a c. by destruct (decrypt k n a c).
Qed.

Lemma rng_laws : CryptoRngLaws N rng.
Proof. intros n r. apply length_replicate. Qed.

#[export] Existing Instance hkdf.
#[export] Existing Instance aead.
#[export] Existing Instance rng.
#[export] Existing Instance hkdf_laws.
#[export] Existing Instance aead_laws.
#[export] Existing Instance rng_laws.
#[export] Existing Instance MockKem.
#[export] Existing Instance mock_kem_laws.
#[export] Existing Instance test_domain_laws.

Definition alice : @SecretKey MockKem := fill_array32 (replicate 32 x07).
Definition bob : @SecretKey MockKem := fill_array32 (replicate 32 x09).
Definition message : @Note TestDomain := [x01; x02; x03].
Definition context : bytes := [x0a].

(** The domain of the tests, and one with another tag. *)
#[export] Existing Instance TestDomain.
Definition OtherDomain : Domain := {|
  Note := bytes; DomainError := Empty_set; DOMAIN_TAG := "sealring-test-other"%string;
  encode_note note out := (out ++ note, Ok ()); decode_note bs := Ok bs; verify := verify_default |}.

(** A note sealed to Alice. *)
Definition sealed_note : SealedNote :=
  match (seal alice message context 11%N).2 with Returns (Ok n) => n | _ => MkSealedNote [] end.

Lemma sealed_note_wire : wire (as_bytes sealed_note).
Proof.
  assert (H : parse (as_bytes sealed_note) = Returns (Ok sealed_note)).
  { with_strategy transparent [MAX_CT_LEN] (vm_compute). reflexivity. }
  destruct (parse_decides (as_bytes sealed_note)) as [[Hw _]|(_ & kind & Herr & _)]; [done|].
  rewrite Herr in H. done.
Qed.
End Toy.

Section witnesses.
Import Toy.

Lemma seal_opens_witness :
  suite_asserts = true ∧
  (seal alice message context 11%N).2 = Returns (Ok sealed_note) ∧
  open (recipient_new alice) sealed_note context = Returns (Ok (Some message)) ∧
  open (recipient_new bob) sealed_note context = Returns (Ok None).
Proof.
  assert (Hs : suite_asserts = true) by reflexivity.
  assert (Hseal : (seal alice message context 11%N).2 = Returns (Ok sealed_note)).
  { with_strategy transparent [MAX_CT_LEN] (vm_compute). reflexivity. }
  pose proof (seal_opens alice message context 11%N Hs) as Ho.
  destruct (encap 11%N (@derive_pk MockKem alice)) as [rng' [e s]]. destruct Ho as (r & Hr & Hcase).
  split; [done|]. split; [done|]. change (@derive_pk MockKem alice) with alice in Hr. rewrite Hseal in Hr. injection Hr as <-.
  destruct Hcase as (_ & _ & Hopen). split; [exact Hopen|].
  with_strategy transparent [MAX_CT_LEN] (vm_compute). reflexivity.
Defined.

Lemma opened_is_sealed_witness :
  suite_asserts = true ∧ wire (as_bytes sealed_note) ∧
  ∃ e s m, epk sealed_note = Returns e ∧ @decap MockKem alice e = Some s ∧
    sealed_bytes (shared_ref s) e (pk_encoded_ref (recipient_new alice)) context m = Some (as_bytes sealed_note) ∧
    decode_note m = Ok message ∧ verify message context = true.
Proof.
  split; [reflexivity|]. split; [exact sealed_note_wire|].
  apply (opened_is_sealed alice sealed_note context message); [reflexivity|exact sealed_note_wire|].
  with_strategy transparent [MAX_CT_LEN] (vm_compute). reflexivity.
Defined.

(** The domains' tags differ, so the same envelope is not claimed in the other one; within a domain
    the theorem applies. *)
Lemma commit_binds_witness :
  @open hkdf aead MockKem OtherDomain (recipient_new alice) sealed_note context = Returns (Ok None) ∧
  ∃ e1 e2 in1 in2,
    epk sealed_note = Returns e1 ∧ epk sealed_note = Returns e2 ∧
    @kdf_input MockKem TestDomain alice e1 = Some in1 ∧ @kdf_input MockKem TestDomain alice e2 = Some in2 ∧
    derived_commit (derived_of in1.1 in1.2) = derived_commit (derived_of in2.1 in2.2) ∧
    (in1 = in2 → e1 = e2 ∧ in1.1 = in2.1 ∧ tag_bytes = tag_bytes ∧
      pk_encoded_ref (recipient_new alice) = pk_encoded_ref (recipient_new alice)).
Proof.
  assert (Hopen : open (recipient_new alice) sealed_note context ≠ Returns (Ok None)).
  { with_strategy transparent [MAX_CT_LEN] (vm_compute). discriminate. }
  split; [with_strategy transparent [MAX_CT_LEN] (vm_compute); reflexivity|].
  destruct (commit sealed_note) as [c|] eqn:Hc.
  2: { exfalso. revert Hc. with_strategy transparent [MAX_CT_LEN] (vm_compute). discriminate. }
  refine (commit_binds TestDomain TestDomain alice alice sealed_note sealed_note context context c
    eq_refl eq_refl sealed_note_wire sealed_note_wire Hc Hc Hopen Hopen).
Defined.
End witnesses.
