(* ===== verification/Scan.v ===== *)
(** Batch trial decryption ([crates/sealring/src/scan.rs]): a scanner with its reused buffers, the
    sequential and the parallel scan, and the proof that both report exactly what opening the
    envelopes one by one would. *)
From S2P Require Import Prelude Kem SealedNote Seal.

Definition SCAN_CHUNK : nat := 64.
Definition CHUNKS_PER_THREAD : nat := 8.

Section scan.
Context `{Hkdf, Aead, Kem, Domain}.

(** An index of the input with the note, or with the reason a note addressed to the key does not
    open. *)
Abbreviation hit := (nat * result Note MalformedT)%type.

Record ScanBuffers := MkScanBuffers { out : list (option SharedSecret); info : bytes; scratch : bytes }.

Definition scan_buffers_new : ScanBuffers := MkScanBuffers (replicate SCAN_CHUNK None) [] [].

Record Scanner := MkScanner { recipient : Recipient; buffers : ScanBuffers }.

Definition scanner_new (recipient : Recipient) : Scanner := MkScanner recipient scan_buffers_new.

(** The info and scratch buffers it leaves, and the outcome. *)
Definition process_envelope (shared pk_r : bytes) (envelope : SealedNote) (aad info scratch : bytes) :
    outcome (bytes * bytes * option (result Note MalformedT)) :=
  let info := [] in
  e ← epk envelope;
  info ← write_kdf_info info VERSION KEM_ID tag_bytes e pk_r;
  derived ← expand shared info;
  c ← commit envelope;
  if negb (ct_eq (derived_commit derived) c) then mret (info, scratch, None) else
  let scratch := [] in
  t ← ct envelope;
  let scratch := scratch ++ t in
  let (scratch, decrypted) := aead_decrypt_in_place (key derived) (nonce derived) aad scratch in
  let outcome :=
    if negb decrypted then Err (Malformed AeadError) else
    match decode_note scratch with
    | Err _ => Err (Malformed NoteDecode)
    | Ok note => if verify note aad then Ok note else Err (Malformed VerifyError)
    end in
  let scratch := [] in
  mret (info, scratch, Some outcome).

(** The loop over the chunk's envelopes and their slots. *)
Fixpoint process_chunk (pk_r aad : bytes) (items : list (option (nat * SealedNote) * option SharedSecret))
    (info scratch : bytes) (hits : list hit) : outcome (bytes * bytes * list hit) :=
  match items with
  | [] => mret (info, scratch, hits)
  | (item, shared_slot) :: items =>
    '(index, envelope) ← expect item;
    '(info, scratch, outcome) ← match shared_slot with
      | Some shared => process_envelope (shared_ref shared) pk_r envelope aad info scratch
      | None => mret (info, scratch, None)
      end;
    let hits := match outcome with Some o => hits ++ [(index, o)] | None => hits end in
    process_chunk pk_r aad items info scratch hits
  end.

Definition scan_chunk (sk : SecretKey) (pk_r aad : bytes) (chunk : list (option (nat * SealedNote)))
    (b : ScanBuffers) (hits : list hit) : outcome (ScanBuffers * list hit) :=
  let len := length chunk in
  if SCAN_CHUNK <? len then Panics else
  filled ← mapM (λ item, '(_, envelope) ← expect item; epk envelope) chunk;
  let epks := filled ++ drop (length filled) (replicate SCAN_CHUNK []) in
  epks ← subslice 0 len epks;
  slots ← subslice 0 len (out b);
  let out := decap_batch sk epks slots ++ drop len (out b) in
  slots ← subslice 0 len out;
  '(info, scratch, hits) ← process_chunk pk_r aad (zip chunk slots) (info b) (scratch b) hits;
  let out := ((λ _, None) <$> take len out) ++ drop len out in
  mret (MkScanBuffers out info scratch, hits).

(** [iter.enumerate()]. *)
Definition enumerated (envelopes : list SealedNote) : list (nat * SealedNote) := imap pair envelopes.

(** The loop that fills a chunk's slots: the slots, how many are filled, and the rest of the
    input. *)
Fixpoint fill_chunk (slots : nat) (iter : list (nat * SealedNote)) :
    list (option (nat * SealedNote)) * nat * list (nat * SealedNote) :=
  match slots with
  | O => ([], 0, iter)
  | S slots' => match iter with
    | [] => (replicate slots None, 0, [])
    | item :: iter => let '(chunk, len, iter) := fill_chunk slots' iter in (Some item :: chunk, S len, iter)
    end
  end.

(** The loop of [scan]; [None] when the fuel runs out. *)
Fixpoint scan_loop (fuel : nat) (r : Recipient) (aad : bytes) (iter : list (nat * SealedNote))
    (b : ScanBuffers) (results : list hit) : option (outcome (ScanBuffers * list hit)) :=
  match fuel with
  | O => None
  | S fuel =>
    let '(chunk, chunk_len, iter) := fill_chunk SCAN_CHUNK iter in
    if chunk_len =? 0 then Some (mret (b, results)) else
    match chunk ← subslice 0 chunk_len chunk; scan_chunk (sk r) (pk_encoded_ref r) aad chunk b results with
    | Panics => Some Panics
    | Returns (b, results) =>
      if chunk_len <? SCAN_CHUNK then Some (mret (b, results)) else scan_loop fuel r aad iter b results
    end
  end.

Definition scan (s : Scanner) (envelopes : list SealedNote) (aad : bytes) :
    option (outcome (Scanner * list hit)) :=
  match scan_loop (S (length envelopes)) (recipient s) aad (enumerated envelopes) (buffers s) [] with
  | None => None
  | Some o => Some ('(b, results) ← o; mret (MkScanner (recipient s) b, results))
  end.

(** The tasks of one window, each with buffers of its own; their results are collected in order. *)
Definition scan_window (r : Recipient) (aad : bytes) (task_len : nat) (window : list (option (nat * SealedNote))) :
    outcome (list (list hit)) :=
  mapM (λ chunk, '(_, found) ← scan_chunk (sk r) (pk_encoded_ref r) aad chunk scan_buffers_new []; mret found)
    (chunks task_len window).

Fixpoint scan_parallel_loop (fuel tasks_per_round : nat) (r : Recipient) (aad : bytes)
    (iter : list (nat * SealedNote)) (results : list hit) : option (outcome (list hit)) :=
  match fuel with
  | O => None
  | S fuel =>
    let window_len := SCAN_CHUNK * tasks_per_round in
    let window := Some <$> take window_len iter in
    let iter := drop window_len iter in
    let len := length window in
    if len =? 0 then Some (mret results) else
    let task_len := Nat.max 1 (Nat.min (div_ceil len tasks_per_round) SCAN_CHUNK) in
    match scan_window r aad task_len window with
    | Panics => Some Panics
    | Returns per_chunk =>
      let results := results ++ mjoin per_chunk in
      if len <? window_len then Some (mret results) else scan_parallel_loop fuel tasks_per_round r aad iter results
    end
  end.

(** [threads] is the size of the pool. *)
Definition scan_parallel (threads : nat) (s : Scanner) (envelopes : list SealedNote) (aad : bytes) :
    option (outcome (list hit)) :=
  let threads := Nat.max threads 1 in
  let tasks_per_round := threads * CHUNKS_PER_THREAD in
  scan_parallel_loop (S (length envelopes)) tasks_per_round (recipient s) aad (enumerated envelopes) [].

(** What opening one envelope contributes to a scan. *)
Definition trial (r : Recipient) (aad : bytes) (item : nat * SealedNote) : option hit :=
  match open r item.2 aad with
  | Returns (Ok (Some note)) => Some (item.1, Ok note)
  | Returns (Err e) => Some (item.1, Err (Malformed e))
  | _ => None
  end.

(** ** Chunks *)

Context `{!HkdfLaws _, !AeadLaws _, !KemLaws _}.

(** Buffers between two chunks: no secret in a slot, no plaintext in the scratch. *)
Definition clean (b : ScanBuffers) : Prop := out b = replicate SCAN_CHUNK None ∧ scratch b = [].

Abbreviation parsed := (λ item : nat * SealedNote, wire (as_bytes item.2)).

(** The ephemeral key of a parsed envelope. *)
Definition epk_of (item : nat * SealedNote) : bytes :=
  match epk item.2 with Returns e => e | Panics => [] end.

Lemma process_envelope_ok s pk_r e c t aad info scratch :
  suite_asserts = true → length e = EPK_LEN → length c = COMMIT_LEN → length pk_r = EPK_LEN →
  ∃ info' scratch',
    process_envelope s pk_r (MkSealedNote (envelope e c t)) aad info scratch =
      Returns (info', scratch', map_err Malformed <$> attempt (derived_of s (suite_info e pk_r)) c t aad) ∧
    (scratch = [] → scratch' = []).
Proof.
  intros Hs He Hc Hp. destruct (envelope_fields e c t He Hc) as (_ & _ & Hepk & Hcommit & Hct).
  unfold process_envelope, attempt, ct_eq, suite_info. rewrite Hepk. cbn [mbind outcome_bind].
  rewrite write_kdf_info_ok by (by apply suite_fits). cbn [mbind outcome_bind app]. rewrite expand_ok.
  cbn [mbind outcome_bind]. rewrite Hcommit. cbn [mbind outcome_bind].
  set (d := derived_of _ _). case_bool_decide as Hd; case_decide; try done; simpl negb; cbv iota; [|by eauto].
  rewrite Hct. cbn [mbind outcome_bind app]. pose proof (decrypt_in_place_ok (key d) (nonce d) aad t) as Hdec.
  destruct (aead_decrypt _ _ _ _) as [m|].
  - rewrite Hdec. simpl negb. cbv iota. do 2 eexists. split; [|done].
    destruct (decode_note m) as [note|]; [|done]. by destruct (verify note aad).
  - destruct (aead_decrypt_in_place _ _ _ _) as [m ok]. simpl in Hdec. subst ok. by do 2 eexists.
Qed.

Lemma process_chunk_ok k aad envs slots info scratch hits :
  suite_asserts = true → Forall parsed envs →
  fmap shared_ref <$> slots = (λ item, shared_ref <$> decap k (epk_of item)) <$> envs →
  ∃ info' scratch',
    process_chunk (pk_encoded_ref (recipient_new k)) aad (zip (Some <$> envs) slots) info scratch hits =
      Returns (info', scratch', hits ++ omap (trial (recipient_new k) aad) envs) ∧
    (scratch = [] → scratch' = []).
Proof.
  intros Hs Hw. revert slots info scratch hits. induction Hw as [|[i n] envs Hn Hw IH]; intros slots info scratch hits Hslots.
  { exists info, scratch. split; [|done]. simpl. by rewrite app_nil_r. }
  destruct slots as [|slot slots]; [done|]. injection Hslots as Hslot Hslots.
  destruct Hn as (e & c & t & Heq & He & Hc & _). destruct n as [bs]. simpl in Heq. subst bs.
  assert (Htrial : trial (recipient_new k) aad (i, MkSealedNote (envelope e c t)) =
    match opened k e c t aad with Ok (Some n) => Some (i, Ok n) | Ok None => None | Err x => Some (i, Err (Malformed x)) end).
  { unfold trial. simpl. by rewrite open_envelope. }
  assert (Hepk : epk_of (i, MkSealedNote (envelope e c t)) = e).
  { unfold epk_of. simpl. by destruct (envelope_fields e c t He Hc) as (_ & _ & -> & _). }
  rewrite Hepk in Hslot. cbn [fmap list_fmap zip zip_with process_chunk expect mbind outcome_bind omap list_omap].
  rewrite Htrial. unfold opened, kdf_input. destruct (decap k e) as [s|], slot as [s'|]; try done.
  - cbn [fmap option_fmap option_map]. apply (inj Some) in Hslot.
    destruct (process_envelope_ok (shared_ref s') (pk_encoded_ref (recipient_new k)) e c t aad info scratch)
      as (info1 & scratch1 & Hp & Hclean); [done..|apply length_pk_encoded|].
    rewrite Hp. cbn [mbind outcome_bind]. rewrite Hslot.
    clear Hp. destruct (attempt _ _ _ _) as [[note|err]|]; cbn [fmap option_fmap option_map map_err].
    all: edestruct (IH slots info1 scratch1) as (i2 & s2 & Hi & Hc2); [done|]; exists i2, s2;
      (split; [rewrite Hi; by rewrite <- ?app_assoc|auto]).
  - cbn [fmap option_fmap option_map mret outcome_ret mbind outcome_bind]. by apply IH.
Qed.

Lemma parsed_epk item : parsed item → epk item.2 = Returns (epk_of item).
Proof.
  intros (e & c & t & Heq & He & Hc & _). destruct item as [i [bs]]. simpl in *. subst bs. unfold epk_of. simpl.
  by destruct (envelope_fields e c t He Hc) as (_ & _ & -> & _).
Qed.

(** A chunk of parsed envelopes adds their trials and leaves clean buffers. *)
Lemma scan_chunk_ok k aad envs b hits :
  suite_asserts = true → Forall parsed envs → length envs ≤ SCAN_CHUNK → clean b →
  ∃ b', scan_chunk k (pk_encoded_ref (recipient_new k)) aad (Some <$> envs) b hits =
    Returns (b', hits ++ omap (trial (recipient_new k) aad) envs) ∧ clean b'.
Proof.
  intros Hs Hw Hlen [Hout Hscratch]. unfold scan_chunk. rewrite length_fmap.
  rewrite (proj2 (Nat.ltb_ge _ _)) by lia.
  rewrite (mapM_returns _ (λ item, from_option epk_of [] item)).
  2: { apply Forall_fmap. eapply Forall_impl; [exact Hw|]. intros [i n] Hp%parsed_epk. exact Hp. }
  cbn [mbind outcome_bind]. rewrite <- list_fmap_compose. unfold compose. cbn [from_option].
  rewrite (subslice_take _ ((_ <$> envs) ++ _)) by (rewrite length_app, length_fmap; lia). cbn [mbind outcome_bind].
  rewrite take_app_length' by (by rewrite length_fmap).
  rewrite Hout, subslice_take by (rewrite length_replicate; lia). cbn [mbind outcome_bind].
  set (slots := decap_batch _ _ _).
  assert (Hslots : fmap shared_ref <$> slots = (λ item, shared_ref <$> decap k (epk_of item)) <$> envs).
  { unfold slots. rewrite decap_batch_map; [by rewrite <- list_fmap_compose|].
    rewrite length_fmap, length_take, length_replicate. lia. }
  assert (Hls : length slots = length envs).
  { apply (f_equal length) in Hslots. by rewrite !length_fmap in Hslots. }
  rewrite subslice_take by (rewrite length_app; lia). cbn [mbind outcome_bind].
  rewrite take_app_length' by done.
  destruct (process_chunk_ok k aad envs slots (info b) (scratch b) hits) as (i' & s' & Hp & Hclean); [done..|].
  change (λ x : nat * SealedNote, Some x) with (@Some (nat * SealedNote)). rewrite Hp. cbn [mbind outcome_bind].
  eexists. split; [done|]. split; cbn [out scratch]; [|auto].
  rewrite drop_app_length', drop_replicate by done.
  rewrite <- Hls. replace SCAN_CHUNK with (length slots + (SCAN_CHUNK - length slots)) at 2 by lia.
  rewrite replicate_add. f_equal. by apply const_fmap.
Qed.

Lemma fill_chunk_ok slots iter :
  let '(chunk, len, rest) := fill_chunk slots iter in
  len = length (take slots iter) ∧ take len chunk = Some <$> take slots iter ∧
  len ≤ length chunk ∧ rest = drop slots iter.
Proof.
  revert iter. induction slots as [|slots IH]; intros iter; [done|].
  destruct iter as [|item iter]; simpl; [by rewrite length_replicate; auto with lia|].
  specialize (IH iter). destruct (fill_chunk slots iter) as [[chunk len] rest].
  destruct IH as (-> & Hc & Hl & ->). simpl. rewrite Hc. auto with lia.
Qed.

Lemma scan_loop_ok k aad fuel iter b results :
  suite_asserts = true → Forall parsed iter → clean b → length iter < fuel →
  ∃ b', scan_loop fuel (recipient_new k) aad iter b results =
    Some (Returns (b', results ++ omap (trial (recipient_new k) aad) iter)) ∧ clean b'.
Proof.
  intros Hs. revert iter b results. induction fuel as [|fuel IH]; intros iter b results Hw Hb Hf; [lia|].
  cbn [scan_loop]. pose proof (fill_chunk_ok SCAN_CHUNK iter) as Hfill.
  destruct (fill_chunk SCAN_CHUNK iter) as [[chunk len] rest]. destruct Hfill as (Hlen & Htake & Hle & ->).
  rewrite length_take in Hlen. destruct (len =? 0) eqn:Hz; nbool.
  { destruct iter; [|simpl in *; unfold SCAN_CHUNK in *; lia]. exists b. simpl. by rewrite app_nil_r. }
  rewrite subslice_take by done. cbn [mbind outcome_bind]. rewrite Htake.
  destruct (scan_chunk_ok k aad (take SCAN_CHUNK iter) b results) as (b1 & Hscan & Hb1); [done| | |done|].
  { by apply Forall_take. }
  { rewrite length_take. lia. }
  cbn [sk recipient_new]. rewrite Hscan. destruct (len <? SCAN_CHUNK) eqn:Hlt; nbool.
  { rewrite take_ge by lia. by exists b1. }
  destruct (IH (drop SCAN_CHUNK iter) b1 (results ++ omap (trial (recipient_new k) aad) (take SCAN_CHUNK iter)))
    as (b2 & -> & Hb2); [by apply Forall_drop|done|rewrite length_drop; unfold SCAN_CHUNK in *; lia|].
  exists b2. split; [|done]. rewrite <- app_assoc, <- omap_app. by rewrite take_drop.
Qed.

(** ** Windows *)

Lemma scan_window_ok k aad task_len envs :
  suite_asserts = true → Forall parsed envs → 0 < task_len ≤ SCAN_CHUNK →
  ∃ found, scan_window (recipient_new k) aad task_len (Some <$> envs) = Returns found ∧
    mjoin found = omap (trial (recipient_new k) aad) envs.
Proof.
  intros Hs Hw [Hpos Hmax]. destruct (chunks_spec task_len envs Hpos) as [Hj Hlen].
  exists (fmap (M:=list) (omap (trial (recipient_new k) aad)) (chunks task_len envs)). split; [|by rewrite omap_join, Hj].
  unfold scan_window. rewrite chunks_fmap. rewrite <- Hj in Hw. apply Forall_join_inv in Hw.
  assert (Hid : ∀ c : list (nat * SealedNote), omap id (Some <$> c) = c).
  { intros c. induction c as [|x c IH]; [done|]. change (x :: omap id (Some <$> c) = x :: c). by rewrite IH. }
  rewrite (mapM_returns _ (λ c, omap (trial (recipient_new k) aad) (omap id c))).
  - f_equal. rewrite <- list_fmap_compose. apply list_fmap_ext. intros i c _. unfold compose. by rewrite Hid.
  - apply Forall_fmap. rewrite Forall_lookup in *. intros i c Hi. unfold compose. rewrite Hid.
    destruct (scan_chunk_ok k aad c scan_buffers_new []) as (b' & Hc & _); [done|by eapply Hw| |done|].
    + specialize (Hlen i c Hi). simpl in Hlen. lia.
    + unfold sk, recipient_new in *. by rewrite Hc.
Qed.

Lemma scan_parallel_loop_ok k aad fuel tasks iter results :
  suite_asserts = true → Forall parsed iter → 0 < tasks → length iter < fuel →
  scan_parallel_loop fuel tasks (recipient_new k) aad iter results =
    Some (Returns (results ++ omap (trial (recipient_new k) aad) iter)).
Proof.
  intros Hs. revert iter results. induction fuel as [|fuel IH]; intros iter results Hw Ht Hf; [lia|].
  cbn [scan_parallel_loop]. rewrite length_fmap. set (w := SCAN_CHUNK * tasks).
  assert (Hwpos : 0 < w) by (unfold w, SCAN_CHUNK; lia). destruct (length (take w iter) =? 0) eqn:Hz; nbool.
  { rewrite length_take in Hz. destruct iter; [|simpl in *; lia]. simpl. by rewrite app_nil_r. }
  destruct (scan_window_ok k aad (Nat.max 1 (Nat.min (div_ceil (length (take w iter)) tasks) SCAN_CHUNK)) (take w iter))
    as (found & -> & Hfound); [done|by apply Forall_take|unfold SCAN_CHUNK; lia|]. rewrite Hfound.
  rewrite length_take in *. destruct (_ <? w) eqn:Hlt; nbool.
  { rewrite take_ge by lia. done. }
  rewrite IH; [|by apply Forall_drop|done|rewrite length_drop; lia].
  by rewrite <- app_assoc, <- omap_app, take_drop.
Qed.

(** ** Properties *)

Lemma enumerated_parsed envelopes : Forall (λ n, wire (as_bytes n)) envelopes → Forall parsed (enumerated envelopes).
Proof.
  intros Hw. unfold enumerated. apply Forall_lookup. intros i [j n] Hi. rewrite list_lookup_imap in Hi.
  destruct (envelopes !! i) as [n'|] eqn:Hn; simplify_eq/=. by apply (Forall_lookup_1 _ _ _ _ Hw Hn).
Qed.

(** The scan loop on parsed envelopes. *)
Lemma scan_ok k s envelopes aad :
  suite_asserts = true → Forall (λ n, wire (as_bytes n)) envelopes →
  recipient s = recipient_new k → clean (buffers s) →
  ∃ s', scan s envelopes aad = Some (Returns (s', omap (trial (recipient s) aad) (enumerated envelopes))) ∧
    recipient s' = recipient s ∧ clean (buffers s').
Proof.
  intros Hs Hw Hr Hb. unfold scan. rewrite Hr.
  destruct (scan_loop_ok k aad (S (length envelopes)) (enumerated envelopes) (buffers s) []) as (b' & -> & Hb');
    [done|by apply enumerated_parsed|done|unfold enumerated; rewrite length_imap; lia|]. by eexists.
Qed.

(** C21. A scan of parsed envelopes ends, never panics, and yields in input order exactly the notes and
    the failures that opening each envelope would, under their indexes; it leaves the scanner's
    buffers free of secrets and plaintext, ready for the next scan. *)
Theorem scan_is_open k s envelopes aad :
  suite_asserts = true → Forall (λ n, wire (as_bytes n)) envelopes →
  recipient s = recipient_new k → clean (buffers s) →
  ∃ s', scan s envelopes aad = Some (Returns (s', omap (trial (recipient s) aad) (enumerated envelopes))) ∧
    recipient s' = recipient s ∧ clean (buffers s').
Proof. apply scan_ok. Qed.

(** The parallel scan ends with the hits of the sequential one, in the same order, whatever the
    size of the thread pool. *)
Theorem scan_parallel_is_scan threads k s envelopes aad :
  suite_asserts = true → Forall (λ n, wire (as_bytes n)) envelopes →
  recipient s = recipient_new k → clean (buffers s) →
  ∃ s' hits, scan s envelopes aad = Some (Returns (s', hits)) ∧
    scan_parallel threads s envelopes aad = Some (Returns hits).
Proof.
  intros Hs Hw Hr Hb. unfold scan, scan_parallel. rewrite Hr.
  destruct (scan_loop_ok k aad (S (length envelopes)) (enumerated envelopes) (buffers s) []) as (b' & -> & Hb');
    [done|by apply enumerated_parsed|done|unfold enumerated; rewrite length_imap; lia|].
  rewrite scan_parallel_loop_ok; [by do 2 eexists|done|by apply enumerated_parsed|unfold CHUNKS_PER_THREAD; lia|].
  unfold enumerated. rewrite length_imap. lia.
Qed.
End scan.

(** ** Witnesses: one note for Alice, one for Bob, one for Alice with a damaged tag *)

Section witnesses.
Import Toy.

Definition damaged : SealedNote :=
  MkSealedNote (take (length (as_bytes sealed_note) - 1) (as_bytes sealed_note) ++ [xff]).

Definition for_bob : SealedNote :=
  match (seal bob message context 5%N).2 with Returns (Ok n) => n | _ => MkSealedNote [] end.

Definition alice_scanner : Scanner := scanner_new (recipient_new alice).

Lemma ex_wire : Forall (λ n, wire (as_bytes n)) [sealed_note; for_bob; damaged].
Proof.
  assert (H : ∀ n, parse (as_bytes n) = Returns (Ok n) → wire (as_bytes n)).
  { intros n Hp. destruct (parse_decides (as_bytes n)) as [[Hw _]|(_ & kind & Herr & _)]; [done|]. by rewrite Herr in Hp. }
  repeat constructor; apply H; with_strategy transparent [MAX_CT_LEN] (vm_compute); reflexivity.
Qed.

Lemma scan_is_open_witness :
  ∃ s', scan alice_scanner [sealed_note; for_bob; damaged] context =
    Some (Returns (s', [(0, Ok message); (2, Err (Malformed AeadError))])) ∧
    recipient s' = recipient alice_scanner ∧ clean (buffers s').
Proof.
  assert (Htrials : omap (trial (recipient alice_scanner) context) (enumerated [sealed_note; for_bob; damaged]) =
    [(0, Ok message); (2, Err (Malformed AeadError))]).
  { with_strategy transparent [MAX_CT_LEN] (vm_compute). reflexivity. }
  pose proof (scan_is_open alice alice_scanner [sealed_note; for_bob; damaged] context
    eq_refl ex_wire eq_refl (conj eq_refl eq_refl)) as Hscan.
  rewrite Htrials in Hscan. exact Hscan.
Defined.

Lemma scan_parallel_is_scan_witness :
  ∃ s' hits, scan alice_scanner [sealed_note; for_bob; damaged] context = Some (Returns (s', hits)) ∧
    scan_parallel 3 alice_scanner [sealed_note; for_bob; damaged] context = Some (Returns hits).
Proof.
  exact (scan_parallel_is_scan 3 alice alice_scanner [sealed_note; for_bob; damaged] context
    eq_refl ex_wire eq_refl (conj eq_refl eq_refl)).
Defined.
End witnesses.
