(* ===== verification/Adapters.v ===== *)
(** The key-encapsulation adapters of sealring ([crates/sealring/src/adapters/]): X25519,
    secp256k1 and Grumpkin, each over the curve library it wraps, which is given by a type class
    with its documented laws. Each adapter is an instance of the KEM interface; the batches of the
    two last ones share one field inversion per chunk. *)
From S2P Require Import Prelude Kem Scan.

(** ** Chunked batches *)

(** [epks.chunks(SCAN_CHUNK).zip(out.chunks_mut(SCAN_CHUNK))] with a body that rewrites the slots
    of its chunk; slots past the last pair keep what they hold. *)
Definition for_chunks {A B} (body : list A → list B → list B) (epks : list A) (out : list B) : list B :=
  mjoin (zip_with body (chunks SCAN_CHUNK epks) (chunks SCAN_CHUNK out)) ++
  drop (SCAN_CHUNK * length (chunks SCAN_CHUNK epks)) out.

(** The two loops of a batch's body. The first visits the keys of the chunk with their slots and
    sorts out the ones that carry a point: [indices[..valid]] and [points[..valid]], as lists. *)
Fixpoint collect_valid {P SS} (lift : bytes → option P) (i : nat) (epks : list bytes) (out : list (option SS)) :
    list (nat * P) :=
  match epks, out with
  | epk :: epks, _ :: out =>
    match lift epk with
    | Some p => (i, p) :: collect_valid lift (S i) epks out
    | None => collect_valid lift (S i) epks out
    end
  | _, _ => []
  end.
(** It empties every slot it visits. *)
Definition clear_slots {SS} (epks : list bytes) (out : list (option SS)) : list (option SS) :=
  ((λ _, None) <$> take (length epks) out) ++ drop (length epks) out.
(** The second fills the slots of the valid indices. *)
Fixpoint fill_slots {SS} (filled : list (nat * SS)) (out : list (option SS)) : list (option SS) :=
  match filled with
  | [] => out
  | (i, s) :: filled => fill_slots filled (<[i := Some s]> out)
  end.

(** ** X25519 *)

(** [x25519_dalek]. *)
Class Dalek := {
  EphemeralSecret : Type; StaticSecret : Type; XPublicKey : Type; XShared : Type;
  random_from_rng : ∀ {R : Type} `{CryptoRng R}, R → R * EphemeralSecret;
  public_from_ephemeral : EphemeralSecret → XPublicKey;
  public_from_static : StaticSecret → XPublicKey;
  public_from_bytes : array32 → XPublicKey;
  public_to_bytes : XPublicKey → array32;
  ephemeral_diffie_hellman : EphemeralSecret → XPublicKey → XShared;
  static_diffie_hellman : StaticSecret → XPublicKey → XShared;
  shared_to_bytes : XShared → array32;
}.

(** A public key is its bytes, and the two sides of an exchange agree. *)
Class DalekLaws `(Dalek) := {
  public_bytes pk : public_from_bytes (public_to_bytes pk) = pk;
  dalek_agree e s : ephemeral_diffie_hellman e (public_from_static s) =
    static_diffie_hellman s (public_from_ephemeral e);
}.

Section x25519.
Context `{Dalek}.

Definition x25519_encap {R : Type} `{CryptoRng R} (rng : R) (to : XPublicKey) : R * (array32 * array32) :=
  let (rng, ephemeral) := random_from_rng rng in
  let epk := public_from_ephemeral ephemeral in
  let shared := ephemeral_diffie_hellman ephemeral to in
  (rng, (public_to_bytes epk, shared_to_bytes shared)).

Definition x25519_decap (sk : StaticSecret) (epk : bytes) : option array32 :=
  epk_bytes ← try_array32 epk;
  let shared := static_diffie_hellman sk (public_from_bytes epk_bytes) in
  let shared_bytes := shared_to_bytes shared in
  let is_zero := bool_decide (array_bytes shared_bytes = replicate 32 x00) in
  if is_zero then None else Some shared_bytes.

Definition X25519 : Kem := {|
  PublicKey := XPublicKey; SecretKey := StaticSecret; Epk := array32; SharedSecret := array32;
  epk_ref := array_bytes; shared_ref := array_bytes;
  KEM_ID := x02; EPK_LEN := 32;
  encap := @x25519_encap; decap := x25519_decap;
  derive_pk := public_from_static; encode_pk := public_to_bytes;
  decap_batch := decap_batch_default x25519_decap;
|}.
End x25519.

(** ** secp256k1 *)

(** [k256]. *)
Class K256Lib := {
  KPublicKey : Type; KSecretKey : Type; KEphemeral : Type; KScalar : Type; KAffine : Type; KProjective : Type;
  KShared : Type;
  generate_from_rng : ∀ {R : Type} `{CryptoRng R}, R → R * KEphemeral;
  ephemeral_public_key : KEphemeral → KPublicKey;
  secret_public_key : KSecretKey → KPublicKey;
  to_sec1_bytes : KPublicKey → bytes;
  from_sec1_bytes : bytes → option KPublicKey;
  ephemeral_dh : KEphemeral → KPublicKey → KShared;
  diffie_hellman : KScalar → KAffine → KShared;
  to_nonzero_scalar : KSecretKey → KScalar;
  as_affine : KPublicKey → KAffine;
  projective_from : KAffine → KProjective;
  projective_mul : KProjective → KScalar → KProjective;
  KIDENTITY : KProjective;
  batch_normalize : list KProjective → list KAffine;
  to_affine : KProjective → KAffine;
  shared_from : KAffine → KShared;
  raw_secret_bytes : KShared → bytes;
}.

(** SEC1 encodings are compressed and read back; the two sides of an exchange agree; a batch is
    normalized point by point; and the exchange is the multiplication, normalized. *)
Class K256Laws `(K256Lib) := {
  length_sec1 pk : length (to_sec1_bytes pk) = 33;
  sec1_roundtrip pk : from_sec1_bytes (to_sec1_bytes pk) = Some pk;
  k256_agree e s : ephemeral_dh e (secret_public_key s) =
    diffie_hellman (to_nonzero_scalar s) (as_affine (ephemeral_public_key e));
  batch_normalize_map ps : batch_normalize ps = to_affine <$> ps;
  diffie_hellman_mul k a : diffie_hellman k a = shared_from (to_affine (projective_mul (projective_from a) k));
}.

Section k256.
Context `{K256Lib}.

Definition k256_encap {R : Type} `{CryptoRng R} (rng : R) (to : KPublicKey) : R * (bytes * bytes) :=
  let (rng, esk) := generate_from_rng rng in
  let epk := to_sec1_bytes (ephemeral_public_key esk) in
  let shared := ephemeral_dh esk to in
  (rng, (epk, raw_secret_bytes shared)).

Definition k256_decap (sk : KSecretKey) (epk : bytes) : option bytes :=
  pk ← from_sec1_bytes epk;
  let shared := diffie_hellman (to_nonzero_scalar sk) (as_affine pk) in
  Some (raw_secret_bytes shared).

(** The points array keeps the identity past the valid entries, and is normalized whole. *)
Definition k256_batch_body (scalar : KScalar) (epks : list bytes) (out : list (option bytes)) : list (option bytes) :=
  let valid := collect_valid (λ epk,
    pk ← from_sec1_bytes epk; Some (projective_mul (projective_from (as_affine pk)) scalar)) 0 epks out in
  let out := clear_slots epks out in
  let points := (valid.*2) ++ replicate (SCAN_CHUNK - length valid) KIDENTITY in
  let affines := batch_normalize points in
  fill_slots (zip_with (λ idx affine, (idx, raw_secret_bytes (shared_from affine))) (valid.*1) affines) out.

Definition k256_decap_batch (sk : KSecretKey) (epks : list bytes) (out : list (option bytes)) : list (option bytes) :=
  let scalar := to_nonzero_scalar sk in
  for_chunks (k256_batch_body scalar) epks out.

Definition K256 : Kem := {|
  PublicKey := KPublicKey; SecretKey := KSecretKey; Epk := bytes; SharedSecret := bytes;
  epk_ref := id; shared_ref := id;
  KEM_ID := x01; EPK_LEN := 33;
  encap := @k256_encap; decap := k256_decap;
  derive_pk := secret_public_key; encode_pk := to_sec1_bytes;
  decap_batch := k256_decap_batch;
|}.
End k256.

(** ** Grumpkin *)

(** [ark_ff] and [ark_ec]: the base field, and the curve in affine and Jacobian coordinates. *)
Class Arkworks := {
  Fq : Type; Fr : Type; GAffine : Type; GProjective : Type;
  fq_eq_dec :: EqDecision Fq;
  fq_zero : Fq; fq_one : Fq;
  fq_mul : Fq → Fq → Fq;
  fq_inverse : Fq → option Fq;
  fq_serialize : Fq → bytes;
  from_le_bytes_mod_order : bytes → Fr;
  generator : GAffine;
  affine_mul : GAffine → Fr → GProjective;
  into_affine : GProjective → GAffine;
  batch_mul : list Fr → list GAffine;
  proj_x : GProjective → Fq;
  proj_z : GProjective → Fq;
  xy : GAffine → option (Fq * Fq);
  is_identity : GAffine → bool;
  serialize_compressed : GAffine → bytes;
  deserialize_compressed : bytes → option GAffine;
}.

(** [Field::square]. *)
Definition fq_square `{Arkworks} (x : Fq) : Fq := fq_mul x x.

(** The field axioms that batch inversion needs, Jacobian coordinates as documented
    ([x = X / Z^2], the identity being [Z = 0]), encodings that read back, and a commutative
    action of scalars that keeps the identity. *)
Class ArkworksLaws `(Arkworks) := {
  fq_mul_assoc : Assoc (=) fq_mul;
  fq_mul_comm : Comm (=) fq_mul;
  fq_mul_one : LeftId (=) fq_one fq_mul;
  fq_mul_zero x : fq_mul fq_zero x = fq_zero;
  fq_one_zero : fq_one ≠ fq_zero;
  fq_inverse_zero : fq_inverse fq_zero = None;
  fq_inverse_some x : x ≠ fq_zero → ∃ y, fq_inverse x = Some y ∧ fq_mul x y = fq_one;
  jacobian_identity p : proj_z p = fq_zero → xy (into_affine p) = None;
  jacobian_x p i : proj_z p ≠ fq_zero → fq_inverse (proj_z p) = Some i →
    fst <$> xy (into_affine p) = Some (fq_mul (proj_x p) (fq_square i));
  xy_identity a : xy a = None ↔ is_identity a = true;
  batch_mul_map ss : batch_mul ss = (λ s, into_affine (affine_mul generator s)) <$> ss;
  length_compressed a : length (serialize_compressed a) = 32;
  compressed_roundtrip a : deserialize_compressed (serialize_compressed a) = Some a;
  mul_commutes a s t : into_affine (affine_mul (into_affine (affine_mul a s)) t) =
    into_affine (affine_mul (into_affine (affine_mul a t)) s);
  mul_identity a s : is_identity a = true → is_identity (into_affine (affine_mul a s)) = true;
}.

Section grumpkin.
Context `{Arkworks}.

Definition random_scalar {R : Type} `{CryptoRng R} (rng : R) : R * Fr :=
  let (rng, bs) := fill_bytes 64 rng in (rng, from_le_bytes_mod_order bs).

(** [batch_mul(&[scalar])[0]]; the index is in range, see [mul_generator_eq]. *)
Definition mul_generator (scalar : Fr) : GAffine := default generator (batch_mul [scalar] !! 0).

Definition x_coordinate (point : GAffine) : option bytes := '(x, _) ← xy point; Some (fq_serialize x).

(** Montgomery's trick. The first loop leaves the product of everything before each element in
    the scratch, the second walks back with the inverse of the running product. *)
Fixpoint batch_products (running : Fq) (zs prefix : list Fq) : Fq * list Fq :=
  match zs, prefix with
  | z :: zs, _ :: prefix => let (total, prefix) := batch_products (fq_mul running z) zs prefix in (total, running :: prefix)
  | _, prefix => (running, prefix)
  end.
Fixpoint batch_walk_back (inverse : Fq) (pairs : list (Fq * Fq)) : list Fq :=
  match pairs with
  | [] => []
  | (this, before) :: pairs => fq_mul inverse before :: batch_walk_back (fq_mul inverse this) pairs
  end.
Definition batch_invert (zs prefix : list Fq) : outcome (list Fq * list Fq) :=
  if negb (length zs =? length prefix) then Panics else
  let (running, prefix) := batch_products fq_one zs prefix in
  inverse ← expect (fq_inverse running);
  mret (rev (batch_walk_back inverse (rev (zip zs prefix))), prefix).

Definition grumpkin_encap {R : Type} `{CryptoRng R} (rng : R) (to : GAffine) : R * (bytes * bytes) :=
  let (rng, esk) := random_scalar rng in
  let epk := mul_generator esk in
  let shared := into_affine (affine_mul to esk) in
  let secret := default (replicate 32 x00) (x_coordinate shared) in
  (rng, (serialize_compressed epk, secret)).

Definition grumpkin_decap (sk : Fr) (epk : bytes) : option bytes :=
  if negb (length epk =? 32) then None else
  point ← deserialize_compressed epk;
  if is_identity point then None else
  let shared := into_affine (affine_mul point sk) in
  x_coordinate shared.

(** The point of a key, unless the key is skipped. *)
Definition grumpkin_lift (sk : Fr) (epk : bytes) : option GProjective :=
  if negb (length epk =? 32) then None else
  point ← deserialize_compressed epk;
  if is_identity point then None else
  let shared := affine_mul point sk in
  if decide (proj_z shared = fq_zero) then None else Some shared.

Definition grumpkin_batch_body (sk : Fr) (epks : list bytes) (out : list (option bytes)) : outcome (list (option bytes)) :=
  let valid := collect_valid (grumpkin_lift sk) 0 epks out in
  let out := clear_slots epks out in
  let zs := proj_z <$> valid.*2 in
  '(zs, _) ← batch_invert zs (replicate (length valid) fq_zero);
  let normalized := zip_with (λ '(index, point) z_inverse,
    (index, fq_serialize (fq_mul (proj_x point) (fq_square z_inverse)))) valid zs in
  mret (fill_slots normalized out).

(** A body unwinds only if its inversion does, which [grumpkin_body_ok] excludes. *)
Definition grumpkin_decap_batch (sk : Fr) (epks : list bytes) (out : list (option bytes)) : list (option bytes) :=
  for_chunks (λ epks out, match grumpkin_batch_body sk epks out with Returns out => out | Panics => [] end) epks out.

Definition Grumpkin : Kem := {|
  PublicKey := GAffine; SecretKey := Fr; Epk := bytes; SharedSecret := bytes;
  epk_ref := id; shared_ref := id;
  KEM_ID := x03; EPK_LEN := 32;
  encap := @grumpkin_encap; decap := grumpkin_decap;
  derive_pk := mul_generator; encode_pk := serialize_compressed;
  decap_batch := grumpkin_decap_batch;
|}.
End grumpkin.

(** ** Chunked batches are scalar loops *)

Lemma for_chunks_map {A B} (body : list A → list B → list B) (g : A → B) epks out :
  (∀ es os, length es = length os → length es ≤ SCAN_CHUNK → body es os = g <$> es) →
  length epks = length out → for_chunks body epks out = g <$> epks.
Proof.
  intros Hbody Hlen. unfold for_chunks.
  assert (H : ∀ fuel (es : list A) (os : list B), length es = length os → length es ≤ fuel →
    mjoin (zip_with body (chunks_fuel fuel SCAN_CHUNK es) (chunks_fuel fuel SCAN_CHUNK os)) = g <$> es ∧
    length es ≤ SCAN_CHUNK * length (chunks_fuel fuel SCAN_CHUNK es)).
  { induction fuel as [|fuel IH]; intros es os Hl Hf.
    { destruct es; [by simpl; auto with lia|simpl in Hf; lia]. }
    destruct es as [|e es], os as [|o os]; try done; [].
    cbn [chunks_fuel zip_with]. destruct (IH (drop SCAN_CHUNK (e :: es)) (drop SCAN_CHUNK (o :: os))) as [Hj Hn].
    - by rewrite !length_drop, Hl.
    - rewrite length_drop. cbn [length] in *. unfold SCAN_CHUNK. lia.
    - split.
      + change (mjoin (?x :: ?l)) with (x ++ mjoin l). rewrite Hj, Hbody.
        * by rewrite <- fmap_app, take_drop.
        * by rewrite !length_take, Hl.
        * rewrite length_take. lia.
      + cbn [length] in *. rewrite length_drop in Hn. cbn [length] in Hn. lia. }
  destruct (H (length epks) epks out Hlen (le_n _)) as [Hj Hn]. unfold chunks. rewrite <- Hlen, Hj.
  by rewrite drop_ge, app_nil_r by lia.
Qed.

(** Clearing a chunk's slots and filling the valid ones leaves each key's value in its slot. *)
Lemma fill_collected {P SS} (lift : bytes → option P) (h : P → SS) epks (out : list (option SS)) :
  length epks = length out →
  fill_slots (prod_map id h <$> collect_valid lift 0 epks out) (clear_slots epks out) =
    (λ e, h <$> lift e) <$> epks.
Proof.
  intros Hlen. unfold clear_slots. rewrite take_ge, drop_ge, app_nil_r by lia.
  rewrite (const_fmap _ _ None) by done. rewrite <- Hlen.
  change (replicate ?n None) with ([] ++ replicate n (@None SS)).
  change ((λ e, h <$> lift e) <$> epks) with ([] ++ ((λ e, h <$> lift e) <$> epks)).
  change 0 with (length (@nil (option SS))). generalize (@nil (option SS)) as pre.
  revert out Hlen. induction epks as [|e epks IH]; intros [|o out] Hlen pre; try done.
  assert (Hstep : ∀ x, fill_slots (prod_map id h <$> collect_valid lift (S (length pre)) epks out)
    (pre ++ x :: replicate (length epks) None) = pre ++ x :: ((λ e, h <$> lift e) <$> epks)).
  { intros x. specialize (IH out ltac:(simpl in Hlen; lia) (pre ++ [x])).
    rewrite length_app, Nat.add_1_r, <- !app_assoc in IH. exact IH. }
  cbn [collect_valid length replicate]. rewrite fmap_cons. destruct (lift e) as [p|]; cbn [fmap option_fmap option_map];
    [|apply Hstep].
  rewrite fmap_cons. cbn [fill_slots prod_map fst snd id].
  rewrite insert_app_r_alt, Nat.sub_diag by lia. cbn [insert list_insert]. apply Hstep.
Qed.

Lemma length_collect_valid {P SS} (lift : bytes → option P) i epks (out : list (option SS)) :
  length (collect_valid lift i epks out) ≤ length epks.
Proof.
  revert i out. induction epks as [|e epks IH]; intros i [|o out]; simpl; try lia.
  destruct (lift e); simpl; [specialize (IH (S i) out)|specialize (IH (S i) out)]; lia.
Qed.

(** ** X25519 and secp256k1 are KEMs *)

#[export] Instance x25519_laws `{DalekLaws} : KemLaws X25519.
Proof.
  split; simpl.
  - intros pk. apply length_array32.
  - intros R ? ? rng pk. unfold x25519_encap. destruct (random_from_rng rng). apply length_array32.
  - intros R ? ? rng sk. unfold x25519_encap. destruct (random_from_rng rng) as [rng' e]. simpl. intros Hdeg.
    unfold x25519_decap. rewrite try_array32_bytes. simpl. rewrite public_bytes, <- dalek_agree.
    case_bool_decide as Hz; [|done]. destruct Hdeg. rewrite Hz. repeat constructor.
  - intros sk epks out Hlen. rewrite decap_batch_default_map by done. by rewrite <- list_fmap_compose.
Qed.

Lemma k256_decap_batch_map `{K256Laws} sk epks out : length epks = length out →
  k256_decap_batch sk epks out = k256_decap sk <$> epks.
Proof.
  intros Hlen. unfold k256_decap_batch. apply for_chunks_map; [|done]. clear epks out Hlen. intros es os Hl Hmax.
  unfold k256_batch_body. set (valid := collect_valid _ 0 es os).
  rewrite batch_normalize_map, fmap_app.
  replace (zip_with _ _ _) with (prod_map id (λ p, raw_secret_bytes (shared_from (to_affine p))) <$> valid).
  - unfold valid. rewrite fill_collected by done. apply list_fmap_ext. intros _ e _. unfold k256_decap.
    destruct (from_sec1_bytes e) as [pk|]; simpl; [|done]. by rewrite diffie_hellman_mul.
  - generalize (to_affine <$> replicate (SCAN_CHUNK - length valid) KIDENTITY) as rest. generalize valid. clear.
    intros valid rest. induction valid as [|[i p] l IH]; [done|]. rewrite fmap_cons, IH. done.
Qed.

#[export] Instance k256_laws `{K256Laws} : KemLaws K256.
Proof.
  split; simpl.
  - apply length_sec1.
  - intros R ? ? rng pk. unfold k256_encap. destruct (generate_from_rng rng). apply length_sec1.
  - intros R ? ? rng sk. unfold k256_encap. destruct (generate_from_rng rng) as [rng' e]. simpl. intros _.
    unfold k256_decap. by rewrite sec1_roundtrip, k256_agree.
  - intros sk epks out Hlen. rewrite k256_decap_batch_map by done. by rewrite <- list_fmap_compose.
Qed.

(** ** Batch inversion *)

Section inversion.
Context `{ArkworksLaws}.
Local Existing Instances fq_mul_assoc fq_mul_comm fq_mul_one.
Infix "*" := fq_mul.

(** The inverse of a non-zero element. *)
Definition fq_inv (x : Fq) : Fq := default fq_zero (fq_inverse x).

Lemma fq_inverse_unique x y : x * y = fq_one → fq_inverse x = Some y.
Proof.
  intros Hxy. assert (Hx : x ≠ fq_zero) by (intros ->; rewrite fq_mul_zero in Hxy; by destruct fq_one_zero).
  destruct (fq_inverse_some x Hx) as (z & -> & Hz). f_equal.
  rewrite <- (left_id_L fq_one fq_mul z), <- Hxy, (comm_L fq_mul x y), <- (assoc_L fq_mul), Hz.
  by rewrite (comm_L fq_mul), (left_id_L fq_one fq_mul).
Qed.

Lemma fq_mul_nonzero x y : x ≠ fq_zero → y ≠ fq_zero → x * y ≠ fq_zero.
Proof.
  intros Hx Hy Hxy. destruct (fq_inverse_some x Hx) as (x' & _ & Hx'). apply Hy.
  rewrite <- (left_id_L fq_one fq_mul y), <- Hx', (comm_L fq_mul x x'), <- (assoc_L fq_mul), Hxy.
  by rewrite (comm_L fq_mul), fq_mul_zero.
Qed.

(** The products before each element, from an accumulator. *)
Fixpoint partials (acc : Fq) (zs : list Fq) : list Fq :=
  match zs with [] => [] | z :: zs => acc :: partials (acc * z) zs end.

Lemma batch_products_eq acc zs prefix : length zs = length prefix →
  batch_products acc zs prefix = (foldl fq_mul acc zs, partials acc zs).
Proof.
  revert acc prefix. induction zs as [|z zs IH]; intros acc [|p prefix] Hl; try done.
  cbn [batch_products]. by rewrite IH by (simpl in Hl; lia).
Qed.

Lemma partials_snoc acc zs z : partials acc (zs ++ [z]) = partials acc zs ++ [foldl fq_mul acc zs].
Proof. revert acc. induction zs as [|y zs IH]; intros acc; [done|]. simpl. by rewrite IH. Qed.

Lemma length_partials acc zs : length (partials acc zs) = length zs.
Proof. revert acc. induction zs as [|z zs IH]; intros acc; [done|]. simpl. by rewrite IH. Qed.

(** Walking back with the inverse of the whole product inverts every element. *)
Lemma batch_walk_back_eq acc zs inverse : inverse * foldl fq_mul acc zs = fq_one →
  rev (batch_walk_back inverse (rev (zip zs (partials acc zs)))) = fq_inv <$> zs.
Proof.
  revert inverse. induction zs as [|z zs IH] using rev_ind; intros inverse Hinv; [done|].
  rewrite partials_snoc, zip_with_app, rev_app_distr by (by rewrite length_partials). cbn [zip_with rev app batch_walk_back].
  rewrite foldl_snoc in Hinv. rewrite fmap_app, IH; cycle 1.
  { rewrite <- (assoc_L fq_mul), (comm_L fq_mul z). exact Hinv. }
  f_equal. cbn [fmap list_fmap]. f_equal. unfold fq_inv. rewrite (fq_inverse_unique z (inverse * foldl fq_mul acc zs)); [done|].
  by rewrite (comm_L fq_mul z), <- (assoc_L fq_mul).
Qed.

Lemma foldl_nonzero acc zs : acc ≠ fq_zero → Forall (λ z, z ≠ fq_zero) zs → foldl fq_mul acc zs ≠ fq_zero.
Proof. intros Hacc Hzs. revert acc Hacc. induction Hzs as [|z zs Hz Hzs IH]; intros acc Hacc; [done|]. by apply IH, fq_mul_nonzero. Qed.

(** Montgomery's trick returns, and inverts element by element. *)
Lemma batch_invert_ok zs prefix : length zs = length prefix → Forall (λ z, z ≠ fq_zero) zs →
  ∃ prefix', batch_invert zs prefix = Returns (fq_inv <$> zs, prefix').
Proof.
  intros Hlen Hzs. unfold batch_invert. rewrite (proj2 (Nat.eqb_eq _ _)) by done. simpl negb. cbv iota.
  rewrite batch_products_eq by done.
  destruct (fq_inverse_some (foldl fq_mul fq_one zs)) as (i & Hi & Hmul).
  { apply foldl_nonzero; [apply fq_one_zero|done]. }
  rewrite Hi. cbn [expect mbind outcome_bind]. rewrite batch_walk_back_eq; [by eexists|].
  by rewrite (comm_L fq_mul).
Qed.

Lemma mul_generator_eq s : mul_generator s = into_affine (affine_mul generator s).
Proof. unfold mul_generator. by rewrite batch_mul_map. Qed.

(** A lifted point carries the secret that the scalar path computes; a skipped key has none. *)
Lemma grumpkin_lift_decap sk e :
  grumpkin_decap sk e = (λ p, fq_serialize (proj_x p * fq_square (fq_inv (proj_z p)))) <$> grumpkin_lift sk e.
Proof.
  unfold grumpkin_decap, grumpkin_lift, x_coordinate. destruct (negb _); [done|].
  destruct (deserialize_compressed e) as [a|]; [|done]. cbn [mbind option_bind]. destruct (is_identity a); [done|].
  case_decide as Hz; [by rewrite jacobian_identity|].
  destruct (fq_inverse_some _ Hz) as (i & Hi & _). pose proof (jacobian_x _ i Hz Hi) as Hx.
  destruct (xy _) as [[x y]|]; [|done]. apply (inj Some) in Hx. cbn [fst] in Hx. subst x.
  assert (fq_inv (proj_z (affine_mul a sk)) = i) as Hinv by (unfold fq_inv; by rewrite Hi).
  cbn [mbind option_bind fmap option_fmap option_map]. by rewrite Hinv.
Qed.

Lemma grumpkin_lift_nonzero sk e p : grumpkin_lift sk e = Some p → proj_z p ≠ fq_zero.
Proof.
  unfold grumpkin_lift. destruct (negb _); [done|]. destruct (deserialize_compressed e) as [a|]; [|done].
  cbn [mbind option_bind]. destruct (is_identity a); [done|]. case_decide; [done|]. by intros [= <-].
Qed.

Lemma collect_valid_Forall {P SS} (Q : P → Prop) (lift : bytes → option P) i epks (out : list (option SS)) :
  (∀ e p, lift e = Some p → Q p) → Forall Q (collect_valid lift i epks out).*2.
Proof.
  intros HQ. revert i out. induction epks as [|e epks IH]; intros i [|o out]; simpl; try constructor.
  destruct (lift e) as [p|] eqn:Hp; [|by apply IH]. constructor; [by eapply HQ|apply IH].
Qed.

Lemma grumpkin_body_ok sk es os : length es = length os →
  grumpkin_batch_body sk es os = Returns (grumpkin_decap sk <$> es).
Proof.
  intros Hlen. unfold grumpkin_batch_body. set (valid := collect_valid (grumpkin_lift sk) 0 es os).
  destruct (batch_invert_ok (proj_z <$> valid.*2) (replicate (length valid) fq_zero)) as (prefix' & ->).
  { by rewrite !length_fmap, length_replicate. }
  { apply Forall_fmap, collect_valid_Forall. apply grumpkin_lift_nonzero. }
  cbn [mbind outcome_bind]. unfold mret, outcome_ret. f_equal.
  replace (zip_with _ valid _) with
    (prod_map id (λ p, fq_serialize (proj_x p * fq_square (fq_inv (proj_z p)))) <$> valid).
  - unfold valid. rewrite fill_collected by done. apply list_fmap_ext. intros _ e _. by rewrite grumpkin_lift_decap.
  - generalize valid. clear. intros valid. induction valid as [|[i p] l IH]; [done|]. rewrite fmap_cons, IH. done.
Qed.

(** The batch spends one inversion per chunk and gives every key what the scalar path gives it, the
    keys that path rejects included. *)
Theorem grumpkin_batch_is_scalar sk epks out : length epks = length out →
  grumpkin_decap_batch sk epks out = grumpkin_decap sk <$> epks ∧
  ∀ es os, length es = length os → ∃ out', grumpkin_batch_body sk es os = Returns out'.
Proof.
  intros Hlen. split; [|intros es os Hl; eexists; by apply grumpkin_body_ok].
  apply for_chunks_map; [|done]. intros es os Hl _. by rewrite grumpkin_body_ok.
Qed.

#[export] Instance grumpkin_laws : KemLaws Grumpkin.
Proof.
  split; simpl.
  - apply length_compressed.
  - intros R ? ? rng pk. unfold grumpkin_encap. destruct (random_scalar rng). apply length_compressed.
  - intros R ? ? rng sk. unfold grumpkin_encap. destruct (random_scalar rng) as [rng' e]. simpl. unfold id.
    rewrite !mul_generator_eq, mul_commutes. intros Hdeg.
    unfold grumpkin_decap. rewrite length_compressed, compressed_roundtrip. simpl.
    destruct (is_identity (into_affine (affine_mul generator e))) eqn:He.
    + apply (mul_identity _ sk), xy_identity in He. unfold x_coordinate in Hdeg. rewrite He in Hdeg. simpl in Hdeg.
      destruct Hdeg. repeat constructor.
    + unfold x_coordinate in *. destruct (xy _) as [[x y]|]; [done|]. destruct Hdeg. repeat constructor.
  - intros sk epks out Hlen. unfold grumpkin_decap_batch.
    rewrite (for_chunks_map _ (grumpkin_decap sk)); [by rewrite <- list_fmap_compose| |done].
    intros es os Hl _. by rewrite grumpkin_body_ok.
Qed.
End inversion.

(** ** A toy curve: three points over the field with five elements *)

Module ToyCurve.

Inductive F5 := f0 | f1 | f2 | f3 | f4.
#[export] Instance f5_eq_dec : EqDecision F5.
Proof. solve_decision. Defined.
Definition f5_val (x : F5) : nat := match x with f0 => 0 | f1 => 1 | f2 => 2 | f3 => 3 | f4 => 4 end.
Definition f5_of (n : nat) : F5 := match n mod 5 with 0 => f0 | 1 => f1 | 2 => f2 | 3 => f3 | _ => f4 end.
Definition f5_mul (x y : F5) : F5 := f5_of (f5_val x * f5_val y).
Definition f5_inverse (x : F5) : option F5 :=
  match x with f0 => None | f1 => Some f1 | f2 => Some f3 | f3 => Some f2 | f4 => Some f4 end.

Inductive Point := Identity | P1 | P2.
Definition point_val (p : Point) : nat := match p with Identity => 0 | P1 => 1 | P2 => 2 end.
Definition point_of (n : nat) : Point := match n mod 3 with 0 => Identity | 1 => P1 | _ => P2 end.

(** Jacobian coordinates with [Z = 2] and [Z = 3] for the two points. *)
Definition arkworks : Arkworks := {|
  Fq := F5; Fr := Point; GAffine := Point; GProjective := Point;
  fq_eq_dec := f5_eq_dec; fq_zero := f0; fq_one := f1; fq_mul := f5_mul; fq_inverse := f5_inverse;
  fq_serialize x := byte_of_N (N.of_nat (f5_val x)) :: replicate 31 x00;
  from_le_bytes_mod_order bs := point_of (N.to_nat (le_value bs mod 3));
  generator := P1;
  affine_mul a s := point_of (point_val a * point_val s);
  into_affine := id;
  batch_mul ss := (λ s, point_of (1 * point_val s)) <$> ss;
  proj_x p := match p with Identity => f1 | P1 => f4 | P2 => f3 end;
  proj_z p := match p with Identity => f0 | P1 => f2 | P2 => f3 end;
  xy p := match p with Identity => None | P1 => Some (f1, f0) | P2 => Some (f2, f0) end;
  is_identity p := match p with Identity => true | _ => false end;
  serialize_compressed p := replicate 31 x00 ++ [byte_of_N (N.of_nat (point_val p))];
  deserialize_compressed bs := match last bs with
    | Some x00 => Some Identity | Some x01 => Some P1 | Some x02 => Some P2 | _ => None end;
|}.

Lemma arkworks_laws : ArkworksLaws arkworks.
Proof.
  split; cbn.
  - by intros [] [] [].
  - by intros [] [].
  - by intros [].
  - by intros [].
  - done.
  - done.
  - intros [] Hx; try done; by eexists.
  - by intros [].
  - by intros [] [].
  - by intros [].
  - done.
  - done.
  - by intros [].
  - by intros [] [] [].
  - by intros [] [].
Qed.

#[export] Existing Instance arkworks.
#[export] Existing Instance arkworks_laws.

(** Two points, the identity, a short key and a byte string that is no point. *)
Definition keys : list bytes :=
  [serialize_compressed P1; serialize_compressed Identity; [x01]; serialize_compressed P2; replicate 32 xff].

Lemma grumpkin_batch_is_scalar_witness :
  length keys = length (replicate 5 (@None bytes)) ∧
  grumpkin_decap_batch P2 keys (replicate 5 None) =
    [Some (x02 :: replicate 31 x00); None; None; Some (x01 :: replicate 31 x00); None] ∧
  grumpkin_decap_batch P2 keys (replicate 5 None) = grumpkin_decap P2 <$> keys.
Proof.
  pose proof (grumpkin_batch_is_scalar P2 keys (replicate 5 None) eq_refl) as [Hbatch _].
  split; [reflexivity|]. split; [|exact Hbatch]. vm_compute. reflexivity.
Defined.
End ToyCurve.
