(* ===== verification/Wallet.v ===== *)
(** * The shielded wallet

    [crates/examples/examples/shielded_wallet.rs] joins two of the libraries: the pool publishes blocks
    of sealed notes, the wallet's [Source] trial-decrypts a window of them in one scan, and the driver
    folds the opened values into a balance. The theorem composes theirs: a scan is opening one by one
    ([Scan]), and the driver converges over reorganisations ([Convergence]), so the balance is the one a
    wallet would hold that scanned the current chain from its first block. *)
From S2P Require Import Prelude Kem SealedNote Seal Scan Adapters.
From S2P Require Import Position Batch Ring Checkpoint ChainError Engine EngineSpec Driver DriverSpec Convergence.
From S2P Require Import Word Scripted.
From stdpp Require Import strings.
From Stdlib Require Import Lia.

(** ** Constants and the domain *)

Definition POOL_AAD : bytes := String.list_byte_of_string "examples.shielded-pool/v1".
Definition FIRST_BLOCK : N := 1.
Definition NOTES_PER_BLOCK : nat := 3.
Definition WINDOW : N := 4.
Definition RING_CAPACITY : nat := 32.
Definition CHECKPOINT_SLOTS : nat := 4.
Definition CHECKPOINT_INTERVAL : N := 2.

(** A value in the smallest unit, eight bytes little endian. *)
Definition payments_encode (note : N) (out : bytes) : bytes * result () () := (out ++ le_bytes 8 note, Ok ()).
Definition payments_decode (bs : bytes) : result N () :=
  if length bs =? 8 then Ok (le_value bs) else Err ().

Definition Payments : Domain := {|
  Note := N;
  DomainError := ();
  DOMAIN_TAG := "examples.shielded-wallet/v1"%string;
  encode_note := payments_encode;
  decode_note := payments_decode;
  verify := verify_default;
|}.
#[export] Existing Instance Payments.

(** ** The balance *)

Definition u128_max : N := 340282366920938463463374607431768211455.
Definition u128_checked_add (a b : N) : option N := if (a + b <=? u128_max)%N then Some (a + b)%N else None.

Record Balance := MkBalance { total : N; notes : N }.

Definition balance_default : Balance := MkBalance 0 0.

(** Each [?] returns early; the total is already written when the count overflows. *)
Definition credit (self : Balance) (value : N) : Balance * option () :=
  match u128_checked_add (total self) value with
  | None => (self, None)
  | Some total =>
    match u64_checked_add (notes self) 1 with
    | None => (MkBalance total (notes self), None)
    | Some notes => (MkBalance total notes, Some ())
    end
  end.

Definition balance_apply (self : Balance) (_pos : Position) (event : N) : Balance * outcome (result () (FoldError string)) :=
  let (self, credited) := credit self event in
  (self, Returns (match credited with Some u => Ok u | None => Err (Halt "balance overflow"%string) end)).

#[export] Instance balance_fold : Fold Balance N string := balance_apply.

Section wallet.
Context `{Hkdf, Aead, Dalek}.
#[local] Existing Instance X25519.

(** ** The pool *)

Record PoolBlock := MkPoolBlock { pb_number : N; pb_hash : hash; pb_notes : list SealedNote }.

Record Pool := MkPool {
  pool_first : N;
  pool_blocks : list PoolBlock;
  pool_scanner : Scanner;
  pool_salt : N;
  scanned : N;
}.

Definition pool_new (first_block : N) (recipient : Recipient) : Pool :=
  MkPool first_block [] (scanner_new recipient) 0 0.

(** [block_hash]: every lane mixes the one before it; [splitmix64] is the function of [Scripted], which
    the example repeats. *)
Definition pool_block_hash (parent : hash) (number salt : N) : hash :=
  (foldl (λ acc lane,
    let lane := le_value lane in
    let state := splitmix64 (N.lxor acc.1 lane) in
    (state, acc.2 ++ le_bytes 8 state))
    (splitmix64 (N.lxor number salt), []) (take 4 (exact_chunks 8 parent))).2.

(** [push_block], which panics when the number or the salt overflows. *)
Definition pool_push_block (self : Pool) (notes : list SealedNote) : outcome Pool :=
  let pushed := N.of_nat (length (pool_blocks self)) in
  number ← expect (u64_checked_add (pool_first self) pushed);
  let parent := match last (pool_blocks self) with Some block => pb_hash block | None => replicate 32 x00 end in
  let hash := pool_block_hash parent number (pool_salt self) in
  salt ← expect (u64_checked_add (pool_salt self) 1);
  Returns (MkPool (pool_first self) (pool_blocks self ++ [MkPoolBlock number hash notes])
    (pool_scanner self) salt (scanned self)).

Fixpoint pool_push_all (self : Pool) (replacements : list (list SealedNote)) : outcome Pool :=
  match replacements with
  | [] => Returns self
  | notes :: replacements => self ← pool_push_block self notes; pool_push_all self replacements
  end.

Definition pool_truncate (n : nat) (self : Pool) : Pool :=
  MkPool (pool_first self) (take n (pool_blocks self)) (pool_scanner self) (pool_salt self) (scanned self).

Definition pool_reorg (self : Pool) (depth : nat) (replacements : list (list SealedNote)) : outcome Pool :=
  pool_push_all (pool_truncate (length (pool_blocks self) - depth) self) replacements.

Definition pb_ref (b : PoolBlock) : BlockRef := MkBlockRef (pb_number b) (pb_hash b).

Definition pool_header (self : Pool) (number : N) : option BlockRef :=
  if (number <? pool_first self)%N then None
  else pb_ref <$> pool_blocks self !! N.to_nat (number - pool_first self).

Definition published (self : Pool) : list SealedNote := pool_blocks self ≫= pb_notes.

(** ** The pool as a source *)

Definition set_scanner (s : Scanner) (self : Pool) : Pool :=
  MkPool (pool_first self) (pool_blocks self) s (pool_salt self) (scanned self).
Definition add_scanned (n : N) (self : Pool) : Pool :=
  MkPool (pool_first self) (pool_blocks self) (pool_scanner self) (pool_salt self)
    (u64_wrapping_add (scanned self) n).

(** An empty pool heads at the parent of its first block. *)
Definition pool_head : SM Pool Empty_set BlockRef :=
  self ← sm_get;
  mret (match last (pool_blocks self) with
        | Some block => pb_ref block
        | None => MkBlockRef (pool_first self - 1) (replicate 32 x00)
        end).

(** The envelopes of a block, each with the position it was published at; the log index has to fit. *)
Definition block_lanes (b : PoolBlock) : outcome (list ((BlockRef * N) * SealedNote)) :=
  let header := pb_ref b in
  mapM (λ ie,
    log_index ← expect (if (N.of_nat ie.1 <=? u32_max)%N then Some (N.of_nat ie.1) else None);
    Returns ((header, log_index), ie.2)) (enumerate (pb_notes b)).

(** A scan to its end. The fuel of [Scan.scan] never runs out ([Scan.scan_is_open]). *)
Definition scan_pool (s : Scanner) (envelopes : list SealedNote) :
    outcome (Scanner * list (nat * result Note MalformedT)) :=
  o ← expect (Scan.scan s envelopes POOL_AAD); o.

(** The closure that turns a hit into an event. *)
Definition hit_event (positions : list (BlockRef * N)) (hit : nat * result Note MalformedT) : outcome (entry N) :=
  '(header, log_index) ← expect (positions !! hit.1);
  note ← expect (match hit.2 with Ok note => Some note | Err _ => None end);
  Returns (header, log_index, note).

Definition pool_events_in (from to : N) : SM (Pool * list (entry N)) Empty_set () :=
  so ← sm_get;
  let window := filter (λ b, (from ≤ pb_number b ≤ to)%N) (pool_blocks so.1) in
  lanes ← sm_outcome (mapM block_lanes window);
  let positions := (mjoin lanes).*1 in
  let envelopes := (mjoin lanes).*2 in
  sm_modify (λ so, (add_scanned (N.of_nat (length envelopes)) so.1, so.2));;
  '(scanner, hits) ← sm_outcome (scan_pool (pool_scanner so.1) envelopes);
  sm_modify (λ so, (set_scanner scanner so.1, so.2));;
  entries ← sm_outcome (mapM (hit_event positions) hits);
  sm_modify (λ so, (so.1, so.2 ++ entries)).

#[export] Instance pool_source : Source Pool N Empty_set := {|
  source_head := pool_head;
  header_at n := self ← sm_get; mret (pool_header self n);
  events_in := pool_events_in;
  horizon _ := Genesis;
  window _ := WINDOW;
|}.

(** ** Publishing *)

Section publishing.
Context {R : Type} `{CryptoRng R}.

(** [note]: the generator moves on, and a note that does not seal panics. *)
Definition seal_note (pk : XPublicKey) (value : N) : SM R Empty_set SealedNote := λ rng,
  let '(rng, sealed) := Seal.seal (pk : PublicKey) value POOL_AAD rng in
  (rng, r ← sealed; match r with Ok n => Returns (Ok n) | Err _ => Panics end).

Definition block_notes (wallet : XPublicKey) (strangers : list XPublicKey) (mine : nat) (tag : N) :
    SM R Empty_set (list SealedNote) :=
  mapM (λ slot,
    let value := u64_wrapping_add tag (N.of_nat slot) in
    if slot =? mine then seal_note wallet value else
    stranger ← sm_expect (strangers !! (slot mod length strangers));
    seal_note stranger value) (seq 0 NOTES_PER_BLOCK).

(** [extend]: the loop over the blocks, with the pool and the generator. *)
Definition extend (wallet : XPublicKey) (strangers : list XPublicKey) (blocks : nat) (tag : N) :
    SM (Pool * R) Empty_set () :=
  sm_for (seq 0 blocks) (λ block,
    notes ← sm_zoom (λ pr, Some pr.2) (λ rng pr, (pr.1, rng))
      (block_notes wallet strangers (block mod NOTES_PER_BLOCK)
        (u64_wrapping_add tag (u64_wrapping_mul (N.of_nat block) 10)));
    pr ← sm_get;
    pool ← sm_outcome (pool_push_block pr.1 notes);
    sm_modify (λ pr, (pool, pr.2))).
End publishing.

(** ** The wallet *)

(** The driver that [main] builds. *)
Definition wallet_driver (pool : Pool) : result (Driver Balance N Pool NoSink) ConfigError :=
  build balance_default pool () (MkEngineConfig RING_CAPACITY CHECKPOINT_SLOTS)
    (let c := from_block FIRST_BLOCK in
     MkDriverConfig (start_block c) (poll_interval c) (backoff_base c) (backoff_max c)
       (Some CHECKPOINT_INTERVAL) None).

(** [sync]: the recoveries it printed; [None] when the fuel runs out. *)
Fixpoint sync (fuel : nat) (driver : Driver Balance N Pool NoSink) (printed : list (option Position)) :
    option (Driver Balance N Pool NoSink * outcome (list (option Position))) :=
  match fuel with
  | O => None
  | S fuel =>
    let '(driver, t) := tick driver in
    match t with
    | Returns (Ok Idle) => Some (driver, Returns printed)
    | Returns (Ok (Progressed _)) => sync fuel driver printed
    | Returns (Ok (RolledBack to)) => sync fuel driver (printed ++ [to])
    | _ => Some (driver, Panics)
    end
  end.

Definition credit_hit (balance : Balance) (hit : nat * result Note MalformedT) : outcome Balance :=
  note ← expect (match hit.2 with Ok note => Some note | Err _ => None end);
  let (balance, credited) := credit balance note in
  _ ← expect credited;
  Returns balance.

Fixpoint credit_all (balance : Balance) (hits : list (nat * result Note MalformedT)) : outcome Balance :=
  match hits with
  | [] => Returns balance
  | hit :: hits => balance ← credit_hit balance hit; credit_all balance hits
  end.

(** The balance of a fresh scanner over every published envelope, in block order. *)
Definition rescan (pool : Pool) (sk : StaticSecret) : outcome Balance :=
  let scanner := scanner_new (recipient_new sk) in
  '(_, hits) ← scan_pool scanner (published pool);
  credit_all balance_default hits.
End wallet.

(** ** What a pool says to a key *)

Section reading.
Context `{Hkdf, Aead, Dalek} `{!HkdfLaws _, !AeadLaws _, !DalekLaws _}.
#[local] Existing Instance X25519.
Context (k : StaticSecret).
Implicit Types (p : Pool) (b : PoolBlock) (n : SealedNote).

(** What opening an envelope gives: nothing, a value, or a note that is addressed to the key and does
    not open. *)
Definition reading n : option (result Note MalformedT) := snd <$> trial (recipient_new k) POOL_AAD (0, n).
Definition value_of n : option N := match reading n with Some (Ok v) => Some v | _ => None end.
Definition readable n : Prop := ∀ e, reading n ≠ Some (Err e).

Lemma trial_reading i n : trial (recipient_new k) POOL_AAD (i, n) = pair i <$> reading n.
Proof.
  unfold reading, trial. cbn [fst snd]. destruct (open _ n POOL_AAD) as [[[v|]|e]|]; done.
Qed.

Lemma pool_asserts : suite_asserts = true.
Proof. reflexivity. Qed.

(** A block as the wallet reads it: the values it opens, at their positions. *)
Definition read_notes (m : nat) (ns : list SealedNote) : list (N * N) :=
  omap (λ ie, pair (N.of_nat ie.1) <$> value_of ie.2) (zip (seq m (length ns)) ns).
Definition read_block b : ListedBlock N := MkListedBlock (pb_number b) (pb_hash b) (read_notes 0 (pb_notes b)).

Definition pool_chain p : Chain N := listed_chain (pool_first p) (read_block <$> pool_blocks p).

(** The hash a block at index [i] commits to. *)
Definition pool_parent (bs : list PoolBlock) (i : nat) : hash :=
  match last (take i bs) with Some b => pb_hash b | None => replicate 32 x00 end.

(** A pool as its own operations leave it: blocks numbered from the first on, hashed from their parent
    with a salt already spent, of parsed envelopes that [u32] can index; and a scanner for the key, with
    clean buffers. *)
Record pool_wf p : Prop := {
  pw_number i b : pool_blocks p !! i = Some b → pb_number b = (pool_first p + N.of_nat i)%N;
  pw_hash i b : pool_blocks p !! i = Some b → length (pb_hash b) = 32 ∧ ∃ salt, (salt < pool_salt p)%N ∧
    (pb_number b ≤ u64_max)%N ∧ pb_hash b = pool_block_hash (pool_parent (pool_blocks p) i) (pb_number b) salt;
  pw_notes b : b ∈ pool_blocks p → Forall (λ n, wire (as_bytes n)) (pb_notes b) ∧
    (N.of_nat (length (pb_notes b)) ≤ u32_max + 1)%N;
  pw_salt : (pool_salt p ≤ u64_max)%N;
  pw_recipient : recipient (pool_scanner p) = recipient_new k;
  pw_clean : clean (buffers (pool_scanner p));
}.

(** Below the top of the number range, with a block. *)
Definition published_below p : Prop :=
  (pool_first p + N.of_nat (length (pool_blocks p)) ≤ u64_max)%N ∧ pool_blocks p ≠ [].

(** ** Lemmas: the positions of a block *)

Lemma read_notes_cons m n ns :
  read_notes m (n :: ns) = (match value_of n with Some v => [(N.of_nat m, v)] | None => [] end) ++ read_notes (S m) ns.
Proof. unfold read_notes. simpl. by destruct (value_of n). Qed.

Lemma read_notes_ascending m ns :
  ascending (read_notes m ns).*1 ∧ Forall (λ i, N.of_nat m ≤ i)%N (read_notes m ns).*1.
Proof.
  revert m. induction ns as [|n ns IH]; intros m; [split; constructor|]. rewrite read_notes_cons, fmap_app.
  destruct (IH (S m)) as [Ha Hb]. assert (Forall (λ i, N.of_nat m < i)%N (read_notes (S m) ns).*1) as Hlt.
  { eapply Forall_impl; [exact Hb|]. intros i Hi. simpl in Hi. lia. }
  destruct (value_of n); simpl.
  - split; [by constructor|]. constructor; [done|]. eapply Forall_impl; [exact Hlt|]. simpl. lia.
  - split; [done|]. eapply Forall_impl; [exact Hlt|]. simpl. lia.
Qed.

Lemma read_notes_values m ns : (read_notes m ns).*2 = omap value_of ns.
Proof.
  revert m. induction ns as [|n ns IH]; intros m; [done|]. rewrite read_notes_cons, fmap_app, IH. simpl.
  by destruct (value_of n).
Qed.

Lemma pool_listed p : pool_wf p → published_below p → listed (pool_first p) (read_block <$> pool_blocks p).
Proof.
  intros Hp [Hroom _]. split.
  - intros i b Hb. rewrite list_lookup_fmap in Hb. destruct (pool_blocks p !! i) as [b0|] eqn:Hb0; [|done].
    injection Hb as <-. by apply (pw_number p Hp).
  - intros b (b0 & -> & _)%list_elem_of_fmap. apply read_notes_ascending.
  - by rewrite length_fmap.
Qed.

(** ** Lemmas: the range of a query *)

Lemma window_slice first (bs : list PoolBlock) lo hi :
  (∀ i b, bs !! i = Some b → pb_number b = (first + N.of_nat i)%N) →
  filter (λ b, (lo ≤ pb_number b ≤ hi)%N) bs =
  slice (N.to_nat (lo - first)) (N.to_nat (hi + 1 - N.max lo first)) bs.
Proof.
  unfold slice. revert first. induction bs as [|b bs IH]; intros first Hn; [by rewrite drop_nil, take_nil|].
  pose proof (Hn 0 b eq_refl) as Hb. simpl in Hb. rewrite N.add_0_r in Hb.
  specialize (IH (first + 1)%N ltac:(intros i b' Hb'; specialize (Hn (S i) b' Hb'); lia)).
  rewrite filter_cons, IH. clear IH. case_decide as Hd.
  - replace (N.to_nat (lo - first)) with 0 by lia. replace (N.to_nat (lo - (first + 1))) with 0 by lia.
    replace (N.to_nat (hi + 1 - N.max lo first)) with (S (N.to_nat (hi + 1 - N.max lo (first + 1)))) by lia. done.
  - destruct (N.lt_ge_cases first lo) as [Hlo|Hlo].
    + replace (N.to_nat (lo - first)) with (S (N.to_nat (lo - (first + 1)))) by lia. cbn [drop]. do 2 f_equal. lia.
    + replace (N.to_nat (hi + 1 - N.max lo (first + 1))) with 0 by lia.
      replace (N.to_nat (hi + 1 - N.max lo first)) with 0 by lia. done.
Qed.

(** The lanes of a block. *)
Definition lanes_of b : list ((BlockRef * N) * SealedNote) :=
  (λ ie, ((pb_ref b, N.of_nat ie.1), ie.2)) <$> enumerate (pb_notes b).

Lemma block_lanes_ok b : (N.of_nat (length (pb_notes b)) ≤ u32_max + 1)%N → block_lanes b = Returns (lanes_of b).
Proof.
  intros Hlen. unfold block_lanes, lanes_of. cbn zeta. apply mapM_returns, Forall_forall. intros [i n] Hin.
  apply elem_of_zip_l in Hin. apply elem_of_seq in Hin. cbn [fst].
  rewrite (proj2 (N.leb_le _ _)) by (unfold u32_max in *; lia). done.
Qed.

(** The event a lane gives. *)
Definition lane_event (l : (BlockRef * N) * SealedNote) : option (entry N) := pair l.1 <$> value_of l.2.

Lemma lanes_entries b : omap lane_event (lanes_of b) = lb_entries (read_block b).
Proof.
  unfold lanes_of, lb_entries, enumerate. cbn [read_block lb_logs]. unfold read_notes.
  change (lb_ref (read_block b)) with (pb_ref b). generalize (seq 0 (length (pb_notes b))). generalize (pb_notes b).
  intros ns. induction ns as [|n ns IH]; intros [|j js]; [done..|]. specialize (IH js).
  cbn [zip zip_with fmap list_fmap omap list_omap] in *. unfold lane_event at 1. cbn [fst snd].
  destruct (value_of n) as [v|]; [exact (f_equal (cons (pb_ref b, N.of_nat j, v)) IH)|exact IH].
Qed.

Lemma lanes_notes b : (lanes_of b).*2 = pb_notes b.
Proof.
  unfold lanes_of, enumerate. rewrite <- list_fmap_compose. apply (snd_zip (seq 0 (length (pb_notes b))) (pb_notes b)).
  by rewrite length_seq.
Qed.

(** ** Lemmas: the pool is an honest source *)

Lemma sm_outcome_bind {S E A B} (a : A) (f : A → SM S E B) s : (sm_outcome (Returns a) ≫= f) s = f a s.
Proof. done. Qed.

Lemma hit_event_at positions i pos (v : Note) :
  positions !! i = Some pos → hit_event positions (i, Ok v) = Returns (pos, v).
Proof. intros Hpos. unfold hit_event. cbn [fst snd]. rewrite Hpos. by destruct pos. Qed.

Lemma hits_events (pre L : list ((BlockRef * N) * SealedNote)) :
  Forall readable L.*2 →
  mapM (hit_event (pre ++ L).*1)
    (omap (trial (recipient_new k) POOL_AAD) (imap (λ i n, (length pre + i, n)) L.*2)) = Returns (omap lane_event L).
Proof.
  revert pre. induction L as [|[pos n] L IH]; intros pre Hr; [done|]. rewrite fmap_cons in Hr |- *.
  apply Forall_cons in Hr as [Hn Hr]. specialize (IH (pre ++ [(pos, n)]) Hr). rewrite <- app_assoc in IH.
  cbn [app] in IH. rewrite length_app in IH. change (length [(pos, n)]) with 1 in IH.
  rewrite (imap_ext (λ i m, (length pre + 1 + i, m)) (λ i m, (length pre + S i, m))) in IH by (intros i m _; rewrite <- Nat.add_assoc; done).
  cbn [snd imap omap list_omap]. unfold compose. rewrite Nat.add_0_r, trial_reading.
  assert (((pre ++ (pos, n) :: L).*1) !! length pre = Some pos) as Hpos.
  { rewrite list_lookup_fmap, lookup_app_r, Nat.sub_diag by lia. done. }
  unfold lane_event at 1, value_of. cbn [fst snd]. destruct (reading n) as [[v|e]|] eqn:Hread; [|by destruct (Hn e)|exact IH].
  cbn [fmap option_fmap option_map mapM]. rewrite (hit_event_at _ _ pos v Hpos). cbn [mbind outcome_bind].
  cbn [omap list_omap] in IH. by rewrite IH.
Qed.

Lemma scan_pool_ok s es :
  recipient s = recipient_new k → clean (buffers s) → Forall (λ n, wire (as_bytes n)) es →
  ∃ s', scan_pool s es = Returns (s', omap (trial (recipient_new k) POOL_AAD) (enumerated es)) ∧
    recipient s' = recipient_new k ∧ clean (buffers s').
Proof.
  intros Hr Hc Hes. destruct (scan_ok (H1 := X25519) k s es POOL_AAD pool_asserts Hes Hr Hc) as (s' & Hscan & Hr' & Hc').
  exists s'. unfold scan_pool. rewrite Hscan, Hr. split_and!; [done|congruence|done].
Qed.

(** A pool seen through a scanner that moved. *)
Definition viewed p s : Prop :=
  pool_first s = pool_first p ∧ pool_blocks s = pool_blocks p ∧ pool_salt s = pool_salt p ∧
  recipient (pool_scanner s) = recipient_new k ∧ clean (buffers (pool_scanner s)).

Lemma viewed_self p : pool_wf p → viewed p p.
Proof. intros []. by split_and!. Qed.

Lemma viewed_wf p s : viewed p s → pool_wf p → pool_wf s.
Proof. intros (Hf & Hb & Hsalt & Hr & Hc) []. split; rewrite ?Hf, ?Hb, ?Hsalt; done. Qed.

(** The notes of some blocks of a pool. *)
Lemma slice_notes (P : SealedNote → Prop) p o m :
  Forall P (published p) → Forall P (slice o m (pool_blocks p) ≫= pb_notes).
Proof.
  rewrite !Forall_forall. intros H0' n (b & Hn & Hb)%list_elem_of_bind. apply H0', list_elem_of_bind. exists b.
  split; [done|]. by eapply elem_of_slice.
Qed.

Lemma published_wire p : pool_wf p → Forall (λ n, wire (as_bytes n)) (published p).
Proof.
  intros Hp. apply Forall_forall. intros n (b & Hn & Hb)%list_elem_of_bind.
  destruct (pw_notes p Hp b Hb) as [Hw _]. rewrite Forall_forall in Hw. by apply Hw.
Qed.

Lemma lanes_join (bs : list PoolBlock) :
  (mjoin (lanes_of <$> bs)).*2 = bs ≫= pb_notes ∧
  omap lane_event (mjoin (lanes_of <$> bs)) = (read_block <$> bs) ≫= lb_entries.
Proof.
  induction bs as [|b bs [IH1 IH2]]; [done|]. rewrite !fmap_cons, mjoin_cons, fmap_app, omap_app, !bind_cons.
  by rewrite IH1, IH2, lanes_notes, lanes_entries.
Qed.

Lemma pool_honest p :
  pool_wf p → published_below p → Forall readable (published p) → honest (pool_chain p) (viewed p).
Proof.
  intros Hp Hbelow Hread. pose proof (pool_listed p Hp Hbelow) as Hl. destruct Hbelow as [Hroom Hne].
  assert (read_block <$> pool_blocks p ≠ []) as Hne' by by intros ?%fmap_nil_inv.
  split.
  - intros s Hs. exists s. split; [|done]. destruct Hs as (Hf & Hb & _). unfold runs_to. cbn [source_head pool_source].
    unfold pool_head. rewrite sm_get_bind, Hb. pose proof (listed_tip _ _ Hl Hne') as Htip.
    rewrite fmap_last in Htip. destruct (last (pool_blocks p)) as [b|]; [|done]. apply (inj Some) in Htip.
    unfold pool_chain. by rewrite <- Htip.
  - intros s n Hs Hn. exists s. split; [|done]. destruct Hs as (Hf & Hb & _). unfold runs_to. cbn [header_at pool_source].
    rewrite sm_get_bind. unfold pool_header. rewrite Hf, Hb. cbn [pool_chain ch_first listed_chain] in Hn.
    rewrite (proj2 (N.ltb_ge _ _)) by done. unfold pool_chain. rewrite <- listed_header by done.
    rewrite list_lookup_fmap. by destruct (pool_blocks p !! _).
  - intros s out lo hi Hs Hlo Hhi. pose proof Hs as (Hf & Hb & Hsalt & Hr & Hc).
    set (bs := slice (N.to_nat (lo - pool_first p)) (N.to_nat (hi + 1 - lo)) (pool_blocks p)).
    destruct (lanes_join bs) as [Hnotes Hevents].
    destruct (scan_pool_ok (pool_scanner s) (bs ≫= pb_notes) Hr Hc) as (sc & Hscan & Hrs & Hcs);
      [by apply slice_notes, published_wire|].
    exists (set_scanner sc (add_scanned (N.of_nat (length (bs ≫= pb_notes))) s)), (DriverSpec.between (pool_chain p) lo hi).
    unfold runs_to. cbn [events_in pool_source]. unfold pool_events_in. rewrite sm_get_bind. cbn [fst].
    rewrite Hb, (window_slice (pool_first p)) by apply Hp.
    cbn [pool_chain ch_first listed_chain] in Hlo. rewrite N.max_l by lia. fold bs.
    rewrite (mapM_returns _ lanes_of).
    2: { apply Forall_forall. intros b Hin. apply block_lanes_ok. eapply pw_notes; [exact Hp|]. by eapply elem_of_slice. }
    pose proof (hits_events [] (mjoin (lanes_of <$> bs))) as Hhits. rewrite Hnotes in Hhits.
    specialize (Hhits (slice_notes _ _ _ _ Hread)). cbn [app length Nat.add] in Hhits.
    rewrite sm_outcome_bind, Hnotes, sm_modify_bind, Hscan, sm_outcome_bind, sm_modify_bind.
    unfold enumerated in *. change (imap pair (bs ≫= pb_notes)) with (imap (λ i n, (i, n)) (bs ≫= pb_notes)).
    rewrite Hhits, sm_outcome_bind, Hevents.
    split_and!; try done. unfold pool_chain. rewrite listed_between by done. by rewrite slice_fmap.
Qed.

(** ** Lemmas: scanning anew is folding the chain *)

Lemma credit_hits m ns (b0 b : Balance) :
  credit_all b0 (omap (trial (recipient_new k) POOL_AAD) (imap (λ i n, (m + i, n)) ns)) = Returns b →
  Forall readable ns ∧ ∀ (L : list (entry N)) c a s, L.*2 = omap value_of ns →
    ∃ q a', run b0 c a s (positioned <$> L) = (b, q, a', s, @Done string).
Proof.
  revert m b0. induction ns as [|n ns IH]; intros m b0.
  { cbn. intros [= <-]. split; [constructor|]. intros [|x L] c a s HL; [|done]. by exists c, a. }
  cbn [imap omap list_omap]. unfold compose. rewrite Nat.add_0_r, trial_reading.
  rewrite (imap_ext (λ i x, (m + S i, x)) (λ i x, (S m + i, x))) by (intros i x _; by rewrite Nat.add_succ_r).
  unfold value_of at 1. destruct (reading n) as [[v|e]|] eqn:Hread; cbn [fmap option_fmap option_map]; [|done|].
  2: { intros [Hr Hrun]%IH. split; [|exact Hrun]. constructor; [|done]. intros e. by rewrite Hread. }
  cbn [credit_all]. unfold credit_hit at 1. cbn [snd expect mbind outcome_bind].
  destruct (credit b0 v) as [b1 [[]|]] eqn:Hc; cbn [expect mbind outcome_bind]; [|done].
  intros [Hr Hrun]%IH. split; [constructor; [|done]; intros e; by rewrite Hread|].
  intros [|[h ev] L] c a s HL; [done|]. rewrite fmap_cons in HL. injection HL as -> HL.
  rewrite fmap_cons. unfold positioned at 1. cbn [run snd fold_apply]. unfold fold_apply, balance_fold, balance_apply. rewrite Hc. by apply Hrun.
Qed.

Lemma read_values (bs : list PoolBlock) :
  ((read_block <$> bs) ≫= lb_entries).*2 = omap value_of (bs ≫= pb_notes).
Proof.
  induction bs as [|b bs IH]; [done|]. rewrite fmap_cons, !bind_cons, fmap_app, omap_app, IH. f_equal.
  unfold lb_entries. rewrite <- list_fmap_compose, <- (read_notes_values 0). done.
Qed.

(** Every event of the chain. *)
Lemma chain_events p :
  pool_wf p → published_below p →
  DriverSpec.between (pool_chain p) (pool_first p) (ch_head (pool_chain p)) = (read_block <$> pool_blocks p) ≫= lb_entries.
Proof.
  intros Hp Hbelow. pose proof (pool_listed p Hp Hbelow) as Hl. destruct Hbelow as [_ Hne]. unfold pool_chain.
  rewrite listed_between by (try done; try (by intros ?%fmap_nil_inv);
    cbn [ch_head listed_chain]; rewrite length_fmap; destruct (pool_blocks p); simpl in *; (done || lia)).
  cbn [ch_head listed_chain]. rewrite N.sub_diag. unfold slice. change (N.to_nat 0) with 0. rewrite drop_0.
  rewrite take_ge; [done|]. rewrite length_fmap. lia.
Qed.

Lemma rescan_run p (b : Balance) :
  pool_wf p → published_below p → rescan p k = Returns b →
  Forall readable (published p) ∧ ∃ q a, run balance_default None 0 0
    (positioned <$> DriverSpec.between (pool_chain p) (pool_first p) (ch_head (pool_chain p))) = (b, q, a, 0%N, Done).
Proof.
  intros Hp Hbelow. unfold rescan. cbn zeta.
  destruct (scan_pool_ok (scanner_new (recipient_new (H := X25519) k)) (published p)) as (s' & -> & _); [done|done|by apply published_wire|].
  cbn [mbind outcome_bind]. unfold enumerated. intros [Hr Hrun]%(credit_hits 0). split; [done|].
  apply Hrun. rewrite chain_events by done. apply read_values.
Qed.

(** Rescanning reads the blocks only. *)
Lemma rescan_blocks p p' : pool_blocks p' = pool_blocks p → rescan p' k = rescan p k.
Proof. unfold rescan, published. by intros ->. Qed.

(** ** Lemmas: block hashes *)

Lemma pool_hash_lanes (parent : hash) :
  length parent = 32 → ∃ l0 l1 l2 l3 : bytes,
    exact_chunks 8 parent = [l0; l1; l2; l3] ∧ length l0 = 8.
Proof.
  intros Hlen. unfold exact_chunks. rewrite Hlen. change (32 / 8) with 4. do 4 eexists. split; [reflexivity|].
  unfold slice. rewrite length_take, length_drop. lia.
Qed.

(** The fold over four lanes, for any mixing step. *)
Lemma lanes_fold (mix : N → N) (enc : N → bytes) (dec : bytes → N) x l0 l1 l2 l3 :
  ∃ s1 s2 s3, (foldl (λ acc lane, let lane := dec lane in let state := mix (N.lxor acc.1 lane) in
    (state, acc.2 ++ enc state)) (x, []) [l0; l1; l2; l3]).2 =
    enc (mix (N.lxor x (dec l0))) ++ enc s1 ++ enc s2 ++ enc s3.
Proof. do 3 eexists. cbn. rewrite <- !app_assoc. reflexivity. Qed.

(** The first lane of a hash, and the three that follow it. *)
Lemma pool_hash_head (parent : hash) (number : N) :
  length parent = 32 → ∃ l0 : bytes, length l0 = 8 ∧ ∀ salt, ∃ s1 s2 s3,
    pool_block_hash parent number salt =
      le_bytes 8 (splitmix64 (N.lxor (splitmix64 (N.lxor number salt)) (le_value l0))) ++
      le_bytes 8 s1 ++ le_bytes 8 s2 ++ le_bytes 8 s3.
Proof.
  intros Hlen. destruct (pool_hash_lanes parent Hlen) as (l0 & l1 & l2 & l3 & Heq & Hl0). exists l0. split; [done|].
  intros salt. destruct (lanes_fold splitmix64 (le_bytes 8) le_value (splitmix64 (N.lxor number salt)) l0 l1 l2 l3)
    as (s1 & s2 & s3 & Hf). exists s1, s2, s3. unfold pool_block_hash. rewrite Heq.
  change (take 4 [l0; l1; l2; l3]) with [l0; l1; l2; l3]. exact Hf.
Qed.

Lemma length_pool_block_hash parent number salt : length parent = 32 → length (pool_block_hash parent number salt) = 32.
Proof.
  intros Hlen. destruct (pool_hash_head parent number Hlen) as (l0 & _ & Hs). destruct (Hs salt) as (s1 & s2 & s3 & ->).
  by rewrite !length_app, !length_le_bytes.
Qed.

(** Blocks with the same parent and number but different salts have different hashes. *)
Lemma pool_block_hash_salt parent (n s s' : N) :
  length parent = 32 → (n ≤ u64_max)%N → (s ≤ u64_max)%N → (s' ≤ u64_max)%N →
  pool_block_hash parent n s = pool_block_hash parent n s' → s = s'.
Proof.
  intros Hlen Hn Hs Hs'. destruct (pool_hash_head parent n Hlen) as (l0 & Hl0 & Hh).
  destruct (Hh s) as (s1 & s2 & s3 & ->), (Hh s') as (s1' & s2' & s3' & ->). intros Heq.
  apply app_inj_1 in Heq as [Heq _]; [|by rewrite !length_le_bytes]. apply (f_equal le_value) in Heq.
  rewrite !le_value_bytes_small in Heq by apply splitmix64_bound.
  assert (∀ x y, (x < u64_modulus)%N → (y < u64_modulus)%N → (N.lxor x y < u64_modulus)%N) as Hx.
  { intros x y Hx Hy. apply is_word_bits. intros i Hi. rewrite N.lxor_spec, !testbit_word by done. done. }
  assert (∀ x, (x ≤ u64_max)%N → (x < u64_modulus)%N) as Hm by (unfold u64_max, u64_modulus; lia).
  assert (le_value l0 < u64_modulus)%N as Hv.
  { eapply N.lt_le_trans; [apply le_value_bound|]. by rewrite Hl0. }
  apply splitmix64_inj in Heq; [|apply Hx; [apply splitmix64_bound|done]..].
  apply (f_equal (λ x, N.lxor x (le_value l0))) in Heq.
  rewrite !N.lxor_assoc, !N.lxor_nilpotent, !N.lxor_0_r in Heq.
  apply splitmix64_inj in Heq; [|by apply Hx; apply Hm..]. apply (f_equal (N.lxor n)) in Heq.
  by rewrite <- !N.lxor_assoc, N.lxor_nilpotent, !N.lxor_0_l in Heq.
Qed.

(** ** Lemmas: reorganisations *)

(** Notes a block can carry. *)
Definition publishable (ns : list SealedNote) : Prop :=
  Forall (λ n, wire (as_bytes n)) ns ∧ (N.of_nat (length ns) ≤ u32_max + 1)%N.

Lemma pool_parent_app bs tl i : i ≤ length bs → pool_parent (bs ++ tl) i = pool_parent bs i.
Proof. intros Hi. unfold pool_parent. by rewrite take_app_le. Qed.

Lemma length_pool_parent p i : pool_wf p → i ≤ length (pool_blocks p) → length (pool_parent (pool_blocks p) i) = 32.
Proof.
  intros Hp Hi. unfold pool_parent. rewrite last_lookup, length_take.
  destruct (take i (pool_blocks p) !! _) as [b|] eqn:Hb; [|done].
  apply lookup_take_Some in Hb as [Hb _]. by destruct (pw_hash p Hp _ b Hb).
Qed.

(** The block that is pushed next. *)
Definition pushed_block p ns : PoolBlock :=
  let number := (pool_first p + N.of_nat (length (pool_blocks p)))%N in
  MkPoolBlock number (pool_block_hash (pool_parent (pool_blocks p) (length (pool_blocks p))) number (pool_salt p)) ns.

Lemma pool_push_spec p ns p' :
  pool_wf p → publishable ns → pool_push_block p ns = Returns p' →
  pool_wf p' ∧ pool_first p' = pool_first p ∧ pool_blocks p' = pool_blocks p ++ [pushed_block p ns] ∧
  (pb_number (pushed_block p ns) ≤ u64_max)%N.
Proof.
  intros Hp [Hns1 Hns2]. pose proof Hp as [Hn Hh Hnotes Hs Hr Hc]. unfold pool_push_block, u64_checked_add. cbn zeta.
  destruct (pool_first p + N.of_nat (length (pool_blocks p)) <=? u64_max)%N eqn:Hroom; [|done].
  destruct (pool_salt p + 1 <=? u64_max)%N eqn:Hsalt; [|done]. nbool. cbn [expect mbind outcome_bind].
  assert (match last (pool_blocks p) with Some b => pb_hash b | None => replicate 32 x00 end =
    pool_parent (pool_blocks p) (length (pool_blocks p))) as -> by (unfold pool_parent; by rewrite take_ge).
  intros [= <-]. cbn [pool_blocks pool_first]. fold (pushed_block p ns). split; [|done].
  split; cbn [pool_blocks pool_first pool_salt pool_scanner]; try done.
  - intros i b [[_ Hb]|[-> <-]]%lookup_snoc_Some; [by apply Hn|done].
  - intros i b [[Hi Hb]|[-> <-]]%lookup_snoc_Some; rewrite pool_parent_app by lia.
    + destruct (Hh i b Hb) as (Hl & salt & ? & ? & ?). split; [done|]. exists salt. split_and!; [lia|done..].
    + split; [by apply length_pool_block_hash, length_pool_parent|]. exists (pool_salt p). split_and!; [lia|done..].
  - intros b [Hb| ->%list_elem_of_singleton]%elem_of_app; [by apply Hnotes|done].
Qed.

Lemma pool_push_all_spec nss p p' :
  pool_wf p → Forall publishable nss → pool_push_all p nss = Returns p' →
  pool_wf p' ∧ pool_first p' = pool_first p ∧
  ∃ new, pool_blocks p' = pool_blocks p ++ new ∧ pb_notes <$> new = nss ∧
    ∀ b, new !! 0 = Some b → pb_hash b = pb_hash (pushed_block p (pb_notes b)).
Proof.
  intros Hp Hnss. revert p Hp. induction Hnss as [|ns nss Hns _ IH]; intros p Hp Hpush; cbn [pool_push_all] in Hpush.
  { injection Hpush as <-. split_and!; try done. exists []. by rewrite app_nil_r. }
  destruct (pool_push_block p ns) as [p1|] eqn:Hone; [|done].
  destruct (pool_push_spec p ns p1 Hp Hns Hone) as (Hp1 & Hf1 & Hb1 & _).
  destruct (IH p1 Hp1 Hpush) as (Hp' & Hf' & new & Hb' & Hnew & _).
  split; [done|]. split; [congruence|]. exists (pushed_block p ns :: new). rewrite Hb', Hb1, <- app_assoc.
  split; [done|]. split; [by rewrite fmap_cons, Hnew|]. by intros b [= <-].
Qed.

Lemma pool_truncate_wf p m : pool_wf p → pool_wf (pool_truncate m p).
Proof.
  intros [Hn Hh Hl Hs Hr Hc]. split; cbn [pool_truncate pool_blocks pool_first pool_salt pool_scanner]; try done.
  - intros i b [Hb _]%lookup_take_Some. by apply Hn.
  - intros i b [Hb Hi]%lookup_take_Some. destruct (Hh i b Hb) as (Hlen & salt & ? & ? & Heq). split; [done|].
    exists salt. split_and!; try done. rewrite Heq. unfold pool_parent. by rewrite take_take, Nat.min_l by lia.
  - intros b Hb. apply Hl. rewrite <- (take_drop m (pool_blocks p)). apply elem_of_app. by left.
Qed.

(** What a reorganisation leaves: the blocks below the cut, the replacements, and another hash at the cut. *)
Lemma pool_reorg_spec p depth nss p' :
  let keep := length (pool_blocks p) - depth in
  pool_wf p → Forall publishable nss → pool_reorg p depth nss = Returns p' →
  pool_wf p' ∧ pool_first p' = pool_first p ∧ length (pool_blocks p') = keep + length nss ∧
  take keep (pool_blocks p') = take keep (pool_blocks p) ∧
  ∀ b b', pool_blocks p !! keep = Some b → pool_blocks p' !! keep = Some b' → pb_hash b ≠ pb_hash b'.
Proof.
  intros keep Hp Hnss Hr. assert (keep ≤ length (pool_blocks p)) as Hk by lia.
  destruct (pool_push_all_spec nss (pool_truncate keep p) p') as (Hp' & Hf' & new & Hb' & Hnew & Hhd);
    [by apply pool_truncate_wf|done|exact Hr|]. cbn [pool_truncate pool_blocks pool_first] in Hb', Hf'.
  assert (length (take keep (pool_blocks p)) = keep) as Hlen by (rewrite length_take; lia).
  split; [done|]. split; [done|]. split; [rewrite Hb', length_app, Hlen; f_equal; by rewrite <- Hnew, length_fmap|].
  split; [by rewrite Hb', take_app_length'|]. intros b b' Hb Hb'0 Heq.
  assert (new !! 0 = Some b') as Hnew0.
  { rewrite Hb', lookup_app_r, Hlen, Nat.sub_diag in Hb'0 by lia. done. }
  rewrite (Hhd b' Hnew0) in Heq. unfold pushed_block in Heq.
  cbn [pb_hash pool_truncate pool_blocks pool_first pool_salt] in Heq. rewrite Hlen in Heq.
  destruct (pw_hash p Hp keep b Hb) as (_ & salt & Hsalt & Hn & Hh). pose proof (pw_salt p Hp).
  rewrite Hh, (pw_number p Hp keep b Hb) in Heq. rewrite (pw_number p Hp keep b Hb) in Hn.
  unfold pool_parent at 2 in Heq. rewrite take_take, Nat.min_id in Heq. fold (pool_parent (pool_blocks p) keep) in Heq.
  apply pool_block_hash_salt in Heq; [lia|by apply length_pool_parent|lia..].
Qed.

(** ** Lemmas: the chains of a pool *)

Lemma pool_chain_at p i b :
  pool_blocks p !! i = Some b → ch_hash (pool_chain p) (pool_first p + N.of_nat i) = pb_hash b ∧
    ch_logs (pool_chain p) (pool_first p + N.of_nat i) = read_notes 0 (pb_notes b).
Proof.
  intros Hb. cbn [ch_hash ch_logs pool_chain listed_chain]. rewrite (proj2 (N.leb_le _ _)) by lia.
  replace (N.to_nat (pool_first p + N.of_nat i - pool_first p)) with i by lia. by rewrite list_lookup_fmap, Hb.
Qed.

(** Pools with the same first blocks and different hashes above have chains that commit. *)
Lemma pool_commits p1 p2 m :
  pool_first p2 = pool_first p1 → pool_blocks p1 ≠ [] → pool_blocks p2 ≠ [] →
  take m (pool_blocks p1) = take m (pool_blocks p2) →
  (∀ i b1 b2, m ≤ i → pool_blocks p1 !! i = Some b1 → pool_blocks p2 !! i = Some b2 → pb_hash b1 ≠ pb_hash b2) →
  commits (pool_first p1) (pool_chain p1) (pool_chain p2).
Proof.
  intros Hf Hne1 Hne2 Htake Hdiff n Hn Hn2 Heq.
  cbn [ch_head pool_chain listed_chain] in Hn, Hn2. rewrite length_fmap in Hn, Hn2.
  assert (0 < length (pool_blocks p1)) by (destruct (pool_blocks p1); [done|simpl; lia]).
  assert (0 < length (pool_blocks p2)) by (destruct (pool_blocks p2); [done|simpl; lia]).
  assert (∀ j, (pool_first p1 ≤ j ≤ n)%N → ∃ i b1 b2, j = (pool_first p1 + N.of_nat i)%N ∧
    pool_blocks p1 !! i = Some b1 ∧ pool_blocks p2 !! i = Some b2) as Hat.
  { intros j Hj. destruct (lookup_lt_is_Some_2 (pool_blocks p1) (N.to_nat (j - pool_first p1))) as [b1 Hb1]; [lia|].
    destruct (lookup_lt_is_Some_2 (pool_blocks p2) (N.to_nat (j - pool_first p1))) as [b2 Hb2]; [lia|].
    exists (N.to_nat (j - pool_first p1)), b1, b2. split_and!; [lia|done..]. }
  destruct (Hat n) as (i & b1 & b2 & Hi & Hb1 & Hb2); [lia|].
  destruct (pool_chain_at p1 i b1 Hb1) as [Hh1 _]. destruct (pool_chain_at p2 i b2 Hb2) as [Hh2 _].
  rewrite Hf in Hh2. rewrite Hi, Hh1, Hh2 in Heq.
  assert (i < m) as Him by (destruct (Nat.lt_ge_cases i m); [done|]; by destruct (Hdiff i b1 b2)).
  intros j Hj. destruct (Hat j Hj) as (i' & c1 & c2 & Hi' & Hc1 & Hc2).
  assert (c1 = c2) as <-.
  { apply (inj Some). rewrite <- Hc1, <- Hc2, <- (lookup_take_lt (pool_blocks p1) m), Htake by lia.
    by apply lookup_take_lt; lia. }
  destruct (pool_chain_at p1 i' c1 Hc1) as [F1 F2]. destruct (pool_chain_at p2 i' c1 Hc2) as [G1 G2].
  rewrite Hf in G1, G2. by rewrite Hi', F1, F2, G1, G2.
Qed.

(** ** Lemmas: publishing *)

Lemma runs_bind {S E A B} (m : SM S E A) (f : A → SM S E B) s s' y :
  runs_to (m ≫= f) s s' y → ∃ s1 x, runs_to m s s1 x ∧ runs_to (f x) s1 s' y.
Proof. unfold runs_to, mbind, sm_bind. destruct (m s) as [s1 [[x|e]|]]; [|done..]. intros Hf. by exists s1, x. Qed.

Lemma runs_mapM {S E A B} (P : B → Prop) (f : A → SM S E B) l s s' ys :
  (∀ x s s' y, runs_to (f x) s s' y → P y) → runs_to (mapM f l) s s' ys → Forall P ys ∧ length ys = length l.
Proof.
  intros HP. revert s ys. induction l as [|x l IH]; intros s ys; cbn [mapM].
  { intros [= _ <-]. split; [constructor|done]. }
  intros (s1 & y & Hy & (s2 & ys' & Hys & Hret)%runs_bind)%runs_bind. injection Hret as -> <-.
  destruct (IH s1 ys' Hys) as [Hall Hlen]. split; [|simpl; by rewrite Hlen]. constructor; [by eapply HP|done].
Qed.

Lemma pool_new_wf first : pool_wf (pool_new first (recipient_new (H := X25519) k)).
Proof.
  split; try done; cbn [pool_new pool_blocks]; [by intros ? ?; rewrite lookup_nil..|by intros ? ?%elem_of_nil].
Qed.

Section publishing_lemmas.
Context {R : Type} `{CryptoRng R}.

Lemma seal_note_wire pk v (rng rng' : R) n : runs_to (seal_note pk v) rng rng' n → wire (as_bytes n).
Proof.
  unfold runs_to, seal_note, Seal.seal.  destruct (@encap X25519 R _ rng pk) as [rng1 [e s]].
  destruct (is_all_zero _); [done|]. destruct (derive _ _ _ _ _) as [dv|]; [|done]. cbn [mbind outcome_bind].
  destruct (encode_note _ _) as [m [u|err]]; [|done]. destruct (aead_encrypt _ _ _ _) as [c|]; [|done].
  match goal with |- context [parse ?x] => destruct (parse_decides x) as [[Hw ->]|(_ & kd & -> & _)] end; [|done].
  cbn [mbind outcome_bind map_err]. by intros [= _ <-].
Qed.

Lemma block_notes_publishable wallet strangers mine tag (rng rng' : R) ns :
  runs_to (block_notes wallet strangers mine tag) rng rng' ns → publishable ns.
Proof.
  intros [Hw Hlen]%(runs_mapM (λ n, wire (as_bytes n))); [split; [done|rewrite Hlen; by vm_compute]|].
  intros slot s s' n Hn. cbn zeta in Hn. destruct (slot =? mine); [by apply seal_note_wire in Hn|].
  apply runs_bind in Hn as (s1 & pk & _ & Hn). by apply seal_note_wire in Hn.
Qed.

(** What [extend] publishes is a pool. *)
Lemma extend_wf wallet strangers m tag p p' (rng rng' : R) :
  runs_to (extend wallet strangers m tag) (p, rng) (p', rng') () → pool_wf p →
  pool_wf p' ∧ pool_first p' = pool_first p ∧ length (pool_blocks p') = length (pool_blocks p) + m.
Proof.
  unfold extend. assert (m = length (seq 0 m)) as Hm by by rewrite length_seq. rewrite Hm at 2. clear Hm.
  generalize (seq 0 m) as l. intros l. revert p rng. induction l as [|block l IH]; intros p rng; cbn [sm_for].
  { intros [= <- <-]. by rewrite Nat.add_0_r. }
  intros ([p1 rng1] & [] & Hone & Hrest)%runs_bind Hp.
  apply runs_bind in Hone as ([p2 rng2] & ns & Hns & Hone). apply runs_bind in Hone as ([p3 rng3] & pr & Hget & Hone).
  injection Hget as <- <- <-. apply runs_bind in Hone as ([p4 rng4] & q & Hq & Hset).
  unfold runs_to, sm_zoom in Hns. cbn [snd fst] in Hns.
  destruct (block_notes wallet strangers _ _ rng) as [rng5 [[ns'|[]]|]] eqn:Hbn; [|done]. injection Hns as <- <- <-.
  unfold runs_to, sm_outcome in Hq. destruct (pool_push_block _ ns') as [q'|] eqn:Hpush; [|done].
  injection Hq as <- <- <-. injection Hset as <- <-. cbn [fst] in Hpush.
  destruct (pool_push_spec p ns' q' Hp (block_notes_publishable _ _ _ _ _ _ _ Hbn) Hpush) as (Hq & Hf & Hb & _).
  destruct (IH q' rng5 Hrest Hq) as (Hp' & Hf' & Hl). split; [done|]. split; [congruence|].
  rewrite Hl, Hb, length_app. simpl. lia.
Qed.
End publishing_lemmas.

(** ** Lemmas: the driver of a pool *)

(** A wallet that follows a pool: its fold, checkpoints and marks come from the pool's chain. *)
Definition tracks (d : Driver Balance N Pool NoSink) : Prop :=
  pool_wf (source d) ∧ published_below (source d) ∧ start_block (config d) = pool_first (source d) ∧
  initial d = balance_default ∧ ∃ C, follows C (pool_chain (source d)) d.

(** Moving the source drops the marks, so that nothing is said of any other chain. *)
Lemma follows_moved (C C' : Chain N → Prop) ch (d : Driver Balance N Pool NoSink) g :
  follows C ch d → follows C' ch (source_mut g d).
Proof.
  intros Hfo. assert (follows C ch (source_mut g d)) as [G1 G2 G3 _ _].
  { apply (follows_marks C ch d); try done; [|right; simpl; by destruct (marks d)..].
    pose proof (sy_span _ _ d (fo_synced _ _ _ Hfo)). simpl. by destruct (marks d). }
  split; try done.
  - intros c w _ Hw. simpl in Hw. by destruct (marks d).
  - intros c _ Hv. unfold vouches in Hv. simpl in Hv. by destruct (marks d).
Qed.

(** ... nor where the next scan starts, but for the cursor. *)
Lemma moved_walked (d : Driver Balance N Pool NoSink) g : walked (marks (step_enter (source_mut g d))) = None.
Proof.
  destruct (step_enter_marks (source_mut g d)) as (_ & _ & _ & _ & Hsame & Hmoved).
  destruct (decide (left_at (marks (source_mut g d)) = Some (engine_point (source_mut g d)))) as [Heq|Hne];
    [|by apply Hmoved]. destruct (Hsame Heq) as [-> _]. simpl. by destruct (marks d).
Qed.

(** A driver on a new pool, as [main] builds it, tracks the pool. *)
Lemma wallet_opens p d :
  pool_wf p → published_below p → pool_first p = FIRST_BLOCK → wallet_driver p = Ok d → tracks d ∧ source d = p.
Proof.
  intros Hp Hbelow Hf Hd. unfold wallet_driver in Hd.
  destruct (build_follows (λ _, True) (pool_chain p) _ _ _ _ _ d Hd) as (Hfo & Hc & Hi & Hs); [simpl; by rewrite Hf|].
  split; [|done]. unfold tracks. rewrite Hs, Hc, Hi. split_and!; try done; [apply Hbelow..|]. by exists (λ _, True).
Qed.

Lemma ticks_inv (n : nat) (d d' : Driver Balance N Pool NoSink) ts :
  runs_to (ticks (S n)) d d' ts → ∃ d1 t ts', runs_to tick d d1 t ∧ runs_to (ticks n) d1 d' ts' ∧ ts = t :: ts'.
Proof.
  unfold runs_to. cbn [ticks]. unfold mbind at 1, sm_bind at 1. destruct (tick d) as [d1 [[t|[]]|]]; [|done].
  unfold mbind, sm_bind. destruct (ticks n d1) as [d2 [[ts'|[]]|]] eqn:Hn; [|done]. intros [= -> <-]. by exists d1, t, ts'.
Qed.

(** The loop goes through the ticks. *)
Lemma sync_ticks (n : nat) (d d' : Driver Balance N Pool NoSink) ts printed :
  runs_to (ticks n) d d' (ts ++ [Idle]) → Forall (λ t, ∃ sm, t = Progressed sm) ts →
  sync n d printed = Some (d', Returns printed).
Proof.
  revert d ts. induction n as [|n IH]; intros d ts Hrun Hts.
  { injection Hrun as _ Hts'. by destruct ts. }
  apply ticks_inv in Hrun as (d1 & t & ts' & Ht & Hrest & Heq). cbn [sync]. rewrite Ht. destruct ts as [|t0 ts].
  - injection Heq as <- <-. destruct n as [|n]; [by injection Hrest as ->|].
    apply ticks_inv in Hrest as (? & ? & ? & _ & _ & ?). done.
  - injection Heq as -> <-. apply Forall_cons in Hts as [[sm ->] Hts]. by apply (IH d1 ts).
Qed.

(** More fuel changes nothing. *)
Lemma sync_more (n m : nat) (d : Driver Balance N Pool NoSink) printed x :
  sync n d printed = Some x → n ≤ m → sync m d printed = Some x.
Proof.
  revert m d printed. induction n as [|n IH]; intros m d printed; [done|]. cbn [sync].
  destruct m as [|m]; [lia|]. cbn [sync]. intros Hs Hm.
  destruct (tick d) as [d1 [[t|[]]|]]; [|done]. destruct t; try done; apply IH; (done || lia).
Qed.

Lemma sync_agree (n m : nat) (d : Driver Balance N Pool NoSink) printed x y :
  sync n d printed = Some x → sync m d printed = Some y → x = y.
Proof.
  intros Hn Hm. apply (sync_more _ (n + m)) in Hn; [|lia]. apply (sync_more _ (n + m)) in Hm; [|lia]. congruence.
Qed.

(** The wallet has no sink to lose. *)
Lemma no_sink_reports idle t :
  reports (F := Balance) (K := NoSink) idle t → if idle then t = Idle else ∃ sm, t = Progressed sm.
Proof. intros [[_ (e & u & x & Hx)]|Ht]; [done|exact Ht]. Qed.

Lemma sync_converging (n : nat) (d d' : Driver Balance N Pool NoSink) (ch : Chain N) e ts :
  runs_to (ticks n) d d' ts → converging (F := Balance) (K := NoSink) ch e ts →
  (∃ printed, sync n d [] = Some (d', Returns printed) ∧ length printed ≤ 1) ∨
  ∃ d1, sync n d [] = Some (d1, Panics) ∧ runs_to tick d d1 Resynced ∧ stranded ch e.
Proof.
  assert (∀ ts, catching_up (F := Balance) (K := NoSink) ts →
    ∃ ts0, ts = ts0 ++ [Idle] ∧ Forall (λ t, ∃ sm, t = Progressed sm) ts0) as Hcat.
  { intros ts' (ts0 & t & -> & Hall & ->%no_sink_reports). exists ts0. split; [done|].
    eapply Forall_impl; [exact Hall|]. intros t'. apply no_sink_reports. }
  intros Hrun [(ts0 & -> & Hall)%Hcat|(t & ts' & -> & Ht & (ts0 & -> & Hall)%Hcat)].
  { left. exists []. split; [by eapply sync_ticks|simpl; lia]. }
  destruct n as [|n]; [by injection Hrun|]. apply ticks_inv in Hrun as (d1 & t1 & ts' & Htick & Hrest & Heq).
  injection Heq as <- <-. cbn [sync]. rewrite Htick. destruct Ht as [[-> Hst]|[to ->]].
  - right. by exists d1.
  - left. exists [to]. split; [|simpl; lia]. by eapply sync_ticks.
Qed.

(** The pools on the two sides of a reorganisation have chains that commit. *)
Lemma reorg_commits p depth nss p' :
  let keep := length (pool_blocks p) - depth in
  pool_wf p → published_below p → Forall publishable nss → pool_reorg p depth nss = Returns p' → pool_blocks p' ≠ [] →
  (∀ i b b', keep < i → pool_blocks p !! i = Some b → pool_blocks p' !! i = Some b' → pb_hash b ≠ pb_hash b') →
  ∀ c1 c2, (c1 = pool_chain p ∨ c1 = pool_chain p') → (c2 = pool_chain p ∨ c2 = pool_chain p') →
    commits (pool_first p) c1 c2.
Proof.
  intros keep Hp [_ Hne] Hnss Hr Hne' Hdiff c1 c2.
  destruct (pool_reorg_spec p depth nss p' Hp Hnss Hr) as (_ & Hf & _ & Htake & Hcut). fold keep in Htake, Hcut.
  assert (∀ i b b', keep ≤ i → pool_blocks p !! i = Some b → pool_blocks p' !! i = Some b' → pb_hash b ≠ pb_hash b') as Hall.
  { intros i b b' Hi Hb Hb'. destruct (decide (i = keep)) as [->|]; [by eapply Hcut|]. eapply Hdiff; [|done..]. lia. }
  assert (∀ q, pool_blocks q ≠ [] → commits (pool_first q) (pool_chain q) (pool_chain q)) as Hself.
  { intros q Hq n Hn _ _ j Hj. done. }
  intros [->| ->] [->| ->].
  - by apply Hself.
  - by apply (pool_commits p p' keep).
  - rewrite <- Hf. apply (pool_commits p' p keep); try done. intros i b b' Hi Hb Hb' Heq. by destruct (Hall i b' b).
  - rewrite <- Hf. by apply Hself.
Qed.

(** ** Properties *)

(** C7. The wallet after a reorganisation. Take a wallet that tracks its pool, and replace the last blocks
    of the pool, by more, as many or fewer, so that at least one block is left. Let it run the loop of [sync].
    If the pool now ends below the block of the wallet's cursor, and has replaced none of the blocks of the
    wallet's history that are at or below its new end, then it looks like a source that lags: [sync] returns at
    once, prints nothing, and the wallet keeps the balance it had. Otherwise, as always after a
    reorganisation that replaces the blocks by at least as many, the loop ends in one of two ways. If no
    live checkpoint is left below the fork, its first tick resynchronises, which the loop takes to be
    unreachable and panics on. If not, it prints at most one rollback and leaves the balance of a
    fresh wallet that scans every note on the chain the pool has now, and it tracks the pool again. The
    replaced blocks above the cut hash differently; at the cut itself this is proved of the hash function.
    With a depth of zero the theorem is about the first synchronisation, as [wallet_opens] shows. *)
Theorem wallet_agrees_with_rescan d depth nss p' (b : Balance) :
  let p := source d in
  let keep := length (pool_blocks p) - depth in
  tracks d → Forall publishable nss → pool_reorg p depth nss = Returns p' → published_below p' →
  (∀ i x x', keep < i → pool_blocks p !! i = Some x → pool_blocks p' !! i = Some x' → pb_hash x ≠ pb_hash x') →
  rescan p' k = Returns b →
  (length (pool_blocks p) ≤ keep + length nss → ¬ out_of_sight (pool_chain p') d) ∧
  (out_of_sight (pool_chain p') d →
    ∃ d', sync 1 (source_mut (λ _, p') d) [] = Some (d', Returns []) ∧ fold (engine d') = fold (engine d)) ∧
  (¬ out_of_sight (pool_chain p') d →
    ∃ (n : nat) d', n ≤ length (omap value_of (published p')) + length (pool_blocks p') + 2 ∧
    ((∃ printed, sync n (source_mut (λ _, p') d) [] = Some (d', Returns printed) ∧ length printed ≤ 1 ∧
       fold (engine d') = b ∧ rescan (source d') k = Returns b ∧ tracks d' ∧ pool_blocks (source d') = pool_blocks p') ∨
     (sync n (source_mut (λ _, p') d) [] = Some (d', Panics) ∧ runs_to tick (source_mut (λ _, p') d) d' Resynced ∧
       stranded (pool_chain p') (engine d)))).
Proof.
  intros p keep (Hp & Hbelow & Hstart & Hinit & C & Hfo) Hnss Hr Hbelow' Hdiff Hb. fold p in Hp, Hbelow, Hstart, Hfo.
  destruct (pool_reorg_spec p depth nss p' Hp Hnss Hr) as (Hp' & Hf & Hlen & _ & _). fold keep in Hlen.
  destruct (rescan_run p' b Hp' Hbelow' Hb) as (Hread & q & a & Hrun).
  set (d0 := source_mut (λ _, p') d). set (C' := λ c, c = pool_chain p ∨ c = pool_chain p').
  assert (config d0 = config d ∧ initial d0 = initial d) as [Hc0 Hi0] by done.
  assert (honest (pool_chain p') (viewed p')) as Hhonest by by apply pool_honest.
  assert (follows C' (pool_chain p) d0) as Hfo0 by by eapply follows_moved.
  assert (viewed p' (source d0)) as Hview by by apply viewed_self.
  split_and!.
  { intros Hlong [(c & Hcur & Hlt) _]. destruct (follows_reach C (pool_chain p) (pool_chain p') d Hfo) as [Hreach _].
    { cbn [ch_head pool_chain listed_chain]. rewrite !length_fmap. lia. }
    specialize (Hreach c Hcur). lia. }
  { intros [(c & Hcur & Hlt) Hex]. assert (walked (marks (step_enter d0)) = None) as Hwk by apply (moved_walked d (λ _, p')).
    destruct (lagging_waits C' (pool_first p') (pool_chain p) (pool_chain p') (viewed p') Hhonest (N.le_refl _) d0 (Position.block c))
      as (d' & Htick & He); try done; [by rewrite Hc0, Hstart, <- Hf|rewrite Hwk; change (engine d0) with (engine d); by rewrite Hcur|].
    exists d'. split; [|by rewrite He]. cbn [sync]. by rewrite Htick. }
  intros Hsight. assert (in_reach (pool_chain p') d0 ∨ exposed (pool_chain p') d0) as Hor.
  { apply in_sight; [simpl; by destruct (marks d)|exact Hsight]. }
  destruct (converges C' (pool_chain p) (pool_chain p') (viewed p') d0 b q a 0)
    as (n & d' & ts & Hn & Hticks & Hts & _ & Hfold & _ & Hfo' & HI' & Hc' & Hi'); rewrite ?Hc0, ?Hi0, ?Hstart, ?Hinit, <- ?Hf.
  - rewrite Hf. exact (reorg_commits p depth nss p' Hp Hbelow Hnss Hr (proj2 Hbelow') Hdiff).
  - by left.
  - by right.
  - apply listed_chain_wf; [by apply pool_listed|]. intros ?%fmap_nil_inv. by apply Hbelow'.
  - done.
  - done.
  - done.
  - done.
  - done.
  - done.
  - exact Hrun.
  - rewrite Hc0, Hstart, <- Hf, chain_events in Hn by done.
    assert (length ((read_block <$> pool_blocks p') ≫= lb_entries) = length (omap value_of (published p'))) as Hlv
      by (rewrite <- (length_fmap snd), read_values; done).
    assert (N.to_nat (ch_head (pool_chain p') + 1 - pool_first p') = length (pool_blocks p')) as Hblocks.
    { cbn [ch_head pool_chain listed_chain]. rewrite length_fmap. destruct (pool_blocks p') eqn:Hnil; [|simpl; lia].
      by destruct (proj2 Hbelow'). }
    rewrite Hlv, Hblocks in Hn. pose proof (viewed_wf p' (source d') HI' Hp') as Hpd. destruct HI' as (Hf' & Hb' & _).
    destruct (sync_converging n d0 d' _ _ ts Hticks Hts) as [(printed & Hsync & Hpl)|(d1 & Hsync & Hre & Hst)].
    + exists n, d'. split; [exact Hn|left; exists printed; split_and!; try done].
      * by rewrite (rescan_blocks p').
      * unfold tracks, published_below. rewrite Hf', Hb', Hc', Hi', Hc0, Hi0. split_and!; try done.
        { by apply Hbelow'. } { by apply Hbelow'. } { by rewrite Hf. }
        exists C'. assert (pool_chain (source d') = pool_chain p') as -> by (unfold pool_chain; by rewrite Hf', Hb'). done.
    + exists n, d1. split; [exact Hn|by right].
Qed.
End reading.

(** ** Example: a small pool, before and after a reorganisation *)

Module WalletEx.
(** A key derivation and a tag that add up weighted bytes, which is quick to evaluate. *)
Definition sum (bs : bytes) : N := (foldl (λ ih b, (ih.1 + 1, ih.2 + ih.1 * Byte.to_N b)) (1, 1) bs)%N.2.

#[local] Instance quick_hkdf : Hkdf := λ salt ikm info n,
  if n <=? 255 * 32 then Some (take n (replicate n tt ≫= λ _, le_bytes 2 (sum ikm + 7 * sum info + sum salt))) else None.
#[local] Instance quick_hkdf_laws : HkdfLaws quick_hkdf.
Proof.
  intros salt ikm info n Hn. unfold hkdf_expand, quick_hkdf. rewrite (proj2 (Nat.leb_le _ _)) by done.
  eexists. split; [done|]. rewrite length_take. apply Nat.min_l.
  generalize (le_bytes 2 (sum ikm + 7 * sum info + sum salt)) (length_le_bytes 2 (sum ikm + 7 * sum info + sum salt)).
  intros l Hl. clear Hn. induction n as [|n IH]; [done|]. cbn [replicate]. rewrite bind_cons, length_app, Hl. lia.
Qed.

Definition quick_tag (key nonce aad msg : bytes) : bytes :=
  le_bytes AEAD_TAG_LEN (sum key + 3 * sum nonce + 5 * sum aad + 7 * sum msg).
Definition quick_decrypt (key nonce aad c : bytes) : option bytes :=
  let msg := take (length c - AEAD_TAG_LEN) c in
  if decide (c = msg ++ quick_tag key nonce aad msg) then Some msg else None.
#[local] Instance quick_aead : Aead := {|
  aead_encrypt key nonce aad msg := Some (msg ++ quick_tag key nonce aad msg);
  aead_decrypt := quick_decrypt;
  aead_decrypt_in_place key nonce aad buffer :=
    match quick_decrypt key nonce aad buffer with Some msg => (msg, true) | None => (buffer, false) end;
|}.
#[local] Instance quick_aead_laws : AeadLaws quick_aead.
Proof.
  assert (∀ key nonce aad msg, length (quick_tag key nonce aad msg) = AEAD_TAG_LEN) as Ht by (intros; apply length_le_bytes).
  split; simpl.
  - intros key nonce aad msg c [= <-]. unfold quick_decrypt. rewrite length_app, Ht, Nat.add_sub, take_app_length.
    by rewrite decide_True.
  - intros key nonce aad msg c. unfold quick_decrypt. case_decide as Hc; [|done]. intros [= <-]. by rewrite <- Hc.
  - intros key nonce aad msg c [= <-]. by rewrite length_app, Ht.
  - intros key nonce aad c. by destruct (quick_decrypt key nonce aad c).
Qed.
#[local] Existing Instance Toy.rng.

(** Keys that are exchanged by adding them. *)
#[local] Instance toy_dalek : Dalek := {|
  EphemeralSecret := array32; StaticSecret := array32; XPublicKey := array32; XShared := array32;
  random_from_rng R _ rng := let (rng, filled) := fill_bytes 32 rng in (rng, fill_array32 filled);
  public_from_ephemeral := id; public_from_static := id; public_from_bytes := id; public_to_bytes := id;
  ephemeral_diffie_hellman e pk := xor32 e pk; static_diffie_hellman s pk := xor32 pk s;
  shared_to_bytes := id;
|}.
#[local] Instance toy_dalek_laws : DalekLaws toy_dalek.
Proof. by split. Qed.
#[local] Existing Instance X25519.

Lemma pool_reorg_none (p : Pool) : pool_reorg p 0 [] = Returns p.
Proof. destruct p. unfold pool_reorg, pool_truncate. cbn. by rewrite Nat.sub_0_r, firstn_all. Qed.

(** Hashes compared above the cut. *)
Definition differ_above (keep : nat) (p p' : Pool) : bool :=
  forallb (λ xx, negb (bool_decide (pb_hash xx.1 = pb_hash xx.2))) (drop (S keep) (zip (pool_blocks p) (pool_blocks p'))).

Lemma differ_above_spec keep (p p' : Pool) : differ_above keep p p' = true →
  ∀ i x x', keep < i → pool_blocks p !! i = Some x → pool_blocks p' !! i = Some x' → pb_hash x ≠ pb_hash x'.
Proof.
  unfold differ_above. intros Hall i x x' Hi Hx Hx'.
  rewrite forallb_forall in Hall. specialize (Hall (x, x')). cbn [fst snd] in Hall.
  assert (In (x, x') (drop (S keep) (zip (pool_blocks p) (pool_blocks p')))) as Hin.
  { apply list_elem_of_In, (list_elem_of_lookup_2 _ (i - S keep)). rewrite lookup_drop.
    replace (S keep + (i - S keep)) with i by lia. apply lookup_zip_with_Some. by exists x, x'. }
  specialize (Hall Hin). intros Heq. by rewrite bool_decide_true in Hall.
Qed.

(** The replacement blocks that were published. *)
Definition returned (o : outcome (result (list (list SealedNote)) Empty_set)) : list (list SealedNote) :=
  match o with Returns (Ok nss) => nss | _ => [] end.

Lemma returned_publishable wallet strangers (tag : nat → N) l (rng : N) :
  Forall publishable (returned (mapM (λ i, block_notes wallet strangers i (tag i)) l rng).2).
Proof.
  destruct (mapM (λ i, block_notes wallet strangers i (tag i)) l rng) as [r [[nss|[]]|]] eqn:Hm; [|constructor].
  eapply runs_mapM; [|exact Hm]. intros i s s' ns. apply block_notes_publishable.
Qed.

(** A run: the loop on a new driver, and again after the last [depth] blocks are replaced, with what can
    be seen of it. *)
Definition reorged (depth : nat) (nss : list (list SealedNote)) (p : Pool) : Pool :=
  match pool_reorg p depth nss with Returns p' => p' | Panics => p end.

Definition run_seen (n : nat) (k : StaticSecret) (p : Pool) (depth : nat) (nss : list (list SealedNote)) :=
  match wallet_driver p with
  | Err _ => None
  | Ok d0 =>
    '(d1, o1) ← sync n (source_mut (λ _, p) d0) [];
    let p' := reorged depth nss (source d1) in
    '(d2, o2) ← sync n (source_mut (λ _, p') d1) [];
    Some (o1, o2, rescan p k, rescan p' k,
      (match pool_reorg (source d1) depth nss with Returns _ => true | Panics => false end,
       differ_above (length (pool_blocks (source d1)) - depth) (source d1) p'),
      (length (pool_blocks (source d1)), length (pool_blocks p')), pool_first (source d1))
  end.

Lemma run_states n k (p : Pool) depth nss o1 o2 r1 r2 l1 l2 f :
  run_seen n k p depth nss = Some (o1, o2, r1, r2, (true, true), (l1, l2), f) → ∃ d0 d1 d2 p',
    wallet_driver p = Ok d0 ∧ sync n (source_mut (λ _, p) d0) [] = Some (d1, o1) ∧
    pool_reorg (source d1) depth nss = Returns p' ∧ sync n (source_mut (λ _, p') d1) [] = Some (d2, o2) ∧
    rescan p k = r1 ∧ rescan p' k = r2 ∧ length (pool_blocks (source d1)) = l1 ∧ length (pool_blocks p') = l2 ∧
    pool_first (source d1) = f ∧
    differ_above (length (pool_blocks (source d1)) - depth) (source d1) p' = true.
Proof.
  unfold run_seen. destruct (wallet_driver p) as [d0|]; [|discriminate].
  destruct (sync n (source_mut (λ _, p) d0) []) as [[d1 o1']|] eqn:H1; [|discriminate]. cbn [mbind option_bind].
  unfold reorged. destruct (pool_reorg (source d1) depth nss) as [p'|] eqn:Hr.
  2: { destruct (sync n (source_mut (λ _, source d1) d1) []) as [[? ?]|]; [|discriminate]. cbn [mbind option_bind].
       intros Hsum%(inj Some). apply pair_eq in Hsum as [Hsum _]. apply pair_eq in Hsum as [Hsum _].
       apply pair_eq in Hsum as [_ Hsum]. apply pair_eq in Hsum as [Hsum _]. discriminate. }
  destruct (sync n (source_mut (λ _, p') d1) []) as [[d2 o2']|] eqn:H2; [|discriminate]. cbn [mbind option_bind].
  intros Hsum%(inj Some). apply pair_eq in Hsum as [Hsum Hf]. apply pair_eq in Hsum as [Hsum [Hl1 Hl2]%pair_eq].
  apply pair_eq in Hsum as [Hsum [_ Hd]%pair_eq]. apply pair_eq in Hsum as [Hsum Hb2].
  apply pair_eq in Hsum as [Hsum Hb1]. apply pair_eq in Hsum as [<- <-]. exists d0, d1, d2, p'.
  repeat (split; [first [exact H1|exact H2|reflexivity|assumption]|]). exact Hd.
Qed.

Definition alice : StaticSecret := Toy.alice.
Definition bob : StaticSecret := Toy.bob.

(** Six blocks, as [extend] publishes them. *)
Definition published_run : Pool * N * outcome (result () Empty_set) :=
  extend (public_from_static alice) [public_from_static bob] 6 100
    (pool_new FIRST_BLOCK (recipient_new alice), 20%N).
Definition pool : Pool := published_run.1.1.

(** The last two are replaced by three. *)
Definition replacements_run : N * outcome (result (list (list SealedNote)) Empty_set) :=
  mapM (λ i, block_notes (public_from_static alice) [public_from_static bob] i (9000 + 10 * N.of_nat i))
    (seq 0 3) published_run.1.2.
Definition replacements : list (list SealedNote) := returned replacements_run.2.

Lemma seen : run_seen 20 alice pool 2 replacements =
  Some (Returns [], Returns [Some (MkPosition 4 0)], Returns (MkBalance 756 6), Returns (MkBalance 27496 7),
    (true, true), (6, 7), 1%N).
Proof. with_strategy transparent [MAX_CT_LEN] (vm_compute). reflexivity. Qed.

Lemma published_wf : pool_wf alice pool ∧ pool_first pool = FIRST_BLOCK ∧ length (pool_blocks pool) = 6.
Proof.
  assert (published_run.2 = Returns (Ok ())) as Hok by (with_strategy transparent [MAX_CT_LEN] (vm_compute); reflexivity).
  apply (extend_wf alice (public_from_static alice) [public_from_static bob] 6 100
    (pool_new FIRST_BLOCK (recipient_new (H := X25519) alice)) pool 20%N published_run.1.2).
  - unfold runs_to. fold published_run. unfold pool. destruct published_run as [[q r] o]. by rewrite <- Hok.
  - apply (pool_new_wf alice).
Qed.

Lemma replacements_ok : Forall publishable replacements.
Proof.
  exact (returned_publishable (public_from_static alice) [public_from_static bob] (λ i, 9000 + 10 * N.of_nat i)%N
    (seq 0 3) published_run.1.2).
Qed.

(** A pool that lost its last two blocks, and got none for them, looks like one that lags: the wallet keeps
    the balance it had, which a rescan no longer gives. *)
Definition shrunk (n : nat) :=
  match wallet_driver pool with
  | Err _ => None
  | Ok d0 =>
    '(d1, o1) ← sync n (source_mut (λ _, pool) d0) [];
    let p' := reorged 2 [] (source d1) in
    '(d2, o2) ← sync n (source_mut (λ _, p') d1) [];
    Some (o1, fold (engine d1), o2, fold (engine d2), rescan p' alice)
  end.

Lemma shrunk_pool_keeps_balance :
  shrunk 20 = Some (Returns [], MkBalance 756 6, Returns [], MkBalance 756 6, Returns (MkBalance 463 4)).
Proof. with_strategy transparent [MAX_CT_LEN] (vm_compute). reflexivity. Qed.

(** The wallet opens the pool, and agrees with a rescan on both sides of the reorganisation. *)
Lemma wallet_agrees_with_rescan_witness : ∃ d0 d1 d2 p',
  wallet_driver pool = Ok d0 ∧ sync 20 (source_mut (λ _, pool) d0) [] = Some (d1, Returns []) ∧
  fold (engine d1) = MkBalance 756 6 ∧ pool_reorg (source d1) 2 replacements = Returns p' ∧
  sync 20 (source_mut (λ _, p') d1) [] = Some (d2, Returns [Some (MkPosition 4 0)]) ∧
  fold (engine d2) = MkBalance 27496 7 ∧ tracks alice d2.
Proof.
  destruct (run_states _ _ _ _ _ _ _ _ _ _ _ _ seen)
    as (d0 & d1 & d2 & p' & Hd0 & H1 & Hr & H2 & Hb1 & Hb2 & Hl1 & Hl2 & Hf1 & Hdiff).
  destruct published_wf as (Hp & Hf & Hl). pose proof replacements_ok as Hnss.
  assert (length replacements = 3) as Hnew by (with_strategy transparent [MAX_CT_LEN] (vm_compute); reflexivity).
  generalize dependent replacements. generalize dependent pool.
  intros p Hd0 H1 Hb1 Hp Hf Hl nss Hr Hnss Hnew.
  assert (published_below p) as Hbelow.
  { split; [rewrite Hf, Hl; discriminate|intros Hn; by rewrite Hn in Hl]. }
  destruct (wallet_opens alice p d0 Hp Hbelow Hf Hd0) as [Ht0 Hs0].
  destruct (wallet_agrees_with_rescan alice d0 0 [] p (MkBalance 756 6)) as (Hlong0 & _ & Hagree);
    [exact Ht0|constructor|rewrite Hs0; apply pool_reorg_none|exact Hbelow| |exact Hb1|].
  { rewrite Hs0, Nat.sub_0_r. intros i x x' Hi Hx. apply lookup_lt_Some in Hx. lia. }
  destruct Hagree as (n & d & _ & [Hrun|[Hrun _]]); [apply Hlong0; rewrite Hs0; simpl; lia| |].
  2: { pose proof (sync_agree _ _ _ _ _ _ H1 Hrun). discriminate. }
  destruct Hrun as (pr & Hrun & _ & Hfold & _ & Ht1 & Hblocks).
  pose proof (sync_agree _ _ _ _ _ _ H1 Hrun) as Heq. apply pair_eq in Heq as [<- _].
  destruct (wallet_agrees_with_rescan alice d1 2 nss p' (MkBalance 27496 7)) as (Hlong1 & _ & Hagree);
    [exact Ht1|exact Hnss|exact Hr| |by apply differ_above_spec|exact Hb2|].
  { destruct (pool_reorg_spec alice (source d1) 2 nss p') as (_ & Hf' & _); [apply Ht1|exact Hnss|exact Hr|].
    split; [rewrite Hf', Hf1, Hl2; discriminate|intros Hn; by rewrite Hn in Hl2]. }
  destruct Hagree as (m & d' & _ & [Hrun2|[Hrun2 _]]); [apply Hlong1; rewrite Hl1, Hnew; lia| |].
  - destruct Hrun2 as (pr2 & Hrun2 & _ & Hfold2 & _ & Ht2 & _).
    pose proof (sync_agree _ _ _ _ _ _ H2 Hrun2) as Heq. apply pair_eq in Heq as [<- _].
    exists d0, d1, d2, p'. by repeat (split; [first [assumption|exact Hr]|]).
  - pose proof (sync_agree _ _ _ _ _ _ H2 Hrun2). discriminate.
Defined.
End WalletEx.
