(* ===== verification/Frame.v ===== *)
(** Frames of the write-ahead log and of the checkpoint files
    ([crates/rotortree/src/storage/frame.rs] and [error.rs]): a length, a payload and a checksum,
    and what reading one makes of whole, torn and damaged bytes. *)
From S2P Require Import Prelude Hash ChunkedLevel Checksum.

(** ** Errors *)

(** The kinds of [std::io::Error] the code distinguishes. *)
Inductive IoError := NotFound | InvalidData | IoFailed.

(** [StorageError]; paths and details of messages are left out. *)
Inductive StorageError :=
| Io (e : IoError)
| CrcMismatch (offset : nat) (expected actual : N)
| WalCorrupted (offset : nat)
| ConfigMismatch (expected_n actual_n expected_max_depth actual_max_depth : N)
| FileLocked
| Closed
| TreeFailed (e : TreeError)
| FlushFailed (e : IoError)
| CheckpointFailed (e : StorageError)
| StorageMathError
| DataCorruption
| SerdeFailed.

(** [RotorTreeError]. *)
Inductive RotorTreeError := RTree (e : TreeError) | RStorage (e : StorageError).

#[export] Instance io_error_eq_dec : EqDecision IoError.
Proof. solve_decision. Defined.
#[export] Instance storage_error_eq_dec : EqDecision StorageError.
Proof. solve_decision. Defined.

(** ** The serializer *)

(** [wincode], for one type: the byte string of a value, and the value of a byte string. *)
Class Wincode (T : Type) := {
  wc_serialize : T → bytes;
  wc_serialized_size : T → N;
  wc_deserialize : bytes → option T;
}.

(** Values whose integers have their width and whose hashes have 32 bytes read back; the size is
    that of the byte string. *)
Class WincodeLaws (T : Type) `(Wincode T) (valid : T → Prop) := {
  wc_roundtrip v : valid v → wc_deserialize (wc_serialize v) = Some v;
  wc_size v : wc_serialized_size v = N.of_nat (length (wc_serialize v));
}.

(** ** Frames *)

Definition MAX_FRAME_PAYLOAD : N := 134217728.

(** [usize::checked_add]. *)
Definition usize_checked_add (a b : nat) : option nat :=
  if (N.of_nat a + N.of_nat b <=? u64_max)%N then Some (a + b) else None.

(** Payloads a frame can hold, and byte strings a vector can. *)
Abbreviation fits_frame := (λ payload : bytes, (N.of_nat (length payload) ≤ MAX_FRAME_PAYLOAD)%N).
Abbreviation fits_vec := (λ bs : bytes, (N.of_nat (length bs) ≤ 9223372036854775807)%N).

Section frame.
Context `{Checksum}.

(** The assertion unwinds before the buffer is touched. *)
Definition write_frame {T} `{Wincode T} (buf : bytes) (value : T) : outcome bytes :=
  let size := wc_serialized_size value in
  if negb (size <=? MAX_FRAME_PAYLOAD)%N then Panics else
  let start := length buf in
  len ← expect (if (size <=? u32_max)%N then Some size else None);
  let buf := buf ++ le_bytes 4 len in
  let buf := buf ++ wc_serialize value in
  let crc := crc32c (drop start buf) in
  mret (buf ++ le_bytes 4 crc).

Definition serialize_frame {T} `{Wincode T} (value : T) : outcome bytes := write_frame [] value.

(** The payload and the size of the frame; [Ok None] is the end of the valid data. The ranges read
    lie inside [data] once the comparisons with [remaining] passed. *)
Definition read_frame (data : bytes) (offset : nat) : result (option (bytes * nat)) StorageError :=
  let remaining := length data - offset in
  if remaining <? 4 then Ok None else
  match usize_checked_add offset 4 with None => Err StorageMathError | Some end_ =>
  let len := le_value (slice offset (end_ - offset) data) in
  if (MAX_FRAME_PAYLOAD <? len)%N then Ok None else
  let len_usize := N.to_nat len in
  match v ← usize_checked_add 4 len_usize; usize_checked_add v 4 with None => Err StorageMathError | Some frame_size =>
  if remaining <? frame_size then Ok None else
  match v ← usize_checked_add offset 4; usize_checked_add v len_usize with None => Err StorageMathError | Some crc_offset =>
  match usize_checked_add crc_offset 4 with None => Err StorageMathError | Some crc_end =>
  let stored_crc := le_value (slice crc_offset (crc_end - crc_offset) data) in
  let computed_crc := crc32c (slice offset (crc_offset - offset) data) in
  if negb (stored_crc =? computed_crc)%N then
    match usize_checked_add offset frame_size with
    | None => Err StorageMathError
    | Some e => if length data <=? e then Ok None else Err (CrcMismatch offset stored_crc computed_crc)
    end
  else
    match usize_checked_add offset 4 with None => Err StorageMathError | Some payload_start =>
    Ok (Some (slice payload_start (crc_offset - payload_start) data, frame_size))
    end
  end end end end.

(** The bytes of a file, or the error that opening it gave. *)
Definition read_frame_file {T} `{Wincode T} (file : result bytes IoError) : result (option T) StorageError :=
  match file with
  | Err NotFound => Ok None
  | Err e => Err (Io e)
  | Ok data =>
    match read_frame data 0 with
    | Ok None => Ok None
    | Err (CrcMismatch _ _ _) => Ok None
    | Err e => Err e
    | Ok (Some (payload, _)) =>
      match wc_deserialize payload with
      | Some v => Ok (Some v)
      | None => Err SerdeFailed
      end
    end
  end.

(** ** Specification *)

(** The frame of a payload. *)
Definition frame_of (payload : bytes) : bytes :=
  let head := le_bytes 4 (N.of_nat (length payload)) ++ payload in
  head ++ le_bytes 4 (crc32c head).

Lemma length_frame_of payload : length (frame_of payload) = length payload + 8.
Proof. unfold frame_of. rewrite !length_app, !length_le_bytes. lia. Qed.

Lemma write_frame_ok {T} `{WincodeLaws T valid} (buf : bytes) (v : T) :
  write_frame buf v = if (N.of_nat (length (wc_serialize v)) <=? MAX_FRAME_PAYLOAD)%N
    then Returns (buf ++ frame_of (wc_serialize v)) else Panics.
Proof.
  unfold write_frame. rewrite wc_size. destruct (_ <=? MAX_FRAME_PAYLOAD)%N eqn:Hle; [|done].
  simpl negb. cbv iota. nbool. unfold MAX_FRAME_PAYLOAD in Hle. rewrite (proj2 (N.leb_le _ u32_max)) by (unfold u32_max; lia).
  cbn [expect mbind outcome_bind]. unfold mret, outcome_ret, frame_of. f_equal.
  rewrite <- !app_assoc. by rewrite drop_app_length.
Qed.

Context `{!ChecksumLaws _}.

Lemma usize_add_ok a b : (N.of_nat (a + b) ≤ u64_max)%N → usize_checked_add a b = Some (a + b).
Proof. intros Hab. unfold usize_checked_add. by rewrite (proj2 (N.leb_le _ _)) by lia. Qed.

(** Sums of offsets within a vector do not overflow. *)
Ltac usize_add := repeat (rewrite usize_add_ok by (unfold u64_max; lia); cbn [mbind option_bind]).

Lemma slice_app_r {A} (pre l : list A) o n : slice (length pre + o) n (pre ++ l) = slice o n l.
Proof. unfold slice. by rewrite drop_app_add'. Qed.

(** A whole frame is read back wherever it stands. *)
Lemma read_frame_whole pre payload post :
  fits_frame payload → fits_vec (pre ++ frame_of payload ++ post) →
  read_frame (pre ++ frame_of payload ++ post) (length pre) = Ok (Some (payload, length (frame_of payload))).
Proof.
  intros Hp Hv. cbv beta in Hp, Hv. rewrite !length_app, length_frame_of in Hv.
  unfold MAX_FRAME_PAYLOAD in Hp. unfold read_frame. rewrite !length_app, length_frame_of.
  rewrite (proj2 (Nat.ltb_ge _ _)) by lia. usize_add. rewrite Nat.add_sub'.
  set (head := le_bytes 4 (N.of_nat (length payload)) ++ payload).
  assert (Hhead : length head = 4 + length payload) by (unfold head; by rewrite length_app, length_le_bytes).
  assert (Hlen : slice (length pre) 4 (pre ++ frame_of payload ++ post) = le_bytes 4 (N.of_nat (length payload))).
  { rewrite <- (Nat.add_0_r (length pre)), slice_app_r. unfold slice, frame_of. rewrite drop_0, <- !app_assoc.
    by rewrite take_app_length' by (by rewrite length_le_bytes). }
  rewrite Hlen, le_value_bytes_small by (change (256 ^ N.of_nat 4)%N with 4294967296%N; lia).
  rewrite (proj2 (N.ltb_ge _ _)) by (unfold MAX_FRAME_PAYLOAD; lia). rewrite Nat2N.id.
  cbn [mbind option_bind]. usize_add.
  usize_add. rewrite (proj2 (Nat.ltb_ge _ _)) by lia.
  usize_add.
  usize_add.
  replace (length pre + 4 + length payload + 4 - (length pre + 4 + length payload)) with 4 by lia.
  replace (length pre + 4 + length payload - length pre) with (length head) by lia.
  replace (length pre + 4 + length payload - (length pre + 4)) with (length payload) by lia.
  assert (Hcover : slice (length pre) (length head) (pre ++ frame_of payload ++ post) = head).
  { rewrite <- (Nat.add_0_r (length pre)), slice_app_r. unfold slice, frame_of. fold head. rewrite drop_0, <- !app_assoc.
    by rewrite take_app_length. }
  assert (Hcrc : slice (length pre + 4 + length payload) 4 (pre ++ frame_of payload ++ post) = le_bytes 4 (crc32c head)).
  { rewrite <- Nat.add_assoc, slice_app_r, <- Hhead. unfold slice, frame_of. fold head. rewrite <- !app_assoc.
    rewrite drop_app_length. by rewrite take_app_length' by (by rewrite length_le_bytes). }
  assert (Hpayload : slice (length pre + 4) (length payload) (pre ++ frame_of payload ++ post) = payload).
  { rewrite slice_app_r. unfold slice, frame_of. rewrite <- !app_assoc.
    rewrite drop_app_length' by (by rewrite length_le_bytes). by rewrite take_app_length. }
  rewrite Hcover, Hcrc, Hpayload, le_value_bytes_small by apply crc32c_bound.
  rewrite N.eqb_refl. simpl negb. cbv iota. do 3 f_equal. lia.
Qed.

(** The cut-off beginning of a frame at the end of the data reads as the end of the log. *)
Lemma read_frame_torn pre payload k :
  fits_frame payload → fits_vec pre → k < length (frame_of payload) →
  read_frame (pre ++ take k (frame_of payload)) (length pre) = Ok None.
Proof.
  intros Hp Hv Hk. cbv beta in Hp, Hv. rewrite length_frame_of in *.
  unfold MAX_FRAME_PAYLOAD in Hp. unfold read_frame. rewrite !length_app, length_take, length_frame_of.
  rewrite Nat.min_l by lia. destruct (_ <? 4) eqn:H4; [done|]. nbool.
  usize_add. rewrite Nat.add_sub'.
  assert (Hlen : slice (length pre) 4 (pre ++ take k (frame_of payload)) = le_bytes 4 (N.of_nat (length payload))).
  { rewrite <- (Nat.add_0_r (length pre)), slice_app_r. unfold slice, frame_of.
    rewrite drop_0, take_take, Nat.min_l, <- !app_assoc by lia. by rewrite take_app_length' by (by rewrite length_le_bytes). }
  rewrite Hlen, le_value_bytes_small by (change (256 ^ N.of_nat 4)%N with 4294967296%N; lia).
  rewrite (proj2 (N.ltb_ge _ _)) by (unfold MAX_FRAME_PAYLOAD; lia). rewrite Nat2N.id.
  cbn [mbind option_bind]. usize_add.
  usize_add. by rewrite (proj2 (Nat.ltb_lt _ _)) by lia.
Qed.

Lemma read_frame_end data : read_frame data (length data) = Ok None.
Proof. unfold read_frame. rewrite Nat.sub_diag. done. Qed.

End frame.
#[global] Arguments frame_of : simpl never.
