(* ===== verification/Wal.v ===== *)
(** The entries of rotortree's write-ahead log ([crates/rotortree/src/storage/wal.rs]): the header
    that pins the tree's shape, the numbered entries, and the decoding of one entry of a log. *)
From S2P Require Import Prelude Hash ChunkedLevel Checksum Frame.

(** ** Data *)

(** [[0x52, 0x4F, 0x54, 0x52]]. *)
Definition FILE_MAGIC : bytes := [x52; x4f; x54; x52].

Inductive WalHeader := HeaderV1 (magic : bytes) (n max_depth : N).

Inductive NewCow := Owned (v : list hash) | Borrowed (s : list hash).

Definition cow_as_slice (c : NewCow) : list hash := match c with Owned v => v | Borrowed s => s end.

Inductive WalPayload := Single (leaf : hash) | Batched (leaves : NewCow).

Record WalEntryV1 := MkEntry { seq_no : N; payload : WalPayload }.

Inductive WalEntry := EntryV1 (e : WalEntryV1).

(** What the codec is asked to carry. *)
Definition header_valid (h : WalHeader) : Prop :=
  match h with HeaderV1 magic n max_depth => length magic = 4 ∧ (n ≤ u32_max)%N ∧ (max_depth ≤ u32_max)%N end.

(** The leaves an entry adds. *)
Definition entry_leaves (p : WalPayload) : list hash :=
  match p with Single leaf => [leaf] | Batched leaves => cow_as_slice leaves end.

Definition entry_valid (e : WalEntry) : Prop :=
  match e with EntryV1 e => (seq_no e ≤ u64_max)%N ∧ Forall hash_wf (entry_leaves (payload e)) end.

Section wal.
Context `{Checksum, Wincode WalHeader, Wincode WalEntry}.

Definition serialize_header (n max_depth : N) : outcome bytes :=
  let header := HeaderV1 FILE_MAGIC n max_depth in
  serialize_frame header.

(** [(n, max_depth, header_frame_size)]. *)
Definition deserialize_header (data : bytes) : result (N * N * nat) StorageError :=
  (let? frame := read_frame data 0 in
   let? frame := ok_or frame (WalCorrupted 0) in
   let (payload, frame_size) := frame in
   let? header := ok_or (wc_deserialize payload) (WalCorrupted 0) in
   let '(HeaderV1 magic n max_depth) := header in
   if negb (bool_decide (magic = FILE_MAGIC)) then Err (WalCorrupted 0) else
   Ok (n, max_depth, frame_size))%works.

Definition serialize_entry (buf : bytes) (seq : N) (payload : WalPayload) : outcome bytes :=
  let entry := EntryV1 (MkEntry seq payload) in
  write_frame buf entry.

Definition deserialize_entry (data : bytes) (offset : nat) (last_seq : option N) :
    result (option (WalEntryV1 * nat)) StorageError :=
  (let? frame := read_frame data offset in
   match frame with
   | None => Ok None
   | Some (payload, frame_size) =>
     match wc_deserialize payload with
     | None => Err (WalCorrupted offset)
     | Some (EntryV1 v1) =>
       match last_seq with
       | None => Ok (Some (v1, frame_size))
       | Some last =>
         let? next := ok_or (u64_checked_add last 1) StorageMathError in
         if negb (seq_no v1 =? next)%N then Ok None else Ok (Some (v1, frame_size))
       end
     end
   end)%works.

(** ** Lemmas *)

(** The frame of an entry and of a header. *)
Definition entry_frame (e : WalEntryV1) : bytes := frame_of (wc_serialize (EntryV1 e)).
Definition header_frame (n max_depth : N) : bytes := frame_of (wc_serialize (HeaderV1 FILE_MAGIC n max_depth)).

(** Entries that a frame can hold. *)
Definition entry_fits (e : WalEntryV1) : Prop :=
  entry_valid (EntryV1 e) ∧ fits_frame (wc_serialize (EntryV1 e)).

Context `{!ChecksumLaws _, !WincodeLaws WalHeader _ header_valid, !WincodeLaws WalEntry _ entry_valid}.

Lemma serialize_entry_ok buf seq p :
  serialize_entry buf seq p =
    if (N.of_nat (length (wc_serialize (EntryV1 (MkEntry seq p)))) <=? MAX_FRAME_PAYLOAD)%N
    then Returns (buf ++ entry_frame (MkEntry seq p)) else Panics.
Proof. apply write_frame_ok. Qed.

(** An entry that follows the last one is read back, wherever it stands. *)
Lemma deserialize_entry_whole pre e post last :
  entry_fits e → fits_vec (pre ++ entry_frame e ++ post) →
  (∀ l, last = Some l → seq_no e = (l + 1)%N) →
  deserialize_entry (pre ++ entry_frame e ++ post) (length pre) last = Ok (Some (e, length (entry_frame e))).
Proof.
  intros [Hvalid Hfits] Hv Hlast. unfold deserialize_entry, entry_frame.
  rewrite read_frame_whole by done. cbn [result_bind]. rewrite wc_roundtrip by done.
  destruct last as [l|]; [|done]. specialize (Hlast l eq_refl). destruct Hvalid as [Hseq _].
  unfold u64_checked_add. rewrite (proj2 (N.leb_le _ _)) by lia. cbn [ok_or result_bind].
  by rewrite Hlast, N.eqb_refl.
Qed.

(** An entry with another number ends the log. *)
Lemma deserialize_entry_gap pre e post l :
  entry_fits e → fits_vec (pre ++ entry_frame e ++ post) → (l + 1 ≤ u64_max)%N → seq_no e ≠ (l + 1)%N →
  deserialize_entry (pre ++ entry_frame e ++ post) (length pre) (Some l) = Ok None.
Proof.
  intros [Hvalid Hfits] Hv Hl Hgap. unfold deserialize_entry, entry_frame.
  rewrite read_frame_whole by done. cbn [result_bind]. rewrite wc_roundtrip by done.
  unfold u64_checked_add. rewrite (proj2 (N.leb_le _ _)) by lia. cbn [ok_or result_bind].
  by rewrite (proj2 (N.eqb_neq _ _)).
Qed.

(** So do the end of the data and the beginning of an entry. *)
Lemma deserialize_entry_torn pre e k last :
  entry_fits e → fits_vec pre → k < length (entry_frame e) →
  deserialize_entry (pre ++ take k (entry_frame e)) (length pre) last = Ok None.
Proof. intros [_ Hfits] Hv Hk. unfold deserialize_entry, entry_frame. by rewrite read_frame_torn. Qed.

Lemma deserialize_entry_end data last : deserialize_entry data (length data) last = Ok None.
Proof. unfold deserialize_entry. by rewrite read_frame_end. Qed.

Lemma serialize_header_ok n max_depth : fits_frame (wc_serialize (HeaderV1 FILE_MAGIC n max_depth)) →
  serialize_header n max_depth = Returns (header_frame n max_depth).
Proof.
  intros Hfits. unfold serialize_header, serialize_frame. rewrite write_frame_ok.
  by rewrite (proj2 (N.leb_le _ _)).
Qed.

Lemma deserialize_header_whole n max_depth post :
  (n ≤ u32_max)%N → (max_depth ≤ u32_max)%N →
  fits_frame (wc_serialize (HeaderV1 FILE_MAGIC n max_depth)) → fits_vec (header_frame n max_depth ++ post) →
  deserialize_header (header_frame n max_depth ++ post) = Ok (n, max_depth, length (header_frame n max_depth)).
Proof.
  intros Hn Hm Hfits Hv. unfold deserialize_header, header_frame.
  assert (Hread : read_frame (frame_of (wc_serialize (HeaderV1 FILE_MAGIC n max_depth)) ++ post) 0 =
    Ok (Some (wc_serialize (HeaderV1 FILE_MAGIC n max_depth), length (header_frame n max_depth))))
    by exact (read_frame_whole [] _ post Hfits Hv).
  rewrite Hread. cbn [result_bind ok_or].
  by rewrite wc_roundtrip by done.
Qed.
End wal.
