(* ===== verification/WalFile.v ===== *)
(** The file a log lives in: what recovery asks of one (the trait [WalFile] of
    [crates/rotortree/src/storage/recovery.rs], over [Read], [Write] and [Seek]), and its
    implementation for [std::fs::File]: a regular file whose calls may fail half-way and of which a
    crash keeps what was synced. *)
From S2P Require Import Prelude Hash ChunkedLevel Checksum Frame.

(** ** Interface *)

Class WalFile (F : Type) := {
  file_len : SM F IoError N;
  truncate_at : N → SM F IoError ();
  file_sync : SM F IoError ();
  seek_start : N → SM F IoError ();
  read_exact : nat → SM F IoError bytes;
  write_all : bytes → SM F IoError ();
}.

(** ** Regular files *)

(** The bytes of the file, the position of the handle, the bytes that were last synced, and a
    script of what the next calls meet: [None] is success, [Some k] a failure, of a write after [k]
    bytes. Calls past the end of the script succeed. Seeking within a regular file cannot fail. *)
Record File := MkFile {
  content : bytes;
  cursor : nat;
  synced : bytes;
  faults : list (option nat);
}.

Definition next_fault (f : File) : File * option nat :=
  (MkFile (content f) (cursor f) (synced f) (tail (faults f)), default None (head (faults f))).

(** Bytes written at a position, past the end after zeros. *)
Definition overwrite (pos : nat) (new old : bytes) : bytes :=
  take pos old ++ replicate (pos - length old) x00 ++ new ++ drop (pos + length new) old.

(** [File::set_len]. *)
Definition resize (n : nat) (bs : bytes) : bytes := take n bs ++ replicate (n - length bs) x00.

(** A call that fails without an effect. *)
Definition faulty {A} (m : SM File IoError A) : SM File IoError A :=
  fault ← sm_step next_fault;
  match fault with None => m | Some _ => sm_fail IoFailed end.

Definition fs_write_all (bs : bytes) : SM File IoError () :=
  fault ← sm_step next_fault;
  let written := match fault with None => bs | Some k => take k bs end in
  sm_modify (λ f, MkFile (overwrite (cursor f) written (content f)) (cursor f + length written) (synced f) (faults f));;
  match fault with None => mret () | Some _ => sm_fail IoFailed end.

Definition fs_read_exact (n : nat) : SM File IoError bytes := faulty (
  f ← sm_get;
  if cursor f + n <=? length (content f)
  then sm_modify (λ f, MkFile (content f) (cursor f + n) (synced f) (faults f));; mret (slice (cursor f) n (content f))
  else sm_modify (λ f, MkFile (content f) (length (content f)) (synced f) (faults f));; sm_fail IoFailed).

Definition fs_seek_start (pos : N) : SM File IoError () :=
  sm_modify (λ f, MkFile (content f) (N.to_nat pos) (synced f) (faults f)).

Definition fs_stream_position : SM File IoError N :=
  f ← sm_get; mret (N.of_nat (cursor f)).

Definition fs_set_len (len : N) : SM File IoError () := faulty (
  sm_modify (λ f, MkFile (resize (N.to_nat len) (content f)) (cursor f) (synced f) (faults f))).

Definition fs_sync_data : SM File IoError () := faulty (
  sm_modify (λ f, MkFile (content f) (cursor f) (content f) (faults f))).

Definition fs_len : SM File IoError N := faulty (f ← sm_get; mret (N.of_nat (length (content f)))).

#[export] Instance fs_wal_file : WalFile File := {|
  file_len := fs_len;
  truncate_at := fs_set_len;
  file_sync := fs_sync_data;
  seek_start := fs_seek_start;
  read_exact := fs_read_exact;
  write_all := fs_write_all;
|}.

(** What a crash leaves of a file that only grew since it was synced: the synced bytes, and some
    of those after them. *)
Inductive crash_leaves (f : File) : bytes → Prop :=
| crash_synced : crash_leaves f (synced f)
| crash_torn k : synced f `prefix_of` take k (content f) → crash_leaves f (take k (content f)).

(** A file opened after a crash, or closed and opened. *)
Definition opened (bs : bytes) : File := MkFile bs 0 bs [].

(** ** Lemmas *)

Lemma overwrite_end new old : overwrite (length old) new old = old ++ new.
Proof.
  unfold overwrite. rewrite take_ge, Nat.sub_diag, drop_ge, app_nil_r by lia. done.
Qed.

(** Two beginnings of the same bytes on top of each other. *)
Lemma overwrite_prefix old w junk buf :
  w `prefix_of` buf → junk `prefix_of` buf →
  ∃ junk', overwrite (length old) w (old ++ junk) = old ++ junk' ∧ junk' `prefix_of` buf ∧ (w = buf → junk' = buf).
Proof.
  intros Hw Hj. unfold overwrite. rewrite take_app_length, length_app, drop_app_add.
  replace (length old - _) with 0 by lia. cbn [replicate app].
  destruct (prefix_weak_total _ _ _ Hw Hj) as [[rest ->]|Hjw].
  - rewrite drop_app_length. exists (w ++ rest). split_and!; [done..|]. intros ->. apply prefix_length in Hj.
    rewrite length_app in Hj. by rewrite (nil_length_inv rest), app_nil_r by lia.
  - exists w. rewrite drop_ge, app_nil_r by (by apply prefix_length). done.
Qed.

(** The outcome of a write, under any fault. *)
Lemma fs_write_all_spec bs f : ∃ f' r w,
  fs_write_all bs f = (f', Returns r) ∧ w `prefix_of` bs ∧ content f' = overwrite (cursor f) w (content f) ∧
  cursor f' = cursor f + length w ∧ synced f' = synced f ∧ (r = Ok () → w = bs).
Proof.
  unfold fs_write_all, mbind, sm_bind, sm_step, next_fault, sm_modify. destruct (faults f) as [|[k|] fs];
    cbn [head tail default from_option id]; eexists _, _, _; (split; [reflexivity|]); try done.
  split; [|done]. exists (drop k bs). by rewrite take_drop.
Qed.

(** What an overwrite leaves before its position, puts there, and how long it makes the file. *)
Lemma length_overwrite pos new old :
  pos + length new ≤ length (overwrite pos new old) ∧ length old ≤ length (overwrite pos new old).
Proof. unfold overwrite. rewrite !length_app, length_replicate, length_take, length_drop. lia. Qed.

Lemma overwrite_before o n pos new old :
  o + n ≤ pos → o + n ≤ length old → slice o n (overwrite pos new old) = slice o n old.
Proof.
  intros Hpos Hold. apply slice_ext. intros i Hi. unfold overwrite.
  rewrite lookup_app_l by (rewrite length_take; lia). by rewrite lookup_take_lt by lia.
Qed.

Lemma overwrite_at pos new old : slice pos (length new) (overwrite pos new old) = new.
Proof.
  unfold slice, overwrite. rewrite app_assoc.
  rewrite drop_app_length' by (rewrite length_app, length_take, length_replicate; lia). apply take_app_length.
Qed.

Lemma resize_app old new : resize (length old) (old ++ new) = old.
Proof.
  unfold resize. rewrite take_app_length, length_app. replace (length old - _) with 0 by lia. apply app_nil_r.
Qed.
#[global] Arguments overwrite : simpl never.
#[global] Arguments resize : simpl never.
