(* ===== verification/Recovery.v ===== *)
(** Recovery of a tree from its write-ahead log ([crates/rotortree/src/storage/recovery.rs]): the
    entries are replayed, what follows the last whole one is cut off. *)
From S2P Require Import Prelude Hash ChunkedLevel Tree TreeSpec Checksum Frame Wal WalFile.

(** [RecoveryResult]. *)
Record RecoveryResult := MkRecovery { inner : TreeInner; next_seq : N }.

(** [as u32]. *)
Definition as_u32 (n : nat) : N := (N.of_nat n mod 4294967296)%N.

Lemma as_u32_bound n : (as_u32 n ≤ u32_max)%N.
Proof. unfold as_u32, u32_max. pose proof (N.mod_lt (N.of_nat n) 4294967296). lia. Qed.

(** The [?] operator on an [io::Result]. *)
Definition sm_io {S A} (m : SM S IoError A) : SM S StorageError A := sm_map_err Io m.

Section recovery.
Context (nary max_depth : nat) `{!Hasher} (par : option nat).
Context `{!Checksum, Wincode WalHeader, Wincode WalEntry}.

(** ** Replay *)

Definition flush_pending (pending : list hash) : SM TreeInner StorageError () :=
  if bool_decide (pending = []) then mret () else
  sm_map_err TreeFailed (_insert_many nary max_depth par pending);; mret ().

Definition should_replay (skip_until_seq : option N) (e : WalEntryV1) : bool :=
  match skip_until_seq with Some skip => (skip <? seq_no e)%N | None => true end.

(** An entry that is not skipped; the result is the vector of pending leaves. *)
Definition replay_entry (e : WalEntryV1) (pending_singles : list hash) : SM TreeInner StorageError (list hash) :=
  match payload e with
  | Single leaf => mret (pending_singles ++ [leaf])
  | Batched cow =>
    flush_pending pending_singles;;
    sm_map_err TreeFailed (_insert_many nary max_depth par (cow_as_slice cow));;
    mret []
  end.

(** The loop, from [offset] on; [None] is out of fuel. *)
Fixpoint replay_loop (fuel : nat) (entry_data : bytes) (skip_until_seq : option N) (offset : nat)
    (last_seq : option N) (pending_singles : list hash) (t : TreeInner) :
    option (TreeInner * outcome (result (option N * nat * list hash) StorageError)) :=
  match fuel with
  | O => None
  | S fuel =>
    match deserialize_entry entry_data offset last_seq with
    | Ok (Some (entry, consumed)) =>
      match (if should_replay skip_until_seq entry then replay_entry entry pending_singles
             else mret pending_singles) t with
      | (t, Returns (Ok pending_singles)) =>
        match usize_checked_add offset consumed with
        | None => Some (t, Returns (Err StorageMathError))
        | Some offset => replay_loop fuel entry_data skip_until_seq offset (Some (seq_no entry)) pending_singles t
        end
      | (t, Returns (Err e)) => Some (t, Returns (Err e))
      | (t, Panics) => Some (t, Panics)
      end
    | Ok None => Some (t, Returns (Ok (last_seq, offset, pending_singles)))
    | Err e => Some (t, Returns (Err e))
    end
  end.

(** [(last_seq, offset)]. Every entry takes a byte at least, so that the fuel is never used up
    ([replay_terminates]). *)
Definition replay_wal_entries (entry_data : bytes) (skip_until_seq : option N) :
    SM TreeInner StorageError (option N * nat) :=
  r ← (λ t, default (t, Panics) (replay_loop (S (length entry_data)) entry_data skip_until_seq 0 None [] t));
  let '(last_seq, offset, pending_singles) := r in
  flush_pending pending_singles;;
  mret (last_seq, offset).

(** ** Recovery *)

Section file.
Context {F} `{WalFile F}.

(** What [recover] and [recover_with_checkpoint] do alike with a log that is not empty: it is
    read, its header compared, its entries replayed into [t], and its end cut off. *)
Definition replay_file (len : N) (skip_until_seq : option N) (t : TreeInner) : SM F StorageError (TreeInner * option N) :=
  file_len_usize ← sm_try (map_err (λ _, StorageMathError) (u64_to_usize len));
  sm_io (seek_start 0);;
  all_data ← sm_io (read_exact file_len_usize);
  header ← sm_try (deserialize_header all_data);
  let '(n, depth, header_size) := header in
  if negb (n =? as_u32 nary)%N || negb (depth =? as_u32 max_depth)%N
  then sm_fail (ConfigMismatch (as_u32 nary) n (as_u32 max_depth) depth) else
  entry_data ← sm_outcome (subslice header_size (length all_data) all_data);
  replay ← sm_run (replay_wal_entries entry_data skip_until_seq) t;
  let '(t, (last_seq, valid_offset)) := replay in
  valid_end ← sm_try (ok_or (u64_checked_add (N.of_nat header_size) (N.of_nat valid_offset)) StorageMathError);
  (if (valid_end <? len)%N then sm_io (truncate_at valid_end);; sm_io file_sync else mret ());;
  sm_io (seek_start valid_end);;
  mret (t, last_seq).

(** An empty log gets its header. *)
Definition fresh_header : SM F StorageError () :=
  buf ← sm_outcome (serialize_header (as_u32 nary) (as_u32 max_depth));
  sm_io (write_all buf);;
  sm_io file_sync.

Definition recover : SM F StorageError RecoveryResult :=
  len ← sm_io file_len;
  if (len =? 0)%N then
    fresh_header;;
    mret (MkRecovery (tree_new max_depth) 0)
  else
    replay ← replay_file len None (tree_new max_depth);
    let '(t, last_seq) := replay in
    next ← match last_seq with
           | Some s => sm_try (ok_or (u64_checked_add s 1) StorageMathError)
           | None => mret 0%N
           end;
    mret (MkRecovery t next).
End file.

(** ** Specification *)

(** The bytes of a log's entries. *)
Definition log_bytes (es : list WalEntryV1) : bytes := mjoin (entry_frame <$> es).

(** The leaves that entries add, those up to [skip] left out. *)
Definition replayed (skip : option N) (es : list WalEntryV1) : list hash :=
  mjoin ((λ e, if should_replay skip e then entry_leaves (payload e) else []) <$> es).

(** Entries numbered from [n] on. *)
Fixpoint numbered (n : N) (es : list WalEntryV1) : Prop :=
  match es with
  | [] => True
  | e :: es => seq_no e = n ∧ numbered (n + 1) es
  end.

(** Entries as insertions write them. *)
Definition entry_ok (e : WalEntryV1) : Prop := entry_fits e ∧ entry_leaves (payload e) ≠ [].

(** The number of the last entry. *)
Definition last_number (last : option N) (es : list WalEntryV1) : option N :=
  match list.last es with Some e => Some (seq_no e) | None => last end.

(** ** Lemmas: termination *)

Lemma read_frame_progress data offset payload size :
  read_frame data offset = Ok (Some (payload, size)) → 0 < size ∧ offset + size ≤ length data ∧ fits_frame payload.
Proof.
  unfold read_frame. repeat (case_match; try discriminate). intros [= <- <-]. nbool.
  unfold usize_checked_add in *. repeat (case_match; simplify_option_eq). nbool.
  assert (∀ o n, length (slice o n data) ≤ n) as Hs by (intros; unfold slice; rewrite length_take; lia).
  match goal with |- context [length (slice ?o ?n data)] => specialize (Hs o n) end. lia.
Qed.

Lemma deserialize_entry_progress data offset last e size :
  deserialize_entry data offset last = Ok (Some (e, size)) → 0 < size ∧ offset + size ≤ length data.
Proof.
  unfold deserialize_entry, result_bind. destruct (read_frame data offset) as [[[payload size']|]|] eqn:Hr; try discriminate.
  intros Heq. assert (size' = size) as <-; [|apply read_frame_progress in Hr; tauto].
  repeat (case_match; try discriminate); by simplify_eq.
Qed.

(** ** Lemmas: entries *)

Lemma log_bytes_cons e es : log_bytes (e :: es) = entry_frame e ++ log_bytes es.
Proof. done. Qed.
Lemma log_bytes_app es1 es2 : log_bytes (es1 ++ es2) = log_bytes es1 ++ log_bytes es2.
Proof. unfold log_bytes. by rewrite fmap_app, join_app. Qed.

Lemma replayed_app skip es1 es2 : replayed skip (es1 ++ es2) = replayed skip es1 ++ replayed skip es2.
Proof. unfold replayed. by rewrite fmap_app, join_app. Qed.

Lemma numbered_app n es1 es2 : numbered n (es1 ++ es2) ↔ numbered n es1 ∧ numbered (n + N.of_nat (length es1)) es2.
Proof.
  revert n. induction es1 as [|e es1 IH]; intros n; cbn [numbered app length]; [rewrite N.add_0_r; tauto|].
  rewrite IH. replace (n + N.of_nat (S (length es1)))%N with (n + 1 + N.of_nat (length es1))%N by lia. tauto.
Qed.

Lemma numbered_last n es e : numbered n es → list.last es = Some e → (seq_no e + 1 = n + N.of_nat (length es))%N.
Proof.
  intros Hnum Hlast. destruct (exists_last (l := es)) as (es' & e' & ->); [by intros ->|].
  rewrite last_snoc in Hlast. simplify_eq. apply numbered_app in Hnum as [_ [Hnum _]].
  rewrite length_app. simpl. lia.
Qed.

Lemma length_log_bytes es : length es ≤ length (log_bytes es).
Proof.
  induction es as [|e es IH]; [done|]. rewrite log_bytes_cons, length_app.
  pose proof (length_frame_of (wc_serialize (EntryV1 e))) as Hlen. unfold entry_frame. simpl. lia.
Qed.

(** ** Lemmas: replay of arbitrary bytes *)

Context (Hn : 2 ≤ nary) (Hmd1 : 1 ≤ max_depth) `{!HasherLaws _}.
Abbreviation tree_rep := (tree_rep nary max_depth).
Abbreviation tree_depth := (tree_depth nary).

(** A batch is inserted, or refused without a trace. *)
Lemma insert_many_total xs ys t :
  tree_rep t xs → (N.of_nat (length ys) ≤ u64_max)%N →
  ∃ t' r zs, _insert_many nary max_depth par ys t = (t', Returns r) ∧ tree_rep t' (xs ++ zs).
Proof.
  intros Hrep Hlen. destruct (insert_many_refused nary max_depth Hn Hmd1 par xs ys t Hrep Hlen) as (Hempty & Hcap & Hdep).
  assert (∀ r, _insert_many nary max_depth par ys t = (t, Returns r) →
    ∃ t' r zs, _insert_many nary max_depth par ys t = (t', Returns r) ∧ tree_rep t' (xs ++ zs)) as Hsame.
  { intros r Hr. exists t, r, []. by rewrite app_nil_r. }
  destruct (decide (ys = [])) as [Heq|Hne]; [by eapply Hsame, Hempty|].
  destruct (decide (N.of_nat (length (xs ++ ys)) ≤ u64_max)%N) as [Hok|Hov]; [|eapply Hsame, Hcap; [done|lia]].
  destruct (decide (tree_depth (xs ++ ys) ≤ max_depth)) as [Hd|Hd]; [|eapply Hsame, Hdep; [done..|lia]].
  destruct (insert_many_spec nary max_depth Hn Hmd1 par xs ys Hne Hok Hd t Hrep) as (t' & r & Hr & Hrep' & _).
  by exists t', (Ok r), ys.
Qed.

Lemma flush_pending_total xs pending t :
  tree_rep t xs → (N.of_nat (length pending) ≤ u64_max)%N →
  ∃ t' r zs, flush_pending pending t = (t', Returns r) ∧ tree_rep t' (xs ++ zs).
Proof.
  intros Hrep Hlen. unfold flush_pending. case_bool_decide.
  { exists t, (Ok ()), []. by rewrite app_nil_r. }
  destruct (insert_many_total xs pending t Hrep Hlen) as (t' & r & zs & Hr & Hrep').
  unfold mbind, sm_bind, sm_map_err. rewrite Hr. destruct r; eexists t', _, zs; done.
Qed.

Section arbitrary.
(** A decoded vector holds no more leaves than memory can. *)
Context (Hdecoded : ∀ bs e, fits_frame bs → wc_deserialize bs = Some (EntryV1 e) →
  (N.of_nat (length (entry_leaves (payload e))) ≤ u64_max)%N).

Lemma deserialize_entry_decoded data offset last e size :
  deserialize_entry data offset last = Ok (Some (e, size)) →
  (N.of_nat (length (entry_leaves (payload e))) ≤ u64_max)%N.
Proof.
  unfold deserialize_entry, result_bind.
  destruct (read_frame data offset) as [[[bs size']|]|] eqn:Hr; try discriminate. apply read_frame_progress in Hr as (_ & _ & Hfits).
  destruct (wc_deserialize bs) as [[e']|] eqn:Hbs; [|discriminate].
  intros Heq. assert (e' = e) as <-; [|by eapply Hdecoded]. repeat (case_match; try discriminate); by simplify_eq.
Qed.

Lemma replay_entry_total xs pending e t :
  tree_rep t xs → (N.of_nat (length pending) ≤ u64_max)%N →
  (N.of_nat (length (entry_leaves (payload e))) ≤ u64_max)%N →
  ∃ t' r zs, replay_entry e pending t = (t', Returns r) ∧ tree_rep t' (xs ++ zs) ∧
    ∀ p, r = Ok p → length p ≤ S (length pending).
Proof.
  intros Hrep Hp He. unfold replay_entry. destruct (payload e) as [leaf|cow].
  { exists t, (Ok (pending ++ [leaf])), []. rewrite app_nil_r. split_and!; [done..|].
    intros p [= <-]. rewrite length_app. simpl. lia. }
  destruct (flush_pending_total xs pending t Hrep Hp) as (t1 & r1 & zs1 & Hr1 & Hrep1).
  unfold mbind, sm_bind. rewrite Hr1. destruct r1 as [[]|err]; [|by exists t1, (Err err), zs1].
  destruct (insert_many_total (xs ++ zs1) (cow_as_slice cow) t1 Hrep1 He) as (t2 & r2 & zs2 & Hr2 & Hrep2).
  unfold sm_map_err. rewrite Hr2. rewrite <- app_assoc in Hrep2.
  destruct r2; eexists t2, _, (zs1 ++ zs2); (split_and!; [done..|]); [intros p [= <-]; simpl; lia|done].
Qed.

Lemma replay_loop_total fuel data skip offset last pending t xs :
  tree_rep t xs → (N.of_nat (length data) ≤ u64_max)%N → length pending ≤ offset →
  offset ≤ length data → length data - offset < fuel →
  ∃ t' r zs, replay_loop fuel data skip offset last pending t = Some (t', Returns r) ∧ tree_rep t' (xs ++ zs) ∧
    ∀ l o p, r = Ok (l, o, p) → length p ≤ length data.
Proof.
  intros Hrep Hdata. revert offset last pending t xs Hrep.
  induction fuel as [|fuel IH]; intros offset last pending t xs Hrep Hpo Hoff Hfuel; [lia|]. cbn [replay_loop].
  destruct (deserialize_entry data offset last) as [[[e size]|]|err] eqn:He.
  2: { eexists t, _, []. rewrite app_nil_r. split_and!; [done..|]. intros l o p [= <- <- <-]. lia. }
  2: { eexists t, _, []. rewrite app_nil_r. by split_and!. }
  destruct (deserialize_entry_progress _ _ _ _ _ He) as [Hsize Hend].
  pose proof (deserialize_entry_decoded _ _ _ _ _ He) as Hleaves.
  assert (∃ t' r zs, (if should_replay skip e then replay_entry e pending else mret pending) t = (t', Returns r) ∧
    tree_rep t' (xs ++ zs) ∧ ∀ p, r = Ok p → length p ≤ S (length pending)) as (t1 & r1 & zs1 & Hr1 & Hrep1 & Hp1).
  { case_match; [apply replay_entry_total; [done|lia|done]|].
    exists t, (Ok pending), []. rewrite app_nil_r. split_and!; [done..|]. intros p [= <-]. lia. }
  rewrite Hr1. destruct r1 as [p1|err]; [|by eexists t1, _, zs1].
  unfold usize_checked_add. rewrite (proj2 (N.leb_le _ _)) by lia. specialize (Hp1 p1 eq_refl).
  destruct (IH (offset + size) (Some (seq_no e)) p1 t1 _ Hrep1) as (t2 & r2 & zs2 & Hr2 & Hrep2 & Hp2); [lia..|].
  exists t2, r2, (zs1 ++ zs2). split_and!; [done| |done]. by rewrite app_assoc.
Qed.

Lemma replay_wal_entries_total data skip t xs :
  tree_rep t xs → (N.of_nat (length data) ≤ u64_max)%N →
  ∃ t' r zs, replay_wal_entries data skip t = (t', Returns r) ∧ tree_rep t' (xs ++ zs).
Proof.
  intros Hrep Hdata. unfold replay_wal_entries, mbind at 1, sm_bind at 1.
  destruct (replay_loop_total (S (length data)) data skip 0 None [] t xs Hrep Hdata)
    as (t1 & r1 & zs1 & Hr1 & Hrep1 & Hp1); [simpl; lia..|].
  rewrite Hr1. cbn [default]. destruct r1 as [[[last offset] pending]|err]; [|by eexists t1, _, zs1].
  specialize (Hp1 _ _ _ eq_refl).
  destruct (flush_pending_total _ pending t1 Hrep1) as (t2 & r2 & zs2 & Hr2 & Hrep2); [lia|].
  unfold id, mbind, sm_bind. rewrite Hr2. rewrite <- app_assoc in Hrep2. destruct r2; by eexists t2, _, (zs1 ++ zs2).
Qed.
End arbitrary.

(** ** Lemmas: replay of a log *)

Context `{!ChecksumLaws _, !WincodeLaws WalHeader _ header_valid, !WincodeLaws WalEntry _ entry_valid}.

Lemma flush_pending_ok xs pending t :
  tree_rep t xs → (N.of_nat (length (xs ++ pending)) ≤ u64_max)%N → tree_depth (xs ++ pending) ≤ max_depth →
  ∃ t', runs_to (flush_pending pending) t t' () ∧ tree_rep t' (xs ++ pending).
Proof.
  intros Hrep Hmax Hd. unfold flush_pending. case_bool_decide as Hne.
  { exists t. subst pending. by rewrite app_nil_r. }
  destruct (insert_many_spec nary max_depth Hn Hmd1 par xs pending Hne Hmax Hd t Hrep) as (t' & r & Hr & Hrep' & _).
  exists t'. split; [|done]. unfold runs_to. by rewrite (sm_bind_ok _ _ _ _ _ (sm_map_err_ok TreeFailed _ _ _ _ Hr)).
Qed.

Lemma replay_loop_ok fuel skip es : ∀ pre tl n last pending t xs,
  tree_rep t xs → (N.of_nat (length (xs ++ pending ++ replayed skip es)) ≤ u64_max)%N →
  tree_depth (xs ++ pending ++ replayed skip es) ≤ max_depth →
  numbered n es → Forall entry_ok es → (∀ l, last = Some l → n = (l + 1)%N) →
  fits_vec (pre ++ log_bytes es ++ tl) →
  (∀ last, deserialize_entry (pre ++ log_bytes es ++ tl) (length (pre ++ log_bytes es)) last = Ok None) →
  length es < fuel →
  ∃ t' pending' ys, replay_loop fuel (pre ++ log_bytes es ++ tl) skip (length pre) last pending t =
      Some (t', Returns (Ok (last_number last es, length (pre ++ log_bytes es), pending'))) ∧
    tree_rep t' ys ∧ ys ++ pending' = xs ++ pending ++ replayed skip es.
Proof.
  revert es. induction fuel as [|fuel IH]; intros es pre tl n last pending t xs Hrep Hmax Hd Hnum Hok Hlast Hv Hend Hfuel; [lia|].
  destruct es as [|e es].
  { simpl in Hend |- *. rewrite app_nil_r in Hend |- *. rewrite Hend.
    eexists t, pending, xs. split_and!; [done..|]. by rewrite app_nil_r. }
  apply list.Forall_cons in Hok as [[Hfits Hne] Hok]. destruct Hnum as [Hseq Hnum].
  rewrite log_bytes_cons, <- app_assoc in Hv, Hend |- *. cbn [replay_loop].
  rewrite (deserialize_entry_whole pre e (log_bytes es ++ tl) last Hfits Hv) by (intros l ->; rewrite Hseq; by apply Hlast).
  set (new := if should_replay skip e then entry_leaves (payload e) else []).
  assert (replayed skip (e :: es) = new ++ replayed skip es) as Hrepl by done.
  rewrite Hrepl in Hmax, Hd |- *. rewrite !app_assoc in Hmax, Hd. rewrite <- (app_assoc xs) in Hmax, Hd.
  pose proof (tree_depth_app nary Hn _ _ Hmax) as Hd1. pose proof Hmax as Hmax1. rewrite length_app in Hmax1.
  assert (∃ t1 pending1 ys1, (if should_replay skip e then replay_entry e pending else mret pending) t =
    (t1, Returns (Ok pending1)) ∧ tree_rep t1 ys1 ∧ ys1 ++ pending1 = xs ++ pending ++ new) as (t1 & p1 & ys1 & Hr1 & Hrep1 & Heq1).
  { subst new. destruct (should_replay skip e); [|exists t, pending, xs; by rewrite app_nil_r].
    unfold replay_entry. destruct (payload e) as [leaf|cow]; [by eexists t, _, xs|].
    simpl entry_leaves in *. rewrite app_assoc in Hmax1, Hd1. rewrite app_assoc in Hmax, Hd.
    assert (N.of_nat (length ((xs ++ pending) ++ cow_as_slice cow)) ≤ u64_max)%N as Hmax2 by lia.
    pose proof (tree_depth_app nary Hn _ _ Hmax2) as Hd2.
    destruct (flush_pending_ok xs pending t Hrep) as (t1 & Hr1 & Hrep1); [rewrite length_app in Hmax2; lia|lia|].
    destruct (insert_many_spec nary max_depth Hn Hmd1 par _ _ Hne Hmax2 ltac:(lia) t1 Hrep1) as (t2 & r & Hr2 & Hrep2 & _).
    exists t2, [], ((xs ++ pending) ++ cow_as_slice cow).
    rewrite (sm_bind_ok _ _ _ _ _ Hr1), (sm_bind_ok _ _ _ _ _ (sm_map_err_ok TreeFailed _ _ _ _ Hr2)).
    by rewrite app_nil_r, app_assoc. }
  rewrite Hr1. rewrite usize_add_ok.
  2: { rewrite !length_app in Hv. unfold u64_max. lia. }
  rewrite <- length_app.
  replace (pre ++ entry_frame e ++ log_bytes es ++ tl) with ((pre ++ entry_frame e) ++ log_bytes es ++ tl) in * by (by rewrite <- app_assoc).
  rewrite !app_assoc in Hend. rewrite <- (app_assoc _ _ tl) in Hend.
  destruct (IH es (pre ++ entry_frame e) tl (n + 1)%N (Some (seq_no e)) p1 t1 ys1 Hrep1) as (t2 & p2 & ys2 & Hr2 & Hrep2 & Heq2); try done.
  - rewrite app_assoc, Heq1. done.
  - rewrite app_assoc, Heq1. done.
  - intros l Hl. injection Hl as <-. by rewrite Hseq.
  - simpl in Hfuel. lia.
  - exists t2, p2, ys2. split_and!; [|done|].
    + rewrite Hr2, <- app_assoc. do 5 f_equal. unfold last_number. destruct es as [|e' es]; [done|].
      rewrite last_cons_cons. destruct (list.last (e' :: es)) eqn:Hl; [done|]. by apply last_None in Hl.
    + rewrite Heq2, app_assoc, Heq1, <- !app_assoc. done.
Qed.

(** What follows the entries reads as the end of the log. *)
Definition ends_log (es : list WalEntryV1) (tl : bytes) : Prop :=
  ∀ last, deserialize_entry (log_bytes es ++ tl) (length (log_bytes es)) last = Ok None.

Lemma ends_log_nil es : ends_log es [].
Proof. intros last. rewrite app_nil_r. apply deserialize_entry_end. Qed.

Lemma ends_log_torn es e k :
  entry_fits e → fits_vec (log_bytes es) → k < length (entry_frame e) →
  ends_log es (take k (entry_frame e)).
Proof. intros He Hv Hk last. by apply deserialize_entry_torn. Qed.

Lemma replay_wal_entries_ok skip es tl n t xs :
  tree_rep t xs → (N.of_nat (length (xs ++ replayed skip es)) ≤ u64_max)%N →
  tree_depth (xs ++ replayed skip es) ≤ max_depth →
  numbered n es → Forall entry_ok es → fits_vec (log_bytes es ++ tl) → ends_log es tl →
  ∃ t', runs_to (replay_wal_entries (log_bytes es ++ tl) skip) t t' (last_number None es, length (log_bytes es)) ∧
    tree_rep t' (xs ++ replayed skip es).
Proof.
  intros Hrep Hmax Hd Hnum Hok Hv Hend.
  destruct (replay_loop_ok (S (length (log_bytes es ++ tl))) skip es [] tl n None [] t xs Hrep)
    as (t1 & pending & ys & Hr1 & Hrep1 & Heq); try done.
  { rewrite length_app. pose proof (length_log_bytes es). lia. }
  simpl app in *. rewrite <- Heq in Hmax, Hd |- *.
  destruct (flush_pending_ok ys pending t1 Hrep1 Hmax Hd) as (t2 & Hr2 & Hrep2).
  exists t2. split; [|done]. unfold runs_to, replay_wal_entries, mbind at 1, sm_bind at 1. 
  simpl length in Hr1. rewrite Hr1. cbn [default from_option]. unfold id.
  by rewrite (sm_bind_ok _ _ _ _ _ Hr2).
Qed.

(** ** Lemmas: recovery from a file *)

(** The shape of the tree fits the header, and a header fits a frame. *)
Definition shape_ok : Prop := fits_frame (wc_serialize (HeaderV1 FILE_MAGIC (as_u32 nary) (as_u32 max_depth))).
Abbreviation header := (header_frame (as_u32 nary) (as_u32 max_depth)).

Lemma length_header : 0 < length header.
Proof. unfold header_frame. rewrite length_frame_of. lia. Qed.

Lemma sm_io_ok {S A} (m : SM S IoError A) s s' a : runs_to m s s' a → runs_to (sm_io m) s s' a.
Proof. apply sm_map_err_ok. Qed.

(** The number after the last entry's. *)
Lemma next_after es n :
  numbered n es → Forall entry_ok es → (n + N.of_nat (length es) ≤ u64_max)%N →
  match last_number None es with
  | Some s => ok_or (u64_checked_add s 1) StorageMathError
  | None => Ok n
  end = Ok (n + N.of_nat (length es))%N.
Proof.
  intros Hnum Hok Hmax. unfold last_number. destruct (list.last es) as [e|] eqn:Hlast.
  - rewrite <- (numbered_last _ _ _ Hnum Hlast) in Hmax |- *.
    unfold u64_checked_add. by rewrite (proj2 (N.leb_le _ _)).
  - apply last_None in Hlast as ->. by rewrite N.add_0_r.
Qed.

(** A whole file is read. *)
Lemma read_exact_all bs :
  runs_to (fs_read_exact (length bs)) (opened bs) (MkFile bs (length bs) bs []) bs.
Proof.
  unfold runs_to, fs_read_exact, faulty, opened, mbind, sm_bind, sm_step, next_fault, sm_get, sm_modify, mret, sm_ret. simpl.
  rewrite Nat.leb_refl. unfold slice. by rewrite drop_0, firstn_all.
Qed.

(** What recovery does to the file: the end that is not part of the log is cut off. *)
Lemma cut_tail (old tl : bytes) :
  runs_to (if (N.of_nat (length old) <? N.of_nat (length (old ++ tl)))%N
           then sm_io (fs_set_len (N.of_nat (length old)));; sm_io fs_sync_data else mret ())
    (MkFile (old ++ tl) (length (old ++ tl)) (old ++ tl) []) (MkFile old (length (old ++ tl)) old []) ().
Proof.
  rewrite length_app. destruct tl as [|b tl].
  - rewrite app_nil_r, (proj2 (N.ltb_ge _ _)) by (simpl; lia). done.
  - rewrite (proj2 (N.ltb_lt _ _)) by (simpl; lia).
    unfold runs_to, sm_io, sm_map_err, fs_set_len, fs_sync_data, faulty, mbind, sm_bind, sm_step, next_fault, sm_modify.
    cbn. by rewrite Nat2N.id, resize_app.
Qed.

(** The file after recovery. *)
Definition cut_file (es : list WalEntryV1) : File :=
  MkFile (header ++ log_bytes es) (length (header ++ log_bytes es)) (header ++ log_bytes es) [].

Lemma replay_file_ok skip es tl n t xs :
  shape_ok → fits_vec (header ++ log_bytes es ++ tl) →
  numbered n es → Forall entry_ok es → ends_log es tl →
  tree_rep t xs → (N.of_nat (length (xs ++ replayed skip es)) ≤ u64_max)%N →
  tree_depth (xs ++ replayed skip es) ≤ max_depth →
  let bs := header ++ log_bytes es ++ tl in
  ∃ t', runs_to (replay_file (N.of_nat (length bs)) skip t) (opened bs) (cut_file es) (t', last_number None es) ∧
    tree_rep t' (xs ++ replayed skip es).
Proof.
  intros Hshape Hv Hnum Hok Hend Hrep0 Hmax Hd bs. pose proof length_header as Hhl.
  pose proof Hv as Hlen. cbv beta in Hlen. rewrite !length_app in Hlen.
  destruct (replay_wal_entries_ok skip es tl n t xs Hrep0 Hmax Hd Hnum Hok)
    as (t' & Hr & Hrep); [rewrite length_app; lia|done|].
  exists t'. split; [|done]. unfold runs_to, replay_file.
  rewrite (sm_bind_ok (sm_try _) _ _ (opened bs) (length bs)).
  2: { unfold runs_to, sm_try, u64_to_usize. rewrite (proj2 (N.leb_le _ _)), Nat2N.id; [done|].
       unfold u64_max, bs. rewrite !length_app. lia. }
  rewrite (sm_bind_ok (sm_io (seek_start 0)) _ _ (opened bs) ()) by done.
  rewrite (sm_bind_ok _ _ _ _ _ (sm_io_ok _ _ _ _ (read_exact_all bs))).
  rewrite (sm_bind_ok (sm_try _) _ _ (MkFile bs (length bs) bs []) (as_u32 nary, as_u32 max_depth, length header)).
  2: { unfold runs_to, sm_try, bs. rewrite deserialize_header_whole; [done|apply as_u32_bound..|done|done]. }
  rewrite !N.eqb_refl. cbn [negb orb].
  rewrite (sm_bind_ok (sm_outcome _) _ _ (MkFile bs (length bs) bs []) (log_bytes es ++ tl)).
  2: { unfold runs_to, sm_outcome, subslice, bs. rewrite !length_app.
       rewrite (proj2 (Nat.leb_le _ _)), Nat.leb_refl by lia. cbn [andb].
       rewrite drop_app_length, take_ge by (rewrite length_app; lia). done. }
  rewrite (sm_bind_ok _ _ _ _ _ (sm_run_ok _ _ _ _ _ Hr)).
  rewrite (sm_bind_ok (sm_try _) _ _ (MkFile bs (length bs) bs []) (N.of_nat (length (header ++ log_bytes es)))).
  2: { unfold runs_to, sm_try, u64_checked_add. rewrite length_app, Nat2N.inj_add.
       rewrite (proj2 (N.leb_le _ _)); [done|]. unfold u64_max. lia. }
  unfold bs. rewrite app_assoc, (sm_bind_ok _ _ _ _ _ (cut_tail _ _)).
  rewrite (sm_bind_ok (sm_io (seek_start _)) _ _ (cut_file es) ()); [done|].
  unfold runs_to, sm_io, sm_map_err. cbn [seek_start fs_wal_file]. unfold fs_seek_start, sm_modify.
  cbn [content synced faults map_err]. by rewrite Nat2N.id.
Qed.

Lemma recover_ok tl es :
  let bs := header ++ log_bytes es ++ tl in
  shape_ok → fits_vec bs → numbered 0 es → Forall entry_ok es → ends_log es tl →
  (N.of_nat (length (replayed None es)) ≤ u64_max)%N → tree_depth (replayed None es) ≤ max_depth →
  ∃ t, runs_to recover (opened bs) (cut_file es) (MkRecovery t (N.of_nat (length es))) ∧
    tree_rep t (replayed None es).
Proof.
  intros bs Hshape Hv Hnum Hok Hend Hmax Hd. pose proof length_header as Hhl.
  pose proof Hv as Hlen. cbv beta in Hlen. unfold bs in Hlen. rewrite !length_app in Hlen. pose proof (length_log_bytes es) as Hle.
  destruct (replay_file_ok None es tl 0 (tree_new max_depth) [] Hshape Hv Hnum Hok Hend)
    as (t & Hr & Hrep); [by apply tree_new_rep|done..|].
  exists t. split; [|done]. unfold runs_to, recover.
  rewrite (sm_bind_ok (sm_io file_len) _ _ (opened bs) (N.of_nat (length bs))) by done.
  rewrite (proj2 (N.eqb_neq _ _)) by (unfold bs; rewrite length_app; lia).
  rewrite (sm_bind_ok _ _ _ _ _ Hr).
  pose proof (next_after es 0 Hnum Hok ltac:(unfold u64_max; lia)) as Hnext.
  rewrite N.add_0_l in Hnext. destruct (last_number None es) as [s|].
  - unfold sm_try, mbind, sm_bind. by rewrite Hnext.
  - unfold mbind, sm_bind, mret, sm_ret. by injection Hnext as <-.
Qed.

(** A new log. *)
Lemma recover_fresh :
  shape_ok → ∃ t, runs_to recover (opened []) (cut_file []) (MkRecovery t 0) ∧ tree_rep t [].
Proof.
  intros Hshape. exists (tree_new max_depth). split; [|by apply tree_new_rep].
  unfold runs_to, recover. rewrite (sm_bind_ok (sm_io file_len) _ _ (opened []) 0%N) by done. cbn [N.eqb].
  rewrite (sm_bind_ok fresh_header _ _ (cut_file []) ()); [done|].
  unfold runs_to, fresh_header.
  rewrite (sm_bind_ok (sm_outcome _) _ _ (opened []) header) by (unfold runs_to, sm_outcome; by rewrite serialize_header_ok).
  assert (log_bytes [] = []) as Hl by done. unfold cut_file. rewrite Hl, app_nil_r.
  assert (overwrite 0 header [] = header) as Hov by apply (overwrite_end header []).
  unfold runs_to, sm_io, sm_map_err, mbind, sm_bind, opened. cbn [write_all file_sync fs_wal_file].
  unfold fs_write_all, fs_sync_data, faulty, mbind, sm_bind, sm_step, next_fault, sm_modify.
  cbn [content cursor synced faults tail head default from_option map_err Nat.add mret sm_ret].
  unfold id. by rewrite Hov.
Qed.

End recovery.
