(* ===== verification/DataFiles.v ===== *)
(** The checkpoint's data files ([crates/rotortree/src/storage/checkpoint.rs] and [data.rs]): a
    header, the metadata that is replaced atomically, and per level of the tree shards of chunks
    that are read back through mappings. *)
From stdpp Require Import strings pretty.
From Stdlib Require Import Ascii.
From S2P Require Import Prelude Hash ChunkedLevel Checksum Vfs Frame Wal WalFile.

(** ** The directory *)

(** The directories made, the files with their bytes and what of them was synced, and what the
    next calls meet, as in [WalFile.File]. A name is durable once it is there. *)
Record Dir := MkDir {
  made : gset Path;
  nodes : gmap Path (bytes * bytes);
  dir_faults : list (option nat);
}.

Definition set_nodes (ns : gmap Path (bytes * bytes)) (d : Dir) : Dir := MkDir (made d) ns (dir_faults d).

Definition dir_fault (d : Dir) : Dir * option nat :=
  (MkDir (made d) (nodes d) (tail (dir_faults d)), default None (head (dir_faults d))).

(** A call that fails without an effect. *)
Definition dir_faulty {A} (m : SM Dir IoError A) : SM Dir IoError A :=
  fault ← sm_step dir_fault;
  match fault with None => m | Some _ => sm_fail IoFailed end.

(** The prefixes of a path. *)
Definition prefixes (p : Path) : list Path := (λ n, take n p) <$> seq 0 (S (length p)).

(** [fs::create_dir_all], [Path::exists] on a directory, [fs::read], [File::create],
    [OpenOptions] with [create] and [truncate(false)], [Write::write_all] at a position,
    [File::sync_all] and [sync_data], [fs::rename]. *)
Definition fs_create_dir_all (p : Path) : SM Dir IoError () := dir_faulty (
  sm_modify (λ d, MkDir (list_to_set (prefixes p) ∪ made d) (nodes d) (dir_faults d))).

Definition fs_exists (p : Path) (d : Dir) : bool := bool_decide (p ∈ made d).

Definition fs_read (p : Path) : SM Dir IoError bytes := dir_faulty (
  d ← sm_get; node ← sm_try (ok_or (nodes d !! p) NotFound); mret node.1).

(** Files are made in directories that are there. *)
Definition fs_open (truncate : bool) (p : Path) : SM Dir IoError () := dir_faulty (
  d ← sm_get;
  if match parent p with Some q => negb (bool_decide (q ∈ made d)) | None => false end then sm_fail NotFound else
  match nodes d !! p with
  | Some node => if truncate then sm_modify (set_nodes (<[p := ([], node.2)]> (nodes d))) else mret ()
  | None => sm_modify (set_nodes (<[p := ([], [])]> (nodes d)))
  end).

Definition fs_write_at (p : Path) (pos : nat) (bs : bytes) : SM Dir IoError () :=
  fault ← sm_step dir_fault;
  d ← sm_get;
  node ← sm_expect (nodes d !! p);
  let written := match fault with None => bs | Some k => take k bs end in
  sm_modify (set_nodes (<[p := (overwrite pos written node.1, node.2)]> (nodes d)));;
  match fault with None => mret () | Some _ => sm_fail IoFailed end.

Definition fs_sync (p : Path) : SM Dir IoError () := dir_faulty (
  d ← sm_get;
  node ← sm_expect (nodes d !! p);
  sm_modify (set_nodes (<[p := (node.1, node.1)]> (nodes d)))).

Definition fs_rename (from to : Path) : SM Dir IoError () := dir_faulty (
  d ← sm_get;
  node ← sm_try (ok_or (nodes d !! from) NotFound);
  sm_modify (set_nodes (<[to := node]> (delete from (nodes d))))).

(** Opening a directory and syncing it. *)
Definition fs_sync_dir (p : Path) : SM Dir IoError () :=
  dir_faulty (mret ());; dir_faulty (mret ()).

(** ** Names and addresses *)

Definition HEADER_MAGIC : bytes := [x52; x54; x52; x44].
Definition META_MAGIC : bytes := [x52; x54; x4d; x44].

Definition CHUNK_BYTE_SIZE : nat := CHUNK_SIZE * 32.
Definition CHUNKS_PER_SHARD : nat := N.to_nat 65536.

Definition shard_address (chunk_idx : nat) : nat * nat :=
  let shard_idx := chunk_idx / CHUNKS_PER_SHARD in
  let offset_in_shard := (chunk_idx mod CHUNKS_PER_SHARD) * CHUNK_BYTE_SIZE in
  (shard_idx, offset_in_shard).

(** The format [{:04}]. *)
Fixpoint zeros (n : nat) : string := match n with O => ""%string | S n => String "0"%char (zeros n) end.
Definition pad4 (n : nat) : string := let s := pretty n in (zeros (4 - String.length s) +:+ s)%string.

Definition level_dir_path (data_dir : Path) (level_idx : nat) : Path :=
  path_join data_dir ("level_" +:+ pretty level_idx)%string.

Definition shard_file_path (data_dir : Path) (level_idx shard_idx : nat) : Path :=
  path_join (path_join data_dir ("level_" +:+ pretty level_idx)%string) ("shard_" +:+ pad4 shard_idx +:+ ".dat")%string.

(** ** Policies *)

Inductive CheckpointPolicy := ManualCheckpoint | EveryNEntries (n : N) | MemoryThreshold (bytes_ : N) | OnClose.

(** [usize::MAX] maps every level. *)
Record TieringConfig := MkTiering { pin_above_level : N }.
Definition tiering_default : TieringConfig := MkTiering u64_max.

(** ** Header and metadata *)

Inductive HeaderFrame := HeaderFrameV1 (magic : bytes) (n max_depth chunk_size : N).
Inductive MetaFrame := MetaFrameV1 (magic : bytes) (n max_depth last_wal_seq leaf_count depth : N) (root_hash : hash).

Record HeaderData := MkHeaderData { hd_n : N; hd_max_depth : N; hd_chunk_size : N }.
Record CheckpointMeta := MkMeta {
  meta_n : N;
  meta_max_depth : N;
  last_wal_seq : N;
  leaf_count : N;
  meta_depth : N;
  root_hash : hash;
}.

(** Values of their widths. *)
Definition header_frame_valid (h : HeaderFrame) : Prop :=
  match h with HeaderFrameV1 magic n md cs => length magic = 4 ∧ (n ≤ u32_max)%N ∧ (md ≤ u32_max)%N ∧ (cs ≤ u32_max)%N end.
Definition meta_frame_valid (m : MetaFrame) : Prop :=
  match m with MetaFrameV1 magic n md seq leaves d r =>
    length magic = 4 ∧ (n ≤ u32_max)%N ∧ (md ≤ u32_max)%N ∧ (seq ≤ u64_max)%N ∧ (leaves ≤ u64_max)%N ∧ (d ≤ u32_max)%N ∧
    hash_wf r end.

(** Another extension: [s.push(".tmp")]. *)
Definition with_tmp (p : Path) : Path :=
  match list.last p with Some name => take (pred (length p)) p ++ [(name +:+ ".tmp")%string] | None => p end.

(** [path.parent()] of the root directory is [None]. *)
Definition atomic_write (path : Path) (data : bytes) : SM Dir IoError () :=
  let tmp := with_tmp path in
  fs_open true tmp;;
  fs_write_at tmp 0 data;;
  fs_sync tmp;;
  fs_rename tmp path;;
  match parent path with Some dir => fs_sync_dir dir | None => mret () end.

Section frames.
Context `{!Checksum, Wincode HeaderFrame, Wincode MetaFrame}.

Definition write_header (data_dir : Path) (n max_depth : N) : SM Dir IoError () :=
  let header := HeaderFrameV1 HEADER_MAGIC n max_depth (N.of_nat CHUNK_SIZE) in
  buf ← sm_outcome (serialize_frame header);
  atomic_write (path_join data_dir "header.bin"%string) buf.

(** [frame::read_frame_file] on a file of the directory. *)
Definition read_file_frame {T} `{Wincode T} (path : Path) : SM Dir StorageError (option T) :=
  data ← sm_result (fs_read path);
  sm_try (read_frame_file data).

Definition read_header (data_dir : Path) : SM Dir StorageError (option HeaderData) :=
  header ← read_file_frame (path_join data_dir "header.bin"%string);
  match header with
  | None => mret None
  | Some (HeaderFrameV1 magic n max_depth chunk_size) =>
    if negb (bool_decide (magic = HEADER_MAGIC)) then mret None else
    mret (Some (MkHeaderData n max_depth chunk_size))
  end.

Definition write_meta (data_dir : Path) (meta : CheckpointMeta) : SM Dir IoError () :=
  let frame := MetaFrameV1 META_MAGIC (meta_n meta) (meta_max_depth meta) (last_wal_seq meta) (leaf_count meta)
    (meta_depth meta) (root_hash meta) in
  buf ← sm_outcome (serialize_frame frame);
  atomic_write (path_join data_dir "checkpoint.meta"%string) buf.

Definition read_meta (data_dir : Path) : SM Dir StorageError (option CheckpointMeta) :=
  meta_frame ← read_file_frame (path_join data_dir "checkpoint.meta"%string);
  match meta_frame with
  | None => mret None
  | Some (MetaFrameV1 magic n max_depth last_wal_seq leaf_count depth root_hash) =>
    if negb (bool_decide (magic = META_MAGIC)) then mret None else
    mret (Some (MkMeta n max_depth last_wal_seq leaf_count depth root_hash))
  end.
End frames.

(** ** Chunks *)

(** [for chunk in ..]: the handle moves on by what is written. *)
Fixpoint write_chunks (path : Path) (pos : nat) (chunks : list (list hash)) : SM Dir IoError () :=
  match chunks with
  | [] => mret ()
  | c :: chunks => fs_write_at path pos (mjoin c);; write_chunks path (pos + length (mjoin c)) chunks
  end.

(** One shard of [append_chunks_to_level]; a file to sync is its path. *)
Definition append_shard (data_dir : Path) (level_idx from_chunk : nat) (chunks : list (list hash)) (shard_idx : nat) :
    SM Dir IoError Path :=
  let shard_start := shard_idx * CHUNKS_PER_SHARD in
  let local_start := shard_start - from_chunk in
  let local_end := Nat.min ((shard_idx + 1) * CHUNKS_PER_SHARD - from_chunk) (length chunks) in
  let '(_, offset) := shard_address (from_chunk + local_start) in
  let path := shard_file_path data_dir level_idx shard_idx in
  fs_open false path;;
  written ← sm_outcome (subslice local_start local_end chunks);
  write_chunks path offset written;;
  mret path.

(** [(a..=b).map(f).collect::<Result<_, _>>()]. *)
Fixpoint sm_map {S E A B} (f : A → SM S E B) (l : list A) : SM S E (list B) :=
  match l with
  | [] => mret []
  | x :: l => y ← f x; ys ← sm_map f l; mret (y :: ys)
  end.

Definition append_chunks_to_level (data_dir : Path) (level_idx from_chunk : nat) (chunks : list (list hash)) :
    SM Dir IoError (list Path) :=
  if bool_decide (chunks = []) then mret [] else
  let first_shard := from_chunk / CHUNKS_PER_SHARD in
  let last_shard := (from_chunk + length chunks - 1) / CHUNKS_PER_SHARD in
  sm_map (append_shard data_dir level_idx from_chunk chunks) (seq first_shard (S last_shard - first_shard)).

(** The loop of [mmap_level_shards] over the shards from [shard_idx] on: the file is opened, its
    length is asked, and it is mapped. A region is the mapped
    bytes up to [valid_len]; a mapping shows the file as it is when it is made. *)
Fixpoint mmap_shards (data_dir : Path) (level_idx valid_chunks shard_idx rem : nat) (regions : list bytes) :
    SM Dir IoError (list bytes) :=
  match rem with
  | O => mret regions
  | S rem =>
    let path := shard_file_path data_dir level_idx shard_idx in
    file ← sm_result (fs_read path);
    match file with
    | Err NotFound => if shard_idx =? 0 then mret [] else sm_fail InvalidData
    | Err e => sm_fail e
    | Ok data =>
      let chunks_in_shard := Nat.min CHUNKS_PER_SHARD (valid_chunks - shard_idx * CHUNKS_PER_SHARD) in
      let valid_len := chunks_in_shard * CHUNK_BYTE_SIZE in
      dir_faulty (mret ());;
      if length data <? valid_len then sm_fail InvalidData else
      dir_faulty (mret ());;
      mmap_shards data_dir level_idx valid_chunks (S shard_idx) rem (regions ++ [take valid_len data])
    end
  end.

Definition mmap_level_shards (data_dir : Path) (level_idx valid_chunks : nat) : SM Dir IoError (list bytes) :=
  if valid_chunks =? 0 then mret [] else
  let shard_count := div_ceil valid_chunks CHUNKS_PER_SHARD in
  mmap_shards data_dir level_idx valid_chunks 0 shard_count [].

(** [Chunk::new_mapped] on the region of a chunk; [None] is the index or the assertion panic. *)
Definition mapped_chunk (regions : list bytes) (chunk_idx : nat) : option Chunk :=
  let '(shard_idx, offset_in_shard) := shard_address chunk_idx in
  region ← regions !! shard_idx;
  new_mapped region offset_in_shard.

(** [ChunkedLevel::remap_chunks]; [None] is a panic. *)
Definition remap_chunks (count : nat) (regions : list bytes) (lv : ChunkedLevel) : option ChunkedLevel :=
  let total := chunk_count lv in
  let remap_count := Nat.min count total in
  if (remap_count =? 0) || bool_decide (regions = []) then Some lv else
  unmapped ← chunks_since lv remap_count;
  mapped ← mapM (mapped_chunk regions) (seq 0 remap_count);
  Some (foldl push_chunk (MkLevel [] [] (level_len lv)) (mapped ++ unmapped)).
