(* ===== verification/Codec.v ===== *)
(** A serializer of the log's headers and entries and of the checkpoint's frames, to show that the classes of [Frame] have
    instances: integers in little-endian order, enums behind a tag, hashes one after the other. *)
From S2P Require Import Prelude Hash ChunkedLevel Checksum Frame Wal DataFiles.

Module Toy.

Definition cut (bs : bytes) : list hash := (λ i, slice (i * 32) 32 bs) <$> seq 0 (length bs / 32).

Definition header_bytes (h : WalHeader) : bytes :=
  match h with HeaderV1 magic n max_depth => magic ++ le_bytes 4 n ++ le_bytes 4 max_depth end.

Definition header_of (bs : bytes) : option WalHeader :=
  if length bs =? 12 then Some (HeaderV1 (take 4 bs) (le_value (slice 4 4 bs)) (le_value (slice 8 4 bs))) else None.

Definition tag_of (p : WalPayload) : byte :=
  match p with Single _ => x00 | Batched (Owned _) => x01 | Batched (Borrowed _) => x02 end.

Definition entry_bytes (e : WalEntry) : bytes :=
  match e with EntryV1 e => le_bytes 8 (seq_no e) ++ tag_of (payload e) :: mjoin (entry_leaves (payload e)) end.

Definition entry_of (bs : bytes) : option WalEntry :=
  let seq := le_value (take 8 bs) in
  match drop 8 bs with
  | x00 :: rest => if length rest =? 32 then Some (EntryV1 (MkEntry seq (Single rest))) else None
  | x01 :: rest => Some (EntryV1 (MkEntry seq (Batched (Owned (cut rest)))))
  | x02 :: rest => Some (EntryV1 (MkEntry seq (Batched (Borrowed (cut rest)))))
  | _ => None
  end.

#[export] Instance header_codec : Wincode WalHeader := {|
  wc_serialize := header_bytes;
  wc_serialized_size := λ h, N.of_nat (length (header_bytes h));
  wc_deserialize := header_of;
|}.
#[export] Instance entry_codec : Wincode WalEntry := {|
  wc_serialize := entry_bytes;
  wc_serialized_size := λ e, N.of_nat (length (entry_bytes e));
  wc_deserialize := entry_of;
|}.

Lemma cut_join hs : Forall hash_wf hs → cut (mjoin hs) = hs.
Proof.
  intros Hhs. unfold cut. rewrite (mjoin_uniform_length 32 _ Hhs), Nat.div_mul by done.
  rewrite <- (app_nil_r (mjoin hs)). by apply slices_join.
Qed.

#[export] Instance header_codec_laws : WincodeLaws WalHeader header_codec header_valid.
Proof.
  split; [|done]. intros [magic n d] (Hm & Hn & Hd). cbn [wc_deserialize wc_serialize header_codec header_bytes].
  unfold header_of. rewrite !length_app, !length_le_bytes, Hm. cbn [Nat.eqb Nat.add].
  unfold slice. rewrite take_app_length' by done. rewrite (drop_app_length' magic) by done.
  rewrite take_app_length' by (by rewrite length_le_bytes).
  rewrite app_assoc, drop_app_length' by (by rewrite length_app, length_le_bytes, Hm).
  rewrite take_ge by (by rewrite length_le_bytes).
  unfold u32_max in *. rewrite !le_value_bytes_small by (change (256 ^ N.of_nat 4)%N with 4294967296%N; lia). done.
Qed.

#[export] Instance entry_codec_laws : WincodeLaws WalEntry entry_codec entry_valid.
Proof.
  split; [|done]. intros [[seq p]] [Hseq Hp]. cbn [seq_no payload] in Hseq, Hp.
  cbn [wc_deserialize wc_serialize entry_codec entry_bytes seq_no payload].
  unfold entry_of. rewrite take_app_length' by (by rewrite length_le_bytes).
  rewrite drop_app_length' by (by rewrite length_le_bytes). unfold u64_max in Hseq.
  rewrite le_value_bytes_small by (change (256 ^ N.of_nat 8)%N with 18446744073709551616%N; lia).
  destruct p as [leaf|[v|s]]; cbn [tag_of entry_leaves cow_as_slice] in *; [|by rewrite cut_join..].
  change (mjoin [leaf]) with (leaf ++ []). rewrite app_nil_r. rewrite list.Forall_singleton in Hp. by rewrite Hp.
Qed.

(** ** The checkpoint's frames *)

Definition header_frame_bytes (h : HeaderFrame) : bytes :=
  match h with HeaderFrameV1 magic n md cs => magic ++ le_bytes 4 n ++ le_bytes 4 md ++ le_bytes 4 cs end.
Definition header_frame_of (bs : bytes) : option HeaderFrame :=
  if length bs =? 16
  then Some (HeaderFrameV1 (slice 0 4 bs) (le_value (slice 4 4 bs)) (le_value (slice 8 4 bs)) (le_value (slice 12 4 bs)))
  else None.

Definition meta_frame_bytes (m : MetaFrame) : bytes :=
  match m with MetaFrameV1 magic n md seq leaves d r =>
    magic ++ le_bytes 4 n ++ le_bytes 4 md ++ le_bytes 8 seq ++ le_bytes 8 leaves ++ le_bytes 4 d ++ r end.
Definition meta_frame_of (bs : bytes) : option MetaFrame :=
  if length bs =? 64
  then Some (MetaFrameV1 (slice 0 4 bs) (le_value (slice 4 4 bs)) (le_value (slice 8 4 bs)) (le_value (slice 12 8 bs))
    (le_value (slice 20 8 bs)) (le_value (slice 28 4 bs)) (slice 32 32 bs))
  else None.

#[export] Instance header_frame_codec : Wincode HeaderFrame := {|
  wc_serialize := header_frame_bytes;
  wc_serialized_size := λ h, N.of_nat (length (header_frame_bytes h));
  wc_deserialize := header_frame_of;
|}.
#[export] Instance meta_frame_codec : Wincode MetaFrame := {|
  wc_serialize := meta_frame_bytes;
  wc_serialized_size := λ m, N.of_nat (length (meta_frame_bytes m));
  wc_deserialize := meta_frame_of;
|}.

(** A field behind others. *)
Lemma slice_field {A} n o k (f rest : list A) : length f = n → slice (n + o) k (f ++ rest) = slice o k rest.
Proof. intros <-. unfold slice. by rewrite drop_app_add. Qed.
Lemma slice_here {A} n (f rest : list A) : length f = n → slice 0 n (f ++ rest) = f.
Proof. intros <-. unfold slice. by rewrite drop_0, take_app_length. Qed.

Lemma le_value_4 n : (n ≤ u32_max)%N → le_value (le_bytes 4 n) = n.
Proof. unfold u32_max. intros Hle. apply le_value_bytes_small. change (256 ^ N.of_nat 4)%N with 4294967296%N. lia. Qed.
Lemma le_value_8 n : (n ≤ u64_max)%N → le_value (le_bytes 8 n) = n.
Proof.
  unfold u64_max. intros Hle. apply le_value_bytes_small. change (256 ^ N.of_nat 8)%N with 18446744073709551616%N. lia.
Qed.

#[export] Instance header_frame_codec_laws : WincodeLaws HeaderFrame header_frame_codec header_frame_valid.
Proof.
  split; [|done]. intros [magic n md cs] (Hm & Hn & Hd & Hc).
  cbn [wc_deserialize wc_serialize header_frame_codec header_frame_bytes]. unfold header_frame_of.
  rewrite !length_app, !length_le_bytes, Hm. cbn [Nat.eqb Nat.add].
  rewrite (slice_here 4 magic) by done.
  rewrite (slice_field 4 0 4 magic), (slice_here 4) by (rewrite ?length_le_bytes; done).
  rewrite (slice_field 4 4 4 magic), (slice_field 4 0), (slice_here 4) by (rewrite ?length_le_bytes; done).
  rewrite (slice_field 4 8 4 magic), (slice_field 4 4), (slice_field 4 0) by (rewrite ?length_le_bytes; done).
  rewrite slice_all by (by rewrite length_le_bytes). by rewrite !le_value_4 by done.
Qed.

#[export] Instance meta_frame_codec_laws : WincodeLaws MetaFrame meta_frame_codec meta_frame_valid.
Proof.
  split; [|done]. intros [magic n md seq leaves d r] (Hm & Hn & Hd & Hs & Hl & Hdp & Hr).
  cbn [wc_deserialize wc_serialize meta_frame_codec meta_frame_bytes]. unfold meta_frame_of.
  rewrite !length_app, !length_le_bytes, Hm, Hr. cbn [Nat.eqb Nat.add].
  rewrite (slice_here 4 magic) by done.
  rewrite (slice_field 4 0 4 magic), (slice_here 4) by (rewrite ?length_le_bytes; done).
  rewrite (slice_field 4 4 4 magic), (slice_field 4 0), (slice_here 4) by (rewrite ?length_le_bytes; done).
  rewrite (slice_field 4 8 8 magic), (slice_field 4 4), (slice_field 4 0), (slice_here 8) by (rewrite ?length_le_bytes; done).
  rewrite (slice_field 4 16 8 magic), (slice_field 4 12), (slice_field 4 8), (slice_field 8 0), (slice_here 8)
    by (rewrite ?length_le_bytes; done).
  rewrite (slice_field 4 24 4 magic), (slice_field 4 20), (slice_field 4 16), (slice_field 8 8), (slice_field 8 0), (slice_here 4)
    by (rewrite ?length_le_bytes; done).
  rewrite (slice_field 4 28 32 magic), (slice_field 4 24), (slice_field 4 20), (slice_field 8 12), (slice_field 8 4), (slice_field 4 0)
    by (rewrite ?length_le_bytes; done).
  rewrite slice_all by lia. by rewrite !le_value_4, !le_value_8 by done.
Qed.

(** Decoded vectors are bounded by the payload they come from. *)
Lemma entry_decoded bs e : wc_deserialize bs = Some (EntryV1 e) → length (entry_leaves (payload e)) ≤ S (length bs).
Proof.
  cbn [wc_deserialize entry_codec]. unfold entry_of.
  pose proof (length_drop bs 8) as Hlen.
  repeat (case_match; try discriminate); intros [= <-]; cbn [payload entry_leaves cow_as_slice]; simpl length in *;
    [lia|unfold cut; rewrite length_fmap, length_seq; match goal with |- length ?l / 32 ≤ _ =>
      pose proof (Nat.Div0.div_le_upper_bound (length l) 32 (length l)) end; lia..].
Qed.

(** Decoded hashes have 32 bytes. *)
Lemma cut_wf bs : Forall hash_wf (cut bs).
Proof.
  unfold cut. apply Forall_fmap, Forall_forall. intros i [_ Hi]%elem_of_seq. unfold compose. rewrite length_slice; [done|].
  pose proof (Nat.Div0.mul_div_le (length bs) 32). lia.
Qed.

Lemma entry_decoded_wf bs e : wc_deserialize bs = Some (EntryV1 e) → Forall hash_wf (entry_leaves (payload e)).
Proof.
  cbn [wc_deserialize entry_codec]. unfold entry_of.
  repeat (case_match; try discriminate); intros [= <-]; cbn [payload entry_leaves cow_as_slice]; [|apply cut_wf..].
  constructor; [|done]. by nbool.
Qed.

Lemma meta_decoded_wf bs magic n md seq leaves d r :
  wc_deserialize bs = Some (MetaFrameV1 magic n md seq leaves d r) → hash_wf r.
Proof.
  cbn [wc_deserialize meta_frame_codec]. unfold meta_frame_of. destruct (_ =? _) eqn:Hlen; [|done]. intros [= _ _ _ _ _ _ <-].
  nbool. rewrite length_slice; [done|]. lia.
Qed.
End Toy.
