(* ===== verification/CheckpointRecovery.v ===== *)
(** Recovery from a checkpoint ([recover_with_checkpoint] of
    [crates/rotortree/src/storage/recovery.rs], [compute_initial_level_files] of [mod.rs]): the
    levels are mapped from the data files, the log's later entries are replayed on top. *)
From S2P Require Import Prelude Hash ChunkedLevel Tree Checksum Vfs Frame Wal WalFile Recovery DataFiles.

(** Calls on the log and on the data directory. *)
Definition on_wal {F E A} (m : SM F E A) : SM (F * Dir) E A := sm_zoom (λ s, Some s.1) (λ f s, (f, s.2)) m.
Definition on_data {F E A} (m : SM Dir E A) : SM (F * Dir) E A := sm_zoom (λ s, Some s.2) (λ d s, (s.1, d)) m.

Section recovery.
Context (nary max_depth : nat) `{!Hasher} (par : option nat).
Context `{!Checksum, Wincode WalHeader, Wincode WalEntry, Wincode HeaderFrame, Wincode MetaFrame}.

(** The lengths of [n] levels, the first of which is [len]. *)
Fixpoint lens_from (n len : nat) : list nat :=
  match n with O => [] | S n => len :: lens_from n (div_ceil len nary) end.

(** [level_lens]: the levels up to the depth, the others empty. *)
Definition compute_level_lens (leaf_count depth : nat) : list nat :=
  if 0 <? leaf_count then
    let active := Nat.min depth (max_depth - 1) + 1 in
    lens_from active leaf_count ++ replicate (max_depth - active) 0
  else replicate max_depth 0.

(** [for (level_idx, &len) in level_lens.iter().enumerate().take(active)]. *)
Fixpoint load_levels (data_dir : Path) (level_idx : nat) (lens : list nat) (t : TreeInner) : SM Dir StorageError TreeInner :=
  match lens with
  | [] => mret t
  | len :: lens =>
    if len =? 0 then load_levels data_dir (S level_idx) lens t else
    let num_chunks := div_ceil len CHUNK_SIZE in
    regions ← (if 0 <? num_chunks then sm_io (mmap_level_shards data_dir level_idx num_chunks) else mret []);
    chunks ← sm_expect (if bool_decide (regions = []) then Some []
                        else mapM (mapped_chunk regions) (seq 0 num_chunks));
    load_levels data_dir (S level_idx) lens (set_level_from_parts t level_idx chunks len)
  end.

(** The tree that the data files describe. *)
Definition load_tree (data_dir : Path) (meta : CheckpointMeta) : SM Dir StorageError TreeInner :=
  leaves ← sm_try (map_err (λ _, StorageMathError) (u64_to_usize (leaf_count meta)));
  let depth := N.to_nat (meta_depth meta) in
  let level_lens := compute_level_lens leaves depth in
  let active := Nat.min depth (max_depth - 1) + 1 in
  t ← load_levels data_dir 0 (take active level_lens) (tree_new max_depth);
  mret (MkTree (levels t) (if 0 <? leaves then Some (root_hash meta) else None) (leaf_count meta) depth).

(** [if verify && leaf_count > 0]. *)
Definition verify_root (verify : bool) (t : TreeInner) {S} : SM S StorageError () :=
  if verify && (0 <? size t)%N then
    computed ← sm_expect (recompute_root nary par t);
    if bool_decide (computed = root t) then mret () else sm_fail DataCorruption
  else mret ().

Section file.
Context {F} `{WalFile F}.

Definition recover_with_checkpoint (data_dir : Path) (verify : bool) : SM (F * Dir) StorageError RecoveryResult :=
  meta ← on_data (read_meta data_dir);
  match meta with
  | None => on_wal (recover nary max_depth par)
  | Some meta =>
    if negb (meta_n meta =? as_u32 nary)%N || negb (meta_max_depth meta =? as_u32 max_depth)%N
    then on_wal (recover nary max_depth par) else
    header ← on_data (read_header data_dir);
    if match header with
       | Some h => (hd_n h =? as_u32 nary)%N && (hd_max_depth h =? as_u32 max_depth)%N &&
                   (hd_chunk_size h =? as_u32 CHUNK_SIZE)%N
       | None => false
       end then
      t ← on_data (load_tree data_dir meta);
      verify_root verify t;;
      len ← on_wal (sm_io file_len);
      if (len =? 0)%N then
        on_wal (fresh_header nary max_depth);;
        next ← sm_try (ok_or (u64_checked_add (last_wal_seq meta) 1) StorageMathError);
        mret (MkRecovery t next)
      else
        replay ← on_wal (replay_file nary max_depth par len (Some (last_wal_seq meta)) t);
        let '(t, last_seq) := replay in
        next ← match last_seq with
               | Some s => sm_try (ok_or (u64_checked_add s 1) StorageMathError)
               | None => sm_try (ok_or (u64_checked_add (last_wal_seq meta) 1) StorageMathError)
               end;
        mret (MkRecovery t next)
    else on_wal (recover nary max_depth par)
  end.
End file.

(** [compute_initial_level_files]: whole chunks only. *)
Definition compute_initial_level_files (data_dir : Path) : SM Dir StorageError (list nat) :=
  meta ← read_meta data_dir;
  match meta with
  | None => mret []
  | Some meta =>
    leaves ← sm_try (map_err (λ _, StorageMathError) (u64_to_usize (leaf_count meta)));
    let depth := N.to_nat (meta_depth meta) in
    if leaves =? 0 then mret [] else
    let active_levels := Nat.min depth (max_depth - 1) + 1 in
    mret ((λ level_len, level_len / CHUNK_SIZE) <$> lens_from active_levels leaves)
  end.
End recovery.
