(* ===== verification/RotorTree.v ===== *)
(** The persistent tree ([crates/rotortree/src/storage/mod.rs], [token.rs] and [config.rs]):
    insertions into the tree and into a buffer of log entries, flushes of the buffer, checkpoints,
    opening and closing. The locks make a call's critical sections atomic; a call that releases the
    state lock in between is the sequence of its sections, which other calls may interleave. *)
From S2P Require Import Prelude Hash ChunkedLevel Tree Checksum Vfs Frame Wal WalFile Recovery DataFiles CheckpointRecovery.

(** ** Data *)

Record LevelCheckpointData := MkLevelData { new_chunks : list Chunk; from_chunk : nat; total_chunks : nat }.

Record CheckpointSnap := MkCheckpointSnap {
  snap_depth_ : nat;
  snap_leaf_count : N;
  snap_last_seq : N;
  snap_root_hash : hash;
  level_data : list LevelCheckpointData;
}.

Record DurableState := MkDurable {
  tree : TreeInner;
  buffer : bytes;
  next_entry : N;
  checkpointed_chunks : list nat;
}.

(** The error of a background thread; [CheckpointFailed] carries its text. *)
Inductive BackgroundError := BgFlushFailed (e : IoError) | BgCheckpointFailed (e : StorageError).

(** [Shared], the file and the directory behind its handles included; the coordination of
    checkpoints is a request and a count. *)
Record Shared := MkShared {
  state : DurableState;
  wal_file : File;
  data_files : Dir;
  published : TreeSnapshot;
  flushed : option N;
  closed : bool;
  bg_error : option BackgroundError;
  entries_since_checkpoint : N;
  uncheckpointed_memory_bytes : N;
  requested : bool;
  completed : N;
}.

(** ** Field assignments *)

Definition set_state (f : DurableState → DurableState) (s : Shared) : Shared :=
  MkShared (f (state s)) (wal_file s) (data_files s) (published s) (flushed s) (closed s) (bg_error s)
    (entries_since_checkpoint s) (uncheckpointed_memory_bytes s) (requested s) (completed s).
Definition set_wal (f : File) (s : Shared) : Shared :=
  MkShared (state s) f (data_files s) (published s) (flushed s) (closed s) (bg_error s)
    (entries_since_checkpoint s) (uncheckpointed_memory_bytes s) (requested s) (completed s).
Definition set_data (d : Dir) (s : Shared) : Shared :=
  MkShared (state s) (wal_file s) d (published s) (flushed s) (closed s) (bg_error s)
    (entries_since_checkpoint s) (uncheckpointed_memory_bytes s) (requested s) (completed s).
Definition set_published (t : TreeSnapshot) (s : Shared) : Shared :=
  MkShared (state s) (wal_file s) (data_files s) t (flushed s) (closed s) (bg_error s)
    (entries_since_checkpoint s) (uncheckpointed_memory_bytes s) (requested s) (completed s).
Definition set_flushed (o : option N) (s : Shared) : Shared :=
  MkShared (state s) (wal_file s) (data_files s) (published s) o (closed s) (bg_error s)
    (entries_since_checkpoint s) (uncheckpointed_memory_bytes s) (requested s) (completed s).
Definition set_closed (b : bool) (s : Shared) : Shared :=
  MkShared (state s) (wal_file s) (data_files s) (published s) (flushed s) b (bg_error s)
    (entries_since_checkpoint s) (uncheckpointed_memory_bytes s) (requested s) (completed s).
Definition set_bg_error (e : option BackgroundError) (s : Shared) : Shared :=
  MkShared (state s) (wal_file s) (data_files s) (published s) (flushed s) (closed s) e
    (entries_since_checkpoint s) (uncheckpointed_memory_bytes s) (requested s) (completed s).
Definition set_counters (entries memory : N) (s : Shared) : Shared :=
  MkShared (state s) (wal_file s) (data_files s) (published s) (flushed s) (closed s) (bg_error s)
    entries memory (requested s) (completed s).
Definition set_coord (r : bool) (c : N) (s : Shared) : Shared :=
  MkShared (state s) (wal_file s) (data_files s) (published s) (flushed s) (closed s) (bg_error s)
    (entries_since_checkpoint s) (uncheckpointed_memory_bytes s) r c.

Definition set_tree (t : TreeInner) (d : DurableState) : DurableState :=
  MkDurable t (buffer d) (next_entry d) (checkpointed_chunks d).
Definition set_buffer (b : bytes) (d : DurableState) : DurableState :=
  MkDurable (tree d) b (next_entry d) (checkpointed_chunks d).
Definition set_next (n : N) (d : DurableState) : DurableState :=
  MkDurable (tree d) (buffer d) n (checkpointed_chunks d).
Definition set_checkpointed (cs : list nat) (d : DurableState) : DurableState :=
  MkDurable (tree d) (buffer d) (next_entry d) cs.

(** Calls on the tree, on the log and on the data files. *)
Definition on_tree {A} (m : SM TreeInner TreeError A) : SM Shared TreeError A :=
  sm_zoom (λ s, Some (tree (state s))) (λ t, set_state (set_tree t)) m.
Definition on_file {A} (m : SM File IoError A) : SM Shared IoError A :=
  sm_zoom (λ s, Some (wal_file s)) set_wal m.
Definition on_dir {E A} (m : SM Dir E A) : SM Shared E A :=
  sm_zoom (λ s, Some (data_files s)) set_data m.

(** ** Tokens *)

(** [DurabilityTracker::mark_flushed]. *)
Definition mark_flushed (seq : N) (s : Shared) : Shared :=
  match flushed s with
  | Some prev => if (seq <=? prev)%N then s else set_flushed (Some seq) s
  | None => set_flushed (Some seq) s
  end.

(** A token is the number of its entry: [DurabilityToken::is_durable], and when [wait] returns. *)
Definition is_durable (token : N) (s : Shared) : bool :=
  match flushed s with Some f => (token <=? f)%N | None => false end.

Section rotor.
Context (nary max_depth : nat) `{!Hasher} (par : option nat).
Context `{!Checksum, Wincode WalHeader, Wincode WalEntry, Wincode HeaderFrame, Wincode MetaFrame}.
Context (data_dir : Path) (checkpoint_policy : CheckpointPolicy) (tiering : TieringConfig).

(** ** Flushing *)

(** [flush_inner], first section: the buffer is taken. *)
Definition flush_take {E} : SM Shared E (option (bytes * N)) := sm_step (λ s,
  if bool_decide (buffer (state s) = []) then (s, None) else
  let buf := buffer (state s) in
  let last_seq := N.pred (next_entry (state s)) in
  (set_state (set_buffer []) s, Some (buf, last_seq))).

(** Its writing; what a failed write left is cut off, as far as that succeeds. *)
Definition flush_write (buf : bytes) : SM Shared StorageError (result () IoError) :=
  pos_before ← sm_io (on_file fs_stream_position);
  written ← sm_result (on_file (fs_write_all buf));
  match written with
  | Ok () => mret (Ok ())
  | Err e =>
    sm_result (on_file (fs_seek_start pos_before));;
    sm_result (on_file (fs_set_len pos_before));;
    mret (Err e)
  end.

(** Its last section after a sync: the empty vector is given back if none took its place. *)
Definition flush_finish (last_seq : N) (sync_result : result () IoError) : SM Shared StorageError () :=
  match sync_result with
  | Ok () => sm_modify (mark_flushed last_seq)
  | Err e => sm_modify (set_bg_error (Some (BgFlushFailed e)));; sm_fail (FlushFailed e)
  end.

(** Its last section after a failed write: the buffer goes back in front. *)
Definition flush_restore (buf : bytes) (e : IoError) : SM Shared StorageError () :=
  sm_modify (set_state (λ d, set_buffer (buf ++ buffer d) d));;
  sm_modify (set_bg_error (Some (BgFlushFailed e)));;
  sm_fail (FlushFailed e).

Definition flush_inner : SM Shared StorageError () :=
  taken ← flush_take;
  match taken with
  | None => mret ()
  | Some (buf, last_seq) =>
    written ← flush_write buf;
    match written with
    | Ok () => sync_result ← sm_result (on_file fs_sync_data); flush_finish last_seq sync_result
    | Err e => flush_restore buf e
    end
  end.

Definition check_closed : SM Shared StorageError () :=
  s ← sm_get;
  if closed s then sm_fail Closed else
  match bg_error s with
  | Some (BgFlushFailed e) => sm_fail (FlushFailed e)
  | Some (BgCheckpointFailed e) => sm_fail (CheckpointFailed e)
  | None => mret ()
  end.

(** The state stays locked, and the buffer as it is when a call fails. *)
Definition flush_buffer_locked : SM Shared StorageError () :=
  s ← sm_get;
  if bool_decide (buffer (state s) = []) then mret () else
  sm_io (on_file (fs_write_all (buffer (state s))));;
  sm_io (on_file fs_sync_data);;
  sm_modify (mark_flushed (N.pred (next_entry (state s))));;
  sm_modify (set_state (set_buffer [])).

(** [flush]. *)
Definition flush : SM Shared StorageError () := check_closed;; flush_inner.

(** ** Checkpoints *)

(** What is written of a level, from the first chunk that is not on disk yet. *)
Definition level_checkpoint (s : DurableState) (level_idx : nat) : option LevelCheckpointData :=
  lv ← levels (tree s) !! level_idx;
  let total_chunks := level_len lv / CHUNK_SIZE in
  let already := default 0 (checkpointed_chunks s !! level_idx) in
  new_chunks ← chunks_since lv already;
  Some (MkLevelData new_chunks already total_chunks).

(** First section of [checkpoint_inner]; [None] is the early return of an empty tree. *)
Definition checkpoint_begin : SM Shared StorageError (option CheckpointSnap) :=
  flush_buffer_locked;;
  s ← sm_get;
  let t := tree (state s) in
  let last_seq := N.pred (next_entry (state s)) in
  if (size t =? 0)%N then mret None else
  let active_levels := Nat.min (depth t) (max_depth - 1) + 1 in
  level_data ← sm_expect (mapM (level_checkpoint (state s)) (seq 0 active_levels));
  mret (Some (MkCheckpointSnap (depth t) (size t) last_seq (default ZERO (root t)) level_data)).

(** One level's chunks. *)
Definition write_level (level_idx : nat) (ld : LevelCheckpointData) : SM Dir StorageError (list Path) :=
  if bool_decide (new_chunks ld = []) then mret [] else
  sm_io (fs_create_dir_all (level_dir_path data_dir level_idx));;
  sm_io (append_chunks_to_level data_dir level_idx (from_chunk ld) (as_slice <$> new_chunks ld)).

(** The files of a checkpoint, written without the state lock. *)
Definition checkpoint_files (snap : CheckpointSnap) : SM Dir StorageError () :=
  sm_io (fs_create_dir_all data_dir);;
  sm_io (write_header data_dir (as_u32 nary) (as_u32 max_depth));;
  files_to_sync ← sm_map (λ '(level_idx, ld), write_level level_idx ld) (enumerate (level_data snap));
  sm_for (mjoin files_to_sync) (λ file, sm_io (fs_sync file));;
  sm_io (write_meta data_dir (MkMeta (as_u32 nary) (as_u32 max_depth) (snap_last_seq snap) (snap_leaf_count snap)
    (as_u32 (snap_depth_ snap)) (snap_root_hash snap))).

(** [Vec::resize(len, 0)]. *)
Definition resize_vec (len : nat) (v : list nat) : list nat := take len v ++ replicate (len - length v) 0.

(** A level after its chunks are on disk: mapped instead of held, and counted. *)
Definition remap_level (level_idx : nat) (ld : LevelCheckpointData) : SM Shared StorageError () :=
  (if (0 <? total_chunks ld) && (N.of_nat level_idx <? pin_above_level tiering)%N then
     regions ← sm_io (on_dir (mmap_level_shards data_dir level_idx (total_chunks ld)));
     if bool_decide (regions = []) then mret () else
     s ← sm_get;
     lv ← sm_expect (levels (tree (state s)) !! level_idx);
     lv ← sm_expect (remap_chunks (total_chunks ld) regions lv);
     let t := tree (state s) in
     sm_modify (set_state (set_tree (MkTree (<[level_idx := lv]> (levels t)) (root t) (size t) (depth t))))
   else mret ());;
  sm_modify (set_state (λ d, set_checkpointed (<[level_idx := total_chunks ld]> (checkpointed_chunks d)) d)).

(** The log starts over with its header. *)
Definition truncate_wal : SM Shared StorageError () :=
  header_buf ← sm_outcome (serialize_header (as_u32 nary) (as_u32 max_depth));
  sm_io (on_file (fs_seek_start 0));;
  sm_io (on_file (fs_write_all header_buf));;
  sm_io (on_file (fs_set_len (N.of_nat (length header_buf))));;
  sm_io (on_file fs_sync_data).

(** Last section of [checkpoint_inner]. *)
Definition checkpoint_end (snap : CheckpointSnap) : SM Shared StorageError () :=
  sm_modify (set_state (λ d, set_checkpointed (resize_vec (length (level_data snap)) (checkpointed_chunks d)) d));;
  sm_for (enumerate (level_data snap)) (λ '(level_idx, ld), remap_level level_idx ld);;
  truncate_wal;;
  sm_modify (set_counters 0 0);;
  flush_buffer_locked;;
  sm_modify (λ s, set_published (snapshot max_depth (tree (state s))) s);;
  sm_modify (λ s, set_coord (requested s) (u64_wrapping_add (completed s) 1) s).

Definition checkpoint_inner : SM Shared StorageError () :=
  snap ← checkpoint_begin;
  match snap with
  | None => mret ()
  | Some snap => on_dir (checkpoint_files snap);; checkpoint_end snap
  end.

(** [checkpoint]. *)
Definition checkpoint : SM Shared StorageError () := check_closed;; checkpoint_inner.

Definition should_auto_checkpoint (s : Shared) : bool :=
  match checkpoint_policy with
  | ManualCheckpoint | OnClose => false
  | EveryNEntries n => (n <=? entries_since_checkpoint s)%N
  | MemoryThreshold bytes_ => (bytes_ <=? uncheckpointed_memory_bytes s)%N
  end.

Definition request_checkpoint (s : Shared) : Shared := set_coord true (completed s) s.

Definition maybe_auto_checkpoint (s : Shared) : Shared :=
  if should_auto_checkpoint s then request_checkpoint s else s.

(** ** Insertions *)

(** What follows the insertion into the tree: the entry, the counters and the new snapshot. *)
Definition log_entry (p : WalPayload) (memory : N) : SM Shared RotorTreeError N :=
  s ← sm_get;
  let seq := next_entry (state s) in
  buf ← sm_outcome (serialize_entry (buffer (state s)) seq p);
  sm_modify (set_state (set_buffer buf));;
  next ← sm_expect (u64_checked_add seq 1);
  sm_modify (set_state (set_next next));;
  sm_modify (λ s, set_counters (u64_wrapping_add (entries_since_checkpoint s) 1)
    (u64_wrapping_add (uncheckpointed_memory_bytes s) memory) s);;
  sm_modify (λ s, set_published (snapshot max_depth (tree (state s))) s);;
  mret seq.

Definition insert (leaf : hash) : SM Shared RotorTreeError (hash * N) :=
  sm_map_err RStorage check_closed;;
  root ← sm_map_err RTree (on_tree (_insert nary max_depth leaf));
  token ← log_entry (Single leaf) 32;
  sm_modify maybe_auto_checkpoint;;
  mret (root, token).

Definition insert_many (leaves : list hash) : SM Shared RotorTreeError (hash * N) :=
  sm_map_err RStorage check_closed;;
  root ← sm_map_err RTree (on_tree (_insert_many nary max_depth par leaves));
  token ← log_entry (Batched (Borrowed leaves)) (N.of_nat (length leaves) * 32);
  sm_modify maybe_auto_checkpoint;;
  mret (root, token).

(** [insert_durable] up to the wait for its token. *)
Definition insert_durable (leaf : hash) : SM Shared RotorTreeError (hash * N) :=
  r ← insert leaf;
  sm_map_err RStorage flush;;
  mret r.

(** ** Opening and closing *)

(** [open], from the locked log on; the caller's [lock] is what the lock attempt gave. *)
Definition open (verify_checkpoint : bool) (lock : result bool ()) (f : File) (d : Dir) :
    (File * Dir) * outcome (result Shared RotorTreeError) :=
  match lock with
  | Err _ | Ok false => ((f, d), Returns (Err (RStorage FileLocked)))
  | Ok true =>
    match sm_map_err RStorage (
        recovered ← (if fs_exists data_dir d then recover_with_checkpoint nary max_depth par data_dir verify_checkpoint
                     else on_wal (recover nary max_depth par));
        checkpointed ← on_data (compute_initial_level_files nary max_depth data_dir);
        mret (recovered, checkpointed)) (f, d) with
    | ((f, d), Returns (Ok (recovered, checkpointed))) =>
      let t := inner recovered in
      let s := MkShared (MkDurable t [] (next_seq recovered) checkpointed) f d (snapshot max_depth t) None false None
        0 0 false 0 in
      ((f, d), Returns (Ok (if (0 <? next_seq recovered)%N then mark_flushed (next_seq recovered - 1)%N s else s)))
    | (fd, Returns (Err e)) => (fd, Returns (Err e))
    | (fd, Panics) => (fd, Panics)
    end
  end.

(** One turn of the checkpoint thread's loop: it waits for a request and ends when the tree is
    closed or a checkpoint failed ([false]). *)
Definition checkpoint_thread_step {E} : SM Shared E bool :=
  s ← sm_get;
  if closed s then mret false else
  if negb (requested s) then mret true else
  sm_modify (λ s, set_coord false (completed s) s);;
  r ← sm_result checkpoint_inner;
  match r with
  | Ok () => mret true
  | Err e => sm_modify (set_bg_error (Some (BgCheckpointFailed e)));; mret false
  end.

(** One turn of the flush thread's loop. *)
Definition flush_thread_step {E} : SM Shared E () := sm_result flush_inner;; mret ().

(** [close_inner], once the threads have ended. *)
Definition close_inner : SM Shared StorageError () :=
  s ← sm_get;
  if closed s then mret () else
  sm_modify (set_closed true);;
  flush_inner;;
  match checkpoint_policy with OnClose => checkpoint_inner | _ => mret () end.

(** [root], [size], [depth]: of the published snapshot. *)
Definition rotor_root (s : Shared) : option hash := snap_root (published s).
Definition rotor_size (s : Shared) : N := snap_size (published s).
Definition rotor_depth (s : Shared) : nat := snap_depth (published s).

End rotor.
