(* ===== verification/RecoverySpec.v ===== *)
(** What recovery promises of any log: it ends, and it gives back the leaves of the whole entries
    of a log whose end is torn. *)
From S2P Require Import Prelude Hash ChunkedLevel Tree TreeSpec Checksum Frame Wal WalFile Recovery DataFiles Codec.

Section spec.
Context (nary max_depth : nat) `{HL : HasherLaws} (par : option nat).
Context `{Checksum, Wincode WalHeader, Wincode WalEntry}.
Context (Hn : 2 ≤ nary) (Hmd1 : 1 ≤ max_depth).

(** C29. Replaying arbitrary bytes ends, without a panic, after at most as many turns of its loop as
    there are bytes, and leaves a tree that represents the leaves it had and some more, whether an
    entry is refused, the log is damaged, or it just ends. *)
Theorem replay_total data skip t xs :
  (∀ bs e, fits_frame bs → wc_deserialize bs = Some (EntryV1 e) → (N.of_nat (length (entry_leaves (payload e))) ≤ u64_max)%N) →
  tree_rep nary max_depth t xs → (N.of_nat (length data) ≤ u64_max)%N →
  is_Some (replay_loop nary max_depth par (S (length data)) data skip 0 None [] t) ∧
  ∃ t' r zs, replay_wal_entries nary max_depth par data skip t = (t', Returns r) ∧
    tree_rep nary max_depth t' (xs ++ zs).
Proof.
  intros Hdec Hrep Hdata. split.
  - destruct (replay_loop_total nary max_depth par Hn Hmd1 Hdec (S (length data)) data skip 0 None [] t xs Hrep Hdata)
      as (t' & r & zs & -> & _); [simpl; lia..|done].
  - by apply replay_wal_entries_total.
Qed.

Context `{!ChecksumLaws _, !WincodeLaws WalHeader _ header_valid, !WincodeLaws WalEntry _ entry_valid}.

(** C14. A log whose last entry is cut off anywhere recovers to the tree over the leaves of the others,
    the next number is theirs, and the file is cut off behind them and synced. *)
Theorem recover_replays es e k :
  shape_ok nary max_depth → numbered 0 (es ++ [e]) → Forall entry_ok (es ++ [e]) →
  k < length (entry_frame e) →
  let header := header_frame (as_u32 nary) (as_u32 max_depth) in
  let bs := header ++ log_bytes es ++ take k (entry_frame e) in
  fits_vec bs →
  (N.of_nat (length (replayed None es)) ≤ u64_max)%N → tree_depth nary (replayed None es) ≤ max_depth →
  ∃ f t, recover nary max_depth par (opened bs) = (f, Returns (Ok (MkRecovery t (N.of_nat (length es))))) ∧
    tree_rep nary max_depth t (replayed None es) ∧
    content f = header ++ log_bytes es ∧ synced f = content f ∧ cursor f = length (content f).
Proof.
  intros Hshape Hnum0 Hok0 Hk header bs Hv Hmax Hd.
  apply numbered_app in Hnum0 as [Hnum _]. rewrite list.Forall_app in Hok0. destruct Hok0 as [Hok He].
  rewrite list.Forall_singleton in He. destruct He as [Hfits _].
  assert (ends_log es (take k (entry_frame e))) as Hend.
  { apply ends_log_torn; [done| |done]. cbv beta in Hv |- *. unfold bs in Hv. rewrite !length_app in Hv. lia. }
  destruct (recover_ok nary max_depth par Hn Hmd1 (take k (entry_frame e)) es Hshape Hv Hnum Hok Hend Hmax Hd)
    as (t & Hr & Hrep).
  exists (cut_file nary max_depth es), t. split; [exact Hr|]. by split_and!.
Qed.
End spec.

(** ** Witnesses *)

Module RecoveryEx.
Export Codec.Toy.
#[local] Existing Instance Hash.Toy.hasher.
#[local] Existing Instance Hash.Toy.hasher_laws.
#[local] Existing Instance iscsi.
#[local] Existing Instance iscsi_laws.

Definition entry (n : N) : WalEntryV1 := MkEntry n (Single (ex_leaf n)).

Lemma entry_is_ok n : (n ≤ 1)%N → entry_ok (entry n).
Proof.
  intros Hle. split; [|done]. split.
  - split; [unfold u64_max; simpl; lia|]. constructor; [apply length_le_bytes|done].
  - assert (n = 0 ∨ n = 1)%N as [-> | ->] by lia; vm_compute; discriminate.
Qed.

Lemma replay_total_witness :
  is_Some (replay_loop 2 4 None 4 [x01; x02; x03] None 0 None [] (tree_new 4)) ∧
  ∃ t' r zs, replay_wal_entries 2 4 None [x01; x02; x03] None (tree_new 4) = (t', Returns r) ∧ tree_rep 2 4 t' ([] ++ zs).
Proof.
  apply (replay_total 2 4 None ltac:(lia) ltac:(lia) [x01; x02; x03] None (tree_new 4) []).
  - intros bs e Hbs He. apply entry_decoded in He. unfold MAX_FRAME_PAYLOAD, u64_max in *. lia.
  - apply tree_new_rep; lia.
  - vm_compute. discriminate.
Defined.

Lemma recover_replays_witness :
  ∃ f t, recover 2 4 None (opened (header_frame 2 4 ++ log_bytes [entry 0] ++ take 5 (entry_frame (entry 1)))) =
      (f, Returns (Ok (MkRecovery t 1))) ∧
    tree_rep 2 4 t [ex_leaf 0] ∧ content f = header_frame 2 4 ++ log_bytes [entry 0] ∧ synced f = content f ∧
    cursor f = length (content f).
Proof.
  apply (recover_replays 2 4 None ltac:(lia) ltac:(lia) [entry 0] (entry 1) 5).
  - vm_compute. discriminate.
  - done.
  - repeat constructor; by apply entry_is_ok.
  - vm_compute. lia.
  - vm_compute. discriminate.
  - vm_compute. discriminate.
  - vm_compute. lia.
Defined.
End RecoveryEx.
