(* ===== verification/RotorSpec.v ===== *)
(** What the persistent tree promises without checkpoints: from any state that insertions, flushes
    with failing calls, closing and crashes lead to, what was reported durable is recovered. *)
From stdpp Require Import strings.
From S2P Require Import Prelude Hash ChunkedLevel Tree TreeSpec Checksum Vfs Frame Wal WalFile.
From S2P Require Import Recovery DataFiles CheckpointRecovery RotorTree Codec.

(** A flush between its sections: not running, its buffer taken, its buffer written. *)
Inductive Flight := Idle | Taken (buf : bytes) (last_seq : N) | Written (last_seq : N).

(** A data directory that is not there. *)
Definition no_data : Dir := MkDir ∅ ∅ [].

Definition with_faults (fs : list (option nat)) (f : File) : File := MkFile (content f) (cursor f) (synced f) fs.

(** The log after an insertion: one entry more if it succeeded. *)
Definition logged (p : WalPayload) (r : outcome (result (hash * N) RotorTreeError)) (es : list WalEntryV1) :=
  match r with Returns (Ok (_, token)) => es ++ [MkEntry token p] | _ => es end.

Section spec.
Context (nary max_depth : nat) `{HL : HasherLaws} (par : option nat).
Context `{Checksum, Wincode WalHeader, Wincode WalEntry, Wincode HeaderFrame, Wincode MetaFrame}.
Context `{!ChecksumLaws _, !WincodeLaws WalHeader _ header_valid, !WincodeLaws WalEntry _ entry_valid}.
Context (data_dir : Path) (policy : CheckpointPolicy).
Context (Hn : 2 ≤ nary) (Hmd1 : 1 ≤ max_depth) (Hshape : shape_ok nary max_depth).

Abbreviation tree_rep := (tree_rep nary max_depth).
Abbreviation header := (header_frame (as_u32 nary) (as_u32 max_depth)).
Abbreviation open := (open nary max_depth par data_dir).
Abbreviation insert := (insert nary max_depth policy).
Abbreviation insert_many := (insert_many nary max_depth par policy).

(** ** States that can be reached *)

(** The state, the flush in progress, and the entries that were logged and not lost since. Calls
    on the log fail as the environment decides. *)
Inductive reach : Shared → Flight → list WalEntryV1 → Prop :=
| reach_open v fd s : open v (Ok true) (opened []) no_data = (fd, Returns (Ok s)) → reach s Idle []
| reach_faults s fl es fs : reach s fl es → reach (set_wal (with_faults fs (wal_file s)) s) fl es
| reach_insert s fl es leaf s' r :
    reach s fl es → (next_entry (state s) < u64_max)%N → hash_wf leaf →
    insert leaf s = (s', r) → reach s' fl (logged (Single leaf) r es)
| reach_insert_many s fl es leaves s' r :
    reach s fl es → (next_entry (state s) < u64_max)%N → Forall hash_wf leaves →
    (N.of_nat (length leaves) ≤ u64_max)%N →
    insert_many leaves s = (s', r) → reach s' fl (logged (Batched (Borrowed leaves)) r es)
| reach_take s es s' buf last_seq :
    reach s Idle es → flush_take (E := StorageError) s = (s', Returns (Ok (Some (buf, last_seq)))) →
    reach s' (Taken buf last_seq) es
| reach_write s es buf last_seq s' :
    reach s (Taken buf last_seq) es → flush_write buf s = (s', Returns (Ok (Ok ()))) → reach s' (Written last_seq) es
| reach_restore s es buf last_seq s1 e s' r :
    reach s (Taken buf last_seq) es → flush_write buf s = (s1, Returns (Ok (Err e))) →
    flush_restore buf e s1 = (s', r) → reach s' Idle es
| reach_sync s es last_seq s1 q s' r :
    reach s (Written last_seq) es → sm_result (E' := StorageError) (on_file fs_sync_data) s = (s1, Returns (Ok q)) →
    flush_finish last_seq q s1 = (s', r) → reach s' Idle es
| reach_close s fl es : reach s fl es → reach (set_closed true s) fl es
| reach_crash s fl es bs v fd s' :
    reach s fl es → crash_leaves (wal_file s) bs → fits_vec bs →
    open v (Ok true) (opened bs) no_data = (fd, Returns (Ok s')) →
    reach s' Idle (take (N.to_nat (next_entry (state s'))) es).

(** A flush that starts in [s], where [es] was logged, up to the sync: insertions may come between its
    sections, and calls on the log fail as the environment decides. *)
Inductive flying (s : Shared) (es : list WalEntryV1) : Shared → Flight → list WalEntryV1 → Prop :=
| flying_take s1 buf last_seq :
    flush_take (E := StorageError) s = (s1, Returns (Ok (Some (buf, last_seq)))) → flying s es s1 (Taken buf last_seq) es
| flying_faults s1 fl es1 fs : flying s es s1 fl es1 → flying s es (set_wal (with_faults fs (wal_file s1)) s1) fl es1
| flying_insert s1 fl es1 leaf s2 r :
    flying s es s1 fl es1 → (next_entry (state s1) < u64_max)%N → hash_wf leaf →
    insert leaf s1 = (s2, r) → flying s es s2 fl (logged (Single leaf) r es1)
| flying_insert_many s1 fl es1 leaves s2 r :
    flying s es s1 fl es1 → (next_entry (state s1) < u64_max)%N → Forall hash_wf leaves →
    (N.of_nat (length leaves) ≤ u64_max)%N →
    insert_many leaves s1 = (s2, r) → flying s es s2 fl (logged (Batched (Borrowed leaves)) r es1)
| flying_write s1 es1 buf last_seq s2 :
    flying s es s1 (Taken buf last_seq) es1 → flush_write buf s1 = (s2, Returns (Ok (Ok ()))) →
    flying s es s2 (Written last_seq) es1
| flying_close s1 fl es1 : flying s es s1 fl es1 → flying s es (set_closed true s1) fl es1.

(** ** The invariant *)

(** The entries that are surely on disk, that are written, that a flush carries, that are buffered;
    what a failed write left behind the log; and the leaves of the tree in memory, which may be more
    than the log's: an insertion that panics over an oversized batch leaves its leaves behind. *)
Record log_inv (s : Shared) (fl : Flight) (durable written flying buffered : list WalEntryV1) (junk : bytes)
    (xs : list hash) : Prop := {
  li_buffer : buffer (state s) = log_bytes buffered;
  li_next : next_entry (state s) = N.of_nat (length (written ++ flying ++ buffered));
  li_numbered : numbered 0 (written ++ flying ++ buffered);
  li_entries : Forall entry_ok (written ++ flying ++ buffered);
  li_content : content (wal_file s) = (header ++ log_bytes written) ++ junk;
  li_cursor : cursor (wal_file s) = length (header ++ log_bytes written);
  li_synced : synced (wal_file s) = header ++ log_bytes durable;
  li_durable : durable `prefix_of` written;
  li_flushed : flushed s = match length durable with O => None | S n => Some (N.of_nat n) end;
  li_tree : tree_rep (tree (state s)) xs;
  li_leaves : length (replayed None (written ++ flying ++ buffered)) ≤ length xs;
  li_flight : match fl with
    | Idle => flying = [] ∧ junk `prefix_of` log_bytes buffered ∧ (bg_error s = None → durable = written)
    | Taken buf last_seq => buf = log_bytes flying ∧ (last_seq + 1 = N.of_nat (length (written ++ flying)))%N ∧
        junk `prefix_of` log_bytes flying ∧ (bg_error s = None → durable = written)
    | Written last_seq => flying = [] ∧ junk = [] ∧ (last_seq + 1 = N.of_nat (length written))%N
    end;
}.

Definition inv (s : Shared) (fl : Flight) (es : list WalEntryV1) : Prop :=
  ∃ durable written flying buffered junk xs,
    es = written ++ flying ++ buffered ∧ log_inv s fl durable written flying buffered junk xs.

(** The invariant looks at the tree, the buffer, the log and what was reported. *)
Lemma inv_ext s s' fl es :
  inv s fl es → state s' = state s → content (wal_file s') = content (wal_file s) →
  cursor (wal_file s') = cursor (wal_file s) → synced (wal_file s') = synced (wal_file s) →
  flushed s' = flushed s → bg_error s' = bg_error s → inv s' fl es.
Proof.
  intros (durable & written & flying & buffered & junk & xs & Hes & [???????????? ]) Hst Hc Hcu Hs Hf Hb.
  exists durable, written, flying, buffered, junk, xs. split; [done|].
  split; rewrite ?Hst, ?Hc, ?Hcu, ?Hs, ?Hf, ?Hb; done.
Qed.

(** ** Lemmas: the log *)

Lemma tree_depth_le xs ys :
  length xs ≤ length ys → (N.of_nat (length ys) ≤ u64_max)%N → tree_depth nary xs ≤ tree_depth nary ys.
Proof.
  intros Hle Hmax. rewrite <- (take_drop (length xs) ys) in Hmax |- *.
  etransitivity; [|apply (tree_depth_app nary Hn _ _ Hmax)].
  unfold tree_depth. by rewrite length_take, Nat.min_l.
Qed.

Lemma log_cut_at es k :
  ∃ n tl, take k (log_bytes es) = log_bytes (take n es) ++ tl ∧
    ((n = length es ∧ tl = []) ∨
     ∃ e j, es !! n = Some e ∧ tl = take j (entry_frame e) ∧ j < length (entry_frame e)).
Proof.
  revert k. induction es as [|e es IH]; intros k.
  { exists 0, []. split; [apply take_nil|by left]. }
  rewrite log_bytes_cons. destruct (decide (k < length (entry_frame e))) as [Hk|Hk].
  - exists 0, (take k (entry_frame e)). split; [by rewrite take_app_le by lia|]. right. by exists e, k.
  - destruct (IH (k - length (entry_frame e))) as (n & tl & Heq & Hcase). exists (S n), tl. split.
    + rewrite take_app_ge by lia. change (take (S n) (e :: es)) with (e :: take n es).
      by rewrite Heq, log_bytes_cons, app_assoc.
    + destruct Hcase as [[-> ->]|(e' & j & ?)]; [by left|right; by exists e', j].
Qed.

(** What a crash leaves of a log is a log with a torn end. *)
Lemma log_cut es k :
  Forall entry_ok es → fits_vec (take k (log_bytes es)) →
  ∃ n tl, n ≤ length es ∧ take k (log_bytes es) = log_bytes (take n es) ++ tl ∧ ends_log (take n es) tl ∧
    ∀ ds, ds `prefix_of` es → log_bytes ds `prefix_of` take k (log_bytes es) → length ds ≤ n.
Proof.
  intros Hok Hv. destruct (log_cut_at es k) as (n & tl & Heq & Hcase). exists n, tl.
  cbv beta in Hv. rewrite Heq in Hv. rewrite length_app in Hv. rewrite Heq.
  destruct Hcase as [[-> ->]|(e & j & He & -> & Hj)].
  - split_and!; [done|done|apply ends_log_nil|]. intros ds Hds _. by apply prefix_length.
  - pose proof (lookup_lt_Some _ _ _ He) as Hlt. split_and!; [lia|done| |].
    + rewrite Forall_lookup in Hok. apply ends_log_torn; [by apply (Hok n)|cbv beta; lia|done].
    + intros ds [rest Hds] Hpre%prefix_length. apply Nat.nlt_ge. intros Hgt.
      assert (take (length ds) es = ds) as Hd by (rewrite Hds; apply take_app_length).
      assert (ds = take (S n) es ++ drop (S n) ds) as Hsplit.
      { rewrite <- Hd at 2. rewrite <- (take_drop (S n) ds) at 1. f_equal. rewrite <- Hd, take_take. f_equal. lia. 
        by rewrite Hd. }
      rewrite Hsplit, (take_S_r _ _ _ He), !log_bytes_app, !length_app, log_bytes_cons, !length_app in Hpre.
      rewrite length_take in Hpre. lia.
Qed.
(** ** Lemmas: opening *)

(** The state after opening a log of these entries. *)
Definition opened_state (t : TreeInner) (es : list WalEntryV1) : Shared :=
  let n := N.of_nat (length es) in
  let s := MkShared (MkDurable t [] n []) (cut_file nary max_depth es) no_data (snapshot max_depth t) None false None
    0 0 false 0 in
  if (0 <? n)%N then mark_flushed (n - 1) s else s.

Lemma no_data_levels : compute_initial_level_files nary max_depth data_dir no_data = (no_data, Returns (Ok [])).
Proof. reflexivity. Qed.

Lemma open_ok v bs t es :
  runs_to (recover nary max_depth par) (opened bs) (cut_file nary max_depth es) (MkRecovery t (N.of_nat (length es))) →
  open v (Ok true) (opened bs) no_data = ((cut_file nary max_depth es, no_data), Returns (Ok (opened_state t es))).
Proof.
  intros Hr. unfold RotorTree.open. assert (fs_exists data_dir no_data = false) as ->.
  { unfold fs_exists, no_data. simpl made. by rewrite bool_decide_false by set_solver. }
  unfold sm_map_err at 1. rewrite (sm_bind_ok (on_wal _) _ _ (cut_file nary max_depth es, no_data)
    (MkRecovery t (N.of_nat (length es)))) by (unfold runs_to, on_wal, sm_zoom; simpl; by rewrite Hr).
  rewrite (sm_bind_ok (on_data _) _ _ (cut_file nary max_depth es, no_data) []).
  2: { unfold runs_to, on_data, sm_zoom. cbn [snd]. by rewrite no_data_levels. }
  done.
Qed.

Lemma inv_opened t es :
  tree_rep t (replayed None es) → numbered 0 es → Forall entry_ok es → inv (opened_state t es) Idle es.
Proof.
  intros Hrep Hnum Hok. exists es, es, [], [], [], (replayed None es). rewrite !app_nil_r. split; [done|].
  assert (flushed (opened_state t es) = match length es with O => None | S n => Some (N.of_nat n) end) as Hfl.
  { unfold opened_state. destruct (length es) as [|n]; [done|].
    rewrite (proj2 (N.ltb_lt _ _)) by lia. unfold mark_flushed. cbn [flushed set_flushed]. f_equal. lia. }
  unfold opened_state in *. destruct (_ <? _)%N; split; rewrite ?app_nil_r; try done;
    split_and!; try done; apply prefix_nil.
Qed.

Lemma open_fresh v : ∃ t, open v (Ok true) (opened []) no_data =
    ((cut_file nary max_depth [], no_data), Returns (Ok (opened_state t []))) ∧ tree_rep t [].
Proof.
  destruct (recover_fresh nary max_depth par Hn Hmd1 Hshape) as (t & Hr & Hrep). exists t. split; [|done].
  by apply open_ok.
Qed.

(** What a failed write left is the beginning of what comes next. *)
Lemma junk_prefix s fl durable written flying buffered junk xs :
  log_inv s fl durable written flying buffered junk xs → junk `prefix_of` log_bytes (flying ++ buffered).
Proof.
  intros [?????????? _ Hfl]. rewrite log_bytes_app. destruct fl as [|buf last_seq|last_seq].
  - by destruct Hfl as (-> & Hj & _).
  - destruct Hfl as (_ & _ & Hj & _). by apply prefix_app_r.
  - destruct Hfl as (_ & -> & _). apply prefix_nil.
Qed.

(** The bytes a crash leaves are a header and the beginning of the log. *)
Lemma crashed_bytes s fl durable written flying buffered junk xs bs :
  log_inv s fl durable written flying buffered junk xs → crash_leaves (wal_file s) bs →
  ∃ k, bs = header ++ take k (log_bytes (written ++ flying ++ buffered)) ∧
    log_bytes durable `prefix_of` take k (log_bytes (written ++ flying ++ buffered)).
Proof.
  intros Hinv Hcrash. destruct (junk_prefix _ _ _ _ _ _ _ _ Hinv) as [rest Hrest].
  destruct Hinv as [_ _ _ _ Hc _ Hs [dr Hd] _ _ _ _].
  assert (∃ m, log_bytes written ++ junk = take m (log_bytes (written ++ flying ++ buffered))) as [m Hm].
  { exists (length (log_bytes written ++ junk)). rewrite log_bytes_app, Hrest, app_assoc. by rewrite take_app_length. }
  rewrite <- app_assoc in Hc. destruct Hcrash as [|k Hk].
  - exists (length (log_bytes durable)). rewrite Hd, <- app_assoc, log_bytes_app, take_app_length. by split.
  - rewrite Hs, Hc in Hk. rewrite Hc. pose proof (prefix_length _ _ Hk) as Hlen.
    rewrite length_app, length_take in Hlen. rewrite take_app_ge, Hm, take_take in Hk |- * by lia.
    eexists. split; [done|]. by apply prefix_app_inv in Hk.
Qed.

(** Opening what a crash left: the entries up to some point, all the synced ones among them. *)
Lemma open_crashed v s fl durable written flying buffered junk xs bs :
  log_inv s fl durable written flying buffered junk xs → crash_leaves (wal_file s) bs → fits_vec bs →
  let es := written ++ flying ++ buffered in
  ∃ n t, open v (Ok true) (opened bs) no_data =
      ((cut_file nary max_depth (take n es), no_data), Returns (Ok (opened_state t (take n es)))) ∧
    length durable ≤ n ≤ length es ∧ tree_rep t (replayed None (take n es)) ∧
    numbered 0 (take n es) ∧ Forall entry_ok (take n es).
Proof.
  intros Hinv Hcrash Hv es. destruct (crashed_bytes _ _ _ _ _ _ _ _ _ Hinv Hcrash) as (k & -> & Hpre).
  fold es in Hpre, Hv |- *. destruct Hinv as [_ _ Hnum Hok _ _ _ [dr Hd] _ Htree Hleaves _]. fold es in Hnum, Hok, Hleaves.
  cbv beta in Hv. rewrite length_app in Hv.
  destruct (log_cut es k Hok) as (n & tl & Hle & Heq & Hend & Hds); [cbv beta; lia|].
  assert (length durable ≤ n) as Hdn.
  { apply Hds; [|done]. exists (dr ++ flying ++ buffered). unfold es. by rewrite Hd, <- app_assoc. }
  assert (length (replayed None (take n es)) ≤ length xs) as Hlx.
  { rewrite <- (take_drop n es), replayed_app, length_app in Hleaves. lia. }
  rewrite <- (take_drop n es), numbered_app in Hnum. destruct Hnum as [Hnum _].
  apply (Forall_take _ n) in Hok. rewrite Heq, length_app in Hv.
  destruct (recover_ok nary max_depth par Hn Hmd1 tl (take n es) Hshape) as (t & Hr & Hrep); try done.
  - cbv beta. rewrite !length_app. lia.
  - pose proof (tr_max_size _ _ _ _ Htree). lia.
  - pose proof (tree_depth_le _ _ Hlx (tr_max_size _ _ _ _ Htree)). pose proof (tr_max_depth _ _ _ _ Htree). lia.
  - exists n, t. split_and!; [|done..]. rewrite Heq. by apply open_ok.
Qed.
(** ** Lemmas: insertions *)

Lemma check_closed_pure s : ∃ r, check_closed s = (s, Returns r) ∧ (r = Ok () → closed s = false ∧ bg_error s = None).
Proof.
  unfold check_closed. rewrite sm_get_bind. destruct (closed s); [by exists (Err Closed)|].
  destruct (bg_error s) as [[]|]; eexists; (split; [reflexivity|done]).
Qed.

(** The state after a logged entry. *)
Definition entry_logged (p : WalPayload) (memory : N) (s : Shared) : Shared :=
  let s := set_state (λ d, set_next (next_entry d + 1)
    (set_buffer (buffer d ++ entry_frame (MkEntry (next_entry d) p)) d)) s in
  let s := set_counters (u64_wrapping_add (entries_since_checkpoint s) 1)
    (u64_wrapping_add (uncheckpointed_memory_bytes s) memory) s in
  set_published (snapshot max_depth (tree (state s))) s.

Lemma log_entry_eq p memory s :
  (next_entry (state s) < u64_max)%N →
  log_entry max_depth p memory s =
    if bool_decide (fits_frame (wc_serialize (EntryV1 (MkEntry (next_entry (state s)) p))))
    then (entry_logged p memory s, Returns (Ok (next_entry (state s)))) else (s, Panics).
Proof.
  intros Hlt. unfold log_entry. rewrite sm_get_bind. cbn zeta. rewrite serialize_entry_ok.
  case_bool_decide as Hfits; cbv beta in Hfits.
  - rewrite (proj2 (N.leb_le _ _)) by done.
    unfold u64_checked_add. rewrite (proj2 (N.leb_le (_ + 1) _)) by lia. reflexivity.
  - by rewrite (proj2 (N.leb_gt _ _)) by lia.
Qed.

Lemma replayed_snoc skip es e : replayed skip (es ++ [e]) =
  replayed skip es ++ if should_replay skip e then entry_leaves (payload e) else [].
Proof. rewrite replayed_app. unfold replayed at 2. cbn [fmap list_fmap]. rewrite mjoin_cons. by rewrite app_nil_r. Qed.

Lemma inv_logged p memory s fl durable written flying buffered junk xs t :
  log_inv s fl durable written flying buffered junk xs → tree_rep t (xs ++ entry_leaves p) →
  (next_entry (state s) < u64_max)%N → Forall hash_wf (entry_leaves p) → entry_leaves p ≠ [] →
  fits_frame (wc_serialize (EntryV1 (MkEntry (next_entry (state s)) p))) →
  inv (entry_logged p memory (set_state (set_tree t) s)) fl
    ((written ++ flying ++ buffered) ++ [MkEntry (next_entry (state s)) p]).
Proof.
  intros [Hb Hnx Hnum Hok Hc Hcu Hs Hd Hf Ht Hl Hfl] Hrep Hlt Hwf Hne Hfits.
  set (e := MkEntry (next_entry (state s)) p).
  exists durable, written, flying, (buffered ++ [e]), junk, (xs ++ entry_leaves p).
  assert (written ++ flying ++ buffered ++ [e] = (written ++ flying ++ buffered) ++ [e]) as Hes by (by rewrite <- !app_assoc).
  split; [done|]. split; rewrite ?Hes; try done.
  - simpl. rewrite Hb, log_bytes_app. f_equal. unfold log_bytes. cbn [fmap list_fmap]. by rewrite mjoin_cons, app_nil_r.
  - simpl. rewrite Hnx, (length_app _ [e]). simpl. lia.
  - apply numbered_app. split; [done|]. simpl. split; [|done]. rewrite N.add_0_l. exact Hnx.
  - apply Forall_app. split; [done|]. constructor; [|done]. split; [|done]. split; [|exact Hfits]. simpl. split; [lia|done].
  - rewrite replayed_snoc, !length_app. simpl. lia.
  - destruct fl as [|buf last_seq|last_seq]; [|done..]. destruct Hfl as (? & Hj & ?). split_and!; [done| |done].
    rewrite log_bytes_app. by apply prefix_app_r.
Qed.

(** A tree with more leaves than the log's. *)
Lemma inv_tree s fl durable written flying buffered junk xs t xs' :
  log_inv s fl durable written flying buffered junk xs → tree_rep t xs' → length xs ≤ length xs' →
  inv (set_state (set_tree t) s) fl (written ++ flying ++ buffered).
Proof.
  intros [Hb Hnx Hnum Hok Hc Hcu Hs Hd Hf Ht Hl Hfl] Hrep Hle.
  exists durable, written, flying, buffered, junk, xs'. split; [done|]. split; try done. lia.
Qed.

Lemma insertion_inv s fl es p (m : SM TreeInner TreeError hash) memory s' r :
  inv s fl es → (next_entry (state s) < u64_max)%N → Forall hash_wf (entry_leaves p) →
  (∀ t xs, tree_rep t xs → ∃ t' o, m t = (t', Returns o) ∧
    match o with
    | Ok _ => entry_leaves p ≠ [] ∧ tree_rep t' (xs ++ entry_leaves p)
    | Err _ => tree_rep t' xs
    end) →
  (sm_map_err RStorage check_closed;;
   root ← sm_map_err RTree (on_tree m);
   token ← log_entry max_depth p memory;
   sm_modify (maybe_auto_checkpoint policy);; mret (root, token)) s = (s', r) →
  inv s' fl (logged p r es).
Proof.
  intros (durable & written & flying & buffered & junk & xs & -> & Hinv) Hlt Hwf Hm.
  assert (inv s fl (written ++ flying ++ buffered)) as Hinv0 by (eexists _, _, _, _, _, _; eauto).
  destruct (check_closed_pure s) as (o & Ho & _). unfold mbind at 1, sm_bind at 1, sm_map_err at 1. rewrite Ho.
  destruct o as [[]|e]; cbn [map_err]; [|intros [= <- <-]; exact Hinv0].
  destruct (Hm _ _ (li_tree _ _ _ _ _ _ _ _ Hinv)) as (t & o & Ht & Hrep).
  unfold mbind at 1, sm_bind at 1, sm_map_err at 1, on_tree, sm_zoom. rewrite Ht.
  destruct o as [root|e]; cbn [map_err].
  2: { intros [= <- <-]. by eapply inv_tree. }
  destruct Hrep as [Hne Hrep]. unfold mbind at 1, sm_bind at 1. rewrite log_entry_eq by exact Hlt.
  case_bool_decide as Hfits; [|intros [= <- <-]; eapply inv_tree; [done..|rewrite length_app; lia]].
  unfold mbind, sm_bind, sm_modify, mret, sm_ret. intros [= <- <-]. cbn [logged].
  eapply inv_ext; [by eapply inv_logged|..]; unfold maybe_auto_checkpoint; by destruct (should_auto_checkpoint _ _).
Qed.

Lemma insert_inv s fl es leaf s' r :
  inv s fl es → (next_entry (state s) < u64_max)%N → hash_wf leaf → insert leaf s = (s', r) →
  inv s' fl (logged (Single leaf) r es).
Proof.
  intros Hinv Hlt Hwf. apply insertion_inv; [done|done|by constructor|].
  intros t xs Hrep. cbn [entry_leaves].
  destruct (insert_refused nary max_depth Hn Hmd1 xs leaf t Hrep) as [Hcap Hdep].
  destruct (decide (N.of_nat (length (xs ++ [leaf])) ≤ u64_max)%N) as [Hmax|Hmax];
    [|by eexists _, _; split; [apply Hcap; lia|]].
  destruct (decide (tree_depth nary (xs ++ [leaf]) ≤ max_depth)) as [Hd|Hd];
    [|by eexists _, _; split; [apply Hdep; [done|lia]|]].
  destruct (insert_spec nary max_depth Hn xs leaf t Hrep Hmax Hd) as (t' & root & Hr & Hrep' & _).
  exists t', (Ok root). by split.
Qed.

Lemma insert_many_inv s fl es leaves s' r :
  inv s fl es → (next_entry (state s) < u64_max)%N → Forall hash_wf leaves → (N.of_nat (length leaves) ≤ u64_max)%N →
  insert_many leaves s = (s', r) → inv s' fl (logged (Batched (Borrowed leaves)) r es).
Proof.
  intros Hinv Hlt Hwf Hlen. apply insertion_inv; [done..|].
  intros t xs Hrep. cbn [entry_leaves cow_as_slice].
  destruct (insert_many_refused nary max_depth Hn Hmd1 par xs leaves t Hrep Hlen) as (Hemp & Hcap & Hdep).
  destruct (decide (leaves = [])) as [Heq|Hne]; [by eexists _, _; split; [by apply Hemp|]|].
  destruct (decide (N.of_nat (length (xs ++ leaves)) ≤ u64_max)%N) as [Hmax|Hmax];
    [|by eexists _, _; split; [apply Hcap; [done|lia]|]].
  destruct (decide (tree_depth nary (xs ++ leaves) ≤ max_depth)) as [Hd|Hd];
    [|by eexists _, _; split; [apply Hdep; [done|done|lia]|]].
  destruct (insert_many_spec nary max_depth Hn Hmd1 par xs leaves Hne Hmax Hd t Hrep) as (t' & root & Hr & Hrep' & _).
  exists t', (Ok root). by split.
Qed.
(** ** Lemmas: flushes *)

Lemma take_inv s es s' buf last_seq :
  inv s Idle es → flush_take (E := StorageError) s = (s', Returns (Ok (Some (buf, last_seq)))) →
  inv s' (Taken buf last_seq) es.
Proof.
  intros (durable & written & flying & buffered & junk & xs & -> & [Hb Hnx Hnum Hok Hc Hcu Hs Hd Hf Ht Hl Hfl]).
  destruct Hfl as (-> & Hj & Hbg). cbn [app] in *. unfold flush_take, sm_step. case_bool_decide as Hne; [done|].
  intros [= <- <- <-]. exists durable, written, buffered, [], junk, xs. rewrite !app_nil_r. split; [done|].
  split; rewrite ?app_nil_r; try done. split_and!; [done| |done|done].
  change (next_entry (state s)) with (next_entry (state s)). rewrite Hnx, length_app.
  destruct buffered; [by rewrite Hb in Hne|]. simpl. lia.
Qed.

(** A flush's write, whatever happens to it. *)
Lemma flush_write_spec s old junk buf :
  content (wal_file s) = old ++ junk → cursor (wal_file s) = length old → junk `prefix_of` buf →
  ∃ f r, flush_write buf s = (set_wal f s, Returns (Ok r)) ∧ synced f = synced (wal_file s) ∧
    match r with
    | Ok _ => content f = old ++ buf ∧ cursor f = length (old ++ buf)
    | Err _ => cursor f = length old ∧ ∃ junk', content f = old ++ junk' ∧ junk' `prefix_of` buf
    end.
Proof.
  intros Hc Hcu Hj. unfold flush_write. rewrite (sm_bind_ok (sm_io _) _ _ s (N.of_nat (length old)));
    [|rewrite <- Hcu; by destruct s].
  destruct (fs_write_all_spec buf (wal_file s)) as (f1 & r1 & w & Hw & Hwb & Hc1 & Hcu1 & Hs1 & Hr1).
  rewrite Hc, Hcu in Hc1. rewrite Hcu in Hcu1.
  destruct (overwrite_prefix old w junk buf Hwb Hj) as (junk' & Ho & Hj' & Hfull). rewrite Ho in Hc1.
  unfold mbind at 1, sm_bind at 1, sm_result at 1, on_file at 1, sm_zoom at 1. rewrite Hw.
  destruct r1 as [[]|e].
  { exists f1, (Ok ()). specialize (Hr1 eq_refl) as ->. rewrite Hfull in Hc1 by done. rewrite length_app. done. }
  set (s1 := set_wal f1 s). unfold mbind, sm_bind, sm_result, on_file, sm_zoom. cbn [wal_file set_wal].
  unfold fs_seek_start, sm_modify. cbn [wal_file s1 set_wal].
  unfold fs_set_len, faulty, mbind, sm_bind, sm_step, next_fault, sm_modify. cbn [faults content cursor synced].
  rewrite Nat2N.id. destruct (faults f1) as [|[k|] fs]; cbn [head tail default from_option id content cursor synced].
  2: { eexists _, (Err e). split; [reflexivity|]. cbn. split_and!; [done|done|by exists junk']. }
  all: eexists _, (Err e); (split; [reflexivity|]); cbn [content cursor synced]; split_and!; [done|done|];
    exists []; rewrite app_nil_r, Hc1, resize_app; split; [done|apply prefix_nil].
Qed.

Lemma write_inv s buf last_seq es s' :
  inv s (Taken buf last_seq) es → flush_write buf s = (s', Returns (Ok (Ok ()))) → inv s' (Written last_seq) es.
Proof.
  intros (durable & written & flying & buffered & junk & xs & -> & [Hb Hnx Hnum Hok Hc Hcu Hs Hd Hf Ht Hl Hfl]).
  destruct Hfl as (-> & Hlast & Hj & Hbg).
  destruct (flush_write_spec s _ _ _ Hc Hcu Hj) as (f & r & Hw & Hsy & Hr). rewrite Hw. intros [= <- ->].
  destruct Hr as [Hc' Hcu']. rewrite <- app_assoc, <- log_bytes_app in Hc', Hcu'.
  exists durable, (written ++ flying), [], buffered, [], xs. rewrite <- app_assoc. split; [done|].
  split; rewrite ?app_nil_r, <- ?app_assoc; try done.
  - cbn [wal_file set_wal]. by rewrite Hsy.
  - by apply prefix_app_r.
Qed.

Lemma restore_inv s buf last_seq es s1 e s' r :
  inv s (Taken buf last_seq) es → flush_write buf s = (s1, Returns (Ok (Err e))) →
  flush_restore buf e s1 = (s', r) → inv s' Idle es.
Proof.
  intros (durable & written & flying & buffered & junk & xs & -> & [Hb Hnx Hnum Hok Hc Hcu Hs Hd Hf Ht Hl Hfl]).
  destruct Hfl as (-> & Hlast & Hj & Hbg).
  destruct (flush_write_spec s _ _ _ Hc Hcu Hj) as (f & q & Hw & Hsy & Hr). rewrite Hw. intros [= <- ->].
  destruct Hr as (Hcu' & junk' & Hc' & Hj'). unfold flush_restore, mbind, sm_bind, sm_modify, sm_fail. intros [= <- <-].
  exists durable, written, [], (flying ++ buffered), junk', xs. split; [done|]. split; try done.
  - simpl. by rewrite Hb, log_bytes_app.
  - cbn. by rewrite Hsy.
  - split_and!; [done| |done]. rewrite log_bytes_app. by apply prefix_app_r.
Qed.

Lemma sync_outcome s : ∃ f q, sm_result (E' := StorageError) (on_file fs_sync_data) s = (set_wal f s, Returns (Ok q)).
Proof.
  unfold sm_result, on_file, sm_zoom, fs_sync_data, faulty, mbind, sm_bind, sm_step, sm_modify, next_fault.
  set (f fs b := MkFile (content (wal_file s)) (cursor (wal_file s)) (if b : bool then content (wal_file s) else synced (wal_file s)) fs).
  destruct (faults (wal_file s)) as [|[k|] fs].
  - by exists (f [] true), (Ok ()).
  - by exists (f fs false), (Err IoFailed).
  - by exists (f fs true), (Ok ()).
Qed.

Lemma sync_inv s last_seq es s1 q s' r :
  inv s (Written last_seq) es → sm_result (E' := StorageError) (on_file fs_sync_data) s = (s1, Returns (Ok q)) →
  flush_finish last_seq q s1 = (s', r) → inv s' Idle es.
Proof.
  intros (durable & written & flying & buffered & junk & xs & -> & [Hb Hnx Hnum Hok Hc Hcu Hs Hd Hf Ht Hl Hfl]).
  destruct Hfl as (-> & -> & Hlast). rewrite app_nil_r in Hc.
  unfold sm_result, on_file, sm_zoom, fs_sync_data, faulty, mbind, sm_bind, sm_step, next_fault, sm_modify, flush_finish.
  assert (∀ f, content f = content (wal_file s) → cursor f = cursor (wal_file s) → synced f = content f →
    inv (mark_flushed last_seq (set_wal f s)) Idle (written ++ [] ++ buffered)) as Hsynced.
  { intros f Hfc Hfcu Hfs. exists written, written, [], buffered, [], xs. split; [done|].
    assert (flushed (mark_flushed last_seq (set_wal f s)) = Some last_seq) as Hfl.
    { unfold mark_flushed. cbn [flushed set_wal]. rewrite Hf. apply prefix_length in Hd.
      destruct (length durable) as [|n]; [done|]. case_match; [|done]. nbool. cbn [flushed set_wal]. rewrite Hf. f_equal. lia. }
    assert (state (mark_flushed last_seq (set_wal f s)) = state s ∧ wal_file (mark_flushed last_seq (set_wal f s)) = f) as [Hst Hw].
    { unfold mark_flushed. split; repeat case_match; done. }
    split; rewrite ?Hst, ?Hw, ?Hfl, ?Hfs, ?Hfc, ?Hfcu; try done; [by rewrite app_nil_r| |split_and!; [done|apply prefix_nil|done]].
    destruct (length written) as [|n]; [lia|]. f_equal. lia. }
  destruct (faults (wal_file s)) as [|[k|] fs]; cbn [head tail default from_option id]; intros [= <- <-];
    unfold sm_fail; intros [= <- <-]; [by apply Hsynced| |by apply Hsynced].
  exists durable, written, [], buffered, [], xs. split; [done|]. split; try done; [by rewrite app_nil_r|].
  split_and!; [done|apply prefix_nil|done].
Qed.

Lemma reach_inv s fl es : reach s fl es → inv s fl es.
Proof.
  induction 1 as [v fd s Hopen|s fl es fs _ IH|s fl es leaf s' r _ IH|s fl es leaves s' r _ IH|s es s' buf last_seq _ IH
    |s es buf last_seq s' _ IH|s es buf last_seq s1 e s' r _ IH|s es last_seq s1 q s' r _ IH|s fl es _ IH
    |s fl es bs v fd s' _ IH Hcrash Hv Hopen].
  - destruct (open_fresh v) as (t & Ht & Hrep). rewrite Ht in Hopen. simplify_eq. by apply (inv_opened t []).
  - by apply (inv_ext s).
  - by eapply insert_inv.
  - by eapply insert_many_inv.
  - by eapply take_inv.
  - by eapply write_inv.
  - by eapply restore_inv.
  - by eapply sync_inv.
  - by apply (inv_ext s).
  - destruct IH as (durable & written & flying & buffered & junk & xs & -> & Hinv).
    destruct (open_crashed v _ _ _ _ _ _ _ _ bs Hinv Hcrash Hv) as (n & t & Ho & [_ Hle] & Hrep & Hnum & Hok).
    rewrite Ho in Hopen. injection Hopen as <- <-.
    assert (next_entry (state (opened_state t (take n (written ++ flying ++ buffered)))) = N.of_nat n) as ->.
    { unfold opened_state. rewrite length_take, Nat.min_l by done. destruct (0 <? _)%N; [|done].
      unfold mark_flushed. done. }
    rewrite Nat2N.id. by apply inv_opened.
Qed.
(** Without an error and with an empty buffer everything is durable. *)
Lemma idle_all_durable s es token :
  inv s Idle es → bg_error s = None → buffer (state s) = [] → (token < N.of_nat (length es))%N → is_durable token s = true.
Proof.
  intros (durable & written & flying & buffered & junk & xs & -> & [Hb Hnx Hnum Hok Hc Hcu Hs Hd Hf Ht Hl Hfl]) Hbg Hempty.
  destruct Hfl as (-> & _ & Hdw). rewrite Hb in Hempty.
  assert (buffered = []) as ->.
  { pose proof (length_log_bytes buffered) as Hlen. rewrite Hempty in Hlen. simpl in Hlen. apply nil_length_inv. lia. }
  rewrite app_nil_r in *. rewrite <- (Hdw Hbg). intros Hlt. unfold is_durable. rewrite Hf.
  destruct (length durable) as [|n]; [simpl in Hlt; lia|]. apply N.leb_le. lia.
Qed.

(** A batch whose frame is too long is in the tree when the assertion on its length fails: the
    tree in memory has leaves that the log does not have. *)
Lemma oversized_batch_diverges s xs leaves :
  tree_rep (tree (state s)) xs → closed s = false → bg_error s = None → leaves ≠ [] →
  (N.of_nat (length (xs ++ leaves)) ≤ u64_max)%N → tree_depth nary (xs ++ leaves) ≤ max_depth →
  (next_entry (state s) < u64_max)%N →
  ¬ fits_frame (wc_serialize (EntryV1 (MkEntry (next_entry (state s)) (Batched (Borrowed leaves))))) →
  ∃ s', insert_many leaves s = (s', Panics) ∧ tree_rep (tree (state s')) (xs ++ leaves) ∧
    buffer (state s') = buffer (state s) ∧ next_entry (state s') = next_entry (state s).
Proof.
  intros Hrep Hcl Hbg Hne Hmax Hd Hlt Hbig.
  destruct (insert_many_spec nary max_depth Hn Hmd1 par xs leaves Hne Hmax Hd _ Hrep) as (t & root & Ht & Hrep' & _).
  exists (set_state (set_tree t) s). split; [|done]. unfold RotorTree.insert_many.
  assert (check_closed s = (s, Returns (Ok ()))) as Hck.
  { unfold check_closed. by rewrite sm_get_bind, Hcl, Hbg. }
  unfold mbind at 1, sm_bind at 1, sm_map_err at 1. rewrite Hck. cbn [map_err].
  unfold mbind at 1, sm_bind at 1, sm_map_err at 1, on_tree, sm_zoom. rewrite Ht. cbn [map_err].
  unfold mbind at 1, sm_bind at 1. rewrite log_entry_eq by exact Hlt. by rewrite bool_decide_false by exact Hbig.
Qed.

(** ** Properties *)

(** A token at or below the number of a flush. *)
Lemma mark_flushed_durable token last_seq s : (token ≤ last_seq)%N → is_durable token (mark_flushed last_seq s) = true.
Proof.
  intros Hle. unfold mark_flushed, is_durable. destruct (flushed s) as [n|] eqn:Hf; simpl; rewrite ?Hf;
    repeat case_match; simpl in *; simplify_eq; nbool; try apply N.leb_le; lia.
Qed.

(** The run of a whole flush. *)
Lemma flush_inner_durable s es s' token :
  inv s Idle es → flush_inner s = (s', Returns (Ok ())) → (token < N.of_nat (length es))%N →
  bg_error s = None ∨ buffer (state s) ≠ [] → is_durable token s' = true.
Proof.
  intros Hinv Hflush Htok Hor. unfold flush_inner in Hflush. destruct (decide (buffer (state s) = [])) as [Hempty|Hne].
  { unfold flush_take, mbind, sm_bind, sm_step in Hflush. rewrite bool_decide_true in Hflush by done. injection Hflush as <-.
    destruct Hor; [|done]. by eapply idle_all_durable. }
  destruct (flush_take (E := StorageError) s) as [s1 o1] eqn:Htake. pose proof Htake as Htake0.
  unfold flush_take, sm_step in Htake. rewrite bool_decide_false in Htake by done. injection Htake as <- <-.
  pose proof (take_inv _ _ _ _ _ Hinv Htake0) as Hinv1. unfold mbind at 1, sm_bind at 1 in Hflush. rewrite Htake0 in Hflush.
  set (s1 := set_state (set_buffer []) s) in *. set (buf := buffer (state s)) in *. set (last_seq := N.pred _) in *.
  pose proof Hinv1 as (durable & written & flying & buffered & junk & xs & Hes & Hli).
  destruct (li_flight _ _ _ _ _ _ _ _ Hli) as (Hbuf & Hlast & Hj & _). rewrite <- Hbuf in Hj.
  pose proof (li_buffer _ _ _ _ _ _ _ _ Hli) as Hb. cbn [state set_state buffer set_buffer] in Hb.
  destruct (flush_write_spec s1 _ _ _ (li_content _ _ _ _ _ _ _ _ Hli) (li_cursor _ _ _ _ _ _ _ _ Hli) Hj)
    as (f & r & Hw & _). unfold mbind at 1, sm_bind at 1 in Hflush. rewrite Hw in Hflush.
  destruct r as [[]|e]; [|by unfold flush_restore, mbind, sm_bind, sm_modify, sm_fail in Hflush].
  unfold mbind at 1, sm_bind at 1 in Hflush.
  destruct (sync_outcome (set_wal f s1)) as (g & q & Hsync). rewrite Hsync in Hflush.
  unfold flush_finish in Hflush. destruct q as [[]|e]; [|done]. injection Hflush as <-. apply mark_flushed_durable.
  pose proof (length_log_bytes buffered) as Hlen. rewrite <- Hb in Hlen. simpl in Hlen.
  assert (buffered = []) as -> by (apply nil_length_inv; lia). rewrite Hes, app_nil_r in Htok. lia.
Qed.

(** A flush under way is one of the states that can be reached, and knows what was logged before it. *)
Lemma flying_spec s es s1 fl es1 :
  reach s Idle es → flying s es s1 fl es1 →
  reach s1 fl es1 ∧ es `prefix_of` es1 ∧
  match fl with Idle => False | Taken _ last_seq | Written last_seq => (last_seq + 1 = N.of_nat (length es))%N end.
Proof.
  assert (∀ p r es1, es `prefix_of` es1 → es `prefix_of` logged p r es1) as Hlog.
  { intros p r es2 Hp. unfold logged. repeat case_match; try done. by apply prefix_app_r. }
  intros Hreach. induction 1 as [s1 buf last_seq Htake| | | |s1 es1 buf last_seq s2 _ (? & ? & ?) Hw|];
    repeat match goal with H : reach _ _ _ ∧ _ |- _ => destruct H as (? & ? & ?) end.
  - split; [by eapply reach_take|]. split; [done|].
    pose proof (take_inv _ _ _ _ _ (reach_inv _ _ _ Hreach) Htake) as (dur & wr & fly & buffered & junk & xs & -> & Hli).
    destruct (li_flight _ _ _ _ _ _ _ _ Hli) as (_ & Hlast & _). rewrite Hlast.
    pose proof (li_buffer _ _ _ _ _ _ _ _ Hli) as Hb. pose proof (length_log_bytes buffered) as Hlen. rewrite <- Hb in Hlen.
    unfold flush_take, sm_step in Htake. case_bool_decide; [done|]. injection Htake as <- _ _. simpl in Hlen.
    assert (buffered = []) as -> by (apply nil_length_inv; lia). by rewrite app_nil_r.
  - split; [by apply reach_faults|done].
  - split; [by eapply reach_insert|]. split; [by apply Hlog|done].
  - split; [by eapply reach_insert_many|]. split; [by apply Hlog|done].
  - split; [by eapply reach_write|done].
  - split; [by apply reach_close|done].
Qed.

(** C12. A token that was reported durable belongs to an entry that any later crash leaves in the log:
    opening what is left gives the tree over the leaves of a prefix of the logged entries, and that
    prefix reaches past the token. Calls on the log may have failed at any point, half-way through a
    write, insertions may have come between the sections of a flush, and the process may have died and
    recovered any number of times. The sessions are those without checkpoints: after a checkpoint whose
    flush failed, a token can be lost ([failed_checkpoint_loses_durable]). *)
Theorem durable_entries_survive s fl es token bs v :
  reach s fl es → is_durable token s = true → crash_leaves (wal_file s) bs → fits_vec bs →
  ∃ fd s', open v (Ok true) (opened bs) no_data = (fd, Returns (Ok s')) ∧
    (token < next_entry (state s') ≤ N.of_nat (length es))%N ∧
    tree_rep (tree (state s')) (replayed None (take (N.to_nat (next_entry (state s'))) es)).
Proof.
  intros Hreach Htok Hcrash Hv.
  destruct (reach_inv _ _ _ Hreach) as (durable & written & flying & buffered & junk & xs & -> & Hinv).
  destruct (open_crashed v _ _ _ _ _ _ _ _ bs Hinv Hcrash Hv) as (n & t & Ho & [Hdn Hle] & Hrep & _).
  rewrite Ho. eexists _, _. split; [done|].
  assert (next_entry (state (opened_state t (take n (written ++ flying ++ buffered)))) = N.of_nat n ∧
    tree (state (opened_state t (take n (written ++ flying ++ buffered)))) = t) as [-> ->].
  { unfold opened_state. rewrite length_take, Nat.min_l by done. unfold mark_flushed. by destruct (0 <? _)%N. }
  rewrite Nat2N.id. split; [|done]. unfold is_durable in Htok. rewrite (li_flushed _ _ _ _ _ _ _ _ Hinv) in Htok.
  destruct (length durable) as [|m]; [done|]. nbool. lia.
Qed.

(** C30. Flushing, in sessions without checkpoints. With no other flush in progress, as the lock on the log
    sees to, a flush that returns without an error makes every entry durable that was logged before it;
    so does one whose caller made its error check earlier, if it finds something to flush, or no flush
    has failed until it takes the buffer. And so does a flush between whose sections insertions come:
    what was logged before it is durable once its sync succeeds. What is left out does happen: a flush
    that finds the buffer empty after another one failed to sync returns without an error
    ([failed_sync_hangs]). *)
Theorem flush_makes_durable s es token :
  reach s Idle es → (token < N.of_nat (length es))%N →
  (∀ s', flush s = (s', Returns (Ok ())) → is_durable token s' = true) ∧
  (∀ s', flush_inner s = (s', Returns (Ok ())) → bg_error s = None ∨ buffer (state s) ≠ [] → is_durable token s' = true) ∧
  ∀ s1 last_seq es1 s2 s3, flying s es s1 (Written last_seq) es1 →
    sm_result (E' := StorageError) (on_file fs_sync_data) s1 = (s2, Returns (Ok (Ok ()))) →
    flush_finish last_seq (Ok ()) s2 = (s3, Returns (Ok ())) →
    reach s3 Idle es1 ∧ es `prefix_of` es1 ∧ is_durable token s3 = true.
Proof.
  intros Hreach Htok. pose proof (reach_inv _ _ _ Hreach) as Hinv.
  assert (∀ s', flush_inner s = (s', Returns (Ok ())) → bg_error s = None ∨ buffer (state s) ≠ [] →
    is_durable token s' = true) as Hinner by (intros; by eapply flush_inner_durable).
  split; [|split; [done|]].
  - intros s' Hflush. unfold flush in Hflush. destruct (check_closed_pure s) as (o & Ho & Hbg).
    unfold mbind, sm_bind in Hflush. rewrite Ho in Hflush. destruct o as [[]|]; [|done].
    destruct (Hbg eq_refl) as [_ Herr]. by apply Hinner; [|left].
  - intros s1 last_seq es1 s2 s3 Hfl Hsync Hfin.
    destruct (flying_spec s es _ _ _ Hreach Hfl) as (Hr1 & Hpre & Hlast).
    split; [by eapply reach_sync|]. split; [done|]. injection Hfin as <-. apply mark_flushed_durable. simpl in Hlast. lia.
Qed.
End spec.

(** ** Witnesses: a binary tree of the toy hasher, the toy serializer and the bitwise checksum *)

Module Ex.
Export Codec.Toy.
#[local] Existing Instance Hash.Toy.hasher.
#[local] Existing Instance Hash.Toy.hasher_laws.
#[local] Existing Instance iscsi.
#[local] Existing Instance iscsi_laws.

Definition dir : Path := ["data"%string].
Definition ex_insert := insert 2 4 ManualCheckpoint.
Definition s0 : Shared := opened_state 2 4 (tree_new 4) [].
Definition s1 : Shared := (ex_insert (ex_leaf 7) s0).1.
Definition s2 : Shared := (ex_insert (ex_leaf 8) s1).1.
Definition es : list WalEntryV1 := [MkEntry 0 (Single (ex_leaf 7)); MkEntry 1 (Single (ex_leaf 8))].

Lemma shape : shape_ok 2 4.
Proof. vm_compute. discriminate. Qed.

Lemma logged_1 : logged (Single (ex_leaf 7)) (ex_insert (ex_leaf 7) s0).2 [] = [MkEntry 0 (Single (ex_leaf 7))].
Proof. vm_compute. reflexivity. Qed.
Lemma logged_2 :
  logged (Single (ex_leaf 8)) (ex_insert (ex_leaf 8) s1).2 [MkEntry 0 (Single (ex_leaf 7))] = es.
Proof. vm_compute. reflexivity. Qed.

Lemma insert_1 : ex_insert (ex_leaf 7) s0 = (s1, (ex_insert (ex_leaf 7) s0).2).
Proof. unfold s1. apply surjective_pairing. Qed.
Lemma insert_2 : ex_insert (ex_leaf 8) s1 = (s2, (ex_insert (ex_leaf 8) s1).2).
Proof. unfold s2. apply surjective_pairing. Qed.

(** Two leaves inserted. *)
Lemma reach_s2 : reach 2 4 None dir ManualCheckpoint s2 Idle es.
Proof.
  rewrite <- logged_2. apply (reach_insert 2 4 None dir ManualCheckpoint s1 Idle _ (ex_leaf 8) s2); 
    [|vm_compute; reflexivity|reflexivity|exact insert_2].
  rewrite <- logged_1. apply (reach_insert 2 4 None dir ManualCheckpoint s0 Idle [] (ex_leaf 7) s1); 
    [|vm_compute; reflexivity|reflexivity|exact insert_1].
  apply (reach_open 2 4 None dir ManualCheckpoint false (cut_file 2 4 [], no_data)). vm_compute. reflexivity.
Qed.

(** The two leaves flushed. *)
Definition s3 : Shared := (flush s2).1.

Lemma flushed_s2 : flush s2 = (s3, Returns (Ok ())).
Proof. vm_compute. reflexivity. Qed.
Lemma flush_makes_durable_witness : is_durable 1 s3 = true.
Proof.
  destruct (flush_makes_durable 2 4 None dir ManualCheckpoint ltac:(lia) ltac:(lia) shape s2 es 1 reach_s2 ltac:(reflexivity))
    as [Hflush _]. exact (Hflush s3 flushed_s2).
Defined.

(** The states the flush passes through. *)
Definition buf : bytes := buffer (state s2).
Definition s2_taken : Shared := set_state (set_buffer []) s2.
Definition s2_written : Shared := (flush_write buf s2_taken).1.

Lemma taken_s2 : flush_take (E := StorageError) s2 = (s2_taken, Returns (Ok (Some (buf, 1%N)))).
Proof. vm_compute. reflexivity. Qed.
Lemma written_s2 : flush_write buf s2_taken = (s2_written, Returns (Ok (Ok ()))).
Proof. vm_compute. reflexivity. Qed.
Lemma synced_s2 : flush_finish 1 (Ok ()) (sm_result (E' := StorageError) (on_file fs_sync_data) s2_written).1 = (s3, Returns (Ok ())).
Proof. vm_compute. reflexivity. Qed.
Lemma sync_s2 : sm_result (E' := StorageError) (on_file fs_sync_data) s2_written =
  ((sm_result (E' := StorageError) (on_file fs_sync_data) s2_written).1, Returns (Ok (Ok ()))).
Proof. vm_compute. reflexivity. Qed.

Lemma reach_s3 : reach 2 4 None dir ManualCheckpoint s3 Idle es.
Proof.
  eapply reach_sync; [|exact sync_s2|exact synced_s2].
  eapply reach_write; [|exact written_s2]. eapply reach_take; [exact reach_s2|exact taken_s2].
Qed.

Lemma durable_entries_survive_witness :
  ∃ fd s', open 2 4 None dir false (Ok true) (opened (synced (wal_file s3))) no_data = (fd, Returns (Ok s')) ∧
    (1 < next_entry (state s') ≤ 2)%N ∧
    tree_rep 2 4 (tree (state s')) (replayed None (take (N.to_nat (next_entry (state s'))) es)).
Proof.
  apply (durable_entries_survive 2 4 None dir ManualCheckpoint ltac:(lia) ltac:(lia) shape s3 Idle es 1
    (synced (wal_file s3)) false reach_s3); [vm_compute; reflexivity|apply crash_synced|vm_compute; discriminate].
Defined.
End Ex.
