(* ===== verification/RotorFindings.v ===== *)
(** Runs of the persistent tree that do not do what the crate means to: computed on the toy
    hasher, the toy serializer and the bitwise checksum. *)
From stdpp Require Import strings.
From S2P Require Import Prelude Hash ChunkedLevel Tree TreeSpec Checksum Vfs Frame Wal WalFile.
From S2P Require Import Recovery DataFiles CheckpointRecovery RotorTree Codec RotorSpec.

Module Findings.
Export RotorSpec.Ex.
#[local] Existing Instance Hash.Toy.hasher.
#[local] Existing Instance iscsi.

Definition tiering : TieringConfig := tiering_default.
Definition ex_checkpoint := checkpoint 2 4 dir tiering.

(** The state after a call. *)
Abbreviation after := (λ m s, (m s).1).

(** ** A flush that fails to sync *)

(** A caller of [insert_durable] that passed the error check while the background flush was under
    way: the flush fails to sync, the caller's own flush finds the buffer empty and succeeds, and
    nothing will ever mark the entry durable that it then waits for. *)
Definition unsynced : Shared :=
  (flush_finish 1 (Err IoFailed) (set_wal (with_faults [] (wal_file s2_written)) s2_written)).1.

Theorem failed_sync_hangs :
  sm_result (E' := StorageError) (on_file fs_sync_data) (set_wal (with_faults [Some 0] (wal_file s2_written)) s2_written) =
    (set_wal (with_faults [] (wal_file s2_written)) s2_written, Returns (Ok (Err IoFailed))) ∧
  flush_inner unsynced = (unsynced, Returns (Ok ())) ∧ is_durable 0 unsynced = false ∧
  ∀ leaf, ex_insert leaf unsynced = (unsynced, Returns (Err (RStorage (FlushFailed IoFailed)))).
Proof. split_and!; [vm_compute; reflexivity..|]. intros leaf. reflexivity. Qed.

(** ** A checkpoint whose flush fails *)

(** The buffer is neither dropped nor rolled back: the next flush appends its entries again, and
    recovery stops at the first repeated one, in front of an entry that was reported durable. *)
Definition refused : Shared := after ex_checkpoint (set_wal (with_faults [None; Some 0] (wal_file s2)) s2).
Definition appended : Shared := after flush (after (ex_insert (ex_leaf 9)) refused).

Theorem failed_checkpoint_loses_durable :
  (ex_checkpoint (set_wal (with_faults [None; Some 0] (wal_file s2)) s2)).2 = Returns (Err (Io IoFailed)) ∧
  bg_error refused = None ∧ is_durable 2 appended = true ∧
  (match open 2 4 None dir false (Ok true) (opened (synced (wal_file appended))) no_data with
   | (_, Returns (Ok s)) => Some (next_entry (state s), rotor_size s)
   | _ => None
   end) = Some (2, 2)%N.
Proof. split_and!; vm_compute; reflexivity. Qed.

(** ** A corrupt [checkpoint.meta] *)

(** The log starts over at a checkpoint. Without the metadata its later entries alone are replayed,
    and make a tree of their own. *)
Definition checkpointed : Shared := after flush (after (ex_insert (ex_leaf 9)) (after ex_checkpoint s2)).
Definition corrupted : Dir :=
  set_nodes (<[path_join dir "checkpoint.meta"%string := ([], [])]> (nodes (data_files checkpointed))) (data_files checkpointed).

Theorem corrupt_meta_loses_leaves :
  rotor_size checkpointed = 3%N ∧
  (match open 2 4 None dir true (Ok true) (opened (synced (wal_file checkpointed))) corrupted with
   | (_, Returns (Ok s)) => Some (next_entry (state s), rotor_size s, rotor_root s)
   | _ => None
   end) = Some (3%N, 1%N, Some (ex_leaf 9)).
Proof. split; vm_compute; reflexivity. Qed.

(** ** A missing shard *)

(** The level has a length and no chunks, and reading it is out of range. *)
Definition shard_lost : Dir :=
  set_nodes (delete (shard_file_path dir 0 0) (nodes (data_files checkpointed))) (data_files checkpointed).

Theorem missing_shard_panics :
  (open 2 4 None dir true (Ok true) (opened (synced (wal_file checkpointed))) shard_lost).2 = Panics.
Proof. vm_compute. reflexivity. Qed.
(** ** A checkpoint while the last node of a full chunk is unfinished *)

(** With 255 leaves the first 128 nodes of level 1 fill a chunk, and the last of them is the lone
    leaf lifted. The checkpoint counts the chunk as done. The leaf 256 changes that node, the next
    checkpoint writes from the chunk after it and maps the level from the files: the stale node is
    back in memory, and a tree reopened from the checkpoint has it too, although the root was
    verified. *)
Definition many : list hash := ex_leaf <$> (N.of_nat <$> seq 0 255).
Definition big_insert_many := insert_many 2 10 None ManualCheckpoint.
Definition big_insert := insert 2 10 ManualCheckpoint.
Definition big_checkpoint := checkpoint 2 10 dir tiering.

Definition m0 : Shared := opened_state 2 10 (tree_new 10) [].
Definition m1 : Shared := after big_checkpoint (after (big_insert_many many) m0).
Definition m2 : Shared := after (big_insert (ex_leaf 255)) m1.
Definition m3 : Shared := after big_checkpoint m2.

(** A node of the tree. *)
Definition node_at (s : Shared) (level index : nat) : option (result hash TreeError) :=
  lv ← levels (tree (state s)) !! level; level_get lv index.

Theorem second_checkpoint_restores_stale_node :
  (big_checkpoint m2).2 = Returns (Ok ()) ∧
  node_at m2 1 127 = Some (Ok (hash_children [ex_leaf 254; ex_leaf 255])) ∧
  node_at m3 1 127 = Some (Ok (ex_leaf 254)) ∧
  (match open 2 10 None dir true (Ok true) (opened (synced (wal_file m3))) (data_files m3) with
   | (_, Returns (Ok s)) => Some (rotor_size s, bool_decide (rotor_root s = rotor_root m2), node_at s 1 127)
   | _ => None
   end) = Some (256%N, true, Some (Ok (ex_leaf 254))).
Proof. split_and!; vm_compute; reflexivity. Qed.
End Findings.
