(* ===== verification/ShardFiles.v ===== *)
(** The data files as storage of chunks: names are distinct, what [append_chunks_to_level] writes
    is there afterwards, and [mmap_level_shards] maps it back. *)
From stdpp Require Import strings pretty.
From Stdlib Require Import Ascii List.
From S2P Require Import Prelude Hash ChunkedLevel Checksum Vfs Frame Wal WalFile Recovery DataFiles.

(** ** Names *)

(** The number a string of digits stands for, leading zeros or not. *)
Fixpoint digits_value (acc : N) (s : string) : N :=
  match s with
  | EmptyString => acc
  | String c s => digits_value (acc * 10 + (N_of_ascii c - 48)) s
  end.

Lemma digits_value_go x s : digits_value 0 (pretty_N_go x s) = digits_value x s.
Proof.
  revert s. induction (N.lt_wf_0 x) as [x _ IH]; intros s.
  destruct (decide (x = 0)%N) as [->|Hx]; [by rewrite pretty_N_go_0|].
  rewrite pretty_N_go_step by lia. rewrite IH by (apply N.div_lt; lia). cbn [digits_value]. f_equal.
  assert (N_of_ascii (pretty_N_char (x `mod` 10)) - 48 = x `mod` 10)%N as ->.
  { pose proof (N.mod_lt x 10 ltac:(lia)). generalize dependent (x `mod` 10)%N. intros n Hn.
    assert (n = 0 ∨ n = 1 ∨ n = 2 ∨ n = 3 ∨ n = 4 ∨ n = 5 ∨ n = 6 ∨ n = 7 ∨ n = 8 ∨ n = 9)%N as Hcases by lia.
    by destruct_or! Hcases; subst n. }
  pose proof (N.div_mod x 10). lia.
Qed.

Lemma digits_value_pretty (n : nat) : digits_value 0 (pretty n) = N.of_nat n.
Proof.
  unfold pretty, pretty_nat, pretty, pretty_N. case_decide as Hz; [by rewrite Hz|]. by rewrite digits_value_go.
Qed.

Lemma digits_value_zeros k s : digits_value 0 (zeros k +:+ s) = digits_value 0 s.
Proof. induction k as [|k IH]; [done|]. exact IH. Qed.

Lemma pad4_inj i j : pad4 i = pad4 j → i = j.
Proof.
  intros Heq. apply (f_equal (digits_value 0)) in Heq. unfold pad4 in Heq.
  rewrite !digits_value_zeros, !digits_value_pretty in Heq. lia.
Qed.

Lemma level_name_inj (i j : nat) : ("level_" +:+ pretty i)%string = ("level_" +:+ pretty j)%string → i = j.
Proof. intros Heq. injection Heq as Heq. by apply (inj pretty). Qed.

Lemma shard_file_path_inj dir l1 s1 l2 s2 :
  shard_file_path dir l1 s1 = shard_file_path dir l2 s2 → l1 = l2 ∧ s1 = s2.
Proof.
  unfold shard_file_path, path_join. intros Heq. apply app_inj_tail in Heq as [Hl Hs].
  apply app_inj_tail in Hl as [_ Hl]. split; [by apply level_name_inj|].
  injection Hs as Hs. apply pad4_inj, (string_app_inv_tail _ _ ".dat"%string). exact Hs.
Qed.

(** ** Calls that succeed *)

Section dir.
Implicit Types (d : Dir) (p : Path).

Definition calm d : Prop := dir_faults d = [].

(** A call that succeeds and writes one file. *)
Definition touches p (node : bytes * bytes) d d' : Prop :=
  calm d' ∧ made d' = made d ∧ nodes d' = <[p := node]> (nodes d).

Lemma touches_trans p n1 n2 d d1 d2 : touches p n1 d d1 → touches p n2 d1 d2 → touches p n2 d d2.
Proof. intros (_ & Hm & Hn) (Hc & Hm' & Hn'). split_and!; [done|congruence|]. by rewrite Hn', Hn, insert_insert_eq. Qed.

Lemma touches_lookup p n d d' : touches p n d d' → nodes d' !! p = Some n.
Proof. intros (_ & _ & ->). apply lookup_insert_eq. Qed.
Lemma touches_other p n d d' q : touches p n d d' → q ≠ p → nodes d' !! q = nodes d !! q.
Proof. intros (_ & _ & ->) Hq. by rewrite lookup_insert_ne. Qed.

(** The file that opening gives. *)
Definition opened_node (truncate : bool) (node : option (bytes * bytes)) : bytes * bytes :=
  match node with Some node => (if truncate then [] else node.1, node.2) | None => ([], []) end.

Lemma dir_faulty_calm {A} (m : SM Dir IoError A) d : calm d → dir_faulty m d = m (set_nodes (nodes d) d).
Proof.
  unfold calm, dir_faulty, mbind, sm_bind, sm_step, dir_fault. intros Hc. rewrite Hc. cbn [tail head default from_option].
  unfold id, set_nodes. by rewrite Hc.
Qed.

Lemma set_nodes_id d : set_nodes (nodes d) d = d.
Proof. by destruct d. Qed.

Lemma fs_open_ok truncate p dir d :
  calm d → parent p = Some dir → dir ∈ made d →
  ∃ d', runs_to (fs_open truncate p) d d' () ∧ touches p (opened_node truncate (nodes d !! p)) d d'.
Proof.
  intros Hc Hp Hdir. unfold runs_to, fs_open. rewrite dir_faulty_calm, set_nodes_id by done.
  rewrite sm_get_bind, Hp, bool_decide_true by done. cbn [negb].
  destruct (nodes d !! p) as [[c s]|] eqn:Hn; cbn [opened_node fst snd].
  - destruct truncate; [by eexists|]. exists d. split; [done|]. split_and!; [done..|]. by rewrite insert_id.
  - by eexists.
Qed.

Lemma fs_write_at_ok p pos bs c s d :
  calm d → nodes d !! p = Some (c, s) →
  ∃ d', runs_to (fs_write_at p pos bs) d d' () ∧ touches p (overwrite pos bs c, s) d d'.
Proof.
  intros Hc Hn. eexists. split.
  - unfold runs_to, fs_write_at, mbind, sm_bind, sm_step, dir_fault, sm_get, sm_expect, sm_modify. unfold calm in Hc. rewrite Hc.
    cbn [tail head default from_option nodes]. unfold id. rewrite Hn. reflexivity.
  - by split_and!.
Qed.

Lemma fs_sync_ok p c s d :
  calm d → nodes d !! p = Some (c, s) → ∃ d', runs_to (fs_sync p) d d' () ∧ touches p (c, c) d d'.
Proof.
  intros Hc Hn. unfold runs_to, fs_sync. rewrite dir_faulty_calm, set_nodes_id by done.
  eexists. split; [unfold mbind, sm_bind, sm_get, sm_expect, sm_modify; rewrite Hn; reflexivity|]. by split_and!.
Qed.

Lemma fs_read_ok p c s d : calm d → nodes d !! p = Some (c, s) → runs_to (fs_read p) d d c.
Proof.
  intros Hc Hn. unfold runs_to, fs_read. rewrite dir_faulty_calm, set_nodes_id by done.
  unfold mbind, sm_bind, sm_get, sm_try, ok_or. by rewrite Hn.
Qed.

Lemma fs_create_dir_all_ok p d : calm d →
  ∃ d', runs_to (fs_create_dir_all p) d d' () ∧ calm d' ∧ nodes d' = nodes d ∧ made d ⊆ made d' ∧ p ∈ made d'.
Proof.
  intros Hc. unfold runs_to, fs_create_dir_all. rewrite dir_faulty_calm, set_nodes_id by done.
  eexists. split; [reflexivity|]. cbn [made nodes]. split_and!; [done|done|set_solver|].
  apply elem_of_union_l, elem_of_list_to_set, list_elem_of_fmap. exists (length p). split; [by rewrite firstn_all|].
  apply elem_of_seq. lia.
Qed.

Lemma with_tmp_join dir name : with_tmp (path_join dir name) = path_join dir (name +:+ ".tmp")%string.
Proof.
  unfold with_tmp, path_join. rewrite last_snoc, length_app. simpl. rewrite Nat.add_1_r. simpl. by rewrite take_app_length.
Qed.

Lemma tmp_ne name : (name +:+ ".tmp")%string ≠ name.
Proof.
  induction name as [|c name IH]; [done|]. intros Heq. apply IH. by injection Heq.
Qed.

(** The file has its new bytes, synced, and the temporary one is gone. *)
Lemma atomic_write_ok dir name data d :
  calm d → dir ∈ made d →
  ∃ d', runs_to (atomic_write (path_join dir name) data) d d' () ∧ calm d' ∧ made d' = made d ∧
    nodes d' !! path_join dir name = Some (data, data) ∧
    ∀ q, q ≠ path_join dir name → q ≠ path_join dir (name +:+ ".tmp")%string → nodes d' !! q = nodes d !! q.
Proof.
  intros Hc Hdir. unfold atomic_write. rewrite with_tmp_join. set (tmp := path_join dir (name +:+ ".tmp")%string).
  destruct (fs_open_ok true tmp dir d Hc (parent_join _ _) Hdir) as (d1 & Hr1 & Ht1).
  assert (∃ s, nodes d1 !! tmp = Some ([], s)) as [s Hs].
  { rewrite (touches_lookup _ _ _ _ Ht1). unfold opened_node. destruct (nodes d !! tmp); by eexists. }
  destruct (fs_write_at_ok tmp 0 data [] s d1 (proj1 Ht1) Hs) as (d2 & Hr2 & Ht2).
  pose proof (touches_trans _ _ _ _ _ _ Ht1 Ht2) as Ht02.
  destruct (fs_sync_ok tmp _ _ d2 (proj1 Ht2) (touches_lookup _ _ _ _ Ht2)) as (d3 & Hr3 & Ht3).
  pose proof (touches_trans _ _ _ _ _ _ Ht02 Ht3) as Ht03.
  assert (overwrite 0 data [] = data) as Hov by apply (overwrite_end data []). rewrite Hov in Ht03.
  set (d4 := set_nodes (<[path_join dir name := (data, data)]> (delete tmp (nodes d3))) d3).
  assert (runs_to (fs_rename tmp (path_join dir name)) d3 d4 ()) as Hr4.
  { unfold runs_to, fs_rename. rewrite dir_faulty_calm, set_nodes_id by apply Ht03.
    rewrite sm_get_bind. unfold mbind, sm_bind, sm_try, sm_modify. by rewrite (touches_lookup _ _ _ _ Ht03). }
  assert (calm d4) as Hc4 by apply Ht03.
  exists d4. split_and!.
  - unfold runs_to. rewrite (sm_bind_ok _ _ _ _ _ Hr1), (sm_bind_ok _ _ _ _ _ Hr2), (sm_bind_ok _ _ _ _ _ Hr3),
      (sm_bind_ok _ _ _ _ _ Hr4), parent_join. unfold fs_sync_dir.
    rewrite (sm_bind_ok _ _ d4 d4 ()); unfold runs_to; by rewrite dir_faulty_calm, set_nodes_id.
  - done.
  - apply Ht03.
  - unfold d4. cbn [nodes set_nodes]. apply lookup_insert_eq.
  - intros q Hq1 Hq2. unfold d4. cbn [nodes set_nodes]. rewrite lookup_insert_ne, lookup_delete_ne by done.
    by apply (touches_other _ _ _ _ _ Ht03).
Qed.
End dir.

(** ** Chunks in shards *)

(** Hashes of a chunk, which the type makes arrays. *)
Definition chunk_wf (hs : list hash) : Prop := length hs = CHUNK_SIZE ∧ Forall hash_wf hs.

Lemma CHUNKS_PER_SHARD_pos : 0 < CHUNKS_PER_SHARD.
Proof. unfold CHUNKS_PER_SHARD. lia. Qed.

Lemma CHUNK_BYTE_SIZE_pos : 0 < CHUNK_BYTE_SIZE.
Proof. unfold CHUNK_BYTE_SIZE. pose proof CHUNK_SIZE_pos. lia. Qed.

Local Opaque CHUNKS_PER_SHARD CHUNK_BYTE_SIZE CHUNK_SIZE.

Lemma length_chunk_bytes hs : chunk_wf hs → length (mjoin hs) = CHUNK_BYTE_SIZE.
Proof. intros [Hlen Hwf]. rewrite (mjoin_uniform_length 32 _ Hwf), Hlen. done. Qed.

(** Chunks written one after the other. *)
Fixpoint pieces (pos : nat) (cs : list (list hash)) (c : bytes) : bytes :=
  match cs with
  | [] => c
  | x :: cs => pieces (pos + length (mjoin x)) cs (overwrite pos (mjoin x) c)
  end.

Lemma pieces_length pos cs c : length c ≤ length (pieces pos cs c).
Proof.
  revert pos c. induction cs as [|x cs IH]; intros pos c; [done|]. simpl.
  pose proof (length_overwrite pos (mjoin x) c). specialize (IH (pos + length (mjoin x)) (overwrite pos (mjoin x) c)).
  simpl in *. lia.
Qed.

Lemma pieces_before o n pos cs c : o + n ≤ pos → o + n ≤ length c → slice o n (pieces pos cs c) = slice o n c.
Proof.
  revert pos c. induction cs as [|x cs IH]; intros pos c Hpos Hc; [done|]. simpl.
  pose proof (length_overwrite pos (mjoin x) c). rewrite IH by (simpl in *; lia). by apply overwrite_before.
Qed.

Lemma pieces_at pos cs c j hs :
  Forall chunk_wf cs → cs !! j = Some hs →
  slice (pos + j * CHUNK_BYTE_SIZE) CHUNK_BYTE_SIZE (pieces pos cs c) = mjoin hs ∧
  pos + j * CHUNK_BYTE_SIZE + CHUNK_BYTE_SIZE ≤ length (pieces pos cs c).
Proof.
  intros Hwf. revert pos c j. induction Hwf as [|x cs Hx Hwf IH]; intros pos c j Hj; [done|].
  pose proof (length_overwrite pos (mjoin x) c) as [Hlen _]. rewrite (length_chunk_bytes _ Hx) in Hlen.
  destruct j as [|j]; simpl in Hj |- *.
  - injection Hj as <-. rewrite Nat.add_0_r, (length_chunk_bytes _ Hx). split.
    + rewrite pieces_before by lia. rewrite <- (length_chunk_bytes _ Hx). apply overwrite_at.
    + pose proof (pieces_length (pos + CHUNK_BYTE_SIZE) cs (overwrite pos (mjoin x) c)). lia.
  - rewrite (length_chunk_bytes _ Hx).
    destruct (IH (pos + CHUNK_BYTE_SIZE) (overwrite pos (mjoin x) c) j Hj) as [Hs Hl].
    replace (pos + (CHUNK_BYTE_SIZE + j * CHUNK_BYTE_SIZE)) with (pos + CHUNK_BYTE_SIZE + j * CHUNK_BYTE_SIZE) by lia.
    by split.
Qed.

Lemma write_chunks_ok p cs pos c s (d : Dir) :
  calm d → nodes d !! p = Some (c, s) →
  ∃ d', runs_to (write_chunks p pos cs) d d' () ∧ touches p (pieces pos cs c, s) d d'.
Proof.
  revert pos c d. induction cs as [|x cs IH]; intros pos c d Hc Hn; simpl.
  { exists d. split; [done|]. split_and!; [done..|]. by rewrite insert_id. }
  destruct (fs_write_at_ok p pos (mjoin x) c s d Hc Hn) as (d1 & Hr1 & Ht1).
  destruct (IH (pos + length (mjoin x)) _ d1 (proj1 Ht1) (touches_lookup _ _ _ _ Ht1)) as (d2 & Hr2 & Ht2).
  exists d2. split; [|by eapply touches_trans]. unfold runs_to. by rewrite (sm_bind_ok _ _ _ _ _ Hr1).
Qed.

Section shards.
Context (data_dir : Path).

(** A chunk on disk. *)
Definition chunk_at (d : Dir) (level i : nat) (hs : list hash) : Prop :=
  ∃ c s, nodes d !! shard_file_path data_dir level (i / CHUNKS_PER_SHARD) = Some (c, s) ∧
    i mod CHUNKS_PER_SHARD * CHUNK_BYTE_SIZE + CHUNK_BYTE_SIZE ≤ length c ∧
    slice (i mod CHUNKS_PER_SHARD * CHUNK_BYTE_SIZE) CHUNK_BYTE_SIZE c = mjoin hs.

Lemma chunk_at_same d d' level i hs :
  nodes d' !! shard_file_path data_dir level (i / CHUNKS_PER_SHARD) =
    nodes d !! shard_file_path data_dir level (i / CHUNKS_PER_SHARD) →
  chunk_at d level i hs → chunk_at d' level i hs.
Proof. unfold chunk_at. by intros ->. Qed.

(** One shard: its part of the chunks is written, what was there before them stays. *)
Lemma append_shard_ok level a cs sh d :
  calm d → level_dir_path data_dir level ∈ made d → Forall chunk_wf cs →
  a / CHUNKS_PER_SHARD ≤ sh → sh * CHUNKS_PER_SHARD < a + length cs → 
  ∃ d', runs_to (append_shard data_dir level a cs sh) d d' (shard_file_path data_dir level sh) ∧
    calm d' ∧ made d' = made d ∧
    (∀ q, q ≠ shard_file_path data_dir level sh → nodes d' !! q = nodes d !! q) ∧
    is_Some (nodes d' !! shard_file_path data_dir level sh) ∧
    (∀ i hs, a ≤ i → i / CHUNKS_PER_SHARD = sh → cs !! (i - a) = Some hs → chunk_at d' level i hs) ∧
    (∀ i hs, i < a → chunk_at d level i hs → chunk_at d' level i hs).
Proof.
  intros Hc Hdir Hwf Hfirst Hlast. set (path := shard_file_path data_dir level sh).
  pose proof CHUNKS_PER_SHARD_pos as Hcps. set (start := Nat.max a (sh * CHUNKS_PER_SHARD)).
  assert (∀ i, i / CHUNKS_PER_SHARD = sh ↔ sh * CHUNKS_PER_SHARD ≤ i < sh * CHUNKS_PER_SHARD + CHUNKS_PER_SHARD) as Hin.
  { intros i. pose proof (Nat.div_mod_eq i CHUNKS_PER_SHARD). pose proof (Nat.mod_upper_bound i CHUNKS_PER_SHARD).
    split; [intros <-; lia|]. intros Hi. symmetry. apply Nat.div_unique with (r := i - sh * CHUNKS_PER_SHARD); lia. }
  assert (∀ i, i / CHUNKS_PER_SHARD = sh → i mod CHUNKS_PER_SHARD = i - sh * CHUNKS_PER_SHARD) as Hmod.
  { intros i <-. pose proof (Nat.div_mod_eq i CHUNKS_PER_SHARD). lia. }
  assert (a < sh * CHUNKS_PER_SHARD + CHUNKS_PER_SHARD) as Ha.
  { pose proof (Nat.div_mod_eq a CHUNKS_PER_SHARD). pose proof (Nat.mod_upper_bound a CHUNKS_PER_SHARD). nia. }
  assert (start / CHUNKS_PER_SHARD = sh) as Hstart by (apply Hin; lia).
  destruct (fs_open_ok false path _ d Hc (parent_join _ _) Hdir) as (d1 & Hr1 & Ht1).
  set (c := (opened_node false (nodes d !! path)).1). set (s := (opened_node false (nodes d !! path)).2).
  assert (nodes d1 !! path = Some (c, s)) as Hn1 by (rewrite (touches_lookup _ _ _ _ Ht1); unfold c, s; by destruct (opened_node _ _)).
  set (ls := sh * CHUNKS_PER_SHARD - a).
  set (le := Nat.min ((sh + 1) * CHUNKS_PER_SHARD - a) (length cs)).
  set (written := take (le - ls) (drop ls cs)).
  destruct (write_chunks_ok path written (start mod CHUNKS_PER_SHARD * CHUNK_BYTE_SIZE) c s d1 (proj1 Ht1) Hn1) as (d2 & Hr2 & Ht2).
  assert (Forall chunk_wf written) as Hwritten by (by apply Forall_take, Forall_drop).
  pose proof (touches_trans _ _ _ _ _ _ Ht1 Ht2) as Ht. exists d2. split_and!.
  - unfold runs_to, append_shard. fold ls le. 
    assert (shard_address (a + ls) = (sh, start mod CHUNKS_PER_SHARD * CHUNK_BYTE_SIZE)) as ->.
    { unfold shard_address. replace (a + ls) with start by lia. by rewrite Hstart. }
    rewrite (sm_bind_ok _ _ _ _ _ Hr1).
    rewrite (sm_bind_ok (sm_outcome _) _ d1 d1 written).
    2: { unfold runs_to, sm_outcome, subslice. rewrite (proj2 (Nat.leb_le ls le)), (proj2 (Nat.leb_le le _)) by lia. done. }
    by rewrite (sm_bind_ok _ _ _ _ _ Hr2).
  - apply Ht.
  - apply Ht.
  - intros q Hq. by apply (touches_other _ _ _ _ _ Ht).
  - rewrite (touches_lookup _ _ _ _ Ht). by eexists.
  - intros i hs Hai Hi Hhs. exists (pieces (start mod CHUNKS_PER_SHARD * CHUNK_BYTE_SIZE) written c), s.
    rewrite Hi. split; [by apply (touches_lookup _ _ _ _ Ht)|]. pose proof (lookup_lt_Some _ _ _ Hhs).
    pose proof (proj1 (Hin i) Hi).
    destruct (pieces_at (start mod CHUNKS_PER_SHARD * CHUNK_BYTE_SIZE) written c (i - start) hs Hwritten) as [Hs Hl].
    { unfold written. rewrite lookup_take_lt by lia. rewrite lookup_drop. replace (ls + (i - start)) with (i - a) by lia. done. }
    rewrite <- Nat.mul_add_distr_r in Hs, Hl. rewrite (Hmod start Hstart) in Hs, Hl.
    replace (start - sh * CHUNKS_PER_SHARD + (i - start)) with (i - sh * CHUNKS_PER_SHARD) in Hs, Hl by lia.
    rewrite (Hmod i Hi). rewrite (Hmod start Hstart). by split.
  - intros i hs Hia. destruct (decide (i / CHUNKS_PER_SHARD = sh)) as [Hi|Hi].
    + intros (c0 & s0 & Hn0 & Hl0 & Hs0). rewrite Hi in Hn0. fold path in Hn0.
      assert (c = c0 ∧ s = s0) as [-> ->] by (unfold c, s; by rewrite Hn0).
      exists (pieces (start mod CHUNKS_PER_SHARD * CHUNK_BYTE_SIZE) written c0), s0.
      rewrite Hi. split; [by apply (touches_lookup _ _ _ _ Ht)|]. pose proof (proj1 (Hin i) Hi).
      pose proof (pieces_length (start mod CHUNKS_PER_SHARD * CHUNK_BYTE_SIZE) written c0). split; [lia|].
      rewrite pieces_before; [done| |lia]. rewrite (Hmod i Hi), (Hmod start Hstart). 
      rewrite <- Nat.mul_succ_l. apply Nat.mul_le_mono_r. lia.
    + apply chunk_at_same, (touches_other _ _ _ _ _ Ht). intros [_ Heq]%shard_file_path_inj. done.
Qed.
Lemma append_shards_ok level a cs n sh d :
  calm d → level_dir_path data_dir level ∈ made d → Forall chunk_wf cs →
  a / CHUNKS_PER_SHARD ≤ sh → (0 < n → (sh + n - 1) * CHUNKS_PER_SHARD < a + length cs) →
  ∃ d', runs_to (sm_map (append_shard data_dir level a cs) (seq sh n)) d d' (shard_file_path data_dir level <$> seq sh n) ∧
    calm d' ∧ made d' = made d ∧
    (∀ q, (∀ k, q ≠ shard_file_path data_dir level k) → nodes d' !! q = nodes d !! q) ∧
    (∀ k, sh ≤ k < sh + n ∨ is_Some (nodes d !! shard_file_path data_dir level k) →
      is_Some (nodes d' !! shard_file_path data_dir level k)) ∧
    (∀ i hs, a ≤ i → sh ≤ i / CHUNKS_PER_SHARD < sh + n → cs !! (i - a) = Some hs → chunk_at d' level i hs) ∧
    (∀ i hs, i < a ∨ i / CHUNKS_PER_SHARD < sh → chunk_at d level i hs → chunk_at d' level i hs).
Proof.
  intros Hc Hdir Hwf Hfirst. revert sh d Hc Hdir Hfirst. induction n as [|n IH]; intros sh d Hc Hdir Hfirst Hlast.
  { exists d. split_and!; try done. - intros k [?|?]; [lia|done]. - intros i hs _ ?. lia. }
  pose proof CHUNKS_PER_SHARD_pos as Hcps.
  destruct (append_shard_ok level a cs sh d Hc Hdir Hwf Hfirst) as (d1 & Hr1 & Hc1 & Hm1 & Ho1 & Hi1 & Hw1 & Hk1); [nia|].
  destruct (IH (S sh) d1 Hc1) as (d2 & Hr2 & Hc2 & Hm2 & Ho2 & Hi2 & Hw2 & Hk2); [by rewrite Hm1|lia|intros; nia|].
  exists d2. split_and!.
  - unfold runs_to. cbn [seq sm_map fmap list_fmap].
    by rewrite (sm_bind_ok _ _ _ _ _ Hr1), (sm_bind_ok _ _ _ _ _ Hr2).
  - done.
  - by rewrite Hm2.
  - intros q Hq. rewrite Ho2, Ho1 by done. done.
  - intros k Hk. apply Hi2. destruct (decide (k = sh)) as [->|Hne]; [by right|].
    destruct Hk as [Hk|Hk]; [left; lia|right]. rewrite Ho1; [done|]. intros [_ Heq]%shard_file_path_inj. done.
  - intros i hs Hai Hi Hhs. destruct (decide (i / CHUNKS_PER_SHARD = sh)) as [Heq|Hne].
    + apply Hk2; [right; lia|]. by apply Hw1.
    + apply Hw2; [done|lia|done].
  - intros i hs Hi Hat. apply Hk2; [destruct Hi; [by left|right; lia]|].
    destruct Hi as [Hi|Hi]; [by apply Hk1|].
    eapply chunk_at_same, Hat. apply Ho1. intros [_ Heq]%shard_file_path_inj. lia.
Qed.

(** The chunks from [a] on are on disk, those before them as they were, and no other file changed. *)
Lemma append_chunks_ok level a cs d :
  calm d → level_dir_path data_dir level ∈ made d → Forall chunk_wf cs →
  ∃ d' ks, runs_to (append_chunks_to_level data_dir level a cs) d d' (shard_file_path data_dir level <$> ks) ∧
    calm d' ∧ made d' = made d ∧
    (∀ q, (∀ k, q ≠ shard_file_path data_dir level k) → nodes d' !! q = nodes d !! q) ∧
    Forall (λ k, is_Some (nodes d' !! shard_file_path data_dir level k)) ks ∧
    (∀ j hs, cs !! j = Some hs → chunk_at d' level (a + j) hs) ∧
    (∀ i hs, i < a → chunk_at d level i hs → chunk_at d' level i hs).
Proof.
  intros Hc Hdir Hwf. unfold append_chunks_to_level. case_bool_decide as Hne.
  { exists d, []. subst cs. by split_and!. }
  assert (0 < length cs) as Hlen by (destruct cs; [done|simpl; lia]). pose proof CHUNKS_PER_SHARD_pos as Hcps.
  set (sh := a / CHUNKS_PER_SHARD). set (last_shard := (a + length cs - 1) / CHUNKS_PER_SHARD).
  assert (sh ≤ last_shard) as Hle by (apply Nat.Div0.div_le_mono; lia).
  pose proof (Nat.Div0.mul_div_le (a + length cs - 1) CHUNKS_PER_SHARD) as Hlast. fold last_shard in Hlast.
  destruct (append_shards_ok level a cs (S last_shard - sh) sh d Hc Hdir Hwf)
    as (d' & Hr & Hc' & Hm' & Ho & Hi & Hw & Hk); [done| |].
  { intros _. replace (sh + (S last_shard - sh) - 1) with last_shard by lia. lia. }
  exists d', (seq sh (S last_shard - sh)). split_and!; [done..| | |].
  - apply Forall_forall. intros k [? ?]%elem_of_seq. apply Hi. left. lia.
  - intros j hs Hj. pose proof (lookup_lt_Some _ _ _ Hj) as Hlt.
    apply Hw; [lia| |by replace (a + j - a) with j by lia]. split; [apply Nat.Div0.div_le_mono; lia|].
    assert ((a + j) / CHUNKS_PER_SHARD ≤ last_shard) by (apply Nat.Div0.div_le_mono; lia). lia.
  - intros i hs Hi0. apply Hk. by left.
Qed.

(** ** Chunks mapped back *)

(** What is mapped of the shards: their valid bytes. *)
Lemma mmap_shards_ok level n d rem sh regions :
  calm d → 0 < n → (∀ i, i < n → ∃ hs, chunk_at d level i hs) → sh + rem = div_ceil n CHUNKS_PER_SHARD →
  ∃ rs, runs_to (mmap_shards data_dir level n sh rem regions) d d (regions ++ rs) ∧ length rs = rem ∧
    ∀ k, k < rem → ∃ c s, nodes d !! shard_file_path data_dir level (sh + k) = Some (c, s) ∧
      rs !! k = Some (take (Nat.min CHUNKS_PER_SHARD (n - (sh + k) * CHUNKS_PER_SHARD) * CHUNK_BYTE_SIZE) c).
Proof.
  intros Hc Hn Hat. pose proof CHUNKS_PER_SHARD_pos as Hcps. revert sh regions.
  induction rem as [|rem IH]; intros sh regions Hsh; cbn [mmap_shards].
  { exists []. rewrite app_nil_r. split_and!; [done..|]. lia. }
  assert (sh * CHUNKS_PER_SHARD < n) as Hlt by (apply div_ceil_lt; lia).
  set (m := Nat.min CHUNKS_PER_SHARD (n - sh * CHUNKS_PER_SHARD)).
  (* the shard's last valid chunk is there *)
  set (i := sh * CHUNKS_PER_SHARD + (m - 1)).
  assert (i / CHUNKS_PER_SHARD = sh ∧ i mod CHUNKS_PER_SHARD = m - 1) as [Hdiv Hmod].
  { split; [symmetry; apply Nat.div_unique with (r := m - 1); lia|symmetry; apply Nat.mod_unique with (q := sh); lia]. }
  destruct (Hat i ltac:(lia)) as (hs & c & s & Hnode & Hl & _). rewrite Hdiv in Hnode. rewrite Hmod in Hl.
  assert (∀ (m : SM Dir IoError (list bytes)), (dir_faulty (mret ());; m) d = m d) as Hpass.
  { intros k. rewrite (sm_bind_ok _ _ d d ()); [done|]. unfold runs_to. by rewrite dir_faulty_calm, set_nodes_id. }
  destruct (IH (S sh) (regions ++ [take (m * CHUNK_BYTE_SIZE) c]) ltac:(lia)) as (rs & Hr & Hlr & Hrs).
  exists (take (m * CHUNK_BYTE_SIZE) c :: rs). split_and!.
  - unfold runs_to. rewrite (sm_bind_ok _ _ d d (Ok c)) by (apply sm_result_ok; by eapply fs_read_ok).
    cbv beta zeta. fold m. rewrite Hpass, (proj2 (Nat.ltb_ge _ _)).
    2: { replace m with (S (m - 1)) by lia. simpl. lia. }
    rewrite Hpass. rewrite Hr. by rewrite <- app_assoc.
  - simpl. lia.
  - intros [|k] Hk; [rewrite Nat.add_0_r; by exists c, s|].
    destruct (Hrs k ltac:(lia)) as (c' & s' & Hn' & Hk'). exists c', s'. by rewrite <- Nat.add_succ_comm.
Qed.

Lemma mapped_chunk_ok level n d rs i hs :
  (∀ k, k < div_ceil n CHUNKS_PER_SHARD → ∃ c s, nodes d !! shard_file_path data_dir level k = Some (c, s) ∧
      rs !! k = Some (take (Nat.min CHUNKS_PER_SHARD (n - k * CHUNKS_PER_SHARD) * CHUNK_BYTE_SIZE) c)) →
  i < n → chunk_wf hs → chunk_at d level i hs →
  ∃ c, mapped_chunk rs i = Some c ∧ as_slice c = hs.
Proof.
  intros Hrs Hi [Hlen Hwf] (c & s & Hn & Hl & Hs). pose proof CHUNKS_PER_SHARD_pos as Hcps.
  set (k := i / CHUNKS_PER_SHARD) in *. set (o := i mod CHUNKS_PER_SHARD) in *.
  assert (i = k * CHUNKS_PER_SHARD + o ∧ o < CHUNKS_PER_SHARD) as [Heq Ho].
  { pose proof (Nat.div_mod_eq i CHUNKS_PER_SHARD). pose proof (Nat.mod_upper_bound i CHUNKS_PER_SHARD). lia. }
  destruct (Hrs k) as (c' & s' & Hn' & Hr); [apply div_ceil_lt; lia|]. rewrite Hn in Hn'. injection Hn' as <- <-.
  set (m := Nat.min CHUNKS_PER_SHARD (n - k * CHUNKS_PER_SHARD)) in *.
  assert (S o ≤ m) as Hom by lia. apply (Nat.mul_le_mono_r _ _ CHUNK_BYTE_SIZE) in Hom. rewrite Nat.mul_succ_l in Hom.
  exists (Mapped (take (m * CHUNK_BYTE_SIZE) c) (o * CHUNK_BYTE_SIZE)). split.
  - unfold mapped_chunk, shard_address. fold k o. rewrite Hr. cbn [mbind option_bind]. unfold new_mapped.
    change (CHUNK_SIZE * 32) with CHUNK_BYTE_SIZE. rewrite length_take, (proj2 (Nat.leb_le _ _)) by lia. done.
  - cbn [as_slice]. unfold cast_hashes.
    assert (∃ post, drop (o * CHUNK_BYTE_SIZE) (take (m * CHUNK_BYTE_SIZE) c) = mjoin hs ++ post) as [post ->].
    { exists (drop CHUNK_BYTE_SIZE (drop (o * CHUNK_BYTE_SIZE) (take (m * CHUNK_BYTE_SIZE) c))).
      rewrite <- (take_drop CHUNK_BYTE_SIZE) at 1. f_equal. rewrite <- Hs. unfold slice.
      rewrite skipn_firstn_comm, take_take. f_equal. lia. }
    rewrite <- Hlen. by apply slices_join.
Qed.

(** The levels' chunks as they were written. *)
Lemma mmap_level_ok level hss d :
  calm d → Forall chunk_wf hss → hss ≠ [] → (∀ i hs, hss !! i = Some hs → chunk_at d level i hs) →
  ∃ rs cs, runs_to (mmap_level_shards data_dir level (length hss)) d d rs ∧ rs ≠ [] ∧
    (∀ k, k ≤ length hss → mapM (mapped_chunk rs) (seq 0 k) = Some (take k cs)) ∧ as_slice <$> cs = hss.
Proof.
  intros Hc Hwf Hne Hat. pose proof CHUNKS_PER_SHARD_pos as Hcps.
  assert (0 < length hss) as Hlen by (destruct hss; [done|simpl; lia]).
  destruct (mmap_shards_ok level (length hss) d (div_ceil (length hss) CHUNKS_PER_SHARD) 0 [] Hc Hlen) as (rs & Hr & Hlr & Hrs).
  { intros i Hi. destruct (lookup_lt_is_Some_2 _ _ Hi) as [hs Hhs]. exists hs. by apply Hat. }
  { done. }
  assert (∃ cs, mapM (mapped_chunk rs) (seq 0 (length hss)) = Some cs ∧ as_slice <$> cs = hss) as (cs & Hcs & Hsl).
  { assert (Forall2 (λ i hs, ∃ c, mapped_chunk rs i = Some c ∧ as_slice c = hs) (seq 0 (length hss)) hss) as Hall.
    { apply Forall2_same_length_lookup. rewrite length_seq. split; [done|]. intros i j hs [-> Hj]%lookup_seq Hhs.
      eapply mapped_chunk_ok; [exact Hrs|simpl in *; lia| |by apply Hat].
      rewrite Forall_lookup in Hwf. by eapply Hwf. }
    clear -Hall. induction Hall as [|i hs il hss (c & Hc & Hs) _ (cs & Hcs & IH)]; [by exists []|].
    exists (c :: cs). cbn [mapM]. rewrite Hc. cbn [mbind option_bind]. rewrite Hcs. cbn. by rewrite Hs, IH. }
  exists rs, cs. split_and!; [| |intros k Hk|done].
  - unfold runs_to, mmap_level_shards. rewrite (proj2 (Nat.eqb_neq _ _)) by lia. exact Hr.
  - pose proof (div_ceil_pos (length hss) CHUNKS_PER_SHARD Hcps Hlen). intros ->. simpl in Hlr. lia.
  - apply mapM_Some in Hcs. apply mapM_Some_2.
    replace (seq 0 k) with (take k (seq 0 (length hss))) by (rewrite take_seq, Nat.min_l by lia; done).
    by apply Forall2_take.
Qed.
End shards.
