(* ===== verification/CheckpointSpec.v ===== *)
(** A checkpoint and the tree reopened from it: the data files hold the levels, mapping them back
    changes no hash, and recovery returns the tree that was checkpointed. *)
From stdpp Require Import strings.
From S2P Require Import Prelude Hash ChunkedLevel Tree TreeSpec TreeTypes Checksum Vfs Frame Wal.
From S2P Require Import WalFile Recovery DataFiles CheckpointRecovery RotorTree RotorSpec.
From S2P Require Import ShardFiles Codec.

(** ** Lemmas: levels rebuilt from chunks *)

(** The hashes of a level, chunk by chunk. *)
Definition slices (lv : ChunkedLevel) : list (list hash) := as_slice <$> level_chunks lv.

Lemma level_rep_slices lv lv' l :
  level_rep lv l → segments_ok lv' → slices lv' = slices lv → level_len lv' = level_len lv → level_rep lv' l.
Proof.
  intros [[Hs Hp Hc Hl] Hlist] [Hs' Hp'] Hsl Hlen. unfold slices in Hsl.
  assert (length (level_chunks lv') = length (level_chunks lv)) as Hlc.
  { apply (f_equal length) in Hsl. by rewrite !length_fmap in Hsl. }
  split; [split; [done..| |by rewrite Hlc, Hl, Hlen]|].
  - apply (Forall_fmap as_slice (λ hs, length hs = CHUNK_SIZE)) in Hc. rewrite <- Hsl in Hc.
    by apply (Forall_fmap as_slice (λ hs, length hs = CHUNK_SIZE)).
  - unfold level_list in *. by rewrite Hsl, Hlen.
Qed.

Lemma remap_chunks_ok count rs cs lv l :
  level_rep lv l → rs ≠ [] → count ≤ length (level_chunks lv) →
  mapM (mapped_chunk rs) (seq 0 count) = Some cs → as_slice <$> cs = take count (slices lv) →
  ∃ lv', remap_chunks count rs lv = Some lv' ∧ level_rep lv' l ∧ slices lv' = slices lv.
Proof.
  intros Hrep Hne Hcount Hcs Hsl. pose proof Hrep as [Hwf _]. pose proof (level_wf_segments _ Hwf) as Hok.
  unfold remap_chunks. rewrite <- (level_chunks_length _ Hok), Nat.min_l by done.
  destruct (count =? 0) eqn:H0; cbn [orb]; [by exists lv|]. rewrite bool_decide_false by done.
  rewrite (chunks_since_spec _ _ Hwf). cbn [mbind option_bind]. rewrite Hcs. cbn [mbind option_bind].
  eexists. split; [done|].
  assert (segments_ok (MkLevel [] [] (level_len lv))) as Hempty by (split; [constructor|simpl; apply CHUNKS_PER_SEGMENT_pos]).
  destruct (push_chunks_chunks _ (cs ++ drop count (level_chunks lv)) Hempty) as (Hs' & Hc' & Hl').
  assert (slices (foldl push_chunk (MkLevel [] [] (level_len lv)) (cs ++ drop count (level_chunks lv))) = slices lv) as Heq.
  { unfold slices at 1. rewrite Hc'. change (level_chunks (MkLevel [] [] (level_len lv))) with (@nil Chunk).
    rewrite app_nil_l, fmap_app, Hsl, fmap_drop. apply take_drop. }
  split; [|done]. by eapply level_rep_slices.
Qed.

(** ** Lemmas: writing the levels *)

Section files.
Context (data_dir : Path).
Implicit Types (d : Dir) (lv : ChunkedLevel) (ld : LevelCheckpointData).

(** Hashes are arrays of 32 bytes. *)
Definition level_ok lv : Prop := level_wf lv ∧ Forall (λ c, Forall hash_wf (as_slice c)) (level_chunks lv).

Lemma level_ok_chunks lv : level_ok lv → Forall chunk_wf (slices lv).
Proof.
  intros [Hwf Hh]. apply Forall_fmap, Forall_forall. intros c Hc. split.
  - pose proof (lw_chunks _ Hwf) as Hl. rewrite Forall_forall in Hl. by apply Hl.
  - rewrite Forall_forall in Hh. by apply Hh.
Qed.

(** The first chunks of a level are on disk; all are. *)
Definition settled d level lv (already : nat) : Prop :=
  ∀ i hs, i < already → slices lv !! i = Some hs → chunk_at data_dir d level i hs.
Definition level_on_disk d level lv : Prop :=
  ∀ i hs, slices lv !! i = Some hs → chunk_at data_dir d level i hs.

(** What a checkpoint takes of a level. *)
Definition taken_from d level lv ld : Prop :=
  level_ok lv ∧ new_chunks ld = drop (from_chunk ld) (level_chunks lv) ∧ settled d level lv (from_chunk ld).

Lemma write_level_ok level lv ld d :
  calm d → taken_from d level lv ld →
  ∃ d' ks, runs_to (write_level data_dir level ld) d d' (shard_file_path data_dir level <$> ks) ∧
    calm d' ∧ made d ⊆ made d' ∧
    (∀ q, (∀ k, q ≠ shard_file_path data_dir level k) → nodes d' !! q = nodes d !! q) ∧
    Forall (λ k, is_Some (nodes d' !! shard_file_path data_dir level k)) ks ∧ level_on_disk d' level lv.
Proof.
  intros Hc (Hok & Hnew & Hset). unfold write_level. set (a := from_chunk ld) in *.
  assert (as_slice <$> new_chunks ld = drop a (slices lv)) as Hsl by (rewrite Hnew; apply fmap_drop).
  case_bool_decide as Hne.
  { exists d, []. split_and!; [done..|constructor|]. intros i hs Hi. apply Hset; [|done].
    apply lookup_lt_Some in Hi. unfold slices in Hi. rewrite length_fmap in Hi.
    rewrite Hne in Hnew. symmetry in Hnew. apply (f_equal length) in Hnew. rewrite length_drop in Hnew. simpl in Hnew. lia. }
  destruct (fs_create_dir_all_ok (level_dir_path data_dir level) d Hc) as (d1 & Hr1 & Hc1 & Hn1 & Hm1 & Hin).
  destruct (append_chunks_ok data_dir level a (drop a (slices lv)) d1 Hc1 Hin) as (d2 & ks & Hr2 & Hc2 & Hm2 & Ho & Hex & Hat & Hkeep);
    [by apply Forall_drop, level_ok_chunks|].
  exists d2, ks. split_and!; [|done|by rewrite Hm2| |done|].
  - unfold runs_to. rewrite (sm_bind_ok _ _ _ _ _ (sm_io_ok _ _ _ _ Hr1)), Hsl. apply (sm_io_ok _ _ _ _ Hr2).
  - intros q Hq. by rewrite Ho, Hn1.
  - intros i hs Hi. destruct (decide (i < a)) as [Hlt|Hge].
    + apply Hkeep; [done|]. eapply chunk_at_same, Hset; [by rewrite Hn1|done|done].
    + replace i with (a + (i - a)) by lia. apply Hat. rewrite lookup_drop. by replace (a + (i - a)) with i by lia.
Qed.

(** Levels from [l] on. *)
Lemma write_levels_ok lds lvs l d :
  calm d → length lds = length lvs →
  (∀ k lv ld, lvs !! k = Some lv → lds !! k = Some ld → taken_from d (l + k) lv ld) →
  ∃ d' files, runs_to (sm_map (λ '(level, ld), write_level data_dir level ld) (zip (seq l (length lds)) lds)) d d' files ∧
    calm d' ∧ made d ⊆ made d' ∧
    (∀ q, (∀ l' k, l ≤ l' → q ≠ shard_file_path data_dir l' k) → nodes d' !! q = nodes d !! q) ∧
    Forall (λ p, is_Some (nodes d' !! p)) (mjoin files) ∧
    (∀ k lv, lvs !! k = Some lv → level_on_disk d' (l + k) lv).
Proof.
  revert lvs l d. induction lds as [|ld lds IH]; intros [|lv lvs] l d Hc Hlen Htaken; try done.
  { exists d, []. by split_and!. }
  destruct (write_level_ok l lv ld d Hc) as (d1 & ks & Hr1 & Hc1 & Hm1 & Ho1 & Hex1 & Hon1).
  { pose proof (Htaken 0 lv ld) as Ht. rewrite Nat.add_0_r in Ht. by apply Ht. }
  destruct (IH lvs (S l) d1 Hc1 ltac:(simpl in Hlen; lia)) as (d2 & files & Hr2 & Hc2 & Hm2 & Ho2 & Hex2 & Hon2).
  { intros k lv' ld' Hlv' Hld'. pose proof (Htaken (S k) lv' ld' Hlv' Hld') as (Hok & Hnew & Hset).
    rewrite <- Nat.add_succ_comm in Hset. split_and!; [done..|]. intros i hs Hi Hhs.
    eapply chunk_at_same, Hset; [|done..]. apply Ho1. intros k'. intros [Heq _]%shard_file_path_inj. lia. }
  assert (∀ k, nodes d2 !! shard_file_path data_dir l k = nodes d1 !! shard_file_path data_dir l k) as Hsame.
  { intros k. apply Ho2. intros l' k' Hl'. intros [Heq _]%shard_file_path_inj. lia. }
  exists d2, ((shard_file_path data_dir l <$> ks) :: files). split_and!.
  - unfold runs_to. cbn [length seq zip sm_map].
    by rewrite (sm_bind_ok _ _ _ _ _ Hr1), (sm_bind_ok _ _ _ _ _ Hr2).
  - done.
  - by etransitivity.
  - intros q Hq. rewrite Ho2, Ho1; [done|..]; intros; apply Hq; lia.
  - rewrite mjoin_cons. apply list.Forall_app. split; [|done]. apply Forall_fmap.
    eapply Forall_impl; [exact Hex1|]. intros k Hk. simpl. by rewrite Hsame.
  - intros [|k] lv' Hlv'.
    + injection Hlv' as <-. rewrite Nat.add_0_r. intros i hs Hi. eapply chunk_at_same, Hon1; [apply Hsame|done].
    + rewrite <- Nat.add_succ_comm. by apply Hon2.
Qed.

(** Bytes of files, synced or not. *)
Definition same_bytes d d' : Prop := ∀ q, fst <$> nodes d' !! q = fst <$> nodes d !! q.

Lemma chunk_at_bytes d d' level i hs : same_bytes d d' → chunk_at data_dir d level i hs → chunk_at data_dir d' level i hs.
Proof.
  intros Hsame (c & s & Hn & Hl & Hs). pose proof (Hsame (shard_file_path data_dir level (i / CHUNKS_PER_SHARD))) as Hq.
  rewrite Hn in Hq. apply fmap_Some in Hq as ([c' s'] & Hn' & [= ->]). by exists c', s'.
Qed.

Lemma sync_files_ok files d :
  calm d → Forall (λ p, is_Some (nodes d !! p)) files →
  ∃ d', runs_to (sm_for files (λ file, sm_io (fs_sync file))) d d' () ∧ calm d' ∧ made d' = made d ∧ same_bytes d d'.
Proof.
  intros Hc Hex.
  apply (sm_for_inv (λ _ d', calm d' ∧ made d' = made d ∧ same_bytes d d')); [done|].
  intros l1 p l2 d1 -> (Hc1 & Hm1 & Hsame). apply list.Forall_app in Hex as [_ [[[c s] Hp] _]%list.Forall_cons].
  pose proof (Hsame p) as Hq. rewrite Hp in Hq. apply fmap_Some in Hq as ([c' s'] & Hp' & _).
  destruct (fs_sync_ok p c' s' d1 Hc1 Hp') as (d2 & Hr2 & Ht2).
  exists d2. split; [by apply sm_io_ok|]. split_and!; [apply Ht2|by rewrite (proj1 (proj2 Ht2))|].
  intros q. destruct (decide (q = p)) as [->|Hne].
  - rewrite (touches_lookup _ _ _ _ Ht2), <- Hsame, Hp'. done.
  - by rewrite (touches_other _ _ _ _ _ Ht2).
Qed.
End files.

(** ** Lemmas: frames in files *)

Section frames.
Context `{ChecksumLaws}.

Lemma serialize_frame_ok {T} `{WincodeLaws T valid} (v : T) :
  fits_frame (wc_serialize v) → serialize_frame v = Returns (frame_of (wc_serialize v)).
Proof. intros Hf. unfold serialize_frame. by rewrite write_frame_ok, (proj2 (N.leb_le _ _)). Qed.

Lemma read_file_frame_ok {T} `{WincodeLaws T valid} (v : T) p s (d : Dir) :
  calm d → nodes d !! p = Some (frame_of (wc_serialize v), s) → valid v → fits_frame (wc_serialize v) →
  runs_to (read_file_frame (T := T) p) d d (Some v).
Proof.
  intros Hc Hn Hv Hf. unfold runs_to, read_file_frame.
  rewrite (sm_bind_ok _ _ _ _ _ (sm_result_ok _ _ _ _ (fs_read_ok _ _ _ _ Hc Hn))).
  unfold sm_try, read_frame_file.
  assert (read_frame (frame_of (wc_serialize v)) 0 = Ok (Some (wc_serialize v, length (frame_of (wc_serialize v))))) as ->.
  { pose proof (read_frame_whole [] (wc_serialize v) [] Hf) as Hr. rewrite app_nil_r in Hr. apply Hr.
    cbv beta in Hf |- *. simpl app. rewrite ?app_nil_r, length_frame_of. unfold MAX_FRAME_PAYLOAD in Hf. lia. }
  by rewrite wc_roundtrip.
Qed.
End frames.

Lemma name_ne_shard dir name l k : path_join dir name ≠ shard_file_path dir l k.
Proof. unfold shard_file_path, path_join. intros Heq%(f_equal length). rewrite !length_app in Heq. simpl in Heq. lia. Qed.

(** ** Lemmas: calls on the log that succeed *)

Lemma file_seek_ok pos s :
  runs_to (sm_io (on_file (fs_seek_start pos))) s
    (set_wal (MkFile (content (wal_file s)) (N.to_nat pos) (synced (wal_file s)) (faults (wal_file s))) s) ().
Proof. done. Qed.

Lemma file_write_ok bs s : faults (wal_file s) = [] →
  runs_to (sm_io (on_file (fs_write_all bs))) s
    (set_wal (MkFile (overwrite (cursor (wal_file s)) bs (content (wal_file s))) (cursor (wal_file s) + length bs)
      (synced (wal_file s)) []) s) ().
Proof.
  intros Hf. unfold runs_to, sm_io, sm_map_err, on_file, sm_zoom, fs_write_all, mbind, sm_bind, sm_step, next_fault, sm_modify.
  rewrite Hf. reflexivity.
Qed.

Lemma file_set_len_ok len s : faults (wal_file s) = [] →
  runs_to (sm_io (on_file (fs_set_len len))) s
    (set_wal (MkFile (resize (N.to_nat len) (content (wal_file s))) (cursor (wal_file s)) (synced (wal_file s)) []) s) ().
Proof.
  intros Hf. unfold runs_to, sm_io, sm_map_err, on_file, sm_zoom, fs_set_len, faulty, mbind, sm_bind, sm_step, next_fault, sm_modify.
  rewrite Hf. reflexivity.
Qed.

Lemma file_sync_ok s : faults (wal_file s) = [] →
  runs_to (sm_io (on_file fs_sync_data)) s
    (set_wal (MkFile (content (wal_file s)) (cursor (wal_file s)) (content (wal_file s)) []) s) ().
Proof.
  intros Hf. unfold runs_to, sm_io, sm_map_err, on_file, sm_zoom, fs_sync_data, faulty, mbind, sm_bind, sm_step, next_fault, sm_modify.
  rewrite Hf. reflexivity.
Qed.

Section checkpoint.
Context (nary max_depth : nat) `{HL : HasherLaws} (par : option nat).
Context `{Checksum, Wincode WalHeader, Wincode WalEntry, Wincode HeaderFrame, Wincode MetaFrame}.
Context `{!ChecksumLaws _, !WincodeLaws WalHeader _ header_valid, !WincodeLaws WalEntry _ entry_valid}.
Context `{!WincodeLaws HeaderFrame _ header_frame_valid, !WincodeLaws MetaFrame _ meta_frame_valid}.
Context (data_dir : Path) (tiering : TieringConfig).
Context (Hn : 2 ≤ nary) (Hmd1 : 1 ≤ max_depth) (Hshape : shape_ok nary max_depth).

(** Headers and metadata, which have a fixed size, fit a frame; the depth fits its field. *)
Context (Hheader : ∀ h, header_frame_valid h → fits_frame (wc_serialize h)).
Context (Hmeta : ∀ m, meta_frame_valid m → fits_frame (wc_serialize m)).
Context (Hdepth : (N.of_nat max_depth ≤ u32_max)%N).

Definition the_header : HeaderData := MkHeaderData (as_u32 nary) (as_u32 max_depth) (as_u32 CHUNK_SIZE).

Definition meta_valid (m : CheckpointMeta) : Prop :=
  meta_frame_valid (MetaFrameV1 META_MAGIC (meta_n m) (meta_max_depth m) (last_wal_seq m) (leaf_count m) (meta_depth m) (root_hash m)).

(** A data directory that holds these levels under this metadata. *)
Record on_disk (d : Dir) (lvs : list ChunkedLevel) (meta : CheckpointMeta) : Prop := {
  od_calm : calm d;
  od_made : data_dir ∈ made d;
  od_header : runs_to (read_header data_dir) d d (Some the_header);
  od_meta : runs_to (read_meta data_dir) d d (Some meta);
  od_levels : ∀ k lv, lvs !! k = Some lv → level_on_disk data_dir d k lv;
}.

Lemma write_header_ok d :
  calm d → data_dir ∈ made d →
  ∃ d', runs_to (write_header data_dir (as_u32 nary) (as_u32 max_depth)) d d' () ∧ calm d' ∧ made d' = made d ∧
    (∀ d'', calm d'' →
      fst <$> nodes d'' !! path_join data_dir "header.bin"%string = fst <$> nodes d' !! path_join data_dir "header.bin"%string →
      runs_to (read_header data_dir) d'' d'' (Some the_header)) ∧
    (∀ l k, nodes d' !! shard_file_path data_dir l k = nodes d !! shard_file_path data_dir l k).
Proof.
  intros Hc Hdir. set (h := HeaderFrameV1 HEADER_MAGIC (as_u32 nary) (as_u32 max_depth) (N.of_nat CHUNK_SIZE)).
  assert (header_frame_valid h) as Hv.
  { split_and!; [done|apply as_u32_bound..|]. vm_compute. discriminate. }
  destruct (atomic_write_ok data_dir "header.bin"%string (frame_of (wc_serialize h)) d Hc Hdir) as (d' & Hr & Hc' & Hm' & Hn' & Ho').
  exists d'. split_and!; [|done|done| |].
  - unfold runs_to, write_header. fold h. rewrite (sm_bind_ok (sm_outcome _) _ d d (frame_of (wc_serialize h))); [exact Hr|].
    unfold runs_to, sm_outcome. by rewrite serialize_frame_ok by auto.
  - intros d'' Hc'' Hsame. rewrite Hn' in Hsame. apply fmap_Some in Hsame as ([c s] & Hsame & Heq). simpl in Heq. subst c.
    unfold runs_to, read_header.
    rewrite (sm_bind_ok _ _ _ _ _ (read_file_frame_ok h _ _ d'' Hc'' Hsame Hv (Hheader _ Hv))). unfold h.
    rewrite bool_decide_true by done. reflexivity.
  - intros l k. apply Ho'; intros Heq; symmetry in Heq; by apply name_ne_shard in Heq.
Qed.

Lemma write_meta_ok meta d :
  calm d → data_dir ∈ made d → meta_valid meta →
  ∃ d', runs_to (write_meta data_dir meta) d d' () ∧ calm d' ∧ made d' = made d ∧
    runs_to (read_meta data_dir) d' d' (Some meta) ∧
    (∀ q, q ≠ path_join data_dir "checkpoint.meta"%string → q ≠ path_join data_dir "checkpoint.meta.tmp"%string →
      nodes d' !! q = nodes d !! q).
Proof.
  intros Hc Hdir Hv. unfold meta_valid in Hv. set (m := MetaFrameV1 _ _ _ _ _ _ _) in Hv.
  destruct (atomic_write_ok data_dir "checkpoint.meta"%string (frame_of (wc_serialize m)) d Hc Hdir) as (d' & Hr & Hc' & Hm' & Hn' & Ho').
  exists d'. split_and!; [|done|done| |exact Ho'].
  - unfold runs_to, write_meta. fold m. rewrite (sm_bind_ok (sm_outcome _) _ d d (frame_of (wc_serialize m))); [exact Hr|].
    unfold runs_to, sm_outcome. by rewrite serialize_frame_ok by auto.
  - unfold runs_to, read_meta. rewrite (sm_bind_ok _ _ _ _ _ (read_file_frame_ok m _ _ d' Hc' Hn' Hv (Hmeta _ Hv))). unfold m.
    rewrite bool_decide_true by done. by destruct meta.
Qed.

(** The metadata of a snapshot. *)
Definition snap_meta (snap : CheckpointSnap) : CheckpointMeta :=
  MkMeta (as_u32 nary) (as_u32 max_depth) (snap_last_seq snap) (snap_leaf_count snap) (as_u32 (snap_depth_ snap))
    (snap_root_hash snap).

Lemma checkpoint_files_ok snap lvs d :
  calm d → meta_valid (snap_meta snap) → length (level_data snap) = length lvs →
  (∀ k lv ld, lvs !! k = Some lv → level_data snap !! k = Some ld → taken_from data_dir d k lv ld) →
  ∃ d', runs_to (checkpoint_files nary max_depth data_dir snap) d d' () ∧ on_disk d' lvs (snap_meta snap).
Proof.
  intros Hc Hmv Hlen Htaken.
  destruct (fs_create_dir_all_ok data_dir d Hc) as (d1 & Hr1 & Hc1 & Hn1 & _ & Hin1).
  destruct (write_header_ok d1 Hc1 Hin1) as (d2 & Hr2 & Hc2 & Hm2 & Hh2 & Ho2).
  destruct (write_levels_ok data_dir (level_data snap) lvs 0 d2 Hc2 Hlen) as (d3 & files & Hr3 & Hc3 & Hm3 & Ho3 & Hex3 & Hon3).
  { intros k lv ld Hlv Hld. destruct (Htaken k lv ld Hlv Hld) as (Hok & Hnew & Hset). split_and!; [done..|].
    intros i hs Hi Hhs. eapply chunk_at_same, Hset; [|done..]. by rewrite Ho2, Hn1. }
  destruct (sync_files_ok (mjoin files) d3 Hc3 Hex3) as (d4 & Hr4 & Hc4 & Hm4 & Hb4).
  assert (data_dir ∈ made d4) as Hin4 by (rewrite Hm4; apply Hm3; by rewrite Hm2).
  destruct (write_meta_ok (snap_meta snap) d4 Hc4 Hin4 Hmv) as (d5 & Hr5 & Hc5 & Hm5 & Hmeta5 & Ho5).
  exists d5. split.
  - unfold runs_to, checkpoint_files. rewrite (sm_bind_ok _ _ _ _ _ (sm_io_ok _ _ _ _ Hr1)),
      (sm_bind_ok _ _ _ _ _ (sm_io_ok _ _ _ _ Hr2)).
    unfold enumerate. rewrite (sm_bind_ok _ _ _ _ _ Hr3), (sm_bind_ok _ _ _ _ _ Hr4).
    apply (sm_io_ok _ _ _ _ Hr5).
  - split; [done|by rewrite Hm5| |done|].
    + apply Hh2; [done|]. rewrite Ho5 by (intros Heq; apply path_join_inj in Heq; done).
      rewrite Hb4, Ho3; [done|]. intros l' k _. apply name_ne_shard.
    + intros k lv Hlv i hs Hi. eapply chunk_at_same; [apply Ho5; intros Heq; symmetry in Heq; by apply name_ne_shard in Heq|].
      eapply chunk_at_bytes; [exact Hb4|]. by apply (Hon3 k lv).
Qed.
(** ** Lemmas: reading the levels *)

Lemma levels_rep_insert lvs f l lv v :
  levels_rep max_depth lvs f → level_rep lv v → levels_rep max_depth (<[l := lv]> lvs) (λ k, if k =? l then v else f k).
Proof.
  intros [Hlen Hlvs] Hlv. split; [by rewrite length_insert|]. intros k lv' Hk.
  destruct (decide (k = l)) as [->|Hne].
  - rewrite Nat.eqb_refl. rewrite list_lookup_insert_eq in Hk by (apply lookup_lt_Some in Hk; by rewrite length_insert in Hk).
    by injection Hk as <-.
  - rewrite list_lookup_insert_ne in Hk by done. rewrite (proj2 (Nat.eqb_neq _ _)) by done. by apply Hlvs.
Qed.

Lemma load_levels_ok d lvs : ∀ l t f g,
  calm d → levels_rep max_depth (levels t) f →
  (∀ k lv, lvs !! k = Some lv →
    level_ok lv ∧ 0 < level_len lv ∧ level_on_disk data_dir d (l + k) lv ∧ level_rep lv (g (l + k))) →
  ∃ t', runs_to (load_levels data_dir l (level_len <$> lvs) t) d d t' ∧
    levels_rep max_depth (levels t') (λ k, if (l <=? k) && (k <? l + length lvs) then g k else f k).
Proof.
  induction lvs as [|lv lvs IH]; intros l t f g Hc Hf Hlvs.
  { exists t. split; [done|]. eapply (levels_rep_ext nary max_depth Hn), Hf. intros k _. rewrite Nat.add_0_r.
    destruct (l <=? k) eqn:E1; [|done]. nbool. by rewrite (proj2 (Nat.ltb_ge _ _)). }
  destruct (Hlvs 0 lv eq_refl) as (Hok & Hpos & Hon & Hrep). rewrite Nat.add_0_r in Hon, Hrep.
  pose proof Hok as [Hwf _]. pose proof (lw_len _ Hwf) as Hchunks.
  pose proof (div_ceil_pos _ _ CHUNK_SIZE_pos Hpos) as Hn0.
  assert (length (slices lv) = div_ceil (level_len lv) CHUNK_SIZE) as Hsl by (unfold slices; by rewrite length_fmap).
  destruct (mmap_level_ok data_dir l (slices lv) d Hc (level_ok_chunks _ Hok)) as (rs & cs & Hr & Hrs & Hmapped & Hcs); [|exact Hon|].
  { intros Heq. rewrite Heq in Hsl. simpl in Hsl. lia. }
  rewrite Hsl in Hr, Hmapped.
  assert (length cs = div_ceil (level_len lv) CHUNK_SIZE) as Hlc by (rewrite <- Hsl, <- Hcs, length_fmap; done).
  destruct (from_parts_spec cs (level_len lv)) as [_ Hfp]; [|done|].
  { apply (Forall_fmap as_slice (λ hs, length hs = CHUNK_SIZE)). rewrite Hcs. unfold slices. apply Forall_fmap, Hwf. }
  assert (level_rep (from_parts cs (level_len lv)) (g l)) as Hlr.
  { destruct Hrep as [_ <-]. rewrite Hcs in Hfp. exact Hfp. }
  destruct (IH (S l) (set_level_from_parts t l cs (level_len lv)) (λ k, if k =? l then g l else f k) g Hc)
    as (t' & Hr' & Hrep'); [by apply levels_rep_insert| |].
  { intros k lv' Hk. rewrite Nat.add_succ_comm. by apply Hlvs. }
  exists t'. split.
  - unfold runs_to. cbn [fmap list_fmap load_levels]. rewrite (proj2 (Nat.eqb_neq _ _)) by lia.
    rewrite (proj2 (Nat.ltb_lt _ _)) by done. rewrite (sm_bind_ok _ _ _ _ _ (sm_io_ok _ _ _ _ Hr)).
    rewrite bool_decide_false by done. rewrite Hmapped by done. rewrite take_ge by lia.
    rewrite sm_expect_bind. exact Hr'.
  - eapply (levels_rep_ext nary max_depth Hn), Hrep'. intros k _. cbn [length].
    destruct (k =? l) eqn:Hkl; nbool.
    + subst k. destruct (S l <=? l) eqn:E1, (l <=? l) eqn:E2, (l <? l + S (length lvs)) eqn:E3; nbool; try lia. done.
    + destruct (l <=? k) eqn:E1, (S l <=? k) eqn:E2; nbool; try lia; cbn [andb]; [|done].
      by replace (S l + length lvs) with (l + S (length lvs)) by lia.
Qed.

(** ** Lemmas: the tree in the files *)

Section tree.
Context (t : TreeInner) (xs : list hash) (Hrep : tree_rep nary max_depth t xs) (Hxs : xs ≠ []).
Context (Hlevels : ∀ l lv, levels t !! l = Some lv → level_ok lv).

Definition active : nat := Nat.min (depth t) (max_depth - 1) + 1.
Definition active_levels : list ChunkedLevel := take active (levels t).

(** The metadata of this tree. *)
Definition describes (meta : CheckpointMeta) : Prop :=
  meta_n meta = as_u32 nary ∧ meta_max_depth meta = as_u32 max_depth ∧ leaf_count meta = size t ∧
  meta_depth meta = as_u32 (depth t) ∧ root t = Some (root_hash meta).

Lemma as_u32_depth : N.to_nat (as_u32 (depth t)) = depth t.
Proof.
  pose proof (tr_max_depth _ _ _ _ Hrep). rewrite (tr_depth _ _ _ _ Hrep) in *. unfold as_u32, u32_max in *.
  rewrite N.mod_small by lia. apply Nat2N.id.
Qed.

Lemma active_le : active ≤ max_depth.
Proof. unfold active. lia. Qed.

Lemma length_active : length active_levels = active.
Proof. unfold active_levels. rewrite length_take, (proj1 (tr_levels _ _ _ _ Hrep)). pose proof active_le. lia. Qed.

Lemma active_level k lv : active_levels !! k = Some lv →
  level_ok lv ∧ level_rep lv (layer nary k xs) ∧ 0 < level_len lv ∧ k < active.
Proof.
  unfold active_levels. intros Hk. pose proof (lookup_lt_Some _ _ _ Hk) as Hlt. rewrite length_take in Hlt.
  rewrite lookup_take_lt in Hk by lia.
  pose proof (proj2 (tr_levels _ _ _ _ Hrep) k lv Hk) as Hlr.
  rewrite stored_layer_total in Hlr by (unfold active in Hlt; rewrite <- (tr_depth _ _ _ _ Hrep); lia).
  split_and!; [by eapply Hlevels|done| |lia]. rewrite (level_rep_len _ _ Hlr), length_layer by done.
  apply div_ceil_pos; [by apply pow_pos|]. destruct xs; [done|simpl; lia].
Qed.

Lemma lens_from_layers n k : lens_from nary n (length (layer nary k xs)) = (λ j, length (layer nary (k + j) xs)) <$> seq 0 n.
Proof.
  revert k. induction n as [|n IH]; intros k; [done|]. cbn [lens_from seq fmap list_fmap]. rewrite Nat.add_0_r. f_equal.
  rewrite <- (length_parents nary (layer nary k xs)). change (parents nary (layer nary k xs)) with (layer nary (S k) xs). rewrite IH.
  rewrite <- fmap_S_seq, <- list_fmap_compose. apply list_fmap_ext. intros i j _. unfold compose. by rewrite Nat.add_succ_comm.
Qed.

Lemma compute_level_lens_ok : take active (compute_level_lens nary max_depth (length xs) (depth t)) = level_len <$> active_levels.
Proof.
  unfold compute_level_lens. rewrite (proj2 (Nat.ltb_lt _ _)) by (destruct xs; [done|simpl; lia]). fold active.
  assert (lens_from nary active (length xs) = level_len <$> active_levels) as Hlens.
  { change (length xs) with (length (layer nary 0 xs)). rewrite lens_from_layers. apply list_eq. intros k.
    rewrite !list_lookup_fmap. destruct (active_levels !! k) as [lv|] eqn:Hk.
    - destruct (active_level k lv Hk) as (_ & Hlr & _ & Hlt). rewrite lookup_seq_lt by done. simpl.
      by rewrite (level_rep_len _ _ Hlr).
    - apply lookup_ge_None in Hk. rewrite length_active in Hk. by rewrite lookup_seq_ge. }
  rewrite Hlens, take_app_length' by (by rewrite length_fmap, length_active). done.
Qed.

Lemma load_tree_ok meta d :
  on_disk d active_levels meta → describes meta →
  ∃ t', runs_to (load_tree nary max_depth data_dir meta) d d t' ∧ tree_rep nary max_depth t' xs.
Proof.
  intros [Hc _ _ _ Hon] (_ & _ & Hleaves & Hdm & Hroot). destruct Hrep as [Hlv Hr Hs Hd Hmd Hms].
  destruct (load_levels_ok d active_levels 0 (tree_new max_depth) (λ _, []) (λ k, layer nary k xs) Hc) as (t' & Hr' & Hlr').
  { eapply (levels_rep_ext nary max_depth Hn), (tr_levels _ _ _ _ (tree_new_rep nary max_depth Hn Hmd1)). intros k _.
    unfold stored_layer. case_match; [|done]. apply nil_length_inv. rewrite (length_layer nary Hn).
    by rewrite div_ceil_0 by (by apply pow_pos). }
  { intros k lv Hk. destruct (active_level k lv Hk) as (? & ? & ? & _). split_and!; [done|done|by apply Hon|done]. }
  exists (MkTree (levels t') (Some (root_hash meta)) (leaf_count meta) (depth t)). split.
  - unfold runs_to, load_tree. rewrite (sm_bind_ok (sm_try _) _ d d (length xs)).
    2: { unfold runs_to, sm_try, u64_to_usize. rewrite Hleaves, Hs. by rewrite (proj2 (N.leb_le _ _)), Nat2N.id. }
    rewrite Hdm, as_u32_depth. fold active. rewrite compute_level_lens_ok, (sm_bind_ok _ _ _ _ _ Hr').
    rewrite (proj2 (Nat.ltb_lt _ _)) by (destruct xs; [done|simpl; lia]). done.
  - split; cbn [levels root size depth]; [|by rewrite <- Hroot|by rewrite Hleaves|done..].
    eapply (levels_rep_ext nary max_depth Hn), Hlr'. intros k Hk. rewrite length_active. cbn [Nat.leb Nat.add andb]. unfold stored_layer.
    rewrite <- Hd. unfold active. destruct (k <? _) eqn:E1, (k <=? depth t) eqn:E2; nbool; try done; lia.
Qed.

(** ** Lemmas: reopening *)

Lemma verify_root_ok {S} verify t' ys (s : S) : tree_rep nary max_depth t' ys → verify_root nary par verify t' s = (s, Returns (Ok ())).
Proof.
  intros Hrep'. unfold verify_root. destruct (_ && _); [|done].
  rewrite (recompute_root_spec nary max_depth Hn Hmd1 par t' ys Hrep'), sm_expect_bind.
  by rewrite bool_decide_true by done.
Qed.

(** The number after a log that may be empty. *)
Definition next_number (last_seq : N) (es : list WalEntryV1) : N :=
  match last_number None es with Some s => s + 1 | None => last_seq + 1 end.

Lemma recover_with_checkpoint_ok meta d es tl n verify :
  on_disk d active_levels meta → describes meta →
  let bs := header_frame (as_u32 nary) (as_u32 max_depth) ++ log_bytes es ++ tl in
  let ys := xs ++ replayed (Some (last_wal_seq meta)) es in
  fits_vec bs → numbered n es → Forall entry_ok es → ends_log es tl →
  (N.of_nat (length ys) ≤ u64_max)%N → tree_depth nary ys ≤ max_depth → (next_number (last_wal_seq meta) es ≤ u64_max)%N →
  ∃ t', runs_to (recover_with_checkpoint nary max_depth par data_dir verify) (opened bs, d) (cut_file nary max_depth es, d)
      (MkRecovery t' (next_number (last_wal_seq meta) es)) ∧ tree_rep nary max_depth t' ys.
Proof.
  intros Hod Hdes bs ys Hv Hnum Hok Hend Hmax Hd Hnext.
  pose proof Hdes as (Hmn & Hmm & _). destruct (load_tree_ok meta d Hod Hdes) as (t1 & Hr1 & Hrep1).
  destruct (replay_file_ok nary max_depth par Hn Hmd1 (Some (last_wal_seq meta)) es tl n t1 xs Hshape Hv Hnum Hok Hend Hrep1 Hmax Hd)
    as (t2 & Hr2 & Hrep2). fold bs in Hr2.
  exists t2. split; [|done]. unfold runs_to, recover_with_checkpoint.
  rewrite (sm_bind_ok (on_data _) _ _ (opened bs, d) (Some meta)).
  2: { unfold runs_to, on_data, sm_zoom. cbn [snd fst]. by rewrite (od_meta _ _ _ Hod). }
  rewrite Hmn, Hmm, !N.eqb_refl. cbn [negb orb].
  rewrite (sm_bind_ok (on_data _) _ _ (opened bs, d) (Some the_header)).
  2: { unfold runs_to, on_data, sm_zoom. cbn [snd fst]. by rewrite (od_header _ _ _ Hod). }
  cbn [the_header hd_n hd_max_depth hd_chunk_size]. rewrite !N.eqb_refl. cbn [andb].
  rewrite (sm_bind_ok (on_data _) _ _ (opened bs, d) t1).
  2: { unfold runs_to, on_data, sm_zoom. cbn [snd fst]. by rewrite Hr1. }
  rewrite (sm_bind_ok _ _ _ _ _ (verify_root_ok verify t1 xs (opened bs, d) Hrep1)).
  rewrite (sm_bind_ok (on_wal _) _ _ (opened bs, d) (N.of_nat (length bs))) by done.
  rewrite (proj2 (N.eqb_neq _ _)).
  2: { unfold bs. rewrite length_app. pose proof (length_header nary max_depth). lia. }
  rewrite (sm_bind_ok (on_wal _) _ _ (cut_file nary max_depth es, d) (t2, last_number None es)).
  2: { unfold runs_to, on_wal, sm_zoom. cbn [snd fst]. by rewrite Hr2. }
  unfold next_number in *. destruct (last_number None es) as [m|];
    unfold mbind, sm_bind, sm_try, u64_checked_add; by rewrite (proj2 (N.leb_le _ _)).
Qed.

Lemma initial_level_files_ok d meta :
  on_disk d active_levels meta → describes meta →
  ∃ v, compute_initial_level_files nary max_depth data_dir d = (d, Returns (Ok v)).
Proof.
  intros Hod (_ & _ & Hleaves & _). unfold compute_initial_level_files.
  rewrite (sm_bind_ok _ _ _ _ _ (od_meta _ _ _ Hod)).
  rewrite (sm_bind_ok (sm_try _) _ d d (length xs)).
  2: { unfold runs_to, sm_try, u64_to_usize. rewrite Hleaves, (tr_size _ _ _ _ Hrep).
       by rewrite (proj2 (N.leb_le _ _)), Nat2N.id by apply (tr_max_size _ _ _ _ Hrep). }
  rewrite (proj2 (Nat.eqb_neq _ _)) by (destruct xs; [done|simpl; lia]). by eexists.
Qed.

(** Opening a directory with a checkpoint of this tree and a log. *)
Lemma open_checkpointed meta d es tl n verify :
  on_disk d active_levels meta → describes meta →
  let bs := header_frame (as_u32 nary) (as_u32 max_depth) ++ log_bytes es ++ tl in
  let ys := xs ++ replayed (Some (last_wal_seq meta)) es in
  fits_vec bs → numbered n es → Forall entry_ok es → ends_log es tl →
  (N.of_nat (length ys) ≤ u64_max)%N → tree_depth nary ys ≤ max_depth → (next_number (last_wal_seq meta) es ≤ u64_max)%N →
  ∃ fd s, open nary max_depth par data_dir verify (Ok true) (opened bs) d = (fd, Returns (Ok s)) ∧
    tree_rep nary max_depth (tree (state s)) ys ∧ next_entry (state s) = next_number (last_wal_seq meta) es ∧
    flushed s = Some (next_entry (state s) - 1)%N.
Proof.
  intros Hod Hdes bs ys Hv Hnum Hok Hend Hmax Hd Hnext.
  destruct (recover_with_checkpoint_ok meta d es tl n verify Hod Hdes Hv Hnum Hok Hend Hmax Hd Hnext) as (t' & Hr & Hrep').
  fold bs in Hr. destruct (initial_level_files_ok d meta Hod Hdes) as (v & Hlf).
  unfold open. assert (fs_exists data_dir d = true) as ->.
  { unfold fs_exists. by rewrite bool_decide_true by apply (od_made _ _ _ Hod). }
  unfold sm_map_err at 1. rewrite (sm_bind_ok _ _ _ _ _ Hr).
  rewrite (sm_bind_ok (on_data _) _ _ (cut_file nary max_depth es, d) v).
  2: { unfold runs_to, on_data, sm_zoom. cbn [snd fst]. by rewrite Hlf. }
  assert (0 < next_number (last_wal_seq meta) es)%N as Hpos.
  { unfold next_number. destruct (last_number None es); lia. }
  eexists _, _. split; [reflexivity|]. cbn [inner next_seq]. rewrite (proj2 (N.ltb_lt _ _)) by done. by split_and!.
Qed.

(** ** Lemmas: the sections of a checkpoint *)

Lemma flush_buffer_locked_ok s :
  faults (wal_file s) = [] →
  ∃ s', runs_to flush_buffer_locked s s' () ∧ state s' = set_buffer [] (state s) ∧ data_files s' = data_files s ∧
    faults (wal_file s') = [] ∧ closed s' = closed s ∧ bg_error s' = bg_error s ∧ (buffer (state s) = [] → s' = s).
Proof.
  intros Hf. unfold runs_to, flush_buffer_locked. rewrite sm_get_bind. case_bool_decide as Hb.
  { exists s. split_and!; try done. unfold set_buffer. rewrite <- Hb. by destruct (state s). }
  rewrite (sm_bind_ok _ _ _ _ _ (file_write_ok _ s Hf)), (sm_bind_ok _ _ _ _ _ (file_sync_ok (set_wal (MkFile _ _ _ []) s) eq_refl)).
  eexists. split; [reflexivity|]. unfold mark_flushed. by repeat case_match.
Qed.

Lemma truncate_wal_ok s :
  faults (wal_file s) = [] →
  let h := header_frame (as_u32 nary) (as_u32 max_depth) in
  runs_to (truncate_wal nary max_depth) s (set_wal (MkFile h (length h) h []) s) ().
Proof.
  intros Hf h. unfold runs_to, truncate_wal.
  rewrite (sm_bind_ok (sm_outcome _) _ s s h) by (unfold runs_to, sm_outcome; by rewrite serialize_header_ok).
  rewrite (sm_bind_ok _ _ _ _ _ (file_seek_ok 0 s)).
  rewrite (sm_bind_ok _ _ _ _ _ (file_write_ok h
    (set_wal (MkFile (content (wal_file s)) (N.to_nat 0) (synced (wal_file s)) (faults (wal_file s))) s) Hf)).
  rewrite (sm_bind_ok _ _ _ _ _ (file_set_len_ok _ (set_wal (MkFile _ _ _ []) (set_wal _ s)) eq_refl)).
  rewrite (file_sync_ok (set_wal (MkFile _ _ _ []) (set_wal _ (set_wal _ s))) eq_refl).
  cbn [wal_file set_wal content cursor synced]. rewrite Nat2N.id.
  assert (resize (length h) (overwrite (N.to_nat 0) h (content (wal_file s))) = h) as ->.
  { unfold overwrite. cbn [N.to_nat]. rewrite take_0, Nat.sub_0_l. cbn [replicate app]. apply resize_app. }
  reflexivity.
Qed.

(** The counts that a checkpoint starts from. *)
Definition already (s : Shared) (level : nat) : nat := default 0 (checkpointed_chunks (state s) !! level).

Lemma checkpoint_begin_ok s :
  tree (state s) = t → faults (wal_file s) = [] →
  ∃ s' snap, runs_to (checkpoint_begin max_depth) s s' (Some snap) ∧ state s' = set_buffer [] (state s) ∧
    data_files s' = data_files s ∧ faults (wal_file s') = [] ∧ closed s' = closed s ∧ bg_error s' = bg_error s ∧
    snap_depth_ snap = depth t ∧ snap_leaf_count snap = size t ∧ snap_last_seq snap = N.pred (next_entry (state s)) ∧
    snap_root_hash snap = default ZERO (root t) ∧
    level_data snap = imap (λ k lv, MkLevelData (drop (already s k) (level_chunks lv)) (already s k) (level_len lv / CHUNK_SIZE))
      active_levels.
Proof.
  intros Ht Hf. destruct (flush_buffer_locked_ok s Hf) as (s' & Hr & Hst & Hd & Hf' & Hc & Hb & _).
  eexists s', (MkCheckpointSnap _ _ _ _ _). split_and!; [|done..].
  unfold runs_to, checkpoint_begin. rewrite (sm_bind_ok _ _ _ _ _ Hr), sm_get_bind, Hst. cbn [tree next_entry set_buffer].
  rewrite Ht, (tr_size _ _ _ _ Hrep). rewrite (proj2 (N.eqb_neq _ _)) by (destruct xs; [done|simpl; lia]). fold active.
  rewrite (sm_bind_ok (sm_expect _) _ s' s' (imap (λ k lv, MkLevelData (drop (already s k) (level_chunks lv)) (already s k)
    (level_len lv / CHUNK_SIZE)) active_levels)); [by rewrite <- (tr_size _ _ _ _ Hrep)|].
  unfold runs_to, sm_expect. match goal with |- context [mapM ?f ?l] =>
    assert (mapM f l = Some (imap (λ k lv, MkLevelData (drop (already s k) (level_chunks lv)) (already s k)
      (level_len lv / CHUNK_SIZE)) active_levels)) as ->; [|done] end.
  apply mapM_Some_2, Forall2_same_length_lookup. rewrite length_seq, length_imap, length_active. split; [done|].
  intros i j ld [-> Hi]%lookup_seq Hld. rewrite list_lookup_imap in Hld. apply fmap_Some in Hld as (lv & Hlv & ->).
  unfold level_checkpoint. cbn [tree checkpointed_chunks set_buffer]. rewrite Ht. rewrite Nat.add_0_l.
  assert (levels t !! i = Some lv) as -> by (unfold active_levels in Hlv; rewrite lookup_take_lt in Hlv by done; done).
  cbn [mbind option_bind]. fold (already s i). destruct (active_level i lv Hlv) as ([Hwf _] & _).
  by rewrite (chunks_since_spec _ _ Hwf).
Qed.

(** A tree whose levels are held otherwise. *)
Record same_hashes (t' : TreeInner) : Prop := {
  sh_root : root t' = root t;
  sh_size : size t' = size t;
  sh_depth : depth t' = depth t;
  sh_length : length (levels t') = length (levels t);
  sh_levels : ∀ l lv', levels t' !! l = Some lv' →
    level_rep lv' (stored_layer nary xs l) ∧ ∃ lv, levels t !! l = Some lv ∧ slices lv' = slices lv;
}.

Lemma same_hashes_rep t' : same_hashes t' → tree_rep nary max_depth t' xs.
Proof.
  intros [Hr Hs Hd Hl Hlv]. destruct Hrep as [[Hlen _] Hr0 Hs0 Hd0 Hmd Hms]. split; [|congruence..|done|done].
  split; [congruence|]. intros l lv Hk. by apply Hlv.
Qed.

Lemma remap_level_ok d meta s level lv ld :
  on_disk d active_levels meta → active_levels !! level = Some lv → total_chunks ld = level_len lv / CHUNK_SIZE →
  data_files s = d → same_hashes (tree (state s)) →
  ∃ s', runs_to (remap_level data_dir tiering level ld) s s' () ∧ same_hashes (tree (state s')) ∧
    data_files s' = d ∧ wal_file s' = wal_file s ∧ buffer (state s') = buffer (state s) ∧
    next_entry (state s') = next_entry (state s).
Proof.
  intros Hod Hlv Htot Hdf Hsh. destruct (active_level level lv Hlv) as (Hok & Hlr & Hpos & Hlt).
  pose proof Hok as [Hwf _]. unfold remap_level. set (total := total_chunks ld) in *.
  assert (total ≤ length (slices lv)) as Htl.
  { rewrite Htot. unfold slices. rewrite length_fmap, (lw_len _ Hwf). apply div_le_div_ceil, CHUNK_SIZE_pos. }
  set (count := set_state (λ d, set_checkpointed (<[level := total]> (checkpointed_chunks d)) d)).
  destruct ((0 <? total) && _) eqn:Hcond; [|by eexists].
  apply andb_true_iff in Hcond as [Hpos' _]. nbool.
  assert (length (take total (slices lv)) = total) as Hlen by (rewrite length_take; lia).
  destruct (mmap_level_ok data_dir level (take total (slices lv)) d) as (rs & cs & Hr & Hrs & Hmapped & Hcs).
  { apply Hod. }
  { by apply Forall_take, level_ok_chunks. }
  { intros Heq. rewrite Heq in Hlen. simpl in Hlen. lia. }
  { intros i hs Hi. apply lookup_take_Some in Hi as [Hi _]. by apply (od_levels _ _ _ Hod level lv). }
  rewrite Hlen in Hr, Hmapped.
  assert (levels t !! level = Some lv) as Hlvt by (unfold active_levels in Hlv; by apply lookup_take_Some in Hlv as [? _]).
  assert (∃ lv', levels (tree (state s)) !! level = Some lv') as [lv' Hlv'].
  { apply lookup_lt_is_Some_2. rewrite (sh_length _ Hsh). by apply lookup_lt_Some in Hlvt. }
  destruct (sh_levels _ Hsh level lv' Hlv') as (Hlr' & lv0 & Hlv0 & Hsl). rewrite Hlvt in Hlv0. injection Hlv0 as <-.
  assert (length cs = total) as Hlcs by (rewrite <- Hlen, <- Hcs, length_fmap; done).
  destruct (remap_chunks_ok total rs cs lv' _ Hlr' Hrs) as (lv'' & Hremap & Hlr'' & Hsl'').
  { apply (f_equal length) in Hsl. unfold slices in Hsl, Htl. rewrite !length_fmap in Hsl. rewrite length_fmap in Htl. lia. }
  { rewrite (Hmapped total) by done. by rewrite take_ge by lia. }
  { by rewrite Hcs, Hsl. }
  eexists. split; [|split_and!].
  - unfold runs_to. rewrite (sm_bind_ok _ _ s (set_state (set_tree (MkTree (<[level := lv'']> (levels (tree (state s))))
      (root (tree (state s))) (size (tree (state s))) (depth (tree (state s))))) s) ()); [reflexivity|].
    unfold runs_to. rewrite (sm_bind_ok (sm_io (on_dir _)) _ s s rs).
    2: { apply sm_io_ok. unfold runs_to, on_dir, sm_zoom. rewrite Hdf, Hr. subst d. by destruct s. }
    rewrite bool_decide_false by done. rewrite sm_get_bind, Hlv', sm_expect_bind, Hremap, sm_expect_bind. reflexivity.
  - unfold count. cbn [state set_state set_checkpointed set_tree tree]. destruct Hsh as [Hr0 Hs0 Hd0 Hl0 Hlv1].
    split; cbn [root size depth levels]; [done..|by rewrite length_insert|].
    intros l lv1 Hl. destruct (decide (l = level)) as [->|Hne].
    + rewrite list_lookup_insert_eq in Hl by (by apply lookup_lt_Some in Hlv'). injection Hl as <-.
      split; [done|]. exists lv. by rewrite Hsl''.
    + rewrite list_lookup_insert_ne in Hl by done. by apply Hlv1.
  - exact Hdf.
  - done.
  - done.
  - done.
Qed.

Lemma enumerate_split {A} (l : list A) l1 i x l2 : enumerate l = l1 ++ (i, x) :: l2 → l !! i = Some x.
Proof.
  intros Heq. assert (enumerate l !! length l1 = Some (i, x)) as Hl by (rewrite Heq; by apply list_lookup_middle).
  unfold enumerate in Hl. apply lookup_zip_Some in Hl as [Hi Hx]. apply lookup_seq in Hi as [-> _]. exact Hx.
Qed.

Lemma remap_levels_ok d meta s lds :
  on_disk d active_levels meta → data_files s = d → same_hashes (tree (state s)) →
  (∀ k ld, lds !! k = Some ld → ∃ lv, active_levels !! k = Some lv ∧ total_chunks ld = level_len lv / CHUNK_SIZE) →
  ∃ s', runs_to (sm_for (enumerate lds) (λ '(level, ld), remap_level data_dir tiering level ld)) s s' () ∧
    same_hashes (tree (state s')) ∧ data_files s' = d ∧ wal_file s' = wal_file s ∧ buffer (state s') = buffer (state s) ∧
    next_entry (state s') = next_entry (state s).
Proof.
  intros Hod Hd Hsh Hlds.
  apply (sm_for_inv (λ _ s', same_hashes (tree (state s')) ∧ data_files s' = d ∧ wal_file s' = wal_file s ∧
    buffer (state s') = buffer (state s) ∧ next_entry (state s') = next_entry (state s))); [done|].
  intros l1 [level ld] l2 s1 Heq (Hsh1 & Hd1 & Hw1 & Hb1 & Hn1).
  destruct (Hlds level ld (enumerate_split _ _ _ _ _ Heq)) as (lv & Hlv & Htot).
  destruct (remap_level_ok d meta s1 level lv ld Hod Hlv Htot Hd1 Hsh1) as (s2 & Hr2 & Hsh2 & Hd2 & Hw2 & Hb2 & Hn2).
  exists s2. split; [done|]. split_and!; [done|done|congruence..].
Qed.

(** The last section, on files that hold the tree. *)
Lemma checkpoint_end_ok meta s snap :
  on_disk (data_files s) active_levels meta → tree (state s) = t → buffer (state s) = [] → faults (wal_file s) = [] →
  (∀ k ld, level_data snap !! k = Some ld → ∃ lv, active_levels !! k = Some lv ∧ total_chunks ld = level_len lv / CHUNK_SIZE) →
  let h := header_frame (as_u32 nary) (as_u32 max_depth) in
  ∃ s', runs_to (checkpoint_end nary max_depth data_dir tiering snap) s s' () ∧ same_hashes (tree (state s')) ∧
    data_files s' = data_files s ∧ wal_file s' = MkFile h (length h) h [] ∧ buffer (state s') = [] ∧
    next_entry (state s') = next_entry (state s).
Proof.
  intros Hod Ht Hb Hf Hlds h.
  set (s0 := set_state (λ d, set_checkpointed (resize_vec (length (level_data snap)) (checkpointed_chunks d)) d) s).
  assert (same_hashes t) as Hsh.
  { split; [done..|]. intros l lv' Hl. split; [by apply (tr_levels _ _ _ _ Hrep)|by exists lv']. }
  destruct (remap_levels_ok (data_files s) meta s0 (level_data snap)) as (s1 & Hr1 & Hsh1 & Hd1 & Hw1 & Hb1 & Hn1);
    [done|done|by rewrite <- Ht in Hsh |done|].
  assert (faults (wal_file s1) = []) as Hf1 by (by rewrite Hw1).
  pose proof (truncate_wal_ok s1 Hf1) as Hr2. cbv zeta in Hr2. fold h in Hr2.
  set (s2 := set_wal (MkFile h (length h) h []) s1) in *.
  destruct (flush_buffer_locked_ok (set_counters 0 0 s2) eq_refl) as (s3 & Hr3 & _ & _ & _ & _ & _ & Hs3).
  assert (s3 = set_counters 0 0 s2) as -> by (apply Hs3; cbn; by rewrite Hb1).
  eexists. split.
  - unfold runs_to, checkpoint_end. rewrite sm_modify_bind. fold s0.
    rewrite (sm_bind_ok _ _ _ _ _ Hr1), (sm_bind_ok _ _ _ _ _ Hr2), sm_modify_bind, (sm_bind_ok _ _ _ _ _ Hr3), sm_modify_bind.
    reflexivity.
  - cbn [state set_coord set_published set_counters set_wal s2 data_files wal_file]. split_and!; [done|done|done|by rewrite Hb1|by rewrite Hn1].
Qed.

Lemma describes_snap snap h :
  root t = Some h → snap_depth_ snap = depth t → snap_leaf_count snap = size t → snap_root_hash snap = default ZERO (root t) →
  describes (snap_meta snap).
Proof. intros Hroot Hd Hs Hr. unfold describes, snap_meta. cbn. rewrite Hd, Hs, Hr, Hroot. done. Qed.

Lemma checkpoint_ok s h :
  tree (state s) = t → root t = Some h → hash_wf h → closed s = false → bg_error s = None →
  faults (wal_file s) = [] → calm (data_files s) → (next_entry (state s) ≤ u64_max)%N →
  (∀ l lv, active_levels !! l = Some lv → settled data_dir (data_files s) l lv (already s l)) →
  let hd := header_frame (as_u32 nary) (as_u32 max_depth) in
  ∃ s' meta, runs_to (checkpoint nary max_depth data_dir tiering) s s' () ∧ tree_rep nary max_depth (tree (state s')) xs ∧
    wal_file s' = MkFile hd (length hd) hd [] ∧ next_entry (state s') = next_entry (state s) ∧ buffer (state s') = [] ∧
    on_disk (data_files s') active_levels meta ∧ describes meta ∧ last_wal_seq meta = N.pred (next_entry (state s)).
Proof.
  intros Ht Hroot Hwf Hcl Hbg Hf Hc Hnext Hset hd.
  destruct (checkpoint_begin_ok s Ht Hf) as (s1 & snap & Hr1 & Hst1 & Hd1 & Hf1 & Hc1 & Hb1 & Hsd & Hsl & Hsq & Hsr & Hld).
  assert (Hmv : meta_valid (snap_meta snap)).
  { unfold meta_valid, snap_meta. cbn. rewrite Hsq, Hsl, Hsr, Hroot. pose proof (tr_size _ _ _ _ Hrep).
    pose proof (tr_max_size _ _ _ _ Hrep). split_and!; [done|apply as_u32_bound..|lia|lia|apply as_u32_bound|done]. }
  destruct (checkpoint_files_ok snap active_levels (data_files s1)) as (d2 & Hr2 & Hod); [by rewrite Hd1|done| | |].
  { by rewrite Hld, length_imap. }
  { intros k lv ld Hlv Hk. rewrite Hld, list_lookup_imap, Hlv in Hk. injection Hk as <-.
    split_and!; [by apply (active_level k lv)|done|]. rewrite Hd1. by apply Hset. }
  pose proof (describes_snap snap h Hroot Hsd Hsl Hsr) as Hdes.
  destruct (checkpoint_end_ok (snap_meta snap) (set_data d2 s1) snap) as (s3 & Hr3 & Hsh & Hd3 & Hw3 & Hb3 & Hn3); [done| | |done| |].
  { cbn [state set_data]. by rewrite Hst1. }
  { cbn [state set_data]. by rewrite Hst1. }
  { intros k ld Hk. rewrite Hld, list_lookup_imap in Hk. apply fmap_Some in Hk as (lv & Hlv & ->). by exists lv. }
  exists s3, (snap_meta snap). split_and!; [|by apply same_hashes_rep|done| |done|by rewrite Hd3|done|done].
  - unfold runs_to, checkpoint. rewrite (sm_bind_ok check_closed _ s s ()).
    2: { unfold runs_to, check_closed. by rewrite sm_get_bind, Hcl, Hbg. }
    unfold checkpoint_inner. rewrite (sm_bind_ok _ _ _ _ _ Hr1).
    rewrite (sm_bind_ok (on_dir _) _ s1 (set_data d2 s1) ()); [exact Hr3|].
    unfold runs_to, on_dir, sm_zoom. by rewrite Hr2.
  - rewrite Hn3. cbn [state set_data]. by rewrite Hst1.
Qed.

End tree.

(** Levels that represent something and hold hashes are good to write. *)
Lemma typed_levels_ok t xs :
  tree_rep nary max_depth t xs → tree_typed t → ∀ l lv, levels t !! l = Some lv → level_ok lv.
Proof.
  intros Hrep [Hty _] l lv Hl. split; [apply (proj2 (tr_levels _ _ _ _ Hrep) l lv Hl)|].
  rewrite Forall_lookup in Hty. destruct (Hty l lv Hl) as [Hs Hp]. unfold level_chunks. apply Forall_app_2; [|exact Hp].
  by apply Forall_join.
Qed.

(** ** Properties *)

(** C13. A checkpoint, without failing calls and with no insertion in between, returns and keeps the
    tree, and a directory reopened from its files and any log, torn or not, truncated or not, gives
    the tree over the checkpointed leaves and those of the log's later entries, verified or not.
    The chunks that earlier checkpoints counted as done must be on disk as they are in memory:
    [second_checkpoint_restores_stale_node] shows that the code does not see to it. *)
Theorem checkpoint_reopens s xs verify :
  tree_rep nary max_depth (tree (state s)) xs → tree_typed (tree (state s)) → xs ≠ [] →
  closed s = false → bg_error s = None → faults (wal_file s) = [] → calm (data_files s) →
  (0 < next_entry (state s) ≤ u64_max)%N →
  (∀ l lv, active_levels (tree (state s)) !! l = Some lv → settled data_dir (data_files s) l lv (already s l)) →
  ∃ s', checkpoint nary max_depth data_dir tiering s = (s', Returns (Ok ())) ∧
    tree_rep nary max_depth (tree (state s')) xs ∧ next_entry (state s') = next_entry (state s) ∧
    synced (wal_file s') = header_frame (as_u32 nary) (as_u32 max_depth) ∧
    ∀ es tl n,
      let bs := header_frame (as_u32 nary) (as_u32 max_depth) ++ log_bytes es ++ tl in
      let ys := xs ++ replayed (Some (next_entry (state s) - 1)%N) es in
      fits_vec bs → numbered n es → Forall entry_ok es → ends_log es tl →
      (N.of_nat (length ys) ≤ u64_max)%N → tree_depth nary ys ≤ max_depth →
      (next_number (next_entry (state s) - 1) es ≤ u64_max)%N →
      ∃ fd s'', open nary max_depth par data_dir verify (Ok true) (opened bs) (data_files s') = (fd, Returns (Ok s'')) ∧
        tree_rep nary max_depth (tree (state s'')) ys ∧ next_entry (state s'') = next_number (next_entry (state s) - 1) es ∧
        flushed s'' = Some (next_entry (state s'') - 1)%N.
Proof.
  intros Hrep Hty Hxs Hcl Hbg Hf Hc Hnext Hset.
  pose proof (typed_levels_ok _ _ Hrep Hty) as Hlv.
  destruct (tree_root_Some nary Hn xs Hxs (tr_max_size _ _ _ _ Hrep)) as (h & Hroot & _).
  rewrite <- (tr_root _ _ _ _ Hrep) in Hroot. pose proof (tt_root _ Hty h Hroot) as Hwf.
  destruct (checkpoint_ok (tree (state s)) xs Hrep Hxs Hlv s h eq_refl Hroot Hwf Hcl Hbg Hf Hc ltac:(lia) Hset)
    as (s' & meta & Hr & Hrep' & Hw & Hn' & _ & Hod & Hdes & Hseq).
  exists s'. split_and!; [exact Hr|done|done|by rewrite Hw|].
  intros es tl n bs ys Hv Hnum Hok Hend Hmax Hd Hnn. rewrite <- N.pred_sub, <- Hseq in Hnn |- *.
  subst bs ys. rewrite <- N.pred_sub, <- Hseq in Hmax, Hd |- *.
  by apply (open_checkpointed (tree (state s)) xs Hrep Hxs Hlv meta (data_files s') es tl n verify).
Qed.
End checkpoint.

(** ** Witness: the first checkpoint of two leaves *)

Module CheckpointEx.
Export Codec.Toy.
#[local] Existing Instance Hash.Toy.hasher.
#[local] Existing Instance Hash.Toy.hasher_laws.
#[local] Existing Instance iscsi.
#[local] Existing Instance iscsi_laws.

Definition dir : Path := ["data"%string].
Definition leaves : list hash := [ex_leaf 7; ex_leaf 8].
Definition ex_tree : TreeInner := (_insert_many 2 4 None leaves (tree_new 4)).1.
Definition start : Shared :=
  MkShared (MkDurable ex_tree [] 2 []) (cut_file 2 4 []) no_data (snapshot 4 ex_tree) (Some 1%N) false None 0 0 false 0.

Lemma ex_tree_rep : tree_rep 2 4 ex_tree leaves.
Proof.
  destruct (insert_many_spec 2 4 ltac:(lia) ltac:(lia) None [] leaves) with (t := tree_new 4) as (t' & r & Hr & Hrep & _);
    [done|vm_compute; discriminate|vm_compute; lia|apply tree_new_rep; lia|].
  unfold ex_tree. unfold runs_to in Hr. by rewrite Hr.
Qed.

Lemma ex_typed : tree_typed ex_tree.
Proof.
  destruct (_insert_many 2 4 None leaves (tree_new 4)) as [t r] eqn:Hr.
  assert (hashes_wf leaves) as Hwf by (repeat constructor; apply length_le_bytes).
  destruct (insert_many_typed 2 4 None leaves Hwf _ _ _ (tree_new_typed 4) Hr) as [Ht _]. unfold ex_tree. by rewrite Hr.
Qed.

Lemma ex_shape : shape_ok 2 4.
Proof. vm_compute. discriminate. Qed.
Lemma ex_header_fits h : header_frame_valid h → fits_frame (wc_serialize h).
Proof.
  destruct h as [magic n md cs]. intros (Hm & _). cbn [wc_serialize header_frame_codec header_frame_bytes].
  rewrite !length_app, !length_le_bytes, Hm. vm_compute. discriminate.
Qed.
Lemma ex_meta_fits m : meta_frame_valid m → fits_frame (wc_serialize m).
Proof.
  destruct m as [magic n md seq leaves d r]. intros (Hm & _ & _ & _ & _ & _ & Hr).
  cbn [wc_serialize meta_frame_codec meta_frame_bytes]. rewrite !length_app, !length_le_bytes, Hm, Hr. vm_compute. discriminate.
Qed.

Lemma checkpoint_reopens_witness :
  ∃ s', checkpoint 2 4 dir tiering_default start = (s', Returns (Ok ())) ∧
    ∃ fd s'', open 2 4 None dir true (Ok true) (opened (header_frame 2 4)) (data_files s') = (fd, Returns (Ok s'')) ∧
      tree_rep 2 4 (tree (state s'')) leaves ∧ next_entry (state s'') = 2%N.
Proof.
  destruct (checkpoint_reopens 2 4 None dir tiering_default ltac:(lia) ltac:(lia) ex_shape ex_header_fits ex_meta_fits
    ltac:(unfold u32_max; lia) start leaves true ex_tree_rep ex_typed) as (s' & Hr & _ & _ & _ & Hopen).
  - discriminate.
  - reflexivity.
  - reflexivity.
  - reflexivity.
  - reflexivity.
  - vm_compute. split; [reflexivity|discriminate].
  - intros l lv _ i hs Hi. exfalso. revert Hi. apply Nat.nlt_0_r.
  - exists s'. split; [exact Hr|].
    assert (fits_vec (header_frame 2 4 ++ log_bytes [] ++ [])) as Hv by (vm_compute; discriminate).
    destruct (Hopen [] [] 0%N Hv I (List.Forall_nil _) (ends_log_nil [])) as (fd & s'' & Ho & Hrep & Hn & _).
    + vm_compute. discriminate.
    + apply Nat.leb_le. vm_compute. reflexivity.
    + vm_compute. discriminate.
    + exists fd, s''. split; [exact Ho|]. split; [exact Hrep|exact Hn].
Defined.
End CheckpointEx.
