(* ===== verification/MerkleLog.v ===== *)
(** * The Merkle log

    [crates/examples/examples/merkle_log.rs] joins two of the libraries: chainfold orders the events of
    a chain and folds one leaf per event, rotortree keeps the leaves at or below the engine's durable
    point in an append-only accumulator, and the fold forgets the leaves the accumulator has synced.
    This file models the program; the theorems are in [MerkleLogSpec]. The source and the sink are
    those of a driver, which the program takes to be the scripted chain and the flusher; the hasher is
    a parameter, which it takes to be BLAKE3. *)
From stdpp Require Import strings.
From S2P Require Import Prelude Hash ChunkedLevel Tree MerkleProof Checksum Vfs Frame Wal WalFile Recovery DataFiles CheckpointRecovery RotorTree.
From S2P Require Import Position Batch Ring Checkpoint ChainError Engine Driver Snapshot Scripted.

(** ** Constants *)

Definition ARITY : nat := 4.
Definition MAX_DEPTH : nat := 12.
Definition RING_CAPACITY : nat := 32.
Definition CHECKPOINT_SLOTS : nat := 4.
Definition CHECKPOINT_INTERVAL : N := 4.
Definition BASE_LEN : nat := 8.
Definition LEAF_LEN : nat := 32.

(** ** The fold *)

(** [MerkleLog]: the leaves from the absolute index [base] on. *)
Record MerkleLog := MkMerkleLog { base : nat; leaves : list hash }.

(** [MerkleLog::default]. *)
Definition log_default : MerkleLog := MkMerkleLog 0 [].

(** [MerkleLog::folded]. *)
Definition folded (self : MerkleLog) : nat := base self + length (leaves self).

(** [MerkleLog::prune]. *)
Definition prune (durable : nat) (self : MerkleLog) : MerkleLog :=
  let drop_ := Nat.min (durable - base self) (length (leaves self)) in
  MkMerkleLog (base self + drop_) (drop drop_ (leaves self)).

(** [leaf]: three little-endian words and eight reserved bytes. *)
Definition leaf (pos : Position) (event : N) : hash :=
  le_bytes 8 (block pos) ++ le_bytes 8 (log_index pos) ++ le_bytes 8 event ++ replicate 8 x00.

(** [MerkleLog::apply]. *)
Definition log_apply (self : MerkleLog) (pos : Position) (event : N)
    : MerkleLog * outcome (result () (FoldError Empty_set)) :=
  (MkMerkleLog (base self) (leaves self ++ [leaf pos event]), Returns (Ok ())).
#[export] Instance log_fold : Fold MerkleLog N Empty_set := log_apply.

(** [MerkleLog::encode_state] and [decode_state]. *)
Definition log_encode_state (self : MerkleLog) : bytes :=
  le_bytes BASE_LEN (N.of_nat (base self)) ++ mjoin (leaves self).
Definition log_decode_state (bs : bytes) : result MerkleLog () :=
  if length bs <? BASE_LEN then Err () else
  let ls := drop BASE_LEN bs in
  if negb (length ls mod LEAF_LEN =? 0) then Err () else
  Ok (MkMerkleLog (N.to_nat (le_value (take BASE_LEN bs))) (exact_chunks LEAF_LEN ls)).
#[export] Instance log_persist : Persist MerkleLog () := {|
  STATE_TAG := String.list_byte_of_string "example.merkle-log.v1";
  encode_state := log_encode_state;
  decode_state := log_decode_state;
|}.

(** ** The indexer *)

(** [expect] on a call's result. *)
Definition sm_unwrap {S E E' A} (m : SM S E A) : SM S E' A :=
  r ← sm_result m;
  match r with Ok a => mret a | Err _ => sm_expect None end.

(** The slice [l[lo..hi]]; [None] where it panics. *)
Definition slice_range {A} (lo hi : nat) (l : list A) : option (list A) :=
  if (lo <=? hi) && (hi <=? length l) then Some (slice lo (hi - lo) l) else None.

(** [Indexer]; a durability token is the number of its log entry. *)
Record Indexer (St K : Type) := MkIndexer {
  driver : Driver MerkleLog N St K;
  tree : Shared;
  pending : option (N * nat);
}.
Arguments MkIndexer {St K} _ _ _.
Arguments driver {St K} _.
Arguments tree {St K} _.
Arguments pending {St K} _.

Section indexer.
Context {St SE K : Type} `{!Source St N SE} `{!SnapshotSink K MerkleLog}.
Context `{!Hasher} (par : option nat).
Context `{!Checksum, Wincode WalHeader, Wincode WalEntry, Wincode HeaderFrame, Wincode MetaFrame, !Codec}.
Context (data_dir : Path).
Implicit Types i : Indexer St K.

(** Assignments to fields. *)
Definition put_driver (d : Driver MerkleLog N St K) i : Indexer St K := MkIndexer d (tree i) (pending i).
Definition put_tree (t : Shared) i : Indexer St K := MkIndexer (driver i) t (pending i).
Definition put_pending (p : option (N * nat)) i : Indexer St K := MkIndexer (driver i) (tree i) p.

(** Calls on the driver and on the tree. *)
Definition on_driver {E A} (m : SM (Driver MerkleLog N St K) E A) : SM (Indexer St K) E A :=
  sm_zoom (λ i, Some (driver i)) put_driver m.
Definition on_accumulator {E A} (m : SM Shared E A) : SM (Indexer St K) E A :=
  sm_zoom (λ i, Some (tree i)) put_tree m.

(** [Indexer::size]; [usize] has 64 bits. *)
Definition size i : nat := N.to_nat (rotor_size (tree i)).

(** [Indexer::root], which panics on an empty accumulator. *)
Definition root i : outcome hash := expect (rotor_root (tree i)).

(** [Indexer::commit]. *)
Definition commit : SM (Indexer St K) Empty_set (option (N * nat)) :=
  i ← sm_get;
  match durable_fold (engine (driver i)) with
  | None => mret None
  | Some durable =>
    let finalized := folded durable in
    let committed := size i in
    if finalized <=? committed then mret None else
    let log := fold (engine (driver i)) in
    lo ← sm_expect (usize_checked_sub committed (base log));
    hi ← sm_expect (usize_checked_sub finalized (base log));
    ls ← sm_expect (slice_range lo hi (leaves log));
    r ← sm_unwrap (on_accumulator (insert_many ARITY MAX_DEPTH par OnClose ls));
    mret (Some (r.2, finalized))
  end.

(** [self.pending = self.commit().or(self.pending.take())]. *)
Definition commit_pending : SM (Indexer St K) Empty_set () :=
  new ← commit;
  sm_modify (λ i, put_pending (match new with Some p => Some p | None => pending i end) i).

(** [Indexer::prune]. *)
Definition prune_durable i : Indexer St K :=
  match pending i with
  | Some (token, durable) =>
    if negb (is_durable token (tree i)) then i
    else put_driver (engine_mut (λ e, set_fold (prune durable (fold e)) e) (driver i)) i
  | None => i
  end.

(** A turn of the loop of [Indexer::sync]; [true] when it returns. *)
Definition sync_turn : SM (Indexer St K) Empty_set bool :=
  t ← on_driver tick;
  commit_pending;;
  sm_modify prune_durable;;
  match t with
  | Idle =>
    sm_unwrap (on_accumulator flush);;
    sm_modify prune_durable;;
    mret true
  | RolledBack _ | Progressed _ | SourceError | TickDurabilityLost => mret false
  | Resynced | Terminal _ => sm_expect None
  end.

(** [Indexer::sync]; [false] when the fuel ends first. *)
Fixpoint sync (fuel : nat) : SM (Indexer St K) Empty_set bool :=
  match fuel with
  | O => mret false
  | S fuel => returned ← sync_turn; if (returned : bool) then mret true else sync fuel
  end.

(** The driver of [Indexer::open], on what the snapshot store recovered. *)
Definition open_driver (recovered : option bytes) (chain : St) (sink : K)
    : outcome (Driver MerkleLog N St K) :=
  let ec := MkEngineConfig RING_CAPACITY CHECKPOINT_SLOTS in
  let dc := driver_config_default in
  let dc := MkDriverConfig (start_block dc) (poll_interval dc) (backoff_base dc) (backoff_max dc)
    (Some CHECKPOINT_INTERVAL) (Some CHECKPOINT_INTERVAL) in
  let built :=
    match recovered with
    | Some snapshot =>
      match decode_snapshot (PE := ()) snapshot ec with
      | Ok e => Some (around e chain sink log_default dc)
      | Err _ => None
      end
    | None => Some (build log_default chain sink ec dc)
    end in
  match built with Some (Ok d) => Returns d | _ => Panics end.

(** [Indexer::open]: [lock] is what locking the log gave, [recovered] and [sink] what opening the
    snapshot store and spawning the flusher gave. *)
Definition open_indexer (lock : result bool ()) (f : File) (d : Dir) (recovered : option bytes) (chain : St) (sink : K)
    : outcome (Indexer St K) :=
  match RotorTree.open ARITY MAX_DEPTH par data_dir true lock f d with
  | (_, Returns (Ok t)) => driver ← open_driver recovered chain sink; Returns (MkIndexer driver t None)
  | _ => Panics
  end.

(** [Indexer::close] up to the sink's [join]; [None] while the wait for the pending token blocks. *)
Definition close (tiering : TieringConfig) i : option (Indexer St K * outcome St) :=
  if match pending i with Some (token, _) => negb (is_durable token (tree i)) | None => false end then None else
  Some match sm_unwrap (E' := Empty_set) (on_accumulator (close_inner ARITY MAX_DEPTH data_dir OnClose tiering)) i with
  | (i, Returns _) => (i, Returns (source (driver i)))
  | (i, Panics) => (i, Panics)
  end.

(** ** The assertion *)

(** The loop of [Indexer::assert_committed_prefix]. *)
Fixpoint assert_leaves (s : TreeSnapshot) (index : nat) (ls : list hash) : outcome () :=
  match ls with
  | [] => Returns ()
  | l :: ls =>
    match get_node s 0 index with
    | Some (Ok committed) => if bool_decide (committed = l) then assert_leaves s (S index) ls else Panics
    | _ => Panics
    end
  end.

(** [Indexer::assert_committed_prefix]. *)
Definition assert_committed_prefix (old_size : nat) (old_root : hash) i : outcome () :=
  let log := fold (engine (driver i)) in
  let snapshot := published (tree i) in
  if negb (base log <=? size i) then Panics else
  assert_leaves snapshot (base log) (take (Nat.min (size i - base log) (length (leaves log))) (leaves log));;
  match generate_consistency_proof ARITY MAX_DEPTH snapshot (N.of_nat old_size) old_root with
  | Some (Ok proof) =>
    match verify_transition ARITY MAX_DEPTH proof old_root with Ok true => Returns () | _ => Panics end
  | _ => Panics
  end.

End indexer.

(** [extend]: two events on every second block, from a counter that stays below [u64]. *)
Definition extend (chain : ScriptedChain) (blocks : N) (tag : N) : outcome ScriptedChain :=
  push_all chain ((λ b : nat,
    if (N.of_nat b mod 2 =? 0)%N then [tag + N.of_nat b * 10; tag + N.of_nat b * 10 + 1]%N else [])
    <$> seq 0 (N.to_nat blocks)).
