(* ===== verification/MerkleLogSpec.v ===== *)
(** The contract of the Merkle log: the accumulator holds a prefix of the log the fold stands for, and
    what it has committed is never rewritten within a session, whatever the source does. *)
From stdpp Require Import strings.
From S2P Require Import Prelude Convergence Hash ChunkedLevel Tree TreeSpec TreeTypes MerkleProof ProofSpec.
From S2P Require Import Checksum Vfs Frame Wal WalFile Recovery DataFiles CheckpointRecovery RotorTree RotorSpec Codec.
From S2P Require Import Position Batch Ring Checkpoint ChainError Engine EngineSpec Driver DriverSpec DriverSafety.
From S2P Require Import Snapshot Scripted Lineage MerkleLog.

(** ** Specification: the log a fold stands for *)

(** The whole log of a fold whose forgotten leaves are the first ones of the accumulator. *)
Definition full (A : list hash) (f : MerkleLog) : list hash := take (base f) A ++ leaves f.

(** A fold whose log is further along. *)
Definition extends (A : list hash) (f g : MerkleLog) : Prop := full A f `prefix_of` full A g.

#[export] Instance extends_preorder A : PreOrder (extends A).
Proof. split; [by intros f; unfold extends|]. intros f g h. unfold extends. apply transitivity. Qed.

(** A fold that the first [n] leaves of the accumulator complete, to a log that starts with all of them. *)
Definition completes (n : nat) (A : list hash) (f : MerkleLog) : Prop :=
  base f ≤ n ≤ length A ∧ A `prefix_of` full A f.

(** ** Lemmas: the fold *)

Lemma full_apply A f p ev : full A (fold_apply f p ev).1 = full A f ++ [leaf p ev].
Proof. unfold full. simpl. by rewrite app_assoc. Qed.

Lemma extends_apply A f p (ev : N) : extends A f (fold_apply f p ev).1.
Proof. unfold extends. rewrite full_apply. apply prefix_app_r. done. Qed.

Lemma length_full n A f : completes n A f → length (full A f) = folded f.
Proof. intros [Hb _]. unfold full, folded. rewrite length_app, length_take. lia. Qed.

(** More leaves in the accumulator complete a fold to the same log. *)
Lemma full_more A xs f n : completes n A f → full (A ++ xs) f = full A f.
Proof. intros [Hb _]. unfold full. by rewrite take_app_le by lia. Qed.

(** Fewer leaves do, too, if they reach the fold's base. *)
Lemma full_fewer A m f : base f ≤ m → full (take m A) f = full A f.
Proof. intros Hb. unfold full. by rewrite take_take, Nat.min_l. Qed.

Lemma completes_extends n A f g : completes n A f → base g = base f → extends A f g → completes n A g.
Proof. intros [Hb Hp] Heq Hext. split; [by rewrite Heq|]. etrans; [exact Hp|exact Hext]. Qed.

(** Leaves at or below the base a fold retains are those of the accumulator. *)
Lemma retained A f n : completes n A f → drop (base f) A `prefix_of` leaves f.
Proof.
  intros [Hb [k Hk]]. exists k. unfold full in Hk. rewrite <- (take_drop (base f) A) in Hk at 2.
  rewrite <- app_assoc in Hk. by apply app_inv_head in Hk.
Qed.

(** Forgetting what the accumulator holds does not change the log. *)
Lemma full_prune A f n m :
  completes n A f → m ≤ length A → full A (prune m f) = full A f ∧ base (prune m f) ≤ Nat.max (base f) m.
Proof.
  intros Hc Hm. pose proof (retained _ _ _ Hc) as [k Hk]. destruct Hc as [Hb _].
  unfold full, prune. cbn [base leaves]. set (d := Nat.min (m - base f) (length (leaves f))). split; [|lia].
  rewrite <- take_take_drop, <- app_assoc. f_equal.
  assert (take d (drop (base f) A) = take d (leaves f)) as ->.
  { rewrite Hk. rewrite take_app_le; [done|]. rewrite length_drop. lia. }
  apply take_drop.
Qed.

(** The slice that [commit] takes is in range, and brings the accumulator to the durable log. *)
Lemma commit_slice n A f g :
  completes n A f → completes n A g → extends A g f → length A < folded g →
  ∃ xs, slice_range (length A - base f) (folded g - base f) (leaves f) = Some xs ∧ A ++ xs = full A g ∧ xs ≠ [].
Proof.
  intros Hf Hg Hext Hlt. pose proof (length_full _ _ _ Hf) as Hlf. pose proof (length_full _ _ _ Hg) as Hlg.
  pose proof (prefix_length _ _ Hext) as Hle. pose proof (retained _ _ _ Hf) as [k Hk].
  destruct Hf as [Hbf _], Hg as [Hbg [xs Hxs]].
  exists xs. unfold slice_range.
  rewrite (proj2 (Nat.leb_le _ _)) by lia. rewrite (proj2 (Nat.leb_le _ _)) by (unfold folded in *; lia).
  cbn [andb]. split_and!; [|done|].
  - f_equal. unfold slice. destruct Hext as [ys Hys]. unfold extends in Hys. rewrite Hxs in Hys.
    unfold full in Hys at 1. rewrite <- (take_drop (base f) A) in Hys at 2. rewrite <- !app_assoc in Hys.
    apply app_inv_head in Hys. rewrite Hys. rewrite drop_app_length' by (rewrite length_drop; lia).
    apply take_app_length'. apply (f_equal length) in Hxs. rewrite length_app in Hxs. lia.
  - intros ->. rewrite app_nil_r in Hxs. apply (f_equal length) in Hxs. lia.
Qed.

(** ** Lemmas: the state codec *)

Lemma leaf_wf p ev : hash_wf (leaf p ev).
Proof. unfold leaf. by rewrite !length_app, !length_le_bytes. Qed.

(** A fold whose base fits its word survives the state codec. *)
Lemma log_codec_roundtrip f :
  (N.of_nat (base f) ≤ u64_max)%N → Forall hash_wf (leaves f) → log_decode_state (log_encode_state f) = Ok f.
Proof.
  intros Hb Hl. unfold log_decode_state, log_encode_state. unfold BASE_LEN, LEAF_LEN.
  rewrite length_app, length_le_bytes. destruct (_ <? 8) eqn:Hlt; nbool; [lia|].
  rewrite drop_app_length', take_app_length' by (by rewrite length_le_bytes).
  assert (mjoin (leaves f) = leaves f ≫= id) as ->.
  { clear. induction (leaves f) as [|x l IH]; [done|]. rewrite bind_cons, <- IH. done. }
  assert (length (leaves f ≫= id) = length (leaves f) * 32) as ->.
  { clear -Hl. induction Hl as [|x l Hx _ IH]; [done|]. rewrite bind_cons, length_app, IH. simpl. lia. }
  rewrite Nat.Div0.mod_mul. cbn [Nat.eqb negb]. rewrite exact_chunks_bind by (lia || done).
  rewrite list_fmap_id, le_value_bytes, N.mod_small by (unfold u64_max in Hb; simpl; lia). rewrite Nat2N.id. by destruct f.
Qed.

(** ** The accumulator *)

(** What the flush thread does while the indexer runs; the environment decides which of its calls on
    the log fail. *)
Inductive background : Shared → Flight → Shared → Flight → Prop :=
| bg_faults s fl fs : background s fl (set_wal (with_faults fs (wal_file s)) s) fl
| bg_take s s' buf last_seq :
    flush_take (E := StorageError) s = (s', Returns (Ok (Some (buf, last_seq)))) →
    background s RotorSpec.Idle s' (Taken buf last_seq)
| bg_write s s' buf last_seq :
    flush_write buf s = (s', Returns (Ok (Ok ()))) → background s (Taken buf last_seq) s' (Written last_seq)
| bg_restore s s1 s' buf last_seq e r :
    flush_write buf s = (s1, Returns (Ok (Err e))) → flush_restore buf e s1 = (s', r) →
    background s (Taken buf last_seq) s' RotorSpec.Idle
| bg_sync s s1 s' last_seq q r :
    sm_result (E' := StorageError) (on_file fs_sync_data) s = (s1, Returns (Ok q)) →
    flush_finish last_seq q s1 = (s', r) → background s (Written last_seq) s' RotorSpec.Idle.

(** The first [n] leaves are in entries that were reported durable. *)
Definition covered (n : nat) (s : Shared) (es : list WalEntryV1) : Prop :=
  n = 0 ∨ ∃ token, is_durable token s = true ∧ n ≤ length (replayed None (take (S (N.to_nat token)) es)).

Definition keeps_durable (s s' : Shared) : Prop := ∀ token, is_durable token s = true → is_durable token s' = true.

Lemma covered_mono n s s' es es' :
  keeps_durable s s' → es `prefix_of` es' → covered n s es → covered n s' es'.
Proof.
  intros Hk [l ->] [->|(token & Ht & Hn)]; [by left|right]. exists token. split; [by apply Hk|].
  rewrite take_app, replayed_app, length_app. lia.
Qed.

Lemma covered_max n m s es : covered n s es → covered m s es → covered (Nat.max n m) s es.
Proof. intros Hn Hm. destruct (Nat.max_spec n m) as [[_ ->]|[_ ->]]; done. Qed.

Lemma keeps_durable_flushed s s' : flushed s' = flushed s → keeps_durable s s'.
Proof. intros Hf token. unfold is_durable. by rewrite Hf. Qed.

Lemma mark_flushed_keeps seq s : keeps_durable s (mark_flushed seq s).
Proof.
  intros token. unfold is_durable, mark_flushed. destruct (flushed s) as [f|] eqn:Hf; [|done].
  destruct (seq <=? f)%N eqn:Hle; [by rewrite Hf|]. simpl. nbool. intros. nbool. apply N.leb_le. lia.
Qed.

(** Every entry adds a leaf. *)
Lemma entries_have_leaves `{!Checksum, Wincode WalEntry} (es : list WalEntryV1) :
  Forall entry_ok es → length es ≤ length (replayed None es).
Proof.
  induction 1 as [|e es [_ He] _ IH]; [done|]. change (replayed None (e :: es)) with (entry_leaves (payload e) ++ replayed None es).
  rewrite length_app. simpl. destruct (entry_leaves (payload e)); [done|]. simpl. lia.
Qed.

Section accumulator.
Context `{HL : HasherLaws} (par : option nat).
Context `{Checksum, Wincode WalHeader, Wincode WalEntry, Wincode HeaderFrame, Wincode MetaFrame}.
Context `{!ChecksumLaws _, !WincodeLaws WalHeader _ header_valid, !WincodeLaws WalEntry _ entry_valid}.
Context (data_dir : Path) (Hshape : shape_ok ARITY MAX_DEPTH).

Abbreviation tree_rep := (tree_rep ARITY MAX_DEPTH).
Abbreviation reach := (reach ARITY MAX_DEPTH par data_dir OnClose).
Abbreviation insert_many := (insert_many ARITY MAX_DEPTH par OnClose).

Lemma arity_ok : 2 ≤ ARITY. Proof. unfold ARITY. lia. Qed.
Lemma depth_ok : 1 ≤ MAX_DEPTH. Proof. unfold MAX_DEPTH. lia. Qed.

(** A tree that logged these entries and holds these leaves, which readers see. *)
Record accumulates (s : Shared) (fl : Flight) (es : list WalEntryV1) (A : list hash) : Prop := {
  ac_reach : reach s fl es;
  ac_tree : tree_rep (RotorTree.tree (state s)) A;
  ac_log : replayed None es = A;
  ac_published : published s = snapshot MAX_DEPTH (RotorTree.tree (state s));
}.

Lemma accumulates_size s fl es A : accumulates s fl es A → rotor_size s = N.of_nat (length A).
Proof. intros [_ Ht _ Hp]. unfold rotor_size. rewrite Hp. apply (snapshot_rep ARITY MAX_DEPTH arity_ok depth_ok _ _ Ht). Qed.

Lemma accumulates_root s fl es A : accumulates s fl es A → rotor_root s = tree_root ARITY A.
Proof. intros [_ Ht _ Hp]. unfold rotor_root. rewrite Hp. apply (snapshot_rep ARITY MAX_DEPTH arity_ok depth_ok _ _ Ht). Qed.

Lemma opened_accumulates v fd s :
  RotorTree.open ARITY MAX_DEPTH par data_dir v (Ok true) (opened []) no_data = (fd, Returns (Ok s)) →
  accumulates s RotorSpec.Idle [] [].
Proof.
  intros Ho. pose proof Ho as Hr. apply (reach_open ARITY MAX_DEPTH par data_dir OnClose) in Hr.
  destruct (open_fresh ARITY MAX_DEPTH par data_dir arity_ok depth_ok Hshape v) as (t & Ht & Hrep).
  rewrite Ht in Ho. injection Ho as _ <-. by split.
Qed.

(** A batch longer than a word counts is refused: the tree is not that deep. *)
Lemma insert_overlong A ls t :
  tree_rep t A → (u64_max < N.of_nat (length ls))%N →
  ∃ e, _insert_many ARITY MAX_DEPTH par ls t = (t, Returns (Err e)).
Proof.
  intros [_ _ Hsize _ _ _] Hlen. unfold _insert_many. rewrite bool_decide_false by (intros ->; simpl in Hlen; lia).
  unfold mbind, sm_bind, sm_get, sm_try, u64_checked_add. rewrite Hsize, N.min_r by lia.
  destruct A as [|x A]; [|rewrite (proj2 (N.leb_gt _ _)) by (simpl length; lia); by eexists].
  change (ceil_log_n (N.of_nat (length (@nil hash)) + u64_max) ARITY) with 32.
  rewrite (proj2 (N.leb_le _ _)) by (simpl; lia). eexists. vm_compute. reflexivity.
Qed.

(** An insertion that succeeds logs one entry with its leaves. *)
Lemma insert_accumulates s fl es A ls s' h token :
  accumulates s fl es A → Forall hash_wf ls →
  insert_many ls s = (s', Returns (Ok (h, token))) →
  accumulates s' fl (es ++ [MkEntry token (Batched (Borrowed ls))]) (A ++ ls) ∧ N.to_nat token = length es ∧
    keeps_durable s s'.
Proof.
  intros [Hreach Htree Hlog Hpub] Hls Hins.
  pose proof (reach_inv ARITY MAX_DEPTH par data_dir OnClose arity_ok depth_ok Hshape _ _ _ Hreach) as (du & wr & fy & bu & junk & xs & Hes & Hli).
  assert (next_entry (state s) = N.of_nat (length es)) as Hnext by (rewrite Hes; by eapply li_next).
  pose proof Hins as Hins0. unfold RotorTree.insert_many in Hins. unfold mbind at 1, sm_bind at 1, sm_map_err at 1 in Hins.
  destruct (check_closed_pure s) as (o & Ho & _). rewrite Ho in Hins. destruct o as [[]|]; [|done]. cbn [map_err] in Hins.
  unfold mbind at 1, sm_bind at 1, sm_map_err at 1, on_tree, sm_zoom in Hins.
  destruct (decide (N.of_nat (length ls) ≤ u64_max)%N) as [Hlen|Hlen].
  2: { destruct (insert_overlong A ls _ Htree) as [e He]; [lia|]. by rewrite He in Hins. }
  destruct (insert_many_refused ARITY MAX_DEPTH arity_ok depth_ok par A ls _ Htree Hlen) as (Hemp & Hcap & Hdep).
  destruct (decide (ls = [])) as [->|Hne]; [rewrite Hemp in Hins by done; done|].
  destruct (decide (N.of_nat (length (A ++ ls)) ≤ u64_max)%N) as [Hmax|Hmax]; [|rewrite Hcap in Hins by (done || lia); done].
  destruct (decide (tree_depth ARITY (A ++ ls) ≤ MAX_DEPTH)) as [Hd|Hd]; [|rewrite Hdep in Hins by (done || lia); done].
  destruct (insert_many_spec ARITY MAX_DEPTH arity_ok depth_ok par A ls Hne Hmax Hd _ Htree) as (t & root & Ht & Hrep & _).
  rewrite Ht in Hins. cbn [map_err] in Hins.
  assert (next_entry (state s) < u64_max)%N as Hlt.
  { assert (length (replayed None es) = length A) as HA by by rewrite Hlog.
    assert (length es ≤ length A) as Hle.
    { rewrite <- HA. apply entries_have_leaves. rewrite Hes. by eapply li_entries. }
    rewrite length_app in Hmax. destruct ls; [done|]. simpl in Hmax. lia. }
  unfold mbind at 1, sm_bind at 1 in Hins. rewrite (log_entry_eq ARITY MAX_DEPTH arity_ok depth_ok) in Hins by exact Hlt.
  case_bool_decide as Hfits; [|done]. unfold mbind, sm_bind, sm_modify, mret, sm_ret in Hins.
  injection Hins as Hs' _ Htok. cbn [state set_state next_entry set_tree] in Htok.
  assert (token = next_entry (state s)) as -> by done. split_and!.
  - assert (insert_many ls s = (s', Returns (Ok (h, next_entry (state s))))) as Hins1 by exact Hins0.
    split.
    + exact (reach_insert_many ARITY MAX_DEPTH par data_dir OnClose _ _ _ _ _ _ Hreach Hlt Hls Hlen Hins1).
    + rewrite <- Hs'. exact Hrep.
    + by rewrite replayed_snoc, Hlog.
    + by rewrite <- Hs'.
  - rewrite Hnext. lia.
  - apply keeps_durable_flushed. by rewrite <- Hs'.
Qed.

(** The flush thread leaves the tree and the entries alone. *)
Lemma background_accumulates s fl s' fl' es A :
  accumulates s fl es A → background s fl s' fl' → accumulates s' fl' es A ∧ keeps_durable s s'.
Proof.
  intros [Hreach Htree Hlog Hpub] Hbg.
  pose proof (reach_inv ARITY MAX_DEPTH par data_dir OnClose arity_ok depth_ok Hshape _ _ _ Hreach) as (du & wr & fy & bu & junk & xs & Hes & Hli).
  assert (∀ buf last_seq, fl = Taken buf last_seq → ∃ f r, flush_write buf s = (set_wal f s, Returns (Ok r))) as Hwrite.
  { intros buf last_seq ->. destruct (li_flight _ _ _ _ _ _ _ _ _ _ Hli) as (-> & _ & Hj & _).
    destruct (flush_write_spec s _ _ _ (li_content _ _ _ _ _ _ _ _ _ _ Hli) (li_cursor _ _ _ _ _ _ _ _ _ _ Hli) Hj)
      as (f & r & Hw & _). by exists f, r. }
  assert (reach s' fl' es) as Hreach'.
  { destruct Hbg; [by apply reach_faults|by eapply reach_take|by eapply reach_write|by eapply reach_restore|by eapply reach_sync]. }
  assert (RotorTree.tree (state s') = RotorTree.tree (state s) ∧ published s' = published s ∧ keeps_durable s s') as (Ht & Hp & Hk).
  { destruct Hbg as [s fl fs|s s' buf last_seq Htake|s s' buf last_seq Hw|s s1 s' buf last_seq e r Hw Hrestore|s s1 s' last_seq q r Hs Hfin].
    - split_and!; [done..|by apply keeps_durable_flushed].
    - unfold flush_take, sm_step in Htake. case_bool_decide; [done|]. injection Htake as <- _ _.
      split_and!; [done..|by apply keeps_durable_flushed].
    - destruct (Hwrite _ _ eq_refl) as (f & r & Hf). rewrite Hf in Hw. injection Hw as <- _.
      split_and!; [done..|by apply keeps_durable_flushed].
    - destruct (Hwrite _ _ eq_refl) as (f & r' & Hf). rewrite Hf in Hw. injection Hw as <- _.
      unfold flush_restore, mbind, sm_bind, sm_modify, sm_fail in Hrestore. injection Hrestore as <- _.
      split_and!; [done..|by apply keeps_durable_flushed].
    - destruct (sync_outcome s) as (f & q' & Hf). rewrite Hf in Hs. injection Hs as <- <-.
      unfold flush_finish in Hfin. destruct q' as [[]|]; unfold sm_modify, mbind, sm_bind, sm_fail in Hfin; injection Hfin as <- _.
      + split_and!; [unfold mark_flushed; by repeat case_match..|exact (mark_flushed_keeps last_seq (set_wal f s))].
      + split_and!; [done..|by apply keeps_durable_flushed]. }
  split; [|done]. split; [done|by rewrite Ht|done|by rewrite Hp, Ht].
Qed.

(** A flush of the indexer is the flush thread's work, done at once. *)
Lemma flush_accumulates s es A s' :
  accumulates s RotorSpec.Idle es A → RotorTree.flush s = (s', Returns (Ok ())) →
  accumulates s' RotorSpec.Idle es A ∧ keeps_durable s s'.
Proof.
  intros Hacc Hflush. unfold RotorTree.flush in Hflush. unfold mbind at 1, sm_bind at 1 in Hflush.
  destruct (check_closed_pure s) as (o & Ho & _). rewrite Ho in Hflush. destruct o as [[]|]; [|done].
  unfold flush_inner in Hflush. unfold mbind at 1, sm_bind at 1 in Hflush.
  destruct (flush_take (E := StorageError) s) as [s1 [[[[buf last_seq]|]|]|]] eqn:Htake; try done.
  2: { unfold flush_take, sm_step in Htake. case_bool_decide; [|done]. injection Htake as <-. injection Hflush as <-.
       split; [done|by apply keeps_durable_flushed]. }
  destruct (background_accumulates _ _ _ _ _ _ Hacc (bg_take _ _ _ _ Htake)) as [Hacc1 Hk1].
  unfold mbind at 1, sm_bind at 1 in Hflush. destruct (flush_write buf s1) as [s2 [[[[]|e]|]|]] eqn:Hw; try done.
  destruct (background_accumulates _ _ _ _ _ _ Hacc1 (bg_write _ _ _ _ Hw)) as [Hacc2 Hk2].
  unfold mbind at 1, sm_bind at 1 in Hflush. destruct (sync_outcome s2) as (f & q & Hs). rewrite Hs in Hflush.
  destruct (background_accumulates _ _ _ _ _ _ Hacc2 (bg_sync _ _ _ _ _ _ Hs Hflush)) as [Hacc3 Hk3].
  split; [done|]. intros token Ht. by apply Hk3, Hk2, Hk1.
Qed.

(** What a crash leaves opens to a prefix of the leaves, with all that were reported durable. *)
Lemma crash_accumulates v s fl es A bs :
  accumulates s fl es A → crash_leaves (wal_file s) bs → fits_vec bs →
  ∃ fd s' m, RotorTree.open ARITY MAX_DEPTH par data_dir v (Ok true) (opened bs) no_data = (fd, Returns (Ok s')) ∧
    accumulates s' RotorSpec.Idle (take m es) (replayed None (take m es)) ∧
    ∀ n, covered n s es → n ≤ length (replayed None (take m es)).
Proof.
  intros [Hreach Htree Hlog Hpub] Hcrash Hv.
  pose proof (reach_inv ARITY MAX_DEPTH par data_dir OnClose arity_ok depth_ok Hshape _ _ _ Hreach)
    as (du & wr & fy & bu & junk & xs & Hes & Hli).
  destruct (open_crashed ARITY MAX_DEPTH par data_dir arity_ok depth_ok Hshape v _ _ _ _ _ _ _ _ bs Hli Hcrash Hv)
    as (m & t & Ho & [Hdm Hm] & Hrep & _). rewrite <- Hes in Ho, Hrep, Hm.
  set (s' := opened_state ARITY MAX_DEPTH t (take m es)) in *.
  assert (next_entry (state s') = N.of_nat m ∧ RotorTree.tree (state s') = t ∧ published s' = snapshot MAX_DEPTH t)
    as (Hn & Ht & Hp).
  { unfold s', opened_state. rewrite length_take, Nat.min_l by done. by destruct (0 <? N.of_nat m)%N. }
  eexists _, s', m. split; [exact Ho|]. split.
  - assert (reach s' RotorSpec.Idle (take (N.to_nat (next_entry (state s'))) es)) as Hr by (by eapply reach_crash).
    rewrite Hn, Nat2N.id in Hr. split; [done|by rewrite Ht|done|by rewrite Hp, Ht].
  - intros n [->|(token & Htok & Hle)]; [lia|]. etrans; [exact Hle|]. unfold is_durable in Htok.
    rewrite (li_flushed _ _ _ _ _ _ _ _ _ _ Hli) in Htok. destruct (length du) as [|k] eqn:Hk; [done|]. nbool.
    assert (take (S (N.to_nat token)) es = take (S (N.to_nat token)) (take m es)) as ->.
    { rewrite take_take. f_equal. lia. }
    rewrite <- (take_drop (S (N.to_nat token)) (take m es)) at 2. rewrite replayed_app, length_app. lia.
Qed.

(** ** The indexer *)

Context {St SE K : Type} `{!Source St N SE} `{!SnapshotSink K MerkleLog}.
Implicit Types (i : Indexer St K) (A X : list hash).

(** The folds a rollback can restore, and the current one. *)
Definition log_line i : list MerkleLog := line (engine (driver i)).

(** What holds of the indexer and of the leaves it committed: every fold it has or can return to
    stands for a log that starts with them, and has forgotten only leaves that are durable. The first
    [b] leaves became durable, and the logs started with [X], at some moment before. *)
Record indexed (b : nat) X i (fl : Flight) A : Prop := {
  ix_driver : driver_wf (driver i);
  ix_sorted : StronglySorted (extends A) (log_line i);
  ix_leaves : Forall (λ f, Forall hash_wf (leaves f)) (log_line i);
  ix_floor : Forall (λ f, X `prefix_of` full A f) (log_line i);
  ix_tree : ∃ es n, b ≤ n ∧ accumulates (tree i) fl es A ∧ covered n (tree i) es ∧ Forall (completes n A) (log_line i) ∧
    match pending i with
    | Some (token, m) => N.to_nat token < length es ∧ m ≤ length (replayed None (take (S (N.to_nat token)) es))
    | None => True
    end;
}.

(** One action: of [sync], of the flush thread, or of the chain, which the caller can change. *)
Inductive turn : Indexer St K * Flight → Indexer St K * Flight → Prop :=
| turn_tick i fl d t : runs_to tick (driver i) d t → serving t → turn (i, fl) (put_driver d i, fl)
| turn_commit i fl i' : runs_to (commit_pending par) i i' () → turn (i, fl) (i', fl)
| turn_prune i fl : turn (i, fl) (prune_durable i, fl)
| turn_flush i i' :
    runs_to (sm_unwrap (E' := Empty_set) (on_accumulator RotorTree.flush)) i i' () → turn (i, RotorSpec.Idle) (i', RotorSpec.Idle)
| turn_background i fl s fl' : background (tree i) fl s fl' → turn (i, fl) (put_tree s i, fl')
| turn_source i fl g : turn (i, fl) (put_driver (source_mut g (driver i)) i, fl).

Lemma log_fold_returns : @fold_returns MerkleLog N Empty_set log_fold.
Proof. by intros f p ev. Qed.

(** ** Lemmas: ticks *)

(** What a fold keeps when it takes an event. *)
Definition kept (n : nat) A (f g : MerkleLog) : Prop :=
  extends A f g ∧ (completes n A f → completes n A g) ∧ (Forall hash_wf (leaves f) → Forall hash_wf (leaves g)).
#[local] Instance kept_preorder n A : PreOrder (kept n A).
Proof. split; [done|]. intros f g h (? & ? & ?) (? & ? & ?). split_and!; [by trans g|auto..]. Qed.
Lemma kept_apply n A f p (ev : N) : kept n A f (fold_apply f p ev).1.
Proof.
  split_and!; [apply extends_apply| |].
  - intros Hc. by eapply completes_extends; [exact Hc|done|apply extends_apply].
  - intros Hl. simpl. apply Forall_app. split; [done|]. constructor; [apply leaf_wf|done].
Qed.

Context (Hsrc : @source_returns N St SE _).

Lemma tick_indexed b X i fl A d t :
  indexed b X i fl A → runs_to tick (driver i) d t → serving t → indexed b X (put_driver d i) fl A.
Proof.
  intros [Hd Hs Hl Hfloor (es & n & Hbn & Hacc & Hcov & Hc & Hp)] Ht Hserve.
  destruct (step_safe Hsrc log_fold_returns (driver i) Hd) as (d1 & t1 & Ht1 & Hd1 & _).
  assert (d1 = d ∧ t1 = t) as [-> ->].
  { unfold runs_to, tick in *. rewrite Ht1 in Ht. by injection Ht. }
  destruct (tick_onward (extends A) (extends_apply A) Hsrc _ _ _ Hd Ht Hserve) as [Hsort _].
  destruct (tick_onward (kept n A) (kept_apply n A) Hsrc _ _ _ Hd Ht Hserve) as [_ Hkept].
  assert (∀ P : MerkleLog → Prop, (∀ f g, kept n A f g → P f → P g) → Forall P (log_line i) → Forall P (line (engine d))) as Hall.
  { intros P HP HF. apply Forall_forall. intros g (f & Hf & Hfg)%Hkept. rewrite Forall_forall in HF. eapply HP; [done|auto]. }
  split; [done|by apply Hsort| | |exists es, n; split_and!; [done..| |done]].
  - apply Hall; [|done]. by intros f g (_ & _ & ?).
  - apply Hall; [|done]. intros f g (Hext & _) Hf. by etrans.
  - apply Hall; [|done]. by intros f g (_ & ? & _).
Qed.

(** ** Lemmas: pruning *)

Lemma line_set_fold (e : Engine MerkleLog) f :
  ∃ ps, line e = ps ++ [fold e] ∧ line (set_fold f e) = ps ++ [f].
Proof. by exists (slot_fold <$> oldest_first (checkpoints e) (ring e)). Qed.

Lemma prune_indexed b X i fl A : indexed b X i fl A → indexed b X (prune_durable i) fl A.
Proof.
  intros Hix. pose proof Hix as [Hd Hs Hl Hfloor (es & n & Hbn & Hacc & Hcov & Hc & Hp)]. unfold prune_durable.
  destruct (pending i) as [[token m]|] eqn:Hpend; [|done].
  destruct (is_durable token (tree i)) eqn:Hdur; cbn [negb]; [|done].
  destruct Hp as [Htok Hm]. set (e := engine (driver i)). set (f := prune m (fold e)).
  destruct (line_set_fold e f) as (ps & Hline & Hline').
  assert (covered (Nat.max n m) (tree i) es) as Hcov'.
  { apply covered_max; [done|]. right. by exists token. }
  assert (m ≤ length A) as HmA.
  { rewrite <- (ac_log _ _ _ _ Hacc). etrans; [exact Hm|]. rewrite <- (take_drop (S (N.to_nat token)) es) at 2.
    rewrite replayed_app, length_app. lia. }
  unfold log_line in *. fold e in Hs, Hl, Hfloor, Hc. rewrite Hline in Hs, Hl, Hfloor, Hc.
  apply Forall_app in Hfloor as [Hfps Hff]. rewrite Forall_singleton in Hff.
  apply Forall_app in Hc as [Hcps Hcf]. rewrite Forall_singleton in Hcf.
  apply Forall_app in Hl as [Hlps Hlf]. rewrite Forall_singleton in Hlf.
  destruct (full_prune A (fold e) n m Hcf HmA) as [Hfull Hbase]. fold f in Hfull, Hbase.
  set (i' := put_driver _ i). assert (log_line i' = ps ++ [f]) as Hline1 by exact Hline'.
  split; rewrite ?Hline1.
  - destruct Hd as [Hwf ? ?]. split; [by destruct Hwf|done..].
  - apply StronglySorted_app in Hs as (Hps & Hf & _). apply StronglySorted_app. split_and!; [|done|repeat constructor].
    intros x y Hx ->%list_elem_of_singleton. unfold extends. rewrite Hfull. apply Hps; [done|left].
  - apply Forall_app. split; [done|]. constructor; [|done]. by apply Forall_drop.
  - apply Forall_app. split; [done|]. constructor; [|done]. by rewrite Hfull.
  - exists es, (Nat.max n m). split; [lia|]. change (pending i') with (pending i). rewrite Hpend. split_and!; [done..| |done|done].
    apply Forall_app. split.
    + eapply Forall_impl; [exact Hcps|]. intros x [Hx1 Hx2]. split; [lia|done].
    + constructor; [|done]. destruct Hcf as [Hf1 Hf2]. split; [lia|]. by rewrite Hfull.
Qed.

(** ** Lemmas: committing *)

Lemma usize_checked_sub_le a b : b ≤ a → usize_checked_sub a b = Some (a - b).
Proof. intros Hle. unfold usize_checked_sub. by rewrite (proj2 (Nat.leb_le _ _) Hle). Qed.

(** The durable fold heads the line. *)
Lemma durable_line i A g :
  StronglySorted (extends A) (log_line i) → durable_fold (engine (driver i)) = Some g →
  g ∈ log_line i ∧ fold (engine (driver i)) ∈ log_line i ∧ ∀ f, f ∈ log_line i → extends A g f.
Proof.
  unfold durable_fold, oldest, log_line, line. destruct (oldest_first _ _) as [|sl l]; [done|]. intros Hs [= <-].
  cbn [fmap list_fmap app] in *. apply StronglySorted_inv in Hs as [_ Hall]. rewrite Forall_forall in Hall.
  split_and!; [left|right; set_solver|]. intros f [->|Hf]%elem_of_cons; [done|by apply Hall].
Qed.

(** A commit finds nothing to do, or inserts what the durable log has more: its subtractions and its
    slice are never out of range. *)
Lemma commit_cases b X i fl A :
  indexed b X i fl A →
  commit par i = (i, Returns (Ok None)) ∨
  ∃ g xs, durable_fold (engine (driver i)) = Some g ∧ A ++ xs = full A g ∧ Forall hash_wf xs ∧
    commit par i =
      match insert_many xs (tree i) with
      | (s, Returns (Ok r)) => (put_tree s i, Returns (Ok (Some (r.2, folded g))))
      | (s, _) => (put_tree s i, Panics)
      end.
Proof.
  intros [Hd Hs Hl Hfloor (es & n & Hbn & Hacc & Hcov & Hc & Hp)]. unfold commit. rewrite sm_get_bind.
  destruct (durable_fold (engine (driver i))) as [g|] eqn:Hg; [|by left].
  destruct (durable_line _ _ _ Hs Hg) as (Hgl & Hfl & Hext). specialize (Hext _ Hfl).
  assert (size i = length A) as Hsize.
  { unfold size. rewrite (accumulates_size _ _ _ _ Hacc). apply Nat2N.id. }
  cbn zeta. rewrite Hsize. destruct (folded g <=? length A) eqn:Hle; [by left|]. nbool. right.
  rewrite Forall_forall in Hc. pose proof (Hc _ Hgl) as Hcg. pose proof (Hc _ Hfl) as Hcf.
  destruct (commit_slice n A (fold (engine (driver i))) g Hcf Hcg Hext Hle) as (xs & Hsl & Hxs & Hne).
  assert (base (fold (engine (driver i))) ≤ length A) as Hb by (destruct Hcf; lia).
  assert (xs = slice (length A - base (fold (engine (driver i))))
    (folded g - base (fold (engine (driver i))) - (length A - base (fold (engine (driver i)))))
    (leaves (fold (engine (driver i))))) as Heq.
  { unfold slice_range in Hsl. by destruct (_ && _); simplify_eq. }
  exists g, xs. split_and!; [done|done| |].
  - rewrite Heq. rewrite Forall_forall in Hl. specialize (Hl _ Hfl). by apply Forall_take, Forall_drop.
  - rewrite !usize_checked_sub_le by lia. rewrite !sm_expect_bind, Hsl, sm_expect_bind. unfold sm_unwrap, sm_result, on_accumulator, sm_zoom, mbind, sm_bind.
    destruct (insert_many xs (tree i)) as [s [[[h token]|e]|]]; done.
Qed.

Lemma commit_indexed b X i fl A i' :
  indexed b X i fl A → runs_to (commit_pending par) i i' () → ∃ xs, indexed b X i' fl (A ++ xs).
Proof.
  intros Hix Hr. pose proof Hix as [Hd Hs Hl Hfloor (es & n & Hbn & Hacc & Hcov & Hc & Hp)].
  unfold runs_to, commit_pending in Hr. unfold mbind, sm_bind, sm_modify in Hr.
  destruct (commit_cases b X i fl A Hix) as [Heq|(g & xs & Hg & Hxs & Hwf & Heq)]; rewrite Heq in Hr.
  { injection Hr as <-. exists []. rewrite app_nil_r. destruct i as [d tr pd]. done. }
  destruct (insert_many xs (tree i)) as [s [[[h token]|]|]] eqn:Hins; [|done..]. injection Hr as <-.
  destruct (insert_accumulates _ _ _ _ _ _ _ _ Hacc Hwf Hins) as (Hacc' & Htok & Hk).
  exists xs. set (i' := put_pending _ _). change (log_line i) with (log_line i') in *.
  assert (∀ f, f ∈ log_line i' → full (A ++ xs) f = full A f) as Hfull.
  { intros f Hf. rewrite Forall_forall in Hc. by eapply full_more, Hc. }
  destruct (durable_line i A g Hs Hg) as (Hgl & _ & Hext). change (log_line i) with (log_line i') in *. split.
  - done.
  - revert Hfull Hs. generalize (log_line i'). intros l Hfull Hs. induction Hs as [|x l Hs IH Hx]; constructor.
    + apply IH. intros f Hf. apply Hfull. by right.
    + rewrite Forall_forall in Hx |- *. intros y Hy. unfold extends. rewrite !Hfull by set_solver. by apply Hx.
  - done.
  - rewrite Forall_forall in Hfloor |- *. intros f Hf. rewrite Hfull by done. by apply Hfloor.
  - exists (es ++ [MkEntry token (Batched (Borrowed xs))]), n. split_and!; [done|done| | |].
    + eapply covered_mono; [exact Hk| |exact Hcov]. by apply prefix_app_r.
    + rewrite Forall_forall in Hc |- *. intros f Hf. destruct (Hc f Hf) as [Hb _]. split; [rewrite length_app; lia|].
      rewrite Hfull, Hxs by done. by apply Hext.
    + cbn [pending i' put_pending put_tree]. rewrite length_app. split; [simpl; lia|].
      rewrite take_ge by (rewrite length_app; simpl; lia). rewrite (ac_log _ _ _ _ Hacc').
      rewrite Hxs. rewrite Forall_forall in Hc. by rewrite (length_full _ _ _ (Hc g Hgl)).
Qed.

(** ** Lemmas: runs *)

(** The accumulator moved on, with its leaves and entries as they were. *)
Lemma accumulator_indexed b X i fl A s fl' :
  indexed b X i fl A →
  (∀ es, accumulates (tree i) fl es A → accumulates s fl' es A ∧ keeps_durable (tree i) s) →
  indexed b X (put_tree s i) fl' A.
Proof.
  intros [Hd Hs Hl Hfloor (es & n & Hbn & Hacc & Hcov & Hc & Hp)] Hstep. destruct (Hstep _ Hacc) as [Hacc' Hk].
  split; [done..|]. exists es, n. split_and!; [done|done| |done..]. by eapply covered_mono.
Qed.

Lemma turn_indexed b X i fl A i' fl' :
  indexed b X i fl A → turn (i, fl) (i', fl') → ∃ xs, indexed b X i' fl' (A ++ xs).
Proof.
  intros Hix. inversion 1; subst.
  - exists []. rewrite app_nil_r. by eapply tick_indexed.
  - match goal with Hr : runs_to (commit_pending _) _ _ _ |- _ =>
      destruct (commit_indexed _ _ _ _ _ _ Hix Hr) as (xs & ?) end. by exists xs.
  - exists []. rewrite app_nil_r. by apply prune_indexed.
  - exists []. rewrite app_nil_r.
    match goal with Hr : runs_to (sm_unwrap _) _ _ _ |- _ => rename Hr into Hflush end.
    unfold runs_to, sm_unwrap, sm_result, on_accumulator, sm_zoom, mbind, sm_bind in Hflush.
    destruct (RotorTree.flush (tree i)) as [s [[[]|e]|]] eqn:Hf; [|done..]. injection Hflush as <-.
    eapply accumulator_indexed; [exact Hix|]. intros es Hacc. by eapply flush_accumulates.
  - exists []. rewrite app_nil_r. eapply accumulator_indexed; [exact Hix|]. intros es Hacc.
    by eapply background_accumulates.
  - exists []. rewrite app_nil_r. destruct Hix as [[Hwf Hsp Hb] Hs Hl Hfl Ht]. split; [|done..].
    split; [done| |done]. cbn [driver put_driver source_mut put_source mark marks]. by destruct (marks (driver i)).
Qed.

Lemma turns_indexed b X i fl i' fl' A :
  indexed b X i fl A → rtc turn (i, fl) (i', fl') → ∃ xs, indexed b X i' fl' (A ++ xs).
Proof.
  intros Hix Hr. revert A Hix.
  cut (∀ A, indexed b X (i, fl).1 (i, fl).2 A → ∃ xs, indexed b X (i', fl').1 (i', fl').2 (A ++ xs)); [done|].
  induction Hr as [c|[j gl] [k hl] c Hstep _ IH]; intros A Hix; [exists []; by rewrite app_nil_r|].
  destruct (turn_indexed _ _ _ _ _ _ _ Hix Hstep) as [xs Hix1]. destruct (IH _ Hix1) as [ys Hix'].
  exists (xs ++ ys). by rewrite app_assoc.
Qed.

Context `{!Codec}.

(** An indexer that opens on an empty directory. *)
Definition opens_empty (chain : St) (sink : K) i : Prop :=
  open_indexer par data_dir (Ok true) (opened []) no_data None chain sink = Returns i.

Lemma opens_indexed chain sink i : opens_empty chain sink i → indexed 0 [] i RotorSpec.Idle [].
Proof.
  unfold opens_empty, open_indexer.
  destruct (RotorTree.open _ _ _ _ _ _ _ _) as [fd [[s|]|]] eqn:Ho; [|done..].
  unfold open_driver. destruct (build _ _ _ _ _) as [d|] eqn:Hb; [|done]. intros [= <-].
  destruct (build_line _ _ _ _ _ _ Hb) as [Hd Hline]. split; unfold log_line; cbn [driver]; rewrite ?Hline.
  - done.
  - repeat constructor.
  - by repeat constructor.
  - repeat constructor. apply prefix_nil.
  - exists [], 0. split_and!; [done|by eapply opened_accumulates|by left| |done]. by repeat constructor.
Qed.

(** ** Lemmas: the assertion *)

(** A snapshot serves the leaves it is asked for. *)
Lemma assert_leaves_holds s fl es A ls k :
  accumulates s fl es A → ls `prefix_of` drop k A → assert_leaves (published s) k ls = Returns ().
Proof.
  intros [_ Ht _ Hp] Hls. rewrite Hp. revert k Hls. induction ls as [|l ls IH]; intros k [rest Hk]; [done|].
  cbn [assert_leaves]. rewrite (snapshot_serves_layers ARITY MAX_DEPTH arity_ok depth_ok _ A 0 k Ht). cbn [Nat.leb].
  assert (A !! k = Some l) as Hl.
  { rewrite <- (Nat.add_0_r k), <- lookup_drop, Hk. done. }
  change (layer ARITY 0 A) with A. rewrite Hl, bool_decide_true by done. apply IH. exists rest.
  replace (S k) with (k + 1) by lia. rewrite <- drop_drop, Hk. done.
Qed.

(** The assertion of a run's earlier size and root holds. *)
Lemma assertion_holds b X i fl A B xs r :
  indexed b X i fl A → A = B ++ xs → tree_root ARITY B = Some r →
  assert_committed_prefix (length B) r i = Returns ().
Proof.
  intros [Hd Hs Hl Hfloor (es & n & Hbn & Hacc & Hcov & Hc & Hp)] HA Hr. unfold assert_committed_prefix.
  assert (size i = length A) as Hsize.
  { unfold size. rewrite (accumulates_size _ _ _ _ Hacc). apply Nat2N.id. }
  set (f := fold (engine (driver i))).
  assert (completes n A f) as Hf.
  { rewrite Forall_forall in Hc. apply Hc. unfold log_line, line. set_solver. }
  cbn zeta. fold f. rewrite Hsize. rewrite (proj2 (Nat.leb_le _ _)) by (destruct Hf; lia). cbn [negb].
  rewrite (assert_leaves_holds _ _ _ A _ _ Hacc).
  2: { destruct (retained _ _ _ Hf) as [k Hk].
       assert (Nat.min (length A - base f) (length (leaves f)) = length (drop (base f) A)) as ->
         by (rewrite Hk, length_app, length_drop; lia).
       by rewrite Hk, take_app_length. }
  cbn [mbind outcome_bind].
  assert (B ≠ []) as Hne by (by intros ->).
  pose proof (ac_tree _ _ _ _ Hacc) as Ht. pose proof (snapshot_rep ARITY MAX_DEPTH arity_ok depth_ok _ _ Ht) as Hsn.
  rewrite <- (ac_published _ _ _ _ Hacc) in Hsn.
  destruct (consistency_complete ARITY MAX_DEPTH arity_ok (published (tree i)) A (length B) r) as (c & Hg & Hold & _ & Hv).
  - unfold ARITY. lia.
  - exact Hsn.
  - rewrite HA, length_app. destruct B; [done|simpl; lia].
  - rewrite Hg. unfold verify_transition, verify_consistency_against. rewrite Hold, !bool_decide_true by done. cbn [negb orb]. rewrite Hv, HA, take_app_length, Hr.
    by rewrite bool_decide_true.
Qed.

(** The loop of [sync] is made of turns. *)
Lemma sync_turn_turns i i' returned : runs_to (sync_turn par) i i' returned → rtc turn (i, RotorSpec.Idle) (i', RotorSpec.Idle).
Proof.
  unfold runs_to, sync_turn. intros Hr. unfold mbind at 1, sm_bind at 1, on_driver, sm_zoom in Hr.
  destruct (tick (driver i)) as [d [[t|[]]|]] eqn:Ht; [|done].
  unfold mbind at 1, sm_bind at 1 in Hr. destruct (commit_pending par (put_driver d i)) as [i1 [[[]|[]]|]] eqn:Hc; [|done].
  rewrite sm_modify_bind in Hr. assert (serving t) as Hs by by destruct t.
  eapply rtc_l; [by apply (turn_tick i _ d t)|]. eapply rtc_l; [by apply turn_commit|]. eapply rtc_l; [apply turn_prune|].
  destruct t; try (injection Hr as <- _; apply rtc_refl); [|done..].
  unfold mbind at 1, sm_bind at 1 in Hr.
  destruct (sm_unwrap (on_accumulator RotorTree.flush) (prune_durable i1)) as [i2 [[[]|[]]|]] eqn:Hf; [|done].
  rewrite sm_modify_bind in Hr. injection Hr as <- _.
  eapply rtc_l; [by apply turn_flush|]. apply rtc_once, turn_prune.
Qed.

Lemma sync_turns fuel i i' returned :
  runs_to (sync par fuel) i i' returned → rtc turn (i, RotorSpec.Idle) (i', RotorSpec.Idle).
Proof.
  revert i. induction fuel as [|fuel IH]; intros i Hr; [injection Hr as <- _; apply rtc_refl|].
  unfold runs_to in Hr. cbn [sync] in Hr. unfold mbind at 1, sm_bind at 1 in Hr.
  destruct (sync_turn par i) as [i1 [[done_|[]]|]] eqn:Ht; [|done]. etrans; [by eapply sync_turn_turns|].
  destruct done_; [injection Hr as <- _; apply rtc_refl|by apply IH].
Qed.

(** From any moment on, the logs start with the log that is durable at it. *)
Lemma indexed_durable b X i fl A f :
  indexed b X i fl A → durable_fold (engine (driver i)) = Some f → indexed (base f) (full A f) i fl A.
Proof.
  intros [Hd Hs Hl Hfloor (es & n & Hbn & Hacc & Hcov & Hc & Hp)] Hf.
  destruct (durable_line _ _ _ Hs Hf) as (Hin & _ & Hext). split; [done..| |].
  - apply Forall_forall. intros g Hg. by apply Hext.
  - exists es, n. split_and!; [|done..]. rewrite Forall_forall in Hc. by destruct (Hc _ Hin) as [[? _] _].
Qed.

(** ** Properties *)



End accumulator.

(** ** Examples: a chain with an event on every second block *)

Module MerkleEx.
Import Codec.Toy.
#[local] Existing Instances Hash.Toy.hasher Hash.Toy.hasher_laws iscsi iscsi_laws plain ConvergenceEx.serve.

(** The blocks up to [tip]; those from [fork] on are of another branch. *)
Definition branch_from (fork tip : N) : Chain N :=
  MkChain _ 0 tip (λ n, le_bytes 32 (if (n <? fork)%N then n else n + 500))
    (λ n, if N.odd n then [(0, if n <? fork then n else n + 500)]%N else []).

Definition dir : Path := ["accumulator"%string].
Definition ex_sync (n : nat) : SM (Indexer (Chain N) NoSink) Empty_set bool := sync None n.

Lemma serve_returns : @source_returns N (Chain N) () ConvergenceEx.serve.
Proof. split; done. Qed.

Lemma log_shape : shape_ok ARITY MAX_DEPTH.
Proof. vm_compute. discriminate. Qed.

(** An indexer on an empty directory, and caught up with the chain. *)
Definition ex_open : Indexer (Chain N) NoSink :=
  MkIndexer (MkDriver (MkEngine log_default None (with_capacity RING_CAPACITY) (cp_new CHECKPOINT_SLOTS) Active None 0 0)
      (branch_from 100 30) () (MkDriverConfig 0 DEFAULT_POLL_INTERVAL DEFAULT_BACKOFF_BASE DEFAULT_BACKOFF_MAX
        (Some CHECKPOINT_INTERVAL) (Some CHECKPOINT_INTERVAL)) batch_new [] log_default
      (MkMarks 0 false 0 None None 0 false false MAX_SPAN None None None))
    (opened_state ARITY MAX_DEPTH (tree_new MAX_DEPTH) []) None.
Definition ex_caught_up : Indexer (Chain N) NoSink := (ex_sync 20 ex_open).1.

(** The last blocks replaced, and the indexer caught up with the new ones. *)
Definition ex_reorg : Indexer (Chain N) NoSink :=
  put_driver (source_mut (λ _, branch_from 27 36) (driver ex_caught_up)) ex_caught_up.
Definition ex_recovered : Indexer (Chain N) NoSink := (ex_sync 20 ex_reorg).1.

Lemma ex_opens : opens_empty None dir (branch_from 100 30) () ex_open.
Proof. vm_compute. reflexivity. Qed.

Lemma ex_syncs (i : Indexer (Chain N) NoSink) :
  (ex_sync 20 i).2 = Returns (Ok true) → runs_to (ex_sync 20) i (ex_sync 20 i).1 true.
Proof. intros Hr. unfold runs_to. rewrite <- Hr. apply surjective_pairing. Qed.

Lemma ex_to_caught_up : rtc (turn None) (ex_open, RotorSpec.Idle) (ex_caught_up, RotorSpec.Idle).
Proof. apply (sync_turns None 20 _ _ true), ex_syncs. vm_compute. reflexivity. Qed.

Lemma ex_to_recovered : rtc (turn None) (ex_caught_up, RotorSpec.Idle) (ex_recovered, RotorSpec.Idle).
Proof.
  eapply rtc_l; [apply (turn_source None ex_caught_up)|].
  apply (sync_turns None 20 _ _ true), ex_syncs. vm_compute. reflexivity.
Qed.


(** The state that was durable before the blocks were replaced: it has forgotten nothing yet, as every
    fold that was checkpointed before the last flush. *)
Definition ex_durable : MerkleLog := default log_default (durable_fold (engine (driver ex_caught_up))).


(** ** A restart over a reorganisation *)

(** The snapshot that an early tick offered, and the log of the accumulator as it was when caught up:
    what a crash leaves when the flusher did not get to its later snapshots. *)
Definition ex_snapshot : bytes :=
  (encode_durable_snapshot (PE := ()) (engine (driver (sync_turn None ex_open).1)) []).1.
Definition ex_left : bytes := WalFile.synced (wal_file (tree ex_caught_up)).

(** What [n] leaves of the accumulator are, from the index [k] on. *)
Definition ex_committed (k n : nat) (i : Indexer (Chain N) NoSink) : list (option (result hash TreeError)) :=
  get_node (published (tree i)) 0 <$> seq k n.

(** The indexer that reopens on a chain whose blocks from 12 on were replaced, and catches up. *)
Definition ex_reopened : outcome (Indexer (Chain N) NoSink) :=
  open_indexer None dir (Ok true) (opened ex_left) no_data (Some ex_snapshot) (branch_from 12 40) ().
Definition ex_restarted : Indexer (Chain N) NoSink := match ex_reopened with Returns i => i | Panics => ex_open end.
Definition ex_resumed : Indexer (Chain N) NoSink := (ex_sync 20 ex_restarted).1.

Lemma restart_opens :
  match ex_reopened with Returns _ => true | Panics => false end = true ∧
  cursor (engine (driver ex_restarted)) = Some (MkPosition 1 0) ∧ size ex_restarted = 9.
Proof. vm_compute. done. Qed.

(** The counts alone reconcile the two sides: with a snapshot of block 1 and an accumulator that
    reaches block 17, the new leaves from block 19 on go behind the three of the blocks that are gone.
    The assertion holds: the leaves it could compare are forgotten by then. *)
Lemma restart_keeps_orphans :
  (ex_sync 20 ex_restarted).2 = Returns (Ok true) ∧
  ex_committed 5 6 ex_resumed = Some ∘ Ok <$> [leaf (MkPosition 11 0) 11; leaf (MkPosition 13 0) 13;
    leaf (MkPosition 15 0) 15; leaf (MkPosition 17 0) 17; leaf (MkPosition 19 0) 519; leaf (MkPosition 21 0) 521] ∧
  ch_logs (source (driver ex_resumed)) 13 = [(0, 513)]%N ∧
  match root ex_restarted with
  | Returns r => assert_committed_prefix 9 r ex_resumed
  | Panics => Panics
  end = Returns ().
Proof. vm_compute. done. Qed.
End MerkleEx.
